(* ===== verification/_CoqProject ===== *)
-Q . S2P
Prelude.v
Errors.v
KObject.v
Wait.v
Rights.v
Handles.v
Locks.v
Peer.v
Channel.v
Fifo.v
Socket.v
Transfer.v
PortPacket.v
Port.v
Futex.v
Timers.v
Thread.v
Policy.v
Task.v
PageTable.v
Vmo.v
Vmar.v
VmarProps.v
VmarSyscall.v
Paged.v
PagedProps.v
PagedRoot.v
PagedSpec.v
VmObject.v
Stream.v
Backings.v
Exception.v
Spin.v
RegionAllocator.v
Device.v
LinuxSync.v
LinuxSignal.v
LinuxProcess.v
LinuxPath.v
LinuxFiles.v
