(* ===== verification/Prelude.v ===== *)
(** * zCore: a verification of the kernel objects and of the Linux layer over them

    zCore is a kernel in Rust that offers the system calls of Zircon (and of Linux) on top of
    one set of kernel objects.  This library is a shallow embedding of the objects of Zircon and
    of the parts of the Linux layer that keep a state of their own: each operation of the source
    is a function on an explicit state, with the names of the source, and the theorems are about
    these functions.

    ** The program and its model

    User code names objects by handles ([zircon-syscall], files [src/zircon-syscall/src]); the
    objects ([src/zircon-object/src]) are reference counted and guarded by spin locks, signal
    each other through the signals of their base, and use the hardware through
    [src/kernel-hal].

    - [Prelude] (this file): results with panics, wrapping integers, bit flags, the tactics.
      [Errors]: [error.rs].
    - [KObject]: the object base with its signals and callbacks ([object/mod.rs],
      [object/signal.rs]).  [Wait]: [wait_signal] and [wait_signal_many], polled in steps that
      interleave with the changes of signals.  [Rights], [Handles]: rights and handles, the
      handle table of a process, the handle system calls ([object/rights.rs],
      [object/handle.rs], [task/process.rs], [zircon-syscall/src/handle.rs]).
    - [Locks]: spin locks and deadlocks between sequences of lock operations, used for the
      order of locks in [Futex], [Timers] and [Task].
    - [Peer]: the pairs of endpoints that [Channel], [Fifo], [Socket] and event pairs share
      ([ipc/*.rs], [signal/eventpair.rs]).  [Transfer]: the system calls on channels, which move
      handles between the tables of processes ([zircon-syscall/src/channel.rs]).
    - [PortPacket], [Port]: packets in their C layout, queues, observers and interrupts of
      ports ([signal/port_packet.rs], [signal/port.rs]).
    - [Futex]: [signal/futex.rs].  [Timers]: timers with the queue of the platform, events,
      counters, clocks ([signal/timer.rs], [signal/event.rs], [object/counter.rs],
      [object/clock.rs], [kernel-hal/src/bare/timer.rs]).
    - [Thread]: the life of one thread ([task/thread.rs]).  [Policy]: job policies
      ([task/job_policy.rs]).  [Task]: the tree of jobs, processes and threads
      ([task/job.rs], [task/process.rs]).  [Exception]: exceptions and the channels of their
      handlers ([task/exception.rs]).
    - [PageTable]: the radix page tables with the entries of x86-64 and RISC-V
      ([kernel-hal/src/utils/page_table.rs], [common/vm.rs], [bare/arch/*/vm.rs]).
    - [Vmo]: the arithmetic of pages, the block iterator, physical memory objects and slices
      ([vm/mod.rs], [util/block_range.rs], [vm/vmo/physical.rs], [vm/vmo/slice.rs]).
    - [Vmar], [VmarProps], [VmarSyscall]: address regions and mappings, the theorems about
      them, and their system calls ([vm/vmar.rs], [zircon-syscall/src/vmar.rs]).
    - [Paged], [PagedProps], [PagedRoot], [PagedSpec]: paged memory objects with their
      copy-on-write clones ([vm/vmo/paged.rs]), their invariant, the operations on objects
      without clones, and their specification as byte arrays.
    - [VmObject], [Stream], [Backings]: content and size of memory objects ([vm/vmo/mod.rs]),
      streams with their system calls ([vm/stream.rs], [zircon-syscall/src/stream.rs]), and the
      implementations of the interface between them and the kinds of memory.
    - [Device]: resources and interrupts ([dev/resource.rs], [dev/interrupt], the calls of
      [zircon-syscall/src/resource.rs] and [ddk.rs] on them).  [RegionAllocator]:
      [vendor/region-allocator].  [Spin]: the locks of [drivers/src/sync] as atomic steps.
    - [LinuxSync]: errors, event bus, semaphores and pipes ([linux-object/src/error.rs], [sync],
      [fs/pipe.rs]).  [LinuxSignal]: signals and their delivery ([linux-object/src/signal],
      [thread.rs], [linux-syscall/src/signal.rs], [loader/src/linux.rs]).  [LinuxProcess]:
      waiting for children ([linux-object/src/process.rs], [linux-syscall/src/task.rs]).
    - [LinuxPath]: paths, the working directory and directory records.  [LinuxFiles]: open
      files, the descriptors of processes and the system calls on them
      ([linux-object/src/fs], [process.rs], [linux-syscall/src/file]).

    Parts meet at interfaces, which are type classes: [GenericPTE] with [PTELaws] (the format
    of page table entries, two instances), [UserTable] (what regions use of a page table,
    implemented by [PageTable]), [VmObjects] (what regions use of memory objects, implemented
    by [Vmo]), [Backing] with [BackingLaws] (the memory behind a [VmObject], implemented by
    physical and paged objects), and two that stand for crates outside of the source:
    [FrameAllocator] (the allocator of frames) and [Vfs] with [RegularVfs] (the file systems).
    Parts that the source reaches through callbacks or futures appear as the world [W] that
    signal callbacks thread, or as steps of a relation.

    ** What is shown

    Invariants over every history of operations: handle values are handed out once and cancel
    tokens follow their entries; in the task tree everything below a killed job is killed,
    however the calls of several threads interleave;
    sleepers of futexes are queued where they wait; the signals of channels, sockets and
    threads describe their state; the regions of an address space form a tree of disjoint
    ranges, and the page table translates only what the mappings allow; an exception is with
    one handler; readers and writers of a spin lock exclude each other; a descriptor of a Linux
    process changes only by calls on it; pending signals are those sent and not delivered.

    Functional correctness and refinement: channels, fifos, stream and datagram sockets and
    ports deliver in order and lose nothing; a timer with its queue of callbacks is a timer
    with one deadline; the radix tables are a map from pages to frames; copy-on-write objects
    are independent byte arrays, whatever frames they share, within the limits below; mapping, unmapping, protecting,
    destroying and faulting change exactly what they should; packets survive their C layout;
    policies are effective as documented; counters are exact or unchanged; streams are files,
    on memory that keeps the laws of [Backing];
    the region allocator is a set of addresses; interrupts deliver the packets that their
    specification asks for; exceptions go to their handlers in the documented order; pipes
    deliver in order and end exactly when the last write descriptor of all processes is gone;
    the working directory is a stack of names; [copy_file_range] and [getdents64] do exactly
    what they report; a returning signal handler restores its thread, but for one register; writing to a
    channel sends exactly the handles that may be sent, and takes those that are moved whatever happens.

    Progress: waits lose no wake-up, a call completes with the first message that has its id, the cascades of kills
    end, a killed job without threads terminates, a killed thread does not stay blocked, the
    handling of an exception ends, a ticket lock is granted in order.

    Rights: duplication and mapping grant no right that the handle lacks; whatever processes send
    each other, no handle gains rights and only those that may be duplicated get more;
    resources allow nothing that the ones they come from did not.

    Some theorems show where the code does not do what it means to: a request of
    [sys_handle_replace] that gains rights, a lost wake-up of futexes, lock orders that
    deadlock, a clone whose closing erases its parent, page table updates that map frame 0, an exit
    that a waiting Linux process misses, a child lost to a [wait4] with a bad pointer, a thread added to or
    started in a process that terminates meanwhile, a [dup2] that closes the descriptor it duplicates.

    ** Limits

    Some theorems are about the histories in which the operations keep to what the code can do, and
    the comments of the theorems say so: [op_ok] in [VmarProps] (ranges that end within a word, mappings
    for user mode, no fork of a region), in [PagedSpec] (only objects that are no clones and have none are zeroed,
    decommitted or resized, and only those at most one clone away from the root are closed), in [RegionAllocator] (ranges that
    are not empty, below [2 ^ 63]) and in [Device] (positive times; no hardware interrupt during [destroy]);
    [op_legal] and [op_apart] in [Task] (a thread is started once, and none is added to a process that is about to terminate).
    [BackingLaws] is shown for physical memory and for paged objects without clones.

    ** Conventions

    Integers of the machine are [Z] with the wrap-around written out ([+u], [wadd]); the
    kernel is built without overflow checks.  A failed assertion, an index out of range or an
    [unwrap] of [None] is [Panic].  An operation that holds the lock of its object throughout
    is one step; where the source releases a lock in between, and where the order of locks
    matters, the parts are separate steps.  [Weak] references are names of objects that may be
    gone.

    Recursion that is not structural takes fuel, and running out of it is [Panic], which the
    theorems exclude: the depth of region and clone trees is bounded by the number of their
    nodes, since children are younger than their parents; loops over ranges are bounded by
    the number of pages; the cascades of the task tree by a measure that every call decreases; the
    loops of [copy_file_range] and [getdents64] by the bytes and entries that are left.
    Histories are bounded only where a counter would wrap: [2 ^ 30] operations on a handle
    table, [2 ^ 31] on a channel (its transaction ids), [2 ^ 64] on a port (its observers), fewer than [2 ^ 31 / 3] calls in
    [LinuxFiles] (the numbers of descriptors), [2 ^ 61] for the count of a semaphore, [2 ^ 64]
    steps of a ticket lock.

    ** Not modelled

    Drivers, boot and interrupt entry, registers of threads, the hypervisor and PCI objects
    are code for the hardware or wrappers of other crates.  Of the Linux layer, sockets, System
    V IPC, the mapping of memory, [execve] and the calls that only query or pass on to the file
    system are left out; the loaders and the build tools are separate programs.  The decoding of user
    pointers is a parameter of the system calls that are modelled; the others only decode
    pointers and call the modelled operations.  Statistics ([get_info] of regions and tasks,
    page counters) and names in debug output are left out.  Memory ordering of the atomic
    operations and the allocation of kernel memory are not part of the model. *)

From stdpp Require Export base tactics numbers list gmap.
From stdpp Require Import options.

Global Open Scope Z_scope.

(** ** Rust results

    [Ok]/[Err] are the two constructors of [ZxResult]; [Panic] is the outcome of
    a failed [assert!], an [unwrap] of [None] or an out-of-range index, which in
    the source aborts the call instead of returning a status. *)

Inductive result (E A : Type) : Type :=
| Ok (a : A)
| Err (e : E)
| Panic.
Arguments Ok {E A} a.
Arguments Err {E A} e.
Arguments Panic {E A}.

Definition rbind {E A B} (r : result E A) (k : A → result E B) : result E B :=
  match r with
  | Ok a => k a
  | Err e => Err e
  | Panic => Panic
  end.

Definition rmap {E A B} (f : A → B) (r : result E A) : result E B :=
  rbind r (λ a, Ok (f a)).

(** [o.ok_or(e)?] *)
Definition ok_or {E A} (o : option A) (e : E) : result E A :=
  match o with Some a => Ok a | None => Err e end.

(** [o.unwrap()] *)
Definition unwrap {E A} (o : option A) : result E A :=
  match o with Some a => Ok a | None => Panic end.

Declare Scope result_scope.
Delimit Scope result_scope with result.
Notation "'let?' x ':=' c1 'in' c2" := (rbind c1 (λ x, c2))
  (at level 10, x pattern, c1 at level 200, c2 at level 200) : result_scope.
Global Open Scope result_scope.

Definition is_ok {E A} (r : result E A) : bool :=
  match r with Ok _ => true | _ => false end.

Lemma rbind_Ok {E A B} (r : result E A) (k : A → result E B) b :
  rbind r k = Ok b ↔ ∃ a, r = Ok a ∧ k a = Ok b.
Proof. destruct r; naive_solver. Qed.

Lemma ok_or_Ok {E A} (o : option A) (e : E) a : ok_or o e = Ok a ↔ o = Some a.
Proof. destruct o; naive_solver. Qed.

(** ** Machine integers

    A w-bit unsigned value is a [Z] in [0, 2^w).  The workspace builds the kernel
    with the release profile and sets no [overflow-checks], so [+], [-] and [*]
    wrap; the wrapping operations are written out. *)

Definition wrap (w x : Z) : Z := x mod 2 ^ w.
Definition wadd (w a b : Z) : Z := wrap w (a + b).
Definition wsub (w a b : Z) : Z := wrap w (a - b).
Definition wmul (w a b : Z) : Z := wrap w (a * b).
Definition fits (w x : Z) : Prop := 0 ≤ x < 2 ^ w.

Definition u32_max : Z := 2 ^ 32 - 1.
Definition usize_max : Z := 2 ^ 64 - 1.

(** [usize] arithmetic (64-bit targets). *)
Notation "a +u b" := (wadd 64 a b) (at level 50, left associativity) : Z_scope.
Notation "a -u b" := (wsub 64 a b) (at level 50, left associativity) : Z_scope.
Notation "a *u b" := (wmul 64 a b) (at level 40, left associativity) : Z_scope.

(** Integer division, which panics on a zero divisor. *)
Definition checked_div {E} (a b : Z) : result E Z := if b =? 0 then Panic else Ok (a / b).

(** [i64] range and its checked and saturating operations. *)
Definition i64_min : Z := - 2 ^ 63.
Definition i64_max : Z := 2 ^ 63 - 1.
Definition in_i64 (x : Z) : Prop := i64_min ≤ x ≤ i64_max.
Definition i64_checked_add (a b : Z) : option Z :=
  let s := a + b in
  if (i64_min <=? s) && (s <=? i64_max) then Some s else None.
Definition i64_saturate (x : Z) : Z := Z.max i64_min (Z.min i64_max x).

Lemma wrap_small w x : fits w x → wrap w x = x.
Proof. intros ?. by apply Z.mod_small. Qed.

Lemma wrap_fits w x : 0 ≤ w → fits w (wrap w x).
Proof. intros ?. apply Z.mod_pos_bound. by apply Z.pow_pos_nonneg. Qed.

Lemma wadd_small w a b : fits w (a + b) → wadd w a b = a + b.
Proof. apply wrap_small. Qed.

Lemma wsub_small w a b : fits w (a - b) → wsub w a b = a - b.
Proof. apply wrap_small. Qed.

Lemma wmul_small w a b : fits w (a * b) → wmul w a b = a * b.
Proof. apply wrap_small. Qed.

(** ** Bit flags (the [bitflags!] types) *)

Definition bit (k : Z) : Z := Z.shiftl 1 k.
Definition contains (s f : Z) : bool := Z.land s f =? f.
Definition intersects (s f : Z) : bool := negb (Z.land s f =? 0).
Definition flag_remove (s f : Z) : Z := Z.ldiff s f.
Definition flag_insert (s f : Z) : Z := Z.lor s f.
Definition flag_is_empty (s : Z) : bool := s =? 0.
(** [T::from_bits(x)]: defined only when every set bit is a declared flag. *)
Definition from_bits (all x : Z) : option Z :=
  if Z.ldiff x all =? 0 then Some x else None.
(** [T::from_bits_truncate(x)] *)
Definition from_bits_truncate (all x : Z) : Z := Z.land x all.

Lemma bit_testbit k j : 0 ≤ k → Z.testbit (bit k) j = bool_decide (j = k).
Proof.
  intros Hk. unfold bit. rewrite Z.shiftl_1_l.
  destruct (decide (j = k)) as [->|Hne].
  - rewrite bool_decide_true by done. by apply Z.pow2_bits_true.
  - rewrite bool_decide_false by done. apply Z.pow2_bits_false. lia.
Qed.

Lemma contains_spec s f :
  contains s f = true ↔ ∀ k, 0 ≤ k → Z.testbit f k = true → Z.testbit s k = true.
Proof.
  unfold contains. rewrite Z.eqb_eq. split.
  - intros <- k Hk. rewrite Z.land_spec. by intros [??]%andb_prop.
  - intros H. apply Z.bits_inj'. intros k Hk. rewrite Z.land_spec.
    specialize (H k Hk). destruct (Z.testbit f k); [by rewrite H|by rewrite andb_false_r].
Qed.

Lemma contains_refl s : contains s s = true.
Proof. unfold contains. by rewrite Z.land_diag, Z.eqb_refl. Qed.

Lemma contains_bit s k : 0 ≤ k → contains s (bit k) = Z.testbit s k.
Proof.
  intros Hk. apply eq_true_iff_eq. rewrite contains_spec. split.
  - intros H. apply H; [done|]. rewrite bit_testbit by done. by apply bool_decide_true.
  - intros H j Hj. rewrite bit_testbit by done. by intros ->%bool_decide_eq_true.
Qed.

Lemma intersects_bit s k : 0 ≤ k → intersects s (bit k) = Z.testbit s k.
Proof.
  intros Hk. rewrite <-contains_bit by done. unfold intersects, contains.
  destruct (Z.testbit s k) eqn:E.
  - assert (Z.land s (bit k) = bit k) as ->.
    { apply Z.eqb_eq. change (contains s (bit k) = true). by rewrite contains_bit. }
    rewrite Z.eqb_refl. unfold bit. rewrite Z.shiftl_1_l.
    assert (0 < 2 ^ k) by (by apply Z.pow_pos_nonneg).
    destruct (Z.eqb_spec (2 ^ k) 0); [lia|done].
  - assert (Z.land s (bit k) = 0) as ->.
    { apply Z.bits_inj'. intros j Hj. rewrite Z.land_spec, bit_testbit, Z.bits_0 by done.
      destruct (decide (j = k)) as [->|]; [by rewrite E|].
      by rewrite bool_decide_false, andb_false_r by done. }
    unfold bit. rewrite Z.shiftl_1_l, Z.eqb_refl.
    assert (0 < 2 ^ k) by (by apply Z.pow_pos_nonneg).
    symmetry. apply Z.eqb_neq. lia.
Qed.

Lemma from_bits_Some all x y : from_bits all x = Some y ↔ y = x ∧ contains all x = true.
Proof.
  unfold from_bits. rewrite contains_spec. destruct (Z.eqb_spec (Z.ldiff x all) 0) as [E|E].
  - split; [|naive_solver]. intros [= <-]. split; [done|]. intros k Hk Hx.
    assert (Z.testbit (Z.ldiff x all) k = false) as Hb by (by rewrite E, Z.bits_0).
    rewrite Z.ldiff_spec, Hx in Hb. by destruct (Z.testbit all k).
  - split; [done|]. intros [-> H]. destruct E. apply Z.bits_inj'. intros k Hk.
    rewrite Z.ldiff_spec, Z.bits_0. specialize (H k Hk).
    destruct (Z.testbit x k); [by rewrite H|done].
Qed.

(** ** Sequences indexed by machine integers *)

Definition zlen {A} (l : list A) : Z := Z.of_nat (length l).
Definition ztake {A} (n : Z) (l : list A) : list A := take (Z.to_nat n) l.
Definition zdrop {A} (n : Z) (l : list A) : list A := drop (Z.to_nat n) l.
Definition is_empty {A} (l : list A) : bool := match l with [] => true | _ => false end.

(** [buf[..src.len()].copy_from_slice(src)], element by element, on a buffer that
    is at least as long. *)
Definition overwrite {A} (buf src : list A) : list A := src ++ drop (length src) buf.

Section zlists.
Context {A : Type}.
Implicit Types l k : list A.

Lemma zlen_nonneg l : 0 ≤ zlen l.
Proof. unfold zlen. lia. Qed.

Lemma zlen_nil : zlen (@nil A) = 0.
Proof. done. Qed.

Lemma zlen_cons x l : zlen (x :: l) = 1 + zlen l.
Proof. unfold zlen. simpl. lia. Qed.

Lemma zlen_app l k : zlen (l ++ k) = zlen l + zlen k.
Proof. unfold zlen. rewrite length_app. lia. Qed.

Lemma zlen_ztake n l : 0 ≤ n → zlen (ztake n l) = Z.min n (zlen l).
Proof. intros. unfold zlen, ztake. rewrite length_take. lia. Qed.

Lemma zlen_zdrop n l : 0 ≤ n → zlen (zdrop n l) = Z.max 0 (zlen l - n).
Proof. intros. unfold zlen, zdrop. rewrite length_drop. lia. Qed.

Lemma ztake_zdrop n l : ztake n l ++ zdrop n l = l.
Proof. apply take_drop. Qed.

Lemma ztake_all n l : zlen l ≤ n → ztake n l = l.
Proof. unfold zlen, ztake. intros. apply take_ge. lia. Qed.

Lemma ztake_app n l k : 0 ≤ n ≤ zlen l → ztake n (l ++ k) = ztake n l.
Proof. unfold zlen, ztake. intros. apply take_app_le. lia. Qed.

Lemma zlen_0 l : zlen l = 0 ↔ l = [].
Proof. destruct l; [done|]. rewrite zlen_cons. pose proof (zlen_nonneg l). split; [lia|done]. Qed.

Lemma is_empty_zlen l : is_empty l = (zlen l =? 0).
Proof. destruct l; [done|]. rewrite zlen_cons. pose proof (zlen_nonneg l). simpl. lia. Qed.

Lemma length_overwrite (buf src : list A) :
    (length src ≤ length buf)%nat → length (overwrite buf src) = length buf.
Proof. intros. unfold overwrite. rewrite length_app, length_drop. lia. Qed.
End zlists.

Lemma foldl_step_ext {A B} (f g : A → B → A) (l : list B) x :
  (∀ y z, f y z = g y z) → foldl f x l = foldl g x l.
Proof. intros H. revert x. induction l as [|z l IH]; intros x; simpl; [done|]. by rewrite H, IH. Qed.

Lemma existsb_false {A} (f : A → bool) (l : list A) : existsb f l = false ↔ ∀ y, y ∈ l → f y = false.
Proof.
  rewrite <-not_true_iff_false, existsb_exists. setoid_rewrite <-list_elem_of_In. split.
  - intros Hn y Hy. apply not_true_iff_false. eauto.
  - intros Hf (y & Hy & Hp). by rewrite (Hf y Hy) in Hp.
Qed.

Lemma filter_everything {A} (Q : A → Prop) `{∀ z, Decision (Q z)} (l : list A) : (∀ z, z ∈ l → Q z) → filter Q l = l.
Proof.
  induction l as [|z l IH]; intros Hall; [done|]. rewrite filter_cons_True by (apply Hall; by left). f_equal. apply IH. intros y Hy. apply Hall. by right.
Qed.

Lemma filter_full {A} (Q : A → Prop) `{∀ z, Decision (Q z)} (l : list A) : length (filter Q l) = length l → filter Q l = l.
Proof.
  induction l as [|z l IH]; [done|]. rewrite filter_cons. destruct (decide (Q z)); simpl.
  - intros [= E]. f_equal. by apply IH.
  - pose proof (length_filter Q l). lia.
Qed.

Lemma filter_disjoint {A} (Q1 Q2 : A → Prop) `{∀ z, Decision (Q1 z), ∀ z, Decision (Q2 z)} (l : list A) :
  (∀ z, Q1 z → Q2 z → False) → length (filter (λ z, Q1 z ∨ Q2 z) l) = (length (filter Q1 l) + length (filter Q2 l))%nat.
Proof.
  intros Hd. induction l as [|z l IH]; [done|]. rewrite !filter_cons. specialize (Hd z).
  destruct (decide (Q1 z)), (decide (Q2 z)), (decide (Q1 z ∨ Q2 z)); simpl; tauto || lia.
Qed.

(** ** Little-endian images of integers *)

Fixpoint le_bytes (n : nat) (x : Z) : list Z :=
  match n with O => [] | S n => x mod 256 :: le_bytes n (x / 256) end.
Fixpoint le_value (bs : list Z) : Z :=
  match bs with [] => 0 | b :: bs => b + 256 * le_value bs end.

Lemma length_le_bytes n x : length (le_bytes n x) = n.
Proof. revert x. induction n as [|n IH]; intros x; simpl; [done|]. by rewrite IH. Qed.

#[global] Arguments le_bytes : simpl never.

Lemma le_roundtrip n x : 0 ≤ x < 256 ^ Z.of_nat n → le_value (le_bytes n x) = x.
Proof.
  revert x. induction n as [|n IH]; intros x Hx; unfold le_bytes; fold le_bytes; simpl.
  - change (256 ^ Z.of_nat 0) with 1 in Hx. lia.
  - rewrite IH.
    + pose proof (Z.div_mod x 256). lia.
    + rewrite Nat2Z.inj_succ, Z.pow_succ_r in Hx by lia. split; [apply Z.div_pos; lia|].
      apply Z.div_lt_upper_bound; lia.
Qed.

(** ** Automation *)

Create HintDb zcore.
#[export] Hint Resolve zlen_nonneg : zcore.
Create Rewrite HintDb zlen.
#[export] Hint Rewrite @zlen_nil @zlen_cons @zlen_app : zlen.

(** Decide the boolean comparisons of a goal or hypothesis. *)
Ltac bcase :=
  repeat match goal with
  | |- context [Z.eqb ?a ?b] => destruct (Z.eqb_spec a b)
  | |- context [Z.leb ?a ?b] => destruct (Z.leb_spec a b)
  | |- context [Z.ltb ?a ?b] => destruct (Z.ltb_spec a b)
  | H : context [Z.eqb ?a ?b] |- _ => destruct (Z.eqb_spec a b)
  | H : context [Z.leb ?a ?b] |- _ => destruct (Z.leb_spec a b)
  | H : context [Z.ltb ?a ?b] |- _ => destruct (Z.ltb_spec a b)
  end.

(** Evaluate [Z.testbit] on closed flag constants after pushing it through the
    flag operations. *)
Ltac testbits :=
  unfold flag_remove, flag_insert in *;
  repeat first [rewrite Z.lor_spec | rewrite Z.ldiff_spec | rewrite Z.land_spec
               | rewrite Z.bits_0];
  repeat match goal with
  | |- context [Z.testbit ?c ?k] =>
      let v := eval vm_compute in (Z.testbit c k) in
      lazymatch v with
      | true => change (Z.testbit c k) with true
      | false => change (Z.testbit c k) with false
      end
  end;
  rewrite ?andb_true_r, ?andb_false_r, ?orb_true_r, ?orb_false_r; simpl negb.

(** Case split on every scrutinee of a [match] or [if] in the goal. *)
Ltac split_matches :=
  repeat match goal with
  | |- context [match ?x with _ => _ end] => destruct x eqn:?; simplify_eq/=
  end.

(** Invert a chain of [let?]. *)
Ltac inv_bind :=
  repeat match goal with
  | H : rbind _ _ = Ok _ |- _ => apply rbind_Ok in H as (? & ? & ?)
  | H : ok_or _ _ = Ok _ |- _ => apply ok_or_Ok in H
  | H : Ok _ = Ok _ |- _ => injection H as H; try subst
  end.
