(* ===== verification/Errors.v ===== *)
(** * Status codes ([zircon-object/src/error.rs])

    The [ZxError] enumeration with its [repr(i32)] discriminants, the type
    [ZxResult], and the conversion from the user-pointer errors of the HAL. *)

From S2P Require Import Prelude.
From stdpp Require Import options.
#[local] Open Scope Z_scope.

Module ZxError.
Inductive t :=
| OK | INTERNAL | NOT_SUPPORTED | NO_RESOURCES | NO_MEMORY | INTERNAL_INTR_RETRY
| INVALID_ARGS | BAD_HANDLE | WRONG_TYPE | BAD_SYSCALL | OUT_OF_RANGE | BUFFER_TOO_SMALL
| BAD_STATE | TIMED_OUT | SHOULD_WAIT | CANCELED | PEER_CLOSED | NOT_FOUND
| ALREADY_EXISTS | ALREADY_BOUND | UNAVAILABLE
| ACCESS_DENIED
| IO | IO_REFUSED | IO_DATA_INTEGRITY | IO_DATA_LOSS | IO_NOT_PRESENT | IO_OVERRUN
| IO_MISSED_DEADLINE | IO_INVALID
| BAD_PATH | NOT_DIR | NOT_FILE | FILE_BIG | NO_SPACE | NOT_EMPTY
| STOP | NEXT | ASYNC
| PROTOCOL_NOT_SUPPORTED | ADDRESS_UNREACHABLE | ADDRESS_IN_USE | NOT_CONNECTED
| CONNECTION_REFUSED | CONNECTION_RESET | CONNECTION_ABORTED.

(** [e as i32] *)
Definition as_i32 (e : t) : Z :=
  match e with
  | OK => 0 | INTERNAL => -1 | NOT_SUPPORTED => -2 | NO_RESOURCES => -3
  | NO_MEMORY => -4 | INTERNAL_INTR_RETRY => -6
  | INVALID_ARGS => -10 | BAD_HANDLE => -11 | WRONG_TYPE => -12 | BAD_SYSCALL => -13
  | OUT_OF_RANGE => -14 | BUFFER_TOO_SMALL => -15
  | BAD_STATE => -20 | TIMED_OUT => -21 | SHOULD_WAIT => -22 | CANCELED => -23
  | PEER_CLOSED => -24 | NOT_FOUND => -25 | ALREADY_EXISTS => -26
  | ALREADY_BOUND => -27 | UNAVAILABLE => -28
  | ACCESS_DENIED => -30
  | IO => -40 | IO_REFUSED => -41 | IO_DATA_INTEGRITY => -42 | IO_DATA_LOSS => -43
  | IO_NOT_PRESENT => -44 | IO_OVERRUN => -45 | IO_MISSED_DEADLINE => -46
  | IO_INVALID => -47
  | BAD_PATH => -50 | NOT_DIR => -51 | NOT_FILE => -52 | FILE_BIG => -53
  | NO_SPACE => -54 | NOT_EMPTY => -55
  | STOP => -60 | NEXT => -61 | ASYNC => -62
  | PROTOCOL_NOT_SUPPORTED => -70 | ADDRESS_UNREACHABLE => -71 | ADDRESS_IN_USE => -72
  | NOT_CONNECTED => -73 | CONNECTION_REFUSED => -74 | CONNECTION_RESET => -75
  | CONNECTION_ABORTED => -76
  end.

#[export] Instance t_eq_dec : EqDecision t.
Proof. solve_decision. Defined.
End ZxError.

Abbreviation ZxResult := (result ZxError.t).

(** [kernel_hal::user::Error] *)
Module UserError.
Inductive t :=
| InvalidUtf8 | InvalidPointer | BufferTooSmall | InvalidLength | InvalidVectorAddress.
End UserError.

(** [impl From<Error> for ZxError] *)
Definition from_user_error (e : UserError.t) : ZxError.t :=
  match e with
  | UserError.InvalidUtf8 => ZxError.INVALID_ARGS
  | UserError.InvalidPointer => ZxError.INVALID_ARGS
  | UserError.BufferTooSmall => ZxError.BUFFER_TOO_SMALL
  | UserError.InvalidLength => ZxError.INVALID_ARGS
  | UserError.InvalidVectorAddress => ZxError.NOT_FOUND
  end.

(** Two different statuses never share a code. *)
Lemma as_i32_inj e1 e2 : ZxError.as_i32 e1 = ZxError.as_i32 e2 → e1 = e2.
Proof. by destruct e1, e2. Qed.

(** Every error status is a negative [i32]; only [OK] is zero. *)
Lemma as_i32_sign e :
  - 2 ^ 31 ≤ ZxError.as_i32 e ≤ 0 ∧ (ZxError.as_i32 e = 0 ↔ e = ZxError.OK).
Proof. by destruct e. Qed.
