(* ===== verification/KObject.v ===== *)
(** * Kernel object base and signals
    ([zircon-object/src/object/mod.rs], [signal.rs])

    [KObjectBase] carries the identity, the name, the asserted signals and the
    registered signal callbacks of every kernel object.  A callback is a boxed
    [Fn(Signal) -> bool] that may mutate what it captured; it is modelled as a
    function that threads a world [W] and returns whether it is finished.  The
    callbacks run while the object's lock is held, so the world never contains
    the object itself. *)

From stdpp Require Export strings.
From S2P Require Import Prelude Errors.
From stdpp Require Import options.
#[local] Open Scope Z_scope.

Module Signal.
Definition READABLE := bit 0.
Definition WRITABLE := bit 1.
Definition PEER_CLOSED := bit 2.
Definition SIGNALED := bit 3.
Definition HANDLE_CLOSED := bit 23.
Definition KERNEL_ALL : Z := 0xffffff.
Definition USER_ALL : Z := Z.shiftl 0xff 24.
Definition CLOCK_STARTED := bit 4.
Definition COUNTER_POSITIVE := bit 4.
Definition COUNTER_NON_POSITIVE := bit 5.
Definition SOCKET_PEER_WRITE_DISABLED := bit 4.
Definition SOCKET_WRITE_DISABLED := bit 5.
Definition SOCKET_CONTROL_READABLE := bit 6.
Definition SOCKET_CONTROL_WRITABLE := bit 7.
Definition SCOEKT_ACCEPT := bit 8.
Definition SOCKET_SHARE := bit 9.
Definition SOCKET_READ_THRESHOLD := bit 10.
Definition SOCKET_WRITE_THRESHOLD := bit 11.
Definition TASK_TERMINATED := SIGNALED.
Definition JOB_TERMINATED := SIGNALED.
Definition JOB_NO_JOBS := bit 4.
Definition JOB_NO_PROCESSES := bit 5.
Definition PROCESS_TERMINATED := SIGNALED.
Definition THREAD_TERMINATED := SIGNALED.
Definition THREAD_RUNNING := bit 4.
Definition THREAD_SUSPENDED := bit 5.
Definition VMO_ZERO_CHILDREN := SIGNALED.
Definition INTERRUPT_SIGNAL := bit 4.
Definition SIGCHLD := bit 6.
Definition USER_SIGNAL_0 := bit 24.
Definition USER_SIGNAL_1 := bit 25.
Definition USER_SIGNAL_2 := bit 26.
Definition USER_SIGNAL_3 := bit 27.
Definition USER_SIGNAL_4 := bit 28.
Definition USER_SIGNAL_5 := bit 29.
Definition USER_SIGNAL_6 := bit 30.
Definition USER_SIGNAL_7 := bit 31.
(** Every declared flag: the kernel and the user signals cover all 32 bits. *)
Definition all : Z := Z.lor KERNEL_ALL USER_ALL.

Definition verify_user_signal (allowed_signals number : Z) : ZxResult Z :=
  if negb (Z.ldiff number allowed_signals =? 0) then Err ZxError.INVALID_ARGS
  else ok_or (from_bits all number) ZxError.INVALID_ARGS.
End Signal.

(** A user can only name the bits that the object allows. *)
Lemma verify_user_signal_bits allowed n c k :
  0 ≤ k → Signal.verify_user_signal allowed n = Ok c → Z.testbit allowed k = false → Z.testbit c k = false.
Proof.
  intros Hk Hv Ha. unfold Signal.verify_user_signal in Hv. destruct (Z.eqb_spec (Z.ldiff n allowed) 0) as [E|]; [|done].
  apply ok_or_Ok, from_bits_Some in Hv as [-> _].
  pose proof (f_equal (λ x, Z.testbit x k) E) as Eb. simpl in Eb. rewrite Z.ldiff_spec, Ha, Z.bits_0 in Eb.
  by destruct (Z.testbit n k).
Qed.

Lemma verify_user_signal_total allowed n : Signal.verify_user_signal allowed n ≠ Panic.
Proof. unfold Signal.verify_user_signal, ok_or. destruct (negb _); [done|]. by destruct (from_bits Signal.all n). Qed.

(** Reduce [contains sig FLAG] to a bit test and evaluate it. *)
Ltac sigbits :=
  unfold Signal.READABLE, Signal.WRITABLE, Signal.PEER_CLOSED, Signal.SIGNALED,
    Signal.SOCKET_PEER_WRITE_DISABLED, Signal.SOCKET_WRITE_DISABLED,
    Signal.SOCKET_READ_THRESHOLD, Signal.SOCKET_WRITE_THRESHOLD,
    Signal.COUNTER_POSITIVE, Signal.COUNTER_NON_POSITIVE,
    Signal.JOB_NO_JOBS, Signal.JOB_NO_PROCESSES, Signal.TASK_TERMINATED, Signal.JOB_TERMINATED,
    Signal.PROCESS_TERMINATED, Signal.THREAD_TERMINATED, Signal.THREAD_RUNNING, Signal.THREAD_SUSPENDED,
    Signal.SIGNALED;
  rewrite ?contains_bit by lia; testbits.

Section kobject.
Context {W : Type}.

(** [Box<dyn Fn(Signal) -> bool + Send>] *)
Definition SignalHandler : Type := Z → W → bool * W.

Record KObjectBase := mkKObjectBase {
  koid : Z;
  kname : string;
  signal : Z;
  signal_callbacks : list SignalHandler
}.

(** [new_koid]: the global [AtomicU64] counter is the argument; the fresh id and the
    new counter are returned. *)
Definition KOID_FIRST : Z := 1024.
Definition new_koid (KOID : Z) : Z * Z := (KOID, wadd 64 KOID 1).

Definition with_name_signal (i : Z) (nm : string) (sig : Z) : KObjectBase :=
  {| koid := i; kname := nm; signal := sig; signal_callbacks := [] |}.
Definition with_signal (i sig : Z) : KObjectBase := with_name_signal i "" sig.
Definition with_name (i : Z) (nm : string) : KObjectBase := with_name_signal i nm 0.
Definition KObjectBase_new (i : Z) : KObjectBase := with_name_signal i "" 0.

Definition set_name (nm : string) (b : KObjectBase) : KObjectBase :=
  {| koid := koid b; kname := nm; signal := signal b; signal_callbacks := signal_callbacks b |}.

(** [Vec::retain]: each element is visited exactly once, in order. *)
Fixpoint retain (f : SignalHandler → W → bool * W) (l : list SignalHandler) (w : W) :
    list SignalHandler * W :=
  match l with
  | [] => ([], w)
  | h :: l =>
      let '(keep, w) := f h w in
      let '(l', w) := retain f l w in
      (if keep then h :: l' else l', w)
  end.

(** Bits first cleared, then set. *)
Definition changed (old clear set : Z) : Z := flag_insert (flag_remove old clear) set.

Definition signal_change (clear set : Z) (b : KObjectBase) (w : W) : KObjectBase * W :=
  let old_signal := signal b in
  let new_signal := changed old_signal clear set in
  if new_signal =? old_signal then (b, w)
  else
    let cbs := rev (signal_callbacks b) in
    let '(cbs, w) :=
      retain (λ f w, let '(done, w) := f new_signal w in (negb done, w)) cbs w in
    ({| koid := koid b; kname := kname b; signal := new_signal; signal_callbacks := rev cbs |}, w).

Definition signal_set (s : Z) : KObjectBase → W → KObjectBase * W := signal_change 0 s.
Definition signal_clear (s : Z) : KObjectBase → W → KObjectBase * W := signal_change s 0.

Definition add_signal_callback (cb : SignalHandler) (b : KObjectBase) (w : W) :
    KObjectBase * W :=
  let '(done, w) := cb (signal b) w in
  if done then (b, w)
  else ({| koid := koid b; kname := kname b; signal := signal b;
           signal_callbacks := signal_callbacks b ++ [cb] |}, w).

(** ** Functional behaviour *)

Implicit Types (b : KObjectBase) (w : W).

Lemma signal_change_signal c s b w :
  signal (fst (signal_change c s b w)) = changed (signal b) c s.
Proof. unfold signal_change. bcase; [done|]. by destruct (retain _ _ _). Qed.

Lemma signal_change_id c s b w : koid (fst (signal_change c s b w)) = koid b.
Proof. unfold signal_change. bcase; [done|]. by destruct (retain _ _ _). Qed.

Lemma signal_change_name c s b w : kname (fst (signal_change c s b w)) = kname b.
Proof. unfold signal_change. bcase; [done|]. by destruct (retain _ _ _). Qed.

Lemma retain_sublist f l w : sublist (fst (retain f l w)) l.
Proof.
  revert w. induction l as [|h l IH]; intros w; simpl; [done|].
  destruct (f h w) as [k w1]. specialize (IH w1).
  destruct (retain f l w1) as [l' w2]. destruct k; by constructor.
Qed.

Lemma signal_set_signal s b w : signal (fst (signal_set s b w)) = Z.lor (signal b) s.
Proof.
  unfold signal_set. rewrite signal_change_signal. unfold changed, flag_remove, flag_insert.
  by rewrite Z.ldiff_0_r.
Qed.

Lemma signal_clear_signal s b w : signal (fst (signal_clear s b w)) = Z.ldiff (signal b) s.
Proof.
  unfold signal_clear. rewrite signal_change_signal. unfold changed, flag_remove, flag_insert.
  by rewrite Z.lor_0_r.
Qed.

Lemma retain_world f l w :
  snd (retain f l w) = foldl (λ w h, snd (f h w)) w l.
Proof.
  revert w. induction l as [|h l IH]; intros w; simpl; [done|].
  destruct (f h w) as [k w1]. simpl. specialize (IH w1).
  destruct (retain f l w1) as [l' w2]. by rewrite <-IH.
Qed.

Lemma retain_decided f l w (d : SignalHandler → bool) :
  (∀ h w, h ∈ l → fst (f h w) = d h) → fst (retain f l w) = List.filter d l.
Proof.
  revert w. induction l as [|h l IH]; intros w Hd; simpl; [done|].
  pose proof (Hd h w ltac:(by left)) as Hh. destruct (f h w) as [k w1]. simpl in Hh. subst k.
  specialize (IH w1 (λ h' w' H, Hd h' w' (list_elem_of_further _ _ _ H))).
  destruct (retain f l w1) as [l' w2]. simpl in IH. subst. by destruct (d h).
Qed.

Lemma changed_testbit old c s k :
  Z.testbit (changed old c s) k =
  (Z.testbit old k && negb (Z.testbit c k)) || Z.testbit s k.
Proof. unfold changed, flag_insert, flag_remove. by rewrite Z.lor_spec, Z.ldiff_spec. Qed.

(** Running the callbacks [l] on [s]: the world each leaves is the next one's. *)
Definition run_callbacks (s : Z) (l : list SignalHandler) (w : W) : W :=
  foldl (λ w h, snd (h s w)) w l.

(** [signal_change] first clears and then sets the given bits.  If the signals
    change, every registered callback runs exactly once on the new signals, the most
    recently registered first; a callback that reports completion is dropped, the
    others stay in registration order.  If they do not change, no callback runs. *)
Theorem signal_change_callbacks c s b w (d : SignalHandler → bool) :
  (∀ h w', h ∈ signal_callbacks b → fst (h (changed (signal b) c s) w') = d h) →
  let ns := changed (signal b) c s in
  let '(b', w') := signal_change c s b w in
  signal b' = ns ∧ koid b' = koid b ∧ kname b' = kname b ∧
  if ns =? signal b then signal_callbacks b' = signal_callbacks b ∧ w' = w
  else signal_callbacks b' = List.filter (λ h, negb (d h)) (signal_callbacks b) ∧
       w' = run_callbacks ns (rev (signal_callbacks b)) w.
Proof.
  intros Hd ns. pose proof (signal_change_signal c s b w) as Hsig.
  pose proof (signal_change_id c s b w) as Hid.
  pose proof (signal_change_name c s b w) as Hnm.
  destruct (signal_change c s b w) as [b' w'] eqn:E. simpl in *.
  split_and!; [done..|]. unfold signal_change in E. fold ns in E, Hd.
  destruct (ns =? signal b) eqn:Eq; [by simplify_eq|].
  set (f := λ (f : SignalHandler) w, let '(done, w) := f ns w in (negb done, w)) in E.
  pose proof (retain_decided f (rev (signal_callbacks b)) w (λ h, negb (d h))) as Hl.
  pose proof (retain_world f (rev (signal_callbacks b)) w) as Hw.
  destruct (retain f _ w) as [l w2]. simplify_eq/=. split.
  - rewrite Hl, filter_rev, rev_involutive; [done|].
    intros h w0 Hin. unfold f. rewrite <-(Hd h w0) by (by apply list_elem_of_In, in_rev, list_elem_of_In).
    by destruct (h _ w0).
  - apply foldl_step_ext. intros w0 h. unfold f. by destruct (h _ w0).
Qed.
End kobject.

Arguments KObjectBase : clear implicits.
Arguments SignalHandler : clear implicits.

#[export] Hint Rewrite @signal_change_signal @signal_set_signal @signal_clear_signal
  @signal_change_id @signal_change_name : kobject.

(** Two observers on an object whose [SIGNALED] bit rises: a one-shot observer that is
    dropped and one that stays; the world records the order in which they ran. *)
Lemma signal_change_callbacks_witness :
  let once : SignalHandler (list Z) := λ s w, (true, w ++ [s]) in
  let stay : SignalHandler (list Z) := λ s w, (false, w ++ [s + 1]) in
  let b := mkKObjectBase 1024 "" Signal.READABLE [stay; once] in
  snd (signal_change 0 Signal.SIGNALED b []) = [9; 10].
Proof.
  intros once stay b.
  pose proof (signal_change_callbacks 0 Signal.SIGNALED b [] (λ h, fst (h 9 []))) as Hc.
  destruct (signal_change 0 Signal.SIGNALED b []) as [b' w'].
  destruct Hc as (_ & _ & _ & _ & Hw); [|by rewrite Hw].
  intros h w0 Hin. simpl in Hin. rewrite list_elem_of_In in Hin. by destruct Hin as [<-|[<-|[]]].
Defined.
