(* ===== verification/Wait.v ===== *)
(** * Waiting for signals ([wait_signal], [wait_signal_many] in
    [zircon-object/src/object/mod.rs])

    The future returned by [wait_signal] polls the object, stores the task's
    waker, and registers one callback on the object until that callback fires.
    Any number of futures wait on one object, beside callbacks of other kinds.
    A poll takes four steps that other threads may interleave with: reading the
    signals, storing the waker, the atomic swap of [registered], and the
    registration of the callback.  A wake-up is never lost.

    The object's lock is held while callbacks run.  A callback itself makes two steps on its
    waiter, clearing [registered] and taking the waker; of the steps of a poll only the store of the waker and
    the swap need no lock and can come between.  [store_unregister] and [swap_take] show that they may be
    moved before and after these two steps, so a callback is one step here. *)

From stdpp Require Import relations.
From S2P Require Import Prelude Errors KObject.
From stdpp Require Import options.
#[local] Open Scope Z_scope.

(** [SignalWaiter], with the log of the tasks that were woken through it.  The future holds the only strong reference:
    [alive] is false once the future is dropped. *)
Record SignalWaiter := mkSignalWaiter {
  alive : bool;
  registered : bool;
  waker : option nat;
  wakes : list nat
}.

(** The accesses to a waiter. *)
Definition store_waker (cx : nat) (x : SignalWaiter) : SignalWaiter := mkSignalWaiter (alive x) (registered x) (Some cx) (wakes x).
Definition swap_registered (x : SignalWaiter) : bool * SignalWaiter := (registered x, mkSignalWaiter (alive x) true (waker x) (wakes x)).
Definition unregister (x : SignalWaiter) : SignalWaiter := mkSignalWaiter (alive x) false (waker x) (wakes x).
Definition take_wake (x : SignalWaiter) : SignalWaiter :=
  mkSignalWaiter (alive x) (registered x) None (wakes x ++ match waker x with Some t => [t] | None => [] end).
Definition drop_future (x : SignalWaiter) : SignalWaiter := mkSignalWaiter false (registered x) (waker x) (wakes x).

Lemma store_unregister cx x : store_waker cx (unregister x) = unregister (store_waker cx x).
Proof. done. Qed.
Lemma swap_take x : swap_registered (take_wake x) = (fst (swap_registered x), take_wake (snd (swap_registered x))).
Proof. done. Qed.

Section wait_signal.
(** What callbacks of other kinds work on. *)
Context {O : Type}.

Record world := mkWorld { waiters : nat → SignalWaiter; others : O }.
Definition set_waiter (i : nat) (x : SignalWaiter) (w : world) : world :=
  mkWorld (λ j, if decide (j = i) then x else waiters w j) (others w).

(** The callback of the [i]-th future. *)
Definition wait_callback (i : nat) (sig : Z) : SignalHandler world := λ s w,
  let x := waiters w i in
  if negb (alive x) then (true, w)
  else if flag_is_empty (Z.land s sig) then (false, w)
  else (true, set_waiter i (take_wake (unregister x)) w).

Inductive phase :=
| Idle                       (* no poll in progress *)
| Checked (cx : nat)         (* the signals were read and none was asserted *)
| Stored (cx : nat)          (* the waker was stored *)
| Swapped (cx : nat)         (* [registered.swap(true)] returned false *)
| Ready (observed : Z)       (* the last poll returned [Poll::Ready] *)
| Dropped.

(** A future between its steps.  [polled]: how many wakes its waiter had seen when the last pending poll began, and
    the task of that poll; [None] before the first poll. *)
Record future := mkFuture { ph : phase; polled : option (nat * nat) }.

Record wait_state := mkWaitState {
  object : KObjectBase world;
  wd : world;
  futures : nat → future
}.
Definition set_future (i : nat) (f : future) (st : wait_state) : nat → future := λ j, if decide (j = i) then f else futures st j.

(** A callback that is not one of the futures'. *)
Definition foreign (f : SignalHandler world) : Prop := ∀ s w, waiters (snd (f s w)) = waiters w.

(** One step of the [i]-th future, which waits for [sigs i], a signal change, or a callback that someone else adds. *)
Inductive wait_step (sigs : nat → Z) : wait_state → wait_state → Prop :=
| step_change clear set st b w :
    signal_change clear set (object st) (wd st) = (b, w) →
    wait_step sigs st (mkWaitState b w (futures st))
| step_foreign f st b w :
    foreign f → add_signal_callback f (object st) (wd st) = (b, w) →
    wait_step sigs st (mkWaitState b w (futures st))
| step_poll i cx st n :
    futures st i = mkFuture Idle n →
    flag_is_empty (Z.land (signal (object st)) (sigs i)) = true →
    wait_step sigs st (mkWaitState (object st) (wd st) (set_future i (mkFuture (Checked cx) (Some (length (wakes (waiters (wd st) i)), cx))) st))
| step_poll_ready i st n :
    futures st i = mkFuture Idle n →
    flag_is_empty (Z.land (signal (object st)) (sigs i)) = false →
    wait_step sigs st (mkWaitState (object st) (wd st) (set_future i (mkFuture (Ready (signal (object st))) n) st))
| step_store i cx st n :
    futures st i = mkFuture (Checked cx) n →
    wait_step sigs st (mkWaitState (object st) (set_waiter i (store_waker cx (waiters (wd st) i)) (wd st)) (set_future i (mkFuture (Stored cx) n) st))
| step_swap i cx st n old x :
    futures st i = mkFuture (Stored cx) n → swap_registered (waiters (wd st) i) = (old, x) →
    wait_step sigs st (mkWaitState (object st) (set_waiter i x (wd st)) (set_future i (mkFuture (if old : bool then Idle else Swapped cx) n) st))
| step_register i cx st n b w :
    futures st i = mkFuture (Swapped cx) n →
    add_signal_callback (wait_callback i (sigs i)) (object st) (wd st) = (b, w) →
    wait_step sigs st (mkWaitState b w (set_future i (mkFuture Idle n) st))
| step_drop i st p n :
    futures st i = mkFuture p n → (p = Idle ∨ ∃ s, p = Ready s) →
    wait_step sigs st (mkWaitState (object st) (set_waiter i (drop_future (waiters (wd st) i)) (wd st)) (set_future i (mkFuture Dropped n) st)).

(** The futures as [wait_signal] builds them. *)
Definition wait_init (b : KObjectBase world) (o : O) : wait_state :=
  {| object := b; wd := mkWorld (λ _, mkSignalWaiter true false None []) o; futures := λ _, mkFuture Idle None |}.

(** ** The invariant of one future *)
(** The callback leaves the waiter of the [i]-th future alone. *)
Definition inert (i : nat) (f : SignalHandler world) : Prop := ∀ s w, waiters (snd (f s w)) i = waiters w i.

(** Which of its callbacks the object holds for the [i]-th future: none, or one. *)
Definition holds (sigs : nat → Z) (i : nat) (armed : bool) (l : list (SignalHandler world)) : Prop :=
  if armed then ∃ l1 l2, l = l1 ++ wait_callback i (sigs i) :: l2 ∧ Forall (inert i) l1 ∧ Forall (inert i) l2
  else Forall (inert i) l.

(** The task of the last poll was woken since the poll began. *)
Definition woken (x : SignalWaiter) (n : option (nat * nat)) : Prop :=
  ∃ k cx, n = Some (k, cx) ∧ cx ∈ drop k (wakes x).
(** It will be woken when the waiter fires. *)
Definition ready_to_wake (x : SignalWaiter) (n : option (nat * nat)) : Prop := ∃ k cx, n = Some (k, cx) ∧ waker x = Some cx.

(** The callback is on the object and will fire as soon as an awaited signal is asserted. *)
Definition armed (sigs : nat → Z) (i : nat) (st : wait_state) : Prop :=
  let x := waiters (wd st) i in let f := futures st i in
  holds sigs i true (signal_callbacks (object st)) ∧ registered x = true ∧
  flag_is_empty (Z.land (signal (object st)) (sigs i)) = true ∧
  match ph f with
  | Idle => ready_to_wake x (polled f) ∨ woken x (polled f)
  | Stored _ => ready_to_wake x (polled f)
  | Swapped _ => False
  | _ => True
  end.
Definition disarmed (sigs : nat → Z) (i : nat) (st : wait_state) : Prop :=
  let x := waiters (wd st) i in let f := futures st i in
  holds sigs i false (signal_callbacks (object st)) ∧
  match ph f with
  | Idle => registered x = false ∧ (polled f = None ∨ woken x (polled f))
  | Stored _ => registered x = false ∧ (ready_to_wake x (polled f) ∨ woken x (polled f))
  | Swapped _ => registered x = true ∧ (ready_to_wake x (polled f) ∨ woken x (polled f))
  | _ => registered x = false
  end.
Definition wait_inv (sigs : nat → Z) (i : nat) (st : wait_state) : Prop :=
  ph (futures st i) = Dropped ∨
  alive (waiters (wd st) i) = true ∧
  match polled (futures st i) with Some (k, _) => (k ≤ length (wakes (waiters (wd st) i)))%nat | None => True end ∧
  match ph (futures st i) with Checked cx | Stored cx | Swapped cx => ∃ k, polled (futures st i) = Some (k, cx) | _ => True end ∧
  (armed sigs i st ∨ disarmed sigs i st).

(** ** How the callbacks react to a signal change *)
Lemma set_waiter_eq i x w : waiters (set_waiter i x w) i = x.
Proof. unfold set_waiter. simpl. by rewrite decide_True. Qed.
Lemma set_waiter_ne i j x w : j ≠ i → waiters (set_waiter i x w) j = waiters w j.
Proof. intros. unfold set_waiter. simpl. by rewrite decide_False. Qed.
Lemma set_future_eq i f st : set_future i f st i = f.
Proof. unfold set_future. by rewrite decide_True. Qed.
Lemma set_future_ne i j f st : j ≠ i → set_future i f st j = futures st j.
Proof. intros. unfold set_future. by rewrite decide_False. Qed.

Lemma foreign_inert i f : foreign f → inert i f.
Proof. intros Hf s w. by rewrite Hf. Qed.
Lemma wait_callback_inert i j sig : i ≠ j → inert i (wait_callback j sig).
Proof. intros Hne s w. unfold wait_callback. destruct (negb _); [done|]. destruct (flag_is_empty _); [done|]. simpl. by rewrite decide_False. Qed.

Definition visit (ns : Z) : SignalHandler world → world → bool * world := λ f w, let '(done, w) := f ns w in (negb done, w).

Lemma retain_inert i ns l w : Forall (inert i) l → waiters (snd (retain (visit ns) l w)) i = waiters w i ∧ Forall (inert i) (fst (retain (visit ns) l w)).
Proof.
  intros Hl. split; [|rewrite Forall_forall in *; intros x Hx; apply Hl; eapply elem_of_sublist; [exact Hx|apply retain_sublist]]. revert w. induction Hl as [|f l Hf _ IH]; intros w; simpl; [done|].
  unfold visit at 1. pose proof (Hf ns w) as Hw. destruct (f ns w) as [d w1]. specialize (IH w1). destruct (retain (visit ns) l w1). simpl in *. congruence.
Qed.
Lemma retain_app ns (l1 l2 : list (SignalHandler world)) w :
  retain (visit ns) (l1 ++ l2) w = let '(l1', w1) := retain (visit ns) l1 w in let '(l2', w2) := retain (visit ns) l2 w1 in (l1' ++ l2', w2).
Proof.
  revert w. induction l1 as [|f l1 IH]; intros w; simpl; [by destruct (retain _ l2 w)|].
  destruct (visit ns f w) as [k w1]. rewrite IH. destruct (retain _ l1 w1) as [l1' w2]. destruct (retain _ l2 w2) as [l2' w3]. by destruct k.
Qed.

(** What firing leaves of a waiter. *)
Definition fired (x : SignalWaiter) : SignalWaiter := take_wake (unregister x).

Lemma retain_own sigs i ns l w : holds sigs i true l → alive (waiters w i) = true →
  let '(l', w') := retain (visit ns) l w in
  if flag_is_empty (Z.land ns (sigs i)) then holds sigs i true l' ∧ waiters w' i = waiters w i
  else holds sigs i false l' ∧ waiters w' i = fired (waiters w i).
Proof.
  intros (l1 & l2 & -> & H1 & H2) Ha. rewrite retain_app. destruct (retain_inert i ns l1 w H1) as [Hw1 Hl1]. destruct (retain (visit ns) l1 w) as [l1' w1]. cbn [fst snd] in *. cbn [retain].
  unfold visit at 1, wait_callback at 1. rewrite Hw1, Ha. cbn [negb].
  destruct (flag_is_empty (Z.land ns (sigs i))) eqn:E.
  - destruct (retain_inert i ns l2 w1 H2) as [Hw2 Hl2]. destruct (retain (visit ns) l2 w1) as [l2' w2]. simpl in *. split; [by exists l1', l2'|congruence].
  - destruct (retain_inert i ns l2 (set_waiter i (fired (waiters w i)) w1) H2) as [Hw2 Hl2]. unfold fired in *. destruct (retain (visit ns) l2 _) as [l2' w2]. simpl in *. split; [by apply Forall_app|]. rewrite Hw2. by rewrite decide_True.
Qed.

Lemma holds_rev sigs i a l : holds sigs i a l → holds sigs i a (rev l).
Proof.
  destruct a; simpl.
  - intros (l1 & l2 & -> & H1 & H2). exists (rev l2), (rev l1). rewrite rev_app_distr. simpl. rewrite <-app_assoc. split; [done|]. split; by apply Forall_rev.
  - apply Forall_rev.
Qed.

Lemma change_disarmed sigs i c s b w b' w' : holds sigs i false (signal_callbacks b) → signal_change c s b w = (b', w') →
  holds sigs i false (signal_callbacks b') ∧ waiters w' i = waiters w i.
Proof.
  intros Hh. unfold signal_change. bcase; [by intros [= <- <-]|]. apply holds_rev in Hh. fold (visit (changed (signal b) c s)).
  destruct (retain_inert i (changed (signal b) c s) _ w Hh) as [Hw Hl]. destruct (retain _ _ w) as [l w2]. intros [= <- <-]. simpl in *. split; [|done]. by apply (holds_rev sigs i false).
Qed.
Lemma change_armed sigs i c s b w b' w' : holds sigs i true (signal_callbacks b) → alive (waiters w i) = true →
  flag_is_empty (Z.land (signal b) (sigs i)) = true → signal_change c s b w = (b', w') →
  (flag_is_empty (Z.land (signal b') (sigs i)) = true ∧ waiters w' i = waiters w i ∧ holds sigs i true (signal_callbacks b')) ∨
  (waiters w' i = fired (waiters w i) ∧ holds sigs i false (signal_callbacks b')).
Proof.
  intros Hh Ha Hq. unfold signal_change. bcase; [intros [= <- <-]; by left|]. apply holds_rev in Hh. fold (visit (changed (signal b) c s)).
  pose proof (retain_own sigs i (changed (signal b) c s) _ w Hh Ha) as Hr. destruct (retain _ _ w) as [l w2]. intros [= <- <-]. cbn [signal signal_callbacks]. clear Hq.
  destruct (flag_is_empty _) eqn:E; destruct Hr as [Hl Hw]; apply holds_rev in Hl; [by left|by right].
Qed.
Lemma add_inert sigs i a f b w b' w' : inert i f → holds sigs i a (signal_callbacks b) → add_signal_callback f b w = (b', w') →
  signal b' = signal b ∧ waiters w' i = waiters w i ∧ holds sigs i a (signal_callbacks b').
Proof.
  intros Hf Hh. unfold add_signal_callback. pose proof (Hf (signal b) w) as Hw. destruct (f (signal b) w) as [d w1]. simpl in Hw. destruct d; intros [= <- <-]; [done|]. split_and!; [done..|]. simpl.
  destruct a; simpl in *.
  - destruct Hh as (l1 & l2 & -> & H1 & H2). exists l1, (l2 ++ [f]). rewrite <-app_assoc. split_and!; [done..|]. apply Forall_app. by rewrite Forall_singleton.
  - apply Forall_app. by rewrite Forall_singleton.
Qed.

Lemma fired_wakes x : wakes (fired x) = wakes x ++ match waker x with Some t => [t] | None => [] end.
Proof. done. Qed.
Lemma fired_ready x k cx : (k ≤ length (wakes x))%nat → ready_to_wake x (Some (k, cx)) → woken (fired x) (Some (k, cx)).
Proof. intros Hk (? & ? & [= <- <-] & Hx). exists k, cx. split; [done|]. rewrite fired_wakes, Hx, drop_app_le by done. set_solver. Qed.
Lemma fired_woken x n : woken x n → woken (fired x) n.
Proof.
  intros (k & cx & -> & Hx). exists k, cx. split; [done|]. rewrite fired_wakes. destruct (decide (k ≤ length (wakes x))%nat); [rewrite drop_app_le by done; set_solver|].
  rewrite drop_ge in Hx by lia. set_solver.
Qed.
Lemma fired_le x k : (k ≤ length (wakes x))%nat → (k ≤ length (wakes (fired x)))%nat.
Proof. rewrite fired_wakes, length_app. lia. Qed.

(** A state that looks the same to the [i]-th future, up to the firing of its callback. *)
Lemma wait_inv_fire sigs i st b w fs : alive (waiters (wd st) i) = true →
  match polled (futures st i) with Some (k, _) => (k ≤ length (wakes (waiters (wd st) i)))%nat | None => True end →
  armed sigs i st → fs i = futures st i → waiters w i = fired (waiters (wd st) i) → holds sigs i false (signal_callbacks b) →
  disarmed sigs i (mkWaitState b w fs).
Proof.
  intros Ha Hk (_ & Hr & _ & Hp) Hf Hw Hh. split; [done|]. simpl. rewrite Hf, Hw. destruct (futures st i) as [p [[k cx]|]]; simpl in *; [|destruct p; try done; split; try done; [by left|]; by destruct Hp as (? & ? & ? & _)].
  assert (∀ Q, Q ∨ woken (waiters (wd st) i) (Some (k, cx)) → (Q → ready_to_wake (waiters (wd st) i) (Some (k, cx))) → woken (fired (waiters (wd st) i)) (Some (k, cx))) as Hx.
  { intros Q [HQ|?] HQ2; [by apply fired_ready, HQ2|by apply fired_woken]. }
  destruct p; try done; (split; [done|]; right).
  - eapply Hx; [exact Hp|done].
  - eapply (Hx (ready_to_wake (waiters (wd st) i) (Some (k, cx)))); [by left|done].
Qed.

Lemma wait_inv_same sigs i st b w fs : wait_inv sigs i st → fs i = futures st i → waiters w i = waiters (wd st) i →
  (∀ a, holds sigs i a (signal_callbacks (object st)) → holds sigs i a (signal_callbacks b)) → signal b = signal (object st) →
  wait_inv sigs i (mkWaitState b w fs).
Proof.
  intros Hinv Hf Hw Hh Hs. unfold wait_inv, armed, disarmed in *. simpl. rewrite Hf, Hw, Hs.
  destruct Hinv as [|(Ha & Hk & Hp & [(Hh1 & Hx)|(Hh1 & Hx)])]; [by left|right; split_and!; [done..|]; left; split; [by apply (Hh true)|exact Hx]|right; split_and!; [done..|]; right; split; [by apply (Hh false)|exact Hx]].
Qed.

(** Waiting futures keep their invariant, whatever step is made. *)
Lemma wait_inv_change sigs i c s st b w : wait_inv sigs i st → signal_change c s (object st) (wd st) = (b, w) → wait_inv sigs i (mkWaitState b w (futures st)).
Proof.
  intros [Hd|(Ha & Hk & Hp & [Har|(Hh & Hx)])] E; [by left|right..].
  - pose proof Har as (Hh & Hr & Hq & Hx). destruct (change_armed _ _ _ _ _ _ _ _ Hh Ha Hq E) as [(Hq' & Hw & Hh')|(Hw & Hh')]; simpl; rewrite Hw.
    + split_and!; [done..|]. left. unfold armed. simpl. by rewrite Hw.
    + split_and!; [done|destruct (polled _) as [[k cx]|]; [by apply fired_le|done]|done|]. right. by eapply wait_inv_fire.
  - destruct (change_disarmed _ _ _ _ _ _ _ _ Hh E) as [Hh' Hw]. simpl. rewrite Hw. split_and!; [done..|]. right. unfold disarmed. simpl. by rewrite Hw.
Qed.
Lemma wait_inv_register sigs i cx st n b w : wait_inv sigs i st → futures st i = mkFuture (Swapped cx) n →
  add_signal_callback (wait_callback i (sigs i)) (object st) (wd st) = (b, w) → wait_inv sigs i (mkWaitState b w (set_future i (mkFuture Idle n) st)).
Proof.
  intros Hinv Hf. unfold wait_inv, armed, disarmed in Hinv. rewrite Hf in Hinv. simpl in Hinv.
  destruct Hinv as [|(Ha & Hk & [k ->] & [(_ & _ & _ & [])|(Hh & Hr & Hx)])]; [done|].
  unfold add_signal_callback, wait_callback. rewrite Ha. cbn [negb]. destruct (flag_is_empty _) eqn:E; intros [= <- <-]; right; unfold armed, disarmed; simpl; rewrite set_future_eq; simpl.
  - split_and!; [done..|]. left. split_and!; [|done..]. exists (signal_callbacks (object st)), []. split_and!; [done..|by constructor].
  - rewrite decide_True by done. fold (fired (waiters (wd st) i)). split_and!; [done|by apply fired_le|done|]. right. split; [done|]. split; [done|]. right.
    destruct Hx; [by apply fired_ready|by apply fired_woken].
Qed.
Lemma wait_inv_other sigs i j st x f : wait_inv sigs i st → i ≠ j → wait_inv sigs i (mkWaitState (object st) (set_waiter j x (wd st)) (set_future j f st)).
Proof. intros Hinv Hne. eapply wait_inv_same; [exact Hinv|by apply set_future_ne|by apply set_waiter_ne|done|done]. Qed.
Lemma wait_inv_other_future sigs i j st f : wait_inv sigs i st → i ≠ j → wait_inv sigs i (mkWaitState (object st) (wd st) (set_future j f st)).
Proof. intros Hinv Hne. eapply wait_inv_same; [exact Hinv|by apply set_future_ne|done..]. Qed.
Lemma wait_inv_add sigs i fs f st b w : wait_inv sigs i st → inert i f → fs i = futures st i → add_signal_callback f (object st) (wd st) = (b, w) → wait_inv sigs i (mkWaitState b w fs).
Proof.
  intros Hinv Hf Hfs E. assert (signal b = signal (object st) ∧ waiters w i = waiters (wd st) i) as [Hs Hw].
  { revert E. unfold add_signal_callback. pose proof (Hf (signal (object st)) (wd st)) as Hw. destruct (f _ _) as [d w1]. by destruct d; intros [= <- <-]. }
  eapply wait_inv_same; [exact Hinv|done..| |done]. intros a Ha. by destruct (add_inert sigs i a f _ _ b w Hf Ha E) as (_ & _ & ?).
Qed.

Lemma wait_inv_poll sigs i st p n : wait_inv sigs i st → futures st i = mkFuture Idle n → 
  (∃ cx, flag_is_empty (Z.land (signal (object st)) (sigs i)) = true ∧ p = mkFuture (Checked cx) (Some (length (wakes (waiters (wd st) i)), cx))) ∨ p = mkFuture (Ready (signal (object st))) n →
  wait_inv sigs i (mkWaitState (object st) (wd st) (set_future i p st)).
Proof.
  intros Hinv Hf Hp. unfold wait_inv, armed, disarmed in *. cbn [futures wd object]. rewrite set_future_eq. rewrite Hf in Hinv. simpl in Hinv. right.
  destruct Hinv as [|(Ha & Hk & _ & Hx)]; [done|]. destruct Hp as [(cx & Hq & ->)| ->]; simpl; (split_and!; [done|try lia; done|by eauto|]); (destruct Hx as [(? & ? & ? & _)|(? & ? & _)]; [left|right]; by split_and!).
Qed.
Lemma wait_inv_store sigs i cx st n : wait_inv sigs i st → futures st i = mkFuture (Checked cx) n →
  wait_inv sigs i (mkWaitState (object st) (set_waiter i (store_waker cx (waiters (wd st) i)) (wd st)) (set_future i (mkFuture (Stored cx) n) st)).
Proof.
  intros Hinv Hf. unfold wait_inv, armed, disarmed in *. cbn [futures wd object]. rewrite set_future_eq, set_waiter_eq. rewrite Hf in Hinv. simpl in *. right.
  destruct Hinv as [|(Ha & Hk & [k ->] & Hx)]; [done|]. split_and!; [done|done|by eauto|]. destruct Hx as [(? & ? & ? & _)|(? & ?)]; [left|right]; split_and!; try done; [by exists k, cx|left; by exists k, cx].
Qed.
Lemma wait_inv_swap sigs i cx st n old x : wait_inv sigs i st → futures st i = mkFuture (Stored cx) n → swap_registered (waiters (wd st) i) = (old, x) →
  wait_inv sigs i (mkWaitState (object st) (set_waiter i x (wd st)) (set_future i (mkFuture (if old then Idle else Swapped cx) n) st)).
Proof.
  intros Hinv Hf [= <- <-]. unfold wait_inv, armed, disarmed in *. cbn [futures wd object]. rewrite set_future_eq, set_waiter_eq. rewrite Hf in Hinv. simpl in *. right.
  destruct Hinv as [|(Ha & Hk & [k ->] & Hx)]; [done|]. destruct Hx as [(Hh & -> & Hq & Hr)|(Hh & -> & Hr)]; simpl.
  - split_and!; [done..|]. left. split_and!; [done..|]. by left.
  - split_and!; [done|done|by eauto|]. right. by split_and!.
Qed.

Lemma wait_inv_step sigs st st' i : wait_inv sigs i st → wait_step sigs st st' → wait_inv sigs i st'.
Proof.
  intros Hinv Hs. destruct Hs as [c s st b w E|f st b w Hf E|j cx st n Hf Hq|j st n Hf Hq|j cx st n Hf|j cx st n old x Hf E|j cx st n b w Hf E|j st p n Hf Hp].
  - by eapply wait_inv_change.
  - eapply wait_inv_add; [done|by apply foreign_inert|done..].
  - destruct (decide (i = j)) as [<-|]; [|by apply wait_inv_other_future]. eapply wait_inv_poll; [done..|]. left. by exists cx.
  - destruct (decide (i = j)) as [<-|]; [|by apply wait_inv_other_future]. eapply wait_inv_poll; [done..|]. by right.
  - destruct (decide (i = j)) as [<-|]; [by apply wait_inv_store|by apply wait_inv_other].
  - destruct (decide (i = j)) as [<-|]; [by apply wait_inv_swap|by apply wait_inv_other].
  - destruct (decide (i = j)) as [<-|]; [by eapply wait_inv_register|]. eapply wait_inv_add; [done|by apply wait_callback_inert|by apply set_future_ne|done].
  - destruct (decide (i = j)) as [<-|]; [|by apply wait_inv_other]. left. cbn [futures]. by rewrite set_future_eq.
Qed.
Lemma wait_inv_reachable sigs b o st i : Forall foreign (signal_callbacks b) → rtc (wait_step sigs) (wait_init b o) st → wait_inv sigs i st.
Proof.
  intros Hcb Hs. assert (wait_inv sigs i (wait_init b o)) as Hi.
  { right. split_and!; [done..|]. right. split; [|by split; [|left]]. simpl. eapply Forall_impl; [exact Hcb|]. intros f. apply foreign_inert. }
  revert Hi. generalize (wait_init b o) Hs. clear b o Hcb Hs. induction 1; eauto using wait_inv_step.
Qed.

(** C18. No wake-up is lost.  Any number of futures wait for signals of one object, on which callbacks of other kinds are
    registered too.  However the steps of their polls, the signal changes of other threads, new callbacks and dropped futures interleave:
    when the last poll of a future returned [Pending] and a signal it waits for is asserted now, the task of that poll
    has been woken since the poll began. *)
Theorem wait_signal_no_lost_wakeup sigs b o st i k cx :
  Forall foreign (signal_callbacks b) →
  rtc (wait_step sigs) (wait_init b o) st →
  ph (futures st i) = Idle → polled (futures st i) = Some (k, cx) →
  flag_is_empty (Z.land (signal (object st)) (sigs i)) = false →
  cx ∈ drop k (wakes (waiters (wd st) i)).
Proof.
  intros Hcb Hs Hp Hn Hsig. destruct (wait_inv_reachable sigs b o st i Hcb Hs) as [Hd|(_ & _ & _ & [(_ & _ & Hq & _)|(_ & Hd)])]; [congruence..|].
  rewrite Hp, Hn in Hd. by destruct Hd as [_ [?|(? & ? & [= <- <-] & ?)]].
Qed.
End wait_signal.
Arguments world O : clear implicits.
Arguments wait_state O : clear implicits.

(** Two futures wait for one signal on an object that has another callback.  The signal arrives after the second one has
    looked at the signals and before it registers its callback: both tasks are woken. *)
Module WaitDemo.
Definition sigs (_ : nat) : Z := Signal.READABLE.
Definition counter : SignalHandler (world nat) := λ _ w, (false, mkWorld (waiters w) (S (others w))).
Definition object0 : KObjectBase (world nat) := mkKObjectBase 1024 EmptyString 0 [counter].
Definition polled_at (i cx : nat) (st : wait_state nat) : wait_state nat :=
  mkWaitState (object st) (wd st) (set_future i (mkFuture (Checked cx) (Some (length (wakes (waiters (wd st) i)), cx))) st).
Definition stored_at (i cx : nat) (st : wait_state nat) : wait_state nat :=
  mkWaitState (object st) (set_waiter i (store_waker cx (waiters (wd st) i)) (wd st)) (set_future i (mkFuture (Stored cx) (Some (0%nat, cx))) st).
Definition swapped_at (i cx : nat) (st : wait_state nat) : wait_state nat :=
  mkWaitState (object st) (set_waiter i (swap_registered (waiters (wd st) i)).2 (wd st)) (set_future i (mkFuture (Swapped cx) (Some (0%nat, cx))) st).
Definition registered_at (i cx : nat) (st : wait_state nat) : wait_state nat :=
  let r := add_signal_callback (wait_callback i (sigs i)) (object st) (wd st) in mkWaitState r.1 r.2 (set_future i (mkFuture Idle (Some (0%nat, cx))) st).
Definition changed_at (st : wait_state nat) : wait_state nat :=
  let r := signal_change 0 Signal.READABLE (object st) (wd st) in mkWaitState r.1 r.2 (futures st).

Definition st0 : wait_state nat := wait_init object0 0%nat.
Definition st1 := registered_at 0 7 (swapped_at 0 7 (stored_at 0 7 (polled_at 0 7 st0))).
Definition st2 := changed_at (stored_at 1 8 (polled_at 1 8 st1)).
Definition st3 := registered_at 1 8 (swapped_at 1 8 st2).

Lemma store_step i cx st : futures st i = mkFuture (Checked cx) (Some (0%nat, cx)) → wait_step sigs st (stored_at i cx st).
Proof. intros. by eapply step_store. Qed.
Lemma swap_step i cx st : futures st i = mkFuture (Stored cx) (Some (0%nat, cx)) → registered (waiters (wd st) i) = false → wait_step sigs st (swapped_at i cx st).
Proof. intros Hf Hr. pose proof (step_swap sigs i cx st _ false (swap_registered (waiters (wd st) i)).2 Hf) as H. apply H. unfold swap_registered. by rewrite Hr. Qed.
Lemma register_step i cx st : futures st i = mkFuture (Swapped cx) (Some (0%nat, cx)) → wait_step sigs st (registered_at i cx st).
Proof. intros Hf. eapply step_register; [done|]. apply surjective_pairing. Qed.
Lemma demo_steps : rtc (wait_step sigs) st0 st3.
Proof.
  eapply rtc_l; [eapply (step_poll sigs 0 7 st0 None); vm_compute; reflexivity|].
  eapply rtc_l; [apply (store_step 0 7); vm_compute; reflexivity|]. eapply rtc_l; [apply (swap_step 0 7); vm_compute; reflexivity|]. eapply rtc_l; [apply (register_step 0 7); vm_compute; reflexivity|].
  eapply rtc_l; [eapply (step_poll sigs 1 8 st1 None); vm_compute; reflexivity|]. eapply rtc_l; [apply (store_step 1 8); vm_compute; reflexivity|].
  eapply rtc_l; [eapply (step_change sigs 0 Signal.READABLE); apply surjective_pairing|].
  eapply rtc_l; [apply (swap_step 1 8 st2); vm_compute; reflexivity|]. eapply rtc_l; [apply (register_step 1 8); vm_compute; reflexivity|]. apply rtc_refl.
Qed.

Lemma wait_signal_no_lost_wakeup_witness : 7%nat ∈ drop 0 (wakes (waiters (wd st3) 0)) ∧ 8%nat ∈ drop 0 (wakes (waiters (wd st3) 1)) ∧ others (wd st3) = 1%nat.
Proof.
  assert (Forall foreign (signal_callbacks object0)) as Hf by (repeat constructor).
  split; [|split; [|vm_compute; reflexivity]].
  - apply (wait_signal_no_lost_wakeup sigs object0 0%nat st3 0 0 7 Hf demo_steps); vm_compute; reflexivity.
  - apply (wait_signal_no_lost_wakeup sigs object0 0%nat st3 1 0 8 Hf demo_steps); vm_compute; reflexivity.
Defined.
End WaitDemo.

(** ** Waiting for several objects ([wait_signal_many]) *)

Module WaitMany.
(** The wake-up log is the world of the callbacks. *)
Definition many_callback (sig : Z) (cx : nat) : SignalHandler (list nat) := λ s w,
  if flag_is_empty (Z.land s sig) then (false, w) else (true, w ++ [cx]).

Record SignalManyFuture := mkManyFuture {
  targets : list (KObjectBase (list nat) * Z);
  first : bool
}.

Definition happened (f : SignalManyFuture) (current_signals : list Z) : bool :=
  existsb (λ '((_, desired), current), negb (flag_is_empty (Z.land current desired)))
          (combine (targets f) current_signals).

Fixpoint register_all (cx : nat) (ts : list (KObjectBase (list nat) * Z)) (w : list nat) :
    list (KObjectBase (list nat) * Z) * list nat :=
  match ts with
  | [] => ([], w)
  | (b, sig) :: ts =>
      let '(b, w) := add_signal_callback (many_callback sig cx) b w in
      let '(ts, w) := register_all cx ts w in
      ((b, sig) :: ts, w)
  end.

(** [poll]: [Some signals] is [Poll::Ready], [None] is [Poll::Pending]. *)
Definition poll (cx : nat) (f : SignalManyFuture) (w : list nat) :
    option (list Z) * SignalManyFuture * list nat :=
  let current_signals := map (λ '(b, _), signal b) (targets f) in
  if happened f current_signals then (Some current_signals, f, w)
  else if first f then
    let '(ts, w) := register_all cx (targets f) w in
    (None, mkManyFuture ts false, w)
  else (None, f, w).

(** A signal change on the [i]-th object. *)
Definition change_at (i : nat) (clear set : Z) (f : SignalManyFuture) (w : list nat) :
    SignalManyFuture * list nat :=
  match targets f !! i with
  | Some (b, sig) =>
      let '(b, w) := signal_change clear set b w in
      (mkManyFuture (<[i := (b, sig)]> (targets f)) (first f), w)
  | None => (f, w)
  end.

Lemma happened_spec f :
  happened f (map (λ '(b, _), signal b) (targets f)) = true ↔
  ∃ b sig, (b, sig) ∈ targets f ∧ Z.land (signal b) sig ≠ 0.
Proof.
  unfold happened. induction (targets f) as [|[b sig] ts IH]; simpl.
  - split; [done|]. intros (?&?&[]%elem_of_nil&_).
  - rewrite orb_true_iff, IH, negb_true_iff. unfold flag_is_empty. rewrite Z.eqb_neq.
    setoid_rewrite elem_of_cons. naive_solver.
Qed.

Lemma register_all_signals cx ts w :
  map (λ '(b, sig), (signal b, sig)) (fst (register_all cx ts w)) =
  map (λ '(b, sig), (signal b, sig)) ts.
Proof.
  revert w. induction ts as [|[b sig] ts IH]; intros w; simpl; [done|].
  unfold add_signal_callback at 1.
  destruct (many_callback sig cx (signal b) w) as [d w1].
  destruct d; simpl; [specialize (IH w1)|specialize (IH w1)];
    destruct (register_all cx ts w1); simpl in *; by rewrite IH.
Qed.

(** A poll is ready exactly when one of the targets has an awaited signal, it then
    reports the signals of every target, and it never changes a signal. *)
Lemma poll_spec cx f w :
  let '(r, f', w') := poll cx f w in
  (is_Some r ↔ ∃ b sig, (b, sig) ∈ targets f ∧ Z.land (signal b) sig ≠ 0) ∧
  (∀ sigs, r = Some sigs → sigs = map (λ '(b, _), signal b) (targets f)) ∧
  map (λ '(b, sig), (signal b, sig)) (targets f') =
  map (λ '(b, sig), (signal b, sig)) (targets f).
Proof.
  pose proof (happened_spec f) as Hh. unfold poll.
  destruct (happened f _) eqn:E.
  { split_and!; [rewrite <-Hh; by split|naive_solver|done]. }
  assert (∀ sigs : option (list Z), sigs = None →
    (is_Some sigs ↔ ∃ b sig, (b, sig) ∈ targets f ∧ Z.land (signal b) sig ≠ 0)) as Hn.
  { intros ? ->. rewrite <-Hh. split; [by intros []|done]. }
  destruct (first f).
  - pose proof (register_all_signals cx (targets f) w) as Hs.
    destruct (register_all cx (targets f) w). split_and!; [by apply Hn|done|done].
  - split_and!; [by apply Hn|done|done].
Qed.

(** Once the callbacks of the first poll have fired and the signal has been consumed by
    somebody else, the next poll stays pending without registering a callback again:
    the object is then signalled, a poll would be ready, and the task is not woken. *)
Theorem wait_signal_many_not_rearmed :
  let f0 := mkManyFuture [(KObjectBase_new 1024, Signal.READABLE)] true in
  let '(r1, f1, w1) := poll 7 f0 [] in
  let '(f2, w2) := change_at 0 0 Signal.READABLE f1 w1 in
  let '(f3, w3) := change_at 0 Signal.READABLE 0 f2 w2 in
  let '(r2, f4, w4) := poll 7 f3 w3 in
  let '(f5, w5) := change_at 0 0 Signal.READABLE f4 w4 in
  r1 = None ∧ w3 = [7%nat] ∧ r2 = None ∧ w5 = w4 ∧
  fst (fst (poll 7 f5 w5)) = Some [Signal.READABLE].
Proof. by vm_compute. Qed.
End WaitMany.
