(* ===== verification/Rights.v ===== *)
(** * Rights and handles
    ([zircon-object/src/object/rights.rs], [handle.rs])

    The rights bit set with the default rights of every object type, handles, and
    the information the kernel reports about a handle. *)

From S2P Require Import Prelude Errors KObject.
From stdpp Require Import options.
#[local] Open Scope Z_scope.

Module Rights.
Definition DUPLICATE := bit 0.
Definition TRANSFER := bit 1.
Definition READ := bit 2.
Definition WRITE := bit 3.
Definition EXECUTE := bit 4.
Definition MAP := bit 5.
Definition GET_PROPERTY := bit 6.
Definition SET_PROPERTY := bit 7.
Definition ENUMERATE := bit 8.
Definition DESTROY := bit 9.
Definition SET_POLICY := bit 10.
Definition GET_POLICY := bit 11.
Definition SIGNAL := bit 12.
Definition SIGNAL_PEER := bit 13.
Definition WAIT := bit 14.
Definition INSPECT := bit 15.
Definition MANAGE_JOB := bit 16.
Definition MANAGE_PROCESS := bit 17.
Definition MANAGE_THREAD := bit 18.
Definition APPLY_PROFILE := bit 19.
Definition MANAGE_SOCKET := bit 20.
Definition OP_CHILDREN := bit 21.
Definition RESIZE := bit 22.
Definition ATTACH_VMO := bit 23.
Definition MANAGE_VMO := bit 24.
Definition SAME_RIGHTS := bit 31.

#[local] Infix "|+|" := Z.lor (at level 50, left associativity).
#[local] Infix "&!" := Z.ldiff (at level 40, left associativity).

Definition BASIC := TRANSFER |+| DUPLICATE |+| WAIT |+| INSPECT.
Definition IO := READ |+| WRITE.
Definition PROPERTY := GET_PROPERTY |+| SET_PROPERTY.
Definition POLICY := GET_POLICY |+| SET_POLICY.
Definition DEFAULT_CHANNEL := BASIC &! DUPLICATE |+| IO |+| SIGNAL |+| SIGNAL_PEER.
Definition DEFAULT_PROCESS :=
  BASIC |+| IO |+| PROPERTY |+| ENUMERATE |+| DESTROY |+| SIGNAL |+| MANAGE_PROCESS
  |+| MANAGE_THREAD.
Definition DEFAULT_THREAD :=
  BASIC |+| IO |+| PROPERTY |+| DESTROY |+| SIGNAL |+| MANAGE_THREAD.
Definition DEFAULT_VMO := BASIC |+| IO |+| PROPERTY |+| MAP |+| SIGNAL.
Definition DEFAULT_VMAR := BASIC &! WAIT |+| OP_CHILDREN.
Definition DEFAULT_JOB :=
  BASIC |+| IO |+| PROPERTY |+| POLICY |+| ENUMERATE |+| DESTROY |+| SIGNAL |+| MANAGE_JOB
  |+| MANAGE_PROCESS |+| MANAGE_THREAD.
Definition DEFAULT_RESOURCE := BASIC &! WAIT |+| WRITE |+| GET_PROPERTY.
Definition DEFAULT_DEBUGLOG := BASIC |+| WRITE |+| SIGNAL.
Definition DEFAULT_SUSPEND_TOKEN := TRANSFER |+| INSPECT.
Definition DEFAULT_PORT := BASIC &! WAIT |+| IO.
Definition DEFAULT_TIMER := BASIC |+| WRITE |+| SIGNAL.
Definition DEFAULT_CLOCK := BASIC |+| IO |+| SIGNAL |+| PROPERTY |+| MAP.
Definition DEFAULT_COUNTER := BASIC |+| IO |+| SIGNAL.
Definition DEFAULT_EVENT := BASIC |+| SIGNAL.
Definition DEFAULT_SYSTEM_EVENT_LOW_MEMORY := WAIT |+| DUPLICATE |+| TRANSFER.
Definition DEFAULT_EVENTPAIR := BASIC |+| SIGNAL |+| SIGNAL_PEER.
Definition DEFAULT_FIFO := BASIC |+| IO |+| SIGNAL |+| SIGNAL_PEER.
Definition DEFAULT_SOCKET :=
  BASIC |+| IO |+| PROPERTY |+| SIGNAL |+| SIGNAL_PEER |+| MANAGE_SOCKET.
Definition DEFAULT_STREAM := BASIC |+| PROPERTY |+| SIGNAL.
Definition DEFAULT_BTI := BASIC &! WAIT |+| IO |+| PROPERTY |+| MAP.
Definition DEFAULT_INTERRUPT := BASIC |+| IO |+| SIGNAL.
Definition DEFAULT_DEVICE := BASIC |+| IO.
Definition DEFAULT_PCI_INTERRUPT := BASIC |+| IO |+| SIGNAL.
Definition DEFAULT_EXCEPTION := TRANSFER |+| PROPERTY |+| INSPECT.
Definition DEFAULT_GUEST := TRANSFER |+| DUPLICATE |+| WRITE |+| INSPECT |+| MANAGE_THREAD.
Definition DEFAULT_VCPU := BASIC |+| IO |+| EXECUTE |+| SIGNAL.

(** Every declared flag: bits 0 to 24 and 31. *)
Definition all : Z := (Z.ones 25) |+| SAME_RIGHTS.

(** [impl TryFrom<u32> for Rights] *)
Definition try_from (x : Z) : ZxResult Z := ok_or (from_bits all x) ZxError.INVALID_ARGS.
End Rights.

(** What a handle sees of [Arc<dyn KernelObject>]. *)
Record KernelObject := mkKernelObject {
  obj_id : Z;
  type_name : string;
  related_koid : Z
}.

Abbreviation HandleValue := Z (only parsing).
Definition INVALID_HANDLE : HandleValue := 0.

Record Handle := mkHandle { object : KernelObject; rights : Z }.

#[export] Instance KernelObject_eq_dec : EqDecision KernelObject.
Proof. solve_decision. Defined.
#[export] Instance Handle_eq_dec : EqDecision Handle.
Proof. solve_decision. Defined.

Definition obj_type (o : KernelObject) : ZxResult Z :=
  let t := type_name o in
  if String.eqb t "Process" then Ok 1 else
  if String.eqb t "Thread" then Ok 2 else
  if String.eqb t "VmObject" then Ok 3 else
  if String.eqb t "Channel" then Ok 4 else
  if String.eqb t "Event" then Ok 5 else
  if String.eqb t "Port" then Ok 6 else
  if String.eqb t "Interrupt" then Ok 9 else
  if String.eqb t "PciDevice" then Ok 11 else
  if String.eqb t "Log" || String.eqb t "DebugLog" then Ok 12 else
  if String.eqb t "Socket" then Ok 14 else
  if String.eqb t "Resource" then Ok 15 else
  if String.eqb t "EventPair" then Ok 16 else
  if String.eqb t "Job" then Ok 17 else
  if String.eqb t "VmAddressRegion" then Ok 18 else
  if String.eqb t "Fifo" then Ok 19 else
  if String.eqb t "Guest" then Ok 20 else
  if String.eqb t "VCpu" then Ok 21 else
  if String.eqb t "Timer" then Ok 22 else
  if String.eqb t "Iommu" then Ok 23 else
  if String.eqb t "Bti" then Ok 24 else
  if String.eqb t "Profile" then Ok 25 else
  if String.eqb t "Pmt" then Ok 26 else
  if String.eqb t "SuspendToken" then Ok 27 else
  if String.eqb t "Pager" then Ok 28 else
  if String.eqb t "Exception" || String.eqb t "ExceptionObject" then Ok 29 else
  if String.eqb t "Clock" then Ok 30 else
  if String.eqb t "Stream" then Ok 31 else
  if String.eqb t "PcieDeviceKObject" then Ok 32 else
  if String.eqb t "Counter" then Ok 34 else Panic.

Record HandleBasicInfo := mkHandleBasicInfo {
  hbi_koid : Z;
  hbi_rights : Z;
  hbi_obj_type : Z;
  hbi_related_koid : Z;
  hbi_props : Z;
  hbi_padding : Z
}.

Definition get_info (h : Handle) : ZxResult HandleBasicInfo :=
  let? ty := obj_type (object h) in
  Ok {| hbi_koid := obj_id (object h);
        hbi_rights := rights h;
        hbi_obj_type := ty;
        hbi_related_koid := related_koid (object h);
        hbi_props := if contains (rights h) Rights.WAIT then 1 else 0;
        hbi_padding := 0 |}.

Record HandleInfo := mkHandleInfo {
  hi_handle : HandleValue;
  hi_obj_type : Z;
  hi_rights : Z;
  hi_unused : Z
}.

Definition get_handle_info (h : Handle) : ZxResult HandleInfo :=
  let? ty := obj_type (object h) in
  Ok {| hi_handle := 0; hi_obj_type := ty; hi_rights := rights h; hi_unused := 0 |}.

(** [r1 ⊆ r2] as bit sets. *)
Definition sub_rights (r1 r2 : Z) : Prop := contains r2 r1 = true.

Lemma sub_rights_refl r : sub_rights r r.
Proof. unfold sub_rights. by apply contains_spec. Qed.

Lemma sub_rights_trans r1 r2 r3 : sub_rights r1 r2 → sub_rights r2 r3 → sub_rights r1 r3.
Proof. unfold sub_rights. rewrite !contains_spec. eauto. Qed.

#[export] Hint Resolve sub_rights_refl : zcore.

(** Every default right set is made of declared flags and never contains the
    [SAME_RIGHTS] marker, and only processes, threads and jobs let their holder manage
    threads by default, besides guests. *)
Lemma default_rights_declared :
  Forall (λ r, from_bits Rights.all r = Some r ∧ contains r Rights.SAME_RIGHTS = false)
    [Rights.DEFAULT_CHANNEL; Rights.DEFAULT_PROCESS; Rights.DEFAULT_THREAD;
     Rights.DEFAULT_VMO; Rights.DEFAULT_VMAR; Rights.DEFAULT_JOB; Rights.DEFAULT_RESOURCE;
     Rights.DEFAULT_DEBUGLOG; Rights.DEFAULT_SUSPEND_TOKEN; Rights.DEFAULT_PORT;
     Rights.DEFAULT_TIMER; Rights.DEFAULT_CLOCK; Rights.DEFAULT_COUNTER; Rights.DEFAULT_EVENT;
     Rights.DEFAULT_SYSTEM_EVENT_LOW_MEMORY; Rights.DEFAULT_EVENTPAIR; Rights.DEFAULT_FIFO;
     Rights.DEFAULT_SOCKET; Rights.DEFAULT_STREAM; Rights.DEFAULT_BTI;
     Rights.DEFAULT_INTERRUPT; Rights.DEFAULT_DEVICE; Rights.DEFAULT_PCI_INTERRUPT;
     Rights.DEFAULT_EXCEPTION; Rights.DEFAULT_GUEST; Rights.DEFAULT_VCPU].
Proof. repeat constructor. Qed.
