(* ===== verification/Handles.v ===== *)
(** * The handle table of a process and the handle system calls
    ([zircon-object/src/task/process.rs], [zircon-syscall/src/handle.rs])

    A process names kernel objects by handle values.  The table maps each value to a
    handle and to the cancel tokens handed out for it. *)

From S2P Require Import Prelude Errors KObject Rights.
From stdpp Require Import options.
#[local] Open Scope Z_scope.

(** The handle fields of [ProcessInner].  A cancel token ([oneshot] channel) is named by
    a number; [closed_tokens] holds those whose sender has sent or was dropped. *)
Record HandleTable := mkHandleTable {
  max_handle_id : Z;
  handles : gmap Z (Handle * list nat);
  next_token : nat;
  closed_tokens : gset nat
}.

Definition empty_table : HandleTable :=
  {| max_handle_id := 0; handles := ∅; next_token := 0; closed_tokens := ∅ |}.

(** [(self.max_handle_id << 2) | 0x3u32] *)
Definition handle_key (n : Z) : HandleValue := Z.lor (wrap 32 (Z.shiftl n 2)) 3.

(** [ProcessInner::add_handle]; inserting over an old entry drops its senders. *)
Definition add_handle (h : Handle) (t : HandleTable) : HandleValue * HandleTable :=
  let key := handle_key (max_handle_id t) in
  let dropped := match handles t !! key with Some (_, q) => q | None => [] end in
  (key, {| max_handle_id := wadd 32 (max_handle_id t) 1;
           handles := <[key := (h, [])]> (handles t);
           next_token := next_token t;
           closed_tokens := list_to_set dropped ∪ closed_tokens t |}).

(** [Process::add_handles] *)
Fixpoint add_handles (hs : list Handle) (t : HandleTable) : list HandleValue * HandleTable :=
  match hs with
  | [] => ([], t)
  | h :: hs =>
      let '(v, t) := add_handle h t in
      let '(vs, t) := add_handles hs t in
      (v :: vs, t)
  end.

(** [ProcessInner::remove_handle] *)
Definition remove_handle (v : HandleValue) (t : HandleTable) : ZxResult Handle * HandleTable :=
  match handles t !! v with
  | None => (Err ZxError.BAD_HANDLE, t)
  | Some (h, queue) =>
      (Ok h, {| max_handle_id := max_handle_id t;
                handles := delete v (handles t);
                next_token := next_token t;
                closed_tokens := list_to_set queue ∪ closed_tokens t |})
  end.

(** [Process::remove_handles]: collecting into a [Result] stops at the first error. *)
Fixpoint remove_handles (vs : list HandleValue) (t : HandleTable) :
    ZxResult (list Handle) * HandleTable :=
  match vs with
  | [] => (Ok [], t)
  | v :: vs =>
      match remove_handle v t with
      | (Ok h, t) =>
          let '(r, t) := remove_handles vs t in (rmap (cons h) r, t)
      | (Err e, t) => (Err e, t)
      | (Panic, t) => (Panic, t)
      end
  end.

(** [ProcessInner::get_handle] *)
Definition get_handle (v : HandleValue) (t : HandleTable) : ZxResult Handle :=
  let? (h, _) := ok_or (handles t !! v) ZxError.BAD_HANDLE in Ok h.

(** [ProcessInner::get_cancel_token]: the receiver is the new token. *)
Definition get_cancel_token (v : HandleValue) (t : HandleTable) : ZxResult nat * HandleTable :=
  match handles t !! v with
  | None => (Err ZxError.BAD_HANDLE, t)
  | Some (h, queue) =>
      (Ok (next_token t),
       {| max_handle_id := max_handle_id t;
          handles := <[v := (h, queue ++ [next_token t])]> (handles t);
          next_token := S (next_token t);
          closed_tokens := closed_tokens t |})
  end.

(** [inner.handles.clear()]: every sender is dropped. *)
Definition clear_handles (t : HandleTable) : HandleTable :=
  {| max_handle_id := max_handle_id t; handles := ∅; next_token := next_token t;
     closed_tokens :=
       list_to_set (concat (map (λ '(_, (_, q)), q) (map_to_list (handles t)))) ∪ closed_tokens t |}.

(** [downcast_arc::<T>()], [T] named by its type name. *)
Definition downcast (T : string) (o : KernelObject) : ZxResult KernelObject :=
  if String.eqb (type_name o) T then Ok o else Err ZxError.WRONG_TYPE.

Definition get_dyn_object_and_rights (v : HandleValue) (t : HandleTable) :
    ZxResult (KernelObject * Z) :=
  let? h := get_handle v t in Ok (object h, rights h).

Definition get_object_with_rights (T : string) (v : HandleValue) (desired : Z)
    (t : HandleTable) : ZxResult KernelObject :=
  let? (o, r) := get_dyn_object_and_rights v t in
  let? o := downcast T o in
  if negb (contains r desired) then Err ZxError.ACCESS_DENIED else Ok o.

Definition get_object_and_rights (T : string) (v : HandleValue) (t : HandleTable) :
    ZxResult (KernelObject * Z) :=
  let? (o, r) := get_dyn_object_and_rights v t in
  let? o := downcast T o in Ok (o, r).

Definition get_dyn_object_with_rights (v : HandleValue) (desired : Z) (t : HandleTable) :
    ZxResult KernelObject :=
  let? h := get_handle v t in
  if negb (contains (rights h) desired) then Err ZxError.ACCESS_DENIED else Ok (object h).

Definition get_object (T : string) (v : HandleValue) (t : HandleTable) : ZxResult KernelObject :=
  let? h := get_handle v t in downcast T (object h).

Definition table_get_handle_info (v : HandleValue) (t : HandleTable) :
    ZxResult HandleBasicInfo :=
  let? h := get_handle v t in get_info h.

Definition remove_object (T : string) (v : HandleValue) (t : HandleTable) :
    ZxResult KernelObject * HandleTable :=
  let '(r, t) := remove_handle v t in
  (let? h := r in downcast T (object h), t).

Definition dup_handle_operating_rights (v : HandleValue) (operation : Z → ZxResult Z)
    (t : HandleTable) : ZxResult HandleValue * HandleTable :=
  match handles t !! v with
  | None => (Err ZxError.BAD_HANDLE, t)
  | Some (h, _) =>
      match operation (rights h) with
      | Ok r =>
          let '(nv, t) := add_handle (mkHandle (object h) r) t in (Ok nv, t)
      | Err e => (Err e, t)
      | Panic => (Panic, t)
      end
  end.

(** ** System calls ([zircon-syscall/src/handle.rs])

    [out] is the outcome of writing the result through the user pointer, which comes
    last in each call. *)

Definition write_out (out : option UserError.t) : ZxResult unit :=
  match out with None => Ok tt | Some e => Err (from_user_error e) end.

Definition duplicate_rights (requested handle_rights : Z) : ZxResult Z :=
  if negb (contains handle_rights Rights.DUPLICATE) then Err ZxError.ACCESS_DENIED
  else if negb (contains requested Rights.SAME_RIGHTS) then
    if negb (Z.land handle_rights requested =? requested) then Err ZxError.INVALID_ARGS
    else Ok requested
  else Ok handle_rights.

Definition sys_handle_duplicate (v : HandleValue) (r : Z) (out : option UserError.t)
    (t : HandleTable) : ZxResult HandleValue * HandleTable :=
  match Rights.try_from r with
  | Ok requested =>
      let '(nv, t) := dup_handle_operating_rights v (duplicate_rights requested) t in
      (let? nv := nv in let? _ := write_out out in Ok nv, t)
  | Err e => (Err e, t)
  | Panic => (Panic, t)
  end.

Definition sys_handle_close (v : HandleValue) (t : HandleTable) : ZxResult unit * HandleTable :=
  if v =? INVALID_HANDLE then (Ok tt, t)
  else let '(r, t) := remove_handle v t in (rmap (λ _, tt) r, t).

Fixpoint sys_handle_close_many (vs : list HandleValue) (t : HandleTable) :
    ZxResult unit * HandleTable :=
  match vs with
  | [] => (Ok tt, t)
  | v :: vs =>
      if v =? INVALID_HANDLE then sys_handle_close_many vs t
      else match remove_handle v t with
           | (Ok _, t) => sys_handle_close_many vs t
           | (Err e, t) => (Err e, t)
           | (Panic, t) => (Panic, t)
           end
  end.

Definition replace_rights (requested handle_rights : Z) : ZxResult Z :=
  if negb (contains requested Rights.SAME_RIGHTS) &&
     negb (Z.land handle_rights requested =? requested)
  then Err ZxError.INVALID_ARGS else Ok requested.

Definition sys_handle_replace (v : HandleValue) (r : Z) (out : option UserError.t)
    (t : HandleTable) : ZxResult HandleValue * HandleTable :=
  match Rights.try_from r with
  | Ok requested =>
      match dup_handle_operating_rights v (replace_rights requested) t with
      | (Ok nv, t) =>
          let '(rm, t) := remove_handle v t in
          (let? _ := rm in let? _ := write_out out in Ok nv, t)
      | r => r
      end
  | Err e => (Err e, t)
  | Panic => (Panic, t)
  end.

(** ** Well-formedness *)

(** Values are handed out in order, and each cancel token belongs to one live entry
    until it is closed. *)
Record table_wf (t : HandleTable) : Prop := {
  wf_max : 0 ≤ max_handle_id t ≤ 2 ^ 30;
  wf_keys v e : handles t !! v = Some e → ∃ i, 0 ≤ i < max_handle_id t ∧ v = handle_key i;
  wf_tokens v h q n :
    handles t !! v = Some (h, q) → n ∈ q → (n < next_token t)%nat ∧ n ∉ closed_tokens t;
  wf_closed n : n ∈ closed_tokens t → (n < next_token t)%nat;
  wf_owner v1 v2 h1 h2 q1 q2 n :
    handles t !! v1 = Some (h1, q1) → handles t !! v2 = Some (h2, q2) →
    n ∈ q1 → n ∈ q2 → v1 = v2
}.

Lemma handle_key_eq i : 0 ≤ i < 2 ^ 30 → handle_key i = 4 * i + 3.
Proof.
  intros Hi. unfold handle_key, wrap. rewrite Z.shiftl_mul_pow2 by lia.
  rewrite Z.mod_small by lia. change (2 ^ 2) with 4.
  pose proof (Z.add_lor_land (i * 4) 3) as Ha.
  assert (Z.land (i * 4) 3 = 0) as Hz.
  { change 3 with (Z.ones 2). rewrite Z.land_ones by lia. apply Z_mod_mult. }
  lia.
Qed.

Lemma handle_key_inj i j :
  0 ≤ i < 2 ^ 30 → 0 ≤ j < 2 ^ 30 → handle_key i = handle_key j → i = j.
Proof. intros ??. rewrite !handle_key_eq by done. lia. Qed.

Lemma handle_key_fresh t :
  table_wf t → max_handle_id t < 2 ^ 30 → handles t !! handle_key (max_handle_id t) = None.
Proof.
  intros Hwf Hmax. destruct (handles t !! _) as [e|] eqn:E; [|done].
  destruct (wf_keys t Hwf _ _ E) as (i & Hi & Hk).
  apply handle_key_inj in Hk; pose proof (wf_max t Hwf); lia.
Qed.

Lemma empty_table_wf : table_wf empty_table.
Proof. split; simpl; [lia|set_solver..]. Qed.

Lemma add_handle_wf h t :
  table_wf t → max_handle_id t < 2 ^ 30 → table_wf (snd (add_handle h t)).
Proof.
  intros Hwf Hmax. pose proof (handle_key_fresh t Hwf Hmax) as Hf.
  pose proof (wf_max t Hwf). unfold add_handle. simpl. rewrite Hf.
  rewrite wadd_small by (unfold fits; lia). split; simpl.
  - lia.
  - intros v e. rewrite lookup_insert_Some. intros [[<- _]|[_ He]].
    + exists (max_handle_id t). lia.
    + destruct (wf_keys t Hwf v e He) as (i & ? & ->). exists i. lia.
  - intros v h' q n. rewrite lookup_insert_Some. intros [[_ [= _ <-]]|[_ He]]; [set_solver|].
    intros Hn. pose proof (wf_tokens t Hwf _ _ _ _ He Hn). set_solver.
  - intros n Hn. apply (wf_closed t Hwf). set_solver.
  - intros v1 v2 h1 h2 q1 q2 n. rewrite !lookup_insert_Some.
    intros [[_ [= _ <-]]|[_ E1]] [[_ [= _ <-]]|[_ E2]]; try set_solver.
    by eapply wf_owner.
Qed.

Lemma remove_handle_wf v t : table_wf t → table_wf (snd (remove_handle v t)).
Proof.
  intros Hwf. unfold remove_handle. destruct (handles t !! v) as [[h q]|] eqn:E; [|done].
  split; simpl.
  - by apply wf_max.
  - intros v' e. rewrite lookup_delete_Some. intros [_ He]. by eapply wf_keys.
  - intros v' h' q' n. rewrite lookup_delete_Some. intros [Hne He] Hn.
    destruct (wf_tokens t Hwf _ _ _ _ He Hn) as [? Hc]. split; [done|].
    rewrite elem_of_union, elem_of_list_to_set. intros [Hq|Hq]; [|done].
    destruct Hne. by eapply wf_owner.
  - intros n. rewrite elem_of_union, elem_of_list_to_set. intros [Hq|Hq].
    + by eapply (wf_tokens t Hwf).
    + by apply (wf_closed t Hwf).
  - intros v1 v2 h1 h2 q1 q2 n. rewrite !lookup_delete_Some.
    intros [_ E1] [_ E2]. by eapply wf_owner.
Qed.

Lemma get_cancel_token_wf v t : table_wf t → table_wf (snd (get_cancel_token v t)).
Proof.
  intros Hwf. unfold get_cancel_token. destruct (handles t !! v) as [[h q]|] eqn:E; [|done].
  assert (∀ v' h' q' n, handles t !! v' = Some (h', q') → n ∈ q' → n ≠ next_token t) as Hlt.
  { intros v' h' q' n He Hn ->. pose proof (wf_tokens t Hwf _ _ _ _ He Hn). lia. }
  split; simpl.
  - by apply wf_max.
  - intros v' e. rewrite lookup_insert_Some. intros [[<- _]|[_ He]]; by eapply wf_keys.
  - intros v' h' q' n. rewrite lookup_insert_Some.
    intros [[<- [= <- <-]]|[_ He]] Hn.
    + apply elem_of_app in Hn as [Hn| ->%list_elem_of_singleton].
      * pose proof (wf_tokens t Hwf _ _ _ _ E Hn). split; [lia|naive_solver].
      * split; [lia|]. intros Hc%(wf_closed t Hwf). lia.
    + pose proof (wf_tokens t Hwf _ _ _ _ He Hn). split; [lia|naive_solver].
  - intros n Hn%(wf_closed t Hwf). lia.
  - intros v1 v2 h1 h2 q1 q2 n. rewrite !lookup_insert_Some.
    intros [[<- [= <- <-]]|[? E1]] [[<- [= <- <-]]|[? E2]]; rewrite ?elem_of_app, ?list_elem_of_singleton;
      intros; destruct_or?; subst; try done; try (by eapply wf_owner); exfalso;
      by eapply Hlt.
Qed.

Lemma clear_handles_wf t : table_wf t → table_wf (clear_handles t).
Proof.
  intros Hwf. split; simpl; [by apply wf_max|set_solver|set_solver| |set_solver].
  intros n. rewrite elem_of_union, elem_of_list_to_set. intros [Hn|Hn]; [|by apply wf_closed].
  apply list_elem_of_In, in_concat in Hn as (q & Hq & Hin).
  apply in_map_iff in Hq as ([v [h q']] & <- & Hm).
  apply list_elem_of_In, elem_of_map_to_list in Hm.
  eapply (wf_tokens t Hwf); [done|by apply list_elem_of_In].
Qed.

(** ** Histories of a table *)

Inductive handle_op :=
| OpAdd (h : Handle)
| OpRemove (v : HandleValue)
| OpCancelToken (v : HandleValue)
| OpClear
| OpDuplicate (v : HandleValue) (r : Z) (out : option UserError.t)
| OpReplace (v : HandleValue) (r : Z) (out : option UserError.t)
| OpClose (v : HandleValue)
| OpCloseMany (vs : list HandleValue)
| OpRemoveMany (vs : list HandleValue).

Definition run_op (t : HandleTable) (op : handle_op) : HandleTable :=
  match op with
  | OpAdd h => snd (add_handle h t)
  | OpRemove v => snd (remove_handle v t)
  | OpCancelToken v => snd (get_cancel_token v t)
  | OpClear => clear_handles t
  | OpDuplicate v r out => snd (sys_handle_duplicate v r out t)
  | OpReplace v r out => snd (sys_handle_replace v r out t)
  | OpClose v => snd (sys_handle_close v t)
  | OpCloseMany vs => snd (sys_handle_close_many vs t)
  | OpRemoveMany vs => snd (remove_handles vs t)
  end.

Lemma remove_handle_max v t : max_handle_id (snd (remove_handle v t)) = max_handle_id t.
Proof. unfold remove_handle. by destruct (handles t !! v) as [[??]|]. Qed.

Lemma dup_handle_wf v f t :
  table_wf t → max_handle_id t < 2 ^ 30 →
  table_wf (snd (dup_handle_operating_rights v f t)) ∧
  max_handle_id (snd (dup_handle_operating_rights v f t)) ≤ max_handle_id t + 1.
Proof.
  intros Hwf Hmax. pose proof (wf_max t Hwf). unfold dup_handle_operating_rights.
  destruct (handles t !! v) as [[h q]|]; simpl; [|by split; [|lia]].
  destruct (f (rights h)) as [r| |]; simpl; [|by split; [|lia]..].
  split; [by apply add_handle_wf|]. rewrite wadd_small by (unfold fits; lia). lia.
Qed.

Lemma close_many_wf vs t :
  table_wf t → table_wf (snd (sys_handle_close_many vs t)) ∧
  max_handle_id (snd (sys_handle_close_many vs t)) = max_handle_id t.
Proof.
  revert t. induction vs as [|v vs IH]; intros t Hwf; simpl; [done|].
  destruct (v =? INVALID_HANDLE); [by apply IH|].
  pose proof (remove_handle_wf v t Hwf). pose proof (remove_handle_max v t).
  destruct (remove_handle v t) as [[] t']; simpl in *; [|done..].
  destruct (IH t') as [? ?]; [done|]. split; [done|congruence].
Qed.

Lemma remove_handles_wf vs t :
  table_wf t → table_wf (snd (remove_handles vs t)) ∧
  max_handle_id (snd (remove_handles vs t)) = max_handle_id t.
Proof.
  revert t. induction vs as [|v vs IH]; intros t Hwf; simpl; [done|].
  pose proof (remove_handle_wf v t Hwf). pose proof (remove_handle_max v t).
  destruct (remove_handle v t) as [[] t']; simpl in *; [|done..].
  destruct (IH t') as [? ?]; [done|]. destruct (remove_handles vs t'); simpl in *.
  split; [done|congruence].
Qed.

Lemma run_op_wf t op :
  table_wf t → max_handle_id t < 2 ^ 30 →
  table_wf (run_op t op) ∧ max_handle_id (run_op t op) ≤ max_handle_id t + 1.
Proof.
  intros Hwf Hmax. pose proof (wf_max t Hwf).
  destruct op as [h|v|v| |v r out|v r out|v|vs|vs]; simpl.
  - split; [by apply add_handle_wf|]. rewrite wadd_small by (unfold fits; lia). lia.
  - rewrite remove_handle_max. split; [by apply remove_handle_wf|lia].
  - split; [by apply get_cancel_token_wf|]. unfold get_cancel_token.
    destruct (handles t !! v) as [[??]|]; simpl; lia.
  - split; [by apply clear_handles_wf|lia].
  - unfold sys_handle_duplicate. destruct (Rights.try_from r) as [q| |]; simpl; [|by split; [|lia]..].
    destruct (dup_handle_wf v (duplicate_rights q) t Hwf Hmax).
    by destruct (dup_handle_operating_rights _ _ _).
  - unfold sys_handle_replace. destruct (Rights.try_from r) as [q| |]; simpl; [|by split; [|lia]..].
    destruct (dup_handle_wf v (replace_rights q) t Hwf Hmax) as [Hwf' Hmax'].
    destruct (dup_handle_operating_rights _ _ _) as [[] t']; simpl in *; [|done..].
    pose proof (remove_handle_wf v t' Hwf') as Hr. pose proof (remove_handle_max v t') as Hm.
    destruct (remove_handle v t'); simpl in *. split; [done|lia].
  - unfold sys_handle_close. destruct (v =? INVALID_HANDLE); simpl; [by split; [|lia]|].
    pose proof (remove_handle_wf v t Hwf) as Hr. pose proof (remove_handle_max v t) as Hm.
    destruct (remove_handle v t); simpl in *. split; [done|lia].
  - destruct (close_many_wf vs t Hwf). split; [done|lia].
  - destruct (remove_handles_wf vs t Hwf). split; [done|lia].
Qed.

Lemma run_ops_wf ops t :
  table_wf t → max_handle_id t + Z.of_nat (length ops) ≤ 2 ^ 30 →
  table_wf (foldl run_op t ops).
Proof.
  revert t. induction ops as [|op ops IH]; intros t Hwf Hlen; simpl; [done|].
  simpl in Hlen. destruct (run_op_wf t op Hwf) as [??]; [lia|]. apply IH; [done|lia].
Qed.

(** *** Values are not used again *)
(** From a table to a later one, a value that was handed out names the same handle or none. *)
Definition handle_at (v : HandleValue) (t : HandleTable) : option Handle := fst <$> handles t !! v.
Record keeps_values (t t' : HandleTable) : Prop := {
  kv_max : max_handle_id t ≤ max_handle_id t';
  kv_value i : 0 ≤ i < max_handle_id t → handle_at (handle_key i) t' = None ∨ handle_at (handle_key i) t' = handle_at (handle_key i) t
}.

Lemma keeps_values_refl t : keeps_values t t.
Proof. split; [done|]. by right. Qed.
Lemma keeps_values_trans t1 t2 t3 : keeps_values t1 t2 → keeps_values t2 t3 → keeps_values t1 t3.
Proof.
  intros [M1 V1] [M2 V2]. split; [lia|]. intros i Hi. destruct (V2 i) as [E2|E2]; [lia|by left|].
  rewrite E2. by apply V1.
Qed.

Lemma add_handle_keeps h t : table_wf t → max_handle_id t < 2 ^ 30 → keeps_values t (snd (add_handle h t)).
Proof.
  intros Hwf Hmax. pose proof (wf_max t Hwf). split; simpl.
  - rewrite wadd_small by (unfold fits; lia). lia.
  - intros i Hi. right. unfold handle_at. simpl. rewrite lookup_insert_ne; [done|]. intros E%handle_key_inj; lia.
Qed.
Lemma remove_handle_keeps v t : keeps_values t (snd (remove_handle v t)).
Proof.
  split; [by rewrite remove_handle_max|]. intros i _. unfold remove_handle, handle_at. destruct (handles t !! v) as [[h q]|]; simpl; [|by right].
  destruct (decide (v = handle_key i)) as [->|]; [left; by rewrite lookup_delete_eq|right; by rewrite lookup_delete_ne].
Qed.
Lemma get_cancel_token_keeps v t : keeps_values t (snd (get_cancel_token v t)).
Proof.
  unfold get_cancel_token. destruct (handles t !! v) as [[h q]|] eqn:E; [|apply keeps_values_refl]. split; simpl; [done|]. intros i _. right. unfold handle_at. simpl.
  destruct (decide (v = handle_key i)) as [->|]; [by rewrite lookup_insert_eq, E|by rewrite lookup_insert_ne].
Qed.
Lemma dup_handle_keeps v f t : table_wf t → max_handle_id t < 2 ^ 30 → keeps_values t (snd (dup_handle_operating_rights v f t)).
Proof.
  intros Hwf Hmax. unfold dup_handle_operating_rights. destruct (handles t !! v) as [[h q]|]; simpl; [|apply keeps_values_refl].
  destruct (f (rights h)) as [r| |]; simpl; [|apply keeps_values_refl..]. by apply (add_handle_keeps (mkHandle (object h) r)).
Qed.
Lemma close_many_keeps vs t : keeps_values t (snd (sys_handle_close_many vs t)).
Proof.
  revert t. induction vs as [|v vs IH]; intros t; simpl; [apply keeps_values_refl|]. destruct (v =? INVALID_HANDLE); [apply IH|].
  pose proof (remove_handle_keeps v t) as Hr. destruct (remove_handle v t) as [[] t']; simpl in *; [|done..]. by eapply keeps_values_trans.
Qed.
Lemma remove_handles_keeps vs t : keeps_values t (snd (remove_handles vs t)).
Proof.
  revert t. induction vs as [|v vs IH]; intros t; simpl; [apply keeps_values_refl|].
  pose proof (remove_handle_keeps v t) as Hr. destruct (remove_handle v t) as [[] t']; simpl in *; [|done..]. specialize (IH t').
  destruct (remove_handles vs t'). by eapply keeps_values_trans.
Qed.

Lemma run_op_keeps t op : table_wf t → max_handle_id t < 2 ^ 30 → keeps_values t (run_op t op).
Proof.
  intros Hwf Hmax. destruct op as [h|v|v| |v r out|v r out|v|vs|vs]; cbn [run_op].
  - by apply add_handle_keeps.
  - apply remove_handle_keeps.
  - apply get_cancel_token_keeps.
  - split; [done|]. by left.
  - unfold sys_handle_duplicate. destruct (Rights.try_from r) as [q| |]; simpl; [|apply keeps_values_refl..].
    pose proof (dup_handle_keeps v (duplicate_rights q) t Hwf Hmax). by destruct (dup_handle_operating_rights _ _ _).
  - unfold sys_handle_replace. destruct (Rights.try_from r) as [q| |]; simpl; [|apply keeps_values_refl..].
    pose proof (dup_handle_keeps v (replace_rights q) t Hwf Hmax) as Hd. destruct (dup_handle_operating_rights _ _ _) as [[] t']; simpl in *; [|done..].
    pose proof (remove_handle_keeps v t') as Hr. destruct (remove_handle v t'); simpl in *. by eapply keeps_values_trans.
  - unfold sys_handle_close. destruct (v =? INVALID_HANDLE); simpl; [apply keeps_values_refl|].
    pose proof (remove_handle_keeps v t) as Hr. by destruct (remove_handle v t).
  - apply close_many_keeps.
  - apply remove_handles_keeps.
Qed.
Lemma run_ops_keeps ops t : table_wf t → max_handle_id t + Z.of_nat (length ops) ≤ 2 ^ 30 → keeps_values t (foldl run_op t ops).
Proof.
  revert t. induction ops as [|op ops IH]; intros t Hwf Hlen; simpl; [apply keeps_values_refl|]. simpl in Hlen.
  destruct (run_op_wf t op Hwf) as [??]; [lia|]. eapply keeps_values_trans; [apply run_op_keeps; [done|lia]|]. apply IH; [done|lia].
Qed.
Lemma run_ops_max ops t : table_wf t → max_handle_id t + Z.of_nat (length ops) ≤ 2 ^ 30 → max_handle_id (foldl run_op t ops) ≤ max_handle_id t + Z.of_nat (length ops).
Proof.
  revert t. induction ops as [|op ops IH]; intros t Hwf Hlen; simpl; [lia|]. simpl in Hlen. destruct (run_op_wf t op Hwf) as [??]; [lia|].
  etrans; [apply IH; [done|lia]|]. lia.
Qed.

(** C2. Over every history of at most [2 ^ 30] operations on the table of a process: handle values are 3 modulo 4
    and never [INVALID_HANDLE]; a value that names a handle names this very handle until it is
    removed, and nothing ever after, whatever is added later, so no value is handed out twice; and the
    cancel tokens of an entry are open as long as it is there. *)
Theorem handle_table_invariant (ops1 ops2 ops3 : list handle_op) :
  Z.of_nat (length (ops1 ++ ops2 ++ ops3)) ≤ 2 ^ 30 →
  let t1 := foldl run_op empty_table ops1 in
  let t2 := foldl run_op t1 ops2 in
  let t3 := foldl run_op t2 ops3 in
  table_wf t1 ∧
  (∀ v e, handles t1 !! v = Some e → v mod 4 = 3 ∧ v ≠ INVALID_HANDLE) ∧
  (∀ v h h' q q', handles t1 !! v = Some (h, q) → handles t2 !! v = Some (h', q') → h' = h) ∧
  (∀ v e, handles t1 !! v = Some e → handles t2 !! v = None → handles t3 !! v = None) ∧
  (∀ v h q n, handles t1 !! v = Some (h, q) → n ∈ q → n ∉ closed_tokens t1).
Proof.
  rewrite !length_app. intros Hlen t1 t2 t3.
  assert (table_wf t1) as Hwf by (apply run_ops_wf; [apply empty_table_wf|simpl; lia]).
  assert (max_handle_id t1 ≤ Z.of_nat (length ops1)) as Hm1 by (apply (run_ops_max ops1 empty_table); [apply empty_table_wf|simpl; lia]).
  assert (table_wf t2) as Hwf2 by (apply run_ops_wf; [done|lia]).
  assert (max_handle_id t2 ≤ max_handle_id t1 + Z.of_nat (length ops2)) as Hm2 by (apply run_ops_max; [done|lia]).
  assert (keeps_values t1 t2) as K12 by (apply run_ops_keeps; [done|lia]).
  assert (keeps_values t2 t3) as K23 by (apply run_ops_keeps; [done|lia]).
  split_and!; [done| | | |].
  - intros v e He. destruct (wf_keys t1 Hwf v e He) as (i & Hi & ->).
    pose proof (wf_max t1 Hwf). rewrite handle_key_eq by lia. unfold INVALID_HANDLE.
    split; [|lia]. rewrite Z.add_comm, Z.mul_comm, Z_mod_plus_full. done.
  - intros v h h' q q' E1 E2. destruct (wf_keys t1 Hwf v _ E1) as (i & Hi & ->).
    destruct (kv_value _ _ K12 i Hi) as [E|E]; unfold handle_at in E; rewrite E2 in E; [done|]. rewrite E1 in E. by injection E.
  - intros v e E1 E2. destruct (wf_keys t1 Hwf v _ E1) as (i & Hi & ->). pose proof (kv_max _ _ K12).
    destruct (kv_value _ _ K23 i) as [E|E]; [lia|..]; unfold handle_at in E; rewrite ?E2 in E; by destruct (handles t3 !! handle_key i).
  - intros v h q n He Hn. by eapply wf_tokens.
Qed.

(** A value that is closed stays closed although another handle is added afterwards. *)
Lemma handle_table_invariant_witness :
  let o := mkKernelObject 1024 "Event" 0 in
  let t1 := foldl run_op empty_table [OpAdd (mkHandle o 7); OpDuplicate 3 3 None; OpCancelToken 7] in
  handles t1 !! 7 = Some (mkHandle o 3, [0%nat]) ∧ handles (foldl run_op (foldl run_op t1 [OpClose 7]) [OpAdd (mkHandle o 1)]) !! 7 = None.
Proof.
  set (o := mkKernelObject 1024 "Event" 0).
  destruct (handle_table_invariant [OpAdd (mkHandle o 7); OpDuplicate 3 3 None; OpCancelToken 7] [OpClose 7] [OpAdd (mkHandle o 1)])
    as (_ & _ & _ & Hgone & _); [by vm_compute|].
  split; [by vm_compute|]. by eapply Hgone; vm_compute.
Defined.

(** Adding a handle to a table that has not handed out all its values returns a fresh
    value; the new value resolves to the handle, every other value to what it did. *)
Theorem add_handle_get h t :
  table_wf t → max_handle_id t < 2 ^ 30 →
  let '(v, t') := add_handle h t in
  handles t !! v = None ∧ v ≠ INVALID_HANDLE ∧ get_handle v t' = Ok h ∧
  (∀ v', v' ≠ v → get_handle v' t' = get_handle v' t) ∧
  closed_tokens t' = closed_tokens t.
Proof.
  intros Hwf Hmax. pose proof (handle_key_fresh t Hwf Hmax) as Hf.
  pose proof (wf_max t Hwf). unfold add_handle, get_handle; simpl. rewrite Hf.
  split_and!; [done| | | |set_solver].
  - rewrite handle_key_eq by lia. unfold INVALID_HANDLE. lia.
  - by rewrite lookup_insert_eq.
  - intros v' Hne. by rewrite lookup_insert_ne.
Qed.

Lemma add_handle_get_witness :
  get_handle 3 (snd (add_handle (mkHandle (mkKernelObject 1024 "Event" 0) 7) empty_table))
  = Ok (mkHandle (mkKernelObject 1024 "Event" 0) 7).
Proof.
  by destruct (add_handle_get (mkHandle (mkKernelObject 1024 "Event" 0) 7) empty_table)
    as (_ & _ & H & _); [apply empty_table_wf|by vm_compute|].
Defined.

(** ** Rights only shrink when a handle is duplicated *)

Lemma duplicate_rights_Ok requested r r' :
  duplicate_rights requested r = Ok r' →
  contains r Rights.DUPLICATE = true ∧ sub_rights r' r.
Proof.
  unfold duplicate_rights, sub_rights. destruct (contains r Rights.DUPLICATE); simpl; [|done].
  destruct (contains requested Rights.SAME_RIGHTS); simpl.
  - intros [= ->]. split; [done|]. by apply contains_spec.
  - destruct (Z.land r requested =? requested) eqn:E; simpl; [|done]. by intros [= <-].
Qed.

Lemma dup_handle_Ok v f t nv t' :
  table_wf t → max_handle_id t < 2 ^ 30 →
  dup_handle_operating_rights v f t = (Ok nv, t') →
  ∃ h r, get_handle v t = Ok h ∧ f (rights h) = Ok r ∧ handles t !! nv = None ∧
         get_handle nv t' = Ok (mkHandle (object h) r) ∧
         ∀ v', v' ≠ nv → handles t' !! v' = handles t !! v'.
Proof.
  intros Hwf Hmax. unfold dup_handle_operating_rights, get_handle.
  destruct (handles t !! v) as [[h q]|] eqn:E; [|done].
  destruct (f (rights h)) as [r| |] eqn:Er; [|done..].
  pose proof (handle_key_fresh t Hwf Hmax) as Hf.
  unfold add_handle. rewrite Hf. intros [= <- <-]. exists h, r. simpl.
  split_and!; [done..| |].
  - by rewrite lookup_insert_eq.
  - intros v' Hne. by rewrite lookup_insert_ne.
Qed.

(** A successful [sys_handle_duplicate] needs [DUPLICATE] on the source, creates a
    handle on the same object whose rights are among the source's, and changes no other
    entry of the table. *)
Theorem sys_handle_duplicate_rights v r out t nv t' :
  table_wf t → max_handle_id t < 2 ^ 30 →
  sys_handle_duplicate v r out t = (Ok nv, t') →
  ∃ h h', get_handle v t = Ok h ∧ get_handle nv t' = Ok h' ∧
    object h' = object h ∧ sub_rights (rights h') (rights h) ∧
    contains (rights h) Rights.DUPLICATE = true ∧
    ∀ v', v' ≠ nv → handles t' !! v' = handles t !! v'.
Proof.
  intros Hwf Hmax. unfold sys_handle_duplicate.
  destruct (Rights.try_from r) as [req| |] eqn:Er; [|done..].
  destruct (dup_handle_operating_rights v (duplicate_rights req) t) as [[nv'| |] t1] eqn:E;
    simpl; [|done..].
  destruct (write_out out); simpl; [|done..]. intros [= <- <-].
  destruct (dup_handle_Ok _ _ _ _ _ Hwf Hmax E) as (h & r' & Hh & [Hd Hs]%duplicate_rights_Ok & _ & Hn & Ho).
  by exists h, (mkHandle (object h) r').
Qed.

Lemma sys_handle_duplicate_rights_witness :
  ∃ h h' t', sys_handle_duplicate 3 (Rights.DUPLICATE) None
      (snd (add_handle (mkHandle (mkKernelObject 1024 "Event" 0) Rights.DEFAULT_EVENT) empty_table))
      = (Ok 7, t') ∧ get_handle 7 t' = Ok h' ∧ sub_rights (rights h') (rights h) ∧
      rights h' = Rights.DUPLICATE.
Proof.
  set (t := snd (add_handle (mkHandle (mkKernelObject 1024 "Event" 0) Rights.DEFAULT_EVENT) empty_table)).
  destruct (sys_handle_duplicate_rights 3 Rights.DUPLICATE None t 7
    (snd (sys_handle_duplicate 3 Rights.DUPLICATE None t))) as (h & h' & Hh & Hh' & _ & Hs & _ & _).
  - apply add_handle_wf; [apply empty_table_wf|by vm_compute].
  - by vm_compute.
  - by vm_compute.
  - exists h, h', (snd (sys_handle_duplicate 3 Rights.DUPLICATE None t)).
    split_and!; [by vm_compute|done|done|]. clear Hh Hs. vm_compute in Hh'. by injection Hh' as <-.
Defined.

(** [sys_handle_replace] does not look at the source's rights once the request has the
    [SAME_RIGHTS] bit: it grants exactly the requested bits, so every declared right can be
    obtained from any handle, and a plain [SAME_RIGHTS] request loses the rights it should
    keep. *)
Theorem sys_handle_replace_escalates v r t h q :
  table_wf t → max_handle_id t < 2 ^ 30 → handles t !! v = Some (h, q) →
  from_bits Rights.all r = Some r → contains r Rights.SAME_RIGHTS = true →
  ∃ nv t', sys_handle_replace v r None t = (Ok nv, t') ∧
           get_handle nv t' = Ok (mkHandle (object h) r) ∧
           get_handle v t' = Err ZxError.BAD_HANDLE.
Proof.
  intros Hwf Hmax Hv Hr Hsame. unfold sys_handle_replace, Rights.try_from. rewrite Hr. simpl.
  assert (replace_rights r (rights h) = Ok r) as Hrep by (unfold replace_rights; by rewrite Hsame).
  pose proof (handle_key_fresh t Hwf Hmax) as Hf.
  assert (v ≠ handle_key (max_handle_id t)) as Hne by congruence.
  unfold dup_handle_operating_rights, remove_handle, get_handle. rewrite Hv, Hrep. simpl.
  rewrite lookup_insert_ne, Hv by done. simpl. eexists _, _. split; [done|]. simpl.
  by rewrite lookup_delete_ne, lookup_insert_eq, lookup_delete_eq by done.
Qed.

(** A handle that may only be transferred is replaced by one that may be read, written,
    executed, mapped and destroyed; its rights are not among the old ones. *)
Lemma sys_handle_replace_escalates_witness :
  let o := mkKernelObject 1024 "VmObject" 0 in
  let t := snd (add_handle (mkHandle o Rights.TRANSFER) empty_table) in
  let wanted := Z.lor Rights.SAME_RIGHTS
    (Z.lor Rights.IO (Z.lor Rights.EXECUTE (Z.lor Rights.MAP Rights.DESTROY))) in
  (∃ nv t', sys_handle_replace 3 wanted None t = (Ok nv, t') ∧
            get_handle nv t' = Ok (mkHandle o wanted) ∧
            get_handle 3 t' = Err ZxError.BAD_HANDLE) ∧
  contains Rights.TRANSFER wanted = false.
Proof.
  intros o t wanted. split; [|done].
  apply (sys_handle_replace_escalates 3 wanted t (mkHandle o Rights.TRANSFER) []).
  - apply add_handle_wf; [apply empty_table_wf|by vm_compute].
  - by vm_compute.
  - by vm_compute.
  - by vm_compute.
  - by vm_compute.
Defined.

(** ** Removing several handles *)

Lemma remove_handle_lookup v v' t :
  handles (snd (remove_handle v t)) !! v' = if decide (v = v') then None else handles t !! v'.
Proof.
  unfold remove_handle. destruct (handles t !! v) as [[h q]|] eqn:E; simpl.
  - rewrite lookup_delete. by case_decide.
  - case_decide; congruence.
Qed.

(** [remove_handles] takes out the listed handles in order up to the first value that is
    not in the table: on success all of them are gone and returned in order; on failure the
    handles listed after the bad value are still in the table. *)
Theorem remove_handles_prefix pre v post t :
  NoDup pre → (∀ x, x ∈ pre → is_Some (handles t !! x)) →
  (∃ hs t', remove_handles pre t = (Ok hs, t') ∧ map Some hs = map (λ x, fst <$> handles t !! x) pre ∧
            ∀ x, handles t' !! x = if bool_decide (x ∈ pre) then None else handles t !! x) ∧
  (handles t !! v = None →
   ∃ t', remove_handles (pre ++ v :: post) t = (Err ZxError.BAD_HANDLE, t') ∧
         ∀ x, x ∈ post → x ∉ pre → handles t' !! x = handles t !! x).
Proof.
  revert t. induction pre as [|p pre IH]; intros t Hnd Hin; simpl.
  - split; [by exists [], t|]. intros Hv. unfold remove_handle. rewrite Hv. by exists t.
  - apply NoDup_cons in Hnd as [Hp Hnd].
    destruct (Hin p) as [[h q] Hh]; [by left|].
    pose proof (λ x, remove_handle_lookup p x t) as Hl.
    unfold remove_handle in *. rewrite Hh in *. simpl in Hl.
    destruct (IH (mkHandleTable (max_handle_id t) (delete p (handles t)) (next_token t)
      (list_to_set q ∪ closed_tokens t)) Hnd) as [(hs & t1 & E1 & Hm & Hx) H2]; simpl in *.
    { intros x Hx. rewrite Hl. destruct (decide (p = x)) as [->|]; [done|]. apply Hin. by right. }
    split.
    + rewrite E1. simpl. exists (h :: hs), t1. split_and!; [done| |].
      * simpl. f_equal. rewrite Hm. apply map_ext_in. intros x Hx'%list_elem_of_In.
        rewrite Hl. by case_decide; subst.
      * intros x. rewrite Hx, Hl.
        rewrite (bool_decide_ext (x ∈ p :: pre) (x = p ∨ x ∈ pre)) by apply elem_of_cons.
        repeat case_bool_decide; destruct (decide (p = x)); naive_solver.
    + intros Hv. destruct H2 as (t2 & E2 & Hpost).
      { rewrite Hl. by case_decide. }
      rewrite E2. simpl. exists t2. split; [done|]. intros x Hxp Hnx.
      rewrite Hpost, Hl by set_solver. destruct (decide (p = x)); set_solver.
Qed.

Lemma remove_handles_prefix_witness :
  let o := mkKernelObject 1024 "Event" 0 in
  let t := snd (add_handles [mkHandle o 1; mkHandle o 2; mkHandle o 3] empty_table) in
  ∃ t', remove_handles [3; 4; 11] t = (Err ZxError.BAD_HANDLE, t') ∧
        get_handle 11 t' = Ok (mkHandle o 3).
Proof.
  intros o t. destruct (remove_handles_prefix [3] 4 [11] t) as [_ H].
  - apply NoDup_singleton.
  - intros x ->%list_elem_of_singleton. vm_compute. eauto.
  - destruct H as (t' & E & Hx); [by vm_compute|]. exists t'. split; [done|].
    unfold get_handle. rewrite Hx; [by vm_compute|by left|]. by intros ?%list_elem_of_singleton.
Defined.
