(* ===== verification/Locks.v ===== *)
(** * Spin locks and the order in which they are taken

    Objects of the kernel are guarded by [kernel_hal::sync::Mutex], a spin lock: a thread
    that acquires a lock that is held does not move until it is released.  A thread is
    reduced to the sequence of its lock operations; threads interleave freely. *)

From stdpp Require Import relations.
From S2P Require Import Prelude.
From stdpp Require Import options.

Inductive action (L : Type) := Acquire (l : L) | Release (l : L).
Arguments Acquire {L} l.
Arguments Release {L} l.

Section locks.
Context {L : Type} `{EqDecision L}.

(** What is left of every thread, and the locks that are held. *)
Definition threads : Type := list (list (action L)) * list L.

Definition act (a : action L) (held : list L) : option (list L) :=
  match a with
  | Acquire l => if decide (l ∈ held) then None else Some (l :: held)
  | Release l => Some (filter (λ l', l' ≠ l) held)
  end.

Fixpoint acts (p : list (action L)) (held : list L) : option (list L) :=
  match p with [] => Some held | a :: p => act a held ≫= acts p end.

Inductive lock_step : threads → threads → Prop :=
| lock_step_thread i a p ps h h' :
    ps !! i = Some (a :: p) → act a h = Some h' → lock_step (ps, h) (<[i := p]> ps, h').

(** Some thread has work left, and no thread can move. *)
Definition deadlocked (s : threads) : Prop :=
  (∃ i p, fst s !! i = Some p ∧ p ≠ []) ∧ ∀ s', ¬ lock_step s s'.

Definition can_deadlock (ps : list (list (action L))) : Prop :=
  ∃ s, rtc lock_step (ps, []) s ∧ deadlocked s.

Lemma acts_app p q h h' : acts p h = Some h' → acts (p ++ q) h = acts q h'.
Proof.
  revert h. induction p as [|a p IH]; intros h E; simpl in *; [by simplify_eq|].
  destruct (act a h); [|done]. by apply IH.
Qed.

Lemma acts_alone i p q ps h h' :
  ps !! i = Some (p ++ q) → acts p h = Some h' → rtc lock_step (ps, h) (<[i := q]> ps, h').
Proof.
  revert ps h. induction p as [|a p IH]; intros ps h Hi Ha; simpl in *.
  - simplify_eq. by rewrite list_insert_id.
  - destruct (act a h) as [h1|] eqn:E; simpl in Ha; [|done].
    eapply rtc_l; [by eapply lock_step_thread|].
    rewrite <-(list_insert_insert_eq ps i q (p ++ q)). apply IH; [|done].
    apply list_lookup_insert_eq. by eapply lookup_lt_Some.
Qed.

(** Two threads that take two locks in opposite orders, whatever they do with other locks
    in between. *)
Lemma lock_inversion a b pre p mid q :
  a ≠ b → acts pre [a] = Some [a] → acts mid [b; a] = Some [b; a] →
  can_deadlock [Acquire a :: pre ++ Acquire b :: p; Acquire b :: mid ++ Acquire a :: q].
Proof.
  intros Hab Hpre Hmid. exists ([Acquire b :: p; Acquire a :: q], [b; a]). split.
  - eapply rtc_l; [apply (lock_step_thread 0 (Acquire a)); [done|by simpl]|]. simpl.
    etrans; [by apply (acts_alone 0 pre (Acquire b :: p))|]. simpl.
    eapply rtc_l.
    { apply (lock_step_thread 1 (Acquire b) (mid ++ Acquire a :: q)); [done|]. simpl.
      rewrite decide_False; [done|]. by intros ->%list_elem_of_singleton. }
    by apply (acts_alone 1 mid (Acquire a :: q)).
  - split; [by exists 0%nat; eexists|]. intros s' Hs. inversion Hs as [i c r ps h h' Hi Ha]; subst.
    destruct i as [|[|]]; simplify_eq/=; rewrite decide_True in Ha; try done.
    + by left.
    + right. by left.
Qed.
End locks.
Arguments threads : clear implicits.

(** The first of the pairs with a given key. *)
Lemma first_occurrence {A} (t : nat) (x : A) (l : list (nat * A)) :
  (t, x) ∈ l → ∃ l1 y l2, l = l1 ++ (t, y) :: l2 ∧ Forall (λ p, p.1 ≠ t) l1.
Proof.
  induction l as [|[v g] l IH]; intros Hin; [by apply elem_of_nil in Hin|].
  destruct (decide (v = t)) as [->|Hne]; [by exists [], g, l|].
  apply elem_of_cons in Hin as [|Hin]; [congruence|]. destruct (IH Hin) as (l1 & y & l2 & -> & ?).
  exists ((v, g) :: l1), y, l2. split; [done|]. by constructor.
Qed.
