(* ===== verification/Peer.v ===== *)
(** * Pairs of linked endpoints and [EventPair]
    ([zircon-object/src/signal/eventpair.rs] and the pattern shared by [Channel],
    [Fifo] and [Socket])

    Channels, fifos, sockets and event pairs are created as two objects that hold
    [Weak] references to each other.  [self.peer.upgrade()] succeeds as long as the
    other endpoint has a strong reference; an endpoint whose last strong reference
    is gone has been dropped and is absent from the pair. *)

From S2P Require Import Prelude Errors KObject.
From stdpp Require Import options.
#[local] Open Scope Z_scope.

Inductive side := E0 | E1.

#[export] Instance side_eq_dec : EqDecision side.
Proof. solve_decision. Defined.

Definition other (s : side) : side := match s with E0 => E1 | E1 => E0 end.

Record pair_of (T : Type) := mkPair { end0 : option T; end1 : option T }.
Arguments mkPair {T} _ _.
Arguments end0 {T} _.
Arguments end1 {T} _.

Definition get {T} (s : side) (p : pair_of T) : option T :=
  match s with E0 => end0 p | E1 => end1 p end.
Definition put {T} (s : side) (x : option T) (p : pair_of T) : pair_of T :=
  match s with E0 => mkPair x (end1 p) | E1 => mkPair (end0 p) x end.

Section pair.
Context {T : Type}.
Implicit Types (p : pair_of T) (s : side).

Lemma other_involutive s : other (other s) = s.
Proof. by destruct s. Qed.

Lemma get_put s s' x p :
  get s' (put s x p) = if decide (s = s') then x else get s' p.
Proof. by destruct s, s'. Qed.

Lemma get_put_same s x p : get s (put s x p) = x.
Proof. by destruct s. Qed.

Lemma get_put_other s x p : get (other s) (put s x p) = get (other s) p.
Proof. by destruct s. Qed.

Lemma get_put_other' s x p : get s (put (other s) x p) = get s p.
Proof. by destruct s. Qed.

Lemma put_put s x y p : put s x (put s y p) = put s x p.
Proof. by destruct s. Qed.

Lemma put_get s p : put s (get s p) p = p.
Proof. by destruct s, p. Qed.

Lemma pair_ext p q : (∀ s, get s p = get s q) → p = q.
Proof.
  intros H. destruct p as [a b], q as [c d].
  pose proof (H E0) as H0. pose proof (H E1) as H1. simpl in *. by subst.
Qed.
End pair.

#[export] Hint Rewrite @get_put_same @get_put_other @get_put_other' @other_involutive
  @put_put @put_get : peer.

(** Every endpoint embeds a [KObjectBase]. *)
Class HasBase (T W : Type) := {
  base_of : T → KObjectBase W;
  set_base : KObjectBase W → T → T;
  base_set_base b x : base_of (set_base b x) = b
}.

(** [endpoint.base.signal_change(clear, set)], when the endpoint is alive. *)
Definition signal_end {T W} `{HasBase T W} (s : side) (clear set : Z)
    (p : pair_of T) (w : W) : pair_of T * W :=
  match get s p with
  | Some x =>
      let '(b, w) := signal_change clear set (base_of x) w in
      (put s (Some (set_base b x)) p, w)
  | None => (p, w)
  end.

Section signal_end.
Context {T W : Type} `{HasBase T W}.
Implicit Types (p : pair_of T) (w : W).

Lemma signal_end_other s c t p w : get (other s) (fst (signal_end s c t p w)) = get (other s) p.
Proof.
  unfold signal_end. destruct (get s p); [|done].
  destruct (signal_change _ _ _ _). simpl. apply get_put_other.
Qed.

(** The signalled endpoint keeps everything but its base, whose signals change. *)
Lemma signal_end_same s c t p w x :
  get s p = Some x →
  ∃ b, get s (fst (signal_end s c t p w)) = Some (set_base b x) ∧
       signal b = changed (signal (base_of x)) c t ∧ koid b = koid (base_of x).
Proof.
  intros Hx. unfold signal_end. rewrite Hx.
  pose proof (signal_change_signal c t (base_of x) w).
  pose proof (signal_change_id c t (base_of x) w).
  destruct (signal_change _ _ _ _) as [b w']. exists b. simpl in *. by rewrite get_put_same.
Qed.

Lemma signal_end_None s c t p w : get s p = None → signal_end s c t p w = (p, w).
Proof. intros Hx. unfold signal_end. by rewrite Hx. Qed.
End signal_end.

(** *** Conditional changes of one endpoint

    [Fifo] and [Socket] signal an endpoint under a condition and update its buffer;
    their state is the pair together with the world of the callbacks. *)

Definition signal_if {T W} `{HasBase T W} (c : bool) (s : side) (clear set : Z)
    (st : pair_of T * W) : pair_of T * W :=
  if c then signal_end s clear set (fst st) (snd st) else st.

Definition update_end {T W : Type} (s : side) (f : T → T) (st : pair_of T * W) : pair_of T * W :=
  match get s (fst st) with
  | Some x => (put s (Some (f x)) (fst st), snd st)
  | None => st
  end.

(** The signals of an endpoint, and the part [f] of it that signals do not touch. *)
Definition sig_at {T W} `{HasBase T W} (s : side) (st : pair_of T * W) : option Z :=
  (λ x, signal (base_of x)) <$> get s (fst st).
Definition core_at {T W A : Type} (f : T → A) (s : side) (st : pair_of T * W) : option A :=
  f <$> get s (fst st).

Section conditional.
Context {T W : Type} `{HasBase T W}.
Implicit Types (st : pair_of T * W) (s : side).

Lemma side_cases s s' : s' = s ∨ s' = other s.
Proof. destruct s, s'; auto. Qed.

Lemma other_ne s : other s ≠ s.
Proof. by destruct s. Qed.

Lemma sig_at_signal_if c s clear set st s' :
  sig_at s' (signal_if c s clear set st) =
  (λ x, if c && bool_decide (s' = s) then changed x clear set else x) <$> sig_at s' st.
Proof.
  destruct c; simpl; [|by destruct (sig_at s' st)]. unfold sig_at.
  destruct (side_cases s s') as [-> | ->].
  - rewrite bool_decide_true by done. destruct (get s (fst st)) as [x|] eqn:E.
    + destruct (signal_end_same s clear set (fst st) (snd st) x E) as (b & -> & Hs & _).
      simpl. by rewrite base_set_base, Hs.
    + rewrite signal_end_None by done. simpl. by rewrite E.
  - rewrite signal_end_other, bool_decide_false by (by destruct s).
    by destruct (get (other s) (fst st)).
Qed.

Lemma core_at_signal_if {A} (f : T → A) c s clear set st s' :
  (∀ b x, f (set_base b x) = f x) →
  core_at f s' (signal_if c s clear set st) = core_at f s' st.
Proof.
  intros Hf. destruct c; simpl; [|done]. unfold core_at.
  destruct (side_cases s s') as [-> | ->]; [|by rewrite signal_end_other].
  destruct (get s (fst st)) as [x|] eqn:E.
  - destruct (signal_end_same s clear set (fst st) (snd st) x E) as (b & -> & _).
    simpl. by rewrite Hf.
  - rewrite signal_end_None by done. simpl. by rewrite E.
Qed.

Lemma sig_at_update_end s f st s' :
  (∀ x, base_of (f x) = base_of x) → sig_at s' (update_end s f st) = sig_at s' st.
Proof.
  intros Hf. unfold sig_at, update_end. destruct (get s (fst st)) as [x|] eqn:E; [|done].
  simpl. rewrite get_put. destruct (decide (s = s')) as [<-|]; [|done]. by rewrite E; simpl; rewrite Hf.
Qed.

Lemma core_at_update_end {A} (f : T → A) s g st s' :
  core_at f s' (update_end s g st) =
  (λ x, f (if bool_decide (s' = s) then g x else x)) <$> get s' (fst st).
Proof.
  unfold core_at, update_end. destruct (side_cases s s') as [-> | ->].
  - rewrite bool_decide_true by done. destruct (get s (fst st)) as [x|] eqn:E; simpl; [|by rewrite E].
    by rewrite get_put_same.
  - rewrite bool_decide_false by apply other_ne.
    destruct (get s (fst st)) as [x|] eqn:E; simpl; [|done]. by rewrite get_put_other.
Qed.
End conditional.

#[export] Hint Rewrite @sig_at_signal_if : peer.
#[global] Arguments signal_if : simpl never.
#[global] Arguments update_end : simpl never.

(** ** [EventPair] *)

Module EventPair.
Section eventpair.
Context {W : Type}.

Record EventPair := mkEventPair { base : KObjectBase W }.

#[export] Instance eventpair_base : HasBase EventPair W := {|
  base_of := base;
  set_base b _ := mkEventPair b;
  base_set_base b x := eq_refl
|}.

Definition allowed_signals : Z := Z.lor Signal.USER_ALL Signal.SIGNALED.

(** [EventPair::create], the two object ids given. *)
Definition create (id0 id1 : Z) : pair_of EventPair :=
  mkPair (Some (mkEventPair (KObjectBase_new id0))) (Some (mkEventPair (KObjectBase_new id1))).

Definition peer (s : side) (p : pair_of EventPair) : ZxResult EventPair :=
  ok_or (get (other s) p) ZxError.PEER_CLOSED.

Definition related_koid (s : side) (p : pair_of EventPair) : Z :=
  match get (other s) p with Some x => koid (base x) | None => 0 end.

(** [impl Drop for EventPair] *)
Definition drop_end (s : side) (p : pair_of EventPair) (w : W) : pair_of EventPair * W :=
  let '(p, w) := signal_end (other s) 0 Signal.PEER_CLOSED p w in (put s None p, w).

(** Dropping an endpoint asserts [PEER_CLOSED] on its peer, whose other signals stay,
    and from then on the peer reports no peer. *)
Lemma drop_end_spec s p w x :
  get (other s) p = Some x →
  let p' := fst (drop_end s p w) in
  peer (other s) p' = Err ZxError.PEER_CLOSED ∧ related_koid (other s) p' = 0 ∧
  ∃ b, get (other s) p' = Some (mkEventPair b) ∧
       signal b = Z.lor (signal (base x)) Signal.PEER_CLOSED.
Proof.
  intros Hx p'. destruct (signal_end_same (other s) 0 Signal.PEER_CLOSED p w x Hx)
    as (b & Hb & Hs & _).
  unfold p', drop_end, peer, related_koid.
  destruct (signal_end _ _ _ _ _) as [q w'] eqn:E. simpl in *.
  rewrite other_involutive, get_put_same, get_put_other. split_and!; [done..|].
  exists b. split; [done|]. rewrite Hs. unfold changed, flag_insert, flag_remove.
  by rewrite Z.ldiff_0_r.
Qed.
End eventpair.
Arguments EventPair : clear implicits.
End EventPair.
