(* ===== verification/Channel.v ===== *)
(** * Channels ([zircon-object/src/ipc/channel.rs])

    A channel is a pair of endpoints with a queue of messages each.  A message whose
    first four bytes are the transaction id of an outstanding [call] of the receiving
    endpoint completes that call instead of being queued. *)

From S2P Require Import Prelude Errors KObject Peer.
From stdpp Require Import options.
#[local] Open Scope Z_scope.

(** ** Messages *)

Section message.
Context {H : Type}.

Record MessagePacket := mkMessagePacket { data : list Z; msg_handles : list H }.

(** [to_ne_bytes] and [from_ne_bytes] of a [u32]; every supported target is
    little-endian. *)
Definition u32_to_ne_bytes (x : Z) : list Z :=
  [x mod 256; (x / 256) mod 256; (x / 65536) mod 256; (x / 16777216) mod 256].
Definition u32_from_ne_bytes (bs : list Z) : Z :=
  match bs with
  | [a; b; c; d] => a + 256 * b + 65536 * c + 16777216 * d
  | _ => 0
  end.

Definition set_txid (txid : Z) (m : MessagePacket) : MessagePacket :=
  if 4 <=? zlen (data m)
  then mkMessagePacket (overwrite (data m) (u32_to_ne_bytes txid)) (msg_handles m)
  else m.

Definition get_txid (m : MessagePacket) : Z :=
  if 4 <=? zlen (data m) then u32_from_ne_bytes (ztake 4 (data m)) else 0.

Lemma u32_ne_bytes_roundtrip x : fits 32 x → u32_from_ne_bytes (u32_to_ne_bytes x) = x.
Proof.
  unfold fits, u32_to_ne_bytes, u32_from_ne_bytes. intros Hx.
  Z.to_euclidean_division_equations. lia.
Qed.

Lemma get_set_txid txid m :
  fits 32 txid → 4 ≤ zlen (data m) → get_txid (set_txid txid m) = txid.
Proof.
  intros Ht Hl. unfold set_txid, get_txid. destruct (Z.leb_spec 4 (zlen (data m))); [|lia].
  simpl. unfold zlen in *. rewrite length_overwrite by (simpl; lia).
  destruct (Z.leb_spec 4 (Z.of_nat (length (data m)))); [|lia].
  unfold overwrite, ztake. simpl. by apply u32_ne_bytes_roundtrip.
Qed.

Lemma set_txid_handles txid m : msg_handles (set_txid txid m) = msg_handles m.
Proof. unfold set_txid. by destruct (4 <=? _). Qed.
End message.
Arguments MessagePacket : clear implicits.

(** ** Endpoints *)

Section channel.
Context {W H : Type}.
Implicit Types (m : MessagePacket H).

(** [oneshot] channels of the outstanding calls, named by numbers. *)
Inductive Oneshot :=
| Waiting
| Sent (r : ZxResult (MessagePacket H))
| Canceled.

Record Channel := mkChannel {
  base : KObjectBase W;
  recv_queue : list (MessagePacket H);
  call_reply : gmap Z nat;
  next_txid : Z
}.

#[export] Instance channel_base : HasBase Channel W := {|
  base_of := base;
  set_base b c := mkChannel b (recv_queue c) (call_reply c) (next_txid c);
  base_set_base b c := eq_refl
|}.

Record channels := mkChannels {
  ends : pair_of Channel;
  world : W;
  oneshots : gmap nat Oneshot;
  next_oneshot : nat
}.

Definition with_ends (p : pair_of Channel) (w : W) (st : channels) : channels :=
  mkChannels p w (oneshots st) (next_oneshot st).
Definition with_queue (q : list (MessagePacket H)) (c : Channel) : Channel :=
  mkChannel (base c) q (call_reply c) (next_txid c).
Definition with_replies (r : gmap Z nat) (c : Channel) : Channel :=
  mkChannel (base c) (recv_queue c) r (next_txid c).

Definition new_channel (i : Z) : Channel :=
  mkChannel (with_signal i Signal.WRITABLE) [] ∅ 0x80000000.

(** [Channel::create], the two object ids given. *)
Definition create (id0 id1 : Z) (w : W) : channels :=
  mkChannels (mkPair (Some (new_channel id0)) (Some (new_channel id1))) w ∅ 0.

Definition peer_closed (s : side) (st : channels) : bool :=
  match get (other s) (ends st) with Some _ => false | None => true end.

(** [check_and_read], called on the live endpoint [s]. *)
Definition check_and_read (s : side) (checker : MessagePacket H → ZxResult unit)
    (st : channels) : ZxResult (MessagePacket H) * channels :=
  match get s (ends st) with
  | None => (Panic, st)
  | Some c =>
      match recv_queue c with
      | msg :: rest =>
          match checker msg with
          | Ok _ =>
              let p := put s (Some (with_queue rest c)) (ends st) in
              if is_empty rest then
                let '(p, w) := signal_end s Signal.READABLE 0 p (world st) in
                (Ok msg, with_ends p w st)
              else (Ok msg, with_ends p (world st) st)
          | Err e => (Err e, st)
          | Panic => (Panic, st)
          end
      | [] =>
          if peer_closed s st then (Err ZxError.PEER_CLOSED, st)
          else (Err ZxError.SHOULD_WAIT, st)
      end
  end.

Definition read (s : side) : channels → ZxResult (MessagePacket H) * channels :=
  check_and_read s (λ _, Ok tt).

(** [push_general], called on the peer that receives the message. *)
Definition push_general (s : side) m (st : channels) : channels :=
  match get s (ends st) with
  | None => st
  | Some c =>
      let q := recv_queue c ++ [m] in
      let p := put s (Some (with_queue q c)) (ends st) in
      if zlen q =? 1 then
        let '(p, w) := signal_end s 0 Signal.READABLE p (world st) in with_ends p w st
      else with_ends p (world st) st
  end.

(** [sender.send(r)]: the value is stored unless the receiver is gone. *)
Definition send (i : nat) (r : ZxResult (MessagePacket H)) (st : channels) : channels :=
  match oneshots st !! i with
  | Some Waiting =>
      mkChannels (ends st) (world st) (<[i := Sent r]> (oneshots st)) (next_oneshot st)
  | _ => st
  end.

(** The outstanding call of [peer] that [m] answers. *)
Definition answers m (peer : Channel) : option nat :=
  let txid := get_txid m in
  if negb (txid =? 0) then call_reply peer !! txid else None.

Definition write (s : side) m (st : channels) : ZxResult unit * channels :=
  match get (other s) (ends st) with
  | None => (Err ZxError.PEER_CLOSED, st)
  | Some peer =>
      match answers m peer with
      | Some sender =>
          let peer := with_replies (delete (get_txid m) (call_reply peer)) peer in
          let p := put (other s) (Some peer) (ends st) in
          (Ok tt, send sender (Ok m) (with_ends p (world st) st))
      | None => (Ok tt, push_general (other s) m st)
      end
  end.

(** [new_txid] *)
Definition new_txid (c : Channel) : Z * Channel :=
  (next_txid c, mkChannel (base c) (recv_queue c) (call_reply c) (wadd 32 (next_txid c) 1)).

(** [call] up to its [await]: the oneshot the caller waits on is returned.  Overwriting
    an entry of [call_reply] drops the sender it held. *)
Definition call (s : side) m (st : channels) : ZxResult nat * channels :=
  if zlen (data m) <? 4 then (Panic, st)
  else match get s (ends st), get (other s) (ends st) with
  | Some c, Some _ =>
      let '(txid, c) := new_txid c in
      let m := set_txid txid m in
      let i := next_oneshot st in
      let shots := match call_reply c !! txid with
                   | Some old => <[old := Canceled]> (oneshots st)
                   | None => oneshots st
                   end in
      let c := with_replies (<[txid := i]> (call_reply c)) c in
      let st := mkChannels (put s (Some c) (ends st)) (world st) (<[i := Waiting]> shots) (S i) in
      (Ok i, push_general (other s) m st)
  | None, _ => (Panic, st)
  | _, None => (Err ZxError.PEER_CLOSED, st)
  end.

(** [receiver.await.unwrap()]: [None] is still pending. *)
Definition await_reply (i : nat) (st : channels) : option (ZxResult (MessagePacket H)) :=
  match oneshots st !! i with
  | Some (Sent r) => Some r
  | Some Waiting => None
  | Some Canceled | None => Some Panic
  end.

(** A sender dropped without sending cancels its receiver. *)
Definition cancel (i : nat) (st : channels) : channels :=
  match oneshots st !! i with
  | Some Waiting =>
      mkChannels (ends st) (world st) (<[i := Canceled]> (oneshots st)) (next_oneshot st)
  | _ => st
  end.

Definition senders (c : Channel) : list nat := map snd (map_to_list (call_reply c)).

(** [impl Drop for Channel]: the peer is told, its outstanding calls fail, and the fields
    of the dropped endpoint go, its own senders among them. *)
Definition drop_end (s : side) (st : channels) : channels :=
  match get s (ends st) with
  | None => st
  | Some me =>
      let st :=
        match get (other s) (ends st) with
        | Some peer =>
            let '(p, w) :=
              signal_end (other s) Signal.WRITABLE Signal.PEER_CLOSED (ends st) (world st) in
            let p := match get (other s) p with
                     | Some c => put (other s) (Some (with_replies ∅ c)) p
                     | None => p
                     end in
            foldl (λ st i, send i (Err ZxError.PEER_CLOSED) st) (with_ends p w st) (senders peer)
        | None => st
        end in
      let st := foldl (λ st i, cancel i st) st (senders me) in
      with_ends (put s None (ends st)) (world st) st
  end.

(** ** What each operation does to the two endpoints *)

(** [e'] is [e] with a new queue and signals. *)
Definition requeued (e e' : Channel) (q : list (MessagePacket H)) (sig : Z) : Prop :=
  recv_queue e' = q ∧ signal (base e') = sig ∧
  call_reply e' = call_reply e ∧ next_txid e' = next_txid e.

Lemma push_general_spec s m st c :
  get s (ends st) = Some c →
  let st' := push_general s m st in
  (∃ c', get s (ends st') = Some c' ∧
     requeued c c' (recv_queue c ++ [m])
       (if is_empty (recv_queue c) then Z.lor (signal (base c)) Signal.READABLE
        else signal (base c))) ∧
  get (other s) (ends st') = get (other s) (ends st) ∧
  oneshots st' = oneshots st ∧ next_oneshot st' = next_oneshot st.
Proof.
  intros Hc st'. unfold st', push_general. rewrite Hc, zlen_app. change (zlen [m]) with 1.
  set (p := put s _ (ends st)).
  assert (get s p = Some (with_queue (recv_queue c ++ [m]) c)) as Hp by apply get_put_same.
  assert (get (other s) p = get (other s) (ends st)) as Ho by apply get_put_other.
  rewrite is_empty_zlen. destruct (Z.eqb_spec (zlen (recv_queue c) + 1) 1).
  - destruct (Z.eqb_spec (zlen (recv_queue c)) 0); [|lia].
    destruct (signal_end_same s 0 Signal.READABLE p (world st) _ Hp) as (b & Hb & Hsig & _).
    pose proof (signal_end_other s 0 Signal.READABLE p (world st)) as Ho'.
    destruct (signal_end _ _ _ _ _) as [p' w']. simpl in *.
    split_and!; [|by rewrite Ho', Ho|done|done]. eexists. split; [done|].
    repeat split. simpl. rewrite Hsig. unfold changed, flag_insert, flag_remove. simpl.
    by rewrite Z.ldiff_0_r.
  - destruct (Z.eqb_spec (zlen (recv_queue c)) 0); [lia|]. simpl.
    split_and!; [|done..]. eexists. split; [done|]. by repeat split.
Qed.

Lemma check_and_read_spec s f st c :
  get s (ends st) = Some c →
  let '(r, st') := check_and_read s f st in
  match recv_queue c with
  | [] => r = Err (if peer_closed s st then ZxError.PEER_CLOSED else ZxError.SHOULD_WAIT) ∧ st' = st
  | m :: q =>
      match f m with
      | Ok _ =>
          r = Ok m ∧
          (∃ c', get s (ends st') = Some c' ∧
             requeued c c' q (if is_empty q then Z.ldiff (signal (base c)) Signal.READABLE
                              else signal (base c))) ∧
          get (other s) (ends st') = get (other s) (ends st) ∧
          oneshots st' = oneshots st ∧ next_oneshot st' = next_oneshot st
      | Err e => r = Err e ∧ st' = st
      | Panic => r = Panic ∧ st' = st
      end
  end.
Proof.
  intros Hc. unfold check_and_read. rewrite Hc.
  destruct (recv_queue c) as [|m q] eqn:Eq; [by destruct (peer_closed s st)|].
  destruct (f m); [|done..].
  set (p := put s _ (ends st)).
  assert (get s p = Some (with_queue q c)) as Hp by apply get_put_same.
  assert (get (other s) p = get (other s) (ends st)) as Ho by apply get_put_other.
  destruct (is_empty q).
  - destruct (signal_end_same s Signal.READABLE 0 p (world st) _ Hp) as (b & Hb & Hsig & _).
    pose proof (signal_end_other s Signal.READABLE 0 p (world st)) as Ho'.
    destruct (signal_end _ _ _ _ _) as [p' w']. simpl in *.
    split_and!; [done| |by rewrite Ho', Ho|done..]. eexists. split; [done|].
    repeat split. simpl. rewrite Hsig. unfold changed, flag_insert, flag_remove. simpl.
    by rewrite Z.lor_0_r.
  - simpl. split_and!; [done| |done..]. eexists. split; [done|]. by repeat split.
Qed.

Lemma send_ends i r st : ends (send i r st) = ends st ∧ world (send i r st) = world st ∧
  next_oneshot (send i r st) = next_oneshot st.
Proof. unfold send. by destruct (oneshots st !! i) as [[]|]. Qed.

Lemma cancel_ends i st : ends (cancel i st) = ends st ∧ world (cancel i st) = world st ∧
  next_oneshot (cancel i st) = next_oneshot st.
Proof. unfold cancel. by destruct (oneshots st !! i) as [[]|]. Qed.

(** Replace the state of the oneshots of [l] that still wait. *)
Definition settled (o : option Oneshot) (hit : bool) (v : Oneshot) : option Oneshot :=
  match o with
  | Some Waiting => if hit then Some v else Some Waiting
  | _ => o
  end.

Lemma send_lookup i r st j :
  oneshots (send i r st) !! j = settled (oneshots st !! j) (bool_decide (j = i)) (Sent r).
Proof.
  unfold send, settled. destruct (oneshots st !! i) as [[| |]|] eqn:E; simpl;
    rewrite ?lookup_insert; repeat case_decide; case_bool_decide; subst; rewrite ?E; try done;
    by destruct (oneshots st !! j) as [[| |]|].
Qed.

Lemma cancel_lookup i st j :
  oneshots (cancel i st) !! j = settled (oneshots st !! j) (bool_decide (j = i)) Canceled.
Proof.
  unfold cancel, settled. destruct (oneshots st !! i) as [[| |]|] eqn:E; simpl;
    rewrite ?lookup_insert; repeat case_decide; case_bool_decide; subst; rewrite ?E; try done;
    by destruct (oneshots st !! j) as [[| |]|].
Qed.

Lemma settled_settled o a b v : v ≠ Waiting → settled (settled o a v) b v = settled o (a || b) v.
Proof. by destruct o as [[| |]|], a, b, v. Qed.

Lemma send_all_lookup l r st j :
  oneshots (foldl (λ st i, send i r st) st l) !! j =
  settled (oneshots st !! j) (bool_decide (j ∈ l)) (Sent r).
Proof.
  revert st. induction l as [|i l IH]; intros st; simpl.
  - by destruct (oneshots st !! j) as [[| |]|].
  - rewrite IH, send_lookup, settled_settled by done. f_equal.
    rewrite (bool_decide_ext (j ∈ i :: l) (j = i ∨ j ∈ l)) by apply elem_of_cons.
    by rewrite bool_decide_or.
Qed.

Lemma cancel_all_lookup l st j :
  oneshots (foldl (λ st i, cancel i st) st l) !! j =
  settled (oneshots st !! j) (bool_decide (j ∈ l)) Canceled.
Proof.
  revert st. induction l as [|i l IH]; intros st; simpl.
  - by destruct (oneshots st !! j) as [[| |]|].
  - rewrite IH, cancel_lookup, settled_settled by done. f_equal.
    rewrite (bool_decide_ext (j ∈ i :: l) (j = i ∨ j ∈ l)) by apply elem_of_cons.
    by rewrite bool_decide_or.
Qed.

Lemma send_all_ends l r st :
  ends (foldl (λ st i, send i r st) st l) = ends st ∧
  next_oneshot (foldl (λ st i, send i r st) st l) = next_oneshot st.
Proof.
  revert st. induction l as [|i l IH]; intros st; simpl; [done|].
  destruct (IH (send i r st)) as [-> ->]. split; by apply send_ends.
Qed.

Lemma cancel_all_ends l st :
  ends (foldl (λ st i, cancel i st) st l) = ends st ∧
  next_oneshot (foldl (λ st i, cancel i st) st l) = next_oneshot st.
Proof.
  revert st. induction l as [|i l IH]; intros st; simpl; [done|].
  destruct (IH (cancel i st)) as [-> ->]. split; by apply cancel_ends.
Qed.

Lemma elem_of_senders c i : i ∈ senders c ↔ ∃ txid, call_reply c !! txid = Some i.
Proof.
  unfold senders. rewrite list_elem_of_In, in_map_iff. split.
  - intros ([k v] & <- & Hin). exists k. by apply elem_of_map_to_list, list_elem_of_In.
  - intros [k Hk]. exists (k, i). split; [done|]. by apply list_elem_of_In, elem_of_map_to_list.
Qed.

(** What [drop_end] leaves: the peer's outstanding calls fail with [PEER_CLOSED], the
    dropped endpoint's own calls are cancelled. *)
Lemma drop_end_effect s st me :
  get s (ends st) = Some me →
  let st' := drop_end s st in
  get s (ends st') = None ∧
  match get (other s) (ends st) with
  | Some peer =>
      ∃ peer', get (other s) (ends st') = Some peer' ∧
        recv_queue peer' = recv_queue peer ∧ call_reply peer' = ∅ ∧
        next_txid peer' = next_txid peer ∧
        signal (base peer') = changed (signal (base peer)) Signal.WRITABLE Signal.PEER_CLOSED ∧
        ∀ i, oneshots st' !! i =
          settled (settled (oneshots st !! i) (bool_decide (i ∈ senders peer))
                           (Sent (Err ZxError.PEER_CLOSED)))
                  (bool_decide (i ∈ senders me)) Canceled
  | None => get (other s) (ends st') = None ∧
        ∀ i, oneshots st' !! i = settled (oneshots st !! i) (bool_decide (i ∈ senders me)) Canceled
  end ∧
  next_oneshot st' = next_oneshot st.
Proof.
  intros Hme st'. unfold st', drop_end. rewrite Hme. simpl.
  destruct (get (other s) (ends st)) as [peer|] eqn:Ep.
  - destruct (signal_end_same (other s) Signal.WRITABLE Signal.PEER_CLOSED (ends st) (world st) _ Ep)
      as (b & Hb & Hsig & _).
    destruct (signal_end _ _ _ _ _) as [p w]. simpl in Hb. rewrite Hb.
    set (st1 := with_ends _ w st).
    pose proof (cancel_all_lookup (senders me)
      (foldl (λ st i, send i (Err ZxError.PEER_CLOSED) st) st1 (senders peer))) as Hl.
    destruct (cancel_all_ends (senders me)
      (foldl (λ st i, send i (Err ZxError.PEER_CLOSED) st) st1 (senders peer))) as [He Hn].
    destruct (send_all_ends (senders peer) (Err ZxError.PEER_CLOSED) st1) as [He1 Hn1].
    rewrite get_put_same, get_put_other, He, He1, Hn, Hn1. unfold st1. simpl.
    rewrite get_put_same. split_and!; [done| |done]. eexists. split_and!; [done..|].
    intros i. by rewrite Hl, send_all_lookup.
  - destruct (cancel_all_ends (senders me) st) as [He Hn].
    rewrite get_put_same, get_put_other, He, Hn, Ep. split_and!; [done..| |done].
    intros i. by rewrite cancel_all_lookup.
Qed.

(** ** Histories *)

Inductive chan_op :=
| ORead (s : side)
| OWrite (s : side) (m : MessagePacket H)
| OCall (s : side) (m : MessagePacket H)
| ODrop (s : side).

(** What a history makes visible: messages queued at an endpoint, taken from it, and
    replies handed to a caller. *)
Inductive chan_event :=
| EvPush (s : side) (m : MessagePacket H)
| EvRead (s : side) (m : MessagePacket H)
| EvReply (i : nat) (m : MessagePacket H).

Definition chan_run (acc : channels * list chan_event) (op : chan_op) :
    channels * list chan_event :=
  let '(st, evs) := acc in
  match op with
  | ORead s =>
      match get s (ends st) with
      | Some _ =>
          let '(r, st) := read s st in
          (st, match r with Ok m => evs ++ [EvRead s m] | _ => evs end)
      | None => acc
      end
  | OWrite s m =>
      match get s (ends st), get (other s) (ends st) with
      | Some _, Some peer =>
          (snd (write s m st),
           evs ++ [match answers m peer with Some i => EvReply i m | None => EvPush (other s) m end])
      | _, _ => acc
      end
  | OCall s m =>
      match get s (ends st), call s m st with
      | Some c, (Ok _, st) => (st, evs ++ [EvPush (other s) (set_txid (next_txid c) m)])
      | _, _ => acc
      end
  | ODrop s => (drop_end s st, evs)
  end.

Definition pushed (s : side) (evs : list chan_event) : list (MessagePacket H) :=
  omap (λ e, match e with EvPush s' m => if decide (s = s') then Some m else None | _ => None end) evs.
Definition taken (s : side) (evs : list chan_event) : list (MessagePacket H) :=
  omap (λ e, match e with EvRead s' m => if decide (s = s') then Some m else None | _ => None end) evs.

Record chan_wf (n : Z) (st : channels) : Prop := {
  wf_readable s c : get s (ends st) = Some c →
    contains (signal (base c)) Signal.READABLE = negb (is_empty (recv_queue c));
  wf_writable s c : get s (ends st) = Some c →
    contains (signal (base c)) Signal.WRITABLE = negb (peer_closed s st);
  wf_peer_closed s c : get s (ends st) = Some c →
    contains (signal (base c)) Signal.PEER_CLOSED = peer_closed s st;
  wf_next s c : get s (ends st) = Some c → 0x80000000 ≤ next_txid c ≤ 0x80000000 + n;
  wf_txids s c t i : get s (ends st) = Some c → call_reply c !! t = Some i →
    0x80000000 ≤ t < next_txid c ∧ oneshots st !! i = Some Waiting ∧ peer_closed s st = false;
  wf_inj s c t s' c' t' i : get s (ends st) = Some c → get s' (ends st) = Some c' →
    call_reply c !! t = Some i → call_reply c' !! t' = Some i → s = s' ∧ t = t';
  wf_fresh i : is_Some (oneshots st !! i) → (i < next_oneshot st)%nat;
  wf_pending i : oneshots st !! i = Some Waiting →
    ∃ s c t, get s (ends st) = Some c ∧ call_reply c !! t = Some i
}.

Lemma peer_closed_live s st st' :
  (is_Some (get (other s) (ends st)) ↔ is_Some (get (other s) (ends st'))) →
  peer_closed s st = peer_closed s st'.
Proof.
  unfold peer_closed. intros Hl.
  destruct (get (other s) (ends st)), (get (other s) (ends st')); try done; exfalso; naive_solver.
Qed.

(** The bits of [READABLE] move independently of the other two. *)
Lemma readable_set_bits sig :
  contains (Z.lor sig Signal.READABLE) Signal.READABLE = true ∧
  contains (Z.lor sig Signal.READABLE) Signal.WRITABLE = contains sig Signal.WRITABLE ∧
  contains (Z.lor sig Signal.READABLE) Signal.PEER_CLOSED = contains sig Signal.PEER_CLOSED.
Proof. by split_and!; sigbits. Qed.

Lemma readable_clear_bits sig :
  contains (Z.ldiff sig Signal.READABLE) Signal.READABLE = false ∧
  contains (Z.ldiff sig Signal.READABLE) Signal.WRITABLE = contains sig Signal.WRITABLE ∧
  contains (Z.ldiff sig Signal.READABLE) Signal.PEER_CLOSED = contains sig Signal.PEER_CLOSED.
Proof. by split_and!; sigbits. Qed.

(** Changing the queue of one endpoint and its [READABLE] bit accordingly. *)
Lemma requeue_wf n s st st' c c' q sig :
  chan_wf n st → get s (ends st) = Some c → get s (ends st') = Some c' →
  requeued c c' q sig →
  get (other s) (ends st') = get (other s) (ends st) →
  oneshots st' = oneshots st → next_oneshot st' = next_oneshot st →
  contains sig Signal.READABLE = negb (is_empty q) →
  contains sig Signal.WRITABLE = contains (signal (base c)) Signal.WRITABLE →
  contains sig Signal.PEER_CLOSED = contains (signal (base c)) Signal.PEER_CLOSED →
  chan_wf n st'.
Proof.
  intros Hwf Hc Hc' (Hq & Hsig & Hcr & Hnt) Ho Hos Hno Hr Hw Hp.
  assert (∀ s', peer_closed s' st' = peer_closed s' st) as Hpc.
  { intros s'. apply peer_closed_live.
    destruct (side_cases s (other s')) as [-> | ->]; [by rewrite Hc, Hc'|by rewrite Ho]. }
  assert (∀ s' e', get s' (ends st') = Some e' → ∃ e, get s' (ends st) = Some e ∧
    call_reply e' = call_reply e ∧ next_txid e' = next_txid e ∧
    (e' = e ∨ s' = s ∧ e' = c' ∧ e = c)) as Hlook.
  { intros s' e' He'. destruct (side_cases s s') as [-> | ->].
    - simplify_eq. exists c. naive_solver.
    - rewrite Ho in He'. exists e'. naive_solver. }
  split.
  - intros s' e' (e & He & _ & _ & [->|(-> & -> & ->)])%Hlook; [by eapply (wf_readable n st)|].
    by rewrite Hsig, Hq.
  - intros s' e' (e & He & _ & _ & [->|(-> & -> & ->)])%Hlook; rewrite Hpc; [by eapply (wf_writable n st)|].
    rewrite Hsig, Hw. by eapply (wf_writable n st).
  - intros s' e' (e & He & _ & _ & [->|(-> & -> & ->)])%Hlook; rewrite Hpc; [by eapply (wf_peer_closed n st)|].
    rewrite Hsig, Hp. by eapply (wf_peer_closed n st).
  - intros s' e' (e & He & _ & -> & _)%Hlook. by eapply (wf_next n st).
  - intros s' e' t i (e & He & -> & -> & _)%Hlook. rewrite Hos, Hpc. by eapply (wf_txids n st).
  - intros s1 e1 t1 s2 e2 t2 i (d1 & H1 & -> & _)%Hlook (d2 & H2 & -> & _)%Hlook. by eapply (wf_inj n st).
  - intros i. rewrite Hos, Hno. by apply (wf_fresh n st).
  - intros i. rewrite Hos. intros (s' & e & t & He & Ht)%(wf_pending n st Hwf).
    destruct (side_cases s s') as [-> | ->].
    + exists s, c', t. split; [done|]. rewrite Hcr. naive_solver.
    + exists (other s), e, t. by rewrite Ho.
Qed.

Lemma push_general_wf n s m st c :
  chan_wf n st → get s (ends st) = Some c → chan_wf n (push_general s m st).
Proof.
  intros Hwf Hc. destruct (push_general_spec s m st c Hc) as ((c' & Hc' & Hr) & Ho & Hs & Hn).
  pose proof (readable_set_bits (signal (base c))) as (B1 & B2 & B3).
  eapply requeue_wf; [done..| | |]; rewrite is_empty_zlen;
    destruct (Z.eqb_spec (zlen (recv_queue c)) 0) as [E|E]; try done.
  - rewrite B1, is_empty_zlen, zlen_app. destruct (Z.eqb_spec (zlen (recv_queue c) + zlen [m]) 0); [|done].
    pose proof (zlen_nonneg (recv_queue c)). change (zlen [m]) with 1 in *. lia.
  - rewrite (wf_readable n st Hwf s c Hc), !is_empty_zlen, zlen_app. change (zlen [m]) with 1.
    pose proof (zlen_nonneg (recv_queue c)).
    destruct (Z.eqb_spec (zlen (recv_queue c)) 0), (Z.eqb_spec (zlen (recv_queue c) + 1) 0); lia.
Qed.

Lemma check_and_read_wf n s f st c :
  chan_wf n st → get s (ends st) = Some c → chan_wf n (snd (check_and_read s f st)).
Proof.
  intros Hwf Hc. pose proof (check_and_read_spec s f st c Hc) as Hs.
  destruct (check_and_read s f st) as [r st']. simpl.
  destruct (recv_queue c) as [|m q] eqn:Eq; [by destruct Hs as [_ ->]|].
  destruct (f m); [|by destruct Hs as [_ ->]..].
  destruct Hs as (-> & (c' & Hc' & Hr) & Ho & Hs & Hn).
  pose proof (readable_clear_bits (signal (base c))) as (B1 & B2 & B3).
  eapply requeue_wf; [done..| | |]; destruct (is_empty q) eqn:E; try done.
  by rewrite (wf_readable n st Hwf s c Hc), Eq.
Qed.

(** Changing the outstanding calls of one endpoint leaves the signal part alone. *)
Lemma reply_change_signals n s st st' c c' :
  chan_wf n st → get s (ends st) = Some c →
  base c' = base c → recv_queue c' = recv_queue c →
  ends st' = put s (Some c') (ends st) →
  (∀ s' e, get s' (ends st') = Some e →
     contains (signal (base e)) Signal.READABLE = negb (is_empty (recv_queue e)) ∧
     contains (signal (base e)) Signal.WRITABLE = negb (peer_closed s' st') ∧
     contains (signal (base e)) Signal.PEER_CLOSED = peer_closed s' st') ∧
  (∀ s', peer_closed s' st' = peer_closed s' st).
Proof.
  intros Hwf Hc Hb Hq He.
  assert (∀ s', peer_closed s' st' = peer_closed s' st) as Hpc.
  { intros s'. apply peer_closed_live. rewrite He, get_put.
    destruct (decide (s = other s')) as [<-|]; [by rewrite Hc|done]. }
  split; [|done]. intros s' e. rewrite He, get_put, Hpc.
  destruct (decide (s = s')) as [<-|].
  - intros [= <-]. rewrite Hb, Hq. split_and!;
      [by eapply (wf_readable n st)|by eapply (wf_writable n st)|by eapply (wf_peer_closed n st)].
  - intros He'. split_and!;
      [by eapply (wf_readable n st)|by eapply (wf_writable n st)|by eapply (wf_peer_closed n st)].
Qed.

(** A reply removes the entry it answers and settles its oneshot. *)
Lemma reply_wf n s st c t i r w :
  chan_wf n st → get s (ends st) = Some c → call_reply c !! t = Some i →
  chan_wf n (send i r (with_ends (put s (Some (with_replies (delete t (call_reply c)) c)) (ends st)) w st)).
Proof.
  intros Hwf Hc Ht. set (c' := with_replies _ c). set (st1 := with_ends _ w st).
  destruct (send_ends i r st1) as (He & _ & Hn).
  destruct (reply_change_signals n s st (send i r st1) c c' Hwf Hc eq_refl eq_refl He) as [Hsig Hpc].
  assert (∀ s' e' t' j, get s' (ends (send i r st1)) = Some e' → call_reply e' !! t' = Some j →
    ∃ e, get s' (ends st) = Some e ∧ call_reply e !! t' = Some j ∧ next_txid e' = next_txid e ∧ j ≠ i) as Hlook.
  { intros s' e' t' j. rewrite He. simpl. rewrite get_put. destruct (decide (s = s')) as [<-|Hne].
    - intros [= <-]. simpl. rewrite lookup_delete_Some. intros [Hne Hj]. exists c. split_and!; [done..|].
      intros ->. by destruct (wf_inj n st Hwf s c t s c t' i).
    - intros He' Hj. exists e'. split_and!; [done..|]. intros ->. by destruct (wf_inj n st Hwf s c t s' e' t' i). }
  split; try (intros; by eapply Hsig).
  - intros s' e. rewrite He. simpl. rewrite get_put. destruct (decide (s = s')) as [<-|].
    + intros [= <-]. apply (wf_next n st Hwf s c Hc).
    + by eapply (wf_next n st).
  - intros s' e' t' j He' Hj. destruct (Hlook _ _ _ _ He' Hj) as (e & Hg & Hl & -> & Hne).
    rewrite Hpc, send_lookup, bool_decide_false by done. simpl.
    destruct (wf_txids n st Hwf s' e t' j Hg Hl) as (? & -> & ?). done.
  - intros s1 e1 t1 s2 e2 t2 j H1 H2 L1 L2.
    destruct (Hlook _ _ _ _ H1 L1) as (d1 & ? & ? & _). destruct (Hlook _ _ _ _ H2 L2) as (d2 & ? & ? & _).
    by eapply (wf_inj n st).
  - intros j. rewrite Hn, send_lookup. simpl. intros Hj. apply (wf_fresh n st Hwf).
    by destruct (oneshots st !! j) as [[]|].
  - intros j. rewrite send_lookup. simpl. intros Hj.
    destruct (oneshots st !! j) as [[]|] eqn:Ej; try done. simpl in Hj.
    case_bool_decide as Hji; [done|].
    destruct (wf_pending n st Hwf j Ej) as (s' & e & t' & Hg & Hl).
    rewrite He. simpl. destruct (decide (s = s')) as [<-|Hne].
    + exists s, c', t'. rewrite get_put_same. split; [done|]. simpl. simplify_eq.
      rewrite lookup_delete_ne; [done|]. naive_solver.
    + exists s', e, t'. rewrite get_put, decide_False by done. done.
Qed.

(** Registering a call: a fresh transaction id and a fresh oneshot. *)
Lemma chan_register_wf n s st c c' p' :
  chan_wf n st → n < 0x7fffffff → get s (ends st) = Some c → peer_closed s st = false →
  c' = mkChannel (base c) (recv_queue c) (<[next_txid c := next_oneshot st]> (call_reply c))
                 (next_txid c + 1) →
  p' = put s (Some c') (ends st) →
  chan_wf (n + 1)
    (mkChannels p' (world st) (<[next_oneshot st := Waiting]> (oneshots st)) (S (next_oneshot st))).
Proof.
  intros Hwf Hn Hc Hpeer Ec' ->. set (st' := mkChannels _ _ _ _).
  destruct (reply_change_signals n s st st' c c' Hwf Hc ltac:(by rewrite Ec') ltac:(by rewrite Ec') eq_refl) as [Hsig Hpc].
  assert (oneshots st !! next_oneshot st = None) as Hfresh.
  { destruct (oneshots st !! next_oneshot st) eqn:E; [|done].
    pose proof (wf_fresh n st Hwf (next_oneshot st) ltac:(by eexists)). lia. }
  pose proof (wf_next n st Hwf s c Hc) as Hnext.
  assert (∀ s' e' t j, get s' (ends st') = Some e' → call_reply e' !! t = Some j →
    (s' = s ∧ t = next_txid c ∧ j = next_oneshot st ∧ e' = c') ∨
    (j ≠ next_oneshot st ∧ ∃ e, get s' (ends st) = Some e ∧ call_reply e !! t = Some j ∧
       next_txid e ≤ next_txid e')) as Hlook.
  { intros s' e' t j. unfold st'. simpl. rewrite get_put.
    assert (∀ e t, get s' (ends st) = Some e → call_reply e !! t = Some j → j ≠ next_oneshot st) as Hj.
    { intros e u Hg Hl ->. destruct (wf_txids n st Hwf _ _ _ _ Hg Hl) as (_ & ? & _). congruence. }
    destruct (decide (s = s')) as [<-|Hne].
    - intros [= <-]. rewrite Ec'. simpl. rewrite lookup_insert_Some. intros [[<- <-]|[? ?]]; [by left|].
      right. split; [by eapply Hj|]. exists c. split_and!; [done..|lia].
    - intros Hg Hl. right. split; [by eapply Hj|]. exists e'. split_and!; [done..|lia]. }
  split; try (intros; by eapply Hsig).
  - intros s' e. unfold st'. simpl. rewrite get_put. destruct (decide (s = s')) as [<-|].
    + intros [= <-]. rewrite Ec'. simpl. lia.
    + intros Hg%(wf_next n st Hwf). lia.
  - intros s' e' t j Hg Hl. rewrite Hpc. destruct (Hlook _ _ _ _ Hg Hl) as [(-> & -> & -> & ->)|(Hne & e & Hg' & Hl' & ?)].
    + rewrite Ec'. simpl. rewrite lookup_insert_eq. split_and!; [lia|lia|done..].
    + simpl. rewrite lookup_insert_ne by done. destruct (wf_txids n st Hwf s' e t j Hg' Hl') as (? & ? & ?).
      split_and!; [lia|lia|done..].
  - intros s1 e1 t1 s2 e2 t2 j H1 H2 L1 L2.
    destruct (Hlook _ _ _ _ H1 L1) as [(-> & -> & -> & ->)|(? & d1 & ? & ? & _)];
      destruct (Hlook _ _ _ _ H2 L2) as [(-> & -> & ? & ->)|(? & d2 & ? & ? & _)]; try done.
    by eapply (wf_inj n st).
  - intros j. simpl. rewrite lookup_insert_is_Some. intros [<-|[_ Hj%(wf_fresh n st Hwf)]]; lia.
  - intros j. simpl. rewrite lookup_insert_Some. intros [[<- _]|[Hne Hj]].
    + exists s, c', (next_txid c). rewrite get_put_same. split; [done|]. rewrite Ec'. simpl. apply lookup_insert_eq.
    + destruct (wf_pending n st Hwf j Hj) as (s' & e & t & Hg & Hl). destruct (decide (s = s')) as [<-|].
      * exists s, c', t. rewrite get_put_same. split; [done|]. rewrite Ec'. simpl. simplify_eq.
        rewrite lookup_insert_ne; [done|]. destruct (wf_txids n st Hwf _ _ _ _ Hc Hl). lia.
      * exists s', e, t. by rewrite get_put, decide_False by done.
Qed.

Lemma peer_closed_bits sig :
  let sig' := changed sig Signal.WRITABLE Signal.PEER_CLOSED in
  contains sig' Signal.READABLE = contains sig Signal.READABLE ∧
  contains sig' Signal.WRITABLE = false ∧ contains sig' Signal.PEER_CLOSED = true.
Proof. unfold changed. by split_and!; sigbits. Qed.

Lemma settled_waiting o a v :
  v ≠ Waiting → settled o a v = Some Waiting ↔ o = Some Waiting ∧ a = false.
Proof. destruct o as [[]|], a; naive_solver. Qed.

(** Once an endpoint is gone no call is outstanding on either side. *)
Lemma drop_end_no_waiting n s st me i :
  chan_wf n st → get s (ends st) = Some me → oneshots (drop_end s st) !! i ≠ Some Waiting.
Proof.
  intros Hwf Hme Hi. destruct (drop_end_effect s st me Hme) as (_ & Hp & _).
  assert (oneshots st !! i = Some Waiting ∧ i ∉ senders me ∧
    ∀ peer, get (other s) (ends st) = Some peer → i ∉ senders peer) as (Hw & Hm & Hpe).
  { destruct (get (other s) (ends st)) as [peer|].
    - destruct Hp as (peer' & _ & _ & _ & _ & _ & Hl). rewrite Hl in Hi.
      apply settled_waiting in Hi as [[Hi H1]%settled_waiting H2]; [|done..].
      apply bool_decide_eq_false in H1, H2. naive_solver.
    - destruct Hp as [_ Hl]. rewrite Hl in Hi. apply settled_waiting in Hi as [Hi H2]; [|done].
      apply bool_decide_eq_false in H2. naive_solver. }
  destruct (wf_pending n st Hwf i Hw) as (s' & e & t & Hg & Ht).
  destruct (side_cases s s') as [-> | ->].
  - simplify_eq. apply Hm, elem_of_senders. by eexists.
  - by apply (Hpe e), elem_of_senders; [|eexists].
Qed.

Lemma chan_drop_end_wf n s st : chan_wf n st → chan_wf n (drop_end s st).
Proof.
  intros Hwf. destruct (get s (ends st)) as [me|] eqn:Hme; [|by unfold drop_end; rewrite Hme].
  pose proof (drop_end_no_waiting n s st me) as Hnw.
  destruct (drop_end_effect s st me Hme) as (Hs & Hp & Hn).
  assert (∀ i, is_Some (oneshots (drop_end s st) !! i) → is_Some (oneshots st !! i)) as Hdom.
  { intros i. destruct (get (other s) (ends st)).
    - destruct Hp as (? & _ & _ & _ & _ & _ & ->). destruct (oneshots st !! i) as [[]|]; [done..|].
      by intros [].
    - destruct Hp as [_ ->]. destruct (oneshots st !! i) as [[]|]; [done..|]. by intros []. }
  assert (∀ s' e', get s' (ends (drop_end s st)) = Some e' → s' = other s ∧ call_reply e' = ∅ ∧
    peer_closed s' (drop_end s st) = true ∧ ∃ e, get (other s) (ends st) = Some e ∧
    recv_queue e' = recv_queue e ∧ next_txid e' = next_txid e ∧
    signal (base e') = changed (signal (base e)) Signal.WRITABLE Signal.PEER_CLOSED) as Hlook.
  { intros s' e' He'. destruct (side_cases s s') as [-> | ->]; [congruence|].
    destruct (get (other s) (ends st)) as [peer|]; [|by destruct Hp as [? _]; congruence].
    destruct Hp as (peer' & ? & ? & Hcr & ? & ? & _). simplify_eq. split_and!; [done..| |].
    - unfold peer_closed. by rewrite other_involutive, Hs.
    - by exists peer. }
  split.
  - intros s' e' (-> & _ & _ & e & He & -> & _ & ->)%Hlook.
    destruct (peer_closed_bits (signal (base e))) as (-> & _). by eapply (wf_readable n st).
  - intros s' e' (-> & _ & -> & e & He & _ & _ & ->)%Hlook.
    by destruct (peer_closed_bits (signal (base e))) as (_ & -> & _).
  - intros s' e' (-> & _ & -> & e & He & _ & _ & ->)%Hlook.
    by destruct (peer_closed_bits (signal (base e))) as (_ & _ & ->).
  - intros s' e' (-> & _ & _ & e & He & _ & -> & _)%Hlook. by eapply (wf_next n st).
  - intros s' e' t i (_ & -> & _)%Hlook. by rewrite lookup_empty.
  - intros s1 e1 t1 s2 e2 t2 i (_ & -> & _)%Hlook _. by rewrite lookup_empty.
  - intros i Hi%Hdom%(wf_fresh n st Hwf). by rewrite Hn.
  - intros i Hi. by destruct (Hnw i).
Qed.

Lemma chan_create_wf id0 id1 w : chan_wf 0 (create id0 id1 w).
Proof.
  split; simpl; try (intros []; intros ? [= <-]; simpl; try done; lia).
  - intros [] ? t i [= <-]; simpl; by rewrite lookup_empty.
  - intros [] ? t [] ? t' i [= <-] [= <-]; simpl; by rewrite lookup_empty.
  - intros i. rewrite lookup_empty. by intros [].
  - intros i. by rewrite lookup_empty.
Qed.

Lemma chan_wf_mono n n' st : chan_wf n st → n ≤ n' → chan_wf n' st.
Proof.
  intros [] ?. split; try done. intros s c Hc. specialize (wf_next0 s c Hc). lia.
Qed.

(** [call] on a well-formed pair: the transaction id is new, so no sender is dropped. *)
Lemma call_effect n s m st c peer :
  chan_wf n st → n < 0x7fffffff → get s (ends st) = Some c → get (other s) (ends st) = Some peer →
  4 ≤ zlen (data m) →
  ∃ st1, call s m st = (Ok (next_oneshot st), push_general (other s) (set_txid (next_txid c) m) st1) ∧
    chan_wf (n + 1) st1 ∧ get (other s) (ends st1) = Some peer ∧
    ∃ c1, get s (ends st1) = Some c1 ∧ recv_queue c1 = recv_queue c ∧
      call_reply c1 !! next_txid c = Some (next_oneshot st).
Proof.
  intros Hwf Hn Hc Hp Hm. pose proof (wf_next n st Hwf s c Hc) as Hnext.
  assert (call_reply c !! next_txid c = None) as Hnone.
  { destruct (call_reply c !! next_txid c) eqn:E; [|done].
    destruct (wf_txids n st Hwf s c _ _ Hc E). lia. }
  unfold call, new_txid. destruct (Z.ltb_spec (zlen (data m)) 4); [lia|].
  rewrite Hc, Hp. simpl. rewrite Hnone, wadd_small by (unfold fits; lia).
  eexists. split; [done|]. split_and!.
  - eapply (chan_register_wf n s st c); [done|lia|done| |reflexivity|reflexivity]. unfold peer_closed. by rewrite Hp.
  - simpl. by rewrite get_put_other.
  - simpl. rewrite get_put_same. eexists. split_and!; [done..|]. simpl. apply lookup_insert_eq.
Qed.

Lemma call_short s m st : zlen (data m) < 4 → call s m st = (Panic, st).
Proof. intros. unfold call. by destruct (Z.ltb_spec (zlen (data m)) 4); [|lia]. Qed.

Lemma chan_write_wf n s m st : chan_wf n st → chan_wf n (snd (write s m st)).
Proof.
  intros Hwf. unfold write. destruct (get (other s) (ends st)) as [peer|] eqn:Hp; [|done].
  destruct (answers m peer) as [i|] eqn:Ha; simpl; [|by eapply push_general_wf].
  apply reply_wf; [done..|]. unfold answers in Ha. by destruct (negb _).
Qed.

Lemma chan_run_wf n st evs op :
  chan_wf n st → n < 0x7fffffff → chan_wf (n + 1) (fst (chan_run (st, evs) op)).
Proof.
  intros Hwf Hn.
  assert (∀ st', chan_wf n st' → chan_wf (n + 1) st') as Hm by (intros; eapply chan_wf_mono; [done|lia]).
  destruct op as [s|s m|s m|s]; simpl.
  - destruct (get s (ends st)) as [c|] eqn:Hc; [|by apply Hm]. unfold read.
    pose proof (check_and_read_wf n s (λ _, Ok tt) st c Hwf Hc).
    destruct (check_and_read _ _ _) as [r st']. by apply Hm.
  - destruct (get s (ends st)), (get (other s) (ends st)); try by apply Hm. by apply Hm, chan_write_wf.
  - destruct (get s (ends st)) as [c|] eqn:Hc; [|by apply Hm].
    destruct (get (other s) (ends st)) as [peer|] eqn:Hp; cycle 1.
    { unfold call. rewrite Hc, Hp. destruct (zlen (data m) <? 4); by apply Hm. }
    destruct (Z.ltb_spec (zlen (data m)) 4); [rewrite call_short by done; by apply Hm|].
    destruct (call_effect n s m st c peer) as (st1 & -> & Hwf1 & Hp1 & _); [done..|].
    simpl. by eapply push_general_wf.
  - by apply Hm, chan_drop_end_wf.
Qed.

(** The pair after a history that starts with [Channel::create]. *)
Definition chan_history (id0 id1 : Z) (w : W) (ops : list chan_op) : channels * list chan_event :=
  foldl chan_run (create id0 id1 w, []) ops.

Lemma chan_history_wf id0 id1 w ops :
  zlen ops < 0x80000000 → chan_wf (zlen ops) (fst (chan_history id0 id1 w ops)).
Proof.
  induction ops as [|op ops IH] using rev_ind; intros Hl; [apply chan_create_wf|].
  rewrite zlen_app in *. change (zlen [op]) with 1 in *. unfold chan_history in *.
  rewrite foldl_app. simpl. destruct (foldl chan_run _ ops) as [st evs].
  apply chan_run_wf; [apply IH|]; lia.
Qed.

(** *** Queues *)

Definition queue_at (s : side) (st : channels) : option (list (MessagePacket H)) :=
  recv_queue <$> get s (ends st).

Lemma push_general_queue s m st c s' :
  get s (ends st) = Some c →
  queue_at s' (push_general s m st) =
  if decide (s = s') then Some (recv_queue c ++ [m]) else queue_at s' st.
Proof.
  intros Hc. destruct (push_general_spec s m st c Hc) as ((c' & Hc' & Hq & _) & Ho & _).
  unfold queue_at. destruct (side_cases s s') as [-> | ->].
  - by rewrite decide_True, Hc', <-Hq by done.
  - rewrite decide_False by (by destruct s). by rewrite Ho.
Qed.

Lemma read_queue s st c s' :
  get s (ends st) = Some c →
  let '(r, st') := read s st in
  queue_at s' st' = match r with
                    | Ok m => if decide (s = s') then Some (tail (recv_queue c)) else queue_at s' st
                    | _ => queue_at s' st
                    end ∧
  (∀ m, r = Ok m → recv_queue c = m :: tail (recv_queue c)).
Proof.
  intros Hc. pose proof (check_and_read_spec s (λ _, Ok tt) st c Hc) as Hs.
  unfold read. destruct (check_and_read _ _ _) as [r st']. simpl in Hs.
  destruct (recv_queue c) as [|m q]; [by destruct Hs as [-> ->]|].
  destruct Hs as (-> & (c' & Hc' & Hq & _) & Ho & _). split; [|naive_solver].
  unfold queue_at. destruct (side_cases s s') as [-> | ->].
  - by rewrite decide_True, Hc' by done; simpl; rewrite Hq.
  - rewrite decide_False by (by destruct s). by rewrite Ho.
Qed.

Lemma write_queue s m st peer s' :
  get (other s) (ends st) = Some peer →
  queue_at s' (snd (write s m st)) =
  match answers m peer with
  | Some _ => queue_at s' st
  | None => if decide (other s = s') then Some (recv_queue peer ++ [m]) else queue_at s' st
  end.
Proof.
  intros Hp. unfold write. rewrite Hp. destruct (answers m peer) as [i|]; simpl.
  - unfold queue_at. destruct (send_ends i (Ok m) (with_ends (put (other s) (Some (with_replies
      (delete (get_txid m) (call_reply peer)) peer)) (ends st)) (world st) st)) as [-> _]. simpl.
    rewrite get_put. destruct (decide (other s = s')) as [<-|]; [by rewrite Hp|done].
  - by apply push_general_queue.
Qed.

Lemma call_queue s m st i st' c s' :
  call s m st = (Ok i, st') → get s (ends st) = Some c →
  ∃ peer, get (other s) (ends st) = Some peer ∧
  queue_at s' st' = if decide (other s = s') then Some (recv_queue peer ++ [set_txid (next_txid c) m])
                    else queue_at s' st.
Proof.
  intros Hcall Hc. unfold call in Hcall. rewrite Hc in Hcall.
  destruct (zlen (data m) <? 4); [done|].
  destruct (get (other s) (ends st)) as [peer|] eqn:Hp; [|done]. exists peer. split; [done|].
  simpl in Hcall. injection Hcall as _ <-.
  rewrite (push_general_queue _ _ _ peer) by (simpl; by rewrite get_put_other).
  destruct (decide (other s = s')) as [|Hne]; [done|]. unfold queue_at. simpl. rewrite get_put.
  destruct (decide (s = s')) as [<-|]; [by rewrite Hc|done].
Qed.

Lemma drop_end_queue s st s' q : queue_at s' (drop_end s st) = Some q → queue_at s' st = Some q.
Proof.
  destruct (get s (ends st)) as [me|] eqn:Hme; [|by unfold drop_end; rewrite Hme].
  destruct (drop_end_effect s st me Hme) as (Hs & Hp & _). unfold queue_at.
  destruct (side_cases s s') as [-> | ->]; [by rewrite Hs|].
  destruct (get (other s) (ends st)) as [peer|].
  - destruct Hp as (peer' & -> & Hq & _). simpl. by rewrite Hq.
  - by destruct Hp as [-> _].
Qed.

Lemma chan_pushed_snoc s evs e : pushed s (evs ++ [e]) = pushed s evs ++ pushed s [e].
Proof. apply omap_app. Qed.
Lemma chan_taken_snoc s evs e : taken s (evs ++ [e]) = taken s evs ++ taken s [e].
Proof. apply omap_app. Qed.

Definition fifo_inv (acc : channels * list chan_event) : Prop :=
  ∀ s q, queue_at s (fst acc) = Some q → pushed s (snd acc) = taken s (snd acc) ++ q.

Lemma chan_fifo_step acc op : fifo_inv acc → fifo_inv (chan_run acc op).
Proof.
  destruct acc as [st evs]. intros Hinv s' q. specialize (Hinv s').
  destruct op as [s|s m|s m|s]; simpl in *.
  - destruct (get s (ends st)) as [c|] eqn:Hc; [|by apply Hinv].
    pose proof (read_queue s st c s' Hc) as Hr. destruct (read s st) as [r st']. simpl.
    destruct Hr as [-> Hr]. destruct r as [m| |]; [|by apply Hinv..].
    specialize (Hr m eq_refl). rewrite chan_pushed_snoc, chan_taken_snoc. simpl. rewrite app_nil_r.
    destruct (decide (s = s')) as [<-|Hne].
    + intros [= <-]. rewrite (Hinv (recv_queue c)) by (unfold queue_at; by rewrite Hc).
      rewrite decide_True by done. rewrite Hr at 1. by rewrite <-app_assoc.
    + rewrite decide_False by done. rewrite app_nil_r. apply Hinv.
  - destruct (get s (ends st)) as [c|], (get (other s) (ends st)) as [peer|] eqn:Hp; try by apply Hinv.
    simpl. rewrite (write_queue s m st peer s' Hp), chan_pushed_snoc, chan_taken_snoc.
    destruct (answers m peer); simpl; rewrite ?app_nil_r; [apply Hinv|].
    destruct (decide (other s = s')) as [<-|Hne]; simpl.
    + intros [= <-]. rewrite decide_True, app_assoc by done. f_equal. apply Hinv.
      unfold queue_at. by rewrite Hp.
    + rewrite decide_False, app_nil_r by done. apply Hinv.
  - destruct (get s (ends st)) as [c|] eqn:Hc; [|by apply Hinv].
    destruct (call s m st) as [[i| |] st'] eqn:Hcall; try by apply Hinv. simpl.
    destruct (call_queue s m st i st' c s' Hcall Hc) as (peer & Hp & ->).
    rewrite chan_pushed_snoc, chan_taken_snoc. simpl. rewrite ?app_nil_r.
    destruct (decide (other s = s')) as [<-|Hne]; simpl.
    + intros [= <-]. rewrite decide_True, app_assoc by done. f_equal. apply Hinv.
      unfold queue_at. by rewrite Hp.
    + rewrite decide_False, app_nil_r by done. apply Hinv.
  - intros Hq%drop_end_queue. by apply Hinv.
Qed.

Lemma fifo_history id0 id1 w ops : fifo_inv (chan_history id0 id1 w ops).
Proof.
  induction ops as [|op ops IH] using rev_ind.
  - intros [] q; simpl; by intros [= <-].
  - unfold chan_history in *. rewrite foldl_app. by apply chan_fifo_step.
Qed.

(** C1. Channels deliver in order, without loss or duplication: after any history of
    reads, writes, calls and endpoint closures, what was queued at a live endpoint is
    exactly what was read from it followed by its current queue. *)
Theorem channel_fifo id0 id1 w ops s c :
  let '(st, evs) := chan_history id0 id1 w ops in
  get s (ends st) = Some c → pushed s evs = taken s evs ++ recv_queue c.
Proof.
  pose proof (fifo_history id0 id1 w ops) as Hinv.
  destruct (chan_history id0 id1 w ops) as [st evs]. intros Hc. apply Hinv.
  unfold queue_at. simpl. by rewrite Hc.
Qed.

(** After any history of fewer than 2^31 operations, the signals of a live endpoint
    say exactly whether its queue is non-empty ([READABLE]) and whether its peer is alive
    ([WRITABLE], [PEER_CLOSED]), and its transaction ids have not wrapped, so that every
    outstanding call has an id of its own with the top bit set. *)
Theorem channel_signals id0 id1 w ops s c :
  zlen ops < 0x80000000 →
  let st := fst (chan_history id0 id1 w ops) in
  get s (ends st) = Some c →
  contains (signal (base c)) Signal.READABLE = negb (is_empty (recv_queue c)) ∧
  contains (signal (base c)) Signal.WRITABLE = negb (peer_closed s st) ∧
  contains (signal (base c)) Signal.PEER_CLOSED = peer_closed s st ∧
  ∀ t i, call_reply c !! t = Some i → 0x80000000 ≤ t < next_txid c ∧ await_reply i st = None.
Proof.
  intros Hl st Hc. pose proof (chan_history_wf id0 id1 w ops Hl) as Hwf. fold st in Hwf.
  split_and!; [by eapply wf_readable|by eapply wf_writable|by eapply wf_peer_closed|].
  intros t i Ht. destruct (wf_txids _ _ Hwf s c t i Hc Ht) as (? & Hw & _).
  split; [done|]. unfold await_reply. by rewrite Hw.
Qed.

(** *** Calls *)
(** The outstanding calls of an endpoint, if it is there. *)
Definition replies_at (s : side) (st : channels) : option (gmap Z nat) := call_reply <$> get s (ends st).

Lemma push_general_replies s m st s' : replies_at s' (push_general s m st) = replies_at s' st.
Proof.
  destruct (get s (ends st)) as [c|] eqn:Hc; [|unfold push_general; by rewrite Hc].
  destruct (push_general_spec s m st c Hc) as ((c' & Hc' & _ & _ & Hr & _) & Ho & _). unfold replies_at.
  destruct (side_cases s s') as [-> | ->]; [by rewrite Hc', Hc; simpl; rewrite Hr|by rewrite Ho].
Qed.
Lemma push_general_oneshots s m st : oneshots (push_general s m st) = oneshots st.
Proof.
  destruct (get s (ends st)) as [c|] eqn:Hc; [|unfold push_general; by rewrite Hc]. by destruct (push_general_spec s m st c Hc) as (_ & _ & -> & _).
Qed.
Lemma read_replies s st s' : replies_at s' (snd (read s st)) = replies_at s' st ∧ oneshots (snd (read s st)) = oneshots st.
Proof.
  unfold read. destruct (get s (ends st)) as [c|] eqn:Hc; [|unfold check_and_read; by rewrite Hc].
  pose proof (check_and_read_spec s (λ _, Ok tt) st c Hc) as Hr. destruct (check_and_read _ _ _) as [r st']. simpl.
  destruct (recv_queue c) as [|m q]; [by destruct Hr as [_ ->]|]. destruct Hr as (_ & (c' & Hc' & _ & _ & Hr & _) & Ho & Hs & _). split; [|done]. unfold replies_at.
  destruct (side_cases s s') as [-> | ->]; [by rewrite Hc', Hc; simpl; rewrite Hr|by rewrite Ho].
Qed.
Lemma write_replies s m st s' R : replies_at (other s) st = Some R →
  replies_at s' (snd (write s m st)) = (if decide (other s = s') then Some (if get_txid m =? 0 then R else delete (get_txid m) R) else replies_at s' st) ∧
  ∀ j, oneshots (snd (write s m st)) !! j = settled (oneshots st !! j) (bool_decide (get_txid m ≠ 0 ∧ R !! get_txid m = Some j)) (Sent (Ok m)).
Proof.
  unfold replies_at at 1. destruct (get (other s) (ends st)) as [peer|] eqn:Hp; [|done]. intros [= <-]. unfold write, answers. rewrite Hp.
  assert (replies_at (other s) st = Some (call_reply peer)) as Hrp by (unfold replies_at; by rewrite Hp).
  destruct (Z.eqb_spec (get_txid m) 0) as [E|E]; simpl.
  { split; [rewrite push_general_replies; by destruct (decide (other s = s')) as [<-|]|]. intros j. rewrite push_general_oneshots, bool_decide_false by naive_solver. by destruct (oneshots st !! j) as [[]|]. }
  destruct (call_reply peer !! get_txid m) as [k|] eqn:Ek; simpl.
  - split.
    + unfold replies_at. destruct (send_ends k (Ok m) (with_ends (put (other s) (Some (with_replies (delete (get_txid m) (call_reply peer)) peer)) (ends st)) (world st) st)) as [-> _]. simpl. rewrite get_put.
      by destruct (decide (other s = s')).
    + intros j. rewrite send_lookup. simpl. f_equal. apply bool_decide_ext. naive_solver.
  - split; [rewrite push_general_replies; destruct (decide (other s = s')) as [<-|]; [by rewrite delete_id|done]|]. intros j. rewrite push_general_oneshots, bool_decide_false by naive_solver. by destruct (oneshots st !! j) as [[]|].
Qed.
Lemma call_replies n s m st R R' s' : chan_wf n st → n < 0x7fffffff → 4 ≤ zlen (data m) → replies_at s st = Some R → replies_at (other s) st = Some R' →
  ∃ c, get s (ends st) = Some c ∧ fst (call s m st) = Ok (next_oneshot st) ∧
  replies_at s' (snd (call s m st)) = (if decide (s = s') then Some (<[next_txid c := next_oneshot st]> R) else replies_at s' st) ∧
  oneshots (snd (call s m st)) = <[next_oneshot st := Waiting]> (oneshots st) ∧ R !! next_txid c = None.
Proof.
  unfold replies_at at 1 2. intros Hwf Hn Hm. destruct (get s (ends st)) as [c|] eqn:Hc; [|done]. destruct (get (other s) (ends st)) as [peer|] eqn:Hp; [|done]. intros [= <-] _. exists c. split; [done|].
  assert (call_reply c !! next_txid c = None) as Hnone.
  { destruct (call_reply c !! next_txid c) eqn:E; [|done]. destruct (wf_txids n st Hwf s c _ _ Hc E). lia. }
  unfold call, new_txid. destruct (Z.ltb_spec (zlen (data m)) 4); [lia|]. rewrite Hc, Hp. simpl. rewrite Hnone. split_and!; [done| |by rewrite push_general_oneshots|done].
  rewrite push_general_replies. unfold replies_at. simpl. rewrite get_put. by destruct (decide (s = s')).
Qed.

(** How a call with transaction id [t] of endpoint [s] ends: with the first message with this id from the
    other endpoint, or when an endpoint is dropped, whatever comes first. *)
Fixpoint outcome (s : side) (t : Z) (ops : list chan_op) : option (ZxResult (MessagePacket H)) :=
  match ops with
  | [] => None
  | OWrite s' r :: ops => if decide (s' = other s ∧ get_txid r = t) then Some (Ok r) else outcome s t ops
  | ODrop s' :: ops => if decide (s' = other s) then Some (Err ZxError.PEER_CLOSED) else Some Panic
  | _ :: ops => outcome s t ops
  end.

Definition outstanding (s : side) (t : Z) (i : nat) (st : channels) : Prop :=
  (∃ R, replies_at s st = Some R ∧ R !! t = Some i) ∧ is_Some (replies_at (other s) st) ∧ oneshots st !! i = Some Waiting.
Definition finished (i : nat) (r : ZxResult (MessagePacket H)) (st : channels) : Prop :=
  oneshots st !! i = Some (Sent r) ∨ r = Panic ∧ oneshots st !! i = Some Canceled.

Lemma outstanding_pos n s t i st : chan_wf n st → outstanding s t i st → 0x80000000 ≤ t.
Proof.
  intros Hwf ((R & HR & Ht) & _). unfold replies_at in HR. destruct (get s (ends st)) as [c|] eqn:Hc; [|done]. injection HR as <-. by destruct (wf_txids _ _ Hwf s c t i Hc Ht) as ([? _] & _).
Qed.

(** A settled oneshot stays as it is. *)
Lemma settled_done o b v x : o = Some x → x ≠ Waiting → settled o b v = Some x.
Proof. intros -> Hx. by destruct x. Qed.
Lemma finished_step n st evs op i r : chan_wf n st → n < 0x7fffffff → finished i r st → finished i r (fst (chan_run (st, evs) op)).
Proof.
  intros Hwf Hn Hf.
  assert (∀ st', (∀ x, oneshots st !! i = Some x → x ≠ Waiting → oneshots st' !! i = Some x) → finished i r st') as Hk.
  { intros st' Hx. destruct Hf as [E|[-> E]]; [left|right]; auto. }
  destruct op as [s|s m|s m|s]; cbn [chan_run].
  - destruct (get s (ends st)) as [c|]; [|done]. destruct (read_replies s st s) as [_ Hr]. destruct (read s st) as [o st']. simpl in *. apply Hk. intros x Hx _. by rewrite Hr.
  - destruct (get s (ends st)) as [c|], (get (other s) (ends st)) as [peer|] eqn:Hp; try done.
    destruct (write_replies s m st s (call_reply peer)) as [_ Hw]; [unfold replies_at; by rewrite Hp|]. simpl. apply Hk. intros x Hx Hne. rewrite Hw. by apply settled_done.
  - destruct (get s (ends st)) as [c|] eqn:Hc; [|done]. destruct (get (other s) (ends st)) as [peer|] eqn:Hp; cycle 1.
    { unfold call. rewrite Hc, Hp. destruct (zlen (data m) <? 4); done. }
    destruct (Z.ltb_spec (zlen (data m)) 4); [rewrite call_short by done; done|].
    destruct (call_replies n s m st (call_reply c) (call_reply peer) s Hwf Hn) as (_ & _ & Er & _ & Ho & _); [done|unfold replies_at; by rewrite ?Hc, ?Hp..|].
    destruct (call s m st) as [r0 st']. simpl in *. rewrite Er. simpl. apply Hk. intros x Hx _. rewrite Ho.
    rewrite lookup_insert_ne; [done|]. intros <-. pose proof (wf_fresh n st Hwf (next_oneshot st) ltac:(by eexists)). lia.
  - simpl. destruct (get s (ends st)) as [me|] eqn:Hme; [|unfold drop_end; by rewrite Hme]. destruct (drop_end_effect s st me Hme) as (_ & Hd & _). apply Hk. intros x Hx Hne.
    destruct (get (other s) (ends st)) as [peer|].
    + destruct Hd as (? & _ & _ & _ & _ & _ & ->). apply settled_done; [|done]. by apply settled_done.
    + destruct Hd as [_ ->]. by apply settled_done.
Qed.
Lemma outstanding_step n s t i st evs op : chan_wf n st → n < 0x7fffffff → outstanding s t i st →
  match outcome s t [op] with Some r => finished i r (fst (chan_run (st, evs) op)) | None => outstanding s t i (fst (chan_run (st, evs) op)) end.
Proof.
  intros Hwf Hn Hout. pose proof (outstanding_pos n s t i st Hwf Hout) as Hpos. destruct Hout as ((R & HR & Ht) & [R' HR'] & Hi).
  assert (∀ s', is_Some (get s' (ends st))) as Hlive.
  { intros s'. unfold replies_at in *. destruct (side_cases s s') as [-> | ->]; [by destruct (get s (ends st))|by destruct (get (other s) (ends st))]. }
  assert (∀ s' st', replies_at s' st' = replies_at s' st → (∀ s2, s2 = other s' → replies_at s2 st' = replies_at s2 st) → oneshots st' !! i = Some Waiting → outstanding s t i st') as Hsame.
  { intros s' st' H1 H2 H3. assert (∀ s2, replies_at s2 st' = replies_at s2 st) as Hx by (intros s2; destruct (side_cases s' s2) as [-> | ->]; [done|by apply H2]). split_and!; [exists R; by rewrite Hx|rewrite Hx; by exists R'|done]. }
  destruct op as [s'|s' m|s' m|s']; cbn [chan_run outcome].
  - destruct (Hlive s') as [c ->]. pose proof (λ s2, read_replies s' st s2) as Hr. destruct (read s' st) as [o st']. simpl in *.
    apply (Hsame s'); [apply Hr|intros; apply Hr|]. by destruct (Hr s') as [_ ->].
  - destruct (Hlive s') as [c ->], (Hlive (other s')) as [peer Hp]. rewrite Hp. simpl.
    destruct (side_cases s s') as [-> | ->].
    + rewrite decide_False by (intros [E _]; by destruct s). pose proof (λ s2, write_replies s m st s2 R' HR') as Hw. split_and!.
      * exists R. destruct (Hw s) as [-> _]. rewrite decide_False by (by destruct s). done.
      * destruct (Hw (other s)) as [-> _]. rewrite decide_True by done. by eexists.
      * destruct (Hw s) as [_ ->]. rewrite Hi. simpl. rewrite bool_decide_false; [done|]. intros [_ E]. unfold replies_at in HR, HR'.
        destruct (get s (ends st)) as [c1|] eqn:E1; [|done]. destruct (get (other s) (ends st)) as [c2|] eqn:E2; [|done]. injection HR as <-. injection HR' as <-.
        destruct (wf_inj n st Hwf s c1 t (other s) c2 (get_txid m) i E1 E2 Ht E) as [E' _]. by destruct s.
    + assert (replies_at (other (other s)) st = Some R) as HR2 by (by rewrite other_involutive). pose proof (λ s2, write_replies (other s) m st s2 R HR2) as Hw. rewrite other_involutive in Hw.
      destruct (decide (other s = other s ∧ get_txid m = t)) as [[_ Em]|Hne].
      * left. destruct (Hw s) as [_ ->]. rewrite Hi. simpl. rewrite bool_decide_true; [done|]. split; [lia|]. by rewrite Em.
      * split_and!.
        -- destruct (Hw s) as [-> _]. rewrite decide_True by done. eexists. split; [done|]. destruct (get_txid m =? 0); [done|]. rewrite lookup_delete_ne; [done|]. naive_solver.
        -- destruct (Hw (other s)) as [-> _]. rewrite decide_False by (by destruct s). by exists R'.
        -- destruct (Hw s) as [_ ->]. rewrite Hi. simpl. rewrite bool_decide_false; [done|]. intros [_ E]. apply Hne. split; [done|]. unfold replies_at in HR.
           destruct (get s (ends st)) as [c1|] eqn:E1; [|done]. injection HR as <-. by destruct (wf_inj n st Hwf s c1 t s c1 (get_txid m) i E1 E1 Ht E) as [_ ->].
  - destruct (Hlive s') as [c Hc], (Hlive (other s')) as [peer Hp]. rewrite Hc. destruct (Z.ltb_spec (zlen (data m)) 4); [rewrite call_short by done; by split_and!; [exists R|exists R'|]|].
    pose proof (λ s2, call_replies n s' m st (call_reply c) (call_reply peer) s2 Hwf Hn ltac:(done) ltac:(unfold replies_at; by rewrite Hc) ltac:(unfold replies_at; by rewrite Hp)) as Hcall.
    destruct (Hcall s') as (c0 & Hc0 & Er & _ & Ho & Hfresh). destruct (call s' m st) as [r0 st']. simpl in *. rewrite Er, Hc in *. injection Hc0 as <-. simpl. split_and!.
    + destruct (Hcall s) as (c1 & Hc1 & _ & -> & _). injection Hc1 as <-. destruct (decide (s' = s)) as [->|]; [|by exists R]. unfold replies_at in HR. rewrite Hc in HR. injection HR as <-. eexists. split; [done|].
      rewrite lookup_insert_ne; [done|]. intros E. congruence.
    + destruct (Hcall (other s)) as (c1 & _ & _ & -> & _). destruct (decide _); [by eexists|by exists R'].
    + rewrite Ho, lookup_insert_ne; [done|]. intros <-. pose proof (wf_fresh n st Hwf (next_oneshot st) ltac:(by eexists)). lia.
  - simpl. destruct (Hlive s') as [me Hme]. destruct (drop_end_effect s' st me Hme) as (_ & Hd & _).
    destruct (side_cases s s') as [-> | ->].
    + rewrite decide_False by (by destruct s). right. split; [done|]. unfold replies_at in HR. rewrite Hme in HR. injection HR as <-.
      destruct (Hlive (other s)) as [peer Hp]. rewrite Hp in Hd. destruct Hd as (_ & _ & _ & _ & _ & _ & ->). rewrite Hi. simpl. rewrite bool_decide_false.
      2: { intros [t' E]%elem_of_senders. by destruct (wf_inj n st Hwf s me t (other s) peer t' i Hme Hp Ht E) as [E' _]; destruct s. }
      simpl. rewrite bool_decide_true; [done|]. apply elem_of_senders. by exists t.
    + rewrite decide_True by done. left. rewrite other_involutive in Hd. unfold replies_at in HR. destruct (get s (ends st)) as [c1|] eqn:E1; [|done]. injection HR as <-.
      destruct Hd as (_ & _ & _ & _ & _ & _ & ->). rewrite Hi. simpl. rewrite bool_decide_true; [done|]. apply elem_of_senders. by exists t.
Qed.

Lemma outcome_cons s t op ops : outcome s t (op :: ops) = match outcome s t [op] with Some r => Some r | None => outcome s t ops end.
Proof. destruct op; simpl; [done| |done|]; by destruct (decide _). Qed.
Lemma finished_run n st evs ops i r : chan_wf n st → n + zlen ops < 0x80000000 → finished i r st → await_reply i (fst (foldl chan_run (st, evs) ops)) = Some r.
Proof.
  revert n st evs. induction ops as [|op ops IH]; intros n st evs Hwf Hn Hf.
  - simpl. unfold await_reply. by destruct Hf as [->|[-> ->]].
  - rewrite zlen_cons in Hn. pose proof (zlen_nonneg ops). pose proof (finished_step n st evs op i r Hwf ltac:(lia) Hf) as Hf'. pose proof (chan_run_wf n st evs op Hwf ltac:(lia)) as Hwf'.
    cbn [foldl]. destruct (chan_run (st, evs) op) as [st' evs']. apply (IH (n + 1)); [done|lia|done].
Qed.
Lemma outstanding_run n s t i st evs ops : chan_wf n st → n + zlen ops < 0x80000000 → outstanding s t i st →
  await_reply i (fst (foldl chan_run (st, evs) ops)) = outcome s t ops.
Proof.
  revert n st evs. induction ops as [|op ops IH]; intros n st evs Hwf Hn Hout.
  - simpl. unfold await_reply. by destruct Hout as (_ & _ & ->).
  - rewrite zlen_cons in Hn. pose proof (zlen_nonneg ops). rewrite outcome_cons. pose proof (outstanding_step n s t i st evs op Hwf ltac:(lia) Hout) as Hs. pose proof (chan_run_wf n st evs op Hwf ltac:(lia)) as Hwf'.
    cbn [foldl]. destruct (chan_run (st, evs) op) as [st' evs']. cbn [fst] in Hs, Hwf'. destruct (outcome s t [op]) as [r|]; [apply (finished_run (n + 1)); [done|lia|done]|apply (IH (n + 1)); [done|lia|done]].
Qed.

(** C17. Calls over a channel, as long as fewer than 2^31 operations are made: a call on an endpoint whose
    peer is there queues at the peer the message of the caller with a new transaction id in its first four bytes.
    Whatever is done with the two endpoints afterwards, the call is pending until the other endpoint
    writes a message with exactly this id, with which it then completes, or is dropped, which
    makes it fail with [PEER_CLOSED] (or its own endpoint is dropped, after which awaiting the reply would panic); nothing else completes it, and
    nothing changes its result. *)
Theorem channel_call_completion id0 id1 w ops s m q q' ops2 :
  zlen (ops ++ ops2) < 0x7fffffff → 4 ≤ zlen (data m) →
  let '(st, evs) := chan_history id0 id1 w ops in
  queue_at s st = Some q → queue_at (other s) st = Some q' →
  ∃ i st' m', call s m st = (Ok i, st') ∧ queue_at (other s) st' = Some (q' ++ [m']) ∧ queue_at s st' = Some q ∧
    0x80000000 ≤ get_txid m' ∧ zdrop 4 (data m') = zdrop 4 (data m) ∧ msg_handles m' = msg_handles m ∧
    await_reply i (fst (foldl chan_run (st', evs) ops2)) = outcome s (get_txid m') ops2.
Proof.
  intros Hl Hm. rewrite zlen_app in Hl. pose proof (zlen_nonneg ops2) as Hl2. pose proof (chan_history_wf id0 id1 w ops ltac:(lia)) as Hwf. destruct (chan_history id0 id1 w ops) as [st evs]. simpl in Hwf. intros Hq Hq'.
  unfold queue_at in Hq, Hq'. destruct (get s (ends st)) as [c|] eqn:Hc; [|done]. destruct (get (other s) (ends st)) as [peer|] eqn:Hp; [|done]. injection Hq as <-. injection Hq' as <-.
  pose proof (wf_next _ _ Hwf s c Hc) as Hnext. destruct (call_effect (zlen ops) s m st c peer Hwf ltac:(lia) Hc Hp Hm) as (st1 & Ecall & Hwf1 & Hp1 & c1 & Hc1 & Hq1 & Hr1).
  exists (next_oneshot st), (push_general (other s) (set_txid (next_txid c) m) st1), (set_txid (next_txid c) m). split; [done|].
  assert (get_txid (set_txid (next_txid c) m) = next_txid c) as -> by (apply get_set_txid; [unfold fits; lia|done]).
  rewrite !(push_general_queue _ _ _ peer) by done. rewrite decide_True by done. rewrite decide_False by (by destruct s). split; [done|]. split; [unfold queue_at; by rewrite Hc1; simpl; rewrite Hq1|].
  split; [lia|]. split; [|split; [apply set_txid_handles|]].
  - unfold set_txid. destruct (Z.leb_spec 4 (zlen (data m))); [|lia]. unfold zdrop, overwrite. simpl. done.
  - apply (outstanding_run (zlen ops + 1)); [by eapply push_general_wf|lia|]. split_and!.
    + exists (call_reply c1). rewrite push_general_replies. unfold replies_at. by rewrite Hc1.
    + rewrite push_general_replies. unfold replies_at. rewrite Hp1. by eexists.
    + rewrite push_general_oneshots. by destruct (wf_txids _ _ Hwf1 s c1 _ _ Hc1 Hr1) as (_ & -> & _).
Qed.
End channel.
Arguments Channel : clear implicits.
Arguments channels : clear implicits.
Arguments Oneshot : clear implicits.

(** ** A concrete pair of channels *)

Definition demo_msg (b : Z) : MessagePacket nat := mkMessagePacket [b; 0; 0; 0; 7] [3%nat].
Definition demo_ops : list chan_op :=
  [OWrite E0 (demo_msg 0); OCall E0 (demo_msg 1); ORead E1; OWrite E1 (demo_msg 5)].
Definition demo_state : channels unit nat := fst (chan_history 1024 1025 tt demo_ops).

Lemma channel_fifo_witness :
  ∃ c, get E1 (ends demo_state) = Some c ∧
    pushed E1 (snd (chan_history 1024 1025 tt demo_ops)) = [demo_msg 0] ++ recv_queue c ∧
    zlen (recv_queue c) = 1.
Proof.
  destruct (get E1 (ends demo_state)) as [c|] eqn:Hc; [|vm_compute in Hc; discriminate].
  exists c. split; [done|]. split.
  - pose proof (channel_fifo 1024 1025 tt demo_ops E1 c) as Hf.
    unfold demo_state in Hc. destruct (chan_history 1024 1025 tt demo_ops) as [st evs] eqn:E.
    simpl in *. rewrite (Hf Hc). vm_compute in E. by injection E as _ <-.
  - vm_compute in Hc. by injection Hc as <-.
Defined.

Lemma channel_signals_witness :
  ∃ c, get E0 (ends demo_state) = Some c ∧
    contains (signal (base c)) Signal.READABLE = true ∧
    contains (signal (base c)) Signal.PEER_CLOSED = false ∧
    await_reply 0 demo_state = None.
Proof.
  destruct (get E0 (ends demo_state)) as [c|] eqn:Hc; [|vm_compute in Hc; discriminate].
  exists c. split; [done|].
  destruct (channel_signals 1024 1025 tt demo_ops E0 c ltac:(vm_compute; done) Hc)
    as (Hr & _ & Hp & Ht).
  fold demo_state in Hp, Ht. split_and!.
  - rewrite Hr. vm_compute in Hc. by injection Hc as <-.
  - by rewrite Hp.
  - apply (Ht 0x80000000 0%nat). vm_compute in Hc. by injection Hc as <-.
Defined.

(** A call, then a message without its id, then the answer. *)
Lemma channel_call_completion_witness :
  ∃ i st' (m' : MessagePacket nat), call E0 (demo_msg 1) demo_state = (Ok i, st') ∧
    await_reply i (fst (foldl chan_run (st', snd (chan_history 1024 1025 tt demo_ops)) [OWrite E1 (demo_msg 5); OWrite E1 (set_txid (get_txid m') (demo_msg 9)); ODrop E1]))
    = Some (Ok (set_txid (get_txid m') (demo_msg 9))).
Proof.
  pose proof (channel_call_completion 1024 1025 tt demo_ops E0 (demo_msg 1)) as Hc. unfold demo_state.
  assert (get_txid (set_txid 0x80000001 (demo_msg 1)) = 0x80000001) as Et by (by vm_compute).
  specialize (λ q q', Hc q q' [OWrite E1 (demo_msg 5); OWrite E1 (set_txid 0x80000001 (demo_msg 9)); ODrop E1] ltac:(by vm_compute) ltac:(by vm_compute)).
  destruct (chan_history 1024 1025 tt demo_ops) as [st evs] eqn:E. vm_compute in E. injection E as <- <-. simpl.
  edestruct Hc as (i & st' & m' & Ec & Hq & _ & _ & _ & _ & Ha); [reflexivity..|]. vm_compute in Ec. injection Ec as <- <-.
  exists 1%nat. eexists. exists m'. split; [vm_compute; reflexivity|]. vm_compute in Hq. injection Hq as <-. vm_compute. vm_compute in Ha. exact Ha.
Defined.
