(* ===== verification/Fifo.v ===== *)
(** * Fifos ([zircon-object/src/ipc/fifo.rs])

    A fifo is a pair of endpoints that exchange fixed-size elements through bounded
    byte queues. *)

From S2P Require Import Prelude Errors KObject Peer.
From stdpp Require Import options.
#[local] Open Scope Z_scope.

Section fifo.
Context {W : Type}.

Record Fifo := mkFifo {
  base : KObjectBase W;
  elem_count : Z;
  elem_size : Z;
  recv_queue : list Z
}.

#[export] Instance fifo_base : HasBase Fifo W := {|
  base_of := base;
  set_base b c := mkFifo b (elem_count c) (elem_size c) (recv_queue c);
  base_set_base b c := eq_refl
|}.

(** The two endpoints and the world of their callbacks. *)
Abbreviation fifos := (pair_of Fifo * W)%type.

Definition with_queue (q : list Z) (c : Fifo) : Fifo :=
  mkFifo (base c) (elem_count c) (elem_size c) q.

Definition new_fifo (i elem_count elem_size : Z) : Fifo :=
  mkFifo (with_signal i Signal.WRITABLE) elem_count elem_size [].

(** [Fifo::create], the two object ids given. *)
Definition create (id0 id1 elem_count elem_size : Z) (w : W) : fifos :=
  (mkPair (Some (new_fifo id0 elem_count elem_size)) (Some (new_fifo id1 elem_count elem_size)), w).

(** [capacity], in bytes. *)
Definition capacity (c : Fifo) : Z := elem_size c *u elem_count c.

Definition write (s : side) (size : Z) (data : list Z) (count : Z) (st : fifos) :
    ZxResult Z * fifos :=
  match get s (fst st) with
  | None => (Panic, st)
  | Some me =>
      if negb (size =? elem_size me) || (count =? 0) then (Err ZxError.OUT_OF_RANGE, st)
      else
        let count_size := count *u size in
        if negb (zlen data =? count_size) then (Panic, st)
        else match get (other s) (fst st) with
        | None => (Err ZxError.PEER_CLOSED, st)
        | Some peer =>
            let q := recv_queue peer in
            let rest_capacity := capacity me -u zlen q in
            if rest_capacity =? 0 then (Err ZxError.SHOULD_WAIT, st)
            else
              let st := signal_if (is_empty q) (other s) 0 Signal.READABLE st in
              let write_len := Z.min count_size rest_capacity in
              let q := q ++ ztake write_len data in
              let st := update_end (other s) (with_queue q) st in
              let st := signal_if (zlen q =? capacity me) s Signal.WRITABLE 0 st in
              (checked_div write_len size, st)
        end
  end.

(** [read]; the second result is the caller's buffer afterwards. *)
Definition read (s : side) (size : Z) (data : list Z) (count : Z) (st : fifos) :
    ZxResult Z * list Z * fifos :=
  match get s (fst st) with
  | None => (Panic, data, st)
  | Some me =>
      if negb (size =? elem_size me) || (count =? 0) then (Err ZxError.OUT_OF_RANGE, data, st)
      else
        let count_size := count *u size in
        if negb (zlen data =? count_size) then (Panic, data, st)
        else
          let peer := get (other s) (fst st) in
          let q := recv_queue me in
          if is_empty q then
            (Err (match peer with None => ZxError.PEER_CLOSED | Some _ => ZxError.SHOULD_WAIT end),
             data, st)
          else
            let read_size := Z.min count_size (zlen q) in
            let st := signal_if (zlen q =? capacity me) (other s) 0 Signal.WRITABLE st in
            let data := overwrite data (ztake read_size q) in
            let q := zdrop read_size q in
            let st := update_end s (with_queue q) st in
            let st := signal_if (is_empty q) s Signal.READABLE 0 st in
            (checked_div read_size size, data, st)
  end.

(** [impl Drop for Fifo] *)
Definition drop_end (s : side) (st : fifos) : fifos :=
  match get s (fst st) with
  | None => st
  | Some _ =>
      let st := signal_if true (other s) Signal.WRITABLE Signal.PEER_CLOSED st in
      (put s None (fst st), snd st)
  end.

(** ** Histories *)

Inductive fifo_op :=
| FWrite (s : side) (size : Z) (data : list Z) (count : Z)
| FRead (s : side) (size : Z) (data : list Z) (count : Z)
| FDrop (s : side).

(** The byte count of a request fits a [usize] ([checked_mul] in [sys_fifo_write] and
    [sys_fifo_read]). *)
Definition op_fits (op : fifo_op) : Prop :=
  match op with
  | FWrite _ size _ count | FRead _ size _ count => 0 ≤ count ∧ count * size < 2 ^ 64
  | FDrop _ => True
  end.

(** Bytes that a return value reports as queued at, or taken from, an endpoint. *)
Inductive fifo_event :=
| EvPush (s : side) (bytes : list Z)
| EvRead (s : side) (bytes : list Z).

Definition fifo_run (acc : fifos * list fifo_event) (op : fifo_op) : fifos * list fifo_event :=
  let '(st, evs) := acc in
  match op with
  | FWrite s size data count =>
      let '(r, st) := write s size data count st in
      (st, match r with Ok n => evs ++ [EvPush (other s) (ztake (n * size) data)] | _ => evs end)
  | FRead s size data count =>
      let '(r, data, st) := read s size data count st in
      (st, match r with Ok n => evs ++ [EvRead s (ztake (n * size) data)] | _ => evs end)
  | FDrop s => (drop_end s st, evs)
  end.

Definition fifo_history (id0 id1 elem_count elem_size : Z) (w : W) (ops : list fifo_op) :
    fifos * list fifo_event :=
  foldl fifo_run (create id0 id1 elem_count elem_size w, []) ops.

Definition pushed (s : side) (evs : list fifo_event) : list Z :=
  concat (omap (λ e, match e with EvPush s' b => if decide (s = s') then Some b else None | _ => None end) evs).
Definition taken (s : side) (evs : list fifo_event) : list Z :=
  concat (omap (λ e, match e with EvRead s' b => if decide (s = s') then Some b else None | _ => None end) evs).

(** ** The invariant *)

(** The part of an endpoint that signals do not touch. *)
Definition core (c : Fifo) : Z * Z * list Z := (elem_count c, elem_size c, recv_queue c).

Lemma core_set_base b (c : Fifo) : core (set_base b c) = core c.
Proof. done. Qed.

Lemma base_with_queue q (c : Fifo) : base_of (with_queue q c) = base_of c.
Proof. done. Qed.

(** The signals an endpoint must show: [q] is its queue, [peer] its peer's, if alive. *)
Definition signals_ok (cap sig : Z) (q : list Z) (peer : option (list Z)) : Prop :=
  contains sig Signal.READABLE = negb (is_empty q) ∧
  contains sig Signal.WRITABLE = match peer with Some q' => negb (zlen q' =? cap) | None => false end ∧
  contains sig Signal.PEER_CLOSED = match peer with Some _ => false | None => true end.

Definition queue_ok (n es : Z) (q : list Z) : Prop := zlen q ≤ n * es ∧ (es | zlen q).

(** An endpoint with its queue, for the rules below. *)
Definition view_at (s : side) (st : fifos) : option (Z * Z * list Z) := core_at core s st.

Record fifo_wf (n es : Z) (st : fifos) : Prop := {
  wf_core s v : view_at s st = Some v → ∃ q, v = (n, es, q) ∧ queue_ok n es q;
  wf_sig s v sig : view_at s st = Some v → sig_at s st = Some sig →
    signals_ok (n * es) sig v.2 (snd <$> view_at (other s) st)
}.

Lemma view_signal_if c s clear set st s' :
  view_at s' (signal_if c s clear set st) = view_at s' st.
Proof. by apply core_at_signal_if. Qed.

Lemma view_with_queue s q st s' :
  view_at s' (update_end s (with_queue q) st) =
  (λ v, if bool_decide (s' = s) then (v.1, q) else v) <$> view_at s' st.
Proof.
  unfold view_at. rewrite core_at_update_end. unfold core_at.
  destruct (get s' (fst st)); simpl; [|done]. by case_bool_decide.
Qed.

Lemma sig_with_queue s q st s' : sig_at s' (update_end s (with_queue q) st) = sig_at s' st.
Proof. by apply sig_at_update_end. Qed.

Hint Rewrite view_signal_if view_with_queue sig_with_queue : fifo.

Lemma view_get s st c : get s (fst st) = Some c → view_at s st = Some (core c).
Proof. intros Hc. unfold view_at, core_at. by rewrite Hc. Qed.
Lemma sig_get s st (c : Fifo) : get s (fst st) = Some c → sig_at s st = Some (signal (base c)).
Proof. intros Hc. unfold sig_at. by rewrite Hc. Qed.

(** What a successful write does. *)
Lemma fifo_write_effect s size data count st me peer r st' :
  get s (fst st) = Some me → get (other s) (fst st) = Some peer →
  write s size data count st = (Ok r, st') →
  let q := recv_queue peer in
  let k := Z.min (count *u size) (capacity me -u zlen q) in
  let q' := q ++ ztake k data in
  (size = elem_size me ∧ zlen data = count *u size ∧ size ≠ 0 ∧ capacity me -u zlen q ≠ 0 ∧
   r = k / size) ∧
  view_at (other s) st' = Some (elem_count peer, elem_size peer, q') ∧
  view_at s st' = Some (core me) ∧
  sig_at (other s) st' = Some (if is_empty q then changed (signal (base peer)) 0 Signal.READABLE
                               else signal (base peer)) ∧
  sig_at s st' = Some (if zlen q' =? capacity me then changed (signal (base me)) Signal.WRITABLE 0
                       else signal (base me)).
Proof.
  intros Hme Hp Hw q k q'. unfold write in Hw. rewrite Hme, Hp in Hw.
  destruct (Z.eqb_spec size (elem_size me)); [|done]. destruct (Z.eqb_spec count 0); [done|].
  simpl in Hw. destruct (Z.eqb_spec (zlen data) (count *u size)); [|done]. simpl in Hw.
  destruct (Z.eqb_spec (capacity me -u zlen (recv_queue peer)) 0); [done|].
  unfold checked_div in Hw. destruct (Z.eqb_spec size 0); [done|].
  injection Hw as <- <-. split; [done|]. fold q k q'.
  autorewrite with fifo peer. rewrite (view_get _ _ _ Hme), (view_get _ _ _ Hp),
    (sig_get _ _ _ Hme), (sig_get _ _ _ Hp). simpl.
  rewrite (bool_decide_true (other s = other s)), (bool_decide_false (s = other s)),
    (bool_decide_true (s = s)), (bool_decide_false (other s = s)) by (done || by destruct s).
  rewrite !andb_false_r, !andb_true_r. done.
Qed.

(** What a successful read does. *)
Lemma fifo_read_effect s size data count st me r data' st' :
  get s (fst st) = Some me →
  read s size data count st = (Ok r, data', st') →
  let q := recv_queue me in
  let k := Z.min (count *u size) (zlen q) in
  (size = elem_size me ∧ zlen data = count *u size ∧ size ≠ 0 ∧ is_empty q = false ∧
   r = k / size ∧ data' = overwrite data (ztake k q)) ∧
  view_at s st' = Some (elem_count me, elem_size me, zdrop k q) ∧
  view_at (other s) st' = view_at (other s) st ∧
  sig_at s st' = Some (if is_empty (zdrop k q) then changed (signal (base me)) Signal.READABLE 0
                       else signal (base me)) ∧
  sig_at (other s) st' =
    (λ x, if zlen q =? capacity me then changed x 0 Signal.WRITABLE else x) <$> sig_at (other s) st.
Proof.
  intros Hme Hw q k. unfold read in Hw. rewrite Hme in Hw.
  destruct (Z.eqb_spec size (elem_size me)); [|done]. destruct (Z.eqb_spec count 0); [done|].
  simpl in Hw. destruct (Z.eqb_spec (zlen data) (count *u size)); [|done]. simpl in Hw.
  destruct (is_empty (recv_queue me)) eqn:Eq; [done|].
  unfold checked_div in Hw. destruct (Z.eqb_spec size 0); [done|].
  injection Hw as <- <- <-. split; [done|]. fold q k.
  autorewrite with fifo peer. rewrite (view_get _ _ _ Hme), (sig_get _ _ _ Hme). simpl.
  rewrite (bool_decide_true (other s = other s)), (bool_decide_false (s = other s)),
    (bool_decide_true (s = s)), (bool_decide_false (other s = s)) by (done || by destruct s).
  rewrite !andb_false_r, !andb_true_r. split_and!; [done| |done|].
  - by destruct (view_at (other s) st).
  - by destruct (sig_at (other s) st).
Qed.

Lemma write_fails s size data count st r st' :
  write s size data count st = (r, st') → is_ok r = false → size ≠ 0 → st' = st.
Proof.
  intros Hw Hr Hs. unfold write, checked_div in Hw. destruct (Z.eqb_spec size 0); [done|].
  by repeat case_match; simplify_eq.
Qed.

Lemma read_fails s size data count st r data' st' :
  read s size data count st = (r, data', st') → is_ok r = false → size ≠ 0 → st' = st ∧ data' = data.
Proof.
  intros Hw Hr Hs. unfold read, checked_div in Hw. destruct (Z.eqb_spec size 0); [done|].
  by repeat case_match; simplify_eq.
Qed.

Lemma fifo_wf_intro n es st s :
  (∀ s', s' = s ∨ s' = other s → ∀ v, view_at s' st = Some v →
     (∃ q, v = (n, es, q) ∧ queue_ok n es q) ∧
     ∀ sig, sig_at s' st = Some sig → signals_ok (n * es) sig v.2 (snd <$> view_at (other s') st)) →
  fifo_wf n es st.
Proof.
  intros Hs. split.
  - intros s' v Hv. by apply (Hs s' (side_cases s s') v Hv).
  - intros s' v sig Hv. by apply (Hs s' (side_cases s s') v Hv).
Qed.

(** A live endpoint in a well-formed pair. *)
Lemma wf_end n es st s c :
  fifo_wf n es st → get s (fst st) = Some c →
  core c = (n, es, recv_queue c) ∧ queue_ok n es (recv_queue c) ∧
  signals_ok (n * es) (signal (base c)) (recv_queue c) (snd <$> view_at (other s) st).
Proof.
  intros Hwf Hc. destruct (wf_core n es st Hwf s (core c) (view_get _ _ _ Hc)) as (q & Hq & Hok).
  pose proof (wf_sig n es st Hwf s _ _ (view_get _ _ _ Hc) (sig_get _ _ _ Hc)) as Hs.
  unfold core in *. simplify_eq. done.
Qed.

Lemma changed_signals_ok sig cap q peer :
  signals_ok cap sig q peer →
  (∀ q', is_empty q' = false → signals_ok cap (changed sig 0 Signal.READABLE) q' peer) ∧
  signals_ok cap (changed sig Signal.READABLE 0) [] peer ∧
  (∀ q', zlen q' = cap → signals_ok cap (changed sig Signal.WRITABLE 0) q (Some q') ∨ peer = None) ∧
  (∀ q', zlen q' ≠ cap → signals_ok cap (changed sig 0 Signal.WRITABLE) q (Some q') ∨ peer = None) ∧
  signals_ok cap (changed sig Signal.WRITABLE Signal.PEER_CLOSED) q None.
Proof.
  intros (Hr & Hw & Hp). split_and!.
  - intros q' Hq. unfold signals_ok, changed. rewrite Hq. revert Hr Hw Hp. sigbits. naive_solver.
  - unfold signals_ok, changed. revert Hr Hw Hp. sigbits. naive_solver.
  - intros q' Hq. destruct peer; [left|by right]. unfold signals_ok, changed.
    revert Hr Hw Hp. sigbits. destruct (Z.eqb_spec (zlen q') cap); naive_solver.
  - intros q' Hq. destruct peer; [left|by right]. unfold signals_ok, changed.
    revert Hr Hw Hp. sigbits. destruct (Z.eqb_spec (zlen q') cap); naive_solver.
  - unfold signals_ok, changed. revert Hr Hw Hp. sigbits. naive_solver.
Qed.

Section sized.
Context (n es : Z).
Hypothesis (n_pos : 0 < n) (es_pos : 0 < es) (cap_fits : n * es < 2 ^ 64).

Lemma capacity_eq c : core c = (n, es, recv_queue c) → capacity c = n * es.
Proof using Type*.
  unfold core, capacity. intros [= -> ->]. rewrite wmul_small; [lia|]. unfold fits. nia.
Qed.

(** How many bytes a write moves: a whole positive number of elements that fits. *)
Lemma write_amount q count :
  queue_ok n es q → 0 < count → count * es < 2 ^ 64 → n * es -u zlen q ≠ 0 →
  let k := Z.min (count *u es) (n * es -u zlen q) in
  k = Z.min (count * es) (n * es - zlen q) ∧ 0 < k ∧ (es | k) ∧ k ≤ n * es - zlen q.
Proof using Type*.
  intros [Hl Hd] Hc Hf Hr k. pose proof (zlen_nonneg q).
  assert (n * es -u zlen q = n * es - zlen q) as E by (apply wsub_small; unfold fits; lia).
  assert (count *u es = count * es) as E2 by (apply wmul_small; unfold fits; nia).
  unfold k. rewrite E, E2 in *. split_and!; [done|nia| |lia].
  destruct (Z.min_spec (count * es) (n * es - zlen q)) as [[_ ->]|[_ ->]].
  - by exists count.
  - apply Z.divide_sub_r; [by exists n|done].
Qed.

Lemma fifo_write_wf s size data count st :
  fifo_wf n es st → 0 ≤ count → count * size < 2 ^ 64 →
  fifo_wf n es (snd (write s size data count st)).
Proof using Type*.
  intros Hwf Hc Hf. destruct (write s size data count st) as [r st'] eqn:Hw. simpl.
  destruct (get s (fst st)) as [me|] eqn:Hme; [|by unfold write in Hw; rewrite Hme in Hw; simplify_eq].
  destruct (wf_end _ _ _ _ _ Hwf Hme) as (Cm & Qm & Sm).
  destruct (decide (size = es)) as [->|Hs]; cycle 1.
  { unfold write in Hw. rewrite Hme in Hw. injection Cm as _ Ce. rewrite Ce in Hw.
    destruct (Z.eqb_spec size es); [done|]. by simplify_eq/=. }
  destruct (is_ok r) eqn:Hr; [|apply write_fails in Hw as ->; [done|done|lia]].
  destruct r as [r| |]; [|done..].
  destruct (get (other s) (fst st)) as [peer|] eqn:Hp; cycle 1.
  { unfold write in Hw. rewrite Hme, Hp in Hw. by repeat case_match; simplify_eq. }
  destruct (wf_end _ _ _ _ _ Hwf Hp) as (Cp & Qp & Sp).
  rewrite (view_get _ _ _ Hp) in Sm. rewrite other_involutive, (view_get _ _ _ Hme) in Sp. simpl in Sm, Sp.
  pose proof (fifo_write_effect s es data count st me peer r st' Hme Hp Hw) as He. simpl in He.
  rewrite (capacity_eq me Cm) in He. destruct He as ((_ & Hd & _ & Hrest & _) & Vo & Vs & So & Ss).
  assert (0 < count) as Hcp.
  { unfold write in Hw. rewrite Hme in Hw. destruct (Z.eqb_spec count 0); [|lia].
    rewrite orb_true_r in Hw. done. }
  destruct (write_amount (recv_queue peer) count Qp Hcp Hf Hrest) as (Ek & Kp & Kd & Kl).
  set (k := Z.min (count *u es) _) in *.
  assert (zlen (recv_queue peer ++ ztake k data) = zlen (recv_queue peer) + k) as El.
  { rewrite zlen_app, zlen_ztake by lia. rewrite Hd.
    rewrite wmul_small in * by (unfold fits; nia). lia. }
  assert (is_empty (recv_queue peer ++ ztake k data) = false) as Ene.
  { rewrite is_empty_zlen, El. pose proof (zlen_nonneg (recv_queue peer)).
    destruct (Z.eqb_spec (zlen (recv_queue peer) + k) 0); lia. }
  injection Cp as Cp1 Cp2. rewrite Cp1, Cp2 in Vo. rewrite Cm in Vs.
  eapply (fifo_wf_intro _ _ _ s). intros s' [->| ->] v; rewrite ?other_involutive.
  - rewrite Vs, Vo, Ss. intros [= <-]. split; [by eexists|]. intros sig [= <-]. simpl.
    destruct (changed_signals_ok _ _ _ _ Sm) as (_ & _ & Hfull & _).
    destruct (Z.eqb_spec (zlen (recv_queue peer ++ ztake k data)) (n * es)) as [E|E].
    + by destruct (Hfull _ E).
    + destruct Sm as (? & Hw1 & ?). split_and!; [done| |done]. rewrite Hw1.
      destruct (Z.eqb_spec (zlen (recv_queue peer)) (n * es)); [|by destruct (Z.eqb_spec (zlen (recv_queue peer ++ ztake k data)) (n * es))].
      lia.
  - rewrite Vs, Vo, So. intros [= <-]. split.
    { eexists. split; [done|]. split; rewrite El; [lia|]. apply Z.divide_add_r; [apply Qp|done]. }
    intros sig [= <-]. simpl. destruct (changed_signals_ok _ _ _ _ Sp) as (Hr1 & _).
    destruct (is_empty (recv_queue peer)) eqn:Eq; [by apply Hr1|].
    destruct Sp as (Hr2 & ? & ?). split_and!; [|done..]. by rewrite Hr2, Eq, Ene.
Qed.

Lemma read_amount q count :
  queue_ok n es q → 0 < count → count * es < 2 ^ 64 → is_empty q = false →
  let k := Z.min (count *u es) (zlen q) in
  k = Z.min (count * es) (zlen q) ∧ 0 < k ≤ zlen q ∧ (es | k) ∧ queue_ok n es (zdrop k q) ∧
  zlen (zdrop k q) = zlen q - k.
Proof using Type*.
  intros [Hl Hd] Hc Hf Hr k. pose proof (zlen_nonneg q). rewrite is_empty_zlen in Hr.
  assert (count *u es = count * es) as E2 by (apply wmul_small; unfold fits; nia).
  assert (0 < k ≤ zlen q) as Hk by (unfold k; rewrite E2; destruct (Z.eqb_spec (zlen q) 0); [done|nia]).
  assert (es | k) as Hek.
  { unfold k. rewrite E2. destruct (Z.min_spec (count * es) (zlen q)) as [[_ ->]|[_ ->]]; [by exists count|done]. }
  assert (zlen (zdrop k q) = zlen q - k) as El by (rewrite zlen_zdrop; lia).
  unfold queue_ok. rewrite El. split_and!; [unfold k; by rewrite E2|lia|lia|done|lia| |done].
  by apply Z.divide_sub_r.
Qed.

Lemma read_count_pos s size data count st r data' st' :
  read s size data count st = (Ok r, data', st') → 0 ≤ count → 0 < count.
Proof using Type.
  unfold read. intros Hw Hc. destruct (get s (fst st)); [|done].
  destruct (Z.eqb_spec count 0); [|lia]. by rewrite orb_true_r in Hw.
Qed.

Lemma write_count_pos s size data count st r st' :
  write s size data count st = (Ok r, st') → 0 ≤ count → 0 < count.
Proof using Type.
  unfold write. intros Hw Hc. destruct (get s (fst st)); [|done].
  destruct (Z.eqb_spec count 0); [|lia]. by rewrite orb_true_r in Hw.
Qed.

Lemma read_ok_wf s data count st me r data' st' :
  fifo_wf n es st → 0 ≤ count → count * es < 2 ^ 64 → get s (fst st) = Some me →
  read s es data count st = (Ok r, data', st') → fifo_wf n es st'.
Proof using Type*.
  intros Hwf Hc Hf Hme Hr. destruct (wf_end _ _ _ _ _ Hwf Hme) as (Cm & Qm & Sm).
  pose proof (fifo_read_effect s es data count st me r data' st' Hme Hr) as He. simpl in He.
  rewrite (capacity_eq me Cm) in He.
  destruct He as ((_ & _ & _ & Hne & _) & Vs & Vo & Ss & So).
  destruct (read_amount (recv_queue me) count Qm) as (_ & Hk & _ & Qk & Lk);
    [by eapply read_count_pos|done..|].
  set (k := Z.min (count *u es) _) in *. injection Cm as Cm1 Cm2. rewrite Cm1, Cm2 in Vs.
  apply (fifo_wf_intro _ _ _ s). intros s' [->| ->] v; rewrite ?other_involutive.
  - rewrite Vs, Vo, Ss. intros [= <-]. split; [by eexists|]. intros sig [= <-]. simpl.
    destruct (changed_signals_ok _ _ _ _ Sm) as (_ & He & _).
    destruct (zdrop k (recv_queue me)) eqn:Ez; [done|]. simpl.
    destruct Sm as (Hr2 & ? & ?). split_and!; [|done..]. by rewrite Hr2, Hne.
  - rewrite Vs, Vo, So. intros Hv. destruct (wf_core _ _ _ Hwf _ _ Hv) as (q' & -> & Hq').
    split; [by eexists|]. intros sig. destruct (sig_at (other s) st) as [sig0|] eqn:Hs0; [|done].
    pose proof (wf_sig _ _ _ Hwf _ _ _ Hv Hs0) as S0. rewrite other_involutive, (view_get _ _ _ Hme) in S0.
    simpl in *. intros [= <-].
    destruct (changed_signals_ok _ _ _ _ S0) as (_ & _ & _ & Hnf & _).
    destruct (Z.eqb_spec (zlen (recv_queue me)) (n * es)) as [E|E].
    + destruct (Hnf (zdrop k (recv_queue me))); [lia|done..].
    + destruct S0 as (? & Hw & ?). split_and!; [done| |done]. rewrite Hw. destruct Qm.
      destruct (Z.eqb_spec (zlen (recv_queue me)) (n * es)); [done|].
      destruct (Z.eqb_spec (zlen (zdrop k (recv_queue me))) (n * es)); [lia|done].
Qed.

Lemma fifo_read_wf s size data count st :
  fifo_wf n es st → 0 ≤ count → count * size < 2 ^ 64 →
  fifo_wf n es (snd (read s size data count st)).
Proof using Type*.
  intros Hwf Hc Hf. destruct (read s size data count st) as [[r data'] st'] eqn:Hw. simpl.
  destruct (get s (fst st)) as [me|] eqn:Hme; [|by unfold read in Hw; rewrite Hme in Hw; simplify_eq].
  destruct (wf_end _ _ _ _ _ Hwf Hme) as (Cm & _).
  destruct (decide (size = es)) as [->|Hs]; cycle 1.
  { unfold read in Hw. rewrite Hme in Hw. injection Cm as _ Ce. rewrite Ce in Hw.
    destruct (Z.eqb_spec size es); [done|]. by simplify_eq/=. }
  destruct (is_ok r) eqn:Hr; [|apply read_fails in Hw as [-> _]; [done|done|lia]].
  destruct r as [r| |]; [|done..]. by eapply read_ok_wf.
Qed.

Lemma fifo_drop_end_wf s st : fifo_wf n es st → fifo_wf n es (drop_end s st).
Proof using Type*.
  intros Hwf. unfold drop_end. destruct (get s (fst st)) as [me|] eqn:Hme; [|done].
  set (st1 := signal_if true (other s) _ _ st).
  assert (view_at s (put s None (fst st1), snd st1) = None) as Vs
    by (unfold view_at, core_at; simpl; by rewrite get_put_same).
  assert (view_at (other s) (put s None (fst st1), snd st1) = view_at (other s) st) as Vo.
  { rewrite <-(view_signal_if true (other s) Signal.WRITABLE Signal.PEER_CLOSED st (other s)).
    unfold view_at, core_at; simpl. by rewrite get_put_other. }
  assert (sig_at (other s) (put s None (fst st1), snd st1) = sig_at (other s) st1) as So
    by (unfold sig_at; simpl; by rewrite get_put_other).
  apply (fifo_wf_intro _ _ _ s). intros s' [->| ->] v; rewrite ?other_involutive; [by rewrite Vs|].
  rewrite Vo, Vs, So. intros Hv. split; [by eapply wf_core|]. intros sig.
  unfold st1. rewrite sig_at_signal_if, bool_decide_true by done. simpl.
  destruct (sig_at (other s) st) as [sig0|] eqn:Hs0; [|done]. simpl. intros [= <-].
  by apply (changed_signals_ok _ _ _ _ (wf_sig _ _ _ Hwf _ _ _ Hv Hs0)).
Qed.

Lemma fifo_create_wf id0 id1 w : fifo_wf n es (create id0 id1 n es w).
Proof using Type*.
  assert (queue_ok n es []) by (split; [unfold zlen; simpl; nia|by exists 0]).
  assert (0 ≠ n * es) by nia.
  apply (fifo_wf_intro _ _ _ E0). intros s' _ v Hv.
  destruct s'; injection Hv as <-; (split; [by eexists|]); intros sig [= <-]; split_and!; try done;
    change (true = negb (0 =? n * es)); by destruct (Z.eqb_spec 0 (n * es)).
Qed.

Lemma fifo_pushed_snoc s evs e : pushed s (evs ++ [e]) = pushed s evs ++ pushed s [e].
Proof using Type. unfold pushed. by rewrite omap_app, concat_app. Qed.
Lemma fifo_taken_snoc s evs e : taken s (evs ++ [e]) = taken s evs ++ taken s [e].
Proof using Type. unfold taken. by rewrite omap_app, concat_app. Qed.

(** The bytes that [write] reports are appended to the peer's queue. *)
Lemma write_bytes s size data count st r st' s' q' :
  fifo_wf n es st → 0 ≤ count → count * size < 2 ^ 64 → write s size data count st = (Ok r, st') →
  snd <$> view_at s' st' = Some q' →
  ∃ q, snd <$> view_at s' st = Some q ∧ 0 < r ∧ r * size ≤ zlen data ∧
       q' = q ++ (if decide (s' = other s) then ztake (r * size) data else []).
Proof using Type*.
  intros Hwf Hc Hf Hw. pose proof (write_count_pos _ _ _ _ _ _ _ Hw Hc) as Hcp.
  destruct (get s (fst st)) as [me|] eqn:Hme; [|by unfold write in Hw; rewrite Hme in Hw].
  destruct (get (other s) (fst st)) as [peer|] eqn:Hp; cycle 1.
  { unfold write in Hw. rewrite Hme, Hp in Hw. repeat case_match; simplify_eq. }
  destruct (wf_end _ _ _ _ _ Hwf Hme) as (Cm & _). destruct (wf_end _ _ _ _ _ Hwf Hp) as (_ & Qp & _).
  pose proof (fifo_write_effect s size data count st me peer r st' Hme Hp Hw) as He. simpl in He.
  rewrite (capacity_eq me Cm) in He. injection Cm as Cm1 Cm2. rewrite Cm2 in He.
  destruct He as ((-> & Hd & _ & Hrest & Hr) & Vo & Vs & _).
  destruct (write_amount (recv_queue peer) count Qp Hcp Hf Hrest) as (Ek & Kp & Kd & Kl).
  set (k := Z.min (count *u es) _) in *.
  assert (r * es = k) as Erk by (rewrite Hr, Z.mul_comm; symmetry; by apply Znumtheory.Zdivide_Zdiv_eq).
  assert (count *u es = count * es) as E2 by (apply wmul_small; unfold fits; nia).
  intros Hq'. destruct (side_cases s s') as [-> | ->].
  - rewrite Vs in Hq'. injection Hq' as <-. exists (recv_queue me).
    rewrite (view_get _ _ _ Hme), decide_False by (by destruct s).
    split_and!; [done|nia|lia|by rewrite app_nil_r].
  - rewrite Vo in Hq'. injection Hq' as <-. exists (recv_queue peer).
    rewrite (view_get _ _ _ Hp), decide_True, Erk by done. split_and!; [done|nia|lia|done].
Qed.

(** The bytes that [read] reports come off the front of the queue. *)
Lemma read_bytes s size data count st r data' st' s' q' :
  fifo_wf n es st → 0 ≤ count → count * size < 2 ^ 64 → read s size data count st = (Ok r, data', st') →
  snd <$> view_at s' st' = Some q' →
  ∃ q, snd <$> view_at s' st = Some q ∧ 0 < r ∧ zlen data' = zlen data ∧
       q = (if decide (s' = s) then ztake (r * size) data' else []) ++ q'.
Proof using Type*.
  intros Hwf Hc Hf Hw. pose proof (read_count_pos _ _ _ _ _ _ _ _ Hw Hc) as Hcp.
  destruct (get s (fst st)) as [me|] eqn:Hme; [|by unfold read in Hw; rewrite Hme in Hw].
  destruct (wf_end _ _ _ _ _ Hwf Hme) as (Cm & Qm & _).
  pose proof (fifo_read_effect s size data count st me r data' st' Hme Hw) as He. simpl in He.
  injection Cm as Cm1 Cm2. rewrite Cm2 in He.
  destruct He as ((-> & Hd & _ & Hne & Hr & Hdata) & Vs & Vo & _).
  destruct (read_amount (recv_queue me) count Qm) as (Ek & Kp & Kd & _); [done..|].
  assert (count *u es = count * es) as E2 by (apply wmul_small; unfold fits; nia).
  set (k := Z.min (count *u es) _) in *.
  assert (r * es = k) as Erk by (rewrite Hr, Z.mul_comm; symmetry; by apply Znumtheory.Zdivide_Zdiv_eq).
  assert (zlen (ztake k (recv_queue me)) = k) as Elk by (rewrite zlen_ztake; lia).
  assert (zlen data' = zlen data) as Eld.
  { rewrite Hdata. unfold zlen in *. rewrite length_overwrite; lia. }
  assert (ztake k data' = ztake k (recv_queue me)) as Etk.
  { rewrite Hdata. unfold overwrite. rewrite ztake_app by lia. apply ztake_all. lia. }
  intros Hq'. destruct (side_cases s s') as [-> | ->].
  - rewrite Vs in Hq'. injection Hq' as <-. exists (recv_queue me).
    rewrite (view_get _ _ _ Hme), decide_True, Erk, Etk by done.
    split_and!; [done|nia|done|by rewrite ztake_zdrop].
  - rewrite Vo in Hq'. exists q'. rewrite decide_False by (by destruct s). split_and!; [done|nia|done..].
Qed.

Definition fifo_inv (acc : fifos * list fifo_event) : Prop :=
  fifo_wf n es (fst acc) ∧
  ∀ s q, snd <$> view_at s (fst acc) = Some q → pushed s (snd acc) = taken s (snd acc) ++ q.

Lemma drop_end_view s st s' v : view_at s' (drop_end s st) = Some v → view_at s' st = Some v.
Proof using Type.
  unfold drop_end. destruct (get s (fst st)); [|done]. intros Hv.
  rewrite <-(view_signal_if true (other s) Signal.WRITABLE Signal.PEER_CLOSED st s').
  revert Hv. unfold view_at, core_at. simpl. rewrite get_put. by destruct (decide (s = s')).
Qed.

(** A failed request changes nothing. *)
Lemma write_fails_wf s size data count st r st' :
  fifo_wf n es st → write s size data count st = (r, st') → is_ok r = false → st' = st.
Proof using Type*.
  intros Hwf Hw Hr. destruct (decide (size = 0)) as [->|]; [|by eapply write_fails].
  unfold write in Hw. destruct (get s (fst st)) as [me|] eqn:Hme; [|by simplify_eq].
  destruct (wf_end _ _ _ _ _ Hwf Hme) as ([= _ Cm2] & _). rewrite Cm2 in Hw.
  destruct (Z.eqb_spec 0 es); [lia|]. by simplify_eq/=.
Qed.

Lemma read_fails_wf s size data count st r data' st' :
  fifo_wf n es st → read s size data count st = (r, data', st') → is_ok r = false → st' = st.
Proof using Type*.
  intros Hwf Hw Hr. destruct (decide (size = 0)) as [->|]; [|by eapply read_fails].
  unfold read in Hw. destruct (get s (fst st)) as [me|] eqn:Hme; [|by simplify_eq].
  destruct (wf_end _ _ _ _ _ Hwf Hme) as ([= _ Cm2] & _). rewrite Cm2 in Hw.
  destruct (Z.eqb_spec 0 es); [lia|]. by simplify_eq/=.
Qed.

Lemma fifo_write_read_step acc op : op_fits op → fifo_inv acc → fifo_inv (fifo_run acc op).
Proof using Type*.
  destruct acc as [st evs]. intros Hfit [Hwf Hinv]. simpl in *.
  destruct op as [s size data count|s size data count|s]; simpl in *.
  - destruct Hfit as [Hc Hf]. pose proof (fifo_write_wf s size data count st Hwf Hc Hf) as Hwf'.
    destruct (write s size data count st) as [r st'] eqn:Hw. split; [done|]. simpl in *.
    intros s' q' Hq'. destruct r as [r| |];
      [|apply Hinv; by rewrite (write_fails_wf _ _ _ _ _ _ _ Hwf Hw) in Hq'..].
    destruct (write_bytes _ _ _ _ _ _ _ _ _ Hwf Hc Hf Hw Hq') as (q & Hq & _ & _ & ->).
    rewrite fifo_pushed_snoc, fifo_taken_snoc, (Hinv _ _ Hq). unfold pushed, taken; simpl.
    destruct (decide (s' = other s)); simpl; by rewrite ?app_nil_r, <-?app_assoc.
  - destruct Hfit as [Hc Hf]. pose proof (fifo_read_wf s size data count st Hwf Hc Hf) as Hwf'.
    destruct (read s size data count st) as [[r data'] st'] eqn:Hw. split; [done|]. simpl in *.
    intros s' q' Hq'. destruct r as [r| |];
      [|apply Hinv; by rewrite (read_fails_wf _ _ _ _ _ _ _ _ Hwf Hw) in Hq'..].
    destruct (read_bytes _ _ _ _ _ _ _ _ _ _ Hwf Hc Hf Hw Hq') as (q & Hq & _ & _ & Eq).
    pose proof (Hinv _ _ Hq) as Hp. rewrite Eq in Hp.
    rewrite fifo_pushed_snoc, fifo_taken_snoc, Hp. unfold pushed, taken; simpl.
    destruct (decide (s' = s)); simpl; by rewrite ?app_nil_r, <-?app_assoc.
  - split; [by apply fifo_drop_end_wf|]. intros s' q' Hq'. apply Hinv.
    apply fmap_Some in Hq' as (v & Hv & ->). by rewrite (drop_end_view _ _ _ _ Hv).
Qed.

Lemma fifo_history_inv id0 id1 w ops : Forall op_fits ops → fifo_inv (fifo_history id0 id1 n es w ops).
Proof using Type*.
  induction ops as [|op ops IH] using rev_ind; intros Hf.
  - split; [by apply fifo_create_wf|]. by intros [] q [= <-].
  - apply Forall_app in Hf as [Hf Hop]. unfold fifo_history in *. rewrite foldl_app.
    apply fifo_write_read_step; [by apply Forall_singleton|]. by apply IH.
Qed.
End sized.

(** Over every history of reads, writes and closures of a fifo, the bytes that the
    return values report as written to an endpoint are exactly the bytes reported as read
    from it followed by its queue; the queue holds whole elements and never exceeds the
    capacity; and the three signals of a live endpoint say exactly whether its own queue
    is non-empty, whether its peer is alive with room left, and whether its peer is gone. *)
Theorem fifo_correct id0 id1 n es w ops s c :
  0 < n → 0 < es → n * es < 2 ^ 64 → Forall op_fits ops →
  let '(st, evs) := fifo_history id0 id1 n es w ops in
  get s (fst st) = Some c →
  pushed s evs = taken s evs ++ recv_queue c ∧
  zlen (recv_queue c) ≤ n * es ∧ (es | zlen (recv_queue c)) ∧
  contains (signal (base c)) Signal.READABLE = negb (is_empty (recv_queue c)) ∧
  contains (signal (base c)) Signal.WRITABLE =
    match get (other s) (fst st) with
    | Some peer => negb (zlen (recv_queue peer) =? n * es)
    | None => false
    end ∧
  contains (signal (base c)) Signal.PEER_CLOSED =
    match get (other s) (fst st) with Some _ => false | None => true end.
Proof.
  intros Hn Hes Hcap Hf. destruct (fifo_history_inv n es Hn Hes Hcap id0 id1 w ops Hf) as [Hwf Hinv].
  destruct (fifo_history id0 id1 n es w ops) as [st evs]. intros Hc. simpl in *.
  destruct (wf_end _ _ _ _ _ Hwf Hc) as (_ & [Hl Hd] & (Hr & Hw & Hp)).
  split_and!; [|done..| |].
  - apply Hinv. by rewrite (view_get _ _ _ Hc).
  - rewrite Hw. unfold view_at, core_at. by destruct (get (other s) (fst st)).
  - rewrite Hp. unfold view_at, core_at. by destruct (get (other s) (fst st)).
Qed.
End fifo.
Arguments Fifo : clear implicits.

Lemma fifo_correct_witness :
  let ops := [FWrite E0 2 [1; 2; 3; 4; 5; 6; 7; 8] 4; FRead E1 2 [0; 0] 1] in
  let '(st, evs) := fifo_history 1024 1025 3 2 tt ops in
  pushed E1 evs = [1; 2; 3; 4; 5; 6] ∧ taken E1 evs = [1; 2] ∧
  ∃ c, get E1 (fst st) = Some c ∧ [1; 2; 3; 4; 5; 6] = [1; 2] ++ recv_queue c.
Proof.
  intros ops. pose proof (fifo_correct 1024 1025 3 2 tt ops E1) as Hc.
  assert (Forall op_fits ops) as Hf by (repeat constructor; simpl; lia).
  destruct (fifo_history 1024 1025 3 2 tt ops) as [st evs] eqn:E.
  vm_compute in E. injection E as <- <-. split; [done|]. split; [done|].
  eexists. split; [reflexivity|].
  by destruct (Hc _ ltac:(lia) ltac:(lia) ltac:(lia) Hf eq_refl) as [Hpt _].
Defined.
