(* ===== verification/Socket.v ===== *)
(** * Sockets ([zircon-object/src/ipc/socket.rs])

    A socket is a pair of endpoints with a byte buffer each, read as a stream or, when
    created with [DATAGRAM], as a queue of datagrams whose lengths are kept beside the
    bytes.  The operations are modelled as atomic: the locks an operation takes and
    releases in turn are not interleaved with another operation on the same pair. *)

From S2P Require Import Prelude Errors KObject Peer.
From stdpp Require Import options.
#[local] Open Scope Z_scope.

Module SocketFlags.
Definition SHUTDOWN_WRITE : Z := 1.
Definition SHUTDOWN_READ := bit 1.
Definition SHUTDOWN_MASK := Z.lor SHUTDOWN_WRITE SHUTDOWN_READ.
Definition DATAGRAM : Z := 1.
Definition CREATE_MASK := DATAGRAM.
Definition SOCKET_PEEK := bit 3.
(** Every declared flag. *)
Definition all : Z := Z.lor SHUTDOWN_MASK SOCKET_PEEK.
End SocketFlags.

Definition SOCKET_SIZE : Z := 128 * 2048.

Record SocketInner := mkSocketInner {
  data : list Z;
  datagram_len : list Z;
  read_threshold : Z;
  write_threshold : Z;
  read_disabled : bool
}.

Definition inner_default : SocketInner := mkSocketInner [] [] 0 0 false.

Definition with_data (d : list Z) (i : SocketInner) : SocketInner :=
  mkSocketInner d (datagram_len i) (read_threshold i) (write_threshold i) (read_disabled i).
Definition with_datagrams (d l : list Z) (i : SocketInner) : SocketInner :=
  mkSocketInner d l (read_threshold i) (write_threshold i) (read_disabled i).
Definition with_read_threshold (t : Z) (i : SocketInner) : SocketInner :=
  mkSocketInner (data i) (datagram_len i) t (write_threshold i) (read_disabled i).
Definition with_write_threshold (t : Z) (i : SocketInner) : SocketInner :=
  mkSocketInner (data i) (datagram_len i) (read_threshold i) t (read_disabled i).
Definition with_read_disabled (b : bool) (i : SocketInner) : SocketInner :=
  mkSocketInner (data i) (datagram_len i) (read_threshold i) (write_threshold i) b.

(** ** Buffers *)

Definition write_datagram (d : list Z) (i : SocketInner) : ZxResult Z * SocketInner :=
  if is_empty d then (Err ZxError.INVALID_ARGS, i)
  else (Ok (zlen d), with_datagrams (data i ++ d) (datagram_len i ++ [zlen d]) i).

Definition write_stream (d : list Z) (i : SocketInner) : ZxResult Z * SocketInner :=
  (Ok (zlen d), with_data (data i ++ d) i).

(** The part of [write_data] that fills the buffer of a socket with flags [fl]. *)
Definition write_buffer (fl : Z) (d : list Z) (i : SocketInner) : ZxResult Z * SocketInner :=
  let curr_size := zlen (data i) in
  let rest_size := SOCKET_SIZE -u curr_size in
  if rest_size =? 0 then (Err ZxError.SHOULD_WAIT, i)
  else
    let write_size := Z.min (zlen d) rest_size in
    if contains fl SocketFlags.DATAGRAM then
      if SOCKET_SIZE <? zlen d then (Err ZxError.OUT_OF_RANGE, i)
      else if rest_size <? zlen d then (Err ZxError.SHOULD_WAIT, i)
      else write_datagram (ztake write_size d) i
    else write_stream (ztake write_size d) i.

(** Reads return the caller's buffer as well. *)
Definition read_datagram (buf : list Z) (peek : bool) (i : SocketInner) :
    ZxResult Z * list Z * SocketInner :=
  if is_empty buf then (Ok 0, buf, i)
  else match datagram_len i with
  | [] => (Panic, buf, i)
  | len :: rest =>
      let read_size := Z.min (zlen buf) len in
      if peek then (Ok read_size, overwrite buf (ztake read_size (data i)), i)
      else (Ok read_size, overwrite buf (ztake read_size (ztake len (data i))),
            with_datagrams (zdrop len (data i)) rest i)
  end.

Definition read_stream (buf : list Z) (peek : bool) (i : SocketInner) :
    ZxResult Z * list Z * SocketInner :=
  let read_size := Z.min (zlen buf) (zlen (data i)) in
  if peek then (Ok read_size, overwrite buf (ztake read_size (data i)), i)
  else (Ok read_size, overwrite buf (ztake read_size (data i)), with_data (zdrop read_size (data i)) i).

(** The part of [read] that empties the buffer. *)
Definition read_buffer (fl : Z) (peek : bool) (buf : list Z) (i : SocketInner) :
    ZxResult Z * list Z * SocketInner :=
  if contains fl SocketFlags.DATAGRAM then read_datagram buf peek i else read_stream buf peek i.

(** *** What the buffers hold *)

Definition zsum (l : list Z) : Z := foldr Z.add 0 l.

Lemma zsum_app l k : zsum (l ++ k) = zsum l + zsum k.
Proof. induction l as [|x l IH]; simpl; [done|]. lia. Qed.

Record inner_ok (fl : Z) (i : SocketInner) : Prop := {
  ok_size : zlen (data i) ≤ SOCKET_SIZE;
  ok_read_threshold : 0 ≤ read_threshold i ≤ SOCKET_SIZE;
  ok_write_threshold : 0 ≤ write_threshold i ≤ SOCKET_SIZE;
  ok_datagrams : if contains fl SocketFlags.DATAGRAM
    then Forall (λ l, 0 < l) (datagram_len i) ∧ zsum (datagram_len i) = zlen (data i)
    else datagram_len i = []
}.

(** [i'] differs from [i] in its buffer only. *)
Definition same_settings (i i' : SocketInner) : Prop :=
  read_threshold i' = read_threshold i ∧ write_threshold i' = write_threshold i ∧
  read_disabled i' = read_disabled i.

Lemma rest_size_eq fl i : inner_ok fl i → SOCKET_SIZE -u zlen (data i) = SOCKET_SIZE - zlen (data i).
Proof.
  intros [Hs _ _ _]. apply wsub_small. pose proof (zlen_nonneg (data i)).
  unfold fits, SOCKET_SIZE in *. lia.
Qed.

Lemma zsum_positive l : Forall (λ x, 0 < x) l → 0 ≤ zsum l ∧ (zsum l = 0 → l = []).
Proof. induction 1 as [|x l Hx Hl [IH1 IH2]]; simpl; [done|]. split; [lia|]. lia. Qed.

(** A write appends the bytes it reports, whole if the socket is a datagram socket, or
    fails and changes nothing. *)
Lemma write_buffer_spec fl d i :
  inner_ok fl i →
  let '(r, i') := write_buffer fl d i in
  match r with
  | Ok n =>
      0 ≤ n ≤ zlen d ∧ data i' = data i ++ ztake n d ∧ same_settings i i' ∧ inner_ok fl i' ∧
      zlen (data i') = zlen (data i) + n ∧
      datagram_len i' = (if contains fl SocketFlags.DATAGRAM then datagram_len i ++ [n] else []) ∧
      if contains fl SocketFlags.DATAGRAM then n = zlen d ∧ 0 < n
      else n = Z.min (zlen d) (SOCKET_SIZE - zlen (data i))
  | Err _ => i' = i
  | Panic => False
  end.
Proof.
  intros Hok. pose proof (rest_size_eq fl i Hok) as Hr. destruct Hok as [Hs Hrt Hwt Hd].
  pose proof (zlen_nonneg (data i)). pose proof (zlen_nonneg d).
  unfold write_buffer, write_datagram, write_stream. rewrite Hr.
  destruct (Z.eqb_spec (SOCKET_SIZE - zlen (data i)) 0) as [|Hz]; [done|].
  set (n := Z.min (zlen d) (SOCKET_SIZE - zlen (data i))).
  assert (zlen (ztake n d) = n) as Hn by (rewrite zlen_ztake; lia).
  destruct (contains fl SocketFlags.DATAGRAM) eqn:Hfl.
  - destruct (Z.ltb_spec SOCKET_SIZE (zlen d)); [done|].
    destruct (Z.ltb_spec (SOCKET_SIZE - zlen (data i)) (zlen d)); [done|].
    rewrite is_empty_zlen, Hn. destruct (Z.eqb_spec n 0) as [|Hn0]; [done|].
    assert (zlen (data i ++ ztake n d) = zlen (data i) + n) as Hl by (rewrite zlen_app; lia).
    destruct Hd as [Hd1 Hd2].
    split_and!; simpl; [lia..|done|done| |done|done|lia|lia]. split; simpl; [lia|done|done|].
    rewrite Hfl. split.
    + apply Forall_app. split; [done|]. apply Forall_singleton. lia.
    + rewrite zsum_app. simpl. lia.
  - rewrite Hn. assert (zlen (data i ++ ztake n d) = zlen (data i) + n) as Hl by (rewrite zlen_app; lia).
    split_and!; simpl; [lia..|done|done| |done|done|done]. split; simpl; [lia|done|done|].
    by rewrite Hfl.
Qed.

(** A read of a non-empty socket succeeds: it returns a prefix of the buffer and, unless
    it peeks, removes it; a datagram read removes the whole first datagram. *)
Lemma read_buffer_spec fl peek buf i :
  inner_ok fl i → data i ≠ [] →
  let '(r, buf', i') := read_buffer fl peek buf i in
  ∃ n k, r = Ok n ∧ 0 ≤ n ≤ k ∧ k ≤ zlen (data i) ∧ n ≤ zlen buf ∧
    zlen buf' = zlen buf ∧ ztake n buf' = ztake n (data i) ∧ same_settings i i' ∧ inner_ok fl i' ∧
    (if peek || (n =? 0) then i' = i
     else data i' = zdrop k (data i) ∧
          if contains fl SocketFlags.DATAGRAM
          then datagram_len i = k :: datagram_len i' ∧ n = Z.min (zlen buf) k
          else k = n).
Proof.
  intros Hok Hne. pose proof (zlen_nonneg (data i)) as Hp. pose proof (zlen_nonneg buf) as Hb.
  unfold read_buffer. destruct (contains fl SocketFlags.DATAGRAM) eqn:Hfl.
  - unfold read_datagram. rewrite is_empty_zlen. destruct (Z.eqb_spec (zlen buf) 0) as [E|E].
    { exists 0, 0. rewrite orb_true_r. split_and!; [done|lia..|done|done|done|done|done]. }
    pose proof (ok_datagrams _ _ Hok) as Hd. rewrite Hfl in Hd. destruct Hd as [Hd1 Hd2].
    destruct (datagram_len i) as [|len rest] eqn:El; simpl in Hd2.
    { by apply symmetry, zlen_0 in Hd2. }
    apply Forall_cons in Hd1 as [Hlen Hrest]. destruct (zsum_positive _ Hrest) as [Hz _].
    set (n := Z.min (zlen buf) len).
    assert (zlen (ztake n (data i)) = n) as Hn by (rewrite zlen_ztake; lia).
    assert (ztake n (ztake len (data i)) = ztake n (data i)) as Ett.
    { unfold ztake. rewrite take_take. f_equal. lia. }
    assert (∀ src, zlen src = n → zlen (overwrite buf src) = zlen buf ∧ ztake n (overwrite buf src) = src) as Hov.
    { intros src Hsrc. unfold zlen in *. rewrite length_overwrite by lia. split; [done|].
      unfold overwrite. rewrite ztake_app by (unfold zlen; lia). apply ztake_all. unfold zlen. lia. }
    destruct (Hov _ Hn) as [Ho1 Ho2]. rewrite Ett.
    assert ((n =? 0) = false) as En by (apply Z.eqb_neq; lia).
    destruct peek; exists n, len; rewrite ?En; simpl.
    + split_and!; [done|lia..|done|done|done|done|done].
    + split_and!; [done|lia..|done|done|done| |done|done|done].
      split; simpl; [rewrite zlen_zdrop by lia; pose proof (ok_size _ _ Hok); lia|apply Hok|apply Hok|].
      rewrite Hfl. split; [done|]. rewrite zlen_zdrop by lia. lia.
  - unfold read_stream. set (n := Z.min (zlen buf) (zlen (data i))).
    assert (zlen (ztake n (data i)) = n) as Hn by (rewrite zlen_ztake; lia).
    assert (zlen (overwrite buf (ztake n (data i))) = zlen buf ∧
      ztake n (overwrite buf (ztake n (data i))) = ztake n (data i)) as [Ho1 Ho2].
    { unfold zlen in *. rewrite length_overwrite by lia. split; [done|].
      unfold overwrite. rewrite ztake_app by (unfold zlen; lia). apply ztake_all. unfold zlen. lia. }
    pose proof (ok_datagrams _ _ Hok) as Hd. rewrite Hfl in Hd.
    destruct peek; exists n, n; simpl; (split_and!; [done|lia..|done|done|done| |]); try done.
    + split; simpl; [rewrite zlen_zdrop by lia; pose proof (ok_size _ _ Hok); lia|apply Hok|apply Hok|].
      by rewrite Hfl.
    + destruct (Z.eqb_spec n 0) as [->|]; [|done]. by destruct i.
Qed.

(** The datagrams a buffer holds. *)
Fixpoint split_lens (lens d : list Z) : list (list Z) :=
  match lens with
  | [] => []
  | l :: lens => ztake l d :: split_lens lens (zdrop l d)
  end.

Lemma split_lens_app lens d b :
  Forall (λ l, 0 < l) lens → zsum lens = zlen d →
  split_lens (lens ++ [zlen b]) (d ++ b) = split_lens lens d ++ [b].
Proof.
  revert d. induction lens as [|l lens IH]; intros d Hpos Hsum; simpl in *.
  - apply symmetry, zlen_0 in Hsum as ->. simpl. by rewrite ztake_all.
  - apply Forall_cons in Hpos as [Hl Hpos]. destruct (zsum_positive _ Hpos) as [Hz _].
    rewrite ztake_app by lia. f_equal.
    assert (zdrop l (d ++ b) = zdrop l d ++ b) as ->.
    { unfold zdrop. apply drop_app_le. unfold zlen in *. lia. }
    apply IH; [done|]. rewrite zlen_zdrop by lia. lia.
Qed.

(** ** Endpoints *)

Section socket.
Context {W : Type}.

Record Socket := mkSocket { base : KObjectBase W; flags : Z; inner : SocketInner }.

#[export] Instance socket_base : HasBase Socket W := {|
  base_of := base;
  set_base b c := mkSocket b (flags c) (inner c);
  base_set_base b c := eq_refl
|}.

Abbreviation sockets := (pair_of Socket * W)%type.

Definition with_inner (i : SocketInner) (c : Socket) : Socket := mkSocket (base c) (flags c) i.

(** [self.inner.lock()] *)
Definition inner_at (s : side) (st : sockets) : SocketInner :=
  match get s (fst st) with Some c => inner c | None => inner_default end.

(** [Socket::create], the two object ids given. *)
Definition create (id0 id1 options : Z) (w : W) : ZxResult sockets :=
  let? fl := ok_or (from_bits SocketFlags.all options) ZxError.INVALID_ARGS in
  if negb (flag_is_empty (flag_remove fl SocketFlags.CREATE_MASK)) then Err ZxError.INVALID_ARGS
  else
    let starting_signals := Signal.WRITABLE in
    Ok (mkPair (Some (mkSocket (with_signal id0 starting_signals) fl inner_default))
               (Some (mkSocket (with_signal id1 starting_signals) fl inner_default)), w).

Definition flag_when (c : bool) (f : Z) : Z := if c then f else 0.

(** [write_data], called on the receiving endpoint [s]. *)
Definition write_data (s : side) (d : list Z) (st : sockets) : ZxResult Z * sockets :=
  match get s (fst st) with
  | None => (Panic, st)
  | Some c =>
      let was_empty := zlen (data (inner c)) =? 0 in
      let '(r, i) := write_buffer (flags c) d (inner c) in
      let st := update_end s (with_inner i) st in
      match r with
      | Ok actual_count =>
          let set := Z.lor (flag_when was_empty Signal.READABLE)
            (flag_when ((0 <? read_threshold i) && (read_threshold i <=? zlen (data i)))
                       Signal.SOCKET_READ_THRESHOLD) in
          (Ok actual_count, signal_if (0 <? actual_count) s 0 set st)
      | _ => (r, st)
      end
  end.

Definition write (s : side) (d : list Z) (st : sockets) : ZxResult Z * sockets :=
  match get s (fst st) with
  | None => (Panic, st)
  | Some me =>
      if contains (signal (base me)) Signal.SOCKET_WRITE_DISABLED then (Err ZxError.BAD_STATE, st)
      else match get (other s) (fst st) with
      | None => (Err ZxError.PEER_CLOSED, st)
      | Some _ =>
          let '(r, st) := write_data (other s) d st in
          match r with
          | Ok actual_count =>
              let peer_rest_size := SOCKET_SIZE -u zlen (data (inner_at (other s) st)) in
              let threshold := write_threshold (inner_at s st) in
              let clear := Z.lor (flag_when (peer_rest_size =? 0) Signal.WRITABLE)
                (flag_when ((0 <? threshold) && (peer_rest_size <? threshold))
                           Signal.SOCKET_WRITE_THRESHOLD) in
              (Ok actual_count, signal_if (0 <? actual_count) s clear 0 st)
          | _ => (r, st)
          end
      end
  end.

Definition write_size (s : side) (count : Z) (st : sockets) : ZxResult Z :=
  if u32_max <? count then Err ZxError.INVALID_ARGS
  else match get s (fst st) with
  | None => Panic
  | Some me =>
      if contains (signal (base me)) Signal.SOCKET_WRITE_DISABLED then Err ZxError.BAD_STATE
      else match get (other s) (fst st) with
      | None => Err ZxError.PEER_CLOSED
      | Some peer =>
          let rest_size := SOCKET_SIZE -u zlen (data (inner peer)) in
          if rest_size =? 0 then Err ZxError.SHOULD_WAIT
          else if contains (flags me) SocketFlags.DATAGRAM then
            if SOCKET_SIZE <? count then Err ZxError.OUT_OF_RANGE
            else if rest_size <? count then Err ZxError.SHOULD_WAIT
            else Ok count
          else Ok (Z.min count rest_size)
      end
  end.

Definition read (s : side) (peek : bool) (buf : list Z) (st : sockets) :
    ZxResult Z * list Z * sockets :=
  match get s (fst st) with
  | None => (Panic, buf, st)
  | Some me =>
      let curr_size := zlen (data (inner me)) in
      if curr_size =? 0 then
        match get (other s) (fst st) with
        | None => (Err ZxError.PEER_CLOSED, buf, st)
        | Some _ =>
            (Err (if read_disabled (inner me) then ZxError.BAD_STATE else ZxError.SHOULD_WAIT), buf, st)
        end
      else
        let was_full := curr_size =? SOCKET_SIZE in
        let '(r, buf, i) := read_buffer (flags me) peek buf (inner me) in
        let st := update_end s (with_inner i) st in
        match r with
        | Ok actual_count =>
            let moved := negb peek && (0 <? actual_count) in
            let clear := Z.lor
              (flag_when ((0 <? read_threshold i) && (zlen (data i) <? read_threshold i))
                         Signal.SOCKET_READ_THRESHOLD)
              (flag_when (is_empty (data i)) Signal.READABLE) in
            let st := signal_if moved s clear 0 st in
            let threshold := write_threshold (inner_at (other s) st) in
            let set := Z.lor
              (flag_when ((0 <? threshold) && (threshold <=? SOCKET_SIZE -u zlen (data i)))
                         Signal.SOCKET_WRITE_THRESHOLD)
              (flag_when was_full Signal.WRITABLE) in
            (Ok actual_count, buf, signal_if moved (other s) 0 set st)
        | _ => (r, buf, st)
        end
  end.

Record SocketInfo := mkSocketInfo {
  options : Z;
  rx_buf_max : Z;
  rx_buf_size : Z;
  rx_buf_available : Z;
  tx_buf_max : Z;
  tx_buf_size : Z
}.

Definition get_info (s : side) (st : sockets) : ZxResult SocketInfo :=
  match get s (fst st) with
  | None => Panic
  | Some me =>
      let self_size := zlen (data (inner me)) in
      let available :=
        if contains (flags me) SocketFlags.DATAGRAM then
          match datagram_len (inner me) with l :: _ => l | [] => 0 end
        else self_size in
      let '(tx_max, tx_size) :=
        match get (other s) (fst st) with
        | Some peer => (SOCKET_SIZE, zlen (data (inner peer)))
        | None => (0, 0)
        end in
      Ok (mkSocketInfo (flags me) SOCKET_SIZE self_size available tx_max tx_size)
  end.

Definition shutdown_self (s : side) (read write : bool) (st : sockets) : sockets :=
  let i := inner_at s st in
  let st := if read then update_end s (with_inner (with_read_disabled true i)) st else st in
  let set := Z.lor (flag_when read Signal.SOCKET_PEER_WRITE_DISABLED)
                   (flag_when write Signal.SOCKET_WRITE_DISABLED) in
  let clear := flag_when write Signal.WRITABLE in
  signal_if true s clear set st.

Definition shutdown (s : side) (read write : bool) (st : sockets) : sockets :=
  let st := shutdown_self s read write st in
  match get (other s) (fst st) with
  | Some _ => shutdown_self (other s) (negb read) (negb write) st
  | None => st
  end.

(** Disable or enable writing at [s]: the writer's signals change, and the other
    endpoint learns that its peer does not write. *)
Definition disable_writes (s : side) (disabled : bool) (st : sockets) : sockets :=
  if disabled then signal_if true s Signal.WRITABLE Signal.SOCKET_WRITE_DISABLED st
  else signal_if true s Signal.SOCKET_WRITE_DISABLED Signal.WRITABLE st.
Definition note_disabled (s : side) (disabled : bool) (st : sockets) : sockets :=
  if disabled then signal_if true s 0 Signal.SOCKET_PEER_WRITE_DISABLED st
  else signal_if true s Signal.SOCKET_PEER_WRITE_DISABLED 0 st.

(** The receiving endpoint still holds bytes its peer can no longer follow up on. *)
Definition blocks_enable (c : Socket) : bool :=
  contains (signal (base c)) Signal.SOCKET_PEER_WRITE_DISABLED && negb (is_empty (data (inner c))).

Definition set_disposition (s : side) (disposition peer_disposition : option bool)
    (st : sockets) : ZxResult unit * sockets :=
  match get s (fst st) with
  | None => (Panic, st)
  | Some me =>
      let peer := get (other s) (fst st) in
      if match disposition, peer with Some false, Some peer => blocks_enable peer | _, _ => false end
      then (Err ZxError.BAD_STATE, st)
      else if match peer_disposition with Some false => blocks_enable me | _ => false end
      then (Err ZxError.BAD_STATE, st)
      else
        let st := match disposition with
          | Some disabled =>
              let st := disable_writes s disabled st in
              match peer with
              | Some _ =>
                  let i := with_read_disabled disabled (inner_at (other s) st) in
                  note_disabled (other s) disabled (update_end (other s) (with_inner i) st)
              | None => st
              end
          | None => st
          end in
        let st := match peer_disposition with
          | Some disabled =>
              let i := with_read_disabled disabled (inner_at s st) in
              let st := update_end s (with_inner i) st in
              match peer with
              | Some _ => note_disabled s disabled (disable_writes (other s) disabled st)
              | None => st
              end
          | None => st
          end in
        (Ok tt, st)
  end.

Definition set_read_threshold (s : side) (threshold : Z) (st : sockets) : ZxResult unit * sockets :=
  if SOCKET_SIZE <? threshold then (Err ZxError.INVALID_ARGS, st)
  else
    let i := with_read_threshold threshold (inner_at s st) in
    let st := update_end s (with_inner i) st in
    (Ok tt,
     if threshold =? 0 then signal_if true s Signal.SOCKET_READ_THRESHOLD 0 st
     else if threshold <=? zlen (data i) then signal_if true s 0 Signal.SOCKET_READ_THRESHOLD st
     else signal_if true s Signal.SOCKET_READ_THRESHOLD 0 st).

Definition set_write_threshold (s : side) (threshold : Z) (st : sockets) : ZxResult unit * sockets :=
  match get (other s) (fst st) with
  | None => (Err ZxError.PEER_CLOSED, st)
  | Some peer =>
      if SOCKET_SIZE <? threshold then (Err ZxError.INVALID_ARGS, st)
      else
        let i := with_write_threshold threshold (inner_at s st) in
        let st := update_end s (with_inner i) st in
        (Ok tt,
         if threshold =? 0 then signal_if true s Signal.SOCKET_WRITE_THRESHOLD 0 st
         else if threshold <=? SOCKET_SIZE -u zlen (data (inner peer))
         then signal_if true s 0 Signal.SOCKET_WRITE_THRESHOLD st
         else signal_if true s Signal.SOCKET_WRITE_THRESHOLD 0 st)
  end.

Definition get_rx_tx_threshold (s : side) (st : sockets) : Z * Z :=
  (read_threshold (inner_at s st), write_threshold (inner_at s st)).

(** [impl Drop for Socket] *)
Definition drop_end (s : side) (st : sockets) : sockets :=
  match get s (fst st) with
  | None => st
  | Some _ =>
      let st := signal_if true (other s) Signal.WRITABLE Signal.PEER_CLOSED st in
      (put s None (fst st), snd st)
  end.

(** ** The invariant *)

(** Flags, buffer and signals of an endpoint. *)
Definition full_at (s : side) (st : sockets) : option (Z * SocketInner * Z) :=
  (λ c, (flags c, inner c, signal (base c))) <$> get s (fst st).

Lemma full_at_signal_if c s clear set st s' :
  full_at s' (signal_if c s clear set st) =
  (λ '(f, i, g), (f, i, if c && bool_decide (s' = s) then changed g clear set else g)) <$> full_at s' st.
Proof.
  pose proof (sig_at_signal_if c s clear set st s') as Hs.
  pose proof (core_at_signal_if (λ c : Socket, (flags c, inner c)) c s clear set st s' ltac:(done)) as Hc.
  unfold sig_at, core_at, full_at in *.
  destruct (get s' (fst (signal_if c s clear set st))), (get s' (fst st)); simpl in *; congruence.
Qed.

Lemma full_at_with_inner s i st s' :
  full_at s' (update_end s (with_inner i) st) =
  (λ '(f, i0, g), (f, if bool_decide (s' = s) then i else i0, g)) <$> full_at s' st.
Proof.
  pose proof (core_at_update_end (λ c : Socket, (flags c, inner c, signal (base c))) s (with_inner i) st s') as Hc.
  unfold core_at, full_at in *. rewrite Hc. destruct (get s' (fst st)); simpl; [|done].
  by case_bool_decide.
Qed.

Lemma full_at_get s st c :
  get s (fst st) = Some c → full_at s st = Some (flags c, inner c, signal (base c)).
Proof. intros Hc. unfold full_at. by rewrite Hc. Qed.

Lemma full_at_None s st : get s (fst st) = None → full_at s st = None.
Proof. intros Hc. unfold full_at. by rewrite Hc. Qed.

Lemma inner_at_full s st : inner_at s st =
  match full_at s st with Some (_, i, _) => i | None => inner_default end.
Proof. unfold inner_at, full_at. by destruct (get s (fst st)). Qed.

Lemma full_at_drop s st s' :
  full_at s' (put s None (fst st), snd st) = if bool_decide (s' = s) then None else full_at s' st.
Proof.
  unfold full_at. simpl. rewrite get_put. case_bool_decide as E1.
  - by rewrite decide_True.
  - by rewrite decide_False.
Qed.

(** What the signals [g] of an endpoint with buffer [i] say, [peer] being the buffer of
    its peer. *)
Record sig_ok (g : Z) (i : SocketInner) (peer : option SocketInner) : Prop := {
  sig_readable : contains g Signal.READABLE = negb (is_empty (data i));
  sig_read_threshold : contains g Signal.SOCKET_READ_THRESHOLD =
    (0 <? read_threshold i) && (read_threshold i <=? zlen (data i));
  sig_peer_closed : contains g Signal.PEER_CLOSED = match peer with Some _ => false | None => true end;
  sig_write_threshold p : peer = Some p → contains g Signal.SOCKET_WRITE_THRESHOLD =
    (0 <? write_threshold i) && (write_threshold i <=? SOCKET_SIZE - zlen (data p));
  sig_writable p : peer = Some p → contains g Signal.SOCKET_WRITE_DISABLED = false →
    zlen (data p) < SOCKET_SIZE → contains g Signal.WRITABLE = true;
  sig_disabled p : peer = Some p →
    contains g Signal.SOCKET_PEER_WRITE_DISABLED = read_disabled i
}.

Definition buffer_at (s : side) (st : sockets) : option SocketInner :=
  (λ '(_, i, _), i) <$> full_at s st.

Definition socket_wf (fl : Z) (st : sockets) : Prop :=
  ∀ s f i g, full_at s st = Some (f, i, g) →
    f = fl ∧ inner_ok fl i ∧ sig_ok g i (buffer_at (other s) st).

Lemma socket_wf_intro fl s st :
  (∀ f i g, full_at s st = Some (f, i, g) →
    f = fl ∧ inner_ok fl i ∧ sig_ok g i (buffer_at (other s) st)) →
  (∀ f i g, full_at (other s) st = Some (f, i, g) →
    f = fl ∧ inner_ok fl i ∧ sig_ok g i (buffer_at s st)) →
  socket_wf fl st.
Proof.
  intros H1 H2 s' f i g Hf. destruct (side_cases s s') as [-> | ->]; [by apply H1|].
  rewrite other_involutive. by apply (H2 f i g).
Qed.

Lemma bool_decide_other (s : side) : bool_decide (other s = s) = false.
Proof. by destruct s. Qed.
Lemma bool_decide_other' (s : side) : bool_decide (s = other s) = false.
Proof. by destruct s. Qed.
Lemma bool_decide_side (s : side) : bool_decide (s = s) = true.
Proof. by destruct s. Qed.

Lemma testbit_flag_when c f k : Z.testbit (flag_when c f) k = c && Z.testbit f k.
Proof. destruct c; [done|]. apply Z.bits_0. Qed.

Create Rewrite HintDb sock.
Hint Rewrite full_at_signal_if full_at_with_inner full_at_drop bool_decide_side bool_decide_other
  bool_decide_other' @other_involutive : sock.

(** Evaluate the socket signals of a goal whose hypotheses were reverted. *)
Ltac sockbits :=
  unfold changed, flag_insert, flag_remove, Signal.READABLE, Signal.WRITABLE, Signal.PEER_CLOSED,
    Signal.SOCKET_PEER_WRITE_DISABLED, Signal.SOCKET_WRITE_DISABLED,
    Signal.SOCKET_READ_THRESHOLD, Signal.SOCKET_WRITE_THRESHOLD;
  rewrite ?contains_bit by lia;
  rewrite ?Z.lor_spec, ?Z.ldiff_spec, ?Z.lor_spec, ?testbit_flag_when, ?Z.bits_0;
  repeat match goal with
  | |- context [Z.testbit (bit ?j) ?k] =>
      let v := eval vm_compute in (Z.testbit (bit j) k) in change (Z.testbit (bit j) k) with v
  end;
  simpl; rewrite ?andb_true_r, ?andb_false_r, ?orb_true_r, ?orb_false_r; simpl;
  rewrite ?andb_true_r, ?andb_false_r, ?orb_true_r, ?orb_false_r.

Lemma sig_ok_ext g i i' p p' :
  sig_ok g i p → data i' = data i → same_settings i i' → data <$> p' = data <$> p → sig_ok g i' p'.
Proof.
  intros [H1 H2 H3 H4 H5 H6] Hd (E1 & E2 & E3) Hp.
  split; rewrite ?Hd, ?E1, ?E2, ?E3; try done.
  - rewrite H3. by destruct p, p'.
  - intros q' ->. destruct p as [q|]; [|done]. injection Hp as ->. by apply H4.
  - intros q' ->. destruct p as [q|]; [|done]. injection Hp as ->. by apply H5.
  - intros q' ->. destruct p as [q|]; [|done]. by apply (H6 q).
Qed.

(** The receiver after [n] more bytes arrived. *)
Lemma sig_ok_received g i i' p n :
  sig_ok g i p → same_settings i i' → zlen (data i') = zlen (data i) + n → 0 < n →
  sig_ok (changed g 0 (Z.lor (flag_when (zlen (data i) =? 0) Signal.READABLE)
            (flag_when ((0 <? read_threshold i') && (read_threshold i' <=? zlen (data i')))
                       Signal.SOCKET_READ_THRESHOLD))) i' p.
Proof.
  intros [H1 H2 H3 H4 H5 H6] (E1 & E2 & E3) Hl Hn. pose proof (zlen_nonneg (data i)) as Hp.
  split; rewrite ?E1, ?E2, ?E3, ?Hl, ?is_empty_zlen, ?Hl.
  - revert H1. rewrite is_empty_zlen. sockbits. intros ->. bcase; simpl; try done; lia.
  - revert H2. sockbits. intros ->. bcase; simpl; try done; lia.
  - revert H3. by sockbits.
  - revert H4. by sockbits.
  - revert H5. by sockbits.
  - revert H6. by sockbits.
Qed.

(** The sender after [n] bytes left for its peer, whose buffer is now [p']. *)
Lemma sig_ok_sent g i p p' n :
  sig_ok g i (Some p) → zlen (data p') = zlen (data p) + n → 0 < n → zlen (data p') ≤ SOCKET_SIZE →
  let rest := SOCKET_SIZE - zlen (data p') in
  sig_ok (changed g (Z.lor (flag_when (rest =? 0) Signal.WRITABLE)
            (flag_when ((0 <? write_threshold i) && (rest <? write_threshold i))
                       Signal.SOCKET_WRITE_THRESHOLD)) 0) i (Some p').
Proof.
  intros [H1 H2 H3 H4 H5 H6] Hl Hn Hs rest.
  specialize (H4 p eq_refl). specialize (H5 p eq_refl). specialize (H6 p eq_refl).
  split; try intros q [= <-].
  - revert H1. by sockbits.
  - revert H2. by sockbits.
  - revert H3. by sockbits.
  - revert H4. sockbits. intros ->. unfold rest. rewrite Hl. bcase; simpl; try done; lia.
  - revert H5. sockbits. intros Hw Hd Hq. rewrite Hw by (done || lia). unfold rest. bcase; simpl; try done; lia.
  - revert H6. by sockbits.
Qed.

(** The reader after its buffer shrank from [i] to [i']. *)
Lemma sig_ok_drained g i i' p :
  sig_ok g i p → same_settings i i' → zlen (data i') ≤ zlen (data i) → data i ≠ [] →
  sig_ok (changed g (Z.lor
            (flag_when ((0 <? read_threshold i') && (zlen (data i') <? read_threshold i'))
                       Signal.SOCKET_READ_THRESHOLD)
            (flag_when (is_empty (data i')) Signal.READABLE)) 0) i' p.
Proof.
  intros [H1 H2 H3 H4 H5 H6] (E1 & E2 & E3) Hl Hne. rewrite <-zlen_0 in Hne.
  split; rewrite ?E1, ?E2, ?E3.
  - revert H1. rewrite !is_empty_zlen. sockbits. intros ->. bcase; simpl; try done; lia.
  - revert H2. sockbits. intros ->. bcase; simpl; try done; lia.
  - revert H3. by sockbits.
  - revert H4. by sockbits.
  - revert H5. by sockbits.
  - revert H6. by sockbits.
Qed.

(** The reader's peer after the buffer it writes to shrank from [p] to [p']. *)
Lemma sig_ok_room g i p p' :
  sig_ok g i (Some p) → zlen (data p') ≤ zlen (data p) ≤ SOCKET_SIZE →
  sig_ok (changed g 0 (Z.lor
            (flag_when ((0 <? write_threshold i) && (write_threshold i <=? SOCKET_SIZE - zlen (data p')))
                       Signal.SOCKET_WRITE_THRESHOLD)
            (flag_when (zlen (data p) =? SOCKET_SIZE) Signal.WRITABLE))) i (Some p').
Proof.
  intros [H1 H2 H3 H4 H5 H6] Hl.
  specialize (H4 p eq_refl). specialize (H5 p eq_refl). specialize (H6 p eq_refl).
  split; try intros q [= <-].
  - revert H1. by sockbits.
  - revert H2. by sockbits.
  - revert H3. by sockbits.
  - revert H4. sockbits. intros ->. bcase; simpl; try done; lia.
  - revert H5. sockbits. intros Hw Hd Hq.
    destruct (Z.eqb_spec (zlen (data p)) SOCKET_SIZE); [by rewrite orb_true_r|].
    by rewrite Hw by (done || lia).
  - revert H6. by sockbits.
Qed.

Lemma buffer_at_full s st f i g : full_at s st = Some (f, i, g) → buffer_at s st = Some i.
Proof. intros Hf. unfold buffer_at. by rewrite Hf. Qed.

Lemma wf_get fl st s c :
  socket_wf fl st → get s (fst st) = Some c →
  flags c = fl ∧ inner_ok fl (inner c) ∧ sig_ok (signal (base c)) (inner c) (buffer_at (other s) st).
Proof. intros Hwf Hc. by apply (Hwf s), full_at_get. Qed.

(** What [write] does to the two endpoints. *)
Lemma sock_write_effect fl s d st me peer :
  socket_wf fl st → get s (fst st) = Some me → get (other s) (fst st) = Some peer →
  contains (signal (base me)) Signal.SOCKET_WRITE_DISABLED = false →
  let '(r, ip) := write_buffer fl d (inner peer) in
  let '(r', st') := write s d st in
  r' = r ∧
  match r with
  | Ok n =>
      full_at (other s) st' = Some (fl, ip, if 0 <? n then
        changed (signal (base peer)) 0 (Z.lor (flag_when (zlen (data (inner peer)) =? 0) Signal.READABLE)
          (flag_when ((0 <? read_threshold ip) && (read_threshold ip <=? zlen (data ip)))
                     Signal.SOCKET_READ_THRESHOLD)) else signal (base peer)) ∧
      full_at s st' = Some (fl, inner me, if 0 <? n then
        let rest := SOCKET_SIZE - zlen (data ip) in
        changed (signal (base me)) (Z.lor (flag_when (rest =? 0) Signal.WRITABLE)
            (flag_when ((0 <? write_threshold (inner me)) && (rest <? write_threshold (inner me)))
                       Signal.SOCKET_WRITE_THRESHOLD)) 0 else signal (base me))
  | _ => ∀ s', full_at s' st' = full_at s' st
  end.
Proof.
  intros Hwf Hme Hp Hd. destruct (wf_get _ _ _ _ Hwf Hme) as (Fm & _ & _).
  destruct (wf_get _ _ _ _ Hwf Hp) as (Fp & Op & _).
  pose proof (write_buffer_spec fl d (inner peer) Op) as Hb.
  unfold write, write_data. rewrite Hme, Hd, Hp, Fp.
  destruct (write_buffer fl d (inner peer)) as [r ip]. destruct r as [n|e|]; [| |done].
  - split; [done|]. destruct Hb as (_ & _ & _ & Oip & _).
    rewrite !inner_at_full. autorewrite with sock.
    rewrite (full_at_get _ _ _ Hme), (full_at_get _ _ _ Hp). simpl. autorewrite with sock.
    rewrite (rest_size_eq fl ip Oip), Fm, Fp, !andb_true_r, !andb_false_r. done.
  - split; [done|]. intros s'. subst ip. autorewrite with sock.
    destruct (side_cases s s') as [-> | ->]; rewrite ?(full_at_get _ _ _ Hme), ?(full_at_get _ _ _ Hp);
      simpl; by autorewrite with sock.
Qed.

Lemma write_refused s d st :
  match get s (fst st), get (other s) (fst st) with
  | Some me, Some _ => contains (signal (base me)) Signal.SOCKET_WRITE_DISABLED = true
  | _, _ => True
  end → snd (write s d st) = st.
Proof.
  unfold write. destruct (get s (fst st)) as [me|]; [|done].
  destruct (get (other s) (fst st)); [intros ->; done|]. by destruct (contains _ _).
Qed.

Lemma sock_write_wf fl s d st : socket_wf fl st → socket_wf fl (snd (write s d st)).
Proof.
  intros Hwf. pose proof (write_refused s d st) as Href.
  destruct (get s (fst st)) as [me|] eqn:Hme; [|by rewrite Href].
  destruct (get (other s) (fst st)) as [peer|] eqn:Hp; [|by rewrite Href].
  destruct (contains (signal (base me)) Signal.SOCKET_WRITE_DISABLED) eqn:Hd; [by rewrite Href|].
  pose proof (sock_write_effect fl s d st me peer Hwf Hme Hp Hd) as He.
  destruct (wf_get _ _ _ _ Hwf Hme) as (Fm & Om & Sm). destruct (wf_get _ _ _ _ Hwf Hp) as (Fp & Op & Sp).
  pose proof (write_buffer_spec fl d (inner peer) Op) as Hb.
  rewrite (buffer_at_full _ _ _ _ _ (full_at_get _ _ _ Hp)) in Sm.
  rewrite other_involutive, (buffer_at_full _ _ _ _ _ (full_at_get _ _ _ Hme)) in Sp.
  destruct (write_buffer fl d (inner peer)) as [r ip]. destruct (write s d st) as [r' st']. simpl.
  destruct He as [-> He]. destruct r as [n|e|]; [| |done].
  - destruct Hb as (Hn & Hdata & Hset & Oip & Hlen & _ & _). destruct He as [Ho Hs].
    pose proof (buffer_at_full _ _ _ _ _ Ho) as Bo. pose proof (buffer_at_full _ _ _ _ _ Hs) as Bs.
    assert (n ≤ 0 → data ip = data (inner peer)) as H0.
    { intros ?. rewrite Hdata. replace n with 0 by lia. apply app_nil_r. }
    apply (socket_wf_intro fl s); rewrite ?Hs, ?Ho, ?Bo, ?Bs; intros f i g [= <- <- <-];
      (split; [done|]; split; [done|]); destruct (Z.ltb_spec 0 n).
    + by eapply sig_ok_sent; [..|apply Oip].
    + eapply sig_ok_ext; [done..|]. simpl. by rewrite H0.
    + by eapply sig_ok_received.
    + by eapply sig_ok_ext; [|apply H0|..].
  - intros s' f i g. rewrite He. unfold buffer_at. rewrite He. by apply Hwf.
Qed.

(** What [read] does to the two endpoints. *)
Lemma sock_read_effect fl s peek buf st me :
  socket_wf fl st → get s (fst st) = Some me → data (inner me) ≠ [] →
  let '(r, buf', i) := read_buffer fl peek buf (inner me) in
  read s peek buf st = (r, buf', snd (read s peek buf st)) ∧
  let st' := snd (read s peek buf st) in
  ∃ n, r = Ok n ∧
  let moved := negb peek && (0 <? n) in
  full_at s st' = Some (fl, i, if moved then
      changed (signal (base me)) (Z.lor
            (flag_when ((0 <? read_threshold i) && (zlen (data i) <? read_threshold i))
                       Signal.SOCKET_READ_THRESHOLD)
            (flag_when (is_empty (data i)) Signal.READABLE)) 0 else signal (base me)) ∧
  full_at (other s) st' = (λ '(f, ip, g), (f, ip, if moved then
      changed g 0 (Z.lor
            (flag_when ((0 <? write_threshold ip) && (write_threshold ip <=? SOCKET_SIZE - zlen (data i)))
                       Signal.SOCKET_WRITE_THRESHOLD)
            (flag_when (zlen (data (inner me)) =? SOCKET_SIZE) Signal.WRITABLE)) else g)) <$>
      full_at (other s) st.
Proof.
  intros Hwf Hme Hne. destruct (wf_get _ _ _ _ Hwf Hme) as (Fm & Om & _).
  pose proof (read_buffer_spec fl peek buf (inner me) Om Hne) as Hb.
  unfold read. rewrite Hme, Fm. rewrite <-zlen_0 in Hne.
  destruct (Z.eqb_spec (zlen (data (inner me))) 0) as [|_]; [done|].
  destruct (read_buffer fl peek buf (inner me)) as [[r buf'] i].
  destruct Hb as (n & k & -> & _ & _ & _ & _ & _ & _ & Oi & _). split; [done|].
  simpl. exists n. split; [done|]. rewrite !inner_at_full. autorewrite with sock.
  rewrite (full_at_get _ _ _ Hme), (rest_size_eq fl i Oi). simpl. autorewrite with sock.
  rewrite Fm, !andb_true_r, !andb_false_r. split; [done|].
  destruct (full_at (other s) st) as [[[f ip] g]|]; simpl; [|done].
  by autorewrite with sock; rewrite ?andb_true_r, ?andb_false_r.
Qed.

Lemma read_empty s peek buf st :
  match get s (fst st) with Some me => data (inner me) = [] | None => True end →
  snd (read s peek buf st) = st ∧ snd (fst (read s peek buf st)) = buf ∧
  is_ok (fst (fst (read s peek buf st))) = false.
Proof.
  unfold read. destruct (get s (fst st)) as [me|]; [|done]. intros ->. simpl.
  by destruct (get (other s) (fst st)).
Qed.

Lemma sock_read_wf fl s peek buf st : socket_wf fl st → socket_wf fl (snd (read s peek buf st)).
Proof.
  intros Hwf. destruct (get s (fst st)) as [me|] eqn:Hme.
  2: { by destruct (read_empty s peek buf st) as [-> _]; [rewrite Hme|]. }
  destruct (decide (data (inner me) = [])) as [He|Hne].
  { by destruct (read_empty s peek buf st) as [-> _]; [rewrite Hme|]. }
  pose proof (sock_read_effect fl s peek buf st me Hwf Hme Hne) as Hef.
  destruct (wf_get _ _ _ _ Hwf Hme) as (Fm & Om & Sm).
  pose proof (read_buffer_spec fl peek buf (inner me) Om Hne) as Hb.
  destruct (read_buffer fl peek buf (inner me)) as [[r buf'] i].
  destruct Hb as (n & k & -> & Hnk & Hk & _ & _ & _ & Hset & Oi & Hi).
  destruct Hef as (_ & n' & [= <-] & Hs & Ho). set (st' := snd (read s peek buf st)) in *.
  assert (zlen (data i) ≤ zlen (data (inner me))) as Hl.
  { destruct (peek || (n =? 0)); [by rewrite Hi|]. destruct Hi as [-> _]. rewrite zlen_zdrop; lia. }
  assert (negb peek && (0 <? n) = false → i = inner me) as Hsame.
  { intros Hm. destruct peek; [done|]. simpl in *. destruct (Z.eqb_spec n 0); [done|].
    destruct (Z.ltb_spec 0 n); [done|lia]. }
  assert (data <$> buffer_at (other s) st' = data <$> buffer_at (other s) st) as Bo.
  { unfold buffer_at. rewrite Ho. by destruct (full_at (other s) st) as [[[??]?]|]. }
  apply (socket_wf_intro fl s).
  - intros f i0 g Hf. rewrite Hs in Hf. injection Hf as <- <- <-. split; [done|]. split; [done|].
    destruct (negb peek && (0 <? n)) eqn:Hm.
    + eapply sig_ok_ext; [by eapply sig_ok_drained|done..].
    + by eapply sig_ok_ext; [exact Sm|by rewrite (Hsame eq_refl)|..].
  - intros f ip g. rewrite (buffer_at_full _ _ _ _ _ Hs), Ho.
    destruct (full_at (other s) st) as [[[f0 ip0] g0]|] eqn:Hp; [|done]. simpl. intros [= <- <- <-].
    destruct (Hwf _ _ _ _ Hp) as (-> & Oip & Sp). split; [done|]. split; [done|].
    rewrite other_involutive, (buffer_at_full _ _ _ _ _ (full_at_get _ _ _ Hme)) in Sp.
    destruct (negb peek && (0 <? n)) eqn:Hm.
    + apply sig_ok_room; [done|]. split; [done|]. apply Om.
    + by rewrite (Hsame eq_refl).
Qed.

(** Changes of the disposition bits and of nothing else. *)
Lemma sig_ok_disposition g i p g' i' p' :
  sig_ok g i p → data i' = data i → read_threshold i' = read_threshold i →
  write_threshold i' = write_threshold i → data <$> p' = data <$> p →
  contains g' Signal.READABLE = contains g Signal.READABLE →
  contains g' Signal.SOCKET_READ_THRESHOLD = contains g Signal.SOCKET_READ_THRESHOLD →
  contains g' Signal.PEER_CLOSED = contains g Signal.PEER_CLOSED →
  contains g' Signal.SOCKET_WRITE_THRESHOLD = contains g Signal.SOCKET_WRITE_THRESHOLD →
  (contains g' Signal.SOCKET_WRITE_DISABLED = true ∨ contains g' Signal.WRITABLE = true ∨
   contains g' Signal.SOCKET_WRITE_DISABLED = contains g Signal.SOCKET_WRITE_DISABLED ∧
   contains g' Signal.WRITABLE = contains g Signal.WRITABLE) →
  (is_Some p → contains g Signal.SOCKET_PEER_WRITE_DISABLED = read_disabled i →
   contains g' Signal.SOCKET_PEER_WRITE_DISABLED = read_disabled i') →
  sig_ok g' i' p'.
Proof.
  intros [H1 H2 H3 H4 H5 H6] Hd E1 E2 Hp G1 G2 G3 G4 G5 G6.
  split; rewrite ?Hd, ?E1, ?E2, ?G1, ?G2, ?G3, ?G4; try done.
  - rewrite H3. by destruct p, p'.
  - intros q' ->. destruct p as [q|]; [|done]. injection Hp as ->. by apply H4.
  - intros q' -> Hwd Hq. destruct p as [q|]; [|done]. injection Hp as Hp. rewrite Hp in Hq.
    destruct G5 as [G5|[G5|[G5 G7]]]; [congruence|done|]. rewrite G7. apply (H5 q); [done| |done]. congruence.
  - intros q' ->. destruct p as [q|]; [|done]. apply G6; [done|]. by apply (H6 q).
Qed.

Lemma inner_ok_disabled fl b i : inner_ok fl i → inner_ok fl (with_read_disabled b i).
Proof. intros []. by split. Qed.

Definition writer_signals (disabled : bool) (g : Z) : Z :=
  if disabled then changed g Signal.WRITABLE Signal.SOCKET_WRITE_DISABLED
  else changed g Signal.SOCKET_WRITE_DISABLED Signal.WRITABLE.
Definition reader_signals (disabled : bool) (g : Z) : Z :=
  if disabled then changed g 0 Signal.SOCKET_PEER_WRITE_DISABLED
  else changed g Signal.SOCKET_PEER_WRITE_DISABLED 0.

Lemma full_at_disable_writes w d st s :
  full_at s (disable_writes w d st) =
  (λ '(f, i, g), (f, i, if bool_decide (s = w) then writer_signals d g else g)) <$> full_at s st.
Proof. unfold disable_writes. by destruct d; rewrite full_at_signal_if. Qed.

Lemma full_at_note_disabled r d st s :
  full_at s (note_disabled r d st) =
  (λ '(f, i, g), (f, i, if bool_decide (s = r) then reader_signals d g else g)) <$> full_at s st.
Proof. unfold note_disabled. by destruct d; rewrite full_at_signal_if. Qed.

(** Writing at [w] switched on or off, and its peer told. *)
Lemma disposition_wf fl w d st st' :
  socket_wf fl st →
  full_at w st' = (λ '(f, i, g), (f, i, writer_signals d g)) <$> full_at w st →
  full_at (other w) st' =
    (λ '(f, i, g), (f, with_read_disabled d i, reader_signals d g)) <$> full_at (other w) st →
  socket_wf fl st'.
Proof.
  intros Hwf Hw Hr.
  assert (data <$> buffer_at w st' = data <$> buffer_at w st) as Bw
    by (unfold buffer_at; rewrite Hw; by destruct (full_at w st) as [[[??]?]|]).
  assert (data <$> buffer_at (other w) st' = data <$> buffer_at (other w) st) as Br
    by (unfold buffer_at; rewrite Hr; by destruct (full_at (other w) st) as [[[??]?]|]).
  apply (socket_wf_intro fl w); intros f i g; rewrite ?Hw, ?Hr.
  - destruct (full_at w st) as [[[f0 i0] g0]|] eqn:E; [|done]. intros [= <- <- <-].
    destruct (Hwf _ _ _ _ E) as (-> & Oi & Si). split; [done|]. split; [done|].
    eapply sig_ok_disposition; [exact Si|done..| | | | | |]; unfold writer_signals; destruct d; sockbits; auto.
  - destruct (full_at (other w) st) as [[[f0 i0] g0]|] eqn:E; [|done]. intros [= <- <- <-].
    destruct (Hwf _ _ _ _ E) as (-> & Oi & Si). rewrite other_involutive in Si.
    split; [done|]. split; [by apply inner_ok_disabled|].
    eapply sig_ok_disposition; [exact Si|done..| | | | | |]; unfold reader_signals; destruct d; sockbits; auto.
Qed.

(** The same when there is no peer to tell. *)
Lemma alone_wf fl s st st' t g' :
  socket_wf fl st → full_at (other s) st = None → full_at (other s) st' = None →
  (∀ f i g, full_at s st = Some (f, i, g) → full_at s st' = Some (f, t i, g' g)) →
  (full_at s st = None → full_at s st' = None) →
  (∀ i, data (t i) = data i ∧ read_threshold (t i) = read_threshold i ∧
        write_threshold (t i) = write_threshold i ∧ datagram_len (t i) = datagram_len i) →
  (∀ g, contains (g' g) Signal.READABLE = contains g Signal.READABLE ∧
        contains (g' g) Signal.SOCKET_READ_THRESHOLD = contains g Signal.SOCKET_READ_THRESHOLD ∧
        contains (g' g) Signal.PEER_CLOSED = contains g Signal.PEER_CLOSED) →
  socket_wf fl st'.
Proof.
  intros Hwf Hn Hn' Hs Hs' Ht Hg. apply (socket_wf_intro fl s); [|by rewrite Hn'].
  destruct (full_at s st) as [[[f0 i0] g0]|] eqn:E; [|by rewrite Hs'].
  rewrite (Hs _ _ _ eq_refl). intros f i g [= <- <- <-].
  destruct (Hwf _ _ _ _ E) as (-> & [O1 O2 O3 O4] & [S1 S2 S3 _ _ _]).
  destruct (Ht i0) as (T1 & T2 & T3 & T4). destruct (Hg g0) as (G1 & G2 & G3).
  unfold buffer_at in *. rewrite Hn in S3. rewrite Hn'. split; [done|]. split.
  - split; by rewrite ?T1, ?T2, ?T3, ?T4.
  - split; rewrite ?T1, ?T2, ?T3, ?G1, ?G2, ?G3; done.
Qed.

Lemma full_at_is_None s st : full_at s st = None ↔ get s (fst st) = None.
Proof. unfold full_at. by destruct (get s (fst st)). Qed.

Hint Rewrite full_at_disable_writes full_at_note_disabled : sock.

Lemma set_disposition_wf fl s d pd st : socket_wf fl st → socket_wf fl (snd (set_disposition s d pd st)).
Proof.
  intros Hwf. unfold set_disposition. destruct (get s (fst st)) as [me|] eqn:Hme; [|done].
  destruct (match d with Some false => _ | _ => _ end); [done|].
  destruct (match pd with Some false => _ | _ => _ end); [done|]. simpl.
  set (st1 := match d with Some _ => _ | None => st end).
  assert (socket_wf fl st1 ∧ (full_at (other s) st1 = None ↔ full_at (other s) st = None)) as [Hwf1 Hn1].
  { unfold st1. destruct d as [d|]; [|done]. destruct (get (other s) (fst st)) as [peer|] eqn:Hp.
    - split.
      + apply (disposition_wf fl s d st); [done|..]; autorewrite with sock.
        * destruct (full_at s st) as [[[??]?]|]; simpl; by autorewrite with sock.
        * rewrite inner_at_full. autorewrite with sock. rewrite (full_at_get _ _ _ Hp). simpl.
          by autorewrite with sock.
      + autorewrite with sock. by destruct (full_at (other s) st) as [[[??]?]|].
    - split; [|autorewrite with sock; by destruct (full_at (other s) st) as [[[??]?]|]].
      apply (alone_wf fl s st _ id (writer_signals d)); [done|by apply full_at_None| | | |done|].
      + autorewrite with sock. by rewrite full_at_None.
      + intros f i g Hf. autorewrite with sock. rewrite Hf. simpl. by autorewrite with sock.
      + intros Hf. autorewrite with sock. by rewrite Hf.
      + intros g. unfold writer_signals. destruct d; by split_and!; sockbits. }
  destruct pd as [d'|]; [|done].
  destruct (get (other s) (fst st)) as [peer|] eqn:Hp.
  - apply (disposition_wf fl (other s) d' st1); [done|..]; autorewrite with sock.
    + destruct (full_at (other s) st1) as [[[??]?]|]; simpl; by autorewrite with sock.
    + rewrite inner_at_full. destruct (full_at s st1) as [[[??]?]|]; simpl; by autorewrite with sock.
  - assert (full_at (other s) st1 = None) as Hn by (by apply Hn1, full_at_None).
    apply (alone_wf fl s st1 _ (with_read_disabled d') id); [done|done| | | |done|done].
    + autorewrite with sock. by rewrite Hn.
    + intros f i g Hf. rewrite inner_at_full, Hf. autorewrite with sock. rewrite Hf. simpl.
      by autorewrite with sock.
    + intros Hf. autorewrite with sock. by rewrite Hf.
Qed.

Lemma full_at_shutdown_self s r w st s' :
  full_at s' (shutdown_self s r w st) =
  (λ '(f, i, g), if bool_decide (s' = s)
     then (f, if r then with_read_disabled true i else i,
           changed g (flag_when w Signal.WRITABLE)
             (Z.lor (flag_when r Signal.SOCKET_PEER_WRITE_DISABLED)
                    (flag_when w Signal.SOCKET_WRITE_DISABLED)))
     else (f, i, g)) <$> full_at s' st.
Proof.
  unfold shutdown_self. rewrite inner_at_full. destruct r; autorewrite with sock.
  - destruct (side_cases s s') as [-> | ->]; autorewrite with sock;
      destruct (full_at _ st) as [[[??]?]|]; simpl; by autorewrite with sock.
  - destruct (full_at s' st) as [[[??]?]|]; simpl; [|done]. by destruct (bool_decide (s' = s)).
Qed.

Lemma shutdown_self_wf fl s r w st : socket_wf fl st → socket_wf fl (shutdown_self s r w st).
Proof.
  intros Hwf.
  assert (∀ s', data <$> buffer_at s' (shutdown_self s r w st) = data <$> buffer_at s' st) as Hb.
  { intros s'. unfold buffer_at. rewrite full_at_shutdown_self.
    destruct (full_at s' st) as [[[??]?]|]; simpl; [|done]. destruct (bool_decide (s' = s)), r; done. }
  apply (socket_wf_intro fl s); intros f i g; rewrite full_at_shutdown_self; autorewrite with sock.
  - destruct (full_at s st) as [[[f0 i0] g0]|] eqn:E; [|done]. simpl. autorewrite with sock.
    intros [= <- <- <-]. destruct (Hwf _ _ _ _ E) as (-> & Oi & Si). split; [done|].
    split; [destruct r; [by apply inner_ok_disabled|done]|].
    eapply sig_ok_disposition; [exact Si|by destruct r..|by apply Hb| | | | | |]; destruct r, w; sockbits; auto.
  - destruct (full_at (other s) st) as [[[f0 i0] g0]|] eqn:E; [|done]. simpl. autorewrite with sock.
    intros [= <- <- <-]. destruct (Hwf _ _ _ _ E) as (-> & Oi & Si). rewrite other_involutive in Si.
    split; [done|]. split; [done|]. by eapply sig_ok_ext; [exact Si|..|apply Hb].
Qed.

Lemma shutdown_wf fl s r w st : socket_wf fl st → socket_wf fl (shutdown s r w st).
Proof.
  intros Hwf. unfold shutdown. destruct (get (other s) _); repeat apply shutdown_self_wf; done.
Qed.

(** A threshold moved: only its own bit follows. *)
Lemma threshold_wf fl s st i' st' g' :
  socket_wf fl st →
  full_at s st' = (λ '(f, i, g), (f, i', g' g)) <$> full_at s st →
  full_at (other s) st' = full_at (other s) st →
  (∀ f i g, full_at s st = Some (f, i, g) → inner_ok fl i → sig_ok g i (buffer_at (other s) st) →
     inner_ok fl i' ∧ data i' = data i ∧ sig_ok (g' g) i' (buffer_at (other s) st)) →
  socket_wf fl st'.
Proof.
  intros Hwf Hs Ho Hi. unfold socket_wf in *.
  assert (data <$> buffer_at s st' = data <$> buffer_at s st) as Bs.
  { unfold buffer_at. rewrite Hs. destruct (full_at s st) as [[[f i] g]|] eqn:E; [|done]. simpl.
    destruct (Hwf _ _ _ _ E) as (_ & Oi & Si). f_equal. by apply (Hi f i g). }
  assert (buffer_at (other s) st' = buffer_at (other s) st) as Bo by (unfold buffer_at; by rewrite Ho).
  apply (socket_wf_intro fl s); intros f i g; rewrite ?Hs, ?Ho, ?Bo.
  - destruct (full_at s st) as [[[f0 i0] g0]|] eqn:E; [|done]. intros [= <- <- <-].
    destruct (Hwf _ _ _ _ E) as (-> & Oi & Si). split; [done|].
    by destruct (Hi _ _ _ eq_refl Oi Si) as (? & _ & ?).
  - intros E. destruct (Hwf _ _ _ _ E) as (-> & Oi & Si). rewrite other_involutive in Si.
    split; [done|]. split; [done|]. by eapply sig_ok_ext; [exact Si|..].
Qed.

Lemma set_read_threshold_wf fl s t st :
  0 ≤ t → socket_wf fl st → socket_wf fl (snd (set_read_threshold s t st)).
Proof.
  intros Ht Hwf. unfold set_read_threshold. destruct (Z.ltb_spec SOCKET_SIZE t); [done|]. simpl.
  set (on := negb (t =? 0) && (t <=? zlen (data (inner_at s st)))).
  set (g' := λ g, if on then changed g 0 Signal.SOCKET_READ_THRESHOLD
                  else changed g Signal.SOCKET_READ_THRESHOLD 0).
  eapply (threshold_wf fl s st (with_read_threshold t (inner_at s st)) _ g'); [done| | |].
  - unfold g', on. destruct (t =? 0); simpl; [|destruct (t <=? zlen (data (inner_at s st)))];
      autorewrite with sock; destruct (full_at s st) as [[[??]?]|]; simpl; by autorewrite with sock.
  - destruct (t =? 0); [|destruct (t <=? _)];
      autorewrite with sock; destruct (full_at (other s) st) as [[[??]?]|]; simpl; by autorewrite with sock.
  - intros f i g Hf Oi Si. unfold g', on. rewrite inner_at_full, Hf. clear g' on.
    split; [|split; [done|]]. { destruct Oi. split; done || (simpl; lia). }
    destruct Si as [H1 H2 H3 H4 H5 H6].
    destruct (Z.eqb_spec t 0); simpl; [|destruct (Z.leb_spec t (zlen (data i)))]; split; simpl;
      match goal with
      | |- contains _ Signal.SOCKET_READ_THRESHOLD = _ => sockbits; bcase; simpl; try done; lia
      | _ => revert H1 H3 H4 H5 H6; sockbits; naive_solver
      end.
Qed.

Lemma set_write_threshold_wf fl s t st :
  0 ≤ t → socket_wf fl st → socket_wf fl (snd (set_write_threshold s t st)).
Proof.
  intros Ht Hwf. unfold set_write_threshold. destruct (get (other s) (fst st)) as [peer|] eqn:Hp; [|done].
  destruct (Z.ltb_spec SOCKET_SIZE t); [done|]. simpl.
  destruct (wf_get _ _ _ _ Hwf Hp) as (_ & Op & _). rewrite (rest_size_eq fl (inner peer) Op).
  set (on := negb (t =? 0) && (t <=? SOCKET_SIZE - zlen (data (inner peer)))).
  set (g' := λ g, if on then changed g 0 Signal.SOCKET_WRITE_THRESHOLD
                  else changed g Signal.SOCKET_WRITE_THRESHOLD 0).
  eapply (threshold_wf fl s st (with_write_threshold t (inner_at s st)) _ g'); [done| | |].
  - unfold g', on. destruct (t =? 0); simpl; [|destruct (t <=? _)];
      autorewrite with sock; destruct (full_at s st) as [[[??]?]|]; simpl; by autorewrite with sock.
  - destruct (t =? 0); [|destruct (t <=? _)];
      autorewrite with sock; destruct (full_at (other s) st) as [[[??]?]|]; simpl; by autorewrite with sock.
  - intros f i g Hf Oi Si. unfold g', on. rewrite inner_at_full, Hf. clear g' on.
    split; [|split; [done|]]. { destruct Oi. split; done || (simpl; lia). }
    rewrite (buffer_at_full _ _ _ _ _ (full_at_get _ _ _ Hp)) in *.
    destruct Si as [H1 H2 H3 H4 H5 H6].
    destruct (Z.eqb_spec t 0); simpl; [|destruct (Z.leb_spec t (SOCKET_SIZE - zlen (data (inner peer))))];
      split; simpl;
      match goal with
      | |- ∀ p, _ → contains _ Signal.SOCKET_WRITE_THRESHOLD = _ =>
          intros q [= <-]; sockbits; bcase; simpl; try done; lia
      | _ => revert H1 H2 H3 H5 H6; sockbits; naive_solver
      end.
Qed.

Lemma sock_drop_end_wf fl s st : socket_wf fl st → socket_wf fl (drop_end s st).
Proof.
  intros Hwf. unfold drop_end. destruct (get s (fst st)) as [me|] eqn:Hme; [|done].
  apply (socket_wf_intro fl s); intros f i g; unfold buffer_at; autorewrite with sock; [done|].
  destruct (full_at (other s) st) as [[[f0 i0] g0]|] eqn:E; [|done]. simpl. autorewrite with sock.
  intros [= <- <- <-]. destruct (Hwf _ _ _ _ E) as (-> & Oi & [H1 H2 H3 _ _ _]).
  split; [done|]. split; [done|]. split; try done; revert H1 H2; sockbits; done.
Qed.

Lemma sock_create_wf id0 id1 opt w st :
  create id0 id1 opt w = Ok st → socket_wf opt st ∧ (opt = 0 ∨ opt = SocketFlags.DATAGRAM).
Proof.
  unfold create. intros Hc. apply rbind_Ok in Hc as (fl & Hfl%ok_or_Ok & Hc).
  apply from_bits_Some in Hfl as [-> Hall].
  destruct (flag_is_empty (flag_remove opt SocketFlags.CREATE_MASK)) eqn:Hm; [|done].
  simpl in Hc. injection Hc as <-. split.
  - assert (inner_ok opt inner_default) as Hok.
    { split; simpl; [done|unfold SOCKET_SIZE; lia..|]. by destruct (contains opt _). }
    intros s f i g. destruct s; intros [= <- <- <-]; (split; [done|]; split; [done|]);
      split; try done; intros p [= <-]; done.
  - unfold flag_is_empty, flag_remove, SocketFlags.CREATE_MASK, SocketFlags.DATAGRAM in *.
    apply Z.eqb_eq in Hm. assert (0 ≤ opt) as Hpos.
    { destruct (Z.le_gt_cases 0 opt) as [|Hneg]; [done|].
      assert (0 ≤ Z.ldiff opt 1) as Hl by lia. apply Z.ldiff_nonneg in Hl. lia. }
    assert (opt = Z.land opt 1) as ->.
    { rewrite <-(Z.lor_ldiff_and opt 1) at 1. by rewrite Hm, Z.lor_0_l. }
    pose proof (Z.land_ones opt 1 ltac:(lia)) as Hl. change (Z.land opt 1 = opt mod 2) in Hl. rewrite Hl.
    pose proof (Z.mod_pos_bound opt 2 ltac:(lia)). lia.
Qed.

(** ** Histories *)

Inductive socket_op :=
| SWrite (s : side) (d : list Z)
| SRead (s : side) (peek : bool) (buf : list Z)
| SShutdown (s : side) (read write : bool)
| SDisposition (s : side) (disposition peer_disposition : option bool)
| SReadThreshold (s : side) (t : Z)
| SWriteThreshold (s : side) (t : Z)
| SDrop (s : side).

(** Thresholds are [usize] values. *)
Definition op_fits (op : socket_op) : Prop :=
  match op with SReadThreshold _ t | SWriteThreshold _ t => 0 ≤ t | _ => True end.

(** What return values report: bytes accepted for an endpoint, and bytes a consuming
    read handed out together with the size of the buffer it was given. *)
Inductive socket_event :=
| EvSent (s : side) (bytes : list Z)
| EvReceived (s : side) (size : Z) (bytes : list Z).

Definition socket_run (acc : sockets * list socket_event) (op : socket_op) :
    sockets * list socket_event :=
  let '(st, evs) := acc in
  match op with
  | SWrite s d =>
      let '(r, st) := write s d st in
      (st, match r with Ok n => evs ++ [EvSent (other s) (ztake n d)] | _ => evs end)
  | SRead s peek buf =>
      let '(r, buf', st) := read s peek buf st in
      (st, match r with
           | Ok n => if peek || (n =? 0) then evs else evs ++ [EvReceived s (zlen buf) (ztake n buf')]
           | _ => evs
           end)
  | SShutdown s r w => (shutdown s r w st, evs)
  | SDisposition s d pd => (snd (set_disposition s d pd st), evs)
  | SReadThreshold s t => (snd (set_read_threshold s t st), evs)
  | SWriteThreshold s t => (snd (set_write_threshold s t st), evs)
  | SDrop s => (drop_end s st, evs)
  end.

Lemma socket_run_wf fl acc op :
  op_fits op → socket_wf fl (fst acc) → socket_wf fl (fst (socket_run acc op)).
Proof.
  destruct acc as [st evs], op; simpl; intros Hop Hwf.
  - pose proof (sock_write_wf fl s d st Hwf). by destruct (write s d st).
  - pose proof (sock_read_wf fl s peek buf st Hwf). by destruct (read s peek buf st) as [[??]?].
  - by apply shutdown_wf.
  - by apply set_disposition_wf.
  - by apply set_read_threshold_wf.
  - by apply set_write_threshold_wf.
  - by apply sock_drop_end_wf.
Qed.

Definition sent (s : side) (evs : list socket_event) : list (list Z) :=
  omap (λ e, match e with EvSent s' b => if decide (s = s') then Some b else None | _ => None end) evs.
Definition received (s : side) (evs : list socket_event) : list (Z * list Z) :=
  omap (λ e, match e with EvReceived s' n b => if decide (s = s') then Some (n, b) else None | _ => None end) evs.

Lemma sent_snoc s evs e : sent s (evs ++ [e]) = sent s evs ++ sent s [e].
Proof. apply omap_app. Qed.
Lemma received_snoc s evs e : received s (evs ++ [e]) = received s evs ++ received s [e].
Proof. apply omap_app. Qed.

(** The bytes and the datagram lengths of an endpoint are changed by [write] and by a
    consuming [read] only. *)
Definition content (i : SocketInner) : list Z * list Z := (data i, datagram_len i).

Lemma content_other_ops acc op s i' :
  match op with SWrite _ _ | SRead _ _ _ => False | _ => True end →
  buffer_at s (fst (socket_run acc op)) = Some i' →
  snd (socket_run acc op) = snd acc ∧ ∃ i, buffer_at s (fst acc) = Some i ∧ content i' = content i.
Proof.
  destruct acc as [st evs]. intros Hop Hi. split; [by destruct op|].
  assert (∀ st st' : sockets, (∀ f i g, full_at s st' = Some (f, i, g) → ∃ f0 i0 g0,
    full_at s st = Some (f0, i0, g0) ∧ content i = content i0) →
    buffer_at s st' = Some i' → ∃ i, buffer_at s st = Some i ∧ content i' = content i) as Hgen.
  { intros st0 st1 Hc. unfold buffer_at. destruct (full_at s st1) as [[[f i] g]|]; [|done].
    intros [= <-]. destruct (Hc _ _ _ eq_refl) as (f0 & i0 & g0 & -> & Heq). by exists i0. }
  revert Hi. apply Hgen. intros f i g.
  destruct op as [| |s0 r w|s0 d pd|s0 t|s0 t|s0]; try done; simpl;
    destruct (side_cases s0 s) as [-> | ->];
    destruct (full_at _ st) as [[[f0 i0] g0]|] eqn:E.
  all: try unfold shutdown; try unfold set_disposition; try unfold set_read_threshold;
    try unfold set_write_threshold; try unfold drop_end.
  all: repeat case_match; simpl; rewrite ?full_at_shutdown_self; autorewrite with sock;
    rewrite ?inner_at_full; autorewrite with sock; rewrite ?E; simpl; autorewrite with sock; simpl;
    intros Hf; repeat case_match; simplify_eq/=; by do 3 eexists.
Qed.

Lemma buffer_at_Some s st i : buffer_at s st = Some i → ∃ f g, full_at s st = Some (f, i, g).
Proof. unfold buffer_at. destruct (full_at s st) as [[[f i0] g]|]; [|done]. intros [= <-]. by do 2 eexists. Qed.

Lemma write_content fl s d st s' i' :
  socket_wf fl st →
  let '(r, st') := write s d st in
  buffer_at s' st' = Some i' →
  ∃ i, buffer_at s' st = Some i ∧ inner_ok fl i ∧
  match r with
  | Ok n =>
      if decide (s' = other s) then
        data i' = data i ++ ztake n d ∧ zlen (ztake n d) = n ∧
        datagram_len i' = (if contains fl SocketFlags.DATAGRAM then datagram_len i ++ [n] else [])
      else content i' = content i
  | _ => content i' = content i
  end.
Proof.
  intros Hwf.
  assert (∀ r (st' : sockets), is_ok r = false → (∀ s', full_at s' st' = full_at s' st) → buffer_at s' st' = Some i' →
    ∃ i, buffer_at s' st = Some i ∧ inner_ok fl i ∧
      match r : ZxResult Z with Ok n => False | _ => content i' = content i end) as Hsame.
  { intros r st' Hr Hf Hb. exists i'. unfold buffer_at in *. rewrite Hf in Hb. split; [done|].
    apply buffer_at_Some in Hb as (f & g & Hfull). destruct (Hwf _ _ _ _ Hfull) as (_ & ? & _).
    split; [done|]. by destruct r. }
  destruct (get s (fst st)) as [me|] eqn:Hme.
  2: { unfold write. rewrite Hme. by apply (Hsame Panic). }
  destruct (get (other s) (fst st)) as [peer|] eqn:Hp.
  2: { unfold write. rewrite Hme, Hp. destruct (contains _ _); by apply (Hsame (Err ZxError.BAD_STATE)). }
  destruct (contains (signal (base me)) Signal.SOCKET_WRITE_DISABLED) eqn:Hd.
  { unfold write. rewrite Hme, Hd. by apply (Hsame (Err ZxError.BAD_STATE)). }
  pose proof (sock_write_effect fl s d st me peer Hwf Hme Hp Hd) as He.
  destruct (wf_get _ _ _ _ Hwf Hme) as (_ & Om & _). destruct (wf_get _ _ _ _ Hwf Hp) as (_ & Op & _).
  pose proof (write_buffer_spec fl d (inner peer) Op) as Hb.
  destruct (write_buffer fl d (inner peer)) as [r ip]. destruct (write s d st) as [r' st'].
  destruct He as [-> He]. destruct r as [n|e|]; [|by apply (Hsame (Err e))|done].
  destruct Hb as (Hn & Hdata & _ & _ & _ & Hlens & _). destruct He as [Ho Hs].
  destruct (side_cases s s') as [-> | ->]; intros Hi'.
  - rewrite (buffer_at_full _ _ _ _ _ Hs) in Hi'. injection Hi' as <-. exists (inner me).
    rewrite (buffer_at_full _ _ _ _ _ (full_at_get _ _ _ Hme)), decide_False by (by destruct s). done.
  - rewrite (buffer_at_full _ _ _ _ _ Ho) in Hi'. injection Hi' as <-. exists (inner peer).
    rewrite (buffer_at_full _ _ _ _ _ (full_at_get _ _ _ Hp)), decide_True by done.
    split_and!; [done|done|done| |done]. rewrite zlen_ztake; lia.
Qed.

Lemma read_content fl s peek buf st s' i' :
  socket_wf fl st →
  let '(r, buf', st') := read s peek buf st in
  buffer_at s' st' = Some i' →
  ∃ i, buffer_at s' st = Some i ∧ inner_ok fl i ∧
  match r with
  | Ok n =>
      if negb (peek || (n =? 0)) && bool_decide (s' = s) then
        ∃ k, 0 < n ≤ k ∧ k ≤ zlen (data i) ∧ ztake n buf' = ztake n (data i) ∧ data i' = zdrop k (data i) ∧
          if contains fl SocketFlags.DATAGRAM
          then datagram_len i = k :: datagram_len i' ∧ n = Z.min (zlen buf) k else k = n
      else content i' = content i
  | _ => content i' = content i
  end.
Proof.
  intros Hwf.
  assert (∀ r (st' : sockets), is_ok r = false → st' = st → buffer_at s' st' = Some i' →
    ∃ i, buffer_at s' st = Some i ∧ inner_ok fl i ∧
      match r : ZxResult Z with Ok n => False | _ => content i' = content i end) as Hsame.
  { intros r st' Hr -> Hb. exists i'. split; [done|].
    apply buffer_at_Some in Hb as (f & g & Hfull). destruct (Hwf _ _ _ _ Hfull) as (_ & ? & _).
    split; [done|]. by destruct r. }
  destruct (get s (fst st)) as [me|] eqn:Hme.
  2: { unfold read. rewrite Hme. by apply (Hsame Panic). }
  destruct (decide (data (inner me) = [])) as [He|Hne].
  { unfold read. rewrite Hme, He. simpl. destruct (get (other s) (fst st)); by apply (Hsame (Err ZxError.BAD_STATE)). }
  pose proof (sock_read_effect fl s peek buf st me Hwf Hme Hne) as Hef.
  destruct (wf_get _ _ _ _ Hwf Hme) as (Fm & Om & Sm).
  pose proof (read_buffer_spec fl peek buf (inner me) Om Hne) as Hb.
  destruct (read_buffer fl peek buf (inner me)) as [[r buf'] i].
  destruct Hb as (n & k & -> & Hnk & Hk & _ & _ & Hpre & _ & Oi & Hi).
  destruct Hef as (Heq & n' & [= <-] & Hs & Ho).
  set (st' := snd (read s peek buf st)) in *. clearbody st'. rewrite Heq. intros Hi'.
  destruct (side_cases s s') as [-> | ->].
  - rewrite (buffer_at_full _ _ _ _ _ Hs) in Hi'. injection Hi' as <-. exists (inner me).
    rewrite (buffer_at_full _ _ _ _ _ (full_at_get _ _ _ Hme)), bool_decide_side, andb_true_r.
    split_and!; [done..|]. destruct (Z.eqb_spec n 0); [by rewrite orb_true_r in *; subst|].
    rewrite orb_false_r in *. destruct peek; simpl in *; [by subst|]. exists k. destruct Hi.
    split_and!; [lia|lia|lia|done..].
  - rewrite bool_decide_other, andb_false_r. unfold buffer_at in *. rewrite Ho in Hi'.
    destruct (full_at (other s) st) as [[[f0 i0] g0]|] eqn:E; [|done]. simpl in *. injection Hi' as <-.
    exists i0. split; [done|]. by destruct (Hwf _ _ _ _ E) as (_ & ? & _).
Qed.

Definition socket_history (id0 id1 opt : Z) (w : W) (ops : list socket_op) :
    ZxResult (sockets * list socket_event) :=
  rmap (λ st, foldl socket_run (st, []) ops) (create id0 id1 opt w).

#[local] Arguments write_buffer : simpl never.

(** Bytes of a stream socket: sent is received followed by the buffer. *)
Definition stream_inv (acc : sockets * list socket_event) : Prop :=
  ∀ s i, buffer_at s (fst acc) = Some i →
    concat (sent s (snd acc)) = concat (map snd (received s (snd acc))) ++ data i.

(** Datagrams: sent are those consumed, each read cut to the reader's buffer, followed by
    those in the buffer. *)
Definition datagram_inv (acc : sockets * list socket_event) : Prop :=
  ∀ s i, buffer_at s (fst acc) = Some i →
    ∃ consumed, sent s (snd acc) = consumed ++ split_lens (datagram_len i) (data i) ∧
      Forall2 (λ '(size, bytes) m, bytes = ztake size m) (received s (snd acc)) consumed.

Lemma stream_step fl acc op :
  contains fl SocketFlags.DATAGRAM = false → socket_wf fl (fst acc) →
  stream_inv acc → stream_inv (socket_run acc op).
Proof.
  intros Hfl Hwf Hinv s i' Hi'. destruct acc as [st evs].
  pose proof (λ H, content_other_ops (st, evs) op s i' H Hi') as Hoth.
  destruct op as [s0 d|s0 peek buf|s0 r w|s0 d pd|s0 t|s0 t|s0];
    try (destruct (Hoth I) as (-> & i & Hi & [= -> _]); by apply (Hinv s i)).
  - simpl in *. pose proof (write_content fl s0 d st s i' Hwf) as Hw. destruct (write s0 d st) as [r st'].
    destruct (Hw Hi') as (i & Hi & _ & Hc). destruct r as [n| |];
      [|injection Hc as -> _; by apply (Hinv s i)..].
    pose proof (Hinv s i Hi) as Hp. simpl in *.
    rewrite sent_snoc, received_snoc, map_app, !concat_app, Hp. simpl.
    destruct (decide (s = other s0)); simpl; rewrite ?app_nil_r.
    + destruct Hc as (-> & _). by rewrite app_assoc.
    + by injection Hc as -> _.
  - simpl in *. pose proof (read_content fl s0 peek buf st s i' Hwf) as Hr.
    destruct (read s0 peek buf st) as [[r buf'] st']. simpl in Hi'.
    destruct (Hr Hi') as (i & Hi & _ & Hc). destruct r as [n| |];
      [|injection Hc as -> _; by apply (Hinv s i)..].
    simpl. destruct (peek || (n =? 0)); simpl in *.
    { injection Hc as -> _. by apply (Hinv s i). }
    pose proof (Hinv s i Hi) as Hp. simpl in *.
    rewrite sent_snoc, received_snoc, map_app, !concat_app, Hp. simpl.
    destruct (decide (s = s0)) as [->|]; simpl; rewrite ?app_nil_r.
    + rewrite bool_decide_side, Hfl in Hc. destruct Hc as (k & _ & _ & -> & -> & ->).
      by rewrite <-app_assoc, ztake_zdrop.
    + rewrite bool_decide_false in Hc by done. by injection Hc as -> _.
Qed.

Lemma datagram_step fl acc op :
  contains fl SocketFlags.DATAGRAM = true → socket_wf fl (fst acc) →
  datagram_inv acc → datagram_inv (socket_run acc op).
Proof.
  intros Hfl Hwf Hinv s i' Hi'. destruct acc as [st evs].
  pose proof (λ H, content_other_ops (st, evs) op s i' H Hi') as Hoth.
  destruct op as [s0 d|s0 peek buf|s0 r w|s0 d pd|s0 t|s0 t|s0];
    try (destruct (Hoth I) as (-> & i & Hi & [= -> ->]); by apply (Hinv s i)).
  - simpl in *. pose proof (write_content fl s0 d st s i' Hwf) as Hw. destruct (write s0 d st) as [r st'].
    destruct (Hw Hi') as (i & Hi & Oi & Hc). destruct r as [n| |];
      [|injection Hc as -> ->; by apply (Hinv s i)..].
    destruct (Hinv s i Hi) as (cs & Hs & Hr). simpl in *. exists cs.
    rewrite sent_snoc, received_snoc. simpl. rewrite app_nil_r. split; [|done].
    destruct (decide (s = other s0)); simpl; rewrite ?app_nil_r.
    + destruct Hc as (-> & Hn & ->). rewrite Hfl. pose proof (ok_datagrams _ _ Oi) as Hd.
      rewrite Hfl in Hd. destruct Hd. rewrite <-Hn at 2. rewrite split_lens_app by done.
      by rewrite Hs, app_assoc.
    + by injection Hc as -> ->.
  - simpl in *. pose proof (read_content fl s0 peek buf st s i' Hwf) as Hrd.
    destruct (read s0 peek buf st) as [[r buf'] st']. simpl in Hi'.
    destruct (Hrd Hi') as (i & Hi & _ & Hc). destruct r as [n| |];
      [|injection Hc as -> ->; by apply (Hinv s i)..].
    simpl. destruct (peek || (n =? 0)); simpl in *.
    { injection Hc as -> ->. by apply (Hinv s i). }
    destruct (Hinv s i Hi) as (cs & Hs & Hr). simpl in *.
    rewrite sent_snoc, received_snoc. simpl. rewrite app_nil_r.
    destruct (decide (s = s0)) as [->|]; simpl; rewrite ?app_nil_r.
    + rewrite bool_decide_side, Hfl in Hc. destruct Hc as (k & Hnk & Hk & Hpre & -> & Hl & Hn).
      exists (cs ++ [ztake k (data i)]). rewrite Hl in Hs. simpl in Hs. split.
      * by rewrite Hs, <-app_assoc.
      * apply Forall2_app; [done|]. constructor; [|done]. rewrite Hpre. unfold ztake.
        rewrite take_take. rewrite Hn. destruct (Z.min_spec (zlen buf) k) as [[? ->]|[? ->]].
        -- f_equal. lia.
        -- f_equal. lia.
    + rewrite bool_decide_false in Hc by done. injection Hc as -> ->. by exists cs.
Qed.

Lemma socket_history_wf id0 id1 opt w ops acc :
  Forall op_fits ops → socket_history id0 id1 opt w ops = Ok acc →
  socket_wf opt (fst acc) ∧ (opt = 0 ∧ stream_inv acc ∨ opt = SocketFlags.DATAGRAM ∧ datagram_inv acc).
Proof.
  unfold socket_history, rmap. intros Hf Hc. apply rbind_Ok in Hc as (st & Hst & [= <-]).
  pose proof (sock_create_wf _ _ _ _ _ Hst) as [Hwf Hopt].
  assert (stream_inv (st, []) ∧ datagram_inv (st, [])) as [Hsi Hdi].
  { unfold create in Hst. apply rbind_Ok in Hst as (fl & _ & Hst). destruct (negb _); [done|].
    injection Hst as <-. split; intros [] i [= <-]; [done|done|by exists []|by exists []]. }
  induction ops as [|op ops IH] using rev_ind; simpl; [naive_solver|].
  apply Forall_app in Hf as [Hf Hop]. rewrite Forall_singleton in Hop.
  rewrite foldl_app. simpl. destruct (IH Hf) as [Hwf' [[-> Hinv]|[-> Hinv]]].
  - split; [by apply socket_run_wf|]. left. split; [done|]. by apply (stream_step 0).
  - split; [by apply socket_run_wf|]. right. split; [done|]. by apply (datagram_step SocketFlags.DATAGRAM).
Qed.

(** C12. A stream socket is a reliable byte stream: over every history of writes, reads,
    peeks, shutdowns, disposition and threshold changes and closures, the bytes reported
    as accepted for an endpoint are the bytes reported as read from it followed by its
    buffer, which never exceeds the socket size. *)
Theorem socket_stream_fifo id0 id1 w ops st evs s c :
  Forall op_fits ops → socket_history id0 id1 0 w ops = Ok (st, evs) →
  get s (fst st) = Some c →
  concat (sent s evs) = concat (map snd (received s evs)) ++ data (inner c) ∧
  zlen (data (inner c)) ≤ SOCKET_SIZE.
Proof.
  intros Hf Hh Hc. destruct (socket_history_wf _ _ _ _ _ _ Hf Hh) as [Hwf [[_ Hinv]|[? _]]]; [|done].
  split.
  - by apply Hinv, (buffer_at_full _ _ _ _ _ (full_at_get _ _ _ Hc)).
  - by apply (wf_get _ _ _ _ Hwf Hc).
Qed.

(** A datagram socket preserves message boundaries: over every such history the
    datagrams accepted for an endpoint are those consumed by reads, in order, followed by
    those still queued; a read hands out its datagram, cut to the size of the buffer it was
    given, and discards the rest; and a read of a non-empty endpoint never panics. *)
Theorem socket_datagram_fifo id0 id1 w ops st evs s c :
  Forall op_fits ops → socket_history id0 id1 SocketFlags.DATAGRAM w ops = Ok (st, evs) →
  get s (fst st) = Some c →
  (∃ consumed,
     sent s evs = consumed ++ split_lens (datagram_len (inner c)) (data (inner c)) ∧
     Forall2 (λ '(size, bytes) m, bytes = ztake size m) (received s evs) consumed) ∧
  ∀ peek buf, fst (fst (read s peek buf st)) ≠ Panic.
Proof.
  intros Hf Hh Hc. destruct (socket_history_wf _ _ _ _ _ _ Hf Hh) as [Hwf [[? _]|[_ Hinv]]]; [done|].
  split.
  - by apply Hinv, (buffer_at_full _ _ _ _ _ (full_at_get _ _ _ Hc)).
  - intros peek buf. destruct (decide (data (inner c) = [])) as [He|Hne].
    + unfold read. rewrite Hc, He. simpl. by destruct (get (other s) (fst st)).
    + pose proof (sock_read_effect _ s peek buf st c Hwf Hc Hne) as Hr.
      destruct (read_buffer _ peek buf (inner c)) as [[r buf'] i].
      destruct Hr as (-> & n & -> & _). done.
Qed.

(** In every reachable state the signals of a socket endpoint are right: [READABLE]
    and [SOCKET_READ_THRESHOLD] describe its buffer, [SOCKET_WRITE_THRESHOLD] the room left
    at its peer, [PEER_CLOSED] whether the peer is gone, [SOCKET_PEER_WRITE_DISABLED]
    whether it may still expect bytes; and an endpoint that may write and whose peer has
    room shows [WRITABLE]. *)
Theorem socket_signals id0 id1 opt w ops st evs s c :
  Forall op_fits ops → socket_history id0 id1 opt w ops = Ok (st, evs) →
  get s (fst st) = Some c →
  let g := signal (base c) in let i := inner c in
  contains g Signal.READABLE = negb (is_empty (data i)) ∧
  contains g Signal.SOCKET_READ_THRESHOLD =
    (0 <? read_threshold i) && (read_threshold i <=? zlen (data i)) ∧
  match get (other s) (fst st) with
  | None => contains g Signal.PEER_CLOSED = true
  | Some peer =>
      contains g Signal.PEER_CLOSED = false ∧
      contains g Signal.SOCKET_WRITE_THRESHOLD =
        (0 <? write_threshold i) && (write_threshold i <=? SOCKET_SIZE - zlen (data (inner peer))) ∧
      contains g Signal.SOCKET_PEER_WRITE_DISABLED = read_disabled i ∧
      (contains g Signal.SOCKET_WRITE_DISABLED = false → zlen (data (inner peer)) < SOCKET_SIZE →
       contains g Signal.WRITABLE = true)
  end.
Proof.
  intros Hf Hh Hc g i. destruct (socket_history_wf _ _ _ _ _ _ Hf Hh) as [Hwf _].
  destruct (wf_get _ _ _ _ Hwf Hc) as (_ & _ & [H1 H2 H3 H4 H5 H6]).
  split; [done|]. split; [done|]. unfold buffer_at in *.
  destruct (get (other s) (fst st)) as [peer|] eqn:Hp.
  - simpl in *. rewrite (full_at_get _ _ _ Hp) in *. simpl in *.
    split_and!; [done|by apply H4|by apply (H6 (inner peer))|by apply H5].
  - simpl in *. by rewrite (full_at_None _ _ Hp) in *.
Qed.

(** [shutdown] with both directions given disables the endpoint's own writes but not
    its peer's: the peer still writes into the endpoint that was shut down for reading. *)
Theorem socket_shutdown_both id0 id1 w st d :
  create id0 id1 0 w = Ok st → 0 < zlen d ≤ SOCKET_SIZE →
  let st1 := shutdown E1 true true st in
  fst (write E1 d st1) = Err ZxError.BAD_STATE ∧
  fst (write E0 d st1) = Ok (zlen d) ∧
  buffer_at E1 (snd (write E0 d st1)) =
    Some (mkSocketInner d [] 0 0 true).
Proof.
  intros Hst Hd st1. destruct (sock_create_wf _ _ _ _ _ Hst) as [Hwf _].
  apply (shutdown_wf 0 E1 true true) in Hwf. fold st1 in Hwf.
  change (@Ok ZxError.t _ (mkPair (Some (mkSocket (with_signal id0 Signal.WRITABLE) 0 inner_default))
    (Some (mkSocket (with_signal id1 Signal.WRITABLE) 0 inner_default)), w) = Ok st) in Hst.
  injection Hst as Hst. split; [unfold st1; by rewrite <-Hst|].
  assert (write_buffer 0 d (mkSocketInner [] [] 0 0 true) =
    (Ok (zlen d), mkSocketInner d [] 0 0 true)) as Hb.
  { unfold write_buffer, write_stream. simpl. change (SOCKET_SIZE -u zlen []) with SOCKET_SIZE.
    by rewrite Z.min_l, ztake_all by lia. }
  pose proof (sock_write_effect 0 E0 d st1 (mkSocket (with_signal id0 Signal.WRITABLE) 0 inner_default)
    (mkSocket (with_signal id1 48) 0 (mkSocketInner [] [] 0 0 true)) Hwf) as He.
  unfold st1 in He at 1 2. rewrite <-Hst in He. specialize (He eq_refl eq_refl eq_refl).
  simpl inner in He. rewrite Hb in He.
  destruct (write E0 d st1) as [r st']. destruct He as (-> & Ho & _).
  split; [done|]. by apply (buffer_at_full _ _ _ _ _ Ho).
Qed.
End socket.
Arguments Socket : clear implicits.

(** ** Concrete sockets *)

Definition demo_ops : list socket_op :=
  [SWrite E0 [1; 2; 3; 4]; SWrite E0 [5; 6]; SRead E1 false [0; 0; 0]; SReadThreshold E1 2].

Lemma demo_ops_fit : Forall op_fits demo_ops.
Proof. repeat constructor; simpl; lia. Qed.

Lemma socket_stream_fifo_witness :
  ∃ st evs c, socket_history 1024 1025 0 tt demo_ops = Ok (st, evs) ∧ get E1 (fst st) = Some c ∧
    concat (sent E1 evs) = [1; 2; 3] ++ data (inner c) ∧ data (inner c) = [4; 5; 6].
Proof.
  pose proof (socket_stream_fifo 1024 1025 tt demo_ops) as Hs.
  destruct (socket_history 1024 1025 0 tt demo_ops) as [[st evs]| |] eqn:E; [|by vm_compute in E..].
  specialize (Hs st evs E1). vm_compute in E. injection E as <- <-.
  do 3 eexists. split; [done|]. split; [done|].
  destruct (Hs _ demo_ops_fit eq_refl eq_refl) as [-> _]. done.
Defined.

Lemma socket_datagram_fifo_witness :
  ∃ st evs c, socket_history 1024 1025 SocketFlags.DATAGRAM tt demo_ops = Ok (st, evs) ∧
    get E1 (fst st) = Some c ∧ received E1 evs = [(3, [1; 2; 3])] ∧
    ∃ m, sent E1 evs = [m] ++ split_lens (datagram_len (inner c)) (data (inner c)).
Proof.
  pose proof (socket_datagram_fifo 1024 1025 tt demo_ops) as Hs.
  destruct (socket_history 1024 1025 SocketFlags.DATAGRAM tt demo_ops) as [[st evs]| |] eqn:E;
    [|by vm_compute in E..].
  specialize (Hs st evs E1). vm_compute in E. injection E as <- <-.
  do 3 eexists. split; [done|]. split; [done|]. split; [done|].
  destruct (Hs _ demo_ops_fit eq_refl eq_refl) as [(cs & Hc & Hf) _].
  apply Forall2_length in Hf. destruct cs as [|m [|? ?]]; [done| |done]. by exists m.
Defined.

Lemma socket_signals_witness :
  ∃ st evs c, socket_history 1024 1025 0 tt demo_ops = Ok (st, evs) ∧ get E1 (fst st) = Some c ∧
    contains (signal (base c)) Signal.SOCKET_READ_THRESHOLD = true.
Proof.
  pose proof (socket_signals 1024 1025 0 tt demo_ops) as Hs.
  destruct (socket_history 1024 1025 0 tt demo_ops) as [[st evs]| |] eqn:E; [|by vm_compute in E..].
  specialize (Hs st evs E1). vm_compute in E. injection E as <- <-.
  do 3 eexists. split; [done|]. split; [done|].
  by destruct (Hs _ demo_ops_fit eq_refl eq_refl) as (_ & -> & _).
Defined.

Lemma socket_shutdown_both_witness :
  ∃ st, create 1024 1025 0 tt = Ok st ∧
    fst (write E0 [7] (shutdown E1 true true st)) = Ok 1.
Proof.
  pose proof (socket_shutdown_both 1024 1025 tt) as Hs.
  destruct (create 1024 1025 0 tt) as [st| |] eqn:E; [|by vm_compute in E..].
  exists st. split; [done|].
  by destruct (Hs st [7] eq_refl ltac:(vm_compute; split; [done|congruence])) as (_ & H & _).
Defined.
