(* ===== verification/Transfer.v ===== *)
(** * Handles sent over channels ([zircon-syscall/src/channel.rs])

    The system calls on channels take handles from the table of the sender, put them into
    messages, and add those of a message to the table of the receiver.  The system is the handle
    tables of the processes and the channels; it is shown that handles spread only as their rights
    allow, whatever the processes do, and what a write sends and takes, for every request. *)

From S2P Require Import Prelude Errors KObject Rights Handles Peer Channel.
From stdpp Require Import options.
#[local] Open Scope Z_scope.

Abbreviation message := (MessagePacket Handle).
Abbreviation chan := (channels unit Handle).

(** ** Taking handles from the sender *)
Definition ZX_HANDLE_OP_MOVE : Z := 0.
Definition ZX_HANDLE_OP_DUP : Z := 1.
Record HandleDisposition := mkDisposition { op_ : Z; handle : HandleValue; type_ : Z; drights : Z; dresult : Z }.
Definition set_result (e : Z) (d : HandleDisposition) : HandleDisposition := mkDisposition (op_ d) (handle d) (type_ d) (drights d) e.

(** The array of the caller: what reading [len] entries from an index on gives. *)
Inductive HandleBuffer := Values (mem : nat → nat → ZxResult (list HandleValue)) | Dispositions (mem : nat → nat → ZxResult (list HandleDisposition)).
Definition read_chunk (b : HandleBuffer) (offset len : nat) : ZxResult (list HandleDisposition) :=
  match b with
  | Values mem => rmap (map (λ h, mkDisposition ZX_HANDLE_OP_MOVE h 0 Rights.SAME_RIGHTS 0)) (mem offset len)
  | Dispositions mem => mem offset len
  end.

Definition MAX_MESSAGE_BYTES : Z := 65536.
Definition MAX_MESSAGE_HANDLES : nat := 64.
(** The handles of an oversized request are closed, as far as they can be read. *)
Definition close_chunk (ds : list HandleDisposition) (t : HandleTable) : HandleTable :=
  foldl (λ t d, if negb (op_ d =? ZX_HANDLE_OP_DUP) then (remove_handle (handle d) t).2 else t) t ds.
Fixpoint close_chunks (fuel : nat) (b : HandleBuffer) (offset count : nat) (t : HandleTable) : HandleTable :=
  match fuel with
  | O => t
  | S fuel =>
      if (offset <? count)%nat then
        match read_chunk b offset (Nat.min (count - offset) MAX_MESSAGE_HANDLES) with
        | Ok chunk => close_chunks fuel b (offset + MAX_MESSAGE_HANDLES) count (close_chunk chunk t)
        | _ => t
        end
      else t
  end.
Definition take_one (d : HandleDisposition) (t : HandleTable) : ZxResult Handle * HandleTable :=
  if op_ d =? ZX_HANDLE_OP_DUP then (let? (o, r) := get_dyn_object_and_rights (handle d) t in Ok (mkHandle o r), t)
  else remove_handle (handle d) t.
Fixpoint take_all (ds : list HandleDisposition) (t : HandleTable) : list (ZxResult Handle) * HandleTable :=
  match ds with
  | [] => ([], t)
  | d :: ds => let '(h, t) := take_one d t in let '(hs, t) := take_all ds t in (h :: hs, t)
  end.
(** [HandleBuffer::take]; a [TakenHandles] is the dispositions with the handles. *)
Definition take (b : HandleBuffer) (count : nat) (t : HandleTable) : ZxResult (list (HandleDisposition * ZxResult Handle)) * HandleTable :=
  if (MAX_MESSAGE_HANDLES <? count)%nat then (Err ZxError.OUT_OF_RANGE, close_chunks count b 0 count t)
  else match read_chunk b 0 count with
  | Ok ds => let '(hs, t) := take_all ds t in (Ok (zip ds hs), t)
  | Err e => (Err e, t)
  | Panic => (Panic, t)
  end.

Definition handle_check (d : HandleDisposition) (o : KernelObject) (src_rights : Z) (handle_value : HandleValue) : ZxResult unit :=
  if negb (contains src_rights Rights.TRANSFER) then Err ZxError.ACCESS_DENIED
  else if handle d =? handle_value then Err ZxError.NOT_SUPPORTED
  else
    let? wrong := (if type_ d =? 0 then Ok false else let? ty := obj_type o in Ok (negb (type_ d =? ty))) in
    if wrong then Err ZxError.WRONG_TYPE
    else if negb (op_ d =? ZX_HANDLE_OP_MOVE) && negb (op_ d =? ZX_HANDLE_OP_DUP)
         || negb (drights d =? Rights.SAME_RIGHTS) && negb (Z.ldiff (drights d) src_rights =? 0) then Err ZxError.INVALID_ARGS
    else if (op_ d =? ZX_HANDLE_OP_DUP) && negb (contains src_rights Rights.DUPLICATE) then Err ZxError.ACCESS_DENIED
    else Ok tt.
Definition finish_one (channel : HandleValue) (x : HandleDisposition * ZxResult Handle) : ZxResult Handle :=
  let? h := x.2 in
  let? _ := handle_check x.1 (object h) (rights h) channel in
  if negb (drights x.1 =? Rights.SAME_RIGHTS) then let? r := ok_or (from_bits Rights.all (drights x.1)) ZxError.INVALID_ARGS in Ok (mkHandle (object h) r)
  else Ok h.
(** The handles that are fine, and the first error. *)
Fixpoint finish_all (channel : HandleValue) (xs : list (HandleDisposition * ZxResult Handle)) : ZxResult (list Handle) :=
  match xs with
  | [] => Ok []
  | x :: xs =>
      match finish_one channel x with
      | Ok h => rmap (cons h) (finish_all channel xs)
      | Err e => match finish_all channel xs with Panic => Panic | _ => Err e end
      | Panic => Panic
      end
  end.
(** [TakenHandles::finish]; [out]: what writing the results back gives, for dispositions. *)
Definition finish (b : HandleBuffer) (channel : HandleValue) (out : option ZxError.t) (xs : list (HandleDisposition * ZxResult Handle)) : ZxResult (list Handle) :=
  match finish_all channel xs, b, out with
  | Err _, Dispositions _, Some e' => Err e'
  | r, _, _ => r
  end.

(** ** The bytes of a message *)
Definition USE_IOVEC : Z := 2.
Definition MAX_IOVECS : Z := 8192.
(** [capacity], [reserved] and what reading the buffer gives. *)
Record ChannelIoVec := mkIoVec { capacity : Z; reserved : Z; iov_data : ZxResult (list Z) }.
Fixpoint gather (data : list Z) (vecs : list ChannelIoVec) : ZxResult (list Z) :=
  match vecs with
  | [] => Ok data
  | v :: vecs =>
      if negb (reserved v =? 0) then Err ZxError.INVALID_ARGS
      else if MAX_MESSAGE_BYTES <? zlen data + capacity v then Err ZxError.OUT_OF_RANGE
      else let? d := iov_data v in gather (data ++ d) vecs
  end.
Definition read_channel_iovecs (count : Z) (vecs : ZxResult (list ChannelIoVec)) : ZxResult (list Z) :=
  if MAX_IOVECS <? count then Err ZxError.OUT_OF_RANGE else let? vecs := vecs in gather [] vecs.
(** [bytes], [vecs]: what reading [num_bytes] bytes or as many vectors gives. *)
Record Source := mkSource { num_bytes : Z; bytes : ZxResult (list Z); vecs : ZxResult (list ChannelIoVec) }.
Definition read_data (options : Z) (src : Source) : ZxResult (list Z) :=
  if negb (Z.land options USE_IOVEC =? 0) then read_channel_iovecs (num_bytes src) (vecs src)
  else if MAX_MESSAGE_BYTES <? num_bytes src then Err ZxError.OUT_OF_RANGE
  else bytes src.

Definition prepare_message (channel options : Z) (src : Source) (b : HandleBuffer) (num_handles : nat) (is_call : bool) (out : option ZxError.t) (t : HandleTable) :
    ZxResult (KernelObject * message) * HandleTable :=
  let object := get_object_with_rights "Channel" channel (if is_call then Z.lor Rights.READ Rights.WRITE else Rights.WRITE) t in
  match take b num_handles t with
  | (Ok xs, t) =>
      (if negb (Z.ldiff options USE_IOVEC =? 0) then Err ZxError.INVALID_ARGS
       else
         let? o := object in
         let? d := read_data options src in
         if is_call && (zlen d <? 4) then Err ZxError.INVALID_ARGS
         else let? hs := finish b channel out xs in Ok (o, mkMessagePacket d hs), t)
  | (Err e, t) => (Err e, t)
  | (Panic, t) => (Panic, t)
  end.

(** ** Handing handles to the receiver *)
(** What the checks of and the writes to the buffers of the receiver give. *)
Record Buffers := mkBuffers {
  cap_bytes : Z; cap_handles : Z;
  check_actual : ZxResult unit; write_actual : ZxResult unit;
  check_bytes : Z → ZxResult unit; check_handles : Z → ZxResult unit;
  write_bytes : ZxResult unit; write_handles : ZxResult unit
}.
(** [write_received_handles] *)
Definition write_received_handles (hs : list Handle) (is_etc : bool) (u : Buffers) (t : HandleTable) : ZxResult unit * HandleTable :=
  match (if is_etc then foldr (λ h r, let? _ := r in let? _ := get_handle_info h in Ok tt) (Ok tt) hs else Ok tt) with
  | Ok _ => let '(_, t) := add_handles hs t in (write_handles u, t)
  | Err e => (Err e, t)
  | Panic => (Panic, t)
  end.
Definition too_small (m : message) (u : Buffers) : bool := (cap_bytes u <? wrap 32 (zlen (data m))) || (cap_handles u <? wrap 32 (zlen (msg_handles m))).
Definition check_front (u : Buffers) (m : message) : ZxResult unit :=
  let? _ := check_actual u in
  if too_small m u then let? _ := write_actual u in Err ZxError.BUFFER_TOO_SMALL
  else let? _ := check_bytes u (zlen (data m)) in check_handles u (zlen (msg_handles m)).
(** The end of [sys_channel_read]: the message has left the queue. *)
Definition receive (m : message) (is_etc : bool) (u : Buffers) (t : HandleTable) : ZxResult unit * HandleTable :=
  match (let? _ := check_actual u in let? _ := write_actual u in
         if too_small m u then Err ZxError.BUFFER_TOO_SMALL
         else let? _ := check_bytes u (zlen (data m)) in let? _ := check_handles u (zlen (msg_handles m)) in write_bytes u) with
  | Ok _ => write_received_handles (msg_handles m) is_etc u t
  | Err e => (Err e, t)
  | Panic => (Panic, t)
  end.
(** [ReplyBuffer::write] *)
Definition reply_write (m : message) (is_etc : bool) (u : Buffers) (t : HandleTable) : ZxResult unit * HandleTable :=
  match (let? _ := check_bytes u (cap_bytes u) in let? _ := check_handles u (cap_handles u) in let? _ := check_actual u in let? _ := write_actual u in
         if (cap_bytes u <? zlen (data m)) || (cap_handles u <? zlen (msg_handles m)) then Err ZxError.BUFFER_TOO_SMALL else write_bytes u) with
  | Ok _ => write_received_handles (msg_handles m) is_etc u t
  | Err e => (Err e, t)
  | Panic => (Panic, t)
  end.

(** ** The system *)
(** A call that waits for its reply: the process, the channel and the oneshot. *)
Record pending_call := mkPending { pc_pid : Z; pc_chan : nat; pc_shot : nat }.
(** The tables of the processes, the channels, where the end with an object id is, the calls. *)
Record system := mkSystem { tables : gmap Z HandleTable; chans : list chan; places : gmap Z (nat * side); calls : list (option pending_call); next_koid : Z }.
Definition set_tables (x : gmap Z HandleTable) (s : system) : system := mkSystem x (chans s) (places s) (calls s) (next_koid s).
Definition set_chans (x : list chan) (s : system) : system := mkSystem (tables s) x (places s) (calls s) (next_koid s).
Definition set_calls (x : list (option pending_call)) (s : system) : system := mkSystem (tables s) (chans s) (places s) x (next_koid s).
Definition set_table (pid : Z) (t : HandleTable) (s : system) : system := set_tables (<[pid := t]> (tables s)) s.
Definition set_chan (k : nat) (c : chan) (s : system) : system := set_chans (<[k := c]> (chans s)) s.

(** The channel and the end behind an object. *)
Definition place_of (o : KernelObject) (s : system) : option (nat * side * chan) :=
  match places s !! obj_id o with Some (k, d) => match chans s !! k with Some c => Some (k, d, c) | None => None end | None => None end.

Definition sys_channel_create (pid options : Z) (out : option UserError.t) (s : system) : ZxResult unit * system :=
  if negb (options =? 0) then (Err ZxError.INVALID_ARGS, s)
  else match tables s !! pid with
  | None => (Panic, s)
  | Some t =>
      let id0 := next_koid s in let id1 := next_koid s + 1 in
      let '(_, t) := add_handle (mkHandle (mkKernelObject id0 "Channel" id1) Rights.DEFAULT_CHANNEL) t in
      let '(_, t) := add_handle (mkHandle (mkKernelObject id1 "Channel" id0) Rights.DEFAULT_CHANNEL) t in
      (write_out out, mkSystem (<[pid := t]> (tables s)) (chans s ++ [create id0 id1 tt])
         (<[id1 := (length (chans s), E1)]> (<[id0 := (length (chans s), E0)]> (places s))) (calls s) (next_koid s + 2))
  end.
(** [sys_channel_write] with an array of values, [sys_channel_write_etc] with dispositions. *)
Definition sys_channel_write (pid channel options : Z) (src : Source) (b : HandleBuffer) (num_handles : nat) (out : option ZxError.t) (s : system) : ZxResult unit * system :=
  match tables s !! pid with
  | None => (Panic, s)
  | Some t =>
      match prepare_message channel options src b num_handles false out t with
      | (Ok (o, m), t) =>
          let s := set_table pid t s in
          match place_of o s with Some (k, d, c) => let '(r, c) := write d m c in (r, set_chan k c s) | None => (Panic, s) end
      | (Err e, t) => (Err e, set_table pid t s)
      | (Panic, t) => (Panic, set_table pid t s)
      end
  end.
(** [u] is seen by the checks under the lock of the channel, [u'] after it. *)
Definition sys_channel_read (pid channel options : Z) (is_etc : bool) (u u' : Buffers) (s : system) : ZxResult unit * system :=
  match tables s !! pid with
  | None => (Panic, s)
  | Some t =>
      match get_object_with_rights "Channel" channel Rights.READ t with
      | Ok o =>
          if negb (Z.ldiff options 1 =? 0) then (Err ZxError.NOT_SUPPORTED, s)
          else match place_of o s with
          | Some (k, d, c) =>
              match (if Z.land options 1 =? 0 then check_and_read d (check_front u) c else read d c) with
              | (Ok m, c) => let '(r, t) := receive m is_etc u' t in (r, set_table pid t (set_chan k c s))
              | (Err e, c) => (Err e, set_chan k c s)
              | (Panic, c) => (Panic, set_chan k c s)
              end
          | None => (Panic, s)
          end
      | Err e => (Err e, s)
      | Panic => (Panic, s)
      end
  end.
(** [sys_channel_call_noretry] up to its wait, and after the reply has come. *)
Definition sys_channel_call (pid channel options : Z) (src : Source) (b : HandleBuffer) (num_handles : nat) (out : option ZxError.t) (s : system) : ZxResult unit * system :=
  match tables s !! pid with
  | None => (Panic, s)
  | Some t =>
      match prepare_message channel options src b num_handles true out t with
      | (Ok (o, m), t) =>
          let s := set_table pid t s in
          match place_of o s with
          | Some (k, d, c) =>
              match call d m c with
              | (Ok i, c) => (Ok tt, set_calls (calls s ++ [Some (mkPending pid k i)]) (set_chan k c s))
              | (Err e, c) => (Err e, set_chan k c s)
              | (Panic, c) => (Panic, set_chan k c s)
              end
          | None => (Panic, s)
          end
      | (Err e, t) => (Err e, set_table pid t s)
      | (Panic, t) => (Panic, set_table pid t s)
      end
  end.
(** The receiver of a reply has been used up or dropped. *)
Definition forget (i : nat) (c : chan) : chan := mkChannels (ends c) (world c) (delete i (oneshots c)) (next_oneshot c).
Definition call_finish (n : nat) (is_etc : bool) (u : Buffers) (s : system) : option (ZxResult unit * system) :=
  match calls s !! n with
  | Some (Some p) =>
      match chans s !! pc_chan p, tables s !! pc_pid p with
      | Some c, Some t =>
          match await_reply (pc_shot p) c with
          | Some r =>
              let s := set_calls (<[n := None]> (calls s)) (set_chan (pc_chan p) (forget (pc_shot p) c) s) in
              Some (match r with
                    | Ok m => let '(r, t) := reply_write m is_etc u t in (r, set_table (pc_pid p) t s)
                    | Err e => (Err e, s)
                    | Panic => (Panic, s)
                    end)
          | None => None
          end
      | _, _ => None
      end
  | _ => None
  end.
(** The deadline passes or the thread is killed: the future is dropped. *)
Definition call_abandon (n : nat) (s : system) : system :=
  match calls s !! n with
  | Some (Some p) =>
      match chans s !! pc_chan p with
      | Some c => set_calls (<[n := None]> (calls s)) (set_chan (pc_chan p) (forget (pc_shot p) c) s)
      | None => s
      end
  | _ => s
  end.

(** *** Where handles are *)
Definition table_handles (t : HandleTable) : list Handle := (map_to_list (handles t)).*2.*1.
Definition queue_handles (c : option (Channel unit Handle)) : list Handle := match c with Some c => mjoin (msg_handles <$> recv_queue c) | None => [] end.
Definition shot_handles (x : Oneshot Handle) : list Handle := match x with Sent (Ok m) => msg_handles m | _ => [] end.
Definition chan_handles (c : chan) : list Handle := queue_handles (end0 (ends c)) ++ queue_handles (end1 (ends c)) ++ mjoin (shot_handles <$> (map_to_list (oneshots c)).*2).
Definition all_handles (s : system) : list Handle := mjoin (table_handles <$> (map_to_list (tables s)).*2) ++ mjoin (chan_handles <$> chans s).

(** [impl Drop for Channel], which runs when no handle for the end is left. *)
Definition drop_channel (id : Z) (s : system) : system :=
  if bool_decide (id ∈ (λ h, obj_id (object h)) <$> all_handles s) then s
  else match places s !! id with
  | Some (k, d) => match chans s !! k with Some c => set_chan k (drop_end d c) s | None => s end
  | None => s
  end.

(** ** Histories *)
Inductive op :=
| Spawn (pid : Z) | ExitProcess (pid : Z) | Create (pid options : Z) (out : option UserError.t)
| Write (pid channel options : Z) (src : Source) (b : HandleBuffer) (n : nat) (out : option ZxError.t)
| Read (pid channel options : Z) (is_etc : bool) (u u' : Buffers)
| Call (pid channel options : Z) (src : Source) (b : HandleBuffer) (n : nat) (out : option ZxError.t)
| Finish (n : nat) (is_etc : bool) (u : Buffers) | Abandon (n : nat) | DropChannel (id : Z)
| Duplicate (pid : Z) (v : HandleValue) (r : Z) (out : option UserError.t) | Close (pid : Z) (v : HandleValue) | CloseMany (pid : Z) (vs : list HandleValue).
Definition on_table (pid : Z) (f : HandleTable → HandleTable) (s : system) : system := match tables s !! pid with Some t => set_table pid (f t) s | None => s end.
Definition exec (o : op) (s : system) : system :=
  match o with
  | Spawn pid => if bool_decide (is_Some (tables s !! pid)) then s else set_table pid empty_table s
  | ExitProcess pid => on_table pid clear_handles s
  | Create pid options out => (sys_channel_create pid options out s).2
  | Write pid h options src b n out => (sys_channel_write pid h options src b n out s).2
  | Read pid h options is_etc u u' => (sys_channel_read pid h options is_etc u u' s).2
  | Call pid h options src b n out => (sys_channel_call pid h options src b n out s).2
  | Finish n is_etc u => match call_finish n is_etc u s with Some (_, s) => s | None => s end
  | Abandon n => call_abandon n s
  | DropChannel id => drop_channel id s
  | Duplicate pid v r out => on_table pid (λ t, (sys_handle_duplicate v r out t).2) s
  | Close pid v => on_table pid (λ t, (sys_handle_close v t).2) s
  | CloseMany pid vs => on_table pid (λ t, (sys_handle_close_many vs t).2) s
  end.
Definition run (os : list op) (s : system) : system := foldl (λ s o, exec o s) s os.

(** ** How handles may spread *)
Definition koid (h : Handle) : Z := obj_id (object h).
Definition count (id : Z) (l : list Handle) : nat := length (filter (λ h, koid h = id) l).
(** From the handles [l] to the handles [l'], as far as they are for objects with ids below [n]: rights
    only get less, and a handle is multiplied only if there is one with the right to duplicate it. *)
Record flows (n : Z) (l l' : list Handle) : Prop := {
  fl_rights h' : h' ∈ l' → koid h' < n → ∃ h, h ∈ l ∧ koid h = koid h' ∧ sub_rights (rights h') (rights h);
  fl_count id : id < n → (∀ h, h ∈ l → koid h = id → contains (rights h) Rights.DUPLICATE = false) → (count id l' ≤ count id l)%nat
}.

Lemma sub_rights_dup r1 r2 : sub_rights r1 r2 → contains r2 Rights.DUPLICATE = false → contains r1 Rights.DUPLICATE = false.
Proof.
  intros Hs Hd. destruct (contains r1 Rights.DUPLICATE) eqn:E; [|done]. rewrite <-Hd. symmetry. exact (sub_rights_trans Rights.DUPLICATE r1 r2 E Hs).
Qed.

Lemma count_app id l k : count id (l ++ k) = (count id l + count id k)%nat.
Proof. unfold count. by rewrite filter_app, length_app. Qed.
#[global] Instance count_perm id : Proper ((≡ₚ) ==> eq) (count id).
Proof. intros l k Hl. unfold count. by rewrite Hl. Qed.
Lemma count_sub id l k : l ⊆+ k → (count id l ≤ count id k)%nat.
Proof. intros [r Hr]%submseteq_Permutation. rewrite Hr, count_app. lia. Qed.

Lemma flows_trans n l1 l2 l3 : flows n l1 l2 → flows n l2 l3 → flows n l1 l3.
Proof.
  intros [R1 N1] [R2 N2]. split.
  - intros h3 H3 Hn. destruct (R2 h3 H3 Hn) as (h2 & H2 & E2 & S2). destruct (R1 h2 H2) as (h1 & H1 & E1 & S1); [lia|]. exists h1. split; [done|]. split; [congruence|]. by apply (sub_rights_trans _ (rights h2)).
  - intros id Hid Hd. etrans; [apply N2; [done|]|by apply N1]. intros h2 H2 E2. destruct (R1 h2 H2) as (h1 & H1 & E1 & S1); [lia|]. apply (sub_rights_dup _ (rights h1)); [done|]. apply Hd; [done|congruence].
Qed.
Lemma flows_sub n l l' : l' ⊆+ l → flows n l l'.
Proof.
  intros Hs. split; [|by intros; apply count_sub]. intros h Hh _. exists h. split; [|split; [done|apply sub_rights_refl]]. by eapply elem_of_submseteq.
Qed.
Lemma flows_refl n l : flows n l l.
Proof. by apply flows_sub. Qed.
#[global] Instance flows_perm n : Proper ((≡ₚ) ==> (≡ₚ) ==> iff) (flows n).
Proof.
  assert (∀ a a' b b', a ≡ₚ a' → b ≡ₚ b' → flows n a b → flows n a' b') as Hx; [|intros a a' Ha b b' Hb; split; by apply Hx].
  intros a a' b b' Ha Hb Hf. apply (flows_trans _ _ a); [apply flows_sub; by rewrite Ha|]. apply (flows_trans _ _ b); [done|]. apply flows_sub. by rewrite Hb.
Qed.
(** What is elsewhere stays. *)
Lemma flows_frame n a a' r : flows n a a' → flows n (a ++ r) (a' ++ r).
Proof.
  intros [R N]. split.
  - intros h' [Hh|Hh]%elem_of_app Hn; [destruct (R h' Hh Hn) as (h & H1 & H2); exists h; set_solver|]. exists h'. split; [set_solver|]. split; [done|apply sub_rights_refl].
  - intros id Hid Hd. rewrite !count_app. enough (count id a' ≤ count id a)%nat by lia. apply N; [done|]. intros h Hh. apply Hd. set_solver.
Qed.
(** One handle with fewer rights, or a copy of one that may be duplicated. *)
Lemma flows_restrict n h h' : koid h' = koid h → sub_rights (rights h') (rights h) → flows n [h] [h'].
Proof.
  intros Hk Hs. split.
  - intros x ->%list_elem_of_singleton _. exists h. split; [set_solver|]. by split.
  - intros id _ _. unfold count. rewrite !filter_cons, !filter_nil, Hk. by destruct (decide _).
Qed.
Lemma flows_copy n l h h' : h ∈ l → koid h' = koid h → sub_rights (rights h') (rights h) → contains (rights h) Rights.DUPLICATE = true → flows n l (h' :: l).
Proof.
  intros Hin Hk Hs Hd. split.
  - intros x [->|Hx]%elem_of_cons _; [by exists h|]. exists x. split; [done|]. split; [done|apply sub_rights_refl].
  - intros id _ Hno. unfold count. rewrite filter_cons_False; [done|]. rewrite Hk. intros E. specialize (Hno h Hin E). congruence.
Qed.
(** Handles for new objects. *)
Lemma flows_new n l h : n ≤ koid h → flows n l (h :: l).
Proof.
  intros Hn. split.
  - intros x [->|Hx]%elem_of_cons Hlt; [lia|]. exists x. split; [done|]. split; [done|apply sub_rights_refl].
  - intros id Hid _. unfold count. rewrite filter_cons_False; [done|lia].
Qed.

(** ** Tables *)
Lemma table_insert v h q t : handles t !! v = None → ∀ t', handles t' = <[v := (h, q)]> (handles t) → table_handles t' ≡ₚ h :: table_handles t.
Proof. intros Hv t' Ht. unfold table_handles. rewrite Ht. by rewrite map_to_list_insert. Qed.
Lemma table_delete v h q t : handles t !! v = Some (h, q) → ∀ t', handles t' = delete v (handles t) → table_handles t ≡ₚ h :: table_handles t'.
Proof. intros Hv t' Ht. unfold table_handles. rewrite Ht. by rewrite <-(map_to_list_delete (handles t) v (h, q)). Qed.
Lemma add_handle_flow h t : table_handles (add_handle h t).2 ⊆+ h :: table_handles t.
Proof.
  unfold add_handle. simpl. set (v := handle_key (max_handle_id t)). destruct (handles t !! v) as [[h0 q0]|] eqn:E.
  - unfold table_handles at 1. simpl. rewrite <-insert_delete_eq, map_to_list_insert by apply lookup_delete_eq. simpl. apply submseteq_skip.
    unfold table_handles. rewrite <-(map_to_list_delete (handles t) v (h0, q0)) by done. simpl. by apply submseteq_cons.
  - unfold table_handles at 1. simpl. by rewrite map_to_list_insert.
Qed.
Lemma add_handles_flow hs t : table_handles (add_handles hs t).2 ⊆+ hs ++ table_handles t.
Proof.
  revert t. induction hs as [|h hs IH]; intros t; cbn [add_handles]; [done|]. pose proof (add_handle_flow h t) as H1. destruct (add_handle h t) as [v t1]. specialize (IH t1). destruct (add_handles hs t1) as [vs t2]. simpl in *.
  etrans; [exact IH|]. rewrite Permutation_middle. by apply (submseteq_app hs hs).
Qed.
Lemma remove_handle_flow v t : match remove_handle v t with (Ok h, t') => table_handles t ≡ₚ h :: table_handles t' | (_, t') => t' = t end.
Proof. unfold remove_handle. destruct (handles t !! v) as [[h q]|] eqn:E; [|done]. by apply (table_delete v h q). Qed.
Lemma remove_handle_sub v t : table_handles (remove_handle v t).2 ⊆+ table_handles t.
Proof. pose proof (remove_handle_flow v t) as Hr. destruct (remove_handle v t) as [[h|e|] t']; simpl; [rewrite Hr; by apply submseteq_cons|by subst..]. Qed.

Lemma close_chunk_sub ds t : table_handles (close_chunk ds t) ⊆+ table_handles t.
Proof.
  unfold close_chunk. revert t. induction ds as [|d ds IH]; intros t; simpl; [done|]. etrans; [apply IH|]. destruct (negb _); [apply remove_handle_sub|done].
Qed.
Lemma close_chunks_sub fuel b off n t : table_handles (close_chunks fuel b off n t) ⊆+ table_handles t.
Proof.
  revert off t. induction fuel as [|fuel IH]; intros off t; simpl; [done|]. destruct (_ <? _)%nat; [|done]. destruct (read_chunk _ _ _); [|done..]. etrans; [apply IH|]. apply close_chunk_sub.
Qed.
Lemma take_one_sub d t : table_handles (take_one d t).2 ⊆+ table_handles t.
Proof. unfold take_one. destruct (_ =? _); [done|apply remove_handle_sub]. Qed.
Lemma take_all_sub ds t : table_handles (take_all ds t).2 ⊆+ table_handles t.
Proof.
  revert t. induction ds as [|d ds IH]; intros t; simpl; [done|]. pose proof (take_one_sub d t) as H1. destruct (take_one d t) as [h t1]. specialize (IH t1). destruct (take_all ds t1). simpl in *. by etrans.
Qed.
Lemma take_sub b n t : table_handles (take b n t).2 ⊆+ table_handles t.
Proof.
  unfold take. destruct (_ <? _)%nat; [apply close_chunks_sub|]. destruct (read_chunk _ _ _) as [ds|e|]; [|done..]. pose proof (take_all_sub ds t) as H1. by destruct (take_all ds t).
Qed.

(** What the checks of a handle leave of it. *)
Lemma finish_one_spec channel d (r : ZxResult Handle) h' : finish_one channel (d, r) = Ok h' →
  ∃ h, r = Ok h ∧ koid h' = koid h ∧ sub_rights (rights h') (rights h) ∧ contains (rights h) Rights.TRANSFER = true ∧ handle d ≠ channel ∧
    (op_ d = ZX_HANDLE_OP_DUP → contains (rights h) Rights.DUPLICATE = true).
Proof.
  unfold finish_one. simpl. destruct r as [h|e|]; simpl; [|done..]. intros E. exists h. split; [done|]. revert E. unfold handle_check.
  destruct (contains (rights h) Rights.TRANSFER) eqn:Et; simpl; [|done]. destruct (Z.eqb_spec (handle d) channel) as [|Hne]; simpl; [done|].
  destruct (if type_ d =? 0 then _ else _) as [[]|e|]; simpl; [done| |done..].
  destruct (negb (op_ d =? ZX_HANDLE_OP_MOVE) && negb (op_ d =? ZX_HANDLE_OP_DUP)) eqn:Eo; simpl; [done|].
  destruct (Z.eqb_spec (drights d) Rights.SAME_RIGHTS) as [Es|Es]; simpl.
  - destruct ((op_ d =? ZX_HANDLE_OP_DUP) && negb (contains (rights h) Rights.DUPLICATE)) eqn:Ed; simpl; [done|]. intros [= <-]. split; [done|]. split; [apply sub_rights_refl|]. split; [done|]. split; [done|].
    intros Ho. rewrite Ho in Ed. simpl in Ed. by destruct (contains (rights h) Rights.DUPLICATE).
  - destruct (Z.eqb_spec (Z.ldiff (drights d) (rights h)) 0) as [El|]; simpl; [|done].
    destruct ((op_ d =? ZX_HANDLE_OP_DUP) && negb (contains (rights h) Rights.DUPLICATE)) eqn:Ed; simpl; [done|].
    unfold from_bits. destruct (Z.eqb_spec (Z.ldiff (drights d) Rights.all) 0); simpl; [|done]. intros [= <-]. simpl. split; [done|]. split; [|split; [done|]; split; [done|]].
    + unfold sub_rights, contains. apply Z.eqb_eq. apply Z.bits_inj'. intros k Hk. pose proof (f_equal (λ x, Z.testbit x k) El) as Hb. simpl in Hb. rewrite Z.ldiff_spec, Z.bits_0 in Hb. rewrite Z.land_spec.
      destruct (Z.testbit (drights d) k), (Z.testbit (rights h) k); done.
    + intros Ho. rewrite Ho in Ed. simpl in Ed. by destruct (contains (rights h) Rights.DUPLICATE).
Qed.

(** The handles of a message come from the table. *)
Lemma take_finish_flow n channel ds t hs : let '(rs, t') := take_all ds t in finish_all channel (zip ds rs) = Ok hs → flows n (table_handles t) (hs ++ table_handles t').
Proof.
  revert t hs. induction ds as [|d ds IH]; intros t hs; simpl; [intros [= <-]; apply flows_refl|].
  destruct (take_one d t) as [r t1] eqn:E1. specialize (IH t1). destruct (take_all ds t1) as [rs t2]. cbn [zip zip_with finish_all].
  destruct (finish_one channel (d, r)) as [h'|e|] eqn:Ef; [|by destruct (finish_all channel _)|done].
  destruct (finish_all channel (zip_with pair ds rs)) as [hs'|e|] eqn:Ea; simpl; [|done..]. intros [= <-]. specialize (IH hs' eq_refl).
  destruct (finish_one_spec channel d r h' Ef) as (h & -> & Hk & Hs & _ & _ & Hdup). simpl.
  apply (flows_trans _ _ (h' :: table_handles t1)).
  - unfold take_one in E1. destruct (Z.eqb_spec (op_ d) ZX_HANDLE_OP_DUP) as [Ho|_].
    + injection E1 as E1 <-. unfold get_dyn_object_and_rights, get_handle in E1. destruct (handles t !! handle d) as [[h0 q]|] eqn:Eh; simpl in E1; [|done]. injection E1 as <-.
      apply (flows_copy n _ h0); [|done|done|by apply Hdup]. unfold table_handles. apply list_elem_of_fmap. exists (h0, q). split; [done|]. apply list_elem_of_fmap. exists (handle d, (h0, q)). split; [done|]. by apply elem_of_map_to_list.
    + pose proof (remove_handle_flow (handle d) t) as Hr. rewrite E1 in Hr. rewrite Hr. by apply (flows_frame n [h] [h'] _ (flows_restrict n h h' Hk Hs)).
  - rewrite <-(app_nil_r (h' :: _)). simpl. rewrite app_nil_r. rewrite (Permutation_cons_append (table_handles t1)), (Permutation_cons_append (hs' ++ _)). by apply flows_frame.
Qed.

(** ** Channels *)
Definition shots_handles (m : gmap nat (Oneshot Handle)) : list Handle := mjoin (shot_handles <$> (map_to_list m).*2).
Lemma shots_insert i x m : m !! i = None → shots_handles (<[i := x]> m) ≡ₚ shot_handles x ++ shots_handles m.
Proof. intros Hi. unfold shots_handles. by rewrite map_to_list_insert. Qed.
Lemma shots_delete i x m : m !! i = Some x → shots_handles m ≡ₚ shot_handles x ++ shots_handles (delete i m).
Proof. intros Hi. rewrite <-(insert_delete_id m i x) at 1 by done. by rewrite shots_insert by apply lookup_delete_eq. Qed.
(** Oneshots that get no handles. *)
Lemma shots_sub m' m : (∀ j x, m' !! j = Some x → shot_handles x = [] ∨ m !! j = Some x) → shots_handles m' ⊆+ shots_handles m.
Proof.
  revert m. induction m' as [|i x m' Hi IH] using map_ind; intros m Hm; [apply submseteq_nil_l|]. rewrite shots_insert by done.
  assert (∀ j y, m' !! j = Some y → j ≠ i ∧ (shot_handles y = [] ∨ m !! j = Some y)) as Hm'.
  { intros j y Hj. split; [congruence|]. apply Hm. rewrite lookup_insert_ne; [done|congruence]. }
  destruct (Hm i x) as [Hx|Hx]; [apply lookup_insert_eq| |].
  - rewrite Hx. apply IH. intros j y Hj. by apply Hm'.
  - rewrite (shots_delete i x m Hx). apply submseteq_app; [done|]. apply IH. intros j y Hj. destruct (Hm' j y Hj) as [Hne [?|?]]; [by left|right]. by rewrite lookup_delete_ne.
Qed.

Lemma chan_split s (c : chan) : chan_handles c ≡ₚ queue_handles (get s (ends c)) ++ queue_handles (get (other s) (ends c)) ++ shots_handles (oneshots c).
Proof.
  unfold chan_handles. fold (shots_handles (oneshots c)). destruct s; simpl; [done|]. rewrite !app_assoc. by rewrite (Permutation_app_comm (queue_handles (end0 _))).
Qed.
Lemma queue_handles_app (c c' : Channel unit Handle) (m : message) : recv_queue c' = recv_queue c ++ [m] → queue_handles (Some c') ≡ₚ msg_handles m ++ queue_handles (Some c).
Proof. intros Hq. unfold queue_handles. rewrite Hq, fmap_app, join_app. simpl. rewrite app_nil_r. apply Permutation_app_comm. Qed.

Lemma push_handles s (m : message) (c : chan) : chan_handles (push_general s m c) ⊆+ msg_handles m ++ chan_handles c.
Proof.
  destruct (get s (ends c)) as [e|] eqn:He; [|unfold push_general; rewrite He; by apply submseteq_inserts_l].
  destruct (push_general_spec s m c e He) as ((e' & He' & [Hq _]) & Ho & Hs & _). rewrite !(chan_split s), He', Ho, Hs, He. rewrite (queue_handles_app e e' m Hq). by rewrite <-app_assoc.
Qed.
Lemma send_handles i (m : message) (c : chan) : chan_handles (send i (Ok m) c) ⊆+ msg_handles m ++ chan_handles c.
Proof.
  unfold send. destruct (oneshots c !! i) as [[]|] eqn:E; [|by apply submseteq_inserts_l..]. rewrite !(chan_split E0). cbn [ends oneshots].
  rewrite <-insert_delete_eq, shots_insert by apply lookup_delete_eq. rewrite (shots_delete i _ _ E). cbn [shot_handles]. rewrite app_nil_l. solve_submseteq.
Qed.
Lemma write_handles_flow s (m : message) (c : chan) : chan_handles (write s m c).2 ⊆+ msg_handles m ++ chan_handles c.
Proof.
  unfold write. destruct (get (other s) (ends c)) as [p|] eqn:Hp; [|by apply submseteq_inserts_l]. destruct (answers m p) as [i|]; [|apply push_handles]. simpl.
  etrans; [apply send_handles|]. apply submseteq_app; [done|]. rewrite !(chan_split (other s)). simpl. by rewrite get_put_same, get_put_other, Hp.
Qed.
Lemma read_handles s f (c : chan) : match check_and_read s f c with (Ok m, c') => chan_handles c ≡ₚ msg_handles m ++ chan_handles c' | (_, c') => c' = c end.
Proof.
  destruct (get s (ends c)) as [e|] eqn:He; [|unfold check_and_read; by rewrite He]. pose proof (check_and_read_spec s f c e He) as Hr. destruct (check_and_read s f c) as [r c'].
  destruct (recv_queue e) as [|m q] eqn:Eq; [destruct Hr as [-> ->]; done|]. destruct (f m) as [[]|x|]; [|by destruct Hr as [-> ->]..].
  destruct Hr as (-> & (e' & He' & [Hq _]) & Ho & Hs & _). rewrite !(chan_split s), He, He', Ho, Hs. unfold queue_handles at 1 3. rewrite Eq, Hq. simpl. by rewrite <-!app_assoc.
Qed.
Lemma call_handles s (m : message) (c : chan) : chan_handles (call s m c).2 ⊆+ msg_handles m ++ chan_handles c.
Proof.
  unfold call. destruct (_ <? 4); [by apply submseteq_inserts_l|]. destruct (get s (ends c)) as [e|] eqn:He; [|by apply submseteq_inserts_l]. destruct (get (other s) (ends c)) as [p|] eqn:Hp; [|by apply submseteq_inserts_l].
  cbn zeta. unfold new_txid. simpl. etrans; [apply push_handles|]. rewrite set_txid_handles. apply submseteq_app; [done|]. rewrite !(chan_split s). simpl. rewrite get_put_same, get_put_other, He, Hp. simpl.
  apply submseteq_app; [done|]. apply submseteq_app; [done|]. apply shots_sub. intros j x. rewrite lookup_insert_Some. intros [[_ <-]|[_ Hj]]; [by left|].
  destruct (call_reply e !! next_txid e) as [old|]; [|by right]. apply lookup_insert_Some in Hj as [[_ <-]|[_ Hj]]; [by left|by right].
Qed.
Lemma settled_handles o b v x : settled o b v = Some x → shot_handles v = [] → shot_handles x = [] ∨ o = Some x.
Proof. unfold settled. destruct o as [[| |]|]; simpl; [|by right..|done]. destruct b; intros [= <-]; by left. Qed.
Lemma drop_handles s (c : chan) : chan_handles (drop_end s c) ⊆+ chan_handles c.
Proof.
  destruct (get s (ends c)) as [e|] eqn:He; [|unfold drop_end; by rewrite He]. destruct (drop_end_effect s c e He) as (H1 & H2 & _). rewrite !(chan_split s), H1, He. simpl.
  etrans; [|apply submseteq_inserts_l; reflexivity]. destruct (get (other s) (ends c)) as [p|] eqn:Hp.
  - destruct H2 as (p' & -> & Hq & _ & _ & _ & Hs). apply submseteq_app; [unfold queue_handles; by rewrite Hq|]. apply shots_sub. intros j x Hj. rewrite Hs in Hj.
    apply settled_handles in Hj as [?|Hj]; [by left| |done]. by apply settled_handles in Hj.
  - destruct H2 as [-> Hs]. apply shots_sub. intros j x Hj. rewrite Hs in Hj. by apply settled_handles in Hj.
Qed.
Lemma forget_handles i (c : chan) : match oneshots c !! i with Some (Sent (Ok m)) => chan_handles c ≡ₚ msg_handles m ++ chan_handles (forget i c) | _ => chan_handles (forget i c) ⊆+ chan_handles c end.
Proof.
  assert (chan_handles (forget i c) ⊆+ chan_handles c) as Hf.
  { rewrite !(chan_split E0). simpl. apply submseteq_app; [done|]. apply submseteq_app; [done|]. apply shots_sub. intros j x [_ Hj]%lookup_delete_Some. by right. }
  destruct (oneshots c !! i) as [[|[m|e|]|]|] eqn:E; try done. rewrite !(chan_split E0). simpl. rewrite (shots_delete i _ _ E). simpl. solve_Permutation.
Qed.

(** ** The system *)
Definition tables_handles (m : gmap Z HandleTable) : list Handle := mjoin (table_handles <$> (map_to_list m).*2).
Lemma tables_insert pid t m : tables_handles (<[pid := t]> m) ≡ₚ table_handles t ++ tables_handles (delete pid m).
Proof. unfold tables_handles. rewrite <-insert_delete_eq, map_to_list_insert by apply lookup_delete_eq. done. Qed.
Lemma tables_lookup pid t m : m !! pid = Some t → tables_handles m ≡ₚ table_handles t ++ tables_handles (delete pid m).
Proof. intros Ht. rewrite <-tables_insert. by rewrite insert_id. Qed.
Definition chans_handles (l : list chan) : list Handle := mjoin (chan_handles <$> l).
Lemma chans_insert k c l : (k < length l)%nat → chans_handles (<[k := c]> l) ≡ₚ chan_handles c ++ chans_handles (delete k l).
Proof.
  intros Hk. rewrite insert_take_drop by done. unfold chans_handles. rewrite delete_take_drop, !fmap_app, !join_app. simpl. solve_Permutation.
Qed.
Lemma chans_lookup k c l : l !! k = Some c → chans_handles l ≡ₚ chan_handles c ++ chans_handles (delete k l).
Proof. intros Hc. rewrite <-chans_insert by (by apply lookup_lt_Some in Hc). by rewrite list_insert_id. Qed.
Lemma all_split s : all_handles s = tables_handles (tables s) ++ chans_handles (chans s).
Proof. done. Qed.

(** A call that changes a table, a channel, or both. *)
Lemma table_flow n pid t t' s : tables s !! pid = Some t → flows n (table_handles t) (table_handles t') → flows n (all_handles s) (all_handles (set_table pid t' s)).
Proof.
  intros Ht Hf. rewrite !all_split. simpl. rewrite tables_insert, (tables_lookup pid t (tables s)) by done. rewrite <-!app_assoc. by apply flows_frame.
Qed.
Lemma chan_flow n k c c' s : chans s !! k = Some c → chan_handles c' ⊆+ chan_handles c → flows n (all_handles s) (all_handles (set_chan k c' s)).
Proof.
  intros Hc Hs. apply flows_sub. rewrite !all_split. simpl. apply submseteq_app; [done|]. rewrite chans_insert by (by apply lookup_lt_Some in Hc). rewrite (chans_lookup k c (chans s)) by done. by apply submseteq_app.
Qed.
Lemma both_flow n pid t t' k c c' s : tables s !! pid = Some t → chans s !! k = Some c → flows n (table_handles t ++ chan_handles c) (table_handles t' ++ chan_handles c') →
  flows n (all_handles s) (all_handles (set_chan k c' (set_table pid t' s))).
Proof.
  intros Ht Hc Hf. rewrite !all_split. simpl. rewrite tables_insert, (tables_lookup pid t (tables s)) by done. rewrite chans_insert by (by apply lookup_lt_Some in Hc). rewrite (chans_lookup k c (chans s)) by done.
  set (r1 := tables_handles (delete pid _)). set (r2 := chans_handles (delete k _)).
  assert (∀ a b, (a ++ r1) ++ b ++ r2 ≡ₚ (a ++ b) ++ r1 ++ r2) as Hp by (intros; solve_Permutation). rewrite !Hp. by apply flows_frame.
Qed.

(** The handles of a message that is written come from the table of the sender. *)
Lemma prepare_flow n ch options src b num is_call out t : let '(r, t') := prepare_message ch options src b num is_call out t in
  match r with Ok (_, m) => flows n (table_handles t) (msg_handles m ++ table_handles t') | _ => table_handles t' ⊆+ table_handles t end.
Proof.
  unfold prepare_message. pose proof (take_sub b num t) as Hsub. destruct (take b num t) as [[xs|e|] t'] eqn:Et; [|done..]. simpl in Hsub.
  destruct (negb _); [done|]. destruct (get_object_with_rights _ _ _ _) as [o|e|]; simpl; [|done..]. destruct (read_data options src) as [d|e|]; simpl; [|done..]. destruct (_ && _); [done|].
  unfold finish. destruct (finish_all ch xs) as [hs|e|] eqn:Ef; [|by destruct b, out|by destruct b, out]. simpl.
  unfold take in Et. destruct (_ <? _)%nat; [done|]. destruct (read_chunk b 0 num) as [ds|e|]; [|done..]. pose proof (take_finish_flow n ch ds t hs) as Hf. destruct (take_all ds t) as [rs t1]. injection Et as <- <-.
  by destruct b, out; apply Hf.
Qed.
Lemma received_flow hs is_etc u t : table_handles (write_received_handles hs is_etc u t).2 ⊆+ hs ++ table_handles t.
Proof.
  unfold write_received_handles. destruct (if is_etc then _ else _) as [[]|e|]; [|by apply submseteq_inserts_l..]. pose proof (add_handles_flow hs t) as Hf. by destruct (add_handles hs t).
Qed.
Lemma receive_flow m is_etc u t : table_handles (receive m is_etc u t).2 ⊆+ msg_handles m ++ table_handles t ∧ table_handles (reply_write m is_etc u t).2 ⊆+ msg_handles m ++ table_handles t.
Proof.
  split; [unfold receive|unfold reply_write]; (destruct (let? _ := _ in _) as [[]|e|]; [apply received_flow|by apply submseteq_inserts_l..]).
Qed.

Lemma duplicate_flow n v r out t : flows n (table_handles t) (table_handles (sys_handle_duplicate v r out t).2).
Proof.
  unfold sys_handle_duplicate. destruct (Rights.try_from r) as [q|e|]; [|apply flows_refl..]. unfold dup_handle_operating_rights. destruct (handles t !! v) as [[h p]|] eqn:Eh; [|apply flows_refl].
  unfold duplicate_rights. destruct (contains (rights h) Rights.DUPLICATE) eqn:Ed; cbn [negb]; [|apply flows_refl].
  assert (h ∈ table_handles t) as Hin.
  { unfold table_handles. apply list_elem_of_fmap. exists (h, p). split; [done|]. apply list_elem_of_fmap. exists (v, (h, p)). split; [done|]. by apply elem_of_map_to_list. }
  assert (∀ x, sub_rights x (rights h) → flows n (table_handles t) (table_handles (add_handle (mkHandle (object h) x) t).2)) as Hadd.
  { intros x Hx. apply (flows_trans _ _ (mkHandle (object h) x :: table_handles t)); [by apply (flows_copy n _ h)|apply flows_sub, add_handle_flow]. }
  destruct (contains q Rights.SAME_RIGHTS); cbn [negb].
  - specialize (Hadd (rights h) (sub_rights_refl _)). by destruct (add_handle _ t).
  - destruct (Z.eqb_spec (Z.land (rights h) q) q) as [E|]; cbn [negb]; [|apply flows_refl]. specialize (Hadd q). unfold sub_rights, contains in Hadd. rewrite Z.eqb_eq in Hadd. specialize (Hadd E). by destruct (add_handle _ t).
Qed.
Lemma close_flow v t : table_handles (sys_handle_close v t).2 ⊆+ table_handles t.
Proof. unfold sys_handle_close. destruct (_ =? _); [done|]. pose proof (remove_handle_sub v t) as Hs. by destruct (remove_handle v t). Qed.
Lemma close_many_flow vs t : table_handles (sys_handle_close_many vs t).2 ⊆+ table_handles t.
Proof.
  revert t. induction vs as [|v vs IH]; intros t; simpl; [done|]. destruct (_ =? _); [apply IH|]. pose proof (remove_handle_sub v t) as Hs. destruct (remove_handle v t) as [[h|e|] t1]; simpl in *; [|done..]. by etrans; [apply IH|].
Qed.

(** *** Each call *)
Lemma set_table_set_table pid t t' s : set_table pid t' (set_table pid t s) = set_table pid t' s.
Proof. unfold set_table, set_tables. simpl. by rewrite insert_insert_eq. Qed.
Lemma place_chans o k d c s : place_of o s = Some (k, d, c) → chans s !! k = Some c.
Proof. unfold place_of. destruct (places s !! obj_id o) as [[k0 d0]|]; [|done]. destruct (chans s !! k0) eqn:E; [|done]. by intros [= <- <- <-]. Qed.
(** A message leaves a table for a channel. *)
Lemma send_flow n pid t t' k c c' (m : message) s : tables s !! pid = Some t → chans s !! k = Some c → flows n (table_handles t) (msg_handles m ++ table_handles t') →
  chan_handles c' ⊆+ msg_handles m ++ chan_handles c → flows n (all_handles s) (all_handles (set_chan k c' (set_table pid t' s))).
Proof.
  intros Ht Hc Hf Hs. apply (both_flow n pid t t' k c); [done..|]. apply (flows_trans _ _ ((msg_handles m ++ table_handles t') ++ chan_handles c)); [by apply flows_frame|].
  apply flows_sub. rewrite (Permutation_app_comm (msg_handles m)), <-app_assoc. by apply submseteq_app.
Qed.
(** A message leaves a channel for a table. *)
Lemma recv_flow n pid t t' k c c' (m : message) s : tables s !! pid = Some t → chans s !! k = Some c → chan_handles c ≡ₚ msg_handles m ++ chan_handles c' →
  table_handles t' ⊆+ msg_handles m ++ table_handles t → flows n (all_handles s) (all_handles (set_table pid t' (set_chan k c' s))).
Proof.
  intros Ht Hc Hp Hs. change (set_table pid t' (set_chan k c' s)) with (set_chan k c' (set_table pid t' s)). apply (both_flow n pid t t' k c); [done..|].
  apply flows_sub. rewrite Hp, app_assoc, (Permutation_app_comm _ (msg_handles m)). by apply submseteq_app.
Qed.
(** A message that cannot be sent is dropped with its handles. *)
Lemma lose_flow n pid t t' l s : tables s !! pid = Some t → flows n (table_handles t) (l ++ table_handles t') → flows n (all_handles s) (all_handles (set_table pid t' s)).
Proof. intros Ht Hf. apply (table_flow n pid t); [done|]. apply (flows_trans _ _ _ _ Hf). apply flows_sub. by apply submseteq_inserts_l. Qed.

Lemma create_flow n pid options out s : n ≤ next_koid s → flows n (all_handles s) (all_handles (sys_channel_create pid options out s).2).
Proof.
  intros Hn. unfold sys_channel_create. destruct (negb _); [apply flows_refl|]. destruct (tables s !! pid) as [t|] eqn:Ht; [|apply flows_refl].
  set (h0 := mkHandle (mkKernelObject (next_koid s) _ _) _). set (h1 := mkHandle (mkKernelObject (next_koid s + 1) _ _) _).
  pose proof (add_handle_flow h0 t) as H0. destruct (add_handle h0 t) as [v0 t1]. pose proof (add_handle_flow h1 t1) as H1. destruct (add_handle h1 t1) as [v1 t2]. simpl in H0, H1 |- *.
  apply (flows_trans _ _ (all_handles (set_table pid t2 s))); [|apply flows_sub; rewrite !all_split; simpl; unfold chans_handles; rewrite fmap_app, join_app; by rewrite app_nil_r].
  apply (table_flow n pid t); [done|]. apply (flows_trans _ _ (h0 :: table_handles t)); [by apply flows_new|]. apply (flows_trans _ _ (h1 :: h0 :: table_handles t)); [apply flows_new; unfold koid; simpl; lia|].
  apply flows_sub. etrans; [exact H1|]. by apply submseteq_skip.
Qed.
Lemma write_flow n pid ch options src b num out s : flows n (all_handles s) (all_handles (sys_channel_write pid ch options src b num out s).2).
Proof.
  unfold sys_channel_write. destruct (tables s !! pid) as [t|] eqn:Ht; [|apply flows_refl]. pose proof (prepare_flow n ch options src b num false out t) as Hp.
  destruct (prepare_message _ _ _ _ _ _ _ t) as [[[o m]|e|] t']; [|by apply (table_flow n pid t), flows_sub..].
  destruct (place_of o _) as [[[k d] c]|] eqn:Eo; [|by apply (lose_flow n pid t t' (msg_handles m))]. apply place_chans in Eo.
  pose proof (write_handles_flow d m c) as Hw. destruct (write d m c) as [r c']. by apply (send_flow n pid t t' k c c' m).
Qed.
Lemma call_flow n pid ch options src b num out s : flows n (all_handles s) (all_handles (sys_channel_call pid ch options src b num out s).2).
Proof.
  unfold sys_channel_call. destruct (tables s !! pid) as [t|] eqn:Ht; [|apply flows_refl]. pose proof (prepare_flow n ch options src b num true out t) as Hp.
  destruct (prepare_message _ _ _ _ _ _ _ t) as [[[o m]|e|] t']; [|by apply (table_flow n pid t), flows_sub..].
  destruct (place_of o _) as [[[k d] c]|] eqn:Eo; [|by apply (lose_flow n pid t t' (msg_handles m))]. apply place_chans in Eo.
  pose proof (call_handles d m c) as Hw. destruct (call d m c) as [[i|e|] c']; by apply (send_flow n pid t t' k c c' m).
Qed.
Lemma read_flow n pid ch options is_etc u u' s : flows n (all_handles s) (all_handles (sys_channel_read pid ch options is_etc u u' s).2).
Proof.
  unfold sys_channel_read. destruct (tables s !! pid) as [t|] eqn:Ht; [|apply flows_refl]. destruct (get_object_with_rights _ _ _ t) as [o|e|]; [|apply flows_refl..].
  destruct (negb _); [apply flows_refl|]. destruct (place_of o s) as [[[k d] c]|] eqn:Eo; [|apply flows_refl]. apply place_chans in Eo.
  assert (∀ f, flows n (all_handles s) (all_handles (match check_and_read d f c with
    | (Ok m, c) => let '(r, t) := receive m is_etc u' t in (r, set_table pid t (set_chan k c s))
    | (Err e, c) => (Err e, set_chan k c s) | (Panic, c) => (Panic, set_chan k c s) end).2)) as Hx; [|destruct (_ =? 0); apply Hx].
  intros f. pose proof (read_handles d f c) as Hr. destruct (check_and_read d f c) as [[m|e|] c'].
  - pose proof (receive_flow m is_etc u' t) as [Hv _]. destruct (receive m is_etc u' t) as [r t']. by apply (recv_flow n pid t t' k c c' m).
  - subst c'. by apply (chan_flow n k c).
  - subst c'. by apply (chan_flow n k c).
Qed.
Lemma finish_flow n i is_etc u s : match call_finish i is_etc u s with Some (_, s') => flows n (all_handles s) (all_handles s') | None => True end.
Proof.
  unfold call_finish. destruct (calls s !! i) as [[p|]|]; [|done..]. destruct (chans s !! pc_chan p) as [c|] eqn:Ec; [|done]. destruct (tables s !! pc_pid p) as [t|] eqn:Ht; [|done].
  unfold await_reply. pose proof (forget_handles (pc_shot p) c) as Hf. destruct (oneshots c !! pc_shot p) as [[|[m|e|]|]|]; try done; [|by apply (chan_flow n (pc_chan p) c)..].
  pose proof (receive_flow m is_etc u t) as [_ Hv]. destruct (reply_write m is_etc u t) as [r t']. by apply (recv_flow n (pc_pid p) t t' (pc_chan p) c (forget (pc_shot p) c) m).
Qed.
Lemma on_table_flow n pid f s : (∀ t, flows n (table_handles t) (table_handles (f t))) → flows n (all_handles s) (all_handles (on_table pid f s)).
Proof. intros Hf. unfold on_table. destruct (tables s !! pid) as [t|] eqn:Ht; [|apply flows_refl]. by apply (table_flow n pid t). Qed.

Lemma exec_flow n o s : n ≤ next_koid s → flows n (all_handles s) (all_handles (exec o s)).
Proof.
  intros Hn. destruct o; cbn [exec].
  - destruct (bool_decide _) eqn:E; [apply flows_refl|]. apply bool_decide_eq_false in E. apply flows_sub. rewrite !all_split. simpl. rewrite tables_insert, delete_id by (by apply eq_None_not_Some). done.
  - apply on_table_flow. intros t. apply flows_sub. apply submseteq_nil_l.
  - by apply create_flow.
  - apply write_flow.
  - apply read_flow.
  - apply call_flow.
  - pose proof (finish_flow n n0 is_etc u s) as Hf. destruct (call_finish _ _ _ _) as [[r s']|]; [done|apply flows_refl].
  - unfold call_abandon. destruct (calls s !! n0) as [[p|]|]; [|apply flows_refl..]. destruct (chans s !! pc_chan p) as [c|] eqn:Ec; [|apply flows_refl].
    apply (chan_flow n (pc_chan p) c); [done|]. pose proof (forget_handles (pc_shot p) c) as Hf. destruct (oneshots c !! pc_shot p) as [[|[m|e|]|]|]; try done. rewrite Hf. by apply submseteq_inserts_l.
  - unfold drop_channel. destruct (bool_decide _); [apply flows_refl|]. destruct (places s !! id) as [[k d]|]; [|apply flows_refl]. destruct (chans s !! k) as [c|] eqn:Ec; [|apply flows_refl].
    apply (chan_flow n k c); [done|]. apply drop_handles.
  - apply on_table_flow. intros t. apply duplicate_flow.
  - apply on_table_flow. intros t. apply flows_sub, close_flow.
  - apply on_table_flow. intros t. apply flows_sub, close_many_flow.
Qed.
Lemma exec_koid o s : next_koid s ≤ next_koid (exec o s).
Proof.
  destruct o; cbn [exec]; unfold on_table, sys_channel_create, sys_channel_write, sys_channel_read, sys_channel_call, call_finish, call_abandon, drop_channel;
    repeat (case_match; simplify_eq; try done); simpl; lia.
Qed.
Lemma run_flow n os s : n ≤ next_koid s → flows n (all_handles s) (all_handles (run os s)).
Proof.
  revert s. induction os as [|o os IH]; intros s Hn; [apply flows_refl|]. apply (flows_trans _ _ (all_handles (exec o s))); [by apply exec_flow|]. apply IH. etrans; [exact Hn|apply exec_koid].
Qed.

(** ** What a write sends *)
(** An array of the caller: its entries, from the start, are [ds], and reading beyond them fails with [e]. *)
Definition array_of (b : HandleBuffer) (ds : list HandleDisposition) (e : ZxError.t) : Prop :=
  ∀ i n, read_chunk b i n = if (i + n <=? length ds)%nat then Ok (firstn n (skipn i ds)) else Err e.
(** A buffer that can be read has the length asked for. *)
Definition vecs_full (src : Source) : Prop :=
  ∀ l v d, vecs src = Ok l → v ∈ l → iov_data v = Ok d → zlen d = capacity v.

(** The values that the entries move. *)
Definition moves (ds : list HandleDisposition) : list HandleValue := handle <$> filter (λ d, op_ d ≠ ZX_HANDLE_OP_DUP) ds.
(** How many of [num] entries the call consumes when [len] can be read: all, or of too many the chunks of 64 before
    the first that cannot be read. *)
Definition consumed (num len : nat) : nat :=
  if (num <=? len)%nat then num else if (num <=? MAX_MESSAGE_HANDLES)%nat then O else (MAX_MESSAGE_HANDLES * (len / MAX_MESSAGE_HANDLES))%nat.
(** The bytes of the message: those of the buffer, or of the buffers of the vector together. *)
Definition carries (options : Z) (src : Source) (bs : list Z) : Prop :=
  (options = 0 ∧ num_bytes src ≤ MAX_MESSAGE_BYTES ∧ bytes src = Ok bs) ∨
  (options = USE_IOVEC ∧ num_bytes src ≤ MAX_IOVECS ∧ ∃ l parts, vecs src = Ok l ∧ Forall2 (λ v d, reserved v = 0 ∧ iov_data v = Ok d) l parts ∧ bs = concat parts ∧ zlen bs ≤ MAX_MESSAGE_BYTES).
(** The handle [h] may be sent as the entry [d] asks. *)
Definition may_send (channel : HandleValue) (d : HandleDisposition) (h : Handle) : Prop :=
  contains (rights h) Rights.TRANSFER = true ∧ handle d ≠ channel ∧ (type_ d = 0 ∨ obj_type (object h) = Ok (type_ d)) ∧
  (op_ d = ZX_HANDLE_OP_MOVE ∨ op_ d = ZX_HANDLE_OP_DUP ∧ contains (rights h) Rights.DUPLICATE = true) ∧
  (drights d = Rights.SAME_RIGHTS ∨ Z.ldiff (drights d) (rights h) = 0 ∧ Z.ldiff (drights d) Rights.all = 0).
Definition sent_as (d : HandleDisposition) (h : Handle) : Handle := if drights d =? Rights.SAME_RIGHTS then h else mkHandle (object h) (drights d).
(** The entries [ds] send the handles [hs]: each is there and was not moved by an entry before. *)
Definition sends (channel : HandleValue) (t : HandleTable) (ds : list HandleDisposition) (hs : list Handle) : Prop :=
  length hs = length ds ∧
  ∀ i d, ds !! i = Some d → handle d ∉ moves (firstn i ds) ∧ ∃ h q, handles t !! handle d = Some (h, q) ∧ may_send channel d h ∧ hs !! i = Some (sent_as d h).
(** The message reaches the peer: it answers the call of the peer that waits for its transaction id, or joins the queue. *)
Definition delivered (d : side) (m : message) (c c' : chan) : Prop :=
  ∃ peer peer', get (other d) (ends c) = Some peer ∧ get (other d) (ends c') = Some peer' ∧ get d (ends c') = get d (ends c) ∧
  ((∃ i, get_txid m ≠ 0 ∧ call_reply peer !! get_txid m = Some i ∧ call_reply peer' = delete (get_txid m) (call_reply peer) ∧ recv_queue peer' = recv_queue peer ∧
      (oneshots c !! i = Some Waiting → oneshots c' = <[i := Sent (Ok m)]> (oneshots c)) ∧ (oneshots c !! i ≠ Some Waiting → oneshots c' = oneshots c)) ∨
   (get_txid m = 0 ∨ call_reply peer !! get_txid m = None) ∧ call_reply peer' = call_reply peer ∧ recv_queue peer' = recv_queue peer ++ [m] ∧ oneshots c' = oneshots c).

Lemma moves_cons d ds : moves (d :: ds) = (if op_ d =? ZX_HANDLE_OP_DUP then [] else [handle d]) ++ moves ds.
Proof. unfold moves. rewrite filter_cons. destruct (Z.eqb_spec (op_ d) ZX_HANDLE_OP_DUP) as [E|E]; [by rewrite decide_False by auto|by rewrite decide_True]. Qed.
Lemma moves_app ds ds' : moves (ds ++ ds') = moves ds ++ moves ds'.
Proof. unfold moves. by rewrite filter_app, fmap_app. Qed.
(** Tables that differ in what has been moved out. *)
Definition without (l : list HandleValue) (t t' : HandleTable) : Prop := ∀ w, handles t' !! w = if bool_decide (w ∈ l) then None else handles t !! w.
Lemma without_nil t : without [] t t.
Proof. intros w. by rewrite bool_decide_eq_false_2 by set_solver. Qed.
Lemma without_app l l' t t1 t2 : without l t t1 → without l' t1 t2 → without (l ++ l') t t2.
Proof. intros H1 H2 w. rewrite H2, H1. repeat case_bool_decide; set_solver. Qed.
Lemma without_remove v t : without [v] t (remove_handle v t).2.
Proof.
  intros w. unfold remove_handle. destruct (handles t !! v) as [[h q]|] eqn:E; simpl; case_bool_decide as Hw; try rewrite list_elem_of_singleton in Hw; subst; try done; [apply lookup_delete_eq|by apply lookup_delete_ne].
Qed.
Lemma without_take_one d t : without (moves [d]) t (take_one d t).2.
Proof. rewrite moves_cons. unfold take_one. destruct (op_ d =? ZX_HANDLE_OP_DUP); [apply without_nil|apply without_remove]. Qed.
Lemma without_take ds t : without (moves ds) t (take_all ds t).2.
Proof.
  revert t. induction ds as [|d ds IH]; intros t; [apply without_nil|]. change (d :: ds) with ([d] ++ ds) at 1. rewrite moves_app. cbn [take_all].
  pose proof (without_take_one d t) as H1. destruct (take_one d t) as [r t1]. specialize (IH t1). destruct (take_all ds t1) as [rs t2]. by apply (without_app _ _ _ t1).
Qed.
Lemma without_close ds t : without (moves ds) t (close_chunk ds t).
Proof.
  unfold close_chunk. revert t. induction ds as [|d ds IH]; intros t; [apply without_nil|]. cbn [foldl]. rewrite moves_cons.
  destruct (op_ d =? ZX_HANDLE_OP_DUP); cbn [negb]; [apply IH|]. eapply without_app; [apply without_remove|apply IH].
Qed.

(** Of too many entries, those of the chunks that can be read are closed. *)
Lemma without_chunks b ds e num fuel j t : array_of b ds e → (MAX_MESSAGE_HANDLES < num)%nat → (num ≤ MAX_MESSAGE_HANDLES * j + fuel)%nat →
  without (moves (skipn (MAX_MESSAGE_HANDLES * j) (firstn (consumed num (length ds)) ds))) t (close_chunks fuel b (MAX_MESSAGE_HANDLES * j) num t).
Proof.
  intros Hb Hn. set (L := consumed num (length ds)). assert (L ≤ num ∧ ((length ds < num)%nat → L = (MAX_MESSAGE_HANDLES * (length ds / MAX_MESSAGE_HANDLES))%nat) ∧ ((num ≤ length ds)%nat → L = num))%nat as (HL & HL1 & HL2).
  { unfold L, consumed. pose proof (Nat.Div0.mul_div_le (length ds) MAX_MESSAGE_HANDLES). destruct (Nat.leb_spec num (length ds)), (Nat.leb_spec num MAX_MESSAGE_HANDLES); lia. }
  assert (0 < MAX_MESSAGE_HANDLES)%nat as Hpos by (unfold MAX_MESSAGE_HANDLES; lia). clearbody L. assert (∀ i, (L ≤ i)%nat → skipn i (firstn L ds) = []) as Hnil by (intros i Hi; apply drop_ge; rewrite length_take; lia).
  revert j t. induction fuel as [|fuel IH]; intros j t Hf; cbn [close_chunks]; [rewrite Hnil by lia; apply without_nil|].
  destruct (Nat.ltb_spec (MAX_MESSAGE_HANDLES * j) num) as [Hi|Hi]; [|rewrite Hnil by lia; apply without_nil]. rewrite Hb.
  set (i := (MAX_MESSAGE_HANDLES * j)%nat) in *. set (n := Nat.min (num - i) MAX_MESSAGE_HANDLES). assert (i + MAX_MESSAGE_HANDLES = MAX_MESSAGE_HANDLES * S j)%nat as Hs by lia.
  destruct (Nat.leb_spec (i + n) (length ds)) as [Hr|Hr].
  - assert (i + n ≤ L)%nat as Hle.
    { destruct (le_lt_dec num (length ds)) as [Hd|Hd]; [rewrite HL2; lia|]. rewrite HL1 by done. replace n with MAX_MESSAGE_HANDLES by lia. rewrite Hs. apply Nat.mul_le_mono_l, Nat.div_le_lower_bound; [done|lia]. }
    rewrite <-(take_drop n (skipn i (firstn L ds))), moves_app, drop_drop, take_drop_commute, take_take, Nat.min_l, <-take_drop_commute, Hs by lia.
    eapply without_app; [apply without_close|].
    replace (skipn (i + n) (firstn L ds)) with (skipn (MAX_MESSAGE_HANDLES * S j) (firstn L ds)); [apply IH; lia|].
    destruct (le_lt_dec (num - i) MAX_MESSAGE_HANDLES); [rewrite !Hnil by lia; done|]. f_equal; lia.
  - rewrite Hnil; [apply without_nil|]. destruct (le_lt_dec num (length ds)) as [Hd|Hd]; [lia|]. rewrite HL1 by done. apply Nat.mul_le_mono_l. enough (length ds / MAX_MESSAGE_HANDLES < S j)%nat by lia.
    apply Nat.Div0.div_lt_upper_bound. lia.
Qed.

(** The checks of an entry accept exactly what may be sent. *)
Lemma finish_one_iff channel d h h' : finish_one channel (d, Ok h) = Ok h' ↔ may_send channel d h ∧ h' = sent_as d h.
Proof.
  unfold finish_one, handle_check, may_send, sent_as, from_bits. cbn [fst snd]. simpl rbind.
  destruct (contains (rights h) Rights.TRANSFER); simpl; [|naive_solver]. destruct (Z.eqb_spec (handle d) channel) as [|Hc]; simpl; [naive_solver|].
  destruct (Z.eqb_spec (type_ d) 0) as [H0|H0]; simpl; [|destruct (obj_type (object h)) as [ty|e|]; simpl; [destruct (Z.eqb_spec (type_ d) ty) as [<-|]; simpl; [|naive_solver]|naive_solver..]].
  all: destruct (Z.eqb_spec (op_ d) ZX_HANDLE_OP_MOVE) as [Hm|Hm], (Z.eqb_spec (op_ d) ZX_HANDLE_OP_DUP) as [Hd|Hd], (contains (rights h) Rights.DUPLICATE); simpl; try (rewrite Hm in Hd; done).
  all: destruct (Z.eqb_spec (drights d) Rights.SAME_RIGHTS), (Z.eqb_spec (Z.ldiff (drights d) (rights h)) 0), (Z.eqb_spec (Z.ldiff (drights d) Rights.all) 0); simpl; naive_solver.
Qed.
Lemma take_one_result d t : (take_one d t).1 = match handles t !! handle d with Some (h, _) => Ok h | None => Err ZxError.BAD_HANDLE end.
Proof. unfold take_one, remove_handle, get_dyn_object_and_rights, get_handle. destruct (op_ d =? ZX_HANDLE_OP_DUP); simpl; by destruct (handles t !! handle d) as [[[] q]|]. Qed.
Lemma sends_cons channel t t1 d ds hs : without (moves [d]) t t1 →
  sends channel t (d :: ds) hs ↔ ∃ h q hs', handles t !! handle d = Some (h, q) ∧ may_send channel d h ∧ hs = sent_as d h :: hs' ∧ sends channel t1 ds hs'.
Proof.
  intros Hw. assert (∀ i e (P : Handle → Prop), handle e ∉ moves (d :: firstn i ds) ∧ (∃ h q, handles t !! handle e = Some (h, q) ∧ P h) ↔ handle e ∉ moves (firstn i ds) ∧ ∃ h q, handles t1 !! handle e = Some (h, q) ∧ P h) as Hs.
  { intros i e P. change (d :: firstn i ds) with ([d] ++ firstn i ds). rewrite moves_app, Hw. case_bool_decide; set_solver. }
  split.
  - intros [Hl Hi]. destruct hs as [|h' hs]; [done|]. destruct (Hi O d eq_refl) as [_ (h & q & Hh & Hm & [= ->])]. exists h, q, hs. split_and!; [done..|]. split; [by injection Hl|].
    intros i e He. apply (Hs i e (λ h, may_send channel e h ∧ hs !! i = Some (sent_as e h))). exact (Hi (S i) e He).
  - intros (h & q & hs' & Hh & Hm & -> & Hl & Hi). split; [simpl; by rewrite Hl|]. intros [|i] e He; [injection He as <-; split; [by apply not_elem_of_nil|]; by exists h, q|].
    apply (Hs i e (λ h, may_send channel e h ∧ hs' !! i = Some (sent_as e h))). exact (Hi i e He).
Qed.
Lemma finish_all_iff channel ds t hs : finish_all channel (zip ds (take_all ds t).1) = Ok hs ↔ sends channel t ds hs.
Proof.
  revert t hs. induction ds as [|d ds IH]; intros t hs; [simpl; split; [intros [= <-]; by split|intros [Hl _]; by destruct hs]|].
  rewrite (sends_cons _ _ _ _ _ _ (without_take_one d t)). pose proof (take_one_result d t) as Hr. cbn [take_all]. destruct (take_one d t) as [r t1]. cbn [fst snd] in *. specialize (IH t1).
  destruct (take_all ds t1) as [rs t2]. cbn [fst snd zip zip_with finish_all] in *. subst r. destruct (handles t !! handle d) as [[h q]|].
  - pose proof (finish_one_iff channel d h) as Hf. destruct (finish_one channel (d, Ok h)) as [h'|e|].
    + destruct (proj1 (Hf h') eq_refl) as [Hm ->]. assert (∀ r : ZxResult (list Handle), rmap (cons (sent_as d h)) r = Ok hs ↔ ∃ hs', r = Ok hs' ∧ hs = sent_as d h :: hs') as -> by (intros [l|e|]; simpl; naive_solver).
      setoid_rewrite IH. naive_solver.
    + split; [by destruct (finish_all _ _)|]. intros (h2 & q2 & hs' & [= <- <-] & Hm & _). by discriminate (proj2 (Hf _) (conj Hm eq_refl)).
    + split; [done|]. intros (h2 & q2 & hs' & [= <- <-] & Hm & _). by discriminate (proj2 (Hf _) (conj Hm eq_refl)).
  - split; [by simpl; destruct (finish_all _ _)|naive_solver].
Qed.

(** Reading the bytes. *)
Lemma gather_iff data l bs : (∀ v d, v ∈ l → iov_data v = Ok d → zlen d = capacity v) → zlen data ≤ MAX_MESSAGE_BYTES →
  gather data l = Ok bs ↔ ∃ parts, Forall2 (λ v d, reserved v = 0 ∧ iov_data v = Ok d) l parts ∧ bs = data ++ concat parts ∧ zlen bs ≤ MAX_MESSAGE_BYTES.
Proof.
  revert data. induction l as [|v l IH]; intros data Hc Hd; cbn [gather].
  { split; [intros [= <-]; exists []; simpl; rewrite app_nil_r; by repeat constructor|]. intros (parts & Hf & -> & _). inversion Hf. simpl. by rewrite app_nil_r. }
  destruct (Z.eqb_spec (reserved v) 0) as [Hr|Hr]; simpl; [|split; [done|]; intros (parts & Hf & _); inversion Hf; naive_solver].
  destruct (iov_data v) as [d|e|] eqn:Ed; [|destruct (_ <? _); (split; [done|]); intros (parts & Hf & _); inversion Hf as [|? ? ? ? [_ Hd1]]; rewrite Ed in Hd1; discriminate..].
  pose proof (Hc v d ltac:(by left) Ed) as Hl. assert (∀ parts, concat (d :: parts) = d ++ concat parts) as Hcc by done. destruct (Z.ltb_spec MAX_MESSAGE_BYTES (zlen data + capacity v)) as [Hb|Hb].
  - split; [done|]. intros (parts & Hf & -> & Hz). inversion Hf as [|? d' ? parts' [_ Hd'] Hf']; subst. rewrite Ed in Hd'. injection Hd' as <-. rewrite Hcc, !zlen_app in Hz. unfold zlen in *. lia.
  - simpl. rewrite IH; [|naive_solver (by right)|rewrite zlen_app; lia]. split.
    + intros (parts & Hf & -> & Hz). exists (d :: parts). rewrite Hcc, app_assoc. split_and!; [by constructor|done..].
    + intros (parts & Hf & -> & Hz). inversion Hf as [|? d' ? parts' [_ Hd'] Hf']; subst. rewrite Ed in Hd'. injection Hd' as <-. exists parts'. by rewrite <-app_assoc.
Qed.
Lemma options_ok options : Z.ldiff options USE_IOVEC = 0 ↔ options = 0 ∨ options = USE_IOVEC.
Proof.
  split; [|by intros [->| ->]]. intros E. assert (∀ k, Z.testbit options k = Z.testbit options 1 && Z.testbit USE_IOVEC k) as Hb.
  { intros k. destruct (decide (k = 1)) as [->|Hk]; [by destruct (Z.testbit options 1)|]. change USE_IOVEC with (bit 1) in *. rewrite bit_testbit, bool_decide_eq_false_2, andb_false_r by (done || lia).
    pose proof (f_equal (λ x, Z.testbit x k) E) as Hk'. cbn beta in Hk'. rewrite Z.ldiff_spec, Z.bits_0, bit_testbit, bool_decide_eq_false_2, andb_true_r in Hk' by (done || lia). done. }
  destruct (Z.testbit options 1); [right|left]; apply Z.bits_inj'; intros k _; rewrite Hb; [done|by rewrite Z.bits_0].
Qed.
Lemma read_data_iff options src bs : vecs_full src → Z.ldiff options USE_IOVEC = 0 ∧ read_data options src = Ok bs ↔ carries options src bs.
Proof.
  intros Hv. unfold read_data, read_channel_iovecs, carries. rewrite options_ok. split.
  - intros [[->| ->] H]; simpl in H; [left|right]; (match type of H with context [?a <? ?b] => destruct (Z.ltb_spec a b) end; [done|]); [done|]. split_and!; [done..|].
    destruct (vecs src) as [l|e|] eqn:El; simpl in H; [|done..]. apply gather_iff in H as (parts & Hf & -> & Hz); [|intros v d Hin Hd; by apply (Hv l)|done]. by exists l, parts.
  - intros [(-> & Hn & Hb)|(-> & Hn & l & parts & Hl & Hf & -> & Hz)]; simpl; (split; [auto|]); (match goal with |- context [?a <? ?b] => destruct (Z.ltb_spec a b) end; [lia|]); [done|]. rewrite Hl. simpl.
    apply gather_iff; [intros v d Hin Hd; by apply (Hv l)|done|]. by exists parts.
Qed.

(** Writing to a channel. *)
Lemma write_delivers d (m : message) (c : chan) : match get (other d) (ends c) with Some _ => (write d m c).1 = Ok tt ∧ delivered d m c (write d m c).2 | None => write d m c = (Err ZxError.PEER_CLOSED, c) end.
Proof.
  unfold write. destruct (get (other d) (ends c)) as [peer|] eqn:Ep; [|done]. unfold delivered, answers. rewrite Ep. destruct (Z.eqb_spec (get_txid m) 0) as [H0|H0]; simpl.
  2: destruct (call_reply peer !! get_txid m) as [i|] eqn:Ei; simpl.
  2:{ split; [done|]. set (c1 := with_ends _ _ c). destruct (send_ends i (Ok m) c1) as [-> _]. eexists peer, _. split_and!; [done|apply get_put_same| |].
      { unfold c1. simpl. by destruct d. }
      left. exists i. split_and!; try done; unfold send; change (oneshots c1) with (oneshots c); [by intros ->|]. by destruct (oneshots c !! i) as [[]|]. }
  all: split; [done|]; destruct (push_general_spec (other d) m c peer Ep) as ((p' & Hp' & Hq & _ & Hr & _) & Ho & Hs & _); rewrite other_involutive in Ho; exists peer, p'; split_and!; try done; right; split_and!; auto.
Qed.

(** The caller may write to the channel with the object [o]. *)
Definition may_write (channel : HandleValue) (t : HandleTable) (o : KernelObject) : Prop :=
  ∃ h q, handles t !! channel = Some (h, q) ∧ object h = o ∧ type_name o = "Channel"%string ∧ contains (rights h) Rights.WRITE = true.
Lemma may_write_iff channel t o : get_object_with_rights "Channel" channel Rights.WRITE t = Ok o ↔ may_write channel t o.
Proof.
  unfold get_object_with_rights, get_dyn_object_and_rights, get_handle, downcast, may_write. destruct (handles t !! channel) as [[h q]|]; simpl; [|naive_solver].
  destruct (String.eqb_spec (type_name (object h)) "Channel"); simpl; [|naive_solver]. destruct (contains (rights h) Rights.WRITE) eqn:E; simpl.
  - split; [intros [= <-]; by exists h, q|]. intros (h' & q' & [= <- <-] & <- & _). done.
  - split; [done|]. intros (h' & q' & [= <- <-] & _ & _ & Hc). congruence.
Qed.

(** What becomes of the message and of the table when the entries can be read. *)
Lemma prepare_exact channel options src b num out t ds e : array_of b ds e → vecs_full src →
  let '(r, t') := prepare_message channel options src b num false out t in
  without (moves (firstn (consumed num (length ds)) ds)) t t' ∧
  ((MAX_MESSAGE_HANDLES < num)%nat → r = Err ZxError.OUT_OF_RANGE) ∧
  ((length ds < num ≤ MAX_MESSAGE_HANDLES)%nat → r = Err e) ∧
  ∀ o m, r = Ok (o, m) ↔ (num ≤ MAX_MESSAGE_HANDLES)%nat ∧ (num ≤ length ds)%nat ∧ may_write channel t o ∧ carries options src (data m) ∧ sends channel t (firstn num ds) (msg_handles m).
Proof.
  intros Hb Hv. unfold prepare_message, take. destruct (Nat.ltb_spec MAX_MESSAGE_HANDLES num) as [Hn|Hn].
  { split_and!; [exact (without_chunks b ds e num num 0 t Hb Hn ltac:(lia))|done|lia|]. intros o m. split; [done|lia]. }
  rewrite Hb, Nat.add_0_l. unfold consumed. destruct (Nat.leb_spec num (length ds)) as [Hl|Hl]; rewrite ?drop_0.
  2:{ rewrite (proj2 (Nat.leb_le _ _) Hn). split_and!; [apply without_nil|lia|done|]. intros o m. split; [done|lia]. }
  pose proof (without_take (firstn num ds) t) as Hw. pose proof (finish_all_iff channel (firstn num ds) t) as Hf. destruct (take_all (firstn num ds) t) as [rs t']. cbn [fst snd] in *. cbv beta iota zeta.
  split_and!; [done|lia|lia|]. intros o m. rewrite <-may_write_iff, <-read_data_iff, <-Hf by done. cbn [andb].
  destruct (Z.eqb_spec (Z.ldiff options USE_IOVEC) 0) as [Hz|Hz]; cbn [negb]; [|naive_solver]. destruct (get_object_with_rights _ _ _ t) as [o'|e'|]; simpl; [|naive_solver..].
  destruct (read_data options src) as [bs|e'|]; simpl; [|naive_solver..]. unfold finish.
  destruct (finish_all _ _) as [hs|e'|]; [|destruct b, out; simpl; naive_solver..]. destruct m. simpl. naive_solver.
Qed.

(** C26. What [zx_channel_write] and [zx_channel_write_etc] do, for any request.  Of up to 64 entries, the handles that are moved
    leave the table of the sender, whatever the outcome; if the entries cannot be read nothing happens.  Of more than
    64, those in the chunks of 64 before one that cannot be read leave it, and the call fails with [OUT_OF_RANGE].
    The call succeeds exactly when there are at most 64 entries and they can be read, the channel handle is for a channel and has the
    right to write, the bytes or the parts of the vector can be read and are at most 65536, every entry is for a handle that is there, is
    not the channel's own, has the type asked for, may be transferred, and duplicated where that is asked for, with at most its rights, no entry is for a handle
    moved by an earlier one, and the peer exists.  Then the one message with these bytes and these handles, in order, with the rights asked for,
    answers the call of the peer that waits for its id or is put at the end of the queue of the peer.  Otherwise no channel changes. *)
Theorem sys_channel_write_exact pid channel options src b num out ds e t s : tables s !! pid = Some t → array_of b ds e → vecs_full src →
  (∀ o, may_write channel t o → is_Some (place_of o s)) →
  let '(r, s') := sys_channel_write pid channel options src b num out s in
  (∃ t', tables s' = <[pid := t']> (tables s) ∧ ∀ w, handles t' !! w = if bool_decide (w ∈ moves (firstn (consumed num (length ds)) ds)) then None else handles t !! w) ∧
  ((MAX_MESSAGE_HANDLES < num)%nat → r = Err ZxError.OUT_OF_RANGE) ∧
  ((length ds < num ≤ MAX_MESSAGE_HANDLES)%nat → r = Err e) ∧
  (r ≠ Ok tt → chans s' = chans s) ∧
  (r = Ok tt ↔ (num ≤ MAX_MESSAGE_HANDLES)%nat ∧ (num ≤ length ds)%nat ∧
     ∃ o k d c bs hs, may_write channel t o ∧ place_of o s = Some (k, d, c) ∧ carries options src bs ∧ sends channel t (firstn num ds) hs ∧ is_Some (get (other d) (ends c))) ∧
  (r = Ok tt → ∃ o k d c c' m, may_write channel t o ∧ place_of o s = Some (k, d, c) ∧ carries options src (data m) ∧ sends channel t (firstn num ds) (msg_handles m) ∧
     delivered d m c c' ∧ chans s' = <[k := c']> (chans s)).
Proof.
  intros Ht Hb Hv Hp. unfold sys_channel_write. rewrite Ht. pose proof (prepare_exact channel options src b num out t ds e Hb Hv) as Hr.
  destruct (prepare_message _ _ _ _ _ _ _ t) as [r t']. destruct Hr as (Hw & H1 & H2 & H3).
  assert (∀ o2 bs hs, (num ≤ MAX_MESSAGE_HANDLES)%nat → (num ≤ length ds)%nat → may_write channel t o2 → carries options src bs → sends channel t (firstn num ds) hs → r = Ok (o2, mkMessagePacket bs hs)) as H4 by (intros; by apply H3).
  destruct r as [[o m]|e'|]; [|split_and!; [by exists t'|intros Hx; specialize (H1 Hx); congruence|intros Hx; specialize (H2 Hx); congruence|done| |done]; split; [done|]; intros (Ha & Hc & o2 & k2 & d2 & c2 & bs & hs & G1 & G2 & G3 & G4 & _); by discriminate (H4 o2 bs hs)..].
  destruct (proj1 (H3 o m) eq_refl) as (Hn & Hl & Ho & Hd & Hs). destruct (Hp o Ho) as [[[k d] c] Hpl]. assert (place_of o (set_table pid t' s) = Some (k, d, c)) as -> by done.
  apply place_chans in Hpl as Hc. pose proof (write_delivers d m c) as Hwr.
  destruct (write d m c) as [r c'] eqn:Ew. destruct (get (other d) (ends c)) as [peer|] eqn:Eg.
  - destruct Hwr as [Hok Hdel]. simpl in Hok, Hdel. subst r. split_and!; [by exists t'|lia|lia|done| |].
    + split; [|done]. intros _. split_and!; [done..|]. exists o, k, d, c, (data m), (msg_handles m). by rewrite Eg.
    + intros _. by exists o, k, d, c, c', m.
  - injection Hwr as -> ->. split_and!; [by exists t'|lia|lia|intros _; simpl; by apply list_insert_id| |done].
    split; [done|]. intros (_ & _ & o2 & k2 & d2 & c2 & bs & hs & G1 & G2 & G3 & G4 & G5). assert (o2 = o) as -> by (destruct G1 as (? & ? & E1 & <- & _), Ho as (? & ? & E2 & <- & _); congruence).
    rewrite Hpl in G2. injection G2 as <- <- <-. rewrite Eg in G5. by destruct G5.
Qed.

(** C6. Whatever the processes do with channels - create, write, read, call, answer, abandon, duplicate, close and
    exit, in any order - a handle for an object that existed at the start has at most the rights of some handle for it at
    the start, wherever it is: in a table, in a queued message or in a reply.  And an object for which no handle
    has the right to be duplicated never gets more handles than it had. *)
Theorem capability_confinement os s : let s' := run os s in
  (∀ h', h' ∈ all_handles s' → koid h' < next_koid s → ∃ h, h ∈ all_handles s ∧ koid h = koid h' ∧ sub_rights (rights h') (rights h)) ∧
  (∀ id, id < next_koid s → (∀ h, h ∈ all_handles s → koid h = id → contains (rights h) Rights.DUPLICATE = false) → (count id (all_handles s') ≤ count id (all_handles s))%nat).
Proof. destruct (run_flow (next_koid s) os s ltac:(done)) as [H1 H2]. by split. Qed.

Module TransferDemo.
(** Two processes; the first has both ends of two channels. *)
Definition start : system := run [Spawn 1; Spawn 2; Create 1 0 None; Create 1 0 None] (mkSystem ∅ [] ∅ [] 1).
Definition table1 : HandleTable := default empty_table (tables start !! 1).
Definition value (id : Z) : HandleValue := default 0 (head (omap (λ '(v, (h, _)), if koid h =? id then Some v else None) (map_to_list (handles table1)))).
Definition src : Source := mkSource 3 (Ok [7; 8; 9]) (Ok []).
(** One handle is sent with the right to write only, the other as it is. *)
Definition given : list HandleDisposition :=
  [mkDisposition ZX_HANDLE_OP_MOVE (value 3) 4 Rights.WRITE 0; mkDisposition ZX_HANDLE_OP_MOVE (value 4) 0 Rights.SAME_RIGHTS 0].
Definition mem (ds : list HandleDisposition) (i n : nat) : ZxResult (list HandleDisposition) := if (i + n <=? length ds)%nat then Ok (firstn n (skipn i ds)) else Err ZxError.INVALID_ARGS.
(** Two handles are written to a channel: they are in its queue, and not in the table any more. *)
Lemma sys_channel_write_exact_witness : tables start !! 1 = Some table1 ∧
  let '(r, s') := sys_channel_write 1 (value 1) 0 src (Dispositions (mem given)) 2 None start in
  r = Ok tt ∧ (∃ t', tables s' !! 1 = Some t' ∧ ∀ w, handles t' !! w = if bool_decide (w ∈ [value 3; value 4]) then None else handles table1 !! w) ∧
  ∃ o k d c c' m, place_of o start = Some (k, d, c) ∧ data m = [7; 8; 9] ∧ sends (value 1) table1 given (msg_handles m) ∧ delivered d m c c' ∧ chans s' = <[k := c']> (chans start).
Proof.
  assert (tables start !! 1 = Some table1) as Ht by (vm_compute; reflexivity). split; [exact Ht|].
  assert (array_of (Dispositions (mem given)) given ZxError.INVALID_ARGS) as Ha by (intros i n; reflexivity).
  assert (vecs_full src) as Hv by (intros l v d [= <-] Hin; by apply not_elem_of_nil in Hin).
  assert (∀ o, may_write (value 1) table1 o → is_Some (place_of o start)) as Hp.
  { intros o Ho. apply may_write_iff in Ho. vm_compute in Ho. injection Ho as <-. vm_compute. by eexists. }
  pose proof (sys_channel_write_exact 1 (value 1) 0 src (Dispositions (mem given)) 2 None given ZxError.INVALID_ARGS table1 start Ht Ha Hv Hp) as Hw.
  assert ((sys_channel_write 1 (value 1) 0 src (Dispositions (mem given)) 2 None start).1 = Ok tt) as Hr by (vm_compute; reflexivity).
  destruct (sys_channel_write _ _ _ _ _ _ _ start) as [r s']. simpl in Hr. subst r. split; [reflexivity|].
  destruct Hw as ((t' & Hs & Hh) & _ & _ & _ & _ & Hd). split; [exists t'; split; [rewrite Hs; apply lookup_insert_eq|exact Hh]|].
  destruct (Hd eq_refl) as (o & k & d & c & c' & m & _ & Hpl & Hc & Hse & Hdel & Hch). exists o, k, d, c, c', m. split_and!; [exact Hpl| |exact Hse|exact Hdel|exact Hch].
  destruct Hc as [(_ & _ & [= <-])|([=] & _)]. reflexivity.
Defined.
End TransferDemo.
