(* ===== verification/PortPacket.v ===== *)
(** * Port packets ([zircon-object/src/signal/port_packet.rs])

    A packet is stored as a C struct whose payload is a union of 32 bytes; a tagged
    representation is used to build packets and to look at them.  The union is
    modelled by its bytes (the x86_64 layout), so that decoding under the wrong tag is
    as meaningless here as it is in the source. *)

From S2P Require Import Prelude Errors KObject.
From stdpp Require Import options.
#[local] Open Scope Z_scope.

Module PacketType.
Inductive t := User | SignalOne | SignalRep | GuestBell | GuestMem | GuestIo | GuestVcpu
  | Interrupt | PageRequest.

#[export] Instance t_eq_dec : EqDecision t.
Proof. solve_decision. Defined.
End PacketType.

(** The bytes of the union. *)
Definition Payload : Type := list Z.

Record PortPacket := mkPortPacket {
  key : Z;
  type_ : PacketType.t;
  status : ZxError.t;
  data : Payload
}.

Record PacketSignal := mkPacketSignal {
  trigger : Z;
  observed : Z;
  count : Z;
  timestamp : Z;
  sig_reserved1 : Z
}.

Record PacketGuestBell := mkPacketGuestBell {
  bell_addr : Z;
  bell_reserved0 : Z;
  bell_reserved1 : Z;
  bell_reserved2 : Z
}.

Record PacketGuestMem := mkPacketGuestMem {
  mem_addr : Z;
  inst_len : Z;
  inst_buf : list Z;
  default_operand_size : Z;
  mem_reserved : list Z
}.

Record PacketGuestIo := mkPacketGuestIo {
  io_port : Z;
  access_size : Z;
  input : bool;
  io_data : list Z;
  io_reserved0 : Z;
  io_reserved1 : Z;
  io_reserved2 : Z
}.

Inductive PacketGuestVcpuType := VcpuInterrupt | VcpuStartup.

(** [vcpu_data] holds the 16 bytes of the union [PacketGuestVcpuData]. *)
Record PacketGuestVcpu := mkPacketGuestVcpu {
  vcpu_data : list Z;
  vcpu_type : PacketGuestVcpuType;
  vcpu_padding1 : list Z;
  vcpu_reserved : Z
}.

(** [int_timestamp] is the two's complement image of the [i64]. *)
Record PacketInterrupt := mkPacketInterrupt {
  int_timestamp : Z;
  int_reserved0 : Z;
  int_reserved1 : Z;
  int_reserved2 : Z
}.

Inductive PayloadRepr :=
| RUser (user : list Z)
| RSignal (signal : PacketSignal)
| RGuestBell (bell : PacketGuestBell)
| RGuestMem (mem : PacketGuestMem)
| RGuestIo (io : PacketGuestIo)
| RGuestVcpu (vcpu : PacketGuestVcpu)
| RInterrupt (interrupt : PacketInterrupt).

Record PortPacketRepr := mkPortPacketRepr {
  repr_key : Z;
  repr_status : ZxError.t;
  repr_data : PayloadRepr
}.

Definition payload_type (p : PayloadRepr) : PacketType.t :=
  match p with
  | RUser _ => PacketType.User
  | RSignal _ => PacketType.SignalOne
  | RGuestBell _ => PacketType.GuestBell
  | RGuestMem _ => PacketType.GuestMem
  | RGuestIo _ => PacketType.GuestIo
  | RGuestVcpu _ => PacketType.GuestVcpu
  | RInterrupt _ => PacketType.Interrupt
  end.

Definition vcpu_type_byte (t : PacketGuestVcpuType) : Z :=
  match t with VcpuInterrupt => 0 | VcpuStartup => 1 end.

Definition encode (p : PayloadRepr) : Payload :=
  match p with
  | RUser user => user
  | RSignal s =>
      le_bytes 4 (trigger s) ++ le_bytes 4 (observed s) ++ le_bytes 8 (count s) ++
      le_bytes 8 (timestamp s) ++ le_bytes 8 (sig_reserved1 s)
  | RGuestBell b =>
      le_bytes 8 (bell_addr b) ++ le_bytes 8 (bell_reserved0 b) ++
      le_bytes 8 (bell_reserved1 b) ++ le_bytes 8 (bell_reserved2 b)
  | RGuestMem m =>
      le_bytes 8 (mem_addr m) ++ [inst_len m] ++ inst_buf m ++ [default_operand_size m] ++ mem_reserved m
  | RGuestIo i =>
      le_bytes 2 (io_port i) ++ [access_size i; if input i then 1 else 0] ++ io_data i ++
      le_bytes 8 (io_reserved0 i) ++ le_bytes 8 (io_reserved1 i) ++ le_bytes 8 (io_reserved2 i)
  | RGuestVcpu v =>
      vcpu_data v ++ [vcpu_type_byte (vcpu_type v)] ++ vcpu_padding1 v ++ le_bytes 8 (vcpu_reserved v)
  | RInterrupt i =>
      le_bytes 8 (int_timestamp i) ++ le_bytes 8 (int_reserved0 i) ++
      le_bytes 8 (int_reserved1 i) ++ le_bytes 8 (int_reserved2 i)
  end.

(** [n] bytes at offset [o]. *)
Definition field (o n : nat) (d : Payload) : list Z := take n (drop o d).
Definition uint_field (o n : nat) (d : Payload) : Z := le_value (field o n d).

Definition decode (t : PacketType.t) (d : Payload) : ZxResult PayloadRepr :=
  match t with
  | PacketType.User => Ok (RUser (field 0 32 d))
  | PacketType.SignalOne | PacketType.SignalRep =>
      Ok (RSignal (mkPacketSignal (uint_field 0 4 d) (uint_field 4 4 d) (uint_field 8 8 d)
            (uint_field 16 8 d) (uint_field 24 8 d)))
  | PacketType.GuestBell =>
      Ok (RGuestBell (mkPacketGuestBell (uint_field 0 8 d) (uint_field 8 8 d)
            (uint_field 16 8 d) (uint_field 24 8 d)))
  | PacketType.GuestMem =>
      Ok (RGuestMem (mkPacketGuestMem (uint_field 0 8 d) (uint_field 8 1 d) (field 9 15 d)
            (uint_field 24 1 d) (field 25 7 d)))
  | PacketType.GuestIo =>
      Ok (RGuestIo (mkPacketGuestIo (uint_field 0 2 d) (uint_field 2 1 d)
            (negb (uint_field 3 1 d =? 0)) (field 4 4 d)
            (uint_field 8 8 d) (uint_field 16 8 d) (uint_field 24 8 d)))
  | PacketType.GuestVcpu =>
      Ok (RGuestVcpu (mkPacketGuestVcpu (field 0 16 d)
            (if uint_field 16 1 d =? 0 then VcpuInterrupt else VcpuStartup)
            (field 17 7 d) (uint_field 24 8 d)))
  | PacketType.Interrupt =>
      Ok (RInterrupt (mkPacketInterrupt (uint_field 0 8 d) (uint_field 8 8 d)
            (uint_field 16 8 d) (uint_field 24 8 d)))
  | PacketType.PageRequest => Panic
  end.

(** [impl From<PortPacketRepr> for PortPacket] *)
Definition from_repr (r : PortPacketRepr) : PortPacket :=
  mkPortPacket (repr_key r) (payload_type (repr_data r)) (repr_status r) (encode (repr_data r)).

(** [impl From<&PortPacket> for PortPacketRepr] *)
Definition to_repr (p : PortPacket) : ZxResult PortPacketRepr :=
  rmap (mkPortPacketRepr (key p) (status p)) (decode (type_ p) (data p)).

(** The values a packet of the source can have. *)
Definition u8 (x : Z) : Prop := fits 8 x.
Definition u64 (x : Z) : Prop := fits 64 x.

Definition payload_wf (p : PayloadRepr) : Prop :=
  match p with
  | RUser user => length user = 32%nat
  | RSignal s => fits 32 (trigger s) ∧ fits 32 (observed s) ∧ u64 (count s) ∧ u64 (timestamp s) ∧
      u64 (sig_reserved1 s)
  | RGuestBell b => u64 (bell_addr b) ∧ u64 (bell_reserved0 b) ∧ u64 (bell_reserved1 b) ∧
      u64 (bell_reserved2 b)
  | RGuestMem m => u64 (mem_addr m) ∧ length (inst_buf m) = 15%nat ∧ length (mem_reserved m) = 7%nat
  | RGuestIo i => fits 16 (io_port i) ∧ length (io_data i) = 4%nat ∧ u64 (io_reserved0 i) ∧
      u64 (io_reserved1 i) ∧ u64 (io_reserved2 i)
  | RGuestVcpu v => length (vcpu_data v) = 16%nat ∧ length (vcpu_padding1 v) = 7%nat ∧
      u64 (vcpu_reserved v)
  | RInterrupt i => u64 (int_timestamp i) ∧ u64 (int_reserved0 i) ∧ u64 (int_reserved1 i) ∧
      u64 (int_reserved2 i)
  end.

Lemma field_app_l n (a b : Payload) : length a = n → field 0 n (a ++ b) = a.
Proof. intros <-. unfold field. rewrite drop_0. apply take_app_length. Qed.

Lemma field_app_r o n (a b : Payload) :
  (length a ≤ o)%nat → field o n (a ++ b) = field (o - length a) n b.
Proof. intros Ha. unfold field. rewrite drop_app_ge by done. done. Qed.

Lemma field_all n (a : Payload) : length a = n → field 0 n a = a.
Proof. intros <-. unfold field. rewrite drop_0. apply firstn_all. Qed.

Lemma field_cons_0 x (a : Payload) : field 0 1 (x :: a) = [x].
Proof. unfold field. simpl. by rewrite take_0. Qed.

Lemma field_cons_S o n x (a : Payload) : field (S o) n (x :: a) = field o n a.
Proof. done. Qed.

(** Locate a field in a concatenation of images. *)
Ltac lens := repeat first [rewrite length_le_bytes | rewrite length_app |
  match goal with H : length _ = _ |- _ => rewrite H end]; simpl; try lia; try done.
Ltac fields :=
  unfold uint_field;
  repeat first
    [ rewrite field_all by lens
    | rewrite field_cons_0
    | rewrite field_cons_S
    | rewrite field_app_l by lens
    | match goal with
      | |- context [field ?o ?n (?a ++ ?b)] =>
          rewrite (field_app_r o n a b) by lens;
          let k := fresh in evar (k : nat);
          replace (o - length a)%nat with k by (unfold k; lens; reflexivity); unfold k; clear k
      end ].

Lemma le_roundtrip_fits w n x : w = 8 * Z.of_nat n → fits w x → le_value (le_bytes n x) = x.
Proof.
  intros ->. unfold fits. rewrite Z.pow_mul_r by lia. change (2 ^ 8) with 256. apply le_roundtrip.
Qed.

Lemma le_value_single x : le_value [x] = x.
Proof. simpl. lia. Qed.

(** Solve a field equation by the width of the field. *)
Ltac field_eq :=
  fields; rewrite ?le_value_single; first [done | by eapply (le_roundtrip_fits _ _ _ eq_refl)].

#[local] Opaque le_bytes.

Lemma decode_encode p : payload_wf p → decode (payload_type p) (encode p) = Ok p.
Proof.
  destruct p as [u|s|b|m|i|v|i]; intros Hwf; unfold payload_wf in Hwf; simpl.
  - by rewrite field_all.
  - destruct Hwf as (?&?&?&?&?), s; simpl in *. do 3 f_equal; field_eq.
  - destruct Hwf as (?&?&?&?), b; simpl in *. do 3 f_equal; field_eq.
  - destruct Hwf as (?&?&?), m; simpl in *. do 3 f_equal; field_eq.
  - destruct Hwf as (?&?&?&?&?), i as [? ? [] ? ? ? ?]; simpl in *; do 3 f_equal; field_eq.
  - destruct Hwf as (?&?&?), v as [? [] ? ?]; simpl in *; do 3 f_equal; field_eq.
  - destruct Hwf as (?&?&?&?), i; simpl in *. do 3 f_equal; field_eq.
Qed.

Lemma length_encode p : payload_wf p → length (encode p) = 32%nat.
Proof.
  destruct p as [u|s|b|m|i|v|i]; intros Hwf; unfold payload_wf in Hwf; simpl; try done;
    repeat match goal with H : _ ∧ _ |- _ => destruct H end;
    repeat first [rewrite length_app | rewrite length_le_bytes | progress simpl]; lia.
Qed.

(** Storing a packet in its C layout and reading it back gives the packet: the
    payload fills exactly the 32 bytes of the union, and decoding it under the stored tag
    recovers the key, the status and every field of the payload. *)
Theorem port_packet_roundtrip r :
  payload_wf (repr_data r) →
  to_repr (from_repr r) = Ok r ∧ length (data (from_repr r)) = 32%nat.
Proof.
  intros Hwf. split; [|by apply length_encode]. unfold to_repr, from_repr. simpl.
  rewrite decode_encode by done. by destruct r.
Qed.

Lemma port_packet_roundtrip_witness :
  let s := mkPacketSignal Signal.READABLE (Z.lor Signal.READABLE Signal.WRITABLE) 1 1234567890123 0 in
  to_repr (from_repr (mkPortPacketRepr 42 ZxError.OK (RSignal s))) =
  Ok (mkPortPacketRepr 42 ZxError.OK (RSignal s)).
Proof.
  intros s. apply (port_packet_roundtrip (mkPortPacketRepr 42 ZxError.OK (RSignal s))).
  vm_compute. repeat split; congruence.
Defined.
