(* ===== verification/Port.v ===== *)
(** * Ports ([zircon-object/src/signal/port.rs])

    A port queues packets that are pushed by users, by signal observers registered on
    other objects and by interrupts.  An observer fires at most once; a packet it queued
    is dropped at delivery when the handle the wait was made through is closed. *)

From S2P Require Import Prelude Errors KObject PortPacket.
From stdpp Require Import options.
#[local] Open Scope Z_scope.

Module WaitAsyncOptions.
Definition TIMESTAMP : Z := 1.
Definition EDGE : Z := 2.
Definition BOOT_TIMESTAMP : Z := 4.
End WaitAsyncOptions.

Module PortOptions.
Definition BIND_TO_INTERUPT := bit 0.
Definition all : Z := BIND_TO_INTERUPT.
End PortOptions.

Definition MAX_ALLOCATED_PACKET_COUNT : Z := 16 * 1024.
Definition MAX_ALLOCATED_PACKET_COUNT_PER_PORT : Z := MAX_ALLOCATED_PACKET_COUNT / 8.

Record QueuedPacket := mkQueuedPacket { packet : PortPacket; observer : option Z }.

(** [cancel] names the receiver of a cancel token. *)
Record Observer := mkObserver {
  source : Z * Z;
  okey : Z;
  signals : Z;
  options : Z;
  cancel_token : option nat
}.

(** [Observer::handle_closed]: the sender of the token has sent or was dropped.  Once
    [try_recv] has reported this it keeps doing so. *)
Definition handle_closed (closed : gset nat) (o : Observer) : bool :=
  match cancel_token o with Some t => bool_decide (t ∈ closed) | None => false end.

Record PortInterruptPacket := mkPortInterruptPacket { itimestamp : Z; ikey : Z; pid : Z }.

(** [impl From<PortInterruptPacket> for PacketInterrupt] *)
Definition packet_interrupt (p : PortInterruptPacket) : PacketInterrupt :=
  mkPacketInterrupt (wrap 64 (itimestamp p)) 0 0 0.

Record PortInner := mkPortInner {
  queue : list QueuedPacket;
  observers : gmap Z Observer;
  next_observer : Z;
  interrupt_queue : list PortInterruptPacket;
  interrupt_grave : gset Z;
  interrupt_pid : Z
}.

Definition inner_default : PortInner := mkPortInner [] ∅ 0 [] ∅ 0.

Definition with_queue (q : list QueuedPacket) (i : PortInner) : PortInner :=
  mkPortInner q (observers i) (next_observer i) (interrupt_queue i) (interrupt_grave i) (interrupt_pid i).
Definition with_observers (o : gmap Z Observer) (i : PortInner) : PortInner :=
  mkPortInner (queue i) o (next_observer i) (interrupt_queue i) (interrupt_grave i) (interrupt_pid i).
Definition with_interrupts (q : list PortInterruptPacket) (g : gset Z) (i : PortInner) : PortInner :=
  mkPortInner (queue i) (observers i) (next_observer i) q g (interrupt_pid i).

Section port.
Context {W : Type}.

Record Port := mkPort {
  base : KObjectBase W;
  world : W;
  port_options : Z;
  inner : PortInner
}.

Definition new (id opts : Z) (w : W) : ZxResult Port :=
  let? o := ok_or (from_bits PortOptions.all opts) ZxError.INVALID_ARGS in
  Ok (mkPort (KObjectBase_new id) w o inner_default).

Definition with_inner (i : PortInner) (p : Port) : Port := mkPort (base p) (world p) (port_options p) i.
Definition set_readable (p : Port) : Port :=
  let '(b, w) := signal_set Signal.READABLE (base p) (world p) in mkPort b w (port_options p) (inner p).
Definition clear_readable (p : Port) : Port :=
  let '(b, w) := signal_clear Signal.READABLE (base p) (world p) in mkPort b w (port_options p) (inner p).

Definition can_bind_to_interrupt (p : Port) : bool := contains (port_options p) PortOptions.BIND_TO_INTERUPT.

Definition enqueue (q : QueuedPacket) (p : Port) : Port :=
  set_readable (with_inner (with_queue (queue (inner p) ++ [q]) (inner p)) p).

Definition push (pkt : PortPacket) (p : Port) : Port := enqueue (mkQueuedPacket pkt None) p.

Definition push_user (pkt : PortPacket) (p : Port) : ZxResult unit * Port :=
  let pkt := mkPortPacket (key pkt) PacketType.User (status pkt) (data pkt) in
  if MAX_ALLOCATED_PACKET_COUNT_PER_PORT <=? zlen (queue (inner p)) then (Err ZxError.SHOULD_WAIT, p)
  else (Ok tt, enqueue (mkQueuedPacket pkt None) p).

(** The first half of [wait_async]: the observer and its id. *)
Definition register (o : Observer) (p : Port) : Z * Port :=
  let i := inner p in
  let id := wadd 64 (next_observer i) 1 in
  (id, with_inner (mkPortInner (queue i) (<[id := o]> (observers i)) id (interrupt_queue i)
                     (interrupt_grave i) (interrupt_pid i)) p).

(** The packet an observer queues. *)
Definition signal_packet (now : Z) (o : Observer) (observed : Z) : PortPacket :=
  let timestamp :=
    if intersects (options o) (Z.lor WaitAsyncOptions.TIMESTAMP WaitAsyncOptions.BOOT_TIMESTAMP)
    then now else 0 in
  from_repr (mkPortPacketRepr (okey o) ZxError.OK (RSignal (mkPacketSignal (signals o) observed 1 timestamp 0))).

(** [now] is [timer_now], [closed] the cancel tokens that have fired. *)
Definition signal_observer (closed : gset nat) (now id observed : Z) (initial : bool) (p : Port) :
    bool * Port :=
  match observers (inner p) !! id with
  | None => (true, p)
  | Some o =>
      if handle_closed closed o then
        (true, with_inner (with_observers (delete id (observers (inner p))) (inner p)) p)
      else if negb (intersects observed (signals o)) || (initial && contains (options o) WaitAsyncOptions.EDGE)
      then (false, p)
      else (true, enqueue (mkQueuedPacket (signal_packet now o observed) (Some id)) p)
  end.

(** The second half of [wait_async] registers this callback on the object; [initial]
    holds the ids whose [AtomicBool] is still set.  The port is alive while it is
    observed, so the weak reference upgrades. *)
Record PortEnv := mkPortEnv { port : Port; initial : gset Z; closed : gset nat; timer_now : Z }.

Definition port_callback (id : Z) : SignalHandler PortEnv := λ observed e,
  let '(done, p) := signal_observer (closed e) (timer_now e) id observed
                      (bool_decide (id ∈ initial e)) (port e) in
  (done, mkPortEnv p (initial e ∖ {[id]}) (closed e) (timer_now e)).

Definition wait_async (object : KObjectBase PortEnv) (o : Observer) (e : PortEnv) :
    KObjectBase PortEnv * PortEnv :=
  let '(id, p) := register o (port e) in
  add_signal_callback (port_callback id) object
    (mkPortEnv p ({[id]} ∪ initial e) (closed e) (timer_now e)).

Definition cancels (src : option (Z * Z)) (k : Z) (o : Observer) : bool :=
  (okey o =? k) && match src with None => true | Some s => bool_decide (s = source o) end.

Definition cancel_queued (src : option (Z * Z)) (k : Z) (obs : gmap Z Observer) (q : QueuedPacket) : bool :=
  match observer q with
  | Some id => negb (bool_decide (is_Some (obs !! id)))
  | None => match src with None => key (packet q) =? k | Some _ => false end
  end.

Definition cancel (src : option (Z * Z)) (k : Z) (p : Port) : ZxResult unit * Port :=
  let i := inner p in
  let obs := filter (λ '(_, o), cancels src k o = false) (observers i) in
  let found := existsb (λ '(_, o), cancels src k o) (map_to_list (observers i)) in
  let q := List.filter (λ q, negb (cancel_queued src k obs q)) (queue i) in
  let found := found || existsb (cancel_queued src k obs) (queue i) in
  let p := with_inner (with_queue q (with_observers obs i)) p in
  let p := if is_empty q && is_empty (interrupt_queue i) then clear_readable p else p in
  (if found then Ok tt else Err ZxError.NOT_FOUND, p).

Definition push_interrupt (timestamp k : Z) (p : Port) : Z * Port :=
  let i := inner p in
  let id := wadd 64 (interrupt_pid i) 1 in
  (id, set_readable (with_inner
     (mkPortInner (queue i) (observers i) (next_observer i)
        (interrupt_queue i ++ [mkPortInterruptPacket timestamp k id])
        ({[id]} ∪ interrupt_grave i) id) p)).

Definition remove_interrupt (id : Z) (p : Port) : bool * Port :=
  let i := inner p in
  (bool_decide (id ∈ interrupt_grave i),
   with_inner (with_interrupts (interrupt_queue i) (interrupt_grave i ∖ {[id]}) i) p).

(** The two loops of [wait], on the queue they empty. *)
Fixpoint drain_interrupts (iq : list PortInterruptPacket) (p : Port) :
    option PortInterruptPacket * Port :=
  match iq with
  | [] => (None, p)
  | pkt :: rest =>
      let in_queue := bool_decide (pid pkt ∈ interrupt_grave (inner p)) in
      let p := with_inner (with_interrupts rest (interrupt_grave (inner p) ∖ {[pid pkt]}) (inner p)) p in
      let p := if is_empty (queue (inner p)) && is_empty rest then clear_readable p else p in
      if in_queue then (Some pkt, p) else drain_interrupts rest p
  end.

Fixpoint drain_queue (closed : gset nat) (q : list QueuedPacket) (p : Port) : option QueuedPacket * Port :=
  match q with
  | [] => (None, p)
  | queued :: rest =>
      let p := with_inner (with_queue rest (inner p)) p in
      let p := if is_empty rest && (is_empty (interrupt_queue (inner p)) || negb (can_bind_to_interrupt p))
               then clear_readable p else p in
      match observer queued with
      | Some id =>
          match observers (inner p) !! id with
          | None => drain_queue closed rest p
          | Some o =>
              let p := with_inner (with_observers (delete id (observers (inner p))) (inner p)) p in
              if handle_closed closed o then drain_queue closed rest p else (Some queued, p)
          end
      | None => (Some queued, p)
      end
  end.

(** What one round of [wait] takes from the port, once it has been woken; [None] waits
    again. *)
Inductive taken := TInterrupt (p : PortInterruptPacket) | TQueued (q : QueuedPacket).

Definition wait_round (closed : gset nat) (p : Port) : option taken * Port :=
  let '(r, p) := if can_bind_to_interrupt p then drain_interrupts (interrupt_queue (inner p)) p
                 else (None, p) in
  match r with
  | Some pkt => (Some (TInterrupt pkt), p)
  | None =>
      let '(r, p) := drain_queue closed (queue (inner p)) p in
      (TQueued <$> r, p)
  end.

(** The packet [wait] returns. *)
Definition delivered (t : taken) : PortPacket :=
  match t with
  | TInterrupt pkt =>
      from_repr (mkPortPacketRepr (ikey pkt) ZxError.OK (RInterrupt (packet_interrupt pkt)))
  | TQueued q => packet q
  end.

(** ** Basic facts *)

Definition readable (p : Port) : bool := contains (signal (base p)) Signal.READABLE.

Lemma set_readable_spec p :
  inner (set_readable p) = inner p ∧ port_options (set_readable p) = port_options p ∧
  readable (set_readable p) = true.
Proof.
  unfold set_readable, readable. pose proof (signal_set_signal Signal.READABLE (base p) (world p)) as Hs.
  destruct (signal_set _ _ _) as [b w]. simpl in *. split_and!; [done..|]. rewrite Hs. by sigbits.
Qed.

Lemma clear_readable_spec p :
  inner (clear_readable p) = inner p ∧ port_options (clear_readable p) = port_options p ∧
  readable (clear_readable p) = false.
Proof.
  unfold clear_readable, readable. pose proof (signal_clear_signal Signal.READABLE (base p) (world p)) as Hs.
  destruct (signal_clear _ _ _) as [b w]. simpl in *. split_and!; [done..|]. rewrite Hs. by sigbits.
Qed.

(** Clearing under a condition. *)
Lemma clear_if_spec (c : bool) p :
  let p' := if c then clear_readable p else p in
  inner p' = inner p ∧ port_options p' = port_options p ∧ readable p' = negb c && readable p.
Proof. destruct c; simpl; [apply clear_readable_spec|done]. Qed.

Definition observer_ids (q : list QueuedPacket) : list Z := omap observer q.
#[local] Arguments observer_ids : simpl never.

(** A packet that delivery skips: its observer is gone or its handle closed. *)
Definition stale (closed : gset nat) (obs : gmap Z Observer) (q : QueuedPacket) : Prop :=
  ∃ id, observer q = Some id ∧
    match obs !! id with Some o => handle_closed closed o = true | None => True end.

Definition live (closed : gset nat) (obs : gmap Z Observer) (q : QueuedPacket) : Prop :=
  match observer q with
  | Some id => ∃ o, obs !! id = Some o ∧ handle_closed closed o = false
  | None => True
  end.

(** What the second loop of [wait] does: it skips stale packets up to the first live
    one, which it returns, and forgets the observers of the packets it took out. *)
Record drained (closed : gset nat) (q : list QueuedPacket) (p : Port) (r : option QueuedPacket)
    (p' : Port) (skipped : list QueuedPacket) : Prop := {
  dr_queue : q = skipped ++ option_list r ++ queue (inner p');
  dr_none : r = None → queue (inner p') = [];
  dr_skipped : Forall (stale closed (observers (inner p))) skipped;
  dr_live x : r = Some x → live closed (observers (inner p)) x;
  dr_observers id : observers (inner p') !! id =
    if decide (id ∈ observer_ids (skipped ++ option_list r)) then None else observers (inner p) !! id;
  dr_rest : next_observer (inner p') = next_observer (inner p) ∧
    interrupt_queue (inner p') = interrupt_queue (inner p) ∧
    interrupt_grave (inner p') = interrupt_grave (inner p) ∧
    interrupt_pid (inner p') = interrupt_pid (inner p) ∧ port_options p' = port_options p;
  dr_readable : readable p' =
    readable p && negb (negb (is_empty q) && is_empty (queue (inner p')) &&
      (is_empty (interrupt_queue (inner p)) || negb (can_bind_to_interrupt p)))
}.

Lemma observer_ids_cons x q : observer_ids (x :: q) = option_list (observer x) ++ observer_ids q.
Proof. unfold observer_ids. simpl. by destruct (observer x). Qed.

(** [p3] is [p] after [x] was popped, with [q] left, and its observer forgotten. *)
Record popped (x : QueuedPacket) (q : list QueuedPacket) (p p3 : Port) : Prop := {
  pop_queue : queue (inner p3) = q;
  pop_observers id : observers (inner p3) !! id =
    if decide (Some id = observer x) then None else observers (inner p) !! id;
  pop_rest : next_observer (inner p3) = next_observer (inner p) ∧
    interrupt_queue (inner p3) = interrupt_queue (inner p) ∧
    interrupt_grave (inner p3) = interrupt_grave (inner p) ∧
    interrupt_pid (inner p3) = interrupt_pid (inner p) ∧ port_options p3 = port_options p;
  pop_readable : readable p3 = readable p && negb (is_empty q &&
    (is_empty (interrupt_queue (inner p)) || negb (can_bind_to_interrupt p)))
}.

Lemma drained_skip closed x q p p3 r p' sk :
  NoDup (observer_ids (x :: q)) → popped x q p p3 → stale closed (observers (inner p)) x →
  drained closed q p3 r p' sk → drained closed (x :: q) p r p' (x :: sk).
Proof.
  intros Hnd [Hq3 Hobs (H1 & H2 & H3 & H4 & H5) Hr3] Hst [D1 D2 D3 D4 D5 D6 D7].
  assert (∀ id, id ∈ observer_ids q → Some id ≠ observer x) as Hfresh.
  { intros id Hid E. rewrite observer_ids_cons, <-E in Hnd. simpl in Hnd. by apply NoDup_cons in Hnd as [? _]. }
  split; try done.
  - by rewrite D1 at 1.
  - constructor; [done|]. apply Forall_forall. intros y Hy. rewrite Forall_forall in D3.
    destruct (D3 y Hy) as (id & Hid & Hy'). exists id. split; [done|]. rewrite Hobs in Hy'.
    destruct (decide (Some id = observer x)) as [E|]; [|done]. exfalso. apply (Hfresh id); [|done].
    unfold observer_ids. rewrite D1, omap_app. apply elem_of_app. left.
    apply list_elem_of_omap. by exists y.
  - intros y ->. specialize (D4 y eq_refl). unfold live in *. destruct (observer y) as [id|] eqn:Ey; [|done].
    rewrite Hobs in D4. destruct (decide (Some id = observer x)); [by destruct D4 as (? & ? & _)|done].
  - intros id. rewrite D5, Hobs. change ((x :: sk) ++ option_list r) with (x :: (sk ++ option_list r)).
    rewrite observer_ids_cons.
    destruct (decide (id ∈ observer_ids (sk ++ option_list r))) as [Hin|Hin].
    + rewrite decide_True; [done|]. apply elem_of_app. by right.
    + apply decide_ext. rewrite elem_of_app. destruct (observer x) as [id'|]; simpl.
      * rewrite list_elem_of_singleton. naive_solver.
      * rewrite elem_of_nil. naive_solver.
  - naive_solver congruence.
  - rewrite D7, Hr3. unfold can_bind_to_interrupt. rewrite H2, H5. destruct q as [|y q']; [|by rewrite andb_true_r].
    rewrite andb_true_r. by rewrite D2 by (destruct r; [by destruct sk|done]).
Qed.

Lemma drained_last closed x q p p3 :
  popped x q p p3 → live closed (observers (inner p)) x → drained closed (x :: q) p (Some x) p3 [].
Proof.
  intros [Hq3 Hobs Hrest Hr3] Hl. split; try done.
  - simpl. by rewrite Hq3.
  - by intros y [= <-].
  - intros id. rewrite Hobs. change ([] ++ option_list (Some x)) with [x].
    rewrite observer_ids_cons. apply decide_ext. destruct (observer x) as [id'|]; simpl.
    + rewrite list_elem_of_singleton. naive_solver.
    + rewrite elem_of_nil. naive_solver.
  - by rewrite Hr3, Hq3.
Qed.

Lemma drain_queue_spec closed q p :
  queue (inner p) = q → NoDup (observer_ids q) →
  let '(r, p') := drain_queue closed q p in ∃ skipped, drained closed q p r p' skipped.
Proof.
  revert p. induction q as [|x q IH]; intros p Hq Hnd.
  { exists []. split; simpl; try done. by rewrite andb_true_r. }
  assert (NoDup (observer_ids q)) as Hnd'.
  { rewrite observer_ids_cons in Hnd. by apply NoDup_app in Hnd as (_ & _ & ?). }
  assert (∀ p3, popped x q p p3 → stale closed (observers (inner p)) x →
    let '(r, p') := drain_queue closed q p3 in ∃ skipped, drained closed (x :: q) p r p' skipped) as Hrec.
  { intros p3 Hpop Hst. pose proof (IH p3 (pop_queue _ _ _ _ Hpop) Hnd') as Hind.
    destruct (drain_queue closed q p3) as [r p']. destruct Hind as (sk & Hd).
    exists (x :: sk). by eapply drained_skip. }
  simpl. set (p1 := with_inner (with_queue q (inner p)) p).
  set (c := is_empty q && _). pose proof (clear_if_spec c p1) as (Hi & Ho & Hr).
  set (p2 := if c then clear_readable p1 else p1) in *. rewrite andb_comm in Hr.
  destruct (observer x) as [id|] eqn:Ex.
  - rewrite Hi. change (observers (inner p1)) with (observers (inner p)).
    destruct (observers (inner p) !! id) as [o|] eqn:Eo.
    + set (p3 := with_inner _ p2).
      assert (popped x q p p3) as Hpop.
      { split; try done. intros id0. unfold p3. simpl. rewrite lookup_delete, Ex.
        destruct (decide (id = id0)) as [->|]; [by rewrite decide_True|]. rewrite decide_False; [done|congruence]. }
      destruct (handle_closed closed o) eqn:Hcl.
      * apply Hrec; [done|]. exists id. split; [done|]. by rewrite Eo.
      * exists []. apply drained_last; [done|]. unfold live. rewrite Ex. by exists o.
    + apply Hrec; [split; rewrite ?Hi; try done|exists id; split; [done|by rewrite Eo]].
      intros id0. rewrite Ex. simpl. destruct (decide (Some id0 = Some id)) as [[= ->]|]; done.
  - exists []. apply drained_last; [|unfold live; by rewrite Ex].
    split; rewrite ?Hi; try done. intros id0. rewrite Ex. by rewrite decide_False by done.
Qed.

(** The first loop of [wait]: packets removed by [remove_interrupt] are skipped. *)
Record idrained (q : list PortInterruptPacket) (p : Port) (r : option PortInterruptPacket)
    (p' : Port) (skipped : list PortInterruptPacket) : Prop := {
  idr_queue : q = skipped ++ option_list r ++ interrupt_queue (inner p');
  idr_none : r = None → interrupt_queue (inner p') = [];
  idr_skipped : Forall (λ x, pid x ∉ interrupt_grave (inner p)) skipped;
  idr_live x : r = Some x → pid x ∈ interrupt_grave (inner p);
  idr_grave g : g ∈ interrupt_grave (inner p') ↔
    g ∈ interrupt_grave (inner p) ∧ g ∉ (pid <$> skipped ++ option_list r);
  idr_rest : queue (inner p') = queue (inner p) ∧ observers (inner p') = observers (inner p) ∧
    next_observer (inner p') = next_observer (inner p) ∧
    interrupt_pid (inner p') = interrupt_pid (inner p) ∧ port_options p' = port_options p;
  idr_readable : readable p' = readable p && negb (negb (is_empty q) &&
    is_empty (interrupt_queue (inner p')) && is_empty (queue (inner p)))
}.

Lemma drain_interrupts_spec q p :
  interrupt_queue (inner p) = q → NoDup (pid <$> q) →
  let '(r, p') := drain_interrupts q p in ∃ skipped, idrained q p r p' skipped.
Proof.
  revert p. induction q as [|x q IH]; intros p Hq Hnd.
  { exists []. split; simpl; try done; [intros g; rewrite elem_of_nil; tauto|]. by rewrite andb_true_r. }
  rewrite fmap_cons in Hnd. apply NoDup_cons in Hnd as [Hx Hnd].
  simpl. set (p1 := with_inner _ p). set (c := is_empty (queue (inner p)) && is_empty q).
  pose proof (clear_if_spec c p1) as (Hi & Ho & Hr). set (p2 := if c then clear_readable p1 else p1) in *.
  change (readable p1) with (readable p) in Hr. change (port_options p1) with (port_options p) in Ho.
  destruct (decide (pid x ∈ interrupt_grave (inner p))) as [Hin|Hin].
  - rewrite bool_decide_true by done. exists []. split; simpl; try done; rewrite ?Hi; try done.
    + by intros y [= <-].
    + intros g. unfold p1. simpl. rewrite elem_of_difference, elem_of_singleton, list_elem_of_singleton. done.
    + rewrite Hr. unfold c. rewrite andb_comm. simpl. by rewrite andb_comm with (b1 := is_empty q).
  - rewrite bool_decide_false by done.
    pose proof (IH p2 ltac:(by rewrite Hi) Hnd) as Hind. destruct (drain_interrupts q p2) as [r p'].
    destruct Hind as (sk & [D1 D2 D3 D4 D5 D6 D7]). rewrite Hi in *. simpl in *.
    exists (x :: sk). split; simpl; try done.
    + by rewrite D1 at 1.
    + constructor; [done|]. eapply Forall_impl; [exact D3|]. intros y Hy Hy'. apply Hy, elem_of_difference.
      split; [done|]. rewrite elem_of_singleton. congruence.
    + intros y ->. specialize (D4 y eq_refl). by apply elem_of_difference in D4 as [? _].
    + intros g. rewrite D5, elem_of_difference, elem_of_singleton, elem_of_cons. clear. tauto.
    + by rewrite <-Ho.
    + rewrite D7, Hr. unfold c. destruct q as [|y q]; simpl.
      * rewrite andb_true_r. rewrite D2 by (destruct r; [by destruct sk|done]). simpl.
        by rewrite andb_true_r, andb_comm.
      * by rewrite andb_false_r.
Qed.

(** ** Invariant *)

(** [active] are the ids whose callback is still registered on an object. *)
Record port_wf (active : gset Z) (p : Port) : Prop := {
  wf_readable : readable p =
    negb (is_empty (queue (inner p)) && is_empty (interrupt_queue (inner p)));
  wf_bind : interrupt_queue (inner p) ≠ [] → can_bind_to_interrupt p = true;
  wf_ids id : is_Some (observers (inner p) !! id) ∨ id ∈ active → 0 < id ≤ next_observer (inner p);
  wf_queued q id : q ∈ queue (inner p) → observer q = Some id →
    id ∉ active ∧ ∃ o, observers (inner p) !! id = Some o ∧ key (packet q) = okey o;
  wf_nodup : NoDup (observer_ids (queue (inner p)));
  wf_pids : NoDup (pid <$> interrupt_queue (inner p));
  wf_pid_bound : Forall (λ x, pid x ≤ interrupt_pid (inner p)) (interrupt_queue (inner p));
  wf_grave g : g ∈ interrupt_grave (inner p) → g ∈ (pid <$> interrupt_queue (inner p));
  wf_counters : 0 ≤ next_observer (inner p) ∧ 0 ≤ interrupt_pid (inner p)
}.

Lemma is_empty_app {A} (l k : list A) : is_empty (l ++ k) = is_empty l && is_empty k.
Proof. by destruct l. Qed.

Lemma enqueue_inner q p :
  inner (enqueue q p) = with_queue (queue (inner p) ++ [q]) (inner p) ∧
  port_options (enqueue q p) = port_options p ∧ readable (enqueue q p) = true.
Proof. unfold enqueue. by destruct (set_readable_spec (with_inner (with_queue (queue (inner p) ++ [q]) (inner p)) p)) as (-> & -> & ->). Qed.

Lemma observer_ids_app q k : observer_ids (q ++ k) = observer_ids q ++ observer_ids k.
Proof. apply omap_app. Qed.

Lemma elem_of_observer_ids id q : id ∈ observer_ids q ↔ ∃ x, x ∈ q ∧ observer x = Some id.
Proof. apply list_elem_of_omap. Qed.

(** Queueing a packet; one with an observer comes from a callback that is done. *)
Lemma enqueue_wf active active' q p :
  port_wf active p → active' ⊆ active →
  (∀ id, observer q = Some id → id ∈ active ∧ id ∉ active' ∧
     ∃ o, observers (inner p) !! id = Some o ∧ key (packet q) = okey o) →
  port_wf active' (enqueue q p).
Proof.
  intros [] Hact Hid. destruct (enqueue_inner q p) as (Hi & Ho & Hr).
  split; rewrite ?Hi, ?Ho, ?Hr; simpl; try done.
  - by rewrite is_empty_app, andb_false_r.
  - unfold can_bind_to_interrupt in *. by rewrite Ho.
  - intros id Hin. apply wf_ids0. set_solver.
  - intros x id [Hx|Hx%list_elem_of_singleton]%elem_of_app Hx'.
    + destruct (wf_queued0 x id Hx Hx') as (? & ?). split; [set_solver|done].
    + subst x. by destruct (Hid id Hx') as (_ & ? & ?).
  - rewrite observer_ids_app. apply NoDup_app. split_and!; [done| |].
    + intros id Hin Hq. apply elem_of_observer_ids in Hin as (x & Hx & Hx').
      apply elem_of_observer_ids in Hq as (y & ->%list_elem_of_singleton & Hy).
      destruct (wf_queued0 x id Hx Hx') as [? _]. by destruct (Hid id Hy) as [? _].
    + rewrite observer_ids_cons, app_nil_r. destruct (observer q); [apply NoDup_singleton|apply NoDup_nil_2].
Qed.

Lemma port_register_wf active o p :
  port_wf active p → next_observer (inner p) < 2 ^ 64 - 1 →
  let '(id, p') := register o p in
  id = next_observer (inner p) + 1 ∧ port_wf ({[id]} ∪ active) p' ∧ queue (inner p') = queue (inner p) ∧
  next_observer (inner p') = id.
Proof.
  intros [] Hn. unfold register. rewrite wadd_small by (unfold fits; lia).
  set (id := next_observer (inner p) + 1).
  assert (observers (inner p) !! id = None) as Hfresh.
  { destruct (observers (inner p) !! id) eqn:E; [|done].
    destruct (wf_ids0 id ltac:(left; by eexists)). lia. }
  split_and!; try done. split; simpl; try done.
  - intros id0 [Hs|Hin].
    + apply lookup_insert_is_Some in Hs as [<-|[_ Hs]]; [lia|]. destruct (wf_ids0 id0 ltac:(by left)). lia.
    + apply elem_of_union in Hin as [->%elem_of_singleton|Hin]; [lia|].
      destruct (wf_ids0 id0 ltac:(by right)). lia.
  - intros q id0 Hq Hid. destruct (wf_queued0 q id0 Hq Hid) as (Hna & o' & Ho' & Hk). split.
    + intros [->%elem_of_singleton|?]%elem_of_union; [congruence|done].
    + exists o'. split; [|done]. rewrite lookup_insert_ne; [done|congruence].
  - lia.
Qed.

(** Forgetting an observer that has nothing queued. *)
Lemma forget_wf active id p :
  port_wf active p → id ∈ active →
  port_wf (active ∖ {[id]})
    (with_inner (with_observers (delete id (observers (inner p))) (inner p)) p).
Proof.
  intros [] Hin. split; simpl; try done.
  - intros id0 [Hs|Hi]; apply wf_ids0; [left|right; set_solver].
    apply lookup_delete_is_Some in Hs. naive_solver.
  - intros q id0 Hq Hid. destruct (wf_queued0 q id0 Hq Hid) as (Hna & o' & Ho' & Hk).
    split; [set_solver|]. exists o'. split; [|done]. rewrite lookup_delete_ne; [done|congruence].
Qed.

Lemma port_wf_active active active' p : port_wf active p → active' ⊆ active → port_wf active' p.
Proof.
  intros [] Hs. split; try done.
  - intros id [?|?]; apply wf_ids0; [by left|right; set_solver].
  - intros q id Hq Hid. destruct (wf_queued0 q id Hq Hid) as [? ?]. split; [set_solver|done].
Qed.

Lemma signal_observer_wf closed now id observed init active p :
  port_wf active p → id ∈ active →
  let '(done, p') := signal_observer closed now id observed init p in
  port_wf (if done then active ∖ {[id]} else active) p' ∧
  next_observer (inner p') = next_observer (inner p) ∧
  (queue (inner p') = queue (inner p) ∨
   ∃ o, observers (inner p) !! id = Some o ∧ done = true ∧
     queue (inner p') = queue (inner p) ++ [mkQueuedPacket (signal_packet now o observed) (Some id)]).
Proof.
  intros Hwf Hin. unfold signal_observer. destruct (observers (inner p) !! id) as [o|] eqn:Eo.
  2: { split_and!; [apply (port_wf_active active); [done|set_solver]|done|by left]. }
  destruct (handle_closed closed o).
  { split_and!; [by apply forget_wf|done|by left]. }
  destruct (negb _ || _); [by split_and!; [..|left]|].
  destruct (enqueue_inner (mkQueuedPacket (signal_packet now o observed) (Some id)) p) as (Hi & _ & _).
  rewrite Hi. split_and!; [|done|right; by exists o]. eapply (enqueue_wf active); [done|set_solver|].
  intros id' [= <-]. split_and!; [done|set_solver|by exists o].
Qed.

Lemma push_interrupt_wf active ts k p :
  port_wf active p → can_bind_to_interrupt p = true → interrupt_pid (inner p) < 2 ^ 64 - 1 →
  let '(id, p') := push_interrupt ts k p in
  id = interrupt_pid (inner p) + 1 ∧ port_wf active p' ∧ queue (inner p') = queue (inner p) ∧
  next_observer (inner p') = next_observer (inner p) ∧ interrupt_pid (inner p') = id ∧
  interrupt_queue (inner p') = interrupt_queue (inner p) ++ [mkPortInterruptPacket ts k id] ∧
  interrupt_grave (inner p') = {[id]} ∪ interrupt_grave (inner p).
Proof.
  intros [] Hb Hn. unfold push_interrupt. rewrite wadd_small by (unfold fits; lia).
  set (id := interrupt_pid (inner p) + 1). set (p1 := with_inner _ p).
  destruct (set_readable_spec p1) as (Hi & Ho & Hr). rewrite Hi. split_and!; try done.
  split; rewrite ?Hi, ?Ho, ?Hr; simpl; try done.
  - by rewrite is_empty_app, andb_false_r, andb_false_r.
  - intros _. unfold can_bind_to_interrupt in *. by rewrite Ho.
  - rewrite fmap_app. apply NoDup_app. split_and!; [done| |apply NoDup_singleton].
    intros g (x & -> & Hx)%list_elem_of_fmap E%list_elem_of_singleton.
    rewrite Forall_forall in wf_pid_bound0. specialize (wf_pid_bound0 x Hx). simpl in *. lia.
  - apply Forall_app. split; [|apply Forall_singleton; simpl; lia].
    eapply Forall_impl; [done|]. simpl. intros; lia.
  - intros g [->%elem_of_singleton|Hg]%elem_of_union; rewrite fmap_app; apply elem_of_app; [right; by left|left].
    by apply wf_grave0.
  - lia.
Qed.

Lemma remove_interrupt_wf active id p :
  port_wf active p → port_wf active (snd (remove_interrupt id p)).
Proof. intros []. split; simpl; try done. intros g [Hg _]%elem_of_difference. by apply wf_grave0. Qed.

Lemma filter_ids_NoDup (f : QueuedPacket → bool) q : NoDup (observer_ids q) → NoDup (observer_ids (List.filter f q)).
Proof.
  induction q as [|x q IH]; simpl; [done|]. rewrite observer_ids_cons. intros (H1 & H2 & H3)%NoDup_app.
  destruct (f x); [|by apply IH]. rewrite observer_ids_cons. apply NoDup_app. split_and!; [done| |by apply IH].
  intros id Hid Hin. apply (H2 id Hid). apply elem_of_observer_ids in Hin as (y & Hy & Hy').
  apply elem_of_observer_ids. exists y. split; [|done].
  apply list_elem_of_In, filter_In in Hy as [Hy _]. by apply list_elem_of_In.
Qed.

Lemma cancel_wf src k active p : port_wf active p → port_wf active (snd (cancel src k p)).
Proof.
  intros []. unfold cancel. simpl.
  set (obs := filter _ (observers (inner p))). set (q := List.filter _ (queue (inner p))).
  set (p1 := with_inner _ p). set (c := is_empty q && _).
  destruct (clear_if_spec c p1) as (Hi & Ho & Hr). set (p2 := if c then clear_readable p1 else p1) in *.
  split; rewrite ?Hi, ?Ho, ?Hr; simpl; try done.
  - change (readable p1) with (readable p). rewrite wf_readable0. unfold c. fold q.
    destruct (is_empty (interrupt_queue (inner p))); rewrite ?andb_true_r, ?andb_false_r; [|done].
    assert (is_empty (queue (inner p)) = true → is_empty q = true) as Hq
      by (unfold q; by destruct (queue (inner p))).
    destruct (is_empty (queue (inner p))); [by rewrite Hq|]. by rewrite andb_true_r.
  - unfold can_bind_to_interrupt in *. by rewrite Ho.
  - intros id [[o Ho']|?]; apply wf_ids0; [left|by right].
    apply map_lookup_filter_Some in Ho' as [? _]. by eexists.
  - intros x id Hx Hid. apply list_elem_of_In, filter_In in Hx as [Hx Hc]. apply list_elem_of_In in Hx.
    destruct (wf_queued0 x id Hx Hid) as (Hna & o & Hl & Hk). split; [done|]. exists o. split; [|done].
    unfold cancel_queued in Hc. rewrite Hid in Hc. rewrite negb_involutive, bool_decide_eq_true in Hc.
    fold obs in Hc. destruct Hc as [o' Ho']. pose proof Ho' as [Ho'' _]%map_lookup_filter_Some. congruence.
  - by apply filter_ids_NoDup.
Qed.

Lemma elem_of_skip_ids id x skipped (r : option QueuedPacket) q :
  x ∈ q → observer x = Some id → NoDup (observer_ids (skipped ++ option_list r ++ q)) →
  id ∉ observer_ids (skipped ++ option_list r).
Proof.
  intros Hx Hid. rewrite app_assoc, observer_ids_app. intros (_ & H2 & _)%NoDup_app Hin.
  apply (H2 id Hin), elem_of_observer_ids. by exists x.
Qed.

Lemma drained_wf active closed p r p' sk :
  port_wf active p → drained closed (queue (inner p)) p r p' sk → port_wf active p'.
Proof.
  intros [] [D1 D2 D3 D4 D5 (R1 & R2 & R3 & R4 & R5) D7].
  split; rewrite ?R1, ?R2, ?R3, ?R4; try done.
  - rewrite D7, wf_readable0.
    destruct (is_empty (interrupt_queue (inner p))) eqn:Ei; rewrite ?andb_true_r, ?andb_false_r; simpl.
    + destruct (queue (inner p)); simpl in *.
      * destruct sk; [|done]. destruct r; [done|]. simpl in D1. by rewrite <-D1.
      * done.
    + rewrite wf_bind0 by (by intros E; rewrite E in Ei). by rewrite andb_false_r.
  - unfold can_bind_to_interrupt in *. by rewrite R5.
  - intros id [[o Ho]|?]; apply wf_ids0; [left|by right]. rewrite D5 in Ho.
    destruct (decide _); [done|]. by eexists.
  - intros x id Hx Hid.
    destruct (wf_queued0 x id) as (? & o & Ho & ?); [|done|].
    { rewrite D1, app_assoc. apply elem_of_app. by right. }
    split; [done|]. exists o. split; [|done]. rewrite D5, decide_False; [done|].
    eapply elem_of_skip_ids; [done..|]. by rewrite <-D1.
  - rewrite D1, app_assoc, observer_ids_app in wf_nodup0. by apply NoDup_app in wf_nodup0 as (_ & _ & ?).
Qed.

Lemma idrained_wf active p r p' sk :
  port_wf active p → idrained (interrupt_queue (inner p)) p r p' sk → port_wf active p'.
Proof.
  intros [] [D1 D2 D3 D4 D5 (R1 & R2 & R3 & R4 & R5) D7].
  split; rewrite ?R1, ?R2, ?R3, ?R4; try done.
  - rewrite D7, wf_readable0. destruct (is_empty (queue (inner p))); rewrite ?andb_false_r; simpl; [|done].
    rewrite andb_true_r. destruct (interrupt_queue (inner p)); simpl in *.
    + destruct sk; [|done]. destruct r; [done|]. simpl in D1. by rewrite <-D1.
    + done.
  - intros Hne. unfold can_bind_to_interrupt in *. rewrite R5. apply wf_bind0. intros E. rewrite E in D1.
    destruct sk; [|done]. destruct r; [done|]. simpl in D1. congruence.
  - rewrite D1, app_assoc, fmap_app in wf_pids0. by apply NoDup_app in wf_pids0 as (_ & _ & ?).
  - rewrite D1, app_assoc in wf_pid_bound0. by apply Forall_app in wf_pid_bound0 as [_ ?].
  - intros g [Hg Hng]%D5. apply wf_grave0 in Hg. rewrite D1, app_assoc, fmap_app in Hg.
    apply elem_of_app in Hg as [Hg|]; [|done]. done.
Qed.

(** ** Histories *)

Inductive port_op :=
| PPush (pkt : PortPacket)
| PPushUser (pkt : PortPacket)
| PWaitAsync (o : Observer)
| PSignal (id observed : Z) (init : bool) (now : Z)
| PCloseToken (t : nat)
| PCancel (src : option (Z * Z)) (k : Z)
| PInterrupt (timestamp k : Z)
| PRemoveInterrupt (id : Z)
| PWait.

(** The port with the ids whose callback is still registered, the tokens that fired, the
    packets that entered and left, the interrupts that entered and left, and the interrupt
    ids that were removed. *)
Record port_sys := mkPortSys {
  sp : Port;
  active : gset Z;
  tokens : gset nat;
  log_in : list QueuedPacket;
  log_out : list QueuedPacket;
  int_in : list PortInterruptPacket;
  int_out : list PortInterruptPacket;
  removed : gset Z
}.

(** The packets appended to the queue between [p] and [p']. *)
Definition grown (p p' : Port) : list QueuedPacket :=
  drop (length (queue (inner p))) (queue (inner p')).

(** A callback is invoked only while it is registered: [signal_change] drops a callback
    that returns [true].  Only ports made for it are bound to interrupts. *)
Definition port_step (s : port_sys) (op : port_op) : port_sys :=
  let p := sp s in
  match op with
  | PPush pkt =>
      let p' := push pkt p in
      mkPortSys p' (active s) (tokens s) (log_in s ++ grown p p') (log_out s) (int_in s) (int_out s) (removed s)
  | PPushUser pkt =>
      let '(_, p') := push_user pkt p in
      mkPortSys p' (active s) (tokens s) (log_in s ++ grown p p') (log_out s) (int_in s) (int_out s) (removed s)
  | PWaitAsync o =>
      let '(id, p') := register o p in
      mkPortSys p' ({[id]} ∪ active s) (tokens s) (log_in s) (log_out s) (int_in s) (int_out s) (removed s)
  | PSignal id observed init now =>
      if decide (id ∈ active s) then
        let '(fin, p') := signal_observer (tokens s) now id observed init p in
        mkPortSys p' (if fin then active s ∖ {[id]} else active s) (tokens s)
          (log_in s ++ grown p p') (log_out s) (int_in s) (int_out s) (removed s)
      else s
  | PCloseToken t =>
      mkPortSys p (active s) ({[t]} ∪ tokens s) (log_in s) (log_out s) (int_in s) (int_out s) (removed s)
  | PCancel src k =>
      mkPortSys (snd (cancel src k p)) (active s) (tokens s) (log_in s) (log_out s) (int_in s) (int_out s) (removed s)
  | PInterrupt ts k =>
      if can_bind_to_interrupt p then
        let '(id, p') := push_interrupt ts k p in
        mkPortSys p' (active s) (tokens s) (log_in s) (log_out s)
          (int_in s ++ [mkPortInterruptPacket ts k id]) (int_out s) (removed s)
      else s
  | PRemoveInterrupt id =>
      let '(found, p') := remove_interrupt id p in
      mkPortSys p' (active s) (tokens s) (log_in s) (log_out s) (int_in s) (int_out s)
        (if found then {[id]} ∪ removed s else removed s)
  | PWait =>
      let '(r, p') := wait_round (tokens s) p in
      mkPortSys p' (active s) (tokens s) (log_in s)
        (match r with Some (TQueued q) => log_out s ++ [q] | _ => log_out s end) (int_in s)
        (match r with Some (TInterrupt i) => int_out s ++ [i] | _ => int_out s end) (removed s)
  end.

Record port_inv (n : Z) (s : port_sys) : Prop := {
  pi_wf : port_wf (active s) (sp s);
  pi_order : sublist (log_out s ++ queue (inner (sp s))) (log_in s);
  pi_once : NoDup (observer_ids (log_in s));
  pi_ids id : id ∈ observer_ids (log_in s) → id ≤ next_observer (inner (sp s)) ∧ id ∉ active s;
  pi_int_order : sublist (int_out s ++ interrupt_queue (inner (sp s))) (int_in s);
  pi_int_once : NoDup (pid <$> int_in s);
  pi_int_ids : Forall (λ x, pid x ≤ interrupt_pid (inner (sp s))) (int_in s);
  pi_removed : removed s ## interrupt_grave (inner (sp s));
  pi_removed_bound g : g ∈ removed s → g ≤ interrupt_pid (inner (sp s));
  pi_int_out : Forall (λ x, pid x ∉ removed s) (int_out s);
  pi_count : next_observer (inner (sp s)) ≤ n ∧ interrupt_pid (inner (sp s)) ≤ n
}.

Lemma grown_app p p' l : queue (inner p') = queue (inner p) ++ l → grown p p' = l.
Proof. unfold grown. intros ->. by rewrite drop_app_length. Qed.

(** Steps that only append to the queue and leave the interrupts alone. *)
Lemma grow_inv n s p' act' tok l :
  port_inv n s → port_wf act' p' → queue (inner p') = queue (inner (sp s)) ++ l →
  act' ⊆ active s → (∀ id, id ∈ observer_ids l → id ∈ active s ∧ id ∉ act') → NoDup (observer_ids l) →
  interrupt_queue (inner p') = interrupt_queue (inner (sp s)) →
  interrupt_grave (inner p') = interrupt_grave (inner (sp s)) →
  interrupt_pid (inner p') = interrupt_pid (inner (sp s)) →
  next_observer (inner p') = next_observer (inner (sp s)) →
  port_inv n (mkPortSys p' act' tok (log_in s ++ grown (sp s) p') (log_out s) (int_in s) (int_out s) (removed s)).
Proof.
  intros [] Hwf Hq Hact Hl Hnd H1 H2 H3 H4. rewrite (grown_app _ _ l Hq).
  split; simpl; rewrite ?H1, ?H2, ?H3, ?H4; try done.
  - rewrite Hq, app_assoc. by apply sublist_app.
  - rewrite observer_ids_app. apply NoDup_app. split_and!; [done| |done].
    intros id Hid Hid'. destruct (pi_ids0 id Hid) as [_ ?]. by destruct (Hl id Hid').
  - intros id Hin. rewrite observer_ids_app in Hin. apply elem_of_app in Hin as [Hin|Hin].
    + destruct (pi_ids0 id Hin). split; [done|set_solver].
    + destruct (Hl id Hin) as [Ha ?]. split; [|done].
      by apply (wf_ids _ _ pi_wf0); right.
Qed.

Lemma enqueue_rest q p :
  interrupt_queue (inner (enqueue q p)) = interrupt_queue (inner p) ∧
  interrupt_grave (inner (enqueue q p)) = interrupt_grave (inner p) ∧
  interrupt_pid (inner (enqueue q p)) = interrupt_pid (inner p) ∧
  next_observer (inner (enqueue q p)) = next_observer (inner p) ∧
  queue (inner (enqueue q p)) = queue (inner p) ++ [q].
Proof. by destruct (enqueue_inner q p) as (-> & _ & _). Qed.

Lemma push_inv n s pkt tok :
  port_inv n s →
  port_inv n (mkPortSys (enqueue (mkQueuedPacket pkt None) (sp s)) (active s) tok
    (log_in s ++ grown (sp s) (enqueue (mkQueuedPacket pkt None) (sp s))) (log_out s) (int_in s) (int_out s) (removed s)).
Proof.
  intros Hinv. destruct (enqueue_rest (mkQueuedPacket pkt None) (sp s)) as (? & ? & ? & ? & ?).
  eapply grow_inv; [done| |done|done| | |done..].
  - eapply enqueue_wf; [apply Hinv|done|]. by intros id.
  - intros id. rewrite observer_ids_cons. by intros ?%elem_of_nil.
  - apply NoDup_nil_2.
Qed.

Lemma signal_inv n s id observed init now :
  port_inv n s → port_inv n (port_step s (PSignal id observed init now)).
Proof.
  intros Hinv. simpl. destruct (decide (id ∈ active s)) as [Hin|]; [|done].
  pose proof (signal_observer_wf (tokens s) now id observed init (active s) (sp s) (pi_wf _ _ Hinv) Hin) as Hs.
  assert (let '(_, p') := signal_observer (tokens s) now id observed init (sp s) in
    interrupt_queue (inner p') = interrupt_queue (inner (sp s)) ∧
    interrupt_grave (inner p') = interrupt_grave (inner (sp s)) ∧
    interrupt_pid (inner p') = interrupt_pid (inner (sp s))) as Hrest.
  { unfold signal_observer. destruct (observers _ !! id) as [o|]; [|done].
    destruct (handle_closed _ o); [done|]. destruct (negb _ || _); [done|].
    by destruct (enqueue_rest (mkQueuedPacket (signal_packet now o observed) (Some id)) (sp s)) as (? & ? & ? & _). }
  destruct (signal_observer _ _ _ _ _ _) as [fin p']. destruct Hs as (Hwf & Hn & Hq).
  destruct Hrest as (? & ? & ?).
  assert ((if fin then active s ∖ {[id]} else active s) ⊆ active s) by (destruct fin; set_solver).
  destruct Hq as [Hq|(o & Ho & -> & Hq)].
  - eapply (grow_inv _ _ _ _ _ []); [done|done|by rewrite app_nil_r|done| |apply NoDup_nil_2|done..].
    by intros ? ?%elem_of_nil.
  - eapply grow_inv; [done|done|exact Hq|done| | |done..].
    + intros id' Hid'. rewrite observer_ids_cons in Hid'. apply list_elem_of_singleton in Hid' as ->. set_solver.
    + apply NoDup_singleton.
Qed.

Lemma cancel_inv n s src k : port_inv n s → port_inv n (port_step s (PCancel src k)).
Proof.
  intros Hinv. pose proof (cancel_wf src k _ _ (pi_wf _ _ Hinv)) as Hwf. destruct Hinv.
  unfold port_step. revert Hwf. unfold cancel. simpl.
  set (q := List.filter _ _). set (p1 := with_inner _ _). set (c := is_empty q && _). intros Hwf.
  destruct (clear_if_spec c p1) as (Hi & _ & _). split; simpl; rewrite ?Hi; simpl; try done.
  etrans; [|exact pi_order0]. apply sublist_app; [done|]. unfold q.
  clear. induction (queue (inner (sp s))) as [|x l IH]; simpl; [done|].
  destruct (negb _); by constructor.
Qed.

Lemma wait_async_inv n s o :
  port_inv n s → n < 2 ^ 64 - 1 → port_inv (n + 1) (port_step s (PWaitAsync o)).
Proof.
  intros [] Hn. simpl.
  pose proof (port_register_wf (active s) o (sp s) pi_wf0 ltac:(lia)) as Hr. unfold register in *. simpl in *.
  destruct Hr as (Hid & Hwf & _ & _). rewrite Hid in *. split; simpl; try done.
  - intros id Hin. destruct (pi_ids0 id Hin). split; [lia|].
    intros [->%elem_of_singleton|?]%elem_of_union; [lia|done].
  - lia.
Qed.

Lemma interrupt_inv n s ts k :
  port_inv n s → n < 2 ^ 64 - 1 → port_inv (n + 1) (port_step s (PInterrupt ts k)).
Proof.
  intros [] Hn. unfold port_step. destruct (can_bind_to_interrupt (sp s)) eqn:Hb; [|by split; try done; lia].
  pose proof (push_interrupt_wf (active s) ts k (sp s) pi_wf0 Hb ltac:(lia)) as Hp.
  destruct (push_interrupt ts k (sp s)) as [id p']. destruct Hp as (-> & Hwf & Hq & Hno & Hpid & Hiq & Hg).
  rewrite Forall_forall in pi_int_ids0.
  split; simpl; rewrite ?Hq, ?Hno, ?Hpid, ?Hiq, ?Hg; try done.
  - rewrite app_assoc. by apply sublist_app.
  - rewrite fmap_app. apply NoDup_app. split_and!; [done| |apply NoDup_singleton].
    intros g (x & -> & Hx)%list_elem_of_fmap E%list_elem_of_singleton.
    specialize (pi_int_ids0 x Hx). simpl in *. lia.
  - apply Forall_app. split; [|apply Forall_singleton; simpl; lia].
    apply Forall_forall. intros x Hx. specialize (pi_int_ids0 x Hx). simpl in *. lia.
  - intros g Hr [->%elem_of_singleton|Hg']%elem_of_union; [|by apply (pi_removed0 g)].
    apply pi_removed_bound0 in Hr. lia.
  - intros g Hr%pi_removed_bound0. lia.
  - lia.
Qed.

Lemma remove_inv n s id : port_inv n s → port_inv n (port_step s (PRemoveInterrupt id)).
Proof.
  intros Hinv. pose proof (remove_interrupt_wf _ id _ (pi_wf _ _ Hinv)) as Hwf. destruct Hinv. simpl in *.
  destruct (decide (id ∈ interrupt_grave (inner (sp s)))) as [Hin|Hin].
  - rewrite bool_decide_true by done.
    pose proof (wf_grave _ _ pi_wf0 id Hin) as (x & -> & Hx)%list_elem_of_fmap.
    split; simpl; try done.
    + intros g [->%elem_of_singleton|Hr]%elem_of_union [Hg Hn]%elem_of_difference;
        [by apply Hn, elem_of_singleton|by apply (pi_removed0 g)].
    + intros g [->%elem_of_singleton|Hr]%elem_of_union; [|by apply pi_removed_bound0].
      pose proof (wf_pid_bound _ _ pi_wf0) as Hb. rewrite Forall_forall in Hb. by apply Hb.
    + rewrite Forall_forall in *. intros y Hy [E%elem_of_singleton|Hr]%elem_of_union; [|by apply (pi_int_out0 y Hy)].
      pose proof (sublist_NoDup _ _ pi_int_once0 (fmap_sublist pid _ _ pi_int_order0)) as Hnd.
      rewrite fmap_app in Hnd. apply NoDup_app in Hnd as (_ & Hd & _). apply (Hd (pid y)).
      * apply list_elem_of_fmap. by exists y.
      * rewrite E. apply list_elem_of_fmap. by exists x.
  - rewrite bool_decide_false by done. split; simpl; try done.
    intros g Hr [Hg _]%elem_of_difference. by apply (pi_removed0 g).
Qed.

(** One round of [wait]: what it hands out is the oldest live packet. *)
Lemma wait_inv n s : port_inv n s → port_inv n (port_step s PWait).
Proof.
  intros Hinv. destruct Hinv. simpl. unfold wait_round.
  assert (∃ r1 p1 sk1, (if can_bind_to_interrupt (sp s)
      then drain_interrupts (interrupt_queue (inner (sp s))) (sp s) else (None, sp s)) = (r1, p1) ∧
    port_wf (active s) p1 ∧ queue (inner p1) = queue (inner (sp s)) ∧
    interrupt_queue (inner (sp s)) = sk1 ++ option_list r1 ++ interrupt_queue (inner p1) ∧
    interrupt_grave (inner p1) ⊆ interrupt_grave (inner (sp s)) ∧
    (∀ x, r1 = Some x → pid x ∈ interrupt_grave (inner (sp s))) ∧
    next_observer (inner p1) = next_observer (inner (sp s)) ∧
    interrupt_pid (inner p1) = interrupt_pid (inner (sp s))) as (r1 & p1 & sk1 & -> & W1 & Q1 & I1 & G1 & L1 & N1 & P1).
  { destruct (can_bind_to_interrupt (sp s)); [|exists None, (sp s), []; by split_and!].
    pose proof (drain_interrupts_spec _ (sp s) eq_refl (wf_pids _ _ pi_wf0)) as Hd.
    destruct (drain_interrupts _ _) as [r1 p1]. destruct Hd as (sk1 & Hd). exists r1, p1, sk1.
    pose proof (idrained_wf _ _ _ _ _ pi_wf0 Hd). destruct Hd as [D1 D2 D3 D4 D5 (R1 & R2 & R3 & R4 & R5) D7].
    split_and!; try done. intros g Hg. by apply D5. }
  assert (removed s ## interrupt_grave (inner p1)) as Hdis.
  { intros g Hr Hg. by apply (pi_removed0 g Hr), G1. }
  assert (sublist (option_list r1 ++ interrupt_queue (inner p1)) (interrupt_queue (inner (sp s)))) as Hsub.
  { rewrite I1. by apply sublist_inserts_l. }
  destruct r1 as [x|].
  { split; simpl; rewrite ?Q1, ?N1, ?P1; try done.
    - etrans; [|exact pi_int_order0]. rewrite <-app_assoc. by apply sublist_app.
    - apply Forall_app. split; [done|]. apply Forall_singleton. intros Hr. by apply (pi_removed0 _ Hr), L1. }
  pose proof (drain_queue_spec (tokens s) _ p1 eq_refl (wf_nodup _ _ W1)) as Hd.
  destruct (drain_queue _ _ p1) as [r2 p2]. destruct Hd as (sk & Hd).
  pose proof (drained_wf _ _ _ _ _ _ W1 Hd) as W2.
  destruct Hd as [D1 D2 D3 D4 D5 (R1 & R2 & R3 & R4 & R5) D7].
  split; simpl; rewrite ?R1, ?R2, ?R3, ?R4, ?N1, ?P1; try done.
  - etrans; [|exact pi_order0]. rewrite <-Q1, D1. destruct r2 as [y|]; simpl.
    + rewrite <-app_assoc. apply sublist_app; [done|]. by apply sublist_inserts_l.
    + apply sublist_app; [done|]. by apply sublist_inserts_l.
  - etrans; [|exact pi_int_order0]. destruct r2; by apply sublist_app.
  - by destruct r2.
Qed.

Lemma port_step_inv n s op :
  port_inv n s → n < 2 ^ 64 - 1 → port_inv (n + 1) (port_step s op).
Proof.
  intros Hinv Hn.
  assert (∀ s', port_inv n s' → port_inv (n + 1) s') as Hm by (intros s' []; split; try done; lia).
  destruct op as [pkt|pkt|o|id ob i now|t|src k|ts k|id|].
  - by apply Hm, push_inv.
  - apply Hm. simpl. unfold push_user. destruct (_ <=? _); [|by apply push_inv].
    apply (grow_inv n s (sp s) (active s) (tokens s) []);
      [done|apply Hinv|by rewrite app_nil_r|done|by intros ? ?%elem_of_nil|apply NoDup_nil_2|done..].
  - by apply wait_async_inv.
  - by apply Hm, signal_inv.
  - apply Hm. simpl. destruct Hinv. by split.
  - by apply Hm, cancel_inv.
  - by apply interrupt_inv.
  - by apply Hm, remove_inv.
  - by apply Hm, wait_inv.
Qed.

Definition port_history (p : Port) (ops : list port_op) : port_sys :=
  foldl port_step (mkPortSys p ∅ ∅ [] [] [] [] ∅) ops.

Lemma port_history_inv id opts w p ops :
  new id opts w = Ok p → zlen ops < 2 ^ 64 → port_inv (zlen ops) (port_history p ops).
Proof.
  intros Hp Hl. unfold new in Hp. apply rbind_Ok in Hp as (o & _ & [= <-]).
  induction ops as [|op ops IH] using rev_ind.
  - split; simpl; try done; try apply NoDup_nil_2; try (by intros ? ?%elem_of_nil).
    split; simpl; try done; try apply NoDup_nil_2; try (by intros ? ? ?%elem_of_nil).
    intros i [[o' Ho]|Hi]; [by rewrite lookup_empty in Ho|by apply elem_of_empty in Hi].
  - rewrite zlen_app in *. change (zlen [op]) with 1 in *. unfold port_history in *. rewrite foldl_app. simpl.
    apply port_step_inv; [apply IH|]; lia.
Qed.


(** ** Specification
    What a port promises: waits that have not fired, the packets that have not been handed out, each with the wait
    that it is for, and the interrupts that have not been handed out or removed. *)
Record port_spec := mkSpec {
  waits : gmap Z Observer;
  pending : list (PortPacket * option Observer);
  interrupts : list PortInterruptPacket;
  shut : gset nat;
  last_wait : Z;
  last_interrupt : Z
}.
Definition spec_start : port_spec := mkSpec ∅ [] [] ∅ 0 0.

(** What an operation reports. *)
Inductive port_out := ONothing | OStatus (r : ZxResult unit) | OId (id : Z) | OFound (b : bool) | OPacket (pkt : option PortPacket).

(** The handle of the wait has been closed: its packet is not handed out. *)
Definition shut_entry (t : gset nat) (x : PortPacket * option Observer) : Prop :=
  match x.2 with Some o => handle_closed t o = true | None => False end.
#[global] Instance shut_entry_dec t x : Decision (shut_entry t x).
Proof. unfold shut_entry. destruct x.2; apply _. Defined.
Definition cancelled_wait (src : option (Z * Z)) (k : Z) (o : Observer) : Prop := okey o = k ∧ (src = None ∨ src = Some (source o)).
Definition cancelled_entry (src : option (Z * Z)) (k : Z) (x : PortPacket * option Observer) : Prop :=
  match x.2 with Some o => cancelled_wait src k o | None => src = None ∧ key x.1 = k end.
#[global] Instance cancelled_entry_dec src k x : Decision (cancelled_entry src k x).
Proof. unfold cancelled_entry. destruct x.2; apply _. Defined.

(** The oldest packet whose wait is still wanted; those before it are gone. *)
Fixpoint take_entry (t : gset nat) (l : list (PortPacket * option Observer)) : option PortPacket * list (PortPacket * option Observer) :=
  match l with
  | [] => (None, [])
  | x :: l => if decide (shut_entry t x) then take_entry t l else (Some x.1, l)
  end.

(** [bound]: whether the port may be bound to interrupts. *)
Definition spec_step (bound : bool) (a : port_spec) (op : port_op) : port_out * port_spec :=
  match op with
  | PPush pkt => (ONothing, mkSpec (waits a) (pending a ++ [(pkt, None)]) (interrupts a) (shut a) (last_wait a) (last_interrupt a))
  | PPushUser pkt =>
      if MAX_ALLOCATED_PACKET_COUNT_PER_PORT <=? zlen (pending a) then (OStatus (Err ZxError.SHOULD_WAIT), a)
      else (OStatus (Ok tt), mkSpec (waits a) (pending a ++ [(mkPortPacket (key pkt) PacketType.User (status pkt) (data pkt), None)])
                               (interrupts a) (shut a) (last_wait a) (last_interrupt a))
  | PWaitAsync o =>
      (OId (last_wait a + 1), mkSpec (<[last_wait a + 1 := o]> (waits a)) (pending a) (interrupts a) (shut a) (last_wait a + 1) (last_interrupt a))
  | PSignal id observed init now =>
      (ONothing,
       match waits a !! id with
       | Some o =>
           if handle_closed (shut a) o then mkSpec (delete id (waits a)) (pending a) (interrupts a) (shut a) (last_wait a) (last_interrupt a)
           else if intersects observed (signals o) && negb (init && contains (options o) WaitAsyncOptions.EDGE)
           then mkSpec (delete id (waits a)) (pending a ++ [(signal_packet now o observed, Some o)]) (interrupts a) (shut a) (last_wait a) (last_interrupt a)
           else a
       | None => a
       end)
  | PCloseToken t => (ONothing, mkSpec (waits a) (pending a) (interrupts a) ({[t]} ∪ shut a) (last_wait a) (last_interrupt a))
  | PCancel src k =>
      (OStatus (if decide (map_Exists (λ _, cancelled_wait src k) (waits a) ∨ Exists (cancelled_entry src k) (pending a)) then Ok tt else Err ZxError.NOT_FOUND),
       mkSpec (filter (λ x, ¬ cancelled_wait src k x.2) (waits a)) (filter (λ x, ¬ cancelled_entry src k x) (pending a)) (interrupts a) (shut a) (last_wait a) (last_interrupt a))
  | PInterrupt ts k =>
      if bound then (OId (last_interrupt a + 1), mkSpec (waits a) (pending a) (interrupts a ++ [mkPortInterruptPacket ts k (last_interrupt a + 1)])
                                                   (shut a) (last_wait a) (last_interrupt a + 1))
      else (ONothing, a)
  | PRemoveInterrupt id =>
      (OFound (bool_decide (id ∈ pid <$> interrupts a)),
       mkSpec (waits a) (pending a) (filter (λ x, pid x ≠ id) (interrupts a)) (shut a) (last_wait a) (last_interrupt a))
  | PWait =>
      match interrupts a with
      | x :: rest => (OPacket (Some (delivered (TInterrupt x))), mkSpec (waits a) (pending a) rest (shut a) (last_wait a) (last_interrupt a))
      | [] => let '(r, l) := take_entry (shut a) (pending a) in (OPacket r, mkSpec (waits a) l [] (shut a) (last_wait a) (last_interrupt a))
      end
  end.
Definition spec_history (bound : bool) (ops : list port_op) : port_spec := foldl (λ a op, (spec_step bound a op).2) spec_start ops.

(** What the port reports. *)
Definition port_reports (s : port_sys) (op : port_op) : port_out :=
  let p := sp s in
  match op with
  | PPushUser pkt => OStatus (push_user pkt p).1
  | PWaitAsync o => OId (register o p).1
  | PCancel src k => OStatus (cancel src k p).1
  | PInterrupt ts k => if can_bind_to_interrupt p then OId (push_interrupt ts k p).1 else ONothing
  | PRemoveInterrupt id => OFound (remove_interrupt id p).1
  | PWait => OPacket (delivered <$> (wait_round (tokens s) p).1)
  | PPush _ | PSignal _ _ _ _ | PCloseToken _ => ONothing
  end.

(** *** The simulation *)
Definition entry (obs : gmap Z Observer) (x : QueuedPacket) : PortPacket * option Observer :=
  (packet x, match observer x with Some id => obs !! id | None => None end).
Definition waiting_in (grave : gset Z) (x : PortInterruptPacket) : Prop := pid x ∈ grave.
#[global] Instance waiting_in_dec g x : Decision (waiting_in g x).
Proof. unfold waiting_in. apply _. Defined.

Record simulates (s : port_sys) (a : port_spec) : Prop := {
  sm_waits id o : waits a !! id = Some o ↔ observers (inner (sp s)) !! id = Some o ∧ id ∈ active s;
  sm_pending : pending a = entry (observers (inner (sp s))) <$> queue (inner (sp s));
  sm_observers id : is_Some (observers (inner (sp s)) !! id) → id ∈ active s ∨ id ∈ observer_ids (queue (inner (sp s)));
  sm_interrupts : interrupts a = filter (waiting_in (interrupt_grave (inner (sp s)))) (interrupt_queue (inner (sp s)));
  sm_shut : shut a = tokens s;
  sm_last : last_wait a = next_observer (inner (sp s)) ∧ last_interrupt a = interrupt_pid (inner (sp s))
}.

Lemma list_filter_iff' {A} (P Q : A → Prop) `{∀ x, Decision (P x)} `{∀ x, Decision (Q x)} (l : list A) : (∀ x, x ∈ l → P x ↔ Q x) → filter P l = filter Q l.
Proof.
  induction l as [|x l IH]; intros HPQ; [done|]. rewrite !filter_cons, IH by (intros y Hy; apply HPQ; by right). pose proof (HPQ x ltac:(by left)).
  destruct (decide (P x)), (decide (Q x)); naive_solver.
Qed.
Lemma cancels_spec src k o : cancels src k o = true ↔ cancelled_wait src k o.
Proof.
  unfold cancels, cancelled_wait. rewrite andb_true_iff, Z.eqb_eq. destruct src as [s|]; [rewrite bool_decide_eq_true|]; naive_solver.
Qed.
(** The entries of a queue only depend on the observers of its packets. *)
Lemma entries_ext obs obs' (q : list QueuedPacket) : (∀ x id, x ∈ q → observer x = Some id → obs' !! id = obs !! id) → entry obs' <$> q = entry obs <$> q.
Proof.
  intros H. apply list_fmap_ext. intros i x Hx%list_elem_of_lookup_2. unfold entry. destruct (observer x) as [id|] eqn:E; [|done]. by rewrite (H x id Hx E).
Qed.

Lemma sim_enqueue s a q tok act' l lo : simulates s a → act' ⊆ active s →
  (match observer q with Some id => id ∈ active s ∧ act' = active s ∖ {[id]} ∧ is_Some (observers (inner (sp s)) !! id) | None => act' = active s end) →
  tok = tokens s →
  simulates (mkPortSys (enqueue q (sp s)) act' tok l lo (int_in s) (int_out s) (removed s))
    (mkSpec (match observer q with Some id => delete id (waits a) | None => waits a end) (pending a ++ [entry (observers (inner (sp s))) q]) (interrupts a) (shut a) (last_wait a) (last_interrupt a)).
Proof.
  intros [S1 S2 S3 S4 S5 S6] Hsub Hq ->. destruct (enqueue_inner q (sp s)) as (Hi & _ & _). split; simpl; rewrite ?Hi; simpl; try done.
  - intros id o. destruct (observer q) as [id'|]; [|by subst act']. destruct Hq as (_ & -> & _). rewrite lookup_delete_Some, S1, elem_of_difference, elem_of_singleton. naive_solver.
  - by rewrite fmap_app, S2.
  - intros id Hid. rewrite observer_ids_app. destruct (S3 id Hid) as [Ha|Ha]; [|right; apply elem_of_app; by left]. destruct (observer q) as [id'|] eqn:Eq; [|subst; by left]. destruct Hq as (_ & -> & _).
    destruct (decide (id = id')) as [->|]; [right|left; set_solver]. apply elem_of_app. right. rewrite observer_ids_cons, Eq. by left.
Qed.

Section simulation.
Context (n : Z) (s : port_sys) (a : port_spec) (Hinv : port_inv n s) (Hsim : simulates s a).

Lemma queued_observer x id : x ∈ queue (inner (sp s)) → observer x = Some id → id ∉ active s ∧ id ≤ next_observer (inner (sp s)) ∧ ∃ o, observers (inner (sp s)) !! id = Some o.
Proof using Hinv.
  intros Hx Hid. destruct (wf_queued _ _ (pi_wf _ _ Hinv) x id Hx Hid) as (Hna & o & Ho & _). split_and!; [done| |by exists o]. by apply (wf_ids _ _ (pi_wf _ _ Hinv)); left.
Qed.

Lemma sim_wait_async o : n < 2 ^ 64 - 1 → port_reports s (PWaitAsync o) = OId (last_wait a + 1) ∧ simulates (port_step s (PWaitAsync o)) (spec_step (can_bind_to_interrupt (sp s)) a (PWaitAsync o)).2.
Proof using Hinv Hsim.
  intros Hn. destruct Hsim as [S1 S2 S3 S4 S5 [S6 S7]]. destruct (pi_count _ _ Hinv) as [Hc _]. pose proof (wf_counters _ _ (pi_wf _ _ Hinv)) as [Hc0 _].
  simpl. unfold register. simpl. rewrite wadd_small by (unfold fits; lia). rewrite S6. split; [done|]. set (id := next_observer (inner (sp s)) + 1).
  assert (∀ j, j ∈ active s → j ≠ id) as Hact by (intros j Hj; pose proof (wf_ids _ _ (pi_wf _ _ Hinv) j (or_intror Hj)); unfold id; lia).
  assert (observers (inner (sp s)) !! id = None) as Hid.
  { destruct (observers _ !! id) eqn:E; [|done]. pose proof (wf_ids _ _ (pi_wf _ _ Hinv) id ltac:(left; by eexists)). unfold id in *. lia. }
  split; simpl; try done.
  - intros j o'. rewrite !lookup_insert_Some, S1, elem_of_union, elem_of_singleton. naive_solver.
  - rewrite S2. symmetry. apply entries_ext. intros x j Hx Hj. destruct (queued_observer x j Hx Hj) as (_ & Hle & _). apply lookup_insert_ne. unfold id. lia.
  - intros j [<-|[_ Hj]]%lookup_insert_is_Some; [set_solver|]. destruct (S3 j Hj); set_solver.
Qed.

Lemma sim_signal id observed init now : simulates (port_step s (PSignal id observed init now)) (spec_step (can_bind_to_interrupt (sp s)) a (PSignal id observed init now)).2.
Proof using Hinv Hsim.
  pose proof Hsim as [S1 S2 S3 S4 S5 S6]. simpl. destruct (decide (id ∈ active s)) as [Hact|Hact].
  2: { destruct (waits a !! id) as [o|] eqn:E; [|done]. apply S1 in E as [_ ?]. done. }
  unfold signal_observer. destruct (observers (inner (sp s)) !! id) as [o|] eqn:Eo.
  2: { destruct (waits a !! id) as [o|] eqn:E; [apply S1 in E as [? _]; congruence|]. split; simpl; try done.
       - intros j o. rewrite S1. assert (observers (inner (sp s)) !! j = Some o → j ≠ id) by congruence. set_solver.
       - intros j Hj. destruct (S3 j Hj) as [Ha|]; [left|by right]. assert (j ≠ id) by (intros ->; destruct Hj; congruence). set_solver. }
  assert (waits a !! id = Some o) as -> by (by apply S1). rewrite S5. destruct (handle_closed (tokens s) o) eqn:Hcl.
  { split; simpl; try done.
    - intros j o'. rewrite !lookup_delete_Some, S1, elem_of_difference, elem_of_singleton. naive_solver.
    - rewrite S2. symmetry. apply entries_ext. intros x j Hx Hj. apply lookup_delete_ne. intros <-. by destruct (queued_observer x id Hx Hj).
    - intros j [Hne Hj]%lookup_delete_is_Some. destruct (S3 j Hj); [left; set_solver|by right]. }
  replace (negb (intersects observed (signals o)) || (init && contains (options o) WaitAsyncOptions.EDGE))
    with (negb (intersects observed (signals o) && negb (init && contains (options o) WaitAsyncOptions.EDGE))) by (by destruct (intersects _ _), (init && _)).
  destruct (_ && negb (init && _)); cbn [negb]; [|by split].
  pose proof (sim_enqueue s a (mkQueuedPacket (signal_packet now o observed) (Some id)) (tokens s) (active s ∖ {[id]})
    (log_in s ++ grown (sp s) (enqueue (mkQueuedPacket (signal_packet now o observed) (Some id)) (sp s))) (log_out s) Hsim ltac:(set_solver)) as He.
  unfold entry in He. simpl in He. rewrite Eo in He. rewrite S5 in He. apply He; [|done]. split; [done|]. split; [done|]. by exists o.
Qed.

Lemma sim_cancel_queued src k x : x ∈ queue (inner (sp s)) →
  cancel_queued src k (filter (λ '(_, o), cancels src k o = false) (observers (inner (sp s)))) x = true ↔ cancelled_entry src k (entry (observers (inner (sp s))) x).
Proof using Hinv.
  intros Hx. unfold cancel_queued, cancelled_entry, entry. simpl. destruct (observer x) as [id|] eqn:Ex.
  - destruct (queued_observer x id Hx Ex) as (_ & _ & o & Ho). rewrite Ho, negb_true_iff, bool_decide_eq_false, <-cancels_spec. split.
    + intros Hn. destruct (cancels src k o) eqn:E; [done|]. destruct Hn. exists o. by apply map_lookup_filter_Some.
    + intros Hc [o' [Ho' Hc']%map_lookup_filter_Some]. simplify_eq. congruence.
  - destruct src; [naive_solver|]. rewrite Z.eqb_eq. naive_solver.
Qed.

Lemma filter_entries (f : QueuedPacket → bool) (P : PortPacket * option Observer → Prop) `{∀ x, Decision (P x)} obs (q : list QueuedPacket) :
  (∀ x, x ∈ q → f x = true ↔ P (entry obs x)) → filter P (entry obs <$> q) = entry obs <$> List.filter f q.
Proof.
  induction q as [|x q IH]; intros H'; [done|]. rewrite fmap_cons, filter_cons. cbn [List.filter]. pose proof (H' x ltac:(by left)) as Hx. rewrite IH by (intros y Hy; apply H'; by right).
  destruct (decide (P (entry obs x))), (f x); naive_solver.
Qed.

Lemma sim_cancel src k : port_reports s (PCancel src k) = (spec_step (can_bind_to_interrupt (sp s)) a (PCancel src k)).1 ∧
  simulates (port_step s (PCancel src k)) (spec_step (can_bind_to_interrupt (sp s)) a (PCancel src k)).2.
Proof using Hinv Hsim.
  pose proof Hsim as [S1 S2 S3 S4 S5 S6]. pose proof (sim_cancel_queued src k) as Hcq. cbn [port_reports port_step spec_step fst snd]. unfold cancel.
  set (obs := filter _ (observers (inner (sp s)))) in *. set (q := List.filter _ _). set (p1 := with_inner _ (sp s)). set (c := is_empty q && _). destruct (clear_if_spec c p1) as (Hi & _ & _). cbn [fst snd].
  split.
  - f_equal. destruct (existsb _ (map_to_list _)) eqn:E1; simpl; [|destruct (existsb _ (queue _)) eqn:E2]; symmetry.
    + rewrite decide_True; [done|]. apply existsb_exists in E1 as ([id o] & Hin & Hc). apply list_elem_of_In, elem_of_map_to_list in Hin. apply cancels_spec in Hc.
      destruct (S3 id ltac:(by eexists)) as [Ha|Ha]; [left; exists id, o; split; [by apply S1|done]|]. right.
      apply elem_of_observer_ids in Ha as (x & Hx & Ex). rewrite S2, Exists_exists. exists (entry (observers (inner (sp s))) x). split; [by apply list_elem_of_fmap_2|].
      unfold cancelled_entry, entry. simpl. by rewrite Ex, Hin.
    + rewrite decide_True; [done|]. right. apply existsb_exists in E2 as (x & Hin & Hc). apply list_elem_of_In in Hin. rewrite S2, Exists_exists. exists (entry (observers (inner (sp s))) x).
      split; [by apply list_elem_of_fmap_2|]. by apply Hcq.
    + rewrite decide_False; [done|]. intros [(id & o & Ho & Hc)|Hex].
      * apply S1 in Ho as [Ho _]. rewrite <-not_true_iff_false in E1. apply E1, existsb_exists. exists (id, o). split; [by apply list_elem_of_In, elem_of_map_to_list|by apply cancels_spec].
      * rewrite S2, Exists_exists in Hex. destruct Hex as (y & (x & -> & Hx)%list_elem_of_fmap & Hc). rewrite <-not_true_iff_false in E2. apply E2, existsb_exists. exists x.
        split; [by apply list_elem_of_In|by apply Hcq].
  - assert (∀ id o, obs !! id = Some o ↔ observers (inner (sp s)) !! id = Some o ∧ ¬ cancelled_wait src k o) as Hobs.
    { intros id o. unfold obs. rewrite map_lookup_filter_Some, <-cancels_spec. by rewrite not_true_iff_false. }
    split; simpl; rewrite ?Hi; simpl; try done.
    + intros id o. rewrite map_lookup_filter_Some, S1, Hobs. naive_solver.
    + rewrite S2. rewrite (filter_entries (λ x, negb (cancel_queued src k obs x)) (λ x, ¬ cancelled_entry src k x) (observers (inner (sp s)))).
      2: { intros x Hx. rewrite negb_true_iff, <-not_true_iff_false. by rewrite (Hcq x Hx). }
      symmetry. apply entries_ext. intros x id Hx Hid. unfold q in Hx. apply list_elem_of_In, filter_In in Hx as [Hx Hc]. unfold cancel_queued in Hc. rewrite Hid, negb_involutive, bool_decide_eq_true in Hc.
      destruct Hc as [o Ho]. rewrite Ho. by apply Hobs in Ho as [-> _].
    + intros id [o Ho]. pose proof Ho as [Ho' Hn]%Hobs. destruct (S3 id ltac:(by eexists)) as [|Hq]; [by left|right]. apply elem_of_observer_ids in Hq as (x & Hx & Ex). apply elem_of_observer_ids.
      exists x. split; [|done]. unfold q. apply list_elem_of_In, filter_In. split; [by apply list_elem_of_In|]. unfold cancel_queued. rewrite Ex, negb_involutive, bool_decide_eq_true. by exists o.
Qed.

Lemma sim_interrupt ts k : n < 2 ^ 64 - 1 → port_reports s (PInterrupt ts k) = (spec_step (can_bind_to_interrupt (sp s)) a (PInterrupt ts k)).1 ∧
  simulates (port_step s (PInterrupt ts k)) (spec_step (can_bind_to_interrupt (sp s)) a (PInterrupt ts k)).2.
Proof using Hinv Hsim.
  intros Hn. pose proof Hsim as [S1 S2 S3 S4 S5 [S6 S7]]. destruct (pi_count _ _ Hinv) as [_ Hc]. pose proof (wf_counters _ _ (pi_wf _ _ Hinv)) as [_ Hc0]. simpl.
  destruct (can_bind_to_interrupt (sp s)); [|done]. unfold push_interrupt. rewrite wadd_small by (unfold fits; lia). set (id := interrupt_pid (inner (sp s)) + 1).
  set (p1 := with_inner _ (sp s)). destruct (set_readable_spec p1) as (Hi & _ & _). simpl. rewrite S7. split; [done|].
  split; simpl; rewrite ?Hi; simpl; try done. rewrite S4, filter_app. fold id. f_equal.
  - apply list_filter_iff'. intros x Hx. unfold waiting_in. pose proof (wf_pid_bound _ _ (pi_wf _ _ Hinv)) as Hb. rewrite Forall_forall in Hb. specialize (Hb x Hx). simpl in Hb.
    rewrite elem_of_union, elem_of_singleton. unfold id. split; [by right|]. intros [E|]; [lia|done].
  - rewrite filter_cons_True; [done|]. unfold waiting_in. simpl. set_solver.
Qed.
Lemma sim_remove id : port_reports s (PRemoveInterrupt id) = (spec_step (can_bind_to_interrupt (sp s)) a (PRemoveInterrupt id)).1 ∧
  simulates (port_step s (PRemoveInterrupt id)) (spec_step (can_bind_to_interrupt (sp s)) a (PRemoveInterrupt id)).2.
Proof using Hinv Hsim.
  pose proof Hsim as [S1 S2 S3 S4 S5 S6]. simpl. split.
  - f_equal. apply bool_decide_ext. rewrite S4. split.
    + intros Hg. pose proof (wf_grave _ _ (pi_wf _ _ Hinv) id Hg) as (x & -> & Hx)%list_elem_of_fmap. apply list_elem_of_fmap_2. by apply list_elem_of_filter.
    + by intros (x & -> & [Hg _]%list_elem_of_filter)%list_elem_of_fmap.
  - split; simpl; try done. rewrite S4, list_filter_filter. apply list_filter_iff. intros x. unfold waiting_in. rewrite elem_of_difference, elem_of_singleton. naive_solver.
Qed.

Lemma take_entry_skip t l k : Forall (shut_entry t) l → take_entry t (l ++ k) = take_entry t k.
Proof. induction 1 as [|x l Hx _ IH]; [done|]. simpl. by rewrite decide_True. Qed.
Lemma waiting_skip g l k : Forall (λ x, pid x ∉ g) l → filter (waiting_in g) (l ++ k) = filter (waiting_in g) k.
Proof. intros Hl. rewrite filter_app. induction Hl as [|x l Hx _ IH]; [done|]. by rewrite filter_cons_False. Qed.

(** The first loop of [wait] finds the first interrupt that has not been removed. *)
Lemma sim_drain_interrupts : ∃ r p1, (if can_bind_to_interrupt (sp s) then drain_interrupts (interrupt_queue (inner (sp s))) (sp s) else (None, sp s)) = (r, p1) ∧
  port_wf (active s) p1 ∧ queue (inner p1) = queue (inner (sp s)) ∧ observers (inner p1) = observers (inner (sp s)) ∧ next_observer (inner p1) = next_observer (inner (sp s)) ∧
  interrupt_pid (inner p1) = interrupt_pid (inner (sp s)) ∧ interrupts a = option_list r ++ filter (waiting_in (interrupt_grave (inner p1))) (interrupt_queue (inner p1)) ∧
  (r = None → interrupts a = [] ∧ filter (waiting_in (interrupt_grave (inner p1))) (interrupt_queue (inner p1)) = []).
Proof using Hinv Hsim.
  pose proof (pi_wf _ _ Hinv) as Hwf. rewrite (sm_interrupts _ _ Hsim). destruct (can_bind_to_interrupt (sp s)) eqn:Eb.
  2: { exists None, (sp s). assert (interrupt_queue (inner (sp s)) = []) as ->.
       { destruct (interrupt_queue (inner (sp s))) eqn:E; [done|]. pose proof (wf_bind _ _ Hwf) as Hb. rewrite E in Hb. rewrite Hb in Eb; done. }
       done. }
  pose proof (drain_interrupts_spec _ (sp s) eq_refl (wf_pids _ _ Hwf)) as Hd. destruct (drain_interrupts _ _) as [r p1]. destruct Hd as (sk & Hd). exists r, p1.
  pose proof (idrained_wf _ _ _ _ _ Hwf Hd) as Hwf1. destruct Hd as [D1 D2 D3 D4 D5 (R1 & R2 & R3 & R4 & R5) D7].
  assert (filter (waiting_in (interrupt_grave (inner p1))) (interrupt_queue (inner p1)) = filter (waiting_in (interrupt_grave (inner (sp s)))) (interrupt_queue (inner p1))) as Hf.
  { apply list_filter_iff'. intros x Hx. unfold waiting_in. rewrite D5. split; [by intros [? _]|]. intros Hg. split; [done|]. pose proof (wf_pids _ _ Hwf) as Hnd. rewrite D1, app_assoc, fmap_app in Hnd.
    apply NoDup_app in Hnd as (_ & Hnd & _). intros Hin. apply (Hnd (pid x) Hin). by apply list_elem_of_fmap_2. }
  split_and!; try done.
  - rewrite D1, waiting_skip by done. rewrite Hf, filter_app. f_equal. destruct r as [x|]; [|done]. simpl. rewrite filter_cons_True; [done|]. by apply D4.
  - intros ->. rewrite D1, waiting_skip, D2 by done. done.
Qed.

Lemma stale_shut x : x ∈ queue (inner (sp s)) → stale (tokens s) (observers (inner (sp s))) x → shut_entry (tokens s) (entry (observers (inner (sp s))) x).
Proof using Hinv.
  intros Hx (id & Hid & Hst). destruct (queued_observer x id Hx Hid) as (_ & _ & o & Ho). unfold shut_entry, entry. simpl. by rewrite Hid, Ho in *.
Qed.
Lemma live_open x : live (tokens s) (observers (inner (sp s))) x → ¬ shut_entry (tokens s) (entry (observers (inner (sp s))) x).
Proof using Type.
  unfold live, shut_entry, entry. simpl. destruct (observer x) as [id|]; [|by intros _ []]. intros (o & -> & Hcl). congruence.
Qed.

Lemma sim_wait : port_reports s PWait = (spec_step (can_bind_to_interrupt (sp s)) a PWait).1 ∧ simulates (port_step s PWait) (spec_step (can_bind_to_interrupt (sp s)) a PWait).2.
Proof using Hinv Hsim.
  pose proof Hsim as [S1 S2 S3 S4 S5 [S6 S7]]. destruct sim_drain_interrupts as (r1 & p1 & E1 & W1 & Q1 & O1 & N1 & P1 & I1 & I0). cbn [port_reports port_step spec_step]. unfold wait_round. rewrite E1. clear E1.
  destruct r1 as [x|]; simpl in I1.
  { rewrite I1. simpl. split; [done|]. split; simpl; rewrite ?Q1, ?O1, ?N1, ?P1; try done. }
  destruct (I0 eq_refl) as [-> Hnone]. pose proof (drain_queue_spec (tokens s) _ p1 eq_refl (wf_nodup _ _ W1)) as Hd. destruct (drain_queue _ _ p1) as [r2 p2]. destruct Hd as (sk & Hd).
  destruct Hd as [D1 D2 D3 D4 D5 (R1 & R2 & R3 & R4 & R5) D7]. rewrite Q1 in D1. rewrite O1 in D3, D4, D5.
  assert (take_entry (tokens s) (pending a) = (packet <$> r2, entry (observers (inner (sp s))) <$> queue (inner p2))) as Ht.
  { rewrite S2, D1, !fmap_app, take_entry_skip.
    - destruct r2 as [y|]; simpl; [rewrite decide_False by (by apply live_open, D4); done|]. by rewrite D2.
    - apply Forall_fmap. apply Forall_forall. intros y Hy. rewrite Forall_forall in D3. apply stale_shut; [rewrite D1; apply elem_of_app; by left|by apply D3]. }
  rewrite S5, Ht. split; [by destruct r2|].
  assert (∀ y j, y ∈ queue (inner p2) → observer y = Some j → observers (inner p2) !! j = observers (inner (sp s)) !! j) as Hsame.
  { intros y j Hy Hj. rewrite D5, decide_False; [done|]. eapply elem_of_skip_ids; [done..|]. rewrite <-D1. apply (wf_nodup _ _ (pi_wf _ _ Hinv)). }
  split; simpl; rewrite ?R2, ?R3, ?R1, ?R4, ?N1, ?P1; try done.
  - intros j o. rewrite S1, D5. destruct (decide (j ∈ observer_ids (sk ++ option_list r2))) as [Hin|]; [|done]. split; [|naive_solver]. intros [_ Ha]. exfalso.
    apply elem_of_observer_ids in Hin as (y & Hy & Ey). destruct (queued_observer y j) as [Hna _]; [|done|done]. rewrite D1, app_assoc. apply elem_of_app. by left.
  - symmetry. by apply entries_ext.
  - intros j [o Ho]. rewrite D5 in Ho. destruct (decide _) as [|Hni]; [done|]. destruct (S3 j ltac:(by eexists)) as [|Hin]; [by left|right]. rewrite D1, app_assoc, observer_ids_app in Hin. by apply elem_of_app in Hin as [?|?].
Qed.

Lemma sim_step op : n < 2 ^ 64 - 1 → port_reports s op = (spec_step (can_bind_to_interrupt (sp s)) a op).1 ∧ simulates (port_step s op) (spec_step (can_bind_to_interrupt (sp s)) a op).2.
Proof using Hinv Hsim.
  intros Hn. destruct op as [pkt|pkt|o|id ob i now|t|src k|ts k|id|].
  - split; [done|]. by apply (sim_enqueue s a (mkQueuedPacket pkt None)).
  - simpl. unfold push_user. assert (zlen (pending a) = zlen (queue (inner (sp s)))) as -> by (rewrite (sm_pending _ _ Hsim); unfold zlen; by rewrite length_fmap).
    destruct (_ <=? _); simpl; [split; [done|]; destruct Hsim; by split|]. split; [done|]. by apply (sim_enqueue s a (mkQueuedPacket _ None)).
  - by apply sim_wait_async.
  - split; [done|]. apply sim_signal.
  - split; [done|]. pose proof Hsim as []. split; simpl; try done. by rewrite sm_shut0.
  - apply sim_cancel.
  - by apply sim_interrupt.
  - apply sim_remove.
  - apply sim_wait.
Qed.
End simulation.

Lemma wait_round_options closed p : port_options (wait_round closed p).2 = port_options p.
Proof.
  assert (∀ iq p, port_options (drain_interrupts iq p).2 = port_options p) as Hi.
  { intros iq. induction iq as [|x iq IH]; intros q; [done|]. simpl. set (p1 := with_inner _ q). set (c := is_empty (queue (inner q)) && is_empty iq).
    destruct (clear_if_spec c p1) as (_ & Ho & _). simpl in Ho. destruct (bool_decide _); [done|]. by rewrite IH. }
  assert (∀ l p, port_options (drain_queue closed l p).2 = port_options p) as Hq.
  { intros l. induction l as [|x l IH]; intros q; [done|]. simpl. set (p1 := with_inner _ q). set (c := is_empty l && _). destruct (clear_if_spec c p1) as (_ & Ho & _). simpl in Ho.
    destruct (observer x) as [id|]; [|done]. destruct (observers _ !! id) as [o|]; [|by rewrite IH]. destruct (handle_closed _ o); [by rewrite IH|done]. }
  unfold wait_round. pose proof (Hi (interrupt_queue (inner p)) p) as H1. destruct (can_bind_to_interrupt p).
  - destruct (drain_interrupts _ p) as [[x|] p1]; simpl in *; [done|]. pose proof (Hq (queue (inner p1)) p1) as H2. destruct (drain_queue _ _ p1). simpl in *. congruence.
  - pose proof (Hq (queue (inner p)) p) as H2. by destruct (drain_queue _ _ p).
Qed.
Lemma port_step_options s op : port_options (sp (port_step s op)) = port_options (sp s).
Proof.
  destruct op as [pkt|pkt|o|id ob i now|t|src k|ts k|id|]; simpl.
  - unfold push. by destruct (enqueue_inner (mkQueuedPacket pkt None) (sp s)) as (_ & -> & _).
  - unfold push_user. destruct (_ <=? _); [done|]. simpl. by destruct (enqueue_inner (mkQueuedPacket (mkPortPacket (key pkt) PacketType.User (status pkt) (data pkt)) None) (sp s)) as (_ & -> & _).
  - done.
  - destruct (decide _); [|done]. unfold signal_observer. destruct (observers _ !! id) as [o|]; [|done]. destruct (handle_closed _ o); [done|]. destruct (_ || _); [done|]. simpl.
    by destruct (enqueue_inner (mkQueuedPacket (signal_packet now o ob) (Some id)) (sp s)) as (_ & -> & _).
  - done.
  - unfold cancel. simpl. set (p1 := with_inner _ (sp s)). set (c := is_empty _ && _). by destruct (clear_if_spec c p1) as (_ & -> & _).
  - destruct (can_bind_to_interrupt (sp s)); [|done]. unfold push_interrupt. simpl. set (p1 := with_inner _ (sp s)). by destruct (set_readable_spec p1) as (_ & -> & _).
  - done.
  - pose proof (wait_round_options (tokens s) (sp s)) as Hw. by destruct (wait_round (tokens s) (sp s)).
Qed.

Lemma port_history_sim id opts w p ops : new id opts w = Ok p → zlen ops < 2 ^ 64 →
  can_bind_to_interrupt (sp (port_history p ops)) = can_bind_to_interrupt p ∧ simulates (port_history p ops) (spec_history (can_bind_to_interrupt p) ops).
Proof.
  intros Hp. induction ops as [|op ops IH] using rev_ind; intros Hl.
  - split; [done|]. unfold new in Hp. apply rbind_Ok in Hp as (o & _ & [= <-]). split; simpl; try done; [intros j o'; rewrite lookup_empty; naive_solver|]. intros j [o' Ho']. by rewrite lookup_empty in Ho'.
  - rewrite zlen_app in Hl. change (zlen [op]) with 1 in Hl. destruct IH as [Hb Hs]; [lia|]. pose proof (port_history_inv id opts w p ops Hp ltac:(lia)) as Hinv.
    unfold port_history, spec_history in *. rewrite !foldl_app. simpl. split; [unfold can_bind_to_interrupt in *; by rewrite port_step_options|].
    rewrite <-Hb. apply (sim_step _ _ _ Hinv); [by rewrite Hb|lia].
Qed.

(** C13. A port does what its specification says: over every history of fewer than [2 ^ 64 - 1] pushes, asynchronous
    waits, signals, cancellations, handle closures, interrupts and waits, every operation reports what
    the specification reports, in which a wait takes the oldest interrupt that has not been removed, or
    else the oldest packet whose asynchronous wait still has its handle, and a packet disappears only
    by being handed out, by a matching cancellation, or because its handle was closed; each
    asynchronous wait contributes at most one packet, no removed interrupt is handed out, and
    [READABLE] is asserted exactly while something is queued. *)
Theorem port_delivery id opts w p ops :
  new id opts w = Ok p → zlen ops < 2 ^ 64 - 1 →
  let s := port_history p ops in
  let a := spec_history (can_bind_to_interrupt p) ops in
  (∀ op, port_reports s op = (spec_step (can_bind_to_interrupt p) a op).1) ∧
  pending a = entry (observers (inner (sp s))) <$> queue (inner (sp s)) ∧
  NoDup (observer_ids (log_in s)) ∧
  NoDup (pid <$> int_in s) ∧
  Forall (λ x, pid x ∉ removed s) (int_out s) ∧
  contains (signal (base (sp s))) Signal.READABLE =
    negb (is_empty (queue (inner (sp s))) && is_empty (interrupt_queue (inner (sp s)))).
Proof.
  intros Hp Hl s a. pose proof (port_history_inv id opts w p ops Hp ltac:(lia)) as Hinv. destruct (port_history_sim id opts w p ops Hp ltac:(lia)) as [Hb Hs]. fold s in Hinv, Hb, Hs. fold a in Hs.
  split; [intros op; rewrite <-Hb; by apply (sim_step (zlen ops) s a Hinv Hs op)|]. split; [by apply (sm_pending _ _ Hs)|]. destruct Hinv. split_and!; try done. apply (wf_readable _ _ pi_wf0).
Qed.

(** What a cancellation of [k], restricted to [src] if given, is meant to remove. *)
Definition matched (src : option (Z * Z)) (k : Z) (obs : gmap Z Observer) (x : QueuedPacket) : Prop :=
  match observer x with
  | Some id => ∃ o, obs !! id = Some o ∧ okey o = k ∧ (∀ s, src = Some s → s = source o)
  | None => src = None ∧ key (packet x) = k
  end.

Lemma cancels_true src k o :
  cancels src k o = true ↔ okey o = k ∧ (∀ s, src = Some s → s = source o).
Proof.
  unfold cancels. rewrite andb_true_iff, Z.eqb_eq. destruct src as [s|].
  - rewrite bool_decide_eq_true. naive_solver.
  - naive_solver.
Qed.

Lemma cancel_queued_true src k act p x :
  port_wf act p → x ∈ queue (inner p) →
  cancel_queued src k (filter (λ '(_, o), cancels src k o = false) (observers (inner p))) x = true ↔
  matched src k (observers (inner p)) x.
Proof.
  intros Hwf Hx. unfold cancel_queued, matched. destruct (observer x) as [id|] eqn:Ex.
  - destruct (wf_queued _ _ Hwf x id Hx Ex) as (_ & o & Ho & _).
    rewrite negb_true_iff, bool_decide_eq_false. split.
    + intros Hn. exists o. split; [done|]. apply cancels_true.
      destruct (cancels src k o) eqn:E; [done|]. destruct Hn. exists o. by apply map_lookup_filter_Some.
    + intros (o' & Ho' & Hm) [o'' [Ho'' Hc]%map_lookup_filter_Some]. simplify_eq.
      apply cancels_true in Hm. congruence.
  - destruct src; [naive_solver|]. rewrite Z.eqb_eq. naive_solver.
Qed.

(** In every reachable state, [cancel] removes exactly the waits that match the key
    and the optional source handle, together with the packets they have queued (and,
    without a source, the packets pushed with that key), keeps everything else in order,
    and fails with [NOT_FOUND] exactly when there was nothing to remove. *)
Theorem port_cancel_exact id opts w p0 ops src k :
  new id opts w = Ok p0 → zlen ops < 2 ^ 64 →
  let p := sp (port_history p0 ops) in
  let '(r, p') := cancel src k p in
  (∀ i o, observers (inner p') !! i = Some o ↔
     observers (inner p) !! i = Some o ∧ ¬ (okey o = k ∧ ∀ s, src = Some s → s = source o)) ∧
  sublist (queue (inner p')) (queue (inner p)) ∧
  (∀ x, x ∈ queue (inner p') ↔ x ∈ queue (inner p) ∧ ¬ matched src k (observers (inner p)) x) ∧
  (r = Err ZxError.NOT_FOUND ↔
     (∀ i o, observers (inner p) !! i = Some o → ¬ (okey o = k ∧ ∀ s, src = Some s → s = source o)) ∧
     (∀ x, x ∈ queue (inner p) → ¬ matched src k (observers (inner p)) x)).
Proof.
  intros Hp Hl p. pose proof (pi_wf _ _ (port_history_inv id opts w p0 ops Hp Hl)) as Hwf. fold p in Hwf.
  pose proof (λ x, cancel_queued_true src k _ p x Hwf) as Hcq. unfold cancel. simpl.
  set (obs := filter _ (observers (inner p))) in *. set (q := List.filter _ _). set (p1 := with_inner _ p).
  set (c := is_empty q && _). destruct (clear_if_spec c p1) as (Hi & _ & _). rewrite Hi. simpl.
  assert (∀ x, x ∈ q ↔ x ∈ queue (inner p) ∧ ¬ matched src k (observers (inner p)) x) as Hq.
  { intros x. unfold q. rewrite list_elem_of_In, filter_In, <-list_elem_of_In, negb_true_iff.
    split; intros [Hx Hm]; (split; [done|]).
    - intros Hm'%(Hcq x Hx). congruence.
    - destruct (cancel_queued src k obs x) eqn:E; [|done]. destruct Hm. by apply (Hcq x Hx). }
  split_and!.
  - intros i o. unfold obs. rewrite map_lookup_filter_Some, <-cancels_true. by rewrite not_true_iff_false.
  - unfold q. clear. induction (queue (inner p)) as [|x l IH]; simpl; [done|]. destruct (negb _); by constructor.
  - done.
  - destruct (existsb _ (map_to_list _)) eqn:E1; simpl; [|destruct (existsb _ (queue _)) eqn:E2].
    + split; [done|]. intros [Ho _]. exfalso. apply existsb_exists in E1 as ([i o] & Hin & Hc).
      apply list_elem_of_In, elem_of_map_to_list in Hin. by apply (Ho i o Hin), cancels_true.
    + split; [done|]. intros [_ Hx]. exfalso. apply existsb_exists in E2 as (x & Hin & Hc).
      apply list_elem_of_In in Hin. by apply (Hx x Hin), (Hcq x Hin).
    + split; [|done]. intros _. split.
      * intros i o Ho Hc%cancels_true. rewrite <-not_true_iff_false in E1. apply E1, existsb_exists.
        exists (i, o). split; [|done]. by apply list_elem_of_In, elem_of_map_to_list.
      * intros x Hx Hm%(Hcq x Hx). rewrite <-not_true_iff_false in E2. apply E2, existsb_exists.
        exists x. split; [|done]. by apply list_elem_of_In.
Qed.

(** An asynchronous wait fires once and in time: registered on an object whose
    signals do not match yet, it queues nothing; the first signal change that makes them
    match appends exactly one packet with the wait's key and signals to the port's queue,
    after which the callback is gone from the object. *)
Theorem wait_async_fires (obj : KObjectBase PortEnv) (o : Observer) (e : PortEnv) clear set :
  signal_callbacks obj = [] → handle_closed (closed e) o = false →
  intersects (signal obj) (signals o) = false →
  intersects (changed (signal obj) clear set) (signals o) = true →
  let '(obj1, e1) := wait_async obj o e in
  let '(obj2, e2) := signal_change clear set obj1 e1 in
  queue (inner (port e1)) = queue (inner (port e)) ∧
  length (signal_callbacks obj1) = 1%nat ∧ signal_callbacks obj2 = [] ∧
  ∃ i, queue (inner (port e2)) = queue (inner (port e)) ++
    [mkQueuedPacket (signal_packet (timer_now e) o (changed (signal obj) clear set)) (Some i)].
Proof.
  intros Hcb Hopen Hno Hyes. unfold wait_async, register, add_signal_callback, port_callback.
  set (id := wadd 64 _ 1). set (p1 := with_inner _ (port e)). simpl.
  assert (observers (inner p1) !! id = Some o) as Hl by apply lookup_insert_eq.
  unfold signal_observer at 1. rewrite Hl, Hopen, Hno. simpl. rewrite Hcb. simpl.
  unfold signal_change. simpl.
  assert ((changed (signal obj) clear set =? signal obj) = false) as ->.
  { apply Z.eqb_neq. intros E. rewrite E in Hyes. congruence. }
  simpl. unfold signal_observer. rewrite Hl, Hopen, Hyes. simpl.
  rewrite bool_decide_false by set_solver. simpl.
  destruct (enqueue_inner (mkQueuedPacket (signal_packet (timer_now e) o (changed (signal obj) clear set))
    (Some id)) p1) as (Hi & _ & _). rewrite Hi. split_and!; try done. by exists id.
Qed.

End port.
Arguments Port : clear implicits.
Arguments PortEnv : clear implicits.

(** ** A concrete port *)

Definition demo_packet (k : Z) : PortPacket := from_repr (mkPortPacketRepr k ZxError.OK (RUser (repeat 0 32))).
Definition demo_observer : Observer := mkObserver (1024, 3) 7 Signal.READABLE 0 (Some 0%nat).
Definition demo_ops : list port_op :=
  [PWaitAsync demo_observer; PPush (demo_packet 5); PSignal 1 Signal.READABLE false 99;
   PInterrupt 9 3; PRemoveInterrupt 1; PWait].
Definition demo_port : Port unit := mkPort (KObjectBase_new 1030) tt 1 inner_default.

(** The removed interrupt is skipped and the user packet is handed out; what is left is the packet of the wait. *)
Lemma port_delivery_witness :
  let s := port_history demo_port demo_ops in
  log_out s = [mkQueuedPacket (demo_packet 5) None] ∧
  port_reports s PWait = OPacket (Some (signal_packet 99 demo_observer Signal.READABLE)).
Proof.
  intros s. destruct (port_delivery 1030 1 tt demo_port demo_ops) as (Hs & _);
    [by vm_compute|by vm_compute|]. fold s in Hs. split; [by vm_compute|]. rewrite (Hs PWait). by vm_compute.
Defined.

Lemma port_cancel_exact_witness :
  queue (inner (sp (port_history demo_port demo_ops))) ≠ [] ∧
  let '(r, p') := cancel (Some (1024, 3)) 7 (sp (port_history demo_port demo_ops)) in
  ∀ x, x ∉ queue (inner p').
Proof.
  split; [by vm_compute|].
  pose proof (port_cancel_exact 1030 1 tt demo_port demo_ops (Some (1024, 3)) 7
    ltac:(by vm_compute) ltac:(by vm_compute)) as Hc.
  assert (queue (inner (sp (port_history demo_port demo_ops))) =
    [mkQueuedPacket (signal_packet 99 demo_observer Signal.READABLE) (Some 1)]) as Eq by (by vm_compute).
  assert (observers (inner (sp (port_history demo_port demo_ops))) !! 1 = Some demo_observer)
    as Eo by (by vm_compute).
  revert Hc Eq Eo. generalize (sp (port_history demo_port demo_ops)). intros p Hc Eq Eo.
  revert Hc. cbv zeta. destruct (cancel (Some (1024, 3)) 7 p) as [r p']. intros Hc.
  destruct Hc as (_ & _ & Hq & _). intros x. rewrite Hq, Eq. intros [->%list_elem_of_singleton Hm].
  apply Hm. exists demo_observer. split_and!; [done..|]. by intros s [= <-].
Defined.

Lemma wait_async_fires_witness :
  let obj := KObjectBase_new 1031 in
  let e := mkPortEnv demo_port ∅ ∅ 42 in
  let '(obj1, e1) := wait_async obj demo_observer e in
  let '(obj2, e2) := signal_change 0 Signal.READABLE obj1 e1 in
  length (queue (inner (port e2))) = 1%nat.
Proof.
  intros obj e.
  pose proof (wait_async_fires obj demo_observer e 0 Signal.READABLE eq_refl eq_refl eq_refl eq_refl) as Hf.
  destruct (wait_async obj demo_observer e) as [obj1 e1].
  destruct (signal_change 0 Signal.READABLE obj1 e1) as [obj2 e2].
  destruct Hf as (_ & _ & _ & i & ->). done.
Defined.
