(* ===== verification/Futex.v ===== *)
(** * Futexes ([zircon-object/src/signal/futex.rs])

    The futexes of the system are named by numbers, and so are the waiters: a waiter is
    the shared part of a future returned by [wait_with_owner].  The word a futex guards
    lives in user memory and changes at any time.  Each operation is first modelled as
    atomic; the two halves of a first poll, and the order in which locks are taken, are
    then looked at separately. *)

From S2P Require Import Prelude Errors Locks.
From stdpp Require Import options.
#[local] Open Scope Z_scope.

Record Waiter := mkWaiter {
  thread : option Z;
  waker : option nat;
  woken : bool;
  futex : Z
}.

Record FutexInner := mkFutexInner { waiter_queue : list nat; owner : option Z }.

(** [wakes] logs the tasks that were woken. *)
Record futexes := mkFutexes {
  value : gmap Z Z;
  inners : gmap Z FutexInner;
  waiters : gmap nat Waiter;
  wakes : list nat
}.

Definition inner_of (f : Z) (st : futexes) : FutexInner :=
  default (mkFutexInner [] None) (inners st !! f).
Definition load (f : Z) (st : futexes) : Z := default 0 (value st !! f).
Definition queue_of (f : Z) (st : futexes) : list nat := waiter_queue (inner_of f st).

Definition set_inner (f : Z) (i : FutexInner) (st : futexes) : futexes :=
  mkFutexes (value st) (<[f := i]> (inners st)) (waiters st) (wakes st).
Definition set_queue (f : Z) (q : list nat) (st : futexes) : futexes :=
  set_inner f (mkFutexInner q (owner (inner_of f st))) st.
Definition set_owner (f : Z) (o : option Z) (st : futexes) : futexes :=
  set_inner f (mkFutexInner (queue_of f st) o) st.
Definition set_waiter (w : nat) (x : Waiter) (st : futexes) : futexes :=
  mkFutexes (value st) (inners st) (<[w := x]> (waiters st)) (wakes st).

(** [Waiter::wake]: panics if the future was never polled. *)
Definition wake_waiter (w : nat) (st : futexes) : ZxResult futexes :=
  match waiters st !! w with
  | None => Panic
  | Some x =>
      let? t := unwrap (waker x) in
      let st := set_waiter w (mkWaiter (thread x) (waker x) true (futex x)) st in
      Ok (mkFutexes (value st) (inners st) (waiters st) (wakes st ++ [t]))
  end.

(** [Waiter::reset_futex] *)
Definition reset_futex (w : nat) (f : Z) (st : futexes) : futexes :=
  match waiters st !! w with
  | None => st
  | Some x => set_waiter w (mkWaiter (thread x) (waker x) (woken x) f) st
  end.

(** The loop of [wake] and [requeue]: the number of waiters that were woken. *)
Fixpoint wake_loop (n : nat) (f : Z) (st : futexes) : ZxResult (nat * futexes) :=
  match n with
  | O => Ok (O, st)
  | S n =>
      match queue_of f st with
      | [] => Ok (O, st)
      | w :: rest =>
          let? st := wake_waiter w (set_queue f rest st) in
          let? (k, st) := wake_loop n f st in
          Ok (S k, st)
      end
  end.

Definition wake (f : Z) (wake_count : nat) (st : futexes) : ZxResult (nat * futexes) :=
  wake_loop wake_count f (set_owner f None st).

(** [wait_with_owner]: the waiter [w] of the new future. *)
Definition wait_with_owner (f : Z) (th : option Z) (w : nat) (st : futexes) : futexes :=
  set_waiter w (mkWaiter th None false f) st.

Definition is_valid_new_owner (f : Z) (new_owner : option Z) (st : futexes) : bool :=
  match new_owner with
  | None => true
  | Some t =>
      negb (existsb (λ w, match waiters st !! w with
                          | Some x => bool_decide (thread x = Some t)
                          | None => false
                          end) (queue_of f st))
  end.

(** The first poll of a waiter that is not woken, in two halves: the value is compared
    before the futex is locked. *)
Definition poll_check (x : Waiter) (current_value : Z) (st : futexes) : bool :=
  load (futex x) st =? current_value.

Definition poll_enqueue (w : nat) (x : Waiter) (cx : nat) (new_owner : option Z) (st : futexes) :
    option (ZxResult unit) * futexes :=
  if is_valid_new_owner (futex x) new_owner st then
    (None, set_waiter w (mkWaiter (thread x) (Some cx) (woken x) (futex x))
             (set_queue (futex x) (queue_of (futex x) st ++ [w]) st))
  else (Some (Err ZxError.INVALID_ARGS), st).

(** [FutexFuture::poll]; [None] is [Poll::Pending]. *)
Definition poll (w : nat) (cx : nat) (current_value : Z) (new_owner : option Z) (st : futexes) :
    option (ZxResult unit) * futexes :=
  match waiters st !! w with
  | None => (Some Panic, st)
  | Some x =>
      if woken x then (Some (Ok tt), set_owner (futex x) new_owner st)
      else match waker x with
      | Some _ => (None, st)
      | None =>
          if poll_check x current_value st then poll_enqueue w x cx new_owner st
          else (Some (Err ZxError.BAD_STATE), st)
      end
  end.

(** [VecDeque::swap_remove_back]: the last element takes the place of the removed one. *)
Definition swap_remove_back (pos : nat) (q : list nat) : list nat :=
  match last q with
  | None => q
  | Some l => take (length q - 1) (<[pos := l]> q)
  end.

Fixpoint position (w : nat) (q : list nat) : option nat :=
  match q with
  | [] => None
  | y :: q => if decide (y = w) then Some O else S <$> position w q
  end.

(** [impl Drop for FutexFuture]; the waiter goes with its future. *)
Definition drop_future (w : nat) (st : futexes) : futexes :=
  match waiters st !! w with
  | None => st
  | Some x =>
      let st := if woken x then st
                else match position w (queue_of (futex x) st) with
                | Some pos => set_queue (futex x) (swap_remove_back pos (queue_of (futex x) st)) st
                | None => st
                end in
      mkFutexes (value st) (inners st) (delete w (waiters st)) (wakes st)
  end.

Definition wake_single_owner (f : Z) (st : futexes) : ZxResult futexes :=
  match queue_of f st with
  | [] => Ok (set_owner f None st)
  | w :: rest =>
      let? st := wake_waiter w (set_queue f rest st) in
      Ok (set_owner f (match waiters st !! w with Some x => thread x | None => None end) st)
  end.

(** The loop over the drained waiters. *)
Definition requeue_loop (g : Z) (ws : list nat) (st : futexes) : futexes :=
  foldl (λ st w, set_queue g (queue_of g st ++ [w]) (reset_futex w g st)) st ws.

(** [requeue].  It locks both futexes, so the callers pass two different ones
    ([sys_futex_requeue] checks the addresses). *)
Definition requeue (f : Z) (current_value : Z) (wake_count requeue_count : nat) (g : Z)
    (new_requeue_owner : option Z) (check_value : bool) (st : futexes) : ZxResult futexes :=
  if check_value && negb (load f st =? current_value) then Err ZxError.BAD_STATE
  else
    let? (_, st) := wake_loop wake_count f st in
    let q := queue_of f st in
    let n := (requeue_count `min` length q)%nat in
    let st := requeue_loop g (take n q) (set_queue f (drop n q) st) in
    Ok (set_owner g new_requeue_owner (set_owner f None st)).

(** ** Invariant *)

Lemma inner_of_set_inner f i st g :
  inner_of g (set_inner f i st) = if decide (g = f) then i else inner_of g st.
Proof.
  unfold inner_of, set_inner. simpl. destruct (decide (g = f)) as [->|].
  - by rewrite lookup_insert_eq.
  - by rewrite lookup_insert_ne.
Qed.

Lemma queue_of_set_queue f q st g :
  queue_of g (set_queue f q st) = if decide (g = f) then q else queue_of g st.
Proof. unfold queue_of, set_queue. rewrite inner_of_set_inner. by destruct (decide (g = f)). Qed.

Lemma queue_of_set_owner f o st g : queue_of g (set_owner f o st) = queue_of g st.
Proof.
  unfold set_owner. unfold queue_of at 1. rewrite inner_of_set_inner.
  by destruct (decide (g = f)) as [->|].
Qed.

Lemma owner_of_set_queue f q st g : owner (inner_of g (set_queue f q st)) = owner (inner_of g st).
Proof. unfold set_queue. rewrite inner_of_set_inner. by destruct (decide (g = f)) as [->|]. Qed.

Lemma owner_of_set_owner f o st g :
  owner (inner_of g (set_owner f o st)) = if decide (g = f) then o else owner (inner_of g st).
Proof. unfold set_owner. rewrite inner_of_set_inner. by destruct (decide (g = f)). Qed.

Create Rewrite HintDb futex.
#[export] Hint Rewrite queue_of_set_queue queue_of_set_owner owner_of_set_queue owner_of_set_owner : futex.

(** A waiter sleeps exactly while it is queued at the futex it refers to. *)
Record futex_wf (st : futexes) : Prop := {
  q_sleeps f w : w ∈ queue_of f st → ∃ x t, waiters st !! w = Some x ∧ woken x = false ∧
    waker x = Some t ∧ futex x = f;
  q_nodup f : NoDup (queue_of f st);
  q_queued w x t : waiters st !! w = Some x → woken x = false → waker x = Some t →
    w ∈ queue_of (futex x) st
}.

Definition awake (x : Waiter) : Waiter := mkWaiter (thread x) (waker x) true (futex x).

(** Taking the first waiter off a queue and waking it. *)
Lemma wake_first f w rest st :
  futex_wf st → queue_of f st = w :: rest →
  ∃ x t st', waiters st !! w = Some x ∧ waker x = Some t ∧ futex x = f ∧
    wake_waiter w (set_queue f rest st) = Ok st' ∧ futex_wf st' ∧
    (∀ g, queue_of g st' = if decide (g = f) then rest else queue_of g st) ∧
    (∀ g, owner (inner_of g st') = owner (inner_of g st)) ∧
    waiters st' = <[w := awake x]> (waiters st) ∧ value st' = value st ∧ wakes st' = wakes st ++ [t].
Proof.
  intros [H1 H2 H3] Hq.
  destruct (H1 f w) as (x & t & Hx & Hw & Ht & Hf); [rewrite Hq; by left|].
  exists x, t. eexists. unfold wake_waiter. simpl. rewrite Hx, Ht. simpl.
  split_and!; [done..| | | |by unfold awake; rewrite Ht|done|done].
  - pose proof (H2 f) as Hnd. rewrite Hq in Hnd. apply NoDup_cons in Hnd as [Hnin Hnd].
    assert (∀ g v, v ∈ (if decide (g = f) then rest else queue_of g st) → v ≠ w ∧ v ∈ queue_of g st) as Hin.
    { intros g v Hv. destruct (decide (g = f)) as [->|Hne].
      - split; [by intros ->|]. rewrite Hq. by right.
      - split; [|done]. intros ->. destruct (H1 g w Hv) as (y & ? & ? & _ & _ & ?). congruence. }
    split.
    + intros g v Hv. change (v ∈ queue_of g (set_queue f rest st)) in Hv. rewrite queue_of_set_queue in Hv.
      apply Hin in Hv as [Hne Hv]. simpl. rewrite lookup_insert_ne by done. by apply H1.
    + intros g. change (NoDup (queue_of g (set_queue f rest st))). rewrite queue_of_set_queue.
      by destruct (decide (g = f)).
    + intros v y s Hy Hwo Hs. change (v ∈ queue_of (futex y) (set_queue f rest st)). rewrite queue_of_set_queue.
      simpl in Hy. apply lookup_insert_Some in Hy as [[<- <-]|[Hne Hy]]; [done|].
      pose proof (H3 v y s Hy Hwo Hs) as Hv. destruct (decide (futex y = f)) as [E|]; [|done].
      rewrite E, Hq in Hv. apply elem_of_cons in Hv as [->|]; done.
  - intros g. change (queue_of g (set_queue f rest st) = if decide (g = f) then rest else queue_of g st).
    apply queue_of_set_queue.
  - intros g. change (owner (inner_of g (set_queue f rest st)) = owner (inner_of g st)).
    apply owner_of_set_queue.
Qed.

Lemma omap_ext_all {A B} (h k : A → option B) (l : list A) : (∀ x, h x = k x) → omap h l = omap k l.
Proof. intros E. induction l as [|y l IH]; [done|]. cbn. rewrite E. destruct (k y); [f_equal|]; apply IH. Qed.

(** The task that polls the future of a waiter. *)
Definition task_of (st : futexes) (w : nat) : option nat := waiters st !! w ≫= waker.

(** What waking the first [n] waiters of [f] does. *)
Record woke (n : nat) (f : Z) (st st' : futexes) : Prop := {
  wk_wf : futex_wf st';
  wk_queue g : queue_of g st' = if decide (g = f) then drop n (queue_of f st) else queue_of g st;
  wk_owner g : owner (inner_of g st') = owner (inner_of g st);
  wk_waiters w : waiters st' !! w =
    if decide (w ∈ take n (queue_of f st)) then awake <$> waiters st !! w else waiters st !! w;
  wk_value : value st' = value st;
  wk_wakes : wakes st' = wakes st ++ omap (task_of st) (take n (queue_of f st))
}.

Lemma wake_loop_spec n f st :
  futex_wf st →
  ∃ st', wake_loop n f st = Ok ((n `min` length (queue_of f st))%nat, st') ∧ woke n f st st'.
Proof.
  revert st. induction n as [|n IH]; intros st Hwf; simpl.
  { exists st. split; [done|]. split; try done; [|by rewrite app_nil_r].
    intros g. by destruct (decide (g = f)) as [->|]. }
  destruct (queue_of f st) as [|w rest] eqn:Eq.
  { exists st. split; [done|]. split; try done; [|rewrite Eq; done|by rewrite Eq, app_nil_r].
    intros g. destruct (decide (g = f)) as [->|]; [by rewrite Eq|done]. }
  destruct (wake_first f w rest st Hwf Eq) as (x & t & st1 & Hx & Ht & Hf & -> & Hwf1 & Q1 & O1 & W1 & V1 & L1).
  simpl. destruct (IH st1 Hwf1) as (st2 & -> & [K1 K2 K3 K4 K5 K6]). simpl.
  assert (queue_of f st1 = rest) as Er by (by rewrite Q1, decide_True).
  rewrite Er in *. exists st2. split; [done|]. split; rewrite ?Eq; try done.
  - intros g. rewrite K2. destruct (decide (g = f)) as [->|Hne]; [done|]. by rewrite Q1, decide_False.
  - intros g. by rewrite K3.
  - intros v. rewrite K4, W1. simpl. destruct (decide (v = w)) as [->|Hne].
    + rewrite (decide_True (P := w ∈ w :: take n rest)) by (by left).
      rewrite lookup_insert_eq, Hx. by destruct (decide _).
    + rewrite lookup_insert_ne by done. apply decide_ext. rewrite elem_of_cons. naive_solver.
  - by rewrite K5.
  - rewrite K6, L1, <-app_assoc. simpl. unfold task_of at 2. rewrite Hx. simpl. rewrite Ht. simpl.
    do 2 f_equal. apply omap_ext_all. intros v. unfold task_of. rewrite W1.
    destruct (decide (v = w)) as [->|]; [by rewrite lookup_insert_eq, Hx|by rewrite lookup_insert_ne].
Qed.

Lemma set_owner_wf f o st : futex_wf st → futex_wf (set_owner f o st).
Proof.
  intros [H1 H2 H3]. split.
  - intros g w. rewrite queue_of_set_owner. apply H1.
  - intros g. rewrite queue_of_set_owner. apply H2.
  - intros w x t. rewrite queue_of_set_owner. apply H3.
Qed.

Lemma wait_with_owner_wf f th w st :
  waiters st !! w = None → futex_wf st → futex_wf (wait_with_owner f th w st).
Proof.
  intros Hw [H1 H2 H3]. split.
  - intros g v Hv. destruct (H1 g v Hv) as (x & t & Hx & ?). exists x, t. split; [|done]. simpl.
    rewrite lookup_insert_ne; [done|]. congruence.
  - apply H2.
  - intros v x t Hx Hwo Ht. simpl in Hx. apply lookup_insert_Some in Hx as [[<- <-]|[Hne Hx]]; [done|].
    by apply (H3 v x t).
Qed.

Lemma poll_enqueue_wf w x cx no st :
  waiters st !! w = Some x → woken x = false → waker x = None → futex_wf st →
  futex_wf (snd (poll_enqueue w x cx no st)).
Proof.
  intros Hx Hwo Hwk Hwf. pose proof Hwf as [H1 H2 H3]. unfold poll_enqueue.
  destruct (is_valid_new_owner _ _ _); [|done]. simpl.
  assert (∀ g, w ∉ queue_of g st) as Hnin.
  { intros g Hin. destruct (H1 g w Hin) as (y & t & Hy & _ & ? & _). congruence. }
  assert (∀ g, queue_of g (set_waiter w (mkWaiter (thread x) (Some cx) (woken x) (futex x))
      (set_queue (futex x) (queue_of (futex x) st ++ [w]) st)) =
    if decide (g = futex x) then queue_of (futex x) st ++ [w] else queue_of g st) as Hq.
  { intros g. apply queue_of_set_queue. }
  split; intros g; rewrite ?Hq.
  - intros v Hv. assert (v = w ∧ g = futex x ∨ v ∈ queue_of g st) as [[-> ->]|Hv'].
    { destruct (decide (g = futex x)) as [->|]; [|by right].
      apply elem_of_app in Hv as [Hv| ->%list_elem_of_singleton]; [by right|by left]. }
    + simpl. rewrite lookup_insert_eq. by do 2 eexists.
    + destruct (H1 g v Hv') as (y & t & Hy & ?). exists y, t. simpl. rewrite lookup_insert_ne; [done|].
      intros ->. by destruct (Hnin g).
  - destruct (decide (g = futex x)); [|apply H2]. apply NoDup_app. split_and!; [apply H2| |apply NoDup_singleton].
    intros v Hv ->%list_elem_of_singleton. by destruct (Hnin (futex x)).
  - intros y t Hy Hyw Hyt. simpl in Hy. rewrite Hq.
    apply lookup_insert_Some in Hy as [[<- <-]|[Hne Hy]]; simpl.
    + rewrite decide_True by done. apply elem_of_app. right. by left.
    + pose proof (H3 g y t Hy Hyw Hyt). destruct (decide (futex y = futex x)) as [E|]; [|done].
      apply elem_of_app. left. by rewrite <-E.
Qed.

Lemma poll_wf w cx cur no st : futex_wf st → futex_wf (snd (poll w cx cur no st)).
Proof.
  intros Hwf. unfold poll. destruct (waiters st !! w) as [x|] eqn:Hx; [|done].
  destruct (woken x) eqn:Hwo; [by apply set_owner_wf|]. destruct (waker x) eqn:Hwk; [done|].
  destruct (poll_check x cur st); [|done]. by apply poll_enqueue_wf.
Qed.

(** [swap_remove_back] at the position of [w] removes [w] and nothing else. *)
Lemma position_Some w q i : position w q = Some i → q !! i = Some w.
Proof.
  revert i. induction q as [|y q IH]; intros i; simpl; [done|].
  destruct (decide (y = w)) as [->|]; [by intros [= <-]|].
  destruct (position w q); [|done]. intros [= <-]. simpl. by apply IH.
Qed.

Lemma position_None w q : position w q = None → w ∉ q.
Proof.
  induction q as [|y q IH]; simpl; [intros _; apply not_elem_of_nil|].
  destruct (decide (y = w)) as [->|]; [done|]. destruct (position w q); [done|].
  intros _ [->|Hin]%elem_of_cons; [done|]. by apply IH.
Qed.

Lemma swap_remove_back_perm i w q : q !! i = Some w → w :: swap_remove_back i q ≡ₚ q.
Proof.
  intros Hi. unfold swap_remove_back.
  destruct (last q) as [l|] eqn:El; [|by apply last_None in El as ->].
  apply last_Some in El as [q' ->]. rewrite length_app. simpl.
  replace (length q' + 1 - 1)%nat with (length q') by lia.
  destruct (decide (i < length q')%nat) as [Hlt|Hge].
  - rewrite lookup_app_l in Hi by done. rewrite insert_app_l by done.
    rewrite take_app_length' by (by rewrite length_insert).
    rewrite <-(take_drop_middle q' i w Hi) at 2. rewrite insert_take_drop by done.
    set (a := take i q'). set (b := drop (S i) q'). solve_Permutation.
  - rewrite lookup_app_r in Hi by lia. apply list_lookup_singleton_Some in Hi as [Hz ->].
    rewrite insert_app_r_alt by lia. replace (i - length q')%nat with O by lia. simpl.
    rewrite take_app_length. apply Permutation_cons_append.
Qed.

Lemma drop_future_wf w st : futex_wf st → futex_wf (drop_future w st).
Proof.
  intros Hwf. pose proof Hwf as [H1 H2 H3]. unfold drop_future.
  destruct (waiters st !! w) as [x|] eqn:Hx; [|done].
  set (st1 := if woken x then st else _).
  assert (∀ g, NoDup (queue_of g st1) ∧
    ∀ v, v ∈ queue_of g st1 ↔ v ≠ w ∧ v ∈ queue_of g st) as Hq.
  { intros g. subst st1. destruct (woken x) eqn:Hwo.
    { split; [done|]. intros v. split; [|naive_solver]. intros Hv. split; [|done]. intros ->.
      destruct (H1 g w Hv) as (y & ? & ? & ? & _). congruence. }
    destruct (position w (queue_of (futex x) st)) as [pos|] eqn:Hp.
    - rewrite queue_of_set_queue. destruct (decide (g = futex x)) as [->|Hne].
      + apply position_Some, swap_remove_back_perm in Hp. pose proof (H2 (futex x)) as Hnd.
        revert Hp. generalize (swap_remove_back pos (queue_of (futex x) st)). intros q Hp. rewrite <-Hp in Hnd. apply NoDup_cons in Hnd as [Hnin Hnd]. split; [done|].
        intros v. rewrite <-Hp, elem_of_cons. naive_solver.
      + split; [done|]. intros v. split; [|naive_solver]. intros Hv. split; [|done]. intros ->.
        destruct (H1 g w Hv) as (y & ? & ? & ? & ? & ?). congruence.
    - apply position_None in Hp. split; [done|]. intros v. split; [|naive_solver].
      intros Hv. split; [|done]. intros ->. destruct (H1 g w Hv) as (y & ? & ? & ? & ? & ?). congruence. }
  assert (waiters st1 = waiters st) as Ew.
  { subst st1. destruct (woken x); [done|]. by destruct (position _ _). }
  clearbody st1. split.
  - intros g v Hv. apply (proj1 (proj2 (Hq g) v)) in Hv as [Hne Hv]. simpl.
    rewrite Ew, lookup_delete_ne by done. by apply H1.
  - intros g. apply Hq.
  - intros v y t Hy Hwo Ht. simpl in Hy. rewrite Ew in Hy. apply lookup_delete_Some in Hy as [Hne Hy].
    apply (proj2 (proj2 (Hq (futex y)) v)). split; [done|]. by eapply H3.
Qed.

Lemma wake_single_owner_spec f st :
  futex_wf st →
  ∃ st', wake_single_owner f st = Ok st' ∧ futex_wf st' ∧
    (∀ g, queue_of g st' = if decide (g = f) then drop 1 (queue_of f st) else queue_of g st) ∧
    owner (inner_of f st') =
      match queue_of f st with
      | w :: _ => match waiters st !! w with Some x => thread x | None => None end
      | [] => None
      end.
Proof.
  intros Hwf. unfold wake_single_owner. destruct (queue_of f st) as [|w rest] eqn:Eq.
  - eexists. split; [done|]. split; [by apply set_owner_wf|]. split; [|autorewrite with futex; by rewrite decide_True].
    intros g. autorewrite with futex. destruct (decide (g = f)) as [->|]; [by rewrite Eq|done].
  - destruct (wake_first f w rest st Hwf Eq) as (x & t & st1 & Hx & Ht & Hf & -> & Hwf1 & Q1 & O1 & W1 & V1 & _).
    simpl. eexists. split; [done|]. split; [by apply set_owner_wf|]. split.
    + intros g. autorewrite with futex. by rewrite Q1.
    + autorewrite with futex. rewrite decide_True by done. by rewrite W1, lookup_insert_eq, Hx.
Qed.

(** Moving waiters to another futex. *)
Definition moved (g : Z) (x : Waiter) : Waiter := mkWaiter (thread x) (waker x) (woken x) g.

Lemma waiters_reset_futex w g st v :
  waiters (reset_futex w g st) !! v = if decide (v = w) then moved g <$> waiters st !! w else waiters st !! v.
Proof.
  unfold reset_futex. destruct (waiters st !! w) as [x|] eqn:Hx; simpl.
  - destruct (decide (v = w)) as [->|]; [by rewrite lookup_insert_eq|by rewrite lookup_insert_ne].
  - destruct (decide (v = w)) as [->|]; done.
Qed.

Lemma inner_of_reset_futex w g st h : inner_of h (reset_futex w g st) = inner_of h st.
Proof. unfold reset_futex. by destruct (waiters st !! w). Qed.

Lemma requeue_loop_spec g ws st :
  (∀ h, queue_of h (requeue_loop g ws st) = if decide (h = g) then queue_of g st ++ ws else queue_of h st) ∧
  (∀ h, owner (inner_of h (requeue_loop g ws st)) = owner (inner_of h st)) ∧
  (∀ v, waiters (requeue_loop g ws st) !! v = if decide (v ∈ ws) then moved g <$> waiters st !! v else waiters st !! v).
Proof.
  revert st. induction ws as [|w ws IH]; intros st; simpl.
  { split_and!; try done. intros h. destruct (decide _) as [->|]; [by rewrite app_nil_r|done]. }
  destruct (IH (set_queue g (queue_of g st ++ [w]) (reset_futex w g st))) as (Q & O & W).
  split_and!.
  - intros h. rewrite Q, !queue_of_set_queue, (decide_True (P := g = g)) by done.
    unfold queue_of. rewrite !inner_of_reset_futex.
    destruct (decide (h = g)); [by rewrite <-app_assoc|done].
  - intros h. by rewrite O, owner_of_set_queue, inner_of_reset_futex.
  - intros v. rewrite W. change (waiters (set_queue g ?q ?s)) with (waiters s).
    rewrite waiters_reset_futex. destruct (decide (v = w)) as [->|Hne].
    + rewrite (decide_True (P := w ∈ w :: ws)) by (by left).
      destruct (decide (w ∈ ws)); [|done]. by destruct (waiters st !! w).
    + apply decide_ext. rewrite elem_of_cons. naive_solver.
Qed.

(** What a successful requeue from [f] to [g] does: the first [n] waiters wake, the
    next [m] move to the end of the queue of [g], in order, and nobody is lost. *)
Record requeued (f g : Z) (n m : nat) (o : option Z) (st st' : futexes) : Prop := {
  rq_wf : futex_wf st';
  rq_queue h : queue_of h st' =
    if decide (h = f) then drop m (drop n (queue_of f st))
    else if decide (h = g) then queue_of g st ++ take m (drop n (queue_of f st))
    else queue_of h st;
  rq_owner h : owner (inner_of h st') =
    if decide (h = g) then o else if decide (h = f) then None else owner (inner_of h st);
  rq_waiters w : waiters st' !! w =
    if decide (w ∈ take n (queue_of f st)) then awake <$> waiters st !! w
    else if decide (w ∈ take m (drop n (queue_of f st))) then moved g <$> waiters st !! w
    else waiters st !! w
}.

(** Moving the first waiters of one queue to the end of another keeps the invariant. *)
Lemma move_wf f g q1 q2 st st' :
  f ≠ g → futex_wf st → queue_of f st = q1 ++ q2 →
  (∀ h, queue_of h st' = if decide (h = f) then q2 else if decide (h = g) then queue_of g st ++ q1
                         else queue_of h st) →
  (∀ w, waiters st' !! w = if decide (w ∈ q1) then moved g <$> waiters st !! w else waiters st !! w) →
  futex_wf st'.
Proof.
  intros Hfg [H1 H2 H3] Hq Q W.
  pose proof (H2 f) as Hnd. rewrite Hq in Hnd. apply NoDup_app in Hnd as (N1 & N12 & N2).
  assert (∀ w h, w ∈ q1 → w ∈ queue_of h st → h = f) as Hin1.
  { intros w h Hw Hh. destruct (H1 f w) as (x & t & Hx & _ & _ & <-).
    { rewrite Hq. apply elem_of_app. by left. }
    destruct (H1 h w Hh) as (y & s & Hy & _ & _ & <-). congruence. }
  split.
  - intros h w Hw. rewrite Q in Hw. rewrite W.
    destruct (decide (w ∈ q1)) as [Hw1|Hw1].
    + destruct (H1 f w) as (x & t & -> & ? & ? & ?); [rewrite Hq; apply elem_of_app; by left|].
      exists (moved g x), t. split_and!; try done. simpl. destruct (decide (h = f)) as [->|Hne].
      { by destruct (N12 w). }
      destruct (decide (h = g)) as [->|]; [done|]. by destruct Hne, (Hin1 w h).
    + apply H1. destruct (decide (h = f)) as [->|]; [rewrite Hq; apply elem_of_app; by right|].
      destruct (decide (h = g)) as [->|]; [|done]. by apply elem_of_app in Hw as [|].
  - intros h. rewrite Q. destruct (decide (h = f)); [done|]. destruct (decide (h = g)); [|done].
    apply NoDup_app. split_and!; [done| |done]. intros w Hw Hw1. destruct Hfg. symmetry. by apply (Hin1 w).
  - intros w x t Hx Hwo Ht. rewrite W in Hx. rewrite Q. destruct (decide (w ∈ q1)) as [Hw1|Hw1].
    + apply fmap_Some in Hx as (y & Hy & ->). simpl. rewrite decide_False, decide_True by done.
      apply elem_of_app. by right.
    + pose proof (H3 w x t Hx Hwo Ht) as Hw. destruct (decide (futex x = f)) as [E|].
      { rewrite E, Hq in Hw. by apply elem_of_app in Hw as [|]. }
      destruct (decide (futex x = g)) as [E|]; [|done]. rewrite <-E. apply elem_of_app. by left.
Qed.

Lemma take_min_length {A} n (l : list A) : take (n `min` length l) l = take n l.
Proof. destruct (Nat.min_spec n (length l)) as [[? ->]|[? ->]]; [done|]. by rewrite !take_ge. Qed.

Lemma drop_min_length {A} n (l : list A) : drop (n `min` length l) l = drop n l.
Proof. destruct (Nat.min_spec n (length l)) as [[? ->]|[? ->]]; [done|]. by rewrite !drop_ge. Qed.

Lemma requeue_spec f cv n m g o chk st :
  futex_wf st → f ≠ g → (chk = true → load f st = cv) →
  ∃ st', requeue f cv n m g o chk st = Ok st' ∧ requeued f g n m o st st'.
Proof.
  intros Hwf Hfg Hv. unfold requeue.
  replace (chk && negb (load f st =? cv)) with false.
  2: { destruct chk; [|done]. simpl. rewrite Hv by done. by rewrite Z.eqb_refl. }
  destruct (wake_loop_spec n f st Hwf) as (st1 & -> & [K1 K2 K3 K4 K5 _]). simpl.
  rewrite take_min_length, drop_min_length.
  assert (queue_of f st1 = drop n (queue_of f st)) as E by (by rewrite K2, decide_True).
  rewrite E. set (q := drop n (queue_of f st)) in *.
  destruct (requeue_loop_spec g (take m q) (set_queue f (drop m q) st1)) as (Q & O & W).
  set (st2 := requeue_loop _ _ _) in *. eexists. split; [done|].
  assert (∀ h, queue_of h st2 = if decide (h = f) then drop m q else
    if decide (h = g) then queue_of g st1 ++ take m q else queue_of h st1) as Q2.
  { intros h. rewrite Q, !queue_of_set_queue, (decide_False (P := g = f)) by done.
    destruct (decide (h = f)) as [->|]; [by rewrite decide_False|done]. }
  split.
  - do 2 apply set_owner_wf. apply (move_wf f g (take m q) (drop m q) st1); [done..| |done|].
    + by rewrite take_drop.
    + intros w. apply W.
  - intros h. autorewrite with futex. rewrite Q2. destruct (decide (h = f)); [done|].
    rewrite !K2, (decide_False (P := g = f)) by done. by rewrite (decide_False (P := h = f)).
  - intros h. autorewrite with futex. rewrite O. autorewrite with futex. by rewrite K3.
  - intros w. change (waiters (set_owner ?a ?b ?s)) with (waiters s). rewrite W.
    change (waiters (set_queue ?a ?b ?s)) with (waiters s). rewrite !K4.
    destruct (decide (w ∈ take n (queue_of f st))) as [Hw|]; [|done].
    rewrite decide_False; [done|]. intros Hw2.
    pose proof (q_nodup _ Hwf f) as Hnd. rewrite <-(take_drop n (queue_of f st)) in Hnd.
    apply NoDup_app in Hnd as (_ & Hd & _). apply (Hd w Hw). subst q. by apply elem_of_take in Hw2 as (i & ? & _); apply list_elem_of_lookup; exists i.
Qed.

(** ** Histories

    The operations on the futexes of a process, each atomic.  User code stores to the
    words at any time; a future is polled and dropped while it exists. *)
Inductive futex_op :=
| OStore (f v : Z)
| OWait (f : Z) (th : option Z) (w : nat)
| OPoll (w cx : nat) (current_value : Z) (new_owner : option Z)
| ODrop (w : nat)
| OWake (f : Z) (n : nat)
| OWakeSingle (f : Z)
| ORequeue (f current_value : Z) (n m : nat) (g : Z) (o : option Z) (check_value : bool).

Definition store (f v : Z) (st : futexes) : futexes :=
  mkFutexes (<[f := v]> (value st)) (inners st) (waiters st) (wakes st).

Definition futex_step (op : futex_op) (st : futexes) : ZxResult futexes :=
  match op with
  | OStore f v => Ok (store f v st)
  | OWait f th w => Ok (wait_with_owner f th w st)
  | OPoll w cx cv no =>
      match poll w cx cv no st with (Some Panic, _) => Panic | (_, st) => Ok st end
  | ODrop w => Ok (drop_future w st)
  | OWake f n => let? (_, st) := wake f n st in Ok st
  | OWakeSingle f => wake_single_owner f st
  | ORequeue f cv n m g o chk =>
      match requeue f cv n m g o chk st with Err _ => Ok st | r => r end
  end.

Definition op_legal (op : futex_op) (st : futexes) : Prop :=
  match op with
  | OWait _ _ w => waiters st !! w = None
  | OPoll w _ _ _ => is_Some (waiters st !! w)
  | ORequeue f _ _ _ g _ _ => f ≠ g
  | _ => True
  end.

Definition no_futexes : futexes := mkFutexes ∅ ∅ ∅ [].

Inductive futex_reach : futexes → Prop :=
| reach_init : futex_reach no_futexes
| reach_step op st st' :
    futex_reach st → op_legal op st → futex_step op st = Ok st' → futex_reach st'.

Fixpoint futex_run (ops : list futex_op) (st : futexes) : ZxResult futexes :=
  match ops with
  | [] => Ok st
  | op :: ops => let? st := futex_step op st in futex_run ops st
  end.

Fixpoint legal_run (ops : list futex_op) (st : futexes) : Prop :=
  match ops with
  | [] => True
  | op :: ops => op_legal op st ∧ match futex_step op st with Ok st => legal_run ops st | _ => False end
  end.

Lemma futex_reach_run ops st st' :
  futex_reach st → legal_run ops st → futex_run ops st = Ok st' → futex_reach st'.
Proof.
  revert st. induction ops as [|op ops IH]; intros st Hr Hl E; simpl in *; [by simplify_eq|].
  destruct Hl as [Hop Hl]. destruct (futex_step op st) as [st1| |] eqn:E1; [|done..].
  eapply IH; [|done|done]. by eapply reach_step.
Qed.

Lemma futex_step_wf op st :
  futex_wf st → op_legal op st → ∃ st', futex_step op st = Ok st' ∧ futex_wf st'.
Proof.
  intros Hwf Hop. destruct op as [f v|f th w|w cx cv no|w|f n|f|f cv n m g o chk]; simpl in *.
  - eexists. split; [done|]. destruct Hwf as [H1 H2 H3]. split; intros *; [apply H1|apply H2|apply H3].
  - eexists. split; [done|]. by apply wait_with_owner_wf.
  - destruct Hop as [x Hx]. pose proof (poll_wf w cx cv no st Hwf) as Hp. revert Hp.
    unfold poll, poll_enqueue. rewrite Hx. destruct (woken x); [by eexists|].
    destruct (waker x); [by eexists|]. destruct (poll_check x cv st); [|by eexists].
    destruct (is_valid_new_owner _ _ _); by eexists.
  - eexists. split; [done|]. by apply drop_future_wf.
  - unfold wake. destruct (wake_loop_spec n f (set_owner f None st)) as (st' & -> & Hw); [by apply set_owner_wf|].
    simpl. exists st'. split; [done|]. apply Hw.
  - destruct (wake_single_owner_spec f st Hwf) as (st' & -> & ? & _). by exists st'.
  - destruct (decide (chk = true → load f st = cv)) as [Hv|Hv].
    + destruct (requeue_spec f cv n m g o chk st Hwf Hop Hv) as (st' & -> & [? _ _ _]). by exists st'.
    + unfold requeue. destruct chk; [|by destruct Hv].
      destruct (Z.eqb_spec (load f st) cv) as [|]; [by destruct Hv|]. by exists st.
Qed.

Lemma futex_reach_wf st : futex_reach st → futex_wf st.
Proof.
  induction 1 as [|op st st' Hr IH Hop E].
  - assert (∀ f, queue_of f no_futexes = []) as Q by (intros f; unfold queue_of, inner_of; simpl; by rewrite lookup_empty).
    split; intros *; rewrite ?Q.
    + by intros ?%elem_of_nil.
    + constructor.
    + simpl. by rewrite lookup_empty.
  - destruct (futex_step_wf op st IH Hop) as (st'' & E' & ?). congruence.
Qed.

(** ** Results *)

(** C14. In every state that sequences of futex operations reach, a future that has been
    polled and not woken is queued, exactly once and at the futex it refers to, and a
    queue holds nobody else; so no operation on such a state panics (the [unwrap] of the
    waker in [Waiter::wake] never fails), also after requeues and dropped futures. *)
Theorem futex_sleepers_queued (st : futexes) :
  futex_reach st →
  (∀ w x, waiters st !! w = Some x →
     ((woken x = false ∧ is_Some (waker x)) ↔ w ∈ queue_of (futex x) st)) ∧
  (∀ f g w, w ∈ queue_of f st → w ∈ queue_of g st → f = g) ∧
  (∀ f, NoDup (queue_of f st)) ∧
  (∀ op, op_legal op st → ∃ st', futex_step op st = Ok st').
Proof.
  intros Hr. pose proof (futex_reach_wf st Hr) as Hwf. pose proof Hwf as [H1 H2 H3]. split_and!.
  - intros w x Hx. split.
    + intros [Hwo [t Ht]]. by eapply H3.
    + intros Hw. destruct (H1 _ _ Hw) as (y & t & Hy & ? & Ht & _). simplify_eq. by rewrite Ht.
  - intros f g w Hf Hg. destruct (H1 _ _ Hf) as (x & ? & ? & _ & _ & <-).
    destruct (H1 _ _ Hg) as (y & ? & ? & _ & _ & <-). congruence.
  - done.
  - intros op Hop. destruct (futex_step_wf op st Hwf Hop) as (st' & ? & _). by exists st'.
Qed.

(** [wake] wakes the first [min n len] waiters of the queue, in order, and nobody
    else: their tasks are scheduled, they are marked woken, the rest of the queue and all
    other futexes stay, the futex loses its owner, and the count is returned. *)
Theorem futex_wake_exact (st : futexes) (f : Z) (n : nat) :
  futex_reach st →
  ∃ st', wake f n st = Ok ((n `min` length (queue_of f st))%nat, st') ∧
    (∀ g, queue_of g st' = if decide (g = f) then drop n (queue_of f st) else queue_of g st) ∧
    wakes st' = wakes st ++ omap (task_of st) (take n (queue_of f st)) ∧
    (∀ w, waiters st' !! w =
       if decide (w ∈ take n (queue_of f st)) then awake <$> waiters st !! w else waiters st !! w) ∧
    owner (inner_of f st') = None.
Proof.
  intros Hr%futex_reach_wf. unfold wake.
  destruct (wake_loop_spec n f (set_owner f None st)) as (st' & E & [K1 K2 K3 K4 K5 K6]); [by apply set_owner_wf|].
  rewrite queue_of_set_owner in *. exists st'. split_and!; try done.
  - intros g. rewrite K2. by destruct (decide (g = f)); rewrite ?queue_of_set_owner.
  - rewrite K3, owner_of_set_owner. by rewrite decide_True.
Qed.

(** [requeue] between two futexes wakes the first waiters, moves the next ones to the
    end of the other queue in order, and loses nobody; with [check_value] and a changed
    word it fails with [BAD_STATE]. *)
Theorem futex_requeue_exact (st : futexes) (f g cv : Z) (n m : nat) (o : option Z) (chk : bool) :
  futex_reach st → f ≠ g →
  (chk = true → load f st ≠ cv → requeue f cv n m g o chk st = Err ZxError.BAD_STATE) ∧
  ((chk = true → load f st = cv) →
   ∃ st', requeue f cv n m g o chk st = Ok st' ∧ requeued f g n m o st st').
Proof.
  intros Hr%futex_reach_wf Hfg. split.
  - intros -> Hv. unfold requeue. by destruct (Z.eqb_spec (load f st) cv).
  - by apply requeue_spec.
Qed.

(** ** Interleavings *)

(** The comparison of a first poll happens before the futex is locked.  When the word
    changes and its writer calls [wake] between the two halves, nobody is woken, and the
    future goes to sleep although the word is no longer the expected one. *)
Theorem futex_lost_wakeup (st : futexes) (w cx n : nat) (x : Waiter) (cur v : Z) :
  waiters st !! w = Some x → woken x = false → waker x = None →
  queue_of (futex x) st = [] → poll_check x cur st = true → v ≠ cur →
  ∃ st1 st2, wake (futex x) n (store (futex x) v st) = Ok (O, st1) ∧
    poll_enqueue w x cx None st1 = (None, st2) ∧
    load (futex x) st2 ≠ cur ∧ w ∈ queue_of (futex x) st2 ∧ wakes st2 = wakes st.
Proof.
  intros Hx Hwo Hwk Hq Hc Hv. unfold wake.
  assert (∀ k s, queue_of (futex x) s = [] → wake_loop k (futex x) s = Ok (O, s)) as Hloop.
  { intros k s Hs. destruct k; simpl; [done|]. by rewrite Hs. }
  rewrite Hloop by (rewrite queue_of_set_owner; apply Hq).
  do 2 eexists. split_and!; [done..| | |done].
  - unfold load. simpl. by rewrite lookup_insert_eq.
  - change (queue_of ?f (set_waiter _ _ ?s)) with (queue_of f s).
    rewrite queue_of_set_queue, decide_True by done. apply elem_of_app. right. by left.
Qed.

(** The locks of futexes and waiters.  [FutexFuture::drop] of a sleeping future takes the
    lock of its waiter and then that of the futex; [wake] takes the lock of the futex and
    then, for each waiter that it pops, that of the waiter. *)
Inductive lock := LWaiter (w : nat) | LFutex (f : Z).
#[export] Instance lock_eq_dec : EqDecision lock.
Proof. solve_decision. Defined.

Definition drop_actions (w : nat) (x : Waiter) : list (action lock) :=
  if woken x then [Acquire (LWaiter w); Release (LWaiter w)]
  else [Acquire (LWaiter w); Acquire (LFutex (futex x)); Release (LFutex (futex x)); Release (LWaiter w)].

Definition wake_actions (f : Z) (ws : list nat) : list (action lock) :=
  Acquire (LFutex f) :: (ws ≫= λ w, [Acquire (LWaiter w); Release (LWaiter w)]) ++ [Release (LFutex f)].

Lemma wake_other_waiters ws w f :
  w ∉ ws →
  acts (ws ≫= λ v, [Acquire (LWaiter v); Release (LWaiter v)]) [LFutex f; LWaiter w] =
    Some [LFutex f; LWaiter w].
Proof.
  induction ws as [|v ws IH]; intros Hw; simpl; [done|]. apply not_elem_of_cons in Hw as [Hne Hw].
  rewrite decide_False by (intros [|[= ->]%list_elem_of_singleton]%elem_of_cons; done). simpl.
  rewrite filter_cons_False by (by intros []). rewrite filter_cons_True by done.
  rewrite filter_cons_True by congruence. by apply IH.
Qed.

(** A future that is dropped (by a timeout, say) while another CPU wakes its futex can
    deadlock with it: the two take the locks of the waiter and the futex in opposite
    orders, and a state is reachable in which neither can ever move. *)
Theorem futex_drop_wake_deadlock (st : futexes) (w : nat) (x : Waiter) (n : nat) :
  waiters st !! w = Some x → woken x = false →
  w ∈ take n (queue_of (futex x) st) →
  can_deadlock [drop_actions w x; wake_actions (futex x) (take n (queue_of (futex x) st))].
Proof.
  intros Hx Hwo (ws1 & ws2 & Hw & Hnin)%list_elem_of_split_l. rewrite Hw.
  unfold drop_actions, wake_actions. rewrite Hwo, bind_app, <-app_assoc.
  apply (lock_inversion _ _ []); [done..|]. by apply wake_other_waiters.
Qed.

(** Two sleepers at the futex 4096, one of which gave up and one more that came later, a
    future at 8192 that was never polled, and a changed word. *)
Definition sleepy_ops : list futex_op :=
  [OStore 4096 7; OWait 4096 (Some 1) 0; OWait 4096 (Some 2) 1; OWait 4096 None 2; OWait 8192 (Some 4) 3;
   OPoll 0 10 7 None; OPoll 1 11 7 None; OPoll 2 12 7 (Some 9); OWait 4096 (Some 5) 4; OPoll 4 14 7 None;
   ODrop 1; OStore 4096 8].
Definition sleepy : futexes :=
  match futex_run sleepy_ops no_futexes with Ok st => st | _ => no_futexes end.

Lemma sleepy_reach : futex_reach sleepy.
Proof.
  apply (futex_reach_run sleepy_ops no_futexes); [constructor| |reflexivity].
  vm_compute. repeat split. all: by eexists.
Qed.

Lemma futex_sleepers_queued_witness :
  futex_reach sleepy ∧ queue_of 4096 sleepy = [0; 4; 2]%nat ∧ NoDup (queue_of 4096 sleepy).
Proof.
  split; [exact sleepy_reach|]. split; [reflexivity|].
  apply (proj1 (proj2 (proj2 (futex_sleepers_queued sleepy sleepy_reach)))).
Defined.

Lemma futex_wake_exact_witness :
  ∃ st', wake 4096 2 sleepy = Ok (2%nat, st') ∧ queue_of 4096 st' = [2%nat] ∧ wakes st' = [10; 14]%nat.
Proof.
  destruct (futex_wake_exact sleepy 4096 2 sleepy_reach) as (st' & E & Q & L & _).
  exists st'. split; [rewrite E; reflexivity|]. rewrite Q, L. split; reflexivity.
Defined.

Lemma futex_requeue_exact_witness :
  requeue 4096 7 1 1 8192 (Some 1) true sleepy = Err ZxError.BAD_STATE ∧
  ∃ st', requeue 4096 8 1 1 8192 (Some 1) true sleepy = Ok st' ∧
    queue_of 4096 st' = [2%nat] ∧ queue_of 8192 st' = [4%nat].
Proof.
  assert (4096 ≠ 8192) as Hne by done.
  split; [apply (proj1 (futex_requeue_exact sleepy 4096 8192 7 1 1 (Some 1) true sleepy_reach Hne)); done|].
  destruct (proj2 (futex_requeue_exact sleepy 4096 8192 8 1 1 (Some 1) true sleepy_reach Hne)) as (st' & E & R);
    [done|].
  exists st'. split; [exact E|]. rewrite !(rq_queue _ _ _ _ _ _ _ R). split; reflexivity.
Defined.

Lemma futex_lost_wakeup_witness :
  futex_reach sleepy ∧
  ∃ st1 st2, wake 8192 1 (store 8192 1 sleepy) = Ok (O, st1) ∧
    poll_enqueue 3 (mkWaiter (Some 4) None false 8192) 13 None st1 = (None, st2) ∧ load 8192 st2 ≠ 0 ∧
    3%nat ∈ queue_of 8192 st2.
Proof.
  split; [exact sleepy_reach|].
  destruct (futex_lost_wakeup sleepy 3 13 1 (mkWaiter (Some 4) None false 8192) 0 1)
    as (st1 & st2 & ? & ? & ? & ? & _); [done..|].
  exists st1, st2. done.
Defined.

Lemma futex_drop_wake_deadlock_witness :
  futex_reach sleepy ∧
  can_deadlock [drop_actions 4 (mkWaiter (Some 5) (Some 14%nat) false 4096); wake_actions 4096 [0; 4]%nat].
Proof.
  split; [exact sleepy_reach|].
  apply (futex_drop_wake_deadlock sleepy 4 (mkWaiter (Some 5) (Some 14%nat) false 4096) 2); [done..|].
  right. by left.
Defined.
