(* ===== verification/Timers.v ===== *)
(** * Timers, events, counters and clocks

    [zircon-object/src/signal/{timer,event}.rs], [zircon-object/src/object/{counter,clock}.rs]
    and the timer queue of [kernel-hal/src/bare/timer.rs].  Durations are nanoseconds. *)

From S2P Require Import Prelude Errors KObject Locks.
From stdpp Require Import options.
#[local] Open Scope Z_scope.

(** ** Timer *)
Module Slack.
Inductive t := Center | Early | Late.
Definition as_u32 (s : t) : Z := match s with Center => 0 | Early => 1 | Late => 2 end.
End Slack.

(** [as i64] of an unsigned value. *)
Definition as_i64 (x : Z) : Z :=
  let y := wrap 64 x in if y <? 2 ^ 63 then y else y - 2 ^ 64.

Section timer.
Context {W : Type}.

Record TimerInner := mkTimerInner { deadline : option Z; inner_slack : Z }.

Record Timer := mkTimer {
  base : KObjectBase W;
  slack : Slack.t;
  inner : TimerInner
}.

(** The timer queue of the platform: the deadlines at which [touch] is called back, each
    from one call of [timer_set].  [NAIVE_TIMER] is the [naive_timer] crate, whose
    [expire now] removes the expired entries, to call them back, and keeps the others. *)
Record machine := mkMachine { timer : Timer; world : W; events : list Z }.
Variable expire : Z → list Z → list Z * list Z.

Definition with_slack (id : Z) (s : Slack.t) : Timer :=
  mkTimer (KObjectBase_new id) s (mkTimerInner None 0).
Definition new (id : Z) : Timer := with_slack id Slack.Center.

Definition timer_set (d : Z) (m : machine) : machine :=
  mkMachine (timer m) (world m) (events m ++ [d]).

Definition change (clear set : Z) (i : TimerInner) (m : machine) : machine :=
  let '(b, w) := signal_change clear set (base (timer m)) (world m) in
  mkMachine (mkTimer b (slack (timer m)) i) w (events m).

(** [Timer::set]; [now] is what [timer_now()] returns. *)
Definition set (now d s : Z) (m : machine) : machine :=
  if d <=? now then change 0 Signal.SIGNALED (mkTimerInner None 0) m
  else timer_set d (change Signal.SIGNALED 0 (mkTimerInner (Some d) s) m).

Definition one_shot (id now d : Z) (w : W) (ev : list Z) : machine :=
  set now d 0 (mkMachine (new id) w ev).

Definition cancel (m : machine) : machine := change Signal.SIGNALED 0 (mkTimerInner None 0) m.

Definition get_info (t : Timer) : Z * Z * Z :=
  (Slack.as_u32 (slack t), match deadline (inner t) with Some d => wrap 64 d | None => 0 end,
   wrap 64 (inner_slack (inner t))).

Definition touch (now : Z) (m : machine) : machine :=
  match deadline (inner (timer m)) with
  | Some d => if d <=? now then change 0 Signal.SIGNALED (mkTimerInner None 0) m else m
  | None => m
  end.

(** [timer_tick]: the queue is drained and the callbacks of the expired entries run. *)
Definition timer_tick (now : Z) (m : machine) : machine :=
  let '(due, rest) := expire now (events m) in
  foldl (λ m _, touch now m) (mkMachine (timer m) (world m) rest) due.

(** [sys_object_signal] on the timer, whose [allowed_signals] are the default ones. *)
Definition object_signal (clear_mask set_mask : Z) (m : machine) : machine :=
  match Signal.verify_user_signal Signal.USER_ALL clear_mask, Signal.verify_user_signal Signal.USER_ALL set_mask with
  | Ok c, Ok s => change c s (inner (timer m)) m
  | _, _ => m
  end.

Inductive timer_op :=
| TSet (now d s : Z)
| TCancel
| TTick (now : Z)
| TSignal (clear_mask set_mask : Z).

Definition timer_step (m : machine) (op : timer_op) : machine :=
  match op with
  | TSet now d s => set now d s m
  | TCancel => cancel m
  | TTick now => timer_tick now m
  | TSignal c s => object_signal c s m
  end.

(** What a timer promises: at most one deadline is pending, the last one that was set. *)
Inductive timer_spec := Idle | Armed (d : Z) | Fired.

Definition spec_step (s : timer_spec) (op : timer_op) : timer_spec :=
  match op with
  | TSet now d _ => if d <=? now then Fired else Armed d
  | TCancel => Idle
  | TTick now => match s with Armed d => if d <=? now then Fired else s | _ => s end
  | TSignal _ _ => s
  end.

(** ** Refinement *)
Definition refines (s : timer_spec) (m : machine) : Prop :=
  deadline (inner (timer m)) = match s with Armed d => Some d | _ => None end ∧
  contains (signal (base (timer m))) Signal.SIGNALED = match s with Fired => true | _ => false end ∧
  match s with Armed d => d ∈ events m | _ => True end.

Lemma timer_change c s i m :
  inner (timer (change c s i m)) = i ∧ events (change c s i m) = events m ∧
  slack (timer (change c s i m)) = slack (timer m) ∧
  signal (base (timer (change c s i m))) = changed (signal (base (timer m))) c s.
Proof.
  unfold change. pose proof (signal_change_signal c s (base (timer m)) (world m)) as E.
  by destruct (signal_change _ _ _ _).
Qed.

Hypothesis expire_due : ∀ now l, Forall (λ d, d ≤ now) (fst (expire now l)).
Hypothesis expire_rest : ∀ now l, Forall (λ d, now < d) (snd (expire now l)).
Hypothesis expire_all : ∀ now l, fst (expire now l) ++ snd (expire now l) ≡ₚ l.

Lemma touch_idle now ds m :
  deadline (inner (timer m)) = None → foldl (λ m _, touch now m) m (ds : list Z) = m.
Proof.
  intros E. induction ds as [|d ds IH]; simpl; [done|].
  replace (touch now m) with m; [done|]. unfold touch. by rewrite E.
Qed.

Lemma touch_early now d ds m :
  deadline (inner (timer m)) = Some d → now < d → foldl (λ m _, touch now m) m (ds : list Z) = m.
Proof.
  intros E Hd. induction ds as [|d' ds IH]; simpl; [done|].
  replace (touch now m) with m; [done|]. unfold touch. rewrite E. by replace (d <=? now) with false by lia.
Qed.

(** The callbacks of a drained queue: the first one of a timer that is due fires it, and
    entries of earlier settings do nothing. *)
Lemma tick_refines now s m : refines s m → refines (spec_step s (TTick now)) (timer_tick now m).
Proof using Type*.
  intros (Hd & Hs & He). unfold timer_tick.
  pose proof (expire_due now (events m)) as Hu.
  pose proof (expire_rest now (events m)) as Hr. pose proof (expire_all now (events m)) as Ha.
  destruct (expire now (events m)) as [due rest]. simpl in Hu, Hr, Ha |- *.
  destruct s as [|d|]; simpl in *.
  - rewrite touch_idle by done. done.
  - destruct (Z.leb_spec d now) as [Hle|Hlt].
    + assert (d ∈ due) as Hin.
      { rewrite <-Ha in He. apply elem_of_app in He as [|He]; [done|].
        rewrite Forall_forall in Hr. apply Hr in He. lia. }
      destruct due as [|d' due]; [by apply elem_of_nil in Hin|]. simpl. unfold touch at 2. simpl.
      rewrite Hd. replace (d <=? now) with true by lia.
      match goal with |- context [change ?c ?s ?i ?m] => destruct (timer_change c s i m) as (I & E & _ & S) end.
      rewrite touch_idle by (by rewrite I). split_and!; [by rewrite I| |done].
      rewrite S. simpl. unfold changed. by sigbits.
    + rewrite (touch_early now d) by (simpl; done || lia). split_and!; [done..|]. simpl.
      rewrite <-Ha in He. apply elem_of_app in He as [He|]; [|done].
      rewrite Forall_forall in Hu. apply Hu in He. lia.
  - rewrite touch_idle by done. done.
Qed.
Lemma timer_step_refines op s m : refines s m → refines (spec_step s op) (timer_step m op).
Proof using Type*.
  intros H. destruct op as [now d sl| |now|c' s']; [| |by apply tick_refines|]; destruct H as (Hd & Hs & He); simpl.
  - unfold set. destruct (Z.leb_spec d now).
    + destruct (timer_change 0 Signal.SIGNALED (mkTimerInner None 0) m) as (I & _ & _ & S).
      split_and!; [by rewrite I| |done]. rewrite S. unfold changed. by sigbits.
    + destruct (timer_change Signal.SIGNALED 0 (mkTimerInner (Some d) sl) m) as (I & E & _ & S).
      split_and!; simpl; [by rewrite I| |apply elem_of_app; right; by left].
      rewrite S. unfold changed. by sigbits.
  - unfold cancel. destruct (timer_change Signal.SIGNALED 0 (mkTimerInner None 0) m) as (I & _ & _ & S).
    split_and!; [by rewrite I| |done]. rewrite S. unfold changed. by sigbits.
  - unfold object_signal.
    destruct (Signal.verify_user_signal Signal.USER_ALL c') as [c| |] eqn:Hc; [|done..].
    destruct (Signal.verify_user_signal Signal.USER_ALL s') as [sb| |] eqn:Hsb; [|done..].
    apply (verify_user_signal_bits _ _ _ 3) in Hc, Hsb; [|lia || done..].
    destruct (timer_change c sb (inner (timer m)) m) as (I & E & _ & S).
    split_and!; [by rewrite I| |by rewrite E]. rewrite S, <-Hs. unfold changed.
    unfold Signal.SIGNALED. rewrite !contains_bit by lia. unfold flag_insert, flag_remove.
    rewrite Z.lor_spec, Z.ldiff_spec, Hc, Hsb. by rewrite andb_true_r, orb_false_r.
Qed.

Lemma timer_run_refines ops s m :
  refines s m → refines (foldl spec_step s ops) (foldl timer_step m ops).
Proof using Type*.
  revert s m. induction ops as [|op ops IH]; intros s m H; simpl; [done|].
  by apply IH, timer_step_refines.
Qed.

(** C16. However a timer is set, set again, cancelled, signalled by its users and ticked,
    [SIGNALED] is asserted exactly when the last deadline that was set has been reached by
    a later tick (or had passed when it was set), and [get_info] shows the pending
    deadline: stale callbacks of earlier settings neither fire the timer nor disarm it. *)
Theorem timer_refines (id : Z) (sl : Slack.t) (w : W) (ops : list timer_op) :
  let m := foldl timer_step (mkMachine (with_slack id sl) w []) ops in
  let s := foldl spec_step Idle ops in
  contains (signal (base (timer m))) Signal.SIGNALED = match s with Fired => true | _ => false end ∧
  snd (fst (get_info (timer m))) = match s with Armed d => wrap 64 d | _ => 0 end ∧
  match s with Armed d => d ∈ events m | _ => True end.
Proof using Type*.
  intros m s. assert (refines s m) as (Hd & Hs & He) by (by apply timer_run_refines).
  split_and!; [done| |done]. unfold get_info. simpl. rewrite Hd. by destruct s.
Qed.
End timer.

(** The entries of the queue that are due, in the order in which they were added. *)
Definition partition_due (now : Z) (l : list Z) : list Z * list Z :=
  (filter (λ d, d ≤ now) l, filter (λ d, ¬ d ≤ now) l).

Lemma filter_partition_perm (P : Z → Prop) `{∀ x, Decision (P x)} (l : list Z) :
  filter P l ++ filter (λ x, ¬ P x) l ≡ₚ l.
Proof.
  induction l as [|x l IH]; [done|]. destruct (decide (P x)).
  - rewrite filter_cons_True by done. rewrite filter_cons_False by naive_solver. simpl. by rewrite IH.
  - rewrite filter_cons_False by done. rewrite filter_cons_True by done. by rewrite <-Permutation_middle, IH.
Qed.

Lemma timer_refines_witness :
  let ops := [TSet 0 100 5; TSet 10 200 5; TTick 150; TTick 200] in
  let m := foldl (timer_step partition_due) (mkMachine (with_slack 7 Slack.Early) tt []) ops in
  contains (signal (base (timer m))) Signal.SIGNALED = true ∧ snd (fst (get_info (timer m))) = 0.
Proof.
  intros ops m.
  destruct (timer_refines (W := unit) partition_due) with (id := 7) (sl := Slack.Early) (w := tt) (ops := ops) as (H1 & H2 & _).
  - intros now l. apply Forall_forall. intros d. simpl. rewrite list_elem_of_filter. tauto.
  - intros now l. apply Forall_forall. intros d. simpl. rewrite list_elem_of_filter. lia.
  - intros now l. apply (filter_partition_perm (λ d, d ≤ now)).
  - split; [exact H1|exact H2].
Defined.

(** ** Locks of the timers

    [Timer::set] holds the lock of the timer while [timer_set] takes that of the queue;
    [timer_tick] holds the lock of the queue while the callbacks take those of the timers. *)
Inductive timer_lock := LTimer (t : nat) | LBase (t : nat) | LQueue.
#[export] Instance timer_lock_eq_dec : EqDecision timer_lock.
Proof. solve_decision. Defined.

Definition signal_actions (t : nat) : list (action timer_lock) := [Acquire (LBase t); Release (LBase t)].

Definition set_actions (t : nat) (expired : bool) : list (action timer_lock) :=
  Acquire (LTimer t) :: signal_actions t ++
    (if expired then [Release (LTimer t)] else [Acquire LQueue; Release LQueue; Release (LTimer t)]).

(** The callback of a timer; [true] if the timer fires. *)
Definition touch_actions (tf : nat * bool) : list (action timer_lock) :=
  Acquire (LTimer (fst tf)) ::
    (if snd tf then signal_actions (fst tf) else []) ++ [Release (LTimer (fst tf))].

Definition tick_actions (due : list (nat * bool)) : list (action timer_lock) :=
  Acquire LQueue :: (due ≫= touch_actions) ++ [Release LQueue].

Lemma touch_other_timers ts t :
  Forall (λ tf, tf.1 ≠ t) ts → acts (ts ≫= touch_actions) [LQueue; LTimer t] = Some [LQueue; LTimer t].
Proof.
  induction 1 as [|[v fires] ts Hv _ IH]; [done|]. simpl in Hv.
  change (acts (touch_actions (v, fires) ++ (ts ≫= touch_actions)) [LQueue; LTimer t] = Some [LQueue; LTimer t]).
  rewrite (acts_app _ _ _ [LQueue; LTimer t]); [done|]. unfold touch_actions. simpl.
  rewrite decide_False by (intros [|[= ->]%list_elem_of_singleton]%elem_of_cons; done). simpl.
  assert (filter (λ l', l' ≠ LTimer v) [LTimer v; LQueue; LTimer t] = [LQueue; LTimer t]) as Hf.
  { rewrite filter_cons_False by (by intros []). rewrite filter_cons_True by done.
    by rewrite filter_cons_True by congruence. }
  destruct fires; simpl; [|by rewrite Hf].
  rewrite filter_cons_False by (by intros []). do 3 (rewrite (filter_cons_True (λ l', l' ≠ LBase v)) by done).
  by rewrite filter_nil, Hf.
Qed.

(** Setting a timer again on one CPU while the tick of another one calls it back can
    deadlock: the two take the lock of the timer and that of the queue in opposite orders. *)
Theorem timer_set_tick_deadlock (t : nat) (fires : bool) (due : list (nat * bool)) :
  (t, fires) ∈ due → can_deadlock [set_actions t false; tick_actions due].
Proof.
  intros Hin. assert (∃ l1 f l2, due = l1 ++ (t, f) :: l2 ∧ Forall (λ tf, tf.1 ≠ t) l1) as (l1 & f & l2 & -> & Hl).
  { by eapply first_occurrence. }
  unfold set_actions, tick_actions. rewrite bind_app, <-app_assoc.
  apply (lock_inversion (LTimer t) LQueue (signal_actions t)); [done| |by apply touch_other_timers].
  simpl. f_equal. rewrite filter_cons_False by (by intros []). by rewrite filter_cons_True.
Qed.

Lemma timer_set_tick_deadlock_witness :
  (2%nat, true) ∈ [(1%nat, false); (2%nat, true)] ∧
  can_deadlock [set_actions 2 false; tick_actions [(1%nat, false); (2%nat, true)]].
Proof.
  assert ((2%nat, true) ∈ [(1%nat, false); (2%nat, true)]) as H by (right; by left).
  split; [exact H|]. by apply (timer_set_tick_deadlock 2 true).
Defined.

(** ** Event *)
Module Event.
Definition allowed_signals : Z := Z.lor Signal.USER_ALL Signal.SIGNALED.
Definition new {W} (id : Z) : KObjectBase W := KObjectBase_new id.
End Event.

(** ** Counter *)
Module Counter.
Section counter.
Context {W : Type}.

Record Counter := mkCounter { base : KObjectBase W; value : Z }.

Definition allowed_signals : Z := Z.lor Signal.USER_ALL Signal.SIGNALED.

Definition new (id : Z) : Counter := mkCounter (with_signal id Signal.COUNTER_NON_POSITIVE) 0.

Definition read (c : Counter) : Z := value c.

Definition update_signals (old new : Z) (b : KObjectBase W) (w : W) : KObjectBase W * W :=
  if (old <=? 0) && (0 <? new) then signal_change Signal.COUNTER_NON_POSITIVE Signal.COUNTER_POSITIVE b w
  else if (0 <? old) && (new <=? 0) then signal_change Signal.COUNTER_POSITIVE Signal.COUNTER_NON_POSITIVE b w
  else (b, w).

Definition write (v : Z) (c : Counter) (w : W) : Counter * W :=
  let '(b, w) := update_signals (value c) v (base c) w in (mkCounter b v, w).

Definition add (amount : Z) (c : Counter) (w : W) : ZxResult unit * Counter * W :=
  match i64_checked_add (value c) amount with
  | None => (Err ZxError.OUT_OF_RANGE, c, w)
  | Some v => let '(b, w) := update_signals (value c) v (base c) w in (Ok tt, mkCounter b v, w)
  end.

(** [sys_object_signal] on a counter. *)
Definition object_signal (clear_mask set_mask : Z) (c : Counter) (w : W) : Counter * W :=
  match Signal.verify_user_signal allowed_signals clear_mask, Signal.verify_user_signal allowed_signals set_mask with
  | Ok cl, Ok st => let '(b, w) := signal_change cl st (base c) w in (mkCounter b (value c), w)
  | _, _ => (c, w)
  end.

Inductive counter_op := CWrite (v : Z) | CAdd (amount : Z) | CSignal (clear_mask set_mask : Z).

Definition counter_step (cw : Counter * W) (op : counter_op) : Counter * W :=
  let '(c, w) := cw in
  match op with
  | CWrite v => write v c w
  | CAdd a => let '(_, c, w) := add a c w in (c, w)
  | CSignal cl st => object_signal cl st c w
  end.

(** The arguments of the operations are [i64]s. *)
Definition op_i64 (op : counter_op) : Prop :=
  match op with CWrite v => in_i64 v | CAdd a => in_i64 a | CSignal _ _ => True end.

(** The value that the operations leave, in unbounded integers. *)
Definition value_step (v : Z) (op : counter_op) : Z :=
  match op with
  | CWrite v' => v'
  | CAdd a => if bool_decide (in_i64 (v + a)) then v + a else v
  | CSignal _ _ => v
  end.

Definition counter_ok (v : Z) (c : Counter) : Prop :=
  value c = v ∧ in_i64 v ∧
  contains (signal (base c)) Signal.COUNTER_POSITIVE = (0 <? v) ∧
  contains (signal (base c)) Signal.COUNTER_NON_POSITIVE = (v <=? 0).

Lemma update_signals_ok v v' (c : Counter) w b w' :
  counter_ok v c → in_i64 v' → update_signals v v' (base c) w = (b, w') → counter_ok v' (mkCounter b v').
Proof.
  intros (_ & _ & Hp & Hn) Hv' E. unfold update_signals in E.
  assert (∀ cl st, signal_change cl st (base c) w = (b, w') → signal b = changed (signal (base c)) cl st) as Hs.
  { intros cl st Es. pose proof (signal_change_signal cl st (base c) w) as X. by rewrite Es in X. }
  split_and!; [done..| |]; simpl; revert E Hp Hn.
  all: destruct (Z.leb_spec v 0), (Z.ltb_spec 0 v); try lia; destruct (Z.leb_spec v' 0), (Z.ltb_spec 0 v'); try lia.
  all: simpl; intros E; try (apply Hs in E; rewrite E; unfold changed; by sigbits).
  all: by simplify_eq.
Qed.

Lemma counter_step_ok v c w op :
  counter_ok v c → op_i64 op → counter_ok (value_step v op) (fst (counter_step (c, w) op)).
Proof.
  intros Hok Hop. pose proof Hok as (Hv & Hi & Hp & Hn). destruct op as [v'|a|cl st]; simpl in *.
  - unfold write. rewrite Hv. destruct (update_signals v v' (base c) w) as [b w'] eqn:E. by eapply update_signals_ok.
  - unfold add. rewrite Hv.
    assert (i64_checked_add v a = if bool_decide (in_i64 (v + a)) then Some (v + a) else None) as ->.
    { unfold i64_checked_add, in_i64. repeat bcase; repeat case_bool_decide; try done; lia. }
    case_bool_decide; [|done]. destruct (update_signals v (v + a) (base c) w) as [b w'] eqn:E.
    by eapply update_signals_ok.
  - unfold object_signal.
    destruct (Signal.verify_user_signal allowed_signals cl) as [x| |] eqn:Hc; [|done..].
    destruct (Signal.verify_user_signal allowed_signals st) as [y| |] eqn:Hs; [|done..].
    pose proof (signal_change_signal x y (base c) w) as E. destruct (signal_change x y (base c) w) as [b w'].
    simpl in *. pose proof (verify_user_signal_bits _ _ _ 4 ltac:(lia) Hc eq_refl) as H1.
    pose proof (verify_user_signal_bits _ _ _ 4 ltac:(lia) Hs eq_refl) as H2.
    pose proof (verify_user_signal_bits _ _ _ 5 ltac:(lia) Hc eq_refl) as H3.
    pose proof (verify_user_signal_bits _ _ _ 5 ltac:(lia) Hs eq_refl) as H4.
    split_and!; [done..| |]; simpl; rewrite E; [rewrite <-Hp|rewrite <-Hn];
      unfold Signal.COUNTER_POSITIVE, Signal.COUNTER_NON_POSITIVE; rewrite !contains_bit, changed_testbit by lia.
    + rewrite H1, H2. by rewrite andb_true_r, orb_false_r.
    + rewrite H3, H4. by rewrite andb_true_r, orb_false_r.
Qed.

(** After any history of writes, additions and user signals the counter holds the
    exact integer result, an addition that would overflow changing nothing, always within
    [i64], and its two signals tell whether the value is positive; users cannot forge them. *)
Theorem counter_signals_value (id : Z) (w : W) (ops : list counter_op) :
  Forall op_i64 ops →
  let c := fst (foldl counter_step (new id, w) ops) in
  read c = foldl value_step 0 ops ∧ in_i64 (read c) ∧
  contains (signal (base c)) Signal.COUNTER_POSITIVE = (0 <? read c) ∧
  contains (signal (base c)) Signal.COUNTER_NON_POSITIVE = (read c <=? 0).
Proof.
  intros Hops.
  assert (∀ v cw, counter_ok v (fst cw) → counter_ok (foldl value_step v ops) (fst (foldl counter_step cw ops))) as H.
  { clear id w. induction Hops as [|op ops Hop _ IH]; intros v [c w] Hc; [done|]. by apply IH, counter_step_ok. }
  destruct (H 0 (new id, w)) as (Hv & Hi & Hp & Hn); [by split_and!|].
  unfold read. cbv zeta. rewrite Hv. done.
Qed.
End counter.
Arguments Counter : clear implicits.

Lemma counter_signals_value_witness :
  let ops := [CWrite i64_max; CAdd 1; CSignal Signal.COUNTER_POSITIVE 0; CAdd (-3)] in
  let c := fst (foldl counter_step (new 7, tt) ops) in
  read c = i64_max - 3 ∧ contains (signal (base c)) Signal.COUNTER_POSITIVE = true.
Proof.
  intros ops c. destruct (counter_signals_value 7 tt ops) as (Hv & _ & Hp & _).
  - repeat constructor; simpl; unfold in_i64; vm_compute; intros; discriminate.
  - split; [exact Hv|exact Hp].
Defined.
End Counter.

(** ** Clock *)
Module Clock.
Definition PAGE_SIZE : nat := 4096.

Record Clock := mkClock {
  reference_offset : Z;
  synthetic_offset : Z;
  mapped_vmo : option (list Z)
}.

(** The page of a mappable clock: the error bound, then zeroes. *)
Definition clock_page : list Z := overwrite (repeat 0 PAGE_SIZE) (le_bytes 8 (2 ^ 64 - 1)).

(** [now] is the monotonic clock of the platform in nanoseconds. *)
Definition new (now backstop : Z) (mappable : bool) : Clock :=
  mkClock (as_i64 now) backstop (if mappable then Some clock_page else None).

Definition read (now : Z) (c : Clock) : Z :=
  i64_saturate (synthetic_offset c + i64_saturate (as_i64 now - reference_offset c)).

Definition update (reference synthetic : Z) (c : Clock) : Clock :=
  mkClock reference synthetic (mapped_vmo c).

Definition ZX_CLOCK_ARGS_VERSION_SHIFT : Z := 58.
Definition ZX_CLOCK_ARGS_VERSION_MASK : Z := Z.shiftl 0x3f ZX_CLOCK_ARGS_VERSION_SHIFT.
Definition ZX_CLOCK_OPTS_ALL : Z := 0x1f.
Definition ZX_CLOCK_OPT_MAPPABLE : Z := bit 4.
Definition ZX_CLOCK_UPDATE_OPTION_SYNTHETIC_VALUE_VALID : Z := bit 0.
Definition ZX_CLOCK_UPDATE_OPTION_REFERENCE_VALUE_VALID : Z := bit 3.

(** [sys_clock_create] up to the new handle; [backstop_time] is what the read of the
    argument structure returns. *)
Definition sys_clock_create (now options : Z) (backstop_time : ZxResult Z) : ZxResult Clock :=
  let version := Z.shiftr options ZX_CLOCK_ARGS_VERSION_SHIFT in
  if (1 <? version) ||
     negb (Z.ldiff options (Z.lor ZX_CLOCK_ARGS_VERSION_MASK ZX_CLOCK_OPTS_ALL) =? 0)
  then Err ZxError.INVALID_ARGS
  else
    let? backstop := (if version =? 0 then Ok 0 else backstop_time) in
    Ok (new now backstop (intersects options ZX_CLOCK_OPT_MAPPABLE)).

(** [sys_clock_update] on the clock of the handle: [value] and [reference] are the fields
    of the argument structure of the version. *)
Definition sys_clock_update (now options : Z) (args : ZxResult (Z * Z)) (c : Clock) : ZxResult Clock :=
  let version := Z.shiftr options ZX_CLOCK_ARGS_VERSION_SHIFT in
  let flags := Z.ldiff options ZX_CLOCK_ARGS_VERSION_MASK in
  let now := as_i64 now in
  if version =? 1 then
    let? (value, _) := args in
    Ok (if intersects flags ZX_CLOCK_UPDATE_OPTION_SYNTHETIC_VALUE_VALID then update now value c else c)
  else if version =? 2 then
    let? (value, reference) := args in
    Ok (if intersects flags ZX_CLOCK_UPDATE_OPTION_SYNTHETIC_VALUE_VALID
        then update (if intersects flags ZX_CLOCK_UPDATE_OPTION_REFERENCE_VALUE_VALID then reference else now) value c
        else c)
  else Err ZxError.INVALID_ARGS.

Lemma as_i64_small x : 0 ≤ x < 2 ^ 63 → as_i64 x = x.
Proof. intros H. unfold as_i64. rewrite wrap_small by (unfold fits; lia). by destruct (Z.ltb_spec x (2 ^ 63)); [|lia]. Qed.

Lemma i64_saturate_id x : in_i64 x → i64_saturate x = x.
Proof. unfold in_i64, i64_saturate. lia. Qed.

Lemma i64_saturate_mono x y : x ≤ y → i64_saturate x ≤ i64_saturate y.
Proof. unfold i64_saturate. lia. Qed.

Lemma i64_saturate_in x : in_i64 (i64_saturate x).
Proof. unfold in_i64, i64_saturate, i64_min, i64_max. lia. Qed.

(** Reads of a clock stay within [i64], never go back while the platform clock does
    not, and are exact where nothing saturates: [synthetic + (now - reference)].  So a new
    clock starts at its backstop, and after an update that gives only the synthetic value
    the clock reads that value at that time. *)
Theorem clock_read (c : Clock) (now now' : Z) :
  0 ≤ now ≤ now' → now' < 2 ^ 63 →
  in_i64 (read now c) ∧ read now c ≤ read now' c ∧
  (in_i64 (now - reference_offset c) → in_i64 (synthetic_offset c + (now - reference_offset c)) →
   read now c = synthetic_offset c + (now - reference_offset c)) ∧
  (∀ backstop mappable, in_i64 backstop → read now (new now backstop mappable) = backstop) ∧
  (∀ options value reference, in_i64 value →
     Z.shiftr options 58 = 1 → Z.testbit options 0 = true →
     rmap (read now) (sys_clock_update now options (Ok (value, reference)) c) = Ok value).
Proof.
  intros Hn Hn'. assert (as_i64 now = now) as En by (apply as_i64_small; lia).
  assert (∀ r s m, in_i64 s → r = now → read now (mkClock r s m) = s) as Hread.
  { intros r s m Hs ->. unfold read. simpl. rewrite En, Z.sub_diag. rewrite (i64_saturate_id 0) by done.
    rewrite Z.add_0_r. by apply i64_saturate_id. }
  split_and!.
  - apply i64_saturate_in.
  - unfold read. rewrite !as_i64_small by lia. apply i64_saturate_mono, Z.add_le_mono_l, i64_saturate_mono. lia.
  - intros H1 H2. unfold read. rewrite En. rewrite (i64_saturate_id (now - _)) by done. by apply i64_saturate_id.
  - intros b m Hb. unfold new. by apply Hread.
  - intros o v r Hv Ho Hb. unfold sys_clock_update, ZX_CLOCK_ARGS_VERSION_SHIFT. rewrite Ho. simpl.
    unfold ZX_CLOCK_UPDATE_OPTION_SYNTHETIC_VALUE_VALID. rewrite intersects_bit by lia.
    rewrite Z.ldiff_spec, Hb. simpl. unfold update. by rewrite Hread.
Qed.

Lemma clock_read_witness :
  read 500 (mkClock 100 7000 None) = 7400 ∧
  rmap (read 500) (sys_clock_update 500 (Z.shiftl 1 58 + 1) (Ok (9, 0)) (mkClock 100 7000 None)) = Ok 9.
Proof.
  destruct (clock_read (mkClock 100 7000 None) 500 600) as (_ & _ & H & _ & H'); [lia..|].
  split; [apply H; vm_compute; split; intros; discriminate|].
  apply H'; [vm_compute; split; intros; discriminate|reflexivity..].
Defined.
End Clock.
