(* ===== verification/Thread.v ===== *)
(** * The state machine of a thread ([zircon-object/src/task/thread.rs])

    A thread is changed by its runner (the future that [Thread::start] spawns), by other
    threads (kill, suspend, resume, start) and by its users' signals.  [UserContext] is
    machine state that the kernel only stores: it is a parameter. *)

From S2P Require Import Prelude Errors KObject.
From stdpp Require Import options.
#[local] Open Scope Z_scope.

Module ThreadState.
Inductive t :=
| New | Running | Suspended | Blocked | Dying | Dead | BlockedException | BlockedSleeping
| BlockedFutex | BlockedPort | BlockedChannel | BlockedWaitOne | BlockedWaitMany
| BlockedInterrupt | BlockedPager.
#[export] Instance t_eq_dec : EqDecision t.
Proof. solve_decision. Defined.

Definition as_u32 (s : t) : Z :=
  match s with
  | New => 0 | Running => 1 | Suspended => 2 | Blocked => 3 | Dying => 4 | Dead => 5
  | BlockedException => 0x103 | BlockedSleeping => 0x203 | BlockedFutex => 0x303
  | BlockedPort => 0x403 | BlockedChannel => 0x503 | BlockedWaitOne => 0x603
  | BlockedWaitMany => 0x703 | BlockedInterrupt => 0x803 | BlockedPager => 0x903
  end.
End ThreadState.
Export (hints) ThreadState.

Section thread.
Context {W UserContext : Type}.

(** Wakers and the senders of killers are numbers.  [exception] is the channel type of
    the exception that is being handled. *)
Record ThreadInner := mkThreadInner {
  context : option UserContext;
  context_before : option (UserContext * Z * Z);
  suspend_count : Z;
  waker : option nat;
  killer : option nat;
  tstate : ThreadState.t;
  exception : option Z;
  first_thread : bool;
  killed : bool;
  time : Z;
  flags : Z
}.

(** [woken] and [fired] log the wakers and killers that were notified; [shutdown] tells
    whether the exception channel has been shut down. *)
Record Thread := mkThread {
  base : KObjectBase W;
  inner : ThreadInner;
  shutdown : bool;
  woken : list nat;
  fired : list nat
}.

Implicit Types (t : Thread) (w : W) (i : ThreadInner).

Definition with_inner (f : ThreadInner → ThreadInner) t : Thread :=
  mkThread (base t) (f (inner t)) (shutdown t) (woken t) (fired t).

Definition set_state (s : ThreadState.t) i : ThreadInner :=
  mkThreadInner (context i) (context_before i) (suspend_count i) (waker i) (killer i) s
    (exception i) (first_thread i) (killed i) (time i) (flags i).
Definition set_context (c : option UserContext) i : ThreadInner :=
  mkThreadInner c (context_before i) (suspend_count i) (waker i) (killer i) (tstate i)
    (exception i) (first_thread i) (killed i) (time i) (flags i).
Definition set_context_before c i : ThreadInner :=
  mkThreadInner (context i) c (suspend_count i) (waker i) (killer i) (tstate i) (exception i)
    (first_thread i) (killed i) (time i) (flags i).
Definition set_suspend (n : Z) i : ThreadInner :=
  mkThreadInner (context i) (context_before i) n (waker i) (killer i) (tstate i) (exception i)
    (first_thread i) (killed i) (time i) (flags i).
Definition set_waker (k : option nat) i : ThreadInner :=
  mkThreadInner (context i) (context_before i) (suspend_count i) k (killer i) (tstate i)
    (exception i) (first_thread i) (killed i) (time i) (flags i).
Definition set_killer (k : option nat) i : ThreadInner :=
  mkThreadInner (context i) (context_before i) (suspend_count i) (waker i) k (tstate i)
    (exception i) (first_thread i) (killed i) (time i) (flags i).
Definition set_exception (e : option Z) i : ThreadInner :=
  mkThreadInner (context i) (context_before i) (suspend_count i) (waker i) (killer i) (tstate
    i) e (first_thread i) (killed i) (time i) (flags i).
Definition set_first_thread i : ThreadInner :=
  mkThreadInner (context i) (context_before i) (suspend_count i) (waker i) (killer i) (tstate
    i) (exception i) true (killed i) (time i) (flags i).
Definition set_killed i : ThreadInner :=
  mkThreadInner (context i) (context_before i) (suspend_count i) (waker i) (killer i) (tstate
    i) (exception i) (first_thread i) true (time i) (flags i).
Definition time_add (d : Z) i : ThreadInner :=
  mkThreadInner (context i) (context_before i) (suspend_count i) (waker i) (killer i) (tstate
    i) (exception i) (first_thread i) (killed i) (wadd 128 (time i) d) (flags i).
Definition update_flags (f : Z → Z) i : ThreadInner :=
  mkThreadInner (context i) (context_before i) (suspend_count i) (waker i) (killer i) (tstate
    i) (exception i) (first_thread i) (killed i) (time i) (f (flags i)).

(** [ThreadInner::state] *)
Definition state i : ThreadState.t :=
  if (suspend_count i =? 0) || bool_decide (context i = None)
     || bool_decide (tstate i = ThreadState.BlockedException)
     || bool_decide (tstate i = ThreadState.Dying) || bool_decide (tstate i = ThreadState.Dead)
  then tstate i else ThreadState.Suspended.

(** [ThreadInner::change_state]: the signals follow the reported state. *)
Definition state_signals (s : ThreadState.t) : Z * Z :=
  match s with
  | ThreadState.Dead => (Z.lor Signal.THREAD_RUNNING Signal.THREAD_SUSPENDED, Signal.THREAD_TERMINATED)
  | ThreadState.New | ThreadState.Dying =>
      (Z.lor (Z.lor Signal.THREAD_RUNNING Signal.THREAD_SUSPENDED) Signal.THREAD_TERMINATED, 0)
  | ThreadState.Suspended =>
      (Z.lor Signal.THREAD_RUNNING Signal.THREAD_TERMINATED, Signal.THREAD_SUSPENDED)
  | _ => (Z.lor Signal.THREAD_TERMINATED Signal.THREAD_SUSPENDED, Signal.THREAD_RUNNING)
  end.

Definition change_state (s : ThreadState.t) t w : Thread * W :=
  let i := set_state s (inner t) in
  let '(clear, set) := state_signals (state i) in
  let '(b, w) := signal_change clear set (base t) w in
  (mkThread b i (shutdown t) (woken t) (fired t), w).

(** [Thread::create_with_ext], up to its registration in the process. *)
Definition create (id : Z) (name : string) (cx : UserContext) : Thread :=
  mkThread (with_name id name)
    (mkThreadInner (Some cx) None 0 None None ThreadState.New None false false 0 0) false [] [].

Definition with_context {A} (f : UserContext → A * UserContext) t : ZxResult (A * Thread) :=
  match context (inner t) with
  | Some c => let '(a, c) := f c in Ok (a, with_inner (set_context (Some c)) t)
  | None => Err ZxError.BAD_STATE
  end.

Definition backup_context (c : UserContext) (siginfo uctx : Z) t : Thread :=
  with_inner (set_context_before (Some (c, siginfo, uctx))) t.
Definition fetch_backup_context t : option (UserContext * Z * Z) * Thread :=
  (context_before (inner t), with_inner (set_context_before None) t).

(** [Thread::start], up to the spawn of the runner. *)
Definition start t w : Thread * W := change_state ThreadState.Running t w.

(** [waker.take()] and [killer.take()], with their notifications. *)
Definition take_waker t : Thread :=
  match waker (inner t) with
  | Some k => mkThread (base t) (set_waker None (inner t)) (shutdown t) (woken t ++ [k]) (fired t)
  | None => t
  end.
Definition take_killer t : Thread :=
  match killer (inner t) with
  | Some k => mkThread (base t) (set_killer None (inner t)) (shutdown t) (woken t) (fired t ++ [k])
  | None => t
  end.

Definition stop (kill : bool) t w : Thread * W :=
  if decide (tstate (inner t) = ThreadState.Dead) then (t, w)
  else
    let t := if kill then with_inner set_killed t else t in
    if decide (tstate (inner t) = ThreadState.Dying) then (if kill then take_killer t else t, w)
    else
      let '(t, w) := change_state ThreadState.Dying t w in
      (take_killer (take_waker t), w).

(** The common guard of [read_state] and [write_state]. *)
Definition state_access t : ZxResult UserContext :=
  if bool_decide (state (inner t) ≠ ThreadState.BlockedException) && bool_decide (state (inner t) ≠ ThreadState.Suspended)
  then if bool_decide (exception (inner t) = None) then Err ZxError.BAD_STATE else Err ZxError.NOT_SUPPORTED
  else ok_or (context (inner t)) ZxError.BAD_STATE.

Definition get_thread_info t : Z * Z :=
  (ThreadState.as_u32 (state (inner t)), default 0 (exception (inner t))).

(** [Thread::terminate], up to its removal from the process. *)
Definition terminate t w : Thread * W :=
  change_state ThreadState.Dead (mkThread (base t) (inner t) true (woken t) (fired t)) w.

Definition suspend t w : Thread * W :=
  let t := with_inner (set_suspend (suspend_count (inner t) +u 1)) t in
  change_state (tstate (inner t)) t w.

Definition resume t w : ZxResult (Thread * W) :=
  if suspend_count (inner t) =? 0 then Panic
  else
    let t := with_inner (set_suspend (suspend_count (inner t) -u 1)) t in
    if suspend_count (inner t) =? 0 then
      let '(t, w) := change_state (tstate (inner t)) t w in Ok (take_waker t, w)
    else Ok (t, w).

(** A poll of the future of [wait_for_run] by the task [cx]; [None] is [Pending]. *)
Definition poll_run (cx : nat) t : ZxResult (option UserContext * Thread) :=
  if decide (state (inner t) = ThreadState.Suspended)
  then Ok (None, with_inner (set_waker (Some cx)) t)
  else
    let? c := unwrap (context (inner t)) in
    Ok (Some c, with_inner (set_context None) t).

Definition put_context (c : UserContext) t w : Thread * W :=
  let t := with_inner (set_context (Some c)) t in
  change_state (tstate (inner t)) t w.

(** [blocking_run] before its future is polled, with the new killer; the old state. *)
Definition block_begin (s : ThreadState.t) (k : nat) t w : ZxResult (ThreadState.t * Thread * W) :=
  if decide (state (inner t) = ThreadState.Dying) then Err ZxError.STOP
  else
    let t := with_inner (set_killer (Some k)) t in
    let old_state := tstate (inner t) in
    let '(t, w) := change_state s t w in
    Ok (old_state, t, w).

(** [blocking_run] when its future, its killer or its deadline is done. *)
Definition block_end (s old_state : ThreadState.t) t w : ZxResult (Thread * W) :=
  let t := with_inner (set_killer None) t in
  if decide (state (inner t) = ThreadState.Dying) then Ok (t, w)
  else if decide (tstate (inner t) = s) then Ok (change_state old_state t w)
  else Panic.

(** [dying_run] before its future is polled. *)
Definition dying_begin (k : nat) t : ZxResult Thread :=
  if killed (inner t) then Err ZxError.STOP else Ok (with_inner (set_killer (Some k)) t).

(** [sys_object_signal] on a thread, whose [allowed_signals] are the default ones. *)
Definition object_signal (clear_mask set_mask : Z) t w : ZxResult (Thread * W) :=
  let? c := Signal.verify_user_signal Signal.USER_ALL clear_mask in
  let? s := Signal.verify_user_signal Signal.USER_ALL set_mask in
  let '(b, w) := signal_change c s (base t) w in
  Ok (mkThread b (inner t) (shutdown t) (woken t) (fired t), w).

(** ** Histories

    [pc] is where the runner of the thread is: [Ready] outside user mode, with the context
    in the thread object; [User] with the context taken; [Waiting s old] in a
    [blocking_run]. *)
Inductive runner := NotStarted | Ready | User | Waiting (s old : ThreadState.t) | Ended.

Inductive thread_op :=
| OpStart | OpStop (kill : bool) | OpSuspend | OpResume | OpPoll (cx : nat) | OpPut (c : UserContext)
| OpBlock (s : ThreadState.t) (k : nat) | OpUnblock | OpDying (k : nat) | OpException (e : option Z)
| OpTerminate | OpSignal (clear_mask set_mask : Z) | OpContext (f : UserContext → UserContext).

Definition thread_step (op : thread_op) (r : runner) t w : ZxResult (runner * Thread * W) :=
  match op with
  | OpStart => let '(t, w) := start t w in Ok (Ready, t, w)
  | OpStop kill => let '(t, w) := stop kill t w in Ok (r, t, w)
  | OpSuspend => let '(t, w) := suspend t w in Ok (r, t, w)
  | OpResume => let? (t, w) := resume t w in Ok (r, t, w)
  | OpPoll cx =>
      let? (c, t) := poll_run cx t in
      Ok (match c with Some _ => User | None => r end, t, w)
  | OpPut c => let '(t, w) := put_context c t w in Ok (Ready, t, w)
  | OpBlock s k => let? (old, t, w) := block_begin s k t w in Ok (Waiting s old, t, w)
  | OpUnblock =>
      match r with
      | Waiting s old => let? (t, w) := block_end s old t w in Ok (Ready, t, w)
      | _ => Ok (r, t, w)
      end
  | OpDying k => let? t := dying_begin k t in Ok (r, t, w)
  | OpException e => Ok (r, with_inner (set_exception e) t, w)
  | OpTerminate => let '(t, w) := terminate t w in Ok (Ended, t, w)
  | OpSignal c s => let? (t, w) := object_signal c s t w in Ok (r, t, w)
  | OpContext f => let? (_, t) := with_context (λ c, (tt, f c)) t in Ok (r, t, w)
  end.

Definition is_blocked (s : ThreadState.t) : Prop :=
  s ∉ [ThreadState.New; ThreadState.Running; ThreadState.Suspended; ThreadState.Dying; ThreadState.Dead].

(** What the callers should respect: a new thread is started once, its runner uses the context and
    blocks one thing at a time, and only suspended threads are resumed. *)
Definition op_legal (op : thread_op) (r : runner) t : Prop :=
  match op with
  | OpStart => r = NotStarted ∧ tstate (inner t) = ThreadState.New
  | OpResume => suspend_count (inner t) ≠ 0
  | OpSuspend => suspend_count (inner t) < usize_max
  | OpPoll _ | OpDying _ => r = Ready
  | OpBlock s _ => r = Ready ∧ is_blocked s
  | OpPut _ => r = User
  | OpUnblock => ∃ s old, r = Waiting s old
  | OpTerminate => r = Ready ∨ r = User
  | _ => True
  end.

(** An operation that returns an error leaves the thread as it was. *)
Inductive thread_reach : runner → Thread → W → Prop :=
| reach_create id name cx w : thread_reach NotStarted (create id name cx) w
| reach_op op r t w r' t' w' :
    thread_reach r t w → op_legal op r t → thread_step op r t w = Ok (r', t', w') → thread_reach r' t' w'.

Fixpoint thread_run (ops : list thread_op) (r : runner) t w : ZxResult (runner * Thread * W) :=
  match ops with
  | [] => Ok (r, t, w)
  | op :: ops => let? (r, t, w) := thread_step op r t w in thread_run ops r t w
  end.

Fixpoint legal_run (ops : list thread_op) (r : runner) t w : Prop :=
  match ops with
  | [] => True
  | op :: ops => op_legal op r t ∧
      match thread_step op r t w with Ok (r, t, w) => legal_run ops r t w | _ => False end
  end.

Lemma thread_reach_run ops r t w r' t' w' :
  thread_reach r t w → legal_run ops r t w → thread_run ops r t w = Ok (r', t', w') → thread_reach r' t' w'.
Proof.
  revert r t w. induction ops as [|op ops IH]; intros r t w Hr Hl E; simpl in *; [by simplify_eq|].
  destruct Hl as [Hop Hl]. destruct (thread_step op r t w) as [[[r1 t1] w1]| |] eqn:E1; [|done..].
  eapply IH; [|done|done]. by eapply reach_op.
Qed.

(** ** Invariants *)
Definition signals_ok t : Prop :=
  contains (signal (base t)) Signal.THREAD_TERMINATED = bool_decide (state (inner t) = ThreadState.Dead) ∧
  contains (signal (base t)) Signal.THREAD_SUSPENDED = bool_decide (state (inner t) = ThreadState.Suspended) ∧
  contains (signal (base t)) Signal.THREAD_RUNNING =
    bool_decide (state (inner t) ∉ [ThreadState.New; ThreadState.Suspended; ThreadState.Dying; ThreadState.Dead]).

Lemma change_state_inner s t w : inner (fst (change_state s t w)) = set_state s (inner t).
Proof. unfold change_state. destruct (state_signals _), (signal_change _ _ _ _). done. Qed.

Lemma change_state_signals s t w : signals_ok (fst (change_state s t w)).
Proof.
  unfold signals_ok. rewrite change_state_inner. unfold change_state.
  destruct (state_signals (state (set_state s (inner t)))) as [cl st] eqn:E.
  pose proof (signal_change_signal cl st (base t) w) as Es.
  destruct (signal_change cl st (base t) w) as [b w']. simpl in *. rewrite Es. unfold changed.
  by destruct (state (set_state s (inner t))); simplify_eq/=; split_and!; sigbits.
Qed.

(** Anything that keeps the signals and the reported state. *)
Lemma signals_ok_same t t' :
  signals_ok t → base t' = base t → state (inner t') = state (inner t) → signals_ok t'.
Proof. unfold signals_ok. by intros ? -> ->. Qed.

Record runner_ok (r : runner) t : Prop := {
  ok_signals : signals_ok t;
  ok_suspend : fits 64 (suspend_count (inner t));
  ok_not_suspended : tstate (inner t) ≠ ThreadState.Suspended;
  ok_dead : tstate (inner t) = ThreadState.Dead ↔ r = Ended;
  ok_runner : match r with
    | NotStarted => is_Some (context (inner t))
    | Ready => is_Some (context (inner t))
    | Waiting s old => is_Some (context (inner t)) ∧ is_blocked s ∧
        (tstate (inner t) = s ∨ tstate (inner t) = ThreadState.Dying) ∧
        old ∉ [ThreadState.Suspended; ThreadState.Dying; ThreadState.Dead]
    | User | Ended => True
    end;
  ok_killed : killed (inner t) = true →
    tstate (inner t) ∈ [ThreadState.Dying; ThreadState.Dead] ∧ killer (inner t) = None;
  ok_waker : tstate (inner t) = ThreadState.Dying → waker (inner t) = None
}.

Lemma state_tstate i :
  state i = tstate i ∨ state i = ThreadState.Suspended ∧
    tstate i ∉ [ThreadState.BlockedException; ThreadState.Dying; ThreadState.Dead].
Proof.
  unfold state. destruct (suspend_count i =? 0); simpl; [by left|].
  repeat case_bool_decide; simpl; try (by left). right. split; [done|].
  rewrite !not_elem_of_cons. split_and!; [done..|]. apply not_elem_of_nil.
Qed.

Lemma state_dying i : state i = ThreadState.Dying ↔ tstate i = ThreadState.Dying.
Proof.
  destruct (state_tstate i) as [->|[-> H]]; [done|]. split; [done|]. intros E. rewrite E in H.
  exfalso. apply H. right. by left.
Qed.

(** An update of the inner part that keeps what the invariant reads. *)
Lemma runner_ok_same r t f :
  runner_ok r t →
  state (f (inner t)) = state (inner t) → tstate (f (inner t)) = tstate (inner t) →
  suspend_count (f (inner t)) = suspend_count (inner t) →
  (is_Some (context (inner t)) → is_Some (context (f (inner t)))) →
  killed (f (inner t)) = killed (inner t) →
  (killed (inner t) = true → killer (f (inner t)) = None) →
  (tstate (inner t) = ThreadState.Dying → waker (f (inner t)) = None) →
  runner_ok r (with_inner f t).
Proof.
  intros [H1 H2 H3 H4 H5 H6 H7] Es Et Eu Ec Ek Hk Hw.
  split; simpl; rewrite ?Et, ?Eu, ?Ek; try done.
  - by apply (signals_ok_same t).
  - destruct r; naive_solver.
  - intros Hki. split; [by apply H6|by apply Hk].
Qed.

(** A change of the state that keeps what the invariant reads. *)
Lemma runner_ok_change r r' t w s :
  runner_ok r t →
  s ≠ ThreadState.Suspended → (s = ThreadState.Dead ↔ r' = Ended) →
  match r' with
    | NotStarted | Ready => is_Some (context (inner t))
    | Waiting s' old => is_Some (context (inner t)) ∧ is_blocked s' ∧ (s = s' ∨ s = ThreadState.Dying) ∧
        old ∉ [ThreadState.Suspended; ThreadState.Dying; ThreadState.Dead]
    | User | Ended => True
    end →
  (killed (inner t) = true → s ∈ [ThreadState.Dying; ThreadState.Dead]) →
  (s = ThreadState.Dying → waker (inner t) = None) →
  runner_ok r' (fst (change_state s t w)).
Proof.
  intros [H1 H2 H3 H4 H5 H6 H7] Hs Hd Hr Hk Hw.
  split; rewrite ?change_state_inner; simpl; try done.
  - apply change_state_signals.
  - intros Hki. split; [by apply Hk|by apply H6].
Qed.

(** Restating the same state. *)
Lemma runner_ok_refresh r t w t' :
  runner_ok r t → tstate (inner t') = tstate (inner t) →
  fits 64 (suspend_count (inner t')) → (is_Some (context (inner t)) → is_Some (context (inner t'))) →
  killed (inner t') = killed (inner t) → killer (inner t') = killer (inner t) → waker (inner t') = waker (inner t) →
  runner_ok r (fst (change_state (tstate (inner t')) t' w)).
Proof.
  intros [H1 H2 H3 H4 H5 H6 H7] Et Hf Hc Ek Eki Ew.
  split; rewrite ?change_state_inner; simpl; rewrite ?Et, ?Ek, ?Eki, ?Ew; try done.
  - apply change_state_signals.
  - destruct r; naive_solver.
Qed.

Lemma stop_ok kill r t w : runner_ok r t → runner_ok r (fst (stop kill t w)).
Proof.
  intros Hok. pose proof Hok as [H1 H2 H3 H4 H5 H6 H7]. unfold stop.
  destruct (decide (tstate (inner t) = ThreadState.Dead)) as [|Hnd]; [done|].
  set (t1 := if kill then with_inner set_killed t else t).
  assert (tstate (inner t1) = tstate (inner t)) as Et by (by subst t1; destruct kill).
  assert (∀ u : Thread, runner_ok r u → runner_ok r (take_killer u)) as Htk.
  { intros u Hu. unfold take_killer. destruct (killer (inner u)) as [k|]; [|done].
    pose proof Hu as [G1 G2 G3 G4 G5 G6 G7].
    split; simpl; try done. intros Hk. split; [by apply G6|done]. }
  rewrite Et. destruct (decide (tstate (inner t) = ThreadState.Dying)) as [Hdy|Hndy]; simpl.
  - subst t1. destruct kill; [|done].
    unfold take_killer. simpl. destruct (killer (inner t)) as [k|] eqn:Ek.
    + split; simpl; try done. intros _. split; [rewrite Hdy; by left|done].
    + split; simpl; try done. intros _. split; [rewrite Hdy; by left|done].
  - pose proof (change_state_signals ThreadState.Dying t1 w) as Hs.
    pose proof (change_state_inner ThreadState.Dying t1 w) as Hi.
    destruct (change_state ThreadState.Dying t1 w) as [t2 w2]. simpl in *.
    assert (tstate (inner t2) = ThreadState.Dying) as Ed by (by rewrite Hi).
    assert (context (inner t2) = context (inner t)) as Ec by (rewrite Hi; by subst t1; destruct kill).
    assert (suspend_count (inner t2) = suspend_count (inner t)) as Eu by (rewrite Hi; by subst t1; destruct kill).
    assert (match r with
      | NotStarted | Ready => is_Some (context (inner t))
      | Waiting s old => is_Some (context (inner t)) ∧ is_blocked s ∧
          (ThreadState.Dying = s ∨ ThreadState.Dying = ThreadState.Dying) ∧
          old ∉ [ThreadState.Suspended; ThreadState.Dying; ThreadState.Dead]
      | User | Ended => True end) as Hr by (destruct r; naive_solver).
    unfold take_killer, take_waker.
    destruct (waker (inner t2)) eqn:Ew; simpl; destruct (killer (inner t2)) eqn:Ek; simpl;
      (split; simpl; rewrite ?Ed, ?Eu, ?Ec; try done; try (by apply (signals_ok_same t2)));
      try (split; [done|by intros ->; exfalso; apply Hnd, H4]); try (destruct r; done).
    all: intros _; split; [by left|done].
Qed.

Lemma suspend_ok r t w : suspend_count (inner t) < usize_max → runner_ok r t → runner_ok r (fst (suspend t w)).
Proof.
  intros Hlt Hok. pose proof (ok_suspend _ _ Hok) as Hf. unfold fits, usize_max in *.
  unfold suspend. apply (runner_ok_refresh _ t); simpl; try done.
  rewrite wadd_small; unfold fits; lia.
Qed.

Lemma resume_ok r t w :
  suspend_count (inner t) ≠ 0 → runner_ok r t → ∃ t' w', resume t w = Ok (t', w') ∧ runner_ok r t'.
Proof.
  intros Hne Hok. pose proof (ok_suspend _ _ Hok) as Hf. unfold fits in Hf. unfold resume.
  destruct (Z.eqb_spec (suspend_count (inner t)) 0) as [|_]; [done|].
  assert (suspend_count (inner t) -u 1 = suspend_count (inner t) - 1) as E by (apply wsub_small; unfold fits; lia).
  cbv zeta. change (suspend_count (inner (with_inner (set_suspend ?n) t))) with n. rewrite !E.
  destruct (Z.eqb_spec (suspend_count (inner t) - 1) 0) as [E0|Hn0].
  - set (t1 := with_inner _ t).
    assert (runner_ok r (fst (change_state (tstate (inner t1)) t1 w))) as Hc.
    { apply (runner_ok_refresh _ t); try done. simpl. unfold fits. lia. }
    destruct (change_state (tstate (inner t1)) t1 w) as [t2 w2]. simpl in Hc.
    eexists _, _. split; [done|]. unfold take_waker. destruct (waker (inner t2)); [|done].
    destruct Hc as [H1 H2 H3 H4 H5 H6 H7]. by split.
  - eexists _, _. split; [done|].
    destruct Hok as [H1 H2 H3 H4 H5 H6 H7]. split; try done; [|simpl; unfold fits; lia].
    apply (signals_ok_same t); [done..|]. unfold state. simpl.
    by replace (suspend_count (inner t) - 1 =? 0) with (suspend_count (inner t) =? 0) by lia.
Qed.

Lemma poll_run_ok cx t w :
  runner_ok Ready t →
  ∃ c t', poll_run cx t = Ok (c, t') ∧ runner_ok (match c with Some _ => User | None => Ready end) t'.
Proof.
  intros Hok. pose proof Hok as [H1 H2 H3 H4 [c Hc] H6 H7]. unfold poll_run.
  destruct (decide (state (inner t) = ThreadState.Suspended)) as [Es|Es].
  - eexists _, _. split; [done|]. apply runner_ok_same; try done; [by intros Hk; apply H6|].
    simpl. intros Hd. exfalso. apply state_dying in Hd. congruence.
  - rewrite Hc. eexists _, _. split; [done|]. simpl. split; simpl; try done; [|naive_solver].
    apply (signals_ok_same t); [done..|]. simpl. destruct (state_tstate (inner t)) as [->|[? _]]; [|done].
    unfold state. simpl. by rewrite orb_true_r.
Qed.

Lemma block_begin_ok s k t w :
  runner_ok Ready t → is_blocked s →
  block_begin s k t w = Err ZxError.STOP ∨
  ∃ old t' w', block_begin s k t w = Ok (old, t', w') ∧ runner_ok (Waiting s old) t'.
Proof.
  intros Hok Hb. pose proof Hok as [H1 H2 H3 H4 H5 H6 H7]. unfold block_begin.
  destruct (decide (state (inner t) = ThreadState.Dying)) as [|Hnd]; [by left|right].
  assert (tstate (inner t) ≠ ThreadState.Dying) as Hnd' by (by rewrite <-state_dying).
  assert (tstate (inner t) ≠ ThreadState.Dead) as Hnde by (rewrite H4; done).
  unfold is_blocked in Hb. rewrite !not_elem_of_cons in Hb. destruct Hb as (? & ? & ? & ? & ? & _).
  set (t1 := with_inner (set_killer (Some k)) t).
  pose proof (change_state_signals s t1 w) as Hs. pose proof (change_state_inner s t1 w) as Hi.
  destruct (change_state s t1 w) as [t2 w2]. simpl in *. eexists _, _, _. split; [done|].
  split; rewrite ?Hi; simpl; try done.
  - split_and!; [done| |by left|].
    + unfold is_blocked. rewrite !not_elem_of_cons. split_and!; [done..|]. apply not_elem_of_nil.
    + rewrite !not_elem_of_cons. split_and!; [done..|]. apply not_elem_of_nil.
  - intros Hk. destruct (H6 Hk) as [Hd _]. rewrite !elem_of_cons, elem_of_nil in Hd. naive_solver.
Qed.

Lemma block_end_ok s old t w :
  runner_ok (Waiting s old) t → ∃ t' w', block_end s old t w = Ok (t', w') ∧ runner_ok Ready t'.
Proof.
  intros Hok. pose proof Hok as [H1 H2 H3 H4 (Hc & Hb & Hst & Hold) H6 H7]. unfold block_end.
  set (t1 := with_inner (set_killer None) t).
  assert (state (inner t1) = state (inner t)) as Est by done. rewrite Est.
  destruct (decide (state (inner t) = ThreadState.Dying)) as [Hd|Hnd].
  - eexists _, _. split; [done|]. apply state_dying in Hd. split; simpl; rewrite ?Hd; try done; [|by intros _; apply H7].
    intros Hk. split; [by left|done].
  - assert (tstate (inner t) = s) as Es. { destruct Hst as [|Hst]; [done|]. by apply state_dying in Hst. }
    destruct (decide (tstate (inner t1) = s)) as [_|Hn]; [|by destruct Hn].
    destruct (change_state old t1 w) as [t2 w2] eqn:Ech. eexists _, _. split; [done|].
    replace t2 with (fst (change_state old t1 w)) by (by rewrite Ech).
    rewrite !not_elem_of_cons in Hold. destruct Hold as (? & ? & ? & _).
    assert (tstate (inner t) ≠ ThreadState.Dying) by (by rewrite <-state_dying).
    split; rewrite ?change_state_inner; simpl; try done.
    + apply change_state_signals.
    + intros Hk. destruct (H6 Hk) as [Hd _]. rewrite !elem_of_cons, elem_of_nil in Hd.
      destruct Hd as [|[Hd|]]; [done| |done]. by apply H4 in Hd.
Qed.

Lemma object_signal_ok c s r t w :
  runner_ok r t →
  match object_signal c s t w with Ok (t', _) => runner_ok r t' | Err _ => True | Panic => False end.
Proof.
  intros Hok. unfold object_signal.
  destruct (Signal.verify_user_signal Signal.USER_ALL c) as [x| |] eqn:Hc; simpl; [|done|].
  2: { by apply verify_user_signal_total in Hc. }
  destruct (Signal.verify_user_signal Signal.USER_ALL s) as [y| |] eqn:Hs; simpl; [|done|].
  2: { by apply verify_user_signal_total in Hs. }
  pose proof (signal_change_signal x y (base t) w) as E.
  destruct (signal_change x y (base t) w) as [b w']. simpl in *.
  assert (∀ k, 0 ≤ k < 24 → contains (signal b) (bit k) = contains (signal (base t)) (bit k)) as Hb.
  { intros k Hk. rewrite E, !contains_bit by lia. rewrite changed_testbit.
    assert (Z.testbit Signal.USER_ALL k = false) as Hu.
    { unfold Signal.USER_ALL. rewrite Z.shiftl_spec by lia. apply Z.testbit_neg_r. lia. }
    rewrite (verify_user_signal_bits _ _ _ k ltac:(lia) Hc Hu), (verify_user_signal_bits _ _ _ k ltac:(lia) Hs Hu).
    by rewrite andb_true_r, orb_false_r. }
  destruct Hok as [(S1 & S2 & S3) H2 H3 H4 H5 H6 H7]. split; try done. unfold signals_ok. simpl.
  unfold Signal.THREAD_TERMINATED, Signal.SIGNALED, Signal.THREAD_SUSPENDED, Signal.THREAD_RUNNING in *.
  rewrite !Hb by lia. done.
Qed.

Lemma thread_step_ok op r t w :
  runner_ok r t → op_legal op r t →
  match thread_step op r t w with
  | Ok (r', t', _) => runner_ok r' t'
  | Err _ => True
  | Panic => False
  end.
Proof.
  intros Hok Hop. pose proof Hok as [H1 H2 H3 H4 H5 H6 H7].
  destruct op as [|kill| | |cx|c|s k| |k|e| |c s|f]; simpl in *.
  - destruct Hop as [-> Hnew]. unfold start.
    pose proof (runner_ok_change NotStarted Ready t w ThreadState.Running Hok) as H.
    destruct (change_state _ t w). apply H; try done. intros Hk. destruct (H6 Hk) as [Hd _].
    rewrite Hnew, !elem_of_cons, elem_of_nil in Hd. naive_solver.
  - pose proof (stop_ok kill r t w Hok). by destruct (stop kill t w).
  - pose proof (suspend_ok r t w Hop Hok). by destruct (suspend t w).
  - destruct (resume_ok r t w Hop Hok) as (t' & w' & -> & ?). done.
  - subst r. destruct (poll_run_ok cx t w Hok) as (c & t' & -> & ?). by destruct c.
  - subst r. unfold put_context. pose proof (runner_ok_refresh User t w (with_inner (set_context (Some c)) t) Hok) as H.
    pose proof (change_state_inner (tstate (inner t)) (with_inner (set_context (Some c)) t) w) as Hi. simpl in H.
    destruct (change_state _ _ w) as [t' w']. simpl in *. destruct H as [G1 G2 G3 G4 G5 G6 G7]; try done.
    split; try done; [split; [|done]|]; rewrite ?Hi; try done.
    simpl. intros Hd. by apply H4 in Hd.
  - destruct Hop as [-> Hb]. destruct (block_begin_ok s k t w Hok Hb) as [->|(old & t' & w' & -> & ?)]; done.
  - destruct Hop as (s & old & ->). destruct (block_end_ok s old t w Hok) as (t' & w' & -> & ?). done.
  - subst r. unfold dying_begin. destruct (killed (inner t)) eqn:Hk; [done|]. simpl.
    apply runner_ok_same; try done. congruence.
  - apply runner_ok_same; try done. intros Hk. by apply H6.
  - unfold terminate.
    pose proof (change_state_signals ThreadState.Dead (mkThread (base t) (inner t) true (woken t) (fired t)) w) as Hs.
    pose proof (change_state_inner ThreadState.Dead (mkThread (base t) (inner t) true (woken t) (fired t)) w) as Hi.
    destruct (change_state _ _ w) as [t' w']. simpl in *. split; rewrite ?Hi; simpl; try done.
    intros Hk. split; [right; by left|by apply H6].
  - pose proof (object_signal_ok c s r t w Hok) as H. by destruct (object_signal c s t w) as [[]| |].
  - unfold with_context. destruct (context (inner t)) as [cx|] eqn:Hc; [|done]. simpl.
    apply runner_ok_same; try done; [|by intros Hk; apply H6]. unfold state. simpl. by rewrite Hc.
Qed.

Lemma thread_reach_ok r t w : thread_reach r t w → runner_ok r t.
Proof.
  induction 1 as [id name cx w|op r t w r' t' w' Hr IH Hop E].
  - by split; simpl.
  - pose proof (thread_step_ok op r t w IH Hop) as H. by rewrite E in H.
Qed.

(** ** Results *)

(** C15. In every state that a thread reaches while it is started once, run, blocked,
    suspended, resumed, killed, given exceptions and signalled by its users in any order:
    the three thread signals show the state that it reports; no operation panics (the
    context is there when the runner takes it, and [blocking_run] finds the state that it
    set); and a killed thread is dying or dead with no killer left to fire. *)
Theorem thread_safe (r : runner) t w :
  thread_reach r t w →
  signals_ok t ∧
  (∀ op, op_legal op r t → thread_step op r t w ≠ Panic) ∧
  (killed (inner t) = true →
     tstate (inner t) ∈ [ThreadState.Dying; ThreadState.Dead] ∧ killer (inner t) = None) ∧
  tstate (inner t) ≠ ThreadState.Suspended.
Proof.
  intros Hok%thread_reach_ok. split_and!; [apply Hok| |apply Hok|apply Hok].
  intros op Hop E. pose proof (thread_step_ok op r t w Hok Hop) as H. by rewrite E in H.
Qed.

(** [kill] on a thread that is not dead makes it report [Dying], whether or not it is
    suspended, and notifies the waker and the killer that it had registered: the runner
    does not stay suspended or blocked.  From then on it cannot block again, and
    [wait_for_run] never suspends it. *)
Theorem thread_kill_unblocks (r : runner) t w :
  thread_reach r t w → tstate (inner t) ≠ ThreadState.Dead →
  let '(t', w') := stop true t w in
  state (inner t') = ThreadState.Dying ∧ killed (inner t') = true ∧
  killer (inner t') = None ∧ waker (inner t') = None ∧
  (∀ k, killer (inner t) = Some k → k ∈ fired t') ∧
  (∀ k, waker (inner t) = Some k → k ∈ woken t') ∧
  (∀ s k, block_begin s k t' w' = Err ZxError.STOP) ∧
  (∀ cx c t'', poll_run cx t' = Ok (c, t'') → c ≠ None).
Proof.
  intros Hok%thread_reach_ok Hnd. pose proof (stop_ok true r t w Hok) as Hok'.
  destruct (stop true t w) as [t' w'] eqn:E. simpl in Hok'.
  assert (tstate (inner t') = ThreadState.Dying ∧ killed (inner t') = true ∧
    (∀ k, killer (inner t) = Some k → k ∈ fired t') ∧ (∀ k, waker (inner t) = Some k → k ∈ woken t'))
    as (Hd & Hk & Hf & Hw).
  { revert E. unfold stop. rewrite decide_False by done. simpl.
    destruct (decide (tstate (inner t) = ThreadState.Dying)) as [Hdy|_].
    - unfold take_killer. simpl. pose proof (ok_waker _ _ Hok Hdy) as Hw.
      destruct (killer (inner t)) eqn:Ek; intros [= <- <-]; simpl; split_and!; try done; rewrite ?Hw; try done.
      intros k [= ->]. apply elem_of_app. right. by left.
    - pose proof (change_state_inner ThreadState.Dying (with_inner set_killed t) w) as Hi. revert Hi.
      destruct (change_state _ _ w) as [t2 w2]. simpl. intros Hi [= <- <-].
      unfold take_killer, take_waker. rewrite Hi. simpl.
      destruct (waker (inner t)) eqn:Ew; simpl; rewrite ?Hi; simpl; destruct (killer (inner t)) eqn:Ek; simpl; rewrite ?Hi;
        split_and!; try done.
      all: intros k [= ->]; apply elem_of_app; right; by left. }
  assert (state (inner t') = ThreadState.Dying) as Hs by (by apply state_dying).
  split_and!; try done.
  - by apply (ok_killed _ _ Hok').
  - by apply (ok_waker _ _ Hok').
  - intros s k. unfold block_begin. by rewrite decide_True.
  - intros cx c t''. unfold poll_run. rewrite decide_False by (by rewrite Hs).
    destruct (context (inner t')); simpl; [by intros [= <- <-]|done].
Qed.

(** [Thread::start] does not look at the state of the thread, and neither does
    [sys_thread_start].  Starting a thread that is blocked in a system call makes the
    assertion of [blocking_run] panic when the call returns, and starting a dead one makes
    it report [Running] again and withdraws [THREAD_TERMINATED]. *)
Theorem thread_restart (r : runner) t w (s old : ThreadState.t) :
  thread_reach r t w → r = Waiting s old → tstate (inner t) = s →
  let '(t1, w1) := start t w in
  block_end s old t1 w1 = Panic ∧
  (let '(t2, w2) := terminate t w in
   contains (signal (base t2)) Signal.THREAD_TERMINATED = true ∧
   let '(t3, _) := start t2 w2 in
   contains (signal (base t3)) Signal.THREAD_TERMINATED = false ∧ tstate (inner t3) = ThreadState.Running).
Proof.
  intros Hok%thread_reach_ok -> Hs. pose proof (ok_runner _ _ Hok) as (_ & Hb & _ & _).
  unfold is_blocked in Hb. rewrite !not_elem_of_cons in Hb. destruct Hb as (? & ? & ? & ? & ? & _).
  pose proof (change_state_inner ThreadState.Running t w) as Hi. unfold start.
  destruct (change_state ThreadState.Running t w) as [t1 w1]. simpl in Hi. split.
  - unfold block_end. simpl. rewrite Hi. rewrite decide_False; [by rewrite decide_False by (simpl; congruence)|].
    rewrite state_dying. done.
  - unfold terminate. set (t' := mkThread _ _ _ _ _).
    pose proof (change_state_signals ThreadState.Dead t' w) as (S2 & _ & _).
    pose proof (change_state_inner ThreadState.Dead t' w) as Hi2.
    destruct (change_state ThreadState.Dead t' w) as [t2 w2]. simpl in *.
    pose proof (change_state_signals ThreadState.Running t2 w2) as (S3 & _ & _).
    pose proof (change_state_inner ThreadState.Running t2 w2) as Hi3.
    destruct (change_state ThreadState.Running t2 w2) as [t3 w3]. simpl in *.
    rewrite S2, S3, Hi2, Hi3. split_and!; [|apply bool_decide_eq_false_2|done].
    + apply bool_decide_eq_true_2. unfold state. simpl. by rewrite orb_true_r.
    + destruct (state_tstate (set_state ThreadState.Running (inner t2))) as [->|[-> _]]; done.
Qed.
End thread.
Arguments Thread : clear implicits.

(** A thread that ran, went into a futex wait and was suspended there. *)
Definition sleeper : runner * Thread unit Z * unit :=
  Eval vm_compute in
  match thread_run [OpStart; OpPoll 1; OpPut 5; OpBlock ThreadState.BlockedFutex 9; OpSuspend]
          NotStarted (create 7 "t" 0) tt with
  | Ok x => x
  | _ => (Ended, create 7 "t" 0, tt)
  end.

Lemma sleeper_reach : thread_reach (fst (fst sleeper)) (snd (fst sleeper)) tt.
Proof.
  apply (thread_reach_run [OpStart; OpPoll 1; OpPut 5; OpBlock ThreadState.BlockedFutex 9; OpSuspend]
           NotStarted (create 7 "t" 0) tt); [apply reach_create| |vm_compute; reflexivity].
  assert (is_blocked ThreadState.BlockedFutex) as Hb.
  { unfold is_blocked. rewrite !not_elem_of_cons. split_and!; try done. apply not_elem_of_nil. }
  revert Hb. vm_compute. tauto.
Qed.

Lemma thread_safe_witness :
  state (inner (snd (fst sleeper))) = ThreadState.Suspended ∧ signals_ok (snd (fst sleeper)) ∧
  thread_step OpUnblock (fst (fst sleeper)) (snd (fst sleeper)) tt ≠ Panic.
Proof.
  destruct (thread_safe _ _ _ sleeper_reach) as (H1 & H2 & _).
  split; [reflexivity|]. split; [exact H1|]. apply H2. by do 2 eexists.
Defined.

Lemma thread_kill_unblocks_witness :
  let t' := fst (stop true (snd (fst sleeper)) tt) in
  state (inner t') = ThreadState.Dying ∧ 9%nat ∈ fired t'.
Proof.
  pose proof (thread_kill_unblocks _ _ _ sleeper_reach ltac:(discriminate)) as H. vm_compute in H |- *.
  destruct H as (H1 & _ & _ & _ & H2 & _). split; [exact H1|]. apply H2. reflexivity.
Defined.

Lemma thread_restart_witness :
  let t1 := fst (start (snd (fst sleeper)) tt) in
  block_end ThreadState.BlockedFutex ThreadState.Running t1 tt = Panic.
Proof.
  pose proof (thread_restart _ _ _ ThreadState.BlockedFutex ThreadState.Running sleeper_reach eq_refl eq_refl) as H.
  vm_compute in H |- *. exact (proj1 H).
Defined.
