(* ===== verification/Policy.v ===== *)
(** * Job policies ([zircon-object/src/task/job_policy.rs])

    The policy of a job, how it is combined with that of the parent, and how a process
    consults it ([Process::check_policy] in [task/process.rs]). *)

From S2P Require Import Prelude Errors Timers.
From stdpp Require Import options.
#[local] Open Scope Z_scope.

Module PolicyCondition.
Inductive t :=
| BadHandle | WrongObject | VmarWx | NewAny | NewVMO | NewChannel | NewEvent | NewEventPair | NewPort
| NewSocket | NewFIFO | NewTimer | NewProcess | NewProfile | AmbientMarkVMOExec.
#[export] Instance t_eq_dec : EqDecision t.
Proof. solve_decision. Defined.

(** [condition as usize] *)
Definition as_usize (c : t) : nat :=
  match c with
  | BadHandle => 0 | WrongObject => 1 | VmarWx => 2 | NewAny => 3 | NewVMO => 4 | NewChannel => 5
  | NewEvent => 6 | NewEventPair => 7 | NewPort => 8 | NewSocket => 9 | NewFIFO => 10 | NewTimer => 11
  | NewProcess => 12 | NewProfile => 13 | AmbientMarkVMOExec => 14
  end.
End PolicyCondition.

Module PolicyAction.
Inductive t := Allow | Deny | AllowException | DenyException | Kill.
#[export] Instance t_eq_dec : EqDecision t.
Proof. solve_decision. Defined.
End PolicyAction.
Export (hints) PolicyCondition PolicyAction.

Inductive SetPolicyOptions := Absolute | Relative.

Record BasicPolicy := mkBasicPolicy {
  condition : PolicyCondition.t;
  policy_action : PolicyAction.t
}.

(** [JobPolicy]: the array of actions. *)
Notation JobPolicy := (list (option PolicyAction.t)).
Definition POLICY_COUNT : nat := 15.
Definition policy_default : JobPolicy := repeat None POLICY_COUNT.

Definition get_action (p : JobPolicy) (c : PolicyCondition.t) : option PolicyAction.t :=
  mjoin (p !! PolicyCondition.as_usize c).
Definition apply (p : JobPolicy) (b : BasicPolicy) : JobPolicy :=
  <[PolicyCondition.as_usize (condition b) := Some (policy_action b)]> p.

(** [merge]: the loop over the entries of the parent. *)
Fixpoint merge_loop (fuel i : nat) (new parent : JobPolicy) : JobPolicy :=
  match fuel with
  | O => new
  | S fuel =>
      let new := match mjoin (parent !! i) with Some a => <[i := Some a]> new | None => new end in
      merge_loop fuel (S i) new parent
  end.
Definition merge (p parent : JobPolicy) : JobPolicy := merge_loop POLICY_COUNT 0 p parent.

(** The loop of [Job::set_policy_basic], on the policy of the job: the result and the
    policy that is left. *)
Fixpoint set_policies (options : SetPolicyOptions) (parent_policy : JobPolicy) (policies : list BasicPolicy)
    (p : JobPolicy) : ZxResult unit * JobPolicy :=
  match policies with
  | [] => (Ok tt, p)
  | b :: policies =>
      match get_action parent_policy (condition b), options with
      | Some _, Absolute => (Err ZxError.ALREADY_EXISTS, p)
      | Some _, Relative => set_policies options parent_policy policies p
      | None, _ => set_policies options parent_policy policies (apply p b)
      end
  end.

(** [Process::check_policy] *)
Definition check_policy (p : JobPolicy) (c : PolicyCondition.t) : ZxResult unit :=
  match default PolicyAction.Allow (get_action p c) with
  | PolicyAction.Allow => Ok tt
  | PolicyAction.Deny => Err ZxError.ACCESS_DENIED
  | _ => Panic
  end.

Record TimerSlackPolicy := mkTimerSlackPolicy { min_slack : Z; default_mode : Slack.t }.
Record TimerSlack := mkTimerSlack { amount : Z; mode : Slack.t }.
Definition timer_slack_default : TimerSlack := mkTimerSlack 0 Slack.Center.

Definition check_timer_policy (p : TimerSlackPolicy) : ZxResult unit :=
  if min_slack p <? 0 then Err ZxError.INVALID_ARGS else Ok tt.
Definition generate_new (t : TimerSlack) (p : TimerSlackPolicy) : TimerSlack :=
  mkTimerSlack (Z.max (amount t) (min_slack p)) (default_mode p).

(** ** Laws *)
Definition policy_wf (p : JobPolicy) : Prop := length p = POLICY_COUNT.

Lemma as_usize_lt c : (PolicyCondition.as_usize c < POLICY_COUNT)%nat.
Proof. destruct c; vm_compute; lia. Qed.

Lemma as_usize_inj c c' : PolicyCondition.as_usize c = PolicyCondition.as_usize c' → c = c'.
Proof. by destruct c, c'. Qed.

Lemma apply_wf p b : policy_wf p → policy_wf (apply p b).
Proof. unfold policy_wf, apply. by rewrite length_insert. Qed.

Lemma get_action_apply p b c :
  policy_wf p →
  get_action (apply p b) c = if decide (c = condition b) then Some (policy_action b) else get_action p c.
Proof.
  intros Hp. unfold get_action, apply. destruct (decide (c = condition b)) as [->|Hne].
  - rewrite list_lookup_insert_eq; [done|]. unfold policy_wf in Hp. rewrite Hp. apply as_usize_lt.
  - rewrite list_lookup_insert_ne; [done|]. intros E. by destruct Hne; apply as_usize_inj.
Qed.

Lemma merge_loop_spec fuel i new parent k :
  (k < length new)%nat →
  mjoin (merge_loop fuel i new parent !! k) =
    if decide (i ≤ k < i + fuel)%nat then
      match mjoin (parent !! k) with Some a => Some a | None => mjoin (new !! k) end
    else mjoin (new !! k).
Proof.
  revert i new. induction fuel as [|fuel IH]; intros i new Hk; simpl.
  { rewrite decide_False by lia. done. }
  set (new1 := match mjoin (parent !! i) with Some a => <[i := Some a]> new | None => new end).
  assert (length new1 = length new) as El by (subst new1; destruct (mjoin (parent !! i)); rewrite ?length_insert; done).
  rewrite IH by lia. destruct (decide (k = i)) as [->|Hne].
  - rewrite decide_False by lia. rewrite decide_True by lia. subst new1.
    destruct (mjoin (parent !! i)) as [a|]; [|done]. by rewrite list_lookup_insert_eq.
  - assert (new1 !! k = new !! k) as ->.
    { subst new1. destruct (mjoin (parent !! i)); [|done]. by rewrite list_lookup_insert_ne. }
    apply decide_ext. lia.
Qed.

Lemma get_action_merge p parent c :
  policy_wf p →
  get_action (merge p parent) c =
    match get_action parent c with Some a => Some a | None => get_action p c end.
Proof.
  intros Hp. unfold get_action, merge. pose proof (as_usize_lt c).
  rewrite merge_loop_spec by (by rewrite Hp). by rewrite decide_True by lia.
Qed.

Lemma merge_wf p parent : policy_wf p → policy_wf (merge p parent).
Proof.
  unfold merge, policy_wf. generalize POLICY_COUNT at 2. generalize 0%nat. intros i fuel. revert i p.
  induction fuel as [|fuel IH]; intros i p Hp; simpl; [done|]. apply IH.
  destruct (mjoin (parent !! i)); rewrite ?length_insert; done.
Qed.

Lemma set_policies_wf o parent bs p : policy_wf p → policy_wf (snd (set_policies o parent bs p)).
Proof.
  revert p. induction bs as [|b bs IH]; intros p Hp; simpl; [done|].
  destruct (get_action parent (condition b)), o; try done; by apply IH; try apply apply_wf.
Qed.

(** ** Results *)

(** The last action that a list of policies gives for a condition. *)
Definition last_action (bs : list BasicPolicy) (c : PolicyCondition.t) : option PolicyAction.t :=
  foldl (λ o b, if decide (c = condition b) then Some (policy_action b) else o) None bs.

Lemma last_action_cons b bs c :
  last_action (b :: bs) c =
    match last_action bs c with
    | Some a => Some a
    | None => if decide (c = condition b) then Some (policy_action b) else None
    end.
Proof.
  unfold last_action. simpl. generalize (if decide (c = condition b) then Some (policy_action b) else None) as o.
  revert b. induction bs as [|b' bs IH]; intros b o; simpl; [done|].
  destruct (decide (c = condition b')); [|by apply IH].
  rewrite (IH b (Some (policy_action b'))). by destruct (foldl _ None bs) eqn:E; rewrite ?E.
Qed.

Lemma set_policies_action o parent bs p :
  policy_wf p → fst (set_policies o parent bs p) = Ok tt →
  ∀ c, get_action parent c = None →
  get_action (snd (set_policies o parent bs p)) c =
    match last_action bs c with Some a => Some a | None => get_action p c end.
Proof.
  revert p. induction bs as [|b bs IH]; intros p Hp Hr c Hc; simpl in *; [done|].
  rewrite last_action_cons. destruct (get_action parent (condition b)) as [a|] eqn:Hb.
  - destruct o; simpl in *; [done|]. rewrite IH by done.
    rewrite (decide_False (P := c = condition b)) by congruence. by destruct (last_action bs c).
  - rewrite IH by (done || by apply apply_wf).
    destruct (last_action bs c); [done|]. rewrite get_action_apply by done. by destruct (decide (c = condition b)).
Qed.

Lemma set_policies_result o parent bs p :
  fst (set_policies o parent bs p) = Ok tt ↔
    o = Relative ∨ Forall (λ b, get_action parent (condition b) = None) bs.
Proof.
  revert p. induction bs as [|b bs IH]; intros p; simpl; [naive_solver|].
  rewrite Forall_cons. destruct (get_action parent (condition b)) eqn:Hb.
  - destruct o; [|rewrite IH]; naive_solver.
  - rewrite IH. naive_solver.
Qed.

(** Setting the policy of a job: no request can change an action that the parent
    fixes, and for every other condition the last request wins over what the job had.
    [Relative] always succeeds, [Absolute] exactly when the parent fixes none of the
    requested conditions. *)
Theorem set_policy_effective o parent bs p :
  policy_wf p →
  let '(r, p') := set_policies o parent bs p in
  (∀ c a, get_action parent c = Some a → get_action (merge p' parent) c = Some a) ∧
  (r = Ok tt → ∀ c, get_action parent c = None →
     get_action (merge p' parent) c =
       match last_action bs c with Some a => Some a | None => get_action (merge p parent) c end) ∧
  (r = Ok tt ↔ o = Relative ∨ Forall (λ b, get_action parent (condition b) = None) bs).
Proof.
  intros Hp. pose proof (set_policies_wf o parent bs p Hp) as Hwf.
  pose proof (set_policies_action o parent bs p Hp) as Ha. pose proof (set_policies_result o parent bs p) as Hr.
  destruct (set_policies o parent bs p) as [r p']. simpl in *. split_and!; [| |done].
  - intros c a Hc. by rewrite get_action_merge, Hc.
  - intros Hok c Hc. rewrite !get_action_merge, Hc by done. by apply Ha.
Qed.

(** An [Absolute] request that fails is not undone: the conditions before the first
    one that the parent fixes have been set. *)
Theorem set_policy_not_atomic parent p b1 b2 :
  policy_wf p → get_action parent (condition b1) = None → is_Some (get_action parent (condition b2)) →
  fst (set_policies Absolute parent [b1; b2] p) = Err ZxError.ALREADY_EXISTS ∧
  get_action (merge (snd (set_policies Absolute parent [b1; b2] p)) parent) (condition b1) =
    Some (policy_action b1).
Proof.
  intros Hp H1 [a H2]. simpl. rewrite H1, H2. simpl. split; [done|].
  rewrite get_action_merge, H1 by (by apply apply_wf). rewrite get_action_apply by done. by rewrite decide_True.
Qed.

(** [check_policy] panics for the three documented actions that are neither [Allow]
    nor [Deny], and a policy for [NewAny] does not affect the creation of an object. *)
Theorem check_policy_gaps p c :
  (check_policy p c = Panic ↔
     get_action p c ∈ [Some PolicyAction.AllowException; Some PolicyAction.DenyException; Some PolicyAction.Kill]) ∧
  (policy_wf p → c ≠ PolicyCondition.NewAny →
     ∀ a, check_policy (apply p (mkBasicPolicy PolicyCondition.NewAny a)) c = check_policy p c).
Proof.
  split.
  - unfold check_policy. rewrite !elem_of_cons, elem_of_nil.
    destruct (get_action p c) as [[]|]; simpl; naive_solver.
  - intros Hp Hc a. unfold check_policy. rewrite get_action_apply by done. by rewrite decide_False.
Qed.

Definition deny_channels : JobPolicy :=
  apply policy_default (mkBasicPolicy PolicyCondition.NewChannel PolicyAction.Deny).

Lemma set_policy_effective_witness :
  get_action (merge (snd (set_policies Relative deny_channels
    [mkBasicPolicy PolicyCondition.NewChannel PolicyAction.Allow] policy_default)) deny_channels)
    PolicyCondition.NewChannel = Some PolicyAction.Deny.
Proof.
  pose proof (set_policy_effective Relative deny_channels
    [mkBasicPolicy PolicyCondition.NewChannel PolicyAction.Allow] policy_default eq_refl) as H.
  simpl in H. by apply (proj1 H).
Defined.

Lemma set_policy_not_atomic_witness :
  get_action (merge (snd (set_policies Absolute deny_channels
    [mkBasicPolicy PolicyCondition.NewPort PolicyAction.Deny;
     mkBasicPolicy PolicyCondition.NewChannel PolicyAction.Allow] policy_default)) deny_channels)
    PolicyCondition.NewPort = Some PolicyAction.Deny.
Proof.
  apply (proj2 (set_policy_not_atomic deny_channels policy_default
    (mkBasicPolicy PolicyCondition.NewPort PolicyAction.Deny)
    (mkBasicPolicy PolicyCondition.NewChannel PolicyAction.Allow) eq_refl eq_refl ltac:(by eexists))).
Defined.

Lemma check_policy_gaps_witness :
  check_policy (apply policy_default (mkBasicPolicy PolicyCondition.NewAny PolicyAction.Deny))
    PolicyCondition.NewEvent = Ok tt ∧
  check_policy (apply policy_default (mkBasicPolicy PolicyCondition.NewVMO PolicyAction.Kill))
    PolicyCondition.NewVMO = Panic.
Proof.
  split.
  - rewrite (proj2 (check_policy_gaps policy_default PolicyCondition.NewEvent) eq_refl ltac:(discriminate)).
    reflexivity.
  - apply (proj1 (check_policy_gaps _ PolicyCondition.NewVMO)). vm_compute. do 2 right. by left.
Defined.
