(* ===== verification/Task.v ===== *)
(** * The task tree: jobs, processes and the ends of threads

    [zircon-object/src/task/{job,process}.rs].  Killing a job, the exit of a process and
    the end of a thread call each other up and down the tree: [Job::kill] kills the
    children and the processes, the end of the last thread terminates its process, which
    leaves its job, which may terminate and leave its parent.  Every method changes its
    object under the lock of the object and then makes its calls, whose arguments were
    fixed under the lock; a method is therefore a change of the state and a list of calls,
    and a stack of pending calls runs depth first, as the code does.  [run] makes the calls of
    one operation without interruption; [task_inter] interleaves the stacks of any number of
    threads of the kernel, call by call.

    Object ids grow, so that a child job has a larger id than its parent. *)

From stdpp Require Import relations.
From S2P Require Import Prelude Errors KObject Locks Thread Policy.
From stdpp Require Import options.

Inductive Status := Init | Running | Exited (retcode : Z).

Definition is_exited (s : Status) : bool := match s with Exited _ => true | _ => false end.

Definition TASK_RETCODE_SYSCALL_KILL : Z := (-1028)%Z.

(** [Job] with its [JobInner]; [jshutdown] is the state of the two exception channels. *)
Record Job := mkJob {
  jparent : option nat;
  jparent_policy : JobPolicy;
  jpolicy : JobPolicy;
  jchildren : list nat;
  jprocesses : list nat;
  jkilled : bool;
  jtimer_policy : TimerSlack;
  jsignal : Z;
  jshutdown : bool
}.

(** [Process] with the part of its [ProcessInner] that concerns its life; the handles are
    those of the process, by value. *)
Record Process := mkProcess {
  pjob : nat;
  ppolicy : JobPolicy;
  pstatus : Status;
  pthreads : list nat;
  phandles : list Z;
  pcritical : option (nat * bool);
  psignal : Z;
  pshutdown : bool
}.

(** What matters of a thread here; [tstarted] tells whether it has a runner. *)
Record TaskThread := mkTaskThread { tproc : nat; tlife : ThreadState.t; tstarted : bool }.

Record tasks := mkTasks {
  jobs : gmap nat Job;
  procs : gmap nat Process;
  threads : gmap nat TaskThread
}.

Implicit Types (st : tasks) (j c : nat) (p t : nat).

Definition upd_job (f : Job → Job) j st : tasks := mkTasks (alter f j (jobs st)) (procs st) (threads st).
Definition upd_proc (f : Process → Process) p st : tasks := mkTasks (jobs st) (alter f p (procs st)) (threads st).
Definition upd_thread (f : TaskThread → TaskThread) t st : tasks :=
  mkTasks (jobs st) (procs st) (alter f t (threads st)).

Definition with_children (l : list nat) (x : Job) : Job :=
  mkJob (jparent x) (jparent_policy x) (jpolicy x) l (jprocesses x) (jkilled x) (jtimer_policy x) (jsignal x) (jshutdown x).
Definition with_processes (l : list nat) (x : Job) : Job :=
  mkJob (jparent x) (jparent_policy x) (jpolicy x) (jchildren x) l (jkilled x) (jtimer_policy x) (jsignal x) (jshutdown x).
Definition with_killed (x : Job) : Job :=
  mkJob (jparent x) (jparent_policy x) (jpolicy x) (jchildren x) (jprocesses x) true (jtimer_policy x) (jsignal x) (jshutdown x).
Definition with_policy (q : JobPolicy) (x : Job) : Job :=
  mkJob (jparent x) (jparent_policy x) q (jchildren x) (jprocesses x) (jkilled x) (jtimer_policy x) (jsignal x) (jshutdown x).
Definition with_timer (s : TimerSlack) (x : Job) : Job :=
  mkJob (jparent x) (jparent_policy x) (jpolicy x) (jchildren x) (jprocesses x) (jkilled x) s (jsignal x) (jshutdown x).
Definition with_terminated (x : Job) : Job :=
  mkJob (jparent x) (jparent_policy x) (jpolicy x) (jchildren x) (jprocesses x) (jkilled x) (jtimer_policy x)
    (Z.lor (jsignal x) Signal.JOB_TERMINATED) true.

Definition with_status (s : Status) (x : Process) : Process :=
  mkProcess (pjob x) (ppolicy x) s (pthreads x) (phandles x) (pcritical x) (psignal x) (pshutdown x).
Definition with_threads (l : list nat) (x : Process) : Process :=
  mkProcess (pjob x) (ppolicy x) (pstatus x) l (phandles x) (pcritical x) (psignal x) (pshutdown x).
Definition with_handles (l : list Z) (x : Process) : Process :=
  mkProcess (pjob x) (ppolicy x) (pstatus x) (pthreads x) l (pcritical x) (psignal x) (pshutdown x).
Definition with_critical (c : option (nat * bool)) (x : Process) : Process :=
  mkProcess (pjob x) (ppolicy x) (pstatus x) (pthreads x) (phandles x) c (psignal x) (pshutdown x).
Definition with_pterminated (x : Process) : Process :=
  mkProcess (pjob x) (ppolicy x) (pstatus x) (pthreads x) (phandles x) (pcritical x)
    (Z.lor (psignal x) Signal.PROCESS_TERMINATED) true.

(** [Thread::kill] on the state of a thread (see [thread_kill_life] below). *)
Definition kill_life (s : ThreadState.t) : ThreadState.t :=
  if decide (s = ThreadState.Dead) then ThreadState.Dead else ThreadState.Dying.
Definition with_life (s : ThreadState.t) (x : TaskThread) : TaskThread := mkTaskThread (tproc x) s (tstarted x).
Definition kill_thread t st : tasks := upd_thread (λ x, with_life (kill_life (tlife x)) x) t st.

(** ** The methods *)
Inductive call :=
| JobKill j
| JobTerminate j
| RemoveChild j c
| RemoveProcess j p
| ProcExit p (retcode : Z)
| ProcTerminate p
| RemoveThread p t.

(** [Vec::retain] *)
Definition without (x : nat) (l : list nat) : list nat := filter (λ y, y ≠ x) l.

Definition job_empty (x : Job) : bool := is_empty (jprocesses x) && is_empty (jchildren x).

(** [Job::kill] *)
Definition job_kill j st : tasks * list call :=
  match jobs st !! j with
  | None => (st, [])
  | Some x =>
      if jkilled x then (st, [])
      else
        let st := upd_job with_killed j st in
        if is_empty (jchildren x) && is_empty (jprocesses x) then (st, [JobTerminate j])
        else (st, (JobKill <$> jchildren x) ++ ((λ p, ProcExit p TASK_RETCODE_SYSCALL_KILL) <$> jprocesses x))
  end.

(** [Job::terminate] *)
Definition job_terminate j st : tasks * list call :=
  match jobs st !! j with
  | None => (st, [])
  | Some x => (upd_job with_terminated j st, match jparent x with Some q => [RemoveChild q j] | None => [] end)
  end.

(** The tails of [remove_child] and [remove_process]. *)
Definition terminate_if_done j st : list call :=
  match jobs st !! j with
  | Some x => if jkilled x && job_empty x then [JobTerminate j] else []
  | None => []
  end.

Definition remove_child j c st : tasks * list call :=
  let st := upd_job (λ x, with_children (without c (jchildren x)) x) j st in (st, terminate_if_done j st).

Definition remove_process j p st : tasks * list call :=
  let st := upd_job (λ x, with_processes (without p (jprocesses x)) x) j st in (st, terminate_if_done j st).

(** [Process::exit] *)
Definition proc_exit p (retcode : Z) st : tasks * list call :=
  match procs st !! p with
  | None => (st, [])
  | Some x =>
      if is_exited (pstatus x) then (st, [])
      else
        let st := foldl (λ st t, kill_thread t st) st (pthreads x) in
        let st := upd_proc (λ x, with_handles [] (with_status (Exited retcode) x)) p st in
        (st, if is_empty (pthreads x) then [ProcTerminate p] else [])
  end.

(** [Process::terminate] *)
Definition proc_terminate p st : tasks * list call :=
  match procs st !! p with
  | None => (st, [])
  | Some x =>
      let retcode := match pstatus x with Exited r => r | _ => 0%Z end in
      let st := upd_proc (λ x, with_pterminated (with_status (Exited retcode) x)) p st in
      (st, RemoveProcess (pjob x) p ::
           match pcritical x with
           | Some (q, retcode_nonzero) =>
               if negb retcode_nonzero || negb (retcode =? 0)%Z then [JobKill q] else []
           | None => []
           end)
  end.

(** [Process::remove_thread] *)
Definition remove_thread p t st : tasks * list call :=
  let st := upd_proc (λ x, with_threads (without t (pthreads x)) x) p st in
  (st, match procs st !! p with
       | Some x => if is_empty (pthreads x) then [ProcTerminate p] else []
       | None => []
       end).

Definition perform (k : call) st : tasks * list call :=
  match k with
  | JobKill j => job_kill j st
  | JobTerminate j => job_terminate j st
  | RemoveChild j c => remove_child j c st
  | RemoveProcess j p => remove_process j p st
  | ProcExit p r => proc_exit p r st
  | ProcTerminate p => proc_terminate p st
  | RemoveThread p t => remove_thread p t st
  end.

Fixpoint run (fuel : nat) (stack : list call) st : option tasks :=
  match stack, fuel with
  | [], _ => Some st
  | _, O => None
  | k :: stack, S fuel => let '(st, ks) := perform k st in run fuel (ks ++ stack) st
  end.

(** ** Entry points

    What the system calls and the runners do from outside; new objects get fresh ids. *)
Definition new_job (parent : option nat) (parent_policy : JobPolicy) : Job :=
  mkJob parent parent_policy policy_default [] [] false timer_slack_default 0%Z false.

Definition root : tasks := mkTasks {[ 0%nat := new_job None policy_default ]} ∅ ∅.

(** [Job::policy] *)
Definition effective_policy (x : Job) : JobPolicy := merge (jpolicy x) (jparent_policy x).

Definition create_child j c st : ZxResult tasks :=
  match jobs st !! j with
  | None => Err ZxError.BAD_HANDLE
  | Some x =>
      if jkilled x then Err ZxError.BAD_STATE
      else
        let st := upd_job (λ x, with_children (jchildren x ++ [c]) x) j st in
        Ok (mkTasks (<[c := new_job (Some j) (effective_policy x)]> (jobs st)) (procs st) (threads st))
  end.

(** [Process::create_with_ext] with [Job::add_process] *)
Definition create_process j p st : ZxResult tasks :=
  match jobs st !! j with
  | None => Err ZxError.BAD_HANDLE
  | Some x =>
      if jkilled x then Err ZxError.BAD_STATE
      else
        let st := upd_job (λ x, with_processes (jprocesses x ++ [p]) x) j st in
        Ok (mkTasks (jobs st) (<[p := mkProcess j (effective_policy x) Init [] [] None 0%Z false]> (procs st)) (threads st))
  end.

(** [Thread::create_with_ext] with [Process::add_thread] *)
Definition create_thread p t st : ZxResult tasks :=
  match procs st !! p with
  | None => Err ZxError.BAD_HANDLE
  | Some x =>
      if is_exited (pstatus x) then Err ZxError.BAD_STATE
      else
        let st := upd_proc (λ x, with_threads (pthreads x ++ [t]) x) p st in
        Ok (mkTasks (jobs st) (procs st) (<[t := mkTaskThread p ThreadState.New false]> (threads st)))
  end.

(** [Thread::start] *)
Definition start_thread t st : tasks := upd_thread (λ x, mkTaskThread (tproc x) ThreadState.Running true) t st.

(** [Process::start] of a thread that was never started, with the handle that it gets. *)
Definition proc_start p t (arg1 : option Z) st : ZxResult tasks :=
  match procs st !! p with
  | None => Err ZxError.BAD_HANDLE
  | Some x =>
      if negb (bool_decide (t ∈ pthreads x)) then Err ZxError.ACCESS_DENIED
      else match pstatus x with
      | Init =>
          let hs := match arg1 with Some h => phandles x ++ [h] | None => phandles x end in
          Ok (start_thread t (upd_proc (λ x, with_handles hs (with_status Running x)) p st))
      | _ => Err ZxError.BAD_STATE
      end
  end.

(** [sys_thread_start] on the process of the thread. *)
Definition thread_start t st : ZxResult tasks :=
  match threads st !! t with
  | None => Err ZxError.BAD_HANDLE
  | Some y =>
      match procs st !! tproc y with
      | Some x => match pstatus x with Running => Ok (start_thread t st) | _ => Err ZxError.BAD_STATE end
      | None => Err ZxError.BAD_HANDLE
      end
  end.

(** The walk of [set_critical_at_job] from the job of the process to the root. *)
Fixpoint find_ancestor (fuel : nat) j (target : nat) st : bool :=
  bool_decide (j = target) ||
  match fuel, jobs st !! j with
  | S fuel, Some x => match jparent x with Some q => find_ancestor fuel q target st | None => false end
  | _, _ => false
  end.

Definition set_critical_at_job p (target : nat) (retcode_nonzero : bool) st : ZxResult tasks :=
  match procs st !! p with
  | None => Err ZxError.BAD_HANDLE
  | Some x =>
      match pcritical x with
      | Some _ => Err ZxError.ALREADY_BOUND
      | None =>
          if find_ancestor (pjob x) (pjob x) target st
          then Ok (upd_proc (with_critical (Some (target, retcode_nonzero))) p st)
          else Err ZxError.INVALID_ARGS
      end
  end.

(** [Job::set_policy_basic] and [Job::set_policy_timer_slack]; the policy is changed even
    if the result is an error. *)
Definition set_policy_basic j (o : SetPolicyOptions) (bs : list BasicPolicy) st : ZxResult unit * tasks :=
  match jobs st !! j with
  | None => (Err ZxError.BAD_HANDLE, st)
  | Some x =>
      if negb (job_empty x) then (Err ZxError.BAD_STATE, st)
      else
        let '(r, q) := set_policies o (jparent_policy x) bs (jpolicy x) in
        (r, upd_job (with_policy q) j st)
  end.

Definition set_policy_timer_slack j (tp : TimerSlackPolicy) st : ZxResult tasks :=
  match jobs st !! j with
  | None => Err ZxError.BAD_HANDLE
  | Some x =>
      if negb (job_empty x) then Err ZxError.BAD_STATE
      else
        let? _ := check_timer_policy tp in
        Ok (upd_job (λ x, with_timer (generate_new (jtimer_policy x) tp) x) j st)
  end.

(** [impl Drop for Job]: nothing refers to the job any more. *)
Definition drop_job j st : tasks * list call :=
  match jobs st !! j with
  | None => (st, [])
  | Some x => (mkTasks (delete j (jobs st)) (procs st) (threads st),
               match jparent x with Some q => [RemoveChild q j] | None => [] end)
  end.

(** The drop of [CurrentThread], when the runner of a thread ends: [Thread::terminate]. *)
Definition thread_end t st : tasks * list call :=
  match threads st !! t with
  | None => (st, [])
  | Some y => (upd_thread (with_life ThreadState.Dead) t st, [RemoveThread (tproc y) t])
  end.

(** [Job::get_child] and [Job::check_root_job] *)
Definition get_child j (id : nat) st : ZxResult nat :=
  match jobs st !! j with
  | None => Err ZxError.BAD_HANDLE
  | Some x =>
      if bool_decide (id ∈ filter (λ c, is_Some (jobs st !! c)) (jchildren x)) || bool_decide (id ∈ jprocesses x)
      then Ok id else Err ZxError.NOT_FOUND
  end.
Definition check_root_job (x : Job) : ZxResult unit :=
  match jparent x with Some _ => Err ZxError.ACCESS_DENIED | None => Ok tt end.

(** [Process::get_info]: return code, started, has_exited. *)
Definition get_info (x : Process) : Z * bool * bool :=
  match pstatus x with
  | Init => (0%Z, false, false)
  | Running => (0%Z, true, false)
  | Exited r => (r, true, true)
  end.
Definition exit_code (x : Process) : option Z := match pstatus x with Exited r => Some r | _ => None end.

(** ** Histories *)
Inductive task_op :=
| OCreateJob j c | OCreateProcess j p | OCreateThread p t
| OStart p t (arg1 : option Z) | OThreadStart t
| OKillJob j | OExit p (retcode : Z) | OKillThread t | OThreadEnd t
| OSetCritical p j (retcode_nonzero : bool) | OSetPolicy j (o : SetPolicyOptions) (bs : list BasicPolicy)
| OSetTimer j (tp : TimerSlackPolicy) | ODropJob j.

Definition op_step (op : task_op) st : ZxResult (tasks * list call) :=
  match op with
  | OCreateJob j c => rmap (λ st, (st, [])) (create_child j c st)
  | OCreateProcess j p => rmap (λ st, (st, [])) (create_process j p st)
  | OCreateThread p t => rmap (λ st, (st, [])) (create_thread p t st)
  | OStart p t h => rmap (λ st, (st, [])) (proc_start p t h st)
  | OThreadStart t => rmap (λ st, (st, [])) (thread_start t st)
  | OKillJob j => Ok (st, [JobKill j])
  | OExit p r => Ok (st, [ProcExit p r])
  | OKillThread t => Ok (kill_thread t st, [])
  | OThreadEnd t => Ok (thread_end t st)
  | OSetCritical p j nz => rmap (λ st, (st, [])) (set_critical_at_job p j nz st)
  | OSetPolicy j o bs => Ok (snd (set_policy_basic j o bs st), [])
  | OSetTimer j tp => rmap (λ st, (st, [])) (set_policy_timer_slack j tp st)
  | ODropJob j => Ok (drop_job j st)
  end.

(** New ids are fresh, and larger than those of all jobs; only threads that have no runner yet are started
    and only running ones end; a job is dropped when nothing holds a reference to it. *)
Definition op_legal (op : task_op) st : Prop :=
  match op with
  | OCreateJob j c => ∀ k, is_Some (jobs st !! k) → (k < c)%nat
  | OCreateProcess j p => procs st !! p = None
  | OCreateThread p t => threads st !! t = None
  | OStart _ t _ | OThreadStart t => ∃ y, threads st !! t = Some y ∧ tstarted y = false
  | OThreadEnd t => ∃ y, threads st !! t = Some y ∧ tstarted y = true ∧ tlife y ≠ ThreadState.Dead
  | ODropJob j => (∀ k x, jobs st !! k = Some x → jparent x ≠ Some j) ∧
                  (∀ p x, procs st !! p = Some x → pjob x ≠ j)
  | _ => True
  end.

Inductive task_reach : tasks → Prop :=
| task_reach_root : task_reach root
| task_reach_op op st st1 ks fuel st' :
    task_reach st → op_legal op st → op_step op st = Ok (st1, ks) → run fuel ks st1 = Some st' →
    task_reach st'.

(** ** The invariant of a state with pending calls *)
Definition terminated (x : Job) : bool := contains (jsignal x) Signal.JOB_TERMINATED.
Definition pterminated (x : Process) : bool := contains (psignal x) Signal.PROCESS_TERMINATED.
Definition dying (y : TaskThread) : Prop := tlife y = ThreadState.Dying ∨ tlife y = ThreadState.Dead.

Record inv (ks : list call) st : Prop := {
  i_parent j x q : jobs st !! j = Some x → jparent x = Some q → (q < j)%nat ∧ is_Some (jobs st !! q);
  i_pjob p x : procs st !! p = Some x → is_Some (jobs st !! pjob x);
  i_children j x c : jobs st !! j = Some x → c ∈ jchildren x →
    (∃ y, jobs st !! c = Some y ∧ jparent y = Some j) ∨ RemoveChild j c ∈ ks;
  i_procs j x p : jobs st !! j = Some x → p ∈ jprocesses x → ∃ y, procs st !! p = Some y ∧ pjob y = j;
  i_threads p x t : procs st !! p = Some x → t ∈ pthreads x → ∃ y, threads st !! t = Some y ∧ tproc y = p;
  i_kill_child j x c y : jobs st !! j = Some x → jkilled x = true → c ∈ jchildren x → jobs st !! c = Some y →
    jkilled y = true ∨ JobKill c ∈ ks;
  i_kill_proc j x p y : jobs st !! j = Some x → jkilled x = true → p ∈ jprocesses x → procs st !! p = Some y →
    is_exited (pstatus y) = true ∨ ∃ r, ProcExit p r ∈ ks;
  i_exit_thread p x t y : procs st !! p = Some x → is_exited (pstatus x) = true → t ∈ pthreads x →
    threads st !! t = Some y → dying y;
  i_job_done j x : jobs st !! j = Some x → jkilled x = true → job_empty x = true →
    terminated x = true ∨ JobTerminate j ∈ ks;
  i_job_term j x : jobs st !! j = Some x → terminated x = true → jkilled x = true ∧ job_empty x = true;
  i_term_call j x : JobTerminate j ∈ ks → jobs st !! j = Some x → jkilled x = true ∧ job_empty x = true;
  i_term_child j x q y : jobs st !! j = Some x → terminated x = true → jparent x = Some q → jobs st !! q = Some y →
    j ∉ jchildren y ∨ RemoveChild q j ∈ ks;
  i_proc_done p x : procs st !! p = Some x → is_exited (pstatus x) = true → pthreads x = [] →
    pterminated x = true ∨ ProcTerminate p ∈ ks;
  i_proc_term p x : procs st !! p = Some x → pterminated x = true →
    is_exited (pstatus x) = true ∧ pthreads x = [];
  i_pterm_call p x : ProcTerminate p ∈ ks → procs st !! p = Some x → pthreads x = [];
  i_term_proc p x y : procs st !! p = Some x → pterminated x = true → jobs st !! pjob x = Some y →
    p ∉ jprocesses y ∨ RemoveProcess (pjob x) p ∈ ks
}.

(** How a call changes the objects: nothing that was reached is lost. *)
Record job_le (x x' : Job) : Prop := {
  jl_parent : jparent x' = jparent x;
  jl_children : jchildren x' ⊆ jchildren x;
  jl_processes : jprocesses x' ⊆ jprocesses x;
  jl_killed : jkilled x = true → jkilled x' = true;
  jl_term : terminated x = true → terminated x' = true
}.
Record proc_le (x x' : Process) : Prop := {
  pl_job : pjob x' = pjob x;
  pl_threads : pthreads x' ⊆ pthreads x;
  pl_exited : is_exited (pstatus x) = true → is_exited (pstatus x') = true;
  pl_term : pterminated x = true → pterminated x' = true
}.
Record thread_le (y y' : TaskThread) : Prop := {
  tl_proc : tproc y' = tproc y;
  tl_dying : dying y → dying y'
}.

(** What a call owes to the invariant: it does what it was pending for, and for what it
    newly brings about it leaves the calls that follow from it. *)
Record step_ok (k : call) (new : list call) st st' : Prop := {
  s_jobs j : option_Forall2 job_le (jobs st !! j) (jobs st' !! j);
  s_procs p : option_Forall2 proc_le (procs st !! p) (procs st' !! p);
  s_threads t : option_Forall2 thread_le (threads st !! t) (threads st' !! t);
  s_promise : match k with
    | JobKill j => ∀ x, jobs st' !! j = Some x → jkilled x = true
    | JobTerminate j => ∀ x, jobs st' !! j = Some x → terminated x = true
    | RemoveChild j c => ∀ x, jobs st' !! j = Some x → c ∉ jchildren x
    | RemoveProcess j p => ∀ x, jobs st' !! j = Some x → p ∉ jprocesses x
    | ProcExit p _ => ∀ x, procs st' !! p = Some x → is_exited (pstatus x) = true
    | ProcTerminate p => ∀ x, procs st' !! p = Some x → pterminated x = true
    | RemoveThread _ _ => True
    end;
  s_new_kill j x x' : jobs st !! j = Some x → jobs st' !! j = Some x' → jkilled x = false → jkilled x' = true →
    (∀ c, c ∈ jchildren x' → JobKill c ∈ new) ∧ (∀ p, p ∈ jprocesses x' → ∃ r, ProcExit p r ∈ new);
  s_new_done j x x' : jobs st !! j = Some x → jobs st' !! j = Some x' → jkilled x' = true → job_empty x' = true →
    jkilled x && job_empty x = false → JobTerminate j ∈ new;
  s_new_term j x x' : jobs st !! j = Some x → jobs st' !! j = Some x' → terminated x = false → terminated x' = true →
    jkilled x = true ∧ job_empty x = true ∧ ∀ q, jparent x' = Some q → RemoveChild q j ∈ new;
  s_new_exit p x x' t y : procs st !! p = Some x → procs st' !! p = Some x' → is_exited (pstatus x) = false →
    is_exited (pstatus x') = true → t ∈ pthreads x' → threads st' !! t = Some y → dying y;
  s_new_pdone p x x' : procs st !! p = Some x → procs st' !! p = Some x' → is_exited (pstatus x') = true →
    pthreads x' = [] → is_exited (pstatus x) && is_empty (pthreads x) = false →
    pterminated x' = true ∨ ProcTerminate p ∈ new;
  s_new_pterm p x x' : procs st !! p = Some x → procs st' !! p = Some x' → pterminated x = false →
    pterminated x' = true → is_exited (pstatus x') = true ∧ pthreads x' = [] ∧ RemoveProcess (pjob x') p ∈ new;
  s_call_term j x : JobTerminate j ∈ new → jobs st' !! j = Some x → jkilled x = true ∧ job_empty x = true;
  s_call_pterm p x : ProcTerminate p ∈ new → procs st' !! p = Some x → pthreads x = []
}.

Lemma Forall2_back {A} (R : A → A → Prop) (o o' : option A) x' :
  option_Forall2 R o o' → o' = Some x' → ∃ x, o = Some x ∧ R x x'.
Proof. intros H ->. inversion H; subst. eauto. Qed.

Lemma Forall2_fwd {A} (R : A → A → Prop) (o o' : option A) x :
  option_Forall2 R o o' → o = Some x → ∃ x', o' = Some x' ∧ R x x'.
Proof. intros H ->. inversion H; subst. eauto. Qed.

Lemma is_empty_true {A} (l : list A) : is_empty l = true ↔ l = [].
Proof. by destruct l. Qed.

Lemma job_empty_true x : job_empty x = true ↔ jprocesses x = [] ∧ jchildren x = [].
Proof. unfold job_empty. by rewrite andb_true_iff, !is_empty_true. Qed.

Lemma subset_nil {A} (l : list A) : l ⊆ [] → l = [].
Proof. destruct l as [|a l]; [done|]. intros H. by specialize (H a ltac:(by left)); apply elem_of_nil in H. Qed.

Lemma job_le_empty x x' : job_le x x' → job_empty x = true → job_empty x' = true.
Proof.
  intros [_ Hc Hp _ _]. rewrite !job_empty_true. intros [Ep Ec]. rewrite Ep in Hp. rewrite Ec in Hc.
  split; by apply subset_nil.
Qed.

Section inv_step.
Context (k : call) (new ks : list call) (st st' : tasks).
Hypothesis Hinv : inv (k :: ks) st.
Hypothesis Hok : step_ok k new st st'.

Lemma job_back j x' : jobs st' !! j = Some x' → ∃ x, jobs st !! j = Some x ∧ job_le x x'.
Proof using Type*. apply Forall2_back, (s_jobs _ _ _ _ Hok). Qed.
Lemma job_fwd j x : jobs st !! j = Some x → ∃ x', jobs st' !! j = Some x' ∧ job_le x x'.
Proof using Type*. apply Forall2_fwd, (s_jobs _ _ _ _ Hok). Qed.
Lemma proc_back p x' : procs st' !! p = Some x' → ∃ x, procs st !! p = Some x ∧ proc_le x x'.
Proof using Type*. apply Forall2_back, (s_procs _ _ _ _ Hok). Qed.
Lemma proc_fwd p x : procs st !! p = Some x → ∃ x', procs st' !! p = Some x' ∧ proc_le x x'.
Proof using Type*. apply Forall2_fwd, (s_procs _ _ _ _ Hok). Qed.
Lemma thread_back t x' : threads st' !! t = Some x' → ∃ x, threads st !! t = Some x ∧ thread_le x x'.
Proof using Type*. apply Forall2_back, (s_threads _ _ _ _ Hok). Qed.
Lemma thread_fwd t x : threads st !! t = Some x → ∃ x', threads st' !! t = Some x' ∧ thread_le x x'.
Proof using Type*. apply Forall2_fwd, (s_threads _ _ _ _ Hok). Qed.

(** A call that was pending is the one that was made, or still pending. *)
Lemma pending_cases a : a ∈ k :: ks → a = k ∨ a ∈ new ++ ks.
Proof using Type*. intros [->|H]%elem_of_cons; [by left|right]. apply elem_of_app. by right. Qed.
Lemma pending_new a : a ∈ new → a ∈ new ++ ks.
Proof using Type*. intros H. apply elem_of_app. by left. Qed.

Lemma step_kill_child j x' c y' :
  jobs st' !! j = Some x' → jkilled x' = true → c ∈ jchildren x' → jobs st' !! c = Some y' →
  jkilled y' = true ∨ JobKill c ∈ new ++ ks.
Proof using Type*.
  intros Hx' Hk Hc Hy'. destruct (job_back j x' Hx') as (x & Hx & Lx). destruct (job_back c y' Hy') as (y & Hy & Ly).
  destruct (jkilled x) eqn:Ek.
  - destruct (i_kill_child _ _ Hinv j x c y Hx Ek (jl_children _ _ Lx c Hc) Hy) as [H|H]; [left; by apply Ly|].
    apply pending_cases in H as [E|H]; [|by right]. left. pose proof (s_promise _ _ _ _ Hok) as Hp.
    rewrite <-E in Hp. by apply Hp.
  - right. apply pending_new. by apply (s_new_kill _ _ _ _ Hok j x x' Hx Hx' Ek Hk).
Qed.

Lemma step_kill_proc j x' p y' :
  jobs st' !! j = Some x' → jkilled x' = true → p ∈ jprocesses x' → procs st' !! p = Some y' →
  is_exited (pstatus y') = true ∨ ∃ r, ProcExit p r ∈ new ++ ks.
Proof using Type*.
  intros Hx' Hk Hc Hy'. destruct (job_back j x' Hx') as (x & Hx & Lx). destruct (proc_back p y' Hy') as (y & Hy & Ly).
  destruct (jkilled x) eqn:Ek.
  - destruct (i_kill_proc _ _ Hinv j x p y Hx Ek (jl_processes _ _ Lx p Hc) Hy) as [H|[r H]]; [left; by apply Ly|].
    apply pending_cases in H as [E|H]; [|by right; exists r]. left. pose proof (s_promise _ _ _ _ Hok) as Hp.
    rewrite <-E in Hp. by apply Hp.
  - right. destruct (proj2 (s_new_kill _ _ _ _ Hok j x x' Hx Hx' Ek Hk) p Hc) as [r H]. exists r. by apply pending_new.
Qed.

Lemma step_exit_thread p x' t y' :
  procs st' !! p = Some x' → is_exited (pstatus x') = true → t ∈ pthreads x' → threads st' !! t = Some y' → dying y'.
Proof using Type*.
  intros Hx' He Ht Hy'. destruct (proc_back p x' Hx') as (x & Hx & Lx). destruct (thread_back t y' Hy') as (y & Hy & Ly).
  destruct (is_exited (pstatus x)) eqn:Ee.
  - apply Ly. apply (i_exit_thread _ _ Hinv p x t y); [done..| |done]. by apply (pl_threads _ _ Lx).
  - by apply (s_new_exit _ _ _ _ Hok p x x' t y').
Qed.

Lemma step_job_done j x' :
  jobs st' !! j = Some x' → jkilled x' = true → job_empty x' = true → terminated x' = true ∨ JobTerminate j ∈ new ++ ks.
Proof using Type*.
  intros Hx' Hk He. destruct (job_back j x' Hx') as (x & Hx & Lx).
  destruct (jkilled x && job_empty x) eqn:E.
  - apply andb_true_iff in E as [Ek Ee].
    destruct (i_job_done _ _ Hinv j x Hx Ek Ee) as [H|H]; [left; by apply Lx|].
    apply pending_cases in H as [E|H]; [|by right]. left. pose proof (s_promise _ _ _ _ Hok) as Hp.
    rewrite <-E in Hp. by apply Hp.
  - right. apply pending_new. by apply (s_new_done _ _ _ _ Hok j x x').
Qed.

Lemma step_job_term j x' :
  jobs st' !! j = Some x' → terminated x' = true → jkilled x' = true ∧ job_empty x' = true.
Proof using Type*.
  intros Hx' Ht. destruct (job_back j x' Hx') as (x & Hx & Lx).
  assert (jkilled x = true ∧ job_empty x = true) as [Hk He].
  { destruct (terminated x) eqn:E; [by apply (i_job_term _ _ Hinv j)|].
    destruct (s_new_term _ _ _ _ Hok j x x' Hx Hx' E Ht) as (? & ? & _). done. }
  split; [by apply Lx|by apply (job_le_empty x)].
Qed.

Lemma step_term_call j x' :
  JobTerminate j ∈ new ++ ks → jobs st' !! j = Some x' → jkilled x' = true ∧ job_empty x' = true.
Proof using Type*.
  intros [H|H]%elem_of_app Hx'; [by apply (s_call_term _ _ _ _ Hok j)|].
  destruct (job_back j x' Hx') as (x & Hx & Lx).
  destruct (i_term_call _ _ Hinv j x) as [? ?]; [by right|done|].
  split; [by apply Lx|by apply (job_le_empty x)].
Qed.

Lemma step_term_child j x' q y' :
  jobs st' !! j = Some x' → terminated x' = true → jparent x' = Some q → jobs st' !! q = Some y' →
  j ∉ jchildren y' ∨ RemoveChild q j ∈ new ++ ks.
Proof using Type*.
  intros Hx' Ht Hq Hy'. destruct (job_back j x' Hx') as (x & Hx & Lx). destruct (job_back q y' Hy') as (y & Hy & Ly).
  destruct (terminated x) eqn:E.
  - assert (jparent x = Some q) as Hq' by (by rewrite <-(jl_parent _ _ Lx)).
    destruct (i_term_child _ _ Hinv j x q y Hx E Hq' Hy) as [H|H].
    { left. intros Hin. apply H. by apply (jl_children _ _ Ly). }
    apply pending_cases in H as [Ek|H]; [|by right]. left. pose proof (s_promise _ _ _ _ Hok) as Hp.
    rewrite <-Ek in Hp. by apply Hp.
  - right. apply pending_new. by apply (s_new_term _ _ _ _ Hok j x x' Hx Hx' E Ht).
Qed.

Lemma step_proc_done p x' :
  procs st' !! p = Some x' → is_exited (pstatus x') = true → pthreads x' = [] →
  pterminated x' = true ∨ ProcTerminate p ∈ new ++ ks.
Proof using Type*.
  intros Hx' He Ht. destruct (proc_back p x' Hx') as (x & Hx & Lx).
  destruct (is_exited (pstatus x) && is_empty (pthreads x)) eqn:E.
  - apply andb_true_iff in E as [Ee Et]. apply is_empty_true in Et.
    destruct (i_proc_done _ _ Hinv p x Hx Ee Et) as [H|H]; [left; by apply Lx|].
    apply pending_cases in H as [Ek|H]; [|by right]. left. pose proof (s_promise _ _ _ _ Hok) as Hp.
    rewrite <-Ek in Hp. by apply Hp.
  - destruct (s_new_pdone _ _ _ _ Hok p x x' Hx Hx' He Ht E) as [|H]; [by left|right]. by apply pending_new.
Qed.

Lemma step_proc_term p x' :
  procs st' !! p = Some x' → pterminated x' = true → is_exited (pstatus x') = true ∧ pthreads x' = [].
Proof using Type*.
  intros Hx' Ht. destruct (proc_back p x' Hx') as (x & Hx & Lx). destruct (pterminated x) eqn:E.
  - destruct (i_proc_term _ _ Hinv p x Hx E) as [He Hth]. split; [by apply Lx|].
    apply subset_nil. rewrite <-Hth. apply Lx.
  - destruct (s_new_pterm _ _ _ _ Hok p x x' Hx Hx' E Ht) as (? & ? & _). done.
Qed.

Lemma step_pterm_call p x' : ProcTerminate p ∈ new ++ ks → procs st' !! p = Some x' → pthreads x' = [].
Proof using Type*.
  intros [H|H]%elem_of_app Hx'; [by apply (s_call_pterm _ _ _ _ Hok p)|].
  destruct (proc_back p x' Hx') as (x & Hx & Lx). apply subset_nil.
  rewrite <-(i_pterm_call _ _ Hinv p x); [apply Lx|by right|done].
Qed.

Lemma step_term_proc p x' y' :
  procs st' !! p = Some x' → pterminated x' = true → jobs st' !! pjob x' = Some y' →
  p ∉ jprocesses y' ∨ RemoveProcess (pjob x') p ∈ new ++ ks.
Proof using Type*.
  intros Hx' Ht Hy'. destruct (proc_back p x' Hx') as (x & Hx & Lx). destruct (job_back _ y' Hy') as (y & Hy & Ly).
  destruct (pterminated x) eqn:E.
  - rewrite (pl_job _ _ Lx) in *. destruct (i_term_proc _ _ Hinv p x y Hx E Hy) as [H|H].
    { left. intros Hin. apply H. by apply (jl_processes _ _ Ly). }
    apply pending_cases in H as [Ek|H]; [|by right]. left. pose proof (s_promise _ _ _ _ Hok) as Hp.
    rewrite <-Ek in Hp. by apply Hp.
  - right. apply pending_new. by apply (s_new_pterm _ _ _ _ Hok p x x' Hx Hx' E Ht).
Qed.

Lemma inv_step : inv (new ++ ks) st'.
Proof using Type*.
  split; [| | | | |exact step_kill_child|exact step_kill_proc|exact step_exit_thread|exact step_job_done
         |exact step_job_term|exact step_term_call|exact step_term_child|exact step_proc_done|exact step_proc_term
         |exact step_pterm_call|exact step_term_proc].
  - intros j x' q Hx' Hq. destruct (job_back j x' Hx') as (x & Hx & Lx). rewrite (jl_parent _ _ Lx) in Hq.
    destruct (i_parent _ _ Hinv j x q Hx Hq) as [Hlt [y Hy]]. split; [done|].
    destruct (job_fwd q y Hy) as (y' & ? & _). by exists y'.
  - intros p x' Hx'. destruct (proc_back p x' Hx') as (x & Hx & Lx). rewrite (pl_job _ _ Lx).
    destruct (i_pjob _ _ Hinv p x Hx) as [y Hy]. destruct (job_fwd _ y Hy) as (y' & ? & _). by exists y'.
  - intros j x' c Hx' Hc. destruct (job_back j x' Hx') as (x & Hx & Lx).
    destruct (i_children _ _ Hinv j x c Hx (jl_children _ _ Lx c Hc)) as [(y & Hy & Hq)|H].
    + left. destruct (job_fwd c y Hy) as (y' & ? & Ly). exists y'. by rewrite (jl_parent _ _ Ly).
    + apply pending_cases in H as [E|H]; [|by right]. pose proof (s_promise _ _ _ _ Hok) as Hp.
      rewrite <-E in Hp. by apply Hp in Hc.
  - intros j x' p Hx' Hp. destruct (job_back j x' Hx') as (x & Hx & Lx).
    destruct (i_procs _ _ Hinv j x p Hx (jl_processes _ _ Lx p Hp)) as (y & Hy & Hj).
    destruct (proc_fwd p y Hy) as (y' & ? & Ly). exists y'. by rewrite (pl_job _ _ Ly).
  - intros p x' t Hx' Ht. destruct (proc_back p x' Hx') as (x & Hx & Lx).
    destruct (i_threads _ _ Hinv p x t Hx (pl_threads _ _ Lx t Ht)) as (y & Hy & Hp).
    destruct (thread_fwd t y Hy) as (y' & ? & Ly). exists y'. by rewrite (tl_proc _ _ Ly).
Qed.
End inv_step.

(** ** Every method owes nothing *)
Lemma lookup_upd_job f j st i :
  jobs (upd_job f j st) !! i = if decide (i = j) then f <$> jobs st !! j else jobs st !! i.
Proof. simpl. destruct (decide (i = j)) as [->|]; [by rewrite lookup_alter_eq|by rewrite lookup_alter_ne]. Qed.

Lemma lookup_upd_proc f p st i :
  procs (upd_proc f p st) !! i = if decide (i = p) then f <$> procs st !! p else procs st !! i.
Proof. simpl. destruct (decide (i = p)) as [->|]; [by rewrite lookup_alter_eq|by rewrite lookup_alter_ne]. Qed.

#[export] Instance job_le_refl : Reflexive job_le.
Proof. by intros x. Qed.
#[export] Instance proc_le_refl : Reflexive proc_le.
Proof. by intros x. Qed.
#[export] Instance thread_le_refl : Reflexive thread_le.
Proof. by intros x. Qed.

(** A call that changes one job. *)
Lemma step_ok_job k new f j st :
  (∀ x, jobs st !! j = Some x → job_le x (f x)) →
  (∀ x, jobs st !! j = Some x →
     match k with
     | JobKill i => i = j ∧ jkilled (f x) = true
     | JobTerminate i => i = j ∧ terminated (f x) = true
     | RemoveChild i c => i = j ∧ c ∉ jchildren (f x)
     | RemoveProcess i p => i = j ∧ p ∉ jprocesses (f x)
     | RemoveThread _ _ => True
     | _ => False
     end) →
  (∀ x, jobs st !! j = Some x → jkilled x = false → jkilled (f x) = true →
     (∀ c, c ∈ jchildren (f x) → JobKill c ∈ new) ∧ (∀ p, p ∈ jprocesses (f x) → ∃ r, ProcExit p r ∈ new)) →
  (∀ x, jobs st !! j = Some x → jkilled (f x) = true → job_empty (f x) = true → jkilled x && job_empty x = false →
     JobTerminate j ∈ new) →
  (∀ x, jobs st !! j = Some x → terminated x = false → terminated (f x) = true →
     jkilled x = true ∧ job_empty x = true ∧ ∀ q, jparent (f x) = Some q → RemoveChild q j ∈ new) →
  (∀ x, jobs st !! j = Some x → ∀ i, JobTerminate i ∈ new → i = j ∧ jkilled (f x) = true ∧ job_empty (f x) = true) →
  (∀ p, ProcTerminate p ∉ new) →
  is_Some (jobs st !! j) →
  step_ok k new st (upd_job f j st).
Proof.
  intros Hle Hpr Hnk Hnd Hnt Hct Hcp [x0 Hx0].
  assert (∀ i x x', jobs st !! i = Some x → jobs (upd_job f j st) !! i = Some x' →
    (i = j ∧ x' = f x) ∨ (i ≠ j ∧ x' = x)) as Hcase.
  { intros i x x' Hx. rewrite lookup_upd_job. destruct (decide (i = j)) as [->|Hne].
    - rewrite Hx. intros [= <-]. by left.
    - rewrite Hx. intros [= <-]. by right. }
  split.
  - intros i. rewrite lookup_upd_job. destruct (decide (i = j)) as [->|]; [|reflexivity].
    rewrite Hx0. simpl. constructor. by apply Hle.
  - intros i. reflexivity.
  - intros i. reflexivity.
  - destruct k as [i|i|i c|i p|p r|p|p t]; try (by destruct (Hpr x0 Hx0)); try done.
    all: destruct (Hpr x0 Hx0) as [-> H]; intros x; rewrite lookup_upd_job, decide_True, Hx0 by done; by intros [= <-].
  - intros i x x' Hx Hx' E E'. destruct (Hcase i x x' Hx Hx') as [[-> ->]|[_ ->]]; [by apply Hnk|congruence].
  - intros i x x' Hx Hx' Hk He E. destruct (Hcase i x x' Hx Hx') as [[-> ->]|[_ ->]]; [by apply (Hnd x)|].
    rewrite Hk, He in E. done.
  - intros i x x' Hx Hx' E E'. destruct (Hcase i x x' Hx Hx') as [[-> ->]|[_ ->]]; [by apply Hnt|congruence].
  - intros p x x' t y Hx Hx'. simpl in Hx'. congruence.
  - intros p x x' Hx Hx' He Ht E. simpl in Hx'. simplify_eq. rewrite He, Ht in E. done.
  - intros p x x' Hx Hx'. simpl in Hx'. congruence.
  - intros i x Hin. rewrite lookup_upd_job. destruct (Hct x0 Hx0 i Hin) as (-> & Hk & He).
    rewrite decide_True, Hx0 by done. by intros [= <-].
  - intros p x Hin. by destruct (Hcp p).
Qed.

(** A call that changes one process, and threads. *)
Lemma step_ok_proc k new f p st ths :
  (∀ x, procs st !! p = Some x → proc_le x (f x)) →
  (∀ t, option_Forall2 thread_le (threads st !! t) (ths !! t)) →
  (∀ x, procs st !! p = Some x →
     match k with
     | ProcExit i _ => i = p ∧ is_exited (pstatus (f x)) = true
     | ProcTerminate i => i = p ∧ pterminated (f x) = true
     | RemoveThread _ _ => True
     | _ => False
     end) →
  (∀ x, procs st !! p = Some x → is_exited (pstatus x) = false → is_exited (pstatus (f x)) = true →
     ∀ t y, t ∈ pthreads (f x) → ths !! t = Some y → dying y) →
  (∀ x, procs st !! p = Some x → is_exited (pstatus (f x)) = true → pthreads (f x) = [] →
     is_exited (pstatus x) && is_empty (pthreads x) = false → pterminated (f x) = true ∨ ProcTerminate p ∈ new) →
  (∀ x, procs st !! p = Some x → pterminated x = false → pterminated (f x) = true →
     is_exited (pstatus (f x)) = true ∧ pthreads (f x) = [] ∧ RemoveProcess (pjob (f x)) p ∈ new) →
  (∀ x, procs st !! p = Some x → ∀ i, ProcTerminate i ∈ new → i = p ∧ pthreads (f x) = []) →
  (∀ j, JobTerminate j ∉ new) →
  is_Some (procs st !! p) →
  step_ok k new st (mkTasks (jobs st) (alter f p (procs st)) ths).
Proof.
  intros Hle Hth Hpr Hne Hnd Hnt Hct Hcj [x0 Hx0].
  assert (∀ i, alter f p (procs st) !! i = if decide (i = p) then f <$> procs st !! p else procs st !! i) as Hl
    by (apply (lookup_upd_proc f p st)).
  assert (∀ i x x', procs st !! i = Some x → alter f p (procs st) !! i = Some x' →
    (i = p ∧ x' = f x) ∨ (i ≠ p ∧ x' = x)) as Hcase.
  { intros i x x' Hx. rewrite Hl. destruct (decide (i = p)) as [->|].
    - rewrite Hx. intros [= <-]. by left.
    - rewrite Hx. intros [= <-]. by right. }
  split; simpl.
  - intros i. reflexivity.
  - intros i. rewrite Hl. destruct (decide (i = p)) as [->|]; [|reflexivity].
    rewrite Hx0. simpl. constructor. by apply Hle.
  - done.
  - destruct k as [i|i|i c|i i'|i r|i|i t]; try (by destruct (Hpr x0 Hx0)); try done.
    all: destruct (Hpr x0 Hx0) as [-> H]; intros x; rewrite Hl, decide_True, Hx0 by done; by intros [= <-].
  - intros j x x' Hx Hx'. congruence.
  - intros j x x' Hx Hx' Hk He E. simplify_eq. rewrite Hk, He in E. done.
  - intros j x x' Hx Hx'. congruence.
  - intros i x x' t y Hx Hx' E E'. destruct (Hcase i x x' Hx Hx') as [[-> ->]|[_ ->]]; [by apply (Hne x)|congruence].
  - intros i x x' Hx Hx' He Ht E. destruct (Hcase i x x' Hx Hx') as [[-> ->]|[_ ->]]; [by apply Hnd|].
    rewrite He, Ht in E. done.
  - intros i x x' Hx Hx' E E'. destruct (Hcase i x x' Hx Hx') as [[-> ->]|[_ ->]]; [by apply Hnt|congruence].
  - intros j x Hin. by destruct (Hcj j).
  - intros i x Hin. rewrite Hl. destruct (Hct x0 Hx0 i Hin) as [-> Ht].
    rewrite decide_True, Hx0 by done. by intros [= <-].
Qed.

(** A call on an object that is gone, or that has nothing left to do. *)
Lemma step_ok_nothing k st :
  match k with
  | JobKill j => ∀ x, jobs st !! j = Some x → jkilled x = true
  | JobTerminate j => jobs st !! j = None
  | RemoveChild j c => jobs st !! j = None
  | RemoveProcess j p => jobs st !! j = None
  | ProcExit p _ => ∀ x, procs st !! p = Some x → is_exited (pstatus x) = true
  | ProcTerminate p => procs st !! p = None
  | RemoveThread _ _ => True
  end → step_ok k [] st st.
Proof.
  intros Hk. split; try (intros i; reflexivity); try (intros * ?%elem_of_nil; done).
  - destruct k; try done; intros x Hx; congruence.
  - intros; congruence.
  - intros j x x' Hx Hx' H1 H2 E. simplify_eq. rewrite H1, H2 in E. done.
  - intros; congruence.
  - intros; congruence.
  - intros p x x' Hx Hx' H1 H2 E. simplify_eq. rewrite H1, H2 in E. done.
  - intros; congruence.
Qed.

Lemma terminated_with x : terminated (with_terminated x) = true.
Proof. unfold terminated, with_terminated. simpl. by sigbits. Qed.
Lemma pterminated_with x : pterminated (with_pterminated x) = true.
Proof. unfold pterminated, with_pterminated. simpl. by sigbits. Qed.

Lemma without_spec x y l : y ∈ without x l ↔ y ≠ x ∧ y ∈ l.
Proof. unfold without. by rewrite list_elem_of_filter. Qed.

Lemma job_kill_ok j ks st : inv (JobKill j :: ks) st → step_ok (JobKill j) (snd (job_kill j st)) st (fst (job_kill j st)).
Proof.
  intros _. unfold job_kill. destruct (jobs st !! j) as [x|] eqn:Hx.
  2: { simpl; apply step_ok_nothing. intros; congruence. }
  destruct (jkilled x) eqn:Hk; [simpl; apply step_ok_nothing; intros; congruence|].
  assert (∀ cs ps : list nat, ∀ i : nat, JobTerminate i ∉ (JobKill <$> cs) ++ ((λ p, ProcExit p TASK_RETCODE_SYSCALL_KILL) <$> ps)) as Hnt.
  { intros cs ps i [(? & ? & _)%list_elem_of_fmap|(? & ? & _)%list_elem_of_fmap]%elem_of_app; done. }
  destruct (is_empty (jchildren x) && is_empty (jprocesses x)) eqn:He; simpl.
  - apply andb_true_iff in He as [Hc%is_empty_true Hp%is_empty_true].
    apply step_ok_job; try (intros x' Hx'; simplify_eq); simpl; rewrite ?Hc, ?Hp, ?Hk; try done.
    + intros _. split; intros ? ?%elem_of_nil; done.
    + intros _ _ _. by left.
    + intros E E'. change (terminated x = true) in E'. congruence.
    + intros i [= ->]%list_elem_of_singleton. unfold job_empty. simpl. by rewrite Hc, Hp.
    + by apply list_elem_of_singleton in Hx'.
  - apply step_ok_job; try (intros x' Hx'; simplify_eq); simpl; rewrite ?Hk; try done.
    + intros _ _. split.
      * intros c Hc. apply elem_of_app. left. by apply list_elem_of_fmap_2.
      * intros p Hp. exists TASK_RETCODE_SYSCALL_KILL. apply elem_of_app. right.
        by apply (list_elem_of_fmap_2 (λ p, ProcExit p TASK_RETCODE_SYSCALL_KILL)).
    + intros _ [Hp Hc]%job_empty_true _. simpl in *. by rewrite Hp, Hc in He.
    + intros E E'. change (terminated x = true) in E'. congruence.
    + intros i Hin. by destruct (Hnt (jchildren x) (jprocesses x) i).
    + apply elem_of_app in Hx' as [(? & ? & _)%list_elem_of_fmap|(? & ? & _)%list_elem_of_fmap]; done.
Qed.

Lemma job_terminate_ok j ks st :
  inv (JobTerminate j :: ks) st → step_ok (JobTerminate j) (snd (job_terminate j st)) st (fst (job_terminate j st)).
Proof.
  intros Hinv. unfold job_terminate. destruct (jobs st !! j) as [x|] eqn:Hx; simpl.
  2: { by apply step_ok_nothing. }
  destruct (i_term_call _ _ Hinv j x) as [Hk He]; [by left|done|].
  apply step_ok_job; try (intros x' Hx'; simplify_eq).
  - split; try done. intros _. apply terminated_with.
  - split; [done|apply terminated_with].
  - simpl. congruence.
  - intros _ _. by rewrite Hk, He.
  - intros _ _. split_and!; [done..|]. simpl. intros q ->. by left.
  - intros i. destruct (jparent x); [intros ?%list_elem_of_singleton|intros ?%elem_of_nil]; done.
  - destruct (jparent x); [apply list_elem_of_singleton in Hx'|apply elem_of_nil in Hx']; done.
  - done.
Qed.

(** Leaving the list of children or processes of a job. *)
Lemma terminate_if_done_ok k f j st :
  (∀ x, jobs st !! j = Some x → job_le x (f x)) →
  (∀ x, jobs st !! j = Some x →
     match k with
     | RemoveChild i c => i = j ∧ c ∉ jchildren (f x)
     | RemoveProcess i p => i = j ∧ p ∉ jprocesses (f x)
     | _ => False
     end) →
  (∀ x, jkilled (f x) = jkilled x ∧ terminated (f x) = terminated x) →
  (jobs st !! j = None → match k with RemoveChild i _ | RemoveProcess i _ => i = j | _ => False end) →
  step_ok k (terminate_if_done j (upd_job f j st)) st (upd_job f j st).
Proof.
  intros Hle Hpr Hf Hnone. unfold terminate_if_done. rewrite lookup_upd_job, decide_True by done.
  destruct (jobs st !! j) as [x|] eqn:Hx; simpl.
  - destruct (Hf x) as [Ek Et].
    set (new := if jkilled (f x) && job_empty (f x) then [JobTerminate j] else []).
    rewrite ?Hx in *.
    assert (∀ a, a ∈ new → a = JobTerminate j ∧ jkilled (f x) = true ∧ job_empty (f x) = true) as Hnew.
    { subst new. intros a. destruct (jkilled (f x) && job_empty (f x)) eqn:E; [|by intros ?%elem_of_nil].
      intros ->%list_elem_of_singleton. by apply andb_true_iff in E as [-> ->]. }
    apply step_ok_job; try (intros x' Hx'; simplify_eq).
    + by apply Hle.
    + specialize (Hpr x eq_refl). by destruct k.
    + congruence.
    + intros Hk He _. subst new. rewrite Hk, He. by left.
    + congruence.
    + intros i Hi. apply Hnew in Hi as ([= ->] & ? & ?). done.
    + by apply Hnew in Hx' as [? _].
    + done.
  - replace (upd_job f j st) with st.
    + apply step_ok_nothing. specialize (Hnone eq_refl). destruct k; try done; by subst.
    + unfold upd_job. rewrite alter_id; [by destruct st|]. congruence.
Qed.

Lemma remove_child_ok j c st : step_ok (RemoveChild j c) (snd (remove_child j c st)) st (fst (remove_child j c st)).
Proof.
  unfold remove_child. simpl. apply terminate_if_done_ok; try done.
  - intros x _. split; try done. simpl. intros y Hy. by apply without_spec in Hy as [_ ?].
  - intros x _. split; [done|]. simpl. rewrite without_spec. naive_solver.
Qed.

Lemma remove_process_ok j p st :
  step_ok (RemoveProcess j p) (snd (remove_process j p st)) st (fst (remove_process j p st)).
Proof.
  unfold remove_process. simpl. apply terminate_if_done_ok; try done.
  - intros x _. split; try done. simpl. intros y Hy. by apply without_spec in Hy as [_ ?].
  - intros x _. split; [done|]. simpl. rewrite without_spec. naive_solver.
Qed.

Lemma kill_all_spec ts st :
  let st' := foldl (λ st t, kill_thread t st) st ts in
  jobs st' = jobs st ∧ procs st' = procs st ∧
  (∀ t, option_Forall2 thread_le (threads st !! t) (threads st' !! t)) ∧
  (∀ t y, t ∈ ts → threads st' !! t = Some y → dying y).
Proof.
  revert st. induction ts as [|t ts IH]; intros st; simpl.
  { split_and!; try done. intros ? ? ?%elem_of_nil. done. }
  destruct (IH (kill_thread t st)) as (Ej & Ep & Hle & Hd).
  assert (∀ u, threads (kill_thread t st) !! u =
    if decide (u = t) then (λ x, with_life (kill_life (tlife x)) x) <$> threads st !! t else threads st !! u) as Hl.
  { intros u. simpl. destruct (decide (u = t)) as [->|]; [by rewrite lookup_alter_eq|by rewrite lookup_alter_ne]. }
  assert (∀ y, dying (with_life (kill_life (tlife y)) y)) as Hdk.
  { intros y. unfold dying, kill_life. simpl. destruct (decide _); [by right|by left]. }
  assert (∀ u, option_Forall2 thread_le (threads st !! u) (threads (kill_thread t st) !! u)) as Hle1.
  { intros u. rewrite Hl. destruct (decide (u = t)) as [->|]; [|reflexivity].
    destruct (threads st !! t); simpl; constructor. by split. }
  split_and!; [done..| |].
  - intros u. specialize (Hle u). specialize (Hle1 u). revert Hle1 Hle.
    destruct 1 as [y y' [P1 D1]|]; inversion 1 as [? y'' [P2 D2]|]; subst; constructor.
    split; [congruence|auto].
  - intros u y Hu Hy. destruct (decide (u ∈ ts)) as [|Hn]; [by apply (Hd u)|].
    apply elem_of_cons in Hu as [->|]; [|done].
    destruct (Forall2_back _ _ _ y (Hle t) Hy) as (y1 & Hy1 & [_ D]). apply D.
    rewrite Hl, decide_True in Hy1 by done. apply fmap_Some in Hy1 as (y0 & _ & ->). apply Hdk.
Qed.

Lemma proc_exit_ok p r st : step_ok (ProcExit p r) (snd (proc_exit p r st)) st (fst (proc_exit p r st)).
Proof.
  unfold proc_exit. destruct (procs st !! p) as [x|] eqn:Hx; simpl.
  2: { apply step_ok_nothing. intros; congruence. }
  destruct (is_exited (pstatus x)) eqn:He; simpl; [apply step_ok_nothing; intros; congruence|].
  destruct (kill_all_spec (pthreads x) st) as (Ej & Ep & Hle & Hd). set (st1 := foldl _ _ _) in *.
  unfold upd_proc. rewrite Ej, Ep. apply step_ok_proc; try (intros x' Hx'; simplify_eq); try done.
  - simpl. intros _ Ht _. right. rewrite Ht. by left.
  - intros E E'. change (pterminated x = true) in E'. congruence.
  - intros i. destruct (is_empty (pthreads x)) eqn:Et; [|by intros ?%elem_of_nil].
    intros [= ->]%list_elem_of_singleton. split; [done|]. by apply is_empty_true.
  - destruct (is_empty (pthreads x)); [apply list_elem_of_singleton in Hx'|apply elem_of_nil in Hx']; done.
Qed.

Lemma proc_terminate_ok p ks st :
  inv (ProcTerminate p :: ks) st →
  step_ok (ProcTerminate p) (snd (proc_terminate p st)) st (fst (proc_terminate p st)).
Proof.
  intros Hinv. unfold proc_terminate. destruct (procs st !! p) as [x|] eqn:Hx; simpl.
  2: { by apply step_ok_nothing. }
  pose proof (i_pterm_call _ _ Hinv p x ltac:(by left) Hx) as Ht.
  set (crit := match pcritical x with Some _ => _ | None => _ end).
  assert (∀ a, a ∈ crit → ∃ q, a = JobKill q) as Hcrit.
  { subst crit. intros a. destruct (pcritical x) as [[q nz]|]; [|by intros ?%elem_of_nil].
    destruct (negb nz || _); [|by intros ?%elem_of_nil]. intros ->%list_elem_of_singleton. by exists q. }
  apply step_ok_proc; try (intros x' Hx'; simplify_eq); try done.
  - split; try done. intros _. apply pterminated_with.
  - split; [done|apply pterminated_with].
  - simpl. intros _ _ t y. rewrite Ht. by intros ?%elem_of_nil.
  - intros _ _ _. left. apply pterminated_with.
  - intros _ _. split_and!; [done..|]. by left.
  - intros i [|(? & ?)%Hcrit]%elem_of_cons; done.
  - apply elem_of_cons in Hx' as [|(? & ?)%Hcrit]; done.
Qed.

Lemma remove_thread_ok p t st :
  step_ok (RemoveThread p t) (snd (remove_thread p t st)) st (fst (remove_thread p t st)).
Proof.
  unfold remove_thread. cbv zeta. rewrite lookup_upd_proc, decide_True by done.
  destruct (procs st !! p) as [x|] eqn:Hx; simpl.
  - set (new := if is_empty (without t (pthreads x)) then [ProcTerminate p] else []).
    assert (∀ a, a ∈ new → a = ProcTerminate p ∧ without t (pthreads x) = []) as Hnew.
    { subst new. intros a. destruct (is_empty (without t (pthreads x))) eqn:E; [|by intros ?%elem_of_nil].
      intros ->%list_elem_of_singleton. split; [done|]. by apply is_empty_true. }
    apply step_ok_proc; try (intros x' Hx'; simplify_eq); try done.
    + split; try done. simpl. intros y Hy. by apply without_spec in Hy as [_ ?].
    + simpl. congruence.
    + simpl. intros _ Ht _. right. subst new. rewrite Ht. by left.
    + intros E E'. change (pterminated x = true) in E'. congruence.
    + intros i Hi. apply Hnew in Hi as [[= ->] ?]. done.
    + by apply Hnew in Hx' as [? _].
  - replace (upd_proc _ p st) with st; [by apply step_ok_nothing|].
    unfold upd_proc. rewrite alter_id; [by destruct st|]. congruence.
Qed.

Lemma perform_ok k ks st : inv (k :: ks) st → step_ok k (snd (perform k st)) st (fst (perform k st)).
Proof.
  destruct k; simpl.
  - apply job_kill_ok.
  - apply job_terminate_ok.
  - intros _. apply remove_child_ok.
  - intros _. apply remove_process_ok.
  - intros _. apply proc_exit_ok.
  - apply proc_terminate_ok.
  - intros _. apply remove_thread_ok.
Qed.

Lemma run_inv fuel ks st st' : inv ks st → run fuel ks st = Some st' → inv [] st'.
Proof.
  revert ks st. induction fuel as [|fuel IH]; intros [|k ks] st Hinv E; simpl in E; simplify_eq; try done.
  pose proof (perform_ok k ks st Hinv) as Hok. destruct (perform k st) as [st1 new]. simpl in Hok.
  eapply IH; [|exact E]. by eapply inv_step.
Qed.

(** ** Entry points keep the invariant *)
Lemma inv_more ks ks' st :
  inv ks st → ks ⊆ ks' →
  (∀ j, JobTerminate j ∈ ks' → JobTerminate j ∈ ks) → (∀ p, ProcTerminate p ∈ ks' → ProcTerminate p ∈ ks) →
  inv ks' st.
Proof.
  intros Hinv Hsub Hj Hp. split; intros *.
  - apply (i_parent _ _ Hinv).
  - apply (i_pjob _ _ Hinv).
  - intros Hx Hc. destruct (i_children _ _ Hinv _ _ _ Hx Hc); [by left|right; by apply Hsub].
  - apply (i_procs _ _ Hinv).
  - apply (i_threads _ _ Hinv).
  - intros Hx Hk Hc Hy. destruct (i_kill_child _ _ Hinv _ _ _ _ Hx Hk Hc Hy); [by left|right; by apply Hsub].
  - intros Hx Hk Hc Hy. destruct (i_kill_proc _ _ Hinv _ _ _ _ Hx Hk Hc Hy) as [|[r ?]]; [by left|right; exists r; by apply Hsub].
  - apply (i_exit_thread _ _ Hinv).
  - intros Hx Hk He. destruct (i_job_done _ _ Hinv _ _ Hx Hk He); [by left|right; by apply Hsub].
  - apply (i_job_term _ _ Hinv).
  - intros H. by apply (i_term_call _ _ Hinv), Hj.
  - intros Hx Ht Hq Hy. destruct (i_term_child _ _ Hinv _ _ _ _ Hx Ht Hq Hy); [by left|right; by apply Hsub].
  - intros Hx He Ht. destruct (i_proc_done _ _ Hinv _ _ Hx He Ht); [by left|right; by apply Hsub].
  - apply (i_proc_term _ _ Hinv).
  - intros H. by apply (i_pterm_call _ _ Hinv), Hp.
  - intros Hx Ht Hy. destruct (i_term_proc _ _ Hinv _ _ _ Hx Ht Hy); [by left|right; by apply Hsub].
Qed.

Lemma inv_push k ks st :
  inv ks st → (∀ j, k ≠ JobTerminate j) → (∀ p, k ≠ ProcTerminate p) → inv (k :: ks) st.
Proof.
  intros Hinv Hj Hp. apply (inv_more ks); [done|..].
  - intros a Ha. by right.
  - intros j [E|?]%elem_of_cons; [by destruct (Hj j)|done].
  - intros p [E|?]%elem_of_cons; [by destruct (Hp p)|done].
Qed.

(** A change from outside that is one of a method without new calls. *)
Lemma inv_quiet ks st st' : inv ks st → step_ok (RemoveThread 0 0) [] st st' → inv ks st'.
Proof.
  intros Hinv Hok. apply (inv_step (RemoveThread 0 0) [] ks st st'); [|done]. by apply inv_push.
Qed.

Lemma quiet_job f j ks st :
  inv ks st →
  (∀ x, jparent (f x) = jparent x ∧ jchildren (f x) = jchildren x ∧ jprocesses (f x) = jprocesses x ∧
        jkilled (f x) = jkilled x ∧ jsignal (f x) = jsignal x) →
  inv ks (upd_job f j st).
Proof.
  intros Hinv Hf. destruct (jobs st !! j) as [x0|] eqn:Hx0.
  2: { replace (upd_job f j st) with st; [done|]. unfold upd_job. rewrite alter_id; [by destruct st|]. congruence. }
  apply (inv_quiet _ st); [done|]. apply step_ok_job; try done.
  all: try (intros x Hx; destruct (Hf x) as (E1 & E2 & E3 & E4 & E5)).
  - split; unfold terminated; rewrite ?E1, ?E2, ?E3, ?E4, ?E5; done.
  - congruence.
  - unfold job_empty. rewrite E2, E3, E4. by intros -> ->.
  - unfold terminated. rewrite E5. congruence.
  - by intros i ?%elem_of_nil.
  - by intros i ?%elem_of_nil.
Qed.

Lemma quiet_proc f p ks st :
  inv ks st →
  (∀ x, pjob (f x) = pjob x ∧ pthreads (f x) = pthreads x ∧ pstatus (f x) = pstatus x ∧ psignal (f x) = psignal x) →
  inv ks (upd_proc f p st).
Proof.
  intros Hinv Hf. destruct (procs st !! p) as [x0|] eqn:Hx0.
  2: { replace (upd_proc f p st) with st; [done|]. unfold upd_proc. rewrite alter_id; [by destruct st|]. congruence. }
  apply (inv_quiet _ st); [done|]. apply step_ok_proc; try done.
  all: try (intros x Hx; destruct (Hf x) as (E1 & E2 & E3 & E4)).
  - split; unfold pterminated; rewrite ?E1, ?E2, ?E3, ?E4; done.
  - congruence.
  - rewrite E2, E3. by intros -> ->.
  - unfold pterminated. rewrite E4. congruence.
  - by intros i ?%elem_of_nil.
  - by intros i ?%elem_of_nil.
Qed.

Lemma quiet_threads ths ks st :
  inv ks st → (∀ t, option_Forall2 thread_le (threads st !! t) (ths !! t)) →
  inv ks (mkTasks (jobs st) (procs st) ths).
Proof.
  intros Hinv Hle. apply (inv_quiet _ st); [done|]. split; simpl; try (intros i; reflexivity); try (by intros * ?%elem_of_nil); try done.
  - congruence.
  - intros j x x' Hx Hx' H1 H2 E. simplify_eq. by rewrite H1, H2 in E.
  - congruence.
  - congruence.
  - intros j x x' Hx Hx' H1 H2 E. simplify_eq. by rewrite H1, H2 in E.
  - congruence.
Qed.

(** Growth from outside: new objects are neither killed nor finished, and only objects that
    are not killed or exited gain members. *)
Record job_grow st st' j (x x' : Job) : Prop := {
  jg_same : jparent x' = jparent x ∧ jkilled x' = jkilled x ∧ jsignal x' = jsignal x;
  jg_killed : jkilled x = true → jchildren x' = jchildren x ∧ jprocesses x' = jprocesses x;
  jg_children c : c ∈ jchildren x' → c ∈ jchildren x ∨
    jobs st !! c = None ∧ ∃ y, jobs st' !! c = Some y ∧ jparent y = Some j;
  jg_processes p : p ∈ jprocesses x' → p ∈ jprocesses x ∨
    procs st !! p = None ∧ ∃ y, procs st' !! p = Some y ∧ pjob y = j
}.
Record proc_grow st st' p (x x' : Process) : Prop := {
  pg_same : pjob x' = pjob x ∧ is_exited (pstatus x') = is_exited (pstatus x) ∧ psignal x' = psignal x;
  pg_exited : is_exited (pstatus x) = true → pthreads x' = pthreads x;
  pg_threads t : t ∈ pthreads x' → t ∈ pthreads x ∨
    threads st !! t = None ∧ ∃ y, threads st' !! t = Some y ∧ tproc y = p
}.
Definition fresh_job st' j (x : Job) : Prop :=
  jkilled x = false ∧ terminated x = false ∧ jchildren x = [] ∧ jprocesses x = [] ∧
  ∀ q, jparent x = Some q → (q < j)%nat ∧ is_Some (jobs st' !! q).
Definition fresh_proc st' (x : Process) : Prop :=
  is_exited (pstatus x) = false ∧ pterminated x = false ∧ pthreads x = [] ∧ is_Some (jobs st' !! pjob x).

Record grow st st' : Prop := {
  g_jobs j x' : jobs st' !! j = Some x' →
    (∃ x, jobs st !! j = Some x ∧ job_grow st st' j x x') ∨ jobs st !! j = None ∧ fresh_job st' j x';
  g_jobs_old j x : jobs st !! j = Some x → ∃ x', jobs st' !! j = Some x' ∧ job_grow st st' j x x';
  g_procs p x' : procs st' !! p = Some x' →
    (∃ x, procs st !! p = Some x ∧ proc_grow st st' p x x') ∨ procs st !! p = None ∧ fresh_proc st' x';
  g_procs_old p x : procs st !! p = Some x → ∃ x', procs st' !! p = Some x' ∧ proc_grow st st' p x x';
  g_threads t y' : threads st' !! t = Some y' →
    (∃ y, threads st !! t = Some y ∧ thread_le y y') ∨ threads st !! t = None;
  g_threads_old t y : threads st !! t = Some y → ∃ y', threads st' !! t = Some y' ∧ thread_le y y'
}.

(** Pending calls do not concern the new jobs, and a process that is about to terminate gains no thread. *)
Definition apart (ks : list call) st st' : Prop :=
  (∀ c, jobs st !! c = None → is_Some (jobs st' !! c) → JobTerminate c ∉ ks ∧ ∀ j, RemoveChild j c ∉ ks) ∧
  (∀ p x x', ProcTerminate p ∈ ks → procs st !! p = Some x → procs st' !! p = Some x' → pthreads x' = pthreads x).

Section inv_grow.
Context (ks : list call) (st st' : tasks).
Hypothesis Hinv : inv ks st.
Hypothesis Hg : grow st st'.
Hypothesis Ha : apart ks st st'.

Lemma job_grow_killed j x' :
  jobs st' !! j = Some x' → jkilled x' = true →
  ∃ x, jobs st !! j = Some x ∧ jkilled x = true ∧ jchildren x' = jchildren x ∧ jprocesses x' = jprocesses x ∧
       jsignal x' = jsignal x ∧ jparent x' = jparent x.
Proof using Type*.
  intros Hx' Hk. destruct (g_jobs _ _ Hg j x' Hx') as [(x & Hx & G)|[_ [Hf _]]]; [|congruence].
  destruct (jg_same _ _ _ _ _ G) as (Ep & Ek & Es). exists x. rewrite <-Ek.
  destruct (jg_killed _ _ _ _ _ G) as [? ?]; [congruence|]. done.
Qed.

Lemma proc_grow_exited p x' :
  procs st' !! p = Some x' → is_exited (pstatus x') = true →
  ∃ x, procs st !! p = Some x ∧ is_exited (pstatus x) = true ∧ pthreads x' = pthreads x ∧
       psignal x' = psignal x ∧ pjob x' = pjob x.
Proof using Type*.
  intros Hx' He. destruct (g_procs _ _ Hg p x' Hx') as [(x & Hx & G)|[_ [Hf _]]]; [|congruence].
  destruct (pg_same _ _ _ _ _ G) as (Ej & Ee & Es). exists x. rewrite <-Ee.
  split_and!; try done. apply (pg_exited _ _ _ _ _ G). congruence.
Qed.

Lemma job_grow_terminated j x' :
  jobs st' !! j = Some x' → terminated x' = true →
  ∃ x, jobs st !! j = Some x ∧ terminated x = true ∧ jkilled x' = true ∧ job_empty x' = true ∧ jparent x' = jparent x.
Proof using Type*.
  intros Hx' Ht. destruct (g_jobs _ _ Hg j x' Hx') as [(x & Hx & G)|[_ (_ & Hf & _)]]; [|congruence].
  destruct (jg_same _ _ _ _ _ G) as (Ep & Ek & Es).
  assert (terminated x = true) as Htx by (unfold terminated in *; congruence).
  destruct (i_job_term _ _ Hinv j x Hx Htx) as [Hk He].
  destruct (jg_killed _ _ _ _ _ G Hk) as [Ec Epr]. exists x. unfold job_empty in *. rewrite Ek, Ec, Epr. done.
Qed.

Lemma proc_grow_terminated p x' :
  procs st' !! p = Some x' → pterminated x' = true →
  ∃ x, procs st !! p = Some x ∧ pterminated x = true ∧ is_exited (pstatus x') = true ∧ pthreads x' = [] ∧ pjob x' = pjob x.
Proof using Type*.
  intros Hx' Ht. destruct (g_procs _ _ Hg p x' Hx') as [(x & Hx & G)|[_ (_ & Hf & _)]]; [|congruence].
  destruct (pg_same _ _ _ _ _ G) as (Ej & Ee & Es).
  assert (pterminated x = true) as Htx by (unfold pterminated in *; congruence).
  destruct (i_proc_term _ _ Hinv p x Hx Htx) as [He Hth]. exists x. rewrite Ee, Ej.
  split_and!; try done. rewrite <-Hth. by apply (pg_exited _ _ _ _ _ G).
Qed.

Lemma grow_structure :
  (∀ j x q, jobs st' !! j = Some x → jparent x = Some q → (q < j)%nat ∧ is_Some (jobs st' !! q)) ∧
  (∀ p x, procs st' !! p = Some x → is_Some (jobs st' !! pjob x)) ∧
  (∀ j x c, jobs st' !! j = Some x → c ∈ jchildren x → (∃ y, jobs st' !! c = Some y ∧ jparent y = Some j) ∨ RemoveChild j c ∈ ks) ∧
  (∀ j x p, jobs st' !! j = Some x → p ∈ jprocesses x → ∃ y, procs st' !! p = Some y ∧ pjob y = j) ∧
  (∀ p x t, procs st' !! p = Some x → t ∈ pthreads x → ∃ y, threads st' !! t = Some y ∧ tproc y = p).
Proof using Type*.
  assert (∀ q, is_Some (jobs st !! q) → is_Some (jobs st' !! q)) as Hq.
  { intros q [y Hy]. destruct (g_jobs_old _ _ Hg q y Hy) as (y' & ? & _). by exists y'. }
  split_and!.
  - intros j x' q Hx' Hp. destruct (g_jobs _ _ Hg j x' Hx') as [(x & Hx & G)|[_ (_ & _ & _ & _ & Hf)]]; [|by apply Hf].
    destruct (jg_same _ _ _ _ _ G) as (Ep & _ & _). rewrite Ep in Hp.
    destruct (i_parent _ _ Hinv j x q Hx Hp) as [? ?]. auto.
  - intros p x' Hx'. destruct (g_procs _ _ Hg p x' Hx') as [(x & Hx & G)|[_ (_ & _ & _ & Hf)]]; [|done].
    destruct (pg_same _ _ _ _ _ G) as (-> & _ & _). by apply Hq, (i_pjob _ _ Hinv p x).
  - intros j x' c Hx' Hc. destruct (g_jobs _ _ Hg j x' Hx') as [(x & Hx & G)|[_ (_ & _ & E & _)]].
    2: { rewrite E in Hc. by apply elem_of_nil in Hc. }
    destruct (jg_children _ _ _ _ _ G c Hc) as [Hc'|[_ ?]]; [|by left].
    destruct (i_children _ _ Hinv j x c Hx Hc') as [(y & Hy & Hp)|?]; [left|by right].
    destruct (g_jobs_old _ _ Hg c y Hy) as (y' & Hy' & Gy). exists y'. split; [done|].
    destruct (jg_same _ _ _ _ _ Gy) as (-> & _ & _). done.
  - intros j x' p Hx' Hp. destruct (g_jobs _ _ Hg j x' Hx') as [(x & Hx & G)|[_ (_ & _ & _ & E & _)]].
    2: { rewrite E in Hp. by apply elem_of_nil in Hp. }
    destruct (jg_processes _ _ _ _ _ G p Hp) as [Hp'|[_ ?]]; [|done].
    destruct (i_procs _ _ Hinv j x p Hx Hp') as (y & Hy & Hj).
    destruct (g_procs_old _ _ Hg p y Hy) as (y' & Hy' & Gy). exists y'. split; [done|].
    destruct (pg_same _ _ _ _ _ Gy) as (-> & _ & _). done.
  - intros p x' t Hx' Ht. destruct (g_procs _ _ Hg p x' Hx') as [(x & Hx & G)|[_ (_ & _ & E & _)]].
    2: { rewrite E in Ht. by apply elem_of_nil in Ht. }
    destruct (pg_threads _ _ _ _ _ G t Ht) as [Ht'|[_ ?]]; [|done].
    destruct (i_threads _ _ Hinv p x t Hx Ht') as (y & Hy & Hp).
    destruct (g_threads_old _ _ Hg t y Hy) as (y' & Hy' & Gy). exists y'. by rewrite (tl_proc _ _ Gy).
Qed.

(** Members that finished were not gained. *)
Lemma grow_left_jobs j x' q y' :
  jobs st' !! j = Some x' → terminated x' = true → jparent x' = Some q → jobs st' !! q = Some y' → j ∉ jchildren y' ∨ RemoveChild q j ∈ ks.
Proof using Type*.
  intros Hx' Ht Hq Hy'. destruct (decide (j ∈ jchildren y')) as [Hin|]; [right|by left]. destruct (job_grow_terminated j x' Hx' Ht) as (x & Hx & Htx & _ & _ & Ep).
  rewrite Ep in Hq. destruct (g_jobs _ _ Hg q y' Hy') as [(y & Hy & G)|[_ (_ & _ & E & _)]].
  2: { rewrite E in Hin. by apply elem_of_nil in Hin. }
  destruct (jg_children _ _ _ _ _ G j Hin) as [Hin'|[? _]]; [|congruence].
  by destruct (i_term_child _ _ Hinv j x q y Hx Htx Hq Hy).
Qed.

Lemma grow_left_procs p x' y' :
  procs st' !! p = Some x' → pterminated x' = true → jobs st' !! pjob x' = Some y' → p ∉ jprocesses y' ∨ RemoveProcess (pjob x') p ∈ ks.
Proof using Type*.
  intros Hx' Ht Hy'. destruct (decide (p ∈ jprocesses y')) as [Hin|]; [right|by left]. destruct (proc_grow_terminated p x' Hx' Ht) as (x & Hx & Htx & _ & _ & Ej).
  rewrite Ej in *. destruct (g_jobs _ _ Hg _ y' Hy') as [(y & Hy & G)|[_ (_ & _ & _ & E & _)]].
  2: { rewrite E in Hin. by apply elem_of_nil in Hin. }
  destruct (jg_processes _ _ _ _ _ G p Hin) as [Hin'|[? _]]; [|congruence].
  by destruct (i_term_proc _ _ Hinv p x y Hx Htx Hy).
Qed.

Lemma inv_grow : inv ks st'.
Proof using Type*.
  destruct grow_structure as (S1 & S2 & S3 & S4 & S5).
  split; [exact S1|exact S2|exact S3|exact S4|exact S5|..].
  - intros j x' c y' Hx' Hk Hc Hy'. destruct (job_grow_killed j x' Hx' Hk) as (x & Hx & Hkx & Ec & _).
    rewrite Ec in Hc. destruct (g_jobs _ _ Hg c y' Hy') as [(y & Hy & G)|[Hn _]].
    + destruct (jg_same _ _ _ _ _ G) as (_ & -> & _). by apply (i_kill_child _ _ Hinv j x c y).
    + destruct (i_children _ _ Hinv j x c Hx Hc) as [(y & ? & _)|H]; [congruence|]. by destruct (proj1 Ha c Hn ltac:(by eexists)) as [_ []%(λ f, f j)].
  - intros j x' p y' Hx' Hk Hp Hy'. destruct (job_grow_killed j x' Hx' Hk) as (x & Hx & Hkx & _ & Epr & _).
    rewrite Epr in Hp. destruct (g_procs _ _ Hg p y' Hy') as [(y & Hy & G)|[Hn _]].
    + destruct (pg_same _ _ _ _ _ G) as (_ & -> & _). by apply (i_kill_proc _ _ Hinv j x p y).
    + destruct (i_procs _ _ Hinv j x p Hx Hp) as (y & ? & _). congruence.
  - intros p x' t y' Hx' He Ht Hy'. destruct (proc_grow_exited p x' Hx' He) as (x & Hx & Hex & Et & _).
    rewrite Et in Ht. destruct (g_threads _ _ Hg t y' Hy') as [(y & Hy & G)|Hn].
    + apply G. by apply (i_exit_thread _ _ Hinv p x t y).
    + destruct (i_threads _ _ Hinv p x t Hx Ht) as (y & ? & _). congruence.
  - intros j x' Hx' Hk He. destruct (job_grow_killed j x' Hx' Hk) as (x & Hx & Hkx & Ec & Epr & Es & _).
    unfold job_empty, terminated in *. rewrite Es. rewrite Ec, Epr in He. by apply (i_job_done _ _ Hinv j x).
  - intros j x' Hx' Ht. destruct (job_grow_terminated j x' Hx' Ht) as (x & _ & _ & ? & ? & _). done.
  - intros j x' Hin Hx'. destruct (g_jobs _ _ Hg j x' Hx') as [(x & Hx & G)|[Hn _]]; [|by destruct (proj1 Ha j Hn ltac:(by eexists)) as []].
    destruct (i_term_call _ _ Hinv j x Hin Hx) as [Hk He]. destruct (jg_same _ _ _ _ _ G) as (_ & -> & _). unfold job_empty. by destruct (jg_killed _ _ _ _ _ G Hk) as [-> ->].
  - exact grow_left_jobs.
  - intros p x' Hx' He Ht. destruct (proc_grow_exited p x' Hx' He) as (x & Hx & Hex & Et & Es & _).
    unfold pterminated. rewrite Es. apply (i_proc_done _ _ Hinv p x); congruence.
  - intros p x' Hx' Ht. destruct (proc_grow_terminated p x' Hx' Ht) as (x & _ & _ & ? & ? & _). done.
  - intros p x' Hin Hx'. destruct (g_procs _ _ Hg p x' Hx') as [(x & Hx & G)|[_ (_ & _ & E & _)]]; [|done].
    rewrite (proj2 Ha p x x' Hin Hx Hx'). by apply (i_pterm_call _ _ Hinv p x).
  - exact grow_left_procs.
Qed.
End inv_grow.

(** An object that did not change. *)
Lemma job_grow_refl st st' j x : job_grow st st' j x x.
Proof. split; auto. Qed.
Lemma proc_grow_refl st st' p x : proc_grow st st' p x x.
Proof. split; auto. Qed.

Lemma create_child_inv j c ks st st' :
  inv ks st → (∀ k, is_Some (jobs st !! k) → (k < c)%nat) → (∀ k, k ∈ ks → k ≠ JobTerminate c ∧ ∀ j, k ≠ RemoveChild j c) →
  create_child j c st = Ok st' → inv ks st'.
Proof.
  intros Hinv Hfresh Hks E. unfold create_child in E.
  destruct (jobs st !! j) as [x0|] eqn:Hx0; [|done]. destruct (jkilled x0) eqn:Hk0; [done|]. injection E as <-.
  assert (jobs st !! c = None) as Hc.
  { destruct (jobs st !! c) eqn:Hc; [|done]. specialize (Hfresh c ltac:(by eexists)). lia. }
  assert (j ≠ c) as Hjc by congruence.
  set (st' := mkTasks _ _ _).
  assert (jobs st' !! c = Some (new_job (Some j) (effective_policy x0))) as Ec by (by simpl; rewrite lookup_insert_eq).
  assert (jobs st' !! j = Some (with_children (jchildren x0 ++ [c]) x0)) as Ej.
  { simpl. rewrite lookup_insert_ne, lookup_alter_eq, Hx0 by done. done. }
  assert (∀ k, k ≠ c → k ≠ j → jobs st' !! k = jobs st !! k) as Eo.
  { intros k ? ?. simpl. by rewrite lookup_insert_ne, lookup_alter_ne. }
  assert (job_grow st st' j x0 (with_children (jchildren x0 ++ [c]) x0)) as Gj.
  { split; simpl; try done; [congruence| |auto].
    intros d [|Hd%list_elem_of_singleton]%elem_of_app; [by left|right]. subst d. eauto. }
  apply (inv_grow ks st); [done| |].
  2:{ split; [|intros; simpl in *; congruence]. intros k Hn [x' Hx']. destruct (decide (k = c)) as [->|Hkc].
      - split; [intros Hin|intros i Hin]; by destruct (Hks _ Hin) as [? ?]; naive_solver.
      - destruct (decide (k = j)) as [->|]; [congruence|]. rewrite Eo in Hx' by done. congruence. }
  split.
  - intros k x' Hx'. destruct (decide (k = c)) as [->|]; [right|left].
    + rewrite Ec in Hx'. injection Hx' as <-. split; [done|]. split_and!; try done.
      intros q [= <-]. split; [apply Hfresh; by eexists|by eexists].
    + destruct (decide (k = j)) as [->|]; [rewrite Ej in Hx'; injection Hx' as <-; eauto|].
      rewrite Eo in Hx' by done. exists x'. split; [done|apply job_grow_refl].
  - intros k x Hx. destruct (decide (k = j)) as [->|]; [simplify_eq; eauto|].
    exists x. rewrite Eo by congruence. split; [done|apply job_grow_refl].
  - intros p x Hx. left. exists x. split; [done|apply proc_grow_refl].
  - intros p x Hx. exists x. split; [done|apply proc_grow_refl].
  - intros t y Hy. left. by exists y.
  - intros t y Hy. by exists y.
Qed.

Lemma create_process_inv j p ks st st' :
  inv ks st → procs st !! p = None → create_process j p st = Ok st' → inv ks st'.
Proof.
  intros Hinv Hp E. unfold create_process in E.
  destruct (jobs st !! j) as [x0|] eqn:Hx0; [|done]. destruct (jkilled x0) eqn:Hk0; [done|]. injection E as <-.
  set (st' := mkTasks _ _ _). set (x1 := with_processes (jprocesses x0 ++ [p]) x0).
  assert (∀ k, jobs st' !! k = if decide (k = j) then Some x1 else jobs st !! k) as Ej.
  { intros k. simpl. destruct (decide (k = j)) as [->|]; [by rewrite lookup_alter_eq, Hx0|by rewrite lookup_alter_ne]. }
  assert (procs st' !! p = Some (mkProcess j (effective_policy x0) Init [] [] None 0%Z false)) as Ep
    by (by simpl; rewrite lookup_insert_eq).
  assert (∀ k, k ≠ p → procs st' !! k = procs st !! k) as Eo by (intros k ?; simpl; by rewrite lookup_insert_ne).
  assert (job_grow st st' j x0 x1) as Gj.
  { split; simpl; try done; [congruence|auto|].
    intros d [|Hd%list_elem_of_singleton]%elem_of_app; [by left|right]. subst d. eauto. }
  apply (inv_grow ks st); [done| |].
  2:{ split; [intros k Hn [x' Hx']; rewrite Ej in Hx'; destruct (decide (k = j)) as [->|]; congruence|]. intros k x x' _ Hx Hx'. rewrite Eo in Hx' by congruence. congruence. }
  split.
  - intros k x' Hx'. left. rewrite Ej in Hx'. destruct (decide (k = j)) as [->|]; [simplify_eq; eauto|].
    exists x'. split; [done|apply job_grow_refl].
  - intros k x Hx. rewrite Ej. destruct (decide (k = j)) as [->|]; [simplify_eq; eauto|].
    exists x. split; [done|apply job_grow_refl].
  - intros k x' Hx'. destruct (decide (k = p)) as [->|]; [right|left].
    + rewrite Ep in Hx'. injection Hx' as <-. split; [done|]. split_and!; try done. simpl. rewrite lookup_alter_eq, Hx0. by eexists.
    + rewrite Eo in Hx' by done. exists x'. split; [done|apply proc_grow_refl].
  - intros k x Hx. exists x. rewrite Eo by congruence. split; [done|apply proc_grow_refl].
  - intros t y Hy. left. by exists y.
  - intros t y Hy. by exists y.
Qed.

(** A change of one process and of the threads, with the jobs as they were. *)
Lemma grow_proc f p st ths x0 :
  procs st !! p = Some x0 →
  proc_grow st (mkTasks (jobs st) (alter f p (procs st)) ths) p x0 (f x0) →
  (∀ t y, ths !! t = Some y → (∃ y0, threads st !! t = Some y0 ∧ thread_le y0 y) ∨ threads st !! t = None) →
  (∀ t y, threads st !! t = Some y → ∃ y', ths !! t = Some y' ∧ thread_le y y') →
  grow st (mkTasks (jobs st) (alter f p (procs st)) ths).
Proof.
  intros Hx0 Hg Hb Hf. set (st' := mkTasks _ _ _) in *.
  assert (∀ k, procs st' !! k = if decide (k = p) then Some (f x0) else procs st !! k) as Ep.
  { intros k. simpl. destruct (decide (k = p)) as [->|]; [by rewrite lookup_alter_eq, Hx0|by rewrite lookup_alter_ne]. }
  split; [| | | |exact Hb|exact Hf].
  - intros k x Hx. left. exists x. split; [done|apply job_grow_refl].
  - intros k x Hx. exists x. split; [done|apply job_grow_refl].
  - intros k x' Hx'. left. rewrite Ep in Hx'. destruct (decide (k = p)) as [->|]; [simplify_eq; eauto|].
    exists x'. split; [done|apply proc_grow_refl].
  - intros k x Hx. rewrite Ep. destruct (decide (k = p)) as [->|]; [simplify_eq; eauto|].
    exists x. split; [done|apply proc_grow_refl].
Qed.

Lemma create_thread_inv p t ks st st' :
  inv ks st → threads st !! t = None → ProcTerminate p ∉ ks → create_thread p t st = Ok st' → inv ks st'.
Proof.
  intros Hinv Ht Hp E. unfold create_thread in E.
  destruct (procs st !! p) as [x0|] eqn:Hx0; [|done]. destruct (is_exited (pstatus x0)) eqn:He; [done|]. injection E as <-.
  apply (inv_grow ks st); [done|apply (grow_proc _ _ _ _ x0); [done|..]|].
  - split; simpl; try done; [congruence|].
    intros u [|Hu%list_elem_of_singleton]%elem_of_app; [by left|right]. subst u. rewrite lookup_insert_eq. eauto.
  - intros u y [[-> <-]|[? Hy]]%lookup_insert_Some; [by right|left]. by exists y.
  - intros u y Hy. exists y. rewrite lookup_insert_ne by congruence. done.
  - split; simpl; [intros c Hn [x Hx]; congruence|]. intros q x x' Hin Hx Hx'. rewrite lookup_alter_ne in Hx' by (by intros ->). congruence.
Qed.

(** Starting a thread, whatever its state, of a process that has not exited. *)
Lemma start_thread_inv t ks st y0 x0 :
  inv ks st → threads st !! t = Some y0 → procs st !! tproc y0 = Some x0 → is_exited (pstatus x0) = false → inv ks (start_thread t st).
Proof.
  intros Hinv Hy Hx He. assert (∀ u y, threads (start_thread t st) !! u = Some y → ∃ y', threads st !! u = Some y' ∧ tproc y' = tproc y ∧ (u ≠ t → y' = y)) as Hb.
  { intros u y Hu. simpl in Hu. destruct (decide (u = t)) as [->|]; [rewrite lookup_alter_eq, Hy in Hu; injection Hu as <-; by exists y0|rewrite lookup_alter_ne in Hu by done; by exists y]. }
  assert (∀ u y, threads st !! u = Some y → ∃ y', threads (start_thread t st) !! u = Some y' ∧ tproc y' = tproc y) as Hf.
  { intros u y Hu. simpl. destruct (decide (u = t)) as [->|]; [rewrite lookup_alter_eq, Hu; eexists; by split|rewrite lookup_alter_ne by done; by exists y]. }
  split; try apply Hinv.
  - intros p x u Hpx Hu. destruct (i_threads _ _ Hinv p x u Hpx Hu) as (y & Hyu & <-). exact (Hf u y Hyu).
  - intros p x u y Hpx Hex Hu Hyu. simpl in Hpx. destruct (Hb u y Hyu) as (y' & Hy' & Hpr & Hsame). destruct (decide (u = t)) as [->|Hne].
    + destruct (i_threads _ _ Hinv p x t Hpx Hu) as (y1 & Hy1 & Hp1). rewrite Hy in Hy1. injection Hy1 as <-. rewrite Hp1 in Hx. rewrite Hx in Hpx. injection Hpx as <-. by rewrite He in Hex.
    + rewrite <-(Hsame Hne). by apply (i_exit_thread _ _ Hinv p x u y').
Qed.

Lemma thread_start_inv t ks st st' : inv ks st → thread_start t st = Ok st' → inv ks st'.
Proof.
  intros Hinv E. unfold thread_start in E. destruct (threads st !! t) as [y0|] eqn:Hy; [|done].
  destruct (procs st !! tproc y0) as [x|] eqn:Hx; [|done]. destruct (pstatus x) eqn:Es; try done. injection E as <-.
  eapply start_thread_inv; [done..|]. by rewrite Es.
Qed.

Lemma proc_start_inv p t h ks st st' : inv ks st → proc_start p t h st = Ok st' → inv ks st'.
Proof.
  intros Hinv E. unfold proc_start in E. destruct (procs st !! p) as [x0|] eqn:Hx0; [|done].
  case_bool_decide as Ht; [|done]. destruct (pstatus x0) eqn:Es; try done. injection E as <-.
  destruct (i_threads _ _ Hinv p x0 t Hx0 Ht) as (y & Hy & Hyp).
  eapply (start_thread_inv t _ _ y); [|exact Hy|simpl; rewrite Hyp, lookup_alter_eq, Hx0; done|done].
  apply (inv_grow ks st); [done|apply (grow_proc _ _ _ _ x0); [done|..]|].
  - split; simpl; rewrite ?Es; auto.
  - intros u z Hu. left. by exists z.
  - intros u z Hu. by exists z.
  - split; simpl; [intros c Hn [x Hx]; congruence|]. intros q x x' Hin Hx Hx'. destruct (decide (q = p)) as [->|]; [|rewrite lookup_alter_ne in Hx' by done; congruence].
    rewrite lookup_alter_eq, Hx in Hx'. by injection Hx' as <-.
Qed.

Lemma drop_job_inv j ks st :
  inv ks st → (∀ k x, jobs st !! k = Some x → jparent x ≠ Some j) → (∀ p x, procs st !! p = Some x → pjob x ≠ j) →
  inv (snd (drop_job j st) ++ ks) (fst (drop_job j st)).
Proof.
  intros Hinv Hnp Hnj. unfold drop_job. destruct (jobs st !! j) as [x0|] eqn:Hx0; [|done]. simpl.
  set (new := match jparent x0 with Some q => [RemoveChild q j] | None => [] end).
  assert (inv (new ++ ks) st) as Hi by (subst new; destruct (jparent x0); [by apply inv_push|done]).
  assert (∀ k x, delete j (jobs st) !! k = Some x → k ≠ j ∧ jobs st !! k = Some x) as Hd.
  { intros k x [? ?]%lookup_delete_Some. done. }
  split; simpl; intros *.
  - intros [? Hx]%Hd Hq. destruct (i_parent _ _ Hi _ _ _ Hx Hq) as [? ?]. split; [done|].
    rewrite lookup_delete_ne; [done|]. intros <-. by apply (Hnp _ _ Hx).
  - intros Hx. rewrite lookup_delete_ne; [by apply (i_pjob _ _ Hi _ _ Hx)|]. intros E. by apply (Hnj _ _ Hx).
  - intros [? Hx]%Hd Hc. destruct (i_children _ _ Hi _ _ _ Hx Hc) as [(y & Hy & Hp)|?]; [|by right].
    destruct (decide (c = j)) as [->|]; [right|left].
    + simplify_eq. subst new. rewrite Hp. by left.
    + exists y. by rewrite lookup_delete_ne.
  - intros [? Hx]%Hd. by apply (i_procs _ _ Hi _ _ _ Hx).
  - apply (i_threads _ _ Hi).
  - intros [? Hx]%Hd Hk Hc [? Hy]%Hd. by apply (i_kill_child _ _ Hi _ _ _ _ Hx Hk Hc Hy).
  - intros [? Hx]%Hd Hk Hp Hy. by apply (i_kill_proc _ _ Hi _ _ _ _ Hx Hk Hp Hy).
  - apply (i_exit_thread _ _ Hi).
  - intros [? Hx]%Hd Hk He. by apply (i_job_done _ _ Hi _ _ Hx Hk He).
  - intros [? Hx]%Hd. by apply (i_job_term _ _ Hi _ _ Hx).
  - intros Hin [? Hx]%Hd. by apply (i_term_call _ _ Hi _ _ Hin Hx).
  - intros [? Hx]%Hd Ht Hq [? Hy]%Hd. by apply (i_term_child _ _ Hi _ _ _ _ Hx Ht Hq Hy).
  - apply (i_proc_done _ _ Hi).
  - apply (i_proc_term _ _ Hi).
  - apply (i_pterm_call _ _ Hi).
  - intros Hx Ht [? Hy]%Hd. by apply (i_term_proc _ _ Hi _ _ _ Hx Ht Hy).
Qed.

(** An operation that starts while calls are pending: the id of a new job is not one of theirs, and no thread
    is added to a process between the end of its last thread and its termination. *)
Definition op_apart (op : task_op) (ks : list call) : Prop :=
  match op with
  | OCreateJob _ c => ∀ k, k ∈ ks → k ≠ JobKill c ∧ k ≠ JobTerminate c ∧ ∀ j, k ≠ RemoveChild j c
  | OCreateThread p _ => ProcTerminate p ∉ ks
  | _ => True
  end.

Lemma op_step_inv op ks st st1 new :
  inv ks st → op_legal op st → op_apart op ks → op_step op st = Ok (st1, new) → inv (new ++ ks) st1.
Proof.
  intros Hinv Hop Ha E.
  destruct op as [j c|j p|p t|p t h|t|j|p r|t|t|p j nz|j o bs|j tp|j]; simpl in *.
  - unfold rmap in E. destruct (create_child j c st) eqn:Ec; simplify_eq/=. eapply create_child_inv; [done..| |done]. intros k Hk. by destruct (Ha k Hk).
  - unfold rmap in E. destruct (create_process j p st) eqn:Ec; simplify_eq/=. by eapply create_process_inv.
  - unfold rmap in E. destruct (create_thread p t st) eqn:Ec; simplify_eq/=. by eapply create_thread_inv.
  - unfold rmap in E. destruct (proc_start p t h st) eqn:Ec; simplify_eq/=. by eapply proc_start_inv.
  - unfold rmap in E. destruct (thread_start t st) eqn:Ec; simplify_eq/=. by eapply thread_start_inv.
  - simplify_eq. by apply inv_push.
  - simplify_eq. by apply inv_push.
  - simplify_eq. apply quiet_threads; [done|]. apply (kill_all_spec [t] st).
  - destruct Hop as (y & Hy & _ & _). unfold thread_end in E. rewrite Hy in E. simplify_eq.
    apply inv_push; [|done..]. apply quiet_threads; [done|]. intros u.
    destruct (decide (u = t)) as [->|]; [|by rewrite lookup_alter_ne].
    rewrite lookup_alter_eq, Hy. simpl. constructor. split; [done|]. intros _. by right.
  - unfold rmap in E. destruct (set_critical_at_job p j nz st) as [st2| |] eqn:Ec; simplify_eq/=.
    unfold set_critical_at_job in Ec. destruct (procs st !! p) as [x|]; [|done]. destruct (pcritical x); [done|].
    destruct (find_ancestor _ _ _ _); simplify_eq. by apply quiet_proc.
  - simplify_eq. unfold set_policy_basic. destruct (jobs st !! j) as [x|]; [|done]. destruct (negb _); [done|].
    destruct (set_policies _ _ _ _) as [r q]. simpl. by apply quiet_job.
  - unfold rmap in E. destruct (set_policy_timer_slack j tp st) as [st2| |] eqn:Ec; simplify_eq/=.
    unfold set_policy_timer_slack in Ec. destruct (jobs st !! j) as [x|]; [|done]. destruct (negb _); [done|].
    destruct (check_timer_policy tp); simplify_eq/=. by apply quiet_job.
  - destruct Hop as [H1 H2]. pose proof (drop_job_inv j ks st Hinv H1 H2) as H. simplify_eq. by rewrite E in H.
Qed.
Lemma op_step_alone op st st1 ks : inv [] st → op_legal op st → op_step op st = Ok (st1, ks) → inv ks st1.
Proof.
  intros Hinv Hop E. rewrite <-(app_nil_r ks). apply (op_step_inv op [] st); try done. destruct op; simpl; try done; [by intros k ?%elem_of_nil|by intros ?%elem_of_nil].
Qed.

Lemma root_inv : inv [] root.
Proof.
  assert (∀ j x, jobs root !! j = Some x → x = new_job None policy_default) as Hj.
  { intros j x Hx. simpl in Hx. by apply lookup_singleton_Some in Hx as [_ <-]. }
  split; try (by intros * ?%elem_of_nil); try (intros *; simpl; rewrite lookup_empty; done);
    try (intros * ->%Hj; done).
  - intros j x c ->%Hj. simpl. by intros ?%elem_of_nil.
  - intros j x p ->%Hj. simpl. by intros ?%elem_of_nil.
Qed.

Lemma task_reach_inv st : task_reach st → inv [] st.
Proof.
  induction 1 as [|op st st1 ks fuel st' Hr IH Hop E Er]; [apply root_inv|].
  eapply run_inv; [|exact Er]. by eapply op_step_alone.
Qed.

(** ** Termination

    Jobs that are not killed and processes that are not exited are used up; the other
    calls go up the tree. *)
Section termination.
Context (N : nat) (js ps : list nat).

Definition open_job st j : bool := match jobs st !! j with Some x => negb (jkilled x) | None => false end.
Definition open_proc st p : bool := match procs st !! p with Some x => negb (is_exited (pstatus x)) | None => false end.
Definition open_count st : nat := length (List.filter (open_job st) js) + length (List.filter (open_proc st) ps).

Definition cost (k : call) : nat :=
  match k with
  | JobKill _ | ProcExit _ _ => 1
  | JobTerminate j => 2 * j + 1
  | RemoveChild j _ | RemoveProcess j _ => 2 * j + 2
  | ProcTerminate _ => 2 * N + 4
  | RemoveThread _ _ => 2 * N + 5
  end.
Definition total (ks : list call) : nat := sum_list (cost <$> ks).

(** The ids of the objects of a state. *)
Definition listed st : Prop :=
  (∀ j, is_Some (jobs st !! j) → j ∈ js ∧ (j < N)%nat) ∧ (∀ p, is_Some (procs st !! p) → p ∈ ps).

Lemma filter_length_le (P Q : nat → bool) l :
  (∀ x, P x = true → Q x = true) → (length (List.filter P l) ≤ length (List.filter Q l))%nat.
Proof.
  intros H. induction l as [|x l IH]; simpl; [done|]. destruct (P x) eqn:E; [rewrite (H x E); simpl; lia|].
  destruct (Q x); simpl; lia.
Qed.

Lemma filter_length_lt (P Q : nat → bool) l x :
  (∀ x, P x = true → Q x = true) → x ∈ l → P x = false → Q x = true →
  (length (List.filter P l) < length (List.filter Q l))%nat.
Proof.
  intros H Hin HP HQ. induction l as [|y l IH]; [by apply elem_of_nil in Hin|]. simpl.
  apply elem_of_cons in Hin as [<-|Hin].
  - rewrite HP, HQ. simpl. pose proof (filter_length_le P Q l H). lia.
  - specialize (IH Hin). destruct (P y) eqn:E; [rewrite (H y E); simpl; lia|]. destruct (Q y); simpl; lia.
Qed.

Lemma open_count_le k new st st' : step_ok k new st st' → (open_count st' ≤ open_count st)%nat.
Proof.
  intros Hok. apply Nat.add_le_mono; apply filter_length_le.
  - intros j. unfold open_job. destruct (s_jobs _ _ _ _ Hok j) as [x x' L|]; [|done].
    destruct (jkilled x) eqn:E; [by rewrite (jl_killed _ _ L E)|done].
  - intros p. unfold open_proc. destruct (s_procs _ _ _ _ Hok p) as [x x' L|]; [|done].
    destruct (is_exited (pstatus x)) eqn:E; [by rewrite (pl_exited _ _ L E)|done].
Qed.

Lemma listed_step k new st st' : step_ok k new st st' → listed st → listed st'.
Proof.
  intros Hok [Hj Hp]. split.
  - intros j [x Hx]. destruct (Forall2_back _ _ _ _ (s_jobs _ _ _ _ Hok j) Hx) as (y & Hy & _). apply Hj. by exists y.
  - intros p [x Hx]. destruct (Forall2_back _ _ _ _ (s_procs _ _ _ _ Hok p) Hx) as (y & Hy & _). apply Hp. by exists y.
Qed.

Lemma total_app a b : total (a ++ b) = (total a + total b)%nat.
Proof. unfold total. rewrite fmap_app. generalize (cost <$> a) as l. induction l as [|x l IH]; simpl; [done|lia]. Qed.

Lemma terminate_if_done_cost j st : (total (terminate_if_done j st) ≤ 2 * j + 1)%nat.
Proof. unfold terminate_if_done, total. destruct (jobs st !! j); [|simpl; lia]. destruct (_ && _); simpl; lia. Qed.

Lemma perform_decreases k ks st :
  inv (k :: ks) st → listed st →
  (open_count (fst (perform k st)) < open_count st)%nat ∨ (total (snd (perform k st)) < cost k)%nat.
Proof.
  intros Hinv [Hj Hp]. pose proof (perform_ok k ks st Hinv) as Hok.
  assert (∀ x y : nat, (x < y)%nat → ∀ z, (x + z < y + z)%nat) as Hadd by lia.
  destruct k as [j|j|j c|j p|p r|p|p t]; simpl.
  - revert Hok. simpl. unfold job_kill. destruct (jobs st !! j) as [x|] eqn:Hx; [|intros _; right; unfold total; simpl; lia].
    destruct (jkilled x) eqn:Hk; [intros _; right; unfold total; simpl; lia|]. intros Hok. left.
    assert (∀ l, open_count (fst (upd_job with_killed j st, l : list call)) = open_count (upd_job with_killed j st)) as E by done.
    destruct (_ && _) in Hok |- *; rewrite E; unfold open_count; apply Nat.add_lt_le_mono; try done.
    all: apply (filter_length_lt _ _ _ j); [|by apply Hj; eexists| |]; unfold open_job; rewrite ?lookup_upd_job.
    all: try (intros i; rewrite lookup_upd_job; destruct (decide (i = j)) as [->|]; [rewrite Hx; done|done]).
    all: rewrite ?decide_True, ?Hx by done; simpl; by rewrite ?Hk.
  - right. unfold job_terminate. destruct (jobs st !! j) as [x|] eqn:Hx; [|unfold total; simpl; lia]. simpl.
    destruct (jparent x) as [q|] eqn:Hq; [|unfold total; simpl; lia].
    destruct (i_parent _ _ Hinv j x q Hx Hq) as [? _]. unfold total. simpl. lia.
  - right. pose proof (terminate_if_done_cost j (fst (remove_child j c st))). simpl in *. lia.
  - right. pose proof (terminate_if_done_cost j (fst (remove_process j p st))). simpl in *. lia.
  - unfold proc_exit. destruct (procs st !! p) as [x|] eqn:Hx; [|right; unfold total; simpl; lia].
    destruct (is_exited (pstatus x)) eqn:He; [right; unfold total; simpl; lia|]. left. simpl.
    destruct (kill_all_spec (pthreads x) st) as (Ej & Ep & _). set (st1 := foldl _ _ _) in *.
    unfold open_count. apply Nat.add_le_lt_mono.
    + apply filter_length_le. unfold open_job. simpl. by rewrite Ej.
    + apply (filter_length_lt _ _ _ p); [|by apply Hp; eexists| |]; unfold open_proc; rewrite ?lookup_upd_proc, ?Ep.
      * intros i. rewrite lookup_upd_proc, Ep. destruct (decide (i = p)) as [->|]; [by rewrite Hx|done].
      * by rewrite decide_True, Hx.
      * by rewrite Hx, He.
  - right. unfold proc_terminate. destruct (procs st !! p) as [x|] eqn:Hx; [|unfold total; simpl; lia]. simpl.
    destruct (Hj (pjob x)) as [_ Hlt]; [by apply (i_pjob _ _ Hinv p x)|]. unfold total. simpl.
    destruct (pcritical x) as [[q nz]|]; [|simpl; lia]. destruct (_ || _); simpl; lia.
  - right. unfold remove_thread. simpl. destruct (alter _ p (procs st) !! p); [|unfold total; simpl; lia].
    destruct (is_empty _); unfold total; simpl; lia.
Qed.

Lemma run_terminates u w ks st :
  inv ks st → listed st → (open_count st ≤ u)%nat → (total ks ≤ w)%nat → ∃ fuel st', run fuel ks st = Some st'.
Proof.
  revert w ks st. induction u as [u IHu] using lt_wf_ind. intros w.
  induction w as [w IHw] using lt_wf_ind. intros [|k ks] st Hinv Hl Hu Hw; [by exists 0%nat, st|].
  pose proof (perform_ok k ks st Hinv) as Hok. pose proof (perform_decreases k ks st Hinv Hl) as Hd.
  pose proof (open_count_le _ _ _ _ Hok) as Hle. pose proof (listed_step _ _ _ _ Hok Hl) as Hl'.
  pose proof (inv_step _ _ ks _ _ Hinv Hok) as Hinv'.
  assert (∃ fuel st', run fuel (snd (perform k st) ++ ks) (fst (perform k st)) = Some st') as (fuel & st' & E).
  { destruct Hd as [Hd|Hd].
    - apply (IHu (open_count (fst (perform k st))) ltac:(lia) (total (snd (perform k st) ++ ks))); done.
    - change (total (k :: ks)) with (cost k + total ks)%nat in Hw.
      apply (IHw (total (snd (perform k st) ++ ks))); [rewrite total_app; lia|done|done|lia|done]. }
  exists (S fuel), st'. simpl. by destruct (perform k st).
Qed.
End termination.

Lemma listed_elements st :
  listed (S (max_list (elements (dom (jobs st))))) (elements (dom (jobs st))) (elements (dom (procs st))) st.
Proof.
  split.
  - intros j Hj%elem_of_dom. apply elem_of_elements in Hj. split; [done|].
    apply Nat.lt_succ_r. by apply max_list_elem_of_le.
  - intros p Hp%elem_of_dom. by apply elem_of_elements.
Qed.

(** [Thread::kill] does to the state of a thread what [kill_life] says. *)
Lemma thread_kill_life {W C} (t : Thread W C) (w : W) :
  tstate (inner (fst (stop true t w))) = kill_life (tstate (inner t)).
Proof.
  unfold stop, kill_life. destruct (decide (tstate (inner t) = ThreadState.Dead)) as [|]; [done|]. simpl.
  destruct (decide (tstate (inner t) = ThreadState.Dying)) as [E|_].
  - unfold take_killer. simpl. by destruct (killer (inner t)).
  - pose proof (change_state_inner ThreadState.Dying (with_inner set_killed t) w) as Hi.
    destruct (change_state _ _ w) as [t2 w2]. simpl in *. unfold take_killer, take_waker.
    destruct (waker (inner t2)); simpl; destruct (killer (inner t2)); simpl; by rewrite Hi.
Qed.

(** ** Results *)

(** The jobs below a job, itself included. *)
Inductive below st : nat → nat → Prop :=
| below_refl j : below st j j
| below_child j c k x y : jobs st !! j = Some x → c ∈ jchildren x → jobs st !! c = Some y → below st c k → below st j k.

Lemma below_killed st j k x y :
  inv [] st → below st j k → jobs st !! j = Some x → jkilled x = true → jobs st !! k = Some y → jkilled y = true.
Proof.
  intros Hinv Hb. revert x. induction Hb as [j|j c k x0 z Hx0 Hc Hz Hb IH]; intros x Hx Hk Hy; [congruence|].
  assert (x0 = x) as -> by congruence. destruct (i_kill_child _ _ Hinv j x c z Hx Hk Hc Hz) as [Hkz|?%elem_of_nil]; [|done]. by apply (IH z).
Qed.

Lemma below_finished st n :
  inv [] st → (∀ k, is_Some (jobs st !! k) → (k < n)%nat) →
  ∀ d j x, (n - j ≤ d)%nat → jobs st !! j = Some x → jkilled x = true →
    (∀ k y p z, below st j k → jobs st !! k = Some y → p ∈ jprocesses y → procs st !! p = Some z → pthreads z = []) →
    terminated x = true.
Proof.
  intros Hinv Hn d. induction d as [|d IH]; intros j x Hd Hx Hk Hth.
  { specialize (Hn j ltac:(by eexists)). lia. }
  assert (jprocesses x = []) as Ep.
  { destruct (jprocesses x) as [|p l] eqn:E; [done|]. assert (p ∈ jprocesses x) as Hp by (rewrite E; by left).
    destruct (i_procs _ _ Hinv j x p Hx Hp) as (z & Hz & Hj).
    destruct (i_kill_proc _ _ Hinv j x p z Hx Hk Hp Hz) as [He|[? ?%elem_of_nil]]; [|done].
    assert (pthreads z = []) as Hz0 by (apply (Hth j x p z); [constructor|done..]).
    destruct (i_proc_done _ _ Hinv p z Hz He Hz0) as [Ht|?%elem_of_nil]; [|done].
    subst j. by destruct (i_term_proc _ _ Hinv p z x Hz Ht Hx) as [|?%elem_of_nil]. }
  assert (jchildren x = []) as Ec.
  { destruct (jchildren x) as [|c l] eqn:E; [done|]. assert (c ∈ jchildren x) as Hc by (rewrite E; by left).
    destruct (i_children _ _ Hinv j x c Hx Hc) as [(y & Hy & Hp)|?%elem_of_nil]; [|done].
    destruct (i_kill_child _ _ Hinv j x c y Hx Hk Hc Hy) as [Hky|?%elem_of_nil]; [|done].
    destruct (i_parent _ _ Hinv c y j Hy Hp) as [Hlt _].
    assert (terminated y = true) as Ht.
    { apply (IH c y); [lia|done..|]. intros k y' p z Hb. apply Hth. by eapply below_child. }
    by destruct (i_term_child _ _ Hinv c y j x Hy Ht Hp Hx) as [|?%elem_of_nil]. }
  assert (job_empty x = true) as He by (by apply job_empty_true).
  by destruct (i_job_done _ _ Hinv j x Hx Hk He) as [|?%elem_of_nil].
Qed.

(** C36. Every cascade of kills and terminations ends: whatever operation is applied to a
    reachable task tree, the calls that it sets off run to completion. *)
Theorem task_calls_terminate st op st1 ks :
  task_reach st → op_legal op st → op_step op st = Ok (st1, ks) →
  ∃ fuel st', run fuel ks st1 = Some st'.
Proof.
  intros Hr%task_reach_inv Hop E. pose proof (op_step_alone op st st1 ks Hr Hop E) as Hinv.
  by eapply (run_terminates _ _ _ _ _ ks st1 Hinv (listed_elements st1)).
Qed.

(** ** Interleaved histories

    Several threads of the kernel run their calls at the same time: each has its stack of
    pending calls, a method changes its object in one step, and between two steps any other
    thread may make one or begin an operation. *)
Inductive task_inter : list (list call) → tasks → Prop :=
| inter_root : task_inter [] root
| inter_op pool st op st1 ks :
    task_inter pool st → op_legal op st → op_apart op (concat pool) → op_step op st = Ok (st1, ks) → task_inter (ks :: pool) st1
| inter_call pool st n k ks st1 new :
    task_inter pool st → pool !! n = Some (k :: ks) → perform k st = (st1, new) → task_inter (<[n := new ++ ks]> pool) st1
| inter_done pool st n : task_inter pool st → pool !! n = Some [] → task_inter (delete n pool) st.

Lemma concat_insert (pool : list (list call)) n l' : (n < length pool)%nat → concat (<[n := l']> pool) ≡ₚ l' ++ concat (delete n pool).
Proof. intros Hn. rewrite insert_take_drop by done. rewrite delete_take_drop, !concat_app. simpl. solve_Permutation. Qed.
Lemma concat_lookup (pool : list (list call)) n l : pool !! n = Some l → concat pool ≡ₚ l ++ concat (delete n pool).
Proof. intros H. rewrite <-concat_insert by (by eapply lookup_lt_Some). by rewrite list_insert_id. Qed.
Lemma inv_perm ks ks' st : ks ≡ₚ ks' → inv ks st → inv ks' st.
Proof. intros Hp Hinv. apply (inv_more ks); [done|..]; intros *; by rewrite Hp. Qed.

Lemma task_inter_inv pool st : task_inter pool st → inv (concat pool) st.
Proof.
  induction 1 as [|pool st op st1 ks _ IH Hop Ha E|pool st n k ks st1 new _ IH Hn E|pool st n _ IH Hn]; [apply root_inv|by eapply op_step_inv| |].
  - eapply inv_perm; [symmetry; apply concat_insert; by eapply lookup_lt_Some|]. rewrite <-app_assoc. apply (inv_perm _ _ _ (concat_lookup pool n _ Hn)) in IH.
    pose proof (perform_ok k (ks ++ concat (delete n pool)) st IH) as Hok. rewrite E in Hok. by eapply inv_step.
  - eapply inv_perm; [|exact IH]. by apply (concat_lookup pool n []).
Qed.
(** Operations one after the other are such a history. *)
Lemma run_inter fuel ks st st' : task_inter [ks] st → run fuel ks st = Some st' → task_inter [] st'.
Proof.
  revert ks st. induction fuel as [|fuel IH]; intros [|k ks] st Hi E; simpl in E; simplify_eq; try done; try by apply (inter_done _ _ 0 Hi).
  destruct (perform k st) as [st1 new] eqn:Ep. apply (IH (new ++ ks) st1); [|done]. by apply (inter_call [k :: ks] st 0 k ks st1 new).
Qed.
Lemma reach_inter st : task_reach st → task_inter [] st.
Proof.
  induction 1 as [|op st st1 ks fuel st' _ IH Hop E Er]; [constructor|]. apply (run_inter fuel ks st1); [|done]. eapply inter_op; [done..| |done].
  destruct op; simpl; try done; [by intros k ?%elem_of_nil|by intros ?%elem_of_nil].
Qed.

(** C11. Killing the task tree, for calls of any number of threads interleaved in any order.  At all times a job that has
    terminated is killed and has neither processes nor child jobs, a process that has terminated has exited and has no
    threads, and the threads of a process that has exited are dying.  When no call is pending, everything below a killed job is
    killed: the jobs are killed, their processes have exited and the threads of those are dying; a job has terminated exactly when it is
    killed and has neither processes nor child jobs; and a process has terminated exactly when it has exited and has no
    threads.  Every method that changes an object under its lock is a step, as is the start of a thread with its check of the status; only
    threads without a runner are started, and no thread is added to a process between the end of its last thread and its termination
    ([thread_added_too_late] and [thread_started_too_late] show what happens otherwise). *)
Theorem task_tree_killed pool st :
  task_inter pool st →
  (∀ j x, jobs st !! j = Some x → terminated x = true → jkilled x = true ∧ job_empty x = true) ∧
  (∀ p z, procs st !! p = Some z → pterminated z = true → is_exited (pstatus z) = true ∧ pthreads z = []) ∧
  (∀ p z t u, procs st !! p = Some z → is_exited (pstatus z) = true → t ∈ pthreads z → threads st !! t = Some u → dying u) ∧
  (concat pool = [] →
   (∀ j k x y, below st j k → jobs st !! j = Some x → jkilled x = true → jobs st !! k = Some y →
      jkilled y = true ∧
      ∀ p z, p ∈ jprocesses y → procs st !! p = Some z →
        is_exited (pstatus z) = true ∧ ∀ t u, t ∈ pthreads z → threads st !! t = Some u → dying u) ∧
   (∀ j x, jobs st !! j = Some x → terminated x = jkilled x && job_empty x) ∧
   (∀ p z, procs st !! p = Some z → pterminated z = is_exited (pstatus z) && is_empty (pthreads z))).
Proof.
  intros Hinv%task_inter_inv. split; [apply Hinv|]. split; [apply Hinv|]. split; [apply Hinv|]. intros E. rewrite E in Hinv. split_and!.
  - intros j k x y Hb Hx Hk Hy. pose proof (below_killed st j k x y Hinv Hb Hx Hk Hy) as Hky. split; [done|].
    intros p z Hp Hz. destruct (i_kill_proc _ _ Hinv k y p z Hy Hky Hp Hz) as [He|[? ?%elem_of_nil]]; [|done].
    split; [done|]. intros t u Ht Hu. by apply (i_exit_thread _ _ Hinv p z t u).
  - intros j x Hx. apply eq_true_iff_eq. rewrite andb_true_iff. split; [by apply (i_job_term _ _ Hinv j x)|].
    intros [Hk He]. by destruct (i_job_done _ _ Hinv j x Hx Hk He) as [|?%elem_of_nil].
  - intros p z Hz. apply eq_true_iff_eq. rewrite andb_true_iff, is_empty_true.
    split; [by apply (i_proc_term _ _ Hinv p z)|].
    intros [He Ht]. by destruct (i_proc_done _ _ Hinv p z Hz He Ht) as [|?%elem_of_nil].
Qed.

(** A killed job terminates as soon as the threads below it have ended: if no process
    of the jobs below it has a thread left, [JOB_TERMINATED] is asserted on all of them. *)
Theorem job_kill_terminates st j x :
  task_reach st → jobs st !! j = Some x → jkilled x = true →
  (∀ k y p z, below st j k → jobs st !! k = Some y → p ∈ jprocesses y → procs st !! p = Some z → pthreads z = []) →
  ∀ k y, below st j k → jobs st !! k = Some y → terminated y = true.
Proof.
  intros Hinv%task_reach_inv Hx Hk Hth k y Hb Hy.
  pose proof (below_killed st j k x y Hinv Hb Hx Hk Hy) as Hky.
  assert (∀ i, below st k i → below st j i) as Htr.
  { intros i Hi. clear -Hb Hi. induction Hb; [done|]. eapply below_child; eauto. }
  destruct (listed_elements st) as [Hl _].
  apply (below_finished st _ Hinv (λ i Hi, proj2 (Hl i Hi)) _ k y (Nat.le_refl _) Hy Hky).
  intros i y' p z Hi. apply Hth. by apply Htr.
Qed.

(** ** Threads that were never started *)
Definition task_next st st' : Prop :=
  ∃ op st1 ks fuel, op_legal op st ∧ op_step op st = Ok (st1, ks) ∧ run fuel ks st1 = Some st'.

(** A process has exited and keeps a thread without a runner. *)
Definition stuck p t st : Prop :=
  ∃ x y, procs st !! p = Some x ∧ is_exited (pstatus x) = true ∧ t ∈ pthreads x ∧
         threads st !! t = Some y ∧ tstarted y = false ∧ dying y.

(** What keeps a process stuck: its thread stays in its list, and does not start. *)
Lemma stuck_keep p t st st' :
  stuck p t st →
  (∀ x, procs st !! p = Some x → is_exited (pstatus x) = true → t ∈ pthreads x →
     ∃ x', procs st' !! p = Some x' ∧ is_exited (pstatus x') = true ∧ t ∈ pthreads x') →
  (∀ y, threads st !! t = Some y → dying y →
     ∃ y', threads st' !! t = Some y' ∧ tstarted y' = tstarted y ∧ dying y') →
  stuck p t st'.
Proof.
  intros (x & y & Hx & He & Ht & Hy & Hs & Hd) Hp Hth.
  destruct (Hp x Hx He Ht) as (x' & ? & ? & ?). destruct (Hth y Hy Hd) as (y' & ? & Es & ?).
  exists x', y'. by rewrite Es.
Qed.

Lemma kill_all_started ts st t y :
  threads st !! t = Some y → dying y →
  ∃ y', threads (foldl (λ st t, kill_thread t st) st ts) !! t = Some y' ∧ tstarted y' = tstarted y ∧ dying y'.
Proof.
  revert st y. induction ts as [|u ts IH]; intros st y Hy Hd; simpl; [by exists y|].
  destruct (decide (u = t)) as [->|].
  - destruct (IH (kill_thread t st) (with_life (kill_life (tlife y)) y)) as (y' & ? & ? & ?).
    + simpl. by rewrite lookup_alter_eq, Hy.
    + unfold dying, kill_life. simpl. destruct (decide _); [by right|by left].
    + by exists y'.
  - apply IH; [|done]. simpl. by rewrite lookup_alter_ne.
Qed.

Lemma perform_stuck k p t st :
  (∀ q, k ≠ RemoveThread q t) → stuck p t st → stuck p t (fst (perform k st)).
Proof.
  intros Hk Hst. apply (stuck_keep p t st); [done|..].
  - intros x Hx He Ht. destruct k as [j|j|j c|j q|q r|q|q u]; simpl; try (by eauto).
    + unfold job_kill. destruct (jobs st !! j) as [z|]; [|by eauto]. destruct (jkilled z); [by eauto|].
      destruct (_ && _); by eauto.
    + unfold job_terminate. destruct (jobs st !! j); by eauto.
    + unfold proc_exit. destruct (procs st !! q) as [z|] eqn:Hz; [|by eauto].
      destruct (is_exited (pstatus z)) eqn:Ez; [by eauto|]. simpl.
      destruct (kill_all_spec (pthreads z) st) as (_ & -> & _).
      rewrite lookup_alter_ne by congruence. by eauto.
    + unfold proc_terminate. destruct (procs st !! q) as [z|] eqn:Hz; [|by eauto]. simpl.
      destruct (decide (q = p)) as [->|]; [rewrite lookup_alter_eq, Hx|rewrite lookup_alter_ne by done]; by eauto.
    + destruct (decide (q = p)) as [->|]; [|rewrite lookup_alter_ne by done; by eauto].
      rewrite lookup_alter_eq, Hx. eexists. split; [done|]. split; [done|]. simpl. apply without_spec. split; [|done].
      intros ->. by apply (Hk p).
  - intros y Hy Hd. destruct k as [j|j|j c|j q|q r|q|q u]; simpl; try (by exists y).
    + unfold job_kill. destruct (jobs st !! j) as [z|]; [|by exists y]. destruct (jkilled z); [by exists y|].
      destruct (_ && _); by exists y.
    + unfold job_terminate. destruct (jobs st !! j); by exists y.
    + unfold proc_exit. destruct (procs st !! q) as [z|]; [|by exists y].
      destruct (is_exited (pstatus z)); [by exists y|]. simpl. by apply kill_all_started.
    + unfold proc_terminate. destruct (procs st !! q); by exists y.
Qed.

Lemma perform_no_remove_thread k st q t : RemoveThread q t ∉ snd (perform k st).
Proof.
  assert (∀ j s, RemoveThread q t ∉ terminate_if_done j s) as Htd.
  { intros j s. unfold terminate_if_done. destruct (jobs s !! j); [|apply not_elem_of_nil].
    destruct (_ && _); [by intros ?%list_elem_of_singleton|apply not_elem_of_nil]. }
  destruct k as [j|j|j c|j p|p r|p|p u]; simpl; try apply Htd.
  - unfold job_kill. destruct (jobs st !! j) as [z|]; [|apply not_elem_of_nil]. destruct (jkilled z); [apply not_elem_of_nil|].
    destruct (_ && _); simpl; [by intros ?%list_elem_of_singleton|].
    intros [(? & ? & _)%list_elem_of_fmap|(? & ? & _)%list_elem_of_fmap]%elem_of_app; done.
  - unfold job_terminate. destruct (jobs st !! j) as [z|]; [|apply not_elem_of_nil]. simpl.
    destruct (jparent z); [by intros ?%list_elem_of_singleton|apply not_elem_of_nil].
  - unfold proc_exit. destruct (procs st !! p) as [z|]; [|apply not_elem_of_nil].
    destruct (is_exited (pstatus z)); [apply not_elem_of_nil|]. simpl.
    destruct (is_empty _); [by intros ?%list_elem_of_singleton|apply not_elem_of_nil].
  - unfold proc_terminate. destruct (procs st !! p) as [z|]; [|apply not_elem_of_nil]. simpl.
    intros [|H]%elem_of_cons; [done|]. destruct (pcritical z) as [[? nz]|]; [|by apply elem_of_nil in H].
    destruct (negb nz || _); [by apply list_elem_of_singleton in H|by apply elem_of_nil in H].
  - destruct (alter _ p (procs st) !! p); [|apply not_elem_of_nil].
    destruct (is_empty _); [by intros ?%list_elem_of_singleton|apply not_elem_of_nil].
Qed.

Lemma run_stuck fuel ks p t st st' :
  (∀ q, RemoveThread q t ∉ ks) → stuck p t st → run fuel ks st = Some st' → stuck p t st'.
Proof.
  revert ks st. induction fuel as [|fuel IH]; intros [|k ks] st Hks Hst E; simpl in E; simplify_eq; try done.
  pose proof (perform_stuck k p t st) as Hp. pose proof (perform_no_remove_thread k st) as Hn.
  destruct (perform k st) as [st1 new]. simpl in *. apply (IH (new ++ ks) st1); [| |done].
  - intros q [H|H]%elem_of_app; [by apply (Hn q t)|]. apply (Hks q). by right.
  - apply Hp; [|done]. intros q ->. apply (Hks q). by left.
Qed.

Lemma op_step_stuck op p t st st1 ks :
  inv [] st → op_legal op st → op_step op st = Ok (st1, ks) → stuck p t st → stuck p t st1 ∧ ∀ q, RemoveThread q t ∉ ks.
Proof.
  intros Hinv Hop E Hst. pose proof Hst as (x & y & Hx & He & Ht & Hy & Hs & Hd).
  assert (∀ u z, threads st !! u = Some z → tstarted z = true → u ≠ t) as Hne by (intros u z Hz Hc ->; congruence).
  assert (∀ y', threads st !! t = Some y' → tproc y' = p) as Hty by (intros y1 Hy1; destruct (i_threads _ _ Hinv p x t Hx Ht) as (y' & ? & ?); congruence).
  assert (∀ q, RemoveThread q t ∉ []) as Hnil by (intros q; apply not_elem_of_nil).
  assert (∀ s, procs s !! p = Some x → threads s !! t = Some y → stuck p t s) as Hsame.
  { intros s ? ?. by exists x, y. }
  destruct op as [j c|j q|q u|q u h|u|j|q r|u|u|q j nz|j o bs|j tp|j]; simpl in *; unfold rmap in E.
  - unfold create_child in E. destruct (jobs st !! j) as [z|]; [|done]. destruct (jkilled z); simplify_eq/=. auto.
  - unfold create_process in E. destruct (jobs st !! j) as [z|]; [|done]. destruct (jkilled z); simplify_eq/=.
    split; [|done]. apply Hsame; simpl; [|done]. rewrite lookup_insert_ne by congruence. done.
  - unfold create_thread in E. destruct (procs st !! q) as [z|] eqn:Hz; [|done].
    destruct (is_exited (pstatus z)) eqn:Ez; simplify_eq/=. split; [|done]. apply Hsame; simpl.
    + rewrite lookup_alter_ne by congruence. done.
    + rewrite lookup_insert_ne by congruence. done.
  - unfold proc_start in E. destruct (procs st !! q) as [z|] eqn:Hz; [|done].
    case_bool_decide as Hu; [|done]. simpl in E. destruct (pstatus z) eqn:Ez; simplify_eq/=. assert (q ≠ p) as Hq by (intros ->; simplify_eq; by rewrite Ez in He).
    split; [|done]. apply Hsame; simpl; rewrite lookup_alter_ne; try done.
    intros ->. destruct (i_threads _ _ Hinv q z t Hz Hu) as (y' & Hy' & ?). specialize (Hty y' Hy'). congruence.
  - unfold thread_start in E. destruct (threads st !! u) as [z0|] eqn:Hz0; [|done].
    destruct (procs st !! tproc z0) as [z|] eqn:Hz; [|done]. destruct (pstatus z) eqn:Ez; simplify_eq/=. split; [|done].
    apply Hsame; simpl; [done|]. rewrite lookup_alter_ne; [done|]. intros ->. rewrite (Hty _ Hz0) in Hz. simplify_eq. by rewrite Ez in He.
  - simplify_eq. split; [done|]. by intros q ?%list_elem_of_singleton.
  - simplify_eq. split; [done|]. by intros ? ?%list_elem_of_singleton.
  - simplify_eq. split; [|done]. apply (stuck_keep p t st); [done|by eauto|].
    intros z Hz Hdz. by apply (kill_all_started [u] st).
  - destruct Hop as (z0 & Hz0 & Hl & _). unfold thread_end in E. rewrite Hz0 in E. simplify_eq. split.
    + apply Hsame; simpl; [done|]. rewrite lookup_alter_ne; [done|]. apply (Hne u z0); auto.
    + intros q [= _ <-]%list_elem_of_singleton. by apply (Hne t z0); auto.
  - unfold set_critical_at_job in E. destruct (procs st !! q) as [z|] eqn:Hz; [|done]. destruct (pcritical z); [done|].
    destruct (find_ancestor _ _ _ _); simplify_eq/=. split; [|done]. apply (stuck_keep p t st); [done| |by eauto].
    intros x1 Hx1 He1 Ht1. simpl. destruct (decide (q = p)) as [->|].
    + rewrite lookup_alter_eq, Hx1. by eauto.
    + rewrite lookup_alter_ne by done. by eauto.
  - simplify_eq. split; [|done]. unfold set_policy_basic. destruct (jobs st !! j) as [z|]; [|done].
    destruct (negb _); [done|]. by destruct (set_policies _ _ _ _).
  - unfold set_policy_timer_slack in E. destruct (jobs st !! j) as [z|]; [|done]. destruct (negb _); [done|].
    destruct (check_timer_policy tp); simplify_eq/=. auto.
  - unfold drop_job in E. destruct (jobs st !! j) as [z|]; simplify_eq; [|done]. split; [auto|].
    intros q. destruct (jparent z); [by intros ?%list_elem_of_singleton|apply not_elem_of_nil].
Qed.

(** A thread that was created but never started keeps its process from terminating:
    [exit] only marks it as dying, nothing runs that would remove it, and [task_kill],
    further exits or the kill of the job do not help. *)
Theorem unstarted_thread_blocks st p x t y st' :
  task_reach st → procs st !! p = Some x → is_exited (pstatus x) = true → t ∈ pthreads x →
  threads st !! t = Some y → tstarted y = false → rtc task_next st st' →
  ∃ x', procs st' !! p = Some x' ∧ pterminated x' = false.
Proof.
  intros Hr Hx He Ht Hy Hs Hsteps. pose proof (task_reach_inv st Hr) as Hinv.
  assert (stuck p t st) as Hst.
  { exists x, y. split_and!; try done. by apply (i_exit_thread _ _ Hinv p x t y). }
  clear Hx He Ht Hy Hs x y.
  assert (task_reach st' ∧ stuck p t st') as [Hr' Hst'].
  { clear Hinv. induction Hsteps as [|st st2 st3 (op & st1 & ks & fuel & Hop & E & Er) _ IH]; [done|].
    destruct (op_step_stuck op p t st st1 ks (task_reach_inv st Hr) Hop E Hst) as [Hst1 Hks].
    apply IH; [by eapply task_reach_op|by eapply run_stuck]. }
  destruct Hst' as (x' & y' & Hx' & He' & Ht' & _). exists x'. split; [done|].
  destruct (pterminated x') eqn:E; [|done].
  destruct (i_proc_term _ _ (task_reach_inv st' Hr') p x' Hx' E) as [_ Hn]. rewrite Hn in Ht'. by apply elem_of_nil in Ht'.
Qed.

(** ** A concrete tree: a job with one process, whose first thread is started and whose
    second one is not. *)
Definition w_step (op : task_op) (st : tasks) : tasks :=
  match op_step op st with
  | Ok (st1, ks) => default st1 (run 20 ks st1)
  | _ => st
  end.

Definition w_ops : list task_op :=
  [OCreateJob 0 1; OCreateProcess 1 1; OCreateThread 1 1; OStart 1 1 (Some 7%Z)].

Definition w_running : tasks := Eval vm_compute in fold_left (λ st op, w_step op st) w_ops root.
Definition w_killed : tasks := Eval vm_compute in w_step (OKillJob 1) w_running.
Definition w_done : tasks := Eval vm_compute in w_step (OThreadEnd 1) w_killed.
Definition w_second : tasks := Eval vm_compute in w_step (OCreateThread 1 2) w_running.
Definition w_blocked : tasks := Eval vm_compute in w_step (OExit 1 0%Z) w_second.
Definition w_blocked_end : tasks := Eval vm_compute in w_step (OThreadEnd 1) w_blocked.

Lemma w_reach_step op st st1 ks st' :
  task_reach st → op_legal op st → op_step op st = Ok (st1, ks) → run 20 ks st1 = Some st' → task_reach st'.
Proof. apply task_reach_op. Qed.

Ltac w_legal := first [exact I|vm_compute; reflexivity|eexists; split_and!; [vm_compute; reflexivity|done..]].
Ltac w_next op st := eapply (w_reach_step op st); [|w_legal|vm_compute; reflexivity|vm_compute; reflexivity].

Lemma w_reach_running : task_reach w_running.
Proof.
  w_next (OStart 1 1 (Some 7%Z)) (w_step (OCreateThread 1 1) (w_step (OCreateProcess 1 1) (w_step (OCreateJob 0 1) root))).
  w_next (OCreateThread 1 1) (w_step (OCreateProcess 1 1) (w_step (OCreateJob 0 1) root)).
  w_next (OCreateProcess 1 1) (w_step (OCreateJob 0 1) root).
  eapply (w_reach_step (OCreateJob 0 1) root); [constructor| |vm_compute; reflexivity|vm_compute; reflexivity].
  intros k [x Hx]. simpl in Hx. apply lookup_singleton_Some in Hx as [<- _]. lia.
Qed.

Lemma w_reach_killed : task_reach w_killed.
Proof. w_next (OKillJob 1) w_running. apply w_reach_running. Qed.

Lemma w_reach_done : task_reach w_done.
Proof. w_next (OThreadEnd 1) w_killed. apply w_reach_killed. Qed.

Lemma w_reach_blocked : task_reach w_blocked.
Proof. w_next (OExit 1 0%Z) w_second. w_next (OCreateThread 1 2) w_running. apply w_reach_running. Qed.

Lemma task_calls_terminate_witness : ∃ fuel st', run fuel [JobKill 1] w_running = Some st'.
Proof. apply (task_calls_terminate w_running (OKillJob 1)); [apply w_reach_running|done|done]. Defined.

(** A kill of the job while the last thread of its process ends: the calls of both are interleaved. *)
Definition w_call (c : list (list call) * tasks) (n : nat) : list (list call) * tasks :=
  match c.1 !! n with
  | Some (k :: ks) => let '(st, new) := perform k c.2 in (<[n := new ++ ks]> c.1, st)
  | Some [] => (delete n c.1, c.2)
  | None => c
  end.
Lemma w_call_inter (c : list (list call) * tasks) n : task_inter c.1 c.2 → task_inter (w_call c n).1 (w_call c n).2.
Proof.
  intros Hc. unfold w_call. destruct (c.1 !! n) as [[|k ks]|] eqn:E; [by apply inter_done| |done]. destruct (perform k c.2) as [st new] eqn:Ep. by eapply inter_call.
Qed.
Lemma w_calls_inter ns (c : list (list call) * tasks) : task_inter c.1 c.2 → task_inter (foldl w_call c ns).1 (foldl w_call c ns).2.
Proof. revert c. induction ns as [|n ns IH]; intros c Hc; [done|]. by apply IH, w_call_inter. Qed.
Definition w_both : list (list call) * tasks := ([[RemoveThread 1 1]; [JobKill 1]], (thread_end 1 w_running).1).
Lemma w_both_inter : task_inter w_both.1 w_both.2.
Proof.
  eapply (inter_op [[JobKill 1]] w_running (OThreadEnd 1)); [|w_legal|exact I|vm_compute; reflexivity].
  eapply (inter_op [] w_running (OKillJob 1)); [|exact I|exact I|reflexivity]. apply reach_inter, w_reach_running.
Qed.
Definition w_schedule : list nat := [0; 1; 1; 0; 1; 0; 1; 0; 1; 0; 1; 0; 0; 0].
Lemma task_tree_killed_witness : ∃ x, jobs (foldl w_call w_both w_schedule).2 !! 1%nat = Some x ∧ jkilled x = true ∧ terminated x = jkilled x && job_empty x.
Proof.
  assert (concat (foldl w_call w_both w_schedule).1 = []) as Hp by (vm_compute; reflexivity).
  assert (∃ x, jobs (foldl w_call w_both w_schedule).2 !! 1%nat = Some x ∧ jkilled x = true) as (x & Hx & Hk) by (eexists; split; vm_compute; reflexivity).
  exists x. split_and!; [exact Hx|exact Hk|].
  exact (proj1 (proj2 (proj2 (proj2 (proj2 (task_tree_killed _ _ (w_calls_inter w_schedule w_both w_both_inter)))) Hp)) 1%nat x Hx).
Defined.

(** [remove_thread] releases the lock of the process before [terminate] takes it again: a thread that is added in between is in a
    process that has terminated, and runs on. *)
Lemma thread_added_too_late :
  let '(st1, ks1) := thread_end 1 w_running in
  ks1 = [RemoveThread 1 1] ∧
  let '(st2, ks2) := remove_thread 1 1 st1 in
  ks2 = [ProcTerminate 1] ∧
  ∃ st3 st4, create_thread 1 2 st2 = Ok st3 ∧ thread_start 2 st3 = Ok st4 ∧
  let st5 := (proc_terminate 1 st4).1 in
  ∃ z u, procs st5 !! 1%nat = Some z ∧ pterminated z = true ∧ pthreads z = [2%nat] ∧ threads st5 !! 2%nat = Some u ∧ tlife u = ThreadState.Running.
Proof. vm_compute. split; [done|]. split; [done|]. do 2 eexists. split; [reflexivity|]. split; [reflexivity|]. do 2 eexists. by repeat split. Qed.
(** [sys_thread_start] looks at the status before it starts the thread: a process that exits in between has a thread that is
    not dying. *)
Lemma thread_started_too_late :
  (∃ st, thread_start 2 w_second = Ok st) ∧
  ∃ st, run 20 [ProcExit 1 0%Z] w_second = Some st ∧
  ∃ z u, procs (start_thread 2 st) !! 1%nat = Some z ∧ is_exited (pstatus z) = true ∧ 2%nat ∈ pthreads z ∧ threads (start_thread 2 st) !! 2%nat = Some u ∧ ¬ dying u.
Proof.
  split; [eexists; vm_compute; reflexivity|]. eexists. split; [vm_compute; reflexivity|]. do 2 eexists. split; [vm_compute; reflexivity|]. split; [done|]. split; [by right; left|]. split; [vm_compute; reflexivity|]. by intros [[=]|[=]].
Qed.

Lemma job_kill_terminates_witness : ∃ y, jobs w_done !! 1%nat = Some y ∧ terminated y = true.
Proof.
  eexists. split; [vm_compute; reflexivity|].
  eapply (job_kill_terminates w_done 1%nat _ w_reach_done); [vm_compute; reflexivity|reflexivity| |constructor|vm_compute; reflexivity].
  intros k y p z Hb. inversion Hb as [j e1 e2|j c k' x y' Hx Hc Hy Hb' e1 e2]; subst.
  - intros Hy Hp. vm_compute in Hy. simplify_eq. by apply elem_of_nil in Hp.
  - vm_compute in Hx. simplify_eq. by apply elem_of_nil in Hc.
Defined.

Lemma unstarted_thread_blocks_witness : ∃ x, procs w_blocked_end !! 1%nat = Some x ∧ pterminated x = false.
Proof.
  eapply (unstarted_thread_blocks w_blocked 1%nat _ 2%nat _ w_blocked_end w_reach_blocked);
    [vm_compute; reflexivity|reflexivity|vm_compute; right; left|vm_compute; reflexivity|reflexivity|].
  apply rtc_once. exists (OThreadEnd 1). eexists _, _, 20%nat.
  split_and!; [w_legal|vm_compute; reflexivity|vm_compute; reflexivity].
Defined.

(** ** The locks of a process and of its threads *)
Inductive task_lock := LProcess | LThread (t : nat) | LThreadBase (t : nat) | LExceptionate (t : nat).

#[export] Instance task_lock_eq_dec : EqDecision task_lock.
Proof. solve_decision. Defined.

(** [Thread::stop], called by [Process::exit] for every thread: [true] if the state of the
    thread changes, and its signals with it. *)
Definition stop_actions (tc : nat * bool) : list (action task_lock) :=
  Acquire (LThread (fst tc)) ::
    (if snd tc then [Acquire (LThreadBase (fst tc)); Release (LThreadBase (fst tc))] else []) ++
    [Release (LThread (fst tc))].

(** [Process::exit] of a process with the threads [ts]. *)
Definition exit_actions (ts : list (nat * bool)) : list (action task_lock) :=
  Acquire LProcess :: (ts ≫= stop_actions) ++ [Release LProcess].

(** [Thread::terminate] of a thread that is not the last one of its process. *)
Definition end_actions (t : nat) : list (action task_lock) :=
  [Acquire (LThread t); Acquire (LExceptionate t); Release (LExceptionate t);
   Acquire (LThreadBase t); Release (LThreadBase t); Acquire LProcess; Release LProcess; Release (LThread t)].

Lemma stop_actions_keep ts t :
  Forall (λ tc, tc.1 ≠ t) ts → acts (ts ≫= stop_actions) [LProcess] = Some [LProcess].
Proof.
  induction 1 as [|[v changes] ts Hv _ IH]; [done|].
  change (acts (stop_actions (v, changes) ++ (ts ≫= stop_actions)) [LProcess] = Some [LProcess]).
  rewrite (acts_app _ _ _ [LProcess]); [done|]. unfold stop_actions. simpl.
  assert (filter (λ l', l' ≠ LThread v) [LThread v; LProcess] = [LProcess]) as Hf.
  { rewrite filter_cons_False by (by intros []). by rewrite filter_cons_True. }
  destruct changes; simpl; [|by rewrite Hf].
  rewrite filter_cons_False by (by intros []). do 2 (rewrite (filter_cons_True (λ l', l' ≠ LThreadBase v)) by done).
  by rewrite filter_nil, Hf.
Qed.

Lemma end_actions_keep t :
  acts [Acquire (LExceptionate t); Release (LExceptionate t); Acquire (LThreadBase t); Release (LThreadBase t)]
    [LThread t; LProcess] = Some [LThread t; LProcess].
Proof.
  simpl. do 2 (rewrite filter_cons_False by (by intros []); do 2 rewrite filter_cons_True by done; rewrite filter_nil; simpl).
  done.
Qed.

(** A process that exits while one of its threads ends can deadlock: [Process::exit]
    takes the lock of the thread under that of the process, and [Thread::terminate] that of
    the process under that of the thread. *)
Theorem exit_terminate_deadlock t changes ts :
  (t, changes) ∈ ts → can_deadlock [exit_actions ts; end_actions t].
Proof.
  intros Hin. assert (∃ l1 f l2, ts = l1 ++ (t, f) :: l2 ∧ Forall (λ tc, tc.1 ≠ t) l1) as (l1 & f & l2 & -> & Hl).
  { by eapply first_occurrence. }
  unfold exit_actions, end_actions. rewrite bind_app, <-app_assoc.
  apply (lock_inversion LProcess (LThread t) (l1 ≫= stop_actions) _
           [Acquire (LExceptionate t); Release (LExceptionate t); Acquire (LThreadBase t); Release (LThreadBase t)]);
    [done|by eapply stop_actions_keep|apply end_actions_keep].
Qed.

Lemma exit_terminate_deadlock_witness : can_deadlock [exit_actions [(1%nat, true); (2%nat, true)]; end_actions 2].
Proof. apply (exit_terminate_deadlock 2 true). right. by left. Defined.
