(* ===== verification/PageTable.v ===== *)
(** * Page tables

    [kernel-hal/src/utils/page_table.rs] and [common/vm.rs]: the radix page tables, generic
    in the number of levels (3 on RISC-V, 4 on x86) and in the format of the entries, of
    which there are two, and the operations on ranges that the address regions use.

    The tables live in physical memory, a map from addresses to 64-bit words in which words
    that are absent are zero; frames for new tables come from a list.  The theorems relate the
    radix tree to the translation it stands for: what one operation does to the translation
    of every address. *)

From S2P Require Import Prelude.
From stdpp Require Import options.
#[local] Open Scope Z_scope.

(** ** Flags, sizes and errors *)
Module MMUFlags.
Definition CACHE_1 : Z := bit 0.
Definition CACHE_2 : Z := bit 1.
Definition READ : Z := bit 2.
Definition WRITE : Z := bit 3.
Definition EXECUTE : Z := bit 4.
Definition USER : Z := bit 5.
Definition HUGE_PAGE : Z := bit 6.
Definition DEVICE : Z := bit 7.
Definition RXW : Z := Eval vm_compute in Z.lor READ (Z.lor WRITE EXECUTE).
End MMUFlags.

Module PagingError.
Inductive t := NoMemory | NotMapped | AlreadyMapped.
End PagingError.
Abbreviation PagingResult := (result PagingError.t).

(** [IgnoreNotMappedErr::ignore] *)
Definition ignore {A} (r : PagingResult A) : PagingResult unit :=
  match r with
  | Ok _ | Err PagingError.NotMapped => Ok tt
  | Err e => Err e
  | Panic => Panic
  end.

Module PageSize.
Inductive t := Size4K | Size16K | Size2M | Size1G.
Definition as_usize (s : t) : Z :=
  match s with Size4K => 0x1000 | Size16K => 0x4000 | Size2M => 0x200000 | Size1G => 0x40000000 end.
Definition page_offset (s : t) (addr : Z) : Z := Z.land addr (as_usize s - 1).
Definition align_down (s : t) (addr : Z) : Z := Z.ldiff addr (as_usize s - 1).
Definition is_aligned (s : t) (addr : Z) : bool := page_offset s addr =? 0.
Definition is_huge (s : t) : bool := match s with Size1G | Size2M => true | _ => false end.
End PageSize.

Definition BASE_PAGE_SIZE : PageSize.t := PageSize.Size4K.
Definition PAGE_SIZE : Z := 0x1000.

(** ** Entries *)
Class GenericPTE := {
  pte_addr : Z → Z;
  pte_flags : Z → Z;
  pte_is_unused : Z → bool;
  pte_is_present : Z → bool;
  pte_is_leaf : Z → bool;
  pte_set_flags : Z → bool → Z → Z;
  pte_set_addr : Z → Z → Z;
  pte_set_table : Z → Z
}.

(** What the tables rely on: entries keep the addresses of frames below [pte_limit], and the
    flags up to [pte_norm]; entries for tables and for (huge) pages are told apart, the latter
    provided that the flags are [pte_leafy]. *)
Class PTELaws `{GenericPTE} := {
  pte_limit : Z;
  pte_norm : Z → Z;
  pte_leafy : Z → bool;
  pte_unused_zero e : pte_is_unused e = (e =? 0);
  pte_present_zero : pte_is_present 0 = false;
  pte_leaf_zero : pte_is_leaf 0 = false;
  pte_table_present a : pte_is_present (pte_set_table a) = true;
  pte_table_leaf a : pte_is_leaf (pte_set_table a) = false;
  pte_table_addr a : 0 ≤ a < pte_limit → a mod PAGE_SIZE = 0 → pte_addr (pte_set_table a) = a;
  pte_addr_set a e : 0 ≤ a < pte_limit → a mod PAGE_SIZE = 0 → pte_addr (pte_set_addr a e) = a;
  pte_addr_flags f h e : pte_addr (pte_set_flags f h e) = pte_addr e;
  pte_flags_set f h e : f ≠ 0 → pte_flags (pte_set_flags f h e) = pte_norm f;
  pte_flags_used f h e : f ≠ 0 → pte_set_flags f h e ≠ 0;
  pte_leaf_set f e : f ≠ 0 → pte_leafy f = true → pte_is_leaf (pte_set_flags f true e) = true;
  pte_addr_zero : pte_addr 0 = 0;
  pte_limit_huge : 0 < pte_limit ∧ pte_limit mod 0x40000000 = 0;
  pte_norm_huge f : f ≠ 0 → pte_norm (Z.lor (pte_norm f) MMUFlags.HUGE_PAGE) = pte_norm f;
  pte_leafy_huge f : f ≠ 0 → pte_leafy f = true → pte_leafy (Z.lor (pte_norm f) MMUFlags.HUGE_PAGE) = true
}.

Module X86.
(** [PageTableFlags] of the architecture *)
Definition PRESENT : Z := bit 0.
Definition WRITABLE : Z := bit 1.
Definition USER_ACCESSIBLE : Z := bit 2.
Definition WRITE_THROUGH : Z := bit 3.
Definition NO_CACHE : Z := bit 4.
Definition HUGE_PAGE : Z := bit 7.
Definition NO_EXECUTE : Z := bit 63.
(** the bits that are flags: 0 to 11 and 52 to 63 *)
Definition ptf_all : Z := 0xfff0000000000fff.
Definition PHYS_ADDR_MASK : Z := 0x000ffffffffff000.

Definition ptf_of (f : Z) : Z :=
  if f =? 0 then 0
  else
    let flags := PRESENT in
    let flags := if contains f MMUFlags.WRITE then Z.lor flags WRITABLE else flags in
    let flags := if negb (contains f MMUFlags.EXECUTE) then Z.lor flags NO_EXECUTE else flags in
    let flags := if contains f MMUFlags.USER then Z.lor flags USER_ACCESSIBLE else flags in
    if Z.land f 3 =? 0 then Z.ldiff flags WRITE_THROUGH else Z.lor flags (Z.lor NO_CACHE WRITE_THROUGH).

Definition mmu_of (p : Z) : Z :=
  if p =? 0 then 0
  else
    let ret := MMUFlags.READ in
    let ret := if contains p WRITABLE then Z.lor ret MMUFlags.WRITE else ret in
    let ret := if negb (contains p NO_EXECUTE) then Z.lor ret MMUFlags.EXECUTE else ret in
    let ret := if contains p USER_ACCESSIBLE then Z.lor ret MMUFlags.USER else ret in
    if contains p (Z.lor NO_CACHE WRITE_THROUGH) then Z.lor ret MMUFlags.CACHE_1 else ret.

#[export] Instance X86PTE : GenericPTE := {
  pte_addr e := Z.land e PHYS_ADDR_MASK;
  pte_flags e := mmu_of (from_bits_truncate ptf_all e);
  pte_is_unused e := e =? 0;
  pte_is_present e := contains (from_bits_truncate ptf_all e) PRESENT;
  pte_is_leaf e := contains (from_bits_truncate ptf_all e) HUGE_PAGE;
  pte_set_flags f is_huge e :=
    let flags := if is_huge then Z.lor (ptf_of f) HUGE_PAGE else ptf_of f in
    Z.lor (Z.land e PHYS_ADDR_MASK) flags;
  pte_set_addr paddr e := Z.lor (Z.ldiff e PHYS_ADDR_MASK) (Z.land paddr PHYS_ADDR_MASK);
  pte_set_table paddr :=
    Z.lor (Z.land paddr PHYS_ADDR_MASK) (Z.lor PRESENT (Z.lor WRITABLE USER_ACCESSIBLE))
}.
End X86.

Module Rv64.
Definition VALID : Z := bit 0.
Definition READABLE : Z := bit 1.
Definition WRITABLE : Z := bit 2.
Definition EXECUTABLE : Z := bit 3.
Definition USER : Z := bit 4.
Definition GLOBAL : Z := bit 5.
Definition ACCESSED : Z := bit 6.
Definition DIRTY : Z := bit 7.
Definition ptf_all : Z := 0x3ff.
Definition PHYS_ADDR_MASK : Z := 0x003ffffffffffc00.

Definition ptf_of (f : Z) : Z :=
  if f =? 0 then 0
  else
    let flags := VALID in
    let flags :=
      if contains f MMUFlags.WRITE then Z.lor flags (Z.lor READABLE WRITABLE)
      else if contains f MMUFlags.READ then Z.lor flags READABLE else flags in
    let flags := if contains f MMUFlags.EXECUTE then Z.lor flags EXECUTABLE else flags in
    if contains f MMUFlags.USER then Z.lor flags USER else flags.

Definition mmu_of (p : Z) : Z :=
  let ret := 0 in
  let ret := if contains p READABLE then Z.lor ret MMUFlags.READ else ret in
  let ret := if contains p WRITABLE then Z.lor ret MMUFlags.WRITE else ret in
  let ret := if contains p EXECUTABLE then Z.lor ret MMUFlags.EXECUTE else ret in
  if contains p USER then Z.lor ret MMUFlags.USER else ret.

#[export] Instance Rv64PTE : GenericPTE := {
  pte_addr e := Z.shiftl (Z.land e PHYS_ADDR_MASK) 2;
  pte_flags e := mmu_of (from_bits_truncate ptf_all e);
  pte_is_unused e := e =? 0;
  pte_is_present e := contains (from_bits_truncate ptf_all e) VALID;
  pte_is_leaf e := intersects (from_bits_truncate ptf_all e) (Z.lor READABLE EXECUTABLE);
  pte_set_flags f _ e :=
    Z.lor (Z.land e PHYS_ADDR_MASK) (Z.lor (ptf_of f) (Z.lor ACCESSED DIRTY));
  pte_set_addr paddr e := Z.lor (Z.ldiff e PHYS_ADDR_MASK) (Z.land (Z.shiftr paddr 2) PHYS_ADDR_MASK);
  pte_set_table paddr := Z.lor (Z.land (Z.shiftr paddr 2) PHYS_ADDR_MASK) VALID
}.
End Rv64.

(** ** The entry formats satisfy the laws *)
Lemma land_low e M F A : Z.land M A = 0 → Z.land F A = F → Z.land (Z.lor (Z.land e M) F) A = F.
Proof. intros H1 H2. by rewrite Z.land_lor_distr_l, <-Z.land_assoc, H1, Z.land_0_r, Z.lor_0_l. Qed.

Lemma land_high e M F : Z.land F M = 0 → Z.land (Z.lor (Z.land e M) F) M = Z.land e M.
Proof. intros H. by rewrite Z.land_lor_distr_l, H, Z.lor_0_r, <-Z.land_assoc, Z.land_diag. Qed.

Lemma land_ldiff_mask e M a : Z.land (Z.lor (Z.ldiff e M) (Z.land a M)) M = Z.land a M.
Proof.
  apply Z.bits_inj'. intros k Hk. rewrite !Z.land_spec, Z.lor_spec, Z.ldiff_spec, Z.land_spec.
  by destruct (Z.testbit e k), (Z.testbit M k), (Z.testbit a k).
Qed.

Lemma lor_nonzero a b : b ≠ 0 → Z.lor a b ≠ 0.
Proof. intros Hb [_ ?]%Z.lor_eq_0_iff. done. Qed.

Lemma land_shifted_mask a n m : 0 ≤ n → 0 ≤ m → 0 ≤ a < 2 ^ (n + m) → a mod 2 ^ n = 0 →
  Z.land a (Z.shiftl (Z.ones m) n) = a.
Proof.
  intros Hn Hm Ha Hmod. apply Z.bits_inj'. intros k Hk. rewrite Z.land_spec, Z.shiftl_spec by done.
  destruct (decide (k < n)) as [Hlt|].
  { rewrite (Z.testbit_neg_r (Z.ones m) (k - n)), andb_false_r by lia. symmetry.
    rewrite <-(Z.mod_pow2_bits_low a n k), Hmod by lia. apply Z.bits_0. }
  destruct (decide (k < n + m)).
  - rewrite Z.ones_spec_low, andb_true_r by lia. done.
  - rewrite Z.ones_spec_high, andb_false_r by lia. symmetry.
    destruct (decide (a = 0)) as [->|]; [apply Z.bits_0|]. apply Z.bits_above_log2; [lia|].
    apply Z.log2_lt_pow2; [lia|]. apply Z.lt_le_trans with (2 ^ (n + m)); [lia|]. apply Z.pow_le_mono_r; lia.
Qed.

Module X86Laws.
Import X86.

(** the flags of an entry as read back *)
Definition norm (f : Z) : Z :=
  Z.lor MMUFlags.READ
    (Z.lor (if contains f MMUFlags.WRITE then MMUFlags.WRITE else 0)
      (Z.lor (if contains f MMUFlags.EXECUTE then MMUFlags.EXECUTE else 0)
        (Z.lor (if contains f MMUFlags.USER then MMUFlags.USER else 0)
           (if Z.land f 3 =? 0 then 0 else MMUFlags.CACHE_1)))).

Lemma flags_cases (f : Z) (h : bool) (P : Z → Prop) :
  f ≠ 0 →
  (∀ w x u c : bool, w = contains f MMUFlags.WRITE → x = contains f MMUFlags.EXECUTE →
     u = contains f MMUFlags.USER → c = (Z.land f 3 =? 0) →
     P (let flags := PRESENT in
        let flags := if w then Z.lor flags WRITABLE else flags in
        let flags := if negb x then Z.lor flags NO_EXECUTE else flags in
        let flags := if u then Z.lor flags USER_ACCESSIBLE else flags in
        let flags := if c then Z.ldiff flags WRITE_THROUGH else Z.lor flags (Z.lor NO_CACHE WRITE_THROUGH) in
        if h then Z.lor flags HUGE_PAGE else flags)) →
  P (if h then Z.lor (ptf_of f) HUGE_PAGE else ptf_of f).
Proof. intros Hf H. unfold ptf_of. destruct (Z.eqb_spec f 0); [done|]. by apply H. Qed.

Lemma mask_shifted : PHYS_ADDR_MASK = Z.shiftl (Z.ones 40) 12.
Proof. done. Qed.

#[export] Instance X86PTELaws : PTELaws.
Proof.
  refine {| pte_limit := 2 ^ 52; pte_norm := norm; pte_leafy := λ _, true |}; simpl.
  - done.
  - done.
  - done.
  - intros a. unfold contains, from_bits_truncate. by rewrite land_low.
  - intros a. unfold contains, from_bits_truncate. by rewrite land_low.
  - intros a Ha Hm. rewrite land_high by done. rewrite mask_shifted. by apply (land_shifted_mask a 12 40).
  - intros a e Ha Hm. rewrite land_ldiff_mask, mask_shifted. by apply (land_shifted_mask a 12 40).
  - intros f h e. destruct (decide (f = 0)) as [->|Hf].
    + by destruct h; apply land_high.
    + apply (flags_cases f h (λ F, Z.land (Z.lor (Z.land e PHYS_ADDR_MASK) F) PHYS_ADDR_MASK = Z.land e PHYS_ADDR_MASK)); [done|].
      intros w x u c _ _ _ _. apply land_high. by destruct w, x, u, c, h.
  - intros f h e Hf. unfold from_bits_truncate, norm.
    apply (flags_cases f h (λ F, mmu_of (Z.land (Z.lor (Z.land e PHYS_ADDR_MASK) F) ptf_all) = _)); [done|].
    intros w x u c <- <- <- <-. rewrite land_low; [|done|by destruct w, x, u, c, h]. by destruct w, x, u, c, h.
  - intros f h e Hf. apply lor_nonzero. apply (flags_cases f h (λ F, F ≠ 0)); [done|].
    intros w x u c _ _ _ _. by destruct w, x, u, c, h.
  - intros f e Hf _. unfold contains, from_bits_truncate.
    apply (flags_cases f true (λ F, (Z.land (Z.land (Z.lor (Z.land e PHYS_ADDR_MASK) F) ptf_all) HUGE_PAGE =? HUGE_PAGE) = true)); [done|].
    intros w x u c _ _ _ _. rewrite land_low; [|done|by destruct w, x, u, c]. by destruct w, x, u, c.
  - done.
  - done.
  - intros f _. unfold norm. by destruct (contains f MMUFlags.WRITE), (contains f MMUFlags.EXECUTE),
      (contains f MMUFlags.USER), (Z.land f 3 =? 0).
  - done.
Defined.
End X86Laws.

Module Rv64Laws.
Import Rv64.

Definition norm (f : Z) : Z :=
  Z.lor (if contains f MMUFlags.WRITE || contains f MMUFlags.READ then MMUFlags.READ else 0)
    (Z.lor (if contains f MMUFlags.WRITE then MMUFlags.WRITE else 0)
      (Z.lor (if contains f MMUFlags.EXECUTE then MMUFlags.EXECUTE else 0)
        (if contains f MMUFlags.USER then MMUFlags.USER else 0))).
Definition leafy (f : Z) : bool :=
  contains f MMUFlags.WRITE || contains f MMUFlags.READ || contains f MMUFlags.EXECUTE.

Lemma rv_flags_cases (f : Z) (P : Z → Prop) :
  f ≠ 0 →
  (∀ w r x u : bool, w = contains f MMUFlags.WRITE → r = contains f MMUFlags.READ →
     x = contains f MMUFlags.EXECUTE → u = contains f MMUFlags.USER →
     P (let flags := VALID in
        let flags := if w then Z.lor flags (Z.lor READABLE WRITABLE) else if r then Z.lor flags READABLE else flags in
        let flags := if x then Z.lor flags EXECUTABLE else flags in
        if u then Z.lor flags USER else flags)) →
  P (ptf_of f).
Proof. intros Hf H. unfold ptf_of. destruct (Z.eqb_spec f 0); [done|]. by apply H. Qed.

Lemma shifted_addr a :
  0 ≤ a < 2 ^ 56 → a mod PAGE_SIZE = 0 → Z.shiftl (Z.land (Z.shiftr a 2) PHYS_ADDR_MASK) 2 = a.
Proof.
  intros Ha Hm. change PHYS_ADDR_MASK with (Z.shiftl (Z.ones 44) 10).
  assert (a mod 4 = 0) as H4.
  { rewrite (Z.div_mod a PAGE_SIZE), Hm by done. unfold PAGE_SIZE. rewrite Z.add_0_r.
    rewrite (Z.mul_comm 4096). replace (a / 4096 * 4096) with (a / 4096 * 1024 * 4) by lia. apply Z.mod_mul. lia. }
  assert (a = 4 * (a / 4)) as Ea by (rewrite (Z.div_mod a 4) at 1 by lia; lia).
  rewrite Z.shiftr_div_pow2 by lia. change (2 ^ 2) with 4.
  rewrite (land_shifted_mask (a / 4) 10 44); [|lia|lia| |].
  - rewrite Z.shiftl_mul_pow2 by lia. change (2 ^ 2) with 4. lia.
  - split; [apply Z.div_pos; lia|]. apply Z.div_lt_upper_bound; lia.
  - unfold PAGE_SIZE in Hm. change (2 ^ 10) with 1024.
    rewrite (Z.div_mod a 4096), Hm, Z.add_0_r by lia.
    replace (4096 * (a / 4096)) with (a / 4096 * 1024 * 4) by lia. rewrite Z.div_mul by lia. apply Z.mod_mul. lia.
Qed.

#[export] Instance Rv64PTELaws : PTELaws.
Proof.
  refine {| pte_limit := 2 ^ 56; pte_norm := norm; pte_leafy := leafy |}; simpl.
  - done.
  - done.
  - done.
  - intros a. unfold contains, from_bits_truncate. by rewrite land_low.
  - intros a. unfold intersects, from_bits_truncate. by rewrite land_low.
  - intros a Ha Hm. rewrite land_high by done. by apply shifted_addr.
  - intros a e Ha Hm. rewrite land_ldiff_mask. by apply shifted_addr.
  - intros f h e. f_equal. destruct (decide (f = 0)) as [->|Hf]; [by apply land_high|].
    apply (rv_flags_cases f (λ F, Z.land (Z.lor (Z.land e PHYS_ADDR_MASK) (Z.lor F (Z.lor ACCESSED DIRTY))) PHYS_ADDR_MASK = _)); [done|].
    intros w r x u _ _ _ _. apply land_high. by destruct w, r, x, u.
  - intros f h e Hf. unfold from_bits_truncate, norm.
    apply (rv_flags_cases f (λ F, mmu_of (Z.land (Z.lor (Z.land e PHYS_ADDR_MASK) (Z.lor F (Z.lor ACCESSED DIRTY))) ptf_all) = _)); [done|].
    intros w r x u <- <- <- <-. rewrite land_low; [|done|by destruct w, r, x, u]. by destruct w, r, x, u.
  - intros f h e Hf. apply lor_nonzero. apply lor_nonzero. done.
  - intros f e Hf. unfold leafy, intersects, from_bits_truncate.
    apply (rv_flags_cases f (λ F, _ → negb (Z.land (Z.land (Z.lor (Z.land e PHYS_ADDR_MASK) (Z.lor F (Z.lor ACCESSED DIRTY))) ptf_all) (Z.lor READABLE EXECUTABLE) =? 0) = true)); [done|].
    intros w r x u <- <- <- _ Hl. rewrite land_low; [|done|by destruct w, r, x, u]. by destruct w, r, x, u.
  - done.
  - done.
  - intros f _. unfold norm. by destruct (contains f MMUFlags.WRITE), (contains f MMUFlags.READ),
      (contains f MMUFlags.EXECUTE), (contains f MMUFlags.USER).
  - intros f _. unfold leafy, norm. by destruct (contains f MMUFlags.WRITE), (contains f MMUFlags.READ),
      (contains f MMUFlags.EXECUTE), (contains f MMUFlags.USER).
Defined.
End Rv64Laws.

(** ** The table *)
(** [PageTableImpl], with the physical memory that holds the tables and the frames that the
    allocator still has. *)
Record PageTableImpl := mkPT {
  root : Z;
  intrm_tables : list Z;
  pmem : gmap Z Z;
  free_frames : list Z
}.

Definition ENTRY_COUNT : Z := 512.
Definition p4_index (vaddr : Z) : Z := Z.land (Z.shiftr vaddr (12 + 27)) (ENTRY_COUNT - 1).
Definition p3_index (vaddr : Z) : Z := Z.land (Z.shiftr vaddr (12 + 18)) (ENTRY_COUNT - 1).
Definition p2_index (vaddr : Z) : Z := Z.land (Z.shiftr vaddr (12 + 9)) (ENTRY_COUNT - 1).
Definition p1_index (vaddr : Z) : Z := Z.land (Z.shiftr vaddr 12) (ENTRY_COUNT - 1).

(** [&mut table[i]], as the address of the entry. *)
Definition entry_at (table i : Z) : Z := table + 8 * i.

Definition read (pt : PageTableImpl) (a : Z) : Z := default 0 (pmem pt !! a).
Definition write (a v : Z) (pt : PageTableImpl) : PageTableImpl :=
  mkPT (root pt) (intrm_tables pt) (<[a := v]> (pmem pt)) (free_frames pt).

(** [PhysFrame::new_zero]: the words of the frame become zero. *)
Definition zero_frame (f : Z) (m : gmap Z Z) : gmap Z Z :=
  filter (λ kv, ¬ (f ≤ fst kv < f + PAGE_SIZE)) m.

Definition alloc_intrm_table (pt : PageTableImpl) : option (Z * PageTableImpl) :=
  match free_frames pt with
  | [] => None
  | f :: fs => Some (f, mkPT (root pt) (intrm_tables pt ++ [f]) (zero_frame f (pmem pt)) fs)
  end.

Section page_table.
Context `{GenericPTE} (LEVEL : nat).
Implicit Types (pt : PageTableImpl) (vaddr paddr flags : Z).

Definition next_table_mut pt (entry : Z) : PagingResult Z :=
  if negb (pte_is_present (read pt entry)) then Err PagingError.NotMapped else Ok (pte_addr (read pt entry)).

Definition next_table_mut_or_create (entry : Z) pt : PagingResult Z * PageTableImpl :=
  if pte_is_unused (read pt entry) then
    match alloc_intrm_table pt with
    | None => (Err PagingError.NoMemory, pt)
    | Some (paddr, pt) => (Ok paddr, write entry (pte_set_table paddr) pt)
    end
  else (next_table_mut pt entry, pt).

Definition get_entry_mut pt vaddr : PagingResult (Z * PageSize.t) :=
  let? p3 :=
    if (LEVEL =? 3)%nat then Ok (root pt)
    else if (LEVEL =? 4)%nat then next_table_mut pt (entry_at (root pt) (p4_index vaddr))
    else Panic in
  let p3e := entry_at p3 (p3_index vaddr) in
  if pte_is_leaf (read pt p3e) then Ok (p3e, PageSize.Size1G)
  else
    let? p2 := next_table_mut pt p3e in
    let p2e := entry_at p2 (p2_index vaddr) in
    if pte_is_leaf (read pt p2e) then Ok (p2e, PageSize.Size2M)
    else
      let? p1 := next_table_mut pt p2e in
      Ok (entry_at p1 (p1_index vaddr), PageSize.Size4K).

(** The page of the source is the pair of its address and its size. *)
Definition get_entry_mut_or_create vaddr (size : PageSize.t) pt : PagingResult Z * PageTableImpl :=
  let '(r3, pt) :=
    if (LEVEL =? 3)%nat then (Ok (root pt), pt)
    else if (LEVEL =? 4)%nat then next_table_mut_or_create (entry_at (root pt) (p4_index vaddr)) pt
    else (Panic, pt) in
  match r3 with
  | Ok p3 =>
      let p3e := entry_at p3 (p3_index vaddr) in
      match size with
      | PageSize.Size1G => (Ok p3e, pt)
      | _ =>
          match next_table_mut_or_create p3e pt with
          | (Ok p2, pt) =>
              let p2e := entry_at p2 (p2_index vaddr) in
              match size with
              | PageSize.Size2M => (Ok p2e, pt)
              | _ =>
                  match next_table_mut_or_create p2e pt with
                  | (Ok p1, pt) => (Ok (entry_at p1 (p1_index vaddr)), pt)
                  | (Err e, pt) => (Err e, pt)
                  | (Panic, pt) => (Panic, pt)
                  end
              end
          | (Err e, pt) => (Err e, pt)
          | (Panic, pt) => (Panic, pt)
          end
      end
  | Err e => (Err e, pt)
  | Panic => (Panic, pt)
  end.

Definition map vaddr (size : PageSize.t) paddr flags pt : PagingResult unit * PageTableImpl :=
  match get_entry_mut_or_create vaddr size pt with
  | (Ok entry, pt) =>
      if negb (pte_is_unused (read pt entry)) then (Err PagingError.AlreadyMapped, pt)
      else
        let e := pte_set_addr (PageSize.align_down size paddr) (read pt entry) in
        (Ok tt, write entry (pte_set_flags flags (PageSize.is_huge size) e) pt)
  | (Err e, pt) => (Err e, pt)
  | (Panic, pt) => (Panic, pt)
  end.

Definition unmap vaddr pt : PagingResult (Z * PageSize.t) * PageTableImpl :=
  match get_entry_mut pt vaddr with
  | Ok (entry, size) =>
      if pte_is_unused (read pt entry) then (Err PagingError.NotMapped, pt)
      else (Ok (pte_addr (read pt entry), size), write entry 0 pt)
  | Err e => (Err e, pt)
  | Panic => (Panic, pt)
  end.

Definition update vaddr (paddr flags : option Z) pt : PagingResult PageSize.t * PageTableImpl :=
  match get_entry_mut pt vaddr with
  | Ok (entry, size) =>
      let e := match paddr with Some a => pte_set_addr a (read pt entry) | None => read pt entry end in
      let e := match flags with Some f => pte_set_flags f (PageSize.is_huge size) e | None => e end in
      (Ok size, write entry e pt)
  | Err e => (Err e, pt)
  | Panic => (Panic, pt)
  end.

Definition query pt vaddr : PagingResult (Z * Z * PageSize.t) :=
  let? (entry, size) := get_entry_mut pt vaddr in
  if pte_is_unused (read pt entry) then Err PagingError.NotMapped
  else Ok (pte_addr (read pt entry) + PageSize.page_offset size vaddr, pte_flags (read pt entry), size).

(** The size of the next page of [map_cont]. *)
Definition cont_size vaddr paddr (end_vaddr flags : Z) : PageSize.t :=
  let remains := end_vaddr - vaddr in
  if negb (contains flags MMUFlags.HUGE_PAGE) then BASE_PAGE_SIZE
  else if (PageSize.as_usize PageSize.Size1G <=? remains) && PageSize.is_aligned PageSize.Size1G vaddr
            && PageSize.is_aligned PageSize.Size1G paddr then PageSize.Size1G
  else if (PageSize.as_usize PageSize.Size2M <=? remains) && PageSize.is_aligned PageSize.Size2M vaddr
            && PageSize.is_aligned PageSize.Size2M paddr then PageSize.Size2M
  else BASE_PAGE_SIZE.

(** The loops advance by a page at least; [fuel] is the number of pages. *)
Fixpoint map_cont_loop (fuel : nat) vaddr paddr (end_vaddr flags : Z) pt : PagingResult unit * PageTableImpl :=
  if negb (vaddr <? end_vaddr) then (Ok tt, pt)
  else match fuel with
  | O => (Panic, pt)
  | S fuel =>
      let size := cont_size vaddr paddr end_vaddr flags in
      match map vaddr size paddr flags pt with
      | (Ok _, pt) =>
          map_cont_loop fuel (vaddr + PageSize.as_usize size) (paddr + PageSize.as_usize size) end_vaddr flags pt
      | (Err e, pt) => (Err e, pt)
      | (Panic, pt) => (Panic, pt)
      end
  end.

Definition page_aligned (x : Z) : bool := x mod PAGE_SIZE =? 0.

Definition map_cont start_vaddr (size : Z) start_paddr flags pt : PagingResult unit * PageTableImpl :=
  if negb (page_aligned start_vaddr) || negb (page_aligned size) then (Panic, pt)
  else map_cont_loop (Z.to_nat (size / PAGE_SIZE)) start_vaddr start_paddr (start_vaddr + size) flags pt.

(** The rest of a huge page that is unmapped in part. *)
Definition remap_rest vaddr (remove_end paddr flags : Z) (size : PageSize.t) pt : PagingResult unit * PageTableImpl :=
  let mapping_start := PageSize.align_down size vaddr in
  let mapping_end := mapping_start + PageSize.as_usize size in
  let paddr_start := paddr - PageSize.page_offset size vaddr in
  if (mapping_start <? vaddr) || (remove_end <? mapping_end) then
    let flags := Z.lor flags MMUFlags.HUGE_PAGE in
    match (if mapping_start <? vaddr then map_cont mapping_start (vaddr - mapping_start) paddr_start flags pt
           else (Ok tt, pt)) with
    | (Ok _, pt) =>
        if remove_end <? mapping_end
        then map_cont remove_end (mapping_end - remove_end) (paddr_start + remove_end - mapping_start) flags pt
        else (Ok tt, pt)
    | r => r
    end
  else (Ok tt, pt).

Fixpoint unmap_cont_loop (fuel : nat) vaddr (end_vaddr : Z) pt : PagingResult unit * PageTableImpl :=
  if negb (vaddr <? end_vaddr) then (Ok tt, pt)
  else match fuel with
  | O => (Panic, pt)
  | S fuel =>
      match query pt vaddr with
      | Ok (paddr, flags, size) =>
          let remove_end := Z.min end_vaddr (PageSize.align_down size vaddr + PageSize.as_usize size) in
          match unmap vaddr pt with
          | (Ok _, pt) =>
              match remap_rest vaddr remove_end paddr flags size pt with
              | (Ok _, pt) => unmap_cont_loop fuel remove_end end_vaddr pt
              | r => r
              end
          | (Err e, pt) => (Err e, pt)
          | (Panic, pt) => (Panic, pt)
          end
      | Err PagingError.NotMapped => unmap_cont_loop fuel (vaddr + PageSize.as_usize BASE_PAGE_SIZE) end_vaddr pt
      | Err e => (Err e, pt)
      | Panic => (Panic, pt)
      end
  end.

Definition unmap_cont start_vaddr (size : Z) pt : PagingResult unit * PageTableImpl :=
  if negb (page_aligned start_vaddr) || negb (page_aligned size) then (Panic, pt)
  else unmap_cont_loop (Z.to_nat (size / PAGE_SIZE)) start_vaddr (start_vaddr + size) pt.
End page_table.

(** [PageTableImpl::new] *)
Definition new_table (fs : list Z) (m : gmap Z Z) : option PageTableImpl :=
  match fs with [] => None | f :: fs => Some (mkPT f [] (zero_frame f m) fs) end.

(** ** The tree
    A table is named by its depth [d] and by the number [n] that the indices above it form:
    [tab d n]; [ent d m] is the address of the entry with number [m] at depth [d]. *)
Definition frame_ok `{PTELaws} (a : Z) : Prop := 0 ≤ a < pte_limit ∧ a mod PAGE_SIZE = 0.

Lemma entry_at_inj t t' i i' :
  t mod PAGE_SIZE = 0 → t' mod PAGE_SIZE = 0 → 0 ≤ i < 512 → 0 ≤ i' < 512 →
  entry_at t i = entry_at t' i' → t = t' ∧ i = i'.
Proof.
  unfold entry_at, PAGE_SIZE. intros Ht Ht' Hi Hi' E.
  pose proof (Z.div_mod t 4096). pose proof (Z.div_mod t' 4096). lia.
Qed.

Lemma entry_at_frame t f i :
  t mod PAGE_SIZE = 0 → f mod PAGE_SIZE = 0 → 0 ≤ i < 512 → f ≤ entry_at t i < f + PAGE_SIZE → t = f.
Proof.
  unfold entry_at, PAGE_SIZE. intros Ht Hf Hi E.
  pose proof (Z.div_mod t 4096). pose proof (Z.div_mod f 4096). lia.
Qed.

Lemma mod_512 m : 0 ≤ m mod 512 < 512.
Proof. apply Z.mod_pos_bound. lia. Qed.

Lemma page_gap x y : x mod PAGE_SIZE = 0 → y mod PAGE_SIZE = 0 → x < y → x + PAGE_SIZE ≤ y.
Proof. unfold PAGE_SIZE. intros. pose proof (Z.div_mod x 4096). pose proof (Z.div_mod y 4096). lia. Qed.

Section tree.
#[local] Set Default Proof Using "All".
Context `{PTELaws} (LEVEL : nat).
Hypothesis level_ok : LEVEL = 3%nat ∨ LEVEL = 4%nat.
Implicit Types (pt : PageTableImpl) (vaddr paddr flags : Z) (d k : nat).

Definition ptr (e : Z) : option Z := if pte_is_present e && negb (pte_is_leaf e) then Some (pte_addr e) else None.

Fixpoint tab pt d (n : Z) : option Z :=
  match d with
  | O => if n =? 0 then Some (root pt) else None
  | S d => t ← tab pt d (n / 512); ptr (read pt (entry_at t (n mod 512)))
  end.

Definition ent pt d (m : Z) : option Z := t ← tab pt d (m / 512); Some (entry_at t (m mod 512)).

(** The tables form a tree of frames that are not free; entries above the last level are
    unused, tables or huge pages. *)
Record pt_wf pt : Prop := {
  wf_tab d n t : (d < LEVEL)%nat → tab pt d n = Some t → frame_ok t ∧ t ∉ free_frames pt;
  wf_inj d d' n n' t : (d < LEVEL)%nat → (d' < LEVEL)%nat →
    tab pt d n = Some t → tab pt d' n' = Some t → d = d' ∧ n = n';
  wf_free : NoDup (free_frames pt) ∧ ∀ f, f ∈ free_frames pt → frame_ok f;
  wf_present d m a : (S d < LEVEL)%nat → ent pt d m = Some a → read pt a ≠ 0 →
    pte_is_leaf (read pt a) = false → pte_is_present (read pt a) = true;
  wf_top m a : LEVEL = 4%nat → ent pt 0 m = Some a → pte_is_leaf (read pt a) = false
}.

Lemma tab_S pt d n : tab pt (S d) n = a ← ent pt d n; ptr (read pt a).
Proof. simpl. unfold ent. by destruct (tab pt d (n / 512)). Qed.

Lemma ent_Some pt d m a :
  ent pt d m = Some a ↔ ∃ t, tab pt d (m / 512) = Some t ∧ a = entry_at t (m mod 512).
Proof. unfold ent. destruct (tab pt d (m / 512)); simpl; naive_solver. Qed.

Lemma ent_inj pt d d' m m' a :
  pt_wf pt → (d < LEVEL)%nat → (d' < LEVEL)%nat → ent pt d m = Some a → ent pt d' m' = Some a → d = d' ∧ m = m'.
Proof.
  intros Hwf Hd Hd' (t & Ht & ->)%ent_Some (t' & Ht' & E)%ent_Some.
  destruct (wf_tab _ Hwf d _ t Hd Ht) as [[_ ?] _]. destruct (wf_tab _ Hwf d' _ t' Hd' Ht') as [[_ ?] _].
  apply entry_at_inj in E as [<- E]; [|done|done|apply mod_512|apply mod_512].
  destruct (wf_inj _ Hwf d d' _ _ t Hd Hd' Ht Ht') as [-> E']. split; [done|].
  rewrite (Z.div_mod m 512), (Z.div_mod m' 512) by lia. lia.
Qed.

Lemma read_write pt a v x : read (write a v pt) x = if decide (x = a) then v else read pt x.
Proof.
  unfold read. simpl. destruct (decide (x = a)) as [->|].
  - by rewrite lookup_insert_eq.
  - by rewrite lookup_insert_ne.
Qed.

(** Tables depend only on what the entries above them point to. *)
Lemma tab_ext pt pt' d n :
  root pt' = root pt →
  (∀ d' m a, (d' < d)%nat → ent pt d' m = Some a → ptr (read pt' a) = ptr (read pt a)) →
  tab pt' d n = tab pt d n.
Proof.
  intros Hr. revert n. induction d as [|d IH]; intros n Hp; simpl; [by rewrite Hr|].
  rewrite IH by (intros d' m a ?; apply Hp; lia).
  destruct (tab pt d (n / 512)) as [t|] eqn:Et; simpl; [|done].
  apply (Hp d n); [lia|]. apply ent_Some. eauto.
Qed.

(** ** What is mapped
    [trans pt k va] walks down from the level [k] (0 for pages, 1 for 2M, 2 for 1G) and gives
    the entry that maps [va], with its level. *)
Definition dep k : nat := (LEVEL - 1 - k)%nat.
Definition pn k (va : Z) : Z := va / (PAGE_SIZE * 512 ^ Z.of_nat k).

Fixpoint trans pt k (va : Z) : option (Z * nat) :=
  match ent pt (dep k) (pn k va) with
  | None => None
  | Some a =>
      let e := read pt a in
      match k with
      | O => if e =? 0 then None else Some (e, O)
      | S k' => if pte_is_leaf e then Some (e, k) else trans pt k' va
      end
  end.

Lemma pn_S k va : pn (S k) va = pn k va / 512.
Proof.
  unfold pn, PAGE_SIZE. rewrite Z.div_div by lia. f_equal. rewrite Nat2Z.inj_succ, Z.pow_succ_r by lia. lia.
Qed.

Lemma dep_S k : (k < 2)%nat → dep k = S (dep (S k)).
Proof. unfold dep. lia. Qed.

Lemma dep_lt k : (dep k < LEVEL)%nat.
Proof. unfold dep. lia. Qed.

(** Addresses in the same page are mapped by the same entry. *)
Lemma pn_up k va va' : pn 0 va' = pn 0 va → pn k va' = pn k va.
Proof. intros E. induction k as [|k IH]; [done|]. by rewrite !pn_S, IH. Qed.

Lemma trans_same_page pt k va va' : pn 0 va' = pn 0 va → trans pt k va' = trans pt k va.
Proof. intros E. induction k as [|k IH]; simpl; [by rewrite E|]. by rewrite (pn_up (S k) va va' E), IH. Qed.

(** Above an entry there is no leaf. *)
Lemma ent_parent pt k va a :
  (k < 2)%nat → ent pt (dep k) (pn k va) = Some a →
  ∃ b, ent pt (dep (S k)) (pn (S k) va) = Some b ∧ pte_is_leaf (read pt b) = false ∧ read pt b ≠ 0.
Proof.
  intros Hk (t & Ht & ->)%ent_Some. rewrite dep_S, tab_S, pn_S in * by done.
  destruct (ent pt (dep (S k)) (pn k va / 512)) as [b|]; simpl in Ht; [|done]. exists b. split; [done|].
  unfold ptr in Ht. destruct (pte_is_present (read pt b)) eqn:Hp, (pte_is_leaf (read pt b)); simplify_eq/=.
  split; [done|]. intros E. rewrite E, pte_present_zero in Hp. done.
Qed.

Lemma ent_none_below pt k va : (k ≤ 2)%nat → ent pt (dep k) (pn k va) = None → ent pt (dep 0) (pn 0 va) = None.
Proof.
  induction k as [|k IH]; intros Hk Hn; [done|]. apply IH; [lia|].
  destruct (ent pt (dep k) (pn k va)) as [a|] eqn:Ha; [|done].
  apply ent_parent in Ha as (b & Hb & _); [congruence|lia].
Qed.

Lemma trans_down pt k va a :
  (k < 2)%nat → ent pt (dep k) (pn k va) = Some a → trans pt (S k) va = trans pt k va.
Proof.
  intros Hk (b & Hb & Hl & _)%ent_parent; [|done]. simpl trans. by rewrite Hb, Hl.
Qed.

(** The walk from the top reaches every entry that exists. *)
Lemma trans_top pt k va a : (k ≤ 2)%nat → ent pt (dep k) (pn k va) = Some a → trans pt 2 va = trans pt k va.
Proof.
  intros Hk Ha. destruct k as [|[|[|]]]; [|by eapply trans_down; eauto|done|lia].
  destruct (ent_parent pt 0 va a) as (b & Hb & _); [lia|done|].
  etrans; [eapply (trans_down pt 1 va b); [lia|done]|]. eapply trans_down; [lia|done].
Qed.

(** ** The walks of the code *)
Definition va_ok (va : Z) : Prop := 0 ≤ va < 2 ^ (12 + 9 * Z.of_nat LEVEL).

Definition size_of k : PageSize.t :=
  match k with O => PageSize.Size4K | 1%nat => PageSize.Size2M | _ => PageSize.Size1G end.

Lemma land_511 x : Z.land x (ENTRY_COUNT - 1) = x mod 512.
Proof. change (ENTRY_COUNT - 1) with (Z.ones 9). by rewrite Z.land_ones by lia. Qed.

Lemma index_pn va :
  p1_index va = pn 0 va mod 512 ∧ p2_index va = pn 1 va mod 512 ∧
  p3_index va = pn 2 va mod 512 ∧ p4_index va = pn 3 va mod 512.
Proof.
  unfold p1_index, p2_index, p3_index, p4_index, pn. rewrite !land_511, !Z.shiftr_div_pow2 by lia. done.
Qed.

Lemma top_table pt va :
  pt_wf pt → va_ok va →
  (if (LEVEL =? 3)%nat then Ok (root pt)
   else if (LEVEL =? 4)%nat then next_table_mut pt (entry_at (root pt) (p4_index va))
   else Panic) =
  match tab pt (dep 2) (pn 3 va) with Some t => Ok t | None => Err PagingError.NotMapped end.
Proof.
  intros Hwf [Hva1 Hva2]. destruct (index_pn va) as (_ & _ & _ & Hi).
  destruct level_ok as [E|E]; rewrite E; unfold dep; rewrite E; simpl.
  - assert (pn 3 va = 0) as ->; [|done]. unfold pn, PAGE_SIZE. apply Z.div_small.
    rewrite E in Hva2. change (2 ^ (12 + 9 * Z.of_nat 3)) with (4096 * 512 ^ Z.of_nat 3) in Hva2. lia.
  - assert (pn 3 va / 512 = 0) as Hz.
    { rewrite <-pn_S. unfold pn, PAGE_SIZE. apply Z.div_small.
      rewrite E in Hva2. change (2 ^ (12 + 9 * Z.of_nat 4)) with (4096 * 512 ^ Z.of_nat 4) in Hva2. lia. }
    rewrite Hi, Hz. simpl. unfold next_table_mut, ptr.
    rewrite (wf_top _ Hwf (pn 3 va) (entry_at (root pt) (pn 3 va mod 512)) E).
    + by destruct (pte_is_present _).
    + apply ent_Some. simpl. rewrite Hz. eauto.
Qed.

Lemma next_table_tab pt d m b :
  ent pt d m = Some b → pte_is_leaf (read pt b) = false →
  next_table_mut pt b = match tab pt (S d) m with Some t => Ok t | None => Err PagingError.NotMapped end.
Proof.
  intros Hb Hl. rewrite tab_S, Hb. simpl. unfold next_table_mut, ptr. rewrite Hl. by destruct (pte_is_present _).
Qed.

Lemma ent_tab pt k va t i :
  tab pt (dep k) (pn (S k) va) = Some t → i = pn k va mod 512 → ent pt (dep k) (pn k va) = Some (entry_at t i).
Proof. intros Ht ->. apply ent_Some. rewrite <-pn_S. eauto. Qed.

Lemma ent_no_tab pt k va : tab pt (dep k) (pn (S k) va) = None → ent pt (dep k) (pn k va) = None.
Proof. intros Ht. unfold ent. by rewrite <-pn_S, Ht. Qed.

Lemma get_entry_spec pt va :
  pt_wf pt → va_ok va →
  match get_entry_mut LEVEL pt va with
  | Ok (a, s) => ∃ k, (k ≤ 2)%nat ∧ s = size_of k ∧ ent pt (dep k) (pn k va) = Some a ∧
      (k ≠ 0%nat → pte_is_leaf (read pt a) = true) ∧
      trans pt 2 va = if read pt a =? 0 then None else Some (read pt a, k)
  | Err e => e = PagingError.NotMapped ∧ trans pt 2 va = None ∧ ent pt (dep 0) (pn 0 va) = None
  | Panic => False
  end.
Proof.
  intros Hwf Hva. destruct (index_pn va) as (H1 & H2 & H3 & _). unfold get_entry_mut. rewrite top_table by done.
  destruct (tab pt (dep 2) (pn 3 va)) as [t3|] eqn:E3; simpl rbind; cycle 1.
  { apply ent_no_tab in E3. simpl trans. rewrite E3. split_and!; [done|done|]. by apply (ent_none_below pt 2). }
  pose proof (ent_tab pt 2 va t3 _ E3 H3) as Ha3. simpl trans. rewrite Ha3.
  destruct (pte_is_leaf (read pt (entry_at t3 (p3_index va)))) eqn:Hl3; simpl.
  { exists 2%nat. split_and!; [done|done|done|done|]. bcase; [|done]. by rewrite e, pte_leaf_zero in Hl3. }
  rewrite (next_table_tab pt (dep 2) (pn 2 va) _ Ha3 Hl3). rewrite <-(dep_S 1) by lia.
  destruct (tab pt (dep 1) (pn 2 va)) as [t2|] eqn:E2; simpl; cycle 1.
  { apply ent_no_tab in E2. rewrite E2. split_and!; [done|done|]. apply (ent_none_below pt 1); [lia|done]. }
  pose proof (ent_tab pt 1 va t2 _ E2 H2) as Ha2. rewrite Ha2.
  destruct (pte_is_leaf (read pt (entry_at t2 (p2_index va)))) eqn:Hl2; simpl.
  { exists 1%nat. split_and!; [lia|done|done|done|]. bcase; [|done]. by rewrite e, pte_leaf_zero in Hl2. }
  rewrite (next_table_tab pt (dep 1) (pn 1 va) _ Ha2 Hl2). rewrite <-(dep_S 0) by lia.
  destruct (tab pt (dep 0) (pn 1 va)) as [t1|] eqn:E1; simpl; cycle 1.
  { apply ent_no_tab in E1. by rewrite E1. }
  pose proof (ent_tab pt 0 va t1 _ E1 H1) as Ha1. rewrite Ha1. exists 0%nat. by split_and!; [lia|..].
Qed.

(** ** Changing an entry *)
Lemma dep_inj k k' : (k ≤ 2)%nat → (k' ≤ 2)%nat → dep k = dep k' → k = k'.
Proof. unfold dep. lia. Qed.

Lemma ptr_none e : e = 0 ∨ pte_is_leaf e = true → ptr e = None.
Proof. unfold ptr. intros [-> | ->]; [by rewrite pte_present_zero|by rewrite andb_false_r]. Qed.

Section write_entry.
Context pt k (m a v : Z) (Hwf : pt_wf pt) (Hk : (k ≤ 2)%nat) (Ha : ent pt (dep k) m = Some a).
Hypothesis Hold : k ≠ 0%nat → read pt a = 0 ∨ pte_is_leaf (read pt a) = true.
Hypothesis Hnew : k ≠ 0%nat → v = 0 ∨ pte_is_leaf v = true.

Lemma write_tab d n : (d < LEVEL)%nat → tab (write a v pt) d n = tab pt d n.
Proof.
  intros Hd. apply tab_ext; [done|]. intros d' m' a' Hd' Ha'. rewrite read_write.
  destruct (decide (a' = a)) as [->|]; [|done].
  destruct (ent_inj pt d' (dep k) m' m a) as [-> ->]; [done|lia|apply dep_lt|done|done|].
  assert (k ≠ 0%nat) by (unfold dep in Hd'; lia). by rewrite !ptr_none by auto.
Qed.

Lemma write_ent d n : (d < LEVEL)%nat → ent (write a v pt) d n = ent pt d n.
Proof. intros Hd. unfold ent. by rewrite write_tab. Qed.

Lemma write_wf : pt_wf (write a v pt).
Proof.
  split.
  - intros d n t Hd. rewrite write_tab by done. by apply (wf_tab _ Hwf).
  - intros d d' n n' t Hd Hd'. rewrite !write_tab by done. by apply (wf_inj _ Hwf).
  - apply (wf_free _ Hwf).
  - intros d n b Hd. rewrite write_ent, read_write by lia. intros Hb. destruct (decide (b = a)) as [->|].
    + destruct (ent_inj pt d (dep k) n m a) as [-> ->]; [done|lia|apply dep_lt|done|done|].
      intros Hv Hl. destruct Hnew as [|]; [unfold dep in Hd; lia|done|congruence].
    + by apply (wf_present _ Hwf d n b).
  - intros n b HL. rewrite write_ent, read_write by lia. intros Hb. destruct (decide (b = a)) as [->|].
    + destruct (ent_inj pt 0 (dep k) n m a) as [E _]; [done|lia|apply dep_lt|done|done|]. unfold dep in E. lia.
    + by apply (wf_top _ Hwf n b).
Qed.

Lemma write_other va j : (j ≤ 2)%nat → pn k va ≠ m → trans (write a v pt) j va = trans pt j va.
Proof.
  intros Hj Hne. induction j as [|j IH]; simpl trans; rewrite write_ent by apply dep_lt.
  - destruct (ent pt (dep 0) (pn 0 va)) as [b|] eqn:Hb; [|done]. rewrite read_write.
    destruct (decide (b = a)) as [->|]; [|done].
    destruct (ent_inj pt (dep 0) (dep k) (pn 0 va) m a) as [E%dep_inj Em]; try apply dep_lt; try done. by subst k.
  - destruct (ent pt (dep (S j)) (pn (S j) va)) as [b|] eqn:Hb; [|done]. rewrite read_write.
    destruct (decide (b = a)) as [->|]; [|by rewrite IH by lia].
    destruct (ent_inj pt (dep (S j)) (dep k) (pn (S j) va) m a) as [E%dep_inj Em]; try apply dep_lt; try done. by subst k.
Qed.

Lemma write_trans va :
  trans (write a v pt) 2 va =
  if decide (pn k va = m) then if v =? 0 then None else Some (v, k) else trans pt 2 va.
Proof.
  destruct (decide (pn k va = m)) as [Em|]; [|by apply write_other].
  assert (ent (write a v pt) (dep k) (pn k va) = Some a) as Ha' by (rewrite write_ent, Em; [done|apply dep_lt]).
  rewrite (trans_top _ k va a Hk Ha'). assert (k = 0%nat ∨ ∃ k', k = S k') as [Ek|[k' Ek]] by (destruct k; eauto).
  { rewrite Ek in Ha' |- *. simpl trans. by rewrite Ha', read_write, decide_True. }
  rewrite Ek. simpl trans. rewrite <-Ek, Ha', read_write, decide_True by done.
  destruct (Z.eqb_spec v 0) as [Hv|Hv]; [|by destruct Hnew as [|Hl]; [lia|done|rewrite Hl]].
  rewrite Hv, pte_leaf_zero. rewrite Hv in Ha'.
  assert (ent (write a 0 pt) (dep k') (pn k' va) = None) as Hn.
  { apply ent_no_tab. rewrite dep_S, tab_S, <-Ek, Ha' by lia. simpl. rewrite read_write, decide_True by done. by rewrite ptr_none by auto. }
  destruct k'; simpl; by rewrite Hn.
Qed.
End write_entry.

Lemma trans_no_tab pt j va : tab pt (dep j) (pn (S j) va) = None → trans pt j va = None.
Proof. intros E%ent_no_tab. destruct j; simpl; by rewrite E. Qed.

Lemma trans_no_ent pt j va : (j < 2)%nat → ent pt (dep (S j)) (pn (S j) va) = None → trans pt j va = None.
Proof. intros Hj Hn. apply trans_no_tab. by rewrite dep_S, tab_S, Hn by done. Qed.

(** ** Adding a table *)
Section create.
Context pt d (m a f : Z) (fs : list Z) (Hwf : pt_wf pt) (Hd : (S d < LEVEL)%nat) (Ha : ent pt d m = Some a).
Hypothesis Hold : read pt a = 0.
Hypothesis Hfree : free_frames pt = f :: fs.

Definition with_table : PageTableImpl :=
  write a (pte_set_table f) (mkPT (root pt) (intrm_tables pt ++ [f]) (zero_frame f (pmem pt)) fs).

Lemma create_read x :
  read with_table x = if decide (x = a) then pte_set_table f
                      else if decide (f ≤ x < f + PAGE_SIZE) then 0 else read pt x.
Proof.
  unfold with_table. rewrite read_write. destruct (decide (x = a)); [done|]. unfold read, zero_frame. simpl.
  rewrite map_lookup_filter. destruct (decide (f ≤ x < f + PAGE_SIZE)) as [Hx|Hx].
  - destruct (pmem pt !! x); simpl; [|done]. by rewrite option_guard_False by (intros Hn; by apply Hn).
  - destruct (pmem pt !! x); simpl; [|done]. by rewrite option_guard_True.
Qed.

Lemma create_frame : frame_ok f.
Proof. apply (wf_free _ Hwf). rewrite Hfree. by left. Qed.

Lemma create_fresh d' n t : (d' < LEVEL)%nat → tab pt d' n = Some t → t ≠ f.
Proof. intros Hd' Ht ->. destruct (wf_tab _ Hwf d' n f Hd' Ht) as [_ []]. rewrite Hfree. by left. Qed.

(** The entries of the old tables stay, but for the one that is set. *)
Lemma create_read_old d' n x :
  (d' < LEVEL)%nat → ent pt d' n = Some x →
  read with_table x = if decide (d' = d ∧ n = m) then pte_set_table f else read pt x.
Proof.
  intros Hd' Hx. rewrite create_read. destruct (decide (d' = d ∧ n = m)) as [[-> ->]|Hne].
  - rewrite Ha in Hx. simplify_eq. by rewrite decide_True.
  - rewrite decide_False.
    2:{ intros ->. apply Hne. apply (ent_inj pt d' d n m a Hwf Hd'); [lia|done|done]. }
    rewrite decide_False; [done|]. intros Hin. apply ent_Some in Hx as (t & Ht & ->).
    apply (create_fresh d' _ t Hd' Ht). destruct (wf_tab _ Hwf d' _ t Hd' Ht) as [[_ ?] _].
    apply (entry_at_frame t f (n mod 512)); [done|apply create_frame|apply mod_512|done].
Qed.

(** The entries of the new table are unused. *)
Lemma create_read_new n : read with_table (entry_at f (n mod 512)) = 0.
Proof.
  rewrite create_read. rewrite decide_False.
  - rewrite decide_True; [done|]. pose proof (mod_512 n). unfold entry_at, PAGE_SIZE. lia.
  - pose proof Ha as (t & Ht & Ea)%ent_Some. intros E. rewrite Ea in E. destruct (wf_tab _ Hwf d _ t ltac:(lia) Ht) as [[_ ?] _].
    apply entry_at_inj in E as [E _]; [|apply create_frame|done|apply mod_512|apply mod_512].
    by apply (create_fresh d _ t ltac:(lia) Ht).
Qed.

Lemma create_tab_old : tab pt (S d) m = None.
Proof. rewrite tab_S, Ha. simpl. rewrite Hold. by apply ptr_none; left. Qed.

Lemma create_tab d' n :
  (d' < LEVEL)%nat → tab with_table d' n = if decide (d' = S d ∧ n = m) then Some f else tab pt d' n.
Proof.
  revert n. induction d' as [|d' IH]; intros n Hd'; [by rewrite decide_False by (by intros [? _])|].
  simpl tab. rewrite IH by lia. destruct (decide (d' = S d ∧ n / 512 = m)) as [[-> En]|Hne]; cbn -[tab].
  - rewrite create_read_new, ptr_none, decide_False by (lia || by left).
    by rewrite En, create_tab_old.
  - destruct (tab pt d' (n / 512)) as [t|] eqn:Et; simpl.
    + assert (ent pt d' n = Some (entry_at t (n mod 512))) as Hx by (apply ent_Some; eauto).
      rewrite (create_read_old d' n _ ltac:(lia) Hx). destruct (decide (d' = d ∧ n = m)) as [[-> ->]|].
      * rewrite decide_True by done. unfold ptr. rewrite pte_table_present, pte_table_leaf. simpl.
        destruct create_frame. by rewrite pte_table_addr.
      * by rewrite decide_False by naive_solver.
    + rewrite decide_False; [done|]. intros [[= ->] ->]. pose proof Ha as (t & Ht & _)%ent_Some. congruence.
Qed.

Lemma create_ent d' n :
  (d' < LEVEL)%nat → ent with_table d' n = if decide (d' = S d ∧ n / 512 = m) then Some (entry_at f (n mod 512)) else ent pt d' n.
Proof. intros Hd'. unfold ent. rewrite create_tab by done. by destruct (decide _). Qed.

Lemma create_wf : pt_wf with_table.
Proof.
  destruct (wf_free _ Hwf) as [Hnd Hok]. rewrite Hfree in Hnd, Hok. apply NoDup_cons in Hnd as [Hf Hnd]. split.
  - intros d' n t Hd'. rewrite create_tab by done. destruct (decide _); intros Ht.
    + simplify_eq. split; [apply create_frame|done].
    + destruct (wf_tab _ Hwf d' n t Hd' Ht) as [? Hnin]. split; [done|]. simpl. intros Hin. apply Hnin. rewrite Hfree. by right.
  - intros d1 d2 n1 n2 t Hd1 Hd2. rewrite !create_tab by done.
    destruct (decide (d1 = S d ∧ n1 = m)) as [[-> ->]|], (decide (d2 = S d ∧ n2 = m)) as [[-> ->]|].
    + done.
    + intros [= <-] Ht. by destruct (create_fresh d2 n2 f Hd2 Ht).
    + intros Ht [= <-]. by destruct (create_fresh d1 n1 f Hd1 Ht).
    + by apply (wf_inj _ Hwf).
  - simpl. split; [done|]. intros g Hg. apply Hok. by right.
  - intros d' n x Hd'. rewrite create_ent by lia. destruct (decide _); intros Hx; [simplify_eq; by rewrite create_read_new|].
    rewrite (create_read_old d' n x ltac:(lia) Hx). destruct (decide _); [by rewrite pte_table_present|].
    by apply (wf_present _ Hwf d' n x).
  - intros n x HL. rewrite create_ent by lia. rewrite decide_False by (by intros [? _]). intros Hx.
    rewrite (create_read_old 0 n x ltac:(lia) Hx). destruct (decide _); [apply pte_table_leaf|by apply (wf_top _ Hwf n x)].
Qed.

Lemma create_trans j va : (j ≤ 2)%nat → trans with_table j va = trans pt j va.
Proof.
  intros Hj. induction j as [|j IH]; simpl trans; rewrite create_ent by apply dep_lt.
  - destruct (decide _) as [[Ed En]|Hne].
    + rewrite create_read_new. simpl. assert (ent pt (dep 0) (pn 0 va) = None) as ->; [|done].
      apply ent_no_tab. by rewrite pn_S, Ed, En, create_tab_old.
    + destruct (ent pt (dep 0) (pn 0 va)) as [x|] eqn:Hx; [|done].
      rewrite (create_read_old _ _ x (dep_lt 0) Hx), decide_False; [done|]. unfold dep. lia.
  - specialize (IH ltac:(lia)). destruct (decide _) as [[Ed En]|Hne].
    + rewrite create_read_new, pte_leaf_zero, IH.
      assert (ent pt (dep (S j)) (pn (S j) va) = None) as Hn.
      { unfold ent. by rewrite Ed, En, create_tab_old. }
      rewrite Hn. apply trans_no_ent; [lia|done].
    + destruct (ent pt (dep (S j)) (pn (S j) va)) as [x|] eqn:Hx; [|done].
      rewrite (create_read_old _ _ x (dep_lt _) Hx), IH. destruct (decide _) as [[Ed Em]|]; [|done].
      rewrite Ed, Em, Ha in Hx. simplify_eq. by rewrite pte_table_leaf, Hold, pte_leaf_zero.
Qed.
End create.

(** ** The operations *)
Lemma or_create_spec pt d m a :
  pt_wf pt → (S d < LEVEL)%nat → ent pt d m = Some a → pte_is_leaf (read pt a) = false →
  match next_table_mut_or_create a pt with
  | (Ok t, pt') => pt_wf pt' ∧ tab pt' (S d) m = Some t ∧ ∀ va, trans pt' 2 va = trans pt 2 va
  | (Err e, pt') => e = PagingError.NoMemory ∧ pt' = pt
  | (Panic, _) => False
  end.
Proof.
  intros Hwf Hd Ha Hl. unfold next_table_mut_or_create. rewrite pte_unused_zero.
  destruct (Z.eqb_spec (read pt a) 0) as [E|E].
  - unfold alloc_intrm_table. destruct (free_frames pt) as [|f fs] eqn:Hf; [done|].
    change (write a _ _) with (with_table pt a f fs). split_and!.
    + by eapply create_wf.
    + rewrite (create_tab pt d m a f fs) by done. by rewrite decide_True.
    + intros va. by eapply create_trans.
  - unfold next_table_mut. rewrite (wf_present _ Hwf d m a) by done. cbn -[tab]. split_and!; [done| |done].
    rewrite tab_S, Ha. simpl. unfold ptr. by rewrite (wf_present _ Hwf d m a), Hl.
Qed.

(** No page larger than the level [k] maps [va]. *)
Definition no_larger pt k (va : Z) : Prop := ∀ e j, trans pt 2 va = Some (e, j) → (j ≤ k)%nat.

Lemma no_larger_leaf pt k j va a :
  no_larger pt k va → (j ≤ 2)%nat → (k < j)%nat → ent pt (dep j) (pn j va) = Some a → pte_is_leaf (read pt a) = false.
Proof.
  intros Hno Hj Hk Ha. destruct (pte_is_leaf (read pt a)) eqn:Hl; [|done].
  assert (trans pt 2 va = Some (read pt a, j)) as E.
  { rewrite (trans_top pt j va a Hj Ha). destruct j as [|j]; [lia|]. simpl. by rewrite Ha, Hl. }
  apply Hno in E. lia.
Qed.

Lemma top_or_create pt va :
  pt_wf pt → va_ok va →
  match (if (LEVEL =? 3)%nat then (Ok (root pt), pt)
         else if (LEVEL =? 4)%nat then next_table_mut_or_create (entry_at (root pt) (p4_index va)) pt
         else (Panic, pt)) with
  | (Ok t, pt') => pt_wf pt' ∧ tab pt' (dep 2) (pn 3 va) = Some t ∧ ∀ va', trans pt' 2 va' = trans pt 2 va'
  | (Err e, pt') => e = PagingError.NoMemory ∧ pt' = pt
  | (Panic, _) => False
  end.
Proof.
  intros Hwf [Hva1 Hva2]. destruct (index_pn va) as (_ & _ & _ & Hi).
  destruct level_ok as [E|E]; rewrite E; unfold dep; rewrite E; simpl.
  - split_and!; [done| |done]. assert (pn 3 va = 0) as ->; [|done]. unfold pn, PAGE_SIZE. apply Z.div_small.
    rewrite E in Hva2. change (2 ^ (12 + 9 * Z.of_nat 3)) with (4096 * 512 ^ Z.of_nat 3) in Hva2. lia.
  - assert (pn 3 va / 512 = 0) as Hz.
    { rewrite <-pn_S. unfold pn, PAGE_SIZE. apply Z.div_small.
      rewrite E in Hva2. change (2 ^ (12 + 9 * Z.of_nat 4)) with (4096 * 512 ^ Z.of_nat 4) in Hva2. lia. }
    assert (ent pt 0 (pn 3 va) = Some (entry_at (root pt) (p4_index va))) as Ha.
    { apply ent_Some. simpl. rewrite Hz, Hi. eauto. }
    pose proof (or_create_spec pt 0 (pn 3 va) _ Hwf ltac:(lia) Ha (wf_top _ Hwf _ _ E Ha)) as Hs.
    destruct (next_table_mut_or_create _ pt) as [[t|e|] pt']; done.
Qed.

Lemma step_or_create pt j va t i :
  pt_wf pt → (j < 2)%nat → no_larger pt j va → tab pt (dep (S j)) (pn (S (S j)) va) = Some t → i = pn (S j) va mod 512 →
  match next_table_mut_or_create (entry_at t i) pt with
  | (Ok t', pt') => pt_wf pt' ∧ tab pt' (dep j) (pn (S j) va) = Some t' ∧ ∀ va', trans pt' 2 va' = trans pt 2 va'
  | (Err e, pt') => e = PagingError.NoMemory ∧ pt' = pt
  | (Panic, _) => False
  end.
Proof.
  intros Hwf Hj Hno Ht Hi. pose proof (ent_tab pt (S j) va t i Ht Hi) as Ha.
  rewrite (dep_S j) by done. apply or_create_spec; [done|unfold dep; lia|done|].
  by apply (no_larger_leaf pt j (S j) va); [|lia|lia|].
Qed.

Lemma get_entry_or_create_spec pt va k :
  pt_wf pt → va_ok va → (k ≤ 2)%nat → no_larger pt k va →
  match get_entry_mut_or_create LEVEL va (size_of k) pt with
  | (Ok a, pt') => pt_wf pt' ∧ ent pt' (dep k) (pn k va) = Some a ∧ ∀ va', trans pt' 2 va' = trans pt 2 va'
  | (Err e, pt') => e = PagingError.NoMemory ∧ pt_wf pt' ∧ ∀ va', trans pt' 2 va' = trans pt 2 va'
  | (Panic, _) => False
  end.
Proof.
  intros Hwf Hva Hk Hno. destruct (index_pn va) as (H1 & H2 & H3 & _). unfold get_entry_mut_or_create.
  pose proof (top_or_create pt va Hwf Hva) as Htop. revert Htop.
  destruct (if (LEVEL =? 3)%nat then _ else _) as [[t3|e|] pt3]; [|by intros [-> ->]|done].
  intros (Hwf3 & Ht3 & Htr3).
  assert (∀ j, (k ≤ j)%nat → no_larger pt3 j va) as Hno3 by (intros j ? e j'; rewrite Htr3; intros ?%Hno; lia).
  destruct k as [|[|k]]; simpl size_of; cbv iota.
  3:{ assert (k = 0)%nat as -> by lia. split_and!; [done|by eapply ent_tab|done]. }
  all: pose proof (step_or_create pt3 1 va t3 _ Hwf3 ltac:(lia) (Hno3 1%nat ltac:(lia)) Ht3 H3) as Hs2; revert Hs2;
    destruct (next_table_mut_or_create _ pt3) as [[t2|e|] pt2]; [|by intros [-> ->]|done]; intros (Hwf2 & Ht2 & Htr2).
  2:{ split_and!; [done|by eapply ent_tab|]. intros va'. by rewrite Htr2. }
  assert (no_larger pt2 0 va) as Hno2 by (intros e j'; rewrite Htr2; by apply (Hno3 0%nat); lia).
  pose proof (step_or_create pt2 0 va t2 _ Hwf2 ltac:(lia) Hno2 Ht2 H2) as Hs1. revert Hs1.
  destruct (next_table_mut_or_create _ pt2) as [[t1|e|] pt1]; [| |done].
  - intros (Hwf1 & Ht1 & Htr1). split_and!; [done|by eapply ent_tab|]. intros va'. by rewrite Htr1, Htr2.
  - intros [-> ->]. split_and!; [done|done|]. intros va'. by rewrite Htr2.
Qed.

Lemma query_spec pt va :
  pt_wf pt → va_ok va →
  query LEVEL pt va =
  match trans pt 2 va with
  | Some (e, k) => Ok (pte_addr e + PageSize.page_offset (size_of k) va, pte_flags e, size_of k)
  | None => Err PagingError.NotMapped
  end.
Proof.
  intros Hwf Hva. pose proof (get_entry_spec pt va Hwf Hva) as Hs. unfold query.
  destruct (get_entry_mut LEVEL pt va) as [[a s]|e|]; [|by destruct Hs as (-> & -> & _)|done].
  destruct Hs as (k & Hk & -> & Ha & _ & ->). simpl. rewrite pte_unused_zero. by destruct (read pt a =? 0).
Qed.

Lemma trans_level pt va e k : trans pt 2 va = Some (e, k) → (k ≤ 2)%nat.
Proof.
  assert (∀ j, trans pt j va = Some (e, k) → (k ≤ j)%nat) as Hg; [|by apply Hg].
  induction j as [|j IH]; simpl; destruct (ent pt _ _); [|done| |done].
  - destruct (read pt z =? 0); naive_solver lia.
  - destruct (pte_is_leaf (read pt z)); [naive_solver lia|]. intros ?%IH. lia.
Qed.

Lemma trans_none pt k va va' a :
  (k ≤ 2)%nat → ent pt (dep k) (pn k va) = Some a → read pt a = 0 → pn k va' = pn k va → trans pt 2 va' = None.
Proof.
  intros Hk Ha Hr E. rewrite <-E in Ha. rewrite (trans_top pt k va' a Hk Ha). destruct k as [|k]; simpl; rewrite Ha, Hr; [done|].
  rewrite pte_leaf_zero. apply trans_no_tab. rewrite dep_S, tab_S, Ha by lia. simpl. rewrite Hr. apply ptr_none. by left.
Qed.

(** ** Ranges *)
Definition sz k : Z := PageSize.as_usize (size_of k).

Lemma sz_eq k : (k ≤ 2)%nat → sz k = PAGE_SIZE * 512 ^ Z.of_nat k.
Proof. destruct k as [|[|[|]]]; [done|done|done|lia]. Qed.

Lemma sz_pos k : PAGE_SIZE ≤ sz k ∧ sz k mod PAGE_SIZE = 0.
Proof. by destruct k as [|[|[|]]]. Qed.

Lemma pn_sz k va : (k ≤ 2)%nat → pn k va = va / sz k.
Proof. intros Hk. unfold pn. by rewrite sz_eq. Qed.

Lemma page_offset_mod k va : PageSize.page_offset (size_of k) va = va mod sz k.
Proof.
  unfold PageSize.page_offset, sz. destruct k as [|[|k]]; simpl.
  - by apply (Z.land_ones va 12).
  - by apply (Z.land_ones va 21).
  - by apply (Z.land_ones va 30).
Qed.

Lemma ldiff_ones va n : 0 ≤ n → Z.ldiff va (Z.ones n) = va - va mod 2 ^ n.
Proof.
  intros Hn. rewrite Z.ldiff_ones_r, Z.shiftr_div_pow2, Z.shiftl_mul_pow2 by done.
  pose proof (Z.div_mod va (2 ^ n)). assert (2 ^ n ≠ 0) by (apply Z.pow_nonzero; lia). lia.
Qed.

Lemma align_down_mod k va : PageSize.align_down (size_of k) va = va - va mod sz k.
Proof.
  unfold PageSize.align_down, sz. destruct k as [|[|k]]; simpl.
  - by apply (ldiff_ones va 12).
  - by apply (ldiff_ones va 21).
  - by apply (ldiff_ones va 30).
Qed.

(** Addresses in the same page of a level. *)
Lemma pn_same k va va' : (k ≤ 2)%nat → pn k va' = pn k va ↔ va - va mod sz k ≤ va' < va - va mod sz k + sz k.
Proof.
  intros Hk. rewrite !pn_sz by done. pose proof (sz_pos k) as [Hp _]. unfold PAGE_SIZE in Hp.
  pose proof (Z.div_mod va (sz k)). pose proof (Z.div_mod va' (sz k)).
  pose proof (Z.mod_pos_bound va' (sz k)). split; [intros E; rewrite E in *; lia|].
  intros [Hlo Hhi]. symmetry. apply Z.div_unique_pos with (va' - sz k * (va / sz k)); lia.
Qed.

(** ** Translations *)
(** Entries hold frames within the limit, and flags that were given to [map] or [update]. *)
Definition entry_ok (e : Z) k : Prop :=
  0 ≤ pte_addr e ∧ pte_addr e + sz k ≤ pte_limit ∧ pte_addr e mod PAGE_SIZE = 0 ∧
  ∃ f, f ≠ 0 ∧ pte_flags e = pte_norm f ∧ (k ≠ 0%nat → pte_leafy f = true).

Record pt_ok pt : Prop := {
  ok_wf : pt_wf pt;
  ok_entry va e k : trans pt 2 va = Some (e, k) → entry_ok e k
}.

(** Only pages of the base size below [hi]. *)
Definition flat (hi : Z) pt : Prop := ∀ va e k, va < hi → trans pt 2 va = Some (e, k) → k = 0%nat.

(** The physical address and the flags of an address. *)
Definition translate pt (va : Z) : option (Z * Z) :=
  match trans pt 2 va with
  | Some (e, k) => Some (pte_addr e + va mod sz k, pte_flags e)
  | None => None
  end.

Lemma translate_none pt va : translate pt va = None ↔ trans pt 2 va = None.
Proof. unfold translate. by destruct (trans pt 2 va) as [[? ?]|]. Qed.

Lemma no_larger_none pt k va : translate pt va = None → no_larger pt k va.
Proof. intros E%translate_none e j. by rewrite E. Qed.

Lemma block_mod k va va' : (k ≤ 2)%nat → va mod sz k = 0 → va ≤ va' < va + sz k → va' mod sz k = va' - va.
Proof.
  intros Hk Hm Hr. pose proof (sz_pos k) as [Hp _]. unfold PAGE_SIZE in Hp.
  symmetry. apply Z.mod_unique_pos with (va / sz k); [lia|]. pose proof (Z.div_mod va (sz k)). lia.
Qed.

(** The entry that [map] writes. *)
Definition new_entry k (e paddr f : Z) : Z :=
  pte_set_flags f (PageSize.is_huge (size_of k)) (pte_set_addr (PageSize.align_down (size_of k) paddr) e).

Lemma frame_limit k paddr :
  (k ≤ 2)%nat → 0 ≤ paddr < pte_limit → paddr mod sz k = 0 → paddr + sz k ≤ pte_limit.
Proof.
  intros Hk Hp Hm. destruct pte_limit_huge as [Hl Hlm].
  assert (pte_limit mod sz k = 0) as Hlk.
  { rewrite (Z.div_mod pte_limit 0x40000000), Hlm, Z.add_0_r by done.
    destruct k as [|[|[|]]]; [| |by rewrite Z.mul_comm, Z.mod_mul|lia].
    - change 0x40000000 with (0x40000 * 0x1000). rewrite (Z.mul_comm _ (_ / _)), Z.mul_assoc. by apply Z.mod_mul.
    - change 0x40000000 with (0x200 * 0x200000). rewrite (Z.mul_comm _ (_ / _)), Z.mul_assoc. by apply Z.mod_mul. }
  pose proof (sz_pos k) as [Hs _]. unfold PAGE_SIZE in Hs.
  pose proof (Z.div_mod pte_limit (sz k) ltac:(lia)) as E1. pose proof (Z.div_mod paddr (sz k) ltac:(lia)) as E2.
  rewrite Hlk in E1. rewrite Hm in E2. assert (paddr / sz k < pte_limit / sz k); [|nia].
  apply Z.mul_lt_mono_pos_l with (sz k); lia.
Qed.

Lemma mod_page k x : (k ≤ 2)%nat → x mod sz k = 0 → x mod PAGE_SIZE = 0.
Proof.
  intros Hk Hx. pose proof (sz_pos k) as [Hs Hm]. unfold PAGE_SIZE in *.
  rewrite (Z.div_mod x (sz k)), Hx, Z.add_0_r by lia. by rewrite Z.mul_mod, Hm, Z.mul_0_l by lia.
Qed.

Lemma new_entry_ok k e paddr f :
  (k ≤ 2)%nat → 0 ≤ paddr < pte_limit → paddr mod sz k = 0 → f ≠ 0 → (k ≠ 0%nat → pte_leafy f = true) →
  entry_ok (new_entry k e paddr f) k ∧ pte_addr (new_entry k e paddr f) = paddr ∧
  pte_flags (new_entry k e paddr f) = pte_norm f ∧ new_entry k e paddr f ≠ 0 ∧
  (k ≠ 0%nat → pte_is_leaf (new_entry k e paddr f) = true).
Proof.
  intros Hk Hp Hm Hf Hl. pose proof (mod_page k paddr Hk Hm) as Hpm. unfold new_entry.
  assert (PageSize.align_down (size_of k) paddr = paddr) as -> by (rewrite align_down_mod, Hm; lia).
  unfold entry_ok. rewrite pte_addr_flags, pte_addr_set, pte_flags_set by done. split_and!; [lia|by apply frame_limit|done|by eauto|done|done|by apply pte_flags_used|].
  intros Hk0. destruct k as [|[|[|]]]; [done| | |lia]; by apply pte_leaf_set; auto.
Qed.

Lemma map_spec pt va k paddr f :
  pt_ok pt → va_ok va → (k ≤ 2)%nat → va mod sz k = 0 → no_larger pt k va →
  0 ≤ paddr < pte_limit → paddr mod sz k = 0 → f ≠ 0 → (k ≠ 0%nat → pte_leafy f = true) →
  match map LEVEL va (size_of k) paddr f pt with
  | (Ok _, pt') => pt_ok pt' ∧ (∀ va', va ≤ va' < va + sz k → translate pt va' = None) ∧
      (∀ va', translate pt' va' =
         if decide (va ≤ va' < va + sz k) then Some (paddr + (va' - va), pte_norm f) else translate pt va') ∧
      (k = 0%nat → ∀ hi, flat hi pt → flat hi pt')
  | (Err e, pt') => (e = PagingError.NoMemory ∨ (e = PagingError.AlreadyMapped ∧ (k = 0%nat → translate pt va ≠ None))) ∧
      pt_ok pt' ∧ ∀ va', trans pt' 2 va' = trans pt 2 va'
  | (Panic, _) => False
  end.
Proof.
  intros [Hwf Hent] Hva Hk Hal Hno Hp Hpm Hf Hl. unfold map.
  pose proof (get_entry_or_create_spec pt va k Hwf Hva Hk Hno) as Hs.
  destruct (get_entry_mut_or_create LEVEL va (size_of k) pt) as [[a|e|] pt1]; [| |done].
  2:{ destruct Hs as (-> & Hwf1 & Htr). split_and!; [by left| |done]. split; [done|]. intros va' e k'. rewrite Htr. apply Hent. }
  destruct Hs as (Hwf1 & Ha & Htr). rewrite pte_unused_zero. destruct (Z.eqb_spec (read pt1 a) 0) as [Hr|Hr]; simpl.
  2:{ split_and!; [|split; [done|]; intros va' e k'; rewrite Htr; apply Hent|done]. right. split; [done|].
      intros -> Hn%translate_none. rewrite <-Htr in Hn. rewrite (trans_top pt1 0 va a Hk Ha) in Hn. simpl in Hn.
      rewrite Ha in Hn. by destruct (Z.eqb_spec (read pt1 a) 0). }
  destruct (new_entry_ok k (read pt1 a) paddr f) as (Hok & Ead & Efl & Hne & Hleaf); try done.
  fold (new_entry k (read pt1 a) paddr f). set (v := new_entry k (read pt1 a) paddr f) in *.
  assert (∀ va', trans (write a v pt1) 2 va' =
            if decide (pn k va' = pn k va) then Some (v, k) else trans pt 2 va') as Hw.
  { intros va'. rewrite (write_trans pt1 k (pn k va) a v Hwf1 Hk Ha) by auto. rewrite Htr.
    by destruct (Z.eqb_spec v 0). }
  assert (∀ va', pn k va' = pn k va ↔ va ≤ va' < va + sz k) as Hsame.
  { intros va'. rewrite (pn_same k va va' Hk), Hal. by rewrite Z.sub_0_r. }
  split_and!.
  - split; [by apply (write_wf pt1 k (pn k va)); auto|]. intros va' e k'. rewrite Hw. destruct (decide _); [|apply Hent].
    by intros [= <- <-].
  - intros va' Hin. apply translate_none. rewrite <-Htr. apply (trans_none pt1 k va va' a Hk Ha Hr). by apply Hsame.
  - intros va'. unfold translate. rewrite Hw. destruct (decide (pn k va' = pn k va)) as [Es|Es].
    + rewrite decide_True by (by apply Hsame). rewrite Ead, Efl. by rewrite (block_mod k va va') by (done || by apply Hsame).
    + rewrite decide_False by (by rewrite <-Hsame). done.
  - intros -> hi Hflat va' e k' Hhi. rewrite Hw. destruct (decide _); [naive_solver|by apply Hflat].
Qed.

Lemma trans_entry pt va e k :
  pt_wf pt → va_ok va → trans pt 2 va = Some (e, k) →
  ∃ a, get_entry_mut LEVEL pt va = Ok (a, size_of k) ∧ ent pt (dep k) (pn k va) = Some a ∧ read pt a = e ∧ e ≠ 0 ∧
       (k ≠ 0%nat → pte_is_leaf e = true) ∧ (k ≤ 2)%nat.
Proof.
  intros Hwf Hva E. pose proof (get_entry_spec pt va Hwf Hva) as Hs.
  destruct (get_entry_mut LEVEL pt va) as [[a s]|err|]; [|destruct Hs as (_ & ? & _); congruence|done].
  destruct Hs as (k' & Hk & -> & Ha & Hl & Ht). rewrite E in Ht. destruct (Z.eqb_spec (read pt a) 0); simplify_eq.
  exists a. by split_and!.
Qed.

(** Replacing an entry that maps a page by another one, or clearing it. *)
Lemma replace_spec pt va e k a v :
  pt_ok pt → trans pt 2 va = Some (e, k) → ent pt (dep k) (pn k va) = Some a → read pt a = e →
  (k ≠ 0%nat → pte_is_leaf e = true) → (k ≤ 2)%nat → v = 0 ∨ (entry_ok v k ∧ (k ≠ 0%nat → pte_is_leaf v = true)) →
  pt_ok (write a v pt) ∧
  (∀ va', trans (write a v pt) 2 va' =
     if decide (pn k va' = pn k va) then if v =? 0 then None else Some (v, k) else trans pt 2 va').
Proof.
  intros [Hwf Hent] E Ha Hr Hl Hk Hv.
  assert (k ≠ 0%nat → read pt a = 0 ∨ pte_is_leaf (read pt a) = true) as Hold by (rewrite Hr; auto).
  assert (k ≠ 0%nat → v = 0 ∨ pte_is_leaf v = true) as Hnew by (intros; destruct Hv as [|[_ ?]]; auto).
  assert (∀ va', trans (write a v pt) 2 va' = _) as Hw by (intros va'; by apply (write_trans pt k (pn k va) a v)).
  split; [|done]. split; [by apply (write_wf pt k (pn k va))|]. intros va' e' k'. rewrite Hw.
  destruct (decide _); [|apply Hent]. destruct (Z.eqb_spec v 0); [done|]. intros [= <- <-]. by destruct Hv as [|[? _]].
Qed.

Lemma unmap_spec pt va :
  pt_ok pt → va_ok va →
  match trans pt 2 va with
  | Some (e, k) => ∃ pt', unmap LEVEL va pt = (Ok (pte_addr e, size_of k), pt') ∧ pt_ok pt' ∧ (k ≤ 2)%nat ∧
      (∀ hi, flat hi pt → flat hi pt') ∧ ∀ va', translate pt' va' = if decide (pn k va' = pn k va) then None else translate pt va'
  | None => unmap LEVEL va pt = (Err PagingError.NotMapped, pt)
  end.
Proof.
  intros Hok Hva. pose proof Hok as [Hwf _]. unfold unmap. destruct (trans pt 2 va) as [[e k]|] eqn:E.
  - destruct (trans_entry pt va e k Hwf Hva E) as (a & -> & Ha & Hr & He & Hl & Hk).
    rewrite pte_unused_zero, Hr. destruct (Z.eqb_spec e 0); [done|]. eexists. split; [done|].
    destruct (replace_spec pt va e k a 0 Hok E Ha Hr Hl Hk) as [Hok' Hw]; [by left|]. split_and!; [done|done| |].
    + intros hi Hflat va' e' k' Hhi. rewrite Hw. destruct (decide _); [done|]. by apply Hflat.
    + intros va'. unfold translate. rewrite Hw. by destruct (decide _).
  - pose proof (get_entry_spec pt va Hwf Hva) as Hs.
    destruct (get_entry_mut LEVEL pt va) as [[a s]|err|]; [|by destruct Hs as [-> _]|done].
    destruct Hs as (k & _ & _ & _ & _ & Ht). rewrite E in Ht. rewrite pte_unused_zero. by destruct (read pt a =? 0).
Qed.

(** [update] of an address that is mapped by a base page. *)
Lemma update_spec pt va e (paddr : option Z) f :
  pt_ok pt → va_ok va → trans pt 2 va = Some (e, 0%nat) → f ≠ 0 →
  (∀ pa, paddr = Some pa → 0 ≤ pa < pte_limit ∧ pa mod PAGE_SIZE = 0) →
  ∃ pt', update LEVEL va paddr (Some f) pt = (Ok PageSize.Size4K, pt') ∧ pt_ok pt' ∧ (∀ hi, flat hi pt → flat hi pt') ∧
    ∀ va', translate pt' va' =
      if decide (pn 0 va' = pn 0 va) then Some (default (pte_addr e) paddr + va' mod PAGE_SIZE, pte_norm f) else translate pt va'.
Proof.
  intros Hok Hva E Hf Hp. pose proof Hok as [Hwf Hent]. destruct (trans_entry pt va e 0 Hwf Hva E) as (a & Hg & Ha & Hr & He & Hl & Hk).
  unfold update. rewrite Hg. eexists. split; [done|].
  set (v := pte_set_flags _ _ _). assert (pte_addr v = default (pte_addr e) paddr ∧ v ≠ 0 ∧ entry_ok v 0) as (Hv1 & Hv2 & Hv3).
  { unfold v, entry_ok. rewrite pte_addr_flags, pte_flags_set by done.
    destruct (Hent _ _ _ E) as (? & ? & ? & _). destruct paddr as [pa|]; simpl.
    - destruct (Hp pa eq_refl) as [Hr1 Hr2]. rewrite pte_addr_set by done. split_and!; [done|by apply pte_flags_used|lia| |done|by exists f].
      by apply (frame_limit 0).
    - rewrite Hr. split_and!; [done|by apply pte_flags_used|lia|done|done|by exists f]. }
  destruct (replace_spec pt va e 0 a v Hok E Ha Hr Hl Hk) as [Hok' Hw]; [by right|]. split_and!; [done| |].
  - intros hi Hflat va' e' k' Hhi. rewrite Hw. destruct (decide _); [|by apply Hflat]. destruct (v =? 0); naive_solver.
  - intros va'. unfold translate. rewrite Hw. destruct (decide _); [|done]. destruct (Z.eqb_spec v 0); [done|].
    rewrite Hv1. unfold v. by rewrite pte_flags_set.
Qed.

(** [update] of an address that is not mapped: nothing happens, unless the address has an
    entry in a table of the last level; then the entry is filled in. *)
Lemma update_unmapped_spec pt va (paddr : option Z) f :
  pt_ok pt → va_ok va → trans pt 2 va = None → f ≠ 0 →
  (∀ pa, paddr = Some pa → 0 ≤ pa < pte_limit ∧ pa mod PAGE_SIZE = 0) →
  (update LEVEL va paddr (Some f) pt = (Err PagingError.NotMapped, pt) ∧ ent pt (dep 0) (pn 0 va) = None) ∨
  ∃ pt', update LEVEL va paddr (Some f) pt = (Ok PageSize.Size4K, pt') ∧ pt_ok pt' ∧ (∀ hi, flat hi pt → flat hi pt') ∧
    ∀ va', translate pt' va' =
      if decide (pn 0 va' = pn 0 va) then Some (default 0 paddr + va' mod PAGE_SIZE, pte_norm f) else translate pt va'.
Proof.
  intros [Hwf Hent] Hva E Hf Hp. pose proof (get_entry_spec pt va Hwf Hva) as Hs. unfold update.
  destruct (get_entry_mut LEVEL pt va) as [[a s]|err|]; [| |done].
  2:{ left. by destruct Hs as (-> & _ & ->). }
  right. destruct Hs as (k & Hk & -> & Ha & Hl & Ht). rewrite E in Ht.
  destruct (Z.eqb_spec (read pt a) 0) as [Hr|]; [|done].
  assert (k = 0%nat) as ->.
  { destruct k; [done|]. specialize (Hl ltac:(done)). by rewrite Hr, pte_leaf_zero in Hl. }
  eexists. split; [done|]. set (v := pte_set_flags _ _ _).
  assert (pte_addr v = default 0 paddr ∧ v ≠ 0 ∧ entry_ok v 0) as (Hv1 & Hv2 & Hv3).
  { unfold v, entry_ok. rewrite pte_addr_flags, pte_flags_set by done. destruct paddr as [pa|]; simpl.
    - destruct (Hp pa eq_refl) as [Hr1 Hr2]. rewrite pte_addr_set by done. split_and!; [done|by apply pte_flags_used|lia| |done|by exists f].
      by apply (frame_limit 0).
    - rewrite Hr, pte_addr_zero. split_and!; [done|by apply pte_flags_used|lia| |done|by exists f].
      apply (frame_limit 0); [lia| |done]. destruct pte_limit_huge. lia. }
  assert (∀ va', trans (write a v pt) 2 va' = _) as Hw by (intros va'; by apply (write_trans pt 0 (pn 0 va) a v)).
  split_and!.
  - split; [by apply (write_wf pt 0 (pn 0 va))|]. intros va' e' k'. rewrite Hw. destruct (decide _); [|apply Hent].
    destruct (Z.eqb_spec v 0); [done|]. by intros [= <- <-].
  - intros hi Hflat va' e' k' Hhi. rewrite Hw. destruct (decide _); [|by apply Hflat]. destruct (v =? 0); naive_solver.
  - intros va'. unfold translate. rewrite Hw. destruct (decide _); [|done]. destruct (Z.eqb_spec v 0); [done|].
    rewrite Hv1. unfold v. by rewrite pte_flags_set.
Qed.

(** ** Ranges of pages *)
Lemma cont_size_level va pa en f :
  va mod PAGE_SIZE = 0 → en mod PAGE_SIZE = 0 → pa mod PAGE_SIZE = 0 → va < en →
  ∃ k, cont_size va pa en f = size_of k ∧ (k ≤ 2)%nat ∧ va mod sz k = 0 ∧ pa mod sz k = 0 ∧ va + sz k ≤ en ∧
       (k ≠ 0%nat → contains f MMUFlags.HUGE_PAGE = true).
Proof.
  intros Hv He Hp Hlt. pose proof (page_gap va en Hv He Hlt) as Hle.
  assert (∃ k, PageSize.Size4K = size_of k ∧ (k ≤ 2)%nat ∧ va mod sz k = 0 ∧ pa mod sz k = 0 ∧ va + sz k ≤ en ∧
            (k ≠ 0%nat → contains f MMUFlags.HUGE_PAGE = true)) as Hbase.
  { exists 0%nat. unfold PAGE_SIZE in *. unfold sz. simpl. split_and!; [done|lia|lia|lia|lia|done]. }
  unfold cont_size, PageSize.is_aligned, BASE_PAGE_SIZE.
  destruct (contains f MMUFlags.HUGE_PAGE) eqn:Eh; rewrite ?Eh in Hbase; [|done]. cbn [negb].
  match goal with |- context [if ?b then PageSize.Size1G else _] => destruct b eqn:E2 end.
  { exists 2%nat. rewrite !(page_offset_mod 2) in E2. unfold sz in *. simpl in *. split_and!; [done|lia|lia|lia|lia|done]. }
  match goal with |- context [if ?b then PageSize.Size2M else _] => destruct b eqn:E1 end; [|done].
  exists 1%nat. rewrite !(page_offset_mod 1) in E1. unfold sz in *. simpl in *. split_and!; [done|lia|lia|lia|lia|done].
Qed.

(** Inside the range the pages from [pa] on, outside what was there. *)
Definition maps_range pt pt' (va en pa f : Z) : Prop :=
  ∀ va', translate pt' va' = if decide (va ≤ va' < en) then Some (pa + (va' - va), pte_norm f) else translate pt va'.

Lemma map_cont_loop_spec fuel pt va pa en f :
  pt_ok pt → va mod PAGE_SIZE = 0 → en mod PAGE_SIZE = 0 → pa mod PAGE_SIZE = 0 →
  0 ≤ va ≤ en → en ≤ 2 ^ (12 + 9 * Z.of_nat LEVEL) → 0 ≤ pa → pa + (en - va) ≤ pte_limit →
  f ≠ 0 → (contains f MMUFlags.HUGE_PAGE = true → pte_leafy f = true) →
  (∀ va', va ≤ va' < en → translate pt va' = None) → en - va ≤ Z.of_nat fuel * PAGE_SIZE →
  match map_cont_loop LEVEL fuel va pa en f pt with
  | (Ok _, pt') => pt_ok pt' ∧ maps_range pt pt' va en pa f
  | (Err e, pt') => pt_ok pt' ∧ ∀ va', ¬ va ≤ va' < en → translate pt' va' = translate pt va'
  | (Panic, _) => False
  end.
Proof.
  revert pt va pa. induction fuel as [|fuel IH]; intros pt va pa Hok Hv He Hp Hva Hen Hpa Hlim Hf Hl Hnone Hfuel; simpl.
  { assert (va = en) as -> by lia. rewrite Z.ltb_irrefl. simpl. split; [done|]. intros va'. by rewrite decide_False by lia. }
  destruct (Z.ltb_spec va en) as [Hlt|]; simpl.
  2:{ split; [done|]. intros va'. by rewrite decide_False by lia. }
  destruct (cont_size_level va pa en f Hv He Hp Hlt) as (k & -> & Hk & Hvk & Hpk & Hle & Hhk).
  fold (sz k). pose proof (sz_pos k) as [Hs Hsm]. unfold PAGE_SIZE in Hs.
  assert (va_ok va) as Hvaok by (unfold va_ok; lia).
  pose proof (map_spec pt va k pa f Hok Hvaok Hk Hvk (no_larger_none pt k va (Hnone va ltac:(lia))) ltac:(lia) Hpk Hf
    (λ H, Hl (Hhk H))) as Hm.
  destruct (map LEVEL va (size_of k) pa f pt) as [[[]|e|] pt1]; [| |done].
  2:{ destruct Hm as (_ & Hok1 & Htr). split; [done|]. intros va' _. unfold translate. by rewrite Htr. }
  destruct Hm as (Hok1 & _ & Htr & _).
  assert ((va + sz k) mod PAGE_SIZE = 0 ∧ (pa + sz k) mod PAGE_SIZE = 0) as [Hv1 Hp1].
  { split; rewrite Z.add_mod, Hsm, ?Hv, ?Hp; done. }
  specialize (IH pt1 (va + sz k) (pa + sz k) Hok1 Hv1 He Hp1 ltac:(lia) Hen ltac:(lia) ltac:(lia) Hf Hl).
  assert (∀ va', va + sz k ≤ va' < en → translate pt1 va' = None) as Hn1.
  { intros va' Hin. rewrite Htr, decide_False by lia. apply Hnone. lia. }
  specialize (IH Hn1 ltac:(unfold PAGE_SIZE in *; lia)).
  destruct (map_cont_loop LEVEL fuel _ _ en f pt1) as [[[]|e|] pt2]; [| |done].
  - destruct IH as [Hok2 Hr2]. split; [done|]. intros va'. rewrite Hr2, Htr.
    repeat destruct (decide _); try lia; try done. by replace (pa + sz k + (va' - (va + sz k))) with (pa + (va' - va)) by lia.
  - destruct IH as [Hok2 Hr2]. split; [done|]. intros va' Hout. by rewrite Hr2, Htr, decide_False by lia.
Qed.

Lemma map_cont_spec pt va size pa f :
  pt_ok pt → va mod PAGE_SIZE = 0 → size mod PAGE_SIZE = 0 → pa mod PAGE_SIZE = 0 →
  0 ≤ va → 0 ≤ size → va + size ≤ 2 ^ (12 + 9 * Z.of_nat LEVEL) → 0 ≤ pa → pa + size ≤ pte_limit →
  f ≠ 0 → (contains f MMUFlags.HUGE_PAGE = true → pte_leafy f = true) →
  (∀ va', va ≤ va' < va + size → translate pt va' = None) →
  match map_cont LEVEL va size pa f pt with
  | (Ok _, pt') => pt_ok pt' ∧ maps_range pt pt' va (va + size) pa f
  | (Err e, pt') => pt_ok pt' ∧ ∀ va', ¬ va ≤ va' < va + size → translate pt' va' = translate pt va'
  | (Panic, _) => False
  end.
Proof.
  intros Hok Hv Hs Hp Hva Hsz Hen Hpa Hlim Hf Hl Hnone. unfold map_cont, page_aligned. rewrite Hv, Hs. simpl.
  apply map_cont_loop_spec; try done; try lia.
  - by rewrite Z.add_mod, Hv, Hs by done.
  - rewrite Z2Nat.id by (apply Z.div_pos; unfold PAGE_SIZE; lia). unfold PAGE_SIZE in *. pose proof (Z.div_mod size 4096). lia.
Qed.

(** ** Unmapping a range *)
Section remap.
Context pt pt1 (va en : Z) (e : Z) k.
Hypothesis Hok : pt_ok pt.
Hypothesis Hok1 : pt_ok pt1.
Hypothesis He : trans pt 2 va = Some (e, k).
Hypothesis Hva : 0 ≤ va < en ∧ en ≤ 2 ^ (12 + 9 * Z.of_nat LEVEL).
Hypothesis Hal : va mod PAGE_SIZE = 0 ∧ en mod PAGE_SIZE = 0.
Hypothesis Hun : ∀ va', translate pt1 va' = if decide (pn k va' = pn k va) then None else translate pt va'.
Let ms := va - va mod sz k.
Let me := ms + sz k.
Let re := Z.min en me.

Lemma remap_bounds :
  (k ≤ 2)%nat ∧ 0 ≤ ms ≤ va ∧ va + PAGE_SIZE ≤ re ∧ re ≤ me ∧ me ≤ 2 ^ (12 + 9 * Z.of_nat LEVEL) ∧
  ms mod PAGE_SIZE = 0 ∧ me mod PAGE_SIZE = 0 ∧ re mod PAGE_SIZE = 0 ∧ ms mod sz k = 0.
Proof.
  pose proof (trans_level pt va e k He) as Hk. pose proof (sz_pos k) as [Hs Hsm]. unfold PAGE_SIZE in Hs.
  destruct Hva as [[Hv1 Hv2] Hv3]. destruct Hal as [Ha1 Ha2].
  pose proof (Z.mod_pos_bound va (sz k) ltac:(lia)) as Hmb. pose proof (Z.div_mod va (sz k) ltac:(lia)) as Hdm.
  assert (ms mod sz k = 0) as Hmsk.
  { unfold ms. replace (va - va mod sz k) with (va / sz k * sz k) by lia. apply Z.mod_mul. lia. }
  assert (ms mod PAGE_SIZE = 0) as Hms by by apply (mod_page k).
  assert (me mod PAGE_SIZE = 0) as Hme by (unfold me; by rewrite Z.add_mod, Hms, Hsm).
  assert (re mod PAGE_SIZE = 0) as Hre by (unfold re; destruct (Z.min_spec en me) as [[_ ->]|[_ ->]]; done).
  assert (va < re) as Hlt by (unfold re, me, ms; lia). pose proof (Z.mod_le va (sz k) ltac:(lia) ltac:(lia)) as Hle.
  split_and!; try done; try (unfold ms; lia).
  - by apply page_gap.
  - assert (2 ^ (12 + 9 * Z.of_nat LEVEL) mod sz k = 0) as HL.
    { destruct level_ok as [->| ->]; destruct k as [|[|[|]]]; (done || lia). }
    pose proof (Z.div_mod (2 ^ (12 + 9 * Z.of_nat LEVEL)) (sz k) ltac:(lia)) as E. rewrite HL in E.
    pose proof (Z.div_mod ms (sz k) ltac:(lia)) as E'. rewrite Hmsk in E'. unfold me.
    assert (ms / sz k < 2 ^ (12 + 9 * Z.of_nat LEVEL) / sz k); [|nia]. apply Z.mul_lt_mono_pos_l with (sz k); [lia|].
    assert (ms ≤ va) by (unfold ms; lia). lia.
Qed.

Lemma remap_block va' : ms ≤ va' < me → translate pt1 va' = None ∧ translate pt va' = Some (pte_addr e + (va' - ms), pte_flags e).
Proof.
  intros Hin. destruct remap_bounds as (Hk & _ & _ & _ & _ & _ & _ & _ & Hmk).
  assert (pn k va' = pn k va) as Es by (by apply pn_same).
  split; [by rewrite Hun, decide_True|]. pose proof (block_mod k ms va' Hk Hmk Hin) as Hb.
  assert (trans pt 2 va' = Some (e, k)) as E.
  { destruct (trans_entry pt va e k (ok_wf _ Hok) ltac:(unfold va_ok; lia) He) as (a & _ & Ha & Hr & He0 & Hl & _).
    rewrite <-Es in Ha. rewrite (trans_top pt k va' a Hk Ha). rewrite <-Hr in Hl |- *.
    destruct k as [|j]; simpl; rewrite Ha; [by destruct (Z.eqb_spec (read pt a) 0); [congruence|]|]. by rewrite Hl. }
  unfold translate. by rewrite E, Hb.
Qed.

Lemma remap_outside va' : ¬ ms ≤ va' < me → translate pt1 va' = translate pt va'.
Proof.
  intros Hout. destruct remap_bounds as (Hk & _). rewrite Hun, decide_False; [done|].
  by rewrite (pn_same k va va' Hk).
Qed.

Lemma remap_flags : k ≠ 0%nat → let f := Z.lor (pte_flags e) MMUFlags.HUGE_PAGE in
  f ≠ 0 ∧ pte_leafy f = true ∧ pte_norm f = pte_flags e.
Proof.
  intros Hk. destruct (ok_entry _ Hok va e k He) as (_ & _ & _ & f & Hf & -> & Hl). simpl.
  rewrite pte_norm_huge, pte_leafy_huge by auto. split_and!; [|done|done]. by apply lor_nonzero.
Qed.

(** One of the two parts, given by its range. *)
Lemma remap_part pt2 lo hi :
  k ≠ 0%nat → pt_ok pt2 → ms ≤ lo → hi ≤ me → lo mod PAGE_SIZE = 0 → hi mod PAGE_SIZE = 0 → lo < hi →
  (∀ va', lo ≤ va' < hi → translate pt2 va' = None) →
  match map_cont LEVEL lo (hi - lo) (pte_addr e + lo - ms) (Z.lor (pte_flags e) MMUFlags.HUGE_PAGE) pt2 with
  | (Ok _, pt3) => pt_ok pt3 ∧ ∀ va', translate pt3 va' = if decide (lo ≤ va' < hi) then translate pt va' else translate pt2 va'
  | (Err _, pt3) => pt_ok pt3
  | (Panic, _) => False
  end.
Proof.
  intros Hk0 Hok2 Hlo Hhi Hlm Hhm Hlt Hnone. destruct remap_bounds as (Hk & Hms & Hre & Hrm & Hme & Hm1 & Hm2 & _ & Hm4).
  destruct (ok_entry _ Hok va e k He) as (Ha1 & Ha2 & Ha3 & _). destruct (remap_flags Hk0) as (Hf1 & Hf2 & Hf3).
  assert (me - ms = sz k) as Hsz by (unfold me; lia). assert (lo + (hi - lo) = hi) as Ehi by lia.
  assert ((pte_addr e + lo - ms) mod PAGE_SIZE = 0) as Hpm.
  { replace (pte_addr e + lo - ms) with (pte_addr e + (lo - ms)) by lia. by rewrite Z.add_mod, Zminus_mod, Ha3, Hlm, Hm1 by done. }
  assert ((hi - lo) mod PAGE_SIZE = 0) as Hsm by (by rewrite Zminus_mod, Hlm, Hhm).
  pose proof (map_cont_spec pt2 lo (hi - lo) (pte_addr e + lo - ms) _ Hok2 Hlm Hsm Hpm ltac:(lia) ltac:(lia) ltac:(lia)
    ltac:(lia) ltac:(lia) Hf1 (λ _, Hf2)) as Hm. rewrite Ehi in Hm. specialize (Hm Hnone).
  destruct (map_cont LEVEL lo _ _ _ pt2) as [[[]|err|] pt3]; [|by destruct Hm|done].
  destruct Hm as [Hok3 Hr]. split; [done|]. intros va'. rewrite Hr, Hf3. destruct (decide _) as [Hin|]; [|done].
  destruct (remap_block va' ltac:(lia)) as [_ ->]. do 2 f_equal. lia.
Qed.

Lemma remap_rest_spec :
  match remap_rest LEVEL va re (pte_addr e + PageSize.page_offset (size_of k) va) (pte_flags e) (size_of k) pt1 with
  | (Ok _, pt2) => pt_ok pt2 ∧ (k = 0%nat → pt2 = pt1) ∧ ∀ va', translate pt2 va' = if decide (va ≤ va' < re) then None else translate pt va'
  | (Err _, pt2) => pt_ok pt2 ∧ k ≠ 0%nat
  | (Panic, _) => False
  end.
Proof.
  destruct remap_bounds as (Hk & Hms & Hre & Hrm & Hme & Hm1 & Hm2 & Hm3 & Hm4). destruct Hal as [Hal1 Hal2].
  destruct (ok_entry _ Hok va e k He) as (Ha1 & Ha2 & Ha3 & _).
  unfold remap_rest. rewrite align_down_mod, page_offset_mod. fold (sz k). fold ms. fold me.
  replace (pte_addr e + va mod sz k - va mod sz k) with (pte_addr e) by lia. unfold PAGE_SIZE in Hre.
  destruct (decide (k = 0%nat)) as [Hk0|Hk0].
  { assert (ms = va ∧ me = va + PAGE_SIZE) as [Ems Eme].
    { subst ms me. rewrite Hk0. change (sz 0) with PAGE_SIZE. rewrite Hal1. lia. }
    assert (re = me) as Ere by (unfold PAGE_SIZE in *; lia). rewrite Ere, Ems, !Z.ltb_irrefl. simpl. split_and!; [done|done|].
    intros va'. destruct (decide _) as [Hin|Hout].
    - apply remap_block. lia.
    - apply remap_outside. lia. }
  destruct ((ms <? va) || (re <? me)) eqn:Ecase; cycle 1.
  { split_and!; [done|done|]. intros va'. destruct (decide _); [apply remap_block; lia|apply remap_outside; lia]. }
  assert (match (if ms <? va then map_cont LEVEL ms (va - ms) (pte_addr e) (Z.lor (pte_flags e) MMUFlags.HUGE_PAGE) pt1
                 else (Ok tt, pt1)) with
          | (Ok _, pt2) => pt_ok pt2 ∧ ∀ va', translate pt2 va' = if decide (ms ≤ va' < va) then translate pt va' else translate pt1 va'
          | (Err _, pt2) => pt_ok pt2
          | (Panic, _) => False
          end) as Hpre.
  { destruct (Z.ltb_spec ms va); [|split; [done|]; intros va'; by rewrite decide_False by lia].
    replace (pte_addr e) with (pte_addr e + ms - ms) by lia. apply remap_part; try done; try lia.
    intros va' Hin. apply remap_block. lia. }
  destruct (if ms <? va then _ else _) as [[[]|err|] pt2]; [|by split|done]. destruct Hpre as [Hok2 Hr2].
  assert (∀ va', re ≤ va' < me → translate pt2 va' = None) as Hn2.
  { intros va' Hin. rewrite Hr2, decide_False by lia. apply remap_block. lia. }
  assert (∀ va', translate pt2 va' = if decide (va ≤ va' < me) then None else translate pt va') as Hr2'.
  { intros va'. rewrite Hr2. destruct (decide (ms ≤ va' < va)), (decide (va ≤ va' < me)); try lia; [done| |].
    - apply remap_block. lia.
    - apply remap_outside. lia. }
  destruct (Z.ltb_spec re me) as [Hlt|]; cycle 1.
  { split_and!; [done|done|]. intros va'. rewrite Hr2'. by replace me with re by lia. }
  pose proof (remap_part pt2 re me Hk0 Hok2 ltac:(lia) ltac:(lia) Hm3 Hm2 Hlt Hn2) as Hp.
  destruct (map_cont LEVEL re _ _ _ pt2) as [[[]|err|] pt3]; [|by split|done].
  destruct Hp as [Hok3 Hr3]. split_and!; [done|done|]. intros va'. rewrite Hr3, Hr2'.
  repeat destruct (decide _); try lia; done.
Qed.
End remap.

Lemma unmap_cont_loop_spec fuel pt va en :
  pt_ok pt → va mod PAGE_SIZE = 0 → en mod PAGE_SIZE = 0 → 0 ≤ va ≤ en → en ≤ 2 ^ (12 + 9 * Z.of_nat LEVEL) →
  en - va ≤ Z.of_nat fuel * PAGE_SIZE →
  match unmap_cont_loop LEVEL fuel va en pt with
  | (Ok _, pt') => pt_ok pt' ∧ (∀ hi, en ≤ hi → flat hi pt → flat hi pt') ∧
      ∀ va', translate pt' va' = if decide (va ≤ va' < en) then None else translate pt va'
  | (Err _, pt') => pt_ok pt' ∧ ∀ hi, en ≤ hi → ¬ flat hi pt
  | (Panic, _) => False
  end.
Proof.
  revert pt va. induction fuel as [|fuel IH]; intros pt va Hok Hv He Hva Hen Hfuel; simpl.
  { assert (va = en) as -> by lia. rewrite Z.ltb_irrefl. simpl. split_and!; [done|done|]. intros va'. by rewrite decide_False by lia. }
  destruct (Z.ltb_spec va en) as [Hlt|]; simpl.
  2:{ split_and!; [done|done|]. intros va'. by rewrite decide_False by lia. }
  assert (va_ok va) as Hvaok by (unfold va_ok; lia). pose proof (page_gap va en Hv He Hlt) as Hstep.
  rewrite (query_spec pt va (ok_wf _ Hok) Hvaok). pose proof (unmap_spec pt va Hok Hvaok) as Hun.
  destruct (trans pt 2 va) as [[e k]|] eqn:E; cycle 1.
  { assert ((va + PAGE_SIZE) mod PAGE_SIZE = 0) as Hv1 by (by rewrite Z.add_mod, Hv).
    specialize (IH pt (va + PAGE_SIZE) Hok Hv1 He ltac:(unfold PAGE_SIZE in *; lia) Hen ltac:(unfold PAGE_SIZE in *; lia)).
    change (PageSize.as_usize BASE_PAGE_SIZE) with PAGE_SIZE.
    destruct (unmap_cont_loop LEVEL fuel _ en pt) as [[[]|err|] pt']; [|done|done].
    destruct IH as (Hok' & Hfl & Hr). split_and!; [done|done|]. intros va'. rewrite Hr.
    repeat destruct (decide _); try (unfold PAGE_SIZE in *; lia); try done.
    apply translate_none. rewrite (trans_same_page pt 2 va va'); [done|]. apply (pn_same 0); [lia|].
    change (sz 0) with PAGE_SIZE. rewrite Hv. lia. }
  destruct Hun as (pt1 & -> & Hok1 & Hk & Hfl1 & Htr1). cbn [rbind].
  change (PageSize.as_usize (size_of k)) with (sz k). rewrite align_down_mod.
  pose proof (remap_bounds pt pt1 va en e k Hok Hok1 E ltac:(lia) ltac:(done) Htr1) as (_ & _ & Hre & Hrm & _ & _ & _ & Hm3 & _).
  pose proof (remap_rest_spec pt pt1 va en e k Hok Hok1 E ltac:(lia) ltac:(done) Htr1) as Hrest.
  destruct (remap_rest LEVEL va _ _ _ _ pt1) as [[[]|err|] pt2]; [| |done]; cycle 1.
  { destruct Hrest as [? Hk0]. split; [done|]. intros hi Hhi Hfl. apply Hk0, (Hfl va e); [lia|done]. }
  destruct Hrest as (Hok2 & Hk2 & Hr2). set (re := Z.min en _) in *. unfold PAGE_SIZE in Hre.
  specialize (IH pt2 re Hok2 Hm3 He ltac:(lia) Hen ltac:(unfold PAGE_SIZE in *; lia)).
  destruct (unmap_cont_loop LEVEL fuel re en pt2) as [[[]|err|] pt']; [| |done].
  - destruct IH as (Hok' & Hfl & Hr). split_and!; [done| |].
    + intros hi Hhi Hflat. apply Hfl; [done|]. rewrite Hk2 by (apply (Hflat va e); [lia|done]). by apply Hfl1.
    + intros va'. rewrite Hr, Hr2. repeat destruct (decide _); try lia; done.
  - destruct IH as [Hok' Hfl]. split; [done|]. intros hi Hhi Hflat. apply (Hfl hi Hhi).
    rewrite Hk2 by (apply (Hflat va e); [lia|done]). by apply Hfl1.
Qed.
End tree.

(** ** The interface of the address regions
    What a table promises on the pages below [ut_top], all of the base size; [ut_page] gives
    the frame and the flags of a page number. *)
Class UserTable (P : Type) := {
  ut_map : Z → Z → Z → P → PagingResult unit * P;
  ut_unmap : Z → P → PagingResult (Z * PageSize.t) * P;
  ut_update : Z → option Z → option Z → P → PagingResult PageSize.t * P;
  ut_query : P → Z → PagingResult (Z * Z * PageSize.t);
  ut_unmap_cont : Z → Z → P → PagingResult unit * P;
  ut_ok : P → Prop;
  ut_page : P → Z → option (Z * Z);
  ut_top : Z;
  ut_limit : Z;
  ut_norm : Z → Z;
  ut_top_small : 0 ≤ ut_top ≤ 2 ^ 48 ∧ ut_top mod PAGE_SIZE = 0;
  ut_query_spec pt va : ut_ok pt → 0 ≤ va < ut_top →
    ut_query pt va = match ut_page pt (va / PAGE_SIZE) with
                     | Some (pa, f) => Ok (pa + va mod PAGE_SIZE, f, PageSize.Size4K)
                     | None => Err PagingError.NotMapped
                     end;
  ut_map_spec pt va pa f : ut_ok pt → 0 ≤ va < ut_top → va mod PAGE_SIZE = 0 →
    0 ≤ pa < ut_limit → pa mod PAGE_SIZE = 0 → f ≠ 0 →
    ∃ r pt', ut_map va pa f pt = (r, pt') ∧ ut_ok pt' ∧
      ((r = Ok tt ∧ ut_page pt (va / PAGE_SIZE) = None ∧
        ∀ p, ut_page pt' p = if decide (p = va / PAGE_SIZE) then Some (pa, ut_norm f) else ut_page pt p) ∨
       ((r = Err PagingError.NoMemory ∨ (r = Err PagingError.AlreadyMapped ∧ ut_page pt (va / PAGE_SIZE) ≠ None)) ∧
        ∀ p, ut_page pt' p = ut_page pt p));
  ut_unmap_spec pt va : ut_ok pt → 0 ≤ va < ut_top →
    match ut_page pt (va / PAGE_SIZE) with
    | Some (pa, _) => ∃ pt', ut_unmap va pt = (Ok (pa, PageSize.Size4K), pt') ∧ ut_ok pt' ∧
        ∀ p, ut_page pt' p = if decide (p = va / PAGE_SIZE) then None else ut_page pt p
    | None => ut_unmap va pt = (Err PagingError.NotMapped, pt)
    end;
  ut_update_spec pt va (paddr : option Z) f : ut_ok pt → 0 ≤ va < ut_top → f ≠ 0 →
    (∀ pa, paddr = Some pa → 0 ≤ pa < ut_limit ∧ pa mod PAGE_SIZE = 0) →
    (ut_page pt (va / PAGE_SIZE) = None ∧ ut_update va paddr (Some f) pt = (Err PagingError.NotMapped, pt)) ∨
    ∃ pt', ut_update va paddr (Some f) pt = (Ok PageSize.Size4K, pt') ∧ ut_ok pt' ∧
      ∀ p, ut_page pt' p =
        if decide (p = va / PAGE_SIZE)
        then Some (default (from_option fst 0 (ut_page pt p)) paddr, ut_norm f) else ut_page pt p;
  ut_unmap_cont_spec pt va size : ut_ok pt → va mod PAGE_SIZE = 0 → size mod PAGE_SIZE = 0 →
    0 ≤ va → 0 ≤ size → va + size ≤ ut_top →
    ∃ pt', ut_unmap_cont va size pt = (Ok tt, pt') ∧ ut_ok pt' ∧
      ∀ p, ut_page pt' p = if decide (va ≤ p * PAGE_SIZE < va + size) then None else ut_page pt p
}.

Section radix.
#[local] Set Default Proof Using "All".
Context `{PTELaws} (LEVEL : nat) (level_ok : LEVEL = 3%nat ∨ LEVEL = 4%nat).

(** The lower half of the addresses. *)
Definition user_top : Z := 2 ^ (11 + 9 * Z.of_nat LEVEL).

Definition user_ok (pt : PageTableImpl) : Prop := pt_ok LEVEL pt ∧ flat LEVEL user_top pt.
Definition user_page (pt : PageTableImpl) (p : Z) : option (Z * Z) :=
  if decide (0 ≤ p * PAGE_SIZE < user_top) then translate LEVEL pt (p * PAGE_SIZE) else None.

Lemma user_top_ok : user_top ≤ 2 ^ (12 + 9 * Z.of_nat LEVEL) ∧ user_top mod PAGE_SIZE = 0.
Proof. unfold user_top. by destruct level_ok as [-> | ->]. Qed.

Lemma user_top_small : 0 ≤ user_top ≤ 2 ^ 48 ∧ user_top mod PAGE_SIZE = 0.
Proof. unfold user_top. by destruct level_ok as [-> | ->]. Qed.

Lemma user_va va : 0 ≤ va < user_top → va_ok LEVEL va ∧ 0 ≤ va / PAGE_SIZE * PAGE_SIZE < user_top.
Proof.
  intros Hva. pose proof user_top_ok as [? _]. split; [unfold va_ok; lia|]. unfold PAGE_SIZE.
  pose proof (Z.div_mod va 4096). pose proof (Z.mod_pos_bound va 4096). lia.
Qed.

Lemma pn_page p : pn 0 (p * PAGE_SIZE) = p.
Proof. unfold pn. simpl. rewrite Z.mul_1_r. apply Z.div_mul. done. Qed.

Lemma pn_va va : pn 0 va = va / PAGE_SIZE.
Proof. unfold pn. simpl. by rewrite Z.mul_1_r. Qed.

Lemma user_page_trans pt va :
  user_ok pt → 0 ≤ va < user_top →
  user_page pt (va / PAGE_SIZE) = match trans LEVEL pt 2 va with Some (e, _) => Some (pte_addr e, pte_flags e) | None => None end.
Proof.
  intros [_ Hflat] Hva. destruct (user_va va Hva) as [_ Hp]. unfold user_page. rewrite decide_True by done.
  unfold translate. rewrite (trans_same_page LEVEL level_ok pt 2 va) by (by rewrite pn_page, pn_va).
  destruct (trans LEVEL pt 2 va) as [[e k]|] eqn:E; [|done]. rewrite (Hflat va e k ltac:(lia) E).
  change (sz 0) with PAGE_SIZE. rewrite Z.mod_mul by done. by rewrite Z.add_0_r.
Qed.

(** From the translation of addresses to pages. *)
Lemma user_page_ext pt pt' (Q : Z → Prop) `{!∀ p, Decision (Q p)} (o : option (Z * Z)) :
  (∀ p, translate LEVEL pt' (p * PAGE_SIZE) = if decide (Q p) then o else translate LEVEL pt (p * PAGE_SIZE)) →
  (∀ p, Q p → 0 ≤ p * PAGE_SIZE < user_top) →
  ∀ p, user_page pt' p = if decide (Q p) then o else user_page pt p.
Proof.
  intros Ht HQ p. unfold user_page. rewrite Ht. destruct (decide (0 ≤ p * PAGE_SIZE < user_top)) as [|Hn]; [done|].
  rewrite decide_False; [done|]. by intros ?%HQ.
Qed.

Lemma user_query pt va :
  user_ok pt → 0 ≤ va < user_top →
  query LEVEL pt va = match user_page pt (va / PAGE_SIZE) with
                      | Some (pa, f) => Ok (pa + va mod PAGE_SIZE, f, PageSize.Size4K)
                      | None => Err PagingError.NotMapped
                      end.
Proof.
  intros Hok Hva. rewrite user_page_trans by done. destruct Hok as [[Hwf _] Hflat]. destruct (user_va va Hva) as [Hv _].
  rewrite (query_spec LEVEL level_ok) by done. destruct (trans LEVEL pt 2 va) as [[e k]|] eqn:E; [|done].
  rewrite (Hflat va e k ltac:(lia) E), (page_offset_mod LEVEL level_ok). done.
Qed.

Lemma user_map pt va pa f :
  user_ok pt → 0 ≤ va < user_top → va mod PAGE_SIZE = 0 → 0 ≤ pa < pte_limit → pa mod PAGE_SIZE = 0 → f ≠ 0 →
  ∃ r pt', map LEVEL va BASE_PAGE_SIZE pa f pt = (r, pt') ∧ user_ok pt' ∧
    ((r = Ok tt ∧ user_page pt (va / PAGE_SIZE) = None ∧
      ∀ p, user_page pt' p = if decide (p = va / PAGE_SIZE) then Some (pa, pte_norm f) else user_page pt p) ∨
     ((r = Err PagingError.NoMemory ∨ (r = Err PagingError.AlreadyMapped ∧ user_page pt (va / PAGE_SIZE) ≠ None)) ∧
      ∀ p, user_page pt' p = user_page pt p)).
Proof.
  intros Hok Hva Hvm Hpa Hpm Hf. pose proof (user_page_trans pt va Hok Hva) as Hpage. destruct Hok as [Hok Hflat].
  destruct (user_va va Hva) as [Hv Hvp]. assert (no_larger LEVEL pt 0 va) as Hno.
  { intros e j Ej. rewrite (Hflat va e j ltac:(lia) Ej). done. }
  pose proof (map_spec LEVEL level_ok pt va 0 pa f Hok Hv ltac:(lia) Hvm Hno Hpa Hpm Hf ltac:(done)) as Hm.
  change (size_of 0) with BASE_PAGE_SIZE in Hm. change (sz 0) with PAGE_SIZE in Hm.
  destruct (map LEVEL va BASE_PAGE_SIZE pa f pt) as [[[]|e|] pt']; [| |done]; eexists _, _; (split; [done|]).
  - destruct Hm as (Hok' & Hnone & Htr & Hfl). split; [by split; [|apply Hfl]|]. left. split_and!; [done| |].
    + rewrite Hpage. specialize (Hnone va ltac:(unfold PAGE_SIZE; lia)). by apply (translate_none LEVEL level_ok) in Hnone as ->.
    + apply user_page_ext; [|by intros p ->]. intros p. rewrite Htr.
      assert (va ≤ p * PAGE_SIZE < va + PAGE_SIZE ↔ p = va / PAGE_SIZE) as Hiff.
      { unfold PAGE_SIZE in *. pose proof (Z.div_mod va 4096). lia. }
      destruct (decide (p = va / PAGE_SIZE)) as [->|].
      * rewrite decide_True by (by apply Hiff). replace (va / PAGE_SIZE * PAGE_SIZE - va) with 0; [by rewrite Z.add_0_r|].
        unfold PAGE_SIZE in *. pose proof (Z.div_mod va 4096). lia.
      * by rewrite decide_False by (by rewrite Hiff).
  - destruct Hm as (He & Hok' & Htr). split.
    { split; [done|]. intros va' e' k'. rewrite Htr. apply Hflat. }
    right. split.
    + destruct He as [->|[-> Hne]]; [by left|right]. split; [done|]. rewrite Hpage. specialize (Hne eq_refl).
      unfold translate in Hne. by destruct (trans LEVEL pt 2 va) as [[? ?]|].
    + intros p. unfold user_page, translate. by rewrite Htr.
Qed.

Lemma user_unmap pt va :
  user_ok pt → 0 ≤ va < user_top →
  match user_page pt (va / PAGE_SIZE) with
  | Some (pa, _) => ∃ pt', unmap LEVEL va pt = (Ok (pa, PageSize.Size4K), pt') ∧ user_ok pt' ∧
      ∀ p, user_page pt' p = if decide (p = va / PAGE_SIZE) then None else user_page pt p
  | None => unmap LEVEL va pt = (Err PagingError.NotMapped, pt)
  end.
Proof.
  intros Hok Hva. rewrite user_page_trans by done. destruct Hok as [Hok Hflat]. destruct (user_va va Hva) as [Hv Hvp].
  pose proof (unmap_spec LEVEL level_ok pt va Hok Hv) as Hs. destruct (trans LEVEL pt 2 va) as [[e k]|] eqn:E; [|done].
  rewrite (Hflat va e k ltac:(lia) E) in Hs. destruct Hs as (pt' & -> & Hok' & _ & Hfl & Htr). exists pt'. split_and!; [done| |].
  - split; [done|]. by apply Hfl.
  - apply user_page_ext; [|by intros p ->]. intros p. by rewrite Htr, pn_page, pn_va.
Qed.

Lemma user_update pt va (paddr : option Z) f :
  user_ok pt → 0 ≤ va < user_top → f ≠ 0 → (∀ pa, paddr = Some pa → 0 ≤ pa < pte_limit ∧ pa mod PAGE_SIZE = 0) →
  (user_page pt (va / PAGE_SIZE) = None ∧ update LEVEL va paddr (Some f) pt = (Err PagingError.NotMapped, pt)) ∨
  ∃ pt', update LEVEL va paddr (Some f) pt = (Ok PageSize.Size4K, pt') ∧ user_ok pt' ∧
    ∀ p, user_page pt' p =
      if decide (p = va / PAGE_SIZE)
      then Some (default (from_option fst 0 (user_page pt p)) paddr, pte_norm f) else user_page pt p.
Proof.
  intros Hok Hva Hf Hp. pose proof (user_page_trans pt va Hok Hva) as Hpage. destruct Hok as [Hok Hflat].
  destruct (user_va va Hva) as [Hv Hvp].
  assert (∀ pt' (a : Z), (∀ va', translate LEVEL pt' va' =
            if decide (pn 0 va' = pn 0 va) then Some (default a paddr + va' mod PAGE_SIZE, pte_norm f) else translate LEVEL pt va') →
          from_option fst 0 (user_page pt (va / PAGE_SIZE)) = a →
          ∀ p, user_page pt' p = if decide (p = va / PAGE_SIZE)
            then Some (default (from_option fst 0 (user_page pt p)) paddr, pte_norm f) else user_page pt p) as Hconv.
  { intros pt' a Htr Ha p.
    pose proof (user_page_ext pt pt' (λ p, p = va / PAGE_SIZE) (Some (default a paddr, pte_norm f))) as He.
    rewrite He; [| |by intros ? ->].
    - destruct (decide _) as [->|]; [|done]. by rewrite Ha.
    - intros q. rewrite Htr, pn_page, pn_va. destruct (decide _); [|done]. by rewrite Z.mod_mul, Z.add_0_r by done. }
  destruct (trans LEVEL pt 2 va) as [[e k]|] eqn:E.
  - right. rewrite (Hflat va e k ltac:(lia) E) in E.
    destruct (update_spec LEVEL level_ok pt va e paddr f Hok Hv E Hf Hp) as (pt' & -> & Hok' & Hfl & Htr).
    exists pt'. split_and!; [done|split; [done|by apply Hfl]|]. apply (Hconv pt' (pte_addr e) Htr). by rewrite Hpage.
  - destruct (update_unmapped_spec LEVEL level_ok pt va paddr f Hok Hv E Hf Hp) as [[-> _]|(pt' & -> & Hok' & Hfl & Htr)]; [by left|].
    right. exists pt'. split_and!; [done|split; [done|by apply Hfl]|]. apply (Hconv pt' 0 Htr). by rewrite Hpage.
Qed.

Lemma user_unmap_cont pt va size :
  user_ok pt → va mod PAGE_SIZE = 0 → size mod PAGE_SIZE = 0 → 0 ≤ va → 0 ≤ size → va + size ≤ user_top →
  ∃ pt', unmap_cont LEVEL va size pt = (Ok tt, pt') ∧ user_ok pt' ∧
    ∀ p, user_page pt' p = if decide (va ≤ p * PAGE_SIZE < va + size) then None else user_page pt p.
Proof.
  intros [Hok Hflat] Hvm Hsm Hva Hs Htop. pose proof user_top_ok as [Ht _]. unfold unmap_cont, page_aligned. rewrite Hvm, Hsm. simpl.
  assert ((va + size) mod PAGE_SIZE = 0) as Hem by (by rewrite Z.add_mod, Hvm, Hsm).
  assert (va + size - va ≤ Z.of_nat (Z.to_nat (size / PAGE_SIZE)) * PAGE_SIZE) as Hfuel.
  { rewrite Z2Nat.id by (apply Z.div_pos; unfold PAGE_SIZE; lia). unfold PAGE_SIZE in *. pose proof (Z.div_mod size 4096). lia. }
  pose proof (unmap_cont_loop_spec LEVEL level_ok _ pt va (va + size) Hok Hvm Hem ltac:(lia) ltac:(lia) Hfuel) as Hu.
  destruct (unmap_cont_loop LEVEL _ va (va + size) pt) as [[[]|e|] pt']; [| |done].
  - destruct Hu as (Hok' & Hfl & Htr). exists pt'. split_and!; [done|split; [done|by apply Hfl]|].
    apply user_page_ext; [intros p; apply Htr|]. intros p. lia.
  - destruct Hu as [_ Hn]. by destruct (Hn user_top Htop).
Qed.

Definition radix_table : UserTable PageTableImpl := {|
  ut_map va pa f pt := map LEVEL va BASE_PAGE_SIZE pa f pt;
  ut_unmap := unmap LEVEL;
  ut_update := update LEVEL;
  ut_query := query LEVEL;
  ut_unmap_cont := unmap_cont LEVEL;
  ut_ok := user_ok;
  ut_page := user_page;
  ut_top := user_top;
  ut_limit := pte_limit;
  ut_norm := pte_norm;
  ut_top_small := user_top_small;
  ut_query_spec := user_query;
  ut_map_spec := user_map;
  ut_unmap_spec := user_unmap;
  ut_update_spec := user_update;
  ut_unmap_cont_spec := user_unmap_cont
|}.

(** A new table: nothing is mapped. *)
Lemma new_table_ok fs m pt :
  NoDup fs → (∀ f, f ∈ fs → frame_ok f) → new_table fs m = Some pt →
  pt_ok LEVEL pt ∧ ∀ va, translate LEVEL pt va = None.
Proof.
  intros Hnd Hok E. destruct fs as [|f fs]; simplify_eq/=. apply NoDup_cons in Hnd as [Hf Hnd].
  set (pt := mkPT f [] (zero_frame f m) fs).
  assert (∀ n, read pt (entry_at f (n mod 512)) = 0) as Hz.
  { intros n. unfold read. change (pmem pt) with (zero_frame f m). unfold zero_frame. rewrite map_lookup_filter_None_2; [done|]. right. intros x Hx Hn. apply Hn. simpl.
    pose proof (mod_512 n). unfold entry_at, PAGE_SIZE. lia. }
  assert (∀ d n t, tab pt d n = Some t → d = 0%nat ∧ n = 0 ∧ t = f) as Htab.
  { induction d as [|d IH]; intros n t; simpl; [by destruct (Z.eqb_spec n 0); naive_solver|].
    destruct (tab pt d (n / 512)) as [t'|] eqn:Et; simpl; [|done]. apply IH in Et as (_ & _ & ->). rewrite Hz.
    unfold ptr. by rewrite pte_present_zero. }
  assert (∀ d m a, ent pt d m = Some a → read pt a = 0) as Hent.
  { intros d n a (t & (_ & _ & ->)%Htab & ->)%(ent_Some LEVEL level_ok). apply Hz. }
  assert (∀ k va, trans LEVEL pt k va = None) as Htr.
  { induction k as [|k IH]; intros va; simpl; destruct (ent pt _ _) as [a|] eqn:Ha; try done; rewrite (Hent _ _ _ Ha); [done|].
    by rewrite pte_leaf_zero. }
  split; [|intros va; by apply (translate_none LEVEL level_ok)]. split; [|intros va e k; by rewrite Htr]. split.
  - intros d n t _ (_ & _ & ->)%Htab. split; [apply Hok; by left|done].
  - by intros d d' n n' t _ _ (-> & -> & _)%Htab (-> & -> & _)%Htab.
  - split; [done|]. intros g Hg. apply Hok. by right.
  - intros d n a _ Ha%Hent. by rewrite Ha.
  - intros n a _ Ha%Hent. by rewrite Ha, pte_leaf_zero.
Qed.
End radix.

(** ** Histories of a table, and the map that they implement *)
Inductive pt_op :=
| OMap (va pa f : Z) | OUnmap (va : Z) | OUpdate (va : Z) (pa : option Z) (f : Z) | OUnmapCont (va size : Z).

Inductive pt_ret :=
| RMap (r : PagingResult unit) | RUnmap (r : PagingResult (Z * PageSize.t))
| RUpdate (r : PagingResult PageSize.t) | RUnmapCont (r : PagingResult unit).

Definition pt_exec `{GenericPTE} (LEVEL : nat) (op : pt_op) (pt : PageTableImpl) : pt_ret * PageTableImpl :=
  match op with
  | OMap va pa f => let '(r, pt) := map LEVEL va BASE_PAGE_SIZE pa f pt in (RMap r, pt)
  | OUnmap va => let '(r, pt) := unmap LEVEL va pt in (RUnmap r, pt)
  | OUpdate va pa f => let '(r, pt) := update LEVEL va pa (Some f) pt in (RUpdate r, pt)
  | OUnmapCont va size => let '(r, pt) := unmap_cont LEVEL va size pt in (RUnmapCont r, pt)
  end.

Fixpoint pt_execs `{GenericPTE} (LEVEL : nat) (ops : list pt_op) (pt : PageTableImpl) : list pt_ret * PageTableImpl :=
  match ops with
  | [] => ([], pt)
  | op :: ops =>
      let '(r, pt) := pt_exec LEVEL op pt in
      let '(rs, pt) := pt_execs LEVEL ops pt in (r :: rs, pt)
  end.

(** Arguments as the callers pass them: addresses of user pages, frames, flags. *)
Definition pt_op_ok (top limit : Z) (op : pt_op) : Prop :=
  match op with
  | OMap va pa f => (0 ≤ va < top ∧ va mod PAGE_SIZE = 0) ∧ (0 ≤ pa < limit ∧ pa mod PAGE_SIZE = 0) ∧ f ≠ 0
  | OUnmap va => 0 ≤ va < top
  | OUpdate va pa f => 0 ≤ va < top ∧ f ≠ 0 ∧ ∀ a, pa = Some a → 0 ≤ a < limit ∧ a mod PAGE_SIZE = 0
  | OUnmapCont va size => (0 ≤ va ∧ va mod PAGE_SIZE = 0) ∧ (0 ≤ size ∧ size mod PAGE_SIZE = 0) ∧ va + size ≤ top
  end.

(** The map from page numbers to frames and flags, and the results it allows. *)
Inductive page_step (norm : Z → Z) : pt_op → pt_ret → gmap Z (Z * Z) → gmap Z (Z * Z) → Prop :=
| step_map va pa f m : m !! (va / PAGE_SIZE) = None →
    page_step norm (OMap va pa f) (RMap (Ok tt)) m (<[va / PAGE_SIZE := (pa, norm f)]> m)
| step_map_memory va pa f m : page_step norm (OMap va pa f) (RMap (Err PagingError.NoMemory)) m m
| step_map_taken va pa f m : m !! (va / PAGE_SIZE) ≠ None →
    page_step norm (OMap va pa f) (RMap (Err PagingError.AlreadyMapped)) m m
| step_unmap va pa f m : m !! (va / PAGE_SIZE) = Some (pa, f) →
    page_step norm (OUnmap va) (RUnmap (Ok (pa, PageSize.Size4K))) m (delete (va / PAGE_SIZE) m)
| step_unmap_none va m : m !! (va / PAGE_SIZE) = None →
    page_step norm (OUnmap va) (RUnmap (Err PagingError.NotMapped)) m m
| step_update va pa f m : page_step norm (OUpdate va pa f) (RUpdate (Ok PageSize.Size4K)) m
    (<[va / PAGE_SIZE := (default (from_option fst 0 (m !! (va / PAGE_SIZE))) pa, norm f)]> m)
| step_update_none va pa f m : m !! (va / PAGE_SIZE) = None →
    page_step norm (OUpdate va pa f) (RUpdate (Err PagingError.NotMapped)) m m
| step_unmap_cont va size m : page_step norm (OUnmapCont va size) (RUnmapCont (Ok tt)) m
    (filter (λ kv, ¬ (va ≤ fst kv * PAGE_SIZE < va + size)) m).

Inductive page_steps (norm : Z → Z) : list pt_op → list pt_ret → gmap Z (Z * Z) → gmap Z (Z * Z) → Prop :=
| steps_nil m : page_steps norm [] [] m m
| steps_cons op ops r rs m m1 m2 :
    page_step norm op r m m1 → page_steps norm ops rs m1 m2 → page_steps norm (op :: ops) (r :: rs) m m2.

Lemma lookup_insert_decide {A} (m : gmap Z A) (i j : Z) (x : A) :
  <[i := x]> m !! j = if decide (j = i) then Some x else m !! j.
Proof. destruct (decide (j = i)) as [->|]; [apply lookup_insert_eq|by apply lookup_insert_ne]. Qed.

Lemma lookup_delete_decide {A} (m : gmap Z A) (i j : Z) :
  delete i m !! j = if decide (j = i) then None else m !! j.
Proof. destruct (decide (j = i)) as [->|]; [apply lookup_delete_eq|by apply lookup_delete_ne]. Qed.

Section histories.
#[local] Set Default Proof Using "All".
Context `{PTELaws} (LEVEL : nat) (level_ok : LEVEL = 3%nat ∨ LEVEL = 4%nat).

Lemma pt_exec_step op pt m :
  user_ok LEVEL pt → (∀ p, user_page LEVEL pt p = m !! p) → pt_op_ok (user_top LEVEL) pte_limit op →
  ∃ m', page_step pte_norm op (fst (pt_exec LEVEL op pt)) m m' ∧ user_ok LEVEL (snd (pt_exec LEVEL op pt)) ∧
        ∀ p, user_page LEVEL (snd (pt_exec LEVEL op pt)) p = m' !! p.
Proof.
  intros Hok Hm Hop. destruct op as [va pa f|va|va pa f|va size]; simpl in *.
  - destruct Hop as ([Hva Hvm] & [Hpa Hpm] & Hf).
    destruct (user_map LEVEL level_ok pt va pa f Hok Hva Hvm Hpa Hpm Hf) as (r & pt' & -> & Hok' & [(-> & Hn & Hp)|(Hr & Hp)]).
    + eexists. split; [constructor; by rewrite <-Hm|]. split; [done|]. intros p. simpl. by rewrite Hp, lookup_insert_decide, Hm.
    + exists m. split; [|split; [done|]; intros p; by rewrite <-Hm, <-Hp]. destruct Hr as [->|[-> Hn]]; constructor.
      by rewrite <-Hm.
  - pose proof (user_unmap LEVEL level_ok pt va Hok Hop) as Hs. rewrite Hm in Hs.
    destruct (m !! (va / PAGE_SIZE)) as [[pa f]|] eqn:E.
    + destruct Hs as (pt' & -> & Hok' & Hp). eexists. split; [by econstructor|]. split; [done|].
      intros p. simpl. by rewrite Hp, lookup_delete_decide, Hm.
    + rewrite Hs. exists m. split; [by constructor|done].
  - destruct Hop as (Hva & Hf & Hpa). destruct (user_update LEVEL level_ok pt va pa f Hok Hva Hf Hpa) as [[Hn ->]|(pt' & -> & Hok' & Hp)].
    + exists m. split; [constructor; by rewrite <-Hm|done].
    + eexists. split; [constructor|]. split; [done|]. intros p. simpl. rewrite Hp, lookup_insert_decide, !Hm.
      by destruct (decide _) as [->|].
  - destruct Hop as ([Hva Hvm] & [Hs Hsm] & Ht).
    destruct (user_unmap_cont LEVEL level_ok pt va size Hok Hvm Hsm Hva Hs Ht) as (pt' & -> & Hok' & Hp).
    eexists. split; [constructor|]. split; [done|]. intros p. simpl. rewrite Hp, map_lookup_filter, Hm.
    destruct (decide _) as [Hin|Hin].
    + destruct (m !! p); simpl; [|done]. by rewrite option_guard_False by (intros Hn; by apply Hn).
    + destruct (m !! p); simpl; [|done]. by rewrite option_guard_True.
Qed.

Lemma pt_execs_steps ops rs pt pt' m :
  user_ok LEVEL pt → (∀ p, user_page LEVEL pt p = m !! p) → Forall (pt_op_ok (user_top LEVEL) pte_limit) ops →
  pt_execs LEVEL ops pt = (rs, pt') →
  ∃ m', page_steps pte_norm ops rs m m' ∧ user_ok LEVEL pt' ∧ ∀ p, user_page LEVEL pt' p = m' !! p.
Proof.
  intros Hok Hm Hops. revert pt m rs Hok Hm. induction Hops as [|op ops Hop _ IH]; intros pt m rs Hok Hm E; simpl in E.
  { simplify_eq. exists m. split; [constructor|done]. }
  destruct (pt_exec_step op pt m Hok Hm Hop) as (m1 & Hs & Hok1 & Hm1). destruct (pt_exec LEVEL op pt) as [r pt1].
  destruct (pt_execs LEVEL ops pt1) as [rs1 pt2] eqn:E1. simplify_eq.
  destruct (IH pt1 m1 rs1 Hok1 Hm1 E1) as (m2 & Hss & Hok2 & Hm2). exists m2. split; [by econstructor|done].
Qed.
End histories.

(** C5. The radix tables implement a map from pages to frames: whatever base pages are mapped,
    unmapped, updated and unmapped in ranges from a new table on, the results are those of the
    map, which allows a failure only for lack of memory, and [query] reads it. *)
Theorem page_table_refines `{PTELaws} (LEVEL : nat) (fs : list Z) (mem : gmap Z Z) pt0 ops rs pt :
  LEVEL = 3%nat ∨ LEVEL = 4%nat → NoDup fs → (∀ f, f ∈ fs → frame_ok f) → new_table fs mem = Some pt0 →
  Forall (pt_op_ok (user_top LEVEL) pte_limit) ops → pt_execs LEVEL ops pt0 = (rs, pt) →
  ∃ m, page_steps pte_norm ops rs ∅ m ∧
    ∀ va, 0 ≤ va < user_top LEVEL →
      query LEVEL pt va = match m !! (va / PAGE_SIZE) with
                          | Some (pa, f) => Ok (pa + va mod PAGE_SIZE, f, PageSize.Size4K)
                          | None => Err PagingError.NotMapped
                          end.
Proof.
  intros HL Hnd Hfs Hnew Hops E. destruct (new_table_ok LEVEL HL fs mem pt0 Hnd Hfs Hnew) as [Hok Hnone].
  assert (user_ok LEVEL pt0) as Huok.
  { split; [done|]. intros va e k _ Et. specialize (Hnone va). apply (translate_none LEVEL HL) in Hnone. congruence. }
  destruct (pt_execs_steps LEVEL HL ops rs pt0 pt ∅ Huok) as (m & Hs & Hok' & Hm); [|done|done|].
  - intros p. unfold user_page. rewrite Hnone. by destruct (decide _).
  - exists m. split; [done|]. intros va Hva. by rewrite (user_query LEVEL HL), Hm.
Qed.

(** The address and the flags that [query] gives. *)
Definition resolve `{GenericPTE} (LEVEL : nat) (pt : PageTableImpl) (va : Z) : PagingResult (Z * Z) :=
  rmap (λ '(pa, f, _), (pa, f)) (query LEVEL pt va).

Lemma resolve_translate `{PTELaws} LEVEL pt va :
  LEVEL = 3%nat ∨ LEVEL = 4%nat → pt_ok LEVEL pt → va_ok LEVEL va →
  resolve LEVEL pt va = match translate LEVEL pt va with Some r => Ok r | None => Err PagingError.NotMapped end.
Proof.
  intros HL [Hwf _] Hva. unfold resolve. rewrite (query_spec LEVEL HL) by done. unfold translate.
  destruct (trans LEVEL pt 2 va) as [[e k]|]; simpl; [|done]. by rewrite (page_offset_mod LEVEL HL).
Qed.

Lemma translate_resolve `{PTELaws} LEVEL pt va r :
  LEVEL = 3%nat ∨ LEVEL = 4%nat → pt_ok LEVEL pt → va_ok LEVEL va → resolve LEVEL pt va = Ok r → translate LEVEL pt va = Some r.
Proof. intros HL Hok Hva. rewrite resolve_translate by done. destruct (translate LEVEL pt va); naive_solver. Qed.

(** [unmap_cont] removes exactly the range, also where it cuts huge pages: afterwards no
    address of the range is mapped and every other address has the translation that it had; it
    does not panic, and keeps the table well-formed even if it runs out of memory. *)
Theorem unmap_cont_exact `{PTELaws} (LEVEL : nat) pt va size :
  LEVEL = 3%nat ∨ LEVEL = 4%nat → pt_ok LEVEL pt → va mod PAGE_SIZE = 0 → size mod PAGE_SIZE = 0 →
  0 ≤ va → 0 ≤ size → va + size ≤ 2 ^ (12 + 9 * Z.of_nat LEVEL) →
  match unmap_cont LEVEL va size pt with
  | (Ok _, pt') => pt_ok LEVEL pt' ∧ ∀ va', va_ok LEVEL va' →
      resolve LEVEL pt' va' = if decide (va ≤ va' < va + size) then Err PagingError.NotMapped else resolve LEVEL pt va'
  | (Err _, pt') => pt_ok LEVEL pt'
  | (Panic, _) => False
  end.
Proof.
  intros HL Hok Hvm Hsm Hva Hs Ht. unfold unmap_cont, page_aligned. rewrite Hvm, Hsm. simpl.
  assert ((va + size) mod PAGE_SIZE = 0) as Hem by (by rewrite Z.add_mod, Hvm, Hsm).
  assert (va + size - va ≤ Z.of_nat (Z.to_nat (size / PAGE_SIZE)) * PAGE_SIZE) as Hfuel.
  { rewrite Z2Nat.id by (apply Z.div_pos; unfold PAGE_SIZE; lia). unfold PAGE_SIZE in *. pose proof (Z.div_mod size 4096). lia. }
  pose proof (unmap_cont_loop_spec LEVEL HL _ pt va (va + size) Hok Hvm Hem ltac:(lia) Ht Hfuel) as Hu.
  destruct (unmap_cont_loop LEVEL _ va (va + size) pt) as [[[]|e|] pt']; [|by destruct Hu|done].
  destruct Hu as (Hok' & _ & Htr). split; [done|]. intros va' Hv. rewrite !(resolve_translate LEVEL) by done.
  rewrite Htr. by destruct (decide _).
Qed.

(** Changing the flags of a page that is not mapped, next to one that is, maps it to the
    physical frame 0 instead of failing. *)
Theorem update_maps_frame_zero `{PTELaws} (LEVEL : nat) pt va va2 r2 f :
  LEVEL = 3%nat ∨ LEVEL = 4%nat → pt_ok LEVEL pt → va_ok LEVEL va → va_ok LEVEL va2 →
  query LEVEL pt va = Err PagingError.NotMapped → query LEVEL pt va2 = Ok (r2, PageSize.Size4K) →
  va / 0x200000 = va2 / 0x200000 → f ≠ 0 →
  ∃ pt', update LEVEL va None (Some f) pt = (Ok PageSize.Size4K, pt') ∧
         resolve LEVEL pt' va = Ok (va mod PAGE_SIZE, pte_norm f).
Proof.
  intros HL Hok Hva Hva2 Hq Hq2 Hn Hf. pose proof Hok as [Hwf _].
  rewrite (query_spec LEVEL HL) in Hq, Hq2 by done.
  destruct (trans LEVEL pt 2 va) as [[? ?]|] eqn:E; [done|].
  destruct (trans LEVEL pt 2 va2) as [[e k]|] eqn:E2; [|done].
  destruct (trans_entry LEVEL HL pt va2 e k Hwf Hva2 E2) as (a & _ & Ha & _ & _ & _ & Hk).
  assert (k = 0%nat) as -> by (destruct k as [|[|[|]]]; [done|by simplify_eq/=|by simplify_eq/=|lia]).
  apply (ent_Some LEVEL HL) in Ha as (t & Ht & _).
  destruct (update_unmapped_spec LEVEL HL pt va None f Hok Hva E Hf ltac:(done)) as [[_ Hno]|(pt' & -> & Hok' & _ & Htr)].
  - exfalso. unfold ent in Hno. rewrite <-(pn_S LEVEL HL 0 va) in Hno. rewrite <-(pn_S LEVEL HL 0 va2) in Ht.
    assert (pn 1 va = pn 1 va2) as En by done. by rewrite En, Ht in Hno.
  - exists pt'. split; [done|]. rewrite (resolve_translate LEVEL) by done. by rewrite Htr, decide_True.
Qed.

Module X86Access.
Import X86 X86Laws.
(** On x86 a mapped page stays readable when all access to it is removed: an entry with
    flags is present, and a present page can be read. *)
Theorem x86_no_access_readable pt va pa f0 f :
  pt_ok 4 pt → va_ok 4 va → query 4 pt va = Ok (pa, f0, PageSize.Size4K) → f ≠ 0 → intersects f MMUFlags.RXW = false →
  ∃ pt', update 4 va None (Some f) pt = (Ok PageSize.Size4K, pt') ∧
    ∃ f', resolve 4 pt' va = Ok (pa, f') ∧ contains f' MMUFlags.READ = true.
Proof.
  intros Hok Hva Hq Hf _. assert (4%nat = 3%nat ∨ 4%nat = 4%nat) as HL by auto. pose proof Hok as [Hwf _].
  rewrite (query_spec 4 HL) in Hq by done. destruct (trans 4 pt 2 va) as [[e k]|] eqn:E; [|done].
  assert (k = 0%nat) as -> by (destruct k as [|[|]]; [done|by simplify_eq/=|by simplify_eq/=]).
  destruct (update_spec 4 HL pt va e None f Hok Hva E Hf ltac:(done)) as (pt' & -> & Hok' & _ & Htr).
  exists pt'. split; [done|]. exists (norm f). rewrite (resolve_translate 4) by done. rewrite Htr, decide_True by done. split.
  - injection Hq as <- <-. rewrite (page_offset_mod 4 HL 0). done.
  - unfold norm. by destruct (contains f MMUFlags.WRITE), (contains f MMUFlags.EXECUTE), (contains f MMUFlags.USER), (Z.land f 3 =? 0).
Qed.
End X86Access.

(** ** A concrete table *)
Module Demo.
Import X86 X86Laws.
Definition rw : Z := Eval vm_compute in Z.lor MMUFlags.READ (Z.lor MMUFlags.WRITE MMUFlags.USER).
Definition frames : list Z := [0x1000; 0x2000; 0x3000; 0x4000; 0x5000; 0x6000].
Definition start : PageTableImpl := mkPT 0x1000 [] ∅ [0x2000; 0x3000; 0x4000; 0x5000; 0x6000].
(** a huge page, and a table with one base page *)
Definition huge : PageTableImpl := Eval vm_compute in snd (map 4 0x200000 PageSize.Size2M 0x400000 rw start).
Definition one : PageTableImpl := Eval vm_compute in snd (map 4 0x600000 PageSize.Size4K 0x800000 rw start).

Lemma level4 : 4%nat = 3%nat ∨ 4%nat = 4%nat.
Proof. by right. Qed.

Lemma frames_ok f : f ∈ frames → frame_ok f.
Proof. unfold frames. intros Hf. repeat (apply elem_of_cons in Hf as [-> | Hf]; [by split|]). by apply elem_of_nil in Hf. Qed.

Lemma frames_nodup : NoDup frames.
Proof. apply (bool_decide_unpack _). by vm_compute. Qed.

Lemma start_ok : pt_ok 4 start ∧ ∀ va, translate 4 start va = None.
Proof. apply (new_table_ok 4 level4 frames ∅); [apply frames_nodup|apply frames_ok|by vm_compute]. Qed.

Lemma huge_ok : pt_ok 4 huge.
Proof.
  destruct start_ok as [Hok Hn].
  pose proof (map_spec 4 level4 start 0x200000 1 0x400000 rw Hok ltac:(done) ltac:(lia) ltac:(done)
    (no_larger_none 4 level4 start 1 0x200000 (Hn _)) ltac:(done) ltac:(done) ltac:(done) ltac:(done)) as Hm.
  assert (map 4 0x200000 (size_of 1) 0x400000 rw start = (Ok tt, huge)) as E by (by vm_compute).
  rewrite E in Hm. by destruct Hm.
Qed.

Lemma one_ok : pt_ok 4 one.
Proof.
  destruct start_ok as [Hok Hn].
  pose proof (map_spec 4 level4 start 0x600000 0 0x800000 rw Hok ltac:(done) ltac:(lia) ltac:(done)
    (no_larger_none 4 level4 start 0 0x600000 (Hn _)) ltac:(done) ltac:(done) ltac:(done) ltac:(done)) as Hm.
  assert (map 4 0x600000 (size_of 0) 0x800000 rw start = (Ok tt, one)) as E by (by vm_compute).
  rewrite E in Hm. by destruct Hm.
Qed.

Definition ops : list pt_op :=
  [OMap 0x600000 0x800000 rw; OMap 0x601000 0x900000 rw; OUpdate 0x600000 None MMUFlags.USER; OUnmapCont 0x601000 0x2000].

Lemma ops_ok : Forall (pt_op_ok (user_top 4) (2 ^ 52)) ops.
Proof. repeat constructor; done. Qed.

Lemma page_table_refines_witness :
  ∃ m, page_steps pte_norm ops (fst (pt_execs 4 ops start)) ∅ m ∧
    ∀ va, 0 ≤ va < user_top 4 →
      query 4 (snd (pt_execs 4 ops start)) va = match m !! (va / PAGE_SIZE) with
                          | Some (pa, f) => Ok (pa + va mod PAGE_SIZE, f, PageSize.Size4K)
                          | None => Err PagingError.NotMapped
                          end.
Proof.
  apply (page_table_refines 4 frames ∅ start ops (fst (pt_execs 4 ops start)) (snd (pt_execs 4 ops start)));
    [apply level4|apply frames_nodup|apply frames_ok|by vm_compute|apply ops_ok|by destruct (pt_execs 4 ops start)].
Defined.

Lemma unmap_cont_exact_witness :
  resolve 4 huge 0x201234 = Ok (0x401234, rw) ∧
  ∀ va', va_ok 4 va' → resolve 4 (snd (unmap_cont 4 0x201000 0x1000 huge)) va' =
    if decide (0x201000 ≤ va' < 0x201000 + 0x1000) then Err PagingError.NotMapped else resolve 4 huge va'.
Proof.
  split; [by vm_compute|].
  pose proof (unmap_cont_exact 4 huge 0x201000 0x1000 level4 huge_ok eq_refl eq_refl ltac:(done) ltac:(done) ltac:(done)) as Hu.
  assert (is_ok (fst (unmap_cont 4 0x201000 0x1000 huge)) = true) as Hr by (by vm_compute).
  destruct (unmap_cont 4 0x201000 0x1000 huge) as [[[]|e|] pt']; [by destruct Hu|done|done].
Defined.

Lemma update_maps_frame_zero_witness :
  ∃ pt', update 4 0x601000 None (Some rw) one = (Ok PageSize.Size4K, pt') ∧ resolve 4 pt' 0x601000 = Ok (0, rw).
Proof.
  apply (update_maps_frame_zero 4 one 0x601000 0x600000 (0x800000, rw) rw level4 one_ok); by vm_compute.
Defined.

Lemma x86_no_access_readable_witness :
  ∃ pt', update 4 0x600000 None (Some MMUFlags.USER) one = (Ok PageSize.Size4K, pt') ∧
    ∃ f', resolve 4 pt' 0x600000 = Ok (0x800000, f') ∧ contains f' MMUFlags.READ = true.
Proof. apply (X86Access.x86_no_access_readable one 0x600000 0x800000 rw MMUFlags.USER one_ok); by vm_compute. Defined.
End Demo.
