(* ===== verification/Vmo.v ===== *)
(** * Memory objects over physical ranges

    [zircon-object/src/vm/mod.rs] (arithmetic on pages), [util/block_range.rs] (the split of a
    range into its pages) and [vm/vmo/{physical,slice}.rs]: objects that stand for a range of
    physical memory, and slices of objects.  Physical memory is a map from addresses to
    bytes. *)

From S2P Require Import Prelude Errors PageTable.
From stdpp Require Import options.
#[local] Open Scope Z_scope.

(** ** Pages *)
(** [x.is_multiple_of(align)] *)
Definition check_aligned (x align : Z) : bool := if align =? 0 then x =? 0 else x mod align =? 0.
Definition ceil (x align : Z) : Z := wadd 64 x (align - 1) / align.
Definition pages (size : Z) : Z := ceil size PAGE_SIZE.
Definition roundup_pages (size : Z) : Z := pages size *u PAGE_SIZE.
Definition round_down_pages (size : Z) : Z := size / PAGE_SIZE * PAGE_SIZE.

Lemma pages_aligned x : fits 64 x → x mod PAGE_SIZE = 0 → pages x = x / PAGE_SIZE.
Proof.
  unfold pages, ceil, fits, PAGE_SIZE. intros Hx Hm. rewrite wadd_small.
  - pose proof (Z.div_mod x 4096). symmetry. apply Z.div_unique with (4096 - 1); lia.
  - unfold fits. pose proof (Z.div_mod x 4096). change (2 ^ 64) with (4096 * 2 ^ 52) in *. lia.
Qed.

(** The result of [roundup_pages] is the next multiple of the page size, unless that is 2^64,
    in which case it is 0. *)
Lemma roundup_pages_spec x :
  fits 64 x →
  (x ≤ 2 ^ 64 - PAGE_SIZE → x ≤ roundup_pages x < x + PAGE_SIZE) ∧
  (2 ^ 64 - PAGE_SIZE < x → roundup_pages x = 0) ∧ roundup_pages x mod PAGE_SIZE = 0.
Proof.
  unfold fits. intros Hx. unfold roundup_pages, pages, ceil, wmul, wadd, wrap, PAGE_SIZE.
  change (4096 - 1) with 4095. destruct (Z_lt_le_dec (2 ^ 64 - 4096) x) as [Hlt|Hle].
  - assert ((x + 4095) mod 2 ^ 64 = x + 4095 - 2 ^ 64) as ->.
    { symmetry. apply Z.mod_unique_pos with 1; lia. }
    rewrite Z.div_small by lia. split_and!; [lia|done|done].
  - rewrite (Z.mod_small (x + 4095)) by lia.
    assert ((x + 4095) / 4096 * 4096 < 2 ^ 64) as Hb.
    { change (2 ^ 64) with (4096 * 2 ^ 52) in *. pose proof (Z.div_mod (x + 4095) 4096). pose proof (Z.mod_pos_bound (x + 4095) 4096). lia. }
    pose proof (Z.div_mod (x + 4095) 4096). pose proof (Z.mod_pos_bound (x + 4095) 4096).
    rewrite Z.mod_small by lia. split_and!; [lia|lia|]. apply Z.mod_mul. lia.
Qed.

(** ** Blocks of a range *)
Record BlockIter := mkBlockIter { begin : Z; end_ : Z; block_size_log2 : Z }.
Record BlockRange := mkBlockRange { block : Z; block_begin : Z; block_end : Z; range_size_log2 : Z }.

Definition len (b : BlockRange) : Z := block_end b -u block_begin b.
Definition origin_begin (b : BlockRange) : Z := wrap 64 (Z.shiftl (block b) (range_size_log2 b)) +u block_begin b.
Definition origin_end (b : BlockRange) : Z := wrap 64 (Z.shiftl (block b) (range_size_log2 b)) +u block_end b.

Definition next (it : BlockIter) : option (BlockRange * BlockIter) :=
  if end_ it <=? begin it then None
  else
    let block_size := wrap 64 (Z.shiftl 1 (block_size_log2 it)) in
    let blk := begin it / block_size in
    let b := begin it mod block_size in
    let e := if blk =? end_ it / block_size then end_ it mod block_size else block_size in
    Some (mkBlockRange blk b e (block_size_log2 it),
          mkBlockIter (begin it +u (e -u b)) (end_ it) (block_size_log2 it)).

(** A [for] loop over the iterator; [None] if it is not at its end after [fuel] items. *)
Fixpoint blocks (fuel : nat) (it : BlockIter) : option (list BlockRange) :=
  match next it with
  | None => Some []
  | Some (b, it) =>
      match fuel with
      | O => None
      | S fuel => l ← blocks fuel it; Some (b :: l)
      end
  end.

(** The ranges are inside a block each, not empty, and follow each other from [lo] to [hi]. *)
Fixpoint covers (k lo hi : Z) (l : list BlockRange) : Prop :=
  match l with
  | [] => lo = hi
  | b :: l => (block b = lo / 2 ^ k ∧ block_begin b = lo mod 2 ^ k) ∧ 0 ≤ block_begin b < block_end b ∧ block_end b ≤ 2 ^ k ∧
              origin_begin b = lo ∧ origin_end b = lo + len b ∧ len b = block_end b - block_begin b ∧
              covers k (lo + len b) hi l
  end.

Lemma next_step it b it' :
  0 ≤ block_size_log2 it < 64 → 0 ≤ begin it ≤ end_ it → end_ it < 2 ^ 64 → next it = Some (b, it') →
  (block b = begin it / 2 ^ block_size_log2 it ∧ block_begin b = begin it mod 2 ^ block_size_log2 it) ∧ 0 ≤ block_begin b < block_end b ∧
  block_end b ≤ 2 ^ block_size_log2 it ∧ origin_begin b = begin it ∧ origin_end b = begin it + len b ∧
  len b = block_end b - block_begin b ∧
  it' = mkBlockIter (begin it + len b) (end_ it) (block_size_log2 it) ∧ begin it + len b ≤ end_ it ∧
  (begin it / 2 ^ block_size_log2 it < (begin it + len b) / 2 ^ block_size_log2 it ∨ begin it + len b = end_ it).
Proof.
  intros Hk Hb He. unfold next. destruct (Z.leb_spec (end_ it) (begin it)); [done|]. intros [= <- <-].
  destruct it as [lo hi k]. simpl in *. unfold origin_begin, origin_end, len. simpl.
  assert (0 < 2 ^ k) as Hp by (apply Z.pow_pos_nonneg; lia).
  assert (2 ^ k < 2 ^ 64) as Hp64 by (apply Z.pow_lt_mono_r; lia).
  rewrite !Z.shiftl_mul_pow2, Z.mul_1_l by lia. rewrite (wrap_small 64 (2 ^ k)) by (unfold fits; lia).
  pose proof (Z.div_mod lo (2 ^ k) ltac:(lia)) as Hlo. pose proof (Z.mod_pos_bound lo (2 ^ k) Hp) as Hlm.
  pose proof (Z.div_mod hi (2 ^ k) ltac:(lia)) as Hhi. pose proof (Z.mod_pos_bound hi (2 ^ k) Hp) as Hhm.
  assert (0 ≤ lo / 2 ^ k) as Hq by (apply Z.div_pos; lia).
  rewrite (wrap_small 64 (lo / 2 ^ k * 2 ^ k)) by (unfold fits; nia).
  set (e := if lo / 2 ^ k =? hi / 2 ^ k then hi mod 2 ^ k else 2 ^ k).
  assert (lo mod 2 ^ k < e ≤ 2 ^ k ∧ lo - lo mod 2 ^ k + e ≤ hi) as [He1 He2].
  { unfold e. destruct (Z.eqb_spec (lo / 2 ^ k) (hi / 2 ^ k)) as [E|E]; [nia|].
    assert (lo / 2 ^ k < hi / 2 ^ k); [|nia]. assert (lo / 2 ^ k ≤ hi / 2 ^ k) by (apply Z.div_le_mono; lia). lia. }
  rewrite (wsub_small 64 e) by (unfold fits; lia). rewrite !wadd_small by (unfold fits; nia).
  split_and!; try done; try nia.
  unfold e in *. destruct (Z.eqb_spec (lo / 2 ^ k) (hi / 2 ^ k)); [right; nia|left].
  replace (lo + (2 ^ k - lo mod 2 ^ k)) with ((lo / 2 ^ k + 1) * 2 ^ k) by nia. rewrite Z.div_mul by lia. lia.
Qed.

Lemma next_blocks lo hi k :
  0 ≤ k < 64 → 0 ≤ lo ≤ hi → hi < 2 ^ 64 →
  ∃ l, blocks (Z.to_nat (hi / 2 ^ k - lo / 2 ^ k + 1)) (mkBlockIter lo hi k) = Some l ∧ covers k lo hi l.
Proof.
  intros Hk Hlo Hhi. remember (Z.to_nat (hi / 2 ^ k - lo / 2 ^ k + 1)) as n eqn:En.
  assert (hi / 2 ^ k - lo / 2 ^ k + 1 ≤ Z.of_nat n) as Hn by lia. clear En.
  assert (0 < 2 ^ k) as Hp by (apply Z.pow_pos_nonneg; lia).
  revert lo Hlo Hn. induction n as [|n IH]; intros lo Hlo Hn.
  { assert (lo / 2 ^ k ≤ hi / 2 ^ k) by (apply Z.div_le_mono; lia). lia. }
  simpl. destruct (next (mkBlockIter lo hi k)) as [[b it]|] eqn:E.
  - destruct (next_step (mkBlockIter lo hi k) b it Hk Hlo Hhi E) as (H1 & H2 & H3 & H4 & H5 & H6 & -> & H7 & H8). simpl in *.
    destruct H8 as [Hlt|Heq].
    + destruct (IH (lo + len b) ltac:(lia) ltac:(lia)) as (l & -> & Hc). exists (b :: l). by split_and!.
    + assert (blocks n (mkBlockIter (lo + len b) hi k) = Some []) as ->.
      { rewrite Heq. destruct n; simpl; unfold next; simpl; by rewrite Z.leb_refl. }
      exists [b]. by split_and!.
  - exists []. split; [done|]. unfold next in E. simpl in *. destruct (Z.leb_spec hi lo); [lia|done].
Qed.

(** The iterator over the blocks of a range ends, and its items cover the range exactly and in
    order, each within one block: what [for_each_page] relies on. *)
Theorem block_iter_covers lo hi k :
  0 ≤ k < 64 → 0 ≤ lo ≤ hi → hi < 2 ^ 64 →
  ∃ l, blocks (Z.to_nat (hi / 2 ^ k - lo / 2 ^ k + 1)) (mkBlockIter lo hi k) = Some l ∧ covers k lo hi l.
Proof. apply next_blocks. Qed.

Lemma block_iter_covers_witness :
  ∃ l, blocks 3 (mkBlockIter 0x123 0x2018 12) = Some l ∧ covers 12 0x123 0x2018 l.
Proof. apply (block_iter_covers 0x123 0x2018 12); lia. Defined.

(** ** Physical memory *)
Abbreviation ram := (gmap Z Z).
Definition byte (m : ram) (a : Z) : Z := default 0 (m !! a).
(** [pmem_read], [pmem_write], [pmem_zero] *)
Definition pmem_read (paddr n : Z) (m : ram) : list Z := byte m <$> seqZ paddr n.
Fixpoint pmem_write (paddr : Z) (bs : list Z) (m : ram) : ram :=
  match bs with [] => m | b :: bs => <[paddr := b]> (pmem_write (paddr + 1) bs m) end.
Definition pmem_zero (paddr n : Z) (m : ram) : ram := pmem_write paddr (replicate (Z.to_nat n) 0) m.

Lemma byte_write paddr bs m a :
  byte (pmem_write paddr bs m) a = if decide (paddr ≤ a < paddr + zlen bs) then nth (Z.to_nat (a - paddr)) bs 0 else byte m a.
Proof.
  revert paddr. induction bs as [|b bs IH]; intros paddr.
  { rewrite decide_False; [done|]. unfold zlen. simpl. lia. }
  rewrite zlen_cons. pose proof (zlen_nonneg bs). simpl pmem_write. unfold byte at 1. destruct (decide (a = paddr)) as [->|Hne].
  - rewrite lookup_insert_eq, decide_True by lia. by rewrite Z.sub_diag.
  - rewrite lookup_insert_ne by done. change (byte (pmem_write (paddr + 1) bs m) a = if decide (paddr ≤ a < paddr + (1 + zlen bs)) then nth (Z.to_nat (a - paddr)) (b :: bs) 0 else byte m a).
    rewrite IH. destruct (decide (paddr + 1 ≤ a < paddr + 1 + zlen bs)), (decide (paddr ≤ a < paddr + (1 + zlen bs))); try lia.
    replace (Z.to_nat (a - paddr)) with (S (Z.to_nat (a - (paddr + 1)))) by lia. done.
Qed.

Lemma read_written paddr bs m : pmem_read paddr (zlen bs) (pmem_write paddr bs m) = bs.
Proof.
  unfold pmem_read. apply list_eq. intros i. rewrite list_lookup_fmap. destruct (decide (i < length bs)%nat) as [Hi|Hi].
  - rewrite lookup_seqZ_lt by (unfold zlen; lia). simpl. rewrite byte_write, decide_True by (unfold zlen; lia).
    replace (Z.to_nat (paddr + Z.of_nat i - paddr)) with i by lia.
    destruct (bs !! i) as [b|] eqn:E; [by erewrite nth_lookup_Some|]. apply lookup_ge_None in E. lia.
  - rewrite lookup_seqZ_ge by (unfold zlen; lia). symmetry. apply lookup_ge_None. lia.
Qed.

(** ** The objects *)
Module CachePolicy.
Inductive t := Cached | Uncached | UncachedDevice | WriteCombining.
Definition as_u32 (p : t) : Z := match p with Cached => 0 | Uncached => 1 | UncachedDevice => 2 | WriteCombining => 3 end.
#[global] Instance t_eq_dec : EqDecision t.
Proof. solve_decision. Defined.
End CachePolicy.

(** How a memory object tells its mappings that pages have changed. *)
Inductive RangeChangeOp := RemoveWrite | Unmap.

Inductive VMObject :=
| VMObjectPhysical (paddr pages : Z) (policy : CachePolicy.t)
| VMObjectSlice (parent : VMObject) (offset size : Z).

Implicit Types (o : VMObject) (m : ram) (offset : Z).

(** [VMObjectPhysical::new] *)
Definition new_physical (paddr pages : Z) : ZxResult VMObject :=
  if negb (page_aligned paddr) then Panic else Ok (VMObjectPhysical paddr pages CachePolicy.Uncached).

Definition vmo_len o : Z :=
  match o with VMObjectPhysical _ pages _ => pages *u PAGE_SIZE | VMObjectSlice _ _ size => size end.

Definition check_range (size offset n : Z) : ZxResult unit :=
  if (2 ^ 64 <=? offset + n) || (size <? offset + n) then Err ZxError.OUT_OF_RANGE else Ok tt.

Fixpoint vmo_read o offset (n : Z) m : ZxResult (list Z) :=
  match o with
  | VMObjectPhysical paddr _ _ =>
      if vmo_len o <? offset +u n then Panic else Ok (pmem_read (paddr +u offset) n m)
  | VMObjectSlice parent off size =>
      let? _ := check_range size offset n in vmo_read parent (offset +u off) n m
  end.

Fixpoint vmo_write o offset (bs : list Z) m : ZxResult ram :=
  match o with
  | VMObjectPhysical paddr _ _ =>
      if vmo_len o <? offset +u zlen bs then Panic else Ok (pmem_write (paddr +u offset) bs m)
  | VMObjectSlice parent off size =>
      let? _ := check_range size offset (zlen bs) in vmo_write parent (offset +u off) bs m
  end.

Fixpoint vmo_zero o offset (n : Z) m : ZxResult ram :=
  match o with
  | VMObjectPhysical paddr _ _ =>
      if vmo_len o <? offset +u n then Panic else Ok (pmem_zero (paddr +u offset) n m)
  | VMObjectSlice parent off size =>
      let? _ := check_range size offset n in vmo_zero parent (offset +u off) n m
  end.

Fixpoint commit_page o (page_idx : Z) : ZxResult Z :=
  match o with
  | VMObjectPhysical paddr _ _ => Ok (paddr +u page_idx *u PAGE_SIZE)
  | VMObjectSlice parent off _ => commit_page parent (page_idx +u off / PAGE_SIZE)
  end.

(** What the closure that [commit_pages_with] hands to its argument does: a slice hands the
    argument to its parent. *)
Fixpoint commit_closure o (page_idx : Z) : ZxResult Z :=
  match o with
  | VMObjectPhysical paddr _ _ => Ok (paddr +u page_idx *u PAGE_SIZE)
  | VMObjectSlice parent _ _ => commit_closure parent page_idx
  end.

Fixpoint cache_policy o : CachePolicy.t :=
  match o with VMObjectPhysical _ _ p => p | VMObjectSlice parent _ _ => cache_policy parent end.
Fixpoint is_contiguous o : bool :=
  match o with VMObjectPhysical _ _ _ => true | VMObjectSlice parent _ _ => is_contiguous parent end.

Definition set_cache_policy o (p : CachePolicy.t) : VMObject :=
  match o with VMObjectPhysical paddr pages _ => VMObjectPhysical paddr pages p | VMObjectSlice _ _ _ => o end.

(** [VmObject::create_slice] *)
Definition create_slice (resizable : bool) o offset (p_size : Z) : ZxResult VMObject :=
  let size := roundup_pages p_size in
  if (size <? p_size) || (Z.ldiff usize_max (32 * PAGE_SIZE) <? size) then Err ZxError.OUT_OF_RANGE
  else
    let parent_size := vmo_len o in
    if negb (page_aligned offset) then Err ZxError.INVALID_ARGS
    else if (parent_size <? offset) || (parent_size -u offset <? size) then Err ZxError.INVALID_ARGS
    else if resizable then Err ZxError.NOT_SUPPORTED
    else if negb (bool_decide (cache_policy o = CachePolicy.Cached)) && negb (is_contiguous o) then Err ZxError.BAD_STATE
    else Ok (VMObjectSlice o offset size).

(** Objects within physical memory, and slices within their parents. *)
Fixpoint vmo_wf o : Prop :=
  match o with
  | VMObjectPhysical paddr pages _ => 0 ≤ paddr ∧ paddr mod PAGE_SIZE = 0 ∧ 0 ≤ pages ∧ paddr + pages * PAGE_SIZE < 2 ^ 64
  | VMObjectSlice parent off size =>
      vmo_wf parent ∧ 0 ≤ off ∧ off mod PAGE_SIZE = 0 ∧ 0 ≤ size ∧ size mod PAGE_SIZE = 0 ∧ off + size ≤ vmo_len parent
  end.

(** The physical address of the first byte. *)
Fixpoint vmo_base o : Z :=
  match o with VMObjectPhysical paddr _ _ => paddr | VMObjectSlice parent off _ => vmo_base parent + off end.

Lemma vmo_bounds o : vmo_wf o → 0 ≤ vmo_base o ∧ vmo_base o mod PAGE_SIZE = 0 ∧ 0 ≤ vmo_len o ∧ vmo_base o + vmo_len o < 2 ^ 64.
Proof.
  induction o as [paddr pages p|o IH off size]; simpl.
  - intros (H1 & H2 & H3 & H4). unfold PAGE_SIZE in *. rewrite wmul_small by (unfold fits; lia). split_and!; [done|done|lia|lia].
  - intros (Hw & H1 & H2 & H3 & H4 & H5). destruct (IH Hw) as (H6 & H7 & H8 & H9). split_and!; [lia| |lia|lia].
    by rewrite Z.add_mod, H7, H2.
Qed.

Lemma create_slice_wf r o offset p_size o' :
  vmo_wf o → 0 ≤ offset → fits 64 p_size → create_slice r o offset p_size = Ok o' → vmo_wf o' ∧ p_size ≤ vmo_len o'.
Proof.
  intros Hw Ho Hp. unfold create_slice. destruct (vmo_bounds o Hw) as (H1 & H2 & H3 & H4).
  destruct (roundup_pages_spec p_size Hp) as (_ & _ & Hm). unfold page_aligned.
  destruct (Z.ltb_spec (roundup_pages p_size) p_size); [done|]. destruct (Z.ltb_spec (Z.ldiff usize_max (32 * PAGE_SIZE)) (roundup_pages p_size)); [done|]. cbn [orb].
  destruct (Z.eqb_spec (offset mod PAGE_SIZE) 0) as [Ha|]; [|done]. cbn [negb].
  destruct (Z.ltb_spec (vmo_len o) offset); [done|]. cbn [orb]. rewrite wsub_small by (unfold fits; lia).
  destruct (Z.ltb_spec (vmo_len o - offset) (roundup_pages p_size)); [done|].
  destruct r; [done|]. destruct (negb _ && _); [done|]. intros [= <-]. simpl. unfold fits in *. split_and!; (done || lia).
Qed.

(** Where the operations work. *)
Lemma vmo_write_at o offset bs m :
  vmo_wf o → 0 ≤ offset → offset + zlen bs ≤ vmo_len o → vmo_write o offset bs m = Ok (pmem_write (vmo_base o + offset) bs m).
Proof.
  intros Hw. revert offset. induction o as [paddr pages p|o IH off size]; intros offset Ho Hl; pose proof (zlen_nonneg bs).
  - destruct (vmo_bounds _ Hw) as (H1 & _ & _ & H4). cbn [vmo_write vmo_base] in *. unfold fits.
    rewrite (wadd_small 64 offset) by (unfold fits; lia). destruct (Z.ltb_spec (vmo_len (VMObjectPhysical paddr pages p)) (offset + zlen bs)); [lia|].
    by rewrite wadd_small by (unfold fits; lia).
  - destruct (vmo_bounds _ Hw) as (H1 & _ & _ & H4). simpl in *. destruct Hw as (Hw & H5 & _ & H6 & _ & H7).
    destruct (vmo_bounds _ Hw) as (H8 & _ & _ & H9).
    unfold check_range. bcase; simpl; try lia. rewrite wadd_small by (unfold fits; lia).
    rewrite IH by (done || lia). do 2 f_equal. lia.
Qed.

Lemma vmo_read_at o offset n m :
  vmo_wf o → 0 ≤ offset → 0 ≤ n → offset + n ≤ vmo_len o → vmo_read o offset n m = Ok (pmem_read (vmo_base o + offset) n m).
Proof.
  intros Hw. revert offset. induction o as [paddr pages p|o IH off size]; intros offset Ho Hn Hl.
  - destruct (vmo_bounds _ Hw) as (H1 & _ & _ & H4). cbn [vmo_read vmo_base] in *.
    rewrite (wadd_small 64 offset) by (unfold fits; lia). destruct (Z.ltb_spec (vmo_len (VMObjectPhysical paddr pages p)) (offset + n)); [lia|].
    by rewrite wadd_small by (unfold fits; lia).
  - destruct (vmo_bounds _ Hw) as (H1 & _ & _ & H4). simpl in *. destruct Hw as (Hw & H5 & _ & H6 & _ & H7).
    destruct (vmo_bounds _ Hw) as (H8 & _ & _ & H9).
    unfold check_range. bcase; simpl; try lia. rewrite wadd_small by (unfold fits; lia).
    rewrite IH by (done || lia). do 2 f_equal. lia.
Qed.

(** Reading back what was written through an object gives the bytes, whatever objects and
    slices of objects are stacked on each other, and nothing but these bytes changes: in
    particular nothing outside the object. *)
Theorem vmo_write_read o offset bs m :
  vmo_wf o → 0 ≤ offset → offset + zlen bs ≤ vmo_len o →
  ∃ m', vmo_write o offset bs m = Ok m' ∧ vmo_read o offset (zlen bs) m' = Ok bs ∧
    ∀ a, ¬ vmo_base o + offset ≤ a < vmo_base o + offset + zlen bs → byte m' a = byte m a.
Proof.
  intros Hw Ho Hl. eexists. split; [by apply vmo_write_at|]. split.
  - rewrite vmo_read_at by (done || apply zlen_nonneg). by rewrite read_written.
  - intros a Ha. by rewrite byte_write, decide_False.
Qed.

Definition demo_slice : VMObject := VMObjectSlice (VMObjectPhysical 0x100000 8 CachePolicy.Uncached) 0x2000 0x1000.

Lemma demo_slice_wf : vmo_wf demo_slice.
Proof. by vm_compute. Qed.

Lemma vmo_write_read_witness :
  ∃ m', vmo_write demo_slice 16 [1; 2; 3] ∅ = Ok m' ∧ vmo_read demo_slice 16 3 m' = Ok [1; 2; 3] ∧
    ∀ a, ¬ 0x102010 ≤ a < 0x102010 + 3 → byte m' a = byte ∅ a.
Proof. apply (vmo_write_read demo_slice 16 [1; 2; 3] ∅); [apply demo_slice_wf|lia|by vm_compute]. Defined.

Lemma commit_page_at o page_idx :
  vmo_wf o → 0 ≤ page_idx → page_idx * PAGE_SIZE ≤ vmo_len o → commit_page o page_idx = Ok (vmo_base o + page_idx * PAGE_SIZE).
Proof.
  intros Hw. revert page_idx. induction o as [paddr pages p|o IH off size]; intros idx Hi Hl; destruct (vmo_bounds _ Hw) as (H1 & _ & _ & H4).
  - cbn [commit_page vmo_base] in *. rewrite wmul_small by (unfold fits, PAGE_SIZE in *; lia). by rewrite wadd_small by (unfold fits, PAGE_SIZE in *; lia).
  - simpl in *. destruct Hw as (Hw & H5 & H6 & H7 & _ & H8). destruct (vmo_bounds _ Hw) as (H9 & _ & _ & H10).
    unfold PAGE_SIZE in *. pose proof (Z.div_mod off 4096). rewrite wadd_small by (unfold fits; lia). rewrite IH by (done || lia). f_equal. lia.
Qed.

Lemma commit_closure_at o page_idx :
  vmo_wf o → 0 ≤ page_idx → page_idx * PAGE_SIZE ≤ vmo_len o →
  ∃ base, commit_closure o page_idx = Ok (base + page_idx * PAGE_SIZE) ∧ (0 ≤ base ≤ vmo_base o ∧ base mod PAGE_SIZE = 0) ∧ ∀ parent off size, o = VMObjectSlice parent off size → base ≤ vmo_base parent.
Proof.
  intros Hw. revert page_idx. induction o as [paddr pages p|o IH off size]; intros idx Hi Hl; destruct (vmo_bounds _ Hw) as (H1 & _ & _ & H4).
  - exists paddr. cbn [commit_closure vmo_base] in *. rewrite wmul_small by (unfold fits, PAGE_SIZE in *; lia).
    rewrite wadd_small by (unfold fits, PAGE_SIZE in *; lia). destruct Hw as (_ & Hw & _). split_and!; [done|lia|lia|done|done].
  - simpl in *. destruct Hw as (Hw & H5 & H6 & H7 & _ & H8). destruct (IH Hw idx Hi ltac:(lia)) as (base & -> & (Hb & Hba) & _).
    exists base. split_and!; [done|lia|lia|done|]. intros ? ? ? [= <- _ _]. lia.
Qed.

(** Mapping a slice at once ([commit_pages_with]) and mapping it page by page at faults
    ([commit_page]) give different frames: the former passes the page numbers to the parent
    without the offset of the slice, and so hands out frames before the slice. *)
Theorem slice_map_escapes parent off size page_idx :
  vmo_wf (VMObjectSlice parent off size) → 0 < off → 0 ≤ page_idx → page_idx * PAGE_SIZE < off → page_idx * PAGE_SIZE < size →
  let o := VMObjectSlice parent off size in
  commit_page o page_idx = Ok (vmo_base o + page_idx * PAGE_SIZE) ∧
  ∃ a, commit_closure o page_idx = Ok a ∧ a < vmo_base o.
Proof.
  intros Hw Hoff Hi Hlo Hs o. split; [apply commit_page_at; [done|done|]; unfold o; simpl; lia|].
  destruct (commit_closure_at o page_idx Hw Hi ltac:(unfold o; simpl; lia)) as (base & -> & _ & Hb).
  eexists. split; [done|]. specialize (Hb parent off size eq_refl). unfold o. simpl. lia.
Qed.

Lemma slice_map_escapes_witness :
  commit_page demo_slice 0 = Ok (vmo_base demo_slice + 0 * PAGE_SIZE) ∧ ∃ a, commit_closure demo_slice 0 = Ok a ∧ a < vmo_base demo_slice.
Proof. apply (slice_map_escapes (VMObjectPhysical 0x100000 8 CachePolicy.Uncached) 0x2000 0x1000 0); [apply demo_slice_wf|done|done|done|done]. Defined.
