(* ===== verification/Vmar.v ===== *)
(** * Address regions

    [zircon-object/src/vm/vmar.rs]: the tree of virtual memory address regions of an address
    space with the mappings of memory objects in it.  Regions have ids; those of new regions
    are larger than all others.  The regions of a tree share one page table, which is used
    through the interface [UserTable] of the page tables; memory objects are used through the
    interface [VmObjects].  Addresses are machine words. *)

From S2P Require Import Prelude Errors PageTable Vmo.
From stdpp Require Import options.
#[local] Open Scope Z_scope.

Module VmarFlags.
Definition COMPACT : Z := bit 0.
Definition SPECIFIC : Z := bit 1.
Definition SPECIFIC_OVERWRITE : Z := bit 2.
Definition CAN_MAP_SPECIFIC : Z := bit 3.
Definition CAN_MAP_READ : Z := bit 4.
Definition CAN_MAP_WRITE : Z := bit 5.
Definition CAN_MAP_EXECUTE : Z := bit 6.
Definition REQUIRE_NON_RESIZABLE : Z := bit 7.
Definition ALLOW_FAULTS : Z := bit 8.
Definition CAN_MAP_RXW : Z := Eval vm_compute in Z.lor CAN_MAP_READ (Z.lor CAN_MAP_EXECUTE CAN_MAP_WRITE).
Definition ROOT_FLAGS : Z := Eval vm_compute in Z.lor CAN_MAP_RXW CAN_MAP_SPECIFIC.
End VmarFlags.

(** What the regions use of memory objects, which are named by numbers: the length, the cache
    policy, [commit_page] and the closure of [commit_pages_with].  The frames that they hand out
    for pages within the length are aligned and below [limit]; [vo_bounded] objects refuse other
    pages. *)
Class VmObjects (V : Type) := {
  vo_len : V → nat → Z;
  vo_policy : V → nat → Z;
  vo_bounded : V → nat → bool;
  vo_commit_page : nat → Z → Z → V → ZxResult Z * V;
  vo_commit_closure : nat → Z → Z → V → ZxResult Z * V;
  vo_ok : Z → V → Prop;
  vo_len_bits limit v o : vo_ok limit v → 0 ≤ vo_len v o < 2 ^ 64;
  vo_policy_bits limit v o : vo_ok limit v → 0 ≤ vo_policy v o < 4;
  vo_commit_page_ok limit v o i f r v' : vo_ok limit v → vo_commit_page o i f v = (r, v') →
    vo_ok limit v' ∧ (∀ o', vo_len v' o' = vo_len v o' ∧ vo_bounded v' o' = vo_bounded v o') ∧
    ∀ pa, r = Ok pa → 0 ≤ i → vo_bounded v o = true ∨ (i + 1) * PAGE_SIZE ≤ vo_len v o → 0 ≤ pa < limit ∧ pa mod PAGE_SIZE = 0;
  vo_commit_closure_ok limit v o i f r v' : vo_ok limit v → vo_commit_closure o i f v = (r, v') →
    vo_ok limit v' ∧ (∀ o', vo_len v' o' = vo_len v o' ∧ vo_bounded v' o' = vo_bounded v o') ∧
    ∀ pa, r = Ok pa → 0 ≤ i → vo_bounded v o = true ∨ (i + 1) * PAGE_SIZE ≤ vo_len v o → 0 ≤ pa < limit ∧ pa mod PAGE_SIZE = 0
}.

(** [VmMapping] with its [VmMappingInner]. *)
Record VmMapping := mkMapping {
  mid : nat;
  permissions : Z;
  vmo : nat;
  mflags : list Z;
  maddr : Z;
  msize : Z;
  vmo_offset : Z
}.

Record VmarInner := mkInner { children : list nat; mappings : list VmMapping }.

Record VmAddressRegion := mkVmar {
  flags : Z;
  addr : Z;
  size : Z;
  parent : option nat;
  inner : option VmarInner
}.

Section vmar.
Context {P V : Type} `{UserTable P} `{VmObjects V}.

(** An address space; [registered] lists which mappings a memory object knows, and [next_mid]
    numbers the mappings. *)
Record aspace := mkAspace {
  vmars : gmap nat VmAddressRegion;
  page_table : P;
  vmos : V;
  registered : list (nat * nat);
  next_mid : nat
}.
Implicit Types (st : aspace) (r : VmAddressRegion) (i : VmarInner) (m : VmMapping) (v c : nat) (pt : P).

Definition set_vmars (x : gmap nat VmAddressRegion) st := mkAspace x (page_table st) (vmos st) (registered st) (next_mid st).
Definition set_table pt st := mkAspace (vmars st) pt (vmos st) (registered st) (next_mid st).
Definition set_vmos (x : V) st := mkAspace (vmars st) (page_table st) x (registered st) (next_mid st).
Definition with_inner (i : option VmarInner) r := mkVmar (flags r) (addr r) (size r) (parent r) i.
Definition set_inner v (i : option VmarInner) st := set_vmars (alter (with_inner i) v (vmars st)) st.

(** ** Ranges *)
Definition m_end m : Z := maddr m +u msize m.
Definition m_overlap m (begin end_ : Z) : bool := negb ((end_ <=? maddr m) || (m_end m <=? begin)).
Definition m_contains m (vaddr : Z) : bool := (maddr m <=? vaddr) && (vaddr <? m_end m).
Definition end_addr r : Z := addr r +u size r.
Definition overlap r (begin end_ : Z) : bool := negb ((end_ <=? addr r) || (end_addr r <=? begin)).
Definition within r (begin end_ : Z) : bool := (begin <=? addr r) && (end_addr r <=? end_).
Definition partial_overlap r (begin end_ : Z) : bool := overlap r begin end_ && negb (within r begin end_).
Definition contains_va r (vaddr : Z) : bool := (addr r <=? vaddr) && (vaddr <? end_addr r).
Definition is_valid_mapping_flags m (f : Z) : bool := contains (permissions m) (Z.land f MMUFlags.RXW).

(** The regions of a list of ids. *)
Definition regions st (cs : list nat) : list VmAddressRegion := omap (λ c, vmars st !! c) cs.

(** ** Placing a new region or mapping *)
Definition test_map st r i (offset len : Z) : bool :=
  let begin := addr r +u offset in
  let end_ := begin +u len in
  if addr r +u size r <? end_ then false
  else if existsb (λ rc, overlap rc begin end_) (regions st (children i)) then false
  else if existsb (λ m, m_overlap m begin end_) (mappings i) then false
  else true.

Definition find_free_area st r i (offset_hint len : Z) : option Z :=
  List.find (λ offset, test_map st r i offset len)
    (offset_hint :: ((λ rc, end_addr rc -u addr r) <$> regions st (children i)) ++ ((λ m, m_end m -u addr r) <$> mappings i)).

Definition determine_offset st r i (offset : option Z) (len align : Z) : ZxResult Z :=
  if negb (check_aligned len align) then Err ZxError.INVALID_ARGS
  else match offset with
  | Some offset =>
      if check_aligned offset align && test_map st r i offset len then Ok offset else Err ZxError.INVALID_ARGS
  | None =>
      if size r <? len then Err ZxError.INVALID_ARGS
      else match find_free_area st r i 0 len with Some offset => Ok offset | None => Err ZxError.NO_MEMORY end
  end.

(** The region with its inner part, or the error of a region that is destroyed. *)
Definition alive st v : ZxResult (VmAddressRegion * VmarInner) :=
  match vmars st !! v with
  | None => Err ZxError.BAD_HANDLE
  | Some r => match inner r with Some i => Ok (r, i) | None => Err ZxError.BAD_STATE end
  end.

(** [allocate]; [c] is the id of the new region. *)
Definition allocate v c (offset : option Z) (len vflags align : Z) st : ZxResult unit * aspace :=
  match alive st v with
  | Ok (r, i) =>
      match determine_offset st r i offset len align with
      | Ok offset =>
          let child := mkVmar vflags (addr r +u offset) len (Some v) (Some (mkInner [] [])) in
          (Ok tt, set_vmars (<[c := child]> (vmars (set_inner v (Some (mkInner (children i ++ [c]) (mappings i))) st))) st)
      | Err e => (Err e, st)
      | Panic => (Panic, st)
      end
  | Err e => (Err e, st)
  | Panic => (Panic, st)
  end.

(** ** Mappings *)
(** [VmMapping::new], which registers the mapping with its memory object. *)
Definition m_new (n : nat) (a len : Z) (o : nat) (off perms f : Z) : VmMapping :=
  mkMapping n perms o (replicate (Z.to_nat (pages len)) f) a len off.
Definition register (o n : nat) st : aspace :=
  mkAspace (vmars st) (page_table st) (vmos st) (registered st ++ [(o, n)]) (S (next_mid st)).

(** [VmMapping::map]: the loop from the page [k] on. *)
Fixpoint m_map_loop m (fs : list Z) (k : Z) st : ZxResult unit * aspace :=
  match fs with
  | [] => (Ok tt, st)
  | f :: fs =>
      match vo_commit_closure (vmo m) (vmo_offset m / PAGE_SIZE +u k) f (vmos st) with
      | (Ok paddr, vs) =>
          match ut_map (maddr m +u k *u PAGE_SIZE) paddr f (page_table st) with
          | (Ok _, pt) => m_map_loop m fs (k + 1) (set_vmos vs (set_table pt st))
          | (_, pt) => (Panic, set_vmos vs (set_table pt st))
          end
      | (Err e, vs) => (Err e, set_vmos vs st)
      | (Panic, vs) => (Panic, set_vmos vs st)
      end
  end.
Definition m_map m st : ZxResult unit * aspace := m_map_loop m (ztake (msize m / PAGE_SIZE) (mflags m)) 0 st.

(** [VmMapping::unmap], also its drop *)
Definition m_unmap m st : ZxResult unit * aspace :=
  match ut_unmap_cont (maddr m) (msize m) (page_table st) with
  | (Ok _, pt) => (Ok tt, set_table pt st)
  | (_, pt) => (Panic, set_table pt st)
  end.

Fixpoint drop_mappings (ms : list VmMapping) st : ZxResult unit * aspace :=
  match ms with
  | [] => (Ok tt, st)
  | m :: ms => match m_unmap m st with (Ok _, st) => drop_mappings ms st | x => x end
  end.

(** [VmMapping::cut]; [n] is the id of the mapping that it may split off. *)
Definition m_cut (n : nat) (begin end_ : Z) m pt : ZxResult (VmMapping * option VmMapping * P) :=
  if negb (m_overlap m begin end_) then Ok (m, None, pt)
  else if (begin <=? maddr m) && (m_end m <=? end_) then
    match ut_unmap_cont (maddr m) (msize m) pt with
    | (Ok _, pt) => Ok (mkMapping (mid m) (permissions m) (vmo m) [] (maddr m) 0 (vmo_offset m), None, pt)
    | _ => Panic
    end
  else if (begin <=? maddr m) && (maddr m <? end_) then
    let cut_len := end_ -u maddr m in
    match ut_unmap_cont (maddr m) cut_len pt with
    | (Ok _, pt) =>
        if zlen (mflags m) <? pages cut_len then Panic
        else Ok (mkMapping (mid m) (permissions m) (vmo m) (zdrop (pages cut_len) (mflags m)) end_
                   (msize m -u cut_len) (vmo_offset m +u cut_len), None, pt)
    | _ => Panic
    end
  else if (m_end m <=? end_) && (begin <? m_end m) then
    let cut_len := m_end m -u begin in
    let new_len := begin -u maddr m in
    match ut_unmap_cont begin cut_len pt with
    | (Ok _, pt) =>
        Ok (mkMapping (mid m) (permissions m) (vmo m) (ztake new_len (mflags m)) (maddr m) new_len (vmo_offset m), None, pt)
    | _ => Panic
    end
  else
    let cut_len := end_ -u begin in
    let new_len1 := begin -u maddr m in
    let new_len2 := m_end m -u end_ in
    match ut_unmap_cont begin cut_len pt with
    | (Ok _, pt) =>
        let hi := pages (msize m) in
        let lo := hi -u pages new_len2 in
        if (hi <? lo) || (zlen (mflags m) <? hi) then Panic
        else
          let new := mkMapping n (permissions m) (vmo m) (ztake (hi - lo) (zdrop lo (mflags m))) end_ new_len2
                       (vmo_offset m +u (end_ -u maddr m)) in
          let rest := ztake lo (mflags m) ++ zdrop hi (mflags m) in
          Ok (mkMapping (mid m) (permissions m) (vmo m) (ztake new_len1 rest) (maddr m) new_len1 (vmo_offset m), Some new, pt)
    | _ => Panic
    end.

(** The loop of [unmap_inner] over the mappings: those that stay, those that are split off. *)
Fixpoint cut_all (n : nat) (begin end_ : Z) (ms : list VmMapping) pt : ZxResult (list VmMapping * list VmMapping * nat * P) :=
  match ms with
  | [] => Ok ([], [], n, pt)
  | m :: ms =>
      let? (m1, new, pt) := m_cut n begin end_ m pt in
      let? (kept, news, n, pt) := cut_all (S n) begin end_ ms pt in
      Ok (if 0 <? msize m1 then m1 :: kept else kept, option_list new ++ news, n, pt)
  end.

(** ** Destroying regions *)
Fixpoint destroy_list (f : nat → aspace → ZxResult unit * aspace) (cs : list nat) st : ZxResult unit * aspace :=
  match cs with
  | [] => (Ok tt, st)
  | c :: cs => match f c st with (Ok _, st) => destroy_list f cs st | x => x end
  end.

(** [destroy_internal]; the fuel bounds the depth of the tree. *)
Fixpoint destroy_internal (fuel : nat) v st : ZxResult unit * aspace :=
  match fuel with
  | O => (Panic, st)
  | S fuel =>
      match alive st v with
      | Ok (r, i) =>
          match destroy_list (destroy_internal fuel) (children i) (set_inner v (Some (mkInner [] (mappings i))) st) with
          | (Ok _, st) =>
              match drop_mappings (mappings i) st with
              | (Ok _, st) => (Ok tt, set_inner v None st)
              | x => x
              end
          | x => x
          end
      | Err e => (Err e, st)
      | Panic => (Panic, st)
      end
  end.

(** Children have larger ids than their parents, so that this is enough. *)
Definition max_id st : nat := map_fold (λ k _ n, Nat.max k n) O (vmars st).
Definition fuel_of st : nat := S (max_id st).

(** [inner.children.retain(|vmar| !Arc::ptr_eq(self, vmar))] *)
Definition unlink v q st : aspace :=
  set_vmars (alter (λ r, with_inner ((λ i, mkInner (filter (λ c, c ≠ v) (children i)) (mappings i)) <$> inner r) r) q (vmars st)) st.

Definition destroy v st : ZxResult unit * aspace :=
  match destroy_internal (fuel_of st) v st with
  | (Ok _, st) =>
      match vmars st !! v ≫= parent with
      | None => (Ok tt, st)
      | Some q =>
          match alive st q with
          | Ok _ => (Ok tt, unlink v q st)
          | _ => (Panic, st)
          end
      end
  | x => x
  end.

Definition clear v st : ZxResult unit * aspace :=
  match alive st v with
  | Ok (r, i) =>
      match destroy_list (destroy_internal (fuel_of st)) (children i) (set_inner v (Some (mkInner [] (mappings i))) st) with
      | (Ok _, st) =>
          match drop_mappings (mappings i) st with
          | (Ok _, st) => (Ok tt, set_inner v (Some (mkInner [] [])) st)
          | x => x
          end
      | x => x
      end
  | Err e => (Err e, st)
  | Panic => (Panic, st)
  end.

(** ** Unmapping *)
Definition id_within st (begin end_ : Z) c : bool :=
  match vmars st !! c with Some r => within r begin end_ | None => false end.

(** How many of the regions are destroyed before one fails, and the elements before the first that satisfies [p]. *)
Fixpoint destroyed_before (f : nat → aspace → ZxResult unit * aspace) (cs : list nat) st : nat :=
  match cs with
  | [] => O
  | c :: cs => match f c st with (Ok _, st) => S (destroyed_before f cs st) | _ => O end
  end.
Fixpoint take_until (p : nat → bool) (l : list nat) : list nat :=
  match l with [] => [] | c :: l => if p c then [] else c :: take_until p l end.

(** The loop over the children keeps those that are not within the range; if destroying one fails, the ones behind it are lost. *)
Definition unmap_inner v r i (a len : Z) st : ZxResult unit * aspace :=
  if negb (page_aligned a) || negb (page_aligned len) || (len =? 0) then (Err ZxError.INVALID_ARGS, st)
  else
    let begin := a in
    let end_ := a +u len in
    if existsb (λ rc, partial_overlap rc begin end_) (regions st (children i)) then (Err ZxError.INVALID_ARGS, st)
    else
      match cut_all (next_mid st) begin end_ (mappings i) (page_table st) with
      | Ok (kept, news, n, pt) =>
          let gone := filter (λ c, id_within st begin end_ c = true) (children i) in
          let stay := filter (λ c, id_within st begin end_ c = false) (children i) in
          let st := set_inner v (Some (mkInner stay (kept ++ news)))
                      (mkAspace (vmars st) pt (vmos st) (registered st) n) in
          match destroy_list (destroy_internal (fuel_of st)) gone st with
          | (Ok _, st) => (Ok tt, st)
          | (e, st') =>
              let bad := gone !! destroyed_before (destroy_internal (fuel_of st)) gone st in
              let passed := take_until (λ c, bool_decide (Some c = bad)) (children i) in
              (e, set_inner v (Some (mkInner (filter (λ c, id_within st begin end_ c = false) passed) (kept ++ news))) st')
          end
      | Err e => (Err e, st)
      | Panic => (Panic, st)
      end.

Definition unmap v (a len : Z) st : ZxResult unit * aspace :=
  if negb (page_aligned a) || negb (page_aligned len) || (len =? 0) then (Err ZxError.INVALID_ARGS, st)
  else match alive st v with
  | Ok (r, i) => unmap_inner v r i a len st
  | Err e => (Err e, st)
  | Panic => (Panic, st)
  end.

(** ** Mapping *)
(** The offset that [map_ext] picks. *)
Definition pick st r i (vmar_offset : option Z) (len : Z) (overwrite : bool) : ZxResult Z :=
  if overwrite then
    let? offset := ok_or vmar_offset ZxError.INVALID_ARGS in
    if negb (page_aligned offset) || (size r <? offset) || (size r -u offset <? len) then Err ZxError.INVALID_ARGS
    else Ok offset
  else determine_offset st r i vmar_offset len PAGE_SIZE.

(** The end of [map_ext], once the range is free: the new mapping, which is dropped if its
    pages cannot be committed. *)
Definition place v (a len : Z) (o : nat) (off perms f : Z) (map_range : bool) st : ZxResult Z * aspace :=
  let m := m_new (next_mid st) a len o off perms f in
  let st := register o (next_mid st) st in
  let '(done, st) := if map_range then m_map m st else (Ok tt, st) in
  match done with
  | Ok _ =>
      match alive st v with
      | Ok (_, i) => (Ok a, set_inner v (Some (mkInner (children i) (mappings i ++ [m]))) st)
      | _ => (Panic, st)
      end
  | Err e => match m_unmap m st with (Ok _, st) => (Err e, st) | (_, st) => (Panic, st) end
  | Panic => (Panic, st)
  end.

Definition map_ext v (vmar_offset : option Z) (o : nat) (off len perms f : Z) (overwrite map_range allow_faults : bool) st
    : ZxResult Z * aspace :=
  if negb (page_aligned off) || negb (page_aligned len) || (2 ^ 64 <=? off + len) then (Err ZxError.INVALID_ARGS, st)
  else if negb (contains perms (Z.land f MMUFlags.RXW)) then (Err ZxError.ACCESS_DENIED, st)
  else if negb allow_faults && ((vo_len (vmos st) o <? off) || (vo_len (vmos st) o -u off <? len)) then (Err ZxError.INVALID_ARGS, st)
  else match alive st v with
  | Ok (r, i) =>
      match pick st r i vmar_offset len overwrite with
      | Ok offset =>
          let a := addr r +u offset in
          let f := Z.lor f (vo_policy (vmos st) o) in
          let '(free, st) :=
            if negb (test_map st r i offset len) then
              if overwrite then unmap_inner v r i a len st else (Err ZxError.NO_MEMORY, st)
            else (Ok tt, st) in
          match free with
          | Ok _ => place v a len o off perms f map_range st
          | Err e => (Err e, st)
          | Panic => (Panic, st)
          end
      | Err e => (Err e, st)
      | Panic => (Panic, st)
      end
  | Err e => (Err e, st)
  | Panic => (Panic, st)
  end.

(** ** Protection *)
Fixpoint m_protect_loop (n : nat) (f a : Z) (k : Z) (fs : list Z) pt : ZxResult (list Z * P) :=
  match n with
  | O => Ok (fs, pt)
  | S n =>
      let? old := unwrap (fs !! Z.to_nat k) in
      let new := Z.lor (Z.ldiff old MMUFlags.RXW) (Z.land f MMUFlags.RXW) in
      let '(res, pt) := ut_update (a +u k *u PAGE_SIZE) None (Some new) pt in
      match ignore res with
      | Ok _ => m_protect_loop n f a (k + 1) (<[Z.to_nat k := new]> fs) pt
      | _ => Panic
      end
  end.

Definition m_protect (f start_index end_index : Z) m pt : ZxResult (VmMapping * P) :=
  let? (fs, pt) := m_protect_loop (Z.to_nat (end_index - start_index)) f (maddr m) start_index (mflags m) pt in
  Ok (mkMapping (mid m) (permissions m) (vmo m) fs (maddr m) (msize m) (vmo_offset m), pt).

(** The mappings that [protect] looks at. *)
Definition touches (a end_ : Z) m : bool := (a <=? m_end m) && (maddr m <=? end_).

Fixpoint protect_all (f a end_ : Z) (ms : list VmMapping) pt : ZxResult (list VmMapping * P) :=
  match ms with
  | [] => Ok ([], pt)
  | m :: ms =>
      let? (m, pt) :=
        if touches a end_ m
        then m_protect f (pages (Z.max a (maddr m) -u maddr m)) (pages (Z.min end_ (m_end m) -u maddr m)) m pt
        else Ok (m, pt) in
      let? (ms, pt) := protect_all f a end_ ms pt in
      Ok (m :: ms, pt)
  end.

Definition covered (a end_ : Z) (ms : list VmMapping) : Z :=
  foldr (λ m n, if touches a end_ m then (Z.min end_ (m_end m) -u Z.max a (maddr m)) +u n else n) 0 ms.

Definition protect v (a len f : Z) st : ZxResult unit * aspace :=
  if negb (page_aligned a) || negb (page_aligned len) then (Err ZxError.INVALID_ARGS, st)
  else match alive st v with
  | Ok (r, i) =>
      let end_ := a +u len in
      if existsb (λ rc, (a <=? end_addr rc) && (addr rc <=? end_)) (regions st (children i)) then (Err ZxError.INVALID_ARGS, st)
      else if negb (covered a end_ (mappings i) =? len) then (Err ZxError.NOT_FOUND, st)
      else if existsb (λ m, negb (is_valid_mapping_flags m f)) (List.filter (touches a end_) (mappings i)) then (Err ZxError.ACCESS_DENIED, st)
      else match protect_all f a end_ (mappings i) (page_table st) with
      | Ok (ms, pt) => (Ok tt, set_inner v (Some (mkInner (children i) ms)) (set_table pt st))
      | Err e => (Err e, st)
      | Panic => (Panic, st)
      end
  | Err e => (Err e, st)
  | Panic => (Panic, st)
  end.

(** ** Faults and lookups *)
(** [map], and [update] if the page is mapped already. *)
Definition map_or_update (vaddr paddr f : Z) pt : PagingResult unit * P :=
  let '(res, pt) := ut_map vaddr paddr f pt in
  match res with
  | Err PagingError.AlreadyMapped => let '(res, pt) := ut_update vaddr (Some paddr) (Some f) pt in (rmap (λ _, tt) res, pt)
  | _ => (res, pt)
  end.

(** [VmMapping::handle_page_fault]; a read does not get a writable page. *)
Definition fault_flags (access f : Z) : Z := if negb (contains access MMUFlags.WRITE) then Z.ldiff f MMUFlags.WRITE else f.

Definition m_page_fault m (vaddr access : Z) st : ZxResult unit * aspace :=
  let vaddr := round_down_pages vaddr in
  let offset := vaddr -u maddr m in
  match mflags m !! Z.to_nat (offset / PAGE_SIZE) with
  | None => (Panic, st)
  | Some f =>
      if negb (contains f access) then (Err ZxError.ACCESS_DENIED, st)
      else
        match vo_commit_page (vmo m) ((offset +u vmo_offset m) / PAGE_SIZE) access (vmos st) with
        | (Ok paddr, vs) =>
            let '(res, pt) := map_or_update vaddr paddr (fault_flags access f) (page_table st) in
            (match res with Ok _ => Ok tt | Err _ => Err ZxError.ACCESS_DENIED | Panic => Panic end, set_table pt (set_vmos vs st))
        | (Err e, vs) => (Err e, set_vmos vs st)
        | (Panic, vs) => (Panic, set_vmos vs st)
        end
  end.

(** The mapping at an address: children are looked at first; [unwrap] of a destroyed region
    panics. *)
Fixpoint lookup_mapping (fuel : nat) st v (vaddr : Z) : result PagingError.t VmMapping :=
  match fuel with
  | O => Panic
  | S fuel =>
      match alive st v with
      | Ok (r, i) =>
          if negb (contains_va r vaddr) then Err PagingError.NotMapped
          else
            match List.find (λ c, match vmars st !! c with Some rc => contains_va rc vaddr | None => false end) (children i) with
            | Some c => lookup_mapping fuel st c vaddr
            | None =>
                match List.find (λ m, m_contains m vaddr) (mappings i) with
                | Some m => Ok m
                | None => Err PagingError.NoMemory
                end
            end
      | _ => Panic
      end
  end.

Definition handle_page_fault v (vaddr access : Z) st : ZxResult unit * aspace :=
  match lookup_mapping (fuel_of st) st v vaddr with
  | Ok m => m_page_fault m vaddr access st
  | Err _ => (Err ZxError.NOT_FOUND, st)
  | Panic => (Panic, st)
  end.

Definition get_vaddr_flags st v (vaddr : Z) : PagingResult Z :=
  let? m := lookup_mapping (fuel_of st) st v vaddr in
  let? (_, f, _) := ut_query (page_table st) vaddr in
  Ok f.

Definition get_mapping_flags st v (vaddr : Z) : PagingResult Z :=
  let? m := lookup_mapping (fuel_of st) st v vaddr in
  ok_or (mflags m !! Z.to_nat ((vaddr -u maddr m) / PAGE_SIZE)) PagingError.NotMapped.

(** The body of the loop of [check_user_range], up to the end test. *)
Definition check_page st v (va access : Z) : ZxResult unit :=
  match get_mapping_flags st v va with
  | Panic => Panic
  | Err _ => Err ZxError.NOT_FOUND
  | Ok f =>
      if negb (contains f MMUFlags.USER) then Err ZxError.NOT_FOUND
      else if negb (contains f access) then Err ZxError.ACCESS_DENIED
      else Ok tt
  end.

(** The fuel is the number of pages. *)
Fixpoint check_loop (fuel : nat) st v (a page end_page access : Z) : ZxResult unit :=
  let? _ := check_page st v (Z.max page a) access in
  if end_page <=? page then Ok tt
  else if 2 ^ 64 <=? page + PAGE_SIZE then Err ZxError.NOT_FOUND
  else match fuel with
  | O => Panic
  | S fuel => check_loop fuel st v a (page + PAGE_SIZE) end_page access
  end.

Definition check_user_range st v (a len access : Z) : ZxResult unit :=
  if len =? 0 then Ok tt
  else if 2 ^ 64 <=? a + (len - 1) then Err ZxError.NOT_FOUND
  else
    let page := Z.ldiff a (PAGE_SIZE - 1) in
    let end_page := Z.ldiff (a + (len - 1)) (PAGE_SIZE - 1) in
    check_loop (Z.to_nat ((end_page - page) / PAGE_SIZE)) st v a page end_page access.

(** ** Changes of a range of a memory object *)
Fixpoint change_loop (op : RangeChangeOp) (n : nat) m (k : Z) pt : ZxResult P :=
  match n with
  | O => Ok pt
  | S n =>
      let '(res, pt) :=
        match op with
        | RemoveWrite =>
            match mflags m !! Z.to_nat k with
            | None => (Panic, pt)
            | Some f =>
                let '(res, pt) := ut_update (maddr m +u k *u PAGE_SIZE) None (Some (Z.ldiff f MMUFlags.WRITE)) pt in (ignore res, pt)
            end
        | Unmap => let '(res, pt) := ut_unmap (maddr m +u k *u PAGE_SIZE) pt in (ignore res, pt)
        end in
      match res with Ok _ => change_loop op n m (k + 1) pt | _ => Panic end
  end.

(** [VmMapping::range_change], on pages [offset, offset + len) of the object.  [locked]: the mapping is being used, [try_lock] fails. *)
Definition range_change (locked : bool) (offset len : Z) (op : RangeChangeOp) m pt : ZxResult P :=
  if locked then Ok pt else
  let start := Z.max offset (vmo_offset m) in
  let end_ := Z.min (vmo_offset m +u msize m / PAGE_SIZE) (offset +u len) in
  if end_ <=? start then Ok pt
  else change_loop op (Z.to_nat (end_ - start)) m (start - vmo_offset m) pt.
End vmar.

Arguments aspace : clear implicits.

(** ** The tree
    Live regions are those with an inner part. *)
Definition disj (a s b t : Z) : Prop := a + s ≤ b ∨ b + t ≤ a.

Implicit Types (T : gmap nat VmAddressRegion) (r : VmAddressRegion) (i : VmarInner) (m : VmMapping) (v c x : nat).

Definition live T v r i : Prop := T !! v = Some r ∧ inner r = Some i.

(** A mapping within its region, page-aligned, with flags for all its pages, which allow user
    access and no more than the permissions. *)
Record m_ok r m : Prop := {
  mo_lo : addr r ≤ maddr m;
  mo_size : 0 ≤ msize m;
  mo_hi : maddr m + msize m ≤ addr r + size r;
  mo_align : maddr m mod PAGE_SIZE = 0 ∧ msize m mod PAGE_SIZE = 0 ∧ vmo_offset m mod PAGE_SIZE = 0;
  mo_offset : 0 ≤ vmo_offset m ∧ vmo_offset m + msize m < 2 ^ 64;
  mo_len : msize m / PAGE_SIZE ≤ zlen (mflags m);
  mo_flags f : f ∈ mflags m → contains f MMUFlags.USER = true ∧ contains (permissions m) (Z.land f MMUFlags.RXW) = true
}.

Record tree (top : Z) T : Prop := {
  t_range v r : T !! v = Some r →
    0 ≤ addr r ∧ 0 ≤ size r ∧ addr r + size r ≤ top ∧ addr r mod PAGE_SIZE = 0 ∧ size r mod PAGE_SIZE = 0;
  t_parent v r i : live T v r i →
    match parent r with
    | None => v = 0%nat
    | Some q => (q < v)%nat ∧ ∃ rq iq, live T q rq iq ∧ v ∈ children iq
    end;
  t_child v r i c : live T v r i → c ∈ children i →
    ∃ rc ic, live T c rc ic ∧ parent rc = Some v ∧ addr r ≤ addr rc ∧ addr rc + size rc ≤ addr r + size r;
  t_nodup v r i : live T v r i → NoDup (children i);
  t_child_disj v r i c1 c2 r1 r2 : live T v r i → c1 ∈ children i → c2 ∈ children i → c1 ≠ c2 →
    T !! c1 = Some r1 → T !! c2 = Some r2 → disj (addr r1) (size r1) (addr r2) (size r2);
  t_map v r i m : live T v r i → m ∈ mappings i → m_ok r m;
  t_map_child v r i m c rc : live T v r i → m ∈ mappings i → c ∈ children i → T !! c = Some rc →
    disj (maddr m) (msize m) (addr rc) (size rc);
  t_map_disj v r i k1 k2 m1 m2 : live T v r i → mappings i !! k1 = Some m1 → mappings i !! k2 = Some m2 → k1 ≠ k2 →
    disj (maddr m1) (msize m1) (maddr m2) (msize m2)
}.

(** [m'] lies in [m], on the same part of the same object. *)
Definition inside m m' : Prop :=
  maddr m ≤ maddr m' ∧ maddr m' + msize m' ≤ maddr m + msize m ∧ vmo m' = vmo m ∧ vmo_offset m' - maddr m' = vmo_offset m - maddr m.

Lemma inside_refl m : inside m m.
Proof. unfold inside. split_and!; done || lia. Qed.

Section tree_lemmas.
#[local] Set Default Proof Using "All".
Context (top : Z).

Lemma live_inj T v r i r' i' : live T v r i → live T v r' i' → r = r' ∧ i = i'.
Proof. unfold live. naive_solver congruence. Qed.

Lemma disj_sym a s b t : disj a s b t → disj b t a s.
Proof. unfold disj. lia. Qed.

(** Regions lose children, mappings and their inner part, but nothing is added. *)
Record shrinks T T' : Prop := {
  sh_same v r' : T' !! v = Some r' → ∃ r, T !! v = Some r ∧ addr r' = addr r ∧ size r' = size r ∧ parent r' = parent r;
  sh_live v r r' i' : T !! v = Some r → live T' v r' i' →
    ∃ i, live T v r i ∧ NoDup (children i') ∧ (∀ c, c ∈ children i' ↔ c ∈ children i ∧ ∃ rc ic, live T' c rc ic) ∧
      (∀ m', m' ∈ mappings i' → m_ok r' m' ∧ ∃ m, m ∈ mappings i ∧ inside m m') ∧
      (∀ k1 k2 m1 m2, mappings i' !! k1 = Some m1 → mappings i' !! k2 = Some m2 → k1 ≠ k2 →
         disj (maddr m1) (msize m1) (maddr m2) (msize m2));
  sh_dead v r i c rc ic : live T v r i → c ∈ children i → live T' c rc ic → ∃ r' i', live T' v r' i'
}.

Lemma sh_live_old T T' v r' i' : shrinks T T' → live T' v r' i' → ∃ r i, live T v r i ∧ addr r = addr r' ∧ size r = size r' ∧ parent r = parent r'.
Proof.
  intros Hs Hl. destruct (sh_same _ _ Hs v r' (proj1 Hl)) as (r & Hr & Ha & Hz & Hp).
  destruct (sh_live _ _ Hs v r r' i' Hr Hl) as (i & Hi & _). by exists r, i.
Qed.

Lemma tree_shrinks T T' : tree top T → shrinks T T' → tree top T'.
Proof.
  intros Ht Hs.
  assert (∀ v r' i', live T' v r' i' → ∃ r i, live T v r i ∧ addr r' = addr r ∧ size r' = size r ∧ parent r' = parent r) as Hold.
  { intros v r' i' Hl. destruct (sh_live_old T T' v r' i' Hs Hl) as (r & i & ? & ? & ? & ?). exists r, i. by split_and!. }
  assert (∀ v r r' i', T !! v = Some r → live T' v r' i' → addr r' = addr r ∧ size r' = size r) as Hdim.
  { intros v r r' i' Hr [Hr' _]. destruct (sh_same _ _ Hs v r' Hr') as (r0 & ? & ? & ? & _). by simplify_eq. }
  split.
  - intros v r' Hr'. destruct (sh_same _ _ Hs v r' Hr') as (r & Hr & -> & -> & _). by apply (t_range _ _ Ht v).
  - intros v r' i' Hl. destruct (Hold v r' i' Hl) as (r & i & Hi & _ & _ & ->).
    pose proof (t_parent _ _ Ht v r i Hi) as Hp. destruct (parent r) as [q|]; [|done].
    destruct Hp as (Hq & rq & iq & Hlq & Hin). split; [done|].
    destruct (sh_dead _ _ Hs q rq iq v r' i' Hlq Hin Hl) as (rq' & iq' & Hlq'). exists rq', iq'. split; [done|].
    destruct (sh_live _ _ Hs q rq rq' iq' (proj1 Hlq) Hlq') as (iq0 & Hq0 & _ & Hc & _).
    apply Hc. destruct (live_inj T q rq iq rq iq0 Hlq Hq0) as [_ <-]. eauto.
  - intros v r' i' c Hl Hc. destruct (sh_same _ _ Hs v r' (proj1 Hl)) as (r & Hr & Ea & Es & _).
    destruct (sh_live _ _ Hs v r r' i' Hr Hl) as (i & Hi & _ & Hcs & _). apply Hcs in Hc as [Hc (rc' & ic' & Hlc)].
    destruct (t_child _ _ Ht v r i c Hi Hc) as (rc & ic & Hrc & Hp & H1 & H2). exists rc', ic'. split; [done|].
    destruct (sh_same _ _ Hs c rc' (proj1 Hlc)) as (rc0 & Hrc0 & -> & -> & ->).
    destruct Hrc as [Hrc _]. simplify_eq. rewrite Ea, Es. done.
  - intros v r' i' Hl. destruct (sh_same _ _ Hs v r' (proj1 Hl)) as (r & Hr & _). by destruct (sh_live _ _ Hs v r r' i' Hr Hl) as (i & _ & Hnd & _).
  - intros v r' i' c1 c2 r1 r2 Hl Hc1 Hc2 Hne H1 H2. destruct (sh_same _ _ Hs v r' (proj1 Hl)) as (r & Hr & _).
    destruct (sh_live _ _ Hs v r r' i' Hr Hl) as (i & Hi & _ & Hcs & _). apply Hcs in Hc1 as [Hc1 _], Hc2 as [Hc2 _].
    destruct (sh_same _ _ Hs c1 r1 H1) as (q1 & Hq1 & -> & -> & _). destruct (sh_same _ _ Hs c2 r2 H2) as (q2 & Hq2 & -> & -> & _).
    by apply (t_child_disj _ _ Ht v r i c1 c2).
  - intros v r' i' m Hl Hm. destruct (sh_same _ _ Hs v r' (proj1 Hl)) as (r & Hr & _).
    destruct (sh_live _ _ Hs v r r' i' Hr Hl) as (i & Hi & _ & _ & Hms & _). by apply Hms.
  - intros v r' i' m c rc Hl Hm Hc Hrc. destruct (sh_same _ _ Hs v r' (proj1 Hl)) as (r & Hr & _).
    destruct (sh_live _ _ Hs v r r' i' Hr Hl) as (i & Hi & _ & Hcs & Hms & _). apply Hcs in Hc as [Hc _].
    destruct (Hms m Hm) as [_ (m0 & Hm0 & H1 & H2 & _)]. destruct (sh_same _ _ Hs c rc Hrc) as (q & Hq & -> & -> & _).
    pose proof (t_map_child _ _ Ht v r i m0 c q Hi Hm0 Hc Hq) as Hd. unfold disj in *. lia.
  - intros v r' i' k1 k2 m1 m2 Hl. destruct (sh_same _ _ Hs v r' (proj1 Hl)) as (r & Hr & _).
    destruct (sh_live _ _ Hs v r r' i' Hr Hl) as (i & _ & _ & _ & _ & Hd). by apply Hd.
Qed.

(** ** Subtrees *)
Inductive below T : nat → nat → Prop :=
| below_self v r i : live T v r i → below T v v
| below_child v r i c x : live T v r i → c ∈ children i → below T c x → below T v x.

Lemma below_live T v x : below T v x → (∃ r i, live T v r i) ∧ ∃ r i, live T x r i.
Proof. induction 1 as [v r i|v r i c x Hl Hc Hb [_ IH]]; split; eauto. Qed.

Lemma below_le T v x : tree top T → below T v x → (v ≤ x)%nat.
Proof.
  intros Ht. induction 1 as [|v r i c x Hl Hc Hb IH]; [done|].
  destruct (t_child _ _ Ht v r i c Hl Hc) as (rc & ic & Hlc & Hp & _).
  pose proof (t_parent _ _ Ht c rc ic Hlc) as Hq. rewrite Hp in Hq. lia.
Qed.

Lemma below_up T v x r i : tree top T → below T v x → live T x r i → x = v ∨ ∃ q, parent r = Some q ∧ below T v q.
Proof.
  intros Ht Hb. revert r i. induction Hb as [v r0 i0 Hl0|v r0 i0 c x Hl0 Hc Hb IH]; intros r i Hl; [by left|right].
  destruct (IH r i Hl) as [->|(q & Hq & Hbq)].
  - destruct (t_child _ _ Ht v r0 i0 c Hl0 Hc) as (rc & ic & Hlc & Hp & _). destruct (live_inj T c r i rc ic Hl Hlc) as [-> _].
    exists v. split; [done|]. by econstructor.
  - exists q. split; [done|]. by eapply below_child.
Qed.

Lemma below_down T v q x rq iq : tree top T → below T v q → live T q rq iq → x ∈ children iq → below T v x.
Proof.
  intros Ht Hb Hl Hx. induction Hb as [v r0 i0 Hl0|v r0 i0 c q Hl0 Hc Hb IH].
  - destruct (t_child _ _ Ht v rq iq x Hl Hx) as (rc & ic & Hlc & _). eapply below_child; [done|done|]. by econstructor.
  - eapply below_child; [done|done|by apply IH].
Qed.

(** A region is in the subtree of at most one child. *)
Lemma below_sibling T v r i c1 c2 x :
  tree top T → live T v r i → c1 ∈ children i → c2 ∈ children i → below T c1 x → below T c2 x → c1 = c2.
Proof.
  intros Ht Hl Hc1 Hc2. induction (lt_wf x) as [x _ IH]. intros H1 H2.
  assert (∀ c, c ∈ children i → ∃ rc ic, live T c rc ic ∧ parent rc = Some v ∧ (v < c)%nat) as Hch.
  { intros c Hc. destruct (t_child _ _ Ht v r i c Hl Hc) as (rc & ic & Hlc & Hp & _). exists rc, ic.
    pose proof (t_parent _ _ Ht c rc ic Hlc) as Hq. rewrite Hp in Hq. naive_solver. }
  assert (∀ c c', c ∈ children i → c' ∈ children i → below T c' c → c' = c) as Hself.
  { intros c c' Hc Hc' Hb. destruct (Hch c Hc) as (rc & ic & Hlc & Hp & _).
    destruct (below_up T c' c rc ic Ht Hb Hlc) as [->|(q & Hq & Hbq)]; [done|].
    assert (q = v) as -> by congruence. apply (below_le T c' v Ht) in Hbq. destruct (Hch c' Hc') as (? & ? & _ & _ & ?). lia. }
  destruct (below_live T c1 x H1) as [_ (rx & ix & Hlx)].
  destruct (below_up T c1 x rx ix Ht H1 Hlx) as [->|(q1 & Hq1 & Hb1)]; [by symmetry; apply Hself|].
  destruct (below_up T c2 x rx ix Ht H2 Hlx) as [->|(q2 & Hq2 & Hb2)]; [by apply Hself|].
  assert (q2 = q1) as -> by congruence. apply (IH q1); [|done|done].
  pose proof (t_parent _ _ Ht x rx ix Hlx) as Hp. rewrite Hq1 in Hp. lia.
Qed.

Lemma below_dec T v x : tree top T → below T v x ∨ ¬ below T v x.
Proof.
  intros Ht. induction (lt_wf x) as [x _ IH]. destruct (T !! x) as [r|] eqn:Hr.
  2:{ right. intros (_ & r & i & Hl & _)%below_live. congruence. }
  destruct (inner r) as [i|] eqn:Hi.
  2:{ right. intros (_ & r' & i' & Hl & Hl')%below_live. congruence. }
  assert (live T x r i) as Hl by done. destruct (decide (x = v)) as [->|Hne]; [left; by econstructor|].
  pose proof (t_parent _ _ Ht x r i Hl) as Hp. destruct (parent r) as [q|] eqn:Hq.
  - destruct Hp as (Hlt & rq & iq & Hlq & Hin). destruct (IH q Hlt) as [Hb|Hb].
    + left. by eapply below_down.
    + right. intros Hbx. destruct (below_up T v x r i Ht Hbx Hl) as [|(q' & Hq' & Hb')]; [done|]. congruence.
  - right. intros Hbx. destruct (below_up T v x r i Ht Hbx Hl) as [|(q' & Hq' & _)]; [done|congruence].
Qed.

(** What is below a region lies in its range. *)
Lemma below_range T v x rv rx : tree top T → below T v x → T !! v = Some rv → T !! x = Some rx →
  addr rv ≤ addr rx ∧ addr rx + size rx ≤ addr rv + size rv.
Proof.
  intros Ht Hb. revert rv. induction Hb as [v r i Hl|v r i c x Hl Hc Hb IH]; intros rv Hv Hx; [simplify_eq; lia|].
  destruct (t_child _ _ Ht v r i c Hl Hc) as (rc & ic & [Hrc _] & _ & H1 & H2). specialize (IH rc Hrc Hx).
  destruct Hl. simplify_eq. lia.
Qed.
End tree_lemmas.

(** ** The page table under the tree *)
Section ops.
#[local] Set Default Proof Using "Type".
Context {P V : Type} `{UserTable P} `{VmObjects V}.
Implicit Types (st : aspace P V) (pt : P) (p : Z).

Definition in_map m p : Prop := maddr m ≤ p * PAGE_SIZE < maddr m + msize m.

(** The flags of the page of an address. *)
Definition m_flag m (va : Z) : option Z := mflags m !! Z.to_nat ((va - maddr m) / PAGE_SIZE).

(** The flags of a page of a mapping allow what [f], the flags in the table, allows. *)
Definition m_page m p (f : Z) : Prop :=
  in_map m p ∧ ∃ g0 g, m_flag m (p * PAGE_SIZE) = Some g0 ∧ f = ut_norm g ∧ contains g0 g = true.

Definition pages_ok st : Prop :=
  ∀ p pa f, ut_page (page_table st) p = Some (pa, f) →
    ∃ v r i m, live (vmars st) v r i ∧ m ∈ mappings i ∧ m_page m p f.

(** A mapping within its object, or of an object that refuses other pages. *)
Definition obj_ok (vs : V) m : Prop := vo_bounded vs (vmo m) = true ∨ vmo_offset m + msize m ≤ vo_len vs (vmo m).
Definition objects T (vs : V) : Prop := ∀ v r i m, live T v r i → m ∈ mappings i → obj_ok vs m.

Lemma obj_ok_inside vs m m' : obj_ok vs m → inside m m' → obj_ok vs m'.
Proof. unfold obj_ok, inside. intros [Hb|Hl] (? & ? & -> & ?); [by left|right; lia]. Qed.

Lemma objects_shrinks T T' vs : objects T vs → shrinks T T' → objects T' vs.
Proof.
  intros Ho Hs v r' i' m' Hl Hm. destruct (sh_same _ _ Hs v r' (proj1 Hl)) as (r & Hr & _).
  destruct (sh_live _ _ Hs v r r' i' Hr Hl) as (i & Hi & _ & _ & Hms & _). destruct (Hms m' Hm) as [_ (m & Hm0 & Hin)].
  eapply obj_ok_inside; [by eapply Ho|done].
Qed.

(** The objects keep their lengths. *)
Definition same_lens (vs vs' : V) : Prop := ∀ o, vo_len vs' o = vo_len vs o ∧ vo_bounded vs' o = vo_bounded vs o.

Lemma obj_ok_same vs vs' m : same_lens vs vs' → obj_ok vs m → obj_ok vs' m.
Proof. intros Hs. unfold obj_ok. destruct (Hs (vmo m)) as [-> ->]. done. Qed.

Lemma objects_same T vs vs' : same_lens vs vs' → objects T vs → objects T vs'.
Proof. intros Hs Ho v r i m Hl Hm. eapply obj_ok_same; [done|by eapply Ho]. Qed.

Record inv st : Prop := {
  i_tree : tree ut_top (vmars st);
  i_table : ut_ok (page_table st);
  i_vmos : vo_ok ut_limit (vmos st);
  i_objects : objects (vmars st) (vmos st);
  i_pages : pages_ok st
}.

Record unmapped pt pt' (S : Z → Prop) : Prop := {
  um_ok : ut_ok pt';
  um_in p : S p → ut_page pt' p = None;
  um_le p y : ut_page pt' p = Some y → ut_page pt p = Some y;
  um_out p : ¬ S p → ut_page pt' p = ut_page pt p
}.

Lemma unmapped_refl pt (S : Z → Prop) : ut_ok pt → (∀ p, ¬ S p) → unmapped pt pt S.
Proof. intros ? HS. split; [done| |done|done]. intros p Hp. by destruct (HS p). Qed.

Lemma unmapped_trans pt1 pt2 pt3 (S1 S2 S3 : Z → Prop) :
  unmapped pt1 pt2 S1 → unmapped pt2 pt3 S2 → (∀ p, S3 p ↔ S1 p ∨ S2 p) → unmapped pt1 pt3 S3.
Proof.
  intros H1 H2 HS. split.
  - apply (um_ok _ _ _ H2).
  - intros p [Hp|Hp]%HS; [|by apply (um_in _ _ _ H2)]. destruct (ut_page pt3 p) as [y|] eqn:E; [|done].
    apply (um_le _ _ _ H2) in E. by rewrite (um_in _ _ _ H1) in E.
  - intros p y Hy%(um_le _ _ _ H2). by apply (um_le _ _ _ H1).
  - intros p Hp. rewrite (um_out _ _ _ H2), (um_out _ _ _ H1); naive_solver.
Qed.

Lemma unmapped_iff pt1 pt2 (S1 S2 : Z → Prop) : (∀ p, S1 p ↔ S2 p) → unmapped pt1 pt2 S1 → unmapped pt1 pt2 S2.
Proof. intros HS Hu. split; [apply Hu|intros p Hp; apply Hu; by apply HS|apply Hu|intros p Hp; apply Hu; by rewrite HS]. Qed.

Lemma unmap_cont_range pt a s :
  ut_ok pt → a mod PAGE_SIZE = 0 → s mod PAGE_SIZE = 0 → 0 ≤ a → 0 ≤ s → a + s ≤ ut_top →
  ∃ pt', ut_unmap_cont a s pt = (Ok tt, pt') ∧ unmapped pt pt' (λ p, a ≤ p * PAGE_SIZE < a + s).
Proof.
  intros Hok Ha Hs H1 H2 H3. destruct (ut_unmap_cont_spec pt a s Hok Ha Hs H1 H2 H3) as (pt' & E & Hok' & Hp).
  exists pt'. split; [done|]. split; [done| | |].
  - intros p Hin. by rewrite Hp, decide_True.
  - intros p y. rewrite Hp. by destruct (decide _).
  - intros p Hout. by rewrite Hp, decide_False.
Qed.

(** A mapping in a region of a tree. *)
Lemma m_ok_range T v r m :
  tree ut_top T → T !! v = Some r → m_ok r m → 0 ≤ maddr m ∧ 0 ≤ msize m ∧ maddr m + msize m ≤ ut_top.
Proof.
  intros Ht Hr Hm. destruct (t_range _ _ Ht v r Hr) as (H1 & H2 & H3 & _). destruct Hm as [Hm1 Hm2 Hm3]. lia.
Qed.

Definition m_range m : Prop :=
  0 ≤ maddr m ∧ 0 ≤ msize m ∧ maddr m + msize m ≤ ut_top ∧ maddr m mod PAGE_SIZE = 0 ∧ msize m mod PAGE_SIZE = 0.

Lemma m_ok_m_range T v r m : tree ut_top T → T !! v = Some r → m_ok r m → m_range m.
Proof. intros Ht Hr Hm. destruct (m_ok_range T v r m Ht Hr Hm) as (? & ? & ?). destruct (mo_align _ _ Hm) as (? & ? & _). by split_and!. Qed.

Lemma drop_mappings_spec ms st :
  ut_ok (page_table st) → (∀ m, m ∈ ms → m_range m) →
  ∃ pt', drop_mappings ms st = (Ok tt, set_table pt' st) ∧ unmapped (page_table st) pt' (λ p, ∃ m, m ∈ ms ∧ in_map m p).
Proof.
  intros Hok. revert st Hok. induction ms as [|m ms IH]; intros st Hok Hms; simpl.
  { exists (page_table st). split; [by destruct st|]. apply unmapped_refl; [done|]. intros p (m & Hm & _). by apply elem_of_nil in Hm. }
  destruct (Hms m ltac:(by left)) as (H1 & H2 & H3 & H4 & H5). unfold m_unmap.
  destruct (unmap_cont_range (page_table st) (maddr m) (msize m) Hok H4 H5 H1 H2 H3) as (pt1 & -> & Hu1).
  destruct (IH (set_table pt1 st) (um_ok _ _ _ Hu1)) as (pt2 & -> & Hu2); [intros m' Hm'; apply Hms; by right|].
  exists pt2. split; [done|]. eapply unmapped_trans; [done|done|]. intros p. split.
  - intros (m' & [->|Hm']%elem_of_cons & Hp); [by left|right; by eauto].
  - intros [Hp|(m' & Hm' & Hp)]; [exists m; split; [by left|done]|exists m'; split; [by right|done]].
Qed.

(** ** Destroying a subtree *)
Definition gone_pages T v p : Prop := ∃ x r i m, below T v x ∧ live T x r i ∧ m ∈ mappings i ∧ in_map m p.

(** The regions below those of [cs] lose their inner parts, others stay. *)
Record destroyed T (cs : list nat) st st' : Prop := {
  ds_dead c x r : c ∈ cs → below T c x → T !! x = Some r → vmars st' !! x = Some (with_inner None r);
  ds_other x : (∀ c, c ∈ cs → ¬ below T c x) → vmars st' !! x = vmars st !! x;
  ds_pages : unmapped (page_table st) (page_table st') (λ p, ∃ c, c ∈ cs ∧ gone_pages T c p);
  ds_rest : vmos st' = vmos st ∧ registered st' = registered st ∧ next_mid st' = next_mid st
}.

Lemma set_inner_lookup v o st x :
  vmars (set_inner v o st) !! x = if decide (x = v) then with_inner o <$> vmars st !! x else vmars st !! x.
Proof.
  unfold set_inner. simpl. destruct (decide (x = v)) as [->|]; [by rewrite lookup_alter_eq|by rewrite lookup_alter_ne].
Qed.

(** The list case, given the case of each child. *)
Lemma destroy_list_spec T v r i f cs st :
  tree ut_top T → live T v r i → (∀ c, c ∈ cs → c ∈ children i) → NoDup cs →
  ut_ok (page_table st) → (∀ c x, c ∈ cs → below T c x → vmars st !! x = T !! x) →
  (∀ c st, c ∈ cs → ut_ok (page_table st) → (∀ x, below T c x → vmars st !! x = T !! x) →
     ∃ st', f c st = (Ok tt, st') ∧ destroyed T [c] st st') →
  ∃ st', destroy_list f cs st = (Ok tt, st') ∧ destroyed T cs st st'.
Proof.
  intros Ht Hl. revert st. induction cs as [|c cs IH]; intros st Hin Hnd Hok Hag Hf; simpl.
  { exists st. split; [done|]. split; [by intros c x r0 ?%elem_of_nil|done| |done].
    apply unmapped_refl; [done|]. by intros p (c & ?%elem_of_nil & _). }
  apply NoDup_cons in Hnd as [Hnc Hnd].
  destruct (Hf c st ltac:(by left) Hok) as (st1 & -> & D1); [intros x; apply Hag; by left|].
  assert (∀ c' x, c' ∈ cs → below T c' x → ¬ below T c x) as Hsib.
  { intros c' x Hc' Hb' Hb. assert (c = c') as ->; [|done].
    eapply (below_sibling ut_top T v r i c c' x); [done|done|apply Hin; by left|apply Hin; by right|done|done]. }
  destruct (IH st1) as (st2 & -> & D2); [intros; apply Hin; by right|done|apply (um_ok _ _ _ (ds_pages _ _ _ _ D1))| | |].
  { intros c' x Hc' Hb. rewrite (ds_other _ _ _ _ D1); [by eapply Hag; [right|]|].
    intros c0 ->%list_elem_of_singleton. by eapply Hsib. }
  { intros c' st' Hc'. apply Hf. by right. }
  exists st2. split; [done|]. destruct (ds_rest _ _ _ _ D1) as (E1 & E2 & E3). destruct (ds_rest _ _ _ _ D2) as (E4 & E5 & E6). split.
  - intros c0 x r0 [->|Hc0]%elem_of_cons Hb Hr.
    + rewrite (ds_other _ _ _ _ D2); [eapply (ds_dead _ _ _ _ D1); [by left|done|done]|]. intros c1 Hc1 Hb1. by apply (Hsib c1 x).
    + by eapply (ds_dead _ _ _ _ D2).
  - intros x Hx. rewrite (ds_other _ _ _ _ D2), (ds_other _ _ _ _ D1); [done| |].
    + intros c0 ->%list_elem_of_singleton. apply Hx. by left.
    + intros c0 Hc0. apply Hx. by right.
  - eapply unmapped_trans; [apply (ds_pages _ _ _ _ D1)|apply (ds_pages _ _ _ _ D2)|]. intros p. split.
    + intros (c0 & [->|Hc0]%elem_of_cons & Hg); [left; exists c; split; [by left|done]|right; eauto].
    + intros [(c0 & ->%list_elem_of_singleton & Hg)|(c0 & Hc0 & Hg)]; [exists c; split; [by left|done]|exists c0; split; [by right|done]].
  - by rewrite E4, E5, E6.
Qed.

Lemma alive_live st v r i : live (vmars st) v r i → alive st v = Ok (r, i).
Proof. intros [Hr Hi]. unfold alive. by rewrite Hr, Hi. Qed.

Lemma destroy_internal_spec T fuel v st :
  tree ut_top T → (∃ r i, live T v r i) → ut_ok (page_table st) → (∀ x, below T v x → vmars st !! x = T !! x) →
  (∀ x, below T v x → (x < v + fuel)%nat) →
  ∃ st', destroy_internal fuel v st = (Ok tt, st') ∧ destroyed T [v] st st'.
Proof.
  intros Ht. revert v st. induction fuel as [|fuel IH]; intros v st (r & i & Hl) Hok Hag Hfuel.
  { specialize (Hfuel v ltac:(by econstructor)). lia. }
  assert (below T v v) as Hvv by (by econstructor). simpl.
  assert (live (vmars st) v r i) as Hls by (unfold live; by rewrite (Hag v Hvv)). rewrite (alive_live st v r i Hls).
  set (st0 := set_inner v (Some (mkInner [] (mappings i))) st).
  assert (∀ c, c ∈ children i → (v < c)%nat ∧ ∃ rc ic, live T c rc ic) as Hch.
  { intros c Hc. destruct (t_child _ _ Ht v r i c Hl Hc) as (rc & ic & Hlc & Hp & _). split; [|by eauto].
    pose proof (t_parent _ _ Ht c rc ic Hlc) as Hq. rewrite Hp in Hq. lia. }
  assert (∀ c x, c ∈ children i → below T c x → x ≠ v) as Hnv.
  { intros c x Hc Hb ->. apply (below_le ut_top T c v Ht) in Hb. destruct (Hch c Hc). lia. }
  destruct (destroy_list_spec T v r i (destroy_internal fuel) (children i) st0) as (st1 & -> & D1); [done|done|done| |done| | |].
  { by apply (t_nodup _ _ Ht v r i). }
  { intros c x Hc Hb. unfold st0. rewrite set_inner_lookup, decide_False by (by eapply Hnv). apply Hag. by eapply below_child. }
  { intros c st' Hc Hok' Hag'. apply IH; [by apply Hch|done|done|]. intros x Hb.
    specialize (Hfuel x ltac:(by eapply below_child)). destruct (Hch c Hc). lia. }
  destruct (drop_mappings_spec (mappings i) st1 (um_ok _ _ _ (ds_pages _ _ _ _ D1))) as (pt2 & -> & Hu2).
  { intros m Hm. eapply m_ok_m_range; [done|exact (proj1 Hl)|by apply (t_map _ _ Ht v r i)]. }
  eexists. split; [done|]. destruct (ds_rest _ _ _ _ D1) as (E1 & E2 & E3).
  assert (vmars st1 !! v = Some (with_inner (Some (mkInner [] (mappings i))) r)) as Hv1.
  { rewrite (ds_other _ _ _ _ D1); [|intros c Hc Hb; by eapply Hnv]. unfold st0. rewrite set_inner_lookup, decide_True by done.
    by destruct Hls as [-> _]. }
  split.
  - intros c x r0 ->%list_elem_of_singleton Hb Hr. rewrite set_inner_lookup. simpl.
    destruct (decide (x = v)) as [->|Hne]; [destruct Hl; simplify_eq; by rewrite Hv1|].
    inversion Hb as [? ? ? ? e1 e2|? r' i' c ? Hl' Hc Hb' e1 e2]; subst; [done|].
    destruct (live_inj ut_top T v r i r' i' Hl Hl') as [<- <-]. by eapply (ds_dead _ _ _ _ D1).
  - intros x Hx. rewrite set_inner_lookup. simpl. assert (x ≠ v) as Hne by (intros ->; by apply (Hx v); [left|]).
    rewrite decide_False by done. rewrite (ds_other _ _ _ _ D1).
    + unfold st0. by rewrite set_inner_lookup, decide_False.
    + intros c Hc Hb. apply (Hx v); [by left|]. by eapply below_child.
  - eapply (unmapped_trans _ (page_table st1)); [apply (ds_pages _ _ _ _ D1)|exact Hu2|]. intros p. split.
    + intros (c & ->%list_elem_of_singleton & x & rx & ix & m & Hb & Hlx & Hm & Hp).
      inversion Hb as [? ? ? ? e1 e2|? r' i' c ? Hl' Hc Hb' e1 e2]; subst.
      * right. destruct (live_inj ut_top T x r i rx ix Hl Hlx) as [_ <-]. eauto.
      * left. destruct (live_inj ut_top T v r i r' i' Hl Hl') as [<- <-]. exists c. split; [done|]. by exists x, rx, ix, m.
    + intros [(c & Hc & x & rx & ix & m & Hb & Hlx & Hm & Hp)|(m & Hm & Hp)]; exists v; (split; [by left|]).
      * exists x, rx, ix, m. split_and!; [by eapply below_child|done|done|done].
      * exists v, r, i, m. by split_and!.
  - done.
Qed.

(** ** Cutting mappings *)
Definition in_rng m (va : Z) : Prop := maddr m ≤ va < maddr m + msize m.

(** What an address of a mapping stands for: the object, the offset in it, the permissions and
    the flags. *)
Definition info m (va : Z) : nat * Z * Z * option Z := (vmo m, vmo_offset m + (va - maddr m), permissions m, m_flag m va).

(** [m'] is a piece of [m]. *)
Definition piece m m' : Prop :=
  inside m m' ∧ ∀ va, in_rng m' va → info m' va = info m va.

(** What an address is mapped to. *)
Definition view T (va : Z) (inf : nat * Z * Z * option Z) : Prop :=
  ∃ x r i m, live T x r i ∧ m ∈ mappings i ∧ in_rng m va ∧ info m va = inf.

(** The part of [m] from [lo] to [hi], with the flags [fs]. *)
Definition part n' m (lo hi : Z) (fs : list Z) : VmMapping :=
  mkMapping n' (permissions m) (vmo m) fs lo (hi - lo) (vmo_offset m + (lo - maddr m)).

Lemma part_first n' m hi fs :
  mkMapping n' (permissions m) (vmo m) fs (maddr m) (hi - maddr m) (vmo_offset m) = part n' m (maddr m) hi fs.
Proof. unfold part. by rewrite Z.sub_diag, Z.add_0_r. Qed.

Lemma part_ok r m lo hi fs n' :
  m_ok r m → lo mod PAGE_SIZE = 0 → hi mod PAGE_SIZE = 0 → maddr m ≤ lo ≤ hi → hi ≤ maddr m + msize m →
  (∀ f, f ∈ fs → f ∈ mflags m) → (hi - lo) / PAGE_SIZE ≤ zlen fs →
  (∀ j : nat, lo + Z.of_nat j * PAGE_SIZE < hi → fs !! j = mflags m !! Z.to_nat ((lo - maddr m) / PAGE_SIZE + Z.of_nat j)) →
  m_ok r (part n' m lo hi fs) ∧ piece m (part n' m lo hi fs).
Proof.
  intros Hm Hlo Hhi H1 H2 Hsub Hlen Hfs. destruct (mo_align _ _ Hm) as (A1 & A2 & A3). split.
  - destruct Hm as [B1 B2 B3 _ B5 _ B7]. split; simpl; [lia|lia|lia| |lia|done|intros f Hf; by apply B7, Hsub].
    split_and!; [done|by rewrite Zminus_mod, Hhi, Hlo|]. rewrite Zplus_mod, A3, Zminus_mod, Hlo, A1. done.
  - unfold piece, inside, in_rng, info, m_flag. simpl. split; [split_and!; done || lia|]. intros va Hva.
    replace (vmo_offset m + (lo - maddr m) + (va - lo)) with (vmo_offset m + (va - maddr m)) by lia. f_equal.
    unfold PAGE_SIZE in *. pose proof (Z.div_mod (va - lo) 4096). pose proof (Z.mod_pos_bound (va - lo) 4096).
    assert (0 ≤ (va - lo) / 4096) by (apply Z.div_pos; lia). rewrite Hfs by (rewrite Z2Nat.id; lia).
    rewrite Z2Nat.id by done. f_equal. f_equal.
    assert ((lo - maddr m) mod 4096 = 0) by (by rewrite Zminus_mod, Hlo, A1). pose proof (Z.div_mod (lo - maddr m) 4096).
    replace (va - maddr m) with ((lo - maddr m) / 4096 * 4096 + (va - lo)) by lia. by rewrite Z.div_add_l.
Qed.

Definition separate (ms : list VmMapping) : Prop :=
  ∀ k1 k2 m1 m2, ms !! k1 = Some m1 → ms !! k2 = Some m2 → k1 ≠ k2 → disj (maddr m1) (msize m1) (maddr m2) (msize m2).

Lemma separate_app l1 l2 :
  separate (l1 ++ l2) ↔ separate l1 ∧ separate l2 ∧ ∀ m1 m2, m1 ∈ l1 → m2 ∈ l2 → disj (maddr m1) (msize m1) (maddr m2) (msize m2).
Proof.
  split.
  - intros Hs. split_and!.
    + intros k1 k2 m1 m2 E1 E2 Hne. eapply (Hs k1 k2); [by apply lookup_app_l_Some|by apply lookup_app_l_Some|done].
    + intros k1 k2 m1 m2 E1 E2 Hne. apply (Hs (length l1 + k1)%nat (length l1 + k2)%nat); [by rewrite lookup_app_r, Nat.add_comm, Nat.add_sub by lia| |lia].
      by rewrite lookup_app_r, Nat.add_comm, Nat.add_sub by lia.
    + intros m1 m2 [k1 E1]%list_elem_of_lookup [k2 E2]%list_elem_of_lookup. apply (Hs k1 (length l1 + k2)%nat); [by apply lookup_app_l_Some| |].
      * by rewrite lookup_app_r, Nat.add_comm, Nat.add_sub by lia.
      * apply lookup_lt_Some in E1. lia.
  - intros (H1 & H2 & H12) k1 k2 m1 m2 E1 E2 Hne. apply lookup_app_Some in E1 as [E1|[L1 E1]], E2 as [E2|[L2 E2]].
    + by eapply H1.
    + apply H12; by eapply list_elem_of_lookup_2.
    + apply disj_sym; [exact 0|]. apply H12; by eapply list_elem_of_lookup_2.
    + eapply H2; [done|done|lia].
Qed.

Lemma separate_small ms : (length ms ≤ 1)%nat → separate ms.
Proof. intros Hl k1 k2 m1 m2 E1%lookup_lt_Some E2%lookup_lt_Some Hne. lia. Qed.

(** What a cut leaves of a mapping: pieces outside of the range, which together are all that
    was outside. *)
Record cut_of r m (begin end_ : Z) (ms : list VmMapping) : Prop := {
  co_ok m' : m' ∈ ms → m_ok r m' ∧ piece m m' ∧ disj (maddr m') (msize m') begin (end_ - begin);
  co_sep : separate ms;
  co_cover va : in_rng m va → ¬ (begin ≤ va < end_) → ∃ m', m' ∈ ms ∧ in_rng m' va
}.

Lemma m_unchanged r m begin end_ : m_ok r m → disj (maddr m) (msize m) begin (end_ - begin) → cut_of r m begin end_ [m].
Proof.
  intros Hm Hd. split.
  - intros m' ->%list_elem_of_singleton. split_and!; [done|split; [apply inside_refl|done]|done].
  - by apply separate_small.
  - intros va Hva _. exists m. split; [by left|done].
Qed.

(** One part, all of what is outside of the range. *)
Lemma part_cut r m begin end_ lo hi fs n' :
  m_ok r (part n' m lo hi fs) ∧ piece m (part n' m lo hi fs) →
  hi ≤ begin ∨ end_ ≤ lo → (∀ va, in_rng m va → ¬ (begin ≤ va < end_) → lo ≤ va < hi) →
  cut_of r m begin end_ [part n' m lo hi fs].
Proof.
  intros [Hok Hp] Hr Hc. split.
  - intros m' ->%list_elem_of_singleton. split_and!; [done|done|]. unfold disj. simpl. lia.
  - by apply separate_small.
  - intros va Hva Hout. eexists. split; [by left|]. unfold in_rng. simpl. specialize (Hc va Hva Hout). lia.
Qed.

Lemma parts_cut r m begin end_ fs1 fs2 n1 n2 :
  maddr m ≤ begin < end_ → end_ ≤ maddr m + msize m →
  m_ok r (part n1 m (maddr m) begin fs1) ∧ piece m (part n1 m (maddr m) begin fs1) →
  m_ok r (part n2 m end_ (maddr m + msize m) fs2) ∧ piece m (part n2 m end_ (maddr m + msize m) fs2) →
  cut_of r m begin end_ [part n1 m (maddr m) begin fs1; part n2 m end_ (maddr m + msize m) fs2].
Proof.
  intros H1 H2 [Hok1 Hp1] [Hok2 Hp2]. split.
  - intros m' [-> | ->%list_elem_of_singleton]%elem_of_cons; (split_and!; [done|done|]); unfold disj; simpl; lia.
  - intros [|[|]] [|[|]] m1 m2 E1 E2 Hne; simplify_eq/=; unfold disj; simpl; lia.
  - intros va Hva Hout. destruct (Z_lt_ge_dec va begin).
    + eexists. split; [by left|]. unfold in_rng in *. simpl. lia.
    + eexists. split; [by right; left|]. unfold in_rng in *. simpl. lia.
Qed.

(** The flags that [cut] keeps for a part. *)
Lemma flags_part m lo hi (n : nat) fs :
  maddr m mod PAGE_SIZE = 0 → lo mod PAGE_SIZE = 0 → hi mod PAGE_SIZE = 0 → msize m mod PAGE_SIZE = 0 →
  maddr m ≤ lo ≤ hi → hi ≤ maddr m + msize m → msize m / PAGE_SIZE ≤ zlen (mflags m) →
  (hi - lo) / PAGE_SIZE ≤ Z.of_nat n → fs = take n (drop (Z.to_nat ((lo - maddr m) / PAGE_SIZE)) (mflags m)) →
  (∀ f, f ∈ fs → f ∈ mflags m) ∧ (hi - lo) / PAGE_SIZE ≤ zlen fs ∧
  ∀ j : nat, lo + Z.of_nat j * PAGE_SIZE < hi → fs !! j = mflags m !! Z.to_nat ((lo - maddr m) / PAGE_SIZE + Z.of_nat j).
Proof.
  unfold PAGE_SIZE, zlen. intros Ha Hlo Hhi Hs H1 H2 H3 H4 ->.
  pose proof (Z.div_mod (maddr m) 4096). pose proof (Z.div_mod lo 4096). pose proof (Z.div_mod hi 4096). pose proof (Z.div_mod (msize m) 4096).
  assert ((hi - lo) / 4096 = hi / 4096 - lo / 4096) as E1 by (symmetry; apply Z.div_unique with 0; lia).
  assert ((lo - maddr m) / 4096 = lo / 4096 - maddr m / 4096) as E2 by (symmetry; apply Z.div_unique with 0; lia).
  rewrite E1 in *. rewrite E2 in *. split_and!.
  - intros f Hf. by eapply subseteq_drop, subseteq_take.
  - rewrite length_take, length_drop. lia.
  - intros j Hj. rewrite lookup_take_lt by lia. rewrite lookup_drop. f_equal. lia.
Qed.

Lemma cut_one r m begin end_ m1 : cut_of r m begin end_ [m1] → cut_of r m begin end_ (if 0 <? msize m1 then [m1] else []).
Proof.
  intros Hc. destruct (Z.ltb_spec 0 (msize m1)) as [|Hs]; [done|]. split; [by intros m' ?%elem_of_nil|apply separate_small; simpl; lia|].
  intros va Hva Hout. destruct (co_cover _ _ _ _ _ Hc va Hva Hout) as (m' & ->%list_elem_of_singleton & Hr). unfold in_rng in Hr. lia.
Qed.

Section cut.
Context (r : VmAddressRegion) (m : VmMapping) (n : nat) (begin end_ : Z) (pt : P).
Hypotheses (Hpt : ut_ok pt) (Hr : m_range m) (Hm : m_ok r m).
Hypotheses (Hb : begin mod PAGE_SIZE = 0) (He : end_ mod PAGE_SIZE = 0) (Hbe : 0 ≤ begin < end_) (He' : end_ < 2 ^ 64).

Definition cut_result : Prop :=
  ∃ m1 new pt', m_cut n begin end_ m pt = Ok (m1, new, pt') ∧
    unmapped pt pt' (λ p, in_map m p ∧ begin ≤ p * PAGE_SIZE < end_) ∧
    cut_of r m begin end_ ((if 0 <? msize m1 then [m1] else []) ++ option_list new).

Lemma cut_end : m_end m = maddr m + msize m.
Proof using Hr. destruct Hr as (? & ? & ? & _). pose proof ut_top_small. unfold m_end. apply wadd_small. unfold fits. lia. Qed.

Lemma cut_unmap a s : a = Z.max begin (maddr m) → a + s = Z.min end_ (maddr m + msize m) → 0 ≤ s →
  ∃ pt', ut_unmap_cont a s pt = (Ok tt, pt') ∧ unmapped pt pt' (λ p, in_map m p ∧ begin ≤ p * PAGE_SIZE < end_).
Proof using Hpt Hr Hb He Hbe.
  intros Ea Es Hs. destruct Hr as (R1 & R2 & R3 & R4 & R5).
  assert (a mod PAGE_SIZE = 0) as Ha by (rewrite Ea; destruct (Z.max_spec begin (maddr m)) as [[_ ->] | [_ ->]]; done).
  assert ((a + s) mod PAGE_SIZE = 0) as Has.
  { rewrite Es. destruct (Z.min_spec end_ (maddr m + msize m)) as [[_ ->] | [_ ->]]; [done|]. by rewrite Zplus_mod, R4, R5. }
  assert (s mod PAGE_SIZE = 0) as Hsm by (replace s with (a + s - a) by lia; by rewrite Zminus_mod, Has, Ha).
  destruct (unmap_cont_range pt a s) as (pt' & E & Hu); [done|done|done|lia|lia|lia|]. exists pt'. split; [done|].
  eapply unmapped_iff; [|done]. intros p. unfold in_map. simpl. lia.
Qed.

Lemma cut_flags lo hi k fs : lo mod PAGE_SIZE = 0 → hi mod PAGE_SIZE = 0 → maddr m ≤ lo ≤ hi → hi ≤ maddr m + msize m →
  (hi - lo) / PAGE_SIZE ≤ Z.of_nat k → fs = take k (drop (Z.to_nat ((lo - maddr m) / PAGE_SIZE)) (mflags m)) →
  ∀ n', m_ok r (part n' m lo hi fs) ∧ piece m (part n' m lo hi fs).
Proof using Hr Hm.
  intros Hlo Hhi H1 H2 H3 H4 n'. destruct Hr as (R1 & R2 & R3 & R4 & R5).
  destruct (flags_part m lo hi k fs) as (F1 & F2 & F3); try done; [apply (mo_len _ _ Hm)|]. by apply part_ok.
Qed.

Lemma pages_sub (x y : Z) : x mod PAGE_SIZE = 0 → y mod PAGE_SIZE = 0 → 0 ≤ y ≤ x → x < 2 ^ 64 → pages (x - y) = (x - y) / PAGE_SIZE ∧ fits 64 (x - y).
Proof using.
  intros Hx Hy H1 H2. assert (fits 64 (x - y)) by (unfold fits; lia). split; [|done]. apply pages_aligned; [done|]. by rewrite Zminus_mod, Hx, Hy.
Qed.
Lemma page_split : maddr m < end_ < maddr m + msize m →
  msize m / PAGE_SIZE -u (maddr m + msize m - end_) / PAGE_SIZE = (end_ - maddr m) / PAGE_SIZE ∧
  (maddr m + msize m - end_) / PAGE_SIZE = msize m / PAGE_SIZE - (end_ - maddr m) / PAGE_SIZE ∧
  0 ≤ (end_ - maddr m) / PAGE_SIZE ≤ msize m / PAGE_SIZE ∧ end_ - maddr m = (end_ - maddr m) / PAGE_SIZE * PAGE_SIZE.
Proof using Hr He.
  intros Hin. destruct Hr as (R1 & R2 & R3 & R4 & R5). pose proof ut_top_small as [Htop _]. unfold PAGE_SIZE in *.
  pose proof (Z.div_mod (maddr m) 4096). pose proof (Z.div_mod end_ 4096). pose proof (Z.div_mod (msize m) 4096).
  assert ((end_ - maddr m) / 4096 = end_ / 4096 - maddr m / 4096) as -> by (symmetry; apply Z.div_unique with 0; lia).
  assert ((maddr m + msize m - end_) / 4096 = maddr m / 4096 + msize m / 4096 - end_ / 4096) as -> by (symmetry; apply Z.div_unique with 0; lia).
  rewrite wsub_small by (unfold fits; lia). lia.
Qed.

Lemma cut_first_flags n' : maddr m < begin → end_ < maddr m + msize m →
  let fs := ztake (begin - maddr m) (ztake ((end_ - maddr m) / PAGE_SIZE) (mflags m) ++ zdrop (msize m / PAGE_SIZE) (mflags m)) in
  m_ok r (part n' m (maddr m) begin fs) ∧ piece m (part n' m (maddr m) begin fs).
Proof using Hr Hm Hb He Hbe.
  intros H1 H2 fs. destruct page_split as (_ & _ & Hp & He1); [lia|]. destruct Hr as (R1 & R2 & R3 & R4 & R5).
  pose proof (mo_len _ _ Hm) as Hl. unfold zlen in Hl.
  assert ((begin - maddr m) / PAGE_SIZE ≤ (end_ - maddr m) / PAGE_SIZE) as Hbm by (apply Z.div_le_mono; [done|lia]).
  assert (0 ≤ (begin - maddr m) / PAGE_SIZE) by (apply Z.div_pos; [lia|done]).
  apply part_ok; [done|done|done|lia|lia| | |]; unfold fs, ztake, zdrop, zlen.
  - intros f Hf. apply subseteq_take in Hf. apply elem_of_app in Hf as [Hf|Hf]; [by eapply subseteq_take|by eapply subseteq_drop].
  - rewrite length_take, length_app, length_take.
    assert ((begin - maddr m) / PAGE_SIZE ≤ begin - maddr m) by (apply Z.div_le_upper_bound; unfold PAGE_SIZE; lia). lia.
  - intros j Hj. unfold PAGE_SIZE in *. rewrite lookup_take_lt by lia. rewrite lookup_app_l by (rewrite length_take; lia).
    rewrite lookup_take_lt by lia. f_equal. rewrite Z.sub_diag. change (0 / 4096) with 0. lia.
Qed.

(** The range is inside of the mapping, which is split. *)
Lemma cut_superset : maddr m < begin → end_ < maddr m + msize m → cut_result.
Proof using Hpt Hr Hm Hb He Hbe He'.
  intros Hi1 Hi2. pose proof cut_end as Hend. pose proof ut_top_small as [Htop _]. pose proof Hr as (R1 & R2 & R3 & R4 & R5).
  assert ((maddr m + msize m) mod PAGE_SIZE = 0) as Re by (by rewrite Zplus_mod, R4, R5).
  unfold cut_result, m_cut, m_overlap. rewrite Hend.
  destruct (Z.leb_spec end_ (maddr m)); [lia|]. destruct (Z.leb_spec (maddr m + msize m) begin); [lia|].
  destruct (Z.leb_spec begin (maddr m)); [lia|]. destruct (Z.leb_spec (maddr m + msize m) end_); [lia|]. simpl.
  destruct (pages_sub (maddr m + msize m) end_) as [Hp2 Hf2]; [done|done|lia|lia|].
  rewrite (wsub_small 64 (maddr m + msize m) end_ Hf2), (wsub_small 64 end_ begin), (wsub_small 64 begin), (wsub_small 64 end_ (maddr m)) by (unfold fits; lia).
  destruct (cut_unmap begin (end_ - begin)) as (pt' & -> & Hu); [lia|lia|lia|].
  rewrite Hp2, (pages_aligned (msize m)) by (unfold fits; done || lia). pose proof (mo_len _ _ Hm) as Hl. pose proof (mo_offset _ _ Hm) as Ho.
  destruct page_split as (Ee & Ee2 & Ee3 & _); [lia|]. rewrite Ee. rewrite (wadd_small 64 (vmo_offset m)) by (unfold fits; lia).
  destruct (Z.ltb_spec (msize m / PAGE_SIZE) ((end_ - maddr m) / PAGE_SIZE)); [lia|].
  destruct (Z.ltb_spec (zlen (mflags m)) (msize m / PAGE_SIZE)); [lia|].
  eexists _, _, pt'. split; [done|]. split; [done|]. simpl. destruct (Z.ltb_spec 0 (begin - maddr m)); [|lia].
  rewrite part_first. apply parts_cut; [lia|lia|by apply cut_first_flags|].
  apply (cut_flags _ _ (Z.to_nat (msize m / PAGE_SIZE - (end_ - maddr m) / PAGE_SIZE))); [done|done|lia|lia|lia|done].
Qed.

Lemma m_cut_spec : cut_result.
Proof using Hpt Hr Hm Hb He Hbe He'.
  pose proof cut_end as Hend. pose proof ut_top_small as [Htop _]. pose proof Hr as (R1 & R2 & R3 & R4 & R5).
  destruct (decide (maddr m < begin ∧ end_ < maddr m + msize m)) as [[Hi1 Hi2]|Hn]; [by apply cut_superset|].
  unfold cut_result, m_cut, m_overlap. rewrite Hend.
  assert ((maddr m + msize m) mod PAGE_SIZE = 0) as Re by (by rewrite Zplus_mod, R4, R5).
  destruct ((end_ <=? maddr m) || (maddr m + msize m <=? begin)) eqn:Eo; simpl.
  { exists m, None, pt. split; [done|]. split; [apply unmapped_refl; [done|unfold in_map; lia]|]. rewrite app_nil_r.
    apply cut_one, m_unchanged; [done|]. unfold disj. lia. }
  destruct ((begin <=? maddr m) && (maddr m + msize m <=? end_)) eqn:E1.
  { destruct (cut_unmap (maddr m) (msize m)) as (pt' & -> & Hu); [lia|lia|lia|]. eexists _, None, pt'. split; [done|]. split; [done|]. simpl.
    split; [by intros m' ?%elem_of_nil|apply separate_small; simpl; lia|]. unfold in_rng. lia. }
  destruct ((begin <=? maddr m) && (maddr m <? end_)) eqn:E2.
  { destruct (pages_sub end_ (maddr m)) as [Hp Hf]; [done|done|lia|lia|]. rewrite (wsub_small 64 end_ (maddr m) Hf).
    destruct (cut_unmap (maddr m) (end_ - maddr m)) as (pt' & -> & Hu); [lia|lia|lia|]. rewrite Hp.
    pose proof (mo_len _ _ Hm) as Hl. assert ((end_ - maddr m) / PAGE_SIZE ≤ msize m / PAGE_SIZE) by (apply Z.div_le_mono; [done|lia]).
    destruct (Z.ltb_spec (zlen (mflags m)) ((end_ - maddr m) / PAGE_SIZE)); [lia|].
    pose proof (mo_offset _ _ Hm). rewrite !(wsub_small 64 (msize m)), (wadd_small 64 (vmo_offset m)) by (unfold fits; lia).
    eexists _, None, pt'. split; [done|]. split; [done|]. rewrite app_nil_r. apply cut_one.
    replace (msize m - (end_ - maddr m)) with (maddr m + msize m - end_) by lia.
    apply (part_cut r m begin end_ end_ (maddr m + msize m)); [|lia|unfold in_rng; lia].
    apply (cut_flags end_ (maddr m + msize m) (length (mflags m))); [done|done|lia|lia| |].
    - transitivity (msize m / PAGE_SIZE); [apply Z.div_le_mono; [done|lia]|done].
    - symmetry. apply take_ge. unfold zdrop. rewrite length_drop. lia. }
  destruct ((maddr m + msize m <=? end_) && (begin <? maddr m + msize m)) eqn:E3.
  { rewrite !wsub_small by (unfold fits; lia).
    destruct (cut_unmap begin (maddr m + msize m - begin)) as (pt' & -> & Hu); [lia|lia|lia|].
    eexists _, None, pt'. split; [done|]. split; [done|]. rewrite app_nil_r. apply cut_one.
    rewrite part_first. apply part_cut; [|lia|unfold in_rng; lia].
    apply (cut_flags _ _ (Z.to_nat (begin - maddr m))); [done|done|lia|lia| |by rewrite Z.sub_diag].
    rewrite Z2Nat.id by lia. apply Z.div_le_upper_bound; [done|]. unfold PAGE_SIZE. lia. }
  lia.
Qed.
End cut.

Record cut_list r (ms : list VmMapping) (begin end_ : Z) (l : list VmMapping) : Prop := {
  cl_ok m' : m' ∈ l → m_ok r m' ∧ (∃ m, m ∈ ms ∧ piece m m') ∧ disj (maddr m') (msize m') begin (end_ - begin);
  cl_sep : separate l;
  cl_cover m va : m ∈ ms → in_rng m va → ¬ (begin ≤ va < end_) → ∃ m', m' ∈ l ∧ in_rng m' va ∧ piece m m'
}.

Lemma piece_disj m1 m2 m1' m2' :
  disj (maddr m1) (msize m1) (maddr m2) (msize m2) → piece m1 m1' → piece m2 m2' → disj (maddr m1') (msize m1') (maddr m2') (msize m2').
Proof. unfold disj, piece, inside. intros Hd ((? & ? & _) & _) ((? & ? & _) & _). lia. Qed.

Lemma cut_list_cons r m ms begin end_ k0 n0 kept news :
  (∀ m', m' ∈ ms → disj (maddr m) (msize m) (maddr m') (msize m')) →
  cut_of r m begin end_ (k0 ++ n0) → cut_list r ms begin end_ (kept ++ news) →
  cut_list r (m :: ms) begin end_ ((k0 ++ kept) ++ n0 ++ news).
Proof.
  intros Hd Hc Hl.
  assert (∀ m', m' ∈ (k0 ++ kept) ++ n0 ++ news ↔ m' ∈ k0 ++ n0 ∨ m' ∈ kept ++ news) as Hel by (intros m'; rewrite !elem_of_app; tauto).
  assert (∀ m1 m2, m1 ∈ k0 ++ n0 → m2 ∈ kept ++ news → disj (maddr m1) (msize m1) (maddr m2) (msize m2)) as Hx.
  { intros m1 m2 Hm1 Hm2. destruct (co_ok _ _ _ _ _ Hc m1 Hm1) as (_ & Hp1 & _).
    destruct (cl_ok _ _ _ _ _ Hl m2 Hm2) as (_ & (m0 & Hm0 & Hp2) & _). eapply piece_disj; [by apply Hd|done|done]. }
  split.
  - intros m' [Hm'|Hm']%Hel.
    + destruct (co_ok _ _ _ _ _ Hc m' Hm') as (? & ? & ?). split_and!; [done|exists m; split; [by left|done]|done].
    + destruct (cl_ok _ _ _ _ _ Hl m' Hm') as (? & (m0 & ? & ?) & ?). split_and!; [done|exists m0; split; [by right|done]|done].
  - pose proof (proj1 (separate_app k0 n0) (co_sep _ _ _ _ _ Hc)) as (S1 & S2 & S3).
    pose proof (proj1 (separate_app kept news) (cl_sep _ _ _ _ _ Hl)) as (S4 & S5 & S6).
    setoid_rewrite elem_of_app in Hx.
    rewrite !separate_app. setoid_rewrite elem_of_app. split_and!; [done|done|by auto|done|done|by auto|].
    intros m1 m2 [H1|H1] [H2|H2]; [by auto|by auto| |by auto]. apply disj_sym; [exact 0|]. by auto.
  - intros m0 va [->|Hm0]%elem_of_cons Hva Hout.
    + destruct (co_cover _ _ _ _ _ Hc va Hva Hout) as (m' & Hm' & ?). exists m'. rewrite Hel. split_and!; [by left|done|].
      by destruct (co_ok _ _ _ _ _ Hc m' Hm') as (_ & ? & _).
    + destruct (cl_cover _ _ _ _ _ Hl m0 va Hm0 Hva Hout) as (m' & ? & ? & ?). exists m'. rewrite Hel. by auto.
Qed.

Lemma cut_all_spec r ms n begin end_ pt :
  ut_ok pt → (∀ m, m ∈ ms → m_range m ∧ m_ok r m) → separate ms →
  begin mod PAGE_SIZE = 0 → end_ mod PAGE_SIZE = 0 → 0 ≤ begin < end_ → end_ < 2 ^ 64 →
  ∃ kept news n' pt', cut_all n begin end_ ms pt = Ok (kept, news, n', pt') ∧
    unmapped pt pt' (λ p, begin ≤ p * PAGE_SIZE < end_ ∧ ∃ m, m ∈ ms ∧ in_map m p) ∧
    cut_list r ms begin end_ (kept ++ news).
Proof.
  intros Hpt Hms Hsep Hb He Hbe He'. revert n pt Hpt Hsep. induction ms as [|m ms IH]; intros n pt Hpt Hsep.
  { exists [], [], n, pt. split; [done|]. split.
    - apply unmapped_refl; [done|]. by intros p (_ & m & ?%elem_of_nil & _).
    - split; [by intros m' ?%elem_of_nil|apply separate_small; simpl; lia|by intros m va ?%elem_of_nil]. }
  destruct (Hms m ltac:(by left)) as [Hr Hm].
  destruct (m_cut_spec r m n begin end_ pt) as (m1 & new & pt1 & E1 & Hu1 & Hc1); [done..|].
  pose proof (proj1 (separate_app [m] ms) Hsep) as (_ & Hsep' & Hd).
  destruct (IH ltac:(intros m' Hm'; apply Hms; by right) (S n) pt1 (um_ok _ _ _ Hu1) Hsep') as (kept & news & n' & pt2 & E2 & Hu2 & Hl2).
  simpl. rewrite E1. simpl. rewrite E2. simpl. eexists _, _, n', pt2. split; [done|]. split.
  - eapply unmapped_trans; [done|done|]. intros p. simpl. split.
    + intros (Hp & m' & [->|Hm']%elem_of_cons & Hin); [by left|by eauto].
    + intros [[Hin Hp]|(Hp & m' & Hm' & Hin)]; (split; [done|]); [exists m; split; [by left|done]|exists m'; split; [by right|done]].
  - replace (if 0 <? msize m1 then m1 :: kept else kept) with ((if 0 <? msize m1 then [m1] else []) ++ kept) by (by destruct (0 <? msize m1)).
    apply cut_list_cons; [|done|done]. intros m' Hm'. apply Hd; [by left|done].
Qed.

(** ** Pruning
    A region [v] loses the children [gone] with what is below them; its mappings become [ms']. *)
Record pruned T v r i (gone stay : list nat) (ms' : list VmMapping) T' : Prop := {
  pr_dead c x rx : c ∈ gone → below T c x → T !! x = Some rx → T' !! x = Some (with_inner None rx);
  pr_self : T' !! v = Some (with_inner (Some (mkInner stay ms')) r);
  pr_other x : x ≠ v → (∀ c, c ∈ gone → ¬ below T c x) → T' !! x = T !! x;
  pr_gone c : c ∈ gone → c ∈ children i;
  pr_stay c : c ∈ stay ↔ c ∈ children i ∧ c ∉ gone;
  pr_nodup : NoDup stay;
  pr_ms m' : m' ∈ ms' → m_ok r m' ∧ ∃ m, m ∈ mappings i ∧ inside m m';
  pr_sep : separate ms'
}.

Lemma m_ok_inner o r m : m_ok r m → m_ok (with_inner o r) m.
Proof. by intros [? ? ? ? ? ? ?]. Qed.

Lemma below_any_dec T (cs : list nat) x : tree ut_top T → (∃ c, c ∈ cs ∧ below T c x) ∨ ∀ c, c ∈ cs → ¬ below T c x.
Proof.
  intros Ht. induction cs as [|c cs IH]; [right; by intros c ?%elem_of_nil|].
  destruct (below_dec ut_top T c x Ht) as [Hb|Hb]; [left; exists c; split; [by left|done]|].
  destruct IH as [(c' & Hc' & Hb')|IH]; [left; exists c'; split; [by right|done]|right].
  by intros c' [->|Hc']%elem_of_cons; [|apply IH].
Qed.

Lemma child_gt T v r i c : tree ut_top T → live T v r i → c ∈ children i → (v < c)%nat ∧ ∃ rc ic, live T c rc ic ∧ parent rc = Some v.
Proof.
  intros Ht Hl Hc. destruct (t_child _ _ Ht v r i c Hl Hc) as (rc & ic & Hlc & Hpc & _). split; [|by eauto].
  pose proof (t_parent _ _ Ht c rc ic Hlc) as Hq. rewrite Hpc in Hq. lia.
Qed.

Section prune.
Context T v r i gone stay ms' T' (Ht : tree ut_top T) (Hl : live T v r i) (Hp : pruned T v r i gone stay ms' T').
#[local] Set Default Proof Using "All".

Lemma not_gone_self c : c ∈ gone → ¬ below T c v.
Proof. intros Hc Hb%(below_le ut_top T c v Ht). destruct (child_gt T v r i c Ht Hl (pr_gone _ _ _ _ _ _ _ _ Hp c Hc)). lia. Qed.

(** Whether a region is gone, the pruned one, or as it was. *)
Lemma prune_cases x :
  (∃ c, c ∈ gone ∧ below T c x) ∨ x = v ∨ x ≠ v ∧ (∀ c, c ∈ gone → ¬ below T c x) ∧ T' !! x = T !! x.
Proof.
  destruct (below_any_dec T gone x Ht) as [Hb|Hb]; [by left|]. destruct (decide (x = v)) as [->|Hne]; [by right; left|].
  right; right. split_and!; [done|done|by apply (pr_other _ _ _ _ _ _ _ _ Hp)].
Qed.

Lemma gone_dead c x rx ix : c ∈ gone → below T c x → ¬ live T' x rx ix.
Proof.
  intros Hc Hb [Hx Hi]. destruct (below_live ut_top T c x Hb) as [_ (r0 & i0 & Hr0 & _)].
  rewrite (pr_dead _ _ _ _ _ _ _ _ Hp c x r0 Hc Hb Hr0) in Hx. by simplify_eq.
Qed.

(** A child of a region other than [v] goes only with the region. *)
Lemma child_stays x rx ix c : live T x rx ix → c ∈ children ix →
  (∀ c0, c0 ∈ gone → ¬ below T c0 x) → (x = v → c ∉ gone) → ∃ rc ic, live T' c rc ic.
Proof.
  intros Hlx Hc Hnb Hv. destruct (t_child _ _ Ht x rx ix c Hlx Hc) as (rc & ic & Hlc & Hpc & _).
  destruct (prune_cases c) as [(c0 & Hc0 & Hb)|[->|(_ & _ & E)]].
  - destruct (below_up ut_top T c0 c rc ic Ht Hb Hlc) as [->|(q & Hq & Hbq)].
    + destruct (child_gt T v r i c0 Ht Hl (pr_gone _ _ _ _ _ _ _ _ Hp c0 Hc0)) as (_ & r1 & i1 & Hl1 & Hp1).
      destruct (live_inj ut_top T c0 rc ic r1 i1 Hlc Hl1) as [-> _]. assert (x = v) as -> by congruence. by destruct (Hv eq_refl).
    + assert (q = x) as -> by congruence. by destruct (Hnb c0 Hc0).
  - eexists _, _. split; [apply (pr_self _ _ _ _ _ _ _ _ Hp)|done].
  - exists rc, ic. unfold live. by rewrite E.
Qed.

Lemma prune_shrinks : shrinks T T'.
Proof.
  split.
  - intros x r' Hr'. destruct (prune_cases x) as [(c & Hc & Hb)|[->|(_ & _ & E)]].
    + destruct (below_live ut_top T c x Hb) as [_ (r0 & i0 & Hr0 & _)].
      rewrite (pr_dead _ _ _ _ _ _ _ _ Hp c x r0 Hc Hb Hr0) in Hr'. simplify_eq. by exists r0.
    + rewrite (pr_self _ _ _ _ _ _ _ _ Hp) in Hr'. simplify_eq. exists r. by destruct Hl.
    + exists r'. by rewrite <-E.
  - intros x rx r' i' Hrx Hlx. destruct (prune_cases x) as [(c & Hc & Hb)|[->|(Hne & Hnb & E)]].
    + by destruct (gone_dead c x r' i' Hc Hb).
    + destruct Hlx as [Hx Hi]. rewrite (pr_self _ _ _ _ _ _ _ _ Hp) in Hx. simplify_eq/=. pose proof Hl as [Hlr Hli]. assert (rx = r) as -> by congruence.
      exists i. split_and!; [done|apply Hp| | |apply Hp].
      * intros c. simpl. rewrite (pr_stay _ _ _ _ _ _ _ _ Hp). split; intros [Hc Hx]; (split; [done|]).
        -- by apply (child_stays v r i c); [done|done|apply not_gone_self|].
        -- intros Hg. destruct Hx as (rc & ic & Hlc). destruct (child_gt T v r i c Ht Hl Hc) as (_ & r1 & i1 & Hl1 & _).
           apply (gone_dead c c rc ic Hg); [by econstructor|done].
      * intros m' Hm'. destruct (pr_ms _ _ _ _ _ _ _ _ Hp m' Hm') as [? ?]. split; [by apply m_ok_inner|done].
    + exists i'. destruct Hlx as [Hx Hi]. rewrite E, Hrx in Hx. simplify_eq.
      split_and!; [done|by eapply (t_nodup _ _ Ht x)| | |].
      * intros c. split; [|by intros [? _]]. intros Hc. split; [done|]. by apply (child_stays x r' i' c).
      * intros m Hm. split; [by apply (t_map _ _ Ht x r' i')|]. exists m. split; [done|apply inside_refl].
      * intros k1 k2 m1 m2. by apply (t_map_disj _ _ Ht x r' i').
  - intros x rx ix c rc ic Hlx Hc Hlc. destruct (prune_cases x) as [(c0 & Hc0 & Hb)|[->|(_ & _ & E)]].
    + destruct (gone_dead c0 c rc ic Hc0); [|done]. by eapply (below_down ut_top T c0 x c rx ix).
    + eexists _, _. split; [apply (pr_self _ _ _ _ _ _ _ _ Hp)|done].
    + exists rx, ix. unfold live. by rewrite E.
Qed.

Lemma prune_tree : tree ut_top T'.
Proof. eapply tree_shrinks; [done|apply prune_shrinks]. Qed.

Lemma prune_pages st st' (S : Z → Prop) :
  vmars st = T → vmars st' = T' → unmapped (page_table st) (page_table st') S →
  (∀ c p, c ∈ gone → gone_pages T c p → S p) →
  (∀ m p f, m ∈ mappings i → m_page m p f → S p ∨ ∃ m', m' ∈ ms' ∧ m_page m' p f) →
  pages_ok st → pages_ok st'.
Proof.
  intros ET ET' Hu Hgone Hself Hok p pa f Hpg. unfold pages_ok in Hok. rewrite ET in Hok. rewrite ET'.
  assert (¬ S p) as HS by (intros HS; by rewrite (um_in _ _ _ Hu p HS) in Hpg).
  destruct (Hok p pa f (um_le _ _ _ Hu p _ Hpg)) as (x & rx & ix & m & Hlx & Hm & Hmp).
  destruct (prune_cases x) as [(c & Hc & Hb)|[->|(Hne & Hnb & E)]].
  - destruct HS. apply (Hgone c); [done|]. exists x, rx, ix, m. split_and!; [done|done|done|apply Hmp].
  - destruct (live_inj ut_top T v rx ix r i Hlx Hl) as [_ ->]. destruct (Hself m p f Hm Hmp) as [|(m' & Hm' & Hmp')]; [done|].
    eexists v, _, _, m'. split; [split; [apply (pr_self _ _ _ _ _ _ _ _ Hp)|done]|done].
  - exists x, rx, ix, m. unfold live. by rewrite E.
Qed.
End prune.

(** ** Who maps an address of a region *)
Lemma root_below T x r i : tree ut_top T → live T x r i → below T 0 x.
Proof.
  intros Ht. revert r i. induction (lt_wf x) as [x _ IH]. intros r i Hl. pose proof (t_parent _ _ Ht x r i Hl) as Hp.
  destruct (parent r) as [q|] eqn:Hq; [|subst; by econstructor].
  destruct Hp as (Hlt & rq & iq & Hlq & Hin). eapply (below_down ut_top T 0 q x rq iq); [done|by eapply IH|done|done].
Qed.

Lemma owner_below T v rv iv x rx ix m va :
  tree ut_top T → live T v rv iv → live T x rx ix → m ∈ mappings ix → in_rng m va →
  addr rv ≤ va < addr rv + size rv → below T v x.
Proof.
  intros Ht Hlv Hlx Hm Hva. revert rv iv Hlv. induction (lt_wf v) as [v _ IH]. intros rv iv Hlv Hrv.
  pose proof (t_parent _ _ Ht v rv iv Hlv) as Hp. destruct (parent rv) as [q|] eqn:Hq; [|subst; by eapply root_below].
  destruct Hp as (Hlt & rq & iq & Hlq & Hin). destruct (t_child _ _ Ht q rq iq v Hlq Hin) as (rv' & iv' & Hlv' & _ & B1 & B2).
  destruct (live_inj 0 T v rv iv rv' iv' Hlv Hlv') as [<- <-].
  assert (below T q x) as Hb by (eapply IH; [done|done|lia]).
  inversion Hb as [? ? ? _ e1 e2|? r' i' c ? Hl' Hc Hb' e1 e2]; subst.
  - destruct (live_inj 0 T x rx ix rq iq Hlx Hlq) as [-> ->].
    pose proof (t_map_child _ _ Ht x rq iq m v rv Hlq Hm Hin (proj1 Hlv)) as Hd. unfold disj, in_rng in *. lia.
  - destruct (live_inj 0 T q r' i' rq iq Hl' Hlq) as [-> ->]. destruct (decide (c = v)) as [->|Hne]; [done|].
    destruct (t_child _ _ Ht q rq iq c Hlq Hc) as (rc & ic & Hlc & _).
    pose proof (t_child_disj _ _ Ht q rq iq c v rc rv Hlq Hc Hin Hne (proj1 Hlc) (proj1 Hlv)) as Hd.
    pose proof (below_range ut_top T c x rc rx Ht Hb' (proj1 Hlc) (proj1 Hlx)).
    destruct (t_map _ _ Ht x rx ix m Hlx Hm) as [? _ ? _ _ _ _]. unfold disj, in_rng in *. lia.
Qed.


(** An address has at most one mapping. *)
Lemma live_unique T x1 r1 i1 m1 x2 r2 i2 m2 va :
  tree ut_top T → live T x1 r1 i1 → m1 ∈ mappings i1 → in_rng m1 va → live T x2 r2 i2 → m2 ∈ mappings i2 → in_rng m2 va → x1 = x2 ∧ m1 = m2.
Proof.
  intros Ht Hl1 Hm1 Hr1 Hl2 Hm2 Hr2.
  assert (addr r1 ≤ va < addr r1 + size r1) as A1 by (destruct (t_map _ _ Ht x1 r1 i1 m1 Hl1 Hm1) as [? _ ? _ _ _ _]; unfold in_rng in Hr1; lia).
  assert (addr r2 ≤ va < addr r2 + size r2) as A2 by (destruct (t_map _ _ Ht x2 r2 i2 m2 Hl2 Hm2) as [? _ ? _ _ _ _]; unfold in_rng in Hr2; lia).
  pose proof (owner_below T x1 r1 i1 x2 r2 i2 m2 va Ht Hl1 Hl2 Hm2 Hr2 A1) as B1%(below_le ut_top T x1 x2 Ht).
  pose proof (owner_below T x2 r2 i2 x1 r1 i1 m1 va Ht Hl2 Hl1 Hm1 Hr1 A2) as B2%(below_le ut_top T x2 x1 Ht).
  assert (x2 = x1) as -> by lia. destruct (live_inj 0 T x1 r2 i2 r1 i1 Hl2 Hl1) as [-> ->]. split; [done|].
  apply list_elem_of_lookup in Hm1 as [k1 E1], Hm2 as [k2 E2]. destruct (decide (k1 = k2)) as [->|Hne]; [congruence|].
  pose proof (t_map_disj _ _ Ht x1 r1 i1 k1 k2 m1 m2 Hl1 E1 E2 Hne). unfold disj, in_rng in *. lia.
Qed.

(** The view after pruning, if the children that go are those in [D], and of the mappings what
    is in [D] is cut. *)
Lemma prune_view T v r i gone stay ms' T' (D : Z → Prop) va inf :
  tree ut_top T → live T v r i → pruned T v r i gone stay ms' T' →
  (∀ a, D a → addr r ≤ a < addr r + size r) →
  (∀ c rc a, c ∈ children i → T !! c = Some rc → addr rc ≤ a < addr rc + size rc → c ∈ gone ↔ D a) →
  ((∃ m', m' ∈ ms' ∧ in_rng m' va ∧ info m' va = inf) ↔ (∃ m, m ∈ mappings i ∧ in_rng m va ∧ info m va = inf) ∧ ¬ D va) →
  view T' va inf ↔ view T va inf ∧ ¬ D va.
Proof using H H0.
  intros Ht Hl Hp HD Hc Hm. split.
  - intros (x & rx & ix & m & Hlx & Hmx & Hin & Hinf). destruct (prune_cases T v r i gone stay ms' T' Ht Hl Hp x) as [(c & Hcg & Hb)|[->|(Hne & Hnb & E)]].
    + by destruct (gone_dead T v r i gone stay ms' T' Ht Hl Hp c x rx ix Hcg Hb).
    + destruct Hlx as [Hx Hix]. rewrite (pr_self _ _ _ _ _ _ _ _ Hp) in Hx. simplify_eq/=.
      destruct (proj1 Hm) as [(m0 & ? & ? & ?) HnD]; [by exists m|]. split; [|done]. by exists v, r, i, m0.
    + assert (live T x rx ix) as Hlx0 by (unfold live; rewrite <-E; exact Hlx). split; [by exists x, rx, ix, m|]. intros Hd.
      pose proof (owner_below T v r i x rx ix m va Ht Hl Hlx0 Hmx Hin (HD va Hd)) as Hb.
      inversion Hb as [? ? ? _ e1 e2|? r' i' c ? Hl' Hcc Hb' e1 e2]; subst; [done|].
      destruct (live_inj 0 T v r' i' r i Hl' Hl) as [-> ->]. destruct (t_child _ _ Ht v r i c Hl Hcc) as (rc & ic & Hlc & _).
      pose proof (below_range ut_top T c x rc rx Ht Hb' (proj1 Hlc) (proj1 Hlx0)). destruct (t_map _ _ Ht x rx ix m Hlx0 Hmx) as [? _ ? _ _ _ _].
      apply (Hnb c); [|done]. apply (Hc c rc va Hcc (proj1 Hlc)); [unfold in_rng in Hin; lia|done].
  - intros [(x & rx & ix & m & Hlx & Hmx & Hin & Hinf) HnD]. destruct (prune_cases T v r i gone stay ms' T' Ht Hl Hp x) as [(c & Hcg & Hb)|[->|(Hne & Hnb & E)]].
    + destruct HnD. pose proof (pr_gone _ _ _ _ _ _ _ _ Hp c Hcg) as Hcc. destruct (t_child _ _ Ht v r i c Hl Hcc) as (rc & ic & Hlc & _).
      pose proof (below_range ut_top T c x rc rx Ht Hb (proj1 Hlc) (proj1 Hlx)). destruct (t_map _ _ Ht x rx ix m Hlx Hmx) as [? _ ? _ _ _ _].
      apply (Hc c rc va Hcc (proj1 Hlc)); [unfold in_rng in Hin; lia|done].
    + destruct (live_inj 0 T v rx ix r i Hlx Hl) as [-> ->]. destruct (proj2 Hm) as (m' & Hm' & ? & ?); [split; [by exists m|done]|].
      eexists v, _, _, m'. split; [split; [apply (pr_self _ _ _ _ _ _ _ _ Hp)|done]|]. by split_and!.
    + exists x, rx, ix, m. unfold live. rewrite E. done.
Qed.

Lemma max_id_le st x r : vmars st !! x = Some r → (x ≤ max_id st)%nat.
Proof.
  unfold max_id. revert x r. apply (map_fold_weak_ind (λ n (T : gmap nat VmAddressRegion), ∀ x r, T !! x = Some r → (x ≤ n)%nat)).
  - intros x r. by rewrite lookup_empty.
  - intros k rk T n Hk IH x r Hx. destruct (decide (x = k)) as [->|Hne]; [lia|]. rewrite lookup_insert_ne in Hx by done.
    specialize (IH x r Hx). lia.
Qed.

Lemma fuel_enough st st0 v x : (∀ y r, vmars st !! y = Some r → ∃ r0, vmars st0 !! y = Some r0) →
  below (vmars st) v x → (x < v + fuel_of st0)%nat.
Proof.
  intros Hd Hb. destruct (below_live 0 _ v x Hb) as [_ (r & i & Hr & _)]. destruct (Hd x r Hr) as (r0 & Hr0).
  pose proof (max_id_le st0 x r0 Hr0). unfold fuel_of. lia.
Qed.

Lemma m_page_piece m m' p f : piece m m' → in_rng m' (p * PAGE_SIZE) → m_page m p f → m_page m' p f.
Proof.
  intros (_ & Hi) Hr (Hin & g0 & g & Hg & Hf & Hc). specialize (Hi _ Hr). unfold info in Hi.
  split; [done|]. exists g0, g. split; [|done]. congruence.
Qed.

(** The pages in the table that lie in a region belong to it or to a region below. *)
Lemma page_owner st v r i p y :
  inv st → live (vmars st) v r i → ut_page (page_table st) p = Some y → addr r ≤ p * PAGE_SIZE < addr r + size r →
  (∃ m, m ∈ mappings i ∧ in_map m p) ∨
  ∃ c rc, c ∈ children i ∧ vmars st !! c = Some rc ∧ addr rc ≤ p * PAGE_SIZE < addr rc + size rc ∧ gone_pages (vmars st) c p.
Proof.
  intros Hinv Hl Hy Hr. destruct y as [pa f]. destruct (i_pages _ Hinv p pa f Hy) as (x & rx & ix & m & Hlx & Hm & Hmp & _).
  pose proof (i_tree _ Hinv) as Ht. pose proof (owner_below _ v r i x rx ix m _ Ht Hl Hlx Hm Hmp Hr) as Hb.
  inversion Hb as [? ? ? _ e1 e2|? r' i' c ? Hl' Hc Hb' e1 e2]; subst.
  - left. destruct (live_inj 0 _ x rx ix r i Hlx Hl) as [_ ->]. by exists m.
  - right. destruct (live_inj 0 _ v r' i' r i Hl' Hl) as [-> ->].
    destruct (t_child _ _ Ht v r i c Hl Hc) as (rc & ic & Hlc & _). exists c, rc. split_and!; [done|apply Hlc| | |].
    1,2: pose proof (below_range ut_top _ c x rc rx Ht Hb' (proj1 Hlc) (proj1 Hlx));
      destruct (t_map _ _ Ht x rx ix m Hlx Hm) as [? _ ? _ _ _ _]; unfold in_map in *; lia.
    by exists x, rx, ix, m.
Qed.

(** ** Unmapping *)
Lemma region_end T v r : tree ut_top T → T !! v = Some r → end_addr r = addr r + size r.
Proof.
  intros Ht Hr. destruct (t_range _ _ Ht v r Hr) as (? & ? & ? & _). pose proof ut_top_small. apply wadd_small. unfold fits. lia.
Qed.

Lemma mapping_end T v r i m : tree ut_top T → live T v r i → m ∈ mappings i → m_end m = maddr m + msize m.
Proof.
  intros Ht Hl Hm. destruct (m_ok_range T v r m Ht (proj1 Hl) (t_map _ _ Ht v r i m Hl Hm)) as (? & ? & ?).
  pose proof ut_top_small. apply wadd_small. unfold fits. lia.
Qed.

Lemma tree_mappings T v r i : tree ut_top T → live T v r i → (∀ m, m ∈ mappings i → m_range m ∧ m_ok r m) ∧ separate (mappings i).
Proof.
  intros Ht Hl. split.
  - intros m Hm. pose proof (t_map _ _ Ht v r i m Hl Hm) as Ho. split; [|done]. by eapply (m_ok_m_range T v r m Ht (proj1 Hl)).
  - intros k1 k2 m1 m2. by apply (t_map_disj _ _ Ht v r i).
Qed.

(** A range in the terms of the guard of [unmap_inner]. *)
Definition whole st i (begin end_ : Z) : Prop :=
  ∀ c rc, c ∈ children i → vmars st !! c = Some rc → partial_overlap rc begin end_ = false.

Lemma elem_of_regions st cs rc : rc ∈ regions st cs ↔ ∃ c, c ∈ cs ∧ vmars st !! c = Some rc.
Proof. unfold regions. apply list_elem_of_omap. Qed.

Lemma whole_dec st i begin end_ : existsb (λ rc, partial_overlap rc begin end_) (regions st (children i)) = false ↔ whole st i begin end_.
Proof.
  rewrite existsb_false. setoid_rewrite elem_of_regions. unfold whole. naive_solver.
Qed.

(** What [unmap_inner] does on the range [[begin, end_)] of the region [v]. *)
Record unmapped_range st v r i (begin end_ : Z) st' (ms' : list VmMapping) : Prop := {
  ur_pruned : ∃ gone stay, pruned (vmars st) v r i gone stay ms' (vmars st') ∧
    ∀ c, c ∈ gone ↔ c ∈ children i ∧ id_within st begin end_ c = true;
  ur_cut : cut_list r (mappings i) begin end_ ms';
  ur_pages p : ut_page (page_table st') p =
    if decide (begin ≤ p * PAGE_SIZE < end_ ∧ addr r ≤ p * PAGE_SIZE < addr r + size r) then None else ut_page (page_table st) p;
  ur_view va inf : view (vmars st') va inf ↔ view (vmars st) va inf ∧ ¬ (begin ≤ va < end_ ∧ addr r ≤ va < addr r + size r);
  ur_rest : vmos st' = vmos st ∧ registered st' = registered st
}.

(** Destroying some children of [v], whose inner part has been replaced. *)
Lemma destroy_children st st1 v r i ic (gone : list nat) fuel :
  tree ut_top (vmars st) → live (vmars st) v r i → ut_ok (page_table st1) →
  (∀ c, c ∈ gone → c ∈ children i) → NoDup gone → fuel_of st = fuel →
  (∀ x, vmars st1 !! x = if decide (x = v) then Some (with_inner (Some ic) r) else vmars st !! x) →
  ∃ st2, destroy_list (destroy_internal fuel) gone st1 = (Ok tt, st2) ∧ destroyed (vmars st) gone st1 st2 ∧
    vmars st2 !! v = Some (with_inner (Some ic) r) ∧
    (∀ x, x ≠ v → (∀ c, c ∈ gone → ¬ below (vmars st) c x) → vmars st2 !! x = vmars st !! x).
Proof.
  intros Ht Hl Hok Hg Hnd <- Hst1.
  assert (∀ c x, c ∈ gone → below (vmars st) c x → x ≠ v) as Hnv.
  { intros c x Hcc%Hg Hb ->. apply (below_le ut_top _ c v Ht) in Hb. destruct (child_gt _ v r i c Ht Hl Hcc). lia. }
  destruct (destroy_list_spec (vmars st) v r i (destroy_internal (fuel_of st)) gone st1) as (st2 & E2 & D2); [done|done|done|done|done| | |].
  { intros c x Hcc Hb. by rewrite Hst1, decide_False by (by eapply Hnv). }
  { intros c st' Hcc%Hg Hok' Hag. apply destroy_internal_spec; [done| |done|done|].
    - destruct (child_gt _ v r i c Ht Hl Hcc) as (_ & rc & icc & ? & _). by eauto.
    - intros x Hb. apply (fuel_enough st); [|done]. by eauto. }
  exists st2. split_and!; [done|done| |].
  - rewrite (ds_other _ _ _ _ D2), Hst1, decide_True; [done|done|]. intros c Hcc Hb. by apply (Hnv c v).
  - intros x Hne Hb. by rewrite (ds_other _ _ _ _ D2), Hst1, decide_False.
Qed.

Lemma fuel_of_inner st st1 v r o : vmars st !! v = Some r → vmars st1 = alter (with_inner o) v (vmars st) → fuel_of st1 = fuel_of st.
Proof.
  intros Hr E. assert (∀ x, is_Some (vmars st1 !! x) ↔ is_Some (vmars st !! x)) as Hd.
  { intros x. rewrite E. apply lookup_alter_is_Some. }
  assert (∀ sa sb : aspace P V, (∀ x, is_Some (vmars sa !! x) → is_Some (vmars sb !! x)) → (max_id sa ≤ max_id sb)%nat) as Hle.
  { intros sa sb Hs. assert (max_id sa = 0%nat ∨ is_Some (vmars sa !! max_id sa)) as [->|[ra Hra]%Hs]; [|lia|by eapply max_id_le].
    clear. unfold max_id. apply (map_fold_weak_ind (λ n (T : gmap nat VmAddressRegion), n = 0%nat ∨ is_Some (T !! n))); [by left|].
    intros k rk T n Hk [->|IH]; right; [rewrite Nat.max_0_r, lookup_insert_eq; by eexists|].
    destruct (Nat.max_spec k n) as [[_ ->] | [_ ->]]; [|rewrite lookup_insert_eq; by eexists].
    apply lookup_insert_is_Some'. by right. }
  unfold fuel_of. f_equal. apply Nat.le_antisymm; apply Hle; intros x; apply Hd.
Qed.

Section unmap_spec.
Context st v r i (a len : Z) (Hinv : inv st) (Hl : live (vmars st) v r i).
Context (Ha : a mod PAGE_SIZE = 0) (Hlen : len mod PAGE_SIZE = 0) (Ha0 : 0 ≤ a) (Hlen0 : 0 < len) (Hend : a + len < 2 ^ 64).
#[local] Set Default Proof Using "All".

(** The pages that the cuts and the destroyed regions unmap are those of the range in the region. *)
Lemma unmap_pages pt1 pt2 (gone : list nat) :
  whole st i a (a + len) → (∀ c, c ∈ gone ↔ c ∈ children i ∧ id_within st a (a + len) c = true) →
  unmapped (page_table st) pt1 (λ p, a ≤ p * PAGE_SIZE < a + len ∧ ∃ m, m ∈ mappings i ∧ in_map m p) →
  unmapped pt1 pt2 (λ p, ∃ c, c ∈ gone ∧ gone_pages (vmars st) c p) →
  ∀ p, ut_page pt2 p = if decide (a ≤ p * PAGE_SIZE < a + len ∧ addr r ≤ p * PAGE_SIZE < addr r + size r) then None else ut_page (page_table st) p.
Proof.
  intros Hw Hg Hu1 Hu2 p. pose proof (i_tree _ Hinv) as Ht.
  pose proof (unmapped_trans _ _ _ _ _ _ Hu1 Hu2 (λ p, reflexivity _)) as Hu. destruct (decide _) as [[Hp1 Hp2]|Hp].
  - destruct (ut_page pt2 p) as [y|] eqn:E; [|done]. pose proof (um_le _ _ _ Hu p y E) as E0.
    destruct (page_owner st v r i p y Hinv Hl E0 Hp2) as [Hm|(c & rc & Hc & Hrc & Hpc & Hgp)].
    + by rewrite (um_in _ _ _ Hu p ltac:(by left)) in E.
    + rewrite (um_in _ _ _ Hu p) in E; [done|]. right. exists c. split; [|done]. apply Hg. split; [done|].
      specialize (Hw c rc Hc Hrc). unfold partial_overlap, overlap in Hw. unfold id_within. rewrite Hrc.
      unfold within in *. rewrite (region_end (vmars st) c rc Ht Hrc) in *. lia.
  - apply (um_out _ _ _ Hu). intros [(Hr & m & Hm & Hin)|(c & Hc & x & rx & ix & m & Hb & Hlx & Hm & Hin)]; apply Hp; clear Hp.
    + split; [done|]. destruct (t_map _ _ Ht v r i m Hl Hm) as [? _ ? _ _ _ _]. unfold in_map in Hin. lia.
    + apply Hg in Hc as [Hc Hwi]. destruct (t_child _ _ Ht v r i c Hl Hc) as (rc & ic & Hlc & _ & ? & ?).
      unfold id_within in Hwi. rewrite (proj1 Hlc) in Hwi. unfold within in Hwi. rewrite (region_end (vmars st) c rc Ht (proj1 Hlc)) in Hwi.
      pose proof (below_range ut_top _ c x rc rx Ht Hb (proj1 Hlc) (proj1 Hlx)).
      destruct (t_map _ _ Ht x rx ix m Hlx Hm) as [? _ ? _ _ _ _]. unfold in_map in Hin. lia.
Qed.

Lemma unmap_view (gone stay : list nat) ms' T' va inf :
  whole st i a (a + len) → (∀ c, c ∈ gone ↔ c ∈ children i ∧ id_within st a (a + len) c = true) →
  pruned (vmars st) v r i gone stay ms' T' → cut_list r (mappings i) a (a + len) ms' →
  view T' va inf ↔ view (vmars st) va inf ∧ ¬ (a ≤ va < a + len ∧ addr r ≤ va < addr r + size r).
Proof.
  intros Hw Hg Hpr Hc. pose proof (i_tree _ Hinv) as Ht.
  apply (prune_view (vmars st) v r i gone stay ms' T' (λ va, a ≤ va < a + len ∧ addr r ≤ va < addr r + size r) va inf Ht Hl Hpr); [tauto| |].
  - intros c rc x Hcc Hrc Hx. rewrite Hg. unfold id_within. rewrite Hrc. specialize (Hw c rc Hcc Hrc). unfold partial_overlap, overlap in Hw.
    unfold within in *. rewrite (region_end _ c rc Ht Hrc) in *. destruct (t_child _ _ Ht v r i c Hl Hcc) as (rc' & ic & [Hrc' _] & _ & ? & ?).
    simplify_eq. split; [|intros [? _]; split; [done|]]; lia.
  - split.
    + intros (m' & Hm' & Hin & <-). destruct (cl_ok _ _ _ _ _ Hc m' Hm') as (_ & (m & Hm & (I1 & I2 & _) & Hi) & Hd). split.
      * exists m. split_and!; [done|unfold in_rng in *; lia|by rewrite Hi].
      * unfold disj, in_rng in *. lia.
    + intros [(m & Hm & Hin & <-) Hn]. destruct (t_map _ _ Ht v r i m Hl Hm) as [? _ ? _ _ _ _].
      destruct (cl_cover _ _ _ _ _ Hc m va Hm Hin) as (m' & Hm' & Hin' & _ & Hi); [unfold in_rng in Hin; lia|]. exists m'. by rewrite Hi.
Qed.

Lemma unmap_inner_spec :
  whole st i a (a + len) → ∃ st' ms', unmap_inner v r i a len st = (Ok tt, st') ∧ inv st' ∧ unmapped_range st v r i a (a + len) st' ms'.
Proof.
  intros Hw. pose proof (i_tree _ Hinv) as Ht. unfold unmap_inner, page_aligned. rewrite Ha, Hlen.
  destruct (Z.eqb_spec len 0); [lia|]. rewrite Z.eqb_refl. cbn [negb orb]. rewrite (wadd_small 64 a len) by (unfold fits; lia).
  rewrite (proj2 (whole_dec st i a (a + len)) Hw). destruct (tree_mappings _ v r i Ht Hl) as [Hms Hsep].
  assert ((a + len) mod PAGE_SIZE = 0) as Hem by (by rewrite Zplus_mod, Ha, Hlen).
  destruct (cut_all_spec r (mappings i) (next_mid st) a (a + len) (page_table st)) as (kept & news & n' & pt1 & -> & Hu1 & Hc);
    [apply Hinv|done|done|done|done|lia|lia|].
  cbv zeta. set (gone := filter (λ c, id_within st a (a + len) c = true) (children i)).
  set (stay := filter (λ c, id_within st a (a + len) c = false) (children i)). set (st1 := set_inner v _ _).
  assert (∀ c, c ∈ gone ↔ c ∈ children i ∧ id_within st a (a + len) c = true) as Hg by (intros c; unfold gone; rewrite list_elem_of_filter; tauto).
  assert (∀ c, c ∈ stay ↔ c ∈ children i ∧ c ∉ gone) as Hst.
  { intros c. rewrite Hg. unfold stay. rewrite list_elem_of_filter, <-not_true_iff_false. tauto. }
  destruct (destroy_children st st1 v r i (mkInner stay (kept ++ news)) gone (fuel_of st1)) as (st2 & E2 & D2 & Hv & Ho);
    [done|done|apply Hu1|intros c Hcc; by apply Hg|apply NoDup_filter, (t_nodup _ _ Ht v r i Hl)|symmetry; by eapply (fuel_of_inner st st1 v r); [apply Hl|]| |].
  { intros x. unfold st1. rewrite set_inner_lookup. simpl. destruct (decide (x = v)) as [->|]; [|done]. by rewrite (proj1 Hl). }
  exists st2, (kept ++ news). split; [by rewrite E2|].
  assert (pruned (vmars st) v r i gone stay (kept ++ news) (vmars st2)) as Hpr.
  { split; [apply D2|done|done|intros c Hcc; by apply Hg|done|apply NoDup_filter, (t_nodup _ _ Ht v r i Hl)| |apply Hc].
    intros m' Hm'. destruct (cl_ok _ _ _ _ _ Hc m' Hm') as (? & (m & ? & ? & _) & _). split; [done|]. by exists m. }
  pose proof (ds_pages _ _ _ _ D2) as Hu2. destruct (ds_rest _ _ _ _ D2) as (R1 & R2 & R3). split.
  - split; [by eapply prune_tree|apply Hu2|rewrite R1; apply Hinv|rewrite R1; eapply objects_shrinks; [apply Hinv|by eapply prune_shrinks]|].
    eapply (prune_pages _ v r i _ _ _ _ Ht Hl Hpr st st2 _ eq_refl eq_refl);
      [exact (unmapped_trans _ _ _ _ _ _ Hu1 Hu2 (λ p, reflexivity _))| | |apply Hinv].
    + intros c p Hcc Hgp. right. by eauto.
    + intros m p f Hm Hmp. destruct (decide (a ≤ p * PAGE_SIZE < a + len)) as [Hp|Hp]; [left; left; split; [done|]; exists m; split; [done|apply Hmp]|right].
      destruct (cl_cover _ _ _ _ _ Hc m _ Hm (proj1 Hmp) Hp) as (m' & Hm' & Hr' & Hpc). exists m'. split; [done|]. by eapply m_page_piece.
  - split; [by exists gone, stay|done|by eapply unmap_pages|by intros va inf; eapply unmap_view|by rewrite R1, R2].
Qed.
End unmap_spec.

(** ** Clearing and destroying a region *)
Section destroy_spec.
Context st v r i (Hinv : inv st) (Hl : live (vmars st) v r i).
#[local] Set Default Proof Using "All".

(** The table when the pages of the region are unmapped. *)
Definition emptied pt' : Prop :=
  ∀ p, ut_page pt' p = if decide (addr r ≤ p * PAGE_SIZE < addr r + size r) then None else ut_page (page_table st) p.

(** The view when nothing is mapped in the region. *)
Definition vacated T' : Prop := ∀ va inf, view T' va inf ↔ view (vmars st) va inf ∧ ¬ (addr r ≤ va < addr r + size r).

Lemma region_pages pt' : unmapped (page_table st) pt' (gone_pages (vmars st) v) → emptied pt'.
Proof.
  intros Hu p. pose proof (i_tree _ Hinv) as Ht. destruct (decide _) as [Hp|Hp].
  - destruct (ut_page pt' p) as [[pa f]|] eqn:E; [|done]. pose proof (um_le _ _ _ Hu p _ E) as E0.
    destruct (i_pages _ Hinv p pa f E0) as (x & rx & ix & m & Hlx & Hm & Hmp & _). rewrite (um_in _ _ _ Hu p) in E; [done|].
    exists x, rx, ix, m. split_and!; [|done..]. by eapply owner_below.
  - apply (um_out _ _ _ Hu). intros (x & rx & ix & m & Hb & Hlx & Hm & Hin). apply Hp.
    pose proof (below_range ut_top _ v x r rx Ht Hb (proj1 Hl) (proj1 Hlx)).
    destruct (t_map _ _ Ht x rx ix m Hlx Hm) as [? _ ? _ _ _ _]. unfold in_map in Hin. lia.
Qed.

Lemma gone_pages_self p : gone_pages (vmars st) v p ↔ (∃ c, c ∈ children i ∧ gone_pages (vmars st) c p) ∨ ∃ m, m ∈ mappings i ∧ in_map m p.
Proof.
  split.
  - intros (x & rx & ix & m & Hb & Hlx & Hm & Hp). inversion Hb as [? ? ? _ e1 e2|? r' i' c ? Hl' Hc Hb' e1 e2]; subst.
    + right. destruct (live_inj 0 _ x rx ix r i Hlx Hl) as [_ ->]. by exists m.
    + left. destruct (live_inj 0 _ v r' i' r i Hl' Hl) as [-> ->]. exists c. split; [done|]. by exists x, rx, ix, m.
  - intros [(c & Hc & x & rx & ix & m & Hb & ?)|(m & Hm & Hp)].
    + exists x, rx, ix, m. split; [by eapply below_child|done].
    + exists v, r, i, m. split_and!; [by econstructor|done..].
Qed.

Lemma clear_spec :
  ∃ st', clear v st = (Ok tt, st') ∧ inv st' ∧ vmars st' !! v = Some (with_inner (Some (mkInner [] [])) r) ∧ emptied (page_table st') ∧ vacated (vmars st').
Proof.
  pose proof (i_tree _ Hinv) as Ht. unfold clear. rewrite (alive_live _ _ _ _ Hl).
  set (st1 := set_inner v (Some (mkInner [] (mappings i))) st).
  destruct (destroy_children st st1 v r i (mkInner [] (mappings i)) (children i) (fuel_of st)) as (st2 & -> & D2 & Hv & Ho);
    [done|done|apply Hinv|done|apply (t_nodup _ _ Ht v r i Hl)|done| |].
  { intros x. unfold st1. rewrite set_inner_lookup. destruct (decide (x = v)) as [->|]; [|done]. by rewrite (proj1 Hl). }
  destruct (drop_mappings_spec (mappings i) st2) as (pt3 & -> & Hu3); [apply D2|intros m Hm; by apply (tree_mappings _ v r i Ht Hl)|].
  eexists. split; [done|]. pose proof (ds_pages _ _ _ _ D2) as Hu2. destruct (ds_rest _ _ _ _ D2) as (R1 & R2 & R3).
  pose proof (unmapped_trans _ _ _ _ _ _ Hu2 Hu3 gone_pages_self) as Hu.
  assert (pruned (vmars st) v r i (children i) [] [] (vmars (set_inner v (Some (mkInner [] [])) (set_table pt3 st2)))) as Hpr.
  { split; [| | |done| |apply NoDup_nil_2|by intros m' ?%elem_of_nil|apply separate_small; simpl; lia].
    - intros c x rx Hc Hb Hx. rewrite set_inner_lookup, decide_False; [by eapply (ds_dead _ _ _ _ D2)|].
      intros ->. apply (below_le ut_top _ c v Ht) in Hb. destruct (child_gt _ v r i c Ht Hl Hc). lia.
    - rewrite set_inner_lookup, decide_True by done. simpl. by rewrite Hv.
    - intros x Hne Hb. rewrite set_inner_lookup, decide_False by done. by apply Ho.
    - intros c. rewrite elem_of_nil. tauto. }
  split_and!; [|apply Hpr|by apply region_pages|].
  2:{ intros va inf. eapply (prune_view _ v r i _ _ _ _ (λ va, addr r ≤ va < addr r + size r)); [done|done|done|done| |].
      - intros c rc x Hc Hrc Hx. destruct (t_child _ _ Ht v r i c Hl Hc) as (rc' & ic & [Hrc' _] & _ & ? & ?). simplify_eq. split; [lia|done].
      - split; [by intros (m & ?%elem_of_nil & _)|]. intros [(m & Hm & Hin & _) Hn]. destruct (t_map _ _ Ht v r i m Hl Hm) as [? _ ? _ _ _ _]. unfold in_rng in Hin. lia. }
  split; [by eapply prune_tree|apply Hu3|simpl; rewrite R1; apply Hinv|simpl; rewrite R1; eapply objects_shrinks; [apply Hinv|by eapply prune_shrinks]|].
  eapply (prune_pages _ v r i _ _ _ _ Ht Hl Hpr st _ _ eq_refl eq_refl Hu); [| |apply Hinv].
  - intros c p Hc Hg. apply gone_pages_self. left. by exists c.
  - intros m p f Hm Hmp. left. apply gone_pages_self. right. exists m. split; [done|apply Hmp].
Qed.

(** Destroying the root leaves nothing alive. *)
Lemma root_tree st' : parent r = None → destroyed (vmars st) [v] st st' → tree ut_top (vmars st') ∧ ∀ x rx ix, ¬ live (vmars st') x rx ix.
Proof.
  intros Hpar D. pose proof (i_tree _ Hinv) as Ht.
  assert (v = 0%nat) as Hv0 by (pose proof (t_parent _ _ Ht v r i Hl) as Hp; by rewrite Hpar in Hp).
  assert (∀ x rx, vmars st !! x = Some rx → inner rx = None ∧ vmars st' !! x = Some rx ∨ vmars st' !! x = Some (with_inner None rx)) as Hx.
  { intros x rx Hrx. destruct (inner rx) as [ix|] eqn:Hix.
    - right. eapply (ds_dead _ _ _ _ D v x rx); [by left| |done]. rewrite Hv0. by eapply root_below.
    - left. split; [done|]. rewrite (ds_other _ _ _ _ D), Hrx; [done|]. intros c _ Hb.
      destruct (below_live 0 _ c x Hb) as [_ (r0 & i0 & [? ?])]. congruence. }
  assert (∀ x, vmars st !! x = None → vmars st' !! x = None) as Hnone.
  { intros x Hn. rewrite (ds_other _ _ _ _ D); [done|]. intros c _ Hb. destruct (below_live 0 _ c x Hb) as [_ (r0 & i0 & [? ?])]. congruence. }
  assert (∀ x rx ix, ¬ live (vmars st') x rx ix) as Hdead.
  { intros x rx ix [H1 H2]. destruct (vmars st !! x) as [r0|] eqn:E; [|by rewrite Hnone in H1].
    destruct (Hx x r0 E) as [[? ?]|?]; simplify_eq/=; congruence. }
  split; [|done]. eapply (tree_shrinks ut_top (vmars st)); [done|]. split.
  - intros x r' Hr'. destruct (vmars st !! x) as [r0|] eqn:E; [|by rewrite Hnone in Hr'].
    exists r0. destruct (Hx x r0 E) as [[? ?]|?]; by simplify_eq/=.
  - intros x rx r' i' _ Hlx. by destruct (Hdead _ _ _ Hlx).
  - intros x rx ix c rc ic _ _ Hlc. by destruct (Hdead _ _ _ Hlc).
Qed.

Lemma unlink_lookup q x (s : aspace P V) :
  vmars (unlink v q s) !! x =
    if decide (x = q) then (λ rx, with_inner ((λ j, mkInner (filter (λ c, c ≠ v) (children j)) (mappings j)) <$> inner rx) rx) <$> vmars s !! x
    else vmars s !! x.
Proof using.
  unfold unlink. simpl. destruct (decide (x = q)) as [->|]; [by rewrite lookup_alter_eq|by rewrite lookup_alter_ne].
Qed.

Lemma destroy_spec :
  ∃ st', destroy v st = (Ok tt, st') ∧ inv st' ∧ (∀ x rx, below (vmars st) v x → vmars st !! x = Some rx → vmars st' !! x = Some (with_inner None rx)) ∧
    emptied (page_table st') ∧ vacated (vmars st').
Proof.
  pose proof (i_tree _ Hinv) as Ht. unfold destroy.
  destruct (destroy_internal_spec (vmars st) (fuel_of st) v st) as (st1 & -> & D); [done|by eauto|apply Hinv|done| |].
  { intros x Hb. apply (fuel_enough st); [|done]. by eauto. }
  assert (below (vmars st) v v) as Hvv by (by econstructor).
  rewrite (ds_dead _ _ _ _ D v v r ltac:(by left) Hvv (proj1 Hl)). simpl. destruct (ds_rest _ _ _ _ D) as (R1 & R2 & R3).
  assert (unmapped (page_table st) (page_table st1) (gone_pages (vmars st) v)) as Hu.
  { eapply unmapped_iff; [|apply D]. intros p. simpl. setoid_rewrite list_elem_of_singleton. naive_solver. }
  assert (∀ x rx, below (vmars st) v x → vmars st !! x = Some rx → vmars st1 !! x = Some (with_inner None rx)) as Hdead.
  { intros x rx. apply (ds_dead _ _ _ _ D). by left. }
  destruct (parent r) as [q|] eqn:Hq.
  2:{ exists st1. split; [done|]. destruct (root_tree st1 Hq D) as [Ht1 Hnl]. split_and!; [|done|by apply region_pages|].
      2:{ intros va inf. split; [by intros (x & rx & ix & m & Hlx & _); destruct (Hnl x rx ix)|]. intros [(x & rx & ix & m & Hlx & Hm & Hin & _) Hn].
          destruct Hn. pose proof (t_parent _ _ Ht v r i Hl) as Hp. rewrite Hq in Hp.
          pose proof (below_range ut_top _ 0 x r rx Ht (root_below _ x rx ix Ht Hlx) ltac:(rewrite <-Hp; apply Hl) (proj1 Hlx)).
          destruct (t_map _ _ Ht x rx ix m Hlx Hm) as [? _ ? _ _ _ _]. unfold in_rng in Hin. lia. }
      split; [done|apply Hu|rewrite R1; apply Hinv|intros x rx ix m Hlx; by destruct (Hnl x rx ix)|]. intros p pa f Hpg.
      destruct (i_pages _ Hinv p pa f (um_le _ _ _ Hu p _ Hpg)) as (x & rx & ix & m & Hlx & Hm & Hmp & _).
      rewrite (um_in _ _ _ Hu p) in Hpg; [done|]. exists x, rx, ix, m. split_and!; [|done..].
      pose proof (t_parent _ _ Ht v r i Hl) as Hp. rewrite Hq in Hp. rewrite Hp. by eapply root_below. }
  pose proof (t_parent _ _ Ht v r i Hl) as Hp. rewrite Hq in Hp. destruct Hp as (Hlt & rq & iq & Hlq & Hin).
  assert (∀ c, c ∈ [v] → ¬ below (vmars st) c q) as Hnq by (intros c ->%list_elem_of_singleton Hb%(below_le ut_top _ v q Ht); lia).
  assert (vmars st1 !! q = Some rq) as Eq by (rewrite (ds_other _ _ _ _ D q Hnq); apply Hlq).
  rewrite (alive_live st1 q rq iq (conj Eq (proj2 Hlq))). exists (unlink v q st1). split; [done|].
  assert (∀ x rx, below (vmars st) v x → vmars st !! x = Some rx → vmars (unlink v q st1) !! x = Some (with_inner None rx)) as Hdead'.
  { intros x rx Hb Hrx. rewrite unlink_lookup, decide_False; [by apply Hdead|]. intros ->. by apply (Hnq v); [left|]. }
  assert (pruned (vmars st) q rq iq [v] (filter (λ c, c ≠ v) (children iq)) (mappings iq) (vmars (unlink v q st1))) as Hpr.
  { destruct (tree_mappings _ q rq iq Ht Hlq) as [Hms Hsep]. split.
    - intros c x rx ->%list_elem_of_singleton. by apply Hdead'.
    - rewrite unlink_lookup, decide_True, Eq by done. simpl. by rewrite (proj2 Hlq).
    - intros x Hne Hb. rewrite unlink_lookup, decide_False by done. by apply (ds_other _ _ _ _ D).
    - by intros c ->%list_elem_of_singleton.
    - intros c. rewrite list_elem_of_filter, list_elem_of_singleton. tauto.
    - apply NoDup_filter, (t_nodup _ _ Ht q rq iq Hlq).
    - intros m Hm. split; [by apply Hms|]. exists m. split; [done|apply inside_refl].
    - done. }
  split_and!; [|done|by apply region_pages|].
  2:{ intros va inf. destruct (t_child _ _ Ht q rq iq v Hlq Hin) as (r' & i' & [Hr' _] & _ & ? & ?). assert (r' = r) as -> by (destruct Hl; congruence).
      eapply (prune_view _ q rq iq _ _ _ _ (λ va, addr r ≤ va < addr r + size r)); [done|done|done|lia| |].
      - intros c rc x Hc Hrc Hx. rewrite list_elem_of_singleton. split; [intros ->; destruct Hl; by simplify_eq|]. intros Hxr.
        destruct (decide (c = v)) as [|Hne]; [done|]. pose proof (t_child_disj _ _ Ht q rq iq c v rc r Hlq Hc Hin Hne Hrc (proj1 Hl)) as Hd. unfold disj in Hd. lia.
      - split; [|tauto]. intros (m & Hm & Hir & Hinf). split; [by exists m|]. pose proof (t_map_child _ _ Ht q rq iq m v r Hlq Hm Hin (proj1 Hl)) as Hd.
        unfold disj, in_rng in *. lia. }
  split; [by apply (prune_tree _ _ _ _ _ _ _ _ Ht Hlq Hpr)|apply Hu|simpl; rewrite R1; apply Hinv|simpl; rewrite R1; eapply objects_shrinks; [apply Hinv|by apply (prune_shrinks _ _ _ _ _ _ _ _ Ht Hlq Hpr)]|].
  eapply (prune_pages _ q rq iq _ _ _ _ Ht Hlq Hpr st _ _ eq_refl eq_refl Hu); [| |apply Hinv].
  - by intros c p ->%list_elem_of_singleton.
  - intros m p f Hm Hmp. right. by exists m.
Qed.
End destroy_spec.

(** ** Adding a child or a mapping *)
Definition free_in T r i (a len : Z) : Prop :=
  addr r ≤ a ∧ 0 ≤ len ∧ a + len ≤ addr r + size r ∧
  (∀ c rc, c ∈ children i → T !! c = Some rc → disj a len (addr rc) (size rc)) ∧
  (∀ m, m ∈ mappings i → disj a len (maddr m) (msize m)).

Lemma test_map_free st v r i offset len :
  tree ut_top (vmars st) → live (vmars st) v r i → 0 ≤ offset → 0 ≤ len → addr r + offset + len < 2 ^ 64 →
  test_map st r i offset len = true ↔ free_in (vmars st) r i (addr r + offset) len.
Proof.
  intros Ht Hl Ho Hlen Hw. destruct (t_range _ _ Ht v r (proj1 Hl)) as (R1 & R2 & R3 & _). pose proof ut_top_small as [Htop _].
  unfold test_map. rewrite (wadd_small 64 (addr r) offset), (wadd_small 64 _ len), (wadd_small 64 (addr r) (size r)) by (unfold fits; lia).
  assert (∀ c rc, vmars st !! c = Some rc → overlap rc (addr r + offset) (addr r + offset + len) = false ↔ disj (addr r + offset) len (addr rc) (size rc)) as Hc.
  { intros c rc Hrc. unfold overlap, disj. rewrite (region_end _ c rc Ht Hrc). lia. }
  assert (∀ m, m ∈ mappings i → m_overlap m (addr r + offset) (addr r + offset + len) = false ↔ disj (addr r + offset) len (maddr m) (msize m)) as Hm.
  { intros m Hm. unfold m_overlap, disj. rewrite (mapping_end _ v r i m Ht Hl Hm). lia. }
  unfold free_in. destruct (Z.ltb_spec (addr r + size r) (addr r + offset + len)); [split; [done|lia]|].
  destruct (existsb (λ rc, overlap rc _ _) _) eqn:E1.
  { split; [done|]. intros (_ & _ & _ & Hcs & _). apply not_false_iff_true in E1. destruct E1. apply existsb_false.
    intros rc (c & Hcc & Hrc)%elem_of_regions. by apply (Hc c rc Hrc), (Hcs c rc). }
  destruct (existsb (λ m, m_overlap m _ _) _) eqn:E2.
  { split; [done|]. intros (_ & _ & _ & _ & Hms). apply not_false_iff_true in E2. destruct E2. apply existsb_false.
    intros m Hmm. by apply (Hm m Hmm), Hms. }
  split; [intros _|done]. split_and!; [lia|lia|lia| |].
  - intros c rc Hcc Hrc. apply (Hc c rc Hrc). eapply existsb_false in E1; [done|]. apply elem_of_regions. by exists c.
  - intros m Hmm. apply (Hm m Hmm). by eapply existsb_false in E2.
Qed.

Lemma find_free_area_spec st v r i len offset :
  tree ut_top (vmars st) → live (vmars st) v r i → find_free_area st r i 0 len = Some offset →
  test_map st r i offset len = true ∧ 0 ≤ offset ≤ size r ∧ offset mod PAGE_SIZE = 0.
Proof.
  intros Ht Hl [Hin Hf]%List.find_some. split; [done|]. apply list_elem_of_In in Hin.
  destruct (t_range _ _ Ht v r (proj1 Hl)) as (R1 & R2 & R3 & R4 & R5). pose proof ut_top_small as [Htop _].
  apply elem_of_cons in Hin as [->|Hin]; [by split; [lia|]|]. apply elem_of_app in Hin as [Hin|Hin].
  - apply list_elem_of_fmap in Hin as (rc & -> & (c & Hc & Hrc)%elem_of_regions).
    destruct (t_child _ _ Ht v r i c Hl Hc) as (rc' & ic & [Hrc' _] & _ & B1 & B2). simplify_eq.
    destruct (t_range _ _ Ht c rc Hrc) as (C1 & C2 & C3 & C4 & C5).
    rewrite (region_end _ c rc Ht Hrc), wsub_small by (unfold fits; lia). split; [lia|].
    by rewrite Zminus_mod, Zplus_mod, C4, C5, R4.
  - apply list_elem_of_fmap in Hin as (m & -> & Hm). rewrite (mapping_end _ v r i m Ht Hl Hm).
    destruct (t_map _ _ Ht v r i m Hl Hm) as [B1 B2 B3 (B4 & B5 & _) _ _ _]. rewrite wsub_small by (unfold fits; lia). split; [lia|].
    by rewrite Zminus_mod, Zplus_mod, B4, B5, R4.
Qed.

(** The requests that do not overflow a word. *)
Definition no_wrap r (offset : option Z) (len : Z) : Prop :=
  0 ≤ len ∧ ∀ o, offset = Some o → 0 ≤ o ∧ addr r + o + len < 2 ^ 64.

Lemma aligned_page (x align : Z) : align mod PAGE_SIZE = 0 → 0 < align → check_aligned x align = true → x mod PAGE_SIZE = 0.
Proof.
  unfold check_aligned, PAGE_SIZE. intros Ha Hpos. destruct (Z.eqb_spec align 0); [lia|]. intros Hx%Z.eqb_eq.
  apply Z.mod_divide; [lia|]. transitivity align; by apply Z.mod_divide; [lia|].
Qed.

Lemma determine_offset_spec st v r i offset len align o :
  tree ut_top (vmars st) → live (vmars st) v r i → no_wrap r offset len → align mod PAGE_SIZE = 0 → 0 < align →
  determine_offset st r i offset len align = Ok o →
  0 ≤ o ∧ addr r +u o = addr r + o ∧ (addr r + o) mod PAGE_SIZE = 0 ∧ len mod PAGE_SIZE = 0 ∧
  test_map st r i o len = true ∧ free_in (vmars st) r i (addr r + o) len.
Proof.
  intros Ht Hl [Hlen Hw] Ha Ha0 E. destruct (t_range _ _ Ht v r (proj1 Hl)) as (R1 & R2 & R3 & R4 & R5). pose proof ut_top_small as [Htop _].
  assert (len mod PAGE_SIZE = 0 ∧ test_map st r i o len = true ∧ 0 ≤ o ∧ o mod PAGE_SIZE = 0 ∧ addr r + o + len < 2 ^ 64) as (E1 & E2 & E3 & E4 & E5).
  { unfold determine_offset in E. destruct (check_aligned len align) eqn:El; [|done]. simpl in E. apply aligned_page in El; [|done..].
    destruct offset as [o'|].
    - destruct (Hw o' eq_refl). destruct (check_aligned o' align) eqn:Eo; [|done]. destruct (test_map st r i o' len) eqn:Et; [|done].
      simplify_eq/=. apply aligned_page in Eo; done.
    - destruct (Z.ltb_spec (size r) len); [done|]. destruct (find_free_area st r i 0 len) as [o'|] eqn:Ef; [|done]. simplify_eq.
      destruct (find_free_area_spec st v r i len o Ht Hl Ef) as (? & ? & ?). split_and!; [done|done|lia|done|lia]. }
  rewrite wadd_small by (unfold fits; lia). split_and!; [done|done| |done|done|].
  - by rewrite Zplus_mod, R4, E4.
  - by apply (test_map_free st v r i o len Ht Hl E3 Hlen E5).
Qed.

Lemma determine_offset_returns st r i offset len align : determine_offset st r i offset len align = Panic → False.
Proof. unfold determine_offset. by repeat case_match. Qed.

(** A new child in a free range. *)
Section grow_child.
Context T v r i c (rc : VmAddressRegion) (Ht : tree ut_top T) (Hl : live T v r i).
Context (Hc : ∀ x rx, T !! x = Some rx → (x < c)%nat) (Hp : parent rc = Some v) (Hi : inner rc = Some (mkInner [] [])).
Context (Hf : free_in T r i (addr rc) (size rc)) (Ha : addr rc mod PAGE_SIZE = 0) (Hs : size rc mod PAGE_SIZE = 0).
Let T' := <[c := rc]> (alter (with_inner (Some (mkInner (children i ++ [c]) (mappings i)))) v T).
#[local] Set Default Proof Using "All".

Lemma grow_lookup x : T' !! x = if decide (x = c) then Some rc
  else if decide (x = v) then Some (with_inner (Some (mkInner (children i ++ [c]) (mappings i))) r) else T !! x.
Proof.
  unfold T'. pose proof (Hc v r (proj1 Hl)). destruct (decide (x = c)) as [->|]; [by rewrite lookup_insert_eq|].
  rewrite lookup_insert_ne by done. destruct (decide (x = v)) as [->|]; [by rewrite lookup_alter_eq, (proj1 Hl)|by rewrite lookup_alter_ne].
Qed.

(** The range of a region is as before. *)
Lemma grow_old x rx : T !! x = Some rx → ∃ rx', T' !! x = Some rx' ∧ addr rx' = addr rx ∧ size rx' = size rx ∧ parent rx' = parent rx.
Proof.
  intros Hx. rewrite grow_lookup. pose proof (Hc x rx Hx). rewrite decide_False by lia.
  destruct (decide (x = v)) as [->|]; [|by exists rx]. destruct Hl as [Hlr _]. eexists. split; [done|]. simpl. split_and!; congruence.
Qed.

Lemma grow_old_inv x rx' : T' !! x = Some rx' → x ≠ c → ∃ rx, T !! x = Some rx ∧ addr rx' = addr rx ∧ size rx' = size rx ∧ parent rx' = parent rx.
Proof.
  intros Hx Hne. rewrite grow_lookup, decide_False in Hx by done. destruct (decide (x = v)) as [->|]; [|by exists rx'].
  exists r. simplify_eq/=. split_and!; [apply Hl|done..].
Qed.

Lemma grow_live x rx ix : live T' x rx ix →
  (x = c ∧ rx = rc ∧ ix = mkInner [] []) ∨
  ∃ rx0 ix0, live T x rx0 ix0 ∧ x ≠ c ∧ addr rx = addr rx0 ∧ size rx = size rx0 ∧ parent rx = parent rx0 ∧ mappings ix = mappings ix0 ∧
    children ix = children ix0 ++ (if decide (x = v) then [c] else []).
Proof.
  unfold live. rewrite grow_lookup. intros [Hx Hix]. destruct (decide (x = c)) as [->|]; [left; split_and!; congruence|right].
  destruct (decide (x = v)) as [->|].
  - exists r, i. simplify_eq/=. split_and!; [apply Hl|apply Hl|done..].
  - exists rx, ix. rewrite app_nil_r. split_and!; done.
Qed.

Lemma grow_live_old x rx ix : live T x rx ix → ∃ rx' ix', live T' x rx' ix' ∧ parent rx' = parent rx ∧ addr rx' = addr rx ∧ size rx' = size rx ∧
  mappings ix' = mappings ix ∧ ∀ z, z ∈ children ix → z ∈ children ix'.
Proof.
  intros Hlx. unfold live. rewrite grow_lookup. pose proof (Hc x rx (proj1 Hlx)). rewrite decide_False by lia.
  destruct (decide (x = v)) as [->|].
  - destruct (live_inj 0 T v rx ix r i Hlx Hl) as [-> ->]. eexists _, _. split; [done|]. split_and!; [done..|].
    intros z Hz. simpl. apply elem_of_app. by left.
  - by exists rx, ix.
Qed.

(** A child is an old one, with its old range, or the new one. *)
Lemma grow_children x rx0 ix0 z rz : live T x rx0 ix0 → z ∈ children ix0 ++ (if decide (x = v) then [c] else []) → T' !! z = Some rz →
  (z ≠ c ∧ z ∈ children ix0 ∧ ∃ rz0, T !! z = Some rz0 ∧ addr rz = addr rz0 ∧ size rz = size rz0) ∨ (x = v ∧ z = c ∧ rz = rc ∧ rx0 = r ∧ ix0 = i).
Proof.
  intros Hlx Hz Hrz. apply elem_of_app in Hz as [Hz|Hz].
  - left. destruct (child_gt T x rx0 ix0 z Ht Hlx Hz) as (_ & r0 & i0 & Hl0 & _). pose proof (Hc z r0 (proj1 Hl0)).
    assert (z ≠ c) as Hne by lia. destruct (grow_old_inv z rz Hrz Hne) as (rz0 & ? & ? & ? & _). eauto 10.
  - right. destruct (decide (x = v)) as [->|]; [|by apply elem_of_nil in Hz]. apply list_elem_of_singleton in Hz as ->.
    rewrite grow_lookup, decide_True in Hrz by done. simplify_eq. destruct (live_inj 0 T v rx0 ix0 r i Hlx Hl) as [-> ->]. done.
Qed.

Lemma grow_child_tree : tree ut_top T'.
Proof.
  destruct (t_range _ _ Ht v r (proj1 Hl)) as (R1 & R2 & R3 & R4 & R5). pose proof Hf as (F1 & F2 & F3 & F4 & F5). pose proof (Hc v r (proj1 Hl)) as Hvc.
  split.
  - intros x rx Hx. destruct (decide (x = c)) as [->|Hne].
    + rewrite grow_lookup, decide_True in Hx by done. simplify_eq. split_and!; [lia|lia|lia|done|done].
    + destruct (grow_old_inv x rx Hx Hne) as (r0 & Hr0 & -> & -> & _). by apply (t_range _ _ Ht x).
  - intros x rx ix [(-> & -> & ->)|(rx0 & ix0 & Hlx & Hne & _ & _ & Ep & _ & _)]%grow_live.
    + rewrite Hp. split; [done|]. eexists _, (mkInner (children i ++ [c]) (mappings i)).
      split; [split; [by rewrite grow_lookup, decide_False, decide_True by lia|done]|]. apply elem_of_app. right. by left.
    + rewrite Ep. pose proof (t_parent _ _ Ht x rx0 ix0 Hlx) as Hq. destruct (parent rx0) as [q|]; [|done]. destruct Hq as (? & rq & iq & Hlq & Hin).
      split; [done|]. destruct (grow_live_old q rq iq Hlq) as (rq' & iq' & ? & _ & _ & _ & _ & Hsub). exists rq', iq'. auto.
  - intros x rx ix z [(-> & -> & ->)|(rx0 & ix0 & Hlx & Hne & Ea & Es & _ & _ & Ec)]%grow_live Hz; [by apply elem_of_nil in Hz|].
    rewrite Ea, Es. rewrite Ec in Hz. apply elem_of_app in Hz as [Hz|Hz].
    + destruct (t_child _ _ Ht x rx0 ix0 z Hlx Hz) as (rz & iz & Hlz & Hpz & ? & ?).
      destruct (grow_live_old z rz iz Hlz) as (rz' & iz' & ? & Ep & Ea' & Es' & _). exists rz', iz'. rewrite Ep, Ea', Es'. done.
    + destruct (decide (x = v)) as [->|]; [|by apply elem_of_nil in Hz]. apply list_elem_of_singleton in Hz as ->.
      destruct (live_inj 0 T v rx0 ix0 r i Hlx Hl) as [-> _]. exists rc, (mkInner [] []). unfold live. rewrite grow_lookup, decide_True by done.
      split_and!; done || lia.
  - intros x rx ix [(-> & -> & ->)|(rx0 & ix0 & Hlx & Hne & _ & _ & _ & _ & Ec)]%grow_live; [apply NoDup_nil_2|]. rewrite Ec.
    apply NoDup_app. split_and!; [by apply (t_nodup _ _ Ht x rx0)| |destruct (decide _); [apply NoDup_singleton|apply NoDup_nil_2]].
    intros z Hz Hz'. destruct (decide (x = v)); [|by apply elem_of_nil in Hz']. apply list_elem_of_singleton in Hz' as ->.
    destruct (child_gt T x rx0 ix0 c Ht Hlx Hz) as (_ & r0 & i0 & Hl0 & _). pose proof (Hc c r0 (proj1 Hl0)). lia.
  - intros x rx ix z1 z2 r1 r2 [(-> & -> & ->)|(rx0 & ix0 & Hlx & Hne & _ & _ & _ & _ & Ec)]%grow_live Hz1 Hz2 Hzz E1 E2; [by apply elem_of_nil in Hz1|].
    rewrite Ec in Hz1, Hz2.
    destruct (grow_children x rx0 ix0 z1 r1 Hlx Hz1 E1) as [(_ & Hi1 & s1 & S1 & -> & ->)|(_ & Ez1 & -> & _ & Ei1)];
      destruct (grow_children x rx0 ix0 z2 r2 Hlx Hz2 E2) as [(_ & Hi2 & s2 & S2 & -> & ->)|(_ & Ez2 & -> & _ & Ei2)].
    + by apply (t_child_disj _ _ Ht x rx0 ix0 z1 z2).
    + rewrite Ei2 in Hi1. apply disj_sym; [exact 0|]. by apply (F4 z1).
    + rewrite Ei1 in Hi2. by apply (F4 z2).
    + congruence.
  - intros x rx ix m [(-> & -> & ->)|(rx0 & ix0 & Hlx & Hne & Ea & Es & _ & Em & _)]%grow_live Hm; [by apply elem_of_nil in Hm|].
    rewrite Em in Hm. destruct (t_map _ _ Ht x rx0 ix0 m Hlx Hm). split; by rewrite ?Ea, ?Es.
  - intros x rx ix m z rz [(-> & -> & ->)|(rx0 & ix0 & Hlx & Hne & _ & _ & _ & Em & Ec)]%grow_live Hm Hz Hrz; [by apply elem_of_nil in Hm|].
    rewrite Em in Hm. rewrite Ec in Hz. destruct (grow_children x rx0 ix0 z rz Hlx Hz Hrz) as [(_ & Hzi & rz0 & Hrz0 & -> & ->)|(-> & -> & -> & -> & ->)].
    + by apply (t_map_child _ _ Ht x rx0 ix0 m z).
    + apply disj_sym; [exact 0|]. by apply F5.
  - intros x rx ix k1 k2 m1 m2 [(-> & -> & ->)|(rx0 & ix0 & Hlx & Hne & _ & _ & _ & Em & _)]%grow_live; [done|]. rewrite Em. by apply (t_map_disj _ _ Ht x rx0).
Qed.
End grow_child.

Lemma allocate_spec v r i c offset len vflags align st :
  inv st → live (vmars st) v r i → (∀ x rx, vmars st !! x = Some rx → (x < c)%nat) →
  no_wrap r offset len → align mod PAGE_SIZE = 0 → 0 < align →
  (∃ e, allocate v c offset len vflags align st = (Err e, st)) ∨
  ∃ o st', allocate v c offset len vflags align st = (Ok tt, st') ∧ inv st' ∧ page_table st' = page_table st ∧
    free_in (vmars st) r i (addr r + o) len ∧ (∀ y, offset = Some y → o = y) ∧
    vmars st' !! c = Some (mkVmar vflags (addr r + o) len (Some v) (Some (mkInner [] []))) ∧
    ∀ va inf, view (vmars st') va inf ↔ view (vmars st) va inf.
Proof.
  intros Hinv Hl Hc Hw Ha Ha0. pose proof (i_tree _ Hinv) as Ht. unfold allocate. rewrite (alive_live _ _ _ _ Hl).
  destruct (determine_offset st r i offset len align) as [o|e|] eqn:Ed; [|by left; eexists|].
  2:{ by apply determine_offset_returns in Ed. }
  destruct (determine_offset_spec st v r i offset len align o Ht Hl Hw Ha Ha0 Ed) as (O1 & -> & O3 & O4 & _ & O6).
  right. eexists o, _. split; [done|]. set (rc := mkVmar vflags (addr r + o) len (Some v) (Some (mkInner [] []))).
  split_and!; [|done|done| |simpl; by rewrite lookup_insert_eq|].
  2:{ intros y ->. unfold determine_offset in Ed. by repeat (case_match; simplify_eq). }
  2:{ intros va inf. split.
      - intros (x & rx & ix & m & Hlx & Hm & ?). destruct (grow_live (vmars st) v r i c rc Ht Hl Hc eq_refl eq_refl O6 O3 O4 x rx ix Hlx) as [(_ & _ & ->)|(rx0 & ix0 & Hlx0 & _ & _ & _ & _ & Em & _)];
          [by apply elem_of_nil in Hm|]. rewrite Em in Hm. by exists x, rx0, ix0, m.
      - intros (x & rx & ix & m & Hlx & Hm & ?).
        destruct (grow_live_old (vmars st) v r i c rc Ht Hl Hc eq_refl eq_refl O6 O3 O4 x rx ix Hlx) as (rx' & ix' & Hlx' & _ & _ & _ & Em & _).
        exists x, rx', ix', m. rewrite Em. done. }
  split; [|apply Hinv|apply Hinv| |].
  2:{ intros x rx ix m Hlx Hm. simpl. destruct (grow_live (vmars st) v r i c rc Ht Hl Hc eq_refl eq_refl O6 O3 O4 x rx ix Hlx) as [(_ & _ & ->)|(rx0 & ix0 & Hlx0 & _ & _ & _ & _ & Em & _)].
      - by apply elem_of_nil in Hm.
      - rewrite Em in Hm. by apply (i_objects _ Hinv x rx0 ix0). }
  - simpl. by apply (grow_child_tree (vmars st) v r i c rc).
  - intros p pa f Hpg. destruct (i_pages _ Hinv p pa f Hpg) as (x & rx & ix & m & Hlx & Hm & Hmp).
    destruct (grow_live_old (vmars st) v r i c rc Ht Hl Hc eq_refl eq_refl O6 O3 O4 x rx ix Hlx) as (rx' & ix' & Hlx' & _ & _ & _ & Em & _).
    exists x, rx', ix', m. split; [exact Hlx'|]. by rewrite Em.
Qed.

(** The mappings of a region become [ms']. *)
Lemma set_maps_tree T v r i (ms' : list VmMapping) :
  tree ut_top T → live T v r i → (∀ m, m ∈ ms' → m_ok r m) →
  (∀ m c rc, m ∈ ms' → c ∈ children i → T !! c = Some rc → disj (maddr m) (msize m) (addr rc) (size rc)) → separate ms' →
  tree ut_top (alter (with_inner (Some (mkInner (children i) ms'))) v T).
Proof.
  intros Ht Hl Hm Hmc Hsep. set (T' := alter _ v T).
  assert (∀ x, T' !! x = if decide (x = v) then Some (with_inner (Some (mkInner (children i) ms')) r) else T !! x) as Hx.
  { intros x. unfold T'. destruct (decide (x = v)) as [->|]; [by rewrite lookup_alter_eq, (proj1 Hl)|by rewrite lookup_alter_ne]. }
  assert (∀ x rx ix, live T' x rx ix → ∃ rx0 ix0, live T x rx0 ix0 ∧ addr rx = addr rx0 ∧ size rx = size rx0 ∧ parent rx = parent rx0 ∧
    children ix = children ix0 ∧ (x = v ∧ mappings ix = ms' ∨ mappings ix = mappings ix0)) as Hlive.
  { intros x rx ix [H1 H2]. rewrite Hx in H1. destruct (decide (x = v)) as [->|]; [|exists rx, ix; split_and!; [done..|by right]].
    exists r, i. simplify_eq/=. split_and!; [apply Hl|done..|by left]. }
  assert (∀ x rx ix, live T x rx ix → ∃ rx' ix', live T' x rx' ix' ∧ addr rx' = addr rx ∧ size rx' = size rx ∧ parent rx' = parent rx ∧ children ix' = children ix) as Hold.
  { intros x rx ix Hlx. unfold live. rewrite Hx. destruct (decide (x = v)) as [->|]; [|by exists rx, ix].
    destruct (live_inj 0 T v rx ix r i Hlx Hl) as [-> ->]. eexists _, _. by split. }
  assert (∀ x rx, T' !! x = Some rx → ∃ rx0, T !! x = Some rx0 ∧ addr rx = addr rx0 ∧ size rx = size rx0) as Hr.
  { intros x rx Hrx. rewrite Hx in Hrx. destruct (decide (x = v)) as [->|]; [|by exists rx]. exists r. simplify_eq/=. split; [apply Hl|done]. }
  split.
  - intros x rx Hrx. destruct (Hr x rx Hrx) as (rx0 & Hx0 & -> & ->). by apply (t_range _ _ Ht x).
  - intros x rx ix (rx0 & ix0 & Hx0 & _ & _ & -> & _)%Hlive. pose proof (t_parent _ _ Ht x rx0 ix0 Hx0) as Hq.
    destruct (parent rx0) as [q|]; [|done]. destruct Hq as (? & rq & iq & Hlq & ?). split; [done|].
    destruct (Hold q rq iq Hlq) as (rq' & iq' & ? & _ & _ & _ & Ec). exists rq', iq'. by rewrite Ec.
  - intros x rx ix c (rx0 & ix0 & Hx0 & -> & -> & _ & -> & _)%Hlive Hc. destruct (t_child _ _ Ht x rx0 ix0 c Hx0 Hc) as (rc & ic & Hlc & ? & ? & ?).
    destruct (Hold c rc ic Hlc) as (rc' & ic' & ? & Ea & Es & Ep & _). exists rc', ic'. by rewrite Ea, Es, Ep.
  - intros x rx ix (rx0 & ix0 & Hx0 & _ & _ & _ & -> & _)%Hlive. by apply (t_nodup _ _ Ht x rx0).
  - intros x rx ix c1 c2 r1 r2 (rx0 & ix0 & Hx0 & _ & _ & _ & -> & _)%Hlive Hc1 Hc2 Hne (s1 & S1 & -> & ->)%Hr (s2 & S2 & -> & ->)%Hr.
    by apply (t_child_disj _ _ Ht x rx0 ix0 c1 c2).
  - intros x rx ix m (rx0 & ix0 & Hx0 & Ea & Es & _ & _ & Em)%Hlive Hmm.
    assert (m_ok rx0 m) as [? ? ? ? ? ? ?]; [|by split; rewrite ?Ea, ?Es].
    destruct Em as [[-> Em]|Em]; rewrite Em in Hmm; [destruct (live_inj 0 T v rx0 ix0 r i Hx0 Hl) as [-> _]; by apply Hm|by apply (t_map _ _ Ht x rx0 ix0)].
  - intros x rx ix m c rc (rx0 & ix0 & Hx0 & _ & _ & _ & Ec & Em)%Hlive Hmm Hc (s & Hs & -> & ->)%Hr. rewrite Ec in Hc.
    destruct Em as [[-> Em]|Em]; rewrite Em in Hmm; [|by apply (t_map_child _ _ Ht x rx0 ix0 m c)].
    destruct (live_inj 0 T v rx0 ix0 r i Hx0 Hl) as [-> ->]. by apply (Hmc m c).
  - intros x rx ix k1 k2 m1 m2 (rx0 & ix0 & Hx0 & _ & _ & _ & _ & Em)%Hlive.
    destruct Em as [[-> Em]|Em]; rewrite Em; [apply Hsep|by apply (t_map_disj _ _ Ht x rx0)].
Qed.

(** ** Mapping *)
Definition page_of m (k : Z) : Z := maddr m / PAGE_SIZE + k.

Lemma page_of_addr m k : m_range m → 0 ≤ k → maddr m + k * PAGE_SIZE < maddr m + msize m →
  maddr m +u k *u PAGE_SIZE = maddr m + k * PAGE_SIZE ∧ (maddr m + k * PAGE_SIZE) mod PAGE_SIZE = 0 ∧
  (maddr m + k * PAGE_SIZE) / PAGE_SIZE = page_of m k ∧ page_of m k * PAGE_SIZE = maddr m + k * PAGE_SIZE ∧
  0 ≤ maddr m + k * PAGE_SIZE < ut_top.
Proof.
  intros (R1 & R2 & R3 & R4 & _) Hk Hin. pose proof ut_top_small as [Htop _].
  assert (0 ≤ k * PAGE_SIZE) by (unfold PAGE_SIZE; lia).
  rewrite wmul_small, wadd_small by (unfold fits; lia). unfold page_of, PAGE_SIZE in *.
  pose proof (Z.div_mod (maddr m) 4096). rewrite Z.mod_add, Z.div_add by lia. lia.
Qed.

Record mapped m (fs : list Z) (k : Z) st st' : Prop := {
  mp_ok : ut_ok (page_table st') ∧ vo_ok ut_limit (vmos st') ∧ same_lens (vmos st) (vmos st');
  mp_rest : vmars st' = vmars st ∧ registered st' = registered st ∧ next_mid st' = next_mid st;
  mp_pages p : ut_page (page_table st') p = ut_page (page_table st) p ∨
    ∃ (j : nat) f pa, fs !! j = Some f ∧ p = page_of m (k + Z.of_nat j) ∧ ut_page (page_table st') p = Some (pa, ut_norm f)
}.

(** A mapping of an aligned range of the object. *)
Definition in_object m : Prop := 0 ≤ vmo_offset m ∧ vmo_offset m mod PAGE_SIZE = 0 ∧ vmo_offset m + msize m < 2 ^ 64.

(** The page of the object behind a page of the mapping. *)
Lemma object_page vs m k : in_object m → obj_ok vs m → msize m mod PAGE_SIZE = 0 → 0 ≤ k → k * PAGE_SIZE < msize m →
  vmo_offset m / PAGE_SIZE +u k = vmo_offset m / PAGE_SIZE + k ∧ 0 ≤ vmo_offset m / PAGE_SIZE + k ∧
  (vo_bounded vs (vmo m) = true ∨ (vmo_offset m / PAGE_SIZE + k + 1) * PAGE_SIZE ≤ vo_len vs (vmo m)).
Proof.
  intros (O1 & O2 & O3) Ho Hs Hk Hlt. unfold obj_ok, PAGE_SIZE in *. pose proof (Z.div_mod (vmo_offset m) 4096). pose proof (Z.div_mod (msize m) 4096).
  assert (0 ≤ vmo_offset m / 4096) by (apply Z.div_pos; lia).
  rewrite wadd_small by (unfold fits; lia). split_and!; [done|lia|]. destruct Ho; [by left|right; lia].
Qed.

(** What makes [VmMapping::map] panic: the memory object does, or there is no memory for the page table. *)
Definition map_panics (o : nat) : Prop :=
  (∃ vs k f, vo_ok ut_limit vs ∧ fst (vo_commit_closure o k f vs) = Panic) ∨
  (∃ pt va pa f, ut_ok pt ∧ fst (ut_map va pa f pt) = Err PagingError.NoMemory).
Lemma m_map_loop_spec m fs k st :
  m_range m → 0 ≤ k → (k + zlen fs) * PAGE_SIZE ≤ msize m → (∀ f, f ∈ fs → f ≠ 0) →
  ut_ok (page_table st) → vo_ok ut_limit (vmos st) → in_object m → obj_ok (vmos st) m →
  (∀ j : nat, (j < length fs)%nat → ut_page (page_table st) (page_of m (k + Z.of_nat j)) = None) →
  ∃ res st', m_map_loop m fs k st = (res, st') ∧
    ((res = Panic ∧ map_panics (vmo m)) ∨ res ≠ Panic ∧ mapped m fs k st st' ∧
      (res = Ok tt → ∀ j f, fs !! j = Some f → ∃ pa, ut_page (page_table st') (page_of m (k + Z.of_nat j)) = Some (pa, ut_norm f))).
Proof.
  intros Hr. revert k st. induction fs as [|f fs IH]; intros k st Hk Hlen Hf Hok Hvo Hio Hobj Hnone.
  { eexists _, st. split; [done|]. right. split; [done|]. split; [|by intros _ j f Hj; rewrite lookup_nil in Hj]. split; [by split_and!|done|by left]. }
  rewrite zlen_cons in Hlen. pose proof (zlen_nonneg fs). simpl.
  destruct (page_of_addr m k Hr Hk) as (E1 & E2 & E3 & E4 & E5); [unfold PAGE_SIZE in *; lia|].
  destruct (object_page (vmos st) m k Hio Hobj) as (P1 & P2 & P3); [apply Hr|done|unfold PAGE_SIZE in *; lia|].
  destruct (vo_commit_closure (vmo m) _ f (vmos st)) as [[pa|e|] vs] eqn:Ec;
    destruct (vo_commit_closure_ok ut_limit _ _ _ _ _ _ Hvo Ec) as (Hvs & Hsl & Hpa).
  2:{ eexists _, _. split; [done|]. right. split; [done|]. split; [|done]. split; [done|done|by left]. }
  2:{ eexists _, _. split; [done|]. left. split; [done|]. left. eexists (vmos st), _, f. by rewrite Ec. }
  rewrite P1 in Hpa. destruct (Hpa pa eq_refl P2 P3) as [Hpa1 Hpa2]. rewrite E1.
  destruct (ut_map_spec (page_table st) (maddr m + k * PAGE_SIZE) pa f Hok E5 E2 Hpa1 Hpa2) as (res & pt1 & Eum & Hok1 & Hres); [apply Hf; by left|]. rewrite Eum.
  pose proof (Hnone 0%nat ltac:(simpl; lia)) as Hn0. rewrite Z.add_0_r in Hn0. rewrite E3 in Hres.
  destruct Hres as [(-> & _ & Hpg)|[[-> | [-> Hn]] _]]; [|eexists _, _; split; [done|left; split; [done|]; right; eexists (page_table st), _, pa, f; by rewrite Eum]|done].
  assert (∀ j, page_of m (k + 1 + Z.of_nat j) = page_of m (k + Z.of_nat (S j))) as Ej by (intros j; unfold page_of; lia).
  assert (∀ j, page_of m (k + Z.of_nat (S j)) ≠ page_of m k) as Ej' by (intros j; unfold page_of; lia).
  destruct (IH (k + 1) (set_vmos vs (set_table pt1 st))) as (res & st' & -> & Hm); [lia|unfold PAGE_SIZE in *; lia|intros f' Hf'; apply Hf; by right|done|done|done|by eapply obj_ok_same| |].
  { intros j Hj. simpl. rewrite Hpg, Ej, decide_False by done. apply Hnone. simpl. lia. }
  exists res, st'. split; [done|]. destruct Hm as [[-> ?]|(Hnp & M & Hall)]; [by left|right]. split; [done|]. split.
  - split; [|apply M|].
    { destruct (mp_ok _ _ _ _ _ M) as (? & ? & Hs). split_and!; [done|done|]. intros o. destruct (Hs o) as [-> ->]. apply Hsl. }
    intros p. destruct (mp_pages _ _ _ _ _ M p) as [E|(j & f' & pa' & Hj & -> & E)].
    + simpl in E. rewrite Hpg in E. destruct (decide (p = page_of m k)) as [->|]; [|by left].
      right. exists 0%nat, f, pa. rewrite Z.add_0_r. done.
    + right. exists (S j), f', pa'. rewrite Ej in *. done.
  - intros -> [|j] f' Hj; simplify_eq/=; [|rewrite <-Ej; by apply Hall]. rewrite Z.add_0_r.
    destruct (mp_pages _ _ _ _ _ M (page_of m k)) as [E|(j & f2 & pa' & Hj & Ep & E)].
    + exists pa. rewrite E. simpl. by rewrite Hpg, decide_True.
    + rewrite Ej in Ep. by destruct (Ej' j).
Qed.

Lemma free_unmapped st v r i a len p :
  inv st → live (vmars st) v r i → free_in (vmars st) r i a len → a ≤ p * PAGE_SIZE < a + len → ut_page (page_table st) p = None.
Proof.
  intros Hinv Hl (F1 & F2 & F3 & F4 & F5) Hp. destruct (ut_page (page_table st) p) as [y|] eqn:E; [|done].
  destruct (page_owner st v r i p y Hinv Hl E) as [(m & Hm & Hin)|(c & rc & Hc & Hrc & Hin & _)]; [lia| |].
  - specialize (F5 m Hm). unfold disj, in_map in *. lia.
  - specialize (F4 c rc Hc Hrc). unfold disj in *. lia.
Qed.

Lemma free_view T v r i a len va inf :
  tree ut_top T → live T v r i → free_in T r i a len → a ≤ va < a + len → ¬ view T va inf.
Proof.
  intros Ht Hl (F1 & F2 & F3 & F4 & F5) Hva (x & rx & ix & m & Hlx & Hm & Hin & _).
  pose proof (owner_below T v r i x rx ix m va Ht Hl Hlx Hm Hin ltac:(lia)) as Hb.
  inversion Hb as [? ? ? _ e1 e2|? r' i' c ? Hl' Hc Hb' e1 e2]; subst.
  - destruct (live_inj 0 T x rx ix r i Hlx Hl) as [_ ->]. specialize (F5 m Hm). unfold disj, in_rng in *. lia.
  - destruct (live_inj 0 T v r' i' r i Hl' Hl) as [-> ->]. destruct (t_child _ _ Ht v r i c Hl Hc) as (rc & ic & Hlc & _).
    specialize (F4 c rc Hc (proj1 Hlc)). pose proof (below_range ut_top T c x rc rx Ht Hb' (proj1 Hlc) (proj1 Hlx)).
    destruct (t_map _ _ Ht x rx ix m Hlx Hm) as [? _ ? _ _ _ _]. unfold disj, in_rng in *. lia.
Qed.

Section place.
Context st v r i (a len : Z) (o : nat) (off perms f : Z) (Hinv : inv st) (Hl : live (vmars st) v r i).
Context (Hfree : free_in (vmars st) r i a len) (Ha : a mod PAGE_SIZE = 0) (Hlen : len mod PAGE_SIZE = 0) (Hoff : off mod PAGE_SIZE = 0).
Context (Hobj : vo_bounded (vmos st) o = true ∨ off + len ≤ vo_len (vmos st) o).
Context (Ho : 0 ≤ off ∧ off + len < 2 ^ 64) (Hu : contains f MMUFlags.USER = true) (Hp : contains perms (Z.land f MMUFlags.RXW) = true).
Let m := m_new (next_mid st) a len o off perms f.
#[local] Set Default Proof Using "All".

Lemma new_pages : pages len = len / PAGE_SIZE.
Proof. destruct Hfree as (_ & ? & _). apply pages_aligned; [unfold fits; lia|done]. Qed.

Lemma new_ok : m_ok r m ∧ m_range m.
Proof.
  destruct Hfree as (F1 & F2 & F3 & _). assert (m_ok r m) as Hm.
  { unfold m, m_new. split; simpl; [done|done|done|done|done| |].
    - unfold zlen. rewrite length_replicate, new_pages. assert (0 ≤ len / PAGE_SIZE) by (by apply Z.div_pos). lia.
    - intros g [-> _]%elem_of_replicate. done. }
  split; [done|]. by eapply m_ok_m_range; [apply Hinv|apply Hl|].
Qed.

(** A page of the new mapping. *)
Lemma new_flag p : in_map m p → m_flag m (p * PAGE_SIZE) = Some f ∧ ∃ j : nat, p = page_of m (Z.of_nat j) ∧ Z.of_nat j < len / PAGE_SIZE.
Proof.
  unfold in_map, m_flag, page_of, m, m_new. simpl. rewrite new_pages. unfold PAGE_SIZE in *. intros Hin.
  pose proof (Z.div_mod a 4096). pose proof (Z.div_mod len 4096).
  assert ((p * 4096 - a) / 4096 = p - a / 4096) as -> by (symmetry; apply Z.div_unique with 0; lia).
  split; [apply lookup_replicate; split; [done|lia]|]. exists (Z.to_nat (p - a / 4096)). lia.
Qed.

Lemma new_flags : ztake (msize m / PAGE_SIZE) (mflags m) = replicate (Z.to_nat (len / PAGE_SIZE)) f.
Proof. unfold m, m_new. simpl. rewrite new_pages. unfold ztake. apply take_ge. by rewrite length_replicate. Qed.

Lemma page_of_in (j : nat) : Z.of_nat j < len / PAGE_SIZE → in_map m (page_of m (Z.of_nat j)).
Proof.
  intros Hj. unfold in_map, page_of, m, m_new. simpl. unfold PAGE_SIZE in *. pose proof (Z.div_mod a 4096). pose proof (Z.div_mod len 4096). lia.
Qed.

Lemma user_nonzero : f ≠ 0.
Proof. intros E. rewrite E in Hu. done. Qed.

(** The mapping in the tree, with the pages of the table that it owns. *)
Lemma insert_mapping st2 :
  vmars st2 = vmars st → ut_ok (page_table st2) → vo_ok ut_limit (vmos st2) → same_lens (vmos st) (vmos st2) →
  (∀ p, ut_page (page_table st2) p = ut_page (page_table st) p ∨ in_map m p ∧ ∃ pa, ut_page (page_table st2) p = Some (pa, ut_norm f)) →
  inv (set_inner v (Some (mkInner (children i) (mappings i ++ [m]))) st2).
Proof.
  intros ET Hok Hvo Hsl Hpg. pose proof (i_tree _ Hinv) as Ht. destruct new_ok as [Hm _]. destruct Hfree as (F1 & F2 & F3 & F4 & F5).
  destruct (tree_mappings _ v r i Ht Hl) as [Hms Hsep].
  assert (∀ x, vmars (set_inner v (Some (mkInner (children i) (mappings i ++ [m]))) st2) !! x =
      if decide (x = v) then Some (with_inner (Some (mkInner (children i) (mappings i ++ [m]))) r) else vmars st !! x) as Hx.
  { intros x. rewrite set_inner_lookup, ET. destruct (decide (x = v)) as [->|]; [by rewrite (proj1 Hl)|done]. }
  split; [|done|done| |].
  2:{ intros x rx ix m0. unfold live. rewrite Hx. intros [E1 E2] Hm0. apply (obj_ok_same (vmos st)); [done|]. destruct (decide (x = v)) as [->|].
      - simplify_eq/=. apply elem_of_app in Hm0 as [Hm0| ->%list_elem_of_singleton]; [by apply (i_objects _ Hinv v r i)|done].
      - by apply (i_objects _ Hinv x rx ix). }
  - simpl. rewrite ET. apply (set_maps_tree (vmars st) v r i); [done|done| | |].
    + intros m0 [Hm0| ->%list_elem_of_singleton]%elem_of_app; [by apply Hms|done].
    + intros m0 c rc [Hm0| ->%list_elem_of_singleton]%elem_of_app Hc Hrc; [by apply (t_map_child _ _ Ht v r i m0 c)|by apply (F4 c)].
    + apply separate_app. split_and!; [done|by apply separate_small|]. intros m1 m2 Hm1 ->%list_elem_of_singleton. apply disj_sym; [exact 0|]. by apply F5.
  - intros p pa g E. change (ut_page (page_table st2) p = Some (pa, g)) in E.
    destruct (Hpg p) as [E1|(Hin & pa' & E1)].
    + rewrite E1 in E. destruct (i_pages _ Hinv p pa g E) as (x & rx & ix & m0 & Hlx & Hm0 & Hmp). unfold live. setoid_rewrite Hx.
      destruct (decide (x = v)) as [->|Hne]; [|exists x, rx, ix, m0; by rewrite decide_False].
      destruct (live_inj 0 _ v rx ix r i Hlx Hl) as [_ ->]. eexists v, _, _, m0. rewrite decide_True by done. split; [done|]. split; [|done].
      simpl. apply elem_of_app. by left.
    + rewrite E1 in E. simplify_eq. eexists v, _, _, m. unfold live. rewrite Hx, decide_True by done. split; [done|].
      split; [simpl; apply elem_of_app; right; by left|]. split; [done|]. exists f, f. split_and!; [by apply new_flag|done|].
      apply contains_refl.
Qed.

(** The addresses of the new mapping stand for the object, others for what they did. *)
Lemma place_view st2 va inf : vmars st2 = vmars st →
  view (vmars (set_inner v (Some (mkInner (children i) (mappings i ++ [m]))) st2)) va inf ↔
  if decide (a ≤ va < a + len) then inf = (o, off + (va - a), perms, Some f) else view (vmars st) va inf.
Proof.
  intros ET. assert (∀ x, vmars (set_inner v (Some (mkInner (children i) (mappings i ++ [m]))) st2) !! x =
      if decide (x = v) then Some (with_inner (Some (mkInner (children i) (mappings i ++ [m]))) r) else vmars st !! x) as Hx.
  { intros x. rewrite set_inner_lookup, ET. destruct (decide (x = v)) as [->|]; [by rewrite (proj1 Hl)|done]. }
  assert (a ≤ va < a + len → info m va = (o, off + (va - a), perms, Some f)) as Hnew.
  { intros Hva. unfold info, m_flag, m, m_new. simpl. f_equal. apply lookup_replicate. split; [done|]. rewrite new_pages. unfold PAGE_SIZE in *.
    pose proof (Z.div_mod len 4096). assert ((va - a) / 4096 < len / 4096) by (apply Z.div_lt_upper_bound; lia). assert (0 ≤ (va - a) / 4096) by (apply Z.div_pos; lia). lia. }
  assert (view (vmars (set_inner v (Some (mkInner (children i) (mappings i ++ [m]))) st2)) va inf ↔
    view (vmars st) va inf ∨ (a ≤ va < a + len ∧ info m va = inf)) as ->.
  { split.
    - intros (x & rx & ix & m0 & Hlx & Hm0 & Hin & Hinf). unfold live in Hlx. rewrite Hx in Hlx. destruct Hlx as [E1 E2].
      destruct (decide (x = v)) as [->|]; [|left; by exists x, rx, ix, m0]. simplify_eq/=.
      apply elem_of_app in Hm0 as [Hm0| ->%list_elem_of_singleton]; [left; by exists v, r, i, m0|right]. by split.
    - intros [(x & rx & ix & m0 & Hlx & Hm0 & ?)|[Hva Hinf]].
      + destruct (decide (x = v)) as [->|Hne]; [|exists x, rx, ix, m0; unfold live; by rewrite Hx, decide_False].
        destruct (live_inj 0 _ v rx ix r i Hlx Hl) as [-> ->]. eexists v, _, _, m0. unfold live. rewrite Hx, decide_True by done. split; [done|].
        split; [simpl; apply elem_of_app; by left|done].
      + eexists v, _, _, m. unfold live. rewrite Hx, decide_True by done. split; [done|]. split; [simpl; apply elem_of_app; right; by left|done]. }
  destruct (decide _) as [Hva|Hva]; [|tauto]. rewrite (Hnew Hva). split; [|by right].
  intros [Hv|[_ ?]]; [|done]. by destruct (free_view _ v r i a len va inf (i_tree _ Hinv) Hl Hfree Hva).
Qed.

Lemma place_spec (map_range : bool) :
  ∃ done st2, (if map_range then m_map m (register o (next_mid st) st) else (Ok tt, register o (next_mid st) st)) = (done, st2) ∧
    match done with
    | Ok _ => vmars st2 = vmars st ∧ inv (set_inner v (Some (mkInner (children i) (mappings i ++ [m]))) st2) ∧
        (map_range = true → ∀ p, in_map m p → ∃ pa, ut_page (page_table st2) p = Some (pa, ut_norm f)) ∧
        (∀ p, ¬ in_map m p → ut_page (page_table st2) p = ut_page (page_table st) p)
    | Err _ => ∃ st3, m_unmap m st2 = (Ok tt, st3) ∧ inv st3 ∧ vmars st3 = vmars st ∧ ∀ p, ut_page (page_table st3) p = ut_page (page_table st) p
    | Panic => map_range = true ∧ map_panics o
    end.
Proof.
  destruct map_range.
  2:{ eexists _, _. split; [done|]. split_and!; [done| |done|done]. apply insert_mapping; [done|apply Hinv|apply Hinv|done|by left]. }
  destruct new_ok as [_ Hr]. unfold m_map. rewrite new_flags. pose proof Hfree as (_ & Hl0 & _).
  assert (0 ≤ len / PAGE_SIZE) as Hn by (by apply Z.div_pos).
  destruct (m_map_loop_spec m (replicate (Z.to_nat (len / PAGE_SIZE)) f) 0 (register o (next_mid st) st)) as (res & st2 & -> & Hres);
    [done|done| |intros g [-> _]%elem_of_replicate; apply user_nonzero|apply Hinv|apply Hinv|split_and!; [apply Ho|done|apply Ho]|done| |].
  { unfold zlen. rewrite length_replicate. unfold m, m_new, PAGE_SIZE in *. simpl. pose proof (Z.div_mod len 4096). lia. }
  { intros j. rewrite length_replicate. intros Hj. simpl. eapply (free_unmapped st v r i a len); [done..|].
    apply (page_of_in j). lia. }
  assert (∀ j g, replicate (Z.to_nat (len / PAGE_SIZE)) f !! j = Some g → g = f ∧ in_map m (page_of m (Z.of_nat j))) as Hrep.
  { intros j g [-> Hj]%lookup_replicate. split; [done|]. apply page_of_in. lia. }
  exists res, st2. split; [done|]. destruct Hres as [[-> Hpan]|(Hnp & M & Hall)]; [by split|]. destruct (mp_ok _ _ _ _ _ M) as (Hok & Hvo & Hsl).
  destruct (mp_rest _ _ _ _ _ M) as (E1 & E2 & E3). simpl in E1.
  assert (∀ p, ut_page (page_table st2) p = ut_page (page_table st) p ∨ in_map m p ∧ ∃ pa, ut_page (page_table st2) p = Some (pa, ut_norm f)) as Hpg.
  { intros p. destruct (mp_pages _ _ _ _ _ M p) as [E|(j & g & pa & [-> Hin]%Hrep & -> & E)]; [by left|right; by eauto]. }
  destruct res as [[]|e|]; [| |done].
  - split_and!; [done|by apply insert_mapping| |].
    + intros _ p Hin. destruct (new_flag p Hin) as (_ & j & -> & Hj). apply (Hall eq_refl j f). apply lookup_replicate. split; [done|lia].
    + intros p Hin. by destruct (Hpg p) as [?|[? _]].
  - unfold m_unmap. destruct Hr as (R1 & R2 & R3 & R4 & R5).
    destruct (unmap_cont_range (page_table st2) (maddr m) (msize m) Hok R4 R5 R1 R2 R3) as (pt3 & -> & Hum). eexists. split; [done|].
    assert (∀ p, ut_page pt3 p = ut_page (page_table st) p) as Hsame.
    { intros p. destruct (Hpg p) as [E|[Hin _]].
      - destruct (ut_page (page_table st) p) as [y|] eqn:Ey.
        + rewrite (um_out _ _ _ Hum); [done|]. intros Hin. rewrite (free_unmapped st v r i a len p Hinv Hl Hfree Hin) in Ey. done.
        + destruct (ut_page pt3 p) as [y|] eqn:E3'; [|done]. apply (um_le _ _ _ Hum) in E3'. congruence.
      - rewrite (um_in _ _ _ Hum p Hin). symmetry. by apply (free_unmapped st v r i a len p). }
    split_and!; [|done|done]. split; [simpl; rewrite E1; apply Hinv|apply Hum|done| |].
    { intros x rx ix m0. simpl. rewrite E1. intros Hlx Hm0. eapply obj_ok_same; [done|]. by apply (i_objects _ Hinv x rx ix). }
    intros p pa g. simpl. rewrite Hsame, E1. apply (i_pages _ Hinv).
Qed.
End place.

Lemma unmapped_free st v r i a len st' ms' :
  inv st → live (vmars st) v r i → 0 ≤ len → addr r ≤ a → a + len ≤ addr r + size r → whole st i a (a + len) →
  unmapped_range st v r i a (a + len) st' ms' →
  ∃ stay, live (vmars st') v (with_inner (Some (mkInner stay ms')) r) (mkInner stay ms') ∧
    free_in (vmars st') (with_inner (Some (mkInner stay ms')) r) (mkInner stay ms') a len.
Proof.
  intros Hinv Hl Hlen H1 H2 Hw Hu. destruct (ur_pruned _ _ _ _ _ _ _ _ Hu) as (gone & stay & Hpr & Hg). exists stay.
  pose proof (i_tree _ Hinv) as Ht. split; [split; [apply Hpr|done]|]. unfold free_in. simpl. split_and!; [done..| |].
  - intros c rc Hc Hrc. apply (pr_stay _ _ _ _ _ _ _ _ Hpr) in Hc as [Hc Hn].
    destruct (sh_same _ _ (prune_shrinks _ _ _ _ _ _ _ _ Ht Hl Hpr) c rc Hrc) as (rc0 & Hrc0 & -> & -> & _).
    specialize (Hw c rc0 Hc Hrc0). rewrite Hg in Hn. unfold id_within in Hn. rewrite Hrc0 in Hn. unfold partial_overlap in Hw.
    apply andb_false_iff in Hw as [Hw|Hw]; [|apply negb_false_iff in Hw; tauto].
    unfold overlap in Hw. rewrite (region_end _ c rc0 Ht Hrc0) in Hw. unfold disj. lia.
  - intros m Hm. destruct (cl_ok _ _ _ _ _ (ur_cut _ _ _ _ _ _ _ _ Hu) m Hm) as (_ & _ & Hd). unfold disj in *. lia.
Qed.

Lemma pick_spec st v r i vmar_offset len overwrite offset :
  inv st → live (vmars st) v r i → no_wrap r vmar_offset len → len mod PAGE_SIZE = 0 → pick st r i vmar_offset len overwrite = Ok offset →
  addr r +u offset = addr r + offset ∧ (addr r + offset) mod PAGE_SIZE = 0 ∧ 0 ≤ offset ∧ offset + len ≤ size r ∧
  (overwrite = false → test_map st r i offset len = true) ∧ (∀ y : Z, vmar_offset = Some y → offset = y).
Proof.
  intros Hinv Hl Hw Hlen Hp. pose proof (i_tree _ Hinv) as Ht. destruct (t_range _ _ Ht v r (proj1 Hl)) as (R1 & R2 & R3 & R4 & R5). pose proof ut_top_small as [Htop _].
  destruct overwrite; simpl in Hp.
  - destruct vmar_offset as [x|]; [|done]. simpl in Hp. destruct (proj2 Hw x eq_refl) as [X1 X2]. pose proof (proj1 Hw).
    unfold page_aligned in Hp. destruct (Z.eqb_spec (x mod PAGE_SIZE) 0) as [Hx|]; [|done]. simpl in Hp.
    destruct (Z.ltb_spec (size r) x); [done|]. simpl in Hp. rewrite wsub_small in Hp by (unfold fits; lia).
    destruct (Z.ltb_spec (size r - x) len); [done|]. simplify_eq. rewrite wadd_small by (unfold fits; lia).
    split_and!; [done|by rewrite Zplus_mod, R4, Hx|done|lia|done|by intros ? [= ->]].
  - destruct (determine_offset_spec st v r i vmar_offset len PAGE_SIZE offset Ht Hl Hw eq_refl eq_refl Hp) as (O1 & O2 & O3 & _ & O5 & F1 & F2 & F3 & _).
    split_and!; [done|done|done|lia|done|]. intros y ->. unfold determine_offset in Hp. by repeat (case_match; simplify_eq).
Qed.

(** What a successful [map_ext] has made of the region. *)
Record map_done st v r i (len : Z) (o : nat) (off perms f : Z) (overwrite map_range : bool) (a : Z) st' : Prop := {
  md_range : addr r ≤ a ∧ a + len ≤ addr r + size r;
  md_mapping : ∃ n cs ms, live (vmars st') v (with_inner (Some (mkInner cs (ms ++ [m_new n a len o off perms f]))) r) (mkInner cs (ms ++ [m_new n a len o off perms f])) ∧
    (overwrite = false → cs = children i ∧ ms = mappings i);
  md_pages p : a ≤ p * PAGE_SIZE < a + len → map_range = true → ∃ pa, ut_page (page_table st') p = Some (pa, ut_norm f);
  md_outside p : ¬ (a ≤ p * PAGE_SIZE < a + len) → ut_page (page_table st') p = ut_page (page_table st) p;
  md_view va inf : view (vmars st') va inf ↔
    if decide (a ≤ va < a + len) then inf = (o, off + (va - a), perms, Some f) else view (vmars st) va inf
}.

(** The rest of [map_ext] once the range is free in the state [st1]. *)
Lemma map_rest st st1 v r i r1 i1 o off len perms f overwrite map_range a :
  inv st1 → live (vmars st1) v r1 i1 → free_in (vmars st1) r1 i1 a len → addr r1 = addr r → size r1 = size r → r1 = with_inner (Some i1) r →
  a mod PAGE_SIZE = 0 → len mod PAGE_SIZE = 0 → off mod PAGE_SIZE = 0 → 0 ≤ off ∧ off + len < 2 ^ 64 →
  vo_bounded (vmos st1) o = true ∨ off + len ≤ vo_len (vmos st1) o →
  contains f MMUFlags.USER = true → contains perms (Z.land f MMUFlags.RXW) = true →
  (overwrite = false → i1 = i ∧ st1 = st) →
  (∀ p, ¬ (a ≤ p * PAGE_SIZE < a + len) → ut_page (page_table st1) p = ut_page (page_table st) p) →
  (∀ va inf, ¬ (a ≤ va < a + len) → view (vmars st1) va inf ↔ view (vmars st) va inf) →
  ∃ res st', place v a len o off perms f map_range st1 = (res, st') ∧ (res ≠ Panic → inv st') ∧
    match res with
    | Ok a' => a' = a ∧ map_done st v r i len o off perms f overwrite map_range a st' ∧ (overwrite = false → ∀ va inf, a ≤ va < a + len → ¬ view (vmars st) va inf)
    | Err _ => overwrite = false → vmars st' = vmars st ∧ ∀ p, ut_page (page_table st') p = ut_page (page_table st) p
    | Panic => map_range = true ∧ map_panics o
    end.
Proof.
  intros Hinv Hl Hf Ea Es Er Ha Hlen Hoff Ho Hobj Hu Hp Hov Hout Hview.
  destruct (place_spec st1 v r1 i1 a len o off perms f Hinv Hl Hf Ha Hlen Hoff Hobj Ho Hu Hp map_range) as (res & st2 & E & Hres).
  unfold place. rewrite E. destruct res as [[]|e|]; [| |by eexists _, _].
  - destruct Hres as (ET & Hinv' & Hpg & Hsame). rewrite (alive_live st2 v r1 i1) by (unfold live; rewrite ET; done).
    eexists _, _. split; [done|]. split; [done|]. split; [done|]. split; [|intros Hf' va inf Hva; destruct (Hov Hf') as [-> ->]; by eapply (free_view _ v r1 i); [apply Hinv|..]]. pose proof Hf as (F1 & F2 & F3 & _). split.
    + lia.
    + eexists (next_mid st1), (children i1), (mappings i1). split; [split; [|done]|intros Hf'; by destruct (Hov Hf') as [-> _]].
      rewrite set_inner_lookup, decide_True, ET, (proj1 Hl) by done. simpl. by rewrite Er.
    + intros p Hin Hmr. by apply Hpg.
    + intros p Hn. simpl. rewrite (Hsame p Hn). by apply Hout.
    + intros va inf. rewrite (place_view st1 v r1 i1 a len o off perms f Hinv Hl Hf Ha Hlen Hoff Hobj Ho Hu Hp st2 va inf ET).
      destruct (decide _); [done|by apply Hview].
  - destruct Hres as (st3 & -> & Hinv3 & ET & Hsame). eexists _, _. split; [done|]. split; [done|]. intros Hf'. destruct (Hov Hf') as [_ ->]. done.
Qed.

(** The cache bits do not matter for the access. *)
Lemma policy_flags (f c : Z) : 0 ≤ c < 4 →
  Z.land (Z.lor f c) MMUFlags.RXW = Z.land f MMUFlags.RXW ∧ (contains f MMUFlags.USER = true → contains (Z.lor f c) MMUFlags.USER = true).
Proof.
  intros Hc. split.
  - rewrite Z.land_lor_distr_l. assert (Z.land c MMUFlags.RXW = 0) as ->; [|apply Z.lor_0_r].
    assert (c = 0 ∨ c = 1 ∨ c = 2 ∨ c = 3) as [-> | [-> | [-> | ->]]] by lia; done.
  - rewrite !contains_spec. intros Hu k Hk Hb. rewrite Z.lor_spec, (Hu k Hk Hb). done.
Qed.

Lemma pick_returns st r i vmar_offset len overwrite : pick st r i vmar_offset len overwrite = Panic → False.
Proof. unfold pick. destruct overwrite; [|apply determine_offset_returns]. destruct vmar_offset as [y|]; [|done]. simpl. by destruct (_ || _). Qed.
Lemma map_ext_spec st v r i vmar_offset o off len perms f overwrite map_range allow :
  inv st → live (vmars st) v r i → no_wrap r vmar_offset len → 0 ≤ off → contains f MMUFlags.USER = true →
  (allow = true → vo_bounded (vmos st) o = true) →
  ∃ res st', map_ext v vmar_offset o off len perms f overwrite map_range allow st = (res, st') ∧ (res ≠ Panic → inv st') ∧
    match res with
    | Ok a => map_done st v r i len o off perms (Z.lor f (vo_policy (vmos st) o)) overwrite map_range a st' ∧
        (∀ y : Z, vmar_offset = Some y → a = addr r + y) ∧ (overwrite = false → ∀ va inf, a ≤ va < a + len → ¬ view (vmars st) va inf)
    | Err _ => overwrite = false → vmars st' = vmars st ∧ ∀ p, ut_page (page_table st') p = ut_page (page_table st) p
    | Panic => map_range = true ∧ map_panics o
    end.
Proof.
  intros Hinv Hl Hw Hoff Hu Hallow. pose proof (i_tree _ Hinv) as Ht. unfold map_ext, page_aligned.
  destruct (Z.eqb_spec (off mod PAGE_SIZE) 0) as [Hoff0|]; [|by eexists _, st]. destruct (Z.eqb_spec (len mod PAGE_SIZE) 0) as [Hlen|]; [|by eexists _, st].
  destruct (Z.leb_spec (2 ^ 64) (off + len)); [by eexists _, st|]. cbn [negb orb].
  destruct (contains perms (Z.land f MMUFlags.RXW)) eqn:Hp; [|by eexists _, st]. pose proof (vo_len_bits _ _ o (i_vmos _ Hinv)) as Hlb.
  destruct (negb allow && _) eqn:Eal; [by eexists _, st|].
  assert (vo_bounded (vmos st) o = true ∨ off + len ≤ vo_len (vmos st) o) as Hobj.
  { destruct allow; [by left; apply Hallow|right]. cbn [negb andb] in Eal. apply orb_false_iff in Eal as [E1%Z.ltb_ge E2].
    rewrite wsub_small in E2 by (unfold fits; lia). lia. }
  rewrite (alive_live _ _ _ _ Hl). destruct (pick st r i vmar_offset len overwrite) as [offset|e|] eqn:Epick; [|by eexists _, st|by destruct (pick_returns st r i vmar_offset len overwrite)].
  destruct (pick_spec st v r i vmar_offset len overwrite offset Hinv Hl Hw Hlen Epick) as (-> & Ha & Hoff1 & Hsz & Htest & Hreq).
  destruct (policy_flags f (vo_policy (vmos st) o) (vo_policy_bits _ _ _ (i_vmos _ Hinv))) as [Hrxw Huser].
  set (a := addr r + offset) in *. set (g := Z.lor f _) in *. pose proof (proj1 Hw) as Hlen0.
  destruct (t_range _ _ Ht v r (proj1 Hl)) as (R1 & R2 & R3 & R4 & R5). pose proof ut_top_small as [Htop _].
  assert (∀ st1 r1 i1, inv st1 → vmos st1 = vmos st → live (vmars st1) v r1 i1 → free_in (vmars st1) r1 i1 a len → r1 = with_inner (Some i1) r →
    (overwrite = false → i1 = i ∧ st1 = st) →
    (∀ p, ¬ (a ≤ p * PAGE_SIZE < a + len) → ut_page (page_table st1) p = ut_page (page_table st) p) →
    (∀ va inf, ¬ (a ≤ va < a + len) → view (vmars st1) va inf ↔ view (vmars st) va inf) →
    ∃ res st', place v a len o off perms g map_range st1 = (res, st') ∧ (res ≠ Panic → inv st') ∧
      match res with
      | Ok a' => map_done st v r i len o off perms g overwrite map_range a' st' ∧ (∀ y : Z, vmar_offset = Some y → a' = addr r + y) ∧ (overwrite = false → ∀ va inf, a' ≤ va < a' + len → ¬ view (vmars st) va inf)
      | Err _ => overwrite = false → vmars st' = vmars st ∧ ∀ p, ut_page (page_table st') p = ut_page (page_table st) p
      | Panic => map_range = true ∧ map_panics o
      end) as Hrest.
  { intros st1 r1 i1 Hi1 Evs Hl1 Hf1 Er1 Hov Hout Hview.
    destruct (map_rest st st1 v r i r1 i1 o off len perms g overwrite map_range a) as (res & st' & E & Hinv' & Hres);
      [done|done|done|by rewrite Er1|by rewrite Er1|done|done|done|done|lia|by rewrite Evs|by apply Huser|by rewrite Hrxw|done|done|done|].
    exists res, st'. split_and!; [done|done|]. destruct res; [|done|done]. destruct Hres as (-> & ? & Hnew). split; [done|]. split; [|done].
    intros y Hy. unfold a. by rewrite (Hreq y Hy). }
  destruct (test_map st r i offset len) eqn:Et.
  - simpl. apply (Hrest st r i); [done|done|done| |by destruct r, Hl; simplify_eq/=|done|done|done].
    apply (test_map_free st v r i offset len Ht Hl); [lia..|done].
  - simpl. destruct overwrite; [|by specialize (Htest eq_refl)].
    destruct (decide (len = 0)) as [->|Hne].
    { exists (Err ZxError.INVALID_ARGS), st. split; [|done]. unfold unmap_inner. by rewrite Z.eqb_refl, orb_true_r. }
    destruct (existsb (λ rc, partial_overlap rc a (a + len)) (regions st (children i))) eqn:Ew.
    { exists (Err ZxError.INVALID_ARGS), st. split; [|done]. unfold unmap_inner. rewrite (wadd_small 64 a len), Ew by (unfold fits; lia). by destruct (negb (page_aligned a) || negb (page_aligned len) || (len =? 0)). }
    apply whole_dec in Ew.
    destruct (unmap_inner_spec st v r i a len Hinv Hl Ha Hlen ltac:(lia) ltac:(lia) ltac:(lia) Ew) as (st1 & ms' & -> & Hi1 & Hu1).
    destruct (unmapped_free st v r i a len st1 ms') as (stay & Hl1 & Hf1); [done|done|lia|lia|lia|done|done|].
    apply (Hrest st1 _ _ Hi1 (proj1 (ur_rest _ _ _ _ _ _ _ _ Hu1)) Hl1 Hf1); [done|done| |].
    + intros p Hp'. rewrite (ur_pages _ _ _ _ _ _ _ _ Hu1), decide_False by tauto. done.
    + intros va inf Hva. rewrite (ur_view _ _ _ _ _ _ _ _ Hu1). tauto.
Qed.

(** ** Protection *)
(** The flags that [protect] gives a page. *)
Definition protected (f old : Z) : Z := Z.lor (Z.ldiff old MMUFlags.RXW) (Z.land f MMUFlags.RXW).

(** What [protect] makes of the entry of a page whose mapping had the flags [old]: the frame stays.  A page that was not mapped may
    become mapped to frame 0. *)
Definition page_protected (f old : Z) (before after : option (Z * Z)) : Prop :=
  match before with
  | Some (pa, _) => after = Some (pa, ut_norm (protected f old))
  | None => after = None ∨ after = Some (0, ut_norm (protected f old))
  end.
Lemma page_protected_flags f old before pa g : page_protected f old before (Some (pa, g)) → g = ut_norm (protected f old).
Proof. destruct before as [[pa0 g0]|]; simpl; [by intros [= _ ->]|]. by intros [?|[= _ ->]]. Qed.

Lemma protected_user f old : contains old MMUFlags.USER = true → contains (protected f old) MMUFlags.USER = true ∧ protected f old ≠ 0.
Proof.
  intros Hu. assert (contains (protected f old) MMUFlags.USER = true) as Hu'; [|split; [done|intros E; by rewrite E in Hu']].
  rewrite contains_spec in *. intros k Hk Hb. unfold protected. rewrite Z.lor_spec, Z.ldiff_spec, (Hu k Hk Hb).
  assert (Z.testbit MMUFlags.RXW k = false) as ->; [|done].
  unfold MMUFlags.USER in Hb. rewrite bit_testbit in Hb by done. apply bool_decide_eq_true in Hb as ->. done.
Qed.

Lemma protected_rxw f old : Z.land (protected f old) MMUFlags.RXW = Z.land f MMUFlags.RXW.
Proof.
  apply Z.bits_inj'. intros k Hk. unfold protected. rewrite !Z.land_spec, Z.lor_spec, Z.ldiff_spec, Z.land_spec.
  by destruct (Z.testbit old k), (Z.testbit f k), (Z.testbit MMUFlags.RXW k).
Qed.

Lemma m_protect_loop_spec m f n k fs pt :
  m_range m → 0 ≤ k → (k + Z.of_nat n) * PAGE_SIZE ≤ msize m → k + Z.of_nat n ≤ zlen fs →
  Forall (λ g, contains g MMUFlags.USER = true) fs → ut_ok pt →
  ∃ fs' pt', m_protect_loop n f (maddr m) k fs pt = Ok (fs', pt') ∧ ut_ok pt' ∧ length fs' = length fs ∧
    (∀ j : nat, fs' !! j = (if decide (k ≤ Z.of_nat j < k + Z.of_nat n) then protected f else id) <$> fs !! j) ∧
    (∀ p, (∀ j : nat, k ≤ Z.of_nat j < k + Z.of_nat n → p ≠ page_of m (Z.of_nat j)) → ut_page pt' p = ut_page pt p) ∧
    (∀ (j : nat) old, k ≤ Z.of_nat j < k + Z.of_nat n → fs !! j = Some old → page_protected f old (ut_page pt (page_of m (Z.of_nat j))) (ut_page pt' (page_of m (Z.of_nat j)))).
Proof.
  intros Hr. revert k fs pt. induction n as [|n IH]; intros k fs pt Hk Hsz Hlen Hu Hok.
  { exists fs, pt. split; [done|]. split_and!; [done|done| |done|].
    - intros j. rewrite decide_False by lia. by destruct (fs !! j).
    - intros j old Hj. lia. }
  assert (is_Some (fs !! Z.to_nat k)) as [old Hold] by (apply lookup_lt_is_Some; unfold zlen in Hlen; lia). simpl. rewrite Hold. simpl.
  destruct (page_of_addr m k Hr Hk) as (E1 & E2 & E3 & E4 & E5); [unfold PAGE_SIZE in *; lia|]. rewrite E1.
  pose proof (Forall_lookup_1 _ _ _ _ Hu Hold) as Hu0. destruct (protected_user f old Hu0) as [Hu1 Hnz].
  change (Z.lor (Z.ldiff old MMUFlags.RXW) (Z.land f MMUFlags.RXW)) with (protected f old).
  assert (∃ res pt1, ut_update (maddr m + k * PAGE_SIZE) None (Some (protected f old)) pt = (res, pt1) ∧ ut_ok pt1 ∧ ignore res = Ok tt ∧
    (∀ p, p ≠ page_of m k → ut_page pt1 p = ut_page pt p) ∧ page_protected f old (ut_page pt (page_of m k)) (ut_page pt1 (page_of m k))) as
    (res & pt1 & -> & Hok1 & -> & Hpg1 & Hpk).
  { destruct (ut_update_spec pt (maddr m + k * PAGE_SIZE) None (protected f old) Hok E5 Hnz) as [[En ->]|(pt1 & -> & Hok1 & Hpg)]; [done| |].
    - eexists _, pt. split; [done|]. split_and!; [done|done|done|]. rewrite <-E3, En. by left.
    - eexists _, pt1. split; [done|]. split_and!; [done|done| |]; rewrite E3 in Hpg.
      + intros p Hp. by rewrite Hpg, decide_False.
      + rewrite Hpg, decide_True by done. unfold page_protected. destruct (ut_page pt (page_of m k)) as [[pa0 g0]|]; simpl; [done|by right]. }
  destruct (IH (k + 1) (<[Z.to_nat k := protected f old]> fs) pt1) as (fs' & pt' & E & Hok' & Hlen' & Hfs' & Hout & Hpages);
    [lia|unfold PAGE_SIZE in *; lia|unfold zlen in *; rewrite length_insert; lia|by apply Forall_insert|done|].
  exists fs', pt'. split; [done|]. rewrite length_insert in Hlen'. split_and!; [done|done| | |].
  - intros j. rewrite Hfs'. destruct (decide (j = Z.to_nat k)) as [->|Hne].
    + rewrite list_lookup_insert_eq by (by eapply lookup_lt_Some). rewrite decide_False, decide_True, Hold by lia. done.
    + rewrite list_lookup_insert_ne by done. f_equal. destruct (decide (k + 1 ≤ _ < _)), (decide (k ≤ _ < _)); done || lia.
  - intros p Hp. rewrite Hout; [|intros j Hj; apply Hp; lia]. apply Hpg1. rewrite <-(Z2Nat.id k) by done. apply Hp. lia.
  - intros j o Hj Ho. destruct (decide (j = Z.to_nat k)) as [->|Hne].
    + rewrite Hold in Ho. simplify_eq. rewrite Z2Nat.id by done. rewrite Hout; [apply Hpk|]. unfold page_of. lia.
    + rewrite <-(Hpg1 (page_of m (Z.of_nat j))) by (unfold page_of; lia). apply Hpages; [lia|]. by rewrite list_lookup_insert_ne.
Qed.

(** A mapping before and after the protection of [[a, end_)]. *)
Record prot r (f a end_ : Z) m m' pt pt' : Prop := {
  pt_shape : maddr m' = maddr m ∧ msize m' = msize m ∧ vmo m' = vmo m ∧ vmo_offset m' = vmo_offset m ∧ permissions m' = permissions m;
  pt_mok : m_ok r m';
  pt_flags p : in_map m p → m_flag m' (p * PAGE_SIZE) = (if decide (a ≤ p * PAGE_SIZE < end_) then protected f else id) <$> m_flag m (p * PAGE_SIZE);
  pt_out p : ¬ (in_map m p ∧ a ≤ p * PAGE_SIZE < end_) → ut_page pt' p = ut_page pt p;
  pt_in p old : in_map m p → a ≤ p * PAGE_SIZE < end_ → m_flag m (p * PAGE_SIZE) = Some old → page_protected f old (ut_page pt p) (ut_page pt' p);
  pt_ok : ut_ok pt'
}.

(** The index of a page and the page of an index. *)
Lemma page_index m p : m_range m → in_map m p →
  ∃ j : nat, p = page_of m (Z.of_nat j) ∧ Z.to_nat ((p * PAGE_SIZE - maddr m) / PAGE_SIZE) = j ∧ p * PAGE_SIZE = maddr m + Z.of_nat j * PAGE_SIZE.
Proof.
  intros (R1 & R2 & R3 & R4 & R5). unfold in_map, page_of, PAGE_SIZE in *. intros Hin. exists (Z.to_nat (p - maddr m / 4096)).
  pose proof (Z.div_mod (maddr m) 4096).
  assert ((p * 4096 - maddr m) / 4096 = p - maddr m / 4096) as -> by (symmetry; apply Z.div_unique with 0; lia). lia.
Qed.

Lemma m_protect_spec r f a end_ m pt :
  m_range m → m_ok r m → a mod PAGE_SIZE = 0 → end_ mod PAGE_SIZE = 0 → 0 ≤ a ≤ end_ → end_ < 2 ^ 64 → touches a end_ m = true →
  is_valid_mapping_flags m f = true → ut_ok pt →
  ∃ m' pt', m_protect f (pages (Z.max a (maddr m) -u maddr m)) (pages (Z.min end_ (m_end m) -u maddr m)) m pt = Ok (m', pt') ∧ prot r f a end_ m m' pt pt'.
Proof.
  intros Hr Hm Ha He Ha0 He0 Ht Hv Hok. pose proof Hr as (R1 & R2 & R3 & R4 & R5). pose proof ut_top_small as [Htop _].
  unfold touches in Ht. rewrite (cut_end m Hr) in *. set (lo := Z.max a (maddr m)). set (hi := Z.min end_ (maddr m + msize m)).
  assert (lo mod PAGE_SIZE = 0) as Hlo by (unfold lo; destruct (Z.max_spec a (maddr m)) as [[_ ->] | [_ ->]]; done).
  assert (hi mod PAGE_SIZE = 0) as Hhi.
  { unfold hi. destruct (Z.min_spec end_ (maddr m + msize m)) as [[_ ->] | [_ ->]]; [done|]. by rewrite Zplus_mod, R4, R5. }
  destruct (pages_sub lo (maddr m)) as [Pl Fl]; [done|done|lia|lia|]. destruct (pages_sub hi (maddr m)) as [Ph Fh]; [done|done|lia|lia|].
  rewrite (wsub_small 64 lo _ Fl), (wsub_small 64 hi _ Fh), Pl, Ph.
  assert (lo - maddr m = (lo - maddr m) / PAGE_SIZE * PAGE_SIZE ∧ hi - maddr m = (hi - maddr m) / PAGE_SIZE * PAGE_SIZE ∧ msize m = msize m / PAGE_SIZE * PAGE_SIZE) as (Dl & Dh & Ds).
  { unfold PAGE_SIZE in *. split_and!; [| |pose proof (Z.div_mod (msize m) 4096); lia].
    - pose proof (Z.div_mod (lo - maddr m) 4096). assert ((lo - maddr m) mod 4096 = 0) by (by rewrite Zminus_mod, Hlo, R4). lia.
    - pose proof (Z.div_mod (hi - maddr m) 4096). assert ((hi - maddr m) mod 4096 = 0) by (by rewrite Zminus_mod, Hhi, R4). lia. }
  set (s := (lo - maddr m) / PAGE_SIZE) in *. set (e := (hi - maddr m) / PAGE_SIZE) in *. pose proof (mo_len _ _ Hm) as Hlen.
  assert (0 ≤ s ≤ e ∧ e ≤ msize m / PAGE_SIZE) as [Hse Hem] by (unfold PAGE_SIZE in *; lia).
  unfold m_protect. destruct (m_protect_loop_spec m f (Z.to_nat (e - s)) s (mflags m) pt) as (fs' & pt' & -> & Hok' & Hl' & Hfs & Hout & Hin);
    [done|lia|rewrite Z2Nat.id by lia; unfold PAGE_SIZE in *; lia|lia|apply Forall_forall; intros g Hg; by apply (mo_flags _ _ Hm)|done|].
  rewrite Z2Nat.id in * by lia. replace (s + (e - s)) with e in * by lia.
  assert (∀ j : nat, maddr m + Z.of_nat j * PAGE_SIZE < maddr m + msize m → s ≤ Z.of_nat j < e ↔ a ≤ maddr m + Z.of_nat j * PAGE_SIZE < end_) as Hrange.
  { intros j Hj. unfold PAGE_SIZE in *. lia. }
  eexists _, pt'. split; [done|]. split; simpl.
  - done.
  - destruct Hm as [M1 M2 M3 M4 M5 M6 M7]. split; simpl; [done..|by unfold zlen in *; rewrite Hl'|].
    intros g [j Hj]%list_elem_of_lookup. rewrite Hfs in Hj. destruct (mflags m !! j) as [old|] eqn:Eo; [|done].
    destruct (M7 old ltac:(by eapply list_elem_of_lookup_2)) as [? ?]. destruct (decide _); simplify_eq/=; [|done].
    split; [by apply protected_user|by rewrite protected_rxw].
  - intros p Hp. destruct (page_index m p Hr Hp) as (j & -> & Ej & Epa). unfold m_flag. simpl. rewrite Ej, Hfs, Epa.
    unfold in_map in Hp. rewrite Epa in Hp. specialize (Hrange j ltac:(lia)). destruct (decide _), (decide _); done || tauto.
  - intros p Hp. apply Hout. intros j Hj ->. apply Hp. unfold in_map. destruct (page_of_addr m (Z.of_nat j) Hr) as (_ & _ & _ & -> & _); [lia|unfold PAGE_SIZE in *; lia|].
    unfold PAGE_SIZE in *. lia.
  - intros p old Hp Hpa. destruct (page_index m p Hr Hp) as (j & -> & Ej & Epa). unfold m_flag. rewrite Ej. apply Hin. apply Hrange; [|lia].
    unfold in_map in Hp. lia.
  - done.
Qed.

(** A mapping after [protect], without its pages. *)
Definition protd r (f a end_ : Z) m m' : Prop :=
  (maddr m' = maddr m ∧ msize m' = msize m ∧ vmo m' = vmo m ∧ vmo_offset m' = vmo_offset m ∧ permissions m' = permissions m) ∧ m_ok r m' ∧
  ∀ p, in_map m p → m_flag m' (p * PAGE_SIZE) = (if decide (a ≤ p * PAGE_SIZE < end_) then protected f else id) <$> m_flag m (p * PAGE_SIZE).

Lemma untouched r f a end_ m pt : m_range m → m_ok r m → touches a end_ m = false → ut_ok pt → prot r f a end_ m m pt pt.
Proof.
  intros Hr Hm Ht Hok. unfold touches in Ht. rewrite (cut_end m Hr) in Ht.
  assert (∀ p, in_map m p → ¬ (a ≤ p * PAGE_SIZE < end_)) as Hp by (intros p; unfold in_map; lia). split; [done|done| |done| |done].
  - intros p Hin. rewrite decide_False by (by apply Hp). by destruct (m_flag m _).
  - intros p old Hin Hpa. by destruct (Hp p Hin).
Qed.

Lemma protect_all_spec r f a end_ ms pt :
  (∀ m, m ∈ ms → m_range m ∧ m_ok r m) → separate ms → a mod PAGE_SIZE = 0 → end_ mod PAGE_SIZE = 0 → 0 ≤ a ≤ end_ → end_ < 2 ^ 64 →
  (∀ m, m ∈ ms → touches a end_ m = true → is_valid_mapping_flags m f = true) → ut_ok pt →
  ∃ ms' pt', protect_all f a end_ ms pt = Ok (ms', pt') ∧ Forall2 (protd r f a end_) ms ms' ∧ ut_ok pt' ∧
    (∀ p, (∀ m, m ∈ ms → ¬ (in_map m p ∧ a ≤ p * PAGE_SIZE < end_)) → ut_page pt' p = ut_page pt p) ∧
    (∀ m p old, m ∈ ms → in_map m p → a ≤ p * PAGE_SIZE < end_ → m_flag m (p * PAGE_SIZE) = Some old → page_protected f old (ut_page pt p) (ut_page pt' p)).
Proof.
  intros Hms Hsep Ha He Hae He' Hv. revert pt. induction ms as [|m ms IH]; intros pt Hok.
  { exists [], pt. split_and!; [done|done|done|done|]. by intros m p old ?%elem_of_nil. }
  destruct (Hms m ltac:(by left)) as [Hr Hm]. simpl.
  assert (∃ m' pt1, (if touches a end_ m then m_protect f (pages (Z.max a (maddr m) -u maddr m)) (pages (Z.min end_ (m_end m) -u maddr m)) m pt else Ok (m, pt)) = Ok (m', pt1) ∧
    prot r f a end_ m m' pt pt1) as (m' & pt1 & -> & Hp).
  { destruct (touches a end_ m) eqn:Et; [|exists m, pt; split; [done|by apply untouched]]. apply m_protect_spec; try done. apply Hv; [by left|done]. }
  pose proof (proj1 (separate_app [m] ms) Hsep) as (_ & Hsep' & Hd). simpl.
  destruct (IH ltac:(intros; apply Hms; by right) Hsep' ltac:(intros m0 Hm0; apply Hv; by right) pt1 (pt_ok _ _ _ _ _ _ _ _ Hp)) as (ms' & pt2 & -> & H2 & Hok2 & Hout & Hin).
  simpl. exists (m' :: ms'), pt2. split; [done|]. split_and!; [|done| |].
  - constructor; [|done]. split_and!; apply Hp.
  - intros p Hn. rewrite Hout, (pt_out _ _ _ _ _ _ _ _ Hp); [done|apply Hn; by left|]. intros m0 Hm0. apply Hn. by right.
  - intros m0 p old [->|Hm0]%elem_of_cons Hmp Hpa Ho.
    + rewrite Hout; [by eapply (pt_in _ _ _ _ _ _ _ _ Hp)|]. intros m1 Hm1 [Hmp1 _]. specialize (Hd m m1 ltac:(by left) Hm1). unfold disj, in_map in *. lia.
    + rewrite <-(pt_out _ _ _ _ _ _ _ _ Hp p); [by eapply Hin|]. intros [Hmp1 _]. specialize (Hd m m0 ltac:(by left) Hm0). unfold disj, in_map in *. lia.
Qed.

Lemma Forall2_separate r f a end_ ms ms' : Forall2 (protd r f a end_) ms ms' → separate ms → separate ms'.
Proof.
  intros H2 Hs k1 k2 m1' m2' E1 E2 Hne. destruct (Forall2_lookup_r _ _ _ _ _ H2 E1) as (m1 & F1 & (-> & -> & _) & _).
  destruct (Forall2_lookup_r _ _ _ _ _ H2 E2) as (m2 & F2 & (-> & -> & _) & _). by eapply Hs.
Qed.

Lemma m_flag_va r m va : m_range m → m_ok r m → in_rng m va → ∃ g, m_flag m va = Some g.
Proof.
  intros (_ & _ & _ & _ & R5) Hm Hin. apply lookup_lt_is_Some. pose proof (mo_len _ _ Hm) as Hl. unfold in_rng, zlen, PAGE_SIZE in *.
  pose proof (Z.div_mod (msize m) 4096). assert ((va - maddr m) / 4096 < msize m / 4096) by (apply Z.div_lt_upper_bound; lia).
  assert (0 ≤ (va - maddr m) / 4096) by (apply Z.div_pos; lia). lia.
Qed.

Lemma m_flag_some r m p : m_range m → m_ok r m → in_map m p → ∃ old, m_flag m (p * PAGE_SIZE) = Some old.
Proof.
  intros Hr Hm Hin. destruct (page_index m p Hr Hin) as (j & _ & Ej & Ep). unfold m_flag. rewrite Ej. apply lookup_lt_is_Some.
  pose proof (mo_len _ _ Hm) as Hl. destruct Hr as (_ & _ & _ & _ & R5). unfold in_map, zlen, PAGE_SIZE in *. pose proof (Z.div_mod (msize m) 4096). lia.
Qed.

#[local] Instance in_map_dec m p : Decision (in_map m p).
Proof. unfold in_map. apply _. Defined.

Lemma protect_pages st st' v r i f a end_ ms' :
  inv st → live (vmars st) v r i → Forall2 (protd r f a end_) (mappings i) ms' →
  (∀ x, vmars st' !! x = if decide (x = v) then Some (with_inner (Some (mkInner (children i) ms')) r) else vmars st !! x) →
  (∀ p, (∀ m, m ∈ mappings i → ¬ (in_map m p ∧ a ≤ p * PAGE_SIZE < end_)) → ut_page (page_table st') p = ut_page (page_table st) p) →
  (∀ m p pa g old, m ∈ mappings i → in_map m p → a ≤ p * PAGE_SIZE < end_ → m_flag m (p * PAGE_SIZE) = Some old →
      ut_page (page_table st') p = Some (pa, g) → g = ut_norm (protected f old)) →
  pages_ok st'.
Proof.
  intros Hinv Hl H2 Hx Hout Hin p pa g Hg. destruct (tree_mappings _ v r i (i_tree _ Hinv) Hl) as [Hms _]. unfold live. setoid_rewrite Hx.
  assert (∀ k m, mappings i !! k = Some m → in_map m p → (∀ m', protd r f a end_ m m' → m_page m' p g) →
    ∃ y ry iy m', ((if decide (y = v) then Some (with_inner (Some (mkInner (children i) ms')) r) else vmars st !! y) = Some ry ∧ inner ry = Some iy) ∧
      m' ∈ mappings iy ∧ m_page m' p g) as Hput.
  { intros k m Hk Hmp Hall. destruct (Forall2_lookup_l _ _ _ _ _ H2 Hk) as (m' & Hk' & Hpr). eexists v, _, _, m'. rewrite decide_True by done.
    split; [done|]. split; [by eapply list_elem_of_lookup_2|by apply Hall]. }
  destruct (decide (Exists (λ m, in_map m p ∧ a ≤ p * PAGE_SIZE < end_) (mappings i))) as [(m & Hm & Hmp & Hpa)%Exists_exists|Hn].
  - apply list_elem_of_lookup in Hm as [k Hk]. pose proof (list_elem_of_lookup_2 _ _ _ Hk) as Hm. destruct (Hms m Hm) as [Hr Hmok].
    destruct (m_flag_some r m p Hr Hmok Hmp) as [old Ho]. apply (Hput k m Hk Hmp). intros m' ((Ea & Es & _) & _ & Hf).
    split; [unfold in_map in *; by rewrite Ea, Es|]. exists (protected f old), (protected f old). rewrite (Hf p Hmp), decide_True, Ho by done.
    split_and!; [done|by eapply Hin|apply contains_refl].
  - assert (∀ m, m ∈ mappings i → ¬ (in_map m p ∧ a ≤ p * PAGE_SIZE < end_)) as Hno by (intros m Hm Hb; apply Hn, Exists_exists; by exists m).
    rewrite (Hout p Hno) in Hg. destruct (i_pages _ Hinv p pa g Hg) as (y & ry & iy & m & Hly & Hm & Hmp).
    destruct (decide (y = v)) as [->|Hne]; [|exists y, ry, iy, m; by rewrite decide_False].
    destruct (live_inj 0 _ v ry iy r i Hly Hl) as [_ ->]. pose proof Hm as [k Hk]%list_elem_of_lookup. pose proof Hmp as (Hip & g0 & g1 & Hg0 & Hg1).
    apply (Hput k m Hk Hip). intros m' ((Ea & Es & _) & _ & Hf). split; [unfold in_map in *; by rewrite Ea, Es|].
    exists g0, g1. rewrite (Hf p Hip), decide_False, Hg0 by (intros Hb; by apply (Hno m Hm)). done.
Qed.

(** ** The coverage that [protect] asks for *)
#[local] Instance in_rng_dec m va : Decision (in_rng m va).
Proof. unfold in_rng. apply _. Defined.

(** The number of addresses of a range in a mapping. *)
Lemma count_in_rng m a n : 0 ≤ n →
  Z.of_nat (length (filter (in_rng m) (seqZ a n))) = Z.max 0 (Z.min (a + n) (maddr m + msize m) - Z.max a (maddr m)).
Proof using.
  intros Hn. set (lo := Z.max a (maddr m)). set (hi := Z.min (a + n) (maddr m + msize m)).
  assert (∀ b k, (∀ z, b ≤ z < b + k → ¬ in_rng m z) → length (filter (in_rng m) (seqZ b k)) = 0%nat) as Hnone.
  { intros b k Hb. apply length_zero_iff_nil. destruct (filter (in_rng m) (seqZ b k)) as [|z l] eqn:E; [done|].
    assert (z ∈ filter (in_rng m) (seqZ b k)) as Hz by (rewrite E; by left). apply list_elem_of_filter in Hz as [Hz ?%elem_of_seqZ]. by destruct (Hb z). }
  destruct (Z_lt_ge_dec lo hi) as [Hlt|Hge].
  - replace n with ((lo - a) + ((hi - lo) + (a + n - hi))) by lia. rewrite seqZ_app, seqZ_app by lia. rewrite !filter_app, !length_app.
    rewrite (Hnone a), (Hnone (a + (lo - a) + (hi - lo))) by (unfold in_rng; lia).
    replace (filter (in_rng m) (seqZ (a + (lo - a)) (hi - lo))) with (seqZ (a + (lo - a)) (hi - lo)); [rewrite length_seqZ; lia|].
    symmetry. apply filter_everything. intros z Hz%elem_of_seqZ. unfold in_rng. lia.
  - rewrite Hnone by (unfold in_rng; lia). lia.
Qed.

Definition cov (ms : list VmMapping) (va : Z) : Prop := Exists (λ m, in_rng m va) ms.

Lemma covered_count a n ms :
  (∀ m, m ∈ ms → m_range m) → separate ms → 0 ≤ a → 0 ≤ n → a + n < 2 ^ 64 →
  covered a (a + n) ms = Z.of_nat (length (filter (cov ms) (seqZ a n))).
Proof.
  intros Hms Hsep Ha Hn Hw. induction ms as [|m ms IH].
  { simpl. assert (filter (cov []) (seqZ a n) = []) as ->; [|done]. generalize (seqZ a n). intros l. induction l as [|z l IHl]; [done|].
    rewrite filter_cons_False; [done|]. unfold cov. by intros ?%Exists_nil. }
  pose proof (proj1 (separate_app [m] ms) Hsep) as (_ & Hsep' & Hd). specialize (IH ltac:(intros; apply Hms; by right) Hsep').
  assert (length (filter (cov (m :: ms)) (seqZ a n)) = (length (filter (in_rng m) (seqZ a n)) + length (filter (cov ms) (seqZ a n)))%nat) as Hsum.
  { rewrite <-(filter_disjoint (in_rng m) (cov ms)).
    - f_equal. apply list_filter_iff. intros z. unfold cov. by rewrite Exists_cons.
    - intros z Hz (m' & Hm' & Hz')%Exists_exists. specialize (Hd m m' ltac:(by left) Hm'). unfold disj, in_rng in *. lia. }
  pose proof (length_filter (cov (m :: ms)) (seqZ a n)) as Hle. rewrite length_seqZ in Hle.
  cbn [covered foldr]. change (foldr _ 0 ms) with (covered a (a + n) ms). rewrite IH. rewrite Hsum in *. rewrite Nat2Z.inj_add, (count_in_rng m a n Hn).
  destruct (Hms m ltac:(by left)) as (R1 & R2 & R3 & _). pose proof ut_top_small as [Htop _].
  unfold touches. rewrite (cut_end m (Hms m ltac:(by left))). pose proof (count_in_rng m a n Hn) as Hcnt.
  destruct ((a <=? maddr m + msize m) && (maddr m <=? a + n)) eqn:Et; [|lia].
  rewrite (wsub_small 64) by (unfold fits; lia). rewrite wadd_small by (unfold fits; lia). lia.
Qed.

(** Mappings that cover as many bytes of a range as it has cover all of it. *)
Lemma covered_all a n ms va :
  (∀ m, m ∈ ms → m_range m) → separate ms → 0 ≤ a → 0 ≤ n → a + n < 2 ^ 64 → covered a (a + n) ms = n → a ≤ va < a + n →
  ∃ m, m ∈ ms ∧ in_rng m va.
Proof.
  intros Hms Hsep Ha Hn Hw Hc Hva. rewrite covered_count in Hc by done.
  assert (filter (cov ms) (seqZ a n) = seqZ a n) as E.
  { apply filter_full. rewrite length_seqZ. lia. }
  assert (va ∈ filter (cov ms) (seqZ a n)) as Hin by (rewrite E; by apply elem_of_seqZ).
  by apply list_elem_of_filter in Hin as [Hin%Exists_exists _].
Qed.

Lemma m_flag_page m va : maddr m mod PAGE_SIZE = 0 → m_flag m va = m_flag m (va / PAGE_SIZE * PAGE_SIZE).
Proof using.
  intros Ha. unfold m_flag, PAGE_SIZE in *. do 2 f_equal. pose proof (Z.div_mod (maddr m) 4096). pose proof (Z.div_mod va 4096). pose proof (Z.mod_pos_bound va 4096).
  assert ((va - maddr m) / 4096 = va / 4096 - maddr m / 4096) as -> by (symmetry; apply Z.div_unique with (va mod 4096); lia).
  apply Z.div_unique with 0; lia.
Qed.

Lemma protd_flag r f a end_ m m' va :
  m_range m → a mod PAGE_SIZE = 0 → end_ mod PAGE_SIZE = 0 → protd r f a end_ m m' → in_rng m va →
  m_flag m' va = (if decide (a ≤ va < end_) then protected f else id) <$> m_flag m va.
Proof using H.
  intros (R1 & R2 & R3 & R4 & R5) Ha He ((Ea & _) & _ & Hf) Hin. rewrite (m_flag_page m va R4), (m_flag_page m' va) by (by rewrite Ea).
  unfold in_rng, PAGE_SIZE in *. pose proof (Z.div_mod va 4096). pose proof (Z.mod_pos_bound va 4096).
  pose proof (Z.div_mod (maddr m) 4096). pose proof (Z.div_mod (msize m) 4096). pose proof (Z.div_mod a 4096). pose proof (Z.div_mod end_ 4096).
  assert (maddr m / 4096 ≤ va / 4096) by (apply Z.div_le_mono; lia).
  rewrite Hf by (unfold in_map, PAGE_SIZE; lia). f_equal.
  destruct (decide (a ≤ va / 4096 * 4096 < end_)) as [|Hn], (decide (a ≤ va < end_)) as [|Hn']; try done; exfalso.
  - apply Hn'. lia.
  - apply Hn. assert (a / 4096 ≤ va / 4096) by (apply Z.div_le_mono; lia). lia.
Qed.

Lemma protect_view st st' v r i f a end_ ms' va inf :
  inv st → live (vmars st) v r i → a mod PAGE_SIZE = 0 → end_ mod PAGE_SIZE = 0 → Forall2 (protd r f a end_) (mappings i) ms' →
  (∀ x, vmars st' !! x = if decide (x = v) then Some (with_inner (Some (mkInner (children i) ms')) r) else vmars st !! x) →
  (∀ z, a ≤ z < end_ → ∃ m, m ∈ mappings i ∧ in_rng m z) →
  view (vmars st') va inf ↔
    if decide (a ≤ va < end_) then ∃ o off perms g, view (vmars st) va (o, off, perms, Some g) ∧ inf = (o, off, perms, Some (protected f g))
    else view (vmars st) va inf.
Proof.
  intros Hinv Hl Ha He H2 Hx Hall. pose proof (i_tree _ Hinv) as Ht. destruct (tree_mappings _ v r i Ht Hl) as [Hms _].
  (* what a mapping of [v] becomes *)
  assert (∀ k m m', mappings i !! k = Some m → ms' !! k = Some m' → in_rng m va → ∃ g, m_flag m va = Some g ∧ in_rng m' va ∧
    info m va = (vmo m, vmo_offset m + (va - maddr m), permissions m, Some g) ∧
    info m' va = (vmo m, vmo_offset m + (va - maddr m), permissions m, Some (if decide (a ≤ va < end_) then protected f g else g))) as Hmm.
  { intros k m m' Hk Hk' Hin. pose proof (Forall2_lookup_lr _ _ _ _ _ _ H2 Hk Hk') as Hp. destruct (Hms m ltac:(by eapply list_elem_of_lookup_2)) as [Hr Hm].
    destruct (m_flag_va r m va Hr Hm Hin) as [g Hg]. exists g. pose proof (protd_flag r f a end_ m m' va Hr Ha He Hp Hin) as Hf. rewrite Hg in Hf.
    destruct Hp as ((E1 & E2 & E3 & E4 & E5) & _). unfold in_rng, info. rewrite E1, E2, E3, E4, E5, Hf, Hg. split_and!; [done|apply Hin|apply Hin|done|].
    by destruct (decide _). }
  assert (∀ k m', ms' !! k = Some m' → in_rng m' va → ∃ m, mappings i !! k = Some m ∧ in_rng m va) as Hback.
  { intros k m' Hk' Hin. destruct (Forall2_lookup_r _ _ _ _ _ H2 Hk') as (m & Hk & (E1 & E2 & _) & _). exists m. split; [done|]. unfold in_rng in *. by rewrite <-E1, <-E2. }
  assert (∀ k m, mappings i !! k = Some m → in_rng m va → ∃ m', ms' !! k = Some m') as Hforth.
  { intros k m Hk _. destruct (Forall2_lookup_l _ _ _ _ _ H2 Hk) as (m' & ? & _). eauto. }
  assert (∀ k m m', mappings i !! k = Some m → ms' !! k = Some m' → in_rng m' va → view (vmars st') va (info m' va)) as Hput.
  { intros k m m' Hk Hk' Hin. eexists v, _, _, m'. unfold live. rewrite Hx, decide_True by done. split; [done|]. split; [by eapply list_elem_of_lookup_2|done]. }
  destruct (decide (a ≤ va < end_)) as [Hva|Hva]; split.
  - intros (x & rx & ix & m' & Hlx & Hm' & Hin & <-). unfold live in Hlx. rewrite Hx in Hlx. destruct (decide (x = v)) as [->|Hne].
    + destruct Hlx as [[= <-] [= <-]]. apply list_elem_of_lookup in Hm' as [k Hk']. destruct (Hback k m' Hk' Hin) as (m & Hk & Hinm).
      destruct (Hmm k m m' Hk Hk' Hinm) as (g & _ & _ & Em & Em'). exists (vmo m), (vmo_offset m + (va - maddr m)), (permissions m), g. split; [|done].
      exists v, r, i, m. split_and!; [done|by eapply list_elem_of_lookup_2|done|done].
    + destruct (Hall va Hva) as (m & Hm & Hinm). by destruct (live_unique (vmars st) x rx ix m' v r i m va Ht Hlx Hm' Hin Hl Hm Hinm).
  - intros (o & off & perms & g & (x & rx & ix & m & Hlx & Hm & Hin & Hinf) & ->). destruct (Hall va Hva) as (m0 & Hm0 & Hin0).
    destruct (live_unique (vmars st) x rx ix m v r i m0 va Ht Hlx Hm Hin Hl Hm0 Hin0) as [-> ->].
    apply list_elem_of_lookup in Hm0 as [k Hk]. destruct (Hforth k m0 Hk Hin0) as (m' & Hk'). destruct (Hmm k m0 m' Hk Hk' Hin0) as (g' & _ & Hin' & Em & Em').
    rewrite Em in Hinf. simplify_eq. rewrite <-Em'. by eapply Hput.
  - intros (x & rx & ix & m' & Hlx & Hm' & Hin & <-). unfold live in Hlx. rewrite Hx in Hlx. destruct (decide (x = v)) as [->|Hne]; [|by exists x, rx, ix, m'].
    destruct Hlx as [[= <-] [= <-]]. apply list_elem_of_lookup in Hm' as [k Hk']. destruct (Hback k m' Hk' Hin) as (m & Hk & Hinm).
    destruct (Hmm k m m' Hk Hk' Hinm) as (g & _ & _ & Em & Em'). rewrite Em', <-Em. exists v, r, i, m. split_and!; [done|by eapply list_elem_of_lookup_2|done|done].
  - intros (x & rx & ix & m & Hlx & Hm & Hin & <-). destruct (decide (x = v)) as [->|Hne]; [|exists x, rx, ix, m; unfold live; by rewrite Hx, decide_False].
    destruct (live_inj 0 _ v rx ix r i Hlx Hl) as [_ ->]. apply list_elem_of_lookup in Hm as [k Hk]. destruct (Hforth k m Hk Hin) as (m' & Hk').
    destruct (Hmm k m m' Hk Hk' Hin) as (g & _ & Hin' & Em & Em'). rewrite Em, <-Em'. by eapply Hput.
Qed.

Lemma protect_spec st v r i a len f :
  inv st → live (vmars st) v r i → 0 ≤ a → 0 ≤ len → a + len < 2 ^ 64 →
  (∃ e, protect v a len f st = (Err e, st)) ∨
  ∃ st' ms', protect v a len f st = (Ok tt, st') ∧ inv st' ∧
    vmars st' !! v = Some (with_inner (Some (mkInner (children i) ms')) r) ∧
    (∀ va, a ≤ va < a + len → ∃ m, m ∈ mappings i ∧ in_rng m va ∧ is_valid_mapping_flags m f = true) ∧
    (∀ va inf, view (vmars st') va inf ↔
      if decide (a ≤ va < a + len) then ∃ o off perms g, view (vmars st) va (o, off, perms, Some g) ∧ inf = (o, off, perms, Some (protected f g))
      else view (vmars st) va inf) ∧
    (∀ p, ¬ (a ≤ p * PAGE_SIZE < a + len) → ut_page (page_table st') p = ut_page (page_table st) p) ∧
    (∀ p, a ≤ p * PAGE_SIZE < a + len → ∃ o off perms g, view (vmars st) (p * PAGE_SIZE) (o, off, perms, Some g) ∧
      page_protected f g (ut_page (page_table st) p) (ut_page (page_table st') p)).
Proof.
  intros Hinv Hl Ha0 Hlen0 Hw. pose proof (i_tree _ Hinv) as Ht. unfold protect, page_aligned.
  destruct (Z.eqb_spec (a mod PAGE_SIZE) 0) as [Ha|]; [|by left; eexists]. destruct (Z.eqb_spec (len mod PAGE_SIZE) 0) as [Hlen|]; [|by left; eexists].
  cbn [negb orb]. rewrite (alive_live _ _ _ _ Hl), (wadd_small 64 a len) by (unfold fits; lia).
  destruct (existsb (λ rc, _ && _) _); [by left; eexists|].
  destruct (Z.eqb_spec (covered a (a + len) (mappings i)) len) as [Hcov|]; [|by left; eexists]. cbn [negb].
  destruct (existsb _ (List.filter _ _)) eqn:Ev; [by left; eexists|right].
  assert (∀ m, m ∈ mappings i → touches a (a + len) m = true → is_valid_mapping_flags m f = true) as Hv.
  { intros m Hm Htm. rewrite existsb_false in Ev. apply negb_false_iff, Ev. by apply list_elem_of_In, List.filter_In; split; [apply list_elem_of_In|]. }
  destruct (tree_mappings _ v r i Ht Hl) as [Hms Hsep]. assert ((a + len) mod PAGE_SIZE = 0) as He by (by rewrite Zplus_mod, Ha, Hlen).
  destruct (protect_all_spec r f a (a + len) (mappings i) (page_table st)) as (ms' & pt' & -> & H2 & Hok & Hout & Hin); [done|done|done|done|lia|lia|done|apply Hinv|].
  eexists _, ms'. split; [done|]. assert (∀ x, vmars (set_inner v (Some (mkInner (children i) ms')) (set_table pt' st)) !! x =
    if decide (x = v) then Some (with_inner (Some (mkInner (children i) ms')) r) else vmars st !! x) as Hx.
  { intros x. rewrite set_inner_lookup. simpl. destruct (decide (x = v)) as [->|]; [by rewrite (proj1 Hl)|done]. }
  assert (∀ va, a ≤ va < a + len → ∃ m, m ∈ mappings i ∧ in_rng m va) as Hall.
  { intros va Hva. apply (covered_all a len); try done. intros m Hm. by apply Hms. }
  split_and!; [|by rewrite Hx, decide_True| |by intros va inf; apply (protect_view st _ v r i f a (a + len) ms')|simpl; intros p Hp; apply Hout; tauto|].
  3:{ intros p Hp. destruct (Hall _ Hp) as (m & Hm & Hin'). destruct (Hms m Hm) as [Hr Hmok]. destruct (m_flag_some r m p Hr Hmok) as [old Hold]; [unfold in_rng in Hin'; unfold in_map; destruct Hr as (_ & _ & _ & _ & R5); unfold PAGE_SIZE in *; lia|].
      exists (vmo m), (vmo_offset m + (p * PAGE_SIZE - maddr m)), (permissions m), old. split; [exists v, r, i, m; split_and!; [done..|]; unfold info; by rewrite Hold|]. simpl. apply (Hin m p old); [done| |done|done].
      unfold in_rng in Hin'; unfold in_map; destruct Hr as (_ & _ & _ & _ & R5); unfold PAGE_SIZE in *; lia. }
  2:{ intros va Hva. destruct (Hall va Hva) as (m & Hm & Hin'). exists m. split_and!; [done|done|]. apply Hv; [done|]. unfold touches.
      rewrite (cut_end m (proj1 (Hms m Hm))). unfold in_rng in Hin'. lia. }
  split; [|done|apply Hinv| |].
  2:{ intros x rx ix m'. unfold live. rewrite Hx. intros [E1 E2] Hm'. destruct (decide (x = v)) as [->|]; [|by apply (i_objects _ Hinv x rx ix)].
      simplify_eq/=. apply list_elem_of_lookup in Hm' as [k Hk]. destruct (Forall2_lookup_r _ _ _ _ _ H2 Hk) as (m & Hm & (Q1 & Q2 & Q3 & Q4 & _) & _).
      unfold obj_ok. rewrite Q2, Q3, Q4. apply (i_objects _ Hinv v r i m Hl). by eapply list_elem_of_lookup_2. }
  - apply (set_maps_tree (vmars st) v r i); [done|done| | |by eapply Forall2_separate].
    + intros m' [k Hk]%list_elem_of_lookup. by destruct (Forall2_lookup_r _ _ _ _ _ H2 Hk) as (m & _ & _ & ? & _).
    + intros m' c rc [k Hk]%list_elem_of_lookup Hc Hrc. destruct (Forall2_lookup_r _ _ _ _ _ H2 Hk) as (m & Hm & (-> & -> & _) & _).
      apply (t_map_child _ _ Ht v r i m c rc Hl); [by eapply list_elem_of_lookup_2|done|done].
  - apply (protect_pages st _ v r i f a (a + len) ms'); [done..|]. intros m p pa g old Hm Hp Hpa Ho Hg. simpl in Hg. pose proof (Hin m p old Hm Hp Hpa Ho) as Hpr. rewrite Hg in Hpr. by eapply page_protected_flags.
Qed.

(** ** Looking up an address *)
Definition maps_at T v m va : Prop := ∃ x rx ix, below T v x ∧ live T x rx ix ∧ m ∈ mappings ix ∧ in_rng m va.

Lemma maps_at_range T v r i m va : tree ut_top T → live T v r i → maps_at T v m va → addr r ≤ va < addr r + size r.
Proof.
  intros Ht Hl (x & rx & ix & Hb & Hlx & Hm & Hr). pose proof (below_range ut_top T v x r rx Ht Hb (proj1 Hl) (proj1 Hlx)).
  destruct (t_map _ _ Ht x rx ix m Hlx Hm) as [? _ ? _ _ _ _]. unfold in_rng in Hr. lia.
Qed.

Lemma maps_at_cases T v r i m va : tree ut_top T → live T v r i → maps_at T v m va →
  (m ∈ mappings i ∧ in_rng m va) ∨ ∃ c, c ∈ children i ∧ maps_at T c m va.
Proof.
  intros Ht Hl (x & rx & ix & Hb & Hlx & Hm & Hr). inversion Hb as [? ? ? _ e1 e2|? r' i' c ? Hl' Hc Hb' e1 e2]; subst.
  - left. by destruct (live_inj 0 T x rx ix r i Hlx Hl) as [_ ->].
  - right. destruct (live_inj 0 T v r' i' r i Hl' Hl) as [_ ->]. exists c. split; [done|]. by exists x, rx, ix.
Qed.

Lemma find_elem {A} (f : A → bool) l z : List.find f l = Some z → z ∈ l ∧ f z = true.
Proof. intros [? ?]%List.find_some. by split; [apply list_elem_of_In|]. Qed.

Lemma find_nelem {A} (f : A → bool) l z : List.find f l = None → z ∈ l → f z = false.
Proof. intros Hf Hz. eapply List.find_none; [done|by apply list_elem_of_In]. Qed.

Lemma lookup_mapping_spec fuel st v r i va :
  tree ut_top (vmars st) → live (vmars st) v r i → (max_id st < v + fuel)%nat →
  match lookup_mapping fuel st v va with
  | Ok m => maps_at (vmars st) v m va
  | Err _ => ∀ m, ¬ maps_at (vmars st) v m va
  | Panic => False
  end.
Proof.
  intros Ht. revert v r i. induction fuel as [|fuel IH]; intros v r i Hl Hfuel.
  { pose proof (max_id_le st v r (proj1 Hl)). lia. }
  simpl. rewrite (alive_live _ _ _ _ Hl).
  assert (∀ c rc, vmars st !! c = Some rc → contains_va rc va = true ↔ addr rc ≤ va < addr rc + size rc) as Hcv.
  { intros c rc Hrc. unfold contains_va. rewrite (region_end _ c rc Ht Hrc). lia. }
  destruct (contains_va r va) eqn:Ev; simpl.
  2:{ intros m Hm. apply (maps_at_range _ v r i m va Ht Hl), (Hcv v r (proj1 Hl)) in Hm. congruence. }
  destruct (List.find _ (children i)) as [c|] eqn:Ef.
  - apply find_elem in Ef as [Hc Hcva]. destruct (t_child _ _ Ht v r i c Hl Hc) as (rc & ic & Hlc & _). destruct (child_gt _ v r i c Ht Hl Hc) as [Hgt _].
    rewrite (proj1 Hlc) in Hcva. apply (Hcv c rc (proj1 Hlc)) in Hcva. specialize (IH c rc ic Hlc ltac:(lia)).
    destruct (lookup_mapping fuel st c va) as [m|e|]; [| |done].
    + destruct IH as (x & rx & ix & Hb & ?). exists x, rx, ix. split; [by eapply below_child|done].
    + intros m Hm. destruct (maps_at_cases _ v r i m va Ht Hl Hm) as [[Hmi Hmr]|(c' & Hc' & Hm')].
      * pose proof (t_map_child _ _ Ht v r i m c rc Hl Hmi Hc (proj1 Hlc)) as Hd. unfold disj, in_rng in *. lia.
      * destruct (decide (c' = c)) as [->|Hne]; [by apply (IH m)|]. destruct (t_child _ _ Ht v r i c' Hl Hc') as (rc' & ic' & Hlc' & _).
        pose proof (t_child_disj _ _ Ht v r i c' c rc' rc Hl Hc' Hc Hne (proj1 Hlc') (proj1 Hlc)) as Hd.
        apply (maps_at_range _ c' rc' ic' m va Ht Hlc') in Hm'. unfold disj in Hd. lia.
  - assert (∀ m, m ∈ mappings i → m_contains m va = true ↔ in_rng m va) as Hmc.
    { intros m Hm. unfold m_contains, in_rng. rewrite (mapping_end _ v r i m Ht Hl Hm). lia. }
    destruct (List.find _ (mappings i)) as [m|] eqn:Em.
    + apply find_elem in Em as [Hm Hmv]. exists v, r, i. split_and!; [by econstructor|done|done|by apply Hmc].
    + intros m Hm. destruct (maps_at_cases _ v r i m va Ht Hl Hm) as [[Hmi Hmr]|(c & Hc & Hm')].
      * apply (Hmc m Hmi) in Hmr. by rewrite (find_nelem _ _ m Em Hmi) in Hmr.
      * destruct (t_child _ _ Ht v r i c Hl Hc) as (rc & ic & Hlc & _). pose proof (find_nelem _ _ c Ef Hc) as Hn. simpl in Hn.
        rewrite (proj1 Hlc) in Hn. apply (maps_at_range _ c rc ic m va Ht Hlc), (Hcv c rc (proj1 Hlc)) in Hm'. congruence.
Qed.

Lemma lookup_fuel st v r : vmars st !! v = Some r → (max_id st < v + fuel_of st)%nat.
Proof. unfold fuel_of. lia. Qed.

Lemma maps_at_range_ok st v m va : inv st → maps_at (vmars st) v m va → m_range m ∧ ∃ r, m_ok r m.
Proof.
  intros Hinv (x & rx & ix & _ & Hlx & Hm & _). destruct (tree_mappings _ x rx ix (i_tree _ Hinv) Hlx) as [Hms _].
  destruct (Hms m Hm). eauto.
Qed.

Lemma maps_at_unique T v m1 m2 va : tree ut_top T → maps_at T v m1 va → maps_at T v m2 va → m1 = m2.
Proof.
  intros Ht (x1 & r1 & i1 & _ & Hl1 & Hm1 & Hr1) (x2 & r2 & i2 & _ & Hl2 & Hm2 & Hr2).
  by apply (live_unique T x1 r1 i1 m1 x2 r2 i2 m2 va).
Qed.

Lemma get_mapping_flags_spec st v r i va :
  inv st → live (vmars st) v r i →
  match get_mapping_flags st v va with
  | Ok g => ∃ m, maps_at (vmars st) v m va ∧ m_flag m va = Some g
  | Err _ => ∀ m, ¬ maps_at (vmars st) v m va
  | Panic => False
  end.
Proof.
  intros Hinv Hl. unfold get_mapping_flags.
  pose proof (lookup_mapping_spec (fuel_of st) st v r i va (i_tree _ Hinv) Hl (lookup_fuel st v r (proj1 Hl))) as Hlook.
  destruct (lookup_mapping (fuel_of st) st v va) as [m|e|]; simpl; [|done|done].
  destruct (maps_at_range_ok st v m va Hinv Hlook) as [Hr (r' & Hm)]. pose proof Hlook as (_ & _ & _ & _ & _ & _ & Hin).
  destruct (m_flag_va r' m va Hr Hm Hin) as [g Hg]. destruct Hr as (R1 & R2 & R3 & _). pose proof ut_top_small as [Htop _].
  rewrite wsub_small by (unfold fits, in_rng in *; lia). unfold m_flag in Hg. rewrite Hg. simpl. by exists m.
Qed.

(** Two addresses of a page are mapped in the same way. *)
Lemma maps_at_page st v m va va' :
  inv st → va / PAGE_SIZE = va' / PAGE_SIZE → maps_at (vmars st) v m va → maps_at (vmars st) v m va' ∧ m_flag m va' = m_flag m va.
Proof.
  intros Hinv Ep Hm. destruct (maps_at_range_ok st v m va Hinv Hm) as [(R1 & R2 & R3 & R4 & R5) _].
  destruct Hm as (x & rx & ix & Hb & Hlx & Hmx & Hin). unfold in_rng, m_flag, PAGE_SIZE in *.
  pose proof (Z.div_mod va 4096). pose proof (Z.div_mod va' 4096). pose proof (Z.mod_pos_bound va 4096). pose proof (Z.mod_pos_bound va' 4096).
  pose proof (Z.div_mod (maddr m) 4096). pose proof (Z.div_mod (msize m) 4096). split.
  - exists x, rx, ix. split_and!; [done|done|done|unfold in_rng; lia].
  - assert ((va - maddr m) / 4096 = va / 4096 - maddr m / 4096) as -> by (symmetry; apply Z.div_unique with (va mod 4096); lia).
    assert ((va' - maddr m) / 4096 = va' / 4096 - maddr m / 4096) as -> by (symmetry; apply Z.div_unique with (va' mod 4096); lia).
    by rewrite Ep.
Qed.

(** ** Checking a range of user memory *)
Definition allowed st v (access va : Z) : Prop :=
  ∃ m g, maps_at (vmars st) v m va ∧ m_flag m va = Some g ∧ contains g MMUFlags.USER = true ∧ contains g access = true.

(** Why an access to an address is refused. *)
Definition refused st v (access va : Z) (e : ZxError.t) : Prop :=
  (e = ZxError.NOT_FOUND ∧ ¬ ∃ m g, maps_at (vmars st) v m va ∧ m_flag m va = Some g ∧ contains g MMUFlags.USER = true) ∨
  (e = ZxError.ACCESS_DENIED ∧ ∃ m g, maps_at (vmars st) v m va ∧ m_flag m va = Some g ∧ contains g MMUFlags.USER = true ∧ contains g access = false).

Lemma maps_at_top st v m va : inv st → maps_at (vmars st) v m va → 0 ≤ va < ut_top.
Proof.
  intros Hinv Hm. destruct (maps_at_range_ok st v m va Hinv Hm) as [(? & ? & ? & _) _]. destruct Hm as (_ & _ & _ & _ & _ & _ & Hin).
  unfold in_rng in Hin. lia.
Qed.

Lemma check_page_spec st v r i va access :
  inv st → live (vmars st) v r i →
  match check_page st v va access with
  | Ok _ => ∀ va', va' / PAGE_SIZE = va / PAGE_SIZE → allowed st v access va'
  | Err e => refused st v access va e
  | Panic => False
  end.
Proof.
  intros Hinv Hl. unfold check_page. pose proof (get_mapping_flags_spec st v r i va Hinv Hl) as Hg.
  destruct (get_mapping_flags st v va) as [g|e|]; [|left; split; [done|]; by intros (m & g & Hm & _); apply (Hg m)|done].
  destruct Hg as (m & Hm & Hmg). destruct (contains g MMUFlags.USER) eqn:Eu; simpl.
  2:{ left. split; [done|]. intros (m' & g' & Hm' & Hg' & Hu'). rewrite (maps_at_unique _ v m' m _ (i_tree _ Hinv) Hm' Hm) in Hg'. congruence. }
  destruct (contains g access) eqn:Ea; simpl; [|right; split; [done|]; by exists m, g].
  intros va' E. destruct (maps_at_page st v m va va' Hinv (eq_sym E) Hm) as [Hm' Ef]. exists m, g. by rewrite Ef.
Qed.

Lemma same_page (page va : Z) : page mod PAGE_SIZE = 0 → page ≤ va < page + PAGE_SIZE → va / PAGE_SIZE = page / PAGE_SIZE.
Proof. unfold PAGE_SIZE. intros Hp Hva. pose proof (Z.div_mod page 4096). symmetry. apply Z.div_unique with (va - page); lia. Qed.

Lemma check_loop_spec fuel st v r i a page end_page access :
  inv st → live (vmars st) v r i → page mod PAGE_SIZE = 0 → end_page = page + Z.of_nat fuel * PAGE_SIZE → end_page < 2 ^ 64 → a < page + PAGE_SIZE →
  match check_loop fuel st v a page end_page access with
  | Ok _ => ∀ va, page ≤ va < end_page + PAGE_SIZE → allowed st v access va
  | Err e => ∃ k : nat, (k ≤ fuel)%nat ∧ refused st v access (Z.max (page + Z.of_nat k * PAGE_SIZE) a) e
  | Panic => False
  end.
Proof.
  intros Hinv Hl. revert page. induction fuel as [|fuel IH]; intros page Hp He Hend Ha; cbn [check_loop];
    pose proof (check_page_spec st v r i (Z.max page a) access Hinv Hl) as Hc;
    (destruct (check_page st v (Z.max page a) access) as [[]|e|]; cbn [rbind]; [|exists 0%nat; split; [lia|]; by rewrite Z.add_0_r|done]).
  - rewrite (proj2 (Z.leb_le end_page page)) by lia. intros va Hva. apply Hc. rewrite (same_page page va), (same_page page (Z.max page a)); unfold PAGE_SIZE in *; lia || done.
  - destruct (Z.leb_spec end_page page); [unfold PAGE_SIZE in *; lia|]. destruct (Z.leb_spec (2 ^ 64) (page + PAGE_SIZE)); [unfold PAGE_SIZE in *; lia|].
    assert ((page + PAGE_SIZE) mod PAGE_SIZE = 0) as Hp' by (by rewrite Zplus_mod, Hp).
    specialize (IH (page + PAGE_SIZE) Hp' ltac:(unfold PAGE_SIZE in *; lia) Hend ltac:(unfold PAGE_SIZE in *; lia)).
    destruct (check_loop fuel st v a (page + PAGE_SIZE) end_page access) as [[]|e|]; [| |done].
    + intros va Hva. destruct (Z_lt_ge_dec va (page + PAGE_SIZE)); [|apply IH; lia]. apply Hc.
      rewrite (same_page page va), (same_page page (Z.max page a)); unfold PAGE_SIZE in *; lia || done.
    + destruct IH as (k & Hk & Hr). exists (S k). split; [lia|]. replace (page + Z.of_nat (S k) * PAGE_SIZE) with (page + PAGE_SIZE + Z.of_nat k * PAGE_SIZE) by lia. done.
Qed.

Lemma page_mask (x : Z) : Z.ldiff x (PAGE_SIZE - 1) = x / PAGE_SIZE * PAGE_SIZE.
Proof.
  change (PAGE_SIZE - 1) with (Z.ones 12). rewrite Z.ldiff_ones_r by done. by rewrite Z.shiftr_div_pow2, Z.shiftl_mul_pow2 by done.
Qed.

Lemma check_user_range_spec st v r i a len access :
  inv st → live (vmars st) v r i → 0 ≤ a → 0 ≤ len →
  match check_user_range st v a len access with
  | Ok _ => ∀ va, a ≤ va < a + len → allowed st v access va
  | Err e => ∃ va, a ≤ va < a + len ∧ refused st v access va e
  | Panic => False
  end.
Proof.
  intros Hinv Hl Ha Hlen. unfold check_user_range. destruct (Z.eqb_spec len 0) as [->|Hne]; [lia|].
  destruct (Z.leb_spec (2 ^ 64) (a + (len - 1))) as [Ho|Ho].
  { exists (a + (len - 1)). split; [lia|]. left. split; [done|]. intros (m & g & Hm & _). apply (maps_at_top st v m _ Hinv) in Hm.
    pose proof ut_top_small. lia. }
  rewrite !page_mask. set (last := a + (len - 1)) in *. unfold PAGE_SIZE.
  pose proof (Z.div_mod a 4096). pose proof (Z.mod_pos_bound a 4096). pose proof (Z.div_mod last 4096). pose proof (Z.mod_pos_bound last 4096).
  assert (a / 4096 ≤ last / 4096) by (apply Z.div_le_mono; lia).
  assert ((last / 4096 * 4096 - a / 4096 * 4096) / 4096 = last / 4096 - a / 4096) as -> by (symmetry; apply Z.div_unique with 0; lia).
  pose proof (check_loop_spec (Z.to_nat (last / 4096 - a / 4096)) st v r i a (a / 4096 * 4096) (last / 4096 * 4096) access Hinv Hl) as Hc. unfold PAGE_SIZE in Hc.
  specialize (Hc ltac:(by rewrite Z.mod_mul) ltac:(lia) ltac:(lia) ltac:(lia)).
  destruct (check_loop _ st v a _ _ access) as [[]|e|]; [| |done].
  - intros va Hva. apply Hc. lia.
  - destruct Hc as (k & Hk & Hr). eexists. split; [|done]. lia.
Qed.

(** ** Page faults *)
Lemma fault_flags_spec access g :
  contains g MMUFlags.USER = true → contains g access = true →
  contains g (fault_flags access g) = true ∧ contains (fault_flags access g) access = true ∧ fault_flags access g ≠ 0.
Proof.
  intros Hu Ha. unfold fault_flags. destruct (contains access MMUFlags.WRITE) eqn:Ew; simpl.
  { split_and!; [apply contains_refl|done|]. intros E. by rewrite E in Hu. }
  unfold MMUFlags.WRITE in *. rewrite contains_bit in Ew by done. rewrite !contains_spec in *. split_and!.
  - intros k Hk. rewrite Z.ldiff_spec. by destruct (Z.testbit g k).
  - intros k Hk Hb. rewrite Z.ldiff_spec, (Ha k Hk Hb), bit_testbit by done. destruct (decide (k = 3)) as [->|]; [|by rewrite bool_decide_false].
    congruence.
  - intros E. specialize (Hu 5 ltac:(done) eq_refl). assert (Z.testbit (Z.ldiff g (bit 3)) 5 = true) as E'; [|by rewrite E in E'].
    rewrite Z.ldiff_spec, Hu. done.
Qed.

Lemma map_or_update_spec pt va pa f :
  ut_ok pt → 0 ≤ va < ut_top → va mod PAGE_SIZE = 0 → 0 ≤ pa < ut_limit → pa mod PAGE_SIZE = 0 → f ≠ 0 →
  ∃ res pt', map_or_update va pa f pt = (res, pt') ∧ ut_ok pt' ∧ res ≠ Panic ∧
    ∀ p, ut_page pt' p = ut_page pt p ∧ (res = Ok tt → p ≠ va / PAGE_SIZE) ∨ res = Ok tt ∧ p = va / PAGE_SIZE ∧ ut_page pt' p = Some (pa, ut_norm f).
Proof.
  unfold map_or_update.
  intros Hok Hva Hal Hpa Hpal Hf. destruct (ut_map_spec pt va pa f Hok Hva Hal Hpa Hpal Hf) as (r & pt1 & -> & Hok1 & [(-> & _ & Hpg)|(Hr & Hpg)]).
  { eexists _, pt1. split; [done|]. split_and!; [done|done|]. intros p. rewrite Hpg. destruct (decide _); auto. }
  destruct Hr as [-> | [-> Hn]].
  { eexists _, pt1. split; [done|]. split_and!; [done|done|]. intros p. left. rewrite Hpg. done. }
  destruct (ut_update_spec pt1 va (Some pa) f Hok1 Hva Hf) as [[E _]|(pt2 & -> & Hok2 & Hpg2)]; [by intros ? [= <-]|rewrite Hpg in E; done|].
  eexists _, pt2. split; [done|]. split_and!; [done|done|]. intros p. rewrite Hpg2. destruct (decide _); [by right|left; by rewrite Hpg].
Qed.

Definition fault_done st v (va access : Z) (res : ZxResult unit) st' : Prop :=
  match res with
  | Ok _ => inv st' ∧ ∃ m g g' pa, maps_at (vmars st) v m va ∧ m_flag m va = Some g ∧ contains g access = true ∧
      ut_page (page_table st') (va / PAGE_SIZE) = Some (pa, ut_norm g') ∧ contains g g' = true ∧ contains g' access = true
  | Err e => inv st' ∧ (e = ZxError.NOT_FOUND → (∀ m, ¬ maps_at (vmars st) v m va) ∨ ∃ m k, fst (vo_commit_page (vmo m) k access (vmos st)) = Err e) ∧
      ∀ p, ut_page (page_table st') p = ut_page (page_table st) p
  | Panic => ∃ m k, fst (vo_commit_page (vmo m) k access (vmos st)) = Panic
  end.

(** The page of an address. *)
Lemma round_down_spec va : 0 ≤ va < ut_top →
  0 ≤ round_down_pages va < ut_top ∧ round_down_pages va mod PAGE_SIZE = 0 ∧ round_down_pages va / PAGE_SIZE = va / PAGE_SIZE ∧
  round_down_pages va = va / PAGE_SIZE * PAGE_SIZE.
Proof.
  unfold round_down_pages, PAGE_SIZE. intros Hva. rewrite Z.mod_mul, Z.div_mul by lia. pose proof (Z.div_mod va 4096). pose proof (Z.mod_pos_bound va 4096).
  assert (0 ≤ va / 4096) by (apply Z.div_pos; lia). lia.
Qed.

(** The page of the object that a fault asks for. *)
Lemma fault_index vs r m va : m_range m → m_ok r m → obj_ok vs m → in_rng m va → va mod PAGE_SIZE = 0 →
  0 ≤ (va - maddr m +u vmo_offset m) / PAGE_SIZE ∧
  (vo_bounded vs (vmo m) = true ∨ ((va - maddr m +u vmo_offset m) / PAGE_SIZE + 1) * PAGE_SIZE ≤ vo_len vs (vmo m)).
Proof.
  intros (R1 & R2 & R3 & R4 & R5) Hm Ho Hin Hva. destruct (mo_align _ _ Hm) as (_ & _ & A3). destruct (mo_offset _ _ Hm) as [O1 O2].
  unfold in_rng, obj_ok, PAGE_SIZE in *. rewrite wadd_small by (unfold fits; lia).
  pose proof (Z.div_mod va 4096). pose proof (Z.div_mod (maddr m) 4096). pose proof (Z.div_mod (msize m) 4096). pose proof (Z.div_mod (vmo_offset m) 4096).
  assert ((va - maddr m + vmo_offset m) / 4096 = va / 4096 - maddr m / 4096 + vmo_offset m / 4096) as -> by (symmetry; apply Z.div_unique with 0; lia).
  split; [lia|]. destruct Ho; [by left|right; lia].
Qed.

Lemma m_page_fault_spec st v m va access :
  inv st → maps_at (vmars st) v m va →
  ∃ res st', m_page_fault m va access st = (res, st') ∧ vmars st' = vmars st ∧ fault_done st v va access res st'.
Proof.
  intros Hinv Hlook. pose proof (maps_at_top st v m va Hinv Hlook) as Hva. pose proof ut_top_small as [Htop Htopm].
  destruct (maps_at_range_ok st v m va Hinv Hlook) as [Hr (rm & Hm)]. pose proof Hlook as (x & rx & ix & _ & Hlx & Hmx & Hin).
  destruct (m_flag_va rm m va Hr Hm Hin) as [g Hg]. destruct (round_down_spec va Hva) as (D1 & D2 & D3 & D4).
  destruct (maps_at_page st v m va (round_down_pages va) Hinv (eq_sym D3) Hlook) as [(_ & _ & _ & _ & _ & _ & Hin') Eflag].
  unfold m_page_fault. rewrite wsub_small by (unfold fits, in_rng in *; destruct Hr as (? & ? & ? & _); lia).
  rewrite Hg in Eflag. pose proof Eflag as Eflag'. unfold m_flag in Eflag'. rewrite Eflag'.
  destruct (contains g access) eqn:Ea; simpl; [|by eexists _, st].
  destruct (vo_commit_page (vmo m) _ access (vmos st)) as [[pa|e|] vs] eqn:Ec;
    destruct (vo_commit_page_ok ut_limit _ _ _ _ _ _ (i_vmos _ Hinv) Ec) as (Hvs & Hsl & Hpa).
  2:{ eexists _, _. split; [done|]. split; [done|]. split_and!; [split; [apply Hinv|apply Hinv|done|by eapply objects_same; [|apply Hinv]|apply Hinv]| |done].
      intros _. right. eexists m, _. by rewrite Ec. }
  2:{ eexists _, _. split; [done|]. split; [done|]. eexists m, _. by rewrite Ec. }
  destruct (fault_index (vmos st) rm m (round_down_pages va) Hr Hm (i_objects _ Hinv x rx ix m Hlx Hmx) Hin' D2) as [I1 I2].
  destruct (Hpa pa eq_refl I1 I2) as [Hpa1 Hpa2].
  assert (g ∈ mflags m) as Hgm by (by eapply list_elem_of_lookup_2). destruct (mo_flags _ _ Hm g Hgm) as [Hu _].
  destruct (fault_flags_spec access g Hu Ea) as (F1 & F2 & F3).
  destruct (map_or_update_spec (page_table st) (round_down_pages va) pa (fault_flags access g)) as (res & pt' & -> & Hok' & Hnp & Hpg); [apply Hinv|done..|].
  rewrite D3 in Hpg. eexists _, _. split; [done|]. split; [done|].
  assert (inv (set_table pt' (set_vmos vs st))) as Hinv'.
  { split; [apply Hinv|done|done|by eapply objects_same; [|apply Hinv]|]. intros p pa' g' Hp. simpl in Hp. destruct (Hpg p) as [[E _]|(_ & -> & E)].
    - rewrite E in Hp. exact (i_pages _ Hinv p pa' g' Hp).
    - rewrite E in Hp. simplify_eq. exists x, rx, ix, m. split; [done|]. split; [done|]. unfold m_page, in_map. rewrite <-D4.
      split; [done|]. by exists g, (fault_flags access g). }
  destruct res as [[]|e|]; [| |done]; simpl.
  - split; [done|]. exists m, g, (fault_flags access g), pa. split_and!; try done. by destruct (Hpg (va / PAGE_SIZE)) as [[_ E]|(_ & _ & E)]; [destruct (E eq_refl)|].
  - split_and!; [done|done|]. intros p. by destruct (Hpg p) as [[E _]|[E _]].
Qed.

Lemma handle_page_fault_spec st v r i va access :
  inv st → live (vmars st) v r i →
  ∃ res st', handle_page_fault v va access st = (res, st') ∧ vmars st' = vmars st ∧ fault_done st v va access res st'.
Proof.
  intros Hinv Hl. unfold handle_page_fault.
  pose proof (lookup_mapping_spec (fuel_of st) st v r i va (i_tree _ Hinv) Hl (lookup_fuel st v r (proj1 Hl))) as Hlook.
  destruct (lookup_mapping (fuel_of st) st v va) as [m|e|]; [by apply m_page_fault_spec| |done].
  eexists _, st. split; [done|]. split; [done|]. split; [done|]. split; [by left|done].
Qed.
End ops.
