(* ===== verification/VmarProps.v ===== *)
(** * Properties of address spaces

    The operations on the regions of [Vmar] as steps of a state machine that starts with a new
    root region, its invariant, and what each operation does: where mappings are placed, what
    unmapping and protecting change, what a fault maps, what [check_user_range] means.  The
    memory objects of [Vmo] implement the interface that the regions use. *)

From S2P Require Import Prelude Errors PageTable Vmo Vmar.
From stdpp Require Import options.
#[local] Open Scope Z_scope.

Section props.
#[local] Set Default Proof Using "Type".
Context {P V : Type} `{UserTable P} `{VmObjects V}.
Implicit Types (st : aspace P V) (r : VmAddressRegion) (i : VmarInner) (m : VmMapping) (v c : nat).

(** [VmAddressRegion::new_root] with the range and the new table as arguments. *)
Definition new_root (base sz : Z) (pt : P) (vs : V) : aspace P V :=
  mkAspace {[0%nat := mkVmar VmarFlags.ROOT_FLAGS base sz None (Some (mkInner [] []))]} pt vs [] 0.

Inductive vm_op :=
| OAllocate (v c : nat) (offset : option Z) (len vflags align : Z)
| OMap (v : nat) (offset : option Z) (o : nat) (off len perms f : Z) (overwrite map_range allow_faults : bool)
| OUnmap (v : nat) (a len : Z)
| OProtect (v : nat) (a len f : Z)
| ODestroy (v : nat)
| OClear (v : nat)
| OFault (v : nat) (va access : Z).

Definition vm_exec (op : vm_op) st : ZxResult unit * aspace P V :=
  match op with
  | OAllocate v c offset len vflags align => allocate v c offset len vflags align st
  | OMap v offset o off len perms f overwrite map_range allow =>
      let '(res, st) := map_ext v offset o off len perms f overwrite map_range allow st in (rmap (λ _, tt) res, st)
  | OUnmap v a len => unmap v a len st
  | OProtect v a len f => protect v a len f st
  | ODestroy v => destroy v st
  | OClear v => clear v st
  | OFault v va access => handle_page_fault v va access st
  end.

(** Requests that do not overflow a word; mappings are for user mode, and mappings past the end
    are of objects that refuse their pages. *)
Definition op_ok st (op : vm_op) : Prop :=
  match op with
  | OAllocate v c offset len _ align =>
      (∀ x rx, vmars st !! x = Some rx → (x < c)%nat) ∧ (∀ r, vmars st !! v = Some r → no_wrap r offset len) ∧ align mod PAGE_SIZE = 0 ∧ 0 < align
  | OMap v offset o off len _ f _ _ allow =>
      (∀ r, vmars st !! v = Some r → no_wrap r offset len) ∧ 0 ≤ off ∧ contains f MMUFlags.USER = true ∧
      (allow = true → vo_bounded (vmos st) o = true)
  | OUnmap _ a len | OProtect _ a len _ => 0 ≤ a ∧ 0 ≤ len ∧ a + len < 2 ^ 64
  | ODestroy _ | OClear _ | OFault _ _ _ => True
  end.

Inductive vm_step st : aspace P V → Prop :=
| vm_step_op op res st' : op_ok st op → vm_exec op st = (res, st') → res ≠ Panic → vm_step st st'.

Lemma new_root_inv base sz pt vs :
  0 ≤ base → 0 ≤ sz → base + sz ≤ ut_top → base mod PAGE_SIZE = 0 → sz mod PAGE_SIZE = 0 →
  ut_ok pt → (∀ p, ut_page pt p = None) → vo_ok ut_limit vs → inv (new_root base sz pt vs).
Proof.
  intros Hb Hs Ht Hba Hsa Hok Hnone Hvs.
  assert (∀ x r i, live (vmars (new_root base sz pt vs)) x r i → x = 0%nat ∧ i = mkInner [] [] ∧ parent r = None) as Hl.
  { intros x r i [Hr Hi]. simpl in Hr. apply lookup_singleton_Some in Hr as [<- <-]. by simplify_eq/=. }
  split; [|done|done| |].
  - split.
    + intros x r Hr. simpl in Hr. apply lookup_singleton_Some in Hr as [_ <-]. simpl. split_and!; done || lia.
    + intros x r i (-> & _ & ->)%Hl. done.
    + intros x r i c (_ & -> & _)%Hl Hc. by apply elem_of_nil in Hc.
    + intros x r i (_ & -> & _)%Hl. apply NoDup_nil_2.
    + intros x r i c1 c2 r1 r2 (_ & -> & _)%Hl Hc. by apply elem_of_nil in Hc.
    + intros x r i m (_ & -> & _)%Hl Hm. by apply elem_of_nil in Hm.
    + intros x r i m c rc (_ & -> & _)%Hl Hm. by apply elem_of_nil in Hm.
    + intros x r i k1 k2 m1 m2 (_ & -> & _)%Hl Hm. done.
  - intros x r i m (_ & -> & _)%Hl Hm. by apply elem_of_nil in Hm.
  - intros p pa f Hp. simpl in Hp. by rewrite Hnone in Hp.
Qed.

(** A region that does not exist or has been destroyed only gives errors. *)
Lemma alive_cases st v : (∃ r i, live (vmars st) v r i ∧ alive st v = Ok (r, i)) ∨ ∃ e, alive st v = Err e.
Proof.
  unfold alive, live. destruct (vmars st !! v) as [r|]; [|by right; eexists]. destruct (inner r) as [i|] eqn:Hi; [|by right; eexists].
  left. by exists r, i.
Qed.

Lemma call_unmap_spec st v a len :
  inv st → 0 ≤ a → 0 ≤ len → a + len < 2 ^ 64 →
  (∃ e, unmap v a len st = (Err e, st)) ∨
  ∃ r i st' ms', live (vmars st) v r i ∧ whole st i a (a + len) ∧ unmap v a len st = (Ok tt, st') ∧ inv st' ∧ unmapped_range st v r i a (a + len) st' ms'.
Proof.
  intros Hinv Ha Hlen Hw. unfold unmap. destruct (negb (page_aligned a) || negb (page_aligned len) || (len =? 0)) eqn:Eg; [by left; eexists|].
  destruct (alive_cases st v) as [(r & i & Hl & ->)|(e & ->)]; [|by left; eexists].
  apply orb_false_iff in Eg as [Eg El]. apply orb_false_iff in Eg as [Ea El0]. unfold page_aligned in Ea, El0.
  destruct (existsb (λ rc, partial_overlap rc a (a + len)) (regions st (children i))) eqn:Ew.
  - left. exists ZxError.INVALID_ARGS. unfold unmap_inner, page_aligned. rewrite Ea, El0, El. simpl. by rewrite wadd_small, Ew by (unfold fits; lia).
  - right. apply whole_dec in Ew.
    destruct (unmap_inner_spec st v r i a len Hinv Hl ltac:(lia) ltac:(lia) Ha ltac:(lia) Hw Ew) as (st' & ms' & E & Hi & Hu).
    exists r, i, st', ms'. by split_and!.
Qed.

Lemma step_inv st st' : inv st → vm_step st st' → inv st'.
Proof.
  intros Hinv [op res st1 Hop E Hnp]. destruct op as [v c offset len vf align|v offset o off len perms f ov mr al|v a len|v a len f|v|v|v va access]; simpl in *.
  - destruct Hop as (Hc & Hw & Ha & Ha0). destruct (alive_cases st v) as [(r & i & Hl & _)|(e & Ev)].
    + destruct (allocate_spec v r i c offset len vf align st Hinv Hl Hc (Hw r (proj1 Hl)) Ha Ha0) as [(e & E')|(o & st2 & E' & Hi & _)]; rewrite E' in E; by simplify_eq.
    + unfold allocate in E. rewrite Ev in E. by simplify_eq.
  - destruct Hop as (Hw & Ho & Hu & Hal). destruct (map_ext v offset o off len perms f ov mr al st) as [res' st2] eqn:Em. simplify_eq.
    assert (res' ≠ Panic) as Hnp' by (by destruct res'). destruct (alive_cases st v) as [(r & i & Hl & _)|(e & Ev)].
    + destruct (map_ext_spec st v r i offset o off len perms f ov mr al Hinv Hl (Hw r (proj1 Hl)) Ho Hu Hal) as (res2 & st2 & E' & Hi & _).
      rewrite E' in Em. simplify_eq. by apply Hi.
    + unfold map_ext in Em. rewrite Ev in Em. repeat (case_match; simplify_eq; try done).
  - destruct (call_unmap_spec st v a len Hinv) as [(e & E')|(r & i & st2 & ms & _ & _ & E' & Hi & _)]; [lia..| |]; rewrite E' in E; by simplify_eq.
  - destruct (alive_cases st v) as [(r & i & Hl & _)|(e & Ev)].
    + destruct (protect_spec st v r i a len f Hinv Hl) as [(e & E')|(st2 & ms & E' & Hi & _)]; [lia..| |]; rewrite E' in E; by simplify_eq.
    + unfold protect in E. rewrite Ev in E. repeat (case_match; simplify_eq; try done).
  - destruct (alive_cases st v) as [(r & i & Hl & _)|(e & Ev)].
    + destruct (destroy_spec st v r i Hinv Hl) as (st2 & E' & Hi & _). rewrite E' in E. by simplify_eq.
    + unfold destroy, fuel_of in E. simpl in E. rewrite Ev in E. by simplify_eq.
  - destruct (alive_cases st v) as [(r & i & Hl & _)|(e & Ev)].
    + destruct (clear_spec st v r i Hinv Hl) as (st2 & E' & Hi & _). rewrite E' in E. by simplify_eq.
    + unfold clear in E. rewrite Ev in E. by simplify_eq.
  - destruct (alive_cases st v) as [(r & i & Hl & _)|(e & Ev)].
    + destruct (handle_page_fault_spec st v r i va access Hinv Hl) as (res2 & st2 & E' & _ & Hf). rewrite E' in E. simplify_eq.
      destruct res; [by destruct Hf|by destruct Hf|done].
    + unfold handle_page_fault, fuel_of in E. simpl in E. rewrite Ev in E. by simplify_eq.
Qed.

Lemma reachable_inv st st' : inv st → rtc vm_step st st' → inv st'.
Proof. intros Hi Hr. induction Hr as [|st st1 st' Hs _ IH]; [done|]. by eapply IH, step_inv. Qed.



(** C21. [unmap] of an aligned range that cuts no subregion in two succeeds and removes exactly
    the addresses of the range that lie in the region: other addresses stand for the same bytes
    of the same objects with the same flags, also where mappings are split, and the pages of the
    page table are those of other addresses. *)
Theorem vmar_unmap_exact st v r i a len :
  inv st → live (vmars st) v r i → a mod PAGE_SIZE = 0 → len mod PAGE_SIZE = 0 → 0 ≤ a → 0 < len → a + len < 2 ^ 64 →
  (∀ c rc, c ∈ children i → vmars st !! c = Some rc →
     addr rc + size rc ≤ a ∨ a + len ≤ addr rc ∨ a ≤ addr rc ∧ addr rc + size rc ≤ a + len) →
  ∃ st', unmap v a len st = (Ok tt, st') ∧ inv st' ∧
    (∀ va inf, view (vmars st') va inf ↔ view (vmars st) va inf ∧ ¬ (a ≤ va < a + len ∧ addr r ≤ va < addr r + size r)) ∧
    (∀ p, ut_page (page_table st') p =
       if decide (a ≤ p * PAGE_SIZE < a + len ∧ addr r ≤ p * PAGE_SIZE < addr r + size r) then None else ut_page (page_table st) p).
Proof.
  intros Hinv Hl Ha Hlen Ha0 Hlen0 Hw Hch. assert (whole st i a (a + len)) as Hwh.
  { intros c rc Hc Hrc. specialize (Hch c rc Hc Hrc). unfold partial_overlap, overlap, within. rewrite (region_end _ c rc (i_tree _ Hinv) Hrc).
    destruct (t_range _ _ (i_tree _ Hinv) c rc Hrc) as (_ & ? & _). lia. }
  destruct (unmap_inner_spec st v r i a len Hinv Hl Ha Hlen Ha0 Hlen0 Hw Hwh) as (st' & ms' & E & Hi & Hu). exists st'.
  unfold unmap, page_aligned. rewrite Ha, Hlen, (alive_live _ _ _ _ Hl). destruct (Z.eqb_spec len 0); [lia|].
  split_and!; [done|done|apply (ur_view _ _ _ _ _ _ _ _ Hu)|apply (ur_pages _ _ _ _ _ _ _ _ Hu)].
Qed.

(** C22. A successful [map_ext] returns an address in the region, at the requested offset if one
    is given, from which on the object is mapped: its addresses stand for the bytes of the
    object with the requested permissions and the flags with the cache policy of the object, and
    are in the page table if they are to be mapped at once.  All other addresses and pages are
    as before, and without overwriting nothing was mapped there; without overwriting, a failure
    changes nothing.  It panics only when it maps at once and the memory object panics or the page table runs out of memory.
    The requested offset and the length are such that the end of the range is no more than a word, the flags are for user mode, and a range past the end of the
    object is allowed only for objects that refuse such pages. *)
Theorem vmar_map_exact st v r i offset o off len perms f overwrite map_range allow :
  inv st → live (vmars st) v r i → no_wrap r offset len → 0 ≤ off → contains f MMUFlags.USER = true →
  (allow = true → vo_bounded (vmos st) o = true) →
  ∃ res st', map_ext v offset o off len perms f overwrite map_range allow st = (res, st') ∧
    match res with
    | Ok a =>
        inv st' ∧ addr r ≤ a ∧ a + len ≤ addr r + size r ∧ (∀ y, offset = Some y → a = addr r + y) ∧
        (overwrite = false → ∀ va inf, a ≤ va < a + len → ¬ view (vmars st) va inf) ∧
        (∀ va inf, view (vmars st') va inf ↔
           if decide (a ≤ va < a + len) then inf = (o, off + (va - a), perms, Some (Z.lor f (vo_policy (vmos st) o))) else view (vmars st) va inf) ∧
        (∀ p, a ≤ p * PAGE_SIZE < a + len → map_range = true → ∃ pa, ut_page (page_table st') p = Some (pa, ut_norm (Z.lor f (vo_policy (vmos st) o)))) ∧
        (∀ p, ¬ (a ≤ p * PAGE_SIZE < a + len) → ut_page (page_table st') p = ut_page (page_table st) p)
    | Err _ => inv st' ∧ (overwrite = false → vmars st' = vmars st ∧ ∀ p, ut_page (page_table st') p = ut_page (page_table st) p)
    | Panic => map_range = true ∧ map_panics (P := P) (V := V) o
    end.
Proof.
  intros Hinv Hl Hw Hoff Hu Hal. destruct (map_ext_spec st v r i offset o off len perms f overwrite map_range allow Hinv Hl Hw Hoff Hu Hal) as (res & st' & E & Hi & Hres).
  exists res, st'. split; [done|]. destruct res as [a|e|]; [|split; [by apply Hi|done]|exact Hres]. destruct Hres as (M & Hreq & Hnew).
  split_and!; [by apply Hi|apply M|apply M|done|done|apply M|apply M|apply M].
Qed.

(** C23. [protect] of a range whose end is no more than a word either fails and changes nothing, or the whole range was mapped by the region
    itself with permissions for the new access, and then exactly the access bits that the mappings record for the pages of
    the range are replaced.  In the page table nothing changes outside the range; a page of the range that was mapped keeps its frame and
    gets the new flags; and one that was not yet mapped stays so or, which is a flaw of [PageTableImpl::update], is mapped with the new flags to frame 0. *)
Theorem vmar_protect_exact st v r i a len f :
  inv st → live (vmars st) v r i → 0 ≤ a → 0 ≤ len → a + len < 2 ^ 64 →
  (∃ e, protect v a len f st = (Err e, st)) ∨
  ∃ st', protect v a len f st = (Ok tt, st') ∧ inv st' ∧
    (∀ va, a ≤ va < a + len → ∃ m, m ∈ mappings i ∧ in_rng m va ∧ contains (permissions m) (Z.land f MMUFlags.RXW) = true) ∧
    (∀ va inf, view (vmars st') va inf ↔
      if decide (a ≤ va < a + len) then ∃ o off perms g, view (vmars st) va (o, off, perms, Some g) ∧
        inf = (o, off, perms, Some (Z.lor (Z.ldiff g MMUFlags.RXW) (Z.land f MMUFlags.RXW)))
      else view (vmars st) va inf) ∧
    (∀ p, ¬ (a ≤ p * PAGE_SIZE < a + len) → ut_page (page_table st') p = ut_page (page_table st) p) ∧
    (∀ p, a ≤ p * PAGE_SIZE < a + len → ∃ o off perms g, view (vmars st) (p * PAGE_SIZE) (o, off, perms, Some g) ∧
      let new := ut_norm (Z.lor (Z.ldiff g MMUFlags.RXW) (Z.land f MMUFlags.RXW)) in
      match ut_page (page_table st) p with
      | Some (pa, _) => ut_page (page_table st') p = Some (pa, new)
      | None => ut_page (page_table st') p = None ∨ ut_page (page_table st') p = Some (0, new)
      end).
Proof.
  intros Hinv Hl Ha Hlen Hw. destruct (protect_spec st v r i a len f Hinv Hl Ha Hlen Hw) as [?|(st' & ms' & E & Hi & _ & Hc & Hv & Hout & Hin)]; [by left|right].
  exists st'. by split_and!.
Qed.

(** [destroy] of a region takes the region and all below it out of use, and nothing but the
    addresses of its range: these are unmapped, in the regions and in the page table, and all
    others are as before. *)
Theorem vmar_destroy_exact st v r i :
  inv st → live (vmars st) v r i →
  ∃ st', destroy v st = (Ok tt, st') ∧ inv st' ∧ (∀ x, below (vmars st) v x → alive st' x = Err ZxError.BAD_STATE) ∧
    (∀ va inf, view (vmars st') va inf ↔ view (vmars st) va inf ∧ ¬ (addr r ≤ va < addr r + size r)) ∧
    (∀ p, ut_page (page_table st') p = if decide (addr r ≤ p * PAGE_SIZE < addr r + size r) then None else ut_page (page_table st) p).
Proof.
  intros Hinv Hl. destruct (destroy_spec st v r i Hinv Hl) as (st' & E & Hi & Hd & He & Hv). exists st'. split_and!; [done|done| |done|done].
  intros x Hb. destruct (below_live 0 _ v x Hb) as [_ (rx & ix & Hrx & _)]. unfold alive. by rewrite (Hd x rx Hb Hrx).
Qed.


(** C40. [check_user_range] terminates and accepts exactly the ranges all of whose bytes are
    mapped for user mode with flags that allow the access; otherwise it reports the reason at one
    of the bytes. *)
Theorem check_user_range_exact st v r i a len access :
  inv st → live (vmars st) v r i → 0 ≤ a → 0 ≤ len →
  match check_user_range st v a len access with
  | Ok _ => ∀ va, a ≤ va < a + len → allowed st v access va
  | Err e => ∃ va, a ≤ va < a + len ∧ ¬ allowed st v access va ∧ refused st v access va e
  | Panic => False
  end.
Proof.
  intros Hinv Hl Ha Hlen. pose proof (check_user_range_spec st v r i a len access Hinv Hl Ha Hlen) as Hc.
  destruct (check_user_range st v a len access) as [[]|e|]; [done| |done]. destruct Hc as (va & Hva & Hr). exists va. split_and!; [lia|lia| |done].
  intros (m & g & Hm & Hg & Hu & Hac). destruct Hr as [[_ Hn]|(_ & m' & g' & Hm' & Hg' & _ & Hn)]; [apply Hn; eauto|].
  rewrite (maps_at_unique _ v m' m va (i_tree _ Hinv) Hm' Hm) in Hg'. congruence.
Qed.
End props.

(** ** The memory objects of physical memory behind the interface
    Their pages are not bounded: see [Vmo.commit_page]. *)
Definition object (v : list VMObject) (o : nat) {A} (d : A) (f : VMObject → A) : A := from_option f d (v !! o).

#[export] Program Instance vmo_objects : VmObjects (list VMObject) := {|
  vo_len v o := object v o 0 vmo_len;
  vo_policy v o := object v o 0 (λ x, CachePolicy.as_u32 (cache_policy x));
  vo_bounded _ _ := false;
  vo_commit_page o k _ v := (object v o (Err ZxError.BAD_HANDLE) (λ x, commit_page x k), v);
  vo_commit_closure o k _ v := (object v o (Err ZxError.BAD_HANDLE) (λ x, commit_closure x k), v);
  vo_ok limit v := ∀ x, x ∈ v → vmo_wf x ∧ vmo_base x + vmo_len x ≤ limit
|}.
Next Obligation.
  intros limit v o Hok. unfold object. destruct (v !! o) as [x|] eqn:E; simpl; [|done].
  destruct (Hok x ltac:(by eapply list_elem_of_lookup_2)) as [Hw _]. pose proof (vmo_bounds x Hw). lia.
Qed.
Next Obligation.
  intros limit v o _. unfold object. destruct (v !! o) as [x|]; simpl; [|done]. by destruct (cache_policy x).
Qed.
Next Obligation.
  intros limit v o k f res v' Hok [= <- <-]. split_and!; [done|done|]. intros pa Hpa Hk [|Hlen]; [done|]. unfold object in *.
  destruct (v !! o) as [x|] eqn:E; simpl in *; [|done]. destruct (Hok x ltac:(by eapply list_elem_of_lookup_2)) as [Hw Hlim].
  destruct (vmo_bounds x Hw) as (B1 & B2 & B3 & B4). rewrite (commit_page_at x k Hw Hk) in Hpa by (unfold PAGE_SIZE in *; lia). simplify_eq.
  unfold PAGE_SIZE in *. split; [lia|]. rewrite Z.mod_add by lia. done.
Qed.
Next Obligation.
  intros limit v o k f res v' Hok [= <- <-]. split_and!; [done|done|]. intros pa Hpa Hk [|Hlen]; [done|]. unfold object in *.
  destruct (v !! o) as [x|] eqn:E; simpl in *; [|done]. destruct (Hok x ltac:(by eapply list_elem_of_lookup_2)) as [Hw Hlim].
  destruct (vmo_bounds x Hw) as (B1 & B2 & B3 & B4). destruct (commit_closure_at x k Hw Hk) as (base & Ec & (C1 & C2) & _); [unfold PAGE_SIZE in *; lia|].
  rewrite Ec in Hpa. simplify_eq. unfold PAGE_SIZE in *. split; [lia|]. rewrite Z.mod_add by lia. done.
Qed.

(** ** A concrete address space
    Two objects of physical memory in a space with an x86-64 table. *)
Module Space.
Import X86 X86Laws Demo.
#[export] Instance table : UserTable PageTableImpl := radix_table 4 level4.

Definition objs : list VMObject := [VMObjectPhysical 0x800000 16 CachePolicy.Cached; VMObjectPhysical 0x900000 4 CachePolicy.Uncached].
Definition s0 : aspace PageTableImpl (list VMObject) := new_root 0x100000 0x1000000 start objs.

(** A mapping of three pages, of which the second is unmapped and the first is made read-only; a
    subregion with a page of another object; a fault in the third page. *)
Definition o1 : vm_op := OMap 0 (Some 0x10000) 0 0x2000 0x3000 MMUFlags.RXW rw false true false.
Definition o2 : vm_op := OUnmap 0 0x111000 0x1000.
Definition o3 : vm_op := OProtect 0 0x110000 0x1000 MMUFlags.READ.
Definition o4 : vm_op := OAllocate 0 1 None 0x4000 0 0x1000.
Definition o5 : vm_op := OMap 1 None 1 0 0x1000 MMUFlags.RXW rw false false false.
Definition run (op : vm_op) (st : aspace PageTableImpl (list VMObject)) := snd (vm_exec op st).
Definition s1 := run o1 s0.
Definition s2 := run o2 s1.
Definition s3 := run o3 s2.
Definition s4 := run o4 s3.
Definition s5 := run o5 s4.

Lemma start_user_ok : ut_ok start.
Proof.
  destruct start_ok as [Hok Hn]. split; [done|]. intros va e k _ Et. specialize (Hn va). apply (translate_none 4 level4) in Hn. congruence.
Qed.

Lemma start_empty p : ut_page start p = None.
Proof. simpl. unfold user_page. destruct (decide _); [|done]. apply start_ok. Qed.

Lemma objs_ok : vo_ok ut_limit objs.
Proof. intros o Ho. unfold objs in Ho. repeat (apply elem_of_cons in Ho as [-> | Ho]; [by vm_compute|]). by apply elem_of_nil in Ho. Qed.

Lemma run_step op st : op_ok st op → is_ok (fst (vm_exec op st)) = true → vm_step st (run op st).
Proof.
  intros Hop Hr. unfold run. destruct (vm_exec op st) as [res st'] eqn:E. simpl in *. eapply vm_step_op; [done|done|]. by intros ->.
Qed.

(** A request that does not wrap, checked by evaluation. *)
Definition fits_in (st : aspace PageTableImpl (list VMObject)) (v : nat) (offset : option Z) (len : Z) : bool :=
  match vmars st !! v with
  | Some r => (0 <=? len) && match offset with Some o => (0 <=? o) && (addr r + o + len <? 2 ^ 64) | None => true end
  | None => true
  end.

Lemma fits_in_ok st v offset len : fits_in st v offset len = true → ∀ r, vmars st !! v = Some r → no_wrap r offset len.
Proof.
  unfold fits_in. intros Hf r Hr. rewrite Hr in Hf. destruct offset as [o|]; split; [lia| |lia|done]. intros y [= ->]. lia.
Qed.

(** Ids below [c], checked by evaluation. *)
Lemma ids_below (st : aspace PageTableImpl (list VMObject)) c : (max_id st <? c)%nat = true → ∀ x rx, vmars st !! x = Some rx → (x < c)%nat.
Proof. intros Hc%Nat.ltb_lt x rx Hx. pose proof (max_id_le st x rx Hx). lia. Qed.

Lemma step1 : vm_step s0 s1.
Proof. apply run_step; [|by vm_compute]. split_and!; [apply fits_in_ok; by vm_compute|done|done|done]. Qed.
Lemma step2 : vm_step s1 s2.
Proof. apply run_step; [by split_and!|by vm_compute]. Qed.
Lemma step3 : vm_step s2 s3.
Proof. apply run_step; [by split_and!|by vm_compute]. Qed.
Lemma step4 : vm_step s3 s4.
Proof. apply run_step; [|by vm_compute]. split_and!; [apply ids_below; by vm_compute|apply fits_in_ok; by vm_compute|done|done]. Qed.
Lemma step5 : vm_step s4 s5.
Proof. apply run_step; [|by vm_compute]. split_and!; [apply fits_in_ok; by vm_compute|done|done|done]. Qed.

Lemma reached : rtc vm_step s0 s5.
Proof. eapply rtc_l; [apply step1|]. eapply rtc_l; [apply step2|]. eapply rtc_l; [apply step3|]. eapply rtc_l; [apply step4|]. apply rtc_once, step5. Qed.


Lemma s0_inv : inv s0.
Proof. apply new_root_inv; [done|done|by vm_compute|done|done|apply start_user_ok|apply start_empty|apply objs_ok]. Qed.
Lemma s1_inv : inv s1.
Proof. eapply step_inv; [apply s0_inv|apply step1]. Qed.
Lemma s5_inv : inv s5.
Proof. eapply reachable_inv; [apply s0_inv|apply reached]. Qed.

(** A region of a concrete state. *)
Definition region_of (st : aspace PageTableImpl (list VMObject)) (v : nat) : VmAddressRegion := default (mkVmar 0 0 0 None None) (vmars st !! v).
Definition inner_of (st : aspace PageTableImpl (list VMObject)) (v : nat) : VmarInner := default (mkInner [] []) (inner (region_of st v)).

Lemma live_of st v : is_ok (alive st v) = true → live (vmars st) v (region_of st v) (inner_of st v).
Proof.
  unfold alive, live, inner_of, region_of. destruct (vmars st !! v) as [r|]; [|done]. simpl. by destruct (inner r).
Qed.

Definition m1 : VmMapping := Eval vm_compute in List.hd (m_new 0 0 0 0 0 0 0) (mappings (inner_of s1 0)).

Lemma s1_inner : inner_of s1 0 = mkInner [] [m1].
Proof. by vm_compute. Qed.

Lemma vmar_unmap_exact_witness :
  view (vmars s1) 0x112000 (0%nat, 0x4000, MMUFlags.RXW, Some rw) ∧
  ∃ st', unmap 0 0x111000 0x1000 s1 = (Ok tt, st') ∧ inv st' ∧
    (∀ va inf, view (vmars st') va inf ↔ view (vmars s1) va inf ∧
      ¬ (0x111000 ≤ va < 0x111000 + 0x1000 ∧ addr (region_of s1 0) ≤ va < addr (region_of s1 0) + size (region_of s1 0))) ∧
    (∀ p, ut_page (page_table st') p =
       if decide (0x111000 ≤ p * PAGE_SIZE < 0x111000 + 0x1000 ∧ addr (region_of s1 0) ≤ p * PAGE_SIZE < addr (region_of s1 0) + size (region_of s1 0))
       then None else ut_page (page_table s1) p).
Proof.
  split.
  - exists 0%nat, (region_of s1 0), (inner_of s1 0), m1. split; [apply live_of; by vm_compute|]. split; [rewrite s1_inner; by left|]. split; by vm_compute.
  - apply (vmar_unmap_exact s1 0 (region_of s1 0) (inner_of s1 0) 0x111000 0x1000); [apply s1_inv|apply live_of; by vm_compute|done|done|done|done|done|].
    intros c rc Hc. rewrite s1_inner in Hc. destruct (not_elem_of_nil c Hc).
Defined.

(** The mapping is placed at the offset that was asked for, where nothing was mapped, and its pages are in the table. *)
Lemma vmar_map_exact_witness :
  ∃ st', map_ext 0 (Some 0x10000) 0 0x2000 0x3000 MMUFlags.RXW rw false true false s0 = (Ok 0x110000, st') ∧
    (∀ va inf, 0x110000 ≤ va < 0x113000 → ¬ view (vmars s0) va inf) ∧
    (∀ va, 0x110000 ≤ va < 0x113000 → view (vmars st') va (0%nat, 0x2000 + (va - 0x110000), MMUFlags.RXW, Some (Z.lor rw (vo_policy (vmos s0) 0)))) ∧
    ∃ pa, ut_page (page_table st') 0x112 = Some (pa, ut_norm (Z.lor rw (vo_policy (vmos s0) 0))).
Proof.
  destruct (vmar_map_exact s0 0 (region_of s0 0) (inner_of s0 0) (Some 0x10000) 0 0x2000 0x3000 MMUFlags.RXW rw false true false) as (res & st' & E & Hres);
    [apply s0_inv|apply live_of; by vm_compute|apply (fits_in_ok s0 0); by vm_compute|done|done|done|].
  assert (res = Ok 0x110000) as -> by (apply (f_equal fst) in E; vm_compute in E; exact (eq_sym E)).
  exists st'. split; [exact E|]. destruct Hres as (_ & _ & _ & _ & Hnew & Hv & Hp & _). split; [by apply Hnew|]. split.
  - intros va Hva. apply Hv. rewrite decide_True by lia. done.
  - apply Hp; [unfold PAGE_SIZE; lia|done].
Defined.

Lemma vmar_protect_exact_witness :
  ∃ st' g pa old, protect 0 0x110000 0x2000 MMUFlags.READ s1 = (Ok tt, st') ∧ inv st' ∧
    ut_page (page_table s1) 0x110 = Some (pa, old) ∧ ut_page (page_table st') 0x110 = Some (pa, ut_norm (Z.lor (Z.ldiff g MMUFlags.RXW) (Z.land MMUFlags.READ MMUFlags.RXW))) ∧
    ut_page (page_table st') 0x112 = ut_page (page_table s1) 0x112.
Proof.
  destruct (vmar_protect_exact s1 0 (region_of s1 0) (inner_of s1 0) 0x110000 0x2000 MMUFlags.READ) as [(e & E)|(st' & E & Hi & _ & _ & Hout & Hin)];
    [apply s1_inv|apply live_of; by vm_compute|done|done|done|exfalso; apply (f_equal fst) in E; vm_compute in E; discriminate|].
  destruct (Hin 0x110) as (o & off & perms & g & _ & Hp); [unfold PAGE_SIZE; lia|]. cbv zeta in Hp.
  destruct (ut_page (page_table s1) 0x110) as [[pa old]|] eqn:Ep; [|exfalso; vm_compute in Ep; discriminate].
  exists st', g, pa, old. split_and!; [exact E|exact Hi|done|exact Hp|]. apply Hout. unfold PAGE_SIZE. lia.
Defined.

Lemma vmar_destroy_exact_witness :
  ∃ st', destroy 1 s5 = (Ok tt, st') ∧ inv st' ∧ (∀ x, below (vmars s5) 1 x → alive st' x = Err ZxError.BAD_STATE) ∧
    (∀ va inf, view (vmars st') va inf ↔ view (vmars s5) va inf ∧ ¬ (addr (region_of s5 1) ≤ va < addr (region_of s5 1) + size (region_of s5 1))) ∧
    (∀ p, ut_page (page_table st') p =
      if decide (addr (region_of s5 1) ≤ p * PAGE_SIZE < addr (region_of s5 1) + size (region_of s5 1)) then None else ut_page (page_table s5) p).
Proof. apply (vmar_destroy_exact s5 1 (region_of s5 1) (inner_of s5 1)); [apply s5_inv|apply live_of; by vm_compute]. Defined.


Lemma check_user_range_exact_witness :
  check_user_range s5 0 0x110ff0 0x20 MMUFlags.READ = Err ZxError.NOT_FOUND ∧
  match check_user_range s5 0 0x110ff0 0x20 MMUFlags.READ with
  | Ok _ => ∀ va, 0x110ff0 ≤ va < 0x110ff0 + 0x20 → allowed s5 0 MMUFlags.READ va
  | Err e => ∃ va, 0x110ff0 ≤ va < 0x110ff0 + 0x20 ∧ ¬ allowed s5 0 MMUFlags.READ va ∧ refused s5 0 MMUFlags.READ va e
  | Panic => False
  end.
Proof.
  split; [by vm_compute|]. apply (check_user_range_exact s5 0 (region_of s5 0) (inner_of s5 0)); [apply s5_inv|apply live_of; by vm_compute|done|done].
Defined.
End Space.
