(* ===== verification/VmarSyscall.v ===== *)
(** * System calls on address regions

    [zircon-syscall/src/vmar.rs]: what the options of the calls mean, the handles and rights that
    they ask for, and the operations of [Vmar] that they run.  The koid of a region or object is
    its number in the address space. *)

From stdpp Require Import strings options.
From S2P Require Import Prelude Errors KObject Rights Handles PageTable Vmo Vmar VmarProps.
#[local] Open Scope Z_scope.

Module VmOptions.
Definition PERM_READ : Z := bit 0.
Definition PERM_WRITE : Z := bit 1.
Definition PERM_EXECUTE : Z := bit 2.
Definition COMPACT : Z := bit 3.
Definition SPECIFIC : Z := bit 4.
Definition SPECIFIC_OVERWRITE : Z := bit 5.
Definition CAN_MAP_SPECIFIC : Z := bit 6.
Definition CAN_MAP_READ : Z := bit 7.
Definition CAN_MAP_WRITE : Z := bit 8.
Definition CAN_MAP_EXECUTE : Z := bit 9.
Definition MAP_RANGE : Z := bit 10.
Definition REQUIRE_NON_RESIZABLE : Z := bit 11.
Definition ALLOW_FAULTS : Z := bit 12.
Definition PERM_READ_IF_XOM_UNSUPPORTED : Z := bit 14.
Definition CAN_MAP_RXW : Z := Eval vm_compute in Z.lor CAN_MAP_READ (Z.lor CAN_MAP_EXECUTE CAN_MAP_WRITE).
Definition PERM_RXW : Z := Eval vm_compute in Z.lor PERM_READ (Z.lor PERM_WRITE PERM_EXECUTE).
Definition all : Z := Eval vm_compute in Z.lor (Z.ones 13) PERM_READ_IF_XOM_UNSUPPORTED.

(** [insert] if the condition holds. *)
Definition insert_if (b : bool) (f flags : Z) : Z := if b then Z.lor flags f else flags.

Definition to_rights (o : Z) : Z :=
  insert_if (contains o CAN_MAP_EXECUTE) Rights.EXECUTE
    (insert_if (contains o CAN_MAP_WRITE) Rights.WRITE (insert_if (contains o CAN_MAP_READ) Rights.READ 0)).

Definition to_required_rights (o : Z) : Z :=
  insert_if (contains o PERM_EXECUTE) Rights.EXECUTE
    (insert_if (contains o PERM_WRITE) Rights.WRITE
      (insert_if (intersects o (Z.lor PERM_READ PERM_READ_IF_XOM_UNSUPPORTED)) Rights.READ 0)).

Definition to_flags (o : Z) : Z :=
  insert_if (contains o ALLOW_FAULTS) VmarFlags.ALLOW_FAULTS
  (insert_if (contains o REQUIRE_NON_RESIZABLE) VmarFlags.REQUIRE_NON_RESIZABLE
  (insert_if (contains o CAN_MAP_EXECUTE) VmarFlags.CAN_MAP_EXECUTE
  (insert_if (contains o CAN_MAP_WRITE) VmarFlags.CAN_MAP_WRITE
  (insert_if (contains o CAN_MAP_READ) VmarFlags.CAN_MAP_READ
  (insert_if (contains o CAN_MAP_SPECIFIC) VmarFlags.CAN_MAP_SPECIFIC
  (insert_if (contains o SPECIFIC_OVERWRITE) VmarFlags.SPECIFIC_OVERWRITE
  (insert_if (contains o SPECIFIC) VmarFlags.SPECIFIC
  (insert_if (contains o COMPACT) VmarFlags.COMPACT 0)))))))).
End VmOptions.

Definition PAGE_SIZE_LOG2 : Z := 12.

Definition amount_of_alignments (options : Z) : ZxResult Z :=
  let align_pow2 := Z.shiftr options 24 in
  let align_pow2 := if align_pow2 =? 0 then PAGE_SIZE_LOG2 else align_pow2 in
  if negb ((PAGE_SIZE_LOG2 <=? align_pow2) && (align_pow2 <=? 32)) then Err ZxError.INVALID_ARGS
  else Ok (Z.shiftl 1 align_pow2).

(** The number of an object. *)
Definition num (o : KernelObject) : nat := Z.to_nat (obj_id o).
Definition VMAR : string := "VmAddressRegion"%string.
Definition VMO : string := "VmObject"%string.

Section calls.
Context {P V : Type} `{UserTable P} `{VmObjects V}.
Implicit Types (st : aspace P V) (t : HandleTable).

(** The checks of [sys_vmar_allocate]: the parent, the rights, the flags, the alignment, the
    offset and the size. *)
Definition allocate_request (parent_vmar options offset size : Z) t : ZxResult (nat * Z * Z * Z * option Z * Z) :=
  let? vm_options := ok_or (from_bits VmOptions.all options) ZxError.INVALID_ARGS in
  let perm_rights := VmOptions.to_rights vm_options in
  let? parent := get_object_with_rights VMAR parent_vmar perm_rights t in
  if intersects vm_options (Z.lor VmOptions.PERM_RXW VmOptions.MAP_RANGE) then Err ZxError.INVALID_ARGS
  else
    let vmar_flags := VmOptions.to_flags vm_options in
    if negb (Z.ldiff vmar_flags (Z.lor VmarFlags.SPECIFIC (Z.lor VmarFlags.CAN_MAP_SPECIFIC (Z.lor VmarFlags.COMPACT VmarFlags.CAN_MAP_RXW))) =? 0)
    then Err ZxError.INVALID_ARGS
    else
      let? align := amount_of_alignments options in
      let? offset :=
        if contains vm_options VmOptions.SPECIFIC then Ok (Some offset)
        else if contains vm_options VmOptions.SPECIFIC_OVERWRITE then Panic
        else if negb (offset =? 0) then Err ZxError.INVALID_ARGS else Ok None in
      let size := roundup_pages size in
      if size =? 0 then Err ZxError.INVALID_ARGS else Ok (num parent, perm_rights, vmar_flags, align, offset, size).

(** [sys_vmar_allocate]; [c] is the number of the new region, [out] the outcomes of the writes to
    user memory. *)
Definition sys_vmar_allocate (parent_vmar options offset size : Z) (c : nat) (out1 out2 : option UserError.t) t st :
    ZxResult (HandleValue * Z) * HandleTable * aspace P V :=
  match allocate_request parent_vmar options offset size t with
  | Ok (v, perm_rights, vmar_flags, align, offset, size) =>
      match allocate v c offset size vmar_flags align st with
      | (Ok _, st) =>
          let child_addr := from_option addr 0 (vmars st !! c) in
          let '(child_handle, t) := add_handle (mkHandle (mkKernelObject (Z.of_nat c) VMAR 0) (Z.lor Rights.DEFAULT_VMAR perm_rights)) t in
          (let? _ := write_out out1 in let? _ := write_out out2 in Ok (child_handle, child_addr), t, st)
      | (Err e, st) => (Err e, t, st)
      | (Panic, st) => (Panic, t, st)
      end
  | Err e => (Err e, t, st)
  | Panic => (Panic, t, st)
  end.

(** The access that the rights on an object and the options of a call stand for. *)
Definition rights_access (r : Z) : Z :=
  VmOptions.insert_if (contains r Rights.EXECUTE) MMUFlags.EXECUTE
    (VmOptions.insert_if (contains r Rights.WRITE) MMUFlags.WRITE (VmOptions.insert_if (contains r Rights.READ) MMUFlags.READ 0)).
Definition options_access (o : Z) : Z :=
  VmOptions.insert_if (contains o VmOptions.PERM_EXECUTE) MMUFlags.EXECUTE
    (VmOptions.insert_if (contains o VmOptions.PERM_WRITE) MMUFlags.WRITE
      (VmOptions.insert_if (intersects o (Z.lor VmOptions.PERM_READ VmOptions.PERM_READ_IF_XOM_UNSUPPORTED)) MMUFlags.READ MMUFlags.USER)).

(** The checks of [sys_vmar_map]: the region, the object, the offset, the length, the permissions
    and flags, and whether to overwrite, to map at once and to allow faults.  [hosted] is the
    [cfg!] condition, [resizable] the flag of the objects. *)
Definition map_request (hosted : bool) (resizable : nat → bool) (vmar_handle options vmar_offset vmo_handle len : Z) t :
    ZxResult (nat * nat * option Z * Z * Z * Z * bool * bool * bool) :=
  let? options := ok_or (from_bits VmOptions.all options) ZxError.INVALID_ARGS in
  let? (vmar, vmar_rights) := get_object_and_rights VMAR vmar_handle t in
  let? (vmo, vmo_rights) := get_object_and_rights VMO vmo_handle t in
  if negb (contains vmo_rights Rights.MAP) then Err ZxError.ACCESS_DENIED
  else if intersects options (Z.lor VmOptions.CAN_MAP_RXW (Z.lor VmOptions.CAN_MAP_SPECIFIC VmOptions.COMPACT)) then Err ZxError.INVALID_ARGS
  else if contains options VmOptions.REQUIRE_NON_RESIZABLE && resizable (num vmo) then Err ZxError.NOT_SUPPORTED
  else
    let is_specific := contains options VmOptions.SPECIFIC || contains options VmOptions.SPECIFIC_OVERWRITE in
    if negb is_specific && negb (vmar_offset =? 0) then Err ZxError.INVALID_ARGS
    else if negb (contains vmar_rights (VmOptions.to_required_rights options)) then Err ZxError.ACCESS_DENIED
    else
      let mapping_flags := options_access options in
      let overwrite := contains options VmOptions.SPECIFIC_OVERWRITE in
      let map_range := if hosted then intersects mapping_flags MMUFlags.RXW else contains options VmOptions.MAP_RANGE in
      if contains options VmOptions.MAP_RANGE && overwrite then Err ZxError.INVALID_ARGS
      else
        let len := roundup_pages len in
        if len =? 0 then Err ZxError.INVALID_ARGS
        else Ok (num vmar, num vmo, if is_specific then Some vmar_offset else None, len, rights_access vmo_rights, mapping_flags, overwrite, map_range,
                 contains options VmOptions.ALLOW_FAULTS).

Definition sys_vmar_map (hosted : bool) (resizable : nat → bool) (vmar_handle options vmar_offset vmo_handle vmo_offset len : Z)
    (out : option UserError.t) t st : ZxResult Z * aspace P V :=
  match map_request hosted resizable vmar_handle options vmar_offset vmo_handle len t with
  | Ok (v, o, vmar_offset, len, permissions, mapping_flags, overwrite, map_range, allow_faults) =>
      let '(res, st) := map_ext v vmar_offset o vmo_offset len permissions mapping_flags overwrite map_range allow_faults st in
      (let? vaddr := res in let? _ := write_out out in Ok vaddr, st)
  | Err e => (Err e, st)
  | Panic => (Panic, st)
  end.

Definition sys_vmar_destroy (handle_value : Z) t st : ZxResult unit * aspace P V :=
  match get_object VMAR handle_value t with
  | Ok vmar => destroy (num vmar) st
  | Err e => (Err e, st)
  | Panic => (Panic, st)
  end.

Definition protect_request (handle_value options len : Z) t : ZxResult (nat * Z * Z) :=
  let? options := ok_or (from_bits VmOptions.all options) ZxError.INVALID_ARGS in
  let? vmar := get_object_with_rights VMAR handle_value (VmOptions.to_required_rights options) t in
  if negb (Z.ldiff options VmOptions.PERM_RXW =? 0) then Err ZxError.INVALID_ARGS
  else
    let mapping_flags :=
      VmOptions.insert_if (contains options VmOptions.PERM_EXECUTE) MMUFlags.EXECUTE
        (VmOptions.insert_if (contains options VmOptions.PERM_WRITE) MMUFlags.WRITE
          (VmOptions.insert_if (contains options VmOptions.PERM_READ) MMUFlags.READ 0)) in
    let len := roundup_pages len in
    if len =? 0 then Err ZxError.INVALID_ARGS else Ok (num vmar, len, mapping_flags).

Definition sys_vmar_protect (handle_value options a len : Z) t st : ZxResult unit * aspace P V :=
  match protect_request handle_value options len t with
  | Ok (v, len, f) => protect v a len f st
  | Err e => (Err e, st)
  | Panic => (Panic, st)
  end.

Definition sys_vmar_unmap (handle_value a len : Z) t st : ZxResult unit * aspace P V :=
  match get_object VMAR handle_value t with
  | Ok vmar => unmap (num vmar) a (pages len *u PAGE_SIZE) st
  | Err e => (Err e, st)
  | Panic => (Panic, st)
  end.

(** The access bits and the rights that go with them. *)
Definition access_rights : list (Z * Z) :=
  [(MMUFlags.READ, Rights.READ); (MMUFlags.WRITE, Rights.WRITE); (MMUFlags.EXECUTE, Rights.EXECUTE)].

Lemma rights_access_sound rg acc rt : (acc, rt) ∈ access_rights → contains (rights_access rg) acc = true → contains rg rt = true.
Proof.
  unfold access_rights, rights_access, VmOptions.insert_if. intros Hin.
  destruct (contains rg Rights.EXECUTE) eqn:Ex, (contains rg Rights.WRITE) eqn:Ew, (contains rg Rights.READ) eqn:Er;
    repeat (apply elem_of_cons in Hin as [[= -> ->] | Hin]; [done|]); by apply elem_of_nil in Hin.
Qed.

Lemma options_access_sound o p acc rt : 0 ≤ p < 4 → (acc, rt) ∈ access_rights → contains (Z.lor (options_access o) p) acc = true →
  contains (VmOptions.to_required_rights o) rt = true ∧ contains (Z.land (options_access o) MMUFlags.RXW) acc = true.
Proof.
  unfold access_rights, options_access, VmOptions.to_required_rights, VmOptions.insert_if. intros Hp Hin.
  assert (p = 0 ∨ p = 1 ∨ p = 2 ∨ p = 3) as [-> | [-> | [-> | ->]]] by lia;
    destruct (contains o VmOptions.PERM_EXECUTE), (contains o VmOptions.PERM_WRITE), (intersects o _);
    repeat (apply elem_of_cons in Hin as [[= -> ->] | Hin]; [done|]); by apply elem_of_nil in Hin.
Qed.

Lemma contains_trans a b c : contains a b = true → contains b c = true → contains a c = true.
Proof. rewrite !contains_spec. auto. Qed.

Lemma options_user o : contains (options_access o) MMUFlags.USER = true.
Proof.
  unfold options_access, VmOptions.insert_if.
  by destruct (contains o VmOptions.PERM_EXECUTE), (contains o VmOptions.PERM_WRITE), (intersects o _).
Qed.

(** A successful [map_ext] passed its guards. *)
Lemma map_ext_guards v offset o off len perms f overwrite map_range allow st a st' :
  map_ext v offset o off len perms f overwrite map_range allow st = (Ok a, st') →
  contains perms (Z.land f MMUFlags.RXW) = true ∧ ∃ r i, live (vmars st) v r i.
Proof.
  unfold map_ext. intros E. destruct (negb _ || _ || _); [done|]. destruct (contains perms _) eqn:Hp; [|done]. split; [done|].
  simpl in E. destruct (_ && _); [done|]. destruct (alive_cases st v) as [(r & i & Hl & _)|(e & Ev)]; [by exists r, i|]. by rewrite Ev in E.
Qed.

Lemma roundup_nonneg (n : Z) : 0 ≤ roundup_pages n.
Proof. unfold roundup_pages, wmul, wrap. apply Z.mod_pos_bound. done. Qed.

Lemma map_request_spec hosted resizable hv options voff ho len t v o offset len' perms f ov mr al :
  map_request hosted resizable hv options voff ho len t = Ok (v, o, offset, len', perms, f, ov, mr, al) →
  ∃ vmar vmar_rights vmo vmo_rights,
    get_object_and_rights VMAR hv t = Ok (vmar, vmar_rights) ∧ get_object_and_rights VMO ho t = Ok (vmo, vmo_rights) ∧
    contains vmo_rights Rights.MAP = true ∧ contains vmar_rights (VmOptions.to_required_rights options) = true ∧
    v = num vmar ∧ o = num vmo ∧ (offset = None ∨ offset = Some voff) ∧ len' = roundup_pages len ∧ perms = rights_access vmo_rights ∧
    f = options_access options ∧ al = contains options VmOptions.ALLOW_FAULTS.
Proof.
  unfold map_request. intros Hc. apply rbind_Ok in Hc as (opts & Hopt & Hc). apply ok_or_Ok, from_bits_Some in Hopt as [-> _].
  apply rbind_Ok in Hc as ([vmar vr] & Hvmar & Hc). apply rbind_Ok in Hc as ([vmo wr] & Hvmo & Hc).
  destruct (contains wr Rights.MAP) eqn:Hmap; [|done]. cbn [negb] in Hc. destruct (intersects options _); [done|]. destruct (_ && resizable _); [done|].
  destruct (negb (contains options VmOptions.SPECIFIC || _) && _); [done|]. destruct (contains vr _) eqn:Hreq; [|done]. cbn [negb] in Hc.
  destruct (contains options VmOptions.MAP_RANGE && _); [done|]. destruct (roundup_pages len =? 0); [done|]. simplify_eq.
  exists vmar, vr, vmo, wr. split_and!; try done. destruct (contains options VmOptions.SPECIFIC || _); [by right|by left].
Qed.

(** A successful [sys_vmar_map] had a handle to the region with the rights for the access
    that it asks for, and a handle to the object that may be mapped and has these rights, too;
    the addresses of the mapping then stand for the object with at most this access, and with
    permissions that are the rights of the handle to the object, which bound what [protect] may
    allow later. *)
Theorem sys_vmar_map_rights hosted resizable hv options voff ho off len out t st a st' :
  inv st → 0 ≤ off → 0 ≤ voff → (∀ v r, vmars st !! v = Some r → addr r + voff + roundup_pages len < 2 ^ 64) →
  (∀ o, contains options VmOptions.ALLOW_FAULTS = true → vo_bounded (vmos st) o = true) →
  sys_vmar_map hosted resizable hv options voff ho off len out t st = (Ok a, st') →
  ∃ vmar vmar_rights vmo vmo_rights,
    get_object_and_rights VMAR hv t = Ok (vmar, vmar_rights) ∧ get_object_and_rights VMO ho t = Ok (vmo, vmo_rights) ∧
    contains vmo_rights Rights.MAP = true ∧ inv st' ∧
    ∀ va, a ≤ va < a + roundup_pages len →
      ∃ g, view (vmars st') va (num vmo, off + (va - a), rights_access vmo_rights, Some g) ∧
        ∀ acc rt, (acc, rt) ∈ access_rights → contains g acc = true → contains vmar_rights rt = true ∧ contains vmo_rights rt = true.
Proof.
  intros Hinv Hoff Hvoff Hw Hallow E. unfold sys_vmar_map in E.
  destruct (map_request hosted resizable hv options voff ho len t) as [[[[[[[[[v o] offset] len'] perms] f] ov] mr] al]|e|] eqn:Er; [|done|done].
  destruct (map_request_spec _ _ _ _ _ _ _ _ _ _ _ _ _ _ _ _ _ Er) as (vmar & vr & vmo & wr & Hvmar & Hvmo & Hmap & Hreq & -> & -> & Hofs & -> & -> & -> & ->).
  destruct (map_ext _ _ _ _ _ _ _ _ _ _ st) as [res st1] eqn:Em. injection E as E ->. apply rbind_Ok in E as (a' & -> & E).
  apply rbind_Ok in E as (_ & _ & E). simplify_eq. destruct (map_ext_guards _ _ _ _ _ _ _ _ _ _ _ _ _ Em) as (Hguard & r & i & Hl).
  assert (no_wrap r offset (roundup_pages len)) as Hnw.
  { pose proof (roundup_nonneg len). split; [done|]. intros y Hy. specialize (Hw _ r (proj1 Hl)). destruct Hofs as [-> | ->]; simplify_eq. done. }
  destruct (map_ext_spec st (num vmar) r i offset (num vmo) off (roundup_pages len) (rights_access wr) (options_access options) ov mr
    (contains options VmOptions.ALLOW_FAULTS) Hinv Hl Hnw Hoff (options_user options) (Hallow (num vmo))) as (res & st2 & Em2 & Hi & Hres).
  rewrite Em in Em2. simplify_eq. destruct Hres as [M _].
  exists vmar, vr, vmo, wr. split_and!; [done|done|done|by apply Hi|]. intros va Hva.
  eexists. split; [apply (md_view _ _ _ _ _ _ _ _ _ _ _ _ _ M); by rewrite decide_True|].
  intros acc rt Hin Hg. destruct (options_access_sound options _ acc rt (vo_policy_bits _ _ _ (i_vmos _ Hinv)) Hin Hg) as [H1 H2].
  split; [by eapply contains_trans|]. apply (rights_access_sound wr acc rt Hin). by eapply contains_trans.
Qed.

(** All options below bit 24, so that the alignment is always that of a page. *)
Lemma options_align options : contains VmOptions.all options = true → Z.shiftr options 24 = 0.
Proof.
  rewrite contains_spec. intros Ho. apply Z.bits_inj'. intros k Hk. rewrite Z.shiftr_spec, Z.bits_0 by done.
  destruct (Z.testbit options (k + 24)) eqn:Eb; [|done]. apply Ho in Eb; [|lia].
  rewrite Z.bits_above_log2 in Eb; [done|done|]. change (Z.log2 VmOptions.all) with 14. lia.
Qed.

Lemma allocate_request_spec hp options offset size t v perms vflags align ofs sz :
  allocate_request hp options offset size t = Ok (v, perms, vflags, align, ofs, sz) →
  ∃ parent pr, get_object_and_rights VMAR hp t = Ok (parent, pr) ∧ contains pr perms = true ∧ v = num parent ∧ perms = VmOptions.to_rights options ∧
    align = PAGE_SIZE ∧ (ofs = None ∨ ofs = Some offset) ∧ sz = roundup_pages size.
Proof.
  unfold allocate_request. intros Hc. apply rbind_Ok in Hc as (opts & Hopt & Hc). apply ok_or_Ok, from_bits_Some in Hopt as [-> Hall].
  apply rbind_Ok in Hc as (parent & Hpar & Hc). unfold get_object_with_rights in Hpar. apply rbind_Ok in Hpar as ([o pr] & Hd & Hpar).
  apply rbind_Ok in Hpar as (o' & Hdown & Hpar). destruct (contains pr (VmOptions.to_rights options)) eqn:Hpr; [|done]. cbn [negb] in Hpar. injection Hpar as ->.
  cbv zeta in Hc. destruct (intersects options _); [done|]. destruct (negb (_ =? 0)); [done|]. apply rbind_Ok in Hc as (al & Hal & Hc). apply rbind_Ok in Hc as (ofs' & Hofs & Hc).
  destruct (roundup_pages size =? 0); [done|]. injection Hc as <- <- <- <- <- <-. exists parent, pr. split_and!; [|done|done|done| | |done].
  - unfold get_object_and_rights. rewrite Hd. simpl. by rewrite Hdown.
  - unfold amount_of_alignments in Hal. rewrite (options_align options Hall) in Hal. by injection Hal as <-.
  - repeat (case_match; simplify_eq); auto.
Qed.

Lemma to_rights_sound o acc rt : (acc, rt) ∈ access_rights → contains (Z.lor Rights.DEFAULT_VMAR (VmOptions.to_rights o)) rt = true → contains (VmOptions.to_rights o) rt = true.
Proof.
  unfold access_rights, VmOptions.to_rights, VmOptions.insert_if. intros Hin.
  destruct (contains o VmOptions.CAN_MAP_EXECUTE), (contains o VmOptions.CAN_MAP_WRITE), (contains o VmOptions.CAN_MAP_READ);
    repeat (apply elem_of_cons in Hin as [[= -> ->] | Hin]; [done|]); by apply elem_of_nil in Hin.
Qed.

(** A successful [sys_vmar_allocate] makes a region within the parent, in a range in which
    nothing is mapped and no other region lies, and changes no mapping; the handle to it has no
    more rights to map memory than the handle to the parent. *)
Theorem sys_vmar_allocate_rights hp options offset size c out1 out2 t st h a t' st' :
  inv st → (∀ x rx, vmars st !! x = Some rx → (x < c)%nat) → 0 ≤ offset →
  (∀ v r, vmars st !! v = Some r → addr r + offset + roundup_pages size < 2 ^ 64) →
  sys_vmar_allocate hp options offset size c out1 out2 t st = (Ok (h, a), t', st') →
  ∃ parent pr r i rc child_rights,
    get_object_and_rights VMAR hp t = Ok (parent, pr) ∧ live (vmars st) (num parent) r i ∧ inv st' ∧
    vmars st' !! c = Some rc ∧ addr rc = a ∧ Vmar.size rc = roundup_pages size ∧ free_in (vmars st) r i a (roundup_pages size) ∧
    (∀ va inf, view (vmars st') va inf ↔ view (vmars st) va inf) ∧
    get_object_and_rights VMAR h t' = Ok (mkKernelObject (Z.of_nat c) VMAR 0, child_rights) ∧
    ∀ acc rt, (acc, rt) ∈ access_rights → contains child_rights rt = true → contains pr rt = true.
Proof.
  intros Hinv Hc Ho Hw E. unfold sys_vmar_allocate in E.
  destruct (allocate_request hp options offset size t) as [[[[[[v perms] vflags] align] ofs] sz]|e|] eqn:Er; [|done|done].
  destruct (allocate_request_spec _ _ _ _ _ _ _ _ _ _ _ Er) as (parent & pr & Hpar & Hpr & -> & -> & -> & Hofs & ->).
  destruct (alive_cases st (num parent)) as [(r & i & Hl & _)|(e & Ev)].
  2:{ unfold allocate in E. rewrite Ev in E. done. }
  assert (no_wrap r ofs (roundup_pages size)) as Hnw.
  { pose proof (roundup_nonneg size). split; [done|]. intros y Hy. specialize (Hw _ r (proj1 Hl)). destruct Hofs as [-> | ->]; simplify_eq. done. }
  destruct (allocate_spec (num parent) r i c ofs (roundup_pages size) vflags PAGE_SIZE st Hinv Hl Hc Hnw eq_refl eq_refl)
    as [(e & Ea)|(o & st1 & Ea & Hi & _ & Hfree & _ & Hrc & Hview)]; rewrite Ea in E; [done|].
  rewrite Hrc in E. simpl in E. injection E as E <- <-. apply rbind_Ok in E as (_ & _ & E). apply rbind_Ok in E as (_ & _ & E). simplify_eq.
  eexists parent, pr, r, i, _, _. split_and!; [done|done|done|exact Hrc|done|done|done|done| |].
  - unfold get_object_and_rights, get_dyn_object_and_rights, get_handle. simpl. by rewrite lookup_insert_eq.
  - intros acc rt Hin Hcr. eapply contains_trans; [done|]. by eapply to_rights_sound.
Qed.
End calls.

(** ** The calls in a concrete process
    Its handles are to the root region, to a memory object that may be read and written, and to
    the region without the right to map memory for writing. *)
Module Proc.
Import Space Demo.
Definition all_access : Z := Eval vm_compute in Z.lor Rights.DEFAULT_VMAR (Z.lor Rights.READ (Z.lor Rights.WRITE Rights.EXECUTE)).
Definition read_only : Z := Eval vm_compute in Z.lor Rights.DEFAULT_VMAR Rights.READ.
Definition root_object : KernelObject := mkKernelObject 0 VMAR 0.
Definition tbl : HandleTable :=
  snd (add_handles [mkHandle root_object all_access; mkHandle (mkKernelObject 0 VMO 0) Rights.DEFAULT_VMO; mkHandle root_object read_only] empty_table).
Definition rw_options : Z := Eval vm_compute in Z.lor VmOptions.PERM_READ (Z.lor VmOptions.PERM_WRITE VmOptions.SPECIFIC).

Lemma pair_fst {A B} (p : A * B) x : fst p = x → p = (x, snd p).
Proof. by destruct p; intros <-. Qed.

Lemma s0_region v r : vmars s0 !! v = Some r → addr r = 0x100000.
Proof. unfold s0, new_root. simpl. by intros [_ <-]%lookup_singleton_Some. Qed.

Definition mapped_state := snd (sys_vmar_map true (λ _, false) 3 rw_options 0x10000 7 0x2000 0x2345 None tbl s0).

Lemma sys_vmar_map_rights_witness :
  fst (sys_vmar_map true (λ _, false) 11 rw_options 0x10000 7 0x2000 0x2345 None tbl s0) = Err ZxError.ACCESS_DENIED ∧
  ∃ vmar vmar_rights vmo vmo_rights,
    get_object_and_rights VMAR 3 tbl = Ok (vmar, vmar_rights) ∧ get_object_and_rights VMO 7 tbl = Ok (vmo, vmo_rights) ∧
    contains vmo_rights Rights.MAP = true ∧ inv mapped_state ∧
    ∀ va, 0x110000 ≤ va < 0x110000 + roundup_pages 0x2345 →
      ∃ g, view (vmars mapped_state) va (num vmo, 0x2000 + (va - 0x110000), rights_access vmo_rights, Some g) ∧
        ∀ acc rt, (acc, rt) ∈ access_rights → contains g acc = true → contains vmar_rights rt = true ∧ contains vmo_rights rt = true.
Proof.
  split; [by vm_compute|].
  apply (sys_vmar_map_rights true (λ _, false) 3 rw_options 0x10000 7 0x2000 0x2345 None tbl s0 0x110000 mapped_state); [apply s0_inv|done|done| |done|].
  - intros v r Hr. rewrite (s0_region v r Hr). by vm_compute.
  - apply pair_fst. by vm_compute.
Defined.

Definition sub_options : Z := Eval vm_compute in Z.lor VmOptions.CAN_MAP_READ VmOptions.CAN_MAP_WRITE.
Definition allocated := sys_vmar_allocate 3 sub_options 0 0x3fff 1 None None tbl s0.

Lemma sys_vmar_allocate_rights_witness :
  fst (fst (sys_vmar_allocate 11 sub_options 0 0x3fff 1 None None tbl s0)) = Err ZxError.ACCESS_DENIED ∧
  ∃ parent pr r i rc child_rights,
    get_object_and_rights VMAR 3 tbl = Ok (parent, pr) ∧ live (vmars s0) (num parent) r i ∧ inv (snd allocated) ∧
    vmars (snd allocated) !! 1%nat = Some rc ∧ addr rc = 0x100000 ∧ Vmar.size rc = roundup_pages 0x3fff ∧ free_in (vmars s0) r i 0x100000 (roundup_pages 0x3fff) ∧
    (∀ va inf, view (vmars (snd allocated)) va inf ↔ view (vmars s0) va inf) ∧
    get_object_and_rights VMAR 15 (snd (fst allocated)) = Ok (mkKernelObject (Z.of_nat 1) VMAR 0, child_rights) ∧
    ∀ acc rt, (acc, rt) ∈ access_rights → contains child_rights rt = true → contains pr rt = true.
Proof.
  split; [by vm_compute|].
  apply (sys_vmar_allocate_rights 3 sub_options 0 0x3fff 1 None None tbl s0 15 0x100000 (snd (fst allocated)) (snd allocated)); [apply s0_inv| |done| |].
  - intros x rx Hx. unfold s0, new_root in Hx. simpl in Hx. apply lookup_singleton_Some in Hx as [<- _]. lia.
  - intros v r Hr. rewrite (s0_region v r Hr). by vm_compute.
  - change (allocated = (Ok (15, 0x100000), snd (fst allocated), snd allocated)). assert (fst (fst allocated) = Ok (15, 0x100000)) as E by (by vm_compute).
    destruct allocated as [[res t'] st']. simpl in *. by rewrite E.
Defined.
End Proc.
