(* ===== verification/Paged.v ===== *)
(** * Paged memory objects and their copy-on-write clones

    [zircon-object/src/vm/vmo/paged.rs]: memory objects that hold frames, and the tree of
    hidden nodes that clones of an object share.  The objects of all clone trees are a map
    from object numbers; the lock that the objects of a tree share makes every operation one
    step.  [Weak] references are object numbers; [dying] holds the objects whose last strong
    reference is gone and whose [Drop] has not run yet, which can no longer be upgraded. *)

From stdpp Require Import gmap sorting.
From S2P Require Import Prelude Errors PageTable Vmo.
From stdpp Require Import options.
#[local] Open Scope Z_scope.

(** ** Data *)
Inductive VMOType := Origin | Snapshot | Hidden (left right : nat).

Inductive PageStateTag := Owned | LeftSplit | RightSplit.
#[global] Instance tag_eq_dec : EqDecision PageStateTag.
Proof. solve_decision. Defined.

(** [None] is the [unreachable!()] of [negate]. *)
Definition negate (t : PageStateTag) : option PageStateTag :=
  match t with LeftSplit => Some RightSplit | RightSplit => Some LeftSplit | Owned => None end.
Definition is_split (t : PageStateTag) : bool := match t with Owned => false | _ => true end.

Record PageState := mkPage { frame : Z; tag : PageStateTag; pin_count : Z }.
Definition page_state (f : Z) : PageState := mkPage f Owned 0.
Definition set_tag (t : PageStateTag) (ps : PageState) : PageState := mkPage (frame ps) t (pin_count ps).
Definition set_pin (c : Z) (ps : PageState) : PageState := mkPage (frame ps) (tag ps) c.

(** [VMOType::get_tag_and_other] *)
Definition get_tag_and_other (t : VMOType) (child : nat) : PageStateTag * option nat :=
  match t with
  | Hidden l r =>
      if decide (l = child) then (LeftSplit, Some r)
      else if decide (r = child) then (RightSplit, Some l)
      else (Owned, None)
  | _ => (Owned, None)
  end.
Definition is_hidden (t : VMOType) : bool := match t with Hidden _ _ => true | _ => false end.

Record VMObjectPagedInner := mkPaged {
  owner : Z;
  type_ : VMOType;
  parent : option nat;
  parent_offset : Z;
  parent_limit : Z;
  size : Z;
  frames : gmap Z PageState;
  mappings : list nat;
  policy : CachePolicy.t;
  contiguous : bool;
  pin_total : Z
}.
Implicit Types (o : VMObjectPagedInner) (n c p : nat) (ps : PageState).

Definition set_frames (x : gmap Z PageState) o :=
  mkPaged (owner o) (type_ o) (parent o) (parent_offset o) (parent_limit o) (size o) x (mappings o) (policy o) (contiguous o) (pin_total o).
Definition set_parent (x : option nat) (off lim : Z) o :=
  mkPaged (owner o) (type_ o) x off lim (size o) (frames o) (mappings o) (policy o) (contiguous o) (pin_total o).
Definition set_type (x : VMOType) o :=
  mkPaged (owner o) x (parent o) (parent_offset o) (parent_limit o) (size o) (frames o) (mappings o) (policy o) (contiguous o) (pin_total o).
Definition set_owner (x : Z) o :=
  mkPaged x (type_ o) (parent o) (parent_offset o) (parent_limit o) (size o) (frames o) (mappings o) (policy o) (contiguous o) (pin_total o).
Definition set_size (x : Z) o :=
  mkPaged (owner o) (type_ o) (parent o) (parent_offset o) (parent_limit o) x (frames o) (mappings o) (policy o) (contiguous o) (pin_total o).
Definition set_mappings (x : list nat) o :=
  mkPaged (owner o) (type_ o) (parent o) (parent_offset o) (parent_limit o) (size o) (frames o) x (policy o) (contiguous o) (pin_total o).
Definition set_policy (x : CachePolicy.t) o :=
  mkPaged (owner o) (type_ o) (parent o) (parent_offset o) (parent_limit o) (size o) (frames o) (mappings o) x (contiguous o) (pin_total o).
Definition set_contiguous (x : bool) o :=
  mkPaged (owner o) (type_ o) (parent o) (parent_offset o) (parent_limit o) (size o) (frames o) (mappings o) (policy o) x (pin_total o).
Definition set_pins (x : Z) o :=
  mkPaged (owner o) (type_ o) (parent o) (parent_offset o) (parent_limit o) (size o) (frames o) (mappings o) (policy o) (contiguous o) x.

(** A call of [VmMapping::range_change]. *)
Record note := mkNote { n_mapping : nat; n_offset : Z; n_len : Z; n_op : RangeChangeOp }.

(** The allocator of physical frames, which the kernel takes from a third-party crate: it
    hands out free frames and fails only when there is none. *)
Class FrameAllocator := {
  frame_alloc : list Z → option (Z * list Z);
  frame_alloc_contiguous : list Z → Z → Z → option (Z * list Z);
  frame_dealloc : Z → list Z → list Z;
  frame_alloc_some l f l' : frame_alloc l = Some (f, l') → l ≡ₚ f :: l';
  frame_alloc_none l : frame_alloc l = None → l = [];
  frame_alloc_contiguous_some l count align base l' :
    frame_alloc_contiguous l count align = Some (base, l') → l ≡ₚ ((λ i, base + i * PAGE_SIZE) <$> seqZ 0 count) ++ l';
  frame_dealloc_perm f l : frame_dealloc f l ≡ₚ f :: l
}.

Record heap := mkHeap {
  objs : gmap nat VMObjectPagedInner;
  dying : gset nat;
  next_obj : nat;
  owner_id : Z;
  free : list Z;
  ZERO_FRAME : Z;
  mem : ram;
  (** the mappings that no longer exist, and the notifications sent to the others *)
  stale : gset nat;
  notes : list note
}.
Implicit Types (st : heap).

Definition set_objs (x : gmap nat VMObjectPagedInner) st :=
  mkHeap x (dying st) (next_obj st) (owner_id st) (free st) (ZERO_FRAME st) (mem st) (stale st) (notes st).
Definition set_free (x : list Z) st :=
  mkHeap (objs st) (dying st) (next_obj st) (owner_id st) x (ZERO_FRAME st) (mem st) (stale st) (notes st).
Definition set_mem (x : ram) st :=
  mkHeap (objs st) (dying st) (next_obj st) (owner_id st) (free st) (ZERO_FRAME st) x (stale st) (notes st).
Definition add_notes (x : list note) st :=
  mkHeap (objs st) (dying st) (next_obj st) (owner_id st) (free st) (ZERO_FRAME st) (mem st) (stale st) (notes st ++ x).
Definition set_dying (x : gset nat) st :=
  mkHeap (objs st) x (next_obj st) (owner_id st) (free st) (ZERO_FRAME st) (mem st) (stale st) (notes st).

(** ** Computations: state, error and panic *)
Definition M (A : Type) : Type := heap → ZxResult A * heap.
Definition ret {A} (x : A) : M A := λ st, (Ok x, st).
Definition throw {A} (e : ZxError.t) : M A := λ st, (Err e, st).
Definition panic {A} : M A := λ st, (Panic, st).
Definition bind {A B} (c : M A) (k : A → M B) : M B := λ st,
  match c st with (Ok x, st) => k x st | (Err e, st) => (Err e, st) | (Panic, st) => (Panic, st) end.
Notation "'let!' x ':=' c 'in' k" := (bind c (λ x, k))
  (at level 10, x pattern, c at level 200, k at level 200).
Definition lift {A} (r : ZxResult A) : M A := λ st, (r, st).
Definition assert (b : bool) : M unit := if b then ret tt else panic.
Definition reads {A} (f : heap → A) : M A := λ st, (Ok (f st), st).
Definition modify (f : heap → heap) : M unit := λ st, (Ok tt, f st).
Fixpoint for_each {A} (l : list A) (k : A → M unit) : M unit :=
  match l with [] => ret tt | x :: l => let! _ := k x in for_each l k end.

(** A strong reference. *)
Definition get n : M VMObjectPagedInner := λ st, match objs st !! n with Some o => (Ok o, st) | None => (Panic, st) end.
Definition upd n (f : VMObjectPagedInner → VMObjectPagedInner) : M unit := modify (λ st, set_objs (alter f n (objs st)) st).
(** [weak.upgrade().unwrap()] *)
Definition upgrade (w : option nat) : M nat := λ st,
  match w with
  | Some n => if decide (n ∈ dying st) then (Panic, st) else if decide (is_Some (objs st !! n)) then (Ok n, st) else (Panic, st)
  | None => (Panic, st)
  end.

Definition by_key (x y : Z * PageState) : Prop := x.1 ≤ y.1.
#[global] Instance by_key_dec : RelDecision by_key.
Proof. intros x y. unfold by_key. apply _. Defined.

Section paged.
Context `{FrameAllocator}.

(** ** Frames *)
(** [PhysFrame::new] *)
Definition frame_new : M Z := λ st,
  match frame_alloc (free st) with Some (f, l) => (Ok f, set_free l st) | None => (Err ZxError.NO_MEMORY, st) end.
(** [PhysFrame::new_zero] *)
Definition new_zero : M Z :=
  let! f := frame_new in let! _ := modify (λ st, set_mem (pmem_zero f PAGE_SIZE (mem st)) st) in ret f.
(** A frame is dropped. *)
Definition drop_frame (f : Z) : M unit := modify (λ st, set_free (frame_dealloc f (free st)) st).
Definition pmem_copy (dst src len : Z) (m : ram) : ram := pmem_write dst (pmem_read src len m) m.

(** Removing a page ([PageState::take] keeps its frame, dropping it frees the frame). *)
Definition take_page n (i : Z) : M PageState :=
  let! o := get n in
  match frames o !! i with
  | Some ps => let! _ := upd n (set_frames (delete i (frames o))) in ret ps
  | None => panic
  end.
Definition remove_page n (i : Z) : M unit :=
  let! o := get n in
  match frames o !! i with
  | Some ps => let! _ := upd n (set_frames (delete i (frames o))) in drop_frame (frame ps)
  | None => ret tt
  end.
(** [frames.insert]: a page that was there is dropped. *)
Definition insert_page n (i : Z) ps : M unit :=
  let! o := get n in
  let! _ := upd n (set_frames (<[i := ps]> (frames o))) in
  match frames o !! i with Some old => drop_frame (frame old) | None => ret tt end.

(** ** Telling the mappings *)
Definition notify (ms : list nat) (offset len : Z) (op : RangeChangeOp) : M unit :=
  modify (λ st, add_notes ((λ m, mkNote m offset len op) <$> filter (λ m, m ∉ stale st) ms) st).

Definition fuel_of st : nat := S (next_obj st).

(** [VMObjectPagedInner::range_change] *)
Fixpoint range_change (fuel : nat) n (po pl : Z) (op : RangeChangeOp) : M unit :=
  match fuel with
  | O => panic
  | S fuel =>
      let! o := get n in
      let start := Z.max (parent_offset o) po in
      let end_ := Z.min (parent_limit o) pl in
      if end_ <=? start then ret tt
      else
        let start := start -u parent_offset o in
        let end_ := end_ -u parent_offset o in
        let! _ := notify (mappings o) (pages start) (pages end_ -u pages start) op in
        match type_ o with
        | Hidden l r =>
            let! l := upgrade (Some l) in
            let! _ := range_change fuel l start end_ op in
            let! r := upgrade (Some r) in
            range_change fuel r start end_ op
        | _ => ret tt
        end
  end.

(** ** Committing a page *)
Inductive CommitResult := Ref (paddr : Z) | CopyOnWrite (f : Z) (unmap : bool) | NewPage (f : Z).

Definition out_of_range o (page_idx : Z) : bool :=
  if is_hidden (type_ o) || bool_decide (parent o = None) then size o / PAGE_SIZE <=? page_idx
  else parent_limit o <=? parent_offset o +u page_idx *u PAGE_SIZE.

(** Whether the other child of a hidden node can see the page; if so and if [need_unmap], it
    is told that the page has changed. *)
Definition other_sees (other_child : option nat) (page_idx : Z) (need_unmap : bool) : M bool :=
  let! other := upgrade other_child in
  let! oo := get other in
  if negb ((parent_offset oo / PAGE_SIZE <=? page_idx) && (page_idx <? parent_limit oo / PAGE_SIZE)) then ret false
  else
    let! fuel := reads fuel_of in
    let! _ := (if need_unmap then range_change fuel other (page_idx *u PAGE_SIZE) ((1 +u page_idx) *u PAGE_SIZE) Unmap else ret tt) in
    ret true.

(** The page is at this node: hand it to the child, copy it, or refer to it. *)
Definition settle n (page_idx flags : Z) (child : option nat) (need_unmap : bool) : M CommitResult :=
  let! o := get n in
  let '(child_tag, other_child) := match child with Some c => get_tag_and_other (type_ o) c | None => (Owned, None) end in
  let! keep := (if is_hidden (type_ o) then other_sees other_child page_idx need_unmap else ret true) in
  if negb keep then let! ps := take_page n page_idx in ret (CopyOnWrite (frame ps) need_unmap)
  else
    let! _ := (if need_unmap then notify (mappings o) page_idx 1 Unmap else ret tt) in
    match frames o !! page_idx with
    | None => panic
    | Some ps =>
        if is_split (tag ps) then let! ps := take_page n page_idx in ret (CopyOnWrite (frame ps) need_unmap)
        else if contains flags MMUFlags.WRITE && is_split child_tag then
          let! f := frame_new in
          let! _ := modify (λ st, set_mem (pmem_copy f (frame ps) PAGE_SIZE (mem st)) st) in
          let! _ := upd n (set_frames (<[page_idx := set_tag child_tag ps]> (frames o))) in
          ret (CopyOnWrite f true)
        else ret (Ref (frame ps))
    end.

(** A page that comes from the parent; a contiguous object swaps frames with it. *)
Definition adopt n p (page_idx parent_idx f : Z) (unmap : bool) : M bool :=
  let! o := get n in
  if contiguous o then
    let! po := get p in
    let new_frame := match frames po !! parent_idx with Some par => mkPage (frame par) Owned (pin_count par) | None => page_state f end in
    let! _ := (match frames po !! parent_idx with
               | Some par => upd p (set_frames (<[parent_idx := mkPage f (tag par) 0]> (frames po)))
               | None => ret tt
               end) in
    let! sibling := upgrade (snd (get_tag_and_other (type_ po) n)) in
    let! fuel := reads fuel_of in
    let! _ := range_change fuel sibling (parent_idx *u PAGE_SIZE) ((parent_idx +u 1) *u PAGE_SIZE) Unmap in
    let! _ := upd n (set_frames (<[page_idx := new_frame]> (frames o))) in
    ret false
  else
    let! _ := upd n (set_frames (<[page_idx := page_state f]> (frames o))) in
    ret unmap.

(** [VMObjectPagedInner::commit_page_internal] *)
Fixpoint commit_page_internal (fuel : nat) n (page_idx flags : Z) (child : option nat) : M CommitResult :=
  match fuel with
  | O => panic
  | S fuel =>
      let! o := get n in
      let oor := out_of_range o page_idx in
      match frames o !! page_idx with
      | Some _ => settle n page_idx flags child false
      | None =>
          match (if oor then None else parent o) with
          | None =>
              if negb (contains flags MMUFlags.WRITE) then let! z := reads ZERO_FRAME in ret (Ref z)
              else
                let! f := new_zero in
                let! _ := assert (negb (oor && is_hidden (type_ o))) in
                if is_hidden (type_ o) then ret (NewPage f)
                else
                  let! _ := upd n (set_frames (<[page_idx := page_state f]> (frames o))) in
                  settle n page_idx flags child false
          | Some p =>
              let parent_idx := page_idx +u parent_offset o / PAGE_SIZE in
              let! r := commit_page_internal fuel p parent_idx flags (Some n) in
              match r with
              | NewPage f =>
                  if is_hidden (type_ o) then ret (NewPage f)
                  else
                    let! _ := upd n (set_frames (<[page_idx := page_state f]> (frames o))) in
                    settle n page_idx flags child false
              | CopyOnWrite f unmap =>
                  let! need_unmap := adopt n p page_idx parent_idx f unmap in
                  settle n page_idx flags child need_unmap
              | Ref paddr => ret (Ref paddr)
              end
          end
      end
  end.

(** The pages of an object in the order of their numbers ([BTreeMap]). *)
Definition sorted_pages (g : gmap Z PageState) : list (Z * PageState) := merge_sort by_key (map_to_list g).

Fixpoint contig_from (base : Z) (l : list (Z * PageState)) : bool :=
  match l with
  | [] => true
  | (key, ps) :: l =>
      let new_base := frame ps -u key *u PAGE_SIZE in
      if (base =? 0) || (new_base =? base) then contig_from new_base l else false
  end.
Definition check_contig o : bool := if negb (contiguous o) then true else contig_from 0 (sorted_pages (frames o)).

(** [VMObjectPagedInner::commit_page] *)
Definition commit_page n (page_idx flags : Z) : M Z :=
  let! fuel := reads fuel_of in
  let! r := commit_page_internal fuel n page_idx flags None in
  match r with
  | Ref paddr => let! o := get n in let! _ := assert (check_contig o) in ret paddr
  | _ => panic
  end.

(** ** Creation *)
Definition alloc_obj o : M nat := λ st,
  (Ok (next_obj st),
   mkHeap (<[next_obj st := o]> (objs st)) (dying st) (S (next_obj st)) (owner_id st) (free st) (ZERO_FRAME st) (mem st) (stale st) (notes st)).
Definition new_owner_id : M Z := λ st,
  (Ok (owner_id st),
   mkHeap (objs st) (dying st) (next_obj st) (wadd 64 (owner_id st) 1) (free st) (ZERO_FRAME st) (mem st) (stale st) (notes st)).

(** [VMObjectPaged::new] *)
Definition new (pages : Z) : M nat :=
  let! id := new_owner_id in
  alloc_obj (mkPaged id Origin None 0 0 (pages *u PAGE_SIZE) ∅ [] CachePolicy.Cached false 0).

(** [VMObjectPaged::new_contiguous]; the object is dropped when there is no memory. *)
Definition new_contiguous (pages align_log2 : Z) : M nat :=
  let! n := new pages in
  let! st := reads (λ st, st) in
  match frame_alloc_contiguous (free st) pages (align_log2 -u 12) with
  | None => let! _ := modify (λ st, set_objs (delete n (objs st)) st) in throw ZxError.NO_MEMORY
  | Some (base, l) =>
      let! _ := modify (set_free l) in
      if pages <=? 0 then let! _ := modify (λ st, set_objs (delete n (objs st)) st) in throw ZxError.NO_MEMORY
      else
        let! _ := upd n (set_contiguous true) in
        let! _ := for_each (seqZ 0 pages) (λ i,
          let f := base +u i *u PAGE_SIZE in
          let! _ := modify (λ st, set_mem (pmem_zero f PAGE_SIZE (mem st)) st) in
          insert_page n i (mkPage f Owned 1)) in
        ret n
  end.

(** ** Reading and writing *)
(** The blocks of [BlockIter]; the iterator over a range of bytes ends within this many
    steps ([block_iter_covers]). *)
Definition blocks_of (begin end_ : Z) : M (list BlockRange) :=
  match blocks (Z.to_nat (end_ / PAGE_SIZE - begin / PAGE_SIZE + 1)) (mkBlockIter begin end_ 12) with
  | Some l => ret l
  | None => panic
  end.

Fixpoint read_blocks n (l : list BlockRange) : M (list Z) :=
  match l with
  | [] => ret []
  | b :: l =>
      let! paddr := commit_page n (block b) MMUFlags.READ in
      let! bs := reads (λ st, pmem_read (paddr +u block_begin b) (len b) (mem st)) in
      let! rest := read_blocks n l in
      ret (bs ++ rest)
  end.

Definition read n (offset buf_len : Z) : M (list Z) :=
  let! o := get n in
  if negb (bool_decide (policy o = CachePolicy.Cached)) then throw ZxError.BAD_STATE
  else let! l := blocks_of offset (offset +u buf_len) in read_blocks n l.

Fixpoint write_blocks n (offset : Z) (data : list Z) (l : list BlockRange) : M unit :=
  match l with
  | [] => ret tt
  | b :: l =>
      let! paddr := commit_page n (block b) MMUFlags.WRITE in
      let bs := ztake (len b) (zdrop (origin_begin b -u offset) data) in
      let! _ := modify (λ st, set_mem (pmem_write (paddr +u block_begin b) bs (mem st)) st) in
      write_blocks n offset data l
  end.

Definition write n (offset : Z) (data : list Z) : M unit :=
  let! o := get n in
  if negb (bool_decide (policy o = CachePolicy.Cached)) then throw ZxError.BAD_STATE
  else let! l := blocks_of offset (offset +u zlen data) in write_blocks n offset data l.

Definition commit n (offset len : Z) : M unit :=
  for_each (seqZ 0 (len / PAGE_SIZE)) (λ i, let! _ := commit_page n (offset / PAGE_SIZE +u i) MMUFlags.WRITE in ret tt).

Definition decommit n (offset len : Z) : M unit :=
  let! o := get n in
  if bool_decide (parent o = None) then for_each (seqZ 0 (len / PAGE_SIZE)) (λ i, remove_page n (offset / PAGE_SIZE +u i))
  else throw ZxError.NOT_SUPPORTED.

(** ** Cloning *)
Definition replace_ref (old new : nat) o : option VMObjectPagedInner :=
  match type_ o with
  | Hidden l r => if decide (l = old) then Some (set_type (Hidden new r) o) else if decide (r = old) then Some (set_type (Hidden l new) o) else None
  | _ => None
  end.

(** [VMObjectPaged::create_child] with [VMObjectPagedInner::create_child]: a hidden node takes
    the pages, and becomes the parent of the object and of its new child. *)
Definition create_child n (offset len : Z) : M nat :=
  let! _ := assert (page_aligned offset) in
  let! _ := assert (page_aligned len) in
  let! o := get n in
  if contiguous o then throw ZxError.INVALID_ARGS
  else if negb (bool_decide (policy o = CachePolicy.Cached)) || negb (pin_total o =? 0) then throw ZxError.BAD_STATE
  else
    let! id := new_owner_id in
    let! child := alloc_obj (mkPaged id Snapshot None offset (Z.min (offset +u len) (size o)) len ∅ [] CachePolicy.Cached false 0) in
    let! hidden := alloc_obj (mkPaged (owner o) (Hidden n child) (parent o) (parent_offset o) (parent_limit o) (size o) (frames o) []
                                CachePolicy.Cached (contiguous o) (pin_total o)) in
    let! _ :=
      (match parent o with
       | None => ret tt
       | Some p =>
           let! po := get p in
           if is_hidden (type_ po) then
             match replace_ref n hidden po with Some po => upd p (λ _, po) | None => panic end
           else ret tt
       end) in
    let! _ := upd n (λ o, set_parent (Some hidden) 0 (size o) (set_frames ∅ o)) in
    let! _ := upd child (λ co, set_parent (Some hidden) (parent_offset co) (parent_limit co) co) in
    let! _ := notify (mappings o) (pages offset) (pages len) RemoveWrite in
    ret child.

(** ** Pages that a node no longer needs *)
(** One page of [release_unwanted_pages_in_parent] at [parent], whose other child is [other]:
    what is still to be released further up. *)
Definition release_one par other (t : PageStateTag) (idx : Z) : M (list Z) :=
  let! po := get par in
  let! oo := get other in
  let start := parent_offset oo / PAGE_SIZE in
  let end_ := parent_limit oo / PAGE_SIZE in
  let above := [idx +u parent_offset po / PAGE_SIZE] in
  if (start <=? idx) && (idx <? end_) then
    match frames po !! idx with
    | None => ret []
    | Some _ =>
        let! ps := take_page par idx in
        let ps := if contiguous po && negb (contiguous oo) && (1 <=? pin_count ps) then set_pin (pin_count ps - 1) ps else ps in
        match negate t with
        | None => panic
        | Some nt =>
            let! _ := (if decide (tag ps = nt) then drop_frame (frame ps) else insert_page other (idx -u start) (set_tag Owned ps)) in
            ret above
        end
    end
  else
    match frames po !! idx with
    | Some _ => let! _ := remove_page par idx in ret []
    | None => ret above
    end.

Fixpoint release_all par other (t : PageStateTag) (unwanted : list Z) : M (list Z) :=
  match unwanted with
  | [] => ret []
  | idx :: unwanted =>
      let! up := release_one par other t idx in
      let! rest := release_all par other t unwanted in
      ret (up ++ rest)
  end.

Fixpoint release_loop (fuel : nat) (option_parent : option nat) (child : nat) (unwanted : list Z) : M unit :=
  match option_parent with
  | None => ret tt
  | Some par =>
      match fuel with
      | O => panic
      | S fuel =>
          let! po := get par in
          let '(t, other) := get_tag_and_other (type_ po) child in
          let! other := upgrade other in
          let! unwanted := release_all par other t unwanted in
          let! po := get par in
          release_loop fuel (parent po) par unwanted
      end
  end.

Definition release_unwanted_pages_in_parent n (unwanted : list Z) : M unit :=
  let! o := get n in
  let! fuel := reads fuel_of in
  release_loop fuel (parent o) n unwanted.

(** ** Removing a child *)
(** The pages of the hidden node [hid] that move to its remaining child [c]; the other pages
    are dropped. *)
Definition merge_one hid c (t : PageStateTag) (start end_ : Z) (kv : Z * PageState) : M unit :=
  let '(key, value) := kv in
  if (key <? start) || (end_ <=? key) then drop_frame (frame value)
  else
    let! ho := get hid in
    let! co := get c in
    let value := if contiguous ho && negb (contiguous co) && (1 <=? pin_count value) then set_pin (pin_count value - 1) value else value in
    let idx := key -u start in
    match frames co !! idx with
    | Some _ => drop_frame (frame value)
    | None =>
        match negate t with
        | None => panic
        | Some nt => if decide (tag value = nt) then drop_frame (frame value) else insert_page c idx (set_tag Owned value)
        end
    end.

(** One page of the loop of [replace_child] at [par]: the pages to release further up. *)
Definition replace_one par other (t : PageStateTag) (start end_ : Z) (i : Z) : M (list Z) :=
  let! po := get par in
  let! oo := get other in
  let other_start := parent_offset oo / PAGE_SIZE in
  let other_end := parent_limit oo / PAGE_SIZE in
  if negb (((start <=? i) && (i <? end_)) || ((other_start <=? i) && (i <? other_end))) then
    match frames po !! i with
    | Some _ => let! _ := remove_page par i in ret []
    | None => ret [i +u parent_offset po / PAGE_SIZE]
    end
  else
    match frames po !! i with
    | Some ps =>
        if is_split (tag ps) then
          let! ps := take_page par i in
          let ps := if contiguous po && negb (contiguous oo) && (1 <=? pin_count ps) then set_pin (pin_count ps - 1) ps else ps in
          let! _ :=
            (if decide (tag ps = t) then
               if (other_start <=? i) && (i <? other_end) then insert_page other (i -u other_start) (set_tag Owned ps)
               else drop_frame (frame ps)
             else drop_frame (frame ps)) in
          ret []
        else ret []
    | None => ret []
    end.

Fixpoint replace_all par other (t : PageStateTag) (start end_ : Z) (l : list Z) : M (list Z) :=
  match l with
  | [] => ret []
  | i :: l =>
      let! up := replace_one par other t start end_ i in
      let! rest := replace_all par other t start end_ l in
      ret (up ++ rest)
  end.

(** The ancestors that were owned by the removed object get the owner of their other child. *)
Fixpoint change_owner (fuel : nat) (option_parent : option nat) (child : nat) (old_id skip_owner : Z) : M unit :=
  match option_parent with
  | None => ret tt
  | Some par =>
      match fuel with
      | O => panic
      | S fuel =>
          let! po := get par in
          if owner po =? old_id then
            let '(_, other) := get_tag_and_other (type_ po) child in
            let! other := upgrade other in
            let! oo := get other in
            let new_owner := owner oo in
            let! _ := assert (negb (new_owner =? skip_owner)) in
            let! _ := upd par (set_owner new_owner) in
            change_owner fuel (parent po) par old_id new_owner
          else ret tt
      end
  end.

(** [VMObjectPagedInner::replace_child] *)
Definition replace_child par old (old_id : Z) (new : nat) (new_start new_end : Z) : M unit :=
  let! po := get par in
  let '(t, other) := get_tag_and_other (type_ po) old in
  let! other := upgrade other in
  let! unwanted := replace_all par other t (new_start / PAGE_SIZE) (new_end / PAGE_SIZE) (seqZ 0 (size po / PAGE_SIZE)) in
  let! _ := release_unwanted_pages_in_parent par unwanted in
  let! fuel := reads fuel_of in
  let! po := get par in
  let! _ := (if old_id =? owner po then change_owner fuel (parent po) par old_id old_id else ret tt) in
  let! oo := get other in
  let! _ := upd par (set_owner (owner oo)) in
  let! po := get par in
  match replace_ref old new po with Some po => upd par (λ _, po) | None => panic end.

(** [VMObjectPagedInner::remove_child] of the node [hid] *)
Definition remove_child hid child : M unit :=
  let! ho := get hid in
  if negb (is_hidden (type_ ho)) then ret tt
  else
    let '(t, other_child) := get_tag_and_other (type_ ho) child in
    let! other := upgrade other_child in
    let! co := get other in
    let start := parent_offset co / PAGE_SIZE in
    let end_ := parent_limit co / PAGE_SIZE in
    let! _ := upd hid (set_frames ∅) in
    let! _ := for_each (sorted_pages (frames ho)) (merge_one hid other t start end_) in
    let! _ := upd other (λ co, set_parent (parent co) (parent_offset co +u parent_offset ho) (parent_limit co +u parent_offset ho) co) in
    let! co := get other in
    let! _ :=
      (match parent ho with
       | Some p => replace_child p hid (owner ho) other (parent_offset co) (parent_limit co)
       | None => ret tt
       end) in
    let! _ := upd other (λ co, set_parent (parent ho) (parent_offset co) (parent_limit co) co) in
    upd hid (λ ho, set_parent None (parent_offset ho) (parent_limit ho) ho).

(** The last reference to an object goes away, and its [Drop] runs: it leaves its parent, a
    hidden node, which nothing refers to any more then. *)
Definition release n : M unit := modify (λ st, set_dying (dying st ∪ {[n]}) st).

Definition drop_object n : M unit :=
  let! o := get n in
  let! _ := (match parent o with Some p => remove_child p n | None => ret tt end) in
  let! o := get n in
  let! _ := for_each (sorted_pages (frames o)) (λ kv,
    let pins := if contiguous o && (1 <=? pin_count kv.2) then pin_count kv.2 - 1 else pin_count kv.2 in
    assert (pins =? 0)) in
  let! _ := for_each (sorted_pages (frames o)) (λ kv, drop_frame (frame kv.2)) in
  let! _ := modify (λ st, set_objs (delete n (objs st)) (set_dying (dying st ∖ {[n]}) st)) in
  match parent o with
  | Some p =>
      let! po := get p in
      if is_hidden (type_ po) then modify (λ st, set_objs (delete p (objs st)) st) else ret tt
  | None => ret tt
  end.
Definition close n : M unit := let! _ := release n in drop_object n.

(** ** Resizing and zeroing *)
Definition shrink_page n (parent_end : Z) (i : Z) : M (list Z) :=
  let! _ := remove_page n i in
  let! o := get n in
  ret (if i <? parent_end then [i +u parent_offset o / PAGE_SIZE] else []).
Fixpoint shrink_pages n (parent_end : Z) (l : list Z) : M (list Z) :=
  match l with
  | [] => ret []
  | i :: l => let! up := shrink_page n parent_end i in let! rest := shrink_pages n parent_end l in ret (up ++ rest)
  end.

(** [VMObjectPagedInner::resize]; the hidden parent that an object of size 0 leaves is dropped
    by the caller. *)
Definition resize n (new_size : Z) : M unit :=
  let! o := get n in
  let! _ :=
    (if (new_size =? 0) && (new_size <? size o) then
       let! _ := for_each (sorted_pages (frames o)) (λ kv, drop_frame (frame kv.2)) in
       let! _ := upd n (set_frames ∅) in
       let! _ := (match parent o with Some p => remove_child p n | None => ret tt end) in
       let! _ := upd n (set_parent None 0 0) in
       match parent o with
       | Some p => let! po := get p in if is_hidden (type_ po) then modify (λ st, set_objs (delete p (objs st)) st) else ret tt
       | None => ret tt
       end
     else if new_size <? size o then
       let parent_end := (parent_limit o -u parent_offset o) / PAGE_SIZE in
       let! unwanted := shrink_pages n parent_end (seqZ (new_size / PAGE_SIZE) (size o / PAGE_SIZE - new_size / PAGE_SIZE)) in
       let! _ := release_unwanted_pages_in_parent n unwanted in
       if new_size <? parent_limit o -u parent_offset o then
         upd n (λ o, set_parent (parent o) (parent_offset o) (parent_offset o +u new_size) o)
       else ret tt
     else ret tt) in
  upd n (set_size new_size).

Definition set_len n (len : Z) : M unit :=
  let! _ := assert (page_aligned len) in
  let! o := get n in
  if 0 <? pin_total o then throw ZxError.BAD_STATE else resize n len.

(** ** Committed pages *)
(** The walk of [committed_pages_in_range] through the ancestors of an object of owner [id]. *)
Fixpoint committed_above (fuel : nat) (current : option nat) (idx id : Z) : M bool :=
  match current with
  | None => ret false
  | Some c =>
      match fuel with
      | O => panic
      | S fuel =>
          let! o := get c in
          let hit := match frames o !! idx with Some ps => is_split (tag ps) || (owner o =? id) | None => false end in
          if hit then ret true
          else if negb (owner o =? id) then ret false
          else
            let idx := idx +u parent_offset o / PAGE_SIZE in
            if parent_limit o / PAGE_SIZE <=? idx then ret false else committed_above fuel (parent o) idx id
      end
  end.

Fixpoint count_committed n (l : list Z) : M Z :=
  match l with
  | [] => ret 0
  | i :: l =>
      let! o := get n in
      let! fuel := reads fuel_of in
      let! here :=
        (if bool_decide (is_Some (frames o !! i)) then ret true
         else if parent_limit o <=? i *u PAGE_SIZE then ret false
         else committed_above fuel (parent o) (i +u parent_offset o / PAGE_SIZE) (owner o)) in
      let! rest := count_committed n l in
      ret ((if here then 1 else 0) + rest)
  end.

Definition committed_pages_in_range n (start_idx end_idx : Z) : M Z :=
  let! o := get n in
  let! _ := assert ((start_idx <? size o / PAGE_SIZE) || (start_idx =? 0)) in
  let! _ := assert (end_idx <=? size o / PAGE_SIZE) in
  count_committed n (seqZ start_idx (end_idx - start_idx)).

Definition zero_block n (b : BlockRange) : M (list Z) :=
  let! o := get n in
  if (len b =? PAGE_SIZE) && negb (contiguous o) then
    let! _ := commit_page n (block b) MMUFlags.WRITE in
    let! _ := remove_page n (block b) in
    ret [block b +u parent_offset o / PAGE_SIZE]
  else
    let! k := committed_pages_in_range n (block b) (block b +u 1) in
    if k =? 0 then ret []
    else
      let! paddr := commit_page n (block b) MMUFlags.WRITE in
      let! _ := modify (λ st, set_mem (pmem_zero (paddr +u block_begin b) (len b) (mem st)) st) in
      ret [].
Fixpoint zero_blocks n (l : list BlockRange) : M (list Z) :=
  match l with
  | [] => ret []
  | b :: l => let! up := zero_block n b in let! rest := zero_blocks n l in ret (up ++ rest)
  end.

Definition zero n (offset len : Z) : M unit :=
  let! o := get n in
  if size o <? offset +u len then throw ZxError.OUT_OF_RANGE
  else
    let! l := blocks_of offset (offset +u len) in
    let! unwanted := zero_blocks n l in
    release_unwanted_pages_in_parent n unwanted.

(** ** Pinning, mappings, cache policy *)
Definition VM_PAGE_OBJECT_MAX_PIN_COUNT : Z := 31.

Fixpoint check_pins (o : VMObjectPagedInner) (bad : Z) (l : list Z) : M unit :=
  match l with
  | [] => ret tt
  | i :: l =>
      match frames o !! i with
      | None => panic
      | Some ps => if pin_count ps =? bad then throw ZxError.UNAVAILABLE else check_pins o bad l
      end
  end.
Definition add_pin n (d : Z) (i : Z) : M unit :=
  let! o := get n in
  match frames o !! i with
  | None => panic
  | Some ps => upd n (λ o, set_pins (wadd 64 (pin_total o) d) (set_frames (<[i := set_pin (wadd 8 (pin_count ps) d) ps]> (frames o)) o))
  end.
Definition page_range (offset len : Z) : list Z := seqZ (offset / PAGE_SIZE) (pages (offset +u len) - offset / PAGE_SIZE).

Definition pin n (offset len : Z) : M unit :=
  let! o := get n in
  if size o <? offset +u len then throw ZxError.OUT_OF_RANGE
  else if len =? 0 then ret tt
  else
    let! _ := check_pins o VM_PAGE_OBJECT_MAX_PIN_COUNT (page_range offset len) in
    for_each (page_range offset len) (add_pin n 1).

Definition unpin n (offset len : Z) : M unit :=
  let! o := get n in
  if size o <? offset +u len then throw ZxError.OUT_OF_RANGE
  else if len =? 0 then ret tt
  else
    let! _ := check_pins o 0 (page_range offset len) in
    let! _ := assert (negb (pin_total o =? 0)) in
    for_each (page_range offset len) (add_pin n (-1)).

Definition append_mapping n (m : nat) : M unit := upd n (λ o, set_mappings (mappings o ++ [m]) o).
Definition remove_mapping n (m : nat) : M unit :=
  let! dead := reads stale in
  upd n (λ o, set_mappings (filter (λ x, x ∉ dead ∧ x ≠ m) (mappings o)) o).
Definition clear_invalid_mappings n : M unit :=
  let! dead := reads stale in upd n (λ o, set_mappings (filter (λ x, x ∉ dead) (mappings o)) o).

Definition set_cache_policy n (p : CachePolicy.t) : M unit :=
  let! o := get n in
  if negb (bool_decide (frames o = ∅)) && negb (bool_decide (policy o = CachePolicy.Cached)) then throw ZxError.BAD_STATE
  else
    let! _ := clear_invalid_mappings n in
    let! o := get n in
    if negb (is_empty (mappings o)) then throw ZxError.BAD_STATE
    else if negb (bool_decide (parent o = None)) then throw ZxError.BAD_STATE
    else if negb (pin_total o =? 0) then throw ZxError.BAD_STATE
    else upd n (set_policy p).

Definition unset_contiguous n : M unit :=
  upd n (λ o, if contiguous o then set_contiguous false (set_frames ((λ ps, set_pin (wadd 8 (pin_count ps) (-1)) ps) <$> frames o) o) else o).
End paged.
