(* ===== verification/PagedProps.v ===== *)
(** * Copy-on-write is a snapshot

    The invariant of the clone trees of [Paged], and what it gives: every paged object behaves
    as a byte array of its own.  A clone starts with the bytes of its parent, a write changes
    the object that is written and no other, whatever frames the objects share. *)

From stdpp Require Import gmap sorting.
From S2P Require Import Prelude Errors PageTable Vmo Paged.
From stdpp Require Import options.
#[local] Open Scope Z_scope.

Abbreviation objects := (gmap nat VMObjectPagedInner).
Implicit Types (g : objects) (o : VMObjectPagedInner) (n m c d p : nat) (ps : PageState) (i j k x f : Z).

(** ** Structure and pages of the objects *)
Definition hdr o : VMObjectPagedInner := set_frames ∅ o.
Definition hd g n : option VMObjectPagedInner := hdr <$> g !! n.
Definition fr g n i : option PageState := g !! n ≫= λ o, frames o !! i.

(** The tree: [rk] grows from a parent to its children. *)
Record shape (rk : nat → nat) g (next : nat) (dead : gset nat) : Prop := {
  s_dead : dead = ∅;
  s_bound n o : hd g n = Some o → (rk n < next)%nat ∧ (n < next)%nat;
  s_rank n o p : hd g n = Some o → parent o = Some p → (rk p < rk n)%nat;
  s_parent n o p : hd g n = Some o → parent o = Some p →
    ∃ po l r, hd g p = Some po ∧ type_ po = Hidden l r ∧ (n = l ∨ n = r);
  s_hidden n o l r : hd g n = Some o → type_ o = Hidden l r →
    l ≠ r ∧ (∃ lo, hd g l = Some lo ∧ parent lo = Some n) ∧ ∃ ro, hd g r = Some ro ∧ parent ro = Some n;
  s_size n o : hd g n = Some o → 0 ≤ size o < 2 ^ 64 ∧ size o mod PAGE_SIZE = 0;
  s_range n o p po : hd g n = Some o → parent o = Some p → hd g p = Some po →
    0 ≤ parent_offset o ∧ parent_offset o mod PAGE_SIZE = 0 ∧ parent_limit o = parent_offset o + size o ∧ parent_limit o ≤ size po;
  s_plain n o : hd g n = Some o → contiguous o = false ∧ policy o = CachePolicy.Cached ∧ pin_total o = 0
}.

(** The pages that some object looks for at a node: its own pages, and those that it does not
    find at its children. *)
Inductive wanted g : nat → Z → Prop :=
| wanted_leaf n o i : hd g n = Some o → is_hidden (type_ o) = false → 0 ≤ i → i * PAGE_SIZE < size o → wanted g n i
| wanted_up n o i p : wanted g n i → hd g n = Some o → fr g n i = None → parent o = Some p →
    wanted g p (i + parent_offset o / PAGE_SIZE).

(** Child [c] of a node looks for page [x] of the node. *)
Definition asks g c x : Prop :=
  ∃ o k, hd g c = Some o ∧ wanted g c k ∧ fr g c k = None ∧ x = k + parent_offset o / PAGE_SIZE.

(** Pages lie within their object, and one that is split to a child is not looked for through
    that child. *)
Record tags g : Prop := {
  t_range n o i ps : hd g n = Some o → fr g n i = Some ps → 0 ≤ i ∧ i * PAGE_SIZE < size o;
  t_leaf n o i ps : hd g n = Some o → is_hidden (type_ o) = false → fr g n i = Some ps → tag ps = Owned;
  t_hidden n o l r i ps : hd g n = Some o → type_ o = Hidden l r → fr g n i = Some ps →
    (tag ps = LeftSplit → ¬ asks g l i) ∧ (tag ps = RightSplit → ¬ asks g r i)
}.

(** Frames are in one place only, and apart from each other. *)
Definition page_ok f : Prop := 0 ≤ f ∧ f mod PAGE_SIZE = 0 ∧ f + PAGE_SIZE ≤ 2 ^ 64.
Record memory g (fs : list Z) (z : Z) (mm : ram) : Prop := {
  m_inj n i ps n' i' ps' : fr g n i = Some ps → fr g n' i' = Some ps' → frame ps = frame ps' → n = n' ∧ i = i';
  m_frame n i ps : fr g n i = Some ps → page_ok (frame ps) ∧ frame ps ∉ fs ∧ frame ps ≠ z ∧ pin_count ps = 0;
  m_free : NoDup fs ∧ ∀ f, f ∈ fs → page_ok f ∧ f ≠ z;
  m_zero : page_ok z ∧ ∀ k, 0 ≤ k < PAGE_SIZE → byte mm (z + k) = 0
}.

Definition wf (rk : nat → nat) (st : heap) : Prop :=
  shape rk (objs st) (next_obj st) (dying st) ∧ tags (objs st) ∧ memory (objs st) (free st) (ZERO_FRAME st) (mem st).

(** The frame that page [i] of a node shows; [None] for a page of zeros. *)
Fixpoint page_at (fuel : nat) g n i : option Z :=
  match fuel with
  | O => None
  | S fuel =>
      match g !! n with
      | None => None
      | Some o =>
          match frames o !! i with
          | Some ps => Some (frame ps)
          | None => match parent o with None => None | Some p => page_at fuel g p (i + parent_offset o / PAGE_SIZE) end
          end
      end
  end.
Definition page (st : heap) n i : option Z := page_at (next_obj st) (objs st) n i.
Definition pbyte (st : heap) n i k : Z := match page st n i with Some f => byte (mem st) (f + k) | None => 0 end.
(** The bytes of an object. *)
Definition content (st : heap) n (a : Z) : Z := pbyte st n (a / PAGE_SIZE) (a mod PAGE_SIZE).

Definition leaf g n o : Prop := hd g n = Some o ∧ is_hidden (type_ o) = false.

(** A change of the pages that keeps the tree and the bytes of every object. *)
Record same (st st' : heap) : Prop := {
  sm_hd n : hd (objs st') n = hd (objs st) n;
  sm_next : next_obj st' = next_obj st;
  sm_dying : dying st' = dying st;
  sm_zero : ZERO_FRAME st' = ZERO_FRAME st
}.
Definition keeps (st st' : heap) : Prop :=
  same st st' ∧ ∀ n o i k, leaf (objs st) n o → 0 ≤ i → i * PAGE_SIZE < size o → 0 ≤ k < PAGE_SIZE → pbyte st' n i k = pbyte st n i k.

Section cow.
Context `{FrameAllocator}.
#[local] Set Default Proof Using "All".

Lemma hd_Some g n o : hd g n = Some o ↔ ∃ o', g !! n = Some o' ∧ o = hdr o'.
Proof. unfold hd. destruct (g !! n); simpl; naive_solver. Qed.

Lemma shape_ext rk g g' next dead : (∀ n, hd g' n = hd g n) → shape rk g next dead → shape rk g' next dead.
Proof.
  intros E Hs. split; try setoid_rewrite E; [apply Hs|apply Hs|apply Hs|apply Hs|apply Hs|apply Hs|apply Hs|apply Hs].
Qed.

Section tree.
Context (rk : nat → nat) (g : objects) (next : nat) (dead : gset nat).
Hypothesis Hs : shape rk g next dead.
#[local] Set Default Proof Using "All".

Lemma page_at_fuel (f1 f2 : nat) n i : (∃ o, hd g n = Some o) → (rk n < f1)%nat → (rk n < f2)%nat → page_at f1 g n i = page_at f2 g n i.
Proof.
  revert f2 n i. induction f1 as [|f1 IH]; intros f2 n i [o Ho] H1 H2; [lia|]. destruct f2 as [|f2]; [lia|]. simpl.
  apply hd_Some in Ho as (o' & Eo & ->). rewrite Eo. destruct (frames o' !! i); [done|].
  destruct (parent o') as [p|] eqn:Ep; [|done].
  assert (hd g n = Some (hdr o')) as Hn by (unfold hd; by rewrite Eo).
  pose proof (s_rank _ _ _ _ Hs n _ p Hn Ep). destruct (s_parent _ _ _ _ Hs n _ p Hn Ep) as (po & ? & ? & Hp & _).
  apply IH; [eauto|lia|lia].
Qed.

Lemma page_unfold n o i :
  hd g n = Some o →
  page_at next g n i =
    match fr g n i with
    | Some ps => Some (frame ps)
    | None => match parent o with None => None | Some p => page_at next g p (i + parent_offset o / PAGE_SIZE) end
    end.
Proof.
  intros Ho. pose proof (s_bound _ _ _ _ Hs n o Ho) as [Hb _].
  transitivity (page_at (S next) g n i); [apply page_at_fuel; [eauto|lia|lia]|]. simpl.
  pose proof Ho as Ho'. apply hd_Some in Ho as (o' & Eo & ->). unfold fr. rewrite Eo. simpl. destruct (frames o' !! i); [done|].
  destruct (parent o') as [p|] eqn:Ep; [|done].
  pose proof (s_rank _ _ _ _ Hs n _ p Ho' Ep). destruct (s_parent _ _ _ _ Hs n _ p Ho' Ep) as (po & ? & ? & Hp & _).
  apply page_at_fuel; [eauto|lia|lia].
Qed.

Lemma wanted_range n i : wanted g n i → ∃ o, hd g n = Some o ∧ 0 ≤ i ∧ i * PAGE_SIZE < size o.
Proof.
  induction 1 as [n o i Ho _ Hi Hl|n o i p _ (o' & Ho' & Hi & Hl) Ho _ Hp]; [by exists o|].
  rewrite Ho in Ho'. injection Ho' as <-. destruct (s_parent _ _ _ _ Hs n o p Ho Hp) as (po & ? & ? & Hpo & _).
  destruct (s_range _ _ _ _ Hs n o p po Ho Hp Hpo) as (H1 & H2 & H3 & H4). exists po. split; [done|].
  unfold PAGE_SIZE in *. pose proof (Z.div_mod (parent_offset o) 4096). pose proof (Z.div_pos (parent_offset o) 4096). split; lia.
Qed.

Lemma in_range n o i : hd g n = Some o → 0 ≤ i → i * PAGE_SIZE < size o → out_of_range o i = false.
Proof.
  intros Ho Hi Hl. unfold out_of_range. destruct (s_size _ _ _ _ Hs n o Ho) as [H1 H2].
  destruct (is_hidden (type_ o) || bool_decide (parent o = None)) eqn:E.
  - apply Z.leb_gt. unfold PAGE_SIZE in *. pose proof (Z.div_mod (size o) 4096). lia.
  - apply orb_false_iff in E as [_ E%bool_decide_eq_false]. destruct (parent o) as [p|] eqn:Ep; [|done].
    destruct (s_parent _ _ _ _ Hs n o p Ho Ep) as (po & ? & ? & Hpo & _).
    destruct (s_range _ _ _ _ Hs n o p po Ho Ep Hpo) as (H3 & H4 & H5 & H6).
    destruct (s_size _ _ _ _ Hs p po Hpo) as [H7 _]. unfold PAGE_SIZE in *.
    rewrite wmul_small, wadd_small by (unfold fits; lia). apply Z.leb_gt. lia.
Qed.

Lemma asks_up n o c co x : hd g n = Some o → hd g c = Some co → parent co = Some n → asks g c x → wanted g n x.
Proof. intros Ho Hc Hp (co' & k & Hc' & Hw & Hf & ->). rewrite Hc in Hc'. injection Hc' as <-. by apply (wanted_up _ c). Qed.

(** The other child of a node. *)
Lemma sibling n o l r c : hd g n = Some o → type_ o = Hidden l r → c = l ∨ c = r →
  ∃ t d, get_tag_and_other (type_ o) c = (t, Some d) ∧ is_split t = true ∧ d ≠ c ∧ (d = l ∨ d = r) ∧
         (t = LeftSplit ∧ c = l ∧ d = r ∨ t = RightSplit ∧ c = r ∧ d = l).
Proof.
  intros Ho Ht Hc. destruct (s_hidden _ _ _ _ Hs n o l r Ho Ht) as (Hne & _ & _). rewrite Ht. simpl.
  destruct Hc as [-> | ->].
  - rewrite decide_True by done. exists LeftSplit, r. split_and!; auto.
  - rewrite decide_False, decide_True by done. exists RightSplit, l. split_and!; auto.
Qed.
End tree.

(** ** Handing a page down to a child *)
Section move.
Context (rk : nat → nat) (g g' : objects) (next : nat) (dead : gset nat).
Context (X c d : nat) (xo co : VMObjectPagedInner) (t : PageStateTag) (k x f : Z) (ps : PageState) (new : option PageState).
Hypotheses (Hs : shape rk g next dead) (Ht : tags g) (Hhd : ∀ n, hd g' n = hd g n).
Hypotheses (HX : hd g X = Some xo) (Hother : get_tag_and_other (type_ xo) c = (t, Some d))
  (Hc : hd g c = Some co) (Hp : parent co = Some X) (Hck : fr g c k = None)
  (Hx : x = k + parent_offset co / PAGE_SIZE) (HXx : fr g X x = Some ps).
Hypothesis Hfr : ∀ n i, fr g' n i =
  if decide ((n, i) = (c, k)) then Some (page_state f) else if decide ((n, i) = (X, x)) then new else fr g n i.
Hypothesis Hnew : new = Some (set_tag t ps) ∨ new = None ∧ ¬ asks g d x.
Hypothesis Hk : 0 ≤ k ∧ k * PAGE_SIZE < size co.
#[local] Set Default Proof Using "All".

Lemma moved_children : ∃ l r, type_ xo = Hidden l r ∧ (t = LeftSplit ∧ c = l ∧ d = r ∨ t = RightSplit ∧ c = r ∧ d = l).
Proof.
  unfold get_tag_and_other in Hother. destruct (type_ xo) as [| |l r]; [done|done|]. exists l, r. split; [done|].
  destruct (decide (l = c)); [injection Hother as <- <-; naive_solver|].
  destruct (decide (r = c)); [injection Hother as <- <-; naive_solver|done].
Qed.

Lemma moved_wanted m i : wanted g' m i → wanted g m i ∧ ((m, i) = (X, x) → new ≠ None).
Proof.
  destruct moved_children as (l & r & Etype & Hcd).
  induction 1 as [n o i Ho Hh Hi Hl|n o i p _ [IH IHne] Ho Hf Hpar].
  { rewrite Hhd in Ho. split; [by apply (wanted_leaf _ n o)|]. intros [= -> ->]. rewrite HX in Ho. injection Ho as <-. by rewrite Etype in Hh. }
  rewrite Hhd in Ho. rewrite Hfr in Hf. destruct (decide ((n, i) = (c, k))) as [|Hne]; [done|].
  destruct (decide ((n, i) = (X, x))) as [E|Hne']; [by specialize (IHne E)|].
  split; [by apply (wanted_up _ n)|]. intros [= -> E] ->. destruct Hnew as [|[_ Hna]]; [done|].
  destruct (s_parent _ _ _ _ Hs n o X Ho Hpar) as (xo' & l' & r' & HX' & Etype' & Hn).
  rewrite HX in HX'. injection HX' as <-. rewrite Etype in Etype'. injection Etype' as <- <-.
  assert (n = c ∨ n = d) as [-> | ->] by naive_solver.
  - rewrite Hc in Ho. injection Ho as <-. apply Hne. f_equal. lia.
  - apply Hna. exists o, i. split_and!; (done || lia).
Qed.

Lemma moved_none m i : wanted g' m i → fr g' m i = None → fr g m i = None.
Proof.
  intros Hw. destruct (moved_wanted m i Hw) as [_ Hne]. rewrite Hfr. destruct (decide _); [done|]. destruct (decide _); [|done].
  intros E. by specialize (Hne ltac:(done)).
Qed.

Lemma moved_asks e i : asks g' e i → asks g e i.
Proof.
  intros (o & k' & Ho & Hw & Hf & ->). exists o, k'. rewrite Hhd in Ho. split_and!; [done|by apply moved_wanted|by apply moved_none|done].
Qed.

Lemma moved_tags : tags g'.
Proof.
  destruct moved_children as (l & r & Etype & Hcd). split.
  - intros n o i ps' Ho. rewrite Hhd in Ho. rewrite Hfr. destruct (decide _) as [[= -> ->]|]; [intros _; rewrite Hc in Ho; by injection Ho as <-|].
    destruct (decide _) as [[= -> ->]|]; [intros _; by apply (t_range _ Ht X o x ps)|by apply (t_range _ Ht)].
  - intros n o i ps' Ho Hh. rewrite Hhd in Ho. rewrite Hfr. destruct (decide _); [by intros [= <-]|].
    destruct (decide _) as [[= -> ->]|]; [|by apply (t_leaf _ Ht n o)]. rewrite HX in Ho. injection Ho as <-. by rewrite Etype in Hh.
  - intros n o l' r' i ps' Ho Hty. rewrite Hhd in Ho. rewrite Hfr. destruct (decide _) as [|Hne]; [by intros [= <-]|].
    destruct (decide _) as [[= -> ->]|].
    + intros ->. destruct Hnew as [[= ->]|[? _]]; [|done]. simpl. rewrite HX in Ho. injection Ho as <-. rewrite Etype in Hty. injection Hty as <- <-.
      assert (¬ asks g' c x) as Hna.
      { intros (co' & k' & Hc' & Hw & Hf & E). rewrite Hhd, Hc in Hc'. injection Hc' as <-. assert (k' = k) as -> by lia.
        rewrite Hfr, decide_True in Hf by done. done. }
      destruct Hcd as [(-> & <- & _)|(-> & <- & _)]; by split.
    + intros Hps. destruct (t_hidden _ Ht n o l' r' i ps' Ho Hty Hps) as [Hl Hr]. split; intros E Ha%moved_asks; [by apply Hl|by apply Hr].
Qed.

(** What the nodes show: the page that was handed down is the one that was there. *)
Lemma moved_page m i :
  wanted g' m i →
  page_at next g' m i = Some f ∧ page_at next g m i = Some (frame ps) ∨
  page_at next g' m i = page_at next g m i ∧
    ∀ f0, page_at next g m i = Some f0 → ∃ n' i' ps', fr g n' i' = Some ps' ∧ frame ps' = f0.
Proof.
  assert (shape rk g' next dead) as Hs' by (by apply (shape_ext rk g)).
  remember (rk m) as b eqn:Eb. revert m i Eb. induction (lt_wf b) as [b _ IH]. intros m i -> Hw.
  destruct (wanted_range rk g' next dead Hs' m i Hw) as (o & Ho' & _). assert (hd g m = Some o) as Ho by (by rewrite <-Hhd).
  rewrite (page_unfold rk g' next dead Hs' m o i Ho'), (page_unfold rk g next dead Hs m o i Ho), Hfr.
  destruct (decide _) as [[= -> ->]|Hne].
  { left. split; [done|]. rewrite Hck. rewrite Hc in Ho. injection Ho as <-. rewrite Hp, <-Hx.
    by rewrite (page_unfold rk g next dead Hs X xo x HX), HXx. }
  destruct (decide _) as [[= -> ->]|Hne'].
  { right. rewrite HXx. pose proof (proj2 (moved_wanted X x Hw) eq_refl) as Hn. destruct Hnew as [E|[E _]]; [|done]. rewrite E.
    split; [done|]. intros f0 [= <-]. eauto. }
  destruct (fr g m i) as [ps'|] eqn:Efr; [right; split; [done|]; intros f0 [= <-]; eauto|].
  destruct (parent o) as [p|] eqn:Ep; [|by right].
  apply (IH (rk p)); [by apply (s_rank _ _ _ _ Hs m o)|done|]. apply (wanted_up _ m); [done|done| |done].
  rewrite Hfr, decide_False, decide_False by done. done.
Qed.
End move.

(** ** Bytes of frames *)
Lemma frames_apart f f' k : page_ok f → page_ok f' → f ≠ f' → 0 ≤ k < PAGE_SIZE → ¬ f ≤ f' + k < f + PAGE_SIZE.
Proof.
  unfold page_ok, PAGE_SIZE. intros (H1 & H2 & _) (H3 & H4 & _) Hne Hk. pose proof (Z.div_mod f 4096). pose proof (Z.div_mod f' 4096). lia.
Qed.

Lemma zlen_pmem_read a (w : Z) mm : 0 ≤ w → zlen (pmem_read a w mm) = w.
Proof. intros. unfold pmem_read, zlen. rewrite length_fmap, length_seqZ. lia. Qed.

Lemma copy_byte dst src mm a :
  byte (pmem_copy dst src PAGE_SIZE mm) a = if decide (dst ≤ a < dst + PAGE_SIZE) then byte mm (src + (a - dst)) else byte mm a.
Proof.
  unfold pmem_copy. rewrite byte_write, zlen_pmem_read by (unfold PAGE_SIZE; lia). destruct (decide _); [|done].
  unfold pmem_read. apply nth_lookup_Some. rewrite list_lookup_fmap, lookup_seqZ_lt by lia. simpl. f_equal. f_equal. lia.
Qed.

Lemma zero_byte f (w : Z) mm a : 0 ≤ w → byte (pmem_zero f w mm) a = if decide (f ≤ a < f + w) then 0 else byte mm a.
Proof.
  intros Hn. unfold pmem_zero. rewrite byte_write. unfold zlen. rewrite length_replicate, Z2Nat.id by done. destruct (decide _); [|done].
  apply nth_lookup_Some. apply lookup_replicate_2. lia.
Qed.

(** ** Frames of the objects *)
Definition detached (st : heap) f : Prop :=
  page_ok f ∧ f ∉ free st ∧ f ≠ ZERO_FRAME st ∧ ∀ n i ps, fr (objs st) n i = Some ps → frame ps ≠ f.

Lemma memory_add g g' fs fs' z mm mm' c k f :
  memory g fs z mm → fs ≡ₚ f :: fs' →
  (∀ n i ps, fr g' n i = Some ps → (n, i) = (c, k) ∧ ps = page_state f ∨
     ∃ ps0, fr g n i = Some ps0 ∧ frame ps = frame ps0 ∧ pin_count ps = pin_count ps0) →
  (∀ j, 0 ≤ j < PAGE_SIZE → byte mm' (z + j) = byte mm (z + j)) → memory g' fs' z mm'.
Proof.
  intros [Hinj Hfr [Hnd Hfree] [Hz Hzero]] Hperm Hg Hmm.
  assert (f ∈ fs) as Hf by (rewrite Hperm; by left).
  assert (∀ f', f' ∈ fs' → f' ∈ fs) as Hsub by (intros f' Hf'; rewrite Hperm; by right).
  assert (f ∉ fs' ∧ NoDup fs') as [Hfn Hnd']. { rewrite Hperm in Hnd. by apply NoDup_cons in Hnd. }
  split.
  - intros n i ps n' i' ps' [[[= -> ->] ->]|(ps0 & E1 & E2 & _)]%Hg [[[= -> ->] ->]|(ps0' & E1' & E2' & _)]%Hg E; [done| | |].
    + exfalso. simpl in E. destruct (Hfr _ _ _ E1') as (_ & Hn & _). apply Hn. by rewrite <-E2', <-E.
    + exfalso. simpl in E. destruct (Hfr _ _ _ E1) as (_ & Hn & _). apply Hn. by rewrite <-E2, E.
    + apply (Hinj n i ps0 n' i' ps0'); [done|done|congruence].
  - intros n i ps [[[= -> ->] ->]|(ps0 & E1 & E2 & E3)]%Hg; simpl.
    + destruct (Hfree f Hf). done.
    + destruct (Hfr _ _ _ E1) as (H1 & H2 & H3 & H4). rewrite E2, E3. split_and!; [done| |done|done]. auto.
  - split; [done|]. auto.
  - split; [done|]. intros j Hj. rewrite Hmm by done. by apply Hzero.
Qed.

Lemma memory_move g g' fs z mm X x c k ps :
  memory g fs z mm → fr g X x = Some ps →
  (∀ n i ps', fr g' n i = Some ps' → (n, i) = (c, k) ∧ ps' = page_state (frame ps) ∨ (n, i) ≠ (X, x) ∧ fr g n i = Some ps') →
  memory g' fs z mm.
Proof.
  intros [Hinj Hfr Hfree Hzero] HX Hg. split; [| |done|done].
  - intros n i p1 n' i' p2 [[[= -> ->] ->]|(Hne & E1)]%Hg [[[= -> ->] ->]|(Hne' & E1')]%Hg E; [done| | |].
    + exfalso. simpl in E. destruct (Hinj _ _ _ _ _ _ HX E1' E) as [-> ->]. done.
    + exfalso. simpl in E. destruct (Hinj _ _ _ _ _ _ E1 HX E) as [-> ->]. done.
    + by apply (Hinj n i p1 n' i' p2).
  - intros n i p1 [[[= -> ->] ->]|(Hne & E1)]%Hg; simpl; [|by apply (Hfr n i)].
    destruct (Hfr _ _ _ HX) as (H1 & H2 & H3 & _). done.
Qed.

(** ** Updates *)
Lemma hd_alter g n (F : VMObjectPagedInner → gmap Z PageState) m : hd (alter (λ o, set_frames (F o) o) n g) m = hd g m.
Proof.
  unfold hd. destruct (decide (m = n)) as [->|].
  - rewrite lookup_alter_eq. by destruct (g !! n).
  - by rewrite lookup_alter_ne.
Qed.

Lemma fr_alter g n o (F : VMObjectPagedInner → gmap Z PageState) m i :
  g !! n = Some o → fr (alter (λ o, set_frames (F o) o) n g) m i = if decide (m = n) then F o !! i else fr g m i.
Proof.
  intros E. unfold fr. destruct (decide (m = n)) as [->|].
  - by rewrite lookup_alter_eq, E.
  - by rewrite lookup_alter_ne.
Qed.

(** A page is put into an object. *)
Definition put c k f (st : heap) : heap := set_objs (alter (λ o, set_frames (<[k := page_state f]> (frames o)) o) c (objs st)) st.

Lemma put_same c k f st : same st (put c k f st).
Proof. split; [|done|done|done]. intros n. apply hd_alter. Qed.

Lemma fr_put c k f st o n i :
  objs st !! c = Some o → fr (objs (put c k f st)) n i = if decide ((n, i) = (c, k)) then Some (page_state f) else fr (objs st) n i.
Proof.
  intros E. unfold put. simpl. rewrite (fr_alter _ c o) by done. destruct (decide (n = c)) as [->|Hne].
  - destruct (decide (i = k)) as [->|].
    + by rewrite lookup_insert_eq, decide_True.
    + rewrite lookup_insert_ne, decide_False by congruence. unfold fr. by rewrite E.
  - by rewrite decide_False by congruence.
Qed.

Lemma same_refl st : same st st.
Proof. done. Qed.
Lemma same_trans st1 st2 st3 : same st1 st2 → same st2 st3 → same st1 st3.
Proof. intros [] []. split; congruence. Qed.
Lemma keeps_refl st : keeps st st.
Proof. done. Qed.
Lemma keeps_trans st1 st2 st3 : keeps st1 st2 → keeps st2 st3 → keeps st1 st3.
Proof.
  intros [S1 K1] [S2 K2]. split; [by eapply same_trans|]. intros n o i k Hl Hi Hs Hk. rewrite (K2 n o), (K1 n o); [done|done|done|done|done| |done|done|done].
  unfold leaf. by rewrite (sm_hd _ _ S1).
Qed.

Lemma shape_same rk st st' : same st st' → shape rk (objs st) (next_obj st) (dying st) → shape rk (objs st') (next_obj st') (dying st').
Proof. intros [E1 E2 E3 _] Hs. rewrite E2, E3. by apply (shape_ext rk (objs st)). Qed.

Lemma leaf_wanted g n o i : leaf g n o → 0 ≤ i → i * PAGE_SIZE < size o → wanted g n i.
Proof. intros [? ?] ? ?. by apply (wanted_leaf _ n o). Qed.

(** ** The two ways to hand a page down *)
Lemma wf_moved rk st st' X c d xo co t k x f ps new :
  wf rk st → same st st' → memory (objs st') (free st') (ZERO_FRAME st') (mem st') →
  hd (objs st) X = Some xo → get_tag_and_other (type_ xo) c = (t, Some d) →
  hd (objs st) c = Some co → parent co = Some X → fr (objs st) c k = None →
  x = k + parent_offset co / PAGE_SIZE → fr (objs st) X x = Some ps →
  (∀ n i, fr (objs st') n i =
    if decide ((n, i) = (c, k)) then Some (page_state f) else if decide ((n, i) = (X, x)) then new else fr (objs st) n i) →
  (new = Some (set_tag t ps) ∨ new = None ∧ ¬ asks (objs st) d x) →
  (∀ j, 0 ≤ j < PAGE_SIZE → byte (mem st') (f + j) = byte (mem st) (frame ps + j)) →
  (∀ n i ps' j, fr (objs st) n i = Some ps' → 0 ≤ j < PAGE_SIZE → byte (mem st') (frame ps' + j) = byte (mem st) (frame ps' + j)) →
  0 ≤ k ∧ k * PAGE_SIZE < size co → wf rk st' ∧ keeps st st'.
Proof.
  intros (Hs & Ht & Hm) Hsame Hm' HX Hother Hc Hp Hck Hx HXx Hfr Hnew Hb1 Hb2 Hk. pose proof (sm_hd _ _ Hsame) as Hhd.
  split; [split_and!; [by eapply shape_same| |done]|split; [done|]].
  - by apply (moved_tags rk (objs st) (objs st') (next_obj st) (dying st) X c d xo co t k x f ps new).
  - intros n o i j Hl Hi Hsz Hj. unfold pbyte, page. rewrite (sm_next _ _ Hsame).
    assert (wanted (objs st') n i) as Hw. { apply (leaf_wanted _ n o); [|done|done]. unfold leaf. by rewrite Hhd. }
    destruct (moved_page rk (objs st) (objs st') (next_obj st) (dying st) X c d xo co t k x f ps new Hs Ht Hhd HX Hother Hc Hp Hck Hx HXx Hfr Hnew Hk n i Hw)
      as [(-> & ->)|(-> & Hf0)]; [by apply Hb1|].
    destruct (page_at (next_obj st) (objs st) n i) as [f0|] eqn:E; [|done]. destruct (Hf0 f0 eq_refl) as (n' & i' & ps' & Hps & <-). by apply (Hb2 n' i').
Qed.

#[local] Opaque pmem_copy pmem_zero pmem_write byte.

Definition drop_page X x (st : heap) : heap := set_objs (alter (λ o, set_frames (delete x (frames o)) o) X (objs st)) st.
Definition retag X x t (st : heap) : heap :=
  set_objs (alter (λ o, set_frames (alter (set_tag t) x (frames o)) o) X (objs st)) st.

Lemma get_obj g n o : hd g n = Some o → ∃ o', g !! n = Some o' ∧ o = hdr o'.
Proof. apply hd_Some. Qed.

Lemma fr_drop X x st o n i :
  objs st !! X = Some o → fr (objs (drop_page X x st)) n i = if decide ((n, i) = (X, x)) then None else fr (objs st) n i.
Proof.
  intros E. unfold drop_page. simpl. rewrite (fr_alter _ X o) by done. destruct (decide (n = X)) as [->|Hne].
  - destruct (decide (i = x)) as [->|].
    + by rewrite lookup_delete_eq, decide_True.
    + rewrite lookup_delete_ne, decide_False by congruence. unfold fr. by rewrite E.
  - by rewrite decide_False by congruence.
Qed.

Lemma fr_retag X x t st o n i :
  objs st !! X = Some o → fr (objs (retag X x t st)) n i = if decide ((n, i) = (X, x)) then set_tag t <$> fr (objs st) X x else fr (objs st) n i.
Proof.
  intros E. unfold retag. simpl. rewrite (fr_alter _ X o) by done. destruct (decide (n = X)) as [->|Hne].
  - destruct (decide (i = x)) as [->|].
    + rewrite lookup_alter_eq, decide_True by done. unfold fr. by rewrite E.
    + rewrite lookup_alter_ne, decide_False by congruence. unfold fr. by rewrite E.
  - by rewrite decide_False by congruence.
Qed.

Section hand_down.
Context (rk : nat → nat) (st : heap) (X c d : nat) (xo co : VMObjectPagedInner) (t : PageStateTag) (k x : Z) (ps : PageState).
Hypotheses (Hwf : wf rk st) (HX : hd (objs st) X = Some xo) (Hother : get_tag_and_other (type_ xo) c = (t, Some d))
  (Hc : hd (objs st) c = Some co) (Hp : parent co = Some X) (Hck : fr (objs st) c k = None)
  (Hx : x = k + parent_offset co / PAGE_SIZE) (HXx : fr (objs st) X x = Some ps) (Hk : 0 ≤ k ∧ k * PAGE_SIZE < size co).
#[local] Set Default Proof Using "All".

Lemma hand_down_ne : X ≠ c.
Proof. intros ->. destruct Hwf as (Hs & _). pose proof (s_rank _ _ _ _ Hs c co c Hc Hp). lia. Qed.

Lemma hand_down_take :
  ¬ asks (objs st) d x →
  wf rk (put c k (frame ps) (drop_page X x st)) ∧ keeps st (put c k (frame ps) (drop_page X x st)).
Proof.
  intros Hna. pose proof hand_down_ne as Hne. destruct (get_obj _ _ _ HX) as (xo' & EX & ->). destruct (get_obj _ _ _ Hc) as (co' & Ec & ->).
  assert (objs (drop_page X x st) !! c = Some co') as Ec'. { unfold drop_page. simpl. by rewrite lookup_alter_ne. }
  assert (∀ n i, fr (objs (put c k (frame ps) (drop_page X x st))) n i =
    if decide ((n, i) = (c, k)) then Some (page_state (frame ps)) else if decide ((n, i) = (X, x)) then None else fr (objs st) n i) as Hfr.
  { intros n i. rewrite (fr_put c k _ _ co') by done. destruct (decide _); [done|]. by rewrite (fr_drop X x st xo'). }
  eapply (wf_moved rk st _ X c d _ _ t k x (frame ps) ps None); [done| | |done|done|done|done|done|done|done|exact Hfr|by right|done|done|done].
  - apply (same_trans _ (drop_page X x st)); [|apply put_same]. split; [|done|done|done]. intros n. apply hd_alter.
  - destruct Hwf as (_ & _ & Hm). apply (memory_move (objs st) _ _ _ _ X x c k ps); [done|done|]. intros n i ps'. rewrite Hfr.
    destruct (decide _); [intros [= <-]; by left|]. destruct (decide _); [done|]. by right.
Qed.

Lemma hand_down_copy f fs st' :
  frame_alloc (free st) = Some (f, fs) → same st st' → free st' = fs →
  (∀ a, byte (mem st') a = byte (pmem_copy f (frame ps) PAGE_SIZE (mem st)) a) →
  objs st' !! c = objs st !! c →
  (∀ n i, fr (objs st') n i = if decide ((n, i) = (X, x)) then Some (set_tag t ps) else fr (objs st) n i) →
  wf rk (put c k f st') ∧ keeps st (put c k f st').
Proof.
  intros Hal Hsame Hfree Hmem Eobj Hfr0. destruct (get_obj _ _ _ Hc) as (co' & Ec & ->). rewrite Ec in Eobj.
  apply frame_alloc_some in Hal. destruct Hwf as (Hs & Ht & Hm).
  assert (page_ok f ∧ f ≠ ZERO_FRAME st) as [Hfok Hfz]. { apply (m_free _ _ _ _ Hm). rewrite Hal. by left. }
  assert (∀ f', page_ok f' → f ≠ f' → ∀ j, 0 ≤ j < PAGE_SIZE → byte (mem st') (f' + j) = byte (mem st) (f' + j)) as Hapart.
  { intros f' Hf' Hff j Hj. rewrite Hmem, copy_byte, decide_False; [done|]. by apply frames_apart. }
  assert (∀ n i, fr (objs (put c k f st')) n i =
    if decide ((n, i) = (c, k)) then Some (page_state f) else if decide ((n, i) = (X, x)) then Some (set_tag t ps) else fr (objs st) n i) as Hfr.
  { intros n i. rewrite (fr_put c k _ _ co') by done. destruct (decide _); [done|]. apply Hfr0. }
  pose proof (sm_zero _ _ Hsame) as Hzero.
  eapply (wf_moved rk st _ X c d _ _ t k x f ps (Some (set_tag t ps)));
    [done| | |done|done|done|done|done|done|done|exact Hfr|by left| | |done].
  - by apply (same_trans _ st'); [|apply put_same].
  - change (memory (objs (put c k f st')) (free st') (ZERO_FRAME st') (mem st')). rewrite Hzero, Hfree.
    apply (memory_add (objs st) _ (free st) _ _ (mem st) _ c k f); [done|done| |].
    + intros n i ps'. rewrite Hfr. destruct (decide _); [intros [= <-]; by left|]. right.
      destruct (decide _) as [[= -> ->]|]; [|eauto]. assert (ps' = set_tag t ps) as -> by congruence. exists ps. done.
    + destruct (m_zero _ _ _ _ Hm) as [Hz _]. exact (Hapart _ Hz Hfz).
  - intros j Hj. change (mem (put c k f st')) with (mem st'). rewrite Hmem, copy_byte, decide_True by lia. f_equal. lia.
  - intros n i ps' j Hps Hj. destruct (m_frame _ _ _ _ Hm n i ps' Hps) as (H1 & H2 & _). refine (Hapart _ H1 _ j Hj).
    intros ->. apply H2. rewrite Hal. by left.
Qed.
End hand_down.

(** ** A new page of zeros *)
Definition fresh (st : heap) f : Prop :=
  memory (objs st) (f :: free st) (ZERO_FRAME st) (mem st) ∧ ∀ j, 0 ≤ j < PAGE_SIZE → byte (mem st) (f + j) = 0.

Lemma memory_perm g fs fs' z mm : fs ≡ₚ fs' → memory g fs z mm → memory g fs' z mm.
Proof.
  intros E [H1 H2 [H3 H4] H5]. split; [done| | |done].
  - intros n i ps Hps. destruct (H2 n i ps Hps) as (? & ? & ? & ?). rewrite <-E. done.
  - rewrite <-E. split; [done|]. intros f. rewrite <-E. auto.
Qed.

Lemma wanted_mono g g' n i :
  (∀ n, hd g' n = hd g n) → (∀ n i, fr g' n i = None → fr g n i = None) → wanted g' n i → wanted g n i.
Proof.
  intros Hhd Hfr. induction 1 as [n o i Ho Hh Hi Hl|n o i p _ IH Ho Hf Hp].
  - rewrite Hhd in Ho. by apply (wanted_leaf _ n o).
  - rewrite Hhd in Ho. apply (wanted_up _ n); auto.
Qed.

Lemma put_new rk st n o i f :
  wf rk st → leaf (objs st) n o → 0 ≤ i ∧ i * PAGE_SIZE < size o → fr (objs st) n i = None → page st n i = None → fresh st f →
  wf rk (put n i f st) ∧ keeps st (put n i f st).
Proof.
  intros (Hs & Ht & Hm) [Ho Hh] Hi Hn Hpage [Hm' Hz]. pose proof (put_same n i f st) as Hsame. pose proof (sm_hd _ _ Hsame) as Hhd.
  destruct (get_obj _ _ _ Ho) as (o' & Eo & ->). pose proof (λ m j, fr_put n i f st o' m j Eo) as Hfr.
  assert (∀ m j, fr (objs (put n i f st)) m j = None → fr (objs st) m j = None) as Hnone. { intros m j. rewrite Hfr. by destruct (decide _). }
  assert (shape rk (objs (put n i f st)) (next_obj st) (dying st)) as Hs' by exact (shape_same rk st _ Hsame Hs).
  split; [split_and!; [done| |]|split; [done|]].
  - split.
    + intros m mo j ps Hmo. rewrite Hfr. rewrite Hhd in Hmo. destruct (decide _) as [[= -> ->]|]; [intros _; rewrite Ho in Hmo; by injection Hmo as <-|by apply (t_range _ Ht)].
    + intros m mo j ps Hmo Hmh. rewrite Hfr. destruct (decide _); [by intros [= <-]|]. rewrite Hhd in Hmo. by apply (t_leaf _ Ht m mo).
    + intros m mo l r j ps Hmo Hty. rewrite Hfr. rewrite Hhd in Hmo. destruct (decide _) as [[= -> ->]|].
      { rewrite Ho in Hmo. injection Hmo as <-. by rewrite Hty in Hh. }
      intros Hps. destruct (t_hidden _ Ht m mo l r j ps Hmo Hty Hps) as [H1 H2].
      assert (∀ e, asks (objs (put n i f st)) e j → asks (objs st) e j) as Hasks.
      { intros e (eo & k & He & Hw & Hf & ->). exists eo, k. rewrite Hhd in He. split_and!; [done|by eapply wanted_mono|auto|done]. }
      split; intros E Ha%Hasks; [by apply H1|by apply H2].
  - apply (memory_add (objs st) _ (f :: free st) _ _ (mem st) _ n i f); [done|done| |done].
    intros m j ps. rewrite Hfr. destruct (decide _); [intros [= <-]; by left|]. intros. right. eauto.
  - assert (∀ m mo j, hd (objs st) m = Some mo → (m, j) ≠ (n, i) → page_at (next_obj st) (objs (put n i f st)) m j = page_at (next_obj st) (objs st) m j) as Hpg.
    { intros m. remember (rk m) as b eqn:Eb. revert m Eb. induction (lt_wf b) as [b _ IH]. intros m -> mo j Hmo Hne.
      rewrite (page_unfold rk _ _ _ Hs' m mo j), (page_unfold rk _ _ _ Hs m mo j), Hfr, decide_False by (done || by rewrite Hhd).
      destruct (fr (objs st) m j); [done|]. destruct (parent mo) as [p|] eqn:Ep; [|done].
      destruct (s_parent _ _ _ _ Hs m mo p Hmo Ep) as (po & l & r & Hpo & Hty & _).
      apply (IH (rk p)) with po; [by apply (s_rank _ _ _ _ Hs m mo)|done|done|]. intros [= -> _]. rewrite Ho in Hpo. injection Hpo as <-. by rewrite Hty in Hh. }
    intros m mo j k [Hmo Hmh] Hj Hsz Hk. unfold pbyte, page. destruct (decide ((m, j) = (n, i))) as [[= -> ->]|Hne].
    + change (next_obj (put n i f st)) with (next_obj st). rewrite (page_unfold rk _ _ _ Hs' n (hdr o') i) by (by rewrite Hhd).
      rewrite Hfr, decide_True by done. unfold page in Hpage. rewrite Hpage. by apply Hz.
    + change (next_obj (put n i f st)) with (next_obj st). by rewrite (Hpg m mo j Hmo Hne).
Qed.

(** ** Notifications *)
Lemma add_notes_app l1 l2 st : add_notes l2 (add_notes l1 st) = add_notes (l1 ++ l2) st.
Proof. unfold add_notes. simpl. by rewrite app_assoc. Qed.

Lemma add_notes_nil st : add_notes [] st = st.
Proof. destruct st. unfold add_notes. simpl. by rewrite app_nil_r. Qed.

Lemma bind_ok {A B} (c : M A) (k : A → M B) st (y : A) st' : c st = (Ok y, st') → bind c k st = k y st'.
Proof. intros E. unfold bind. by rewrite E. Qed.

Lemma get_ok st n o : objs st !! n = Some o → get n st = (Ok o, st).
Proof. intros E. unfold get. by rewrite E. Qed.

Lemma upgrade_ok st n o : dying st = ∅ → objs st !! n = Some o → upgrade (Some n) st = (Ok n, st).
Proof. intros Ed E. unfold upgrade. rewrite Ed, decide_False, decide_True by (set_solver || (rewrite E; eauto)). done. Qed.

Lemma notify_ok ms offset len op st : ∃ l, notify ms offset len op st = (Ok tt, add_notes l st).
Proof. eexists. reflexivity. Qed.

Lemma range_change_ok rk op fuel n o po pl st :
  shape rk (objs st) (next_obj st) (dying st) → hd (objs st) n = Some o → (next_obj st - rk n < fuel)%nat →
  ∃ l, range_change fuel n po pl op st = (Ok tt, add_notes l st).
Proof.
  revert n o po pl st. induction fuel as [|fuel IH]; intros n o po pl st Hs Ho Hf; [lia|].
  pose proof Ho as Ho'. destruct (get_obj _ _ _ Ho) as (o' & Eo & ->). cbn [range_change]. rewrite (bind_ok _ _ _ _ _ (get_ok _ _ _ Eo)).
  destruct (Z.min (parent_limit o') pl <=? Z.max (parent_offset o') po); [exists []; by rewrite add_notes_nil|].
  match goal with |- context [notify ?a ?b ?c ?d] => destruct (notify_ok a b c d st) as [l1 E1] end.
  rewrite (bind_ok _ _ _ _ _ E1). destruct (type_ o') as [| |l r] eqn:Ety; [by exists l1..|].
  destruct (s_hidden _ _ _ _ Hs n _ l r Ho' Ety) as (_ & (lo & Hl & Hpl) & ro & Hr & Hpr).
  pose proof (s_dead _ _ _ _ Hs) as Hd. pose proof (s_rank _ _ _ _ Hs l lo n Hl Hpl). pose proof (s_rank _ _ _ _ Hs r ro n Hr Hpr).
  pose proof (s_bound _ _ _ _ Hs l lo Hl) as [? _]. pose proof (s_bound _ _ _ _ Hs r ro Hr) as [? _].
  destruct (get_obj _ _ _ Hl) as (lo' & El & _). destruct (get_obj _ _ _ Hr) as (ro' & Er & _).
  rewrite (bind_ok _ _ _ _ _ (upgrade_ok (add_notes l1 st) l lo' Hd El)).
  match goal with |- context [range_change fuel l ?a ?b op] => destruct (IH l lo a b (add_notes l1 st) Hs Hl) as [l2 E2]; [simpl; lia|] end.
  rewrite (bind_ok _ _ _ _ _ E2), add_notes_app. rewrite (bind_ok _ _ _ _ _ (upgrade_ok (add_notes (l1 ++ l2) st) r ro' Hd Er)).
  match goal with |- context [range_change fuel r ?a ?b op] => destruct (IH r ro a b (add_notes (l1 ++ l2) st) Hs Hr) as [l3 E3]; [simpl; lia|] end.
  rewrite E3, add_notes_app. eauto.
Qed.

(** ** Committing a page *)
(** Who asks for page [i] of node [n]: the object itself, or a child of a hidden node. *)
Definition child_ok g n o i (child : option nat) : Prop :=
  match child with
  | None => is_hidden (type_ o) = false
  | Some c => ∃ co k, hd g c = Some co ∧ parent co = Some n ∧ wanted g c k ∧ fr g c k = None ∧ i = k + parent_offset co / PAGE_SIZE
  end.

(** Only the node [n] and nodes above it change. *)
Definition lower (rk : nat → nat) n (st st' : heap) : Prop := ∀ m, (rk n < rk m)%nat → objs st' !! m = objs st !! m.

Definition shows (st : heap) n i (a : Z) : Prop := page st n i = Some a ∨ page st n i = None ∧ a = ZERO_FRAME st.

Definition commit_post (rk : nat → nat) (st : heap) n i (flags : Z) (child : option nat) (res : ZxResult CommitResult * heap) : Prop :=
  let st' := res.2 in
  lower rk n st st' ∧
  match res.1 with
  | Ok (Ref a) => wf rk st' ∧ keeps st st' ∧ shows st' n i a ∧
      (contains flags MMUFlags.WRITE = true → child = None ∧ ∃ ps, fr (objs st') n i = Some ps ∧ frame ps = a)
  | Ok (NewPage f) => contains flags MMUFlags.WRITE = true ∧ is_Some child ∧ wf rk st' ∧ keeps st st' ∧ page st' n i = None ∧ fresh st' f
  | Ok (CopyOnWrite f _) => ∃ c co k, child = Some c ∧ hd (objs st) c = Some co ∧ i = k + parent_offset co / PAGE_SIZE ∧
      wf rk (put c k f st') ∧ keeps st (put c k f st')
  | Err e => (e = ZxError.NO_MEMORY ∧ contains flags MMUFlags.WRITE = true) ∧ free st' = [] ∧ wf rk st' ∧ keeps st st'
  | Panic => False
  end.

Lemma alter_here g n o (F : VMObjectPagedInner → gmap Z PageState) :
  g !! n = Some o → alter (set_frames (F o)) n g = alter (λ o, set_frames (F o) o) n g.
Proof.
  intros E. apply map_eq. intros m. destruct (decide (m = n)) as [->|]; [by rewrite !lookup_alter_eq, E|by rewrite !lookup_alter_ne].
Qed.

Lemma take_page_ok st n o i ps :
  objs st !! n = Some o → frames o !! i = Some ps → take_page n i st = (Ok ps, drop_page n i st).
Proof.
  intros Eo Ei. unfold take_page. rewrite (bind_ok _ _ _ _ _ (get_ok _ _ _ Eo)), Ei. unfold drop_page.
  rewrite <-(alter_here (objs st) n o (λ o, delete i (frames o)) Eo). done.
Qed.

Lemma lower_notes rk n l st : lower rk n st (add_notes l st).
Proof. done. Qed.

Lemma same_notes l st : same st (add_notes l st).
Proof. done. Qed.

Lemma keeps_notes l st : keeps st (add_notes l st).
Proof. split; [apply same_notes|done]. Qed.

(** The bits of a page number at a node and at its child. *)
Lemma asks_in_range rk st d oo n i :
  shape rk (objs st) (next_obj st) (dying st) → hd (objs st) d = Some oo → parent oo = Some n → asks (objs st) d i →
  parent_offset oo / PAGE_SIZE ≤ i < parent_limit oo / PAGE_SIZE.
Proof.
  intros Hs Hd Hp (oo' & k & Hd' & Hw & _ & ->). rewrite Hd in Hd'. injection Hd' as <-.
  destruct (wanted_range rk _ _ _ Hs d k Hw) as (o' & Hd' & Hk & Hsz). rewrite Hd in Hd'. injection Hd' as <-.
  destruct (s_parent _ _ _ _ Hs d oo n Hd Hp) as (po & ? & ? & Hpo & _).
  destruct (s_range _ _ _ _ Hs d oo n po Hd Hp Hpo) as (H1 & H2 & H3 & _). destruct (s_size _ _ _ _ Hs d oo Hd) as [_ H4].
  unfold PAGE_SIZE in *. pose proof (Z.div_mod (parent_offset oo) 4096). pose proof (Z.div_mod (size oo) 4096).
  assert (parent_limit oo / 4096 = parent_offset oo / 4096 + size oo / 4096) as ->.
  { rewrite H3. symmetry. apply Z.div_unique with 0; lia. }
  lia.
Qed.

Lemma other_sees_ok rk st d oo n i need :
  shape rk (objs st) (next_obj st) (dying st) → hd (objs st) d = Some oo → parent oo = Some n →
  ∃ b l, other_sees (Some d) i need st = (Ok b, add_notes l st) ∧ (b = false → ¬ asks (objs st) d i).
Proof.
  intros Hs Hd Hp. destruct (get_obj _ _ _ Hd) as (oo' & Ed & ->). unfold other_sees.
  rewrite (bind_ok _ _ _ _ _ (upgrade_ok st d oo' (s_dead _ _ _ _ Hs) Ed)), (bind_ok _ _ _ _ _ (get_ok _ _ _ Ed)).
  destruct ((parent_offset oo' / PAGE_SIZE <=? i) && (i <? parent_limit oo' / PAGE_SIZE)) eqn:E.
  - cbn [negb]. rewrite (bind_ok _ _ st (fuel_of st) st) by done. exists true.
    assert (∃ l, (if need then range_change (fuel_of st) d (i *u PAGE_SIZE) ((1 +u i) *u PAGE_SIZE) Unmap else ret tt) st = (Ok tt, add_notes l st)) as [l El].
    { destruct need; [|exists []; by rewrite add_notes_nil]. apply (range_change_ok rk _ _ _ (hdr oo')); [done|done|unfold fuel_of; lia]. }
    exists l. by rewrite (bind_ok _ _ _ _ _ El).
  - exists false, []. rewrite add_notes_nil. split; [done|]. intros _ Ha.
    pose proof (asks_in_range rk st d (hdr oo') n i Hs Hd Hp Ha) as Hr. change (parent_offset (hdr oo')) with (parent_offset oo') in Hr.
    change (parent_limit (hdr oo')) with (parent_limit oo') in Hr. lia.
Qed.

Section settle.
Context (rk : nat → nat) (st : heap) (n : nat) (o : VMObjectPagedInner) (i flags : Z) (ps : PageState).
Hypotheses (Hwf : wf rk st) (Ho : objs st !! n = Some o) (Hi : frames o !! i = Some ps).

Lemma settle_leaf need : is_hidden (type_ o) = false → commit_post rk st n i flags None (settle n i flags None need st).
Proof.
  intros Hh. destruct Hwf as (Hs & Ht & Hm). unfold settle. rewrite (bind_ok _ _ _ _ _ (get_ok _ _ _ Ho)), Hh.
  rewrite (bind_ok (ret true) _ st true st) by done. cbn [negb].
  assert (hd (objs st) n = Some (hdr o)) as Hn by (unfold hd; by rewrite Ho).
  assert (fr (objs st) n i = Some ps) as Hfr by (unfold fr; by rewrite Ho).
  assert (∃ l, (if need then notify (mappings o) i 1 Unmap else ret tt) st = (Ok tt, add_notes l st)) as [l El].
  { destruct need; [apply notify_ok|]. exists []. by rewrite add_notes_nil. }
  rewrite (bind_ok _ _ _ _ _ El), Hi, (t_leaf _ Ht n (hdr o) i ps Hn Hh Hfr). simpl. rewrite andb_false_r.
  split; [done|]. split; [done|]. split; [apply keeps_notes|]. split; [|eauto]. left. change (page_at (next_obj st) (objs st) n i = Some (frame ps)).
  by rewrite (page_unfold rk _ _ _ Hs n (hdr o) i Hn), Hfr.
Qed.

Lemma settle_hidden c need : child_ok (objs st) n o i (Some c) → commit_post rk st n i flags (Some c) (settle n i flags (Some c) need st).
Proof.
  intros (co & k & Hc & Hp & Hw & Hck & Hik). pose proof Hwf as (Hs & Ht & Hm).
  assert (hd (objs st) n = Some (hdr o)) as Hn by (unfold hd; by rewrite Ho).
  assert (fr (objs st) n i = Some ps) as Hfr by (unfold fr; by rewrite Ho).
  assert (asks (objs st) c i) as Hask by (exists co, k; done).
  assert (0 ≤ k ∧ k * PAGE_SIZE < size co) as Hkr.
  { destruct (wanted_range rk _ _ _ Hs c k Hw) as (co' & Hc' & ? & ?). rewrite Hc in Hc'. by injection Hc' as <-. }
  destruct (s_parent _ _ _ _ Hs c co n Hc Hp) as (o' & l & r & Hn' & Hty & Hlr). rewrite Hn in Hn'. injection Hn' as <-. change (type_ o = Hidden l r) in Hty.
  destruct (sibling rk _ _ _ Hs n (hdr o) l r c Hn Hty Hlr) as (t & d & Hother & Hsplit & Hdc & Hd & Htd). change (type_ (hdr o)) with (type_ o) in *.
  assert (∃ oo, hd (objs st) d = Some oo ∧ parent oo = Some n) as (oo & Hoo & Hdp).
  { destruct (s_hidden _ _ _ _ Hs n (hdr o) l r Hn Hty) as (_ & ? & ?). destruct Hd as [-> | ->]; done. }
  destruct (get_obj _ _ _ Hoo) as (oo' & Eoo & ->).
  assert (¬ asks (objs st) d i → ∀ l, commit_post rk st n i flags (Some c) (Ok (CopyOnWrite (frame ps) need), drop_page n i (add_notes l st))) as Htake.
  { intros Hna notes. split.
    { intros m Hm'. unfold drop_page. simpl. rewrite lookup_alter_ne; [done|]. intros ->. lia. }
    exists c, co, k. destruct (hand_down_take rk (add_notes notes st) n c d (hdr o) co t k i ps Hwf Hn Hother Hc Hp Hck Hik Hfr Hkr Hna) as [Hw' Hk'].
    split_and!; [done|done|done|done|]. eapply keeps_trans; [apply (keeps_notes notes)|done]. }
  unfold settle. rewrite (bind_ok _ _ _ _ _ (get_ok _ _ _ Ho)), Hother, Hty. cbn [is_hidden].
  destruct (other_sees_ok rk st d (hdr oo') n i need Hs Hoo Hdp) as (b & l1 & Esee & Hb). rewrite (bind_ok _ _ _ _ _ Esee).
  destruct b; cbn [negb].
  2:{ rewrite (bind_ok _ _ _ _ _ (take_page_ok (add_notes l1 st) n o i ps Ho Hi)). by apply Htake, Hb. }
  assert (∃ l, (if need then notify (mappings o) i 1 Unmap else ret tt) (add_notes l1 st) = (Ok tt, add_notes l st)) as [l2 El].
  { destruct need; [|by exists l1]. destruct (notify_ok (mappings o) i 1 Unmap (add_notes l1 st)) as [l2 ->]. rewrite add_notes_app. eauto. }
  rewrite (bind_ok _ _ _ _ _ El), Hi. destruct (t_hidden _ Ht n (hdr o) l r i ps Hn Hty Hfr) as [Hleft Hright].
  destruct (tag ps) eqn:Etag; cbn [is_split].
  - rewrite Hsplit, andb_true_r. destruct (contains flags MMUFlags.WRITE) eqn:Ew.
    + unfold frame_new, bind at 1. change (free (add_notes l2 st)) with (free st). destruct (frame_alloc (free st)) as [[f fs]|] eqn:Eal.
      2:{ split; [done|]. split; [done|]. split; [by apply frame_alloc_none|]. split; [done|apply keeps_notes]. }
      set (st3 := set_objs (alter (set_frames (<[i := set_tag t ps]> (frames o))) n (objs st))
                    (set_mem (pmem_copy f (frame ps) PAGE_SIZE (mem st)) (set_free fs (add_notes l2 st)))).
      change (commit_post rk st n i flags (Some c) (Ok (CopyOnWrite f true), st3)). split.
      { intros m Hm'. unfold st3. simpl. rewrite lookup_alter_ne; [done|]. intros ->. lia. }
      exists c, co, k. split; [done|]. split; [done|]. split; [done|].
      assert (n ≠ c) as Hnc by (by apply (hand_down_ne rk st n c d (hdr o) co t k i ps)).
      apply (hand_down_copy rk st n c d (hdr o) co t k i ps) with fs; [done|done|done|done|done|done|done|done|done|done| |done| | |].
      * split; [|done|done|done]. intros m. unfold st3. simpl. apply (hd_alter (objs st) n (λ _, <[i := set_tag t ps]> (frames o))).
      * done.
      * unfold st3. simpl. by rewrite lookup_alter_ne.
      * intros m j. unfold st3. simpl. rewrite (fr_alter (objs st) n o (λ _, <[i := set_tag t ps]> (frames o))) by done.
        destruct (decide (m = n)) as [->|]; [|by rewrite decide_False by congruence]. destruct (decide (j = i)) as [->|].
        -- by rewrite lookup_insert_eq, decide_True.
        -- rewrite lookup_insert_ne, decide_False by congruence. unfold fr. by rewrite Ho.
    + split; [done|]. split; [done|]. split; [apply keeps_notes|]. split; [|by rewrite Ew]. left.
      change (page_at (next_obj st) (objs st) n i = Some (frame ps)). by rewrite (page_unfold rk _ _ _ Hs n (hdr o) i Hn), Hfr.
  - rewrite (bind_ok _ _ _ _ _ (take_page_ok (add_notes l2 st) n o i ps Ho Hi)). apply Htake. specialize (Hleft eq_refl). naive_solver.
  - rewrite (bind_ok _ _ _ _ _ (take_page_ok (add_notes l2 st) n o i ps Ho Hi)). apply Htake. specialize (Hright eq_refl). naive_solver.
Qed.
End settle.

Lemma post_trans rk st st1 n i flags child res :
  lower rk n st st1 → keeps st st1 → commit_post rk st1 n i flags child res → commit_post rk st n i flags child res.
Proof.
  intros Hlow Hk [Hlow' Hres]. split; [intros m Hm; rewrite Hlow' by done; by apply Hlow|].
  destruct res as [[[a|f b|f]|e|] st2]; cbn [fst snd] in *; [| | | |done].
  - destruct Hres as (H1 & H2 & H3 & H4). split_and!; [done|by eapply keeps_trans|done|done].
  - destruct Hres as (c & co & k & H1 & H2 & H3 & H4 & H5). exists c, co, k. rewrite <-(sm_hd _ _ (proj1 Hk)).
    split_and!; [done|done|done|done|by eapply keeps_trans].
  - destruct Hres as (H1 & H2 & H3 & H4 & H5 & H6). split_and!; [done|done|done|by eapply keeps_trans|done|done].
  - destruct Hres as (H1 & H2 & H3 & H4). split; [done|]. split; [done|]. split; [done|by eapply keeps_trans].
Qed.

(** What an object below asks for does not depend on the nodes above. *)
Lemma wanted_lower rk g g' next dead b c k :
  shape rk g next dead → (∀ m, (b < rk m)%nat → g' !! m = g !! m) → wanted g c k → (b < rk c)%nat → wanted g' c k.
Proof.
  intros Hs Hlow. induction 1 as [n o i Ho Hh Hi Hl|n o i p _ IH Ho Hf Hp]; intros Hb.
  - apply (wanted_leaf _ n o); [|done|done|done]. unfold hd. by rewrite Hlow.
  - pose proof (s_rank _ _ _ _ Hs n o p Ho Hp) as Hr. apply (wanted_up _ n); [apply IH; lia| | |done].
    + unfold hd. by rewrite Hlow by lia.
    + unfold fr. by rewrite Hlow by lia.
Qed.

Lemma page_frame (fuel : nat) g n i f : page_at fuel g n i = Some f → ∃ n' i' ps, fr g n' i' = Some ps ∧ frame ps = f.
Proof.
  revert n i. induction fuel as [|fuel IH]; intros n i; [done|]. simpl. destruct (g !! n) as [o|] eqn:E; [|done].
  destruct (frames o !! i) as [ps|] eqn:Ei.
  - intros [= <-]. exists n, i, ps. split; [|done]. unfold fr. by rewrite E.
  - destruct (parent o); [apply IH|done].
Qed.

Lemma new_zero_ok rk st f fs :
  wf rk st → frame_alloc (free st) = Some (f, fs) →
  ∃ st1, new_zero st = (Ok f, st1) ∧ objs st1 = objs st ∧ wf rk st1 ∧ keeps st st1 ∧ fresh st1 f ∧ same st st1.
Proof.
  intros (Hs & Ht & Hm) Eal. exists (set_mem (pmem_zero f PAGE_SIZE (mem st)) (set_free fs st)).
  split; [unfold new_zero, frame_new, bind; by rewrite Eal|]. split; [done|].
  apply frame_alloc_some in Eal. pose proof (memory_perm _ _ _ _ _ Eal Hm) as Hm1.
  set (mm := pmem_zero f PAGE_SIZE (mem st)).
  assert (∀ f', page_ok f' → f ≠ f' → ∀ j, 0 ≤ j < PAGE_SIZE → byte mm (f' + j) = byte (mem st) (f' + j)) as Hapart.
  { intros f' Hf' Hff j Hj. unfold mm. rewrite zero_byte by done. rewrite decide_False; [done|]. apply frames_apart; [|done|done|done].
    apply (m_free _ _ _ _ Hm1). by left. }
  assert (∀ a, f ≤ a < f + PAGE_SIZE → byte mm a = 0) as Hzero. { intros a Ha. unfold mm. by rewrite zero_byte, decide_True. }
  clearbody mm.
  assert (memory (objs st) (f :: fs) (ZERO_FRAME st) mm) as Hm2.
  { destruct Hm1 as [H1 H2 H3 [H4 H5]]. split; [done|done|done|]. split; [done|]. intros j Hj. rewrite Hapart; [by apply H5|done| |done].
    apply H3. by left. }
  assert (memory (objs st) fs (ZERO_FRAME st) mm) as Hm3.
  { apply (memory_add (objs st) _ (f :: fs) _ _ mm _ 0%nat 0 f); [done|done| |done]. intros. right. eauto. }
  split; [done|]. split; [|split; [|done]].
  - split; [done|]. intros n o i k Hl Hi Hsz Hk. unfold pbyte, page. simpl. destruct (page_at (next_obj st) (objs st) n i) as [f0|] eqn:E; [|done].
    apply page_frame in E as (n' & i' & ps & Hps & <-). destruct (m_frame _ _ _ _ Hm2 n' i' ps Hps) as (H1 & H2 & _).
    apply Hapart; [done| |done]. intros ->. apply H2. by left.
  - split; [done|]. intros j Hj. apply Hzero. lia.
Qed.

Lemma put_upd st n o i f : objs st !! n = Some o → upd n (set_frames (<[i := page_state f]> (frames o))) st = (Ok tt, put n i f st).
Proof.
  intros E. unfold upd, modify, put. by rewrite (alter_here (objs st) n o (λ o, <[i := page_state f]> (frames o)) E).
Qed.

Lemma put_lookup st n o i f : objs st !! n = Some o → objs (put n i f st) !! n = Some (set_frames (<[i := page_state f]> (frames o)) o).
Proof. intros E. unfold put. simpl. by rewrite lookup_alter_eq, E. Qed.

Lemma put_lower rk n i f st st1 : lower rk n st st1 → lower rk n st (put n i f st1).
Proof. intros Hl m Hm. unfold put. simpl. rewrite lookup_alter_ne; [by apply Hl|]. intros ->. lia. Qed.

Lemma child_leaf rk st n o i child :
  shape rk (objs st) (next_obj st) (dying st) → objs st !! n = Some o → child_ok (objs st) n o i child → is_hidden (type_ o) = bool_decide (is_Some child).
Proof.
  intros Hs Ho. destruct child as [c|]; simpl; [|done]. intros (co & k & Hc & Hp & _).
  destruct (s_parent _ _ _ _ Hs c co n Hc Hp) as (po & l & r & Hpo & Hty & _). unfold hd in Hpo. rewrite Ho in Hpo. injection Hpo as <-.
  change (type_ o = Hidden l r) in Hty. by rewrite Hty.
Qed.

Lemma child_wanted rk st n o i child :
  shape rk (objs st) (next_obj st) (dying st) → objs st !! n = Some o → 0 ≤ i → i * PAGE_SIZE < size o → child_ok (objs st) n o i child → wanted (objs st) n i.
Proof.
  intros Hs Ho Hi Hsz Hch. assert (hd (objs st) n = Some (hdr o)) as Hn by (unfold hd; by rewrite Ho). destruct child as [c|]; simpl in Hch.
  - destruct Hch as (co & k & Hc & Hp & Hw & Hck & ->). by apply (wanted_up _ c).
  - by apply (wanted_leaf _ n (hdr o)).
Qed.

(** The object takes a new page of zeros. *)
Lemma settle_new rk st n o i f flags child :
  wf rk st → objs st !! n = Some o → 0 ≤ i ∧ i * PAGE_SIZE < size o → frames o !! i = None → is_hidden (type_ o) = false → page st n i = None → fresh st f → child = None →
  commit_post rk st n i flags child (settle n i flags child false (put n i f st)).
Proof.
  intros Hwf Ho Hir Hi Hh Hpage Hf ->. assert (leaf (objs st) n (hdr o)) as Hl. { split; [|done]. unfold hd. by rewrite Ho. }
  destruct (put_new rk st n (hdr o) i f Hwf Hl) as [Hwf' Hk']; [done|unfold fr; by rewrite Ho|done|done|].
  apply (post_trans rk st (put n i f st)); [by apply put_lower|done|].
  eapply settle_leaf; [done|by apply put_lookup|simpl; apply lookup_insert_eq|done].
Qed.

(** A node continues with what its parent returned. *)
Definition continue n o i (flags : Z) (child : option nat) p (parent_idx : Z) (r : CommitResult) : M CommitResult :=
  match r with
  | NewPage f =>
      if is_hidden (type_ o) then ret (NewPage f)
      else let! _ := upd n (set_frames (<[i := page_state f]> (frames o))) in settle n i flags child false
  | CopyOnWrite f unmap => let! need_unmap := adopt n p i parent_idx f unmap in settle n i flags child need_unmap
  | Ref paddr => ret (Ref paddr)
  end.

Section via_parent.
Context (rk : nat → nat) (st : heap) (n p : nat) (o : VMObjectPagedInner) (i flags : Z) (child : option nat).
Hypotheses (Hwf : wf rk st) (Ho : objs st !! n = Some o) (Hi : 0 ≤ i) (Hsz : i * PAGE_SIZE < size o)
  (Hch : child_ok (objs st) n o i child) (Ei : frames o !! i = None) (Ep : parent o = Some p).
Context (st1 : heap).
Hypotheses (Hlow : lower rk p st st1).

Lemma via_rank : (rk p < rk n)%nat.
Proof.
  destruct Hwf as (Hs & _). apply (s_rank _ _ _ _ Hs n (hdr o)); [|done]. unfold hd. by rewrite Ho.
Qed.

Lemma via_lower : lower rk n st st1.
Proof. pose proof via_rank. intros m Hm. apply Hlow. lia. Qed.

Lemma via_here : objs st1 !! n = Some o.
Proof. pose proof via_rank. rewrite Hlow by lia. done. Qed.

Lemma via_page : wf rk st1 → page st1 n i = page st1 p (i + parent_offset o / PAGE_SIZE).
Proof.
  intros (Hs & _). unfold page. rewrite (page_unfold rk _ _ _ Hs n (hdr o) i) by (unfold hd; by rewrite via_here).
  unfold fr. rewrite via_here. simpl. by rewrite Ei, Ep.
Qed.

Lemma via_child f : keeps st (put n i f st1) → child_ok (objs (put n i f st1)) n (set_frames (<[i := page_state f]> (frames o)) o) i child.
Proof.
  intros [Hsame _]. pose proof via_lower as Hln. destruct child as [c|]; [|done]. destruct Hch as (co & k & Hc & Hp & Hw & Hck & Hik). pose proof Hwf as (Hs & _).
  pose proof (s_rank _ _ _ _ Hs c co n Hc Hp) as Hr. pose proof (put_lower rk n i f st st1 Hln) as Hl.
  exists co, k. split_and!; [by rewrite (sm_hd _ _ Hsame)|done| | |done].
  - by apply (wanted_lower rk (objs st) _ (next_obj st) (dying st) (rk n)).
  - unfold fr in *. by rewrite Hl.
Qed.

Lemma via_parent r :
  commit_post rk st p (i + parent_offset o / PAGE_SIZE) flags (Some n) (Ok r, st1) →
  commit_post rk st n i flags child (continue n o i flags child p (i + parent_offset o / PAGE_SIZE) r st1).
Proof.
  intros [_ Hres]. pose proof Hwf as (Hs & _). pose proof (child_leaf rk st n o i child Hs Ho Hch) as Hleaf.
  pose proof via_lower as Hln. pose proof via_here as Hhere. destruct r as [a|f b|f]; cbn [fst snd] in Hres; unfold continue.
  - destruct Hres as (Hw1 & Hk1 & Hshow & HW). split; [done|]. split; [done|]. split; [done|]. split.
    + change (shows st1 n i a). unfold shows. by rewrite (via_page Hw1).
    + intros [? _]%HW. done.
  - destruct Hres as (c & co & k & [= <-] & Hc & Hk & Hw1 & Hk1). unfold hd in Hc. rewrite Ho in Hc. injection Hc as <-.
    change (parent_offset (hdr o)) with (parent_offset o) in Hk. assert (k = i) as -> by lia.
    assert (contiguous o = false) as Hcont. { apply (s_plain _ _ _ _ Hs n (hdr o)). unfold hd. by rewrite Ho. }
    rewrite (bind_ok _ _ st1 b (put n i f st1)).
    2:{ unfold adopt. rewrite (bind_ok _ _ _ _ _ (get_ok _ _ _ Hhere)), Hcont. by rewrite (bind_ok _ _ _ _ _ (put_upd st1 n o i f Hhere)). }
    apply (post_trans rk st (put n i f st1)); [by apply put_lower|done|].
    pose proof (via_child f Hk1) as Hch'. pose proof (put_lookup st1 n o i f Hhere) as Hput.
    destruct child as [c|].
    + eapply settle_hidden; [done|done|simpl; apply lookup_insert_eq|done].
    + eapply settle_leaf; [done|done|simpl; apply lookup_insert_eq|done].
  - destruct Hres as (HW & _ & Hw1 & Hk1 & Hpage & Hf). rewrite <-(via_page Hw1) in Hpage. destruct (is_hidden (type_ o)) eqn:Hh.
    + symmetry in Hleaf. apply bool_decide_eq_true in Hleaf. done.
    + rewrite (bind_ok _ _ _ _ _ (put_upd st1 n o i f Hhere)). apply (post_trans rk st st1); [done|done|].
      apply (settle_new rk st1 n o i f); try done. destruct child; [|done]. by symmetry in Hleaf; apply bool_decide_eq_false in Hleaf as [].
Qed.
End via_parent.

Lemma commit_spec rk flags fuel n o i child st :
  wf rk st → objs st !! n = Some o → 0 ≤ i → i * PAGE_SIZE < size o → child_ok (objs st) n o i child → (rk n < fuel)%nat →
  commit_post rk st n i flags child (commit_page_internal fuel n i flags child st).
Proof.
  revert n o i child st. induction fuel as [|fuel IH]; intros n o i child st Hwf Ho Hi Hsz Hch Hfuel; [lia|].
  pose proof Hwf as (Hs & Ht & Hm). assert (hd (objs st) n = Some (hdr o)) as Hn by (unfold hd; by rewrite Ho).
  pose proof (child_leaf rk st n o i child Hs Ho Hch) as Hleaf.
  cbn [commit_page_internal]. rewrite (bind_ok _ _ _ _ _ (get_ok _ _ _ Ho)).
  assert (out_of_range o i = false) as Hoor by exact (in_range rk _ _ _ Hs n (hdr o) i Hn Hi Hsz). rewrite Hoor.
  destruct (frames o !! i) as [ps|] eqn:Ei.
  { destruct child as [c|]; [by apply (settle_hidden rk st n o i flags ps)|by apply (settle_leaf rk st n o i flags ps)]. }
  assert (fr (objs st) n i = None) as Hfr by (unfold fr; by rewrite Ho).
  destruct (parent o) as [p|] eqn:Ep.
  - pose proof (child_wanted rk st n o i child Hs Ho Hi Hsz Hch) as Hw.
    pose proof (wanted_up _ n (hdr o) i p Hw Hn Hfr Ep) as Hwp. change (parent_offset (hdr o)) with (parent_offset o) in Hwp.
    destruct (wanted_range rk _ _ _ Hs p _ Hwp) as (po & Hp & Hpi & Hpsz). destruct (get_obj _ _ _ Hp) as (po' & Epo & ->).
    assert (i +u parent_offset o / PAGE_SIZE = i + parent_offset o / PAGE_SIZE) as ->.
    { apply wadd_small. destruct (s_size _ _ _ _ Hs p _ Hp) as [? _]. unfold fits, PAGE_SIZE in *. lia. }
    pose proof (s_rank _ _ _ _ Hs n _ p Hn Ep) as Hrank.
    assert (commit_post rk st p (i + parent_offset o / PAGE_SIZE) flags (Some n) (commit_page_internal fuel p (i + parent_offset o / PAGE_SIZE) flags (Some n) st)) as Hpost.
    { apply (IH p po'); [done|done|done|done| |lia]. exists (hdr o), i. done. }
    destruct (commit_page_internal fuel p (i + parent_offset o / PAGE_SIZE) flags (Some n) st) as [[r|e|] st1] eqn:Er.
    + rewrite (bind_ok _ _ _ _ _ Er). destruct Hpost as [Hlow Hpost]. by apply (via_parent rk st n p o i flags child Hwf Ho Hi Hsz Hch Ei Ep st1 Hlow r).
    + unfold bind. rewrite Er. destruct Hpost as [Hlow Hpost]. split; [|done]. intros m Hm'. apply Hlow. simpl. lia.
    + by destruct Hpost.
  - assert (page st n i = None) as Hpage. { unfold page. rewrite (page_unfold rk _ _ _ Hs n (hdr o) i Hn), Hfr. simpl. by rewrite Ep. }
    destruct (contains flags MMUFlags.WRITE) eqn:Ew; cbn [negb].
    2:{ split; [done|]. split; [done|]. split; [apply keeps_refl|]. split; [by right|by rewrite Ew]. }
    destruct (frame_alloc (free st)) as [[f fs]|] eqn:Eal.
    2:{ unfold new_zero, frame_new, bind. rewrite Eal. split; [done|]. split; [done|]. split; [by apply frame_alloc_none|]. split; [done|apply keeps_refl]. }
    destruct (new_zero_ok rk st f fs Hwf Eal) as (st1 & E1 & Eobj & Hwf1 & Hk1 & Hf1 & Hsame1). rewrite (bind_ok _ _ _ _ _ E1).
    rewrite (bind_ok _ _ st1 tt st1) by done. assert (page st1 n i = None) as Hpage1. { unfold page in *. by rewrite Eobj, (sm_next _ _ Hsame1). }
    assert (lower rk n st st1) as Hlow by (intros m _; by rewrite Eobj).
    destruct (is_hidden (type_ o)) eqn:Hh.
    + split; [done|]. symmetry in Hleaf. apply bool_decide_eq_true in Hleaf. done.
    + rewrite <-Eobj in Ho. rewrite (bind_ok _ _ _ _ _ (put_upd st1 n o i f Ho)).
      apply (post_trans rk st st1); [done|done|]. apply (settle_new rk st1 n o i f); try done. destruct child; [|done]. by symmetry in Hleaf; apply bool_decide_eq_false in Hleaf as [].
Qed.

Lemma commit_page_spec rk st n o i flags :
  wf rk st → leaf (objs st) n o → 0 ≤ i → i * PAGE_SIZE < size o →
  let '(r, st') := commit_page n i flags st in
  wf rk st' ∧ keeps st st' ∧
  match r with
  | Ok a => shows st' n i a ∧ (contains flags MMUFlags.WRITE = true → ∃ ps, fr (objs st') n i = Some ps ∧ frame ps = a)
  | Err e => (e = ZxError.NO_MEMORY ∧ contains flags MMUFlags.WRITE = true) ∧ free st' = []
  | Panic => False
  end.
Proof.
  intros Hwf [Ho Hh] Hi Hsz. destruct (get_obj _ _ _ Ho) as (o' & Eo & ->). pose proof Hwf as (Hs & _).
  assert (commit_post rk st n i flags None (commit_page_internal (fuel_of st) n i flags None st)) as Hpost.
  { apply (commit_spec rk flags (fuel_of st) n o'); try done. destruct (s_bound _ _ _ _ Hs n _ Ho). unfold fuel_of. lia. }
  unfold commit_page. rewrite (bind_ok _ _ st (fuel_of st) st) by done.
  destruct (commit_page_internal (fuel_of st) n i flags None st) as [[[a|f b|f]|e|] st'] eqn:Er; unfold bind at 1; rewrite Er; destruct Hpost as [_ Hpost]; cbn [fst snd] in Hpost.
  - destruct Hpost as (Hw & Hk & Hshow & HW). destruct Hw as (Hs' & Ht' & Hm').
    assert (hd (objs st') n = Some (hdr o')) as Hn' by (by rewrite (sm_hd _ _ (proj1 Hk))). destruct (get_obj _ _ _ Hn') as (o1 & E1 & E1').
    rewrite (bind_ok _ _ _ _ _ (get_ok _ _ _ E1)). destruct (s_plain _ _ _ _ Hs' n _ Hn') as [Hc _].
    assert (contiguous o1 = false) as Hc1 by exact (eq_trans (f_equal contiguous (eq_sym E1')) Hc).
    unfold check_contig. rewrite Hc1. simpl. split; [done|]. split; [done|]. split; [done|]. intros ?. by apply HW.
  - by destruct Hpost as (c & co & k & ? & _).
  - destruct Hpost as (_ & [? ?] & _). done.
  - tauto.
  - done.
Qed.

(** ** Reading and writing bytes *)
Lemma shows_byte rk st n i a k : wf rk st → shows st n i a → 0 ≤ k < PAGE_SIZE → byte (mem st) (a + k) = pbyte st n i k ∧ page_ok a.
Proof.
  intros (Hs & Ht & Hm) Hsh Hk. unfold pbyte. destruct Hsh as [E|[E ->]]; rewrite E.
  - split; [done|]. unfold page in E. apply page_frame in E as (n' & i' & ps & Hps & <-). by apply (m_frame _ _ _ _ Hm n' i').
  - destruct (m_zero _ _ _ _ Hm) as [H1 H2]. split; [by apply H2|done].
Qed.

Lemma covers_page lo hi b l a :
  0 ≤ lo → covers 12 lo hi (b :: l) → lo ≤ a < lo + len b →
  a / PAGE_SIZE = block b ∧ a mod PAGE_SIZE = block_begin b + (a - lo) ∧ 0 ≤ block b ∧ 0 ≤ block_begin b.
Proof.
  intros Hlo ((H1 & H1') & H2 & H3 & H4 & H5 & H6 & _) Ha. unfold PAGE_SIZE. change (2 ^ 12) with 4096 in *.
  pose proof (Z.div_mod lo 4096). assert (0 ≤ lo / 4096) by (apply Z.div_pos; lia).
  assert (a = 4096 * block b + (block_begin b + (a - lo))) as Ea by lia.
  split_and!; [|symmetry; apply Z.mod_unique with (block b); lia|lia|lia]. symmetry. apply Z.div_unique with (block_begin b + (a - lo)); lia.
Qed.

Lemma leaf_same st st' n o : same st st' → leaf (objs st) n o → leaf (objs st') n o.
Proof. intros Hs [? ?]. split; [by rewrite (sm_hd _ _ Hs)|done]. Qed.

(** The bytes of an object from [lo] on. *)
Definition bytes st n (lo w : Z) : list Z := content st n <$> seqZ lo w.

Lemma bytes_app st n lo w1 w2 : 0 ≤ w1 → 0 ≤ w2 → bytes st n lo (w1 + w2) = bytes st n lo w1 ++ bytes st n (lo + w1) w2.
Proof. intros. unfold bytes. by rewrite seqZ_app, fmap_app by done. Qed.

Lemma content_keeps st st' n o a : keeps st st' → leaf (objs st) n o → 0 ≤ a < size o → content st' n a = content st n a.
Proof.
  intros [_ Hk] Hl Ha. unfold content. apply (Hk n o); [done| | |apply Z.mod_pos_bound; done].
  - apply Z.div_pos; [lia|done].
  - unfold PAGE_SIZE. pose proof (Z.div_mod a 4096). pose proof (Z.mod_pos_bound a 4096). lia.
Qed.

Lemma bytes_keeps st st' n o lo w : keeps st st' → leaf (objs st) n o → 0 ≤ lo → lo + w ≤ size o → bytes st' n lo w = bytes st n lo w.
Proof.
  intros Hk Hl Hlo Hw. unfold bytes. apply list_fmap_ext. intros j a Ha. apply (content_keeps st st' n o); [done|done|].
  apply list_elem_of_lookup_2, elem_of_seqZ in Ha. lia.
Qed.

Lemma page_size_le o a : 0 ≤ a < size o → 0 ≤ a / PAGE_SIZE ∧ a / PAGE_SIZE * PAGE_SIZE < size o.
Proof.
  intros. unfold PAGE_SIZE. pose proof (Z.div_mod a 4096). pose proof (Z.mod_pos_bound a 4096). split; [apply Z.div_pos; lia|lia].
Qed.

(** One block of a read. *)
Lemma block_bytes rk st n lo hi b l paddr :
  wf rk st → shows st n (block b) paddr → 0 ≤ lo → covers 12 lo hi (b :: l) → pmem_read (paddr +u block_begin b) (len b) (mem st) = bytes st n lo (len b).
Proof.
  intros Hwf Hsh Hlo Hc. pose proof Hc as ((_ & _) & Hbb & Hbe & _ & _ & Hlen & _). change (2 ^ 12) with PAGE_SIZE in Hbe.
  destruct (shows_byte rk st n (block b) paddr 0 Hwf Hsh) as [_ (Hp1 & Hp2 & Hp3)]; [unfold PAGE_SIZE; lia|].
  rewrite wadd_small by (unfold fits; lia). unfold pmem_read, bytes. apply list_eq. intros j. rewrite !list_lookup_fmap.
  destruct (decide (Z.of_nat j < len b)) as [Hj|Hj].
  - rewrite !lookup_seqZ_lt by lia. simpl. f_equal. destruct (covers_page lo hi b l (lo + Z.of_nat j) Hlo Hc) as (E1 & E2 & _); [lia|].
    unfold content. rewrite E1, E2. rewrite <-(proj1 (shows_byte rk st n (block b) paddr (block_begin b + (lo + Z.of_nat j - lo)) Hwf Hsh ltac:(lia))).
    f_equal. lia.
  - by rewrite !lookup_seqZ_ge by lia.
Qed.

Lemma covers_le k lo hi l : covers k lo hi l → lo ≤ hi.
Proof. revert lo. induction l as [|b l IH]; intros lo; simpl; [lia|]. intros (_ & ? & _ & _ & _ & ? & Hc%IH). lia. Qed.

Lemma read_blocks_spec rk n o hi l lo st :
  wf rk st → leaf (objs st) n o → 0 ≤ lo → hi ≤ size o → covers 12 lo hi l →
  ∃ st', read_blocks n l st = (Ok (bytes st n lo (hi - lo)), st') ∧ wf rk st' ∧ keeps st st'.
Proof.
  revert lo st. induction l as [|b l IH]; intros lo st Hwf Hl Hlo Hhi Hc.
  { simpl in Hc. subst hi. exists st. rewrite Z.sub_diag. split_and!; [done|done|apply keeps_refl]. }
  pose proof Hc as ((Hb & _) & Hbb & _ & _ & _ & Hlen & Hrest). pose proof (covers_le _ _ _ _ Hrest) as Hle.
  destruct (page_size_le o lo) as [Hp1 Hp2]; [lia|]. change (2 ^ 12) with PAGE_SIZE in Hb. rewrite <-Hb in Hp1, Hp2.
  pose proof (commit_page_spec rk st n o (block b) MMUFlags.READ Hwf Hl Hp1 Hp2) as Hcom. cbn [read_blocks].
  destruct (commit_page n (block b) MMUFlags.READ st) as [[paddr|e|] st1] eqn:Ec; [| |tauto].
  2:{ destruct Hcom as (_ & _ & (_ & ?) & _). done. }
  destruct Hcom as (Hw1 & Hk1 & Hsh & _). rewrite (bind_ok _ _ _ _ _ Ec).
  rewrite (bind_ok _ _ st1 (bytes st1 n lo (len b)) st1) by (unfold reads; by rewrite (block_bytes rk st1 n lo hi b l)).
  pose proof (leaf_same _ _ n o (proj1 Hk1) Hl) as Hl1. destruct (IH (lo + len b) st1 Hw1 Hl1) as (st2 & E2 & Hw2 & Hk2); [lia|lia|done|].
  rewrite (bind_ok _ _ _ _ _ E2). exists st2. split_and!; [|done|by eapply keeps_trans].
  rewrite <-(bytes_app st1) by lia. unfold ret. do 2 f_equal. replace (len b + (hi - (lo + len b))) with (hi - lo) by lia.
  apply (bytes_keeps st st1 n o); [done|done|done|lia].
Qed.

Lemma blocks_ok lo hi st : 0 ≤ lo ≤ hi → hi < 2 ^ 64 → ∃ l, blocks_of lo hi st = (Ok l, st) ∧ covers 12 lo hi l.
Proof.
  intros H1 H2. unfold blocks_of. destruct (next_blocks lo hi 12) as (l & E & Hc); [lia|done|done|]. change PAGE_SIZE with (2 ^ 12). rewrite E. eauto.
Qed.

Lemma read_spec rk st n o offset w :
  wf rk st → leaf (objs st) n o → 0 ≤ offset → 0 ≤ w → offset + w ≤ size o →
  ∃ st', read n offset w st = (Ok (bytes st n offset w), st') ∧ wf rk st' ∧ keeps st st'.
Proof.
  intros Hwf Hl Ho Hw Hsz. pose proof Hwf as (Hs & _). pose proof Hl as [Hn _]. destruct (get_obj _ _ _ Hn) as (o' & Eo & ->).
  destruct (s_plain _ _ _ _ Hs n _ Hn) as (_ & Hpol & _). destruct (s_size _ _ _ _ Hs n _ Hn) as [Hb _]. simpl in Hpol.
  unfold read. rewrite (bind_ok _ _ _ _ _ (get_ok _ _ _ Eo)), bool_decide_true by done. cbn [negb]. rewrite wadd_small by (unfold fits; simpl in *; lia).
  destruct (blocks_ok offset (offset + w) st) as (l & El & Hc); [lia|simpl in *; lia|]. rewrite (bind_ok _ _ _ _ _ El).
  destruct (read_blocks_spec rk n _ (offset + w) l offset st Hwf Hl Ho Hsz Hc) as (st' & E & ?). exists st'. by replace (offset + w - offset) with w in E by lia.
Qed.

(** A frame of an object shows in no other place. *)
Lemma page_own rk st n o i ps (fuel : nat) m j :
  wf rk st → leaf (objs st) n o → fr (objs st) n i = Some ps → page_at fuel (objs st) m j = Some (frame ps) → m = n ∧ j = i.
Proof.
  intros (Hs & Ht & Hm) [Ho Hh] Hps. revert m j. induction fuel as [|fuel IH]; intros m j; [done|]. simpl.
  destruct (objs st !! m) as [mo|] eqn:Emo; [|done]. destruct (frames mo !! j) as [ps'|] eqn:Ej.
  - intros [= E]. apply (m_inj _ _ _ _ Hm m j ps' n i ps); [|done|done]. unfold fr. by rewrite Emo.
  - destruct (parent mo) as [p|] eqn:Ep; [|done]. intros [-> _]%IH. exfalso.
    destruct (s_parent _ _ _ _ Hs m (hdr mo) n) as (po & l & r & Hpo & Hty & _); [unfold hd; by rewrite Emo|done|].
    rewrite Ho in Hpo. injection Hpo as <-. by rewrite Hty in Hh.
Qed.

(** [st'] differs from [st] in the bytes [lo..hi] of object [n], which are [data] there. *)
Record wrote (st st' : heap) n (lo hi : Z) (data : Z → Z) : Prop := {
  w_same : same st st';
  w_bytes m o a : leaf (objs st) m o → 0 ≤ a < size o →
    content st' m a = if decide (m = n ∧ lo ≤ a < hi) then data a else content st m a
}.

Lemma keeps_wrote st st' n lo data : keeps st st' → wrote st st' n lo lo data.
Proof.
  intros Hk. split; [apply Hk|]. intros m o a Hl Ha. rewrite decide_False by lia. by apply (content_keeps st st' m o).
Qed.

Lemma wrote_trans st1 st2 st3 n lo mid hi data :
  lo ≤ mid ≤ hi → wrote st1 st2 n lo mid data → wrote st2 st3 n mid hi data → wrote st1 st3 n lo hi data.
Proof.
  intros Hm [S1 W1] [S2 W2]. split; [by eapply same_trans|]. intros m o a Hl Ha. rewrite (W2 m o a), (W1 m o a) by (done || by eapply leaf_same).
  repeat destruct (decide _); (done || lia).
Qed.

(** Bytes are written into a frame of the object. *)
Lemma poke_spec rk st n o lo hi b l ps bs data :
  wf rk st → leaf (objs st) n o → fr (objs st) n (block b) = Some ps → 0 ≤ lo → covers 12 lo hi (b :: l) → zlen bs = len b →
  (∀ a, lo ≤ a < lo + len b → nth (Z.to_nat (a - lo)) bs 0 = data a) →
  let st' := set_mem (pmem_write (frame ps +u block_begin b) bs (mem st)) st in
  wf rk st' ∧ wrote st st' n lo (lo + len b) data.
Proof.
  intros Hwf Hl Hps Hlo Hc Hzl Hdata. pose proof Hwf as (Hs & Ht & Hm). pose proof Hc as ((_ & _) & Hbb & Hbe & _ & _ & Hlen & _). change (2 ^ 12) with PAGE_SIZE in Hbe.
  destruct (m_frame _ _ _ _ Hm n (block b) ps Hps) as (Hok & _ & Hz & _). pose proof Hok as (Hp1 & Hp2 & Hp3).
  rewrite wadd_small by (unfold fits; lia). set (mm := pmem_write (frame ps + block_begin b) bs (mem st)).
  assert (∀ a, byte mm a = if decide (frame ps + block_begin b ≤ a < frame ps + block_begin b + len b) then nth (Z.to_nat (a - (frame ps + block_begin b))) bs 0 else byte (mem st) a) as Hmm.
  { intros a. unfold mm. by rewrite byte_write, Hzl. }
  clearbody mm. intros st'.
  assert (∀ f', page_ok f' → frame ps ≠ f' → ∀ j, 0 ≤ j < PAGE_SIZE → byte mm (f' + j) = byte (mem st) (f' + j)) as Hapart.
  { intros f' Hf' Hff j Hj. pose proof (frames_apart (frame ps) f' j Hok Hf' Hff Hj). rewrite Hmm, decide_False by lia. done. }
  split.
  - split_and!; [done|done|]. destruct Hm as [H1 H2 H3 [H4 H5]]. split; [done|done|done|]. split; [done|]. intros j Hj.
    change (byte mm (ZERO_FRAME st + j) = 0). rewrite Hapart by done. by apply H5.
  - split; [done|]. intros m mo a Hml Ha. unfold content, pbyte. change (page st' m (a / PAGE_SIZE)) with (page st m (a / PAGE_SIZE)). change (mem st') with mm.
    pose proof (Z.mod_pos_bound a PAGE_SIZE ltac:(done)) as Hmod.
    destruct (page st m (a / PAGE_SIZE)) as [f0|] eqn:Epg.
    + destruct (decide (f0 = frame ps)) as [->|Hne].
      * pose proof (page_own rk st n o (block b) ps _ m (a / PAGE_SIZE) Hwf Hl Hps Epg) as [-> Hab].
        rewrite Hmm. destruct (decide (n = n ∧ lo ≤ a < lo + len b)) as [[_ Hr]|Hr].
        -- destruct (covers_page lo hi b l a Hlo Hc Hr) as (_ & Hmd & _). rewrite decide_True by lia. rewrite <-Hdata by done. f_equal. lia.
        -- rewrite decide_False; [done|]. intros Hin. apply Hr. split; [done|]. destruct Hc as ((E1 & E2) & _). change (2 ^ 12) with PAGE_SIZE in *.
           unfold PAGE_SIZE in *. pose proof (Z.div_mod a 4096). pose proof (Z.div_mod lo 4096). lia.
      * pose proof Epg as Epg'. unfold page in Epg'. apply page_frame in Epg' as (n' & i' & ps' & Hps' & <-). destruct (m_frame _ _ _ _ Hm n' i' ps' Hps') as (Hok' & _).
        rewrite Hapart by done. rewrite decide_False; [done|]. intros [-> Hr]. destruct (covers_page lo hi b l a Hlo Hc Hr) as (E & _).
        unfold page in Epg. rewrite E, (page_unfold rk _ _ _ Hs n o (block b) (proj1 Hl)), Hps in Epg. congruence.
    + rewrite decide_False; [done|]. intros [-> Hr]. destruct (covers_page lo hi b l a Hlo Hc Hr) as (E & _).
      unfold page in Epg. by rewrite E, (page_unfold rk _ _ _ Hs n o (block b) (proj1 Hl)), Hps in Epg.
Qed.

Definition data_at (offset : Z) (data : list Z) (a : Z) : Z := nth (Z.to_nat (a - offset)) data 0.

(** The bytes up to [mid] are written; all of them, unless there is no memory left. *)
Definition write_post (rk : nat → nat) (st : heap) n (offset lo hi : Z) (data : list Z) (res : ZxResult unit * heap) : Prop :=
  wf rk res.2 ∧ ∃ mid, lo ≤ mid ≤ hi ∧ wrote st res.2 n lo mid (data_at offset data) ∧
  match res.1 with Ok _ => mid = hi | Err e => e = ZxError.NO_MEMORY ∧ free res.2 = [] | Panic => False end.

Lemma slice_nth (offset lo : Z) (w : Z) (data : list Z) a :
  offset ≤ lo ≤ a → a < lo + w → lo + w ≤ offset + zlen data → nth (Z.to_nat (a - lo)) (ztake w (zdrop (lo - offset) data)) 0 = data_at offset data a.
Proof.
  intros H1 H2 H3. unfold ztake, zdrop, data_at, zlen in *.
  destruct (lookup_lt_is_Some_2 data (Z.to_nat (a - offset))) as [y Hy]; [lia|]. rewrite (nth_lookup_Some data _ _ y Hy).
  apply nth_lookup_Some. rewrite lookup_take_lt, lookup_drop by lia. by replace (Z.to_nat (lo - offset) + Z.to_nat (a - lo))%nat with (Z.to_nat (a - offset)) by lia.
Qed.

Lemma write_blocks_spec rk n o offset data hi l lo st :
  wf rk st → leaf (objs st) n o → 0 ≤ offset ≤ lo → hi = offset + zlen data → hi ≤ size o → covers 12 lo hi l →
  write_post rk st n offset lo hi data (write_blocks n offset data l st).
Proof.
  revert lo st. induction l as [|b l IH]; intros lo st Hwf Hl Hlo Hdata Hhi Hc.
  { simpl in Hc. subst lo. split; [done|]. exists hi. split_and!; [lia|lia|apply keeps_wrote, keeps_refl|done]. }
  pose proof Hc as ((Hb & _) & Hbb & _ & Horig & _ & Hlen & Hrest). pose proof (covers_le _ _ _ _ Hrest) as Hle.
  destruct (page_size_le o lo) as [Hp1 Hp2]; [lia|]. change (2 ^ 12) with PAGE_SIZE in Hb. rewrite <-Hb in Hp1, Hp2.
  pose proof (commit_page_spec rk st n o (block b) MMUFlags.WRITE Hwf Hl Hp1 Hp2) as Hcom. cbn [write_blocks].
  destruct (commit_page n (block b) MMUFlags.WRITE st) as [[paddr|e|] st1] eqn:Ec; [| |tauto].
  2:{ destruct Hcom as (Hw1 & Hk1 & (-> & _) & Hfree). unfold bind. rewrite Ec. split; [done|]. exists lo.
      split_and!; [lia|lia|by apply keeps_wrote|done]. }
  destruct Hcom as (Hw1 & Hk1 & _ & Hown). destruct (Hown eq_refl) as (ps & Hps & <-). rewrite (bind_ok _ _ _ _ _ Ec).
  pose proof (leaf_same _ _ n o (proj1 Hk1) Hl) as Hl1. pose proof Hwf as (Hs & _). destruct (s_size _ _ _ _ Hs n o (proj1 Hl)) as [Hsz _].
  rewrite Horig, (wsub_small 64 lo) by (unfold fits; lia). set (bs := ztake (len b) (zdrop (lo - offset) data)).
  assert (zlen bs = len b) as Hbs. { unfold bs. rewrite zlen_ztake, zlen_zdrop by lia. lia. }
  destruct (poke_spec rk st1 n o lo hi b l ps bs (data_at offset data) Hw1 Hl1 Hps) as [Hw2 Hwr]; [lia|done|done| |].
  { intros a Ha. apply slice_nth; lia. }
  set (st2 := set_mem (pmem_write (frame ps +u block_begin b) bs (mem st1)) st1) in *. rewrite (bind_ok _ _ st1 tt st2) by done.
  clearbody st2 bs. pose proof (leaf_same _ _ n o (w_same _ _ _ _ _ _ Hwr) Hl1) as Hl2.
  destruct (IH (lo + len b) st2 Hw2 Hl2) as (Hw3 & mid & Hmid & Hwr3 & Hres); [lia|done|done|done|]. split; [done|]. exists mid. split; [lia|]. split; [|done].
  apply (wrote_trans st st1 _ n lo lo mid); [lia|by apply keeps_wrote|]. by apply (wrote_trans st1 st2 _ n lo (lo + len b) mid); [lia| |].
Qed.

Lemma write_spec rk st n o offset data :
  wf rk st → leaf (objs st) n o → 0 ≤ offset → offset + zlen data ≤ size o →
  write_post rk st n offset offset (offset + zlen data) data (write n offset data st).
Proof.
  intros Hwf Hl Ho Hsz. pose proof Hwf as (Hs & _). pose proof Hl as [Hn _]. destruct (get_obj _ _ _ Hn) as (o' & Eo & ->).
  destruct (s_plain _ _ _ _ Hs n _ Hn) as (_ & Hpol & _). destruct (s_size _ _ _ _ Hs n _ Hn) as [Hb _]. simpl in Hpol. pose proof (zlen_nonneg data).
  unfold write. rewrite (bind_ok _ _ _ _ _ (get_ok _ _ _ Eo)), bool_decide_true by done. cbn [negb]. rewrite wadd_small by (unfold fits; simpl in *; lia).
  destruct (blocks_ok offset (offset + zlen data) st) as (l & El & Hc); [lia|simpl in *; lia|]. rewrite (bind_ok _ _ _ _ _ El).
  apply (write_blocks_spec rk n (hdr o')); [done|done|lia|done|done|done].
Qed.

(** ** Cloning *)
Definition retype (old new : nat) o : VMObjectPagedInner :=
  match type_ o with
  | Hidden l r => if decide (l = old) then set_type (Hidden new r) o else if decide (r = old) then set_type (Hidden l new) o else o
  | _ => o
  end.

Section clone.
Context (rk : nat → nat) (g g' : objects) (next : nat) (dead : gset nat).
Context (s : nat) (so : VMObjectPagedInner) (offset len id : Z).
Hypotheses (Hs : shape rk g next dead) (Ht : tags g) (Hleaf : leaf g s so).
Hypotheses (Hoff : 0 ≤ offset ∧ offset mod PAGE_SIZE = 0) (Hlen : 0 ≤ len ∧ len mod PAGE_SIZE = 0) (Hin : offset + len ≤ size so).
Abbreviation c := next.
Abbreviation h := (S next).
Definition child_obj : VMObjectPagedInner :=
  mkPaged id Snapshot (Some h) offset (offset + len) len ∅ [] CachePolicy.Cached false 0.
Definition hidden_obj : VMObjectPagedInner :=
  mkPaged (owner so) (Hidden s c) (parent so) (parent_offset so) (parent_limit so) (size so) ∅ [] CachePolicy.Cached false 0.
Hypothesis Hhd : ∀ m, hd g' m =
  if decide (m = c) then Some child_obj else if decide (m = h) then Some hidden_obj
  else if decide (m = s) then Some (set_parent (Some h) 0 (size so) so)
  else if decide (parent so = Some m) then retype s h <$> hd g m else hd g m.
Hypothesis Hfr : ∀ m i, fr g' m i =
  if decide (m = c) then None else if decide (m = h) then fr g s i else if decide (m = s) then None else fr g m i.

Definition clone_rank (m : nat) : nat :=
  if decide (m = h) then rk s else if decide (m = c ∨ m = s) then S (rk s) else rk m.

Lemma clone_absent m o : hd g m = Some o → m ≠ c ∧ m ≠ h.
Proof. intros Ho. destruct (s_bound _ _ _ _ Hs m o Ho). lia. Qed.

Lemma clone_s : hd g s = Some so ∧ s ≠ c ∧ s ≠ h ∧ is_hidden (type_ so) = false.
Proof. destruct Hleaf as [Ho Hh]. destruct (clone_absent s so Ho). done. Qed.

(** The nodes that were there: their parents are the same, except that of [s]. *)
Lemma clone_old m o : hd g m = Some o → m ≠ s →
  ∃ o', hd g' m = Some o' ∧ parent o' = parent o ∧ parent_offset o' = parent_offset o ∧ parent_limit o' = parent_limit o ∧
        size o' = size o ∧ is_hidden (type_ o') = is_hidden (type_ o) ∧ contiguous o' = contiguous o ∧ policy o' = policy o ∧ pin_total o' = pin_total o ∧
        (parent so ≠ Some m → o' = o).
Proof.
  intros Ho Hne. destruct (clone_absent m o Ho). rewrite Hhd. rewrite !decide_False by done.
  destruct (decide (parent so = Some m)) as [E|E].
  - rewrite Ho. simpl. exists (retype s h o). split; [done|]. unfold retype. destruct (type_ o) as [| |l r] eqn:Ety.
    1,2: by rewrite Ety; split_and!.
    destruct (decide (l = s)); [by split_and!|]. destruct (decide (r = s)); [by split_and!|]. rewrite Ety. by split_and!.
  - exists o. by split_and!.
Qed.

Lemma clone_new m o' : hd g' m = Some o' → m = c ∨ m = h ∨ m = s ∨ m ≠ c ∧ m ≠ h ∧ m ≠ s ∧ ∃ o, hd g m = Some o.
Proof.
  rewrite Hhd. destruct (decide (m = c)); [auto|]. destruct (decide (m = h)); [auto|]. destruct (decide (m = s)); [auto|].
  intros E. do 3 right. split_and!; [done|done|done|]. destruct (decide _); [|eauto]. destruct (hd g m); [eauto|done].
Qed.

Lemma clone_parent_ne m o p : hd g m = Some o → parent o = Some p → p ≠ c ∧ p ≠ h ∧ p ≠ s.
Proof.
  intros Ho Hp. destruct (s_parent _ _ _ _ Hs m o p Ho Hp) as (po & l & r & Hpo & Hty & _). destruct (clone_absent p po Hpo).
  split_and!; [done|done|]. intros ->. destruct clone_s as (Hso & _ & _ & Hh). rewrite Hso in Hpo. injection Hpo as <-. by rewrite Hty in Hh.
Qed.

Definition subst_child (m : nat) : nat := if decide (m = s) then h else m.

Lemma clone_type m o o' l r : hd g m = Some o → m ≠ s → hd g' m = Some o' → type_ o = Hidden l r → type_ o' = Hidden (subst_child l) (subst_child r).
Proof.
  intros Ho Hne Ho' Hty. destruct (s_hidden _ _ _ _ Hs m o l r Ho Hty) as (Hlr & (lo & Hl & Hlp) & ro & Hr & Hrp).
  destruct (clone_absent m o Ho). destruct clone_s as (Hso & _). rewrite Hhd, !decide_False in Ho' by done. unfold subst_child.
  destruct (decide (parent so = Some m)) as [E|E].
  - rewrite Ho in Ho'. injection Ho' as <-. unfold retype. rewrite Hty. destruct (decide (l = s)) as [->|].
    + rewrite decide_False by congruence. done.
    + destruct (decide (r = s)); simpl; done.
  - rewrite Ho in Ho'. injection Ho' as <-. rewrite Hty, !decide_False; [done| |]; intros ->; rewrite Hso in *; simplify_eq; congruence.
Qed.

Lemma clone_hd_c : hd g' c = Some child_obj.
Proof. by rewrite Hhd, decide_True. Qed.
Lemma clone_hd_h : hd g' h = Some hidden_obj.
Proof. rewrite Hhd, decide_False, decide_True by lia. done. Qed.
Lemma clone_hd_s : hd g' s = Some (set_parent (Some h) 0 (size so) so).
Proof. destruct clone_s as (_ & ? & ? & _). by rewrite Hhd, decide_False, decide_False, decide_True by done. Qed.

Lemma clone_child m p mo : hd g m = Some mo → parent mo = Some p → ∃ mo', hd g' (subst_child m) = Some mo' ∧ parent mo' = Some p.
Proof.
  intros Hm Hp. unfold subst_child. destruct (decide (m = s)) as [->|Hne].
  - exists hidden_obj. split; [apply clone_hd_h|]. destruct clone_s as (Hso & _). rewrite Hso in Hm. by injection Hm as <-.
  - destruct (clone_old m mo Hm Hne) as (mo' & ? & Ep & _). exists mo'. split; [done|congruence].
Qed.

(** The nodes of the new tree and their parents. *)
Lemma clone_cases m o' : hd g' m = Some o' →
  m = c ∧ o' = child_obj ∨ m = h ∧ o' = hidden_obj ∨ m = s ∧ o' = set_parent (Some h) 0 (size so) so ∨
  m ≠ c ∧ m ≠ h ∧ m ≠ s ∧ ∃ o, hd g m = Some o ∧ parent o' = parent o ∧ parent_offset o' = parent_offset o ∧ parent_limit o' = parent_limit o ∧
    size o' = size o ∧ is_hidden (type_ o') = is_hidden (type_ o) ∧ contiguous o' = contiguous o ∧ policy o' = policy o ∧ pin_total o' = pin_total o.
Proof.
  intros Ho'. destruct (clone_new m o' Ho') as [->|[->|[->|(H1 & H2 & H3 & o & Ho)]]].
  - left. rewrite clone_hd_c in Ho'. by injection Ho' as <-.
  - right. left. rewrite clone_hd_h in Ho'. by injection Ho' as <-.
  - right. right. left. rewrite clone_hd_s in Ho'. by injection Ho' as <-.
  - do 3 right. split_and!; [done..|]. destruct (clone_old m o Ho H3) as (o1 & Ho1 & H4 & H5 & H6 & H7 & H8 & H9 & H10 & H11 & _).
    rewrite Ho1 in Ho'. injection Ho' as <-. exists o. by split_and!.
Qed.

Lemma clone_parents m o' p : hd g' m = Some o' → parent o' = Some p →
  p = h ∧ (m = s ∨ m = c) ∨ m = h ∧ parent so = Some p ∧ p ≠ s ∨ m ≠ c ∧ m ≠ h ∧ m ≠ s ∧ p ≠ h ∧ p ≠ c ∧ p ≠ s ∧ ∃ o, hd g m = Some o ∧ parent o = Some p.
Proof.
  intros Ho' Hp. destruct clone_s as (Hso & Hsc & Hsh & _). destruct (clone_cases m o' Ho') as [(-> & ->)|[(-> & ->)|[(-> & ->)|(H1 & H2 & H3 & o & Ho & Ep & _)]]].
  - left. simpl in Hp. injection Hp as <-. auto.
  - right. left. simpl in Hp. destruct (clone_parent_ne s so p Hso Hp) as (_ & _ & ?). done.
  - left. simpl in Hp. injection Hp as <-. auto.
  - right. right. rewrite Hp in Ep. symmetry in Ep. destruct (clone_parent_ne m o p Ho Ep) as (? & ? & ?). split_and!; eauto.
Qed.

Lemma clone_shape : shape clone_rank g' (S (S next)) dead.
Proof.
  destruct clone_s as (Hso & Hsc & Hsh & Hh). pose proof (s_bound _ _ _ _ Hs s so Hso) as [Hbs Hbs2]. split.
  - apply Hs.
  - intros m o' Ho'. unfold clone_rank. destruct (clone_cases m o' Ho') as [(-> & _)|[(-> & _)|[(-> & _)|(H1 & H2 & H3 & o & Ho & _)]]];
      repeat destruct (decide _); try (destruct (s_bound _ _ _ _ Hs m o Ho)); lia.
  - intros m o' p Ho' Hp. unfold clone_rank. destruct (clone_parents m o' p Ho' Hp) as [(-> & Hm)|[(-> & Ep & Hne)|(H1 & H2 & H3 & H4 & H5 & H6 & o & Ho & Ep)]].
    + rewrite decide_True, decide_False, decide_True by (naive_solver || destruct Hm; lia). lia.
    + destruct (clone_parent_ne s so p Hso Ep) as (? & ? & ?). rewrite (decide_True (P := h = h)) by done. rewrite !decide_False by naive_solver.
      by apply (s_rank _ _ _ _ Hs s so).
    + rewrite !decide_False by naive_solver. by apply (s_rank _ _ _ _ Hs m o).
  - intros m o' p Ho' Hp. destruct (clone_parents m o' p Ho' Hp) as [(-> & Hm)|[(-> & Ep & Hne)|(H1 & H2 & H3 & H4 & H5 & H6 & o & Ho & Ep)]].
    + exists hidden_obj, s, c. split; [apply clone_hd_h|]. split; [done|tauto].
    + destruct (s_parent _ _ _ _ Hs s so p Hso Ep) as (po & l & r & Hpo & Hty & Hlr). destruct (clone_old p po Hpo Hne) as (po' & Hpo' & _).
      exists po', (subst_child l), (subst_child r). split_and!; [done|by apply (clone_type p po)|]. unfold subst_child. destruct Hlr as [<-|<-]; [left|right]; by rewrite decide_True.
    + destruct (s_parent _ _ _ _ Hs m o p Ho Ep) as (po & l & r & Hpo & Hty & Hlr). destruct (clone_old p po Hpo H6) as (po' & Hpo' & _).
      exists po', (subst_child l), (subst_child r). split_and!; [done|by apply (clone_type p po)|]. unfold subst_child. destruct Hlr as [<-|<-]; [left|right]; by rewrite decide_False.
  - intros m o' l' r' Ho' Hty. destruct (clone_cases m o' Ho') as [(-> & ->)|[(-> & ->)|[(-> & ->)|(H1 & H2 & H3 & o & Ho & H4)]]]; [done| | |].
    + injection Hty as <- <-. split_and!; [done|exists (set_parent (Some h) 0 (size so) so)|exists child_obj]; (split; [apply clone_hd_s || apply clone_hd_c|done]).
    + simpl in Hty. by rewrite Hty in Hh.
    + destruct (type_ o) as [| |l r] eqn:Ety; [| |]; [exfalso; destruct H4 as (_ & _ & _ & _ & E & _); by rewrite Hty in E..|].
      rewrite (clone_type m o o' l r Ho H3 Ho' Ety) in Hty. injection Hty as <- <-.
      destruct (s_hidden _ _ _ _ Hs m o l r Ho Ety) as (Hlr & (lo & Hl & Hlp) & ro & Hr & Hrp). split_and!; [|by eapply clone_child|by eapply clone_child].
      destruct (clone_absent l lo Hl), (clone_absent r ro Hr). unfold subst_child. repeat destruct (decide _); congruence.
  - intros m o' Ho'. destruct (clone_cases m o' Ho') as [(-> & ->)|[(-> & ->)|[(-> & ->)|(H1 & H2 & H3 & o & Ho & _ & _ & _ & -> & _)]]].
    + simpl. destruct (s_size _ _ _ _ Hs s so Hso). split; [lia|tauto].
    + by apply (s_size _ _ _ _ Hs s so).
    + by apply (s_size _ _ _ _ Hs s so).
    + by apply (s_size _ _ _ _ Hs m o).
  - intros m o' p po' Ho' Hp Hpo'. destruct (clone_parents m o' p Ho' Hp) as [(-> & Hm)|[(-> & Ep & Hne)|(H1 & H2 & H3 & H4 & H5 & H6 & o & Ho & Ep)]].
    + rewrite clone_hd_h in Hpo'. injection Hpo' as <-. destruct (s_size _ _ _ _ Hs s so Hso). destruct Hm as [-> | ->].
      * rewrite clone_hd_s in Ho'. injection Ho' as <-. simpl. split_and!; [lia|done|lia|lia].
      * rewrite clone_hd_c in Ho'. injection Ho' as <-. simpl. split_and!; [lia|tauto|lia|lia].
    + destruct (s_parent _ _ _ _ Hs s so p Hso Ep) as (po & _ & _ & Hpo & _). destruct (clone_old p po Hpo Hne) as (po1 & Hpo1 & _ & _ & _ & Esz & _).
      rewrite Hpo' in Hpo1. injection Hpo1 as <-. rewrite Esz. rewrite clone_hd_h in Ho'. injection Ho' as <-. by apply (s_range _ _ _ _ Hs s so p po).
    + destruct (s_parent _ _ _ _ Hs m o p Ho Ep) as (po & _ & _ & Hpo & _). destruct (clone_old p po Hpo H6) as (po1 & Hpo1 & _ & _ & _ & Esz & _).
      rewrite Hpo' in Hpo1. injection Hpo1 as <-. rewrite Esz. destruct (clone_old m o Ho H3) as (o1 & Ho1 & _ & E1 & E2 & E3 & _).
      rewrite Ho' in Ho1. injection Ho1 as <-. rewrite E1, E2, E3. by apply (s_range _ _ _ _ Hs m o p po).
  - intros m o' Ho'. destruct (clone_cases m o' Ho') as [(-> & ->)|[(-> & ->)|[(-> & ->)|(H1 & H2 & H3 & o & Ho & _ & _ & _ & _ & _ & -> & -> & ->)]]].
    + done.
    + done.
    + by apply (s_plain _ _ _ _ Hs s so).
    + by apply (s_plain _ _ _ _ Hs m o).
Qed.

Lemma clone_wanted m i : wanted g' m i →
  m = s ∨ m = c ∨ m = h ∧ wanted g s i ∨ m ≠ s ∧ m ≠ c ∧ m ≠ h ∧ wanted g m i.
Proof.
  pose proof clone_shape as Hs'. destruct clone_s as (Hso & Hsc & Hsh & Hh). intros Hw.
  destruct (wanted_range _ _ _ _ Hs' m i Hw) as (o' & Ho' & Hi & Hsz). revert o' Ho' Hsz.
  induction Hw as [m o i Ho Hmh _ _|m o i p Hw IH Ho Hf Hp]; intros o' Ho' Hsz.
  - rewrite Ho in Ho'. injection Ho' as <-. destruct (clone_cases m o Ho) as [(-> & _)|[(-> & ->)|[(-> & _)|(H1 & H2 & H3 & o1 & Ho1 & _ & _ & _ & E1 & E2 & _)]]]; [auto|done|auto|].
    do 3 right. split_and!; [done..|]. apply (wanted_leaf _ m o1); [done|congruence|done|congruence].
  - destruct (wanted_range _ _ _ _ Hs' m i Hw) as (o1 & Ho1 & Hi1 & Hsz1). specialize (IH Hi1 o1 Ho1 Hsz1). rewrite Ho in Ho1. injection Ho1 as <-.
    destruct (clone_parents m o p Ho Hp) as [(-> & Hm)|[(-> & Ep & Hne)|(H1 & H2 & H3 & H4 & H5 & H6 & o2 & Ho2 & Ep)]].
    + right. right. left. split; [done|]. rewrite clone_hd_h in Ho'. injection Ho' as <-. by apply (wanted_leaf _ s so).
    + destruct (clone_parent_ne s so p Hso Ep) as (? & ? & _). do 3 right. split_and!; [done..|].
      rewrite clone_hd_h in Ho. injection Ho as <-. rewrite Hfr, decide_False, decide_True in Hf by lia. apply (wanted_up _ s so); [|done|done|done].
      destruct IH as [IH|[IH|[[_ IH]|(_ & _ & IH & _)]]]; [done|lia|done|done].
    + do 3 right. split_and!; [done..|]. rewrite Hfr, !decide_False in Hf by done.
      destruct (clone_old m o2 Ho2 H3) as (o3 & Ho3 & _ & E2 & _). rewrite Ho in Ho3. injection Ho3 as <-. rewrite E2.
      apply (wanted_up _ m o2); [|done|done|done]. destruct IH as [IH|[IH|[[IH _]|(_ & _ & _ & IH)]]]; done.
Qed.

Lemma clone_asks m mo x : hd g m = Some mo → asks g' (subst_child m) x → asks g m x.
Proof.
  destruct clone_s as (Hso & Hsc & Hsh & Hh). intros Hm (o' & k & Ho' & Hw & Hf & ->). destruct (clone_absent m mo Hm). unfold subst_child in *.
  destruct (decide (m = s)) as [->|Hne].
  - rewrite clone_hd_h in Ho'. injection Ho' as <-. rewrite Hso in Hm. injection Hm as <-. rewrite Hfr, decide_False, decide_True in Hf by lia.
    exists so, k. split_and!; [done| |done|done]. destruct (clone_wanted h k Hw) as [?|[?|[[_ ?]|(_ & _ & ? & _)]]]; [done|lia|done|done].
  - rewrite Hfr, !decide_False in Hf by done. destruct (clone_old m mo Hm Hne) as (o1 & Ho1 & _ & E & _). rewrite Ho' in Ho1. injection Ho1 as <-. rewrite E.
    exists mo, k. split_and!; [done| |done|done]. destruct (clone_wanted m k Hw) as [?|[?|[[? _]|(_ & _ & _ & ?)]]]; done.
Qed.

Lemma clone_tags : tags g'.
Proof.
  destruct clone_s as (Hso & Hsc & Hsh & Hh). split.
  - intros m o' i ps Ho' Hps. destruct (clone_cases m o' Ho') as [(-> & _)|[(-> & ->)|[(-> & _)|(H1 & H2 & H3 & o & Ho & HH)]]].
    + by rewrite Hfr, decide_True in Hps.
    + rewrite Hfr, decide_False, decide_True in Hps by lia. by apply (t_range _ Ht s so i ps).
    + by rewrite Hfr, decide_False, decide_False, decide_True in Hps.
    + rewrite Hfr, !decide_False in Hps by done. destruct (t_range _ Ht m o i ps Ho Hps). split; [done|]. destruct HH as (_ & _ & _ & E & _). lia.
  - intros m o' i ps Ho' Hmh Hps. destruct (clone_cases m o' Ho') as [(-> & _)|[(-> & ->)|[(-> & _)|(H1 & H2 & H3 & o & Ho & _ & _ & _ & _ & E & _)]]].
    + by rewrite Hfr, decide_True in Hps.
    + done.
    + by rewrite Hfr, decide_False, decide_False, decide_True in Hps.
    + rewrite Hfr, !decide_False in Hps by done. apply (t_leaf _ Ht m o i); [done|congruence|done].
  - intros m o' l' r' i ps Ho' Hty Hps. destruct (clone_cases m o' Ho') as [(-> & ->)|[(-> & ->)|[(-> & ->)|(H1 & H2 & H3 & o & Ho & H4)]]].
    + done.
    + rewrite Hfr, decide_False, decide_True in Hps by lia. rewrite (t_leaf _ Ht s so i ps Hso Hh Hps). done.
    + simpl in Hty. by rewrite Hty in Hh.
    + rewrite Hfr, !decide_False in Hps by done.
      destruct (type_ o) as [| |l r] eqn:Ety; [exfalso; destruct H4 as (_ & _ & _ & _ & E & _); by rewrite Hty in E..|].
      rewrite (clone_type m o o' l r Ho H3 Ho' Ety) in Hty. injection Hty as <- <-.
      destruct (s_hidden _ _ _ _ Hs m o l r Ho Ety) as (Hlr & (lo & Hl & Hlp) & ro & Hr & Hrp).
      destruct (t_hidden _ Ht m o l r i ps Ho Ety Hps) as [H5 H6].
      split; intros E Ha; [apply (H5 E); by eapply clone_asks|apply (H6 E); by eapply clone_asks].
Qed.

Lemma clone_memory fs z mm : memory g fs z mm → memory g' fs z mm.
Proof.
  destruct clone_s as (Hso & Hsc & Hsh & Hh). intros [H1 H2 H3 H4].
  assert (∀ m i ps, fr g' m i = Some ps → m ≠ s ∧ fr g (if decide (m = h) then s else m) i = Some ps) as Hsrc.
  { intros m i ps. rewrite Hfr. repeat destruct (decide _); (done || (intros; split; congruence)). }
  split; [| |done|done].
  - intros m i ps m' i' ps' [Hm Hps]%Hsrc [Hm' Hps']%Hsrc E. destruct (H1 _ _ _ _ _ _ Hps Hps' E) as [E1 ->]. split; [|done].
    repeat destruct (decide _); congruence.
  - intros m i ps [Hm Hps]%Hsrc. by apply (H2 _ _ _ Hps).
Qed.

Lemma clone_page_old m o i : hd g m = Some o → m ≠ s → page_at (S (S next)) g' m i = page_at next g m i.
Proof.
  pose proof clone_shape as Hs'. remember (rk m) as b eqn:Eb. revert m o i Eb. induction (lt_wf b) as [b _ IH]. intros m o i -> Ho Hne.
  destruct (clone_old m o Ho Hne) as (o' & Ho' & E1 & E2 & _). destruct (clone_absent m o Ho).
  rewrite (page_unfold _ _ _ _ Hs' m o' i Ho'), (page_unfold _ _ _ _ Hs m o i Ho), Hfr, !decide_False, E1, E2 by done.
  destruct (fr g m i); [done|]. destruct (parent o) as [p|] eqn:Ep; [|done].
  destruct (s_parent _ _ _ _ Hs m o p Ho Ep) as (po & _ & _ & Hpo & _). destruct (clone_parent_ne m o p Ho Ep) as (_ & _ & ?).
  by apply (IH (rk p)) with po; [apply (s_rank _ _ _ _ Hs m o)| | |].
Qed.

Lemma clone_page_h i : page_at (S (S next)) g' h i = page_at next g s i.
Proof.
  destruct clone_s as (Hso & Hsc & Hsh & Hh).
  rewrite (page_unfold _ _ _ _ clone_shape h _ i clone_hd_h), (page_unfold _ _ _ _ Hs s so i Hso), Hfr, decide_False, decide_True by lia.
  assert (∀ p j, parent so = Some p → page_at (S (S next)) g' p j = page_at next g p j) as Hup.
  { intros p j Ep. destruct (s_parent _ _ _ _ Hs s so p Hso Ep) as (po & _ & _ & Hpo & _). destruct (clone_parent_ne s so p Hso Ep) as (_ & _ & ?).
    by apply (clone_page_old p po). }
  destruct (fr g s i); [done|]. simpl. destruct (parent so) as [p|] eqn:Ep; [by apply Hup|done].
Qed.

Lemma clone_page_s i : page_at (S (S next)) g' s i = page_at next g s i.
Proof.
  destruct clone_s as (Hso & Hsc & Hsh & Hh). rewrite (page_unfold _ _ _ _ clone_shape s _ i clone_hd_s), Hfr, decide_False, decide_False, decide_True by done.
  simpl. rewrite Z.add_0_r. apply clone_page_h.
Qed.

Lemma clone_page_c i : page_at (S (S next)) g' c i = page_at next g s (i + offset / PAGE_SIZE).
Proof. rewrite (page_unfold _ _ _ _ clone_shape c _ i clone_hd_c), Hfr, decide_True by done. simpl. apply clone_page_h. Qed.
End clone.

(** The objects after [create_child]. *)
Definition cloned (st : heap) s o (offset len : Z) : objects :=
  let c := next_obj st in
  let h := S c in
  let g2 := <[h := mkPaged (owner o) (Hidden s c) (parent o) (parent_offset o) (parent_limit o) (size o) (frames o) [] CachePolicy.Cached (contiguous o) (pin_total o)]>
            (<[c := mkPaged (owner_id st) Snapshot None offset (Z.min (offset +u len) (size o)) len ∅ [] CachePolicy.Cached false 0]> (objs st)) in
  let g3 := match parent o with None => g2 | Some p => alter (retype s h) p g2 end in
  alter (λ co, set_parent (Some h) (parent_offset co) (parent_limit co) co) c (alter (λ o, set_parent (Some h) 0 (size o) (set_frames ∅ o)) s g3).

Lemma retype_ref s h o l r : type_ o = Hidden l r → s = l ∨ s = r → replace_ref s h o = Some (retype s h o).
Proof. intros Hty Hs. unfold replace_ref, retype. rewrite Hty. repeat destruct (decide _); naive_solver. Qed.

Lemma create_child_run rk st s o offset len :
  wf rk st → objs st !! s = Some o → is_hidden (type_ o) = false → offset mod PAGE_SIZE = 0 → len mod PAGE_SIZE = 0 →
  ∃ st', create_child s offset len st = (Ok (next_obj st), st') ∧ objs st' = cloned st s o offset len ∧ next_obj st' = S (S (next_obj st)) ∧
    dying st' = dying st ∧ free st' = free st ∧ ZERO_FRAME st' = ZERO_FRAME st ∧ mem st' = mem st.
Proof.
  intros (Hs & _) Ho Hh Hoff Hlen. assert (hd (objs st) s = Some (hdr o)) as Hn by (unfold hd; by rewrite Ho).
  destruct (s_plain _ _ _ _ Hs s _ Hn) as (Hc & Hpol & Hpin). simpl in Hc, Hpol, Hpin. destruct (s_bound _ _ _ _ Hs s _ Hn) as [_ Hb].
  unfold create_child, page_aligned. rewrite Hoff, Hlen. cbn [Z.eqb]. rewrite (bind_ok _ _ st tt st), (bind_ok _ _ st tt st) by done.
  rewrite (bind_ok _ _ _ _ _ (get_ok _ _ _ Ho)), Hc, bool_decide_true, Hpin by done. cbn [negb orb Z.eqb].
  unfold new_owner_id, alloc_obj, bind at 1 2 3. cbn [objs dying next_obj owner_id free ZERO_FRAME mem stale notes].
  set (g2 := <[S (next_obj st) := _]> _).
  set (st2 := mkHeap g2 (dying st) (S (S (next_obj st))) (wadd 64 (owner_id st) 1) (free st) (ZERO_FRAME st) (mem st) (stale st) (notes st)).
  set (g3 := match parent o with None => g2 | Some p => alter (retype s (S (next_obj st))) p g2 end).
  rewrite (bind_ok _ _ st2 tt (set_objs g3 st2)).
  - eexists. split; [reflexivity|]. split_and!; [|done..]. unfold cloned. rewrite Hc, Hpin. done.
  - unfold g3. destruct (parent o) as [p|] eqn:Ep; [|done].
    destruct (s_parent _ _ _ _ Hs s _ p Hn Ep) as (po & l & r & Hpo & Hty & Hlr). destruct (get_obj _ _ _ Hpo) as (po' & Epo & ->).
    destruct (s_bound _ _ _ _ Hs p _ Hpo) as [_ Hbp].
    assert (objs st2 !! p = Some po') as Ep2. { simpl. unfold g2. rewrite !lookup_insert_ne by lia. done. }
    rewrite (bind_ok _ _ _ _ _ (get_ok _ _ _ Ep2)). change (type_ po' = Hidden l r) in Hty. rewrite Hty. cbn [is_hidden].
    rewrite (retype_ref s _ po' l r Hty Hlr). unfold upd, modify, set_objs. simpl. do 2 f_equal. apply map_eq. intros m.
    destruct (decide (m = p)) as [->|]; [|by rewrite !lookup_alter_ne]. rewrite !lookup_alter_eq. simpl in Ep2. by rewrite Ep2.
Qed.

Section cloned.
Context (rk : nat → nat) (st : heap) (s : nat) (o : VMObjectPagedInner) (offset len : Z).
Hypotheses (Hwf : wf rk st) (Ho : objs st !! s = Some o) (Hh : is_hidden (type_ o) = false).
Hypotheses (Hoff : 0 ≤ offset ∧ offset mod PAGE_SIZE = 0) (Hlen : 0 ≤ len ∧ len mod PAGE_SIZE = 0) (Hin : offset + len ≤ size o).
Abbreviation c := (next_obj st).
Abbreviation h := (S (next_obj st)).

Lemma cloned_lookup m : cloned st s o offset len !! m =
  if decide (m = c) then Some (mkPaged (owner_id st) Snapshot (Some h) offset (offset + len) len ∅ [] CachePolicy.Cached false 0)
  else if decide (m = h) then Some (mkPaged (owner o) (Hidden s c) (parent o) (parent_offset o) (parent_limit o) (size o) (frames o) [] CachePolicy.Cached false 0)
  else if decide (m = s) then Some (set_parent (Some h) 0 (size o) (set_frames ∅ o))
  else if decide (parent o = Some m) then retype s h <$> objs st !! m else objs st !! m.
Proof.
  destruct Hwf as (Hs & _). assert (hd (objs st) s = Some (hdr o)) as Hn by (unfold hd; by rewrite Ho).
  destruct (s_plain _ _ _ _ Hs s _ Hn) as (Hc & _ & Hpin). simpl in Hc, Hpin. destruct (s_bound _ _ _ _ Hs s _ Hn) as [_ Hb].
  destruct (s_size _ _ _ _ Hs s _ Hn) as [Hsz _]. simpl in Hsz. assert (∀ p, parent o = Some p → p < c ∧ p ≠ s)%nat as Hp.
  { intros p Ep. destruct (s_parent _ _ _ _ Hs s _ p Hn Ep) as (po & l & r & Hpo & _). destruct (s_bound _ _ _ _ Hs p _ Hpo) as [_ ?].
    pose proof (s_rank _ _ _ _ Hs s _ p Hn Ep). split; [done|]. intros ->. lia. }
  unfold cloned. rewrite wadd_small, Z.min_l, Hc, Hpin by (unfold fits; lia).
  destruct (decide (m = c)) as [->|Hmc].
  { rewrite lookup_alter_eq, lookup_alter_ne by lia. destruct (parent o) as [p|] eqn:Ep.
    - destruct (Hp p eq_refl). rewrite lookup_alter_ne, lookup_insert_ne, lookup_insert_eq by lia. done.
    - by rewrite lookup_insert_ne, lookup_insert_eq by lia. }
  rewrite lookup_alter_ne by done. destruct (decide (m = h)) as [->|Hmh].
  { rewrite lookup_alter_ne by lia. destruct (parent o) as [p|] eqn:Ep.
    - destruct (Hp p eq_refl). by rewrite lookup_alter_ne, lookup_insert_eq by lia.
    - by rewrite lookup_insert_eq. }
  destruct (decide (m = s)) as [->|Hms].
  { rewrite lookup_alter_eq. destruct (parent o) as [p|] eqn:Ep.
    - destruct (Hp p eq_refl). by rewrite lookup_alter_ne, !lookup_insert_ne, Ho by lia.
    - by rewrite !lookup_insert_ne, Ho by lia. }
  rewrite lookup_alter_ne by done. destruct (parent o) as [p|] eqn:Ep.
  - destruct (decide (Some p = Some m)) as [[= ->]|Hne].
    + by rewrite lookup_alter_eq, !lookup_insert_ne by done.
    + by rewrite lookup_alter_ne, !lookup_insert_ne by congruence.
  - by rewrite decide_False, !lookup_insert_ne by done.
Qed.

Lemma hdr_retype (x : VMObjectPagedInner) : hdr (retype s h x) = retype s h (hdr x).
Proof. unfold retype, hdr. simpl. destruct (type_ x); [done|done|]. by repeat destruct (decide _). Qed.

Lemma cloned_hd m : hd (cloned st s o offset len) m =
  if decide (m = c) then Some (child_obj c offset len (owner_id st)) else if decide (m = h) then Some (hidden_obj c s (hdr o))
  else if decide (m = s) then Some (set_parent (Some h) 0 (size (hdr o)) (hdr o))
  else if decide (parent (hdr o) = Some m) then retype s h <$> hd (objs st) m else hd (objs st) m.
Proof.
  unfold hd at 1. rewrite cloned_lookup. change (parent (hdr o)) with (parent o). destruct (decide _); [done|]. destruct (decide _); [done|]. destruct (decide _); [done|].
  destruct (decide _); [|done]. unfold hd. destruct (objs st !! m); [|done]. simpl. by rewrite hdr_retype.
Qed.

Lemma cloned_fr m i : fr (cloned st s o offset len) m i =
  if decide (m = c) then None else if decide (m = h) then fr (objs st) s i else if decide (m = s) then None else fr (objs st) m i.
Proof.
  unfold fr at 1. rewrite cloned_lookup. destruct (decide _); [done|]. destruct (decide _); [unfold fr; by rewrite Ho|]. destruct (decide _); [done|].
  unfold fr. destruct (decide _); [|done]. destruct (objs st !! m) as [x|]; [|done]. simpl. unfold retype. destruct (type_ x); [done|done|]. by repeat destruct (decide _).
Qed.
End cloned.

Lemma create_child_spec rk st s o offset len :
  wf rk st → leaf (objs st) s o → 0 ≤ offset ∧ offset mod PAGE_SIZE = 0 → 0 ≤ len ∧ len mod PAGE_SIZE = 0 → offset + len ≤ size o →
  ∃ st' rk' co, create_child s offset len st = (Ok (next_obj st), st') ∧ wf rk' st' ∧
    leaf (objs st') (next_obj st) co ∧ size co = len ∧ (∀ a, 0 ≤ a → content st' (next_obj st) a = content st s (a + offset)) ∧
    (∀ m mo, leaf (objs st) m mo → ∃ mo', leaf (objs st') m mo' ∧ size mo' = size mo ∧ ∀ a, content st' m a = content st m a) ∧
    (∀ m mo', leaf (objs st') m mo' → m = next_obj st ∨ ∃ mo, leaf (objs st) m mo) ∧ objs st !! next_obj st = None ∧ next_obj st' = S (S (next_obj st)).
Proof.
  intros Hwf [Hn Hh] Hoff Hlen Hin. destruct (get_obj _ _ _ Hn) as (o' & Ho & ->). pose proof Hwf as (Hs & Ht & Hm).
  destruct (create_child_run rk st s o' offset len) as (st' & E & Eobj & Enext & Edy & Efree & Ezero & Emem); [done..|tauto|tauto|].
  pose proof (cloned_hd rk st s o' offset len Hwf Ho Hh Hoff Hlen Hin) as Hhd. pose proof (cloned_fr rk st s o' offset len Hwf Ho Hh Hoff Hlen Hin) as Hfr. rewrite <-Eobj in Hhd, Hfr.
  exists st', (clone_rank rk (next_obj st) s), (child_obj (next_obj st) offset len (owner_id st)). split; [done|].
  assert (leaf (objs st) s (hdr o')) as Hl by done.
  pose proof (clone_absent rk (objs st) (objs st') (next_obj st) (dying st) s (hdr o') offset len (owner_id st) Hs Ht Hl Hoff Hlen Hin Hhd Hfr) as Habs.
  assert (∀ m mo, hd (objs st) m = Some mo → ∀ i, page st' m i = page st m i) as Hpage.
  { intros m mo Hmo i. unfold page. rewrite Enext. destruct (decide (m = s)) as [->|Hne].
    - by apply (clone_page_s rk _ _ _ (dying st) s (hdr o') offset len (owner_id st)).
    - by apply (clone_page_old rk _ _ _ (dying st) s (hdr o') offset len (owner_id st)) with mo. }
  split; [unfold wf; rewrite Enext, Edy, Efree, Ezero, Emem; split_and!|].
  - by apply (clone_shape rk (objs st) (objs st') (next_obj st) (dying st) s (hdr o') offset len (owner_id st)).
  - by apply (clone_tags rk (objs st) (objs st') (next_obj st) (dying st) s (hdr o') offset len (owner_id st)).
  - by apply (clone_memory rk (objs st) (objs st') (next_obj st) (dying st) s (hdr o') offset len (owner_id st)).
  - split; [split; [|done]; by rewrite Hhd, decide_True|]. split; [done|]. split_and!.
    + intros a Ha. unfold content, pbyte. rewrite Emem. unfold page. rewrite Enext.
      rewrite (clone_page_c rk (objs st) (objs st') (next_obj st) (dying st) s (hdr o') offset len (owner_id st)) by done.
      destruct Hoff as [H1 H2]. pose proof (Z.div_mod offset PAGE_SIZE ltac:(done)) as Hd.
      replace (a + offset) with (a + offset / PAGE_SIZE * PAGE_SIZE) by lia. by rewrite Z.div_add, Z.mod_add by done.
    + intros m mo [Hmo Hmh]. destruct (decide (m = s)) as [->|Hne].
      * rewrite Hn in Hmo. injection Hmo as <-. destruct (Habs s _ Hn). exists (set_parent (Some (S (next_obj st))) 0 (size (hdr o')) (hdr o')).
        split; [split; [by rewrite Hhd, decide_False, decide_False, decide_True by done|done]|]. split; [done|].
        intros a. unfold content, pbyte. by rewrite (Hpage s _ Hn), Emem.
      * destruct (clone_old rk (objs st) (objs st') (next_obj st) (dying st) s (hdr o') offset len (owner_id st) Hs Ht Hl Hoff Hlen Hin Hhd Hfr m mo Hmo Hne)
          as (mo' & Hmo' & _ & _ & _ & E1 & E2 & _). exists mo'. split; [split; [done|congruence]|]. split; [done|].
        intros a. unfold content, pbyte. by rewrite (Hpage m mo Hmo), Emem.
    + intros m mo' [Hmo' Hmh].
      destruct (clone_cases rk (objs st) (objs st') (next_obj st) (dying st) s (hdr o') offset len (owner_id st) Hs Ht Hl Hoff Hlen Hin Hhd Hfr m mo' Hmo')
        as [(-> & _)|[(_ & ->)|[(-> & _)|(_ & _ & _ & mo & Hmo & _ & _ & _ & _ & E1 & _)]]]; [by left|done|right; by exists (hdr o')|].
      right. exists mo. split; [done|congruence].
    + destruct (objs st !! next_obj st) as [x|] eqn:Ex; [|done]. destruct (Habs (next_obj st) (hdr x)); [unfold hd; by rewrite Ex|done].
    + done.
Qed.

(** ** New objects *)
Section root.
Context (rk : nat → nat) (g : objects) (next : nat) (dead : gset nat) (o : VMObjectPagedInner).
Hypotheses (Hs : shape rk g next dead) (Ht : tags g).
Hypotheses (Hp : parent o = None) (Hh : is_hidden (type_ o) = false) (Hf : frames o = ∅).
Hypotheses (Hsz : 0 ≤ size o < 2 ^ 64 ∧ size o mod PAGE_SIZE = 0) (Hplain : contiguous o = false ∧ policy o = CachePolicy.Cached ∧ pin_total o = 0).
Abbreviation g' := (<[next := o]> g).
Definition root_rank (m : nat) : nat := if decide (m = next) then 0%nat else rk m.

Lemma root_hd m : hd g' m = if decide (m = next) then Some (hdr o) else hd g m.
Proof. unfold hd. destruct (decide (m = next)) as [->|]; [by rewrite lookup_insert_eq|by rewrite lookup_insert_ne]. Qed.

Lemma root_absent : hd g next = None.
Proof. destruct (hd g next) as [x|] eqn:E; [|done]. destruct (s_bound _ _ _ _ Hs next x E). lia. Qed.

Lemma root_fr m i : fr g' m i = fr g m i.
Proof.
  pose proof root_absent as Ha. unfold fr, hd in *. destruct (decide (m = next)) as [->|]; [|by rewrite lookup_insert_ne].
  rewrite lookup_insert_eq. simpl. rewrite Hf. destruct (g !! next); [done|]. by rewrite lookup_empty.
Qed.

Lemma root_old m (x : VMObjectPagedInner) : hd g m = Some x → hd g' m = Some x ∧ m ≠ next.
Proof. intros Hm. assert (m ≠ next) as Hne by (intros ->; by rewrite root_absent in Hm). by rewrite root_hd, decide_False. Qed.

Lemma root_shape : shape root_rank g' (S next) dead.
Proof.
  assert (∀ m (x : VMObjectPagedInner), hd g' m = Some x → m = next ∧ x = hdr o ∨ m ≠ next ∧ hd g m = Some x) as Hc.
  { intros m x. rewrite root_hd. destruct (decide (m = next)); naive_solver. }
  unfold root_rank. split.
  - apply Hs.
  - intros m x [(-> & _)|(Hne & Hx)]%Hc; [rewrite decide_True by done; lia|]. rewrite decide_False by done. destruct (s_bound _ _ _ _ Hs m x Hx). lia.
  - intros m x p [(-> & ->)|(Hne & Hx)]%Hc Hxp; [simpl in Hxp; congruence|]. destruct (s_parent _ _ _ _ Hs m x p Hx Hxp) as (po & _ & _ & Hpo & _).
    destruct (root_old p po Hpo). rewrite !decide_False by done. by apply (s_rank _ _ _ _ Hs m x).
  - intros m x p [(-> & ->)|(Hne & Hx)]%Hc Hxp; [simpl in Hxp; congruence|]. destruct (s_parent _ _ _ _ Hs m x p Hx Hxp) as (po & l & r & Hpo & Hty & Hlr).
    exists po, l, r. destruct (root_old p po Hpo). done.
  - intros m x l r [(-> & ->)|(Hne & Hx)]%Hc Hty; [simpl in Hty; by rewrite Hty in Hh|].
    destruct (s_hidden _ _ _ _ Hs m x l r Hx Hty) as (Hlr & (lo & Hl & ?) & ro & Hr & ?). split; [done|].
    destruct (root_old l lo Hl), (root_old r ro Hr). split; eauto.
  - intros m x [(-> & ->)|(Hne & Hx)]%Hc; [done|]. by apply (s_size _ _ _ _ Hs m x).
  - intros m x p po [(-> & ->)|(Hne & Hx)]%Hc Hxp Hpo'; [simpl in Hxp; congruence|]. apply (s_range _ _ _ _ Hs m x p po Hx Hxp).
    destruct (s_parent _ _ _ _ Hs m x p Hx Hxp) as (po1 & _ & _ & Hpo1 & _). destruct (root_old p po1 Hpo1). congruence.
  - intros m x [(-> & ->)|(Hne & Hx)]%Hc; [done|]. by apply (s_plain _ _ _ _ Hs m x).
Qed.

Lemma root_wanted m i : wanted g' m i → m = next ∨ wanted g m i.
Proof.
  induction 1 as [m x i Hx Hmh Hi Hl|m x i p _ IH Hx Hfx Hxp].
  - rewrite root_hd in Hx. destruct (decide (m = next)); [auto|]. right. by apply (wanted_leaf _ m x).
  - rewrite root_hd in Hx. destruct (decide (m = next)); [injection Hx as <-; simpl in Hxp; congruence|].
    destruct IH as [|IH]; [done|]. right. rewrite root_fr in Hfx. by apply (wanted_up _ m).
Qed.

Lemma root_tags : tags g'.
Proof.
  pose proof root_absent as Ha. assert (∀ i, fr g next i = None) as Hn. { intros i. unfold fr, hd in *. by destruct (g !! next). }
  split.
  - intros m x i ps Hx Hps. rewrite root_fr in Hps. rewrite root_hd in Hx. destruct (decide (m = next)) as [->|]; [by rewrite Hn in Hps|].
    by apply (t_range _ Ht m x i ps).
  - intros m x i ps Hx Hmh Hps. rewrite root_fr in Hps. rewrite root_hd in Hx. destruct (decide (m = next)) as [->|]; [by rewrite Hn in Hps|].
    by apply (t_leaf _ Ht m x i).
  - intros m x l r i ps Hx Hty Hps. rewrite root_fr in Hps. rewrite root_hd in Hx. destruct (decide (m = next)) as [->|]; [by rewrite Hn in Hps|].
    destruct (t_hidden _ Ht m x l r i ps Hx Hty Hps) as [H1 H2]. destruct (s_hidden _ _ _ _ Hs m x l r Hx Hty) as (_ & (lo & Hl & _) & ro & Hr & _).
    assert (∀ e eo, hd g e = Some eo → asks g' e i → asks g e i) as Hasks.
    { intros e eo He (eo' & k & He' & Hw & Hfe & ->). destruct (root_old e eo He) as [_ Hne]. exists eo', k. rewrite root_hd, decide_False in He' by done.
      rewrite root_fr in Hfe. destruct (root_wanted e k Hw); done. }
    split; intros E Hask; [apply (H1 E)|apply (H2 E)]; by eapply Hasks.
Qed.

Lemma root_memory fs z mm : memory g fs z mm → memory g' fs z mm.
Proof. intros [H1 H2 H3 H4]. split; [| |done|done]; setoid_rewrite root_fr; done. Qed.

Lemma root_page m (x : VMObjectPagedInner) i : hd g m = Some x → page_at (S next) g' m i = page_at next g m i.
Proof.
  remember (rk m) as b eqn:Eb. revert m x i Eb. induction (lt_wf b) as [b _ IH]. intros m x i -> Hx. destruct (root_old m x Hx) as [Hx' _].
  rewrite (page_unfold _ _ _ _ root_shape m x i Hx'), (page_unfold _ _ _ _ Hs m x i Hx), root_fr. destruct (fr g m i); [done|].
  destruct (parent x) as [p|] eqn:Ep; [|done]. destruct (s_parent _ _ _ _ Hs m x p Hx Ep) as (po & _ & _ & Hpo & _).
  by apply (IH (rk p)) with po; [apply (s_rank _ _ _ _ Hs m x)| |].
Qed.

Lemma root_page_new i : page_at (S next) g' next i = None.
Proof.
  rewrite (page_unfold _ _ _ _ root_shape next (hdr o) i) by (by rewrite root_hd, decide_True). simpl. rewrite Hp.
  pose proof root_absent as Ha. rewrite root_fr. unfold fr, hd in *. by destruct (g !! next).
Qed.
End root.

Lemma new_spec rk st w :
  wf rk st → 0 ≤ w → w * PAGE_SIZE < 2 ^ 64 →
  ∃ st' rk' co, new w st = (Ok (next_obj st), st') ∧ wf rk' st' ∧
    leaf (objs st') (next_obj st) co ∧ size co = w * PAGE_SIZE ∧ parent co = None ∧ (∀ a, content st' (next_obj st) a = 0) ∧
    (∀ m mo, leaf (objs st) m mo → leaf (objs st') m mo ∧ ∀ a, content st' m a = content st m a) ∧
    (∀ m mo', leaf (objs st') m mo' → m = next_obj st ∨ leaf (objs st) m mo') ∧ objs st !! next_obj st = None ∧ next_obj st' = S (next_obj st).
Proof.
  intros (Hs & Ht & Hm) Hw Hb. set (o := mkPaged (owner_id st) Origin None 0 0 (w * PAGE_SIZE) ∅ [] CachePolicy.Cached false 0).
  assert (new w st = (Ok (next_obj st), mkHeap (<[next_obj st := o]> (objs st)) (dying st) (S (next_obj st)) (wadd 64 (owner_id st) 1) (free st) (ZERO_FRAME st) (mem st) (stale st) (notes st))) as E.
  { unfold new, new_owner_id, alloc_obj, bind. simpl. rewrite wmul_small; [done|]. unfold fits, PAGE_SIZE in *. lia. }
  assert (0 ≤ size o < 2 ^ 64 ∧ size o mod PAGE_SIZE = 0) as Hsz. { simpl. split; [unfold PAGE_SIZE in *; lia|by apply Z.mod_mul]. }
  eexists _, (root_rank rk (next_obj st)), (hdr o). split; [exact E|]. split; [split_and!|].
  - by apply (root_shape rk).
  - by apply (root_tags rk _ _ (dying st)).
  - by apply (root_memory rk _ _ (dying st)).
  - assert (contiguous o = false ∧ policy o = CachePolicy.Cached ∧ pin_total o = 0) as Hpl by done.
    pose proof (root_hd rk (objs st) (next_obj st) (dying st) o Hs Ht eq_refl eq_refl eq_refl Hsz Hpl) as Hhd. cbn [objs].
    split; [split; [by rewrite Hhd, decide_True|done]|]. split; [done|]. split; [done|]. split_and!.
    + intros a. unfold content, pbyte, page. cbn [next_obj objs mem]. by rewrite (root_page_new rk (objs st) (next_obj st) (dying st)).
    + intros m mo [Hmo Hmh]. destruct (root_old rk (objs st) (next_obj st) (dying st) o Hs Ht eq_refl eq_refl eq_refl Hsz Hpl m mo Hmo) as [Hmo' _]. split; [done|].
      intros a. unfold content, pbyte, page. cbn [next_obj objs mem].
      by rewrite (root_page rk (objs st) (next_obj st) (dying st) o Hs Ht eq_refl eq_refl eq_refl Hsz Hpl m mo).
    + intros m mo' [Hmo' Hmh]. rewrite Hhd in Hmo'. destruct (decide _); [by left|]. by right.
    + pose proof (root_absent rk (objs st) (next_obj st) (dying st) o Hs Ht eq_refl eq_refl eq_refl Hsz Hpl) as Ha.
      unfold hd in Ha. by destruct (objs st !! next_obj st).
    + done.
Qed.

(** ** Closing an object *)
(** Frames that are released. *)
Definition frames_of (l : list (Z * PageState)) : list Z := (λ kv, frame kv.2) <$> l.

Lemma drop_all l st :
  ∃ fs, for_each l (λ kv, drop_frame (frame kv.2)) st = (Ok tt, set_free fs st) ∧ fs ≡ₚ frames_of l ++ free st.
Proof.
  revert st. induction l as [|kv l IH]; intros st; [exists (free st); by destruct st|]. cbn [for_each].
  rewrite (bind_ok _ _ st tt (set_free (frame_dealloc (frame kv.2) (free st)) st)) by done.
  destruct (IH (set_free (frame_dealloc (frame kv.2) (free st)) st)) as (fs & -> & Hfs). exists fs. split; [done|]. rewrite Hfs. simpl.
  rewrite frame_dealloc_perm. by rewrite Permutation_middle.
Qed.

Lemma assert_all {A} (P : A → bool) (l : list A) st : (∀ y, y ∈ l → P y = true) → for_each l (λ y, assert (P y)) st = (Ok tt, st).
Proof.
  induction l as [|y l IH]; intros Hl; [done|]. cbn [for_each]. rewrite (bind_ok _ _ st tt st); [apply IH; intros; apply Hl; by right|].
  rewrite Hl by (by left). done.
Qed.

Lemma elem_sorted (F : gmap Z PageState) k ps : (k, ps) ∈ sorted_pages F ↔ F !! k = Some ps.
Proof. unfold sorted_pages. rewrite merge_sort_Permutation. apply elem_of_map_to_list. Qed.

Lemma sorted_keys (F : gmap Z PageState) : NoDup (sorted_pages F).*1.
Proof. unfold sorted_pages. rewrite merge_sort_Permutation. apply NoDup_fst_map_to_list. Qed.

(** The frames of a node that loses its pages. *)
Lemma memory_release g g' fs z mm n o :
  memory g fs z mm → g !! n = Some o → (∀ m i ps, fr g' m i = Some ps → m ≠ n ∧ fr g m i = Some ps) →
  memory g' (frames_of (sorted_pages (frames o)) ++ fs) z mm.
Proof.
  intros [H1 H2 [H3 H4] H5] Ho Hg.
  assert (∀ k ps, (k, ps) ∈ sorted_pages (frames o) → fr g n k = Some ps) as Hn.
  { intros k ps. rewrite elem_sorted. unfold fr. by rewrite Ho. }
  assert (∀ f, f ∈ frames_of (sorted_pages (frames o)) → ∃ k ps, fr g n k = Some ps ∧ f = frame ps) as Hf.
  { intros f ([k ps] & -> & Hk)%list_elem_of_fmap. eauto. }
  split; [| | |done].
  - intros m i ps m' i' ps' [_ Hps]%Hg [_ Hps']%Hg. by apply H1.
  - intros m i ps [Hne Hps]%Hg. destruct (H2 _ _ _ Hps) as (? & ? & ? & ?). split_and!; [done| |done|done]. rewrite elem_of_app. intros [Hin|]; [|done].
    destruct (Hf _ Hin) as (k & ps' & Hk & E). by destruct (H1 _ _ _ _ _ _ Hps Hk E).
  - split.
    + apply NoDup_app. split_and!; [|intros f (k & ps & Hk & ->)%Hf; by apply (H2 _ _ _ Hk)|done].
      apply NoDup_fmap_2_strong; [|by eapply NoDup_fmap_1, sorted_keys].
      intros [k ps] [k' ps'] Hk%Hn Hk'%Hn E. destruct (H1 _ _ _ _ _ _ Hk Hk' E) as [_ ->]. congruence.
    + intros f [(k & ps & Hk & ->)%Hf|Hin]%elem_of_app; [|by apply H4]. destruct (H2 _ _ _ Hk) as (? & _ & ? & _). done.
Qed.

Lemma fr_insert g d o m i : fr (<[d := o]> g) m i = if decide (m = d) then frames o !! i else fr g m i.
Proof. unfold fr. destruct (decide (m = d)) as [->|]; [by rewrite lookup_insert_eq|by rewrite lookup_insert_ne]. Qed.

(** What [remove_child] leaves at the remaining child. *)
Definition merges (F F' : gmap Z PageState) (nt : PageStateTag) (start end_ : Z) (l : list (Z * PageState)) : Prop :=
  (∀ k ps, F !! k = Some ps → F' !! k = Some ps) ∧
  (∀ k ps, F' !! k = Some ps → F !! k = Some ps ∨
     F !! k = None ∧ ∃ v, (k + start, v) ∈ l ∧ start ≤ k + start < end_ ∧ tag v ≠ nt ∧ ps = page_state (frame v)) ∧
  ∀ k v, (k + start, v) ∈ l → start ≤ k + start < end_ → tag v ≠ nt → F !! k = None → F' !! k = Some (page_state (frame v)).

Lemma merge_skip F F' nt start end_ key v l :
  (start ≤ key < end_ → tag v ≠ nt → is_Some (F !! (key - start))) →
  merges F F' nt start end_ l → merges F F' nt start end_ ((key, v) :: l).
Proof.
  intros Hskip (HA & HB & HC). split_and!; [done| |].
  - intros k ps Hk. destruct (HB k ps Hk) as [?|(? & v' & ? & ?)]; [by left|]. right. split; [done|]. exists v'. split; [by right|done].
  - intros k v' [[= <- ->]|Hin]%elem_of_cons Hr Hne Hn; [|by apply HC]. destruct (Hskip Hr Hne) as [y Hy].
    replace (k + start - start) with k in Hy by lia. congruence.
Qed.

Lemma merge_add F F' nt start end_ key v l :
  start ≤ key < end_ → tag v ≠ nt → F !! (key - start) = None → key ∉ l.*1 →
  merges (<[key - start := page_state (frame v)]> F) F' nt start end_ l → merges F F' nt start end_ ((key, v) :: l).
Proof.
  intros Hr Hne Hn Hkey (HA & HB & HC). split_and!.
  - intros k ps Hk. apply HA. rewrite lookup_insert_ne; [done|]. intros <-. congruence.
  - intros k ps Hk. destruct (HB k ps Hk) as [Hk'|(Hk' & v' & ? & ?)].
    + destruct (decide (key - start = k)) as [<-|Hne'].
      * rewrite lookup_insert_eq in Hk'. injection Hk' as <-. right. split; [done|]. exists v. replace (key - start + start) with key by lia. split_and!; [by left|lia|lia|done|done].
      * rewrite lookup_insert_ne in Hk' by done. by left.
    + destruct (decide (key - start = k)) as [<-|Hne']; [by rewrite lookup_insert_eq in Hk'|]. rewrite lookup_insert_ne in Hk' by done.
      right. split; [done|]. exists v'. split; [by right|done].
  - intros k v' Hin Hr' Hne' Hn'. destruct (decide (key - start = k)) as [<-|Hk].
    + apply elem_of_cons in Hin as [[= E ->]|Hin]; [apply HA; by rewrite lookup_insert_eq|]. exfalso. apply Hkey. replace key with (key - start + start) by lia.
      apply (list_elem_of_fmap_2 fst _ _ Hin).
    + apply elem_of_cons in Hin as [[= E ->]|Hin]; [lia|]. apply HC; [done|done|done|]. by rewrite lookup_insert_ne.
Qed.

Lemma merge_one_eq hid d t nt start end_ key v st ho dob :
  negate t = Some nt → objs st !! hid = Some ho → objs st !! d = Some dob → contiguous ho = false → 0 ≤ start → end_ < 2 ^ 64 → pin_count v = 0 →
  merge_one hid d t start end_ (key, v) st =
    if decide (start ≤ key < end_ ∧ frames dob !! (key - start) = None ∧ tag v ≠ nt)
    then (Ok tt, set_objs (<[d := set_frames (<[key - start := page_state (frame v)]> (frames dob)) dob]> (objs st)) st)
    else drop_frame (frame v) st.
Proof.
  intros Hnt Hho Hdob Hcont Hstart Hend Hv. unfold merge_one. destruct ((key <? start) || (end_ <=? key)) eqn:Erange; [by rewrite decide_False by lia|].
  assert (start ≤ key < end_) as Hr by lia. unfold get, bind at 1 2. rewrite Hho, Hdob, Hcont. cbn [andb]. rewrite wsub_small by (unfold fits; lia).
  destruct (frames dob !! (key - start)) as [old|] eqn:Eold; [by rewrite decide_False by naive_solver|].
  rewrite Hnt. destruct (decide (tag v = nt)) as [Etag|Etag]; [by rewrite decide_False by naive_solver|]. rewrite decide_True by done.
  assert (set_tag Owned v = page_state (frame v)) as Eps by (unfold page_state, set_tag; by rewrite Hv).
  unfold insert_page, get, bind at 1 2. rewrite Hdob, Eold, Eps. unfold upd, modify, ret, set_objs. simpl. do 2 f_equal. apply map_eq. intros m.
  destruct (decide (m = d)) as [->|]; [by rewrite lookup_alter_eq, lookup_insert_eq, Hdob|by rewrite lookup_alter_ne, lookup_insert_ne].
Qed.

Lemma merge_loop hid d t nt start end_ l st ho dob :
  negate t = Some nt → hid ≠ d → objs st !! hid = Some ho → objs st !! d = Some dob → contiguous ho = false →
  0 ≤ start → end_ < 2 ^ 64 → NoDup l.*1 → (∀ kv, kv ∈ l → pin_count kv.2 = 0) →
  memory (objs st) (frames_of l ++ free st) (ZERO_FRAME st) (mem st) →
  ∃ F' fs, for_each l (merge_one hid d t start end_) st = (Ok tt, set_free fs (set_objs (<[d := set_frames F' dob]> (objs st)) st)) ∧
    memory (<[d := set_frames F' dob]> (objs st)) fs (ZERO_FRAME st) (mem st) ∧ merges (frames dob) F' nt start end_ l.
Proof.
  intros Hnt Hne Hho Hdob Hcont Hstart Hend. revert st dob Hho Hdob. induction l as [|[key v] l IH]; intros st dob Hho Hdob Hnd Hpin Hm.
  { exists (frames dob), (free st). assert (<[d := set_frames (frames dob) dob]> (objs st) = objs st) as ->. { rewrite insert_id; [done|]. rewrite Hdob. by destruct dob. }
    split; [by destruct st|]. split; [done|]. split_and!; [done|auto|]. intros ? ? []%not_elem_of_nil. }
  apply NoDup_cons in Hnd as [Hkey Hnd]. assert (pin_count v = 0) as Hv. { apply (Hpin (key, v)). by left. }
  assert (∀ kv, kv ∈ l → pin_count kv.2 = 0) as Hpin'. { intros kv Hkv. apply Hpin. by right. }
  cbn [for_each]. pose proof (merge_one_eq hid d t nt start end_ key v st ho dob Hnt Hho Hdob Hcont Hstart Hend Hv) as Eone.
  destruct (decide (start ≤ key < end_ ∧ frames dob !! (key - start) = None ∧ tag v ≠ nt)) as [(Hr & Hnone & Htag)|Hskip].
  - rewrite (bind_ok _ _ _ _ _ Eone). set (dob1 := set_frames (<[key - start := page_state (frame v)]> (frames dob)) dob).
    destruct (IH (set_objs (<[d := dob1]> (objs st)) st) dob1) as (F' & fs & E1 & Hm1 & Hmerge); [simpl; by rewrite lookup_insert_ne|simpl; by rewrite lookup_insert_eq|done|done| |].
    + simpl. apply (memory_add (objs st) _ (frame v :: frames_of l ++ free st) _ _ (mem st) _ d (key - start) (frame v)); [exact Hm|done| |done].
      intros m i ps'. rewrite fr_insert. destruct (decide (m = d)) as [->|]; [|eauto]. simpl. destruct (decide (i = key - start)) as [->|].
      * rewrite lookup_insert_eq. intros [= <-]. by left.
      * rewrite lookup_insert_ne by done. intros Hi. right. exists ps'. split; [|done]. unfold fr. by rewrite Hdob.
    + exists F', fs. rewrite E1. split_and!; [unfold set_objs, set_free; simpl; by rewrite insert_insert_eq| |by apply merge_add].
      simpl in Hm1. by rewrite insert_insert_eq in Hm1.
  - rewrite (bind_ok _ _ st tt (set_free (frame_dealloc (frame v) (free st)) st)) by (by rewrite Eone).
    destruct (IH (set_free (frame_dealloc (frame v) (free st)) st) dob) as (F' & fs & E1 & Hm1 & Hmerge); [done|done|done|done| |].
    + eapply memory_perm; [|exact Hm]. simpl. rewrite frame_dealloc_perm. by rewrite Permutation_middle.
    + exists F', fs. split; [done|]. split; [done|]. apply merge_skip; [|done]. intros Hr Htag.
      destruct (frames dob !! (key - start)) eqn:E; [eauto|]. by destruct Hskip.
Qed.

(** The tree without [s] and its hidden parent [hid], which was a root; [d] is the other child. *)
Section unlink.
Context (rk : nat → nat) (g g' : objects) (next : nat) (dead : gset nat).
Context (s hid d : nat) (so ho dh : VMObjectPagedInner) (t nt : PageStateTag) (off' lim' : Z).
Hypotheses (Hs : shape rk g next dead) (Ht : tags g) (Hleaf : leaf g s so) (Hps : parent so = Some hid)
  (Hho : hd g hid = Some ho) (Hroot : parent ho = None) (Hother : get_tag_and_other (type_ ho) s = (t, Some d)) (Hnt : negate t = Some nt)
  (Hdh : hd g d = Some dh) (Hpd : parent dh = Some hid).
Hypothesis Hhd : ∀ m, hd g' m = if decide (m = s ∨ m = hid) then None else if decide (m = d) then Some (set_parent None off' lim' dh) else hd g m.
Hypothesis Hfr : ∀ m i, m ≠ d → fr g' m i = if decide (m = s ∨ m = hid) then None else fr g m i.
Abbreviation start := (parent_offset dh / PAGE_SIZE).
Hypotheses (HA : ∀ k ps, fr g d k = Some ps → fr g' d k = Some ps)
  (HB : ∀ k ps, fr g' d k = Some ps → fr g d k = Some ps ∨ fr g d k = None ∧ start ≤ k + start < parent_limit dh / PAGE_SIZE ∧ ∃ v, fr g hid (k + start) = Some v ∧ ps = page_state (frame v))
  (HC : ∀ k v, fr g hid (k + start) = Some v → start ≤ k + start < parent_limit dh / PAGE_SIZE → tag v ≠ nt → fr g d k = None →
          fr g' d k = Some (page_state (frame v))).

Lemma unlink_kids : ∃ l r, type_ ho = Hidden l r ∧ (t = LeftSplit ∧ s = l ∧ d = r ∧ nt = RightSplit ∨ t = RightSplit ∧ s = r ∧ d = l ∧ nt = LeftSplit) ∧ l ≠ r.
Proof.
  destruct (s_parent _ _ _ _ Hs s so hid (proj1 Hleaf) Hps) as (ho' & l & r & Hho' & Hty & Hlr). rewrite Hho in Hho'. injection Hho' as <-.
  destruct (s_hidden _ _ _ _ Hs hid ho l r Hho Hty) as (Hne & _). exists l, r. split; [done|]. split; [|done].
  rewrite Hty in Hother. simpl in Hother. destruct (decide (l = s)).
  - injection Hother as <- <-. simpl in Hnt. injection Hnt as <-. naive_solver.
  - destruct (decide (r = s)); [|done]. injection Hother as <- <-. simpl in Hnt. injection Hnt as <-. naive_solver.
Qed.

Lemma unlink_ne : s ≠ hid ∧ s ≠ d ∧ d ≠ hid.
Proof.
  destruct unlink_kids as (l & r & _ & Hlr & Hne). pose proof (s_rank _ _ _ _ Hs s so hid (proj1 Hleaf) Hps).
  pose proof (s_rank _ _ _ _ Hs d dh hid Hdh Hpd). split_and!; [intros ->; lia|naive_solver|intros ->; lia].
Qed.

Lemma unlink_cases m (x' : VMObjectPagedInner) : hd g' m = Some x' → m ≠ s ∧ m ≠ hid ∧ (m = d ∧ x' = set_parent None off' lim' dh ∨ m ≠ d ∧ hd g m = Some x').
Proof. rewrite Hhd. destruct (decide _) as [|Hn]; [done|]. destruct (decide (m = d)); naive_solver. Qed.

(** Only the two children have the removed node as their parent. *)
Lemma unlink_parent m (x : VMObjectPagedInner) p : hd g m = Some x → parent x = Some p → m ≠ s → m ≠ d → p ≠ s ∧ p ≠ hid.
Proof.
  intros Hx Hp Hns Hnd. destruct (s_parent _ _ _ _ Hs m x p Hx Hp) as (po & l & r & Hpo & Hty & Hlr). split.
  - intros ->. destruct Hleaf as [Hso Hh]. rewrite Hso in Hpo. injection Hpo as <-. by rewrite Hty in Hh.
  - intros ->. rewrite Hho in Hpo. injection Hpo as <-. destruct unlink_kids as (l' & r' & Hty' & Hcase & _). rewrite Hty in Hty'. injection Hty' as <- <-. naive_solver.
Qed.

Lemma unlink_hd m (x : VMObjectPagedInner) : hd g m = Some x → m ≠ s → m ≠ hid → m ≠ d → hd g' m = Some x.
Proof. intros. by rewrite Hhd, decide_False, decide_False by naive_solver. Qed.

Lemma unlink_hd_d : hd g' d = Some (set_parent None off' lim' dh).
Proof. destruct unlink_ne as (? & ? & ?). by rewrite Hhd, decide_False, decide_True by naive_solver. Qed.

Lemma unlink_up m (x : VMObjectPagedInner) p : hd g m = Some x → parent x = Some p → m ≠ s → m ≠ d →
  ∃ po l r po', hd g p = Some po ∧ type_ po = Hidden l r ∧ (m = l ∨ m = r) ∧ hd g' p = Some po' ∧ type_ po' = type_ po ∧ size po' = size po.
Proof.
  intros Hx Hp Hns Hnd. destruct (unlink_parent m x p Hx Hp Hns Hnd). destruct (s_parent _ _ _ _ Hs m x p Hx Hp) as (po & l & r & Hpo & Hty & Hlr).
  exists po, l, r. destruct (decide (p = d)) as [->|Hpd'].
  - exists (set_parent None off' lim' dh). rewrite Hdh in Hpo. injection Hpo as <-. split_and!; [done..|apply unlink_hd_d|done|done].
  - exists po. split_and!; [done..|by apply unlink_hd|done|done].
Qed.

Lemma unlink_shape : shape rk g' next dead.
Proof.
  split.
  - apply Hs.
  - intros m x' (H1 & H2 & [(-> & _)|(H3 & Hx)])%unlink_cases; [by apply (s_bound _ _ _ _ Hs d dh)|by apply (s_bound _ _ _ _ Hs m x')].
  - intros m x' p (H1 & H2 & [(_ & ->)|(H3 & Hx)])%unlink_cases Hp; [done|by apply (s_rank _ _ _ _ Hs m x')].
  - intros m x' p (H1 & H2 & [(_ & ->)|(H3 & Hx)])%unlink_cases Hp; [done|].
    destruct (unlink_up m x' p Hx Hp H1 H3) as (po & l & r & po' & _ & Hty & Hlr & Hpo' & E & _). exists po', l, r. split_and!; [done|congruence|done].
  - intros m x' l r Hx' Hty. destruct unlink_ne as (Hsh & Hsd & Hdh').
    assert (∃ x : VMObjectPagedInner, hd g m = Some x ∧ type_ x = Hidden l r ∧ m ≠ s ∧ m ≠ hid) as (x & Hx & Hty' & Hms & Hmh).
    { destruct (unlink_cases m x' Hx') as (H1 & H2 & [(-> & ->)|(H3 & Hx)]); eauto. }
    destruct (s_hidden _ _ _ _ Hs m x l r Hx Hty') as (Hne & (lo & Hl & Hlp) & ro & Hr & Hrp). split; [done|].
    assert (∀ e eo, hd g e = Some eo → parent eo = Some m → ∃ eo', hd g' e = Some eo' ∧ parent eo' = Some m) as Hkid.
    { intros e eo He Hep. assert (e ≠ s ∧ e ≠ d ∧ e ≠ hid) as (He1 & He2 & He3).
      { split_and!; intros ->; [destruct Hleaf as [Hso _]; rewrite Hso in He|rewrite Hdh in He|rewrite Hho in He]; injection He as <-; congruence. }
      exists eo. split; [by apply unlink_hd|done]. }
    split; by eapply Hkid.
  - intros m x' (H1 & H2 & [(-> & ->)|(H3 & Hx)])%unlink_cases; [by apply (s_size _ _ _ _ Hs d dh)|by apply (s_size _ _ _ _ Hs m x')].
  - intros m x' p po' (H1 & H2 & [(_ & ->)|(H3 & Hx)])%unlink_cases Hp Hpo'; [done|].
    destruct (unlink_up m x' p Hx Hp H1 H3) as (po & l & r & po1 & Hpo & _ & _ & Hpo1 & _ & Esz). rewrite Hpo' in Hpo1. injection Hpo1 as <-. rewrite Esz.
    by apply (s_range _ _ _ _ Hs m x' p po).
  - intros m x' (H1 & H2 & [(-> & ->)|(H3 & Hx)])%unlink_cases; [by apply (s_plain _ _ _ _ Hs d dh)|by apply (s_plain _ _ _ _ Hs m x')].
Qed.

Lemma unlink_none m i : m ≠ s → m ≠ hid → fr g' m i = None → fr g m i = None.
Proof.
  intros H1 H2. destruct (decide (m = d)) as [->|Hne].
  - intros E. destruct (fr g d i) as [ps|] eqn:E'; [|done]. by rewrite (HA i ps E') in E.
  - by rewrite Hfr, decide_False by naive_solver.
Qed.

Lemma unlink_wanted m i : wanted g' m i → wanted g m i ∧ m ≠ s ∧ m ≠ hid.
Proof.
  induction 1 as [m x i Hx Hmh Hi Hl|m x i p _ (IH & Hms & Hmh) Hx Hf Hp].
  - destruct (unlink_cases m x Hx) as (H1 & H2 & [(-> & ->)|(H3 & Hx')]); (split; [|done]).
    + by apply (wanted_leaf _ d dh).
    + by apply (wanted_leaf _ m x).
  - destruct (unlink_cases m x Hx) as (_ & _ & [(_ & ->)|(Hmd & Hx')]); [done|].
    destruct (unlink_parent m x p Hx' Hp Hms Hmd). split; [|done]. apply (wanted_up _ m x); [done|done|by apply unlink_none|done].
Qed.

Lemma unlink_asks m e eo x : hd g e = Some eo → parent eo = Some m → m ≠ hid → asks g' e x → asks g e x.
Proof.
  intros He Hep Hm (eo' & k & He' & Hw & Hf & ->). destruct (unlink_wanted e k Hw) as (Hw' & H1 & H2).
  destruct (unlink_cases e eo' He') as (_ & _ & [(-> & _)|(H3 & He'')]); [rewrite Hdh in He; injection He as <-; congruence|].
  exists eo', k. split_and!; [done|done|by apply unlink_none|done].
Qed.

Lemma unlink_size :
  0 ≤ parent_offset dh ∧ parent_offset dh mod PAGE_SIZE = 0 ∧ parent_limit dh = parent_offset dh + size dh ∧ 0 ≤ size dh.
Proof.
  destruct (s_range _ _ _ _ Hs d dh hid ho Hdh Hpd Hho) as (? & ? & ? & _). destruct (s_size _ _ _ _ Hs d dh Hdh) as [? _]. lia.
Qed.

Lemma unlink_tags : tags g'.
Proof.
  assert (∀ m i ps, m ≠ s → m ≠ hid → fr g' m i = Some ps → fr g m i = Some ps ∨ tag ps = Owned) as Hold.
  { intros m i ps H1 H2. destruct (decide (m = d)) as [->|Hne].
    - intros [?|(_ & _ & v & _ & ->)]%HB; auto.
    - rewrite Hfr, decide_False by naive_solver. auto. }
  split.
  - intros m x' i ps Hx' Hfps. destruct (unlink_cases m x' Hx') as (H1 & H2 & [(-> & ->)|(H3 & Hx)]).
    + apply HB in Hfps as [Hf|(_ & Hr & _)]; [by apply (t_range _ Ht d dh i ps)|]. destruct unlink_size as (H3 & H4 & H5 & H6). simpl.
      unfold PAGE_SIZE in *. pose proof (Z.div_mod (parent_offset dh) 4096). pose proof (Z.div_mod (parent_limit dh) 4096). pose proof (Z.mod_pos_bound (parent_limit dh) 4096). lia.
    + rewrite Hfr, decide_False in Hfps by naive_solver. by apply (t_range _ Ht m x' i ps).
  - intros m x' i ps Hx' Hmh Hfps. destruct (unlink_cases m x' Hx') as (H1 & H2 & Hc). destruct (Hold m i ps H1 H2 Hfps) as [Hf|]; [|done].
    destruct Hc as [(-> & ->)|(H3 & Hx)]; [by apply (t_leaf _ Ht d dh i)|by apply (t_leaf _ Ht m x' i)].
  - intros m x' l r i ps Hx' Hty Hfps. destruct (unlink_cases m x' Hx') as (H1 & H2 & Hc). destruct (Hold m i ps H1 H2 Hfps) as [Hf|E]; [|by rewrite E].
    assert (∃ x : VMObjectPagedInner, hd g m = Some x ∧ type_ x = Hidden l r) as (x & Hx & Hty') by (destruct Hc as [(-> & ->)|(H3 & Hx)]; eauto).
    destruct (s_hidden _ _ _ _ Hs m x l r Hx Hty') as (_ & (lo & Hl & Hlp) & ro & Hr & Hrp).
    destruct (t_hidden _ Ht m x l r i ps Hx Hty' Hf) as [H3 H4].
    split; intros E Ha; [apply (H3 E)|apply (H4 E)]; by eapply unlink_asks.
Qed.

Lemma unlink_page m i : wanted g' m i → page_at next g' m i = page_at next g m i.
Proof.
  remember (rk m) as b eqn:Eb. revert m i Eb. induction (lt_wf b) as [b _ IH]. intros m i -> Hw.
  destruct (unlink_wanted m i Hw) as (Hwg & Hms & Hmh). destruct (wanted_range _ _ _ _ unlink_shape m i Hw) as (x' & Hx' & Hi & Hsz).
  rewrite (page_unfold _ _ _ _ unlink_shape m x' i Hx'). destruct (unlink_cases m x' Hx') as (_ & _ & [(-> & ->)|(Hmd & Hx)]).
  - rewrite (page_unfold _ _ _ _ Hs d dh i Hdh), Hpd. simpl.
    rewrite (page_unfold _ _ _ _ Hs hid ho _ Hho), Hroot. destruct (fr g d i) as [ps|] eqn:Ed; [by rewrite (HA i ps Ed)|].
    destruct (fr g hid (i + start)) as [v|] eqn:Ev.
    + rewrite (HC i v Ev); [done| | |done].
      * assert (asks g d (i + start)) as Hask by (exists dh, i; done).
        destruct (s_range _ _ _ _ Hs d dh hid ho Hdh Hpd Hho) as (R1 & R2 & R3 & _). destruct (s_size _ _ _ _ Hs d dh Hdh) as [_ R4]. simpl in Hsz.
        unfold PAGE_SIZE in *. assert (parent_limit dh / 4096 = parent_offset dh / 4096 + size dh / 4096) as ->.
        { rewrite R3. pose proof (Z.div_mod (parent_offset dh) 4096). pose proof (Z.div_mod (size dh) 4096). symmetry. apply Z.div_unique with 0; lia. }
        pose proof (Z.div_mod (size dh) 4096). lia.
      * intros Etag. destruct unlink_kids as (l & r & Hty & Hcase & _). destruct (t_hidden _ Ht hid ho l r _ v Hho Hty Ev) as [T1 T2].
        assert (asks g d (i + start)) as Hask by (exists dh, i; done).
        destruct Hcase as [(_ & _ & <- & E)|(_ & _ & <- & E)]; [by apply T2; [congruence|]|by apply T1; [congruence|]].
    + destruct (fr g' d i) as [ps|] eqn:Ed'; [|done]. destruct (HB i ps Ed') as [?|(_ & _ & v & ? & _)]; congruence.
  - rewrite (page_unfold _ _ _ _ Hs m x' i Hx). rewrite Hfr, decide_False by naive_solver. destruct (fr g m i) eqn:Em; [done|].
    destruct (parent x') as [p|] eqn:Ep; [|done]. apply (IH (rk p)); [by apply (s_rank _ _ _ _ Hs m x')|done|].
    apply (wanted_up _ m x'); [done|done| |done]. by rewrite Hfr, decide_False by naive_solver.
Qed.
End unlink.

Section close.
Context (rk : nat → nat) (st : heap) (s hid d : nat) (so ho dob : VMObjectPagedInner) (t nt : PageStateTag).
Hypotheses (Hwf : wf rk st) (Hso : objs st !! s = Some so) (Hh : is_hidden (type_ so) = false) (Hps : parent so = Some hid)
  (Hho : objs st !! hid = Some ho) (Hroot : parent ho = None)
  (Hother : get_tag_and_other (type_ ho) s = (t, Some d)) (Hnt : negate t = Some nt) (Hdob : objs st !! d = Some dob) (Hpd : parent dob = Some hid)
  (Hdist : s ≠ hid ∧ s ≠ d ∧ d ≠ hid).
Abbreviation start := (parent_offset dob / PAGE_SIZE).
Abbreviation end_ := (parent_limit dob / PAGE_SIZE).
Abbreviation dying0 := (dying st ∪ {[s]}).

(** The hidden node loses its pages to the other child. *)
Lemma remove_child_run :
  ∃ F' fs off' lim' ho', remove_child hid s (set_dying dying0 st) =
    (Ok tt, set_free fs (set_objs (<[hid := set_frames ∅ ho']> (<[d := set_parent None off' lim' (set_frames F' dob)]> (objs st))) (set_dying dying0 st))) ∧
    is_hidden (type_ ho') = true ∧
    memory (<[d := set_frames F' dob]> (<[hid := set_frames ∅ ho]> (objs st))) fs (ZERO_FRAME st) (mem st) ∧
    merges (frames dob) F' nt start end_ (sorted_pages (frames ho)).
Proof.
  destruct Hwf as (Hs & Ht & Hm). destruct Hdist as (D1 & D2 & D3). pose proof (s_dead _ _ _ _ Hs) as Hdead.
  assert (hd (objs st) hid = Some (hdr ho)) as Hho' by (unfold hd; by rewrite Hho). assert (hd (objs st) d = Some (hdr dob)) as Hdob' by (unfold hd; by rewrite Hdob).
  destruct (s_plain _ _ _ _ Hs hid _ Hho') as (Hcont & _). destruct (s_range _ _ _ _ Hs d _ hid _ Hdob' Hpd Hho') as (R1 & R2 & R3 & R4).
  destruct (s_size _ _ _ _ Hs hid _ Hho') as [R5 _]. simpl in *.
  assert (is_hidden (type_ ho) = true) as Hhid. { unfold get_tag_and_other in Hother. by destruct (type_ ho). }
  set (st1 := set_objs (alter (set_frames ∅) hid (objs st)) (set_dying dying0 st)).
  assert (objs st1 = <[hid := set_frames ∅ ho]> (objs st)) as Eobj1.
  { unfold st1. simpl. apply map_eq. intros m. destruct (decide (m = hid)) as [->|]; [by rewrite lookup_alter_eq, lookup_insert_eq, Hho|by rewrite lookup_alter_ne, lookup_insert_ne]. }
  assert (objs st1 !! d = Some dob) as Hdob1 by (rewrite Eobj1; by rewrite lookup_insert_ne).
  destruct (merge_loop hid d t nt start end_ (sorted_pages (frames ho)) st1 (set_frames ∅ ho) dob) as (F' & fs & Eloop & Hm' & Hmerge).
  - done.
  - done.
  - rewrite Eobj1. by rewrite lookup_insert_eq.
  - done.
  - done.
  - apply Z.div_pos; done.
  - apply Z.div_lt_upper_bound; unfold PAGE_SIZE; lia.
  - apply sorted_keys.
  - intros [k ps] Hk%elem_sorted. apply (m_frame _ _ _ _ Hm hid k). unfold fr. by rewrite Hho.
  - rewrite Eobj1. apply (memory_release (objs st) _ _ _ _ hid ho); [done|done|]. intros m i ps. rewrite fr_insert. destruct (decide (m = hid)); [|done].
    simpl. by rewrite lookup_empty.
  - exists F', fs, (parent_offset dob +u parent_offset ho), (parent_limit dob +u parent_offset ho), (set_parent None (parent_offset ho) (parent_limit ho) ho).
    split; [|split; [done|]; split; [by rewrite <-Eobj1|done]].
    unfold remove_child. rewrite (bind_ok _ _ _ _ _ (get_ok (set_dying dying0 st) hid ho Hho)), Hhid, Hother. cbn [negb].
    assert (upgrade (Some d) (set_dying dying0 st) = (Ok d, set_dying dying0 st)) as Eup.
    { unfold upgrade. simpl. rewrite Hdead, decide_False, decide_True; [done|rewrite Hdob; eauto|set_solver]. }
    rewrite (bind_ok _ _ _ _ _ Eup), (bind_ok _ _ _ _ _ (get_ok (set_dying dying0 st) d dob Hdob)).
    rewrite (bind_ok _ _ _ tt st1) by done. rewrite (bind_ok _ _ _ _ _ Eloop).
    set (st2 := set_free fs (set_objs (<[d := set_frames F' dob]> (objs st1)) st1)).
    set (d2 := set_parent (parent dob) (parent_offset dob +u parent_offset ho) (parent_limit dob +u parent_offset ho) (set_frames F' dob)).
    set (st3 := set_objs (<[d := d2]> (objs st1)) st2).
    rewrite (bind_ok _ _ st2 tt st3).
    2:{ unfold upd, modify, st3, st2, set_objs. simpl. do 2 f_equal. apply map_eq. intros m. destruct (decide (m = d)) as [->|]; [by rewrite lookup_alter_eq, !lookup_insert_eq|by rewrite lookup_alter_ne, !lookup_insert_ne]. }
    rewrite (bind_ok _ _ st3 d2 st3) by (unfold get, st3; simpl; by rewrite lookup_insert_eq). rewrite Hroot. rewrite (bind_ok _ _ st3 tt st3) by done.
    unfold upd, modify, bind, st3, st2, st1, set_objs, set_free. simpl. do 2 f_equal. apply map_eq. intros m.
    destruct (decide (m = hid)) as [->|Hmh]; [|destruct (decide (m = d)) as [->|Hmd]].
    + rewrite lookup_alter_eq, lookup_insert_eq, lookup_alter_ne, lookup_insert_ne, lookup_alter_eq, Hho by done. simpl. done.
    + rewrite lookup_alter_ne, lookup_alter_eq, lookup_insert_eq, lookup_insert_ne, lookup_insert_eq by done. done.
    + rewrite !lookup_alter_ne, !lookup_insert_ne, lookup_alter_ne by done. done.
Qed.

(** The objects after the object and its parent are gone. *)
Lemma drop_run :
  ∃ F' fs off' lim' st', close s st = (Ok tt, st') ∧
    objs st' = delete hid (delete s (<[d := set_parent None off' lim' (set_frames F' dob)]> (objs st))) ∧
    next_obj st' = next_obj st ∧ dying st' = dying st ∧ ZERO_FRAME st' = ZERO_FRAME st ∧ mem st' = mem st ∧ free st' = fs ∧
    memory (objs st') fs (ZERO_FRAME st) (mem st) ∧ merges (frames dob) F' nt start end_ (sorted_pages (frames ho)).
Proof.
  destruct remove_child_run as (F' & fs & off' & lim' & ho' & Erem & Hhid & Hm' & Hmerge). destruct Hdist as (D1 & D2 & D3).
  set (st1 := set_free fs _) in Erem. assert (objs st1 !! s = Some so) as Hso1. { unfold st1. simpl. by rewrite !lookup_insert_ne. }
  assert (objs st1 !! hid = Some (set_frames ∅ ho')) as Hhid1. { unfold st1. simpl. by rewrite lookup_insert_eq. }
  destruct Hwf as (Hs & Ht & Hm). pose proof (s_dead _ _ _ _ Hs) as Hdead.
  assert (hd (objs st) s = Some (hdr so)) as Hso' by (unfold hd; by rewrite Hso). destruct (s_plain _ _ _ _ Hs s _ Hso') as (Hcont & _). simpl in Hcont.
  destruct (drop_all (sorted_pages (frames so)) st1) as (fs2 & Edrop & Hfs2).
  set (st2 := set_objs (delete s (objs st1)) (set_dying (dying0 ∖ {[s]}) (set_free fs2 st1))).
  exists F', fs2, off', lim', (set_objs (delete hid (objs st2)) st2). split_and!.
  - unfold close. rewrite (bind_ok _ _ st tt (set_dying dying0 st)) by done. unfold drop_object.
    rewrite (bind_ok _ _ _ _ _ (get_ok (set_dying dying0 st) s so Hso)), Hps, (bind_ok _ _ _ _ _ Erem), (bind_ok _ _ _ _ _ (get_ok _ _ _ Hso1)).
    rewrite (bind_ok _ _ st1 tt st1).
    2:{ apply (assert_all (λ kv, (if contiguous so && (1 <=? pin_count kv.2) then pin_count kv.2 - 1 else pin_count kv.2) =? 0)).
        intros [k ps] Hk%elem_sorted. rewrite Hcont. cbn [andb]. apply Z.eqb_eq. apply (m_frame _ _ _ _ Hm s k). unfold fr. by rewrite Hso. }
    rewrite (bind_ok _ _ _ _ _ Edrop). rewrite (bind_ok _ _ (set_free fs2 st1) tt st2) by done. rewrite Hps.
    assert (objs st2 !! hid = Some (set_frames ∅ ho')) as Hhid2. { unfold st2. simpl. rewrite lookup_delete_ne by done. done. }
    rewrite (bind_ok _ _ _ _ _ (get_ok _ _ _ Hhid2)). change (type_ (set_frames ∅ ho')) with (type_ ho'). by rewrite Hhid.
  - unfold st2, st1. simpl. apply map_eq. intros m. destruct (decide (m = hid)) as [->|]; [by rewrite !lookup_delete_eq|].
    rewrite !(lookup_delete_ne _ hid) by done. destruct (decide (m = s)) as [->|]; [by rewrite !lookup_delete_eq|].
    rewrite !(lookup_delete_ne _ s) by done. by rewrite lookup_insert_ne.
  - done.
  - unfold st2. simpl. set_solver.
  - done.
  - done.
  - done.
  - eapply memory_perm; [symmetry; exact Hfs2|]. change (free st1) with fs.
    apply (memory_release (<[d := set_frames F' dob]> (<[hid := set_frames ∅ ho]> (objs st))) _ _ _ _ s so); [done|by rewrite !lookup_insert_ne|].
    intros m i ps. unfold st2, st1, fr. simpl. destruct (decide (m = hid)) as [->|]; [by rewrite lookup_delete_eq|]. rewrite lookup_delete_ne by done.
    destruct (decide (m = s)) as [->|]; [by rewrite lookup_delete_eq|]. rewrite lookup_delete_ne, lookup_insert_ne by done. intros E. split; [done|].
    destruct (decide (m = d)) as [->|]; [by rewrite lookup_insert_eq in *|]. by rewrite !lookup_insert_ne in * by done.
  - done.
Qed.

Lemma close_child :
  ∃ st', close s st = (Ok tt, st') ∧ wf rk st' ∧ next_obj st' = next_obj st ∧
    (∀ m mo, m ≠ s → leaf (objs st) m mo → ∃ mo', leaf (objs st') m mo' ∧ size mo' = size mo ∧ ∀ a, 0 ≤ a < size mo → content st' m a = content st m a) ∧
    (∀ m mo', leaf (objs st') m mo' → m ≠ s ∧ ∃ mo, leaf (objs st) m mo).
Proof.
  destruct drop_run as (F' & fs & off' & lim' & st' & E & Eobj & Enext & Edy & Ezero & Emem & Efree & Hm' & HA & HB & HC). destruct Hdist as (D1 & D2 & D3).
  destruct Hwf as (Hs & Ht & Hm).
  assert (∀ m, hd (objs st') m = if decide (m = s ∨ m = hid) then None else if decide (m = d) then Some (set_parent None off' lim' (hdr dob)) else hd (objs st) m) as Hhd.
  { intros m. rewrite Eobj. unfold hd. destruct (decide (m = s ∨ m = hid)) as [Hsh|Hsh].
    - destruct (decide (m = hid)) as [->|]; [by rewrite lookup_delete_eq|]. destruct Hsh as [-> | ->]; [|done]. by rewrite lookup_delete_ne, lookup_delete_eq.
    - rewrite !lookup_delete_ne by naive_solver. destruct (decide (m = d)) as [->|]; [by rewrite lookup_insert_eq|by rewrite lookup_insert_ne]. }
  assert (∀ m i, fr (objs st') m i = if decide (m = s ∨ m = hid) then None else if decide (m = d) then F' !! i else fr (objs st) m i) as Hfr.
  { intros m i. rewrite Eobj. unfold fr. destruct (decide (m = s ∨ m = hid)) as [Hsh|Hsh].
    - destruct (decide (m = hid)) as [->|]; [by rewrite lookup_delete_eq|]. destruct Hsh as [-> | ->]; [|done]. by rewrite lookup_delete_ne, lookup_delete_eq.
    - rewrite !lookup_delete_ne by naive_solver. destruct (decide (m = d)) as [->|]; [by rewrite lookup_insert_eq|by rewrite lookup_insert_ne]. }
  assert (∀ i, fr (objs st') d i = F' !! i) as Hfrd. { intros i. by rewrite Hfr, decide_False, decide_True by naive_solver. }
  assert (∀ i, fr (objs st) d i = frames dob !! i) as Hfrd0 by (intros i; unfold fr; by rewrite Hdob).
  assert (∀ i, fr (objs st) hid i = frames ho !! i) as Hfrh by (intros i; unfold fr; by rewrite Hho).
  assert (hd (objs st) s = Some (hdr so)) as Hso' by (unfold hd; by rewrite Hso). assert (leaf (objs st) s (hdr so)) as Hl by done.
  assert (hd (objs st) hid = Some (hdr ho)) as Hho' by (unfold hd; by rewrite Hho). assert (hd (objs st) d = Some (hdr dob)) as Hdob' by (unfold hd; by rewrite Hdob).
  assert (∀ m i, m ≠ d → fr (objs st') m i = if decide (m = s ∨ m = hid) then None else fr (objs st) m i) as Hfr'.
  { intros m i Hmd. rewrite Hfr. destruct (decide _); [done|]. by rewrite decide_False. }
  assert (∀ k ps, fr (objs st) d k = Some ps → fr (objs st') d k = Some ps) as UA by (intros k ps; rewrite Hfrd, Hfrd0; apply HA).
  assert (∀ k ps, fr (objs st') d k = Some ps → fr (objs st) d k = Some ps ∨ fr (objs st) d k = None ∧ start ≤ k + start < end_ ∧ ∃ v, fr (objs st) hid (k + start) = Some v ∧ ps = page_state (frame v)) as UB.
  { intros k ps. rewrite Hfrd, Hfrd0. intros [?|(? & v & Hv%elem_sorted & ? & _ & ->)]%HB; [by left|]. right. split; [done|]. split; [done|]. exists v. by rewrite Hfrh. }
  assert (∀ k v, fr (objs st) hid (k + start) = Some v → start ≤ k + start < end_ → tag v ≠ nt → fr (objs st) d k = None → fr (objs st') d k = Some (page_state (frame v))) as UC.
  { intros k v. rewrite Hfrd, Hfrd0, Hfrh. intros Hv Hr Htag Hn. apply HC; [by apply elem_sorted|done|done|done]. }
  pose proof (unlink_shape rk (objs st) (objs st') (next_obj st) (dying st) s hid d (hdr so) (hdr ho) (hdr dob) t nt off' lim' Hs Ht Hl Hps Hho' Hroot Hother Hnt Hdob' Hpd Hhd Hfr' UA UB UC) as Hs'.
  pose proof (unlink_tags rk (objs st) (objs st') (next_obj st) (dying st) s hid d (hdr so) (hdr ho) (hdr dob) t nt off' lim' Hs Ht Hl Hps Hho' Hroot Hother Hnt Hdob' Hpd Hhd Hfr' UA UB UC) as Ht'.
  exists st'. split; [done|]. split; [unfold wf; rewrite Enext, Edy, Ezero, Emem, Efree; done|]. split; [done|]. split.
  - intros m mo Hms [Hmo Hmh]. assert (m ≠ hid) as Hmhid.
    { intros ->. rewrite Hho' in Hmo. injection Hmo as <-. simpl in Hmh. unfold get_tag_and_other in Hother. by destruct (type_ ho). }
    assert (∃ mo', leaf (objs st') m mo' ∧ size mo' = size mo) as (mo' & Hl' & Esz).
    { unfold leaf. rewrite Hhd, decide_False by naive_solver. destruct (decide (m = d)) as [->|]; [|eauto]. rewrite Hdob' in Hmo. injection Hmo as <-. eauto. }
    exists mo'. split; [done|]. split; [done|]. intros a Ha. unfold content, pbyte, page. rewrite Emem, Enext.
    rewrite (unlink_page rk (objs st) (objs st') (next_obj st) (dying st) s hid d (hdr so) (hdr ho) (hdr dob) t nt off' lim' Hs Ht Hl Hps Hho' Hroot Hother Hnt Hdob' Hpd Hhd Hfr' UA UB UC); [done|].
    apply (leaf_wanted _ m mo'); [done|by apply Z.div_pos; [lia|]|]. rewrite Esz. unfold PAGE_SIZE. pose proof (Z.div_mod a 4096). pose proof (Z.mod_pos_bound a 4096). lia.
  - intros m mo' [Hmo' Hmh]. rewrite Hhd in Hmo'. destruct (decide _) as [|Hsh]; [done|]. split; [naive_solver|]. destruct (decide (m = d)) as [->|].
    + injection Hmo' as <-. by exists (hdr dob).
    + by exists mo'.
Qed.
End close.

(** An object without a parent goes away. *)
Section close_root.
Context (rk : nat → nat) (g : objects) (next : nat) (dead : gset nat) (s : nat) (so : VMObjectPagedInner).
Hypotheses (Hs : shape rk g next dead) (Ht : tags g) (Hleaf : leaf g s so) (Hroot : parent so = None).
Abbreviation g' := (delete s g).

Lemma gone_hd m (x : VMObjectPagedInner) : hd g' m = Some x ↔ m ≠ s ∧ hd g m = Some x.
Proof. unfold hd. destruct (decide (m = s)) as [->|]; [rewrite lookup_delete_eq; naive_solver|rewrite lookup_delete_ne by done; naive_solver]. Qed.

Lemma gone_fr m i : m ≠ s → fr g' m i = fr g m i.
Proof. intros. unfold fr. by rewrite lookup_delete_ne. Qed.

Lemma gone_parent m (x : VMObjectPagedInner) p : hd g m = Some x → parent x = Some p → p ≠ s ∧ m ≠ s.
Proof.
  intros Hx Hp. destruct Hleaf as [Hso Hh]. destruct (s_parent _ _ _ _ Hs m x p Hx Hp) as (po & l & r & Hpo & Hty & _). split; intros ->.
  - rewrite Hso in Hpo. injection Hpo as <-. by rewrite Hty in Hh.
  - rewrite Hso in Hx. injection Hx as <-. congruence.
Qed.

Lemma gone_shape : shape rk g' next dead.
Proof.
  split.
  - apply Hs.
  - intros m x [? Hx]%gone_hd. by apply (s_bound _ _ _ _ Hs m x).
  - intros m x p [? Hx]%gone_hd. by apply (s_rank _ _ _ _ Hs m x).
  - intros m x p [? Hx]%gone_hd Hp. destruct (s_parent _ _ _ _ Hs m x p Hx Hp) as (po & l & r & Hpo & Hty & Hlr).
    exists po, l, r. destruct (gone_parent m x p Hx Hp). split_and!; [by apply gone_hd|done|done].
  - intros m x l r [? Hx]%gone_hd Hty. destruct (s_hidden _ _ _ _ Hs m x l r Hx Hty) as (Hne & (lo & Hl & Hlp) & ro & Hr & Hrp).
    destruct (gone_parent l lo m Hl Hlp), (gone_parent r ro m Hr Hrp). split; [done|]. split; [exists lo|exists ro]; (split; [by apply gone_hd|done]).
  - intros m x [? Hx]%gone_hd. by apply (s_size _ _ _ _ Hs m x).
  - intros m x p po [? Hx]%gone_hd Hp [? Hpo]%gone_hd. by apply (s_range _ _ _ _ Hs m x p po).
  - intros m x [? Hx]%gone_hd. by apply (s_plain _ _ _ _ Hs m x).
Qed.

Lemma gone_wanted m i : wanted g' m i → wanted g m i ∧ m ≠ s.
Proof.
  induction 1 as [m x i [Hm Hx]%gone_hd Hmh Hi Hl|m x i p _ [IH Hm] [_ Hx]%gone_hd Hf Hp].
  - split; [by apply (wanted_leaf _ m x)|done].
  - rewrite gone_fr in Hf by done. split; [by apply (wanted_up _ m x)|]. by apply (gone_parent m x).
Qed.

Lemma gone_tags : tags g'.
Proof.
  split.
  - intros m x i ps [Hm Hx]%gone_hd. rewrite gone_fr by done. by apply (t_range _ Ht m x).
  - intros m x i ps [Hm Hx]%gone_hd Hmh. rewrite gone_fr by done. by apply (t_leaf _ Ht m x).
  - intros m x l r i ps [Hm Hx]%gone_hd Hty. rewrite gone_fr by done. intros Hps. destruct (t_hidden _ Ht m x l r i ps Hx Hty Hps) as [H1 H2].
    assert (∀ e, asks g' e i → asks g e i) as Hasks.
    { intros e (eo & k & [Hne He]%gone_hd & [Hw _]%gone_wanted & Hf & ->). exists eo, k. rewrite gone_fr in Hf by done. done. }
    split; intros E Ha%Hasks; [by apply H1|by apply H2].
Qed.

Lemma gone_page m (x : VMObjectPagedInner) i : hd g m = Some x → m ≠ s → page_at next g' m i = page_at next g m i.
Proof.
  remember (rk m) as b eqn:Eb. revert m x i Eb. induction (lt_wf b) as [b _ IH]. intros m x i -> Hx Hne.
  rewrite (page_unfold _ _ _ _ gone_shape m x i), (page_unfold _ _ _ _ Hs m x i Hx), gone_fr by (done || by apply gone_hd).
  destruct (fr g m i); [done|]. destruct (parent x) as [p|] eqn:Ep; [|done]. destruct (s_parent _ _ _ _ Hs m x p Hx Ep) as (po & _ & _ & Hpo & _).
  destruct (gone_parent m x p Hx Ep). by apply (IH (rk p)) with po; [apply (s_rank _ _ _ _ Hs m x)| | |].
Qed.
End close_root.

Lemma close_root rk st s o :
  wf rk st → leaf (objs st) s o → parent o = None →
  ∃ st', close s st = (Ok tt, st') ∧ wf rk st' ∧ next_obj st' = next_obj st ∧
    (∀ m mo, m ≠ s → leaf (objs st) m mo → ∃ mo', leaf (objs st') m mo' ∧ size mo' = size mo ∧ ∀ a, 0 ≤ a < size mo → content st' m a = content st m a) ∧
    (∀ m mo', leaf (objs st') m mo' → m ≠ s ∧ ∃ mo, leaf (objs st) m mo).
Proof.
  intros (Hs & Ht & Hm) Hl Hroot. pose proof Hl as [Hn Hh]. destruct (get_obj _ _ _ Hn) as (so & Hso & ->). pose proof (s_dead _ _ _ _ Hs) as Hdead.
  destruct (s_plain _ _ _ _ Hs s _ Hn) as (Hcont & _). simpl in Hcont, Hroot. set (dy := dying st ∪ {[s]}).
  destruct (drop_all (sorted_pages (frames so)) (set_dying dy st)) as (fs & Edrop & Hfs).
  set (st' := set_objs (delete s (objs st)) (set_dying (dy ∖ {[s]}) (set_free fs (set_dying dy st)))).
  pose proof (gone_hd rk (objs st) (next_obj st) (dying st) s (hdr so) Hs Ht Hl Hroot) as Hhd. exists st'. split; [|split; [split_and!|split; [done|split]]].
  - unfold close. rewrite (bind_ok _ _ st tt (set_dying dy st)) by done. unfold drop_object.
    rewrite (bind_ok _ _ _ _ _ (get_ok (set_dying dy st) s so Hso)), Hroot. rewrite (bind_ok _ _ (set_dying dy st) tt (set_dying dy st)) by done.
    rewrite (bind_ok _ _ _ _ _ (get_ok (set_dying dy st) s so Hso)). rewrite (bind_ok _ _ (set_dying dy st) tt (set_dying dy st)).
    2:{ apply (assert_all (λ kv, (if contiguous so && (1 <=? pin_count kv.2) then pin_count kv.2 - 1 else pin_count kv.2) =? 0)).
        intros [k ps] Hk%elem_sorted. rewrite Hcont. cbn [andb]. apply Z.eqb_eq. apply (m_frame _ _ _ _ Hm s k). unfold fr. by rewrite Hso. }
    rewrite (bind_ok _ _ _ _ _ Edrop), Hroot. done.
  - assert (dying st' = dying st) as -> by (unfold st', dy; simpl; set_solver). by apply (gone_shape rk _ _ _ s (hdr so)).
  - by apply (gone_tags rk _ (next_obj st) (dying st) s (hdr so)).
  - eapply memory_perm; [symmetry; exact Hfs|]. apply (memory_release (objs st) _ _ _ _ s so); [done|done|].
    intros m i ps. unfold fr, st'. simpl. destruct (decide (m = s)) as [->|]; [by rewrite lookup_delete_eq|by rewrite lookup_delete_ne].
  - intros m mo Hms [Hmo Hmh]. exists mo. split; [split; [by apply Hhd|done]|]. split; [done|]. intros a Ha. unfold content, pbyte, page.
    change (mem st') with (mem st). change (next_obj st') with (next_obj st). change (objs st') with (delete s (objs st)).
    by rewrite (gone_page rk (objs st) (next_obj st) (dying st) s (hdr so) Hs Ht Hl Hroot m mo).
  - intros m mo' [Hmo' Hmh]. apply Hhd in Hmo' as [? ?]. split; [done|]. by exists mo'.
Qed.

(** An object can be closed when its parent, if it has one, is the root of its tree. *)
Definition closable g o : Prop := match parent o with None => True | Some p => ∃ po, hd g p = Some po ∧ parent po = None end.

Lemma close_spec rk st s o :
  wf rk st → leaf (objs st) s o → closable (objs st) o →
  ∃ st', close s st = (Ok tt, st') ∧ wf rk st' ∧ next_obj st' = next_obj st ∧
    (∀ m mo, m ≠ s → leaf (objs st) m mo → ∃ mo', leaf (objs st') m mo' ∧ size mo' = size mo ∧ ∀ a, 0 ≤ a < size mo → content st' m a = content st m a) ∧
    (∀ m mo', leaf (objs st') m mo' → m ≠ s ∧ ∃ mo, leaf (objs st) m mo).
Proof.
  intros Hwf Hl Hcl. unfold closable in Hcl. destruct (parent o) as [hid|] eqn:Ep; [|by apply (close_root rk st s o)].
  destruct Hcl as (ho & Hho & Hroot). pose proof Hwf as (Hs & _). pose proof Hl as [Hn Hh].
  destruct (s_parent _ _ _ _ Hs s o hid Hn Ep) as (ho' & l & r & Hho' & Hty & Hlr). rewrite Hho in Hho'. injection Hho' as <-.
  destruct (sibling rk _ _ _ Hs hid ho l r s Hho Hty Hlr) as (t & d & Hother & Hsplit & Hds & Hd & _).
  destruct (s_hidden _ _ _ _ Hs hid ho l r Hho Hty) as (_ & HL & HR). assert (∃ dh, hd (objs st) d = Some dh ∧ parent dh = Some hid) as (dh & Hdh & Hpd) by (destruct Hd as [-> | ->]; done).
  assert (∃ nt, negate t = Some nt) as [nt Hnt] by (destruct t; [done|eauto|eauto]).
  pose proof (s_rank _ _ _ _ Hs s o hid Hn Ep). pose proof (s_rank _ _ _ _ Hs d dh hid Hdh Hpd).
  destruct (get_obj _ _ _ Hn) as (so & Hso & ->). destruct (get_obj _ _ _ Hho) as (ho1 & Hho1 & ->). destruct (get_obj _ _ _ Hdh) as (dob & Hdob & ->).
  apply (close_child rk st s hid d so ho1 dob t nt); [done..|]. split_and!; [intros ->; lia|done|intros ->; lia].
Qed.
End cow.
