(* ===== verification/PagedRoot.v ===== *)
(** * Objects without a parent

    [zero], [decommit] and [set_len] of [zircon-object/src/vm/vmo/paged.rs] on an object that
    has no parent, that is, that has no clones and is none: there they clear, give back and
    resize the byte array that the object stands for.  (On clones they do not, see
    [PagedSpec].) *)

From stdpp Require Import gmap.
From S2P Require Import Prelude Errors PageTable Vmo Paged PagedProps.
From stdpp Require Import options.
#[local] Open Scope Z_scope.
Implicit Types (g : objects) (o : VMObjectPagedInner) (n m c d p : nat) (ps : PageState) (i j k x f : Z).

Section root_ops.
Context `{FrameAllocator}.
#[local] Set Default Proof Using "All".
(** ** A change of one object without a parent *)
Section change.
Context (rk : nat → nat) (g g' : objects) (next : nat) (dead : gset nat) (n : nat) (o o' : VMObjectPagedInner).
Hypotheses (Hs : shape rk g next dead) (Ht : tags g) (Hl : leaf g n o) (Hp : parent o = None).
Hypothesis Hhd : ∀ m, hd g' m = if decide (m = n) then Some o' else hd g m.
Hypotheses (Hh' : is_hidden (type_ o') = false) (Hp' : parent o' = None) (Hsz' : 0 ≤ size o' < 2 ^ 64 ∧ size o' mod PAGE_SIZE = 0)
  (Hplain' : contiguous o' = false ∧ policy o' = CachePolicy.Cached ∧ pin_total o' = 0).
Hypothesis Hfr : ∀ m i, m ≠ n → fr g' m i = fr g m i.
Hypothesis Hfrn : ∀ i ps, fr g' n i = Some ps → fr g n i = Some ps ∧ i * PAGE_SIZE < size o'.

Lemma change_cases m (x' : VMObjectPagedInner) : hd g' m = Some x' → m = n ∧ x' = o' ∨ m ≠ n ∧ hd g m = Some x'.
Proof. rewrite Hhd. destruct (decide (m = n)); [intros [= <-]|]; auto. Qed.

Lemma change_other m (x : VMObjectPagedInner) : hd g m = Some x → m ≠ n → hd g' m = Some x.
Proof. intros. by rewrite Hhd, decide_False. Qed.

(** The object is not on a path of the tree. *)
Lemma change_apart m (x : VMObjectPagedInner) p : hd g m = Some x → parent x = Some p → m ≠ n ∧ p ≠ n.
Proof.
  intros Hx Hxp. destruct Hl as [Ho Hh]. destruct (s_parent _ _ _ _ Hs m x p Hx Hxp) as (po & l & r & Hpo & Hty & _). split; intros ->.
  - rewrite Ho in Hx. injection Hx as <-. congruence.
  - rewrite Ho in Hpo. injection Hpo as <-. by rewrite Hty in Hh.
Qed.

Lemma change_shape : shape rk g' next dead.
Proof.
  split.
  - apply Hs.
  - intros m x [(-> & _)|(_ & Hx)]%change_cases; [by apply (s_bound _ _ _ _ Hs n o), Hl|by apply (s_bound _ _ _ _ Hs m x)].
  - intros m x p [(-> & ->)|(_ & Hx)]%change_cases; [by rewrite Hp'|by apply (s_rank _ _ _ _ Hs m x)].
  - intros m x p [(-> & ->)|(_ & Hx)]%change_cases Hxp; [by rewrite Hp' in Hxp|].
    destruct (s_parent _ _ _ _ Hs m x p Hx Hxp) as (po & l & r & Hpo & Hty & Hlr). destruct (change_apart m x p Hx Hxp).
    exists po, l, r. split; [by apply change_other|done].
  - intros m x l r [(-> & ->)|(_ & Hx)]%change_cases Hty; [by rewrite Hty in Hh'|].
    destruct (s_hidden _ _ _ _ Hs m x l r Hx Hty) as (Hne & (lo & Hlo & Hlp) & ro & Hro & Hrp).
    destruct (change_apart l lo m Hlo Hlp), (change_apart r ro m Hro Hrp). split; [done|]. split; [exists lo|exists ro]; (split; [by apply change_other|done]).
  - intros m x [(-> & ->)|(_ & Hx)]%change_cases; [done|by apply (s_size _ _ _ _ Hs m x)].
  - intros m x p po [(-> & ->)|(_ & Hx)]%change_cases Hxp; [by rewrite Hp' in Hxp|]. destruct (change_apart m x p Hx Hxp).
    rewrite Hhd, decide_False by done. by apply (s_range _ _ _ _ Hs m x p po).
  - intros m x [(-> & ->)|(_ & Hx)]%change_cases; [done|by apply (s_plain _ _ _ _ Hs m x)].
Qed.

Lemma change_wanted m i : wanted g' m i → m = n ∨ wanted g m i.
Proof.
  induction 1 as [m x i [(-> & _)|(Hm & Hx)]%change_cases Hmh Hi Hsz|m x i p _ IH [(-> & ->)|(Hm & Hx)]%change_cases Hf Hxp]; [by left| |by rewrite Hp' in Hxp|].
  - right. by apply (wanted_leaf _ m x).
  - right. destruct IH as [->|IH]; [done|]. rewrite Hfr in Hf by done. by apply (wanted_up _ m x).
Qed.

Lemma change_tags : tags g'.
Proof.
  assert (∀ m i ps, fr g' m i = Some ps → fr g m i = Some ps) as Hold.
  { intros m i ps. destruct (decide (m = n)) as [->|]; [apply Hfrn|by rewrite Hfr]. }
  split.
  - intros m x i ps [(-> & ->)|(Hm & Hx)]%change_cases Hps; [|by apply (t_range _ Ht m x i ps); auto].
    destruct (Hfrn i ps Hps) as [Hps0 ?]. destruct Hl as [Ho _]. by destruct (t_range _ Ht n o i ps Ho Hps0).
  - intros m x i ps [(-> & ->)|(Hm & Hx)]%change_cases Hmh Hps%Hold; [by apply (t_leaf _ Ht n o i ps); [apply Hl..|]|by apply (t_leaf _ Ht m x i ps)].
  - intros m x l r i ps [(-> & ->)|(Hm & Hx)]%change_cases Hty Hps%Hold; [by rewrite Hty in Hh'|].
    destruct (t_hidden _ Ht m x l r i ps Hx Hty Hps) as [H1 H2]. destruct (s_hidden _ _ _ _ Hs m x l r Hx Hty) as (_ & (lo & Hlo & Hlp) & ro & Hro & Hrp).
    assert (∀ e eo, hd g e = Some eo → parent eo = Some m → asks g' e i → asks g e i) as Hasks.
    { intros e eo He Hep (eo' & k & He' & Hw & Hf & ->). destruct (change_apart e eo m He Hep) as [Hne _]. rewrite Hhd, decide_False in He' by done.
      exists eo', k. rewrite Hfr in Hf by done. destruct (change_wanted e k Hw); done. }
    split; intros E Ha; [apply (H1 E)|apply (H2 E)]; by eapply Hasks.
Qed.

Lemma change_page m (x : VMObjectPagedInner) i : hd g m = Some x → m ≠ n → page_at next g' m i = page_at next g m i.
Proof.
  remember (rk m) as b eqn:Eb. revert m x i Eb. induction (lt_wf b) as [b _ IH]. intros m x i -> Hx Hne.
  rewrite (page_unfold _ _ _ _ change_shape m x i), (page_unfold _ _ _ _ Hs m x i Hx), Hfr by (done || by apply change_other).
  destruct (fr g m i); [done|]. destruct (parent x) as [p|] eqn:Ep; [|done]. destruct (s_parent _ _ _ _ Hs m x p Hx Ep) as (po & _ & _ & Hpo & _).
  destruct (change_apart m x p Hx Ep). by apply (IH (rk p)) with po; [apply (s_rank _ _ _ _ Hs m x)| | |].
Qed.
End change.

Lemma page_root rk g next dead n o i : shape rk g next dead → hd g n = Some o → parent o = None → page_at next g n i = frame <$> fr g n i.
Proof. intros Hs Ho Hp. rewrite (page_unfold _ _ _ _ Hs n o i Ho), Hp. by destruct (fr g n i). Qed.

(** The frame of one page is given back. *)
Lemma memory_drop g g' fs z mm n i ps :
  memory g fs z mm → fr g n i = Some ps → (∀ m j ps', fr g' m j = Some ps' → (m, j) ≠ (n, i) ∧ fr g m j = Some ps') →
  memory g' (frame ps :: fs) z mm.
Proof.
  intros [H1 H2 [H3 H4] H5] Hps Hg. destruct (H2 _ _ _ Hps) as (K1 & K2 & K3 & _). split; [| | |done].
  - intros m j p1 m' j' p2 [_ E1]%Hg [_ E2]%Hg. by apply H1.
  - intros m j p1 [Hne E]%Hg. destruct (H2 _ _ _ E) as (J1 & J2 & J3 & J4). split_and!; [done| |done|done].
    rewrite elem_of_cons. intros [Ef|]; [|done]. destruct (H1 _ _ _ _ _ _ E Hps Ef) as [-> ->]. done.
  - split; [by constructor|]. intros f [->|?]%elem_of_cons; auto.
Qed.

Lemma in_page a i : i * PAGE_SIZE ≤ a < (i + 1) * PAGE_SIZE ↔ a / PAGE_SIZE = i.
Proof.
  unfold PAGE_SIZE. pose proof (Z.div_mod a 4096). pose proof (Z.mod_pos_bound a 4096). split; [|lia].
  intros. symmetry. apply Z.div_unique with (a - 4096 * i); lia.
Qed.

(** ** Removing one page *)
Lemma remove_page_spec rk st n o i :
  wf rk st → leaf (objs st) n o → parent o = None →
  ∃ st', remove_page n i st = (Ok tt, st') ∧ wf rk st' ∧ wrote st st' n (i * PAGE_SIZE) ((i + 1) * PAGE_SIZE) (λ _, 0) ∧
    ∀ j, fr (objs st') n j = if decide (j = i) then None else fr (objs st) n j.
Proof.
  intros Hwf Hl Hp. pose proof Hwf as (Hs & Ht & Hm). pose proof Hl as [Hn Hh]. destruct (get_obj _ _ _ Hn) as (o1 & Eo & ->).
  unfold remove_page. rewrite (bind_ok _ _ _ _ _ (get_ok _ _ _ Eo)). destruct (frames o1 !! i) as [ps|] eqn:Ei.
  2:{ exists st. split; [done|]. split; [done|]. split.
      2:{ intros j. destruct (decide (j = i)) as [->|]; [|done]. unfold fr. rewrite Eo. simpl. by rewrite Ei. }
      split; [done|]. intros m mo a Hml Ha. destruct (decide _) as [[-> Hr]|]; [|done].
      apply in_page in Hr. unfold content, pbyte, page. rewrite Hr, (page_root rk _ _ _ n (hdr o1) i Hs Hn Hp). unfold fr. rewrite Eo. simpl. by rewrite Ei. }
  assert (fr (objs st) n i = Some ps) as Hps by (unfold fr; by rewrite Eo).
  set (st' := set_free (frame_dealloc (frame ps) (free st)) (drop_page n i st)). exists st'. split.
  { rewrite (bind_ok _ _ st tt (drop_page n i st)); [done|]. unfold upd, modify, drop_page. by rewrite <-(alter_here _ n o1 (λ o, delete i (frames o))). }
  assert (∀ m, hd (objs st') m = hd (objs st) m) as Hhd by (intros m; apply hd_alter).
  assert (∀ m j, fr (objs st') m j = if decide ((m, j) = (n, i)) then None else fr (objs st) m j) as Hfr by (intros m j; by apply (fr_drop n i st o1)).
  assert (∀ m, hd (objs st') m = if decide (m = n) then Some (hdr o1) else hd (objs st) m) as Hhd'.
  { intros m. rewrite Hhd. by destruct (decide (m = n)) as [->|]. }
  assert (∀ m j, m ≠ n → fr (objs st') m j = fr (objs st) m j) as Hfr' by (intros; rewrite Hfr, decide_False; congruence).
  assert (∀ j ps', fr (objs st') n j = Some ps' → fr (objs st) n j = Some ps' ∧ j * PAGE_SIZE < size (hdr o1)) as Hfrn.
  { intros j ps'. rewrite Hfr. destruct (decide _); [done|]. intros E. split; [done|]. by apply (t_range _ Ht n (hdr o1) j ps'). }
  pose proof (s_size _ _ _ _ Hs n _ Hn) as Hsz. pose proof (s_plain _ _ _ _ Hs n _ Hn) as Hplain.
  pose proof (change_shape rk (objs st) (objs st') (next_obj st) (dying st) n _ _ Hs Ht Hl Hp Hhd' Hh Hp Hsz Hplain Hfr' Hfrn) as Hs'.
  split; [split_and!|split; [split|]].
  - done.
  - by apply (change_tags rk (objs st) (objs st') (next_obj st) (dying st) n (hdr o1) (hdr o1)).
  - eapply memory_perm; [symmetry; apply frame_dealloc_perm|]. apply (memory_drop (objs st) _ _ _ _ n i); [done|done|].
    intros m j ps'. rewrite Hfr. by destruct (decide _).
  - done.
  - intros m mo a Hml Ha. unfold content, pbyte, page. change (mem st') with (mem st). change (next_obj st') with (next_obj st).
    destruct (decide (m = n)) as [->|Hne].
    + rewrite (page_root rk _ _ _ n (hdr o1) _ Hs' ltac:(by rewrite Hhd) Hp), (page_root rk _ _ _ n (hdr o1) _ Hs Hn Hp), Hfr.
      destruct (decide (n = n ∧ _)) as [[_ Hr]|Hr].
      * apply in_page in Hr. by rewrite Hr, decide_True.
      * rewrite decide_False; [done|]. intros [= E]. apply Hr. split; [done|by apply in_page].
    + rewrite (decide_False (P := m = n ∧ _)) by naive_solver.
      by rewrite (change_page rk (objs st) (objs st') (next_obj st) (dying st) n _ _ Hs Ht Hl Hp Hhd' Hh Hp Hsz Hplain Hfr' Hfrn m mo _ (proj1 Hml) Hne).
  - intros j. rewrite Hfr. by destruct (decide (j = i)) as [->|]; [rewrite decide_True|rewrite decide_False by congruence].
Qed.

(** ** [decommit] *)
Lemma remove_pages_spec rk n o first (count : nat) k st :
  wf rk st → leaf (objs st) n o → parent o = None → 0 ≤ first → 0 ≤ k → first + k + Z.of_nat count ≤ 2 ^ 64 →
  ∃ st', for_each (seqZ k (Z.of_nat count)) (λ i, remove_page n (first +u i)) st = (Ok tt, st') ∧ wf rk st' ∧
    wrote st st' n ((first + k) * PAGE_SIZE) ((first + k + Z.of_nat count) * PAGE_SIZE) (λ _, 0).
Proof.
  revert k st. induction count as [|count IH]; intros k st Hwf Hl Hp Hf Hk Hb.
  { exists st. split; [done|]. split; [done|]. rewrite Z.add_0_r. apply keeps_wrote, keeps_refl. }
  rewrite seqZ_cons by lia. cbn [for_each]. rewrite wadd_small by (unfold fits; lia).
  destruct (remove_page_spec rk st n o (first + k) Hwf Hl Hp) as (st1 & E1 & Hw1 & Hz1 & _). rewrite (bind_ok _ _ _ _ _ E1).
  replace (Z.pred (Z.of_nat (S count))) with (Z.of_nat count) by lia.
  destruct (IH (Z.succ k) st1 Hw1) as (st2 & -> & Hw2 & Hz2); [by apply (leaf_same st); [apply Hz1|]|done|done|lia|lia|].
  exists st2. split; [done|]. split; [done|]. apply (wrote_trans st st1 st2 n _ ((first + k + 1) * PAGE_SIZE)); [unfold PAGE_SIZE; lia|done|].
  replace (first + Z.succ k) with (first + k + 1) in Hz2 by lia. by replace (first + k + Z.of_nat (S count)) with (first + k + 1 + Z.of_nat count) by lia.
Qed.

Lemma decommit_spec rk st n o offset len :
  wf rk st → leaf (objs st) n o → parent o = None → 0 ≤ offset → 0 ≤ len → offset + len < 2 ^ 64 →
  ∃ st', decommit n offset len st = (Ok tt, st') ∧ wf rk st' ∧
    wrote st st' n (offset / PAGE_SIZE * PAGE_SIZE) ((offset / PAGE_SIZE + len / PAGE_SIZE) * PAGE_SIZE) (λ _, 0).
Proof.
  intros Hwf Hl Hp Ho Hlen Hb. pose proof Hl as [Hn _]. destruct (get_obj _ _ _ Hn) as (o1 & Eo & ->).
  unfold decommit. rewrite (bind_ok _ _ _ _ _ (get_ok _ _ _ Eo)), bool_decide_true by done.
  assert (0 ≤ offset / PAGE_SIZE ∧ 0 ≤ len / PAGE_SIZE ∧ offset / PAGE_SIZE + len / PAGE_SIZE ≤ 2 ^ 64) as (H1 & H2 & H3).
  { unfold PAGE_SIZE. pose proof (Z.div_mod offset 4096). pose proof (Z.div_mod len 4096). pose proof (Z.mod_pos_bound offset 4096). pose proof (Z.mod_pos_bound len 4096).
    split_and!; [apply Z.div_pos; lia|apply Z.div_pos; lia|lia]. }
  destruct (remove_pages_spec rk n (hdr o1) (offset / PAGE_SIZE) (Z.to_nat (len / PAGE_SIZE)) 0 st Hwf Hl Hp H1) as (st' & E & Hw & Hz); [lia|lia|].
  rewrite Z2Nat.id, Z.add_0_r in * by done. eauto.
Qed.

(** ** [zero] *)
#[local] Opaque pmem_copy pmem_write byte.

Lemma bind_err {A B} (c : M A) (k : A → M B) st e st' : c st = (Err e, st') → bind c k st = (Err e, st').
Proof. unfold bind. by intros ->. Qed.

Lemma committed_root rk st n o i :
  wf rk st → leaf (objs st) n o → parent o = None → 0 ≤ i → i * PAGE_SIZE < size o →
  committed_pages_in_range n i (i +u 1) st = (Ok (if fr (objs st) n i then 1 else 0), st).
Proof.
  intros (Hs & _) [Hn _] Hp Hi Hsz. destruct (get_obj _ _ _ Hn) as (o1 & Eo & ->). destruct (s_size _ _ _ _ Hs n _ Hn) as [Hb Hmod].
  assert (i < size (hdr o1) / PAGE_SIZE ∧ i < 2 ^ 52) as [Hlt Hi52]. { unfold PAGE_SIZE in *. pose proof (Z.div_mod (size (hdr o1)) 4096). lia. } simpl in Hlt.
  unfold committed_pages_in_range. rewrite (bind_ok _ _ _ _ _ (get_ok _ _ _ Eo)), wadd_small by (unfold fits; lia).
  rewrite (proj2 (Z.ltb_lt _ _) Hlt), (proj2 (Z.leb_le (i + 1) (size o1 / PAGE_SIZE)) ltac:(lia)).
  rewrite (bind_ok (assert true) _ st tt st), (bind_ok (assert true) _ st tt st) by done.
  replace (i + 1 - i) with 1 by lia. change (seqZ i 1) with [i]. cbn [count_committed].
  rewrite (bind_ok _ _ _ _ _ (get_ok _ _ _ Eo)), (bind_ok _ _ st (fuel_of st) st) by done. unfold fr. rewrite Eo. simpl mbind.
  destruct (frames o1 !! i); simpl bool_decide; cbv iota; [done|]. simpl in Hp. rewrite Hp. by destruct (parent_limit o1 <=? i *u PAGE_SIZE).
Qed.

Lemma zero_block_spec rk st n o lo hi b l :
  wf rk st → leaf (objs st) n o → parent o = None → 0 ≤ lo → hi ≤ size o → covers 12 lo hi (b :: l) →
  wf rk (zero_block n b st).2 ∧
  match zero_block n b st with
  | (Ok _, st') => wrote st st' n lo (lo + len b) (λ _, 0)
  | (Err e, st') => e = ZxError.NO_MEMORY ∧ free st' = [] ∧ keeps st st'
  | (Panic, _) => False
  end.
Proof.
  intros Hwf Hl Hp Hlo Hhi Hc. pose proof Hc as ((Hb & Hbm) & Hbb & Hbe & _ & _ & Hlen & Hrest). pose proof (covers_le _ _ _ _ Hrest) as Hle.
  change (2 ^ 12) with PAGE_SIZE in *. pose proof Hwf as (Hs & _). destruct (page_size_le o lo) as [Hp1 Hp2]; [lia|]. rewrite <-Hb in Hp1, Hp2.
  pose proof Hl as [Hn _]. destruct (get_obj _ _ _ Hn) as (o1 & Eo & Eo1). destruct (s_plain _ _ _ _ Hs n _ Hn) as (Hcont & _).
  assert (contiguous o1 = false) as Hc1 by exact (eq_trans (f_equal contiguous (eq_sym Eo1)) Hcont).
  pose proof (commit_page_spec rk st n o (block b) MMUFlags.WRITE Hwf Hl Hp1 Hp2) as Hcom.
  unfold zero_block. rewrite (bind_ok _ _ _ _ _ (get_ok _ _ _ Eo)), Hc1. cbn [negb]. rewrite andb_true_r. destruct (len b =? PAGE_SIZE) eqn:Efull.
  - apply Z.eqb_eq in Efull. destruct (commit_page n (block b) MMUFlags.WRITE st) as [[paddr|e|] st1] eqn:Ec; [| |tauto].
    2:{ rewrite (bind_err _ _ _ _ _ Ec). simpl. tauto. }
    rewrite (bind_ok _ _ _ _ _ Ec). destruct Hcom as (Hw1 & Hk1 & _). pose proof (leaf_same _ _ n o (proj1 Hk1) Hl) as Hl1.
    destruct (remove_page_spec rk st1 n o (block b) Hw1 Hl1 Hp) as (st2 & E2 & Hw2 & Hz2 & _). rewrite (bind_ok _ _ _ _ _ E2). split; [done|].
    assert (lo = block b * PAGE_SIZE) as ->. { unfold PAGE_SIZE in *. pose proof (Z.div_mod lo 4096). lia. }
    apply (wrote_trans st st1 st2 n _ (block b * PAGE_SIZE)); [lia|by apply keeps_wrote|]. by replace (block b * PAGE_SIZE + len b) with ((block b + 1) * PAGE_SIZE) by lia.
  - rewrite (bind_ok _ _ _ _ _ (committed_root rk st n o (block b) Hwf Hl Hp Hp1 Hp2)). destruct (fr (objs st) n (block b)) as [ps0|] eqn:Efr.
    + change (1 =? 0) with false. cbv iota. destruct (commit_page n (block b) MMUFlags.WRITE st) as [[paddr|e|] st1] eqn:Ec; [| |tauto].
      2:{ rewrite (bind_err _ _ _ _ _ Ec). simpl. tauto. }
      rewrite (bind_ok _ _ _ _ _ Ec). destruct Hcom as (Hw1 & Hk1 & _ & Hown). destruct (Hown eq_refl) as (ps & Hps & <-).
      pose proof (leaf_same _ _ n o (proj1 Hk1) Hl) as Hl1. unfold pmem_zero.
      destruct (poke_spec rk st1 n o lo hi b l ps (replicate (Z.to_nat (len b)) 0) (λ _, 0) Hw1 Hl1 Hps Hlo Hc) as [Hw2 Hz2].
      { unfold zlen. rewrite length_replicate. lia. }
      { intros a Ha. apply nth_lookup_Some, lookup_replicate_2. lia. }
      split; [done|]. by apply (wrote_trans st st1 _ n lo lo); [lia|apply keeps_wrote|].
    + split; [done|]. split; [done|]. intros m mo a Hml Ha. destruct (decide _) as [[-> Hr]|]; [|done].
      destruct (covers_page lo hi b l a Hlo Hc Hr) as (E & _). unfold content, pbyte, page.
      by rewrite E, (page_root rk _ _ _ n o (block b) Hs Hn Hp), Efr.
Qed.

(** The bytes up to [mid] are zeroed; all of them, unless there is no memory left. *)
Definition zero_post (rk : nat → nat) (st : heap) n (lo hi : Z) {A} (res : ZxResult A * heap) : Prop :=
  wf rk res.2 ∧ ∃ mid, lo ≤ mid ≤ hi ∧ wrote st res.2 n lo mid (λ _, 0) ∧
  match res.1 with Ok _ => mid = hi | Err e => e = ZxError.NO_MEMORY ∧ free res.2 = [] | Panic => False end.

Lemma zero_blocks_spec rk n o hi l lo st :
  wf rk st → leaf (objs st) n o → parent o = None → 0 ≤ lo → hi ≤ size o → covers 12 lo hi l →
  zero_post rk st n lo hi (zero_blocks n l st).
Proof.
  revert lo st. induction l as [|b l IH]; intros lo st Hwf Hl Hp Hlo Hhi Hc.
  { simpl in Hc. subst hi. split; [done|]. exists lo. split_and!; [lia|lia|apply keeps_wrote, keeps_refl|done]. }
  pose proof Hc as (_ & Hbb & _ & _ & _ & Hlen & Hrest). pose proof (covers_le _ _ _ _ Hrest) as Hle. cbn [zero_blocks].
  destruct (zero_block_spec rk st n o lo hi b l Hwf Hl Hp Hlo Hhi Hc) as [Hw1 Hz1]. destruct (zero_block n b st) as [[up|e|] st1] eqn:E1; [| |done].
  2:{ rewrite (bind_err _ _ _ _ _ E1). destruct Hz1 as (-> & Hf & Hk). split; [done|]. exists lo. split_and!; [lia|lia|by apply keeps_wrote|done]. }
  rewrite (bind_ok _ _ _ _ _ E1). simpl in Hw1. pose proof (leaf_same _ _ n o (w_same _ _ _ _ _ _ Hz1) Hl) as Hl1.
  destruct (IH (lo + len b) st1 Hw1 Hl1 Hp ltac:(lia) Hhi Hrest) as (Hw2 & mid & Hmid & Hz2 & Hres).
  destruct (zero_blocks n l st1) as [[rest|e|] st2] eqn:E2; [| |done].
  - rewrite (bind_ok _ _ _ _ _ E2). split; [done|]. exists mid. split_and!; [lia|lia| |done]. by apply (wrote_trans st st1 st2 n lo (lo + len b)); [lia| |].
  - rewrite (bind_err _ _ _ _ _ E2). split; [done|]. exists mid. split_and!; [lia|lia| |done]. by apply (wrote_trans st st1 st2 n lo (lo + len b)); [lia| |].
Qed.

Lemma release_root st n o l : objs st !! n = Some o → parent o = None → release_unwanted_pages_in_parent n l st = (Ok tt, st).
Proof. intros Eo Hp. unfold release_unwanted_pages_in_parent. rewrite (bind_ok _ _ _ _ _ (get_ok _ _ _ Eo)), Hp. done. Qed.

Lemma zero_spec rk st n o offset len :
  wf rk st → leaf (objs st) n o → parent o = None → 0 ≤ offset → 0 ≤ len → offset + len ≤ size o →
  zero_post rk st n offset (offset + len) (zero n offset len st).
Proof.
  intros Hwf Hl Hp Ho Hlen Hsz. pose proof Hwf as (Hs & _). pose proof Hl as [Hn _]. destruct (get_obj _ _ _ Hn) as (o1 & Eo & ->).
  destruct (s_size _ _ _ _ Hs n _ Hn) as [Hb _]. unfold zero. rewrite (bind_ok _ _ _ _ _ (get_ok _ _ _ Eo)), wadd_small by (unfold fits; simpl in *; lia).
  rewrite (proj2 (Z.ltb_ge (size o1) (offset + len)) Hsz). destruct (blocks_ok offset (offset + len) st) as (l & El & Hc); [lia|simpl in *; lia|].
  rewrite (bind_ok _ _ _ _ _ El). destruct (zero_blocks_spec rk n (hdr o1) (offset + len) l offset st Hwf Hl Hp Ho Hsz Hc) as (Hw1 & mid & Hmid & Hz & Hres).
  destruct (zero_blocks n l st) as [[up|e|] st1] eqn:E1; [| |done].
  - rewrite (bind_ok _ _ _ _ _ E1). pose proof (leaf_same _ _ n _ (w_same _ _ _ _ _ _ Hz) Hl) as [Hn1 _]. destruct (get_obj _ _ _ Hn1) as (o2 & Eo2 & E2).
    rewrite (release_root st1 n o2); [|done|exact (eq_trans (f_equal parent (eq_sym E2)) Hp)]. split; [done|]. by exists mid.
  - rewrite (bind_err _ _ _ _ _ E1). split; [done|]. by exists mid.
Qed.

(** ** [set_len] *)
(** What the bytes of the objects are after object [n] was replaced by [o2]. *)
Record replaced (st st' : heap) n (o2 : VMObjectPagedInner) : Prop := {
  r_here : leaf (objs st') n (hdr o2);
  r_next : next_obj st' = next_obj st;
  r_bytes a : content st' n a = match frames o2 !! (a / PAGE_SIZE) with Some ps => byte (mem st) (frame ps + a mod PAGE_SIZE) | None => 0 end;
  r_others m o : m ≠ n → leaf (objs st) m o → leaf (objs st') m o ∧ ∀ a, content st' m a = content st m a;
  r_old m o : m ≠ n → leaf (objs st') m o → leaf (objs st) m o
}.

Lemma replaced_spec rk st st' n (o o2 : VMObjectPagedInner) :
  wf rk st → objs st !! n = Some o → is_hidden (type_ o) = false → parent o = None →
  objs st' = <[n := o2]> (objs st) → next_obj st' = next_obj st → dying st' = dying st → mem st' = mem st →
  type_ o2 = type_ o → parent o2 = None → 0 ≤ size o2 < 2 ^ 64 ∧ size o2 mod PAGE_SIZE = 0 →
  contiguous o2 = contiguous o → policy o2 = policy o → pin_total o2 = pin_total o →
  (∀ i ps, frames o2 !! i = Some ps → frames o !! i = Some ps ∧ i * PAGE_SIZE < size o2) →
  memory (objs st') (free st') (ZERO_FRAME st') (mem st) → wf rk st' ∧ replaced st st' n o2.
Proof.
  intros (Hs & Ht & Hm) Eo Hh Hp Eobjs Enext Edy Emem Hty Hp2 Hsz2 Hc2 Hpol2 Hpin2 Hfr2 Hm'.
  assert (hd (objs st) n = Some (hdr o)) as Hn by (unfold hd; by rewrite Eo).
  assert (∀ m, hd (objs st') m = if decide (m = n) then Some (hdr o2) else hd (objs st) m) as Hhd.
  { intros m. unfold hd. rewrite Eobjs. destruct (decide (m = n)) as [->|]; [by rewrite lookup_insert_eq|by rewrite lookup_insert_ne]. }
  assert (∀ m i, m ≠ n → fr (objs st') m i = fr (objs st) m i) as Hfr by (intros m i ?; rewrite Eobjs, fr_insert, decide_False; done).
  assert (∀ i, fr (objs st') n i = frames o2 !! i) as Hfrn by (intros i; rewrite Eobjs, fr_insert, decide_True; done).
  assert (∀ i ps, fr (objs st') n i = Some ps → fr (objs st) n i = Some ps ∧ i * PAGE_SIZE < size (hdr o2)) as Hfrn'.
  { intros i ps. rewrite Hfrn. unfold fr. rewrite Eo. apply Hfr2. }
  assert (leaf (objs st) n (hdr o)) as Hl by done. assert (is_hidden (type_ (hdr o2)) = false) as Hh2 by (simpl; by rewrite Hty).
  assert (contiguous (hdr o2) = false ∧ policy (hdr o2) = CachePolicy.Cached ∧ pin_total (hdr o2) = 0) as Hplain.
  { simpl. rewrite Hc2, Hpol2, Hpin2. exact (s_plain _ _ _ _ Hs n _ Hn). }
  pose proof (change_shape rk (objs st) (objs st') (next_obj st) (dying st) n _ _ Hs Ht Hl Hp Hhd Hh2 Hp2 Hsz2 Hplain Hfr Hfrn') as Hs'.
  pose proof (change_tags rk (objs st) (objs st') (next_obj st) (dying st) n _ _ Hs Ht Hl Hp Hhd Hh2 Hp2 Hsz2 Hplain Hfr Hfrn') as Ht'.
  split; [|split].
  - split_and!; [by rewrite Enext, Edy|done|by rewrite Emem].
  - split; [by rewrite Hhd, decide_True|done].
  - done.
  - intros a. unfold content, pbyte, page. rewrite Enext, Emem, (page_root rk _ _ _ n (hdr o2) _ Hs'), Hfrn; [by destruct (frames o2 !! (a / PAGE_SIZE))|by rewrite Hhd, decide_True|done].
  - intros m mo Hne [Hmo Hmh]. split; [split; [by rewrite Hhd, decide_False|done]|]. intros a. unfold content, pbyte, page. rewrite Enext, Emem.
    by rewrite (change_page rk (objs st) (objs st') (next_obj st) (dying st) n _ _ Hs Ht Hl Hp Hhd Hh2 Hp2 Hsz2 Hplain Hfr Hfrn' m mo _ Hmo Hne).
  - intros m mo Hne [Hmo Hmh]. rewrite Hhd, decide_False in Hmo by done. done.
Qed.

Lemma shrink_pages_spec rk n o pe (count : nat) k st :
  wf rk st → leaf (objs st) n o → parent o = None →
  ∃ up st', shrink_pages n pe (seqZ k (Z.of_nat count)) st = (Ok up, st') ∧ wf rk st' ∧
    wrote st st' n (k * PAGE_SIZE) ((k + Z.of_nat count) * PAGE_SIZE) (λ _, 0) ∧
    ∀ j, fr (objs st') n j = if decide (k ≤ j < k + Z.of_nat count) then None else fr (objs st) n j.
Proof.
  revert k st. induction count as [|count IH]; intros k st Hwf Hl Hp.
  { exists [], st. split; [done|]. split; [done|]. rewrite Z.add_0_r. split; [apply keeps_wrote, keeps_refl|]. intros j. by rewrite decide_False by lia. }
  rewrite seqZ_cons by lia. cbn [shrink_pages]. unfold shrink_page.
  destruct (remove_page_spec rk st n o k Hwf Hl Hp) as (st1 & E1 & Hw1 & Hz1 & Hf1).
  pose proof (leaf_same _ _ n o (w_same _ _ _ _ _ _ Hz1) Hl) as Hl1. destruct (get_obj _ _ _ (proj1 Hl1)) as (o1 & Eo1 & _).
  rewrite (bind_ok _ _ st (if k <? pe then [k +u parent_offset o1 / PAGE_SIZE] else []) st1); [|rewrite (bind_ok _ _ _ _ _ E1), (bind_ok _ _ _ _ _ (get_ok _ _ _ Eo1)); done].
  replace (Z.pred (Z.of_nat (S count))) with (Z.of_nat count) by lia. destruct (IH (Z.succ k) st1 Hw1 Hl1 Hp) as (up & st2 & E2 & Hw2 & Hz2 & Hf2).
  rewrite (bind_ok _ _ _ _ _ E2). eexists _, st2. split; [done|]. split; [done|]. unfold Z.succ in *. split.
  - apply (wrote_trans st st1 st2 n _ ((k + 1) * PAGE_SIZE)); [unfold PAGE_SIZE; lia|done|]. by replace (k + Z.of_nat (S count)) with (k + 1 + Z.of_nat count) by lia.
  - intros j. rewrite Hf2, Hf1. destruct (decide (k + 1 ≤ j < _)), (decide (j = k)), (decide (k ≤ j < _)); (done || lia).
Qed.

Lemma upd_ok st n o F : objs st !! n = Some o → upd n F st = (Ok tt, set_objs (<[n := F o]> (objs st)) st).
Proof.
  intros E. unfold upd, modify. do 2 f_equal. apply map_eq. intros m.
  destruct (decide (m = n)) as [->|]; [by rewrite lookup_alter_eq, lookup_insert_eq, E|by rewrite lookup_alter_ne, lookup_insert_ne].
Qed.

(** A new size, for an object that has no page beyond it. *)
Lemma resize_spec rk st n o size' lim :
  wf rk st → objs st !! n = Some o → is_hidden (type_ o) = false → parent o = None → 0 ≤ size' < 2 ^ 64 ∧ size' mod PAGE_SIZE = 0 →
  (∀ i ps, frames o !! i = Some ps → i * PAGE_SIZE < size') →
  let o2 := set_size size' (set_parent None (parent_offset o) lim o) in
  wf rk (set_objs (<[n := o2]> (objs st)) st) ∧ replaced st (set_objs (<[n := o2]> (objs st)) st) n o2.
Proof.
  intros Hwf Eo Hh Hp Hsz Hfr o2. apply (replaced_spec rk st _ n o o2); try done; [intros i ps Hi; split; [done|by apply (Hfr i ps)]|].
  destruct Hwf as (_ & _ & [H1 H2 H3 H4]). assert (∀ m i, fr (objs (set_objs (<[n:=o2]> (objs st)) st)) m i = fr (objs st) m i) as E.
  { intros m i. simpl. rewrite fr_insert. destruct (decide (m = n)) as [->|]; [|done]. unfold fr. by rewrite Eo. }
  split; [setoid_rewrite E|setoid_rewrite E|..]; done.
Qed.

Lemma clear_all_spec rk st n o :
  wf rk st → objs st !! n = Some o → is_hidden (type_ o) = false → parent o = None →
  ∃ fs, for_each (sorted_pages (frames o)) (λ kv, drop_frame (frame kv.2)) st = (Ok tt, set_free fs st) ∧
    let o2 := set_size 0 (set_parent None 0 0 (set_frames ∅ o)) in
    wf rk (set_objs (<[n := o2]> (objs st)) (set_free fs st)) ∧ replaced st (set_objs (<[n := o2]> (objs st)) (set_free fs st)) n o2.
Proof.
  intros Hwf Eo Hh Hp. destruct (drop_all (sorted_pages (frames o)) st) as (fs & E & Hfs). exists fs. split; [done|]. intros o2.
  apply (replaced_spec rk st _ n o o2); try done. eapply memory_perm; [symmetry; exact Hfs|]. destruct Hwf as (_ & _ & Hm).
  apply (memory_release (objs st) _ _ _ _ n o); [done|done|]. intros m i ps. simpl. rewrite fr_insert. destruct (decide (m = n)); [unfold o2; simpl; by rewrite lookup_empty|done].
Qed.

(** What [set_len] does: bytes beyond the former size are zero. *)
Record resized (rk : nat → nat) (st st' : heap) n o (len : Z) : Prop := {
  z_wf : wf rk st';
  z_here : ∃ o2, leaf (objs st') n o2 ∧ size o2 = len ∧ parent o2 = None;
  z_next : next_obj st' = next_obj st;
  z_bytes a : 0 ≤ a < len → content st' n a = if decide (a < size o) then content st n a else 0;
  z_others m mo : m ≠ n → leaf (objs st) m mo → leaf (objs st') m mo ∧ ∀ a, 0 ≤ a < size mo → content st' m a = content st m a;
  z_old m mo : m ≠ n → leaf (objs st') m mo → leaf (objs st) m mo
}.

Lemma resize_cut rk st st1 n o (o1 : VMObjectPagedInner) len lim :
  leaf (objs st) n o → parent o = None → 0 ≤ len < 2 ^ 64 → len mod PAGE_SIZE = 0 →
  wf rk st1 → wrote st st1 n len (Z.max len (size o)) (λ _, 0) → objs st1 !! n = Some o1 → (∀ i ps, frames o1 !! i = Some ps → i * PAGE_SIZE < len) →
  resized rk st (set_objs (<[n := set_size len (set_parent None (parent_offset o1) lim o1)]> (objs st1)) st1) n o len.
Proof.
  intros Hl Hp Hlen Hmod Hw1 Hwr Eo1 Hfr. pose proof Hw1 as (Hs1 & Ht1 & _). pose proof (leaf_same _ _ n o (w_same _ _ _ _ _ _ Hwr) Hl) as [Hn1 Hh1].
  assert (o = hdr o1) as -> by (unfold hd in Hn1; rewrite Eo1 in Hn1; by injection Hn1 as <-).
  destruct (resize_spec rk st1 n o1 len lim Hw1 Eo1 Hh1 Hp (conj Hlen Hmod) Hfr) as [Hw2 R]. split.
  - done.
  - eexists. split; [apply R|done].
  - rewrite (r_next _ _ _ _ R). apply Hwr.
  - intros a Ha. rewrite (r_bytes _ _ _ _ R). simpl frames. transitivity (content st1 n a).
    { unfold content, pbyte, page. rewrite (page_root rk _ _ _ n (hdr o1) _ Hs1 Hn1 Hp). unfold fr. rewrite Eo1. simpl. by destruct (frames o1 !! (a / PAGE_SIZE)). }
    destruct (decide (a < size (hdr o1))) as [Hlt|Hge]; [by rewrite (w_bytes _ _ _ _ _ _ Hwr n _ a Hl), decide_False by lia|].
    unfold content, pbyte, page. rewrite (page_root rk _ _ _ n (hdr o1) _ Hs1 Hn1 Hp). destruct (fr (objs st1) n (a / PAGE_SIZE)) as [ps|] eqn:E; [|done].
    destruct (t_range _ Ht1 n (hdr o1) _ ps Hn1 E) as [_ Hr]. destruct (s_size _ _ _ _ Hs1 n _ Hn1) as [_ Hm]. exfalso. unfold PAGE_SIZE in *.
    pose proof (Z.div_mod a 4096). pose proof (Z.mod_pos_bound a 4096). pose proof (Z.div_mod (size (hdr o1)) 4096). lia.
  - intros m mo Hne Hml. destruct (r_others _ _ _ _ R m mo Hne) as [Hml' Hc]; [by apply (leaf_same st); [apply Hwr|]|]. split; [done|].
    intros a Ha. rewrite Hc, (w_bytes _ _ _ _ _ _ Hwr m mo a Hml Ha). by rewrite decide_False by naive_solver.
  - intros m mo Hne Hml. pose proof (r_old _ _ _ _ R m mo Hne Hml) as [Hmo Hmh]. split; [|done]. by rewrite <-(sm_hd _ _ (w_same _ _ _ _ _ _ Hwr)).
Qed.

Lemma set_parent_id o : parent o = None → set_parent None (parent_offset o) (parent_limit o) o = o.
Proof. destruct o. simpl. by intros ->. Qed.

Lemma resize_shrink rk st n o len :
  wf rk st → leaf (objs st) n o → parent o = None → 0 < len < size o → len mod PAGE_SIZE = 0 →
  ∃ st', resize n len st = (Ok tt, st') ∧ resized rk st st' n o len.
Proof.
  intros Hwf Hl Hp Hlen Hmod. pose proof Hwf as (Hs & Ht & _). pose proof Hl as [Hn Hh]. destruct (s_size _ _ _ _ Hs n _ Hn) as [Hsz Hsm].
  destruct (get_obj _ _ _ Hn) as (o0 & Eo & ->). change (size (hdr o0)) with (size o0) in *. unfold resize. rewrite (bind_ok _ _ _ _ _ (get_ok _ _ _ Eo)).
  destruct (len =? 0) eqn:E0; [lia|]. cbn [andb]. rewrite (proj2 (Z.ltb_lt len (size o0)) ltac:(lia)).
  set (k := len / PAGE_SIZE). set (count := Z.to_nat (size o0 / PAGE_SIZE - k)).
  assert (k * PAGE_SIZE = len ∧ (k + Z.of_nat count) * PAGE_SIZE = size o0 ∧ Z.of_nat count = size o0 / PAGE_SIZE - k) as (Ek & Ec & Ecount).
  { unfold count, k, PAGE_SIZE in *. pose proof (Z.div_mod len 4096). pose proof (Z.div_mod (size o0) 4096). lia. }
  rewrite <-Ecount. destruct (shrink_pages_spec rk n (hdr o0) ((parent_limit o0 -u parent_offset o0) / PAGE_SIZE) count k st Hwf Hl Hp) as (up & st1 & E1 & Hw1 & Hz1 & Hf1).
  rewrite Ek, Ec in Hz1. pose proof (leaf_same _ _ n _ (w_same _ _ _ _ _ _ Hz1) Hl) as [Hn1 _]. destruct (get_obj _ _ _ Hn1) as (o1 & Eo1 & Eh).
  assert (parent o1 = None) as Hp1 by exact (eq_trans (f_equal parent (eq_sym Eh)) Hp). assert (parent_offset o1 = parent_offset o0) as Hoff by exact (f_equal parent_offset (eq_sym Eh)).
  assert (∀ i ps, frames o1 !! i = Some ps → i * PAGE_SIZE < len) as Hbound.
  { intros i ps Hi. assert (fr (objs st1) n i = Some ps) as Hfi by (unfold fr; by rewrite Eo1). rewrite Hf1 in Hfi. destruct (decide _) as [|Hr]; [done|].
    destruct (t_range _ Ht n _ i ps Hn Hfi) as [Hi0 Hi1]. simpl in Hi1. unfold PAGE_SIZE in *. lia. }
  assert (wrote st st1 n len (Z.max len (size (hdr o0))) (λ _, 0)) as Hz1' by (simpl; by rewrite Z.max_r by lia).
  rewrite (bind_ok _ _ st tt (if len <? parent_limit o0 -u parent_offset o0 then set_objs (<[n := set_parent None (parent_offset o1) (parent_offset o1 +u len) o1]> (objs st1)) st1 else st1)).
  2:{ rewrite (bind_ok _ _ _ _ _ E1), (bind_ok _ _ _ _ _ (release_root st1 n o1 up Eo1 Hp1)). destruct (len <? _); [|done]. rewrite (upd_ok _ _ o1) by done. by rewrite Hp1. }
  pose proof (λ lim, resize_cut rk st st1 n (hdr o0) o1 len lim Hl Hp ltac:(lia) Hmod Hw1 Hz1' Eo1 Hbound) as Hres. destruct (len <? _).
  - rewrite (upd_ok _ n (set_parent None (parent_offset o1) (parent_offset o1 +u len) o1)) by (simpl; by rewrite lookup_insert_eq).
    simpl. rewrite insert_insert_eq. eexists. split; [done|]. apply Hres.
  - rewrite (upd_ok _ n o1) by done. eexists. split; [done|]. pose proof (Hres (parent_limit o1)) as R. by rewrite set_parent_id in R.
Qed.

Lemma set_len_spec rk st n o len :
  wf rk st → leaf (objs st) n o → parent o = None → 0 ≤ len < 2 ^ 64 → len mod PAGE_SIZE = 0 →
  ∃ st', set_len n len st = (Ok tt, st') ∧ resized rk st st' n o len.
Proof.
  intros Hwf Hl Hp Hlen Hmod. pose proof Hwf as (Hs & Ht & _). pose proof Hl as [Hn Hh]. destruct (get_obj _ _ _ Hn) as (o0 & Eo & ->).
  destruct (s_size _ _ _ _ Hs n _ Hn) as [Hsz Hsm]. destruct (s_plain _ _ _ _ Hs n _ Hn) as (_ & _ & Hpin). simpl in Hpin. change (size (hdr o0)) with (size o0) in *.
  unfold set_len, page_aligned. rewrite Hmod. change (0 =? 0) with true. rewrite (bind_ok (assert true) _ st tt st) by done.
  rewrite (bind_ok _ _ _ _ _ (get_ok _ _ _ Eo)), Hpin. change (0 <? 0) with false. cbv iota.
  destruct (decide (0 < len < size o0)) as [Hshrink|Hno]; [by apply resize_shrink|].
  unfold resize. rewrite (bind_ok _ _ _ _ _ (get_ok _ _ _ Eo)). simpl in Hp. destruct ((len =? 0) && (len <? size o0)) eqn:E0.
  - apply andb_true_iff in E0 as [->%Z.eqb_eq _]. destruct (clear_all_spec rk st n o0 Hwf Eo Hh Hp) as (fs & Ec & Hw & R).
    set (o2 := set_size 0 (set_parent None 0 0 (set_frames ∅ o0))) in *. exists (set_objs (<[n := o2]> (objs st)) (set_free fs st)). split.
    + rewrite (bind_ok _ _ st tt (set_objs (<[n := set_parent None 0 0 (set_frames ∅ o0)]> (objs st)) (set_free fs st))).
      * rewrite (upd_ok _ n (set_parent None 0 0 (set_frames ∅ o0))) by (simpl; by rewrite lookup_insert_eq). simpl. by rewrite insert_insert_eq.
      * rewrite (bind_ok _ _ _ _ _ Ec), (bind_ok _ _ _ _ _ (upd_ok (set_free fs st) n o0 _ Eo)), Hp, (bind_ok (ret tt) _ _ tt _) by done.
        rewrite (bind_ok _ _ _ _ _ (upd_ok (set_objs (<[n := set_frames ∅ o0]> (objs st)) (set_free fs st)) n (set_frames ∅ o0) (set_parent None 0 0) ltac:(simpl; by rewrite lookup_insert_eq))). simpl. by rewrite insert_insert_eq.
    + split; [done| |by rewrite (r_next _ _ _ _ R)|lia| |].
      * eexists. split; [apply R|done].
      * intros m mo Hne Hml. destruct (r_others _ _ _ _ R m mo Hne Hml) as [? Hc]. split; [done|]. auto.
      * apply R.
  - assert (len <? size o0 = false) as Hge. { destruct (len =? 0) eqn:E1; [done|]. simpl in E0. lia. }
    rewrite Hge, (bind_ok (ret tt) _ st tt st), (upd_ok _ n o0) by done. eexists. split; [done|].
    pose proof (resize_cut rk st st n (hdr o0) o0 len (parent_limit o0) Hl Hp Hlen Hmod Hwf) as R. rewrite set_parent_id in R by done. apply R; [|done|].
    + rewrite Z.max_l by (simpl; lia). apply keeps_wrote, keeps_refl.
    + intros i ps Hi. destruct (t_range _ Ht n (hdr o0) i ps Hn) as [_ ?]; [unfold fr; by rewrite Eo|]. simpl in *. lia.
Qed.
End root_ops.
