(* ===== verification/PagedSpec.v ===== *)
(** * Paged objects are independent byte arrays

    The specification of the paged objects of [Paged] as byte arrays, the theorem that the
    objects implement it over every history, a concrete history, and histories outside of its
    conditions that show where the code fails. *)

From stdpp Require Import gmap.
From S2P Require Import Prelude Errors PageTable Vmo Paged PagedProps PagedRoot.
From stdpp Require Import options.
#[local] Open Scope Z_scope.
Implicit Types (g : objects) (o : VMObjectPagedInner) (n m c d p : nat) (ps : PageState) (i j k x f : Z).

Section spec.
Context `{FrameAllocator}.
#[local] Set Default Proof Using "All".

(** ** The abstract specification: independent byte arrays *)
Record array := mkArray { asize : Z; abyte : Z → Z }.
Abbreviation arrays := (gmap nat array).
Implicit Types (A : arrays) (arr : array).

Inductive vmo_op :=
| New (count : Z)
| Clone n (offset len : Z)
| Read n (offset len : Z)
| Write n (offset : Z) (data : list Z)
| Commit n (page_idx flags : Z)
| Zero n (offset len : Z)
| Decommit n (offset len : Z)
| SetLen n (len : Z)
| Close n.
Inductive vmo_ret := RId n | RBytes (l : list Z) | RUnit.

Definition patch (lo hi : Z) (data : Z → Z) (arr : array) : array :=
  mkArray (asize arr) (λ a, if decide (lo ≤ a < hi) then data a else abyte arr a).
Definition resize_array (len : Z) (arr : array) : array := mkArray len (λ a, if decide (a < asize arr) then abyte arr a else 0).

Inductive spec_step : arrays → vmo_op → ZxResult vmo_ret → arrays → Prop :=
| spec_new A n count : A !! n = None → spec_step A (New count) (Ok (RId n)) (<[n := mkArray (count * PAGE_SIZE) (λ _, 0)]> A)
| spec_clone A m arr offset len n : A !! m = Some arr → A !! n = None →
    spec_step A (Clone m offset len) (Ok (RId n)) (<[n := mkArray len (λ a, abyte arr (a + offset))]> A)
| spec_read A n arr offset len : A !! n = Some arr → spec_step A (Read n offset len) (Ok (RBytes (abyte arr <$> seqZ offset len))) A
| spec_write A n arr offset data : A !! n = Some arr →
    spec_step A (Write n offset data) (Ok RUnit) (<[n := patch offset (offset + zlen data) (data_at offset data) arr]> A)
| spec_write_no_memory A n arr offset data mid : A !! n = Some arr → offset ≤ mid ≤ offset + zlen data →
    spec_step A (Write n offset data) (Err ZxError.NO_MEMORY) (<[n := patch offset mid (data_at offset data) arr]> A)
| spec_commit A n i flags : spec_step A (Commit n i flags) (Ok RUnit) A
| spec_commit_no_memory A n i flags : spec_step A (Commit n i flags) (Err ZxError.NO_MEMORY) A
| spec_zero A n arr offset len : A !! n = Some arr → spec_step A (Zero n offset len) (Ok RUnit) (<[n := patch offset (offset + len) (λ _, 0) arr]> A)
| spec_zero_no_memory A n arr offset len mid : A !! n = Some arr → offset ≤ mid ≤ offset + len →
    spec_step A (Zero n offset len) (Err ZxError.NO_MEMORY) (<[n := patch offset mid (λ _, 0) arr]> A)
| spec_decommit A n arr offset len : A !! n = Some arr →
    spec_step A (Decommit n offset len) (Ok RUnit)
      (<[n := patch (offset / PAGE_SIZE * PAGE_SIZE) ((offset / PAGE_SIZE + len / PAGE_SIZE) * PAGE_SIZE) (λ _, 0) arr]> A)
| spec_set_len A n arr len : A !! n = Some arr → spec_step A (SetLen n len) (Ok RUnit) (<[n := resize_array len arr]> A)
| spec_close A n : spec_step A (Close n) (Ok RUnit) (delete n A).

Inductive spec_steps : arrays → list (vmo_op * ZxResult vmo_ret) → arrays → Prop :=
| spec_nil A : spec_steps A [] A
| spec_cons A1 A2 A3 op r l : spec_step A1 op r A2 → spec_steps A2 l A3 → spec_steps A1 ((op, r) :: l) A3.

(** ** The operations of [Paged] *)
Definition vmo_exec (op : vmo_op) : M vmo_ret :=
  match op with
  | New count => let! n := new count in ret (RId n)
  | Clone n offset len => let! c := create_child n offset len in ret (RId c)
  | Read n offset len => let! l := read n offset len in ret (RBytes l)
  | Write n offset data => let! _ := write n offset data in ret RUnit
  | Commit n i flags => let! _ := commit_page n i flags in ret RUnit
  | Zero n offset len => let! _ := zero n offset len in ret RUnit
  | Decommit n offset len => let! _ := decommit n offset len in ret RUnit
  | SetLen n len => let! _ := set_len n len in ret RUnit
  | Close n => let! _ := close n in ret RUnit
  end.

(** What the callers of the operations see to: the object exists, the range is within it (and
    whole pages, for a clone), an object that is closed is at most one clone away from the
    root of its tree, and one that is zeroed, decommitted or resized has no clones and is
    none. *)
Definition room (st : heap) n (offset len : Z) : bool :=
  match objs st !! n with
  | Some o => negb (is_hidden (type_ o)) && (0 <=? offset) && (0 <=? len) && (offset + len <=? size o)
  | None => false
  end.
Definition alone (st : heap) n : bool := match objs st !! n with Some o => bool_decide (parent o = None) | None => false end.
Definition op_ok (st : heap) (op : vmo_op) : bool :=
  match op with
  | New count => (0 <=? count) && (count * PAGE_SIZE <? 2 ^ 64)
  | Clone n offset len => room st n offset len && (offset mod PAGE_SIZE =? 0) && (len mod PAGE_SIZE =? 0)
  | Read n offset len => room st n offset len
  | Write n offset data => room st n offset (zlen data)
  | Commit n i _ => room st n (i * PAGE_SIZE) 1
  | Zero n offset len | Decommit n offset len => room st n offset len && alone st n
  | SetLen n len => room st n 0 0 && alone st n && (0 <=? len) && (len <? 2 ^ 64) && (len mod PAGE_SIZE =? 0)
  | Close n =>
      room st n 0 0 &&
      match objs st !! n with
      | Some o => match parent o with None => true | Some p => match objs st !! p with Some po => bool_decide (parent po = None) | None => false end end
      | None => false
      end
  end.

Inductive vmo_steps : heap → list (vmo_op * ZxResult vmo_ret) → heap → Prop :=
| steps_nil st : vmo_steps st [] st
| steps_cons st op l st' : op_ok st op = true → vmo_steps (vmo_exec op st).2 l st' → vmo_steps st ((op, (vmo_exec op st).1) :: l) st'.

Definition related (st : heap) A : Prop :=
  ∀ n, match A !! n with
       | Some arr => ∃ o, leaf (objs st) n o ∧ size o = asize arr ∧ ∀ a, 0 ≤ a < asize arr → content st n a = abyte arr a
       | None => ∀ o, ¬ leaf (objs st) n o
       end.

Lemma room_leaf st n offset len : room st n offset len = true → ∃ o, leaf (objs st) n o ∧ 0 ≤ offset ∧ 0 ≤ len ∧ offset + len ≤ size o.
Proof.
  unfold room. destruct (objs st !! n) as [o|] eqn:E; [|done]. rewrite !andb_true_iff, negb_true_iff, !Z.leb_le. intros [[[H1 H2] H3] H4].
  exists (hdr o). split; [split; [unfold hd; by rewrite E|done]|done].
Qed.

Lemma related_leaf st A n o : related st A → leaf (objs st) n o → ∃ arr, A !! n = Some arr ∧ asize arr = size o ∧ ∀ a, 0 ≤ a < size o → content st n a = abyte arr a.
Proof.
  intros HR Hl. specialize (HR n). destruct (A !! n) as [arr|]; [|by destruct (HR o)]. destruct HR as (o' & [Hl' _] & E & Ha). destruct Hl as [Hl _].
  rewrite Hl in Hl'. injection Hl' as <-. exists arr. rewrite E. done.
Qed.

Lemma related_keeps st st' A : keeps st st' → related st A → related st' A.
Proof.
  intros Hk HR n. specialize (HR n). destruct (A !! n) as [arr|].
  - destruct HR as (o & Hl & E & Ha). exists o. split; [by apply (leaf_same st); [apply Hk|]|]. split; [done|]. intros a Hb.
    rewrite (content_keeps st st' n o) by (done || lia). by apply Ha.
  - intros o Hl. apply (HR o). unfold leaf in *. by rewrite <-(sm_hd _ _ (proj1 Hk)).
Qed.

Lemma related_wrote st st' A n o lo hi data arr :
  wrote st st' n lo hi data → related st A → leaf (objs st) n o → A !! n = Some arr → related st' (<[n := patch lo hi data arr]> A).
Proof.
  intros [Hsame Hw] HR Hl Harr m. destruct (decide (m = n)) as [->|Hne].
  - rewrite lookup_insert_eq. exists o. split; [by apply (leaf_same st)|]. destruct (related_leaf st A n o HR Hl) as (arr' & E & Esz & Ha).
    rewrite Harr in E. injection E as <-. split; [done|]. simpl. intros a Hb. rewrite (Hw n o a Hl) by lia. destruct (decide (lo ≤ a < hi)) as [Hr|Hr].
    + by rewrite decide_True by done.
    + rewrite decide_False by naive_solver. apply Ha. lia.
  - rewrite lookup_insert_ne by done. specialize (HR m). destruct (A !! m) as [arr'|].
    + destruct HR as (mo & Hml & E & Ha). exists mo. split; [by apply (leaf_same st)|]. split; [done|]. intros a Hb. rewrite (Hw m mo a Hml), decide_False by (lia || by intros [? _]). by apply Ha.
    + intros mo Hml. apply (HR mo). unfold leaf in *. by rewrite <-(sm_hd _ _ Hsame).
Qed.

(** An object is added. *)
Lemma related_add st st' A c co arr :
  related st A → (∀ m mo, leaf (objs st) m mo → ∃ mo', leaf (objs st') m mo' ∧ size mo' = size mo ∧ ∀ a, 0 ≤ a < size mo → content st' m a = content st m a) →
  (∀ m mo', leaf (objs st') m mo' → m = c ∨ ∃ mo, leaf (objs st) m mo) →
  leaf (objs st') c co → size co = asize arr → (∀ a, 0 ≤ a < asize arr → content st' c a = abyte arr a) → related st' (<[c := arr]> A).
Proof.
  intros HR Hold Hnew Hc Esz Ha m. destruct (decide (m = c)) as [->|Hne]; [rewrite lookup_insert_eq; eauto|]. rewrite lookup_insert_ne by done.
  specialize (HR m). destruct (A !! m) as [arr'|].
  - destruct HR as (mo & Hml & E & Hb). destruct (Hold m mo Hml) as (mo' & Hml' & E' & Hc'). exists mo'. split; [done|]. split; [lia|]. intros a Hr. rewrite Hc' by lia. by apply Hb.
  - intros mo' Hml'. destruct (Hnew m mo' Hml') as [|[mo Hml]]; [done|]. by apply (HR mo).
Qed.

Lemma absent_array st A n : related st A → objs st !! n = None → A !! n = None.
Proof.
  intros HR E. specialize (HR n). destruct (A !! n); [|done]. destruct HR as (o & [Ho _] & _). unfold hd in Ho. by rewrite E in Ho.
Qed.

Lemma closable_ok st n : op_ok st (Close n) = true → ∃ o, leaf (objs st) n o ∧ closable (objs st) o.
Proof.
  simpl. rewrite andb_true_iff. intros [(o & Hl & _)%room_leaf Hcl]. exists o. split; [done|]. destruct Hl as [Hn _]. destruct (get_obj _ _ _ Hn) as (o' & Eo & ->).
  rewrite Eo in Hcl. unfold closable. simpl. destruct (parent o') as [p|]; [|done]. destruct (objs st !! p) as [po|] eqn:Ep; [|done].
  apply bool_decide_eq_true in Hcl. exists (hdr po). split; [unfold hd; by rewrite Ep|done].
Qed.

(** One operation: the objects stay related to the arrays of the specification. *)
Definition step_ok (op : vmo_op) : Prop := ∀ rk st A,
  wf rk st → related st A → op_ok st op = true →
  ∃ rk' A', wf rk' (vmo_exec op st).2 ∧ related (vmo_exec op st).2 A' ∧ spec_step A op (vmo_exec op st).1 A'.

Lemma step_new (w : Z) : step_ok (New w).
Proof.
  intros rk st A Hwf HR Hok. simpl vmo_exec.
  simpl in Hok. apply andb_true_iff in Hok as [H1%Z.leb_le H2%Z.ltb_lt].
  destruct (new_spec rk st w Hwf H1 H2) as (st' & rk' & co & E & Hw' & Hc & Esz & _ & Hz & Hold & Hnew & Habs & _). rewrite (bind_ok _ _ _ _ _ E).
  exists rk', (<[next_obj st := mkArray (w * PAGE_SIZE) (λ _, 0)]> A). split; [done|]. split; [|apply spec_new; by apply (absent_array st)].
  apply (related_add st st' A _ co); [done| | |done|done|done].
  + intros m mo Hml. destruct (Hold m mo Hml). eauto.
  + intros m mo' Hml'. destruct (Hnew m mo' Hml'); eauto.
Qed.

Lemma step_clone (s : nat) (offset len : Z) : step_ok (Clone s offset len).
Proof.
  intros rk st A Hwf HR Hok. simpl vmo_exec.
  simpl in Hok. rewrite !andb_true_iff, !Z.eqb_eq in Hok. destruct Hok as [[(o & Hl & H1 & H2 & H3)%room_leaf H4] H5].
  destruct (create_child_spec rk st s o offset len Hwf Hl) as (st' & rk' & co & E & Hw' & Hc & Esz & Hct & Hold & Hnew & Habs & _); [done..|]. rewrite (bind_ok _ _ _ _ _ E).
  destruct (related_leaf st A s o HR Hl) as (arr & Harr & Easz & Ha). exists rk', (<[next_obj st := mkArray len (λ a, abyte arr (a + offset))]> A).
  split; [done|]. split; [|apply spec_clone; [done|by apply (absent_array st)]]. apply (related_add st st' A _ co); [done| |done|done|done|].
  + intros m mo Hml. destruct (Hold m mo Hml) as (mo' & ? & ? & ?). eauto.
  + simpl. intros a Hb. rewrite Hct by lia. apply Ha. lia.
Qed.

Lemma step_read n (offset len : Z) : step_ok (Read n offset len).
Proof.
  intros rk st A Hwf HR Hok. simpl vmo_exec.
  destruct (room_leaf st n offset len Hok) as (o & Hl & H1 & H2 & H3). destruct (read_spec rk st n o offset len Hwf Hl H1 H2 H3) as (st' & E & Hw' & Hk).
  rewrite (bind_ok _ _ _ _ _ E). destruct (related_leaf st A n o HR Hl) as (arr & Harr & Easz & Ha). exists rk, A. split; [done|]. split; [by apply (related_keeps st)|].
  assert (bytes st n offset len = abyte arr <$> seqZ offset len) as ->; [|by apply spec_read].
  unfold bytes. apply list_fmap_ext. intros j a Hj%list_elem_of_lookup_2%elem_of_seqZ. apply Ha. lia.
Qed.

Lemma step_write n (offset : Z) (data : list Z) : step_ok (Write n offset data).
Proof.
  intros rk st A Hwf HR Hok. simpl vmo_exec.
  destruct (room_leaf st n offset (zlen data) Hok) as (o & Hl & H1 & H2 & H3). destruct (related_leaf st A n o HR Hl) as (arr & Harr & Easz & Ha).
  pose proof (write_spec rk st n o offset data Hwf Hl H1 H3) as (Hw' & mid & Hmid & Hwr & Hres).
  destruct (write n offset data st) as [[[]|e|] st'] eqn:E; [| |done]; unfold bind; rewrite E; exists rk, (<[n := patch offset mid (data_at offset data) arr]> A);
    (split; [done|]; split; [by apply (related_wrote st st' A n o)|]); simpl in *.
  + subst mid. by apply spec_write.
  + destruct Hres as [-> _]. by apply spec_write_no_memory.
Qed.

Lemma step_commit n i (flags : Z) : step_ok (Commit n i flags).
Proof.
  intros rk st A Hwf HR Hok. simpl vmo_exec.
  destruct (room_leaf st n (i * PAGE_SIZE) 1 Hok) as (o & Hl & H1 & _ & H3). pose proof (commit_page_spec rk st n o i flags Hwf Hl) as Hc.
  destruct (commit_page n i flags st) as [r st'] eqn:E. destruct Hc as (Hw' & Hk & Hres); [unfold PAGE_SIZE in *; lia|lia|]. exists rk, A. unfold bind. rewrite E.
  pose proof (related_keeps _ _ _ Hk HR) as HR'. destruct r as [a|e|]; [| |done]; (split; [done|]; split; [done|]); [apply spec_commit|].
  destruct Hres as ((-> & _) & _). apply spec_commit_no_memory.
Qed.

Lemma step_close n : step_ok (Close n).
Proof.
  intros rk st A Hwf HR Hok. simpl vmo_exec.
  destruct (closable_ok st n Hok) as (o & Hl & Hcl). destruct (close_spec rk st n o Hwf Hl Hcl) as (st' & E & Hw' & _ & Hold & Hnew). rewrite (bind_ok _ _ _ _ _ E).
  exists rk, (delete n A). split; [done|]. split; [|apply spec_close]. intros m. destruct (decide (m = n)) as [->|Hne].
  + rewrite lookup_delete_eq. intros mo' Hml'. by destruct (Hnew n mo' Hml').
  + rewrite lookup_delete_ne by done. specialize (HR m). destruct (A !! m) as [arr|].
    * destruct HR as (mo & Hml & Esz & Ha). destruct (Hold m mo Hne Hml) as (mo' & Hml' & Esz' & Hc). exists mo'. split; [done|]. split; [lia|].
      intros a Hb. rewrite Hc by lia. by apply Ha.
    * intros mo' Hml'. destruct (Hnew m mo' Hml') as (_ & mo & Hml). by apply (HR mo).
Qed.

Lemma alone_ok st n o : leaf (objs st) n o → alone st n = true → parent o = None.
Proof.
  intros [Hn _]. unfold alone. destruct (get_obj _ _ _ Hn) as (o' & -> & ->). intros Hp%bool_decide_eq_true. done.
Qed.

Lemma step_zero n (offset len : Z) : step_ok (Zero n offset len).
Proof.
  intros rk st A Hwf HR Hok. simpl vmo_exec. simpl in Hok. apply andb_true_iff in Hok as [(o & Hl & H1 & H2 & H3)%room_leaf Hal].
  destruct (related_leaf st A n o HR Hl) as (arr & Harr & _). pose proof (zero_spec rk st n o offset len Hwf Hl (alone_ok _ _ _ Hl Hal) H1 H2 H3) as (Hw' & mid & Hmid & Hz & Hres).
  destruct (zero n offset len st) as [[[]|e|] st'] eqn:E; [| |done]; unfold bind; rewrite E; exists rk, (<[n := patch offset mid (λ _, 0) arr]> A);
    (split; [done|]; split; [by apply (related_wrote st st' A n o)|]); simpl in *.
  - subst mid. by apply spec_zero.
  - destruct Hres as [-> _]. by apply spec_zero_no_memory.
Qed.

Lemma step_decommit n (offset len : Z) : step_ok (Decommit n offset len).
Proof.
  intros rk st A Hwf HR Hok. simpl vmo_exec. simpl in Hok. apply andb_true_iff in Hok as [(o & Hl & H1 & H2 & H3)%room_leaf Hal]. pose proof Hwf as (Hs & _).
  destruct (related_leaf st A n o HR Hl) as (arr & Harr & _). destruct (s_size _ _ _ _ Hs n o (proj1 Hl)) as [? _].
  destruct (decommit_spec rk st n o offset len Hwf Hl (alone_ok _ _ _ Hl Hal) H1 H2 ltac:(lia)) as (st' & E & Hw' & Hz). rewrite (bind_ok _ _ _ _ _ E).
  eexists rk, _. split; [done|]. split; [by apply (related_wrote st st' A n o _ _ _ arr Hz)|by apply spec_decommit].
Qed.

Lemma step_set_len n (len : Z) : step_ok (SetLen n len).
Proof.
  intros rk st A Hwf HR Hok. simpl vmo_exec. simpl in Hok. rewrite !andb_true_iff in Hok.
  destruct Hok as [[[[(o & Hl & _)%room_leaf Hal] H1%Z.leb_le] H2%Z.ltb_lt] H3%Z.eqb_eq]. destruct (related_leaf st A n o HR Hl) as (arr & Harr & Easz & Ha).
  destruct (set_len_spec rk st n o len Hwf Hl (alone_ok _ _ _ Hl Hal) (conj H1 H2) H3) as (st' & E & R). rewrite (bind_ok _ _ _ _ _ E).
  exists rk, (<[n := resize_array len arr]> A). split; [apply R|]. split; [|by apply spec_set_len]. intros m. destruct (decide (m = n)) as [->|Hne].
  - rewrite lookup_insert_eq. destruct (z_here _ _ _ _ _ _ R) as (o2 & Hl2 & Esz & _). exists o2. split; [done|]. split; [done|]. simpl. intros a Hb.
    rewrite (z_bytes _ _ _ _ _ _ R a Hb), Easz. destruct (decide (a < size o)); [apply Ha; lia|done].
  - rewrite lookup_insert_ne by done. specialize (HR m). destruct (A !! m) as [arr'|].
    + destruct HR as (mo & Hml & Esz & Hc). destruct (z_others _ _ _ _ _ _ R m mo Hne Hml) as [Hml' Hc']. exists mo. split; [done|]. split; [done|].
      intros a Hb. rewrite Hc' by lia. by apply Hc.
    + intros mo Hml. apply (HR mo). by apply (z_old _ _ _ _ _ _ R).
Qed.

Lemma vmo_step op : step_ok op.
Proof.
  destruct op; [apply step_new|apply step_clone|apply step_read|apply step_write|apply step_commit|apply step_zero|apply step_decommit|apply step_set_len|apply step_close].
Qed.

(** No objects, and the frames of the machine. *)
Definition heap_init (fs : list Z) (z : Z) (mm : ram) : heap := mkHeap ∅ ∅ 0 1 fs z mm ∅ [].
Definition machine_ok (fs : list Z) (z : Z) (mm : ram) : Prop :=
  NoDup fs ∧ Forall (λ f, page_ok f ∧ f ≠ z) fs ∧ page_ok z ∧ ∀ k, 0 ≤ k < PAGE_SIZE → byte mm (z + k) = 0.

Lemma init_wf fs z mm : machine_ok fs z mm → wf (λ _, 0%nat) (heap_init fs z mm).
Proof.
  intros (H1 & H2 & H3). rewrite Forall_forall in H2. split_and!; [split; (done || intros; unfold hd in *; simpl in *; by rewrite lookup_empty in *)|split|split]; try done.
Qed.

Lemma vmo_steps_refine rk st A l st' :
  wf rk st → related st A → vmo_steps st l st' → ∃ rk' A', wf rk' st' ∧ related st' A' ∧ spec_steps A l A'.
Proof.
  intros Hwf HR Hsteps. revert rk A Hwf HR. induction Hsteps as [st|st op l st' Hok _ IH]; intros rk A Hwf HR.
  - exists rk, A. split; [done|]. split; [done|constructor].
  - destruct (vmo_step op rk st A Hwf HR Hok) as (rk1 & A1 & Hw1 & HR1 & Hsp). destruct (IH rk1 A1 Hw1 HR1) as (rk2 & A2 & Hw2 & HR2 & Hsp2).
    exists rk2, A2. split; [done|]. split; [done|]. by econstructor.
Qed.

(** C4. Copy-on-write objects are independent byte arrays, as long as the operations are those of [op_ok]: any object
    can be read, written, committed and cloned (whole pages) within its size, but only an object that is no clone and has none is zeroed,
    decommitted or resized, and only one at most one clone away from the root of its tree is closed.  Beyond that the code does not keep them
    apart: [close_loses_page], [zero_reveals_old_page], [zero_part_of_clone] and [grown_clone_sees_parent] below.
    Over every history of such operations, the results are those of the specification in which a clone is a copy of a range of its
    parent, a write changes the object that is written, decommitted bytes and those behind the
    former end are zero: no operation panics, the only error is a lack of memory (in which
    case a prefix of the range is changed), and what is read is what the object holds, however
    its frames are shared with its clones. *)
Theorem cow_refines fs z mm l st :
  machine_ok fs z mm → vmo_steps (heap_init fs z mm) l st → ∃ A, spec_steps ∅ l A ∧ related st A.
Proof.
  intros Hmach Hsteps. destruct (vmo_steps_refine (λ _, 0%nat) (heap_init fs z mm) ∅ l st) as (rk & A & _ & HR & Hsp); [by apply init_wf| |done|eauto].
  intros n. rewrite lookup_empty. intros o [Ho _]. unfold hd in Ho. simpl in Ho. by rewrite lookup_empty in Ho.
Qed.
End spec.

(** ** A machine with twenty frames *)
Module PagedDemo.
Definition contiguous_from (l : list Z) (count : Z) : option (Z * list Z) :=
  match l with
  | [] => None
  | base :: _ =>
      if decide (take (Z.to_nat count) l = (λ i, base + i * PAGE_SIZE) <$> seqZ 0 count) then Some (base, drop (Z.to_nat count) l) else None
  end.

Lemma contiguous_from_some l count base l' :
  contiguous_from l count = Some (base, l') → l ≡ₚ ((λ i, base + i * PAGE_SIZE) <$> seqZ 0 count) ++ l'.
Proof.
  unfold contiguous_from. destruct l as [|b l0] eqn:E; [done|]. rewrite <-E. destruct (decide _) as [D|]; [|done].
  intros [= <- <-]. rewrite <-D. by rewrite take_drop.
Qed.

(** Frames are handed out in order, and given back at the end. *)
#[global, refine] Instance fifo_frames : FrameAllocator := {
  frame_alloc l := match l with f :: l => Some (f, l) | [] => None end;
  frame_alloc_contiguous l count _ := contiguous_from l count;
  frame_dealloc f l := l ++ [f]
}.
Proof.
  - intros [|f' l] f l'; [done|]. by intros [= -> ->].
  - by intros [].
  - intros l count _. apply contiguous_from_some.
  - intros f l. by rewrite Permutation_app_comm.
Defined.

Definition frames0 : list Z := Eval vm_compute in (λ i, 0x100000 + i * 0x1000) <$> seqZ 0 20.
Definition boot : heap := heap_init frames0 0x1000 ∅.
Definition result {A} (c : M A) : ZxResult A := (c boot).1.

Lemma frames0_ok : machine_ok frames0 0x1000 ∅.
Proof.
  split_and!; [by apply (bool_decide_unpack _); vm_compute| |split_and!; [done|done|by vm_compute]|].
  - apply (bool_decide_unpack (Forall (λ f, (0 ≤ f ∧ f mod PAGE_SIZE = 0 ∧ f + PAGE_SIZE ≤ 2 ^ 64) ∧ f ≠ 0x1000) frames0)). by vm_compute.
  - intros k _. unfold byte. by rewrite lookup_empty.
Qed.

(** An object of two pages, and a clone of its second page. *)
Definition ops : list vmo_op := [New 2; Write 0 0x1ffe [1; 2]; Clone 0 0x1000 0x1000; Write 0 0x1ffe [3]; Read 1 0xffe 2; Close 0; Read 1 0xffe 2;
  New 1; Write 3 0 [5; 6]; Zero 3 1 1; Read 3 0 2; SetLen 3 0x2000; Write 3 0x1000 [7]; Decommit 3 0 0x1000; Read 3 0 1; Read 3 0x1000 1; SetLen 3 0x1000; SetLen 3 0x2000; Read 3 0x1000 1].

Fixpoint history (st : heap) (l : list vmo_op) : list (vmo_op * ZxResult vmo_ret) * heap :=
  match l with [] => ([], st) | op :: l => let '(r, st') := history (vmo_exec op st).2 l in ((op, (vmo_exec op st).1) :: r, st') end.
Fixpoint all_ok (st : heap) (l : list vmo_op) : bool :=
  match l with [] => true | op :: l => op_ok st op && all_ok (vmo_exec op st).2 l end.

Lemma history_steps st l : all_ok st l = true → vmo_steps st (history st l).1 (history st l).2.
Proof.
  revert st. induction l as [|op l IH]; intros st; simpl; [constructor|]. rewrite andb_true_iff. intros [H1 H2%IH].
  destruct (history (vmo_exec op st).2 l) as [r st']. by constructor.
Qed.

Lemma cow_refines_witness :
  ∃ A, spec_steps ∅ (history boot ops).1 A ∧ related (history boot ops).2 A.
Proof. apply (cow_refines frames0 0x1000 ∅); [exact frames0_ok|]. apply history_steps. vm_compute. reflexivity. Defined.

(** What the reads of that history return: the clone keeps the bytes from before the second
    write, also when the object it was cloned from is gone. *)
Lemma ops_results : (history boot ops).1.*2 =
  [Ok (RId 0); Ok RUnit; Ok (RId 1); Ok RUnit; Ok (RBytes [1; 2]); Ok RUnit; Ok (RBytes [1; 2]);
   Ok (RId 3); Ok RUnit; Ok RUnit; Ok (RBytes [5; 0]); Ok RUnit; Ok RUnit; Ok RUnit; Ok (RBytes [0]); Ok (RBytes [7]); Ok RUnit; Ok RUnit; Ok (RBytes [0])].
Proof. vm_compute. reflexivity. Qed.
End PagedDemo.

(** ** Where the snapshots break *)
Module PagedFlaws.
Import PagedDemo.

(** An object with two clones, the second of which is a child of a deeper hidden node. *)
Definition two_clones : M (nat * nat * nat) :=
  let! a := new 1 in
  let! _ := write a 0 [7] in
  let! b := create_child a 0 0x1000 in
  let! c := create_child a 0 0x1000 in
  ret (a, b, c).

(** Closing a clone can erase the memory of the object it was cloned from: [replace_child]
    drops the pages that are split to the other child of the grandparent instead of keeping
    them for the object that remains. *)
Theorem close_loses_page :
  let run (closing : bool) :=
    let! abc := two_clones in
    let '(a, b, c) := abc in
    let! _ := write b 0 [8] in
    let! _ := (if closing then close c else ret tt) in
    read a 0 1 in
  result (run false) = Ok [7] ∧ result (run true) = Ok [0].
Proof. split; vm_compute; reflexivity. Qed.

(** Zeroing a page of an object can bring back an older content of the page, and at the
    same time erase the page of a clone: [release_unwanted_pages_in_parent] does not go on to
    the grandparent when the parent does not hold the page. *)
Theorem zero_reveals_old_page :
  result (let! abc := two_clones in
          let '(a, b, c) := abc in
          let! _ := write a 0 [8] in
          let! _ := write c 0 [9] in
          let! _ := zero a 0 0x1000 in
          let! xa := read a 0 1 in
          let! xb := read b 0 1 in
          ret (xa, xb)) = Ok ([7], [0]).
Proof. vm_compute. reflexivity. Qed.

(** Zeroing a part of a page that a clone has not written has no effect. *)
Lemma zero_part_of_clone :
  result (let! a := new 1 in
          let! _ := write a 0 [7; 8] in
          let! b := create_child a 0 0x1000 in
          let! _ := zero b 0 1 in
          read b 0 2) = Ok [7; 8].
Proof. vm_compute. reflexivity. Qed.

(** A clone that is larger than its parent can itself be cloned; a write beyond the parent then
    reaches an assertion. *)
Lemma oversized_clone_panics :
  result (let! a := new 2 in
          let! b := create_child a 0 0x3000 in
          let! c := create_child b 0 0x3000 in
          write c 0x2000 [1]) = Panic.
Proof. vm_compute. reflexivity. Qed.

(** A clone that has grown sees, after it is cloned itself, pages of its parent that are not
    part of it. *)
Lemma grown_clone_sees_parent :
  result (let! a := new 4 in
          let! _ := write a 0x3000 [7] in
          let! b := create_child a 0 0x2000 in
          let! _ := set_len b 0x4000 in
          let! before := read b 0x3000 1 in
          let! c := create_child b 0 0x4000 in
          let! after := read b 0x3000 1 in
          let! xc := read c 0x3000 1 in
          ret (before, after, xc)) = Ok ([0], [7], [7]).
Proof. vm_compute. reflexivity. Qed.

(** Two clones whose last references go away at the same time: the first [Drop] cannot upgrade
    its sibling. *)
Lemma drop_race_panics :
  result (let! a := new 1 in
          let! b := create_child a 0 0x1000 in
          let! _ := release a in
          let! _ := release b in
          drop_object a) = Panic.
Proof. vm_compute. reflexivity. Qed.

(** Decommitting a page frees its frame without telling the mappings of the object. *)
Lemma decommit_keeps_mapping :
  result (let! a := new 1 in
          let! _ := append_mapping a 0 in
          let! paddr := commit_page a 0 MMUFlags.WRITE in
          let! _ := decommit a 0 0x1000 in
          reads (λ st, (bool_decide (paddr ∈ free st), notes st))) = Ok (true, []).
Proof. vm_compute. reflexivity. Qed.
End PagedFlaws.
