(* ===== verification/VmObject.v ===== *)
(** * Memory objects and their contents

    [zircon-object/src/vm/vmo/mod.rs]: [VmObject], the kernel object around the implementations
    of [VMObjectTrait] ([Vmo], [Paged]), as far as it deals with the bytes of an object, its
    size and the size of its content.  The implementation is used through the interface
    [Backing], whose laws are [BackingLaws]: an array of bytes that can be read, written,
    cleared and, for some implementations, resized. *)

From S2P Require Import Prelude Errors PageTable Vmo.
From stdpp Require Import options.
#[local] Open Scope Z_scope.

(** ** Computations on a state that can fail *)
Definition SM (S A : Type) : Type := S → ZxResult A * S.
Section monad.
Context {S : Type}.
Definition sret {A} (x : A) : SM S A := λ s, (Ok x, s).
Definition sthrow {A} (e : ZxError.t) : SM S A := λ s, (Err e, s).
Definition spanic {A} : SM S A := λ s, (Panic, s).
Definition sbind {A C} (c : SM S A) (k : A → SM S C) : SM S C := λ s,
  match c s with (Ok x, s) => k x s | (Err e, s) => (Err e, s) | (Panic, s) => (Panic, s) end.
Definition sget : SM S S := λ s, (Ok s, s).
Definition smodify (f : S → S) : SM S unit := λ s, (Ok tt, f s).

Lemma sbind_ok {A C} (c : SM S A) (k : A → SM S C) s x s' : c s = (Ok x, s') → sbind c k s = k x s'.
Proof. unfold sbind. by intros ->. Qed.
Lemma sbind_err {A C} (c : SM S A) (k : A → SM S C) s e s' : c s = (Err e, s') → sbind c k s = (Err e, s').
Proof. unfold sbind. by intros ->. Qed.
End monad.
Notation "'let*' x ':=' c 'in' k" := (sbind c (λ x, k))
  (at level 10, x pattern, c at level 200, k at level 200).

(** ** Lists of bytes, indexed by [Z] *)
Definition znth (l : list Z) (i : Z) : Z := if i <? 0 then 0 else nth (Z.to_nat i) l 0.
Definition zeros (n : Z) : list Z := replicate (Z.to_nat n) 0.
(** [d] is written over [f] from [off] on; a gap is filled with zeros. *)
Definition splice (off : Z) (d f : list Z) : list Z := ztake off (f ++ zeros (off - zlen f)) ++ d ++ zdrop (off + zlen d) f.
Definition resize_list (n : Z) (l : list Z) : list Z := ztake n l ++ zeros (n - zlen l).

Lemma znth_eq l k : zlen l = zlen k → (∀ i, 0 ≤ i < zlen l → znth l i = znth k i) → l = k.
Proof.
  unfold zlen, znth. intros Hlen Hi. apply (nth_ext l k 0 0); [lia|]. intros i Hlt. specialize (Hi (Z.of_nat i) ltac:(lia)).
  rewrite Nat2Z.id in Hi. by destruct (Z.ltb_spec (Z.of_nat i) 0); [lia|].
Qed.

Lemma znth_out l i : ¬ 0 ≤ i < zlen l → znth l i = 0.
Proof. unfold znth, zlen. intros Hi. destruct (Z.ltb_spec i 0); [done|]. apply nth_overflow. lia. Qed.

Lemma znth_app l k i : 0 ≤ i → znth (l ++ k) i = if decide (i < zlen l) then znth l i else znth k (i - zlen l).
Proof.
  unfold znth, zlen. intros Hi. destruct (Z.ltb_spec i 0); [lia|]. destruct (decide (i < Z.of_nat (length l))) as [Hlt|Hge].
  - by rewrite app_nth1 by lia.
  - destruct (Z.ltb_spec (i - Z.of_nat (length l)) 0); [lia|]. rewrite app_nth2 by lia. f_equal. lia.
Qed.

Lemma znth_ztake n l i : znth (ztake n l) i = if decide (i < n) then znth l i else 0.
Proof.
  unfold znth, ztake. destruct (Z.ltb_spec i 0); [by destruct (decide _)|]. destruct (decide (i < n)) as [Hlt|Hge].
  - rewrite nth_firstn. by rewrite (proj2 (Nat.ltb_lt _ _)) by lia.
  - apply nth_overflow. rewrite length_take. lia.
Qed.

Lemma znth_zdrop n l i : 0 ≤ n → 0 ≤ i → znth (zdrop n l) i = znth l (i + n).
Proof.
  unfold znth, zdrop. intros. destruct (Z.ltb_spec i 0); [lia|]. destruct (Z.ltb_spec (i + n) 0); [lia|]. rewrite nth_skipn. f_equal. lia.
Qed.

Lemma znth_zeros n i : znth (zeros n) i = 0.
Proof. unfold znth, zeros. destruct (i <? 0); [done|]. rewrite nth_lookup. destruct (replicate _ _ !! _) as [x|] eqn:E; [by apply lookup_replicate in E as [-> _]|done]. Qed.

Lemma zlen_zeros n : zlen (zeros n) = Z.max 0 n.
Proof. unfold zlen, zeros. rewrite length_replicate. lia. Qed.

Lemma zlen_splice off d f : 0 ≤ off → zlen (splice off d f) = Z.max (zlen f) (off + zlen d).
Proof.
  intros Ho. pose proof (zlen_nonneg f). pose proof (zlen_nonneg d). unfold splice.
  rewrite !zlen_app, zlen_ztake, zlen_zdrop, zlen_app, zlen_zeros by lia. lia.
Qed.

Lemma znth_splice off d f i : 0 ≤ off → 0 ≤ i → znth (splice off d f) i = if decide (off ≤ i < off + zlen d) then znth d (i - off) else znth f i.
Proof.
  intros Ho Hi. pose proof (zlen_nonneg f). pose proof (zlen_nonneg d). unfold splice. rewrite !znth_app, zlen_ztake, zlen_app, zlen_zeros, znth_ztake by lia.
  destruct (decide (i < Z.min off _)) as [H1|H1].
  - rewrite (decide_True (P := i < off)), (decide_False (P := off ≤ i < _)) by lia. rewrite znth_app, znth_zeros by done. destruct (decide (i < zlen f)); [done|].
    symmetry. apply znth_out. lia.
  - replace (i - Z.min off (zlen f + Z.max 0 (off - zlen f))) with (i - off) by lia. rewrite znth_app by lia.
    destruct (decide (i - off < zlen d)), (decide (off ≤ i < off + zlen d)); try lia. rewrite znth_zdrop by lia. f_equal. lia.
Qed.

Lemma zlen_resize n l : 0 ≤ n → zlen (resize_list n l) = n.
Proof. intros. pose proof (zlen_nonneg l). unfold resize_list. rewrite zlen_app, zlen_ztake, zlen_zeros by lia. lia. Qed.

Lemma znth_resize n l i : 0 ≤ n → 0 ≤ i → znth (resize_list n l) i = if decide (i < n) then znth l i else 0.
Proof.
  intros Hn Hi. pose proof (zlen_nonneg l). unfold resize_list. rewrite znth_app, znth_zeros, zlen_ztake, znth_ztake by lia.
  destruct (decide (i < Z.min n (zlen l))), (decide (i < n)); try lia. by rewrite znth_out by lia.
Qed.

(** ** The interface of the implementations *)
Class Backing (B : Type) := {
  bk_len : B → Z;
  bk_read : Z → Z → SM B (list Z);
  bk_write : Z → list Z → SM B unit;
  bk_zero : Z → Z → SM B unit;
  bk_set_len : Z → SM B unit
}.

(** The laws hold for physical memory and for paged objects that are no clones and have none; an
    object that is uncached, pinned or shares frames with clones has further ways to fail. *)
Class BackingLaws (B : Type) `{Backing B} := {
  bk_ok : B → Prop;
  bk_byte : B → Z → Z;
  (** whether [set_len] is implemented *)
  bk_sizable : Prop;
  bk_len_range b : bk_ok b → 0 ≤ bk_len b < 2 ^ 64;
  bk_read_law b off n : bk_ok b → 0 ≤ off → 0 ≤ n → off + n ≤ bk_len b →
    ∃ b', bk_read off n b = (Ok (bk_byte b <$> seqZ off n), b') ∧ bk_ok b' ∧ bk_len b' = bk_len b ∧
      ∀ a, 0 ≤ a < bk_len b → bk_byte b' a = bk_byte b a;
  bk_write_law b off d : bk_ok b → 0 ≤ off → off + zlen d ≤ bk_len b →
    ∃ r b' mid, bk_write off d b = (r, b') ∧ bk_ok b' ∧ bk_len b' = bk_len b ∧ off ≤ mid ≤ off + zlen d ∧
      (∀ a, 0 ≤ a < bk_len b → bk_byte b' a = if decide (off ≤ a < mid) then znth d (a - off) else bk_byte b a) ∧
      match r with Ok _ => mid = off + zlen d | Err e => e = ZxError.NO_MEMORY | Panic => False end;
  bk_zero_law b off n : bk_ok b → 0 ≤ off → 0 ≤ n → off + n ≤ bk_len b →
    ∃ r b' mid, bk_zero off n b = (r, b') ∧ bk_ok b' ∧ bk_len b' = bk_len b ∧ off ≤ mid ≤ off + n ∧
      (∀ a, 0 ≤ a < bk_len b → bk_byte b' a = if decide (off ≤ a < mid) then 0 else bk_byte b a) ∧
      match r with Ok _ => mid = off + n | Err e => e = ZxError.NO_MEMORY | Panic => False end;
  bk_set_len_law b len : bk_sizable → bk_ok b → 0 ≤ len < 2 ^ 64 → len mod PAGE_SIZE = 0 →
    ∃ b', bk_set_len len b = (Ok tt, b') ∧ bk_ok b' ∧ bk_len b' = len ∧
      ∀ a, 0 ≤ a < len → bk_byte b' a = if decide (a < bk_len b) then bk_byte b a else 0
}.

(** ** The object *)
Section vm_object.
Context {B : Type} `{Backing B}.

Record VmObject := mkVmObject { resizable : bool; unbounded : bool; content_size : Z; trait_ : B }.
Implicit Types (v : VmObject).
Definition set_content (n : Z) v : VmObject := mkVmObject (resizable v) (unbounded v) n (trait_ v).
Definition with_trait (b : B) v : VmObject := mkVmObject (resizable v) (unbounded v) (content_size v) b.
(** A call of the implementation. *)
Definition on_trait {A} (c : SM B A) : SM VmObject A := λ v, let '(r, b) := c (trait_ v) in (r, with_trait b v).

(** [new_paged_with_options]: the number of pages and the size of the content. *)
Definition paged_size (unbounded : bool) (size : Z) : ZxResult (Z * Z) :=
  let backing_size :=
    if unbounded then Ok (Z.ldiff usize_max (PAGE_SIZE - 1))
    else if 2 ^ 64 <=? size + (PAGE_SIZE - 1) then Err ZxError.OUT_OF_RANGE else Ok (Z.ldiff (size + (PAGE_SIZE - 1)) (PAGE_SIZE - 1)) in
  let? backing_size := backing_size in
  if backing_size <? size then Err ZxError.OUT_OF_RANGE else Ok (backing_size / PAGE_SIZE, size).

(** [VmObject::set_len] *)
Definition set_len (len : Z) : SM VmObject unit :=
  let size := roundup_pages len in
  let* v := sget in
  if size <? len then sthrow ZxError.OUT_OF_RANGE
  else if negb (resizable v) then sthrow ZxError.UNAVAILABLE
  else
    let old_len := bk_len (trait_ v) in
    let* _ := on_trait (bk_set_len size) in
    if (content_size v =? old_len) || (size <? content_size v) then smodify (set_content size) else sret tt.

(** The part of [write_stream] that clears the bytes between the content and the offset. *)
Definition clear_gap (content off : Z) : SM VmObject unit :=
  if content <? off then on_trait (bk_zero content (off -u content)) else sret tt.

Definition write_stream (offset : option Z) (data : list Z) : SM VmObject (Z * Z) :=
  let* v := sget in
  let off := default (content_size v) offset in
  if 2 ^ 64 <=? off + zlen data then sthrow (match offset with None => ZxError.OUT_OF_RANGE | Some _ => ZxError.FILE_BIG end)
  else
    let limit := bk_len (trait_ v) in
    if limit <=? off then sthrow ZxError.OUT_OF_RANGE
    else
      let end_ := Z.min (off + zlen data) limit in
      let* _ := clear_gap (content_size v) off in
      let count := end_ -u off in
      let* _ := on_trait (bk_write off (ztake count data)) in
      let* _ := smodify (set_content (Z.max (content_size v) end_)) in
      sret (off, count).

Definition set_content_size (size : Z) : SM VmObject unit :=
  let* v := sget in
  if bk_len (trait_ v) <? size then sthrow ZxError.OUT_OF_RANGE
  else
    let* _ := (if negb (size =? content_size v) then
                 let start := Z.min size (content_size v) in
                 let n := Z.max size (content_size v) -u start in
                 on_trait (bk_zero start n)
               else sret tt) in
    smodify (set_content size).

Definition grow_unbounded_backing (len : Z) : SM VmObject unit :=
  let size := roundup_pages len in
  if size <? len then sthrow ZxError.OUT_OF_RANGE else on_trait (bk_set_len size).

Definition set_stream_size (size : Z) : SM VmObject unit :=
  let* v := sget in
  let* _ := (if bk_len (trait_ v) <? size then
               if negb (unbounded v) then sthrow ZxError.OUT_OF_RANGE
               else
                 let* _ := grow_unbounded_backing size in
                 smodify (set_content (content_size v))
             else sret tt) in
  set_content_size size.

Definition grow_for_write (end_ : Z) : SM VmObject unit :=
  let* v := sget in
  if end_ <=? bk_len (trait_ v) then sret tt
  else if negb (unbounded v) then sthrow ZxError.OUT_OF_RANGE
  else
    let* _ := grow_unbounded_backing end_ in
    smodify (set_content (content_size v)).

(** The body of [sys_vmo_write], for a buffer that the caller may read. *)
Definition write_call (offset : Z) (data : list Z) : SM VmObject unit :=
  if 2 ^ 64 <=? offset + zlen data then sthrow ZxError.OUT_OF_RANGE
  else
    let* _ := grow_for_write (offset + zlen data) in
    let* v := sget in
    if (bk_len (trait_ v) <? offset) || (bk_len (trait_ v) -u offset <? zlen data) then sthrow ZxError.OUT_OF_RANGE
    else on_trait (bk_write offset data).
(** The body of [sys_vmo_read]. *)
Definition read_call (offset n : Z) : SM VmObject (list Z) :=
  let* v := sget in
  if (bk_len (trait_ v) <? offset) || (bk_len (trait_ v) -u offset <? n) then sthrow ZxError.OUT_OF_RANGE
  else on_trait (bk_read offset n).
End vm_object.
Arguments VmObject : clear implicits.

(** ** The content of an object as a file
    [data] are the bytes of the content, [cap] is the size of the object. *)
Section content.
Context {B : Type} {Hbk : Backing B} {Hlaws : BackingLaws B}.
#[local] Set Default Proof Using "Type".
Implicit Types (v : VmObject B) (data d : list Z).

Record represents v data (cap : Z) : Prop := {
  rp_ok : bk_ok (trait_ v);
  rp_cap : cap = bk_len (trait_ v);
  rp_size : content_size v = zlen data;
  rp_fits : zlen data ≤ cap;
  rp_bytes i : 0 ≤ i < zlen data → bk_byte (trait_ v) i = znth data i;
  rp_sizable : resizable v || unbounded v = true → bk_sizable
}.
Definition same_flags v v' : Prop := resizable v' = resizable v ∧ unbounded v' = unbounded v.

(** What a write of [d] at [off] does to a file, with the number of bytes that are written; the
    file ends at its capacity, and less is written if there is no memory. *)
Inductive file_written (too_big : ZxError.t) (off : Z) d data (cap : Z) : ZxResult Z → list Z → Prop :=
| written_too_big : 2 ^ 64 ≤ off + zlen d → file_written too_big off d data cap (Err too_big) data
| written_full : off + zlen d < 2 ^ 64 → cap ≤ off → file_written too_big off d data cap (Err ZxError.OUT_OF_RANGE) data
| written c : off + zlen d < 2 ^ 64 → off < cap → c = Z.min (zlen d) (cap - off) →
    file_written too_big off d data cap (Ok c) (splice off (ztake c d) data)
| written_no_memory m : off + zlen d < 2 ^ 64 → 0 ≤ m ≤ Z.min (zlen d) (cap - off) →
    file_written too_big off d data cap (Err ZxError.NO_MEMORY) (ztake (zlen data) (splice off (ztake m d) data)).

Lemma on_trait_ok {A} (c : SM B A) v r b : c (trait_ v) = (r, b) → on_trait c v = (r, with_trait b v).
Proof. unfold on_trait. by intros ->. Qed.

(** A write after the gap before it, if there is one, has been cleared. *)
Lemma write_gap v data cap off d :
  represents v data cap → 0 ≤ off → off + zlen d ≤ cap →
  let write :=
    (let* _ := clear_gap (content_size v) off in on_trait (bk_write off d)) in
  ∃ r b' m, write v = (r, with_trait b' v) ∧ bk_ok b' ∧ bk_len b' = cap ∧ 0 ≤ m ≤ zlen d ∧
    match r with Ok _ => m = zlen d | Err e => e = ZxError.NO_MEMORY | Panic => False end ∧
    ∀ a, 0 ≤ a < cap → a < zlen data ∨ m = zlen d ∧ is_ok r = true → a < Z.max (zlen data) (off + m) →
      bk_byte b' a = znth (splice off (ztake m d) data) a.
Proof.
  intros R Hoff Hcap write. pose proof R as [R1 R2 R3 R4 R5 _]. pose proof (zlen_nonneg data) as Hdata. pose proof (zlen_nonneg d) as Hd0.
  destruct (bk_len_range _ R1) as [_ Hmax].
  assert (∃ r b1 mid, clear_gap (content_size v) off v = (r, with_trait b1 v) ∧
    bk_ok b1 ∧ bk_len b1 = cap ∧ match r with Ok _ => off ≤ mid | Err e => e = ZxError.NO_MEMORY | Panic => False end ∧
    ∀ a, 0 ≤ a < cap → bk_byte b1 a = if decide (zlen data ≤ a < Z.min off mid) then 0 else bk_byte (trait_ v) a) as (r1 & b1 & mid1 & E1 & Hok1 & Hlen1 & Hr1 & Hb1).
  { unfold clear_gap. destruct (Z.ltb_spec (content_size v) off) as [Hlt|Hge].
    - rewrite wsub_small by (unfold fits; lia).
      destruct (bk_zero_law (trait_ v) (content_size v) (off - content_size v)) as (r & b1 & mid & E & H1 & H2 & H3 & H4 & H5); [done|lia|lia|lia|].
      exists r, b1, mid. split; [by apply on_trait_ok|]. split; [done|]. split; [lia|]. split; [destruct r; (done || lia)|]. intros a Ha. rewrite H4 by lia.
      rewrite R3. destruct (decide _), (decide _); (done || lia).
    - exists (Ok tt), (trait_ v), off. split; [by destruct v|]. split; [done|]. split; [lia|]. split; [lia|]. intros a Ha. by rewrite decide_False by lia. }
  unfold write. destruct r1 as [[]|e|]; [| |done].
  2:{ rewrite (sbind_err _ _ _ _ _ E1). exists (Err e), b1, 0. split_and!; [done|done|done|lia|lia|done|]. intros a Ha [Hd|[_ ?]] _; [|done].
      rewrite Hb1, decide_False by lia. rewrite znth_splice by lia. rewrite zlen_ztake, decide_False by lia. apply R5. lia. }
  rewrite (sbind_ok _ _ _ _ _ E1). destruct (bk_write_law b1 off d) as (r & b2 & mid & E2 & H1 & H2 & H3 & H4 & H5); [done|done|lia|].
  exists r, b2, (mid - off). split; [by apply (on_trait_ok _ (with_trait b1 v))|]. split; [done|]. split; [lia|]. split; [lia|].
  split; [destruct r; (done || lia)|]. intros a Ha Hin Hlt. rewrite H4, znth_splice, zlen_ztake by lia. replace (off + Z.min (mid - off) (zlen d)) with mid by lia.
  destruct (decide (off ≤ a < mid)) as [Hw|Hw]; [by rewrite znth_ztake, decide_True by lia|]. rewrite Hb1 by lia.
  destruct (decide (zlen data ≤ a < Z.min off mid1)) as [Hz|Hz]; [by rewrite znth_out by lia|]. apply R5. destruct Hin as [?|[Hm Hr]]; [lia|]. destruct r as [[]|e|]; [lia|done|done].
Qed.

Lemma represents_trait v data cap b' data' :
  represents v data cap → bk_ok b' → bk_len b' = cap → zlen data' = zlen data → (∀ i, 0 ≤ i < zlen data → bk_byte b' i = znth data' i) →
  represents (with_trait b' v) data' cap.
Proof. intros [R1 R2 R3 R4 R5 R6] Hok Hlen Hd Hb. split; simpl; [done|lia|lia|lia|rewrite Hd; done|done]. Qed.

Definition too_big (offset : option Z) : ZxError.t := match offset with None => ZxError.OUT_OF_RANGE | Some _ => ZxError.FILE_BIG end.

Lemma write_stream_spec v data cap offset d :
  represents v data cap → 0 ≤ default (zlen data) offset →
  ∃ r v' data', write_stream offset d v = (r, v') ∧ represents v' data' cap ∧ same_flags v v' ∧
    file_written (too_big offset) (default (zlen data) offset) d data cap (rmap snd r) data' ∧ (∀ o c, r = Ok (o, c) → o = default (zlen data) offset).
Proof.
  intros R Hoff. pose proof R as [R1 R2 R3 R4 R5 R6]. pose proof (zlen_nonneg data) as Hdata. pose proof (zlen_nonneg d) as Hd0.
  unfold write_stream. rewrite (sbind_ok sget _ v v v), R3 by done. set (off := default (zlen data) offset) in *.
  destruct (Z.leb_spec (2 ^ 64) (off + zlen d)) as [Hbig|Hbig].
  { exists (Err (too_big offset)), v, data. split; [by destruct offset|]. split; [done|]. split; [done|]. split; [by constructor|done]. }
  destruct (Z.leb_spec (bk_len (trait_ v)) off) as [Hfull|Hroom].
  { exists (Err ZxError.OUT_OF_RANGE), v, data. split; [done|]. split; [done|]. split; [done|]. split; [by apply written_full; lia|done]. }
  set (c := Z.min (zlen d) (cap - off)). destruct (bk_len_range _ R1) as [_ Hmax].
  assert (Z.min (off + zlen d) (bk_len (trait_ v)) = off + c) as -> by lia. rewrite (wsub_small 64 (off + c)) by (unfold fits; lia). replace (off + c - off) with c by lia.
  assert (zlen (ztake c d) = c) as Hc by (rewrite zlen_ztake; lia).
  destruct (write_gap v data cap off (ztake c d) R Hoff ltac:(lia)) as (r & b' & m & E & Hok & Hlen & Hm & Hr & Hb). rewrite Hc in *. rewrite R3 in E.
  unfold sbind in E |- *. destruct (clear_gap (zlen data) off v) as [[[]|e|] v1].
  - destruct (on_trait (bk_write off (ztake c d)) v1) as [[[]|e|] v2]; injection E as <- ->; [| |done].
    + subst m. eexists _, _, _. split; [done|]. split; [|split; [done|split; [apply (written _ _ _ _ _ c); [done|lia|done]|by intros ? ? [= <- _]]]].
      assert (zlen (splice off (ztake c d) data) = Z.max (zlen data) (off + c)) as El by (rewrite zlen_splice by done; lia).
      split; simpl; [done|lia|lia|lia| |done]. rewrite El. intros i Hi. rewrite Hb; [by rewrite (ztake_all c (ztake c d)) by lia|lia|by right|lia].
    + simpl in Hr. subst e. eexists _, _, _. split; [done|]. split; [|split; [done|split; [apply (written_no_memory _ _ _ _ _ m); [done|unfold c in *; lia]|done]]].
      apply (represents_trait v data); [done|done|done|rewrite zlen_ztake, zlen_splice by lia; lia|]. intros i Hi. rewrite znth_ztake, decide_True by lia.
      rewrite Hb; [|lia|by left; lia|lia]. do 2 f_equal. unfold ztake. rewrite take_take. f_equal. lia.
  - injection E as <- ->. simpl in Hr. subst e. eexists _, _, _. split; [done|]. split; [|split; [done|split; [apply (written_no_memory _ _ _ _ _ m); [done|unfold c in *; lia]|done]]].
    apply (represents_trait v data); [done|done|done|rewrite zlen_ztake, zlen_splice by lia; lia|]. intros i Hi. rewrite znth_ztake, decide_True by lia.
    rewrite Hb; [|lia|by left; lia|lia]. do 2 f_equal. unfold ztake. rewrite take_take. f_equal. lia.
  - injection E as <- _. done.
Qed.

(** *** Sizes *)
(** The capacity for [need] bytes: only an unbounded object grows. *)
Definition grown (ub : bool) (need cap : Z) : option Z :=
  if need <=? cap then Some cap else if ub && (need <=? roundup_pages need) then Some (roundup_pages need) else None.

Inductive file_poked (ub : bool) (off : Z) d data (cap : Z) : ZxResult unit → list Z → Z → Prop :=
| poked_range : 2 ^ 64 ≤ off + zlen d ∨ grown ub (off + zlen d) cap = None → file_poked ub off d data cap (Err ZxError.OUT_OF_RANGE) data cap
| poked cap' : off + zlen d < 2 ^ 64 → grown ub (off + zlen d) cap = Some cap' →
    file_poked ub off d data cap (Ok tt) (ztake (zlen data) (splice off d data)) cap'
| poked_no_memory cap' m : off + zlen d < 2 ^ 64 → grown ub (off + zlen d) cap = Some cap' → 0 ≤ m ≤ zlen d →
    file_poked ub off d data cap (Err ZxError.NO_MEMORY) (ztake (zlen data) (splice off (ztake m d) data)) cap'.

Inductive file_sized (ub : bool) (n : Z) data (cap : Z) : ZxResult unit → list Z → Z → Prop :=
| sized_range : grown ub n cap = None → file_sized ub n data cap (Err ZxError.OUT_OF_RANGE) data cap
| sized cap' : grown ub n cap = Some cap' → file_sized ub n data cap (Ok tt) (resize_list n data) cap'
| sized_no_memory cap' m : grown ub n cap = Some cap' → 0 ≤ m →
    file_sized ub n data cap (Err ZxError.NO_MEMORY) (ztake (zlen data) (splice (Z.min n (zlen data)) (zeros m) data)) cap'.

Inductive file_set_len (rs : bool) (len : Z) data (cap : Z) : ZxResult unit → list Z → Z → Prop :=
| set_len_range : roundup_pages len < len → file_set_len rs len data cap (Err ZxError.OUT_OF_RANGE) data cap
| set_len_fixed : len ≤ roundup_pages len → rs = false → file_set_len rs len data cap (Err ZxError.UNAVAILABLE) data cap
| set_len_full : len ≤ roundup_pages len → rs = true → zlen data = cap ∨ roundup_pages len < zlen data →
    file_set_len rs len data cap (Ok tt) (resize_list (roundup_pages len) data) (roundup_pages len)
| set_len_kept : len ≤ roundup_pages len → rs = true → zlen data ≠ cap → zlen data ≤ roundup_pages len →
    file_set_len rs len data cap (Ok tt) data (roundup_pages len).

Lemma roundup_bounds n : 0 ≤ roundup_pages n < 2 ^ 64 ∧ roundup_pages n mod PAGE_SIZE = 0.
Proof.
  unfold roundup_pages, wmul, wrap. split; [apply Z.mod_pos_bound; lia|]. unfold PAGE_SIZE.
  change (2 ^ 64) with (2 ^ 52 * 4096). rewrite Z.mul_mod_distr_r by lia. apply Z.mod_mul. lia.
Qed.

Lemma resize_backing v data cap size :
  represents v data cap → bk_sizable → 0 ≤ size < 2 ^ 64 → size mod PAGE_SIZE = 0 →
  ∃ b', on_trait (bk_set_len size) v = (Ok tt, with_trait b' v) ∧ bk_ok b' ∧ bk_len b' = size ∧
    ∀ a, 0 ≤ a < size → a < zlen data ∨ zlen data = cap → bk_byte b' a = znth data a.
Proof.
  intros [R1 R2 R3 R4 R5 R6] Hs Hsz Hm. destruct (bk_set_len_law (trait_ v) size Hs R1 Hsz Hm) as (b' & E & Hok & Hlen & Hb).
  exists b'. split; [by apply on_trait_ok|]. split; [done|]. split; [done|]. intros a Ha Hd. rewrite Hb by done.
  destruct (decide (a < bk_len (trait_ v))); [apply R5; lia|]. symmetry. apply znth_out. lia.
Qed.

Lemma grow_for_write_spec v data cap need :
  represents v data cap → 0 ≤ need < 2 ^ 64 →
  match grown (unbounded v) need cap with
  | None => grow_for_write need v = (Err ZxError.OUT_OF_RANGE, v)
  | Some cap' => ∃ v', grow_for_write need v = (Ok tt, v') ∧ represents v' data cap' ∧ same_flags v v' ∧ need ≤ cap' ∧ content_size v' = content_size v
  end.
Proof.
  intros R Hn. pose proof R as [R1 R2 R3 R4 R5 R6]. pose proof (zlen_nonneg data) as Hdata. unfold grown, grow_for_write. rewrite (sbind_ok sget _ v v v), <-R2 by done.
  destruct (Z.leb_spec need cap) as [Hle|Hgt]; [by exists v|]. destruct (unbounded v) eqn:Eu; cbn [negb andb]; [|done].
  unfold grow_unbounded_backing. destruct (Z.leb_spec need (roundup_pages need)) as [Hr|Hr].
  - rewrite (proj2 (Z.ltb_ge _ _) Hr). destruct (roundup_bounds need) as [Hb Hm].
    destruct (resize_backing v data cap (roundup_pages need)) as (b' & E & Hok & Hlen & Hbytes); [done|apply R6; by rewrite orb_true_r|done|done|].
    rewrite (sbind_ok _ _ _ _ _ E). eexists. split; [done|]. split; [|done]. split; simpl; [done|lia|lia|lia| |rewrite Eu; auto].
    intros i Hi. apply Hbytes; lia.
  - by rewrite (proj2 (Z.ltb_lt _ _) Hr).
Qed.

Lemma write_call_spec v data cap off d :
  represents v data cap → 0 ≤ off →
  ∃ r v' data' cap', write_call off d v = (r, v') ∧ represents v' data' cap' ∧ same_flags v v' ∧ file_poked (unbounded v) off d data cap r data' cap'.
Proof.
  intros R Hoff. pose proof (zlen_nonneg data) as Hdata. pose proof (zlen_nonneg d) as Hd0. unfold write_call. destruct (Z.leb_spec (2 ^ 64) (off + zlen d)) as [Hbig|Hbig].
  { exists (Err ZxError.OUT_OF_RANGE), v, data, cap. split; [done|]. split; [done|]. split; [done|]. constructor. by left. }
  pose proof (grow_for_write_spec v data cap (off + zlen d) R ltac:(lia)) as Hg. destruct (grown (unbounded v) (off + zlen d) cap) as [cap'|] eqn:Eg.
  2:{ rewrite (sbind_err _ _ _ _ _ Hg). exists (Err ZxError.OUT_OF_RANGE), v, data, cap. split; [done|]. split; [done|]. split; [done|]. constructor. by right. }
  destruct Hg as (v1 & E1 & R' & Hf1 & Hcap & _). rewrite (sbind_ok _ _ _ _ _ E1), (sbind_ok sget _ v1 v1 v1) by done. pose proof R' as [R1 R2 R3 R4 R5 R6].
  destruct (bk_len_range _ R1) as [_ Hmax]. rewrite <-R2 in Hmax |- *. destruct (Z.ltb_spec cap' off); [lia|]. rewrite wsub_small by (unfold fits; lia).
  destruct (Z.ltb_spec (cap' - off) (zlen d)); [lia|]. cbn [orb].
  destruct (bk_write_law (trait_ v1) off d) as (r & b' & mid & E & Hok & Hlen & Hmid & Hb & Hr); [done|done|lia|].
  rewrite (on_trait_ok _ _ _ _ E). exists r, (with_trait b' v1), (ztake (zlen data) (splice off (ztake (mid - off) d) data)), cap'. split; [done|]. split; [|split; [done|]].
  - apply (represents_trait v1 data); [done|done|lia|rewrite zlen_ztake, zlen_splice by lia; lia|]. intros i Hi.
    rewrite Hb, znth_ztake, (decide_True (P := i < zlen data)), znth_splice, zlen_ztake by lia. replace (off + Z.min (mid - off) (zlen d)) with mid by lia.
    destruct (decide (off ≤ i < mid)); [by rewrite znth_ztake, decide_True by lia|]. by apply R5.
  - destruct r as [[]|e|]; [| |done].
    + subst mid. rewrite (ztake_all _ d) by lia. by constructor.
    + subst e. constructor; [done|done|lia].
Qed.

Lemma set_content_size_spec v data cap n :
  represents v data cap → 0 ≤ n ≤ cap →
  ∃ r v' data', set_content_size n v = (r, v') ∧ represents v' data' cap ∧ same_flags v v' ∧
    match r with
    | Ok _ => data' = resize_list n data
    | Err e => e = ZxError.NO_MEMORY ∧ ∃ m, 0 ≤ m ∧ data' = ztake (zlen data) (splice (Z.min n (zlen data)) (zeros m) data)
    | Panic => False
    end.
Proof.
  intros R Hn. pose proof R as [R1 R2 R3 R4 R5 R6]. pose proof (zlen_nonneg data) as Hdata. unfold set_content_size. rewrite (sbind_ok sget _ v v v) by done.
  destruct (Z.ltb_spec (bk_len (trait_ v)) n); [lia|]. rewrite R3. destruct (bk_len_range _ R1) as [_ Hmax]. destruct (Z.eqb_spec n (zlen data)) as [->|Hne]; cbn [negb].
  { rewrite (sbind_ok (sret tt) _ v tt v) by done. exists (Ok tt), (set_content (zlen data) v), data. split; [done|]. split; [by split|]. split; [done|].
    symmetry. apply znth_eq; [by apply zlen_resize|]. rewrite zlen_resize by lia. intros i Hi. by rewrite znth_resize, decide_True by lia. }
  rewrite wsub_small by (unfold fits; lia). set (lo := Z.min n (zlen data)).
  destruct (bk_zero_law (trait_ v) lo (Z.max n (zlen data) - lo)) as (r & b' & mid & E & Hok & Hlen & Hmid & Hb & Hr); [done|lia|lia|lia|].
  destruct r as [[]|e|]; [| |done].
  - rewrite (sbind_ok _ _ _ _ _ (on_trait_ok _ _ _ _ E)). eexists _, _, _. split; [done|]. split; [|by split]. subst mid.
    split; simpl; [done|lia|by rewrite zlen_resize by lia|rewrite zlen_resize by lia; lia| |done]. rewrite zlen_resize by lia. intros i Hi. rewrite Hb by lia.
    rewrite znth_resize, (decide_True (P := i < n)) by lia. destruct (decide (lo ≤ i < _)); [by rewrite znth_out by lia|]. apply R5. lia.
  - subst e. rewrite (sbind_err _ _ _ _ _ (on_trait_ok _ _ _ _ E)). eexists _, _, _. split; [done|]. split; [|split; [done|split; [done|exists (mid - lo); split; [lia|done]]]].
    apply (represents_trait v data); [done|done|lia|rewrite zlen_ztake, zlen_splice, zlen_zeros by lia; lia|]. intros i Hi.
    rewrite Hb, znth_ztake, (decide_True (P := i < zlen data)), znth_splice, zlen_zeros, znth_zeros by lia. fold lo. replace (lo + Z.max 0 (mid - lo)) with mid by lia.
    destruct (decide _); [done|]. by apply R5.
Qed.

Lemma set_stream_size_spec v data cap n :
  represents v data cap → 0 ≤ n < 2 ^ 64 →
  ∃ r v' data' cap', set_stream_size n v = (r, v') ∧ represents v' data' cap' ∧ same_flags v v' ∧ file_sized (unbounded v) n data cap r data' cap'.
Proof.
  intros R Hn. pose proof R as [_ R2 _ _ _ _]. pose proof (grow_for_write_spec v data cap n R Hn) as Hg. unfold set_stream_size. rewrite (sbind_ok sget _ v v v) by done.
  assert ((if bk_len (trait_ v) <? n then if negb (unbounded v) then sthrow ZxError.OUT_OF_RANGE else let* _ := grow_unbounded_backing n in smodify (set_content (content_size v)) else sret tt) v
    = grow_for_write n v) as E.
  { unfold grow_for_write. rewrite (sbind_ok sget _ v v v) by done. by destruct (Z.ltb_spec (bk_len (trait_ v)) n), (Z.leb_spec n (bk_len (trait_ v))); try lia. }
  destruct (grown (unbounded v) n cap) as [cap'|] eqn:Eg.
  - destruct Hg as (v1 & E1 & R' & Hf1 & Hcap & _). rewrite E1 in E. rewrite (sbind_ok _ _ _ _ _ E).
    destruct (set_content_size_spec v1 data cap' n R' ltac:(lia)) as (r & v2 & data' & E2 & R'' & Hf2 & Hr). exists r, v2, data', cap'. split; [done|]. split; [done|].
    split; [by destruct Hf1, Hf2; split; etrans|]. destruct r as [[]|e|]; [subst data'; by constructor| |done]. destruct Hr as (-> & m & Hm & ->). by constructor.
  - rewrite Hg in E. rewrite (sbind_err _ _ _ _ _ E). exists (Err ZxError.OUT_OF_RANGE), v, data, cap. split; [done|]. split; [done|]. split; [done|]. by constructor.
Qed.

Lemma object_set_len_spec v data cap len :
  represents v data cap → 0 ≤ len < 2 ^ 64 →
  ∃ r v' data' cap', set_len len v = (r, v') ∧ represents v' data' cap' ∧ same_flags v v' ∧ file_set_len (resizable v) len data cap r data' cap'.
Proof.
  intros R Hn. pose proof R as [R1 R2 R3 R4 R5 R6]. pose proof (zlen_nonneg data) as Hdata. unfold set_len. rewrite (sbind_ok sget _ v v v) by done.
  destruct (Z.ltb_spec (roundup_pages len) len) as [Hlt|Hge].
  { exists (Err ZxError.OUT_OF_RANGE), v, data, cap. split; [done|]. split; [done|]. split; [done|]. by constructor. }
  destruct (resizable v) eqn:Er; cbn [negb].
  2:{ exists (Err ZxError.UNAVAILABLE), v, data, cap. split; [done|]. split; [done|]. split; [done|]. by constructor. }
  destruct (roundup_bounds len) as [Hb Hm]. set (size := roundup_pages len) in *.
  destruct (resize_backing v data cap size) as (b' & E & Hok & Hlen & Hbytes); [done|by apply R6|done|done|]. rewrite (sbind_ok _ _ _ _ _ E), R3, <-R2.
  destruct (Z.eqb_spec (zlen data) cap) as [Hfull|Hfull], (Z.ltb_spec size (zlen data)) as [Hs|Hs]; cbn [orb].
  1-3: eexists _, _, (resize_list size data), size; split; [done|]; split; [|split; [done|apply set_len_full; (done || lia)]];
    (split; simpl; [done|lia|by rewrite zlen_resize by lia|rewrite zlen_resize by lia; lia| |rewrite Er; auto]);
    rewrite zlen_resize by lia; intros i Hi; rewrite znth_resize, decide_True by lia; apply Hbytes; lia.
  eexists _, _, data, size. split; [done|]. split; [|split; [done|apply set_len_kept; (done || lia)]].
  split; simpl; [done|lia|done|lia| |rewrite Er; auto]. intros i Hi. apply Hbytes; lia.
Qed.

(** *** Reading *)
Lemma read_file_content v data cap off n :
  represents v data cap → 0 ≤ off → 0 ≤ n → off + n ≤ zlen data →
  ∃ v', on_trait (bk_read off n) v = (Ok (ztake n (zdrop off data)), v') ∧ represents v' data cap ∧ same_flags v v'.
Proof.
  intros R Hoff Hn Hle. pose proof R as [R1 R2 R3 R4 R5 R6]. destruct (bk_read_law (trait_ v) off n) as (b' & E & Hok & Hlen & Hb); [done|done|done|lia|].
  exists (with_trait b' v). rewrite (on_trait_ok _ _ _ _ E). split; [|split; [|done]].
  - do 2 f_equal. apply znth_eq; unfold zlen at 1; rewrite length_fmap, length_seqZ; [rewrite zlen_ztake, zlen_zdrop by lia; lia|]. intros i Hi.
    rewrite znth_ztake, decide_True, znth_zdrop by lia. rewrite Z.add_comm, <-R5 by lia. unfold znth. destruct (Z.ltb_spec i 0); [lia|].
    apply nth_lookup_Some. rewrite list_lookup_fmap, lookup_seqZ_lt by lia. simpl. do 2 f_equal. lia.
  - apply (represents_trait v data); [done|done|lia|done|]. intros i Hi. rewrite Hb by lia. by apply R5.
Qed.
End content.
