(* ===== verification/Stream.v ===== *)
(** * Streams

    [zircon-object/src/vm/stream.rs]: readable and writable views of the content of a memory
    object, each with a seek offset and an append mode of its own.  All streams of one object
    share its content.  [zircon-syscall/src/stream.rs]: the system calls, which read and write
    vectors of buffers. *)

From stdpp Require Import gmap.
From S2P Require Import Prelude Errors KObject Rights Handles PageTable Vmo VmObject.
From stdpp Require Import options.
#[local] Open Scope Z_scope.

Module StreamOptions.
Definition MODE_READ : Z := bit 0.
Definition MODE_WRITE : Z := bit 1.
Definition MODE_APPEND : Z := bit 2.
Definition all : Z := 7.
End StreamOptions.

Module SeekOrigin.
Inductive t := Start | Current | End_.
Definition try_from (x : Z) : option t := match x with 0 => Some Start | 1 => Some Current | 2 => Some End_ | _ => None end.
End SeekOrigin.

Record Stream := mkStream { options : Z; seek_at : Z }.

(** A memory object and its streams. *)
Record streams (B : Type) := mkStreams { vmo : VmObject B; opened : gmap nat Stream }.
Arguments mkStreams {B}.
Arguments vmo {B}.
Arguments opened {B}.

Section stream.
Context {B : Type} `{Backing B}.
Implicit Types (st : streams B) (k : nat) (data : list Z).

Definition on_vmo {A} (c : SM (VmObject B) A) : SM (streams B) A := λ st, let '(r, v) := c (vmo st) in (r, mkStreams v (opened st)).
Definition stream_of k : SM (streams B) Stream := λ st, match opened st !! k with Some s => (Ok s, st) | None => (Panic, st) end.
Definition set_stream k (s : Stream) : SM (streams B) unit := smodify (λ st, mkStreams (vmo st) (<[k := s]> (opened st))).
Definition content_size_of : SM (streams B) Z := on_vmo (λ v, (Ok (content_size v), v)).
Definition is_append (s : Stream) : bool := negb (Z.land (options s) StreamOptions.MODE_APPEND =? 0).

(** [Stream::create] *)
Definition create k (seek options : Z) : SM (streams B) unit := set_stream k (mkStream options seek).

(** [Stream::read_at], which returns the bytes that it stores in its buffer of [count]. *)
Definition read_at (count offset : Z) : SM (streams B) (list Z) :=
  let* content_size := content_size_of in
  if content_size <=? offset then sret []
  else
    let length := Z.min count (content_size -u offset) in
    on_vmo (on_trait (bk_read offset length)).

Definition read k (count : Z) : SM (streams B) (list Z) :=
  let* s := stream_of k in
  let* bytes := read_at count (seek_at s) in
  let* _ := set_stream k (mkStream (options s) (seek_at s +u zlen bytes)) in
  sret bytes.

Definition write k data (append : bool) : SM (streams B) Z :=
  let* s := stream_of k in
  if is_empty data then sret 0
  else
    let offset := if append || is_append s then None else Some (seek_at s) in
    let* (offset, length) := on_vmo (write_stream offset data) in
    let* _ := set_stream k (mkStream (options s) (offset +u length)) in
    sret length.

Definition write_at data (offset : Z) : SM (streams B) Z :=
  let* (_, length) := on_vmo (write_stream (Some offset) data) in sret length.

Definition check_write_size k (count : Z) (append : bool) (offset : option Z) : SM (streams B) unit :=
  if count =? 0 then sret tt
  else
    let* s := stream_of k in
    let* content_size := content_size_of in
    let append := bool_decide (offset = None) && (append || is_append s) in
    let off := match offset with Some o => o | None => if append then content_size else seek_at s end in
    if 2 ^ 64 <=? off + count then sthrow (if append then ZxError.OUT_OF_RANGE else ZxError.FILE_BIG) else sret tt.

(** [Stream::seek]; [offset] is a signed word. *)
Definition seek k (whence : SeekOrigin.t) (offset : Z) : SM (streams B) Z :=
  let* s := stream_of k in
  let* content_size := content_size_of in
  let origin := match whence with SeekOrigin.Start => 0 | SeekOrigin.Current => seek_at s | SeekOrigin.End_ => content_size end in
  let target := if 0 <=? offset then if 2 ^ 64 <=? origin + offset then None else Some (origin + offset)
                else if origin + offset <? 0 then None else Some (origin + offset) in
  match target with
  | None => sthrow ZxError.INVALID_ARGS
  | Some x => let* _ := set_stream k (mkStream (options s) x) in sret x
  end.

Definition set_append_mode k (append : bool) : SM (streams B) unit :=
  let* s := stream_of k in
  set_stream k (mkStream (if append then Z.lor (options s) StreamOptions.MODE_APPEND else Z.ldiff (options s) StreamOptions.MODE_APPEND) (seek_at s)).

(** [Stream::get_info]: options, seek offset and size of the content. *)
Definition get_info k : SM (streams B) (Z * Z * Z) :=
  let* s := stream_of k in
  let* content_size := content_size_of in
  sret (options s, seek_at s, content_size).

(** ** The loops of the system calls over vectors of buffers *)
Fixpoint writev_loop k (vec : list (list Z)) (append : bool) : SM (streams B) Z :=
  match vec with
  | [] => sret 0
  | io_vec :: vec =>
      let* n := write k io_vec append in
      let* rest := writev_loop k vec append in
      sret (n +u rest)
  end.
Fixpoint writev_at_loop (vec : list (list Z)) (offset : Z) : SM (streams B) Z :=
  match vec with
  | [] => sret 0
  | io_vec :: vec =>
      let* n := write_at io_vec offset in
      let* rest := writev_at_loop vec (offset +u zlen io_vec) in
      sret (n +u rest)
  end.
(** What is stored in each buffer; the buffers are given by their lengths. *)
Fixpoint readv_loop k (vec : list Z) : SM (streams B) (list (list Z)) :=
  match vec with
  | [] => sret []
  | len :: vec =>
      let* bytes := read k len in
      let* rest := readv_loop k vec in
      sret (bytes :: rest)
  end.
Fixpoint readv_at_loop (vec : list Z) (offset : Z) : SM (streams B) (list (list Z)) :=
  match vec with
  | [] => sret []
  | len :: vec =>
      let* bytes := read_at len offset in
      let* rest := readv_at_loop vec (offset +u len) in
      sret (bytes :: rest)
  end.
Definition total (vec : list (list Z)) : Z := foldl (λ n v, n +u zlen v) 0 vec.

(** ** The system calls
    The object id of a stream is its number; [vec] is what reading the vector from user memory
    gives, [valid] the check of its buffers. *)
Definition STREAM : string := "Stream"%string.
Definition stream_number (o : KernelObject) : nat := Z.to_nat (obj_id o).
Definition lift {A} (r : ZxResult A) : SM (streams B) A := λ st, (r, st).
Definition handle_stream (h : HandleValue) (rights : Z) (t : HandleTable) : SM (streams B) nat :=
  let* o := lift (get_object_with_rights STREAM h rights t) in sret (stream_number o).

Definition sys_stream_writev (h : HandleValue) (opts : Z) (vec : ZxResult (list (list Z))) (valid : ZxResult unit) (t : HandleTable) : SM (streams B) Z :=
  let* opts := lift (ok_or (from_bits 1 opts) ZxError.INVALID_ARGS) in
  let* k := handle_stream h Rights.WRITE t in
  let* vec := lift vec in
  let* _ := check_write_size k (total vec) (contains opts 1) None in
  let* _ := lift valid in
  writev_loop k vec (contains opts 1).
Definition sys_stream_writev_at (h : HandleValue) (opts offset : Z) (vec : ZxResult (list (list Z))) (valid : ZxResult unit) (t : HandleTable) : SM (streams B) Z :=
  if negb (opts =? 0) then sthrow ZxError.INVALID_ARGS
  else
    let* k := handle_stream h Rights.WRITE t in
    let* vec := lift vec in
    let* _ := check_write_size k (total vec) false (Some offset) in
    let* _ := lift valid in
    writev_at_loop vec offset.
Definition sys_stream_readv (h : HandleValue) (opts : Z) (vec : ZxResult (list Z)) (valid : ZxResult unit) (t : HandleTable) : SM (streams B) (list (list Z)) :=
  if negb (opts =? 0) then sthrow ZxError.INVALID_ARGS
  else
    let* k := handle_stream h Rights.READ t in
    let* vec := lift vec in
    let* _ := lift valid in
    readv_loop k vec.
Definition sys_stream_readv_at (h : HandleValue) (opts offset : Z) (vec : ZxResult (list Z)) (valid : ZxResult unit) (t : HandleTable) : SM (streams B) (list (list Z)) :=
  if negb (opts =? 0) then sthrow ZxError.INVALID_ARGS
  else
    let* _ := handle_stream h Rights.READ t in
    let* vec := lift vec in
    let* _ := lift valid in
    readv_at_loop vec offset.
Definition sys_stream_seek (h : HandleValue) (whence offset : Z) (t : HandleTable) : SM (streams B) Z :=
  let* (o, rights) := lift (get_object_and_rights STREAM h t) in
  if negb (contains rights Rights.READ) && negb (contains rights Rights.WRITE) then sthrow ZxError.ACCESS_DENIED
  else
    let* whence := lift (ok_or (SeekOrigin.try_from whence) ZxError.INVALID_ARGS) in
    seek (stream_number o) whence offset.
(** [sys_stream_create]; the object of handle [h] is the one of [st], [k] the new object id. *)
Definition sys_stream_create (opts : Z) (h : HandleValue) (seek : Z) k (t : HandleTable) : SM (streams B) (HandleValue * HandleTable) :=
  let* opts := lift (ok_or (from_bits StreamOptions.all opts) ZxError.INVALID_ARGS) in
  let if_mode mode right x := if contains opts mode then Z.lor x right else x in
  let rights := if_mode StreamOptions.MODE_WRITE Rights.WRITE (if_mode StreamOptions.MODE_READ Rights.READ Rights.DEFAULT_STREAM) in
  let vmo_rights := if_mode StreamOptions.MODE_WRITE Rights.WRITE (if_mode StreamOptions.MODE_READ Rights.READ 0) in
  let* _ := lift (get_object_with_rights "VmObject"%string h vmo_rights t) in
  let* _ := create k seek opts in
  sret (add_handle (mkHandle (mkKernelObject (Z.of_nat k) STREAM 0) rights) t).
End stream.

(** ** Specification: a file with several offsets into it *)
Record file := mkFile { fdata : list Z; fcap : Z; fopen : gmap nat Stream }.

Inductive stream_op :=
| Create (k : nat) (seek options : Z)
| Read (k : nat) (count : Z)
| ReadAt (count offset : Z)
| Write (k : nat) (data : list Z) (append : bool)
| WriteAt (data : list Z) (offset : Z)
| Seek (k : nat) (whence : SeekOrigin.t) (offset : Z)
| SetAppend (k : nat) (append : bool)
| Info (k : nat)
| VmoWrite (offset : Z) (data : list Z)
| SetLen (len : Z)
| SetStreamSize (size : Z).
Inductive stream_ret := RUnit | RCount (n : Z) | RBytes (l : list Z) | RInfo (i : Z * Z * Z).

Definition origin_of (whence : SeekOrigin.t) (s : Stream) (data : list Z) : Z :=
  match whence with SeekOrigin.Start => 0 | SeekOrigin.Current => seek_at s | SeekOrigin.End_ => zlen data end.

Inductive file_step (rs ub : bool) : file → stream_op → ZxResult stream_ret → file → Prop :=
| file_create f k s o : file_step rs ub f (Create k s o) (Ok RUnit) (mkFile (fdata f) (fcap f) (<[k := mkStream o s]> (fopen f)))
| file_read f k s n bytes : fopen f !! k = Some s → bytes = ztake n (zdrop (seek_at s) (fdata f)) →
    file_step rs ub f (Read k n) (Ok (RBytes bytes)) (mkFile (fdata f) (fcap f) (<[k := mkStream (options s) (seek_at s + zlen bytes)]> (fopen f)))
| file_read_at f n offset : file_step rs ub f (ReadAt n offset) (Ok (RBytes (ztake n (zdrop offset (fdata f))))) f
| file_write_nothing f k append : file_step rs ub f (Write k [] append) (Ok (RCount 0)) f
| file_write f k s d append offset off r data' : d ≠ [] → fopen f !! k = Some s → offset = (if append || is_append s then None else Some (seek_at s)) →
    off = default (zlen (fdata f)) offset → file_written (too_big offset) off d (fdata f) (fcap f) r data' →
    file_step rs ub f (Write k d append) (rmap RCount r)
      (mkFile data' (fcap f) (match r with Ok c => <[k := mkStream (options s) (off + c)]> (fopen f) | _ => fopen f end))
| file_write_at f d off r data' : file_written ZxError.FILE_BIG off d (fdata f) (fcap f) r data' →
    file_step rs ub f (WriteAt d off) (rmap RCount r) (mkFile data' (fcap f) (fopen f))
| file_seek f k s whence offset x : fopen f !! k = Some s → x = origin_of whence s (fdata f) + offset → 0 ≤ x < 2 ^ 64 →
    file_step rs ub f (Seek k whence offset) (Ok (RCount x)) (mkFile (fdata f) (fcap f) (<[k := mkStream (options s) x]> (fopen f)))
| file_seek_out f k s whence offset : fopen f !! k = Some s → ¬ 0 ≤ origin_of whence s (fdata f) + offset < 2 ^ 64 →
    file_step rs ub f (Seek k whence offset) (Err ZxError.INVALID_ARGS) f
| file_set_append f k s (append : bool) o : fopen f !! k = Some s →
    (∀ i, 0 ≤ i → Z.testbit o i = if decide (i = 2) then append else Z.testbit (options s) i) →
    file_step rs ub f (SetAppend k append) (Ok RUnit) (mkFile (fdata f) (fcap f) (<[k := mkStream o (seek_at s)]> (fopen f)))
| file_info f k s : fopen f !! k = Some s → file_step rs ub f (Info k) (Ok (RInfo (options s, seek_at s, zlen (fdata f)))) f
| file_vmo_write f off d r data' cap' : file_poked ub off d (fdata f) (fcap f) r data' cap' →
    file_step rs ub f (VmoWrite off d) (rmap (λ _, RUnit) r) (mkFile data' cap' (fopen f))
| file_len f len r data' cap' : file_set_len rs len (fdata f) (fcap f) r data' cap' →
    file_step rs ub f (SetLen len) (rmap (λ _, RUnit) r) (mkFile data' cap' (fopen f))
| file_stream_size f n r data' cap' : file_sized ub n (fdata f) (fcap f) r data' cap' →
    file_step rs ub f (SetStreamSize n) (rmap (λ _, RUnit) r) (mkFile data' cap' (fopen f)).

Inductive file_steps (rs ub : bool) : file → list (stream_op * ZxResult stream_ret) → file → Prop :=
| file_nil f : file_steps rs ub f [] f
| file_cons f1 f2 f3 op r l : file_step rs ub f1 op r f2 → file_steps rs ub f2 l f3 → file_steps rs ub f1 ((op, r) :: l) f3.

Section refinement.
Context {B : Type} {Hbk : Backing B} {Hlaws : BackingLaws B}.
#[local] Set Default Proof Using "Type".
Implicit Types (st : streams B) (f : file) (k : nat).

Definition sdo {A} (c : SM (streams B) A) (g : A → stream_ret) : SM (streams B) stream_ret := let* x := c in sret (g x).
Definition stream_exec (op : stream_op) : SM (streams B) stream_ret :=
  match op with
  | Create k s o => sdo (create k s o) (λ _, RUnit)
  | Read k n => sdo (read k n) RBytes
  | ReadAt n offset => sdo (read_at n offset) RBytes
  | Write k d append => sdo (write k d append) RCount
  | WriteAt d offset => sdo (write_at d offset) RCount
  | Seek k whence offset => sdo (seek k whence offset) RCount
  | SetAppend k append => sdo (set_append_mode k append) (λ _, RUnit)
  | Info k => sdo (get_info k) RInfo
  | VmoWrite offset d => sdo (on_vmo (write_call offset d)) (λ _, RUnit)
  | SetLen len => sdo (on_vmo (set_len len)) (λ _, RUnit)
  | SetStreamSize n => sdo (on_vmo (set_stream_size n)) (λ _, RUnit)
  end.

(** The streams exist and the arguments are words; the number of a new stream is new. *)
Definition word (x : Z) : bool := (0 <=? x) && (x <? 2 ^ 64).
Definition op_ok st (op : stream_op) : bool :=
  let is_open k := bool_decide (is_Some (opened st !! k)) in
  match op with
  | Create k s _ => negb (is_open k) && word s
  | Read k n => is_open k && word n
  | ReadAt n offset => word n && word offset
  | Write k _ _ | SetAppend k _ | Info k | Seek k _ _ => is_open k
  | WriteAt _ x | VmoWrite x _ | SetLen x | SetStreamSize x => word x
  end.
Inductive stream_steps : streams B → list (stream_op * ZxResult stream_ret) → streams B → Prop :=
| stream_nil st : stream_steps st [] st
| stream_cons st op l st' : op_ok st op = true → stream_steps (stream_exec op st).2 l st' → stream_steps st ((op, (stream_exec op st).1) :: l) st'.

Record srel (rs ub : bool) st f : Prop := {
  sr_content : represents (vmo st) (fdata f) (fcap f);
  sr_open : opened st = fopen f;
  sr_flags : resizable (vmo st) = rs ∧ unbounded (vmo st) = ub;
  sr_seek k s : fopen f !! k = Some s → 0 ≤ seek_at s < 2 ^ 64
}.
Definition refines_op (op : stream_op) : Prop := ∀ rs ub st f,
  srel rs ub st f → op_ok st op = true → ∃ f', srel rs ub (stream_exec op st).2 f' ∧ file_step rs ub f op (stream_exec op st).1 f'.

Lemma word_spec x : word x = true → 0 ≤ x < 2 ^ 64.
Proof. unfold word. rewrite andb_true_iff, Z.leb_le, Z.ltb_lt. done. Qed.

Lemma on_vmo_ok {A} (c : SM (VmObject B) A) st r v : c (vmo st) = (r, v) → on_vmo c st = (r, mkStreams v (opened st)).
Proof. unfold on_vmo. by intros ->. Qed.

Lemma stream_of_ok st k s : opened st !! k = Some s → stream_of k st = (Ok s, st).
Proof. unfold stream_of. by intros ->. Qed.

Lemma content_size_of_ok st : content_size_of st = (Ok (content_size (vmo st)), st).
Proof. by destruct st. Qed.

(** One stream changes. *)
Lemma srel_set rs ub st f k s : srel rs ub st f → 0 ≤ seek_at s < 2 ^ 64 →
  srel rs ub (mkStreams (vmo st) (<[k := s]> (opened st))) (mkFile (fdata f) (fcap f) (<[k := s]> (fopen f))).
Proof.
  intros [R1 R2 R3 R4] Hs. split; [done|by rewrite <-R2|done|]. simpl. intros k' s'. destruct (decide (k' = k)) as [->|].
  - rewrite lookup_insert_eq. by intros [= <-].
  - rewrite lookup_insert_ne by done. apply R4.
Qed.

(** The object changes. *)
Lemma srel_vmo rs ub st f v' data' cap' : srel rs ub st f → represents v' data' cap' → same_flags (vmo st) v' →
  srel rs ub (mkStreams v' (opened st)) (mkFile data' cap' (fopen f)).
Proof. intros [R1 R2 [R3 R4] R5] R [F1 F2]. split; simpl; [done|done|by rewrite F1, F2|done]. Qed.

Lemma cap_word rs ub st f : srel rs ub st f → zlen (fdata f) ≤ fcap f < 2 ^ 64.
Proof. intros [[R1 R2 R3 R4 _ _] _ _ _]. destruct (bk_len_range _ R1). lia. Qed.

Lemma read_at_spec rs ub st f n offset :
  srel rs ub st f → 0 ≤ n → 0 ≤ offset →
  ∃ v', read_at n offset st = (Ok (ztake n (zdrop offset (fdata f))), mkStreams v' (opened st)) ∧ represents v' (fdata f) (fcap f) ∧ same_flags (vmo st) v'.
Proof.
  intros HR Hn Hoff. pose proof HR as [R _ _ _]. pose proof (cap_word _ _ _ _ HR) as Hcap. unfold read_at. rewrite (sbind_ok _ _ _ _ _ (content_size_of_ok st)), (rp_size _ _ _ R).
  destruct (Z.leb_spec (zlen (fdata f)) offset) as [Hle|Hlt].
  - exists (vmo st). split; [|done]. unfold zdrop, zlen in *. rewrite drop_ge by lia. unfold ztake. rewrite take_nil. by destruct st.
  - rewrite wsub_small by (unfold fits; lia). destruct (read_file_content (vmo st) (fdata f) (fcap f) offset (Z.min n (zlen (fdata f) - offset)) R) as (v' & E & R' & Hf); [lia|lia|lia|].
    exists v'. rewrite (on_vmo_ok _ _ _ _ E). split; [|done]. do 2 f_equal. destruct (Z.min_spec n (zlen (fdata f) - offset)) as [[_ ->]|[? ->]]; [done|].
    rewrite !ztake_all; [done|rewrite zlen_zdrop; lia|rewrite zlen_zdrop; lia].
Qed.

Lemma sdo_run {A} (c : SM (streams B) A) g st r st' : c st = (r, st') → sdo c g st = (rmap g r, st').
Proof. unfold sdo, sbind. intros ->. by destruct r. Qed.

(** Operations on the object alone. *)
Lemma refines_vmo rs ub st f (c : SM (VmObject B) unit) r v' data' cap' op :
  srel rs ub st f → c (vmo st) = (r, v') → represents v' data' cap' → same_flags (vmo st) v' →
  (∀ st, stream_exec op st = sdo (on_vmo c) (λ _, RUnit) st) → file_step rs ub f op (rmap (λ _, RUnit) r) (mkFile data' cap' (fopen f)) →
  ∃ f', srel rs ub (stream_exec op st).2 f' ∧ file_step rs ub f op (stream_exec op st).1 f'.
Proof.
  intros HR E R Hf Hop Hstep. rewrite Hop, (sdo_run _ _ _ _ _ (on_vmo_ok _ _ _ _ E)). eexists. split; [by eapply srel_vmo|done].
Qed.

Lemma refines_read k n : refines_op (Read k n).
Proof.
  intros rs ub st f HR [Hk Hn%word_spec]%andb_true_iff. apply bool_decide_eq_true in Hk as [s Hs]. pose proof HR as [R1 R2 R3 R4]. pose proof (cap_word _ _ _ _ HR) as Hcap.
  rewrite R2 in Hs. pose proof (R4 k s Hs) as Hseek. destruct (read_at_spec rs ub st f n (seek_at s) HR) as (v' & E & R & Hf); [lia|lia|].
  set (bytes := ztake n (zdrop (seek_at s) (fdata f))) in *.
  assert (0 ≤ seek_at s + zlen bytes < 2 ^ 64) as Hb.
  { unfold bytes. rewrite zlen_ztake, zlen_zdrop by lia. pose proof (zlen_nonneg (fdata f)). lia. }
  assert (read k n st = (Ok bytes, mkStreams v' (<[k := mkStream (options s) (seek_at s + zlen bytes)]> (opened st)))) as Er.
  { unfold read. rewrite (sbind_ok _ _ st s st) by (apply stream_of_ok; by rewrite R2). rewrite (sbind_ok _ _ _ _ _ E), wadd_small by done. done. }
  simpl stream_exec. rewrite (sdo_run _ _ _ _ _ Er). eexists. split; [|by eapply file_read].
  by apply (srel_set rs ub (mkStreams v' (opened st)) (mkFile (fdata f) (fcap f) (fopen f))); [eapply srel_vmo|].
Qed.

Lemma refines_read_at n offset : refines_op (ReadAt n offset).
Proof.
  intros rs ub st f HR [Hn%word_spec Ho%word_spec]%andb_true_iff. destruct (read_at_spec rs ub st f n offset HR) as (v' & E & R & Hf); [lia|lia|].
  simpl stream_exec. rewrite (sdo_run _ _ _ _ _ E). exists f. split; [|constructor]. destruct f. by apply (srel_vmo rs ub st _ v' _ _ HR).
Qed.

Lemma refines_write k d append : refines_op (Write k d append).
Proof.
  intros rs ub st f HR Hk%bool_decide_eq_true. destruct Hk as [s Hs]. pose proof HR as [R1 R2 R3 R4]. pose proof (cap_word _ _ _ _ HR) as Hcap. simpl stream_exec.
  destruct d as [|x d0].
  { rewrite (sdo_run _ _ st (Ok 0) st); [|unfold write; rewrite (sbind_ok _ _ _ _ _ (stream_of_ok _ _ _ Hs)); done]. exists f. split; [done|constructor]. }
  set (d := x :: d0). assert (d ≠ []) as Hd by done. assert (is_empty d = false) as Hemp by done. clearbody d. set (offset := if append || is_append s then None else Some (seek_at s)).
  pose proof Hs as Hs'. rewrite R2 in Hs'. pose proof (R4 k s Hs') as Hseek. pose proof (zlen_nonneg (fdata f)).
  assert (0 ≤ default (zlen (fdata f)) offset) as Hoff by (unfold offset; destruct (append || is_append s); simpl; lia).
  destruct (write_stream_spec (vmo st) (fdata f) (fcap f) offset d R1 Hoff) as (r & v' & data' & E & R & Hf & Hw & Ho).
  assert (write k d append st = (rmap snd r, mkStreams v' (match r with Ok (o, c) => <[k := mkStream (options s) (o + c)]> (opened st) | _ => opened st end))) as Ew.
  { unfold write. rewrite (sbind_ok _ _ _ _ _ (stream_of_ok _ _ _ Hs)), Hemp. fold offset. pose proof (on_vmo_ok _ _ _ _ E) as E'. unfold sbind. rewrite E'.
    destruct r as [[o c]|e|]; [|done|done]. rewrite wadd_small; [done|]. rewrite (Ho o c eq_refl). inversion Hw; subst. pose proof (zlen_nonneg d). unfold fits. lia. }
  rewrite (sdo_run _ _ _ _ _ Ew). eexists. split; [|by apply (file_write rs ub f k s d append offset (default (zlen (fdata f)) offset) (rmap snd r) data')].
  pose proof (srel_vmo rs ub st f v' data' (fcap f) HR R Hf) as HR'. destruct r as [[o c]|e|]; [|done|done]. simpl. rewrite (Ho o c eq_refl) in *.
  apply (srel_set rs ub (mkStreams v' (opened st)) (mkFile data' (fcap f) (fopen f))); [done|]. simpl. inversion Hw; subst. pose proof (zlen_nonneg d). lia.
Qed.

Lemma refines_write_at d offset : refines_op (WriteAt d offset).
Proof.
  intros rs ub st f HR Ho%word_spec. pose proof HR as [R1 R2 R3 R4]. simpl stream_exec.
  destruct (write_stream_spec (vmo st) (fdata f) (fcap f) (Some offset) d R1 (proj1 Ho)) as (r & v' & data' & E & R & Hf & Hw & _).
  assert (write_at d offset st = (rmap snd r, mkStreams v' (opened st))) as Ew.
  { unfold write_at, sbind. rewrite (on_vmo_ok _ _ _ _ E). by destruct r as [[o c]|e|]. }
  rewrite (sdo_run _ _ _ _ _ Ew). eexists. split; [by eapply srel_vmo|by apply (file_write_at rs ub f d offset (rmap snd r))].
Qed.

Lemma refines_seek k whence offset : refines_op (Seek k whence offset).
Proof.
  intros rs ub st f HR Hk%bool_decide_eq_true. destruct Hk as [s Hs]. pose proof HR as [R1 R2 R3 R4]. pose proof (cap_word _ _ _ _ HR) as Hcap.
  pose proof Hs as Hs'. rewrite R2 in Hs'. pose proof (R4 k s Hs') as Hseek. pose proof (zlen_nonneg (fdata f)).
  set (x := origin_of whence s (fdata f) + offset). assert (0 ≤ origin_of whence s (fdata f) < 2 ^ 64) as Horig by (destruct whence; simpl; lia).
  assert (seek k whence offset st = if decide (0 ≤ x < 2 ^ 64) then (Ok x, mkStreams (vmo st) (<[k := mkStream (options s) x]> (opened st))) else (Err ZxError.INVALID_ARGS, st)) as E.
  { unfold seek. rewrite (sbind_ok _ _ _ _ _ (stream_of_ok _ _ _ Hs)), (sbind_ok _ _ _ _ _ (content_size_of_ok st)), (rp_size _ _ _ R1).
    change (match whence with SeekOrigin.Start => 0 | SeekOrigin.Current => seek_at s | SeekOrigin.End_ => zlen (fdata f) end) with (origin_of whence s (fdata f)). fold x.
    destruct (Z.leb_spec 0 offset), (Z.leb_spec (2 ^ 64) x), (Z.ltb_spec x 0), (decide (0 ≤ x < 2 ^ 64)); try lia; done. }
  simpl stream_exec. destruct (decide (0 ≤ x < 2 ^ 64)); rewrite (sdo_run _ _ _ _ _ E).
  - eexists. split; [by apply srel_set|by eapply file_seek].
  - exists f. split; [done|by eapply file_seek_out].
Qed.

Lemma refines_set_append k append : refines_op (SetAppend k append).
Proof.
  intros rs ub st f HR Hk%bool_decide_eq_true. destruct Hk as [s Hs]. pose proof HR as [R1 R2 R3 R4]. pose proof Hs as Hs'. rewrite R2 in Hs'. simpl stream_exec.
  set (o := if append then Z.lor (options s) StreamOptions.MODE_APPEND else Z.ldiff (options s) StreamOptions.MODE_APPEND).
  assert (set_append_mode k append st = (Ok tt, mkStreams (vmo st) (<[k := mkStream o (seek_at s)]> (opened st)))) as E.
  { unfold set_append_mode. by rewrite (sbind_ok _ _ _ _ _ (stream_of_ok _ _ _ Hs)). }
  rewrite (sdo_run _ _ _ _ _ E). eexists. split; [apply srel_set; [done|exact (R4 k s Hs')]|]. eapply file_set_append; [done|].
  intros i Hi. unfold o, StreamOptions.MODE_APPEND. destruct append; [rewrite Z.lor_spec|rewrite Z.ldiff_spec]; rewrite bit_testbit by done; destruct (decide (i = 2)) as [->|];
    rewrite ?bool_decide_true, ?bool_decide_false by done; simpl; by rewrite ?orb_true_r, ?orb_false_r, ?andb_false_r, ?andb_true_r.
Qed.

Lemma stream_op_refines op : refines_op op.
Proof.
  destruct op as [k s o|k n|n offset|k d append|d offset|k whence offset|k append|k|offset d|len|n];
    [|apply refines_read|apply refines_read_at|apply refines_write|apply refines_write_at|apply refines_seek|apply refines_set_append|..];
    intros rs ub st f HR Hok; pose proof HR as [R1 R2 [R3 R3'] R4].
  - simpl in Hok. apply andb_true_iff in Hok as [_ Hs%word_spec]. simpl stream_exec. eexists. split; [by apply (srel_set rs ub st f k (mkStream o s))|constructor].
  - apply bool_decide_eq_true in Hok as [s Hs]. simpl stream_exec. rewrite (sdo_run _ _ st (Ok (options s, seek_at s, zlen (fdata f))) st).
    + exists f. split; [done|]. constructor. by rewrite <-R2.
    + unfold get_info. by rewrite (sbind_ok _ _ _ _ _ (stream_of_ok _ _ _ Hs)), (sbind_ok _ _ _ _ _ (content_size_of_ok st)), (rp_size _ _ _ R1).
  - apply word_spec in Hok. destruct (write_call_spec (vmo st) (fdata f) (fcap f) offset d R1 (proj1 Hok)) as (r & v' & data' & cap' & E & R & Hf & Hp).
    rewrite R3' in Hp. eapply (refines_vmo rs ub st f); [done..|]. by constructor.
  - apply word_spec in Hok. destruct (object_set_len_spec (vmo st) (fdata f) (fcap f) len R1 Hok) as (r & v' & data' & cap' & E & R & Hf & Hp).
    rewrite R3 in Hp. eapply (refines_vmo rs ub st f); [done..|]. by constructor.
  - apply word_spec in Hok. destruct (set_stream_size_spec (vmo st) (fdata f) (fcap f) n R1 Hok) as (r & v' & data' & cap' & E & R & Hf & Hp).
    rewrite R3' in Hp. eapply (refines_vmo rs ub st f); [done..|]. by constructor.
Qed.

(** C10. Streams are files, for a memory object whose implementation has the laws of [BackingLaws]: that is shown for physical memory and
    for paged objects that are no clones and have none (see [Backings]), not for clones, nor for uncached or pinned objects, whose operations fail in other ways.
    Over every history of the operations on the streams of a memory
    object, interleaved with writes to the object and changes of its size and of the size of
    its content, results and content are those of a file: a sequence of bytes with the offsets
    of the streams into it, where reads end at the end of the file, writes extend it with
    zeros up to their offset, are cut at the capacity, and appends start at its end, whichever
    stream extended it last.  The only other failure is a lack of memory, after which a prefix
    of the data may be written. *)
Theorem stream_refines rs ub st f l st' :
  srel rs ub st f → stream_steps st l st' → ∃ f', file_steps rs ub f l f' ∧ srel rs ub st' f'.
Proof.
  intros HR Hsteps. revert f HR. induction Hsteps as [st|st op l st' Hok _ IH]; intros f HR.
  - exists f. split; [constructor|done].
  - destruct (stream_op_refines op rs ub st f HR Hok) as (f1 & HR1 & Hs). destruct (IH f1 HR1) as (f2 & Hs2 & HR2). exists f2. split; [by econstructor|done].
Qed.

(** ** Vectors of buffers *)
Lemma splice_splice off (v d data : list Z) : 0 ≤ off → splice (off + zlen v) d (splice off v data) = splice off (v ++ d) data.
Proof.
  intros Hoff. pose proof (zlen_nonneg v). pose proof (zlen_nonneg d). pose proof (zlen_nonneg data). apply znth_eq.
  - rewrite !zlen_splice, zlen_app by lia. lia.
  - intros i [Hi _]. rewrite (znth_splice (off + zlen v)), (znth_splice off v), (znth_splice off (v ++ d)), zlen_app by lia.
    destruct (decide (off + zlen v ≤ i < _)), (decide (off ≤ i < off + (zlen v + zlen d))), (decide (off ≤ i < off + zlen v)); try lia; try done;
      rewrite znth_app by lia; destruct (decide (i - off < zlen v)); try lia. f_equal. lia.
Qed.

(** Where a write of stream [s] starts. *)
Definition start_of (append : bool) (s : Stream) f : Z := if append || is_append s then zlen (fdata f) else seek_at s.
(** One write of [d] that succeeds with [c]. *)
Definition after_write k (append : bool) (s : Stream) (d : list Z) f (c : Z) f' : Prop :=
  if is_empty d then c = 0 ∧ f' = f
  else start_of append s f < fcap f ∧ start_of append s f + zlen d < 2 ^ 64 ∧ c = Z.min (zlen d) (fcap f - start_of append s f) ∧
    f' = mkFile (splice (start_of append s f) (ztake c d) (fdata f)) (fcap f) (<[k := mkStream (options s) (start_of append s f + c)]> (fopen f)).

Lemma file_write_inv rs ub f k d append c f' :
  file_step rs ub f (Write k d append) (Ok (RCount c)) f' →
  d = [] ∧ c = 0 ∧ f' = f ∨
  ∃ s data', d ≠ [] ∧ fopen f !! k = Some s ∧
    file_written (too_big (if append || is_append s then None else Some (seek_at s))) (start_of append s f) d (fdata f) (fcap f) (Ok c) data' ∧
    f' = mkFile data' (fcap f) (<[k := mkStream (options s) (start_of append s f + c)]> (fopen f)).
Proof.
  intros Hstep. remember (Write k d append) as op eqn:Eop. remember (Ok (RCount c)) as r eqn:Er. destruct Hstep; try done.
  - injection Eop as <- <- <-. injection Er as <-. by left.
  - injection Eop as -> -> ->. match goal with Hw : file_written _ _ _ _ _ ?x _ |- _ => destruct x as [c'|e|]; [|done|done] end. injection Er as ->. right. subst.
    eexists s, data'. assert (default (zlen (fdata f)) (if append || is_append s then None else Some (seek_at s)) = start_of append s f) as Eoff.
    { unfold start_of. by destruct (append || is_append s). }
    rewrite Eoff in *. done.
Qed.

Lemma write_succeeds rs ub st f k s d append c st' :
  srel rs ub st f → opened st !! k = Some s → write k d append st = (Ok c, st') → ∃ f', srel rs ub st' f' ∧ after_write k append s d f c f'.
Proof.
  intros HR Hs E. pose proof (refines_write k d append rs ub st f HR) as Hr. simpl op_ok in Hr. rewrite bool_decide_true in Hr by (by exists s).
  simpl stream_exec in Hr. rewrite (sdo_run _ _ _ _ _ E) in Hr. destruct (Hr eq_refl) as (f' & HR' & Hstep). simpl in *. rewrite (sr_open _ _ _ _ HR) in Hs.
  exists f'. split; [done|]. unfold after_write. destruct (file_write_inv _ _ _ _ _ _ _ _ Hstep) as [(-> & -> & ->)|(s' & data' & Hd & Hk & Hw & ->)]; [done|].
  destruct d as [|x d]; [done|]. cbn [is_empty]. rewrite Hs in Hk. injection Hk as <-. inversion Hw; subst. done.
Qed.

(** Two writes in a row are one write of both. *)
Lemma after_write_app k append s v d f c1 f1 s1 c2 f2 :
  0 ≤ seek_at s → fopen f !! k = Some s → fcap f < 2 ^ 64 → after_write k append s v f c1 f1 →
  fopen f1 !! k = Some s1 → after_write k append s1 d f1 c2 f2 → after_write k append s (v ++ d) f (c1 +u c2) f2.
Proof.
  intros Hseek Hs Hcap H1 Hs1 H2. unfold after_write in H1. pose proof (zlen_nonneg (fdata f)) as Hdata. pose proof (zlen_nonneg d) as Hd.
  assert (0 ≤ start_of append s f) as Hstart by (unfold start_of; destruct (append || is_append s); lia). destruct (is_empty v) eqn:Ev.
  { destruct v; [|done]. destruct H1 as [-> ->]. rewrite Hs in Hs1. injection Hs1 as <-. simpl. rewrite wadd_small; [done|]. unfold after_write in H2.
    destruct (is_empty d); [by destruct H2 as [-> _]|]. destruct H2 as (? & ? & -> & _). unfold fits. lia. }
  destruct H1 as (Hlt & Hfit & -> & ->). simpl in Hs1. rewrite lookup_insert_eq in Hs1. injection Hs1 as <-. unfold after_write in *.
  assert (is_empty (v ++ d) = false) as -> by (by destruct v). set (off := start_of append s f) in *. set (c1 := Z.min (zlen v) (fcap f - off)) in *.
  assert (start_of append (mkStream (options s) (off + c1)) (mkFile (splice off (ztake c1 v) (fdata f)) (fcap f) (<[k := mkStream (options s) (off + c1)]> (fopen f))) = off + c1) as Est.
  { assert (append || is_append s = true → off = zlen (fdata f)) as Hoff by (unfold off, start_of; by intros ->). clearbody off. unfold start_of.
    change (is_append (mkStream (options s) (off + c1))) with (is_append s). destruct (append || is_append s); [|done]. specialize (Hoff eq_refl). simpl.
    pose proof (zlen_nonneg v). rewrite zlen_splice, zlen_ztake by lia. unfold c1. lia. }
  rewrite Est in H2. simpl fcap in H2. simpl fdata in H2. simpl fopen in H2. rewrite zlen_app. pose proof (zlen_nonneg v) as Hv. destruct (is_empty d) eqn:Ed.
  - destruct d; [|done]. destruct H2 as [-> ->]. rewrite app_nil_r, zlen_nil, wadd_small, !Z.add_0_r by (unfold fits; lia). done.
  - destruct H2 as (Hlt2 & Hfit2 & -> & ->). assert (c1 = zlen v) as Ec1 by lia. clearbody off c1. subst c1. rewrite wadd_small by (unfold fits; lia).
    assert (zlen v + Z.min (zlen d) (fcap f - (off + zlen v)) = Z.min (zlen v + zlen d) (fcap f - off)) as Emin by lia. rewrite Emin.
    split; [done|]. split; [lia|]. split; [done|]. rewrite insert_insert_eq. simpl. f_equal; [|do 2 f_equal; lia]. rewrite (ztake_all _ v) by lia. rewrite splice_splice by lia.
    f_equal. unfold ztake, zlen in *. rewrite take_app_ge by lia. f_equal. f_equal. lia.
Qed.

(** If all buffers are written, this is one write of their concatenation. *)
Lemma writev_loop_spec rs ub k append vec st f s c st' :
  srel rs ub st f → opened st !! k = Some s → writev_loop k vec append st = (Ok c, st') →
  ∃ f', srel rs ub st' f' ∧ after_write k append s (concat vec) f c f'.
Proof.
  revert st f s c. induction vec as [|v vec IH]; intros st f s c HR Hs; cbn [writev_loop].
  { intros [= <- <-]. by exists f. }
  unfold sbind at 1. destruct (write k v append st) as [[c1|e|] st1] eqn:E1; [|done|done]. unfold sbind. destruct (writev_loop k vec append st1) as [[c2|e|] st2] eqn:E2; [|done|done].
  intros [= <- <-]. destruct (write_succeeds rs ub st f k s v append c1 st1 HR Hs E1) as (f1 & HR1 & H1).
  rewrite (sr_open _ _ _ _ HR) in Hs. assert (∃ s1, fopen f1 !! k = Some s1) as [s1 Hs1].
  { unfold after_write in H1. destruct (is_empty v); [destruct H1 as [_ ->]; eauto|]. destruct H1 as (_ & _ & _ & ->). simpl. rewrite lookup_insert_eq. eauto. }
  pose proof Hs1 as Hs1'. rewrite <-(sr_open _ _ _ _ HR1) in Hs1'. destruct (IH st1 f1 s1 c2 HR1 Hs1' E2) as (f2 & HR2 & H2). exists f2. split; [done|].
  destruct (cap_word _ _ _ _ HR). destruct (sr_seek _ _ _ _ HR k s Hs). by apply (after_write_app k append s v (concat vec) f c1 f1 s1 c2 f2).
Qed.

(** Reads into several buffers fill them one after the other. *)
Lemma ztake_ztake_app {A} (n m : Z) (l : list A) : 0 ≤ n → 0 ≤ m → ztake n l ++ ztake m (zdrop (zlen (ztake n l)) l) = ztake (n + m) l.
Proof.
  intros Hn Hm. unfold ztake, zdrop, zlen. rewrite Nat2Z.id, Z2Nat.inj_add, length_take by done.
  destruct (decide (Z.to_nat n ≤ length l)%nat).
  - rewrite Nat.min_l by done. apply take_take_drop.
  - rewrite Nat.min_r, drop_all, take_nil, app_nil_r by lia. by rewrite !take_ge by lia.
Qed.

Lemma readv_loop_spec rs ub k vec st f s :
  srel rs ub st f → opened st !! k = Some s → Forall (λ n, 0 ≤ n < 2 ^ 64) vec →
  ∃ bufs st' f', readv_loop k vec st = (Ok bufs, st') ∧ srel rs ub st' f' ∧ concat bufs = ztake (foldr Z.add 0 vec) (zdrop (seek_at s) (fdata f)) ∧
    Forall2 (λ b n, zlen b ≤ n) bufs vec ∧ fdata f' = fdata f ∧ fcap f' = fcap f ∧
    fopen f' = <[k := mkStream (options s) (seek_at s + zlen (concat bufs))]> (fopen f).
Proof.
  intros HR Hs Hvec. revert st f s HR Hs. induction Hvec as [|n vec Hn Hvec IH]; intros st f s HR Hs; rewrite (sr_open _ _ _ _ HR) in Hs.
  { exists [], st, f. split; [done|]. split; [done|]. split; [done|]. split; [constructor|]. split; [done|]. split; [done|].
    simpl. rewrite zlen_nil, Z.add_0_r. destruct s. by rewrite insert_id. }
  destruct (sr_seek _ _ _ _ HR k s Hs) as [Hseek Hseek']. destruct (read_at_spec rs ub st f n (seek_at s) HR) as (v' & E & R & Hf); [lia|lia|].
  set (b1 := ztake n (zdrop (seek_at s) (fdata f))) in *. pose proof (cap_word _ _ _ _ HR) as Hcap. pose proof (zlen_nonneg (fdata f)) as Hdata.
  assert (0 ≤ zlen b1 ∧ zlen b1 ≤ n ∧ seek_at s + zlen b1 < 2 ^ 64) as (Hb0 & Hbn & Hb1).
  { unfold b1. rewrite zlen_ztake, zlen_zdrop by lia. split_and!; lia. }
  set (s1 := mkStream (options s) (seek_at s + zlen b1)). set (st1 := mkStreams v' (<[k := s1]> (opened st))).
  assert (read k n st = (Ok b1, st1)) as Er.
  { unfold read. rewrite (sbind_ok _ _ st s st) by (apply stream_of_ok; by rewrite (sr_open _ _ _ _ HR)). rewrite (sbind_ok _ _ _ _ _ E), wadd_small by (unfold fits; lia). done. }
  assert (srel rs ub st1 (mkFile (fdata f) (fcap f) (<[k := s1]> (fopen f)))) as HR1.
  { by apply (srel_set rs ub (mkStreams v' (opened st)) (mkFile (fdata f) (fcap f) (fopen f))); [eapply srel_vmo|simpl; lia]. }
  destruct (IH st1 _ s1 HR1) as (bufs & st2 & f2 & E2 & HR2 & Hc & Hall & Hd & Hcap2 & Ho); [simpl; by rewrite lookup_insert_eq|].
  exists (b1 :: bufs), st2, f2. simpl in Hc, Hd, Hcap2, Ho. split; [cbn [readv_loop]; by rewrite (sbind_ok _ _ _ _ _ Er), (sbind_ok _ _ _ _ _ E2)|].
  split; [done|]. split; [|split; [by constructor|split; [done|split; [done|]]]].
  - simpl. rewrite Hc. unfold b1 at 1. assert (zdrop (seek_at s + zlen b1) (fdata f) = zdrop (zlen b1) (zdrop (seek_at s) (fdata f))) as ->.
    { unfold zdrop. rewrite drop_drop. f_equal. rewrite Z2Nat.inj_add by lia. done. }
    unfold b1. apply ztake_ztake_app; [lia|]. clear -Hvec. induction Hvec; simpl; lia.
  - rewrite Ho, insert_insert_eq. simpl. rewrite zlen_app. do 2 f_equal. lia.
Qed.

(** A vector that [sys_stream_writev] accepts as a whole is written as one write of the
    concatenation of its buffers: at the offset of the stream or, if it appends, at the end of
    the content; the stream was opened for writing, and only its offset moves. *)
Theorem sys_stream_writev_exact rs ub st f t h opts vec c st' :
  srel rs ub st f → (∀ o, get_object_with_rights STREAM h Rights.WRITE t = Ok o → is_Some (opened st !! stream_number o)) →
  sys_stream_writev h opts (Ok vec) (Ok tt) t st = (Ok c, st') →
  ∃ o s f', get_object_with_rights STREAM h Rights.WRITE t = Ok o ∧ opened st !! stream_number o = Some s ∧ srel rs ub st' f' ∧
    after_write (stream_number o) (contains opts 1) s (concat vec) f c f'.
Proof.
  intros HR Hopen. unfold sys_stream_writev. unfold sbind at 1. unfold lift at 1. destruct (from_bits 1 opts) as [opts'|] eqn:Eo; [|done]. apply from_bits_Some in Eo as [-> _]. simpl ok_or.
  cbv iota. unfold handle_stream. unfold sbind at 1 2. unfold lift at 1. destruct (get_object_with_rights STREAM h Rights.WRITE t) as [o|e|]; [|done|done].
  destruct (Hopen o eq_refl) as [s Hs]. unfold sret at 1. rewrite (sbind_ok (lift (Ok vec)) _ st vec st) by done.
  unfold sbind at 1. assert (snd (check_write_size (stream_number o) (total vec) (contains opts 1) None st) = st) as Hst.
  { unfold check_write_size. destruct (total vec =? 0); [done|]. rewrite (sbind_ok _ _ _ _ _ (stream_of_ok _ _ _ Hs)), (sbind_ok _ _ _ _ _ (content_size_of_ok st)). by destruct (2 ^ 64 <=? _). }
  destruct (check_write_size (stream_number o) (total vec) (contains opts 1) None st) as [[[]|e|] st1]; [|done|done]. simpl in Hst. subst st1.
  rewrite (sbind_ok (lift (Ok tt)) _ st tt st) by done. intros E. destruct (writev_loop_spec rs ub _ _ vec st f s c st' HR Hs E) as (f' & HR' & Hw). by exists o, s, f'.
Qed.
End refinement.
