(* ===== verification/Backings.v ===== *)
(** * Memory objects behind [VmObject]

    The two implementations of the interface that [VmObject] and the streams use: physical
    memory and slices of it ([Vmo]), and paged objects without a parent ([Paged]).  Then
    concrete streams, and histories that show where the vector calls fail. *)

From stdpp Require Import gmap.
From S2P Require Import Prelude Errors KObject Rights Handles PageTable Vmo Paged PagedProps PagedRoot PagedSpec VmObject Stream.
From stdpp Require Import options.
#[local] Open Scope Z_scope.

(** ** Physical memory and slices
    [set_len] is [unimplemented!]. *)
Section physical.
Context (o : VMObject).
Definition run_ram {A} (c : ram → ZxResult A) (k : A → ram → ram) (g : A → unit) : SM ram unit := λ m,
  match c m with Ok x => (Ok (g x), k x m) | Err e => (Err e, m) | Panic => (Panic, m) end.

Definition physical_backing : Backing ram := {|
  bk_len _ := vmo_len o;
  bk_read off n m := (vmo_read o off n m, m);
  bk_write off d := run_ram (vmo_write o off d) (λ m' _, m') (λ _, tt);
  bk_zero off n := run_ram (vmo_zero o off n) (λ m' _, m') (λ _, tt);
  bk_set_len _ := spanic
|}.
#[local] Existing Instance physical_backing.

Lemma vmo_zero_at off n m : vmo_wf o → 0 ≤ off → 0 ≤ n → off + n ≤ vmo_len o → vmo_zero o off n m = Ok (pmem_zero (vmo_base o + off) n m).
Proof.
  intros Hw. revert off. clear -Hw. revert Hw. induction o as [paddr pages p|o' IH off' size]; intros Hw off Ho Hn Hl; destruct (vmo_bounds _ Hw) as (H1 & _ & _ & H4).
  - cbn [vmo_zero vmo_base] in *. rewrite (wadd_small 64 off) by (unfold fits; lia). destruct (Z.ltb_spec (vmo_len (VMObjectPhysical paddr pages p)) (off + n)); [lia|].
    by rewrite wadd_small by (unfold fits; lia).
  - simpl in *. destruct Hw as (Hw & H5 & _ & H6 & _ & H7). destruct (vmo_bounds _ Hw) as (H8 & _ & _ & H9).
    unfold check_range. bcase; simpl; try lia. rewrite wadd_small by (unfold fits; lia). rewrite IH by (done || lia). do 2 f_equal. lia.
Qed.

Definition physical_byte (m : ram) (a : Z) : Z := byte m (vmo_base o + a).

Lemma physical_write m off d a : 0 ≤ off → 
  byte (pmem_write (vmo_base o + off) d m) (vmo_base o + a) = if decide (off ≤ a < off + zlen d) then znth d (a - off) else byte m (vmo_base o + a).
Proof.
  intros Ho. rewrite byte_write. destruct (decide (_ ≤ vmo_base o + a < _)), (decide (off ≤ a < _)); try lia.
  unfold znth. destruct (Z.ltb_spec (a - off) 0); [lia|]. f_equal. lia.
Qed.

Definition physical_laws (Hw : vmo_wf o) : BackingLaws ram.
Proof.
  refine (Build_BackingLaws ram physical_backing (λ _, True) physical_byte False _ _ _ _ _).
  - intros m _. destruct (vmo_bounds o Hw) as (? & _ & ? & ?). simpl. lia.
  - intros m off n _ Ho Hn Hl. simpl in *. exists m. rewrite vmo_read_at by done. split; [|done]. do 2 f_equal. unfold pmem_read, physical_byte.
    apply list_eq. intros i. rewrite !list_lookup_fmap. destruct (decide (Z.of_nat i < n)).
    + rewrite !lookup_seqZ_lt by lia. simpl. do 2 f_equal. lia.
    + by rewrite !lookup_seqZ_ge by lia.
  - intros m off d _ Ho Hl. simpl in *. exists (Ok tt), (pmem_write (vmo_base o + off) d m), (off + zlen d). unfold run_ram. rewrite vmo_write_at by done.
    pose proof (zlen_nonneg d). split_and!; [done|done|done|lia|lia| |done]. intros a Ha. by apply physical_write.
  - intros m off n _ Ho Hn Hl. simpl in *. exists (Ok tt), (pmem_zero (vmo_base o + off) n m), (off + n). unfold run_ram. rewrite vmo_zero_at by done.
    split_and!; [done|done|done|lia|lia| |done]. intros a Ha. unfold physical_byte, pmem_zero. change (replicate (Z.to_nat n) 0) with (zeros n). rewrite physical_write, zlen_zeros, znth_zeros by done.
    by rewrite Z.max_r by lia.
  - done.
Defined.
End physical.

(** ** Paged objects *)
Section paged.
Context `{FrameAllocator} (n : nat).
Definition paged_backing : Backing heap := {|
  bk_len st := match objs st !! n with Some o => size o | None => 0 end;
  bk_read off w := Paged.read n off w;
  bk_write off d := Paged.write n off d;
  bk_zero off w := Paged.zero n off w;
  bk_set_len len := Paged.set_len n len
|}.
#[local] Existing Instance paged_backing.
Definition paged_ok (st : heap) : Prop := ∃ rk o, wf rk st ∧ leaf (objs st) n o ∧ parent o = None.

Lemma paged_len st o : leaf (objs st) n o → bk_len st = size o.
Proof. intros [Hn _]. destruct (get_obj _ _ _ Hn) as (o' & E & ->). simpl. by rewrite E. Qed.

Lemma paged_wrote st st' rk o lo hi data : wf rk st' → leaf (objs st) n o → parent o = None → wrote st st' n lo hi data →
  paged_ok st' ∧ bk_len st' = size o ∧ ∀ a, 0 ≤ a < size o → content st' n a = if decide (lo ≤ a < hi) then data a else content st n a.
Proof.
  intros Hw Hl Hp Hwr. pose proof (leaf_same _ _ n o (w_same _ _ _ _ _ _ Hwr) Hl) as Hl'. split; [by exists rk, o|]. split; [by apply paged_len|].
  intros a Ha. rewrite (w_bytes _ _ _ _ _ _ Hwr n o a Hl Ha). destruct (decide (n = n ∧ _)), (decide _); (done || naive_solver).
Qed.

Definition paged_laws : BackingLaws heap.
Proof.
  refine (Build_BackingLaws heap paged_backing paged_ok (λ st, content st n) True _ _ _ _ _).
  - intros st (rk & o & (Hs & _) & Hl & _). rewrite (paged_len st o Hl). by apply (s_size _ _ _ _ Hs n o (proj1 Hl)).
  - intros st off w (rk & o & Hwf & Hl & Hp) Ho Hw Hle. rewrite (paged_len st o Hl) in *. destruct (read_spec rk st n o off w Hwf Hl Ho Hw Hle) as (st' & E & Hw' & Hk).
    exists st'. split; [done|]. pose proof (leaf_same _ _ n o (proj1 Hk) Hl) as Hl'. split; [by exists rk, o|]. split; [by apply paged_len|].
    intros a Ha. by apply (content_keeps st st' n o).
  - intros st off d (rk & o & Hwf & Hl & Hp) Ho Hle. rewrite (paged_len st o Hl) in *. destruct (write_spec rk st n o off d Hwf Hl Ho Hle) as (Hw' & mid & Hmid & Hwr & Hres).
    change (bk_write off d st) with (Paged.write n off d st). destruct (Paged.write n off d st) as [r st']. simpl in Hres.
    destruct (paged_wrote st st' rk o off mid _ Hw' Hl Hp Hwr) as (Hok & Hlen & Hb). exists r, st', mid. split_and!; [done|done|done|lia|lia| |by destruct r; [|destruct Hres|]].
    intros a Ha. rewrite Hb by done. destruct (decide _); [|done]. unfold data_at, znth. destruct (Z.ltb_spec (a - off) 0); [lia|done].
  - intros st off w (rk & o & Hwf & Hl & Hp) Ho Hw Hle. rewrite (paged_len st o Hl) in *. destruct (zero_spec rk st n o off w Hwf Hl Hp Ho Hw Hle) as (Hw' & mid & Hmid & Hwr & Hres).
    change (bk_zero off w st) with (Paged.zero n off w st). destruct (Paged.zero n off w st) as [r st']. simpl in Hres.
    destruct (paged_wrote st st' rk o off mid _ Hw' Hl Hp Hwr) as (Hok & Hlen & Hb). exists r, st', mid. by split_and!; [done|done|done|lia|lia| |destruct r; [|destruct Hres|]].
  - intros st len _ (rk & o & Hwf & Hl & Hp) Hlen Hm. destruct (set_len_spec rk st n o len Hwf Hl Hp Hlen Hm) as (st' & E & R). exists st'. split; [done|].
    destruct (z_here _ _ _ _ _ _ R) as (o2 & Hl2 & Esz & Hp2). split; [exists rk, o2; split; [apply R|done]|]. rewrite (paged_len st' o2 Hl2), (paged_len st o Hl).
    split; [done|]. apply R.
Defined.

(** A new object is a file of zeros. *)
Lemma new_paged_represents rs ub count content fs z mm st :
  machine_ok fs z mm → 0 ≤ count → count * PAGE_SIZE < 2 ^ 64 → 0 ≤ content ≤ count * PAGE_SIZE → Paged.new count (heap_init fs z mm) = (Ok n, st) →
  @represents heap paged_backing paged_laws (mkVmObject rs ub content st) (zeros content) (count * PAGE_SIZE).
Proof.
  intros Hm H1 H2 Hc E. destruct (new_spec _ (heap_init fs z mm) count (init_wf fs z mm Hm) H1 H2) as (st' & rk' & co & E' & Hw' & Hl & Esz & Hp & Hz & _).
  rewrite E in E'. injection E' as En <-. change (n = next_obj (heap_init fs z mm)) in En. rewrite <-En in Hl, Hz. split; simpl.
  - by exists rk', co.
  - change (count * PAGE_SIZE = @bk_len heap paged_backing st). by rewrite (paged_len st co Hl).
  - rewrite zlen_zeros. lia.
  - rewrite zlen_zeros. lia.
  - intros i Hi. rewrite znth_zeros. apply Hz.
  - done.
Qed.
End paged.

(** ** Concrete streams
    Two streams of a resizable paged object of one page, one of which appends. *)
Module StreamDemo.
Import PagedDemo.
#[local] Existing Instance fifo_frames.
#[local] Instance backing : Backing heap := paged_backing 0.
#[local] Instance laws : BackingLaws heap := paged_laws 0.

Definition heap1 : heap := (Paged.new 1 boot).2.
Definition start : streams heap := mkStreams (mkVmObject true false 0 heap1) ∅.
Definition start_file : file := mkFile [] 0x1000 ∅.

Lemma heap1_new : Paged.new 1 (heap_init frames0 0x1000 ∅) = (Ok 0%nat, heap1).
Proof. vm_compute. reflexivity. Qed.
Lemma heap1_represents : represents (mkVmObject true false 0 heap1) [] 0x1000.
Proof. refine (new_paged_represents 0 true false 1 0 frames0 0x1000 ∅ heap1 frames0_ok _ _ _ heap1_new); [lia|done|done]. Qed.
Lemma start_rel : srel true false start start_file.
Proof. split; [exact heap1_represents| | |]; done. Qed.

Definition ops : list stream_op :=
  [Create 0 0 3; Create 1 0 7; Write 0 [1; 2; 3] false; Write 1 [4; 5] false; Seek 0 SeekOrigin.End_ 2; Write 0 [6] false; ReadAt 10 0;
   Seek 0 SeekOrigin.Start 1; Read 0 3; SetStreamSize 2; SetStreamSize 4; ReadAt 10 0; SetLen 0x2000; WriteAt [7] 0x1001; Info 0; SetAppend 1 false; Write 1 [8] false; ReadAt 8 0;
   Seek 1 SeekOrigin.Current (-100); WriteAt [1] 0x2000].

Fixpoint history (st : streams heap) (l : list stream_op) : list (stream_op * ZxResult stream_ret) * streams heap :=
  match l with [] => ([], st) | op :: l => let '(r, st') := history (stream_exec op st).2 l in ((op, (stream_exec op st).1) :: r, st') end.
Fixpoint all_ok (st : streams heap) (l : list stream_op) : bool :=
  match l with [] => true | op :: l => Stream.op_ok st op && all_ok (stream_exec op st).2 l end.

Lemma history_stream_steps st l : all_ok st l = true → stream_steps st (history st l).1 (history st l).2.
Proof.
  revert st. induction l as [|op l IH]; intros st; simpl; [constructor|]. rewrite andb_true_iff. intros [H1 H2%IH].
  destruct (history (stream_exec op st).2 l) as [r st']. by constructor.
Qed.

Lemma stream_refines_witness :
  ∃ f', file_steps true false start_file (history start ops).1 f' ∧ srel true false (history start ops).2 f'.
Proof. apply (stream_refines true false start start_file); [exact start_rel|]. apply history_stream_steps. vm_compute. reflexivity. Defined.

Lemma ops_returns : (history start ops).1.*2 =
  [Ok RUnit; Ok RUnit; Ok (RCount 3); Ok (RCount 2); Ok (RCount 7); Ok (RCount 1); Ok (RBytes [1; 2; 3; 4; 5; 0; 0; 6]);
   Ok (RCount 1); Ok (RBytes [2; 3; 4]); Ok RUnit; Ok RUnit; Ok (RBytes [1; 2; 0; 0]); Ok RUnit;
   Ok (RCount 1); Ok (RInfo (3, 4, 4098)); Ok RUnit; Ok (RCount 1); Ok (RBytes [1; 2; 0; 0; 0; 8; 0; 0]);
   Err ZxError.INVALID_ARGS; Err ZxError.OUT_OF_RANGE].
Proof. vm_compute. reflexivity. Qed.

(** One stream for reading and writing, and a table with its handle. *)
Definition one_open : streams heap := mkStreams (mkVmObject true false 0 heap1) {[0%nat := mkStream 3 0]}.
Definition one_file : file := mkFile [] 0x1000 {[0%nat := mkStream 3 0]}.
Definition table1 : HandleTable := (add_handle (mkHandle (mkKernelObject 0 STREAM 0) (Z.lor Rights.READ Rights.WRITE)) empty_table).2.

Lemma one_rel : srel true false one_open one_file.
Proof.
  split; [exact heap1_represents|done|done|]. intros k s. cbn [fopen one_file]. rewrite lookup_singleton_Some. intros [_ <-]. simpl. lia.
Qed.

Lemma sys_stream_writev_exact_witness : ∃ o s f' st',
  sys_stream_writev 3 1 (Ok [[1; 2]; []; [3]]) (Ok tt) table1 one_open = (Ok 3, st') ∧
  get_object_with_rights STREAM 3 Rights.WRITE table1 = Ok o ∧ opened one_open !! stream_number o = Some s ∧ srel true false st' f' ∧
    after_write (stream_number o) true s (concat [[1; 2]; []; [3]]) one_file 3 f'.
Proof.
  destruct (sys_stream_writev 3 1 (Ok [[1; 2]; []; [3]]) (Ok tt) table1 one_open) as [r st'] eqn:E.
  assert (r = Ok 3) as -> by (replace r with (sys_stream_writev 3 1 (Ok [[1; 2]; []; [3]]) (Ok tt) table1 one_open).1 by (by rewrite E); vm_compute; reflexivity).
  destruct (sys_stream_writev_exact true false one_open one_file table1 3 1 [[1; 2]; []; [3]] 3 st' one_rel) as (o & s & f' & H); [|exact E|by exists o, s, f', st'].
  intros o. vm_compute. intros [= <-]. by eexists.
Defined.

(** The second buffer does not fit: the call fails although the first one was written, and
    its caller does not learn how much was. *)
Lemma writev_loses_count : ∃ st',
  sys_stream_writev 3 0 (Ok [[7]; [8]]) (Ok tt) table1 (mkStreams (vmo one_open) {[0%nat := mkStream 3 0xfff]}) = (Err ZxError.OUT_OF_RANGE, st') ∧
  (read_at 1 0xfff st').1 = Ok [7].
Proof.
  destruct (sys_stream_writev 3 0 (Ok [[7]; [8]]) (Ok tt) table1 (mkStreams (vmo one_open) {[0%nat := mkStream 3 0xfff]})) as [r st'] eqn:E.
  exists st'. pose proof (f_equal fst E) as E1. pose proof (f_equal snd E) as E2. cbn [fst snd] in E1, E2. rewrite <-E1, <-E2. clear. split; [f_equal|]; vm_compute; reflexivity.
Qed.

(** The offset wraps: the second buffer gets the start of the stream. *)
Lemma readv_at_wraps : (sys_stream_readv_at 3 0 (2 ^ 64 - 1) (Ok [1; 2]) (Ok tt) table1 (write 0 [5; 6] false one_open).2).1 = Ok [[]; [5; 6]].
Proof. vm_compute. reflexivity. Qed.
End StreamDemo.
