(* ===== verification/Exception.v ===== *)
(** * Exceptions

    [zircon-object/src/task/exception.rs], [Thread::handle_exception] and
    [zircon-syscall/src/exception.rs]: a thread that raises an exception offers it to the
    exception channels of its debugger, itself, its process and its jobs, one after the other,
    until a handler closes the exception object with its state set to handled.

    The handlers are other threads, and any number of exceptions are handled at the same time.
    The state is therefore advanced by single steps: an operation of a handler, or one step of
    the thread that waits in [Exception::handle_with]. *)

From stdpp Require Import gmap.
From S2P Require Import Prelude Errors KObject Peer Channel Rights Handles.
From stdpp Require Import options.
#[local] Open Scope Z_scope.

Module ExceptionType.
Inductive t := General | FatalPageFault | UndefinedInstruction | SoftwareBreakpoint | HardwareBreakpoint | UnalignedAccess
| Synth | ThreadStarting | ThreadExiting | PolicyError | ProcessStarting.
Definition code (x : t) : Z :=
  match x with
  | General => 0x008 | FatalPageFault => 0x108 | UndefinedInstruction => 0x208 | SoftwareBreakpoint => 0x308
  | HardwareBreakpoint => 0x408 | UnalignedAccess => 0x508
  | Synth => 0x8000 | ThreadStarting => 0x8008 | ThreadExiting => 0x8108 | PolicyError => 0x8208 | ProcessStarting => 0x8308
  end.
Definition is_synth (x : t) : bool := negb (Z.land (code x) (code Synth) =? 0).
#[global] Instance eq_dec : EqDecision t.
Proof. solve_decision. Defined.
End ExceptionType.

Module ExceptionChannelType.
Inductive t := None_ | Debugger | Thread | Process | Job | JobDebugger.
Definition code (x : t) : Z := match x with None_ => 0 | Debugger => 1 | Thread => 2 | Process => 3 | Job => 4 | JobDebugger => 5 end.
#[global] Instance eq_dec : EqDecision t.
Proof. solve_decision. Defined.
End ExceptionChannelType.

(** The exceptionates, by the task that owns them. *)
Inductive ExId := XThread (t : Z) | XProcess (p : Z) | XDebugger (p : Z) | XJob (j : Z) | XJobDebugger (j : Z).
#[export] Instance ExId_eq_dec : EqDecision ExId.
Proof. solve_decision. Defined.
#[export] Instance ExId_countable : Countable ExId.
Proof.
  refine (inj_countable' (λ x, match x with XThread t => (0, t) | XProcess p => (1, p) | XDebugger p => (2, p) | XJob j => (3, j) | XJobDebugger j => (4, j) end)
    (λ '(k, n), match k with 0 => XThread n | 1 => XProcess n | 2 => XDebugger n | 3 => XJob n | _ => XJobDebugger n end) _).
  by intros [].
Defined.
(** The [type_] with which the task creates its exceptionate. *)
Definition type_of (x : ExId) : ExceptionChannelType.t :=
  match x with
  | XThread _ => ExceptionChannelType.Thread | XProcess _ => ExceptionChannelType.Process | XDebugger _ => ExceptionChannelType.Debugger
  | XJob _ => ExceptionChannelType.Job | XJobDebugger _ => ExceptionChannelType.JobDebugger
  end.

(** [Bind] holds the kernel's end of channel [c]. *)
Inductive ExceptionateInner := Init | Bind (c : nat) (rights : Z) | Shutdown.

(** ** Reports *)
Record ExceptionInfo := mkExceptionInfo { pid : Z; tid : Z; info_type : ExceptionType.t }.
Definition pack (i : ExceptionInfo) : list Z := le_bytes 8 (pid i) ++ le_bytes 8 (tid i) ++ le_bytes 4 (ExceptionType.code (info_type i)) ++ le_bytes 4 0.

(** The x86-64 context of a page fault. *)
Record ExceptionContext := mkExceptionContext { vector : Z; err_code : Z; cr2 : Z; synth_code : Z; synth_data : Z }.
Record ExceptionReport := mkExceptionReport { report_size : Z; report_type : ExceptionType.t; context : ExceptionContext }.
Record ExceptionReportV1 := mkExceptionReportV1 { size_v1 : Z; type_v1 : ExceptionType.t; context_v1 : Z * Z * Z }.
Definition no_context : ExceptionContext := mkExceptionContext 0 0 0 0 0.
(** [from_user_context]: [fault] is the faulting address if the trap was a page fault. *)
Definition from_user_context (fault : option Z) (raw_trap_reason error_code : Z) : ExceptionContext :=
  match fault with
  | None => no_context
  | Some vaddr => mkExceptionContext raw_trap_reason error_code vaddr (wrap 32 (ZxError.as_i32 ZxError.ACCESS_DENIED)) 0
  end.
Definition report_new (ty : ExceptionType.t) (cx : option (option Z * Z * Z)) : ExceptionReport :=
  mkExceptionReport 40 ty (match cx with Some (fault, raw, err) => from_user_context fault raw err | None => no_context end).
Definition as_v1 (r : ExceptionReport) : ExceptionReportV1 :=
  mkExceptionReportV1 32 (report_type r) (vector (context r), err_code (context r), cr2 (context r)).

(** ** Exceptions and their handling *)
Record Exception := mkException { thread : Z; ex_type : ExceptionType.t; current : ExceptionChannelType.t; handled : bool; second_chance : bool }.
(** An exception object; it is open until its last reference goes. *)
Record ExceptionObject := mkExceptionObject { exn : nat; task_rights : Z; is_open : bool }.

(** [ExceptionateIteratorState]; then the three iterators that [handle] uses. *)
Inductive IterState := Debug (second : bool) | IThread | IProcess | IJob (j : Z) | Finished.
Inductive iter := Exceptionates (s : IterState) | JobDebuggers (job : option Z) | Only (x : option ExId).
#[export] Instance IterState_eq_dec : EqDecision IterState.
Proof. solve_decision. Defined.
#[export] Instance iter_eq_dec : EqDecision iter.
Proof. solve_decision. Defined.

(** Where the thread is in [handle_exception]: [Loop] asks the iterator for the next
    exceptionate, [Offered] has sent the exception and not yet recorded the type of the channel,
    [Awaiting] waits for the object to be closed; [Exiting] is the wait of a thread that exits. *)
Inductive pc :=
| Loop (it : iter) (first_only : bool)
| Offered (x : ExId) (o : nat) (it : iter) (first_only : bool)
| Awaiting (x : ExId) (o : nat) (it : iter) (first_only : bool)
| Exiting (o : nat)
| Returned (r : ZxResult unit)
| Ended (r : ZxResult unit)
| Killed (o : option nat).

Abbreviation channel_pair := (channels unit (nat * Z)).
Record world := mkWorld {
  exceptionates : gmap ExId ExceptionateInner;
  chans : list channel_pair;
  objects : list ExceptionObject;
  held : gset nat;
  exns : list (Exception * pc);
  exited : gset Z
}.
Definition init : world := mkWorld ∅ [] [] ∅ [] ∅.

Definition inner_of (x : ExId) (w : world) : ExceptionateInner := default Init (exceptionates w !! x).
Definition with_chans cs (w : world) : world := mkWorld (exceptionates w) cs (objects w) (held w) (exns w) (exited w).
Definition with_objects os (w : world) : world := mkWorld (exceptionates w) (chans w) os (held w) (exns w) (exited w).
Definition with_held h (w : world) : world := mkWorld (exceptionates w) (chans w) (objects w) h (exns w) (exited w).
Definition with_exns es (w : world) : world := mkWorld (exceptionates w) (chans w) (objects w) (held w) es (exited w).
Definition set_exn (e : nat) (x : Exception) (c : pc) (w : world) : world := with_exns (<[e := (x, c)]> (exns w)) w.

(** ** Exceptionates *)
Definition peer_alive (c : nat) (w : world) : bool :=
  match chans w !! c with Some ch => negb (Channel.peer_closed E0 ch) | None => false end.
(** [*inner = new]: the channel that was bound is dropped. *)
Definition set_inner (x : ExId) (new : ExceptionateInner) (w : world) : world :=
  let cs := match inner_of x w with Bind c _ => alter (Channel.drop_end E0) c (chans w) | _ => chans w end in
  mkWorld (<[x := new]> (exceptionates w)) cs (objects w) (held w) (exns w) (exited w).

Definition shutdown (x : ExId) : world → world := set_inner x Shutdown.

(** Channel [c] is created with object ids of its own; the result is its number. *)
Definition create_channel (x : ExId) (rights : Z) (w : world) : ZxResult nat * world :=
  let bind :=
    let c := length (chans w) in
    let w := set_inner x (Bind c rights) w in
    (Ok c, with_chans (chans w ++ [Channel.create (2 * Z.of_nat c) (2 * Z.of_nat c + 1) tt]) w) in
  match inner_of x w with
  | Shutdown => (Err ZxError.BAD_STATE, w)
  | Bind c _ => if peer_alive c w then (Err ZxError.ALREADY_BOUND, w) else bind
  | Init => bind
  end.

Definition has_channel (x : ExId) (w : world) : bool := match inner_of x w with Bind c _ => peer_alive c w | _ => false end.

(** Dropping an exception object sends on its [close_signal]. *)
Definition drop_object (o : nat) (w : world) : world :=
  with_objects (alter (λ x, mkExceptionObject (exn x) (task_rights x) false) o (objects w)) w.

Section tasks.
(** The process of a thread, the job of a process, the parent of a job: none of them changes. *)
Context (proc_of job_of : Z → Z) (job_parent : Z → option Z).

Definition send_exception (x : ExId) (e : nat) (ex : Exception) (w : world) : ZxResult nat * world :=
  match inner_of x w with
  | Bind c rights =>
      match chans w !! c with
      | None => (Panic, w)
      | Some ch =>
          let info := mkExceptionInfo (proc_of (thread ex)) (thread ex) (ex_type ex) in
          let o := length (objects w) in
          let w := with_objects (objects w ++ [mkExceptionObject e rights true]) w in
          let msg := mkMessagePacket (pack info) [(o, Rights.DEFAULT_EXCEPTION)] in
          match Channel.write E0 msg ch with
          | (Ok _, ch) => (Ok o, with_chans (<[c := ch]> (chans w)) w)
          | (Err ZxError.PEER_CLOSED, ch) => (Err ZxError.NEXT, drop_object o (set_inner x Init (with_chans (<[c := ch]> (chans w)) w)))
          | (Err err, ch) => (Err err, drop_object o (with_chans (<[c := ch]> (chans w)) w))
          | (Panic, ch) => (Panic, w)
          end
      end
  | _ => (Err ZxError.NEXT, w)
  end.

(** [ExceptionateIterator::next] *)
Definition next_job (j : Z) : option ExId * IterState :=
  (Some (XJob j), match job_parent j with Some k => IJob k | None => Finished end).
Definition iter_next (ex : Exception) (s : IterState) : option ExId * IterState :=
  let p := proc_of (thread ex) in
  match s with
  | Debug second =>
      if second && negb (second_chance ex) then next_job (job_of p)
      else (Some (XDebugger p), if second then IJob (job_of p) else IThread)
  | IThread => (Some (XThread (thread ex)), IProcess)
  | IProcess => (Some (XProcess p), Debug true)
  | IJob j => next_job j
  | Finished => (None, Finished)
  end.
(** [JobDebuggerIterator::next] *)
Definition debugger_next (job : option Z) : option ExId * option Z :=
  (XJobDebugger <$> job, match job with Some j => job_parent j | None => None end).
Definition next (ex : Exception) (it : iter) : option ExId * iter :=
  match it with
  | Exceptionates s => let '(x, s) := iter_next ex s in (x, Exceptionates s)
  | JobDebuggers j => let '(x, j) := debugger_next j in (x, JobDebuggers j)
  | Only x => (x, Only None)
  end.

(** The choice of [Exception::handle]. *)
Definition handle_start (ex : Exception) : pc :=
  let p := proc_of (thread ex) in
  match ex_type ex with
  | ExceptionType.ProcessStarting => Loop (JobDebuggers (Some (job_of p))) true
  | ExceptionType.ThreadStarting | ExceptionType.ThreadExiting => Loop (Only (Some (XDebugger p))) false
  | _ => Loop (Exceptionates (Debug false)) false
  end.

(** [Exception::new] and the start of [handle_exception]; the exception gets the next number. *)
Definition raise (t : Z) (ty : ExceptionType.t) (w : world) : world :=
  let e := length (exns w) in
  let ex := mkException t ty ExceptionChannelType.None_ false false in
  if decide (ty = ExceptionType.ThreadExiting) then
    match send_exception (XDebugger (proc_of t)) e ex w with
    | (Ok o, w) => with_exns (exns w ++ [(ex, Exiting o)]) w
    | (r, w) => with_exns (exns w ++ [(ex, Ended (rmap (λ _, tt) r))]) w
    end
  else with_exns (exns w ++ [(ex, handle_start ex)]) w.

Definition closed (o : nat) (w : world) : bool := match objects w !! o with Some x => negb (is_open x) | None => true end.
Definition set_current (t : ExceptionChannelType.t) (ex : Exception) : Exception := mkException (thread ex) (ex_type ex) t (handled ex) (second_chance ex).

(** What a step shows: the exceptionate refuses the exception or is offered it, or the handler
    to which it was offered has closed it; or a debugger has asked for a second chance at exception
    [e], or withdrawn this. *)
Inductive event := Refused (x : ExId) | Offer (x : ExId) | Answer (h : bool) | Chose (e : nat) (second : bool).

Definition unhandled (r : ZxResult unit) : bool := match r with Err ZxError.NEXT => true | _ => false end.

(** One step of the thread of exception [e]; [None] if it has to wait or is done.  No handler can
    reach [ex] between the iterator and [send_exception], so they are one step. *)
Definition handle_step (e : nat) (w : world) : option (option event * world) :=
  match exns w !! e with
  | None => None
  | Some (ex, c) =>
      match c with
      | Loop it first_only =>
          match next ex it with
          | (None, _) => Some (None, set_exn e ex (Returned (Err ZxError.NEXT)) w)
          | (Some x, it) =>
              match send_exception x e ex w with
              | (Ok o, w) => Some (Some (Offer x), set_exn e ex (Offered x o it first_only) w)
              | (Err ZxError.NEXT, w) => Some (Some (Refused x), set_exn e ex (Loop it first_only) w)
              | (Err err, w) => Some (None, set_exn e ex (Returned (Err err)) w)
              | (Panic, w) => Some (None, set_exn e ex (Returned Panic) w)
              end
          end
      | Offered x o it first_only => Some (None, set_exn e (set_current (type_of x) ex) (Awaiting x o it first_only) w)
      | Awaiting x o it first_only =>
          if closed o w then
            let ex := set_current ExceptionChannelType.None_ ex in
            Some (Some (Answer (handled ex)), set_exn e ex (if handled ex || first_only then Returned (Ok tt) else Loop it first_only) w)
          else None
      | Exiting o => if closed o w then Some (None, set_exn e ex (Ended (Ok tt)) w) else None
      | Returned r =>
          let w := set_exn e ex (Ended r) w in
          if unhandled r && negb (ExceptionType.is_synth (ex_type ex))
          then Some (None, mkWorld (exceptionates w) (chans w) (objects w) (held w) (exns w) ({[proc_of (thread ex)]} ∪ exited w))
          else Some (None, w)
      | Ended _ | Killed _ => None
      end
  end.

(** The object that the thread waits for; if it was killed, the one that it was waiting for then:
    [blocking_run] and [dying_run] drop the future when the thread is killed. *)
Definition waits_on (c : pc) : option nat :=
  match c with Offered _ o _ _ | Awaiting _ o _ _ | Exiting o => Some o | Killed o => o | _ => None end.
Definition is_ended (c : pc) : bool := match c with Ended _ => true | _ => false end.
Definition kill (e : nat) (w : world) : world :=
  match exns w !! e with
  | Some (ex, c) => if is_ended c then w else set_exn e ex (Killed (waits_on c)) w
  | None => w
  end.

(** ** What a handler does with an exception object *)
Definition object_of (o : nat) (w : world) : option (ExceptionObject * nat * Exception * pc) :=
  match objects w !! o with
  | Some ob => match exns w !! exn ob with Some (ex, c) => Some (ob, exn ob, ex, c) | None => None end
  | None => None
  end.
Definition get_thread_handle (o : nat) (w : world) : ZxResult (Z * Z) :=
  match object_of o w with Some (ob, _, ex, _) => Ok (thread ex, Z.land (task_rights ob) Rights.DEFAULT_THREAD) | None => Panic end.
Definition get_process_handle (o : nat) (w : world) : ZxResult (Z * Z) :=
  match object_of o w with
  | Some (ob, _, ex, _) =>
      if decide (current ex = ExceptionChannelType.Thread) then Err ZxError.ACCESS_DENIED
      else Ok (proc_of (thread ex), Z.land (task_rights ob) Rights.DEFAULT_PROCESS)
  | None => Panic
  end.
Definition set_state (o : nat) (state : Z) (w : world) : ZxResult unit * world :=
  if 1 <? state then (Err ZxError.INVALID_ARGS, w)
  else match object_of o w with
  | Some (_, e, ex, c) => (Ok tt, set_exn e (mkException (thread ex) (ex_type ex) (current ex) (state =? 1) (second_chance ex)) c w)
  | None => (Panic, w)
  end.
Definition set_strategy (o : nat) (strategy : Z) (w : world) : ZxResult unit * world :=
  if 1 <? strategy then (Err ZxError.INVALID_ARGS, w)
  else match object_of o w with
  | Some (_, e, ex, c) =>
      match current ex with
      | ExceptionChannelType.Debugger | ExceptionChannelType.JobDebugger =>
          (Ok tt, set_exn e (mkException (thread ex) (ex_type ex) (current ex) (handled ex) (strategy =? 1)) c w)
      | _ => (Err ZxError.BAD_STATE, w)
      end
  | None => (Panic, w)
  end.

(** A handler reads a message from its end of channel [c] and gets the object in it. *)
Definition receive (c : nat) (w : world) : ZxResult (list nat) * world :=
  match chans w !! c with
  | None => (Err ZxError.BAD_HANDLE, w)
  | Some ch =>
      match Channel.read E1 ch with
      | (Ok m, ch) => (Ok (map fst (msg_handles m)), with_held (list_to_set (map fst (msg_handles m)) ∪ held w) (with_chans (<[c := ch]> (chans w)) w))
      | (Err e, ch) => (Err e, w)
      | (Panic, ch) => (Panic, w)
      end
  end.
(** The handler closes its end of channel [c]; the messages that it has not read go with it. *)
Definition queued (ch : channel_pair) : list nat :=
  match get E1 (ends ch) with Some e => concat (map (λ m, map fst (msg_handles m)) (recv_queue e)) | None => [] end.
Definition close_channel (c : nat) (w : world) : world :=
  match chans w !! c with
  | None => w
  | Some ch => foldr drop_object (with_chans (<[c := Channel.drop_end E1 ch]> (chans w)) w) (queued ch)
  end.
Definition close_object (o : nat) (w : world) : world := with_held (held w ∖ {[o]}) (drop_object o w).

(** ** System calls *)
Definition wanted_rights : Z := Z.lor (Z.lor (Z.lor Rights.INSPECT Rights.DUPLICATE) Rights.TRANSFER) Rights.MANAGE_THREAD.
(** The exceptionate that [task], a handle with [rights], stands for. *)
Definition exceptionate_of (task : KernelObject) (rights : Z) (debugger : bool) : ZxResult ExId :=
  let i := obj_id task in
  if (type_name task =? "Job")%string then
    if negb (contains rights Rights.ENUMERATE) then Err ZxError.ACCESS_DENIED else Ok (if debugger then XJobDebugger i else XJob i)
  else if (type_name task =? "Process")%string then
    if negb (contains rights Rights.ENUMERATE) then Err ZxError.ACCESS_DENIED else Ok (if debugger then XDebugger i else XProcess i)
  else if (type_name task =? "Thread")%string then
    if debugger then Err ZxError.INVALID_ARGS else Ok (XThread i)
  else Err ZxError.WRONG_TYPE.
(** The handle of the new channel; its object id is that of the end of the handler. *)
Definition sys_create_exception_channel (task : HandleValue) (option : Z) (t : HandleTable) (w : world) : ZxResult HandleValue * HandleTable * world :=
  match get_dyn_object_and_rights task t with
  | Ok (task, rights) =>
      if negb (contains rights wanted_rights) then (Err ZxError.ACCESS_DENIED, t, w)
      else if negb ((option =? 0) || (option =? 1)) then (Err ZxError.INVALID_ARGS, t, w)
      else match exceptionate_of task rights (option =? 1) with
      | Ok x =>
          match create_channel x rights w with
          | (Ok c, w) =>
              let h := mkHandle (mkKernelObject (2 * Z.of_nat c + 1) "Channel" (2 * Z.of_nat c)) (Z.lor (Z.lor Rights.TRANSFER Rights.WAIT) Rights.READ) in
              let '(v, t) := add_handle h t in (Ok v, t, w)
          | (Err e, w) => (Err e, t, w)
          | (Panic, w) => (Panic, t, w)
          end
      | Err e => (Err e, t, w)
      | Panic => (Panic, t, w)
      end
  | Err e => (Err e, t, w)
  | Panic => (Panic, t, w)
  end.
(** The object id of an exception object is its number. *)
Definition sys_exception_get (T : string) (get_handle : nat → world → ZxResult (Z * Z)) (exception : HandleValue) (t : HandleTable) (w : world) : ZxResult HandleValue * HandleTable :=
  match get_object_with_rights "ExceptionObject" exception 0 t with
  | Ok o =>
      match get_handle (Z.to_nat (obj_id o)) w with
      | Ok (i, r) => let '(v, t) := add_handle (mkHandle (mkKernelObject i T 0) r) t in (Ok v, t)
      | Err e => (Err e, t)
      | Panic => (Panic, t)
      end
  | Err e => (Err e, t)
  | Panic => (Panic, t)
  end.
Definition sys_exception_get_thread := sys_exception_get "Thread" get_thread_handle.
Definition sys_exception_get_process := sys_exception_get "Process" get_process_handle.

(** ** Interleavings *)
Inductive op :=
| Raise (t : Z) (ty : ExceptionType.t) | Step (e : nat) | Kill (e : nat)
| CreateChannel (x : ExId) (rights : Z) | ShutdownTask (x : ExId)
| Receive (c : nat) | CloseChannel (c : nat) | CloseObject (o : nat) | SetState (o : nat) (state : Z) | SetStrategy (o : nat) (strategy : Z).

(** Only a handler that has received an object can use it. *)
Definition exec (a : op) (w : world) : option (option event * world) :=
  match a with
  | Raise t ty => Some (None, raise t ty w)
  | Step e => handle_step e w
  | Kill e => Some (None, kill e w)
  | CreateChannel x rights => Some (None, (create_channel x rights w).2)
  | ShutdownTask x => Some (None, shutdown x w)
  | Receive c => Some (None, (receive c w).2)
  | CloseChannel c => Some (None, close_channel c w)
  | CloseObject o => if decide (o ∈ held w) then Some (None, close_object o w) else None
  | SetState o s => if decide (o ∈ held w) then Some (None, (set_state o s w).2) else None
  | SetStrategy o s =>
      if decide (o ∈ held w) then
        let '(r, w') := set_strategy o s w in
        Some (match r, object_of o w with Ok _, Some (_, e, _, _) => Some (Chose e (s =? 1)) | _, _ => None end, w')
      else None
  end.

Inductive steps : world → list (op * option event) → world → Prop :=
| steps_nil w : steps w [] w
| steps_snoc w tr w1 a ev w2 : steps w tr w1 → exec a w1 = Some (ev, w2) → steps w (tr ++ [(a, ev)]) w2.

(** ** Specification: asking a list of handlers in order
    What is left to do after some events. *)
Inductive status := Asking (l : list ExId) | Offering (x : ExId) (l : list ExId) | Handled.
Inductive dispatch (first_only : bool) : list ExId → list event → status → Prop :=
| dispatch_none l : dispatch first_only l [] (Asking l)
| dispatch_refused x l evs s : dispatch first_only l evs s → dispatch first_only (x :: l) (Refused x :: evs) s
| dispatch_offer x l : dispatch first_only (x :: l) [Offer x] (Offering x l)
| dispatch_declined x l evs s : first_only = false → dispatch first_only l evs s → dispatch first_only (x :: l) (Offer x :: Answer false :: evs) s
| dispatch_handled x l h : h || first_only = true → dispatch first_only (x :: l) [Offer x; Answer h] Handled.

(** A job and its ancestors. *)
Inductive ancestors : Z → list Z → Prop :=
| ancestors_root j : job_parent j = None → ancestors j [j]
| ancestors_child j k l : job_parent j = Some k → ancestors k l → ancestors j (j :: l).

Definition first_only_of (ty : ExceptionType.t) : bool := bool_decide (ty = ExceptionType.ProcessStarting).
(** Who is asked about an exception of thread [t], [second] being the answer of the debugger. *)
Definition order (t : Z) (ty : ExceptionType.t) (jobs : list Z) (second : bool) : list ExId :=
  let p := proc_of t in
  match ty with
  | ExceptionType.ProcessStarting => map XJobDebugger jobs
  | ExceptionType.ThreadStarting | ExceptionType.ThreadExiting => [XDebugger p]
  | _ => [XDebugger p; XThread t; XProcess p] ++ (if second then [XDebugger p] else []) ++ map XJob jobs
  end.

Definition events_of (e : nat) (tr : list (op * option event)) : list event :=
  omap (λ '(a, ev), match a with Step e' => if decide (e' = e) then ev else None | _ => None end) tr.

(** The last choice that was made for an exception. *)
Definition wish (e : nat) (tr : list (op * option event)) : bool :=
  foldl (λ b '(_, ev), match ev with Some (Chose e' second) => if decide (e' = e) then second else b | _ => b end) false tr.
(** [second] is the wish at the moment when the iterator, the handler of the process having been asked, looks at it. *)
Definition decision (e : nat) (tr : list (op * option event)) (second : bool) : Prop :=
  ∀ tr1 ev tr2 w1 ex1 f, tr = tr1 ++ (Step e, ev) :: tr2 → steps init tr1 w1 → exns w1 !! e = Some (ex1, Loop (Exceptionates (Debug true)) f) →
  second = wish e tr1.

(** The exceptionates that an iterator still yields. *)
Inductive yields (p t : Z) (second : bool) : iter → list ExId → Prop :=
| yields_debug jobs : ancestors (job_of p) jobs → yields p t second (Exceptionates (Debug false)) ([XDebugger p; XThread t; XProcess p] ++ (if second then [XDebugger p] else []) ++ map XJob jobs)
| yields_thread jobs : ancestors (job_of p) jobs → yields p t second (Exceptionates IThread) ([XThread t; XProcess p] ++ (if second then [XDebugger p] else []) ++ map XJob jobs)
| yields_process jobs : ancestors (job_of p) jobs → yields p t second (Exceptionates IProcess) ([XProcess p] ++ (if second then [XDebugger p] else []) ++ map XJob jobs)
| yields_second jobs : ancestors (job_of p) jobs → yields p t second (Exceptionates (Debug true)) ((if second then [XDebugger p] else []) ++ map XJob jobs)
| yields_job j jobs : ancestors j jobs → yields p t second (Exceptionates (IJob j)) (map XJob jobs)
| yields_finished : yields p t second (Exceptionates Finished) []
| yields_debuggers j jobs : ancestors j jobs → yields p t second (JobDebuggers (Some j)) (map XJobDebugger jobs)
| yields_no_debuggers : yields p t second (JobDebuggers None) []
| yields_only x : yields p t second (Only x) (option_list x).

(** Whether the iterator has still to look at [second_chance]. *)
Definition undecided (it : iter) : bool :=
  match it with Exceptionates (Debug _ | IThread | IProcess) => true | _ => false end.

Lemma next_yields ex second it l : yields (proc_of (thread ex)) (thread ex) second it l →
  (undecided it = true → it = Exceptionates (Debug true) → second = second_chance ex) →
  match next ex it with
  | (None, _) => l = []
  | (Some x, it') => ∃ l', l = x :: l' ∧ yields (proc_of (thread ex)) (thread ex) second it' l' ∧ (undecided it' = true → undecided it = true)
  end.
Proof.
  assert (∀ j jobs, ancestors j jobs → ∃ l', jobs = j :: l' ∧ match job_parent j with Some k => ancestors k l' | None => l' = [] end) as Hanc.
  { intros j jobs []; [exists []|eexists]; split; try done; by rewrite H. }
  intros Hy Hd. destruct Hy as [jobs Ha|jobs Ha|jobs Ha|jobs Ha|j jobs Ha| |j jobs Ha| |[x|]]; cbn [next iter_next debugger_next andb].
  - eexists. split; [done|]. split; [by constructor|done].
  - eexists. split; [done|]. split; [by constructor|done].
  - eexists. split; [done|]. split; [by constructor|done].
  - specialize (Hd eq_refl eq_refl) as ->. destruct (second_chance ex); cbn [negb next_job].
    + eexists. split; [done|]. split; [by constructor|done].
    + destruct (Hanc _ _ Ha) as (l' & -> & Hl'). destruct (job_parent _); [|subst l']; eexists; (split; [done|]); split; try done; by constructor.
  - destruct (Hanc _ _ Ha) as (l' & -> & Hl'). cbn [next_job]. destruct (job_parent _); [|subst l']; eexists; (split; [done|]); split; try done; by constructor.
  - done.
  - destruct (Hanc _ _ Ha) as (l' & -> & Hl'). simpl. destruct (job_parent j) as [k|]; [|subst l']; eexists; (split; [done|]); split; try done; by constructor.
  - done.
  - exists []. split; [done|]. split; [constructor 9 with (x := None)|done].
  - done.
Qed.

(** ** One handler at a time *)
(** No call is outstanding at the end of the handler, so that messages are queued. *)
Definition silent (ch : channel_pair) : Prop := ∀ e, get E1 (ends ch) = Some e → call_reply e = ∅.

Lemma queued_write m ch : silent ch →
  match Channel.write E0 m ch with
  | (Ok _, ch') => queued ch' = queued ch ++ map fst (msg_handles m) ∧ silent ch' ∧ get E1 (ends ch) ≠ None
  | (Err e, ch') => e = ZxError.PEER_CLOSED ∧ ch' = ch
  | (Panic, _) => False
  end.
Proof.
  intros Hs. unfold Channel.write. simpl other. destruct (get E1 (ends ch)) as [e|] eqn:He; [|done].
  assert (answers m e = None) as ->. { unfold answers. rewrite (Hs e He), lookup_empty. by destruct (negb _). }
  destruct (push_general_spec E1 m ch e He) as ((e' & He' & Hq & _ & Hr & _) & _). split; [|split; [|done]].
  - unfold queued. rewrite He', He, Hq, map_app, concat_app. simpl. by rewrite app_nil_r.
  - intros e1. rewrite He'. intros [= <-]. rewrite Hr. by apply Hs.
Qed.

Lemma queued_read ch : silent ch →
  match Channel.read E1 ch with
  | (Ok m, ch') => queued ch = map fst (msg_handles m) ++ queued ch' ∧ silent ch'
  | (Err _, _) | (Panic, _) => True
  end.
Proof.
  intros Hs. unfold Channel.read. destruct (get E1 (ends ch)) as [e|] eqn:He; [|unfold check_and_read; by rewrite He].
  pose proof (check_and_read_spec E1 (λ _, Ok tt) ch e He) as Hr. destruct (check_and_read E1 (λ _, Ok tt) ch) as [r ch'].
  destruct (recv_queue e) as [|m q] eqn:Eq; [by destruct Hr as [-> _]|]. destruct Hr as (-> & (e' & He' & Hq & _ & Hc & _) & _). split.
  - unfold queued. by rewrite He, He', Eq, Hq.
  - intros e1. rewrite He'. intros [= <-]. rewrite Hc. by apply Hs.
Qed.

Lemma queued_drop ch : silent ch → queued (Channel.drop_end E0 ch) = queued ch ∧ silent (Channel.drop_end E0 ch) ∧
  queued (Channel.drop_end E1 ch) = [] ∧ silent (Channel.drop_end E1 ch).
Proof.
  intros Hs. assert (get E1 (ends (Channel.drop_end E1 ch)) = None) as H1.
  { destruct (get E1 (ends ch)) as [e|] eqn:He; [by destruct (drop_end_effect E1 ch e He) as [-> _]|unfold drop_end; by rewrite He]. }
  assert (queued (Channel.drop_end E0 ch) = queued ch ∧ silent (Channel.drop_end E0 ch)) as [H2 H3].
  { destruct (get E0 (ends ch)) as [me|] eqn:He; [|unfold drop_end; by rewrite He].
    destruct (drop_end_effect E0 ch me He) as (_ & Hp & _). simpl other in Hp. unfold queued, silent. destruct (get E1 (ends ch)) as [peer|] eqn:Ep.
    - destruct Hp as (peer' & -> & -> & Hr & _). split; [done|]. by intros e [= <-].
    - destruct Hp as [-> _]. done. }
  split; [done|]. split; [done|]. split; [unfold queued; by rewrite H1|]. intros e. by rewrite H1.
Qed.

Definition opened (o : nat) (w : world) : Prop := ∃ ob, objects w !! o = Some ob ∧ is_open ob = true.

(** Where the open objects are: each in one message of one channel or held by a handler, and the
    thread of its exception waits for it. *)
Record inv (w : world) : Prop := {
  inv_wait o ob : objects w !! o = Some ob → is_open ob = true → ∃ ex c, exns w !! exn ob = Some (ex, c) ∧ waits_on c = Some o;
  inv_known o ob : objects w !! o = Some ob → is_Some (exns w !! exn ob);
  inv_held o : o ∈ held w → opened o w;
  inv_queued c ch o : chans w !! c = Some ch → o ∈ queued ch → opened o w ∧ o ∉ held w;
  inv_once c ch : chans w !! c = Some ch → NoDup (queued ch) ∧ silent ch;
  inv_apart c1 ch1 c2 ch2 o : chans w !! c1 = Some ch1 → chans w !! c2 = Some ch2 → o ∈ queued ch1 → o ∈ queued ch2 → c1 = c2;
  inv_bound x c r : inner_of x w = Bind c r → is_Some (chans w !! c)
}.

(** The exceptions change, and the threads of open objects still wait. *)
Definition still_waiting (w : world) (es : list (Exception * pc)) : Prop :=
  ∀ e ex c, exns w !! e = Some (ex, c) → ∃ ex' c', es !! e = Some (ex', c') ∧ (∀ o, waits_on c = Some o → opened o w → waits_on c' = Some o).

Lemma inv_with_exns w es : inv w →
  still_waiting w es → inv (with_exns es w).
Proof.
  intros [H1 H2 H3 H4 H5 H6 H7] Hes. split; try done.
  - intros o ob Ho Hop. destruct (H1 o ob Ho Hop) as (ex & c & He & Hc). destruct (Hes _ _ _ He) as (ex' & c' & He' & Hk). exists ex', c'. split; [done|].
    apply Hk; [done|by exists ob].
  - intros o ob Ho. destruct (H2 o ob Ho) as [[ex c] He]. destruct (Hes _ _ _ He) as (ex' & c' & He' & _). by exists (ex', c').
Qed.

Lemma still_waiting_set w e ex c ex' c' : exns w !! e = Some (ex, c) → (∀ o, waits_on c = Some o → opened o w → waits_on c' = Some o) →
  still_waiting w (<[e := (ex', c')]> (exns w)).
Proof.
  intros He Hk e1 ex1 c1 He1. destruct (decide (e1 = e)) as [->|Hne].
  - rewrite He in He1. injection He1 as <- <-. exists ex', c'. rewrite list_lookup_insert_eq by (by eapply lookup_lt_Some). done.
  - exists ex1, c1. by rewrite list_lookup_insert_ne.
Qed.

Lemma inv_set_exn w e ex c ex' c' : inv w → exns w !! e = Some (ex, c) → (∀ o, waits_on c = Some o → opened o w → waits_on c' = Some o) → inv (set_exn e ex' c' w).
Proof. intros Hw He Hk. apply inv_with_exns; [done|]. by apply (still_waiting_set w e ex c). Qed.

Lemma still_waiting_push w ex c : still_waiting w (exns w ++ [(ex, c)]).
Proof. intros e ex1 c1 He. exists ex1, c1. by rewrite (lookup_app_l_Some _ _ _ _ He). Qed.

Lemma inv_set_inner w x new : inv w → (∀ c r, new = Bind c r → is_Some (chans w !! c)) → inv (set_inner x new w).
Proof.
  intros [H1 H2 H3 H4 H5 H6 H7] Hnew.
  assert (∀ c ch, chans (set_inner x new w) !! c = Some ch → ∃ ch0, chans w !! c = Some ch0 ∧ queued ch = queued ch0 ∧ silent ch) as Hch.
  { intros c ch. unfold set_inner. simpl. destruct (inner_of x w) as [|c0 r|]; try (intros Hc; exists ch; by destruct (H5 c ch Hc)).
    rewrite list_lookup_alter. case_decide; [subst|intros Hc; exists ch; by destruct (H5 c ch Hc)].
    destruct (chans w !! c) as [ch0|] eqn:E; [|done]. intros [= <-]. destruct (H5 c ch0 E) as [_ Hs]. destruct (queued_drop ch0 Hs) as (? & ? & _). by exists ch0. }
  split; try done.
  - intros c ch o Hc Ho. destruct (Hch c ch Hc) as (ch0 & Hc0 & Hq & _). rewrite Hq in Ho. by apply (H4 c ch0).
  - intros c ch Hc. destruct (Hch c ch Hc) as (ch0 & Hc0 & -> & Hs). split; [by destruct (H5 c ch0 Hc0)|done].
  - intros c1 ch1 c2 ch2 o Hc1 Hc2. destruct (Hch c1 ch1 Hc1) as (ch1' & Hc1' & -> & _). destruct (Hch c2 ch2 Hc2) as (ch2' & Hc2' & -> & _). by apply H6.
  - intros y c r Hy. assert (is_Some (chans w !! c)) as Hs.
    { unfold inner_of, set_inner in Hy. simpl in Hy. rewrite lookup_insert in Hy. case_decide; [simpl in Hy; by apply (Hnew c r)|by apply (H7 y c r)]. }
    unfold set_inner. simpl. destruct (inner_of x w); try done. rewrite list_lookup_alter. case_decide; [subst; by apply fmap_is_Some|done].
Qed.

Lemma inv_drop_object w o : inv w → o ∉ held w → (∀ c ch, chans w !! c = Some ch → o ∉ queued ch) → inv (drop_object o w).
Proof.
  intros [H1 H2 H3 H4 H5 H6 H7] Hh Hq.
  assert (∀ o1 ob, objects (drop_object o w) !! o1 = Some ob → ∃ ob0, objects w !! o1 = Some ob0 ∧ exn ob = exn ob0 ∧ (is_open ob = true → is_open ob0 = true)) as Hob.
  { intros o1 ob. unfold drop_object. simpl. rewrite list_lookup_alter. case_decide; [subst|by intros; exists ob].
    destruct (objects w !! o1) as [ob0|]; [|done]. intros [= <-]. by exists ob0. }
  assert (∀ o1, o1 ≠ o → opened o1 w → opened o1 (drop_object o w)) as Hopn.
  { intros o1 Hne (ob & Ho & ?). exists ob. split; [|done]. unfold drop_object. simpl. by rewrite list_lookup_alter_ne. }
  split; try done.
  - intros o1 ob Ho Hop. destruct (Hob o1 ob Ho) as (ob0 & Ho0 & -> & Hk). apply (H1 o1 ob0 Ho0). by apply Hk.
  - intros o1 ob Ho. destruct (Hob o1 ob Ho) as (ob0 & Ho0 & -> & Hk). by apply (H2 o1 ob0 Ho0).
  - intros o1 Ho1. apply Hopn; [by intros ->|by apply H3].
  - intros c ch o1 Hc Ho1. destruct (H4 c ch o1 Hc Ho1). split; [|done]. apply Hopn; [intros ->; by apply (Hq c ch)|done].
Qed.

(** What [send_exception] does to the channels, objects and exceptionates. *)
Lemma send_cases x e ex w : inv w →
  let o := length (objects w) in
  (∃ c rights ch ch', send_exception x e ex w = (Ok o, with_chans (<[c := ch']> (chans w)) (with_objects (objects w ++ [mkExceptionObject e rights true]) w)) ∧
     inner_of x w = Bind c rights ∧ peer_alive c w = true ∧ chans w !! c = Some ch ∧ queued ch' = queued ch ++ [o] ∧ silent ch') ∨
  (∃ c rights, send_exception x e ex w = (Err ZxError.NEXT, set_inner x Init (with_objects (objects w ++ [mkExceptionObject e rights false]) w)) ∧
     inner_of x w = Bind c rights ∧ peer_alive c w = false) ∨
  (send_exception x e ex w = (Err ZxError.NEXT, w) ∧ ∀ c rights, inner_of x w ≠ Bind c rights).
Proof.
  intros Hw o. unfold send_exception. destruct (inner_of x w) as [|c rights|] eqn:Ex; [by right; right| |by right; right].
  destruct (inv_bound _ Hw x c rights Ex) as [ch Hc]. rewrite Hc. destruct (inv_once _ Hw c ch Hc) as [_ Hs].
  set (m := mkMessagePacket _ _). pose proof (queued_write m ch Hs) as Hq. destruct (Channel.write E0 m ch) as [[u|err|] ch'] eqn:Ew; [| |done].
  - left. exists c, rights, ch, ch'. destruct Hq as (-> & Hs' & Hp). split; [done|]. split; [done|]. split; [|done].
    unfold peer_alive, Channel.peer_closed. rewrite Hc. simpl in *. by destruct (end1 (ends ch)).
  - right. left. destruct Hq as [-> ->]. exists c, rights. split; [|split; [done|]].
    + f_equal. unfold set_inner, drop_object, with_objects, with_chans. simpl. unfold inner_of in Ex |- *. simpl. rewrite Ex. f_equal.
      * by rewrite list_insert_id.
      * rewrite alter_app_r_alt by lia. f_equal. by rewrite Nat.sub_diag.
    + unfold peer_alive, Channel.peer_closed. rewrite Hc. unfold Channel.write in Ew. simpl in *.
      destruct (end1 (ends ch)) as [p|]; [|done]. by destruct (answers m p).
Qed.

(** A new object that is not open, of an exception that is known. *)
Lemma inv_dead_object w e rights : inv w → is_Some (exns w !! e) → inv (with_objects (objects w ++ [mkExceptionObject e rights false]) w).
Proof.
  intros [H1 H2 H3 H4 H5 H6 H7] He. set (w' := with_objects _ w).
  assert (∀ o ob, objects w' !! o = Some ob → objects w !! o = Some ob ∨ ob = mkExceptionObject e rights false) as Hob.
  { intros o ob. unfold w'. simpl. rewrite lookup_app_Some, list_lookup_singleton_Some. intros [?|[_ [_ <-]]]; auto. }
  assert (∀ o, opened o w → opened o w') as Hop. { intros o (ob & Ho & Hb). exists ob. split; [by apply lookup_app_l_Some|done]. }
  split; try done.
  - intros o ob Ho Hopn. destruct (Hob o ob Ho) as [Ho'| ->]; [by apply (H1 o)|done].
  - intros o ob Ho. destruct (Hob o ob Ho) as [Ho'| ->]; [by apply (H2 o)|done].
  - intros o Ho. by apply Hop, H3.
  - intros c ch o Hc Ho. destruct (H4 c ch o Hc Ho). split; [by apply Hop|done].
Qed.

(** A new object in a message of channel [c], of an exception whose thread waits for it. *)
Lemma inv_live_object w e ex cc rights c ch ch' : inv w →
  let o := length (objects w) in
  exns w !! e = Some (ex, cc) → waits_on cc = Some o → chans w !! c = Some ch → queued ch' = queued ch ++ [o] → silent ch' →
  inv (with_chans (<[c := ch']> (chans w)) (with_objects (objects w ++ [mkExceptionObject e rights true]) w)).
Proof.
  intros [H1 H2 H3 H4 H5 H6 H7] o He Hcc Hc Hq Hs. set (w' := with_chans _ _).
  assert (∀ o1 ob, objects w' !! o1 = Some ob → objects w !! o1 = Some ob ∨ o1 = o ∧ ob = mkExceptionObject e rights true) as Hob.
  { intros o1 ob. unfold w', o. simpl. rewrite lookup_app_Some, list_lookup_singleton_Some. intros [?|[? [? <-]]]; [by left|right; split; [lia|done]]. }
  assert (∀ o1, opened o1 w → opened o1 w' ∧ o1 ≠ o) as Hop.
  { intros o1 (ob & Ho & Hb). split; [exists ob; split; [by apply lookup_app_l_Some|done]|]. apply lookup_lt_Some in Ho. unfold o. lia. }
  assert (opened o w') as Hoo. { eexists. split; [apply list_lookup_middle; done|done]. }
  assert (∀ c1 ch1 o1, chans w' !! c1 = Some ch1 → o1 ∈ queued ch1 → (∃ ch0, chans w !! c1 = Some ch0 ∧ o1 ∈ queued ch0) ∨ c1 = c ∧ o1 = o) as Hch.
  { intros c1 ch1 o1. unfold w'. simpl. intros [(<- & <- & _)|[_ Hc1]]%list_lookup_insert_Some Ho1; [|left; by exists ch1].
    rewrite Hq, elem_of_app, list_elem_of_singleton in Ho1. destruct Ho1 as [Ho1| ->]; [left; by exists ch|by right]. }
  split.
  - intros o1 ob Ho Hopn. destruct (Hob o1 ob Ho) as [Ho'|[-> ->]]; [by apply (H1 o1)|by exists ex, cc].
  - intros o1 ob Ho. destruct (Hob o1 ob Ho) as [Ho'|[-> ->]]; [by apply (H2 o1)|by exists (ex, cc)].
  - intros o1 Ho1. by apply Hop, H3.
  - intros c1 ch1 o1 Hc1 Ho1. destruct (Hch c1 ch1 o1 Hc1 Ho1) as [(ch0 & Hc0 & Ho0)|[-> ->]].
    + destruct (H4 c1 ch0 o1 Hc0 Ho0). split; [by apply Hop|done].
    + split; [done|]. intros Hh. by destruct (Hop o (H3 o Hh)).
  - intros c1 ch1 [(<- & <- & _)|[_ Hc1]]%list_lookup_insert_Some; [|by apply (H5 c1)]. split; [|done]. rewrite Hq. apply NoDup_app. split; [by apply (H5 c)|].
    split; [|apply NoDup_singleton]. intros o1 Ho1 ->%list_elem_of_singleton. destruct (H4 c ch o Hc Ho1) as [Ho _]. by destruct (Hop o Ho).
  - assert (∀ c1 ch1, chans w !! c1 = Some ch1 → o ∉ queued ch1) as Hnew. { intros c1 ch1 Hc1 Ho1. destruct (H4 c1 ch1 o Hc1 Ho1) as [Ho _]. by destruct (Hop o Ho). }
    intros c1 ch1 c2 ch2 o1 Hc1 Hc2 Ho1 Ho2. destruct (Hch c1 ch1 o1 Hc1 Ho1) as [(ch0 & Hc0 & Ho0)|[E1 E2]], (Hch c2 ch2 o1 Hc2 Ho2) as [(ch3 & Hc3 & Ho3)|[E3 E4]].
    + by apply (H6 c1 ch0 c2 ch3 o1).
    + rewrite E4 in Ho0. by destruct (Hnew c1 ch0 Hc0).
    + rewrite E2 in Ho3. by destruct (Hnew c2 ch3 Hc3).
    + by rewrite E1, E3.
  - intros x c1 r Hx. unfold w'. simpl. apply lookup_lt_is_Some_2. rewrite length_insert. by apply lookup_lt_is_Some_1, (H7 x c1 r).
Qed.

(** [send_exception], the exceptions becoming [es]. *)
Lemma inv_send x e ex w es : inv w → still_waiting w es → is_Some (es !! e) →
  match send_exception x e ex w with
  | (Ok o, w') => (∃ ex' c', es !! e = Some (ex', c') ∧ waits_on c' = Some o) → inv (with_exns es w')
  | (Err err, w') => err = ZxError.NEXT ∧ inv (with_exns es w')
  | (Panic, _) => False
  end.
Proof.
  intros Hw Hes He. pose proof (inv_with_exns w es Hw Hes) as Hw'. destruct (send_cases x e ex w Hw) as [(c & rights & ch & ch' & -> & _ & _ & Hc & Hq & Hs)|[(c & rights & -> & _)|[-> _]]].
  - intros (ex' & c' & He' & Hc'). by apply (inv_live_object (with_exns es w) e ex' c' rights c ch ch').
  - split; [done|]. apply (inv_set_inner (with_objects (objects w ++ [_]) (with_exns es w))); [|done]. by apply (inv_dead_object (with_exns es w)).
  - done.
Qed.

Lemma send_exns x e ex w : inv w → exns (send_exception x e ex w).2 = exns w.
Proof. intros Hw. by destruct (send_cases x e ex w Hw) as [(? & ? & ? & ? & -> & _)|[(? & ? & -> & _)|[-> _]]]. Qed.

Lemma inv_raise t ty w : inv w → inv (raise t ty w).
Proof.
  intros Hw. unfold raise. set (ex := mkException _ _ _ _ _). assert (∀ c, is_Some ((exns w ++ [(ex, c)]) !! length (exns w))) as Hlast.
  { intros c. rewrite list_lookup_middle by done. by eexists. }
  destruct (decide _); [|by apply inv_with_exns, still_waiting_push].
  pose proof (send_exns (XDebugger (proc_of t)) (length (exns w)) ex w Hw) as He.
  destruct (send_exception (XDebugger (proc_of t)) (length (exns w)) ex w) as [[o|err|] w'] eqn:E; simpl in He; rewrite He.
  - pose proof (inv_send (XDebugger (proc_of t)) (length (exns w)) ex w (exns w ++ [(ex, Exiting o)]) Hw (still_waiting_push w _ _) (Hlast _)) as Hi. rewrite E in Hi.
    apply Hi. exists ex, (Exiting o). by rewrite list_lookup_middle.
  - pose proof (inv_send (XDebugger (proc_of t)) (length (exns w)) ex w (exns w ++ [(ex, Ended (Err err))]) Hw (still_waiting_push w _ _) (Hlast _)) as Hi. rewrite E in Hi. by apply Hi.
  - pose proof (inv_send (XDebugger (proc_of t)) (length (exns w)) ex w (exns w ++ [(ex, Ended Panic)]) Hw (still_waiting_push w _ _) (Hlast _)) as Hi. by rewrite E in Hi.
Qed.

Lemma inv_handle_step e w ev w' : inv w → handle_step e w = Some (ev, w') → inv w'.
Proof.
  intros Hw. unfold handle_step. destruct (exns w !! e) as [[ex c]|] eqn:He; [|done].
  assert (∀ ex' c', is_Some (<[e := (ex', c')]> (exns w) !! e)) as Hin. { intros. rewrite list_lookup_insert_eq by (by eapply lookup_lt_Some). by eexists. }
  assert (∀ o, closed o w = true → ¬ opened o w) as Hcl. { intros o. unfold closed. intros Ho (ob & E & Hop). rewrite E, Hop in Ho. done. }
  destruct c as [it f|x o it f|x o it f|o|r|r|o].
  - destruct (next ex it) as [[x|] it']; [|intros [= <- <-]; by apply (inv_set_exn w e ex (Loop it f))].
    pose proof (send_exns x e ex w Hw) as Hes. pose proof (λ es H1 H2, inv_send x e ex w es Hw H1 H2) as Hi.
    destruct (send_exception x e ex w) as [[o|err|] w1]; simpl in Hes; unfold set_exn; rewrite Hes.
    + intros [= <- <-]. apply Hi; [by apply (still_waiting_set w e ex (Loop it f))|done|]. exists ex, (Offered x o it' f). by rewrite list_lookup_insert_eq by (by eapply lookup_lt_Some).
    + assert (err = ZxError.NEXT) as -> by (by apply (Hi (<[e := (ex, Loop it' f)]> (exns w))); [apply (still_waiting_set w e ex (Loop it f))|]).
      intros [= <- <-]. apply Hi; [by apply (still_waiting_set w e ex (Loop it f))|done].
    + destruct (Hi (<[e := (ex, Loop it' f)]> (exns w))); [by apply (still_waiting_set w e ex (Loop it f))|done].
  - intros [= <- <-]. by apply (inv_set_exn w e ex (Offered x o it f)).
  - destruct (closed o w) eqn:Ec; [|done]. intros [= <- <-]. apply (inv_set_exn w e ex (Awaiting x o it f)); [done|done|]. intros o1 [= <-] Ho. by destruct (Hcl o Ec).
  - destruct (closed o w) eqn:Ec; [|done]. intros [= <- <-]. apply (inv_set_exn w e ex (Exiting o)); [done|done|]. intros o1 [= <-] Ho. by destruct (Hcl o Ec).
  - assert (inv (set_exn e ex (Ended r) w)) as Hi by (by apply (inv_set_exn w e ex (Returned r))). destruct (_ && _); intros [= <- <-]; [|done]. by destruct Hi.
  - done.
  - done.
Qed.

Lemma inv_kill e w : inv w → inv (kill e w).
Proof. intros Hw. unfold kill. destruct (exns w !! e) as [[ex c]|] eqn:He; [|done]. destruct (is_ended c); [done|]. by apply (inv_set_exn w e ex c). Qed.

Lemma inv_create_channel x rights w : inv w → inv (create_channel x rights w).2.
Proof.
  intros Hw. unfold create_channel. set (c := length (chans w)). set (new := Channel.create _ _ _).
  assert (inv (with_chans (chans (set_inner x (Bind c rights) w) ++ [new]) (set_inner x (Bind c rights) w))) as Hb.
  { assert (inv (with_chans (chans w ++ [new]) w)) as Hw1.
    { destruct Hw as [H1 H2 H3 H4 H5 H6 H7]. assert (∀ c1 ch, (chans w ++ [new]) !! c1 = Some ch → chans w !! c1 = Some ch ∨ ch = new) as Hch.
      { intros c1 ch. rewrite lookup_app_Some, list_lookup_singleton_Some. intros [?|[_ [_ <-]]]; auto. }
      split; try done; simpl.
      - intros c1 ch o Hc Ho. destruct (Hch c1 ch Hc) as [Hc'| ->]; [by apply (H4 c1 ch)|]. by apply not_elem_of_nil in Ho.
      - intros c1 ch Hc. destruct (Hch c1 ch Hc) as [Hc'| ->]; [by apply (H5 c1 ch)|]. split; [constructor|]. by intros e [= <-].
      - intros c1 ch1 c2 ch2 o Hc1 Hc2 Ho1 Ho2. destruct (Hch c1 ch1 Hc1) as [Hc1'| ->]; [|by apply not_elem_of_nil in Ho1].
        destruct (Hch c2 ch2 Hc2) as [Hc2'| ->]; [|by apply not_elem_of_nil in Ho2]. by apply (H6 c1 ch1 c2 ch2 o).
      - intros y c1 r Hy. apply lookup_lt_is_Some_2. rewrite length_app. pose proof (lookup_lt_is_Some_1 _ _ (H7 y c1 r Hy)). lia. }
    assert (with_chans (chans (set_inner x (Bind c rights) w) ++ [new]) (set_inner x (Bind c rights) w) = set_inner x (Bind c rights) (with_chans (chans w ++ [new]) w)) as ->.
    { unfold set_inner, with_chans. simpl. f_equal. unfold inner_of. simpl. destruct (default Init (exceptionates w !! x)) as [|c1 r|] eqn:Ex; [done| |done].
      destruct (inv_bound w Hw x c1 r Ex) as [ch Hc1]. by rewrite alter_app_l by (by eapply lookup_lt_Some). }
    apply inv_set_inner; [done|]. intros c1 r [= <- <-]. simpl. unfold c. rewrite list_lookup_middle by done. by eexists. }
  destruct (inner_of x w) as [|c1 r|]; [done| |done]. by destruct (peer_alive c1 w).
Qed.

Lemma inv_receive c w : inv w → inv (receive c w).2.
Proof.
  intros Hw. unfold receive. destruct (chans w !! c) as [ch|] eqn:Hc; [|done]. pose proof (inv_once w Hw c ch Hc) as [Hnd Hs].
  pose proof (queued_read ch Hs) as Hr. destruct (Channel.read E1 ch) as [[m|err|] ch']; [|done|done]. destruct Hr as [Hq Hs']. simpl.
  destruct Hw as [H1 H2 H3 H4 H5 H6 H7]. set (l := map fst (msg_handles m)) in *. rewrite Hq in Hnd. apply NoDup_app in Hnd as (_ & Hdis & Hnd).
  assert (∀ c1 ch1, <[c := ch']> (chans w) !! c1 = Some ch1 → ∃ ch0, chans w !! c1 = Some ch0 ∧ (∀ o, o ∈ queued ch1 → o ∈ queued ch0 ∧ o ∉ l)) as Hch.
  { intros c1 ch1 [(<- & <- & _)|[Hne Hc1]]%list_lookup_insert_Some.
    - exists ch. split; [done|]. intros o Ho. split; [rewrite Hq; set_solver|]. intros Hl. by apply (Hdis o).
    - exists ch1. split; [done|]. intros o Ho. split; [done|]. intros Hl. apply Hne. apply (H6 c ch c1 ch1 o Hc Hc1); [rewrite Hq; set_solver|done]. }
  split; try done; simpl.
  - intros o [Ho|Ho]%elem_of_union; [|by apply H3]. apply elem_of_list_to_set in Ho. apply (H4 c ch o Hc). rewrite Hq. set_solver.
  - intros c1 ch1 o Hc1 Ho. destruct (Hch c1 ch1 Hc1) as (ch0 & Hc0 & Hsub). destruct (Hsub o Ho) as [Ho0 Hl]. destruct (H4 c1 ch0 o Hc0 Ho0). split; [done|]. set_solver.
  - intros c1 ch1 [(<- & <- & _)|[Hne Hc1]]%list_lookup_insert_Some; [done|by apply (H5 c1)].
  - intros c1 ch1 c2 ch2 o Hc1 Hc2 Ho1 Ho2. destruct (Hch c1 ch1 Hc1) as (ch3 & Hc3 & Hs3). destruct (Hch c2 ch2 Hc2) as (ch4 & Hc4 & Hs4).
    apply (H6 c1 ch3 c2 ch4 o); [done|done|by apply Hs3|by apply Hs4].
  - intros x c1 r Hx. apply lookup_lt_is_Some_2. rewrite length_insert. by apply lookup_lt_is_Some_1, (H7 x c1 r).
Qed.

Lemma inv_close_channel c w : inv w → inv (close_channel c w).
Proof.
  intros Hw. unfold close_channel. destruct (chans w !! c) as [ch|] eqn:Hc; [|done]. pose proof (inv_once w Hw c ch Hc) as [_ Hs].
  destruct (queued_drop ch Hs) as (_ & _ & Hq & Hs'). set (w1 := with_chans _ w).
  assert (∀ c1 ch1, chans w1 !! c1 = Some ch1 → (∃ ch0, chans w !! c1 = Some ch0 ∧ c1 ≠ c ∧ ch0 = ch1) ∨ queued ch1 = [] ∧ silent ch1) as Hch.
  { intros c1 ch1 [(<- & <- & _)|[Hne Hc1]]%list_lookup_insert_Some; [by right|left]. exists ch1. by split_and!. }
  assert (inv w1) as Hw1.
  { destruct Hw as [H1 H2 H3 H4 H5 H6 H7]. split; try done.
    - intros c1 ch1 o Hc1 Ho. destruct (Hch c1 ch1 Hc1) as [(ch0 & Hc0 & _ & ->)|[E _]]; [by apply (H4 c1 ch1)|]. rewrite E in Ho. by apply not_elem_of_nil in Ho.
    - intros c1 ch1 Hc1. destruct (Hch c1 ch1 Hc1) as [(ch0 & Hc0 & _ & ->)|[-> Hs1]]; [by apply (H5 c1 ch1)|]. split; [constructor|done].
    - intros c1 ch1 c2 ch2 o Hc1 Hc2 Ho1 Ho2. destruct (Hch c1 ch1 Hc1) as [(ch0 & Hc0 & _ & ->)|[E _]]; [|rewrite E in Ho1; by apply not_elem_of_nil in Ho1].
      destruct (Hch c2 ch2 Hc2) as [(ch3 & Hc3 & _ & ->)|[E _]]; [|rewrite E in Ho2; by apply not_elem_of_nil in Ho2]. by apply (H6 c1 ch1 c2 ch2 o).
    - intros x c1 r Hx. apply lookup_lt_is_Some_2. simpl. rewrite length_insert. by apply lookup_lt_is_Some_1, (H7 x c1 r). }
  assert (∀ l, held (foldr drop_object w1 l) = held w1 ∧ chans (foldr drop_object w1 l) = chans w1) as Hsame by (induction l; done).
  assert (∀ o, o ∈ queued ch → o ∉ held w ∧ ∀ c1 ch1, chans w1 !! c1 = Some ch1 → o ∉ queued ch1) as Hfree.
  { intros o Ho. split; [by apply (inv_queued w Hw c ch)|]. intros c1 ch1 Hc1 Ho1. destruct (Hch c1 ch1 Hc1) as [(ch0 & Hc0 & Hne & ->)|[E _]].
    - apply Hne. symmetry. by apply (inv_apart w Hw c ch c1 ch1 o).
    - rewrite E in Ho1. by apply not_elem_of_nil in Ho1. }
  revert Hfree. generalize (queued ch) as l. induction l as [|o l IH]; intros Hfree; [done|]. cbn [foldr]. destruct (Hsame l) as [Eh Ecs].
  destruct (Hfree o) as [Hh Hnq]; [left|]. apply inv_drop_object.
  - apply IH. intros o1 Ho1. apply Hfree. by right.
  - by rewrite Eh.
  - intros c1 ch1. rewrite Ecs. apply Hnq.
Qed.

Lemma inv_close_object o w : inv w → o ∈ held w → inv (close_object o w).
Proof.
  intros Hw Ho. assert (∀ c ch, chans w !! c = Some ch → o ∉ queued ch) as Hnq by (intros c ch Hc Hq; by destruct (inv_queued w Hw c ch o Hc Hq)).
  change (inv (drop_object o (with_held (held w ∖ {[o]}) w))). apply inv_drop_object; [|simpl; set_solver|done]. destruct Hw as [H1 H2 H3 H4 H5 H6 H7]. split; try done; simpl.
  - intros o1 Ho1. apply H3. set_solver.
  - intros c ch o1 Hc Ho1. destruct (H4 c ch o1 Hc Ho1). split; [done|set_solver].
Qed.

Lemma inv_set_object w o s : inv w → inv (set_state o s w).2 ∧ inv (set_strategy o s w).2.
Proof.
  intros Hw. unfold set_state, set_strategy. destruct (1 <? s); [done|]. unfold object_of. destruct (objects w !! o) as [ob|]; [|done].
  destruct (exns w !! exn ob) as [[ex c]|] eqn:He; [|done]. split; [by apply (inv_set_exn w (exn ob) ex c)|].
  destruct (current ex); try done; by apply (inv_set_exn w (exn ob) ex c).
Qed.

Lemma exec_inv a w ev w' : inv w → exec a w = Some (ev, w') → inv w'.
Proof.
  intros Hw. destruct a as [t ty|e|e|x r|x|c|c|o|o s|o s]; simpl; try (intros [= <- <-]).
  - by apply inv_raise.
  - by apply inv_handle_step.
  - by apply inv_kill.
  - by apply inv_create_channel.
  - by apply inv_set_inner.
  - by apply inv_receive.
  - by apply inv_close_channel.
  - case_decide; [|done]. intros [= <- <-]. by apply inv_close_object.
  - case_decide; [|done]. intros [= <- <-]. by apply inv_set_object.
  - case_decide; [|done]. destruct (inv_set_object w o s Hw) as [_ Hi]. destruct (set_strategy o s w) as [r0 w0]. intros [= <- <-]. done.
Qed.

Lemma init_inv : inv init.
Proof. by split. Qed.

Lemma steps_inv tr w : steps init tr w → inv w.
Proof. intros H. remember init as w0 eqn:E. induction H as [|w tr w1 a ev w2 _ IH Hx]; [subst; apply init_inv|]. apply (exec_inv a w1 ev w2); [by apply IH|done]. Qed.

(** C19. At any time at most one handler has an exception in its hands: two exception objects of
    the same exception that handlers hold are the same object, and the thread that raised the
    exception (if it has not been killed) waits for exactly this object. *)
Theorem exception_one_handler tr w o1 o2 ob1 ob2 : steps init tr w → o1 ∈ held w → o2 ∈ held w →
  objects w !! o1 = Some ob1 → objects w !! o2 = Some ob2 → exn ob1 = exn ob2 →
  o1 = o2 ∧ ∃ ex c, exns w !! exn ob1 = Some (ex, c) ∧ waits_on c = Some o1.
Proof.
  intros Hst H1 H2 E1 E2 E. pose proof (steps_inv tr w Hst) as Hw. destruct (inv_held w Hw o1 H1) as (ob & Ho1 & Hop1). destruct (inv_held w Hw o2 H2) as (ob' & Ho2 & Hop2).
  rewrite E1 in Ho1. rewrite E2 in Ho2. injection Ho1 as <-. injection Ho2 as <-.
  destruct (inv_wait w Hw o1 ob1 E1 Hop1) as (ex1 & c1 & Hx1 & Hc1). destruct (inv_wait w Hw o2 ob2 E2 Hop2) as (ex2 & c2 & Hx2 & Hc2).
  rewrite E, Hx2 in Hx1. injection Hx1 as <- <-. rewrite Hc1 in Hc2. injection Hc2 as <-. split; [done|]. exists ex2, c2. by rewrite E.
Qed.

(** ** The order of the handlers *)
Lemma dispatch_app f l evs1 l1 evs2 s : dispatch f l evs1 (Asking l1) → dispatch f l1 evs2 s → dispatch f l (evs1 ++ evs2) s.
Proof.
  intros H. remember (Asking l1) as s1 eqn:E. induction H as [l|x l evs s1 H IH|x l|x l evs s1 Hf H IH|x l h Hh]; simplify_eq; intros H2; simpl.
  - done.
  - constructor. by apply IH.
  - constructor; [done|]. by apply IH.
Qed.

Lemma dispatch_answer f l evs x l1 h : dispatch f l evs (Offering x l1) → dispatch f l (evs ++ [Answer h]) (if h || f then Handled else Asking l1).
Proof.
  intros H. remember (Offering x l1) as s1 eqn:E. induction H as [l|y l evs s1 H IH|y l|y l evs s1 Hf H IH|y l h' Hh]; simplify_eq; simpl.
  - constructor. by apply IH.
  - destruct (h || f) eqn:Eh; [by constructor|]. apply orb_false_iff in Eh as [-> ->]. constructor; [done|constructor].
  - constructor; [done|]. by apply IH.
Qed.

(** How far the thread of an exception is, after [evs]. *)
Definition progress (t : Z) (jobs : list Z) (ex : Exception) (c : pc) (second : bool) (evs : list event) : Prop :=
  let f := first_only_of (ex_type ex) in
  let spec := dispatch f (order t (ex_type ex) jobs second) evs in
  match c with
  | Loop it f' => f' = f ∧ ∃ l, yields (proc_of t) t second it l ∧ spec (Asking l)
  | Offered x _ it f' | Awaiting x _ it f' => f' = f ∧ ∃ l, yields (proc_of t) t second it l ∧ spec (Offering x l)
  | Returned r | Ended r => match r with Ok _ => spec Handled | Err ZxError.NEXT => spec (Asking []) | _ => False end
  | Killed _ => ∃ s, spec s
  | Exiting _ => False
  end.
Definition pc_undecided (c : pc) : bool :=
  match c with Loop it _ | Offered _ _ it _ | Awaiting _ _ it _ => undecided it | _ => false end.
Definition tracked (e : nat) (ex : Exception) (c : pc) (tr : list (op * option event)) : Prop :=
  ex_type ex ≠ ExceptionType.ThreadExiting → ∀ jobs, ancestors (job_of (proc_of (thread ex))) jobs →
  (pc_undecided c = true → ∀ second, progress (thread ex) jobs ex c second (events_of e tr) ∧ decision e tr second) ∧
  ∃ second, progress (thread ex) jobs ex c second (events_of e tr) ∧ decision e tr second.

Lemma steps_snoc_inv w tr a ev w2 : steps w (tr ++ [(a, ev)]) w2 → ∃ w1, steps w tr w1 ∧ exec a w1 = Some (ev, w2).
Proof.
  intros H. remember (tr ++ [(a, ev)]) as l eqn:El. destruct H as [w|w tr' w1 a' ev' w2 H Hx]; [by destruct tr|]. apply app_inj_2 in El as [-> [= -> ->]]; eauto.
Qed.
Lemma steps_det tr w w' : steps init tr w → steps init tr w' → w = w'.
Proof.
  revert w w'. induction tr as [|[a ev] tr IH] using rev_ind; intros w w' H H'.
  - assert (∀ v, steps init [] v → v = init) as Hv; [|by rewrite (Hv w), (Hv w')]. intros v Hv. remember [] as l eqn:El. destruct Hv as [|? tr ? ? ? ? _ _]; [done|by destruct tr].
  - apply steps_snoc_inv in H as (w1 & H1 & Hx). apply steps_snoc_inv in H' as (w2 & H2 & Hx'). rewrite (IH w1 w2 H1 H2), Hx' in Hx. by injection Hx.
Qed.
Lemma snoc_split {A} (l l1 l2 : list A) x y : l ++ [y] = l1 ++ x :: l2 → (l2 = [] ∧ l1 = l ∧ x = y) ∨ ∃ l3, l2 = l3 ++ [y] ∧ l = l1 ++ x :: l3.
Proof.
  destruct l2 as [|z l3 _] using rev_ind; [intros [-> [= ->]]%app_inj_2; [by left|done]|]. rewrite app_comm_cons, app_assoc. intros [-> [= ->]]%app_inj_2; [right; by exists l3|done].
Qed.
(** The choice stays what it was, unless the step was the decision. *)
Lemma decision_snoc e tr w a ev second : steps init tr w → decision e tr second →
  (a = Step e → ∀ ex f, exns w !! e = Some (ex, Loop (Exceptionates (Debug true)) f) → second = wish e tr) → decision e (tr ++ [(a, ev)]) second.
Proof.
  intros Hs Hd Hnew tr1 ev1 tr2 w1 ex1 f Et Hs1 He1. apply snoc_split in Et as [(-> & -> & [= <- <-])|(tr3 & -> & ->)]; [|by eapply Hd].
  rewrite (steps_det tr w1 w Hs1 Hs) in He1. by eapply Hnew.
Qed.

Lemma events_of_snoc e tr a ev : events_of e (tr ++ [(a, ev)]) = events_of e tr ++ match a with Step e' => if decide (e' = e) then option_list ev else [] | _ => [] end.
Proof.
  unfold events_of. rewrite omap_app. f_equal. simpl. destruct a as [| e' | | | | | | | |]; try done. destruct (decide _); [by destruct ev|done].
Qed.

(** One step of a thread, as seen from its exception. *)
Inductive advance (ex : Exception) : pc → option event → Exception → pc → Prop :=
| advance_none it it' f : next ex it = (None, it') → advance ex (Loop it f) None ex (Returned (Err ZxError.NEXT))
| advance_offer it it' f x o : next ex it = (Some x, it') → advance ex (Loop it f) (Some (Offer x)) ex (Offered x o it' f)
| advance_refused it it' f x : next ex it = (Some x, it') → advance ex (Loop it f) (Some (Refused x)) ex (Loop it' f)
| advance_record x o it f : advance ex (Offered x o it f) None (set_current (type_of x) ex) (Awaiting x o it f)
| advance_answer x o it f : advance ex (Awaiting x o it f) (Some (Answer (handled ex))) (set_current ExceptionChannelType.None_ ex)
    (if handled ex || f then Returned (Ok tt) else Loop it f)
| advance_exit o : advance ex (Exiting o) None ex (Ended (Ok tt))
| advance_end r : advance ex (Returned r) None ex (Ended r).

Lemma handle_step_advance e w ev w' : inv w → handle_step e w = Some (ev, w') →
  ∃ ex c ex' c', exns w !! e = Some (ex, c) ∧ exns w' = <[e := (ex', c')]> (exns w) ∧ advance ex c ev ex' c'.
Proof.
  intros Hw. unfold handle_step. destruct (exns w !! e) as [[ex c]|]; [|done]. intros E. exists ex, c. destruct c as [it f|x o it f|x o it f|o|r|r|o]; simpl in E.
  - destruct (next ex it) as [[x|] it'] eqn:En.
    + pose proof (send_exns x e ex w Hw) as Hes. pose proof (send_cases x e ex w Hw) as Hc. destruct (send_exception x e ex w) as [[o|err|] w1]; simpl in Hes.
      * injection E as <- <-. exists ex, (Offered x o it' f). simpl. rewrite Hes. split; [done|]. split; [done|by constructor].
      * assert (err = ZxError.NEXT) as -> by naive_solver. injection E as <- <-. exists ex, (Loop it' f). simpl. rewrite Hes. split; [done|]. split; [done|by constructor].
      * naive_solver.
    + injection E as <- <-. exists ex, (Returned (Err ZxError.NEXT)). split; [done|]. split; [done|by econstructor].
  - injection E as <- <-. do 2 eexists. split; [done|]. split; [done|constructor].
  - destruct (closed o w); [|done]. injection E as <- <-. do 2 eexists. split; [done|]. split; [done|constructor].
  - destruct (closed o w); [|done]. injection E as <- <-. do 2 eexists. split; [done|]. split; [done|constructor].
  - destruct (unhandled r && _); injection E as <- <-; (do 2 eexists; split; [done|]; split; [done|constructor]).
  - done.
  - done.
Qed.

(** What an exception is: nothing of it changes but its flags. *)
Lemma progress_flags t jobs ex ex' c second evs : ex_type ex' = ex_type ex → progress t jobs ex c second evs → progress t jobs ex' c second evs.
Proof. unfold progress. by intros ->. Qed.
Lemma tracked_flags e ex ex' c tr : ex_type ex' = ex_type ex → thread ex' = thread ex → tracked e ex c tr → tracked e ex' c tr.
Proof. unfold tracked, progress. by intros -> ->. Qed.

Lemma advance_same ex c ev ex' c' : advance ex c ev ex' c' → thread ex' = thread ex ∧ ex_type ex' = ex_type ex.
Proof. by destruct 1. Qed.

Lemma progress_advance t jobs ex c ev ex' c' second evs : thread ex = t → advance ex c ev ex' c' →
  (∀ it f, c = Loop it f → it = Exceptionates (Debug true) → second = second_chance ex) →
  progress t jobs ex c second evs → progress t jobs ex' c' second (evs ++ option_list ev) ∧ (pc_undecided c' = true → pc_undecided c = true).
Proof.
  intros Et Hadv Hsec Hp. assert (progress t jobs ex c' second (evs ++ option_list ev) ∧ (pc_undecided c' = true → pc_undecided c = true)) as [H1 H2].
  2: { split; [|done]. destruct (advance_same _ _ _ _ _ Hadv) as [_ Ety]. by apply (progress_flags _ _ ex). }
  unfold progress in *. destruct Hadv as [it it' f Hn|it it' f x o Hn|it it' f x Hn|x o it f|x o it f|o|r]; simpl option_list; rewrite ?app_nil_r.
  - destruct Hp as (-> & l & Hy & Hd). subst t. pose proof (next_yields ex second it l Hy) as Hl. rewrite Hn in Hl. rewrite Hl in Hd; [done|]. intros _ ->. by eapply Hsec.
  - destruct Hp as (-> & l & Hy & Hd). subst t. pose proof (next_yields ex second it l Hy) as Hl. rewrite Hn in Hl. destruct Hl as (l' & -> & Hy' & Hu); [intros _ ->; by eapply Hsec|].
    split; [|done]. split; [done|]. exists l'. split; [done|]. eapply dispatch_app; [exact Hd|constructor].
  - destruct Hp as (-> & l & Hy & Hd). subst t. pose proof (next_yields ex second it l Hy) as Hl. rewrite Hn in Hl. destruct Hl as (l' & -> & Hy' & Hu); [intros _ ->; by eapply Hsec|].
    split; [|done]. split; [done|]. exists l'. split; [done|]. eapply dispatch_app; [exact Hd|]. constructor. constructor.
  - done.
  - destruct Hp as (-> & l & Hy & Hd). apply (dispatch_answer _ _ _ _ _ (handled ex)) in Hd. destruct (handled ex || _); [done|]. split; [|done]. split; [done|]. by exists l.
  - done.
  - done.
Qed.

Lemma tracked_advance e ex c ev ex' c' tr w : steps init tr w → exns w !! e = Some (ex, c) → second_chance ex = wish e tr →
  advance ex c ev ex' c' → tracked e ex c tr → tracked e ex' c' (tr ++ [(Step e, ev)]).
Proof.
  intros Hst He Hwish Hadv Ht Hty jobs Hj. destruct (advance_same _ _ _ _ _ Hadv) as [Eth Ety]. rewrite Eth in *. rewrite Ety in Hty. destruct (Ht Hty jobs Hj) as [Hall [sec [Hsec Hdec]]].
  rewrite events_of_snoc, decide_True by done.
  assert (∀ it f, c = Loop it f → it = Exceptionates (Debug true) → pc_undecided c' = false) as Hlast.
  { intros it f -> ->. apply not_true_is_false. intros Hu. inversion Hadv as [? it' ? Hn|? it' ? x o Hn|? it' ? x Hn| | | |]; subst; simpl in *; try done;
      match type of Hn with context [second_chance ?y] => destruct (second_chance y) end; simpl in Hn; simplify_eq; simpl in Hu; (done || by destruct (job_parent _)). }
  assert (∀ second, (pc_undecided c = true → second = second_chance ex ∨ pc_undecided c' = true) → progress (thread ex) jobs ex c second (events_of e tr) → decision e tr second →
    (progress (thread ex) jobs ex' c' second (events_of e tr ++ option_list ev) ∧ decision e (tr ++ [(Step e, ev)]) second) ∧ (pc_undecided c' = true → pc_undecided c = true)) as Hone.
  { intros second Hs Hp Hd.
    assert (∀ it f, c = Loop it f → it = Exceptionates (Debug true) → second = second_chance ex) as Hsc.
    { intros it f Ec Eit. pose proof (Hlast it f Ec Eit) as Hl. subst c it. destruct (Hs eq_refl) as [?|Hu]; [done|congruence]. }
    destruct (progress_advance (thread ex) jobs ex c ev ex' c' second (events_of e tr) eq_refl Hadv Hsc Hp) as [H1 H2]. split; [split; [done|]|done].
    apply (decision_snoc e tr w); [done|done|]. intros _ ex1 f He1. rewrite He in He1. injection He1 as <- ->. rewrite <-Hwish. by eapply Hsc. }
  split.
  - intros Hu second. assert (pc_undecided c = true) as Hc by (by destruct (Hone sec) as [_ Hk]; [auto|done..|apply Hk]).
    destruct (Hall Hc second). by apply Hone; [by right|..].
  - destruct (pc_undecided c) eqn:Hc.
    + exists (second_chance ex). destruct (Hall eq_refl (second_chance ex)). by apply Hone; [by left|..].
    + exists sec. by apply Hone.
Qed.

(** What the other operations do to the exceptions. *)
Definition flags_only (w w' : world) : Prop := length (exns w') = length (exns w) ∧ ∀ e ex' c', exns w' !! e = Some (ex', c') →
  ∃ ex c, exns w !! e = Some (ex, c) ∧ thread ex' = thread ex ∧ ex_type ex' = ex_type ex ∧ (c' = c ∨ ∃ o, c' = Killed o).

Lemma flags_only_same w w' : exns w' = exns w → flags_only w w'.
Proof. intros E. split; [by rewrite E|]. intros e ex c. rewrite E. exists ex, c. by auto. Qed.

Lemma flags_only_set w e ex c ex' c' : exns w !! e = Some (ex, c) → thread ex' = thread ex → ex_type ex' = ex_type ex → c' = c ∨ (∃ o, c' = Killed o) → flags_only w (set_exn e ex' c' w).
Proof.
  intros He Ht Hty Hc. split; [simpl; by rewrite length_insert|]. intros e1 ex1 c1 [(<- & [= <- <-] & _)|[Hne He1]]%list_lookup_insert_Some; [by exists ex, c|exists ex1, c1; by auto].
Qed.

Lemma exec_flags_only a w ev w' : match a with Raise _ _ | Step _ => False | _ => True end → exec a w = Some (ev, w') → flags_only w w'.
Proof.
  destruct a as [t ty|e|e|x r|x|c|c|o|o s|o s]; simpl; intros Ha; try done; repeat case_decide; try done;
    try (destruct (set_strategy o s w) as [r0 w0] eqn:Eset; apply (f_equal snd) in Eset; simpl in Eset); intros [= <- <-]; try done.
  - unfold kill. destruct (exns w !! e) as [[ex c]|] eqn:He; [|by apply flags_only_same]. destruct (is_ended c); [by apply flags_only_same|].
    apply (flags_only_set w e ex c); eauto.
  - apply flags_only_same. unfold create_channel. destruct (inner_of x w) as [|c1 r1|]; [done| |done]. by destruct (peer_alive c1 w).
  - by apply flags_only_same.
  - apply flags_only_same. unfold receive. destruct (chans w !! c) as [ch|]; [|done]. by destruct (Channel.read E1 ch) as [[m|err|] ch'].
  - apply flags_only_same. unfold close_channel. destruct (chans w !! c) as [ch|]; [|done]. by induction (queued ch).
  - by apply flags_only_same.
  - unfold set_state. destruct (1 <? s); [by apply flags_only_same|]. unfold object_of. destruct (objects w !! o) as [ob|]; [|by apply flags_only_same].
    destruct (exns w !! exn ob) as [[ex c]|] eqn:He; [|by apply flags_only_same]. by eapply flags_only_set; eauto.
  - rewrite <-Eset. unfold set_strategy. destruct (1 <? s); [by apply flags_only_same|]. unfold object_of. destruct (objects w !! o) as [ob|]; [|by apply flags_only_same].
    destruct (exns w !! exn ob) as [[ex c]|] eqn:He; [|by apply flags_only_same]. destruct (current ex); try (by apply flags_only_same); by eapply flags_only_set; eauto.
Qed.

Lemma raise_exns t ty w : inv w → ∃ ex c, exns (raise t ty w) = exns w ++ [(ex, c)] ∧ thread ex = t ∧ ex_type ex = ty ∧ (ty ≠ ExceptionType.ThreadExiting → c = handle_start ex).
Proof.
  intros Hw. unfold raise. set (ex := mkException _ _ _ _ _). pose proof (send_exns (XDebugger (proc_of t)) (length (exns w)) ex w Hw) as He.
  destruct (decide _); [|by exists ex, (handle_start ex)]. destruct (send_exception _ _ _ _) as [[o|err|] w']; simpl in *; rewrite He; by do 2 eexists.
Qed.

Lemma exec_length a w ev w' : inv w → exec a w = Some (ev, w') → (length (exns w) ≤ length (exns w'))%nat.
Proof.
  intros Hw Hx. destruct a as [t ty|e|e|x r|x|c|c|o|o s|o s]; simpl in Hx.
  - injection Hx as <- <-. destruct (raise_exns t ty w Hw) as (ex & c & -> & _). rewrite length_app. lia.
  - destruct (handle_step_advance e w ev w' Hw Hx) as (ex & c & ex1 & c1 & He & -> & _). by rewrite length_insert.
  - by destruct (exec_flags_only (Kill e) w ev w' I Hx) as [-> _].
  - by destruct (exec_flags_only (CreateChannel x r) w ev w' I Hx) as [-> _].
  - by destruct (exec_flags_only (ShutdownTask x) w ev w' I Hx) as [-> _].
  - by destruct (exec_flags_only (Receive c) w ev w' I Hx) as [-> _].
  - by destruct (exec_flags_only (CloseChannel c) w ev w' I Hx) as [-> _].
  - by destruct (exec_flags_only (CloseObject o) w ev w' I Hx) as [-> _].
  - by destruct (exec_flags_only (SetState o s) w ev w' I Hx) as [-> _].
  - by destruct (exec_flags_only (SetStrategy o s) w ev w' I Hx) as [-> _].
Qed.

Lemma raise_exiting t w : inv w → ∃ ex c, exns (raise t ExceptionType.ThreadExiting w) = exns w ++ [(ex, c)] ∧ ((∃ o, c = Exiting o) ∨ ∃ r, c = Ended r).
Proof.
  intros Hw. unfold raise. set (ex := mkException _ _ _ _ _). pose proof (send_exns (XDebugger (proc_of t)) (length (exns w)) ex w Hw) as He.
  rewrite decide_True by done. destruct (send_exception _ _ _ _) as [[o|err|] w']; simpl in *; rewrite He; do 2 eexists; (split; [done|]); eauto.
Qed.

Lemma start_tracked e ex tr : events_of e tr = [] → (∀ ev, (Step e, ev) ∉ tr) → tracked e ex (handle_start ex) tr.
Proof.
  intros Hev Hno Hty jobs Hj. rewrite Hev.
  assert (∀ second, decision e tr second) as Hdec. { intros second tr1 ev tr2 w1 ex1 f -> _ _. destruct (Hno ev). set_solver. }
  assert (∀ second it l f, yields (proc_of (thread ex)) (thread ex) second it l → f = first_only_of (ex_type ex) → order (thread ex) (ex_type ex) jobs second = l →
    progress (thread ex) jobs ex (Loop it f) second [] ∧ decision e tr second) as Hgo.
  { intros second it l f Hy Hf Ho. split; [|done]. unfold progress. split; [done|]. exists l. split; [done|]. rewrite Ho. constructor. }
  unfold handle_start. destruct (ex_type ex) eqn:Et; try done; (split; [intros _ second|exists false]); (eapply Hgo; [by constructor|done|done]).
Qed.

Lemma send_exited x e ex w : inv w → exited (send_exception x e ex w).2 = exited w.
Proof. intros Hw. by destruct (send_cases x e ex w Hw) as [(? & ? & ? & ? & -> & _)|[(? & ? & -> & _)|[-> _]]]. Qed.

Lemma exec_exited a w ev w' : inv w → exec a w = Some (ev, w') → exited w ⊆ exited w'.
Proof.
  intros Hw. destruct a as [t ty|e|e|x r|x|c|c|o|o s|o s]; simpl; repeat case_decide; try done; intros E; try (injection E as <- <-); try done.
  - unfold raise. pose proof (λ ex, send_exited (XDebugger (proc_of t)) (length (exns w)) ex w Hw) as Hs. set (ex := mkException _ _ _ _ _) in *. specialize (Hs ex).
    destruct (decide _); [|done]. destruct (send_exception _ _ _ _) as [[o|err|] w']; simpl in *; by rewrite Hs.
  - unfold handle_step in E. destruct (exns w !! e) as [[ex c]|]; [|done]. destruct c as [it f|x o it f|x o it f|o|r|r|o]; simpl in E; simplify_eq; try done.
    + destruct (next ex it) as [[x|] it']; [|by simplify_eq]. pose proof (send_exited x e ex w Hw) as Hs.
      destruct (send_exception x e ex w) as [[o|err|] w1]; simpl in *; [|destruct err|]; simplify_eq; simpl; by rewrite Hs.
    + destruct (closed o w); [|done]. by simplify_eq.
    + destruct (closed o w); [|done]. by simplify_eq.
    + destruct (unhandled r && _); simplify_eq; simpl; [set_solver|done].
  - unfold kill. destruct (exns w !! e) as [[ex c]|]; [|done]. by destruct (is_ended c).
  - unfold create_channel. destruct (inner_of x w) as [|c1 r1|]; [done| |done]. by destruct (peer_alive c1 w).
  - unfold receive. destruct (chans w !! c) as [ch|]; [|done]. by destruct (Channel.read E1 ch) as [[m|err|] ch'].
  - unfold close_channel. destruct (chans w !! c) as [ch|]; [|done]. by induction (queued ch).
  - unfold set_state. destruct (1 <? s); [done|]. by destruct (object_of o w) as [[[[]]]|].
  - destruct (set_strategy o s w) as [r0 w0] eqn:Eset. injection E as <- <-. apply (f_equal snd) in Eset. simpl in Eset. subst w0. unfold set_strategy. destruct (1 <? s); [done|]. destruct (object_of o w) as [[[[? ?] ex] ?]|]; [|done]. by destruct (current ex).
Qed.

(** What holds of every exception after the steps [tr]. *)
Definition dead_exits (ex : Exception) (c : pc) (w : world) : Prop :=
  c = Ended (Err ZxError.NEXT) → ExceptionType.is_synth (ex_type ex) = false → proc_of (thread ex) ∈ exited w.
Definition followed (tr : list (op * option event)) (w : world) : Prop :=
  (∀ e ex c, exns w !! e = Some (ex, c) → tracked e ex c tr ∧ dead_exits ex c w) ∧ ∀ e, (length (exns w) ≤ e)%nat → events_of e tr = [] ∧ ∀ ev, (Step e, ev) ∉ tr.

Lemma tracked_other e ex c tr w a ev : steps init tr w → match a with Step e' => e' ≠ e | _ => True end → tracked e ex c tr → tracked e ex c (tr ++ [(a, ev)]).
Proof.
  intros Hst Ha Ht. assert (events_of e (tr ++ [(a, ev)]) = events_of e tr) as E.
  { rewrite events_of_snoc. destruct a; try apply app_nil_r. rewrite decide_False by done. apply app_nil_r. }
  assert (∀ second, decision e tr second → decision e (tr ++ [(a, ev)]) second) as Hd. { intros second Hd. apply (decision_snoc e tr w); [done|done|]. by intros ->. }
  unfold tracked. rewrite E. intros Hty jobs Hj. destruct (Ht Hty jobs Hj) as [H1 (second & H2 & H3)]. split; [intros Hu second'; destruct (H1 Hu second'); auto|exists second; auto].
Qed.

Lemma tracked_killed e ex c o tr : tracked e ex c tr → tracked e ex (Killed o) tr.
Proof.
  intros Ht Hty jobs Hj. split; [done|]. destruct (Ht Hty jobs Hj) as [_ [second [Hp Hd]]]. exists second. split; [|done]. unfold progress in *.
  destruct c as [it f|x o' it f|x o' it f|o'|r|r|o']; try naive_solver; destruct r as [|[]|]; eauto; done.
Qed.

(** The flag of an exception is the last choice. *)
Lemma wish_snoc e tr a ev : wish e (tr ++ [(a, ev)]) = match ev with Some (Chose e' second) => if decide (e' = e) then second else wish e tr | _ => wish e tr end.
Proof. unfold wish. by rewrite foldl_app. Qed.
Lemma exec_choice a w ev w' : inv w → exec a w = Some (ev, w') →
  (∀ e second, ev = Some (Chose e second) → is_Some (exns w !! e)) ∧
  ∀ e ex' c', exns w' !! e = Some (ex', c') →
    match exns w !! e with
    | Some (ex, _) => second_chance ex' = match ev with Some (Chose e' second) => if decide (e' = e) then second else second_chance ex | _ => second_chance ex end
    | None => second_chance ex' = false
    end.
Proof.
  intros Hw. assert (∀ w' : world, (∀ e ex' c', exns w' !! e = Some (ex', c') → match exns w !! e with Some (ex, _) => second_chance ex' = second_chance ex | None => second_chance ex' = false end) →
    (∀ e second, None = Some (Chose e second) → is_Some (exns w !! e)) ∧
    ∀ e ex' c', exns w' !! e = Some (ex', c') → match exns w !! e with Some (ex, _) => second_chance ex' = second_chance ex | None => second_chance ex' = false end) as Hnone by done.
  assert (∀ w' : world, exns w' = exns w → ∀ e ex' c', exns w' !! e = Some (ex', c') → match exns w !! e with Some (ex, _) => second_chance ex' = second_chance ex | None => second_chance ex' = false end) as Hsame.
  { intros w1 E e ex' c' He. rewrite E in He. by rewrite He. }
  assert (∀ e ex c ex1 c1, exns w !! e = Some (ex, c) → second_chance ex1 = second_chance ex → ∀ e' ex' c', <[e := (ex1, c1)]> (exns w) !! e' = Some (ex', c') →
    match exns w !! e' with Some (ex, _) => second_chance ex' = second_chance ex | None => second_chance ex' = false end) as Hset.
  { intros e ex c ex1 c1 He Hs e' ex' c' [(<- & [= <- <-] & _)|[_ He']]%list_lookup_insert_Some; [by rewrite He|by rewrite He']. }
  destruct a as [t ty|e|e|x r|x|c|c|o|o s|o s]; simpl; intros E.
  - injection E as <- <-. apply Hnone. intros e ex' c'. unfold raise. set (ex := mkException _ _ _ _ _).
    assert (∀ c0, (exns w ++ [(ex, c0)]) !! e = Some (ex', c') → match exns w !! e with Some (ex, _) => second_chance ex' = second_chance ex | None => second_chance ex' = false end) as Hgo.
    { intros c0 [He|(Hle & [_ [= <- <-]]%list_lookup_singleton_Some)]%lookup_app_Some; [by rewrite He|]. by rewrite lookup_ge_None_2. }
    pose proof (send_exns (XDebugger (proc_of t)) (length (exns w)) ex w Hw) as Hx. destruct (decide _); [|apply Hgo]. destruct (send_exception _ _ _ _) as [[o|err|] w1]; simpl in *; rewrite Hx; apply Hgo.
  - destruct (handle_step_advance e w ev w' Hw E) as (ex & c & ex1 & c1 & He & Hes & Hadv). rewrite Hes. assert (second_chance ex1 = second_chance ex) as Hs by (by destruct Hadv).
    assert (∀ e0 second, ev ≠ Some (Chose e0 second)) as Hev by (by destruct Hadv). split; [intros e0 second E0; by destruct (Hev e0 second)|]. intros e' ex' c' He'. pose proof (Hset e ex c ex1 c1 He Hs e' ex' c' He') as H.
    destruct (exns w !! e') as [[ex2 ?]|]; [|done]. destruct ev as [[]|]; try done. by destruct (Hev e0 second).
  - injection E as <- <-. apply Hnone. unfold kill. destruct (exns w !! e) as [[ex c]|] eqn:He; [|by apply Hsame]. destruct (is_ended c); [by apply Hsame|]. by eapply Hset.
  - injection E as <- <-. apply Hnone, Hsame. unfold create_channel. destruct (inner_of x w) as [|c1 r1|]; [done| |done]. by destruct (peer_alive c1 w).
  - injection E as <- <-. by apply Hnone, Hsame.
  - injection E as <- <-. apply Hnone, Hsame. unfold receive. destruct (chans w !! c) as [ch|]; [|done]. by destruct (Channel.read E1 ch) as [[m|err|] ch'].
  - injection E as <- <-. apply Hnone, Hsame. unfold close_channel. destruct (chans w !! c) as [ch|]; [|done]. by induction (queued ch).
  - case_decide; [|done]. injection E as <- <-. by apply Hnone, Hsame.
  - case_decide; [|done]. injection E as <- <-. apply Hnone. unfold set_state. destruct (1 <? s); [by apply Hsame|]. unfold object_of. destruct (objects w !! o) as [ob|]; [|by apply Hsame].
    destruct (exns w !! exn ob) as [[ex c]|] eqn:He; [|by apply Hsame]. by eapply Hset.
  - case_decide; [|done]. revert E. unfold set_strategy. destruct (1 <? s); [intros [= <- <-]; by apply Hnone, Hsame|]. unfold object_of. destruct (objects w !! o) as [ob|]; [|intros [= <- <-]; by apply Hnone, Hsame].
    destruct (exns w !! exn ob) as [[ex c]|] eqn:He; [|intros [= <- <-]; by apply Hnone, Hsame]. destruct (current ex); intros [= <- <-]; try (by apply Hnone, Hsame);
      (split; [intros e0 second [= <- <-]; by rewrite He|]; intros e' ex' c' [(<- & [= <- <-] & _)|[Hne He']]%list_lookup_insert_Some; [rewrite He; by rewrite decide_True|rewrite He'; by rewrite decide_False]).
Qed.
Lemma steps_wish tr w : steps init tr w → (∀ e ex c, exns w !! e = Some (ex, c) → second_chance ex = wish e tr) ∧ ∀ e, exns w !! e = None → wish e tr = false.
Proof.
  intros Hst. remember init as w0 eqn:E0. induction Hst as [|w0 tr w1 a ev w2 Hst IH Hx]; [subst; done|]. specialize (IH E0) as [Hw Hn]. subst w0.
  destruct (exec_choice a w1 ev w2 (steps_inv tr w1 Hst) Hx) as [Hk Hc]. split.
  - intros e ex c He. specialize (Hc e ex c He). rewrite wish_snoc. destruct (exns w1 !! e) as [[ex1 c1]|] eqn:E1.
    + rewrite Hc. rewrite (Hw e ex1 c1 E1). done.
    + rewrite Hc. symmetry. destruct ev as [[| | |e' second]|]; try by apply Hn. rewrite decide_False; [by apply Hn|]. intros ->. destruct (Hk e second eq_refl). congruence.
  - intros e He. rewrite wish_snoc. assert (exns w1 !! e = None) as E1.
    { apply lookup_ge_None. apply lookup_ge_None in He. pose proof (exec_length a w1 ev w2 (steps_inv tr w1 Hst) Hx). lia. }
    destruct ev as [[| | |e' second]|]; try by apply Hn. rewrite decide_False; [by apply Hn|]. intros ->. destruct (Hk e second eq_refl). congruence.
Qed.

Lemma handle_step_dead e w ev w' ex' c' : inv w → handle_step e w = Some (ev, w') → exns w' !! e = Some (ex', c') → dead_exits ex' c' w'.
Proof.
  intros Hw Hh He' -> Hsyn. destruct (handle_step_advance e w ev w' Hw Hh) as (ex & c & ex1 & c1 & He & Hes & Hadv). rewrite Hes in He'.
  rewrite list_lookup_insert_eq in He' by (by eapply lookup_lt_Some). injection He' as -> ->.
  assert (c = Returned (Err ZxError.NEXT) ∧ ex' = ex) as [-> ->]. { inversion Hadv; subst; try done. by destruct (handled ex || f). }
  unfold handle_step in Hh. rewrite He in Hh. simpl in Hh. rewrite Hsyn in Hh. injection Hh as <- <-. simpl. set_solver.
Qed.

Lemma steps_followed tr w : steps init tr w → followed tr w.
Proof.
  intros Hst. remember init as w0 eqn:E0. induction Hst as [|w0 tr w1 a ev w2 Hst IH Hx]; [subst; split; [done|]; intros; split; [done|set_solver]|].
  specialize (IH E0) as [Htr Hnew]. subst w0. pose proof (steps_inv tr w1 Hst) as Hw. pose proof (exec_exited a w1 ev w2 Hw Hx) as Hex.
  assert (∀ ex c, dead_exits ex c w1 → dead_exits ex c w2) as Hdead. { intros ex c Hd Hc Hs. specialize (Hd Hc Hs). set_solver. }
  assert (match a with Raise _ _ | Step _ => False | _ => True end ∨ match a with Raise _ _ | Step _ => True | _ => False end) as [Ha|Ha] by (destruct a; auto).
  { destruct (exec_flags_only a w1 ev w2 Ha Hx) as [Hlen Hf]. split.
    - intros e ex' c' He'. destruct (Hf e ex' c' He') as (ex & c & He & Hth & Hty & Hc). destruct (Htr e ex c He) as [Ht Hd].
      destruct Hc as [->|[o ->]]; (split; [apply (tracked_other _ _ _ _ w1); [done|by destruct a|]|]).
      + by apply (tracked_flags e ex).
      + intros Hc Hs. rewrite Hth. rewrite Hty in Hs. by apply (Hdead ex c).
      + apply (tracked_flags e ex); [done|done|]. by apply (tracked_killed e ex c).
      + done.
    - intros e He. destruct (Hnew e ltac:(lia)) as [H1 H2]. rewrite events_of_snoc, H1. split; [by destruct a|]. intros ev'. rewrite elem_of_app, list_elem_of_singleton. intros [?|[= <- _]]; [by eapply H2|done]. }
  destruct a as [t ty|e| | | | | | | |]; try done; simpl in Hx.
  - injection Hx as <- <-. destruct (raise_exns t ty w1 Hw) as (ex & c & Hes & Hth & Hty & Hc). split.
    + intros e ex1 c1. rewrite Hes, lookup_app_Some, list_lookup_singleton_Some. intros [He|(Hle & He & [= <- <-])].
      * destruct (Htr e ex1 c1 He). split; [by apply (tracked_other _ _ _ _ w1)|by apply Hdead].
      * split; [|]. { apply (tracked_other _ _ _ _ w1); [done|done|]. intros Hn. rewrite Hc by (by rewrite <-Hty). destruct (Hnew e ltac:(lia)). by apply start_tracked. }
        intros Hc' Hs. destruct (decide (ty = ExceptionType.ThreadExiting)) as [->|Hne]; [by rewrite Hty in Hs|]. rewrite Hc in Hc' by done. unfold handle_start in Hc'. by destruct (ex_type ex).
    + intros e. rewrite Hes, length_app, events_of_snoc, app_nil_r. intros He. destruct (Hnew e ltac:(lia)) as [H1 H2]. split; [done|]. intros ev'. rewrite elem_of_app, list_elem_of_singleton. intros [?|?]; [by eapply H2|done].
  - destruct (handle_step_advance e w1 ev w2 Hw Hx) as (ex & c & ex' & c' & He & Hes & Hadv). split.
    + intros e1 ex1 c1 He1. destruct (decide (e1 = e)) as [->|Hne].
      * split; [|by apply (handle_step_dead e w1 ev w2)]. rewrite Hes, list_lookup_insert_eq in He1 by (by eapply lookup_lt_Some). injection He1 as <- <-.
        apply (tracked_advance e ex c _ _ _ _ w1); [done|done|by apply (proj1 (steps_wish tr w1 Hst) e ex c)|done|by apply Htr].
      * rewrite Hes, list_lookup_insert_ne in He1 by done. destruct (Htr e1 ex1 c1 He1). split; [by apply (tracked_other _ _ _ _ w1)|by apply Hdead].
    + intros e1. rewrite Hes, length_insert, events_of_snoc. intros Hle. apply lookup_lt_Some in He. rewrite decide_False by lia. rewrite app_nil_r. destruct (Hnew e1 Hle) as [H1 H2]. split; [done|].
      intros ev'. rewrite elem_of_app, list_elem_of_singleton. intros [?|[= -> _]]; [by eapply H2|lia].
Qed.

(** Where the thread of an exception is, against the specification. *)
Definition agrees (c : pc) (st : status) : Prop :=
  match c with
  | Loop _ _ => ∃ l, st = Asking l
  | Offered x _ _ _ | Awaiting x _ _ _ => ∃ l, st = Offering x l
  | Returned r | Ended r => r = Ok tt ∧ st = Handled ∨ r = Err ZxError.NEXT ∧ st = Asking []
  | Exiting _ => False
  | Killed _ => True
  end.

(** What the steps of the thread of an exception do: an exceptionate is passed over exactly if it has no live channel;
    otherwise a new object of the exception is put into the queue of its channel, with the rights that the channel was created with;
    and the answer of a handler is the state it left in the exception. *)
Definition step_means (e : nat) (ex : Exception) (w : world) (ev : event) (w' : world) : Prop :=
  match ev with
  | Refused x => has_channel x w = false
  | Offer x => has_channel x w = true ∧ ∃ c rights ch ch', inner_of x w = Bind c rights ∧ chans w !! c = Some ch ∧ chans w' !! c = Some ch' ∧
      queued ch' = queued ch ++ [length (objects w)] ∧ objects w' = objects w ++ [mkExceptionObject e rights true]
  | Answer h => h = handled ex
  | Chose _ _ => False
  end.
Lemma handle_step_means e ex c w ev w' : inv w → exns w !! e = Some (ex, c) → handle_step e w = Some (Some ev, w') → step_means e ex w ev w'.
Proof.
  intros Hw He. unfold handle_step. rewrite He. destruct c as [it f|x o it f|x o it f|o|r|r|o]; simpl; [|done| |destruct (closed o w); done|by destruct (_ && _)|done|done].
  - destruct (next ex it) as [[x|] it']; [|done].
    destruct (send_cases x e ex w Hw) as [(c & rights & ch & ch' & -> & Hb & Hp & Hc & Hq & _)|[(c & rights & -> & Hb & Hp)|[-> Hb]]]; intros [= <- <-]; unfold step_means, has_channel.
    + rewrite Hb. split; [done|]. exists c, rights, ch, ch'. split; [done|]. split; [done|]. split; [simpl; apply list_lookup_insert_eq; by eapply lookup_lt_Some|done].
    + by rewrite Hb.
    + destruct (inner_of x w) as [|c r|]; [done| |done]. by destruct (Hb c r).
  - destruct (closed o w); [|done]. by intros [= <- <-].
Qed.

(** C37. An exception is offered to its handlers in the documented order, whatever the handlers
    and the other threads do: the debugger of the process, the thread, the process, the debugger
    again if its last choice before the iterator comes to this point was a second chance, then the jobs from the owner to the root; for the start
    of a process only the debuggers of the jobs, and for the start of a thread only the debugger.
    One that has no live channel is passed over and no other; the next one is asked exactly if the previous one was passed over or
    left the exception in a state that is not handled, the handling ends when one handles it (for the start of a process, when
    one received it), and if all were asked in vain a hardware exception ends the process. *)
Theorem exception_dispatch tr w e ex c jobs : steps init tr w → exns w !! e = Some (ex, c) →
  ex_type ex ≠ ExceptionType.ThreadExiting → ancestors (job_of (proc_of (thread ex))) jobs →
  (∃ second st, decision e tr second ∧ dispatch (first_only_of (ex_type ex)) (order (thread ex) (ex_type ex) jobs second) (events_of e tr) st ∧ agrees c st) ∧
  (∀ ev w', exec (Step e) w = Some (Some ev, w') → step_means e ex w ev w') ∧
  (c = Ended (Err ZxError.NEXT) → ExceptionType.is_synth (ex_type ex) = false → proc_of (thread ex) ∈ exited w).
Proof.
  intros Hst He Hty Hj. destruct (steps_followed tr w Hst) as [Hf _]. destruct (Hf e ex c He) as [Ht Hd]. split; [|split; [|exact Hd]].
  2: { intros ev w' Hx. apply (handle_step_means e ex c); [by eapply steps_inv|done|done]. }
  destruct (Ht Hty jobs Hj) as [_ [second [Hp Hdec]]]. exists second. unfold progress in Hp. unfold agrees. destruct c as [it f|x o it f|x o it f|o|r|r|o].
  - destruct Hp as (_ & l & _ & Hp). eauto.
  - destruct Hp as (_ & l & _ & Hp). eauto.
  - destruct Hp as (_ & l & _ & Hp). eauto.
  - done.
  - destruct r as [[]|[]|]; try done; eauto 8.
  - destruct r as [[]|[]|]; try done; eauto 8.
  - destruct Hp as [s Hp]. eauto.
Qed.

(** ** The handling ends *)
Definition steps_of (e : nat) (a : op) : nat := match a with Step e' => if decide (e' = e) then 1 else 0 | _ => 0 end.
Definition step_count (e : nat) (tr : list (op * option event)) : nat := sum_list (map (λ x, steps_of e x.1) tr).

Lemma step_count_snoc e tr a ev : step_count e (tr ++ [(a, ev)]) = (step_count e tr + steps_of e a)%nat.
Proof. unfold step_count. induction tr as [|b tr IH]; simpl; lia. Qed.

(** An upper bound of the steps that are left; with a second chance there are more. *)
Inductive budget (ex : Exception) : pc → nat → Prop :=
| budget_loop it f l : yields (proc_of (thread ex)) (thread ex) true it l → budget ex (Loop it f) (3 * length l + 2)
| budget_offered x o it f l : yields (proc_of (thread ex)) (thread ex) true it l → budget ex (Offered x o it f) (3 * length l + 4)
| budget_awaiting x o it f l : yields (proc_of (thread ex)) (thread ex) true it l → budget ex (Awaiting x o it f) (3 * length l + 3)
| budget_exiting o : budget ex (Exiting o) 1
| budget_returned r : budget ex (Returned r) 1
| budget_ended r : budget ex (Ended r) 0
| budget_killed o : budget ex (Killed o) 0.

Lemma next_shrinks ex it l x it' : yields (proc_of (thread ex)) (thread ex) true it l → next ex it = (Some x, it') →
  ∃ l', yields (proc_of (thread ex)) (thread ex) true it' l' ∧ (length l' < length l)%nat.
Proof.
  intros Hy Hn. destruct (decide (it = Exceptionates (Debug true) ∧ second_chance ex = false)) as [[-> Hs]|Hd].
  - inversion Hy as [| | |jobs Ha| | | | |]; subst. simpl in Hn. rewrite Hs in Hn. simpl in Hn. injection Hn as <- <-.
    destruct Ha as [j Hj|j k l Hj Ha]; rewrite Hj; [exists []|exists (map XJob l)]; (split; [by constructor|]); simpl; lia.
  - pose proof (next_yields ex true it l Hy) as Hl. rewrite Hn in Hl. destruct Hl as (l' & -> & Hy' & _); [|exists l'; split; [done|simpl; lia]].
    intros _ ->. destruct (second_chance ex); [done|]. by destruct Hd.
Qed.

Lemma budget_advance ex c ev ex' c' n : advance ex c ev ex' c' → budget ex c n → ∃ n', budget ex' c' n' ∧ (n' < n)%nat.
Proof.
  intros Hadv Hb. destruct Hadv as [it it' f Hn|it it' f x o Hn|it it' f x Hn|x o it f|x o it f|o|r]; inversion Hb as [? ? l Hy|? ? ? ? l Hy|? ? ? ? l Hy| | | |]; subst.
  - eexists. split; [constructor|lia].
  - destruct (next_shrinks ex it l x it' Hy Hn) as (l' & Hy' & Hlt). eexists. split; [by constructor|lia].
  - destruct (next_shrinks ex it l x it' Hy Hn) as (l' & Hy' & Hlt). eexists. split; [by constructor|lia].
  - eexists. split; [by apply (budget_awaiting (set_current (type_of x) ex))|lia].
  - destruct (handled ex || f); eexists; (split; [|]); [apply budget_returned|lia|by apply (budget_loop (set_current ExceptionChannelType.None_ ex))|lia].
  - eexists. split; [constructor|lia].
  - eexists. split; [constructor|lia].
Qed.

Definition steps_bound (jobs : list Z) : nat := 3 * (4 + length jobs) + 2.
Definition budgeted (e : nat) (ex : Exception) (c : pc) (tr : list (op * option event)) : Prop :=
  ∀ jobs, ancestors (job_of (proc_of (thread ex))) jobs → ∃ n, budget ex c n ∧ (step_count e tr + n ≤ steps_bound jobs)%nat.

Lemma start_budgeted e ex tr : step_count e tr = 0%nat → budgeted e ex (handle_start ex) tr.
Proof.
  intros Hc jobs Hj. rewrite Hc. unfold steps_bound. assert (∀ it f l, yields (proc_of (thread ex)) (thread ex) true it l → (length l ≤ 4 + length jobs)%nat →
    ∃ n, budget ex (Loop it f) n ∧ (0 + n ≤ 3 * (4 + length jobs) + 2)%nat) as Hgo.
  { intros it f l Hy Hl. eexists. split; [by apply budget_loop|lia]. }
  unfold handle_start. destruct (ex_type ex); (eapply Hgo; [by constructor|simpl; rewrite ?length_map; lia]).
Qed.

Lemma budgeted_other e ex ex' c c' tr a ev : steps_of e a = 0%nat → thread ex' = thread ex → (c' = c ∨ ∃ o, c' = Killed o) → budgeted e ex c tr → budgeted e ex' c' (tr ++ [(a, ev)]).
Proof.
  intros Ha Hth Hc Hb jobs. rewrite Hth. intros Hj. destruct (Hb jobs Hj) as (n & Hn & Hle). rewrite step_count_snoc, Ha. destruct Hc as [->|[o ->]].
  - exists n. split; [|lia]. destruct Hn; rewrite <-Hth in *; econstructor; done.
  - exists 0%nat. split; [constructor|lia].
Qed.

Lemma steps_budgeted tr w : steps init tr w →
  (∀ e ex c, exns w !! e = Some (ex, c) → budgeted e ex c tr) ∧ ∀ e, (length (exns w) ≤ e)%nat → step_count e tr = 0%nat.
Proof.
  intros Hst. remember init as w0 eqn:E0. induction Hst as [|w0 tr w1 a ev w2 Hst IH Hx]; [subst; split; [done|by intros]|].
  specialize (IH E0) as [Htr Hnew]. subst w0. pose proof (steps_inv tr w1 Hst) as Hw.
  assert (match a with Raise _ _ | Step _ => False | _ => True end ∨ match a with Raise _ _ | Step _ => True | _ => False end) as [Ha|Ha] by (destruct a; auto).
  { destruct (exec_flags_only a w1 ev w2 Ha Hx) as [Hlen Hf]. split.
    - intros e ex' c' He'. destruct (Hf e ex' c' He') as (ex & c & He & Hth & _ & Hc). apply (budgeted_other e ex ex' c c'); [by destruct a|done|done|by apply Htr].
    - intros e He. rewrite step_count_snoc, Hnew by lia. by destruct a. }
  destruct a as [t ty|e| | | | | | | |]; try done; simpl in Hx.
  - injection Hx as <- <-. destruct (raise_exns t ty w1 Hw) as (ex & c & Hes & Hth & Hty & Hc). split.
    + intros e ex1 c1. rewrite Hes, lookup_app_Some, list_lookup_singleton_Some. intros [He|(Hle & He & [= <- <-])].
      * apply (budgeted_other e ex1 ex1 c1 c1); auto.
      * apply (budgeted_other e ex ex c c); [done|done|by left|]. destruct (decide (ty = ExceptionType.ThreadExiting)) as [->|Hne]; [|rewrite Hc by done; apply start_budgeted, Hnew; lia].
        intros jobs Hj. rewrite Hnew by lia. destruct (raise_exiting t w1 Hw) as (ex' & c' & Hes' & Hc'). rewrite Hes in Hes'. apply app_inj_2 in Hes' as [_ [= <- <-]]; [|done].
        destruct Hc' as [[o ->]|[r ->]]; [exists 1%nat|exists 0%nat]; (split; [constructor|unfold steps_bound; lia]).
    + intros e. rewrite Hes, length_app, step_count_snoc. simpl. intros He. rewrite Hnew by lia. done.
  - destruct (handle_step_advance e w1 ev w2 Hw Hx) as (ex & c & ex' & c' & He & Hes & Hadv). split.
    + intros e1 ex1 c1 He1. destruct (decide (e1 = e)) as [->|Hne].
      * rewrite Hes, list_lookup_insert_eq in He1 by (by eapply lookup_lt_Some). injection He1 as <- <-. intros jobs Hj.
        destruct (advance_same _ _ _ _ _ Hadv) as [Eth _]. rewrite Eth in Hj. destruct (Htr e ex c He jobs Hj) as (n & Hn & Hle).
        destruct (budget_advance _ _ _ _ _ _ Hadv Hn) as (n' & Hn' & Hlt). exists n'. split; [done|]. rewrite step_count_snoc. simpl. rewrite decide_True by done. lia.
      * rewrite Hes, list_lookup_insert_ne in He1 by done. apply (budgeted_other e1 ex1 ex1 c1 c1); [simpl; by rewrite decide_False|done|by left|by apply Htr].
    + intros e1. rewrite Hes, length_insert, step_count_snoc. intros Hle. apply lookup_lt_Some in He. simpl. rewrite decide_False by lia. rewrite Hnew by lia. done.
Qed.

(** The handling of an exception ends: in every interleaving the thread makes at most
    [3 * (4 + n) + 2] steps if its job has [n - 1] ancestors, and it always has a next step unless
    it is done, killed, or waits for a handler to close an exception object that is still open. *)
Theorem exception_handling_ends tr w e ex c jobs : steps init tr w → exns w !! e = Some (ex, c) → ancestors (job_of (proc_of (thread ex))) jobs →
  (step_count e tr ≤ 3 * (4 + length jobs) + 2)%nat ∧
  (handle_step e w = None → (∃ r, c = Ended r) ∨ (∃ o, c = Killed o) ∨ ∃ o, waits_on c = Some o ∧ opened o w).
Proof.
  intros Hst He Hj. split.
  - destruct (steps_budgeted tr w Hst) as [Hb _]. destruct (Hb e ex c He jobs Hj) as (n & _ & Hle). unfold steps_bound in Hle. lia.
  - pose proof (steps_inv tr w Hst) as Hw. unfold handle_step. rewrite He. assert (∀ o, closed o w = false → opened o w) as Hop.
    { intros o. unfold closed. destruct (objects w !! o) as [ob|] eqn:Eo; [|done]. intros Hb. exists ob. split; [done|]. by destruct (is_open ob). }
    destruct c as [it f|x o it f|x o it f|o|r|r|o]; try done; eauto.
    + destruct (next ex it) as [[x|] it']; [|done]. destruct (send_exception x e ex w) as [[o|[]|] w1]; done.
    + destruct (closed o w) eqn:Ec; [done|]. intros _. right. right. exists o. auto.
    + destruct (closed o w) eqn:Ec; [done|]. intros _. right. right. exists o. auto.
    + destruct (unhandled r && _); done.
Qed.

(** ** Binding *)
(** A task that has been shut down never gets a channel again, and a channel is replaced only
    after its handler has closed it. *)
Lemma create_channel_result x rights w : inv w →
  match create_channel x rights w with
  | (Ok c, w') => inner_of x w' = Bind c rights ∧ peer_alive c w' = true ∧ has_channel x w = false ∧ inner_of x w ≠ Shutdown ∧
      ∀ y, y ≠ x → inner_of y w' = inner_of y w
  | (Err e, w') => w' = w ∧ (e = ZxError.BAD_STATE ∧ inner_of x w = Shutdown ∨ e = ZxError.ALREADY_BOUND ∧ has_channel x w = true)
  | (Panic, _) => False
  end.
Proof.
  intros Hw. unfold create_channel, has_channel. set (bind := (_, _)).
  assert (inner_of x w ≠ Shutdown → (let '(r, w') := bind in r = Ok (length (chans w)) ∧ inner_of x w' = Bind (length (chans w)) rights ∧ peer_alive (length (chans w)) w' = true ∧
    ∀ y, y ≠ x → inner_of y w' = inner_of y w)) as Hb.
  { intros _. unfold bind, inner_of. simpl. rewrite lookup_insert_eq. split; [done|]. split; [done|]. split; [|intros y Hy; by rewrite lookup_insert_ne].
    unfold peer_alive. simpl. assert (∀ l : list channel_pair, length l = length (chans w) → ∀ new, (l ++ [new]) !! length (chans w) = Some new) as Hl.
    { intros l <- new. by rewrite list_lookup_middle. }
    rewrite Hl; [done|]. destruct (inner_of x w); try done. by rewrite length_alter. }
  destruct (inner_of x w) as [|c r|] eqn:Ex; [| |by auto].
  - destruct bind as [r w']. destruct Hb as (-> & ? & ? & ?); [done|]. by split_and!.
  - destruct (peer_alive c w) eqn:Ep; [by auto|]. destruct bind as [r' w']. destruct Hb as (-> & ? & ? & ?); [done|]. by split_and!.
Qed.

(** An exception channel is only given for a task handle with the rights to inspect,
    duplicate, transfer and manage threads (and to enumerate, for processes and jobs); the
    exceptionate of the task was not bound to a live channel and had not been shut down, the
    new handle can only be read, waited on and transferred, and every other exceptionate is
    unchanged.  A call that fails changes nothing. *)
Theorem sys_create_exception_channel_safe tr w task option t : steps init tr w →
  match sys_create_exception_channel task option t w with
  | (Ok v, t', w') => ∃ o rights x c, get_dyn_object_and_rights task t = Ok (o, rights) ∧ contains rights wanted_rights = true ∧
      exceptionate_of o rights (option =? 1) = Ok x ∧ has_channel x w = false ∧ inner_of x w ≠ Shutdown ∧
      inner_of x w' = Bind c rights ∧ has_channel x w' = true ∧ (∀ y, y ≠ x → inner_of y w' = inner_of y w) ∧
      get_handle v t' = Ok (mkHandle (mkKernelObject (2 * Z.of_nat c + 1) "Channel" (2 * Z.of_nat c)) (Z.lor (Z.lor Rights.TRANSFER Rights.WAIT) Rights.READ))
  | (_, t', w') => t' = t ∧ w' = w
  end.
Proof.
  intros Hst. pose proof (steps_inv tr w Hst) as Hw. unfold sys_create_exception_channel. destruct (get_dyn_object_and_rights task t) as [[o rights]|e|] eqn:Eo; [|done|done].
  destruct (contains rights wanted_rights) eqn:Er; [|done]. simpl negb. cbv iota. destruct (negb _); [done|].
  destruct (exceptionate_of o rights (option =? 1)) as [x|e|] eqn:Ex; [|done|done]. pose proof (create_channel_result x rights w Hw) as Hc.
  destruct (create_channel x rights w) as [[c|e|] w']; [|by destruct Hc|done]. destruct Hc as (Hb & Hp & Hh & Hs & Hother). unfold add_handle at 1.
  exists o, rights, x, c. repeat (split; [done|]). split; [unfold has_channel; by rewrite Hb|]. split; [done|]. unfold get_handle. simpl. by rewrite lookup_insert_eq.
Qed.
End tasks.

(** ** A history
    Thread 10 of process 20, whose job 30 is a child of the root job 31.  The thread and the
    root job have handlers; that of the thread declines. *)
Module ExceptionDemo.
Definition proc_of (t : Z) : Z := 20.
Definition job_of (p : Z) : Z := 30.
Definition job_parent (j : Z) : option Z := if j =? 30 then Some 31 else None.

Fixpoint run (l : list op) (w : world) : option (list (op * option event) * world) :=
  match l with
  | [] => Some ([], w)
  | a :: l =>
      match exec proc_of job_of job_parent a w with
      | Some (ev, w) => match run l w with Some (tr, w) => Some ((a, ev) :: tr, w) | None => None end
      | None => None
      end
  end.

Lemma run_steps l w0 tr0 w tr w' : steps proc_of job_of job_parent w0 tr0 w → run l w = Some (tr, w') → steps proc_of job_of job_parent w0 (tr0 ++ tr) w'.
Proof.
  revert tr0 w tr. induction l as [|a l IH]; intros tr0 w tr Hs; simpl; [intros [= <- <-]; by rewrite app_nil_r|].
  destruct (exec _ _ _ a w) as [[ev w1]|] eqn:E; [|done]. destruct (run l w1) as [[tr1 w2]|] eqn:Er; [|done]. intros [= <- <-].
  rewrite (assoc _ tr0 [(a, ev)] tr1). apply (IH (tr0 ++ [(a, ev)]) w1); [by econstructor|done].
Qed.

Definition setup : list op := [CreateChannel (XThread 10) 0xffff; CreateChannel (XJob 31) 0xffff; Raise 10 ExceptionType.FatalPageFault; Step 0; Step 0].
Definition declined : list op := setup ++ [Step 0; Receive 0; CloseObject 0; Step 0].
Definition to_root : list op := declined ++ [Step 0; Step 0; Step 0; Step 0; Receive 1].
Definition finished : list op := to_root ++ [SetState 1 1; CloseObject 1; Step 0; Step 0].

Definition reach (l : list op) : world := match run l init with Some (_, w) => w | None => init end.
Definition trace (l : list op) : list (op * option event) := match run l init with Some (tr, _) => tr | None => [] end.

Lemma reach_steps l : is_Some (run l init) → steps proc_of job_of job_parent init (trace l) (reach l).
Proof. unfold trace, reach. intros [[tr w] E]. rewrite E. apply (run_steps l init [] init); [constructor|done]. Qed.

Lemma jobs_up : ancestors job_parent (job_of (proc_of 10)) [30; 31].
Proof. apply (ancestors_child _ 30 31); [done|]. by constructor. Qed.

Lemma finished_events : events_of 0 (trace finished) =
  [Refused (XDebugger 20); Offer (XThread 10); Answer false; Refused (XProcess 20); Refused (XJob 30); Offer (XJob 31); Answer true].
Proof. vm_compute. reflexivity. Qed.

Lemma exception_one_handler_witness : 1%nat = 1%nat ∧ ∃ ex c, exns (reach to_root) !! 0%nat = Some (ex, c) ∧ waits_on c = Some 1%nat.
Proof.
  apply (exception_one_handler proc_of job_of job_parent (trace to_root) (reach to_root) 1 1 (mkExceptionObject 0 0xffff true) (mkExceptionObject 0 0xffff true));
    [apply reach_steps; vm_compute; by eexists|vm_compute; done|vm_compute; done|vm_compute; reflexivity|vm_compute; reflexivity|reflexivity].
Defined.

(** A debugger asks for a second chance and is asked again after the process. *)
Definition twice : list op := [CreateChannel (XDebugger 20) 0xffff; Raise 10 ExceptionType.FatalPageFault; Step 0; Step 0; Receive 0; SetStrategy 0 1; CloseObject 0;
  Step 0; Step 0; Step 0; Step 0].
Lemma twice_events : events_of 0 (trace twice) = [Offer (XDebugger 20); Answer false; Refused (XThread 10); Refused (XProcess 20); Offer (XDebugger 20)] ∧ wish 0 (trace twice) = true.
Proof. split; vm_compute; reflexivity. Qed.

Lemma exception_dispatch_witness : ∃ ex c, exns (reach finished) !! 0%nat = Some (ex, c) ∧
  (∃ second st, decision proc_of job_of job_parent 0 (trace finished) second ∧
    dispatch (first_only_of (ex_type ex)) (order proc_of (thread ex) (ex_type ex) [30; 31] second) (events_of 0 (trace finished)) st ∧ agrees c st) ∧
  (∀ ev w', exec proc_of job_of job_parent (Step 0) (reach finished) = Some (Some ev, w') → step_means 0 ex (reach finished) ev w') ∧
  (c = Ended (Err ZxError.NEXT) → ExceptionType.is_synth (ex_type ex) = false → proc_of (thread ex) ∈ exited (reach finished)).
Proof.
  destruct (exns (reach finished) !! 0%nat) as [[ex c]|] eqn:E; [|vm_compute in E; discriminate]. exists ex, c. split; [reflexivity|].
  apply (exception_dispatch proc_of job_of job_parent (trace finished) (reach finished) 0 ex c [30; 31]); [apply reach_steps; vm_compute; by eexists|exact E| |];
    vm_compute in E; injection E as <- <-; [discriminate|exact jobs_up].
Defined.

Lemma exception_handling_ends_witness : ∃ ex c, exns (reach finished) !! 0%nat = Some (ex, c) ∧ (step_count 0 (trace finished) ≤ 3 * (4 + 2) + 2)%nat.
Proof.
  destruct (exns (reach finished) !! 0%nat) as [[ex c]|] eqn:E; [|vm_compute in E; discriminate]. exists ex, c. split; [reflexivity|].
  apply (exception_handling_ends proc_of job_of job_parent (trace finished) (reach finished) 0 ex c [30; 31]); [apply reach_steps; vm_compute; by eexists|exact E|].
  vm_compute in E. injection E as <- <-. exact jobs_up.
Defined.

Definition task_table : HandleTable := (add_handle (mkHandle (mkKernelObject 10 "Thread" 0) Rights.DEFAULT_THREAD) empty_table).2.
Lemma sys_create_exception_channel_safe_witness : ∃ o rights x c w',
  snd (sys_create_exception_channel 3 0 task_table init) = w' ∧ get_dyn_object_and_rights 3 task_table = Ok (o, rights) ∧
  exceptionate_of o rights false = Ok x ∧ inner_of x w' = Bind c rights.
Proof.
  pose proof (sys_create_exception_channel_safe proc_of job_of job_parent [] init 3 0 task_table (steps_nil _ _ _ init)) as H.
  destruct (sys_create_exception_channel 3 0 task_table init) as [[r t'] w'] eqn:E. assert (r = Ok 7) as ->.
  { change r with (fst (fst (r, t', w'))). rewrite <-E. vm_compute. reflexivity. }
  destruct H as (o & rights & x & c & H1 & _ & H2 & _ & _ & H3 & _). exists o, rights, x, c, w'. auto.
Defined.

(** The handler of a thread may not get its process.  The type of the channel is recorded after
    the exception has been sent, so that a handler that is quick enough gets it nevertheless. *)
Lemma get_process_race : get_process_handle proc_of 0 (reach (setup ++ [Receive 0])) = Ok (20, Z.land 0xffff Rights.DEFAULT_PROCESS) ∧
  get_process_handle proc_of 0 (reach (setup ++ [Step 0; Receive 0])) = Err ZxError.ACCESS_DENIED.
Proof. split; vm_compute; reflexivity. Qed.
End ExceptionDemo.
