(* ===== verification/Spin.v ===== *)
(** * Spin locks

    [drivers/src/sync]: the locks behind [kernel_hal::sync::Mutex] and [RwLock] on bare metal.
    [Interrupt] models the nesting counter that keeps interrupts off while a lock is held,
    [Ticket] the ticket lock and [RwLock] the reader-writer lock.  A lock is one or two atomic
    words; a slot is the attempt of some CPU to take the lock, or the guard that it got.  Every
    atomic operation is a step of its own, and the steps of all slots interleave. *)

From S2P Require Import Prelude Locks.
From stdpp Require Import options.
#[local] Open Scope Z_scope.

(** ** Interrupts *)
Module Interrupt.
(** [Cpu] and the interrupt flag of the processor. *)
Record Cpu := mkCpu { noff : Z; interrupt_enable : bool; enabled : bool }.
(** [noff] is an [i32]. *)
Definition i32_wrap (x : Z) : Z := (x + 2 ^ 31) mod 2 ^ 32 - 2 ^ 31.

Definition push_off (c : Cpu) : Cpu :=
  let old := enabled c in
  mkCpu (i32_wrap (noff c + 1)) (if noff c =? 0 then old else interrupt_enable c) false.
(** [None] is the panic. *)
Definition pop_off (c : Cpu) : option Cpu :=
  if enabled c || (noff c <? 1) then None
  else
    let noff := i32_wrap (noff c - 1) in
    Some (mkCpu noff (interrupt_enable c) ((noff =? 0) && interrupt_enable c)).

(** What a CPU does with its locks: [true] takes one, [false] releases one. *)
Fixpoint run (l : list bool) (c : Cpu) : option Cpu :=
  match l with
  | [] => Some c
  | true :: l => run l (push_off c)
  | false :: l => match pop_off c with Some c => run l c | None => None end
  end.

(** Guards that are held after [l], if [n] were before; [None] if one is released too many. *)
Fixpoint depth (l : list bool) (n : nat) : option nat :=
  match l, n with
  | [], n => Some n
  | true :: l, n => depth l (S n)
  | false :: l, S n => depth l n
  | false :: _, O => None
  end.

(** The counter is the number of guards, and interrupts are off while there is one. *)
Definition holds (ie : bool) (n : nat) (c : Cpu) : Prop :=
  noff c = Z.of_nat n ∧ (if decide (n = 0)%nat then enabled c = ie else enabled c = false ∧ interrupt_enable c = ie).

Lemma i32_wrap_small x : - 2 ^ 31 ≤ x < 2 ^ 31 → i32_wrap x = x.
Proof. unfold i32_wrap. intros Hx. rewrite Z.mod_small by lia. lia. Qed.
Lemma push_holds ie n c : Z.of_nat n + 1 < 2 ^ 31 → holds ie n c → holds ie (S n) (push_off c).
Proof.
  unfold holds, push_off. intros Hb [Hn He]. cbn [noff enabled interrupt_enable]. rewrite i32_wrap_small by lia. split; [lia|]. rewrite decide_False by lia. split; [done|]. rewrite Hn. destruct n as [|n]; simpl in *; [done|].
  by destruct He.
Qed.
Lemma pop_holds ie n c : Z.of_nat n + 1 < 2 ^ 31 → holds ie (S n) c → ∃ c', pop_off c = Some c' ∧ holds ie n c'.
Proof.
  unfold holds, pop_off. intros Hb [Hn [He Hi]]. rewrite He, Hn. simpl orb. destruct (Z.ltb_spec (Z.of_nat (S n)) 1); [lia|]. rewrite i32_wrap_small by lia.
  eexists. split; [done|]. simpl. split; [lia|]. rewrite Hi. destruct (decide (n = 0%nat)) as [->|Hne]; [done|].
  destruct (Z.eqb_spec (Z.of_nat (S n) - 1) 0); [lia|]. done.
Qed.

(** Taking and releasing any number of locks in any nesting, each released at most once,
    does not panic, keeps interrupts off as long as one is held and restores the interrupt flag
    of the start when the last one is released. *)
Theorem interrupts_restored l n ie : Z.of_nat (length l) < 2 ^ 31 → depth l 0 = Some n →
  ∃ c, run l (mkCpu 0 false ie) = Some c ∧ noff c = Z.of_nat n ∧ enabled c = (if decide (n = 0)%nat then ie else false).
Proof.
  assert (∀ l k n c, Z.of_nat (length l + k) < 2 ^ 31 → holds ie k c → depth l k = Some n → ∃ c', run l c = Some c' ∧ holds ie n c') as Hrun.
  { clear l n. induction l as [|[] l IH]; intros k n c Hb Hc; cbn [depth run]; cbn [length] in Hb.
    - intros [= <-]. by exists c.
    - apply IH; [lia|]. apply push_holds; [lia|done].
    - destruct k as [|k]; [done|]. intros Hd. destruct (pop_holds ie k c) as (c' & -> & Hc'); [lia|done|]. apply (IH k); [lia|done|done]. }
  intros Hb Hd. destruct (Hrun l 0%nat n (mkCpu 0 false ie)) as (c & Hc & Hn & He); [lia|done|done|]. exists c. split; [done|]. split; [done|].
  destruct (decide _); [done|by destruct He].
Qed.

Lemma interrupts_restored_witness : ∃ c, run [true; true; false; true; false; false] (mkCpu 0 false true) = Some c ∧ noff c = 0 ∧ enabled c = true.
Proof. apply (interrupts_restored [true; true; false; true; false; false] 0 true); reflexivity. Defined.
End Interrupt.

(** ** Slots *)
Section slots.
Context {A : Type}.
Definition tally (f : A → nat) (l : list A) : nat := sum_list (map f l).

Lemma tally_insert f l i x y : l !! i = Some x → (tally f (<[i := y]> l) + f x = tally f l + f y)%nat.
Proof. revert i. induction l as [|z l IH]; intros [|i] Hi; simplify_eq/=; [unfold tally; simpl; lia|]. specialize (IH i Hi). unfold tally in *. simpl. lia. Qed.
Lemma tally_lookup f l i x : l !! i = Some x → (f x ≤ tally f l)%nat.
Proof. revert i. induction l as [|z l IH]; intros [|i] Hi; simplify_eq/=; [unfold tally; simpl; lia|]. specialize (IH i Hi). unfold tally in *. simpl. lia. Qed.
Lemma tally_two f l i j x y : i ≠ j → l !! i = Some x → l !! j = Some y → (f x + f y ≤ tally f l)%nat.
Proof.
  revert i j. induction l as [|z l IH]; intros [|i] [|j] Hij Hi Hj; simplify_eq/=.
  - apply (tally_lookup f) in Hj. unfold tally in *. simpl. lia.
  - apply (tally_lookup f) in Hi. unfold tally in *. simpl. lia.
  - assert (i ≠ j) as Hne by congruence. specialize (IH i j Hne Hi Hj). unfold tally in *. simpl. lia.
Qed.
Lemma existsb_insert_same (f : A → bool) l i x y : l !! i = Some x → f x = f y → existsb f (<[i := y]> l) = existsb f l.
Proof. revert i. induction l as [|z l IH]; intros [|i] Hi Hf; simplify_eq/=; [by rewrite Hf|]. by rewrite IH. Qed.
Lemma tally_bound f l : (∀ x, f x ≤ 1)%nat → (tally f l ≤ length l)%nat.
Proof. intros Hf. induction l as [|z l IH]; [done|]. unfold tally in *. simpl. specialize (Hf z). lia. Qed.
End slots.

(** ** The reader-writer lock *)
Module RwLock.
Definition READER : Z := Z.shiftl 1 2.
Definition UPGRADED : Z := Z.shiftl 1 1.
Definition WRITER : Z := 1.
Definition HELD : Z := Z.lor WRITER UPGRADED.

(** What a slot is: not in use, a [try_read] that has found the lock taken and has to undo its
    increment, the three guards, and the two downgrades after their increment. *)
Inductive slot := Free | Undo | Reader | Upgradable | Writer | UDowngrade | WDowngrade.
Record rwlock := mkRwLock { lock : Z; slots : list slot }.

(** Atomic operations: the old value and the new one. *)
Definition fetch_add (x v : Z) : Z * Z := (v, v +u x).
Definition fetch_sub (x v : Z) : Z * Z := (v, v -u x).
Definition fetch_or (x v : Z) : Z * Z := (v, Z.lor v x).
Definition fetch_and (x v : Z) : Z * Z := (v, Z.land v x).
Definition not64 (x : Z) : Z := usize_max - x.

(** The operations on the word, each one atomic access.  A weak [compare_exchange] may fail
    without a reason, as if nothing had happened. *)
Definition compare_exchange (current new v : Z) : bool * Z := if v =? current then (true, new) else (false, v).
Definition try_read (v : Z) : slot * Z :=
  let '(value, v) := fetch_add READER v in (if negb (Z.land value HELD =? 0) then Undo else Reader, v).
Definition try_write_internal (v : Z) : slot * Z :=
  let '(ok, v) := compare_exchange 0 WRITER v in (if ok then Writer else Free, v).
Definition try_upgradeable_read (v : Z) : slot * Z :=
  let '(value, v) := fetch_or UPGRADED v in (if Z.land value HELD =? 0 then Upgradable else Free, v).
Definition try_upgrade_internal (v : Z) : slot * Z :=
  let '(ok, v) := compare_exchange UPGRADED WRITER v in (if ok then Writer else Upgradable, v).
Definition drop_read (v : Z) : Z := (fetch_sub READER v).2.
Definition drop_upgradable (v : Z) : Z := (fetch_sub UPGRADED v).2.
Definition drop_write (v : Z) : Z := (fetch_and (not64 HELD) v).2.
(** The first half of the downgrades to a read guard; the second is the drop of the old guard. *)
Definition upgradable_downgrade (v : Z) : Z := (fetch_add READER v).2.
Definition write_downgrade (v : Z) : Z := (fetch_add READER v).2.
Definition downgrade_to_upgradeable (v : Z) : Z := UPGRADED.

(** One atomic operation of a slot, and what becomes of it. *)
Inductive act := TryRead | UndoRead | DropRead | TryWrite | DropWrite | TryUpgradeable | DropUpgradable | TryUpgrade
| UpgradableDowngrade | UpgradableDowngraded | WriteDowngrade | WriteDowngraded | DowngradeToUpgradeable.
Definition exec (a : act) (s : slot) (v : Z) : option (slot * Z) :=
  match a, s with
  | TryRead, Free => Some (try_read v)
  | UndoRead, Undo => Some (Free, (fetch_sub READER v).2)
  | DropRead, Reader => Some (Free, drop_read v)
  | TryWrite, Free => Some (try_write_internal v)
  | DropWrite, Writer => Some (Free, drop_write v)
  | TryUpgradeable, Free => Some (try_upgradeable_read v)
  | DropUpgradable, Upgradable => Some (Free, drop_upgradable v)
  | TryUpgrade, Upgradable => Some (try_upgrade_internal v)
  | UpgradableDowngrade, Upgradable => Some (UDowngrade, upgradable_downgrade v)
  | UpgradableDowngraded, UDowngrade => Some (Reader, drop_upgradable v)
  | WriteDowngrade, Writer => Some (WDowngrade, write_downgrade v)
  | WriteDowngraded, WDowngrade => Some (Reader, drop_write v)
  | DowngradeToUpgradeable, Writer => Some (Upgradable, downgrade_to_upgradeable v)
  | _, _ => None
  end.

Definition step (i : nat) (a : act) (l : rwlock) : option rwlock :=
  match slots l !! i with
  | Some s => match exec a s (lock l) with Some (s, v) => Some (mkRwLock v (<[i := s]> (slots l))) | None => None end
  | None => None
  end.
Fixpoint run (tr : list (nat * act)) (l : rwlock) : option rwlock :=
  match tr with [] => Some l | (i, a) :: tr => match step i a l with Some l => run tr l | None => None end end.
(** [RwLock::new], used by [n] slots. *)
Definition new (n : nat) : rwlock := mkRwLock 0 (replicate n Free).

Definition reader_count (l : rwlock) : Z := lock l / READER + Z.land (lock l) UPGRADED / UPGRADED.
Definition writer_count (l : rwlock) : Z := Z.land (lock l) WRITER / WRITER.

(** *** What the word says *)
Definition counts (s : slot) : nat := match s with Undo | Reader | UDowngrade | WDowngrade => 1 | _ => 0 end.
Definition writes (s : slot) : nat := match s with Writer | WDowngrade => 1 | _ => 0 end.
Definition upgrades (s : slot) : nat := match s with Upgradable | UDowngrade => 1 | _ => 0 end.
Definition reads (s : slot) : nat := match s with Reader => 1 | _ => 0 end.

(** The word holds the number of slots that have added themselves and two flags.  While a
    writer has the lock, the second flag may be a left-over of a failed attempt. *)
Record wf (l : rwlock) : Prop := {
  wf_word : ∃ u : bool, lock l = 4 * Z.of_nat (tally counts (slots l)) + 2 * Z.b2z u + Z.of_nat (tally writes (slots l)) ∧
    (tally writes (slots l) = 0%nat → Z.b2z u = Z.of_nat (tally upgrades (slots l)));
  wf_writer : (tally writes (slots l) ≤ 1)%nat;
  wf_upgrade : (tally upgrades (slots l) ≤ 1)%nat;
  wf_excl : (0 < tally writes (slots l))%nat → tally reads (slots l) = 0%nat ∧ tally upgrades (slots l) = 0%nat;
  wf_bound : Z.of_nat (length (slots l)) < 2 ^ 60
}.

Lemma word_bits (n : Z) (u : bool) (w : Z) : 0 ≤ n < 2 ^ 62 → 0 ≤ w ≤ 1 →
  let v := 4 * n + 2 * Z.b2z u + w in
  Z.land v HELD = 2 * Z.b2z u + w ∧ Z.lor v UPGRADED = 4 * n + 2 + w ∧ Z.land v (not64 HELD) = 4 * n.
Proof.
  intros Hn Hw v. assert (0 ≤ Z.b2z u ≤ 1) as Hu by (destruct u; simpl; lia).
  assert (v / 4 = n ∧ v mod 4 = 2 * Z.b2z u + w) as [Hdiv Hmod].
  { split; symmetry; [apply (Z.div_unique v 4 n (2 * Z.b2z u + w))|apply (Z.mod_unique v 4 n)]; unfold v; lia. }
  assert (Z.land v 3 = 2 * Z.b2z u + w) as H1. { change 3 with (Z.ones 2). rewrite Z.land_ones by lia. exact Hmod. }
  split; [exact H1|]. split.
  - assert (Z.land v 2 = 2 * Z.b2z u) as H2.
    { replace (Z.land v 2) with (Z.land (Z.land v 3) 2) by (rewrite <-Z.land_assoc; done). rewrite H1. destruct u; destruct (decide (w = 0)) as [->|]; try done; by replace w with 1 by lia. }
    pose proof (Z.add_lor_land v 2) as H3. unfold UPGRADED. change (Z.shiftl 1 1) with 2. unfold v in *. lia.
  - change (not64 HELD) with (Z.shiftl (Z.ones 62) 2). assert (Z.land v (Z.shiftl (Z.ones 62) 2) = Z.shiftl (Z.land (Z.shiftr v 2) (Z.ones 62)) 2) as ->.
    { apply Z.bits_inj'. intros k Hk. rewrite Z.land_spec, !Z.shiftl_spec, Z.land_spec by done. destruct (decide (k < 2)) as [Hlt|Hge].
      - rewrite !(Z.testbit_neg_r _ (k - 2)) by lia. by rewrite andb_false_r.
      - rewrite Z.shiftr_spec by lia. by replace (k - 2 + 2) with k by lia. }
    rewrite Z.land_ones, Z.shiftr_div_pow2, Z.shiftl_mul_pow2 by lia. change (2 ^ 2) with 4. rewrite Hdiv, Z.mod_small by lia. lia.
Qed.

Lemma rwlock_new_wf n : Z.of_nat n < 2 ^ 60 → wf (new n).
Proof.
  intros Hn. assert (∀ f : slot → nat, f Free = 0%nat → tally f (replicate n Free) = 0%nat) as Hz.
  { intros f Hf. clear Hn. induction n as [|n IH]; [done|]. unfold tally in *. simpl. lia. }
  split; simpl; rewrite ?Hz by done; try lia; [|by rewrite length_replicate]. by exists false.
Qed.

Ltac rwlock_ops := unfold try_read, try_write_internal, try_upgradeable_read, try_upgrade_internal, compare_exchange, drop_read, drop_upgradable, drop_write, upgradable_downgrade, write_downgrade, fetch_add, fetch_sub, fetch_or, fetch_and in *; cbn [fst snd] in *.

Lemma rwlock_step_wf i a l l' : a ≠ DowngradeToUpgradeable → wf l → step i a l = Some l' → wf l'.
Proof.
  intros Ha Hwf. unfold step. destruct (slots l !! i) as [s|] eqn:Hs; [|done]. destruct (exec a s (lock l)) as [[s' v]|] eqn:He; [|done]. intros [= <-].
  destruct Hwf as [(u & Hlock & Hup) Hw1 Hu1 Hex Hb]. pose proof (tally_insert counts _ i s s' Hs) as Tc. pose proof (tally_insert writes _ i s s' Hs) as Tw.
  pose proof (tally_insert upgrades _ i s s' Hs) as Tu. pose proof (tally_insert reads _ i s s' Hs) as Tr.
  pose proof (tally_lookup counts _ i s Hs) as Lc. pose proof (tally_lookup writes _ i s Hs) as Lw. pose proof (tally_lookup upgrades _ i s Hs) as Lu. pose proof (tally_lookup reads _ i s Hs) as Lr.
  assert (tally counts (slots l) ≤ length (slots l))%nat as Bc by (apply tally_bound; intros []; simpl; lia).
  assert (tally reads (slots l) ≤ tally counts (slots l))%nat as Brc. { clear. induction (slots l) as [|[] k IH]; unfold tally in *; simpl; lia. }
  assert (0 ≤ Z.b2z u ≤ 1) as Hu by (destruct u; simpl; lia).
  destruct (word_bits (Z.of_nat (tally counts (slots l))) u (Z.of_nat (tally writes (slots l)))) as (B1 & B2 & B3); [lia|lia|]. rewrite <-Hlock in B1, B2, B3.
  assert (∀ (u' : bool), v = 4 * Z.of_nat (tally counts (<[i := s']> (slots l))) + 2 * Z.b2z u' + Z.of_nat (tally writes (<[i := s']> (slots l))) →
    (tally writes (<[i := s']> (slots l)) = 0%nat → Z.b2z u' = Z.of_nat (tally upgrades (<[i := s']> (slots l)))) →
    (tally writes (<[i := s']> (slots l)) ≤ 1)%nat → (tally upgrades (<[i := s']> (slots l)) ≤ 1)%nat →
    ((0 < tally writes (<[i := s']> (slots l)))%nat → tally reads (<[i := s']> (slots l)) = 0%nat ∧ tally upgrades (<[i := s']> (slots l)) = 0%nat) →
    wf (mkRwLock v (<[i := s']> (slots l)))) as Hgo.
  { intros u' H1 H2 H3 H4 H5. split; simpl; [by exists u'|done|done|done|by rewrite length_insert]. }
  assert (fits 64 (lock l + 4)) as F1 by (unfold fits; lia).
  destruct a, s; cbn [exec fst snd] in He; try done; rwlock_ops; change READER with 4 in *; change UPGRADED with 2 in *; change WRITER with 1 in *.
  - rewrite B1, wadd_small in He by done. destruct (Z.eqb_spec (2 * Z.b2z u + Z.of_nat (tally writes (slots l))) 0); injection He as <- <-; cbn [counts writes upgrades reads] in *; apply (Hgo u); lia.
  - injection He as <- <-. cbn [counts writes upgrades reads] in *. rewrite wsub_small in * by (unfold fits; lia). apply (Hgo u); lia.
  - injection He as <- <-. cbn [counts writes upgrades reads] in *. rewrite wsub_small in * by (unfold fits; lia). apply (Hgo u); lia.
  - destruct (Z.eqb_spec (lock l) 0); injection He as <- <-; cbn [counts writes upgrades reads] in *; [apply (Hgo false); cbn [Z.b2z]; lia|]. apply (Hgo u); lia.
  - injection He as <- <-. rewrite B3 in *. cbn [counts writes upgrades reads] in *. apply (Hgo false); cbn [Z.b2z]; lia.
  - rewrite B1, B2 in He. destruct (Z.eqb_spec (2 * Z.b2z u + Z.of_nat (tally writes (slots l))) 0); injection He as <- <-; cbn [counts writes upgrades reads] in *; apply (Hgo true); cbn [Z.b2z]; lia.
  - injection He as <- <-. cbn [counts writes upgrades reads] in *. rewrite wsub_small in * by (unfold fits; lia). apply (Hgo false); cbn [Z.b2z]; lia.
  - destruct (Z.eqb_spec (lock l) 2); injection He as <- <-; cbn [counts writes upgrades reads] in *; [apply (Hgo false); cbn [Z.b2z]; lia|]. apply (Hgo u); lia.
  - injection He as <- <-. cbn [counts writes upgrades reads] in *. rewrite wadd_small in * by done. apply (Hgo u); lia.
  - injection He as <- <-. cbn [counts writes upgrades reads] in *. rewrite wsub_small in * by (unfold fits; lia). apply (Hgo false); cbn [Z.b2z]; lia.
  - injection He as <- <-. cbn [counts writes upgrades reads] in *. rewrite wadd_small in * by done. apply (Hgo u); lia.
  - injection He as <- <-. rewrite B3 in *. cbn [counts writes upgrades reads] in *. apply (Hgo false); cbn [Z.b2z]; lia.
Qed.

Lemma rwlock_run_wf tr l l' : Forall (λ x, x.2 ≠ DowngradeToUpgradeable) tr → wf l → run tr l = Some l' → wf l'.
Proof.
  intros Htr. revert l. induction Htr as [|[i a] tr Ha _ IH]; intros l Hl; simpl; [by intros [= <-]|].
  destruct (step i a l) as [l1|] eqn:E; [|done]. apply IH. by apply (rwlock_step_wf i a l).
Qed.

(** C20. Readers and writers exclude each other: in every interleaving of any number of CPUs that
    read, write, upgrade and downgrade (other than from a writer to an upgradable reader), while
    one has the lock for writing no other has it for reading, as an upgradable reader or for
    writing, and there is at most one upgradable reader; the counters report exactly the guards,
    apart from attempts that are being undone, and when all guards are gone the lock is free. *)
Theorem rwlock_exclusion tr n l i : Z.of_nat n < 2 ^ 60 → Forall (λ x, x.2 ≠ DowngradeToUpgradeable) tr → run tr (new n) = Some l →
  (slots l !! i = Some Writer → ∀ j s, j ≠ i → slots l !! j = Some s → s = Free ∨ s = Undo) ∧
  (slots l !! i = Some Upgradable → ∀ j s, j ≠ i → slots l !! j = Some s → s ≠ Upgradable ∧ s ≠ Writer) ∧
  writer_count l = Z.of_nat (tally writes (slots l)) ∧
  (Forall (λ s, s = Free) (slots l) → lock l = 0).
Proof.
  intros Hn Htr Hrun. destruct (rwlock_run_wf tr (new n) l Htr (rwlock_new_wf n Hn) Hrun) as [(u & Hlock & Hup) Hw1 Hu1 Hex Hb].
  assert (tally counts (slots l) ≤ length (slots l))%nat as Bc by (apply tally_bound; intros []; simpl; lia).
  split; [|split; [|split]].
  - intros Hi j s Hne Hj. pose proof (tally_two writes _ i j _ _ ltac:(done) Hi Hj) as Tw. pose proof (tally_lookup writes _ i _ Hi) as Lw. simpl in Tw, Lw.
    destruct Hex as [Hr Hu]; [lia|]. pose proof (tally_lookup reads _ j s Hj) as Lr. pose proof (tally_lookup upgrades _ j s Hj) as Lu. destruct s; simpl in *; try lia; auto.
  - intros Hi j s Hne Hj. pose proof (tally_two upgrades _ i j _ _ ltac:(done) Hi Hj) as Tu. pose proof (tally_lookup upgrades _ i _ Hi) as Lu. simpl in Tu, Lu.
    split; intros ->; simpl in *; [lia|]. pose proof (tally_lookup writes _ j _ Hj) as Lw. simpl in Lw. destruct Hex; lia.
  - unfold writer_count. change WRITER with 1. rewrite Z.div_1_r. change 1 with (Z.ones 1) at 1. rewrite Z.land_ones by done. change (2 ^ 1) with 2. rewrite Hlock.
    symmetry. apply (Z.mod_unique _ 2 (2 * Z.of_nat (tally counts (slots l)) + Z.b2z u)); [|lia]. left. lia.
  - intros Hall. assert (∀ f : slot → nat, f Free = 0%nat → tally f (slots l) = 0%nat) as Hz.
    { intros f Hf. clear -Hall Hf. induction Hall as [|s k -> _ IH]; [done|]. unfold tally in *. simpl. lia. }
    rewrite !Hz in Hlock by done. rewrite !Hz in Hup by done. specialize (Hup eq_refl). lia.
Qed.

Definition history : list (nat * act) :=
  [(0%nat, TryRead); (1%nat, TryUpgradeable); (2%nat, TryRead); (1%nat, TryUpgrade); (0%nat, DropRead); (2%nat, UndoRead); (1%nat, TryUpgrade); (0%nat, TryUpgradeable); (2%nat, TryRead)].
Lemma rwlock_exclusion_witness : ∃ l, run history (new 3) = Some l ∧ slots l = [Free; Writer; Undo] ∧ writer_count l = 1 ∧
  ∀ j s, j ≠ 1%nat → slots l !! j = Some s → s = Free ∨ s = Undo.
Proof.
  exists (mkRwLock 7 [Free; Writer; Undo]). split; [reflexivity|]. split; [reflexivity|]. split; [reflexivity|].
  apply (rwlock_exclusion history 3 (mkRwLock 7 [Free; Writer; Undo]) 1); [lia| |reflexivity|reflexivity]. unfold history. repeat constructor; discriminate.
Defined.

(** [downgrade_to_upgradeable] stores a constant over the increment of a reader that is about
    to undo it.  The count of readers then wraps, and a later reader and a writer have the lock
    at the same time. *)
Lemma downgrade_breaks_exclusion : run
  [(0%nat, TryWrite); (1%nat, TryRead); (0%nat, DowngradeToUpgradeable); (1%nat, UndoRead); (0%nat, DropUpgradable); (1%nat, TryRead); (0%nat, TryWrite)] (new 2) =
  Some (mkRwLock 1 [Writer; Reader]).
Proof. vm_compute. reflexivity. Qed.

(** *** Interrupts
    What a step does to the nesting counter of its CPU, [s'] being what becomes of the slot: the
    attempts begin with [push_off]; if they fail, and when a guard is dropped, there is a
    [pop_off].  The downgrades drop the old guard and return a new one. *)
Definition irq (a : act) (s' : slot) : list bool :=
  match a with
  | TryRead => [true]
  | UndoRead | DropRead | DropWrite | DropUpgradable | UpgradableDowngraded | WriteDowngraded => [false]
  | TryWrite | TryUpgradeable => match s' with Free => [true; false] | _ => [true] end
  | TryUpgrade | UpgradableDowngrade | WriteDowngrade | DowngradeToUpgradeable => []
  end.
Fixpoint irqs (tr : list (nat * act)) (l : rwlock) : list bool :=
  match tr with
  | [] => []
  | (i, a) :: tr =>
      match step i a l with
      | Some l' => match slots l' !! i with Some s' => irq a s' ++ irqs tr l' | None => [] end
      | None => []
      end
  end.
Definition in_use (s : slot) : nat := match s with Free => 0 | _ => 1 end.
Definition is_downgrade (a : act) : bool := match a with UpgradableDowngrade | UpgradableDowngraded | WriteDowngrade | WriteDowngraded => true | _ => false end.

Lemma depth_app l k n m : Interrupt.depth l n = Some m → Interrupt.depth (l ++ k) n = Interrupt.depth k m.
Proof. revert n. induction l as [|[] l IH]; intros n; simpl; [by intros [= ->]|apply IH|]. destruct n; [done|apply IH]. Qed.

Lemma irqs_depth tr l l' : Forall (λ x, is_downgrade x.2 = false) tr → run tr l = Some l' →
  Interrupt.depth (irqs tr l) (tally in_use (slots l)) = Some (tally in_use (slots l')).
Proof.
  intros Htr. revert l. induction Htr as [|[i a] tr Ha _ IH]; intros l; simpl; [by intros [= <-]|]. destruct (step i a l) as [l1|] eqn:E; [|done]. intros Hr.
  unfold step in E. destruct (slots l !! i) as [s|] eqn:Hs; [|done]. destruct (exec a s (lock l)) as [[s' v]|] eqn:He; [|done]. injection E as <-.
  cbn [slots]. rewrite list_lookup_insert_eq by (by eapply lookup_lt_Some). pose proof (tally_insert in_use _ i s s' Hs) as Tu. pose proof (tally_lookup in_use _ i s Hs) as Lu.
  erewrite depth_app; [by apply (IH _ Hr)|]. cbn [slots]. generalize dependent (tally in_use (<[i := s']> (slots l))). intros k Tu.
  assert (∀ n1 k1 : nat, (k1 + 1)%nat = (n1 + 0)%nat → Interrupt.depth [false] n1 = Some k1) as Hpop. { intros [|n1] k1 H; [lia|]. simpl. f_equal. lia. }
  destruct a, s; simpl in He, Ha; try done; rwlock_ops.
  - destruct (negb _); injection He as <- <-; simpl in *; f_equal; lia.
  - injection He as <- <-. by apply Hpop.
  - injection He as <- <-. by apply Hpop.
  - destruct (lock l =? 0); injection He as <- <-; simpl in *; f_equal; lia.
  - injection He as <- <-. by apply Hpop.
  - destruct (_ =? _); injection He as <- <-; simpl in *; f_equal; lia.
  - injection He as <- <-. by apply Hpop.
  - destruct (_ =? _); injection He as <- <-; simpl in *; f_equal; lia.
  - injection He as <- <-. simpl in *. f_equal. lia.
Qed.

(** A writer that downgrades pops twice what it pushed once: the second [pop_off] panics. *)
Lemma downgrade_pops_twice ie : run [(0%nat, TryWrite); (0%nat, WriteDowngrade); (0%nat, WriteDowngraded); (0%nat, DropRead)] (new 1) = Some (new 1) ∧
  Interrupt.run (irqs [(0%nat, TryWrite); (0%nat, WriteDowngrade); (0%nat, WriteDowngraded); (0%nat, DropRead)] (new 1)) (Interrupt.mkCpu 0 false ie) = None.
Proof. split; [|destruct ie]; vm_compute; reflexivity. Qed.
End RwLock.

(** ** The ticket lock *)
Module Ticket.
(** A slot waits with a ticket, has the guard, or is in [try_lock] after it has read
    [next_ticket], or after it has found its value being served. *)
Inductive slot := Free | Waiting (ticket : Z) | Holding (ticket : Z) | TryLoaded (ticket : Z) | TryServed (ticket : Z).
Record TicketMutex := mkTicketMutex { next_ticket : Z; next_serving : Z; slots : list slot }.

Inductive act := FetchAdd | Spin | TryLoad | TryCheck | TryExchange | Release.
(** A slot takes a ticket, or gets the lock. *)
Inductive event := Took (i : nat) | Got (i : nat).
#[global] Instance event_eq_dec : EqDecision event.
Proof. solve_decision. Defined.

(** The number that the guard of a ticket stores when it is dropped. *)
Definition drop_guard (ticket : Z) : Z := ticket +u 1.
Definition step (i : nat) (a : act) (m : TicketMutex) : option (list event * TicketMutex) :=
  match slots m !! i with
  | None => None
  | Some s =>
      let set next serving s := mkTicketMutex next serving (<[i := s]> (slots m)) in
      match a, s with
      | FetchAdd, Free => Some ([Took i], set (next_ticket m +u 1) (next_serving m) (Waiting (next_ticket m)))
      | Spin, Waiting t =>
          if next_serving m =? t then Some ([Got i], set (next_ticket m) (next_serving m) (Holding t)) else Some ([], m)
      | TryLoad, Free => Some ([], set (next_ticket m) (next_serving m) (TryLoaded (next_ticket m)))
      | TryCheck, TryLoaded t => Some ([], set (next_ticket m) (next_serving m) (if next_serving m =? t then TryServed t else Free))
      | TryExchange, TryServed t =>
          if next_ticket m =? t then Some ([Took i; Got i], set (t +u 1) (next_serving m) (Holding t))
          else Some ([], set (next_ticket m) (next_serving m) (TryLoaded (next_ticket m)))
      | Release, Holding t => Some ([], set (next_ticket m) (drop_guard t) Free)
      | _, _ => None
      end
  end.

Inductive steps : TicketMutex → list (nat * act) → list event → TicketMutex → Prop :=
| steps_nil m : steps m [] [] m
| steps_snoc m tr evs m1 i a ev m2 : steps m tr evs m1 → step i a m1 = Some (ev, m2) → steps m (tr ++ [(i, a)]) (evs ++ ev) m2.
Definition new (n : nat) : TicketMutex := mkTicketMutex 0 0 (replicate n Free).
Definition is_locked (m : TicketMutex) : bool := negb (next_serving m =? next_ticket m).

Definition tooks (evs : list event) : list nat := omap (λ e, match e with Took i => Some i | _ => None end) evs.
Definition gots (evs : list event) : list nat := omap (λ e, match e with Got i => Some i | _ => None end) evs.
Definition owns (t : Z) (s : slot) : bool := match s with Waiting t' | Holding t' => t' =? t | _ => false end.

(** The tickets from [next_serving] to [next_ticket] are those of the slots that wait, one
    each, and of the one that has the lock, which is the first of them. *)
Record wf (evs : list event) (m : TicketMutex) : Prop := {
  wf_next : next_ticket m = zlen (tooks evs);
  wf_serving : 0 ≤ next_serving m ≤ next_ticket m;
  wf_owner i s t : slots m !! i = Some s → owns t s = true → next_serving m ≤ t < next_ticket m ∧ tooks evs !! Z.to_nat t = Some i;
  wf_owned t : next_serving m ≤ t < next_ticket m → ∃ i s, slots m !! i = Some s ∧ owns t s = true;
  wf_holding i t : slots m !! i = Some (Holding t) → t = next_serving m;
  wf_got : (∃ i, slots m !! i = Some (Holding (next_serving m))) ∧ gots evs = take (Z.to_nat (next_serving m + 1)) (tooks evs) ∨
           (∀ i t, slots m !! i ≠ Some (Holding t)) ∧ gots evs = take (Z.to_nat (next_serving m)) (tooks evs);
  wf_loaded i t : slots m !! i = Some (TryLoaded t) → t ≤ next_ticket m;
  wf_served i t : slots m !! i = Some (TryServed t) → t ≤ next_serving m
}.

Lemma tooks_app evs evs' : tooks (evs ++ evs') = tooks evs ++ tooks evs'.
Proof. apply omap_app. Qed.
Lemma gots_app evs evs' : gots (evs ++ evs') = gots evs ++ gots evs'.
Proof. apply omap_app. Qed.

Lemma ticket_new_wf n : wf [] (new n).
Proof.
  assert (∀ i s, replicate n Free !! i = Some s → s = Free) as Hf by (intros i s [-> _]%lookup_replicate; done).
  split; simpl; try done.
  - intros i s t ->%Hf. done.
  - intros t Ht. lia.
  - intros i t H%Hf. done.
  - right. split; [|done]. intros i t H%Hf. done.
  - intros i t H%Hf. done.
  - intros i t H%Hf. done.
Qed.

(** Two slots do not own the same ticket. *)
Lemma wf_unique evs m i j s s' t : wf evs m → slots m !! i = Some s → slots m !! j = Some s' → owns t s = true → owns t s' = true → i = j.
Proof. intros Hw Hi Hj Hs Hs'. destruct (wf_owner _ _ Hw i s t Hi Hs) as [_ E1]. destruct (wf_owner _ _ Hw j s' t Hj Hs') as [_ E2]. rewrite E1 in E2. by injection E2. Qed.

(** A slot changes between states in which it neither waits nor has the lock. *)
Lemma quiet_wf evs m i s s' : wf evs m → slots m !! i = Some s → (∀ t, owns t s = false) → (∀ t, owns t s' = false) →
  (∀ t, s' = TryLoaded t → t ≤ next_ticket m) → (∀ t, s' = TryServed t → t ≤ next_serving m) →
  wf evs (mkTicketMutex (next_ticket m) (next_serving m) (<[i := s']> (slots m))).
Proof.
  intros Hw Hi Hs Hs' Hl Hv. assert (∀ j x, <[i := s']> (slots m) !! j = Some x → x = s' ∨ slots m !! j = Some x) as Hlk.
  { intros j x [(_ & <- & _)|[_ ?]]%list_lookup_insert_Some; auto. }
  assert (∀ j x t, slots m !! j = Some x → owns t x = true → <[i := s']> (slots m) !! j = Some x) as Hkeep.
  { intros j x t Hj Hx. rewrite list_lookup_insert_ne; [done|]. intros ->. rewrite Hi in Hj. injection Hj as ->. by rewrite Hs in Hx. }
  assert (∀ t, s' ≠ Holding t) as Hnh. { intros t ->. specialize (Hs' t). simpl in Hs'. by rewrite Z.eqb_refl in Hs'. }
  destruct Hw as [H1 H2 H3 H4 H5 H6 H7 H8]. split; simpl; try done.
  - intros j x t Hj Hx. destruct (Hlk j x Hj) as [->|Hj']; [by rewrite Hs' in Hx|]. by apply (H3 j x).
  - intros t Ht. destruct (H4 t Ht) as (j & x & Hj & Hx). exists j, x. split; [by apply (Hkeep j x t)|done].
  - intros j t Hj. destruct (Hlk j _ Hj) as [E|Hj']; [by destruct (Hnh t)|by apply (H5 j)].
  - destruct H6 as [[[j Hj] Hg]|[Hno Hg]]; [left|right]; (split; [|done]).
    + exists j. apply (Hkeep j _ (next_serving m) Hj). simpl. apply Z.eqb_refl.
    + intros j t Hj. destruct (Hlk j _ Hj) as [E|Hj']; [by destruct (Hnh t)|by apply (Hno j t)].
  - intros j t Hj. destruct (Hlk j _ Hj) as [E|Hj']; [by apply Hl|by apply (H7 j)].
  - intros j t Hj. destruct (Hlk j _ Hj) as [E|Hj']; [by apply Hv|by apply (H8 j)].
Qed.

(** The first ticket that nobody has is handed out. *)
Lemma take_wf evs m i s : wf evs m → slots m !! i = Some s → (∀ t, owns t s = false) →
  wf (evs ++ [Took i]) (mkTicketMutex (next_ticket m + 1) (next_serving m) (<[i := Waiting (next_ticket m)]> (slots m))).
Proof.
  intros Hw Hi Hs. pose proof (lookup_lt_Some _ _ _ Hi) as Hlt. destruct Hw as [H1 H2 H3 H4 H5 H6 H7 H8]. pose proof (zlen_nonneg (tooks evs)) as Hz.
  assert (∀ j x, <[i := Waiting (next_ticket m)]> (slots m) !! j = Some x → j = i ∧ x = Waiting (next_ticket m) ∨ j ≠ i ∧ slots m !! j = Some x) as Hlk.
  { intros j x [(<- & <- & _)|[? ?]]%list_lookup_insert_Some; auto. }
  assert (∀ j x t, slots m !! j = Some x → owns t x = true → <[i := Waiting (next_ticket m)]> (slots m) !! j = Some x) as Hkeep.
  { intros j x t Hj Hx. rewrite list_lookup_insert_ne; [done|]. intros ->. rewrite Hi in Hj. injection Hj as ->. by rewrite Hs in Hx. }
  assert (tooks (evs ++ [Took i]) = tooks evs ++ [i]) as Et by (by rewrite tooks_app). assert (gots (evs ++ [Took i]) = gots evs) as Eg by (rewrite gots_app; apply app_nil_r).
  assert (∀ k, k ≤ next_ticket m → take (Z.to_nat k) (tooks evs ++ [i]) = take (Z.to_nat k) (tooks evs)) as Htake. { intros k Hk. apply take_app_le. unfold zlen in *. lia. }
  split; cbn [next_ticket next_serving slots]; rewrite ?Et, ?Eg.
  - rewrite zlen_app, H1. done.
  - lia.
  - intros j x t Hj Hx. destruct (Hlk j x Hj) as [[-> ->]|[Hne Hj']].
    + simpl in Hx. apply Z.eqb_eq in Hx as <-. split; [lia|]. rewrite H1. unfold zlen. rewrite Nat2Z.id. by apply list_lookup_middle.
    + destruct (H3 j x t Hj' Hx) as [? Ht]. split; [lia|]. by apply lookup_app_l_Some.
  - intros t Ht. destruct (decide (t = next_ticket m)) as [->|Hne].
    + exists i, (Waiting (next_ticket m)). split; [by apply list_lookup_insert_eq|]. simpl. apply Z.eqb_refl.
    + destruct (H4 t) as (j & x & Hj & Hx); [lia|]. exists j, x. split; [by apply (Hkeep j x t)|done].
  - intros j t Hj. destruct (Hlk j _ Hj) as [[_ [=]]|[_ Hj']]. by apply (H5 j).
  - destruct H6 as [[[j Hj] Hg]|[Hno Hg]]; [left|right].
    + assert (owns (next_serving m) (Holding (next_serving m)) = true) as Ho by (simpl; apply Z.eqb_refl). split; [exists j; by apply (Hkeep j _ (next_serving m))|].
      destruct (H3 j _ _ Hj Ho). by rewrite Htake by lia.
    + split; [|by rewrite Htake by lia]. intros j t Hj. destruct (Hlk j _ Hj) as [[_ [=]]|[_ Hj']]. by apply (Hno j t).
  - intros j t Hj. destruct (Hlk j _ Hj) as [[_ [=]]|[_ Hj']]. specialize (H7 j t Hj'). lia.
  - intros j t Hj. destruct (Hlk j _ Hj) as [[_ [=]]|[_ Hj']]. by apply (H8 j).
Qed.

(** The slot whose ticket is served gets the lock. *)
Lemma got_wf evs m i : wf evs m → slots m !! i = Some (Waiting (next_serving m)) →
  wf (evs ++ [Got i]) (mkTicketMutex (next_ticket m) (next_serving m) (<[i := Holding (next_serving m)]> (slots m))).
Proof.
  intros Hw Hi. pose proof (lookup_lt_Some _ _ _ Hi) as Hlt. pose proof (wf_unique evs m) as Hun. pose proof Hw as [H1 H2 H3 H4 H5 H6 H7 H8].
  assert (owns (next_serving m) (Waiting (next_serving m)) = true) as Ho by (simpl; apply Z.eqb_refl).
  assert (∀ j x, <[i := Holding (next_serving m)]> (slots m) !! j = Some x → j = i ∧ x = Holding (next_serving m) ∨ j ≠ i ∧ slots m !! j = Some x) as Hlk.
  { intros j x [(<- & <- & _)|[? ?]]%list_lookup_insert_Some; auto. }
  assert (tooks (evs ++ [Got i]) = tooks evs) as Et by (rewrite tooks_app; apply app_nil_r). assert (gots (evs ++ [Got i]) = gots evs ++ [i]) as Eg by (by rewrite gots_app).
  destruct (H3 i _ _ Hi Ho) as [Hr Ht]. split; cbn [next_ticket next_serving slots]; rewrite ?Et, ?Eg; try done.
  - intros j x t Hj Hx. destruct (Hlk j x Hj) as [[-> ->]|[Hne Hj']]; [|by apply (H3 j x)]. simpl in Hx. apply Z.eqb_eq in Hx as <-. done.
  - intros t Htr. destruct (H4 t Htr) as (j & x & Hj & Hx). destruct (decide (j = i)) as [->|Hne].
    + rewrite Hi in Hj. injection Hj as <-. simpl in Hx. exists i, (Holding (next_serving m)). split; [by apply list_lookup_insert_eq|done].
    + exists j, x. by rewrite list_lookup_insert_ne.
  - intros j t Hj. destruct (Hlk j _ Hj) as [[_ [= ->]]|[_ Hj']]; [done|by apply (H5 j)].
  - left. split; [exists i; by apply list_lookup_insert_eq|]. destruct H6 as [[[j Hj] Hg]|[Hno Hg]].
    + assert (i = j) as <-; [|by rewrite Hi in Hj]. apply (Hun i j _ _ (next_serving m) Hw Hi Hj Ho). simpl. apply Z.eqb_refl.
    + rewrite Hg. replace (Z.to_nat (next_serving m + 1)) with (S (Z.to_nat (next_serving m))) by lia. symmetry. by apply take_S_r.
  - intros j t Hj. destruct (Hlk j _ Hj) as [[_ [=]]|[_ Hj']]. by apply (H7 j).
  - intros j t Hj. destruct (Hlk j _ Hj) as [[_ [=]]|[_ Hj']]. by apply (H8 j).
Qed.

Lemma release_wf evs m i t : wf evs m → slots m !! i = Some (Holding t) →
  wf evs (mkTicketMutex (next_ticket m) (t + 1) (<[i := Free]> (slots m))).
Proof.
  intros Hw Hi. assert (owns (next_serving m) (Holding (next_serving m)) = true) as Ho by (simpl; apply Z.eqb_refl). pose proof (wf_holding _ _ Hw i t Hi) as ->.
  assert (∀ j x, <[i := Free]> (slots m) !! j = Some x → x = Free ∨ j ≠ i ∧ slots m !! j = Some x) as Hlk.
  { intros j x [(<- & <- & _)|[? ?]]%list_lookup_insert_Some; auto. }
  assert (∀ j, j ≠ i → ∀ t, slots m !! j ≠ Some (Holding t)) as Hone.
  { intros j Hne t Hj. pose proof (wf_holding _ _ Hw j t Hj) as ->. apply Hne. by apply (wf_unique evs m j i _ _ (next_serving m) Hw Hj Hi). }
  destruct (wf_owner _ _ Hw i _ _ Hi Ho) as [Hr Ht]. pose proof (wf_unique evs m) as Hun. pose proof Hw as [H1 H2 H3 H4 H5 H6 H7 H8]. split; cbn [next_ticket next_serving slots]; try done.
  - lia.
  - intros j x t Hj Hx. destruct (Hlk j x Hj) as [->|[Hne Hj']]; [done|]. destruct (H3 j x t Hj' Hx). split; [|done].
    destruct (decide (t = next_serving m)) as [->|]; [|lia]. destruct Hne. by apply (Hun j i x _ (next_serving m) Hw Hj' Hi Hx).
  - intros t Htr. destruct (H4 t) as (j & x & Hj & Hx); [lia|]. exists j, x. rewrite list_lookup_insert_ne; [done|]. intros ->. rewrite Hi in Hj. injection Hj as <-. simpl in Hx.
    apply Z.eqb_eq in Hx. lia.
  - intros j t Hj. destruct (Hlk j _ Hj) as [[=]|[Hne Hj']]. by destruct (Hone j Hne t).
  - right. split.
    + intros j t Hj. destruct (Hlk j _ Hj) as [[=]|[Hne Hj']]. by destruct (Hone j Hne t).
    + destruct H6 as [[_ Hg]|[Hno Hg]]; [done|]. by destruct (Hno i (next_serving m)).
  - intros j t Hj. destruct (Hlk j _ Hj) as [[=]|[Hne Hj']]. by apply (H7 j).
  - intros j t Hj. destruct (Hlk j _ Hj) as [[=]|[Hne Hj']]. specialize (H8 j t Hj'). lia.
Qed.

Lemma ticket_step_wf evs m i a ev m' : wf evs m → next_ticket m < 2 ^ 64 - 1 → step i a m = Some (ev, m') → wf (evs ++ ev) m'.
Proof.
  intros Hw Hb. pose proof (wf_serving _ _ Hw) as Hs. unfold step. destruct (slots m !! i) as [s|] eqn:Hi; [|done]. destruct a, s as [|t|t|t|t]; try done.
  - intros [= <- <-]. rewrite wadd_small by (unfold fits; lia). by apply (take_wf evs m i Free).
  - destruct (Z.eqb_spec (next_serving m) t) as [<-|]; intros [= <- <-]; [by apply got_wf|by rewrite app_nil_r].
  - intros [= <- <-]. rewrite app_nil_r. apply (quiet_wf evs m i Free); try done. intros t [= <-]. lia.
  - intros [= <- <-]. rewrite app_nil_r. apply (quiet_wf evs m i (TryLoaded t)); try done; (destruct (Z.eqb_spec (next_serving m) t) as [<-|]; try done). intros t' [= <-]. lia.
  - destruct (Z.eqb_spec (next_ticket m) t) as [<-|]; intros [= <- <-].
    + pose proof (wf_served _ _ Hw i _ Hi) as Ht. assert (next_ticket m = next_serving m) as E by lia. rewrite wadd_small by (unfold fits; lia).
      pose proof (take_wf evs m i (TryServed (next_ticket m)) Hw Hi (λ _, eq_refl)) as Hw1. pose proof (lookup_lt_Some _ _ _ Hi) as Hlt.
      apply (got_wf _ _ i) in Hw1; [|simpl; rewrite <-E; by apply list_lookup_insert_eq]. simpl in Hw1. rewrite list_insert_insert_eq, <-(assoc (++) evs [Took i] [Got i]), <-E in Hw1. by rewrite <-E.
    + rewrite app_nil_r. apply (quiet_wf evs m i (TryServed t)); try done. intros t' [= <-]. lia.
  - intros [= <- <-]. rewrite app_nil_r. pose proof (wf_holding _ _ Hw i t Hi) as ->. unfold drop_guard. rewrite wadd_small by (unfold fits; lia). by apply release_wf.
Qed.

(** Each step hands out at most one ticket. *)
Lemma step_tooks i a m ev m' : step i a m = Some (ev, m') → zlen (tooks ev) ≤ 1.
Proof. unfold step. destruct (slots m !! i) as [s|]; [|done]. destruct a, s as [|t|t|t|t]; try done; repeat (destruct (_ =? _)); intros [= <- <-]; done. Qed.
Lemma ticket_steps_wf n tr evs m : steps (new n) tr evs m → zlen tr < 2 ^ 64 → wf evs m ∧ zlen (tooks evs) ≤ zlen tr.
Proof.
  intros H. remember (new n) as m0 eqn:E. induction H as [m|m0 tr evs m1 i a ev m2 H IH Hs]; intros Hb; [subst; split; [apply ticket_new_wf|done]|].
  rewrite zlen_app in *. change (zlen [(i, a)]) with 1 in *. destruct (IH E) as [Hw Hl]; [lia|]. pose proof (step_tooks i a m1 ev m2 Hs). pose proof (wf_next _ _ Hw).
  split; [apply (ticket_step_wf evs m1 i a); [done|lia|done]|]. rewrite tooks_app, zlen_app. lia.
Qed.

(** The lock of [Locks], which the analysis of lock orders assumes: it is acquired only while
    nobody has it, and released by the one that has it. *)
Definition holding (s : slot) : bool := match s with Holding _ => true | _ => false end.
Definition held (m : TicketMutex) : list unit := if existsb holding (slots m) then [tt] else [].

Lemma held_true m i t : slots m !! i = Some (Holding t) → held m = [tt].
Proof. intros Hi. unfold held. assert (existsb holding (slots m) = true) as ->; [|done]. apply existsb_exists. exists (Holding t). split; [|done]. apply list_elem_of_In. by eapply list_elem_of_lookup_2. Qed.
Lemma held_false m : (∀ i t, slots m !! i ≠ Some (Holding t)) → held m = [].
Proof.
  intros Hno. unfold held. assert (existsb holding (slots m) = false) as ->; [|done]. apply existsb_false. intros [|t|t|t|t] Hin; try done.
  apply list_elem_of_lookup_1 in Hin as [i Hi]. by destruct (Hno i t).
Qed.

Lemma ticket_is_lock evs m i a ev m' : wf evs m → next_ticket m < 2 ^ 64 - 1 → step i a m = Some (ev, m') →
  if decide (Got i ∈ ev) then Locks.act (Acquire tt) (held m) = Some (held m')
  else match a with Release => Locks.act (Locks.Release tt) (held m) = Some (held m') | _ => held m' = held m end.
Proof.
  intros Hw Hb Hst. pose proof (ticket_step_wf evs m i a ev m' Hw Hb Hst) as Hw'. unfold step in Hst. destruct (slots m !! i) as [s|] eqn:Hi; [|done]. pose proof (lookup_lt_Some _ _ _ Hi) as Hlt.
  assert (∀ nx sv s', holding s = false → holding s' = false → held (mkTicketMutex nx sv (<[i := s']> (slots m))) = held m) as Hsame.
  { intros nx sv s' H1 H2. unfold held. cbn [slots]. rewrite (existsb_insert_same holding (slots m) i s s') by (done || by rewrite H1, H2). done. }
  assert (∀ t, m' = mkTicketMutex (next_ticket m') (next_serving m') (<[i := Holding t]> (slots m)) → holding s = false → (∀ j t', j ≠ i → slots m !! j ≠ Some (Holding t')) → Locks.act (Acquire tt) (held m) = Some (held m')) as Hacq.
  { intros t E Hs Hno. rewrite (held_false m), (held_true m' i t); [done|rewrite E; by apply list_lookup_insert_eq|].
    intros j t' Hj. destruct (decide (j = i)) as [->|]; [|by apply (Hno j t')]. rewrite Hi in Hj. by injection Hj as ->. }
  assert (∀ j t t', slots m' !! i = Some (Holding t) → slots m' !! j = Some (Holding t') → j = i) as Hone.
  { intros j t t' Hi' Hj. pose proof (wf_holding _ _ Hw' i t Hi') as ->. pose proof (wf_holding _ _ Hw' j t' Hj) as ->. apply (wf_unique _ m' j i _ _ (next_serving m') Hw' Hj Hi'); simpl; apply Z.eqb_refl. }
  assert (∀ t, slots m' = <[i := Holding t]> (slots m) → ∀ j t', j ≠ i → slots m !! j ≠ Some (Holding t')) as Hothers.
  { intros t E j t' Hne Hj. apply Hne. apply (Hone j t t'); rewrite E; [by apply list_lookup_insert_eq|by rewrite list_lookup_insert_ne]. }
  destruct a, s as [|t|t|t|t]; try done.
  - injection Hst as <- <-. rewrite decide_False by set_solver. by apply Hsame.
  - destruct (next_serving m =? t); injection Hst as <- <-; [|by rewrite decide_False by set_solver]. rewrite decide_True by set_solver. by apply (Hacq t); [| |apply (Hothers t)].
  - injection Hst as <- <-. rewrite decide_False by set_solver. by apply Hsame.
  - injection Hst as <- <-. rewrite decide_False by set_solver. apply Hsame; [done|]. by destruct (_ =? _).
  - destruct (next_ticket m =? t); injection Hst as <- <-; [|rewrite decide_False by set_solver; by apply Hsame]. rewrite decide_True by set_solver. by apply (Hacq t); [| |apply (Hothers t)].
  - injection Hst as <- <-. rewrite decide_False by set_solver. rewrite (held_true m i t Hi). rewrite held_false; [done|]. cbn [slots]. intros j t'.
    intros [(_ & [=] & _)|[Hne Hj]]%list_lookup_insert_Some. pose proof (wf_holding _ _ Hw i t Hi) as ->. pose proof (wf_holding _ _ Hw j t' Hj) as ->.
    apply Hne. apply (wf_unique _ m i j _ _ (next_serving m) Hw Hi Hj); simpl; apply Z.eqb_refl.
Qed.

(** C39. The ticket lock excludes and is fair: as long as fewer than [2 ^ 64] steps are made, in
    every interleaving at most one slot has the lock, the slots get it exactly in the order in
    which they took their tickets ([try_lock] only takes one if it gets the lock at once),
    [is_locked] tells whether some slot has it or waits for it, and in that case the slot whose
    turn it is has the lock or gets it the next time it looks. *)
Theorem ticket_fifo n tr evs m : steps (new n) tr evs m → zlen tr < 2 ^ 64 →
  (∀ i j t t', slots m !! i = Some (Holding t) → slots m !! j = Some (Holding t') → i = j) ∧
  gots evs `prefix_of` tooks evs ∧
  (is_locked m = true → ∃ i, slots m !! i = Some (Holding (next_serving m)) ∨
     slots m !! i = Some (Waiting (next_serving m)) ∧ step i Spin m = Some ([Got i], mkTicketMutex (next_ticket m) (next_serving m) (<[i := Holding (next_serving m)]> (slots m)))) ∧
  (is_locked m = false → ∀ i t, slots m !! i ≠ Some (Holding t) ∧ slots m !! i ≠ Some (Waiting t)).
Proof.
  intros Hst Hb. destruct (ticket_steps_wf n tr evs m Hst Hb) as [Hw _]. pose proof (wf_serving _ _ Hw) as Hs. split; [|split; [|split]].
  - intros i j t t' Hi Hj. pose proof (wf_holding _ _ Hw i t Hi) as ->. pose proof (wf_holding _ _ Hw j t' Hj) as ->.
    apply (wf_unique evs m i j _ _ (next_serving m) Hw Hi Hj); simpl; apply Z.eqb_refl.
  - destruct (wf_got _ _ Hw) as [[_ ->]|[_ ->]]; apply prefix_take.
  - unfold is_locked. destruct (Z.eqb_spec (next_serving m) (next_ticket m)); [done|]. intros _. destruct (wf_owned _ _ Hw (next_serving m)) as (i & s & Hi & Ho); [lia|].
    exists i. destruct s as [|t|t|t|t]; try done; simpl in Ho; apply Z.eqb_eq in Ho as ->; [right|by left]. split; [done|]. unfold step. by rewrite Hi, Z.eqb_refl.
  - unfold is_locked. destruct (Z.eqb_spec (next_serving m) (next_ticket m)) as [E|]; [|done]. intros _ i t.
    split; intros Hi; (destruct (wf_owner _ _ Hw i _ t Hi) as [? _]; [simpl; apply Z.eqb_refl|lia]).
Qed.

Fixpoint run (l : list (nat * act)) (m : TicketMutex) : option (list event * TicketMutex) :=
  match l with
  | [] => Some ([], m)
  | (i, a) :: l => match step i a m with
                   | Some (ev, m) => match run l m with Some (evs, m) => Some (ev ++ evs, m) | None => None end
                   | None => None
                   end
  end.
Lemma ticket_run_steps l m0 tr evs m evs' m' : steps m0 tr evs m → run l m = Some (evs', m') → steps m0 (tr ++ l) (evs ++ evs') m'.
Proof.
  revert tr evs m evs'. induction l as [|[i a] l IH]; intros tr evs m evs' Hs; simpl; [intros [= <- <-]; by rewrite !app_nil_r|].
  destruct (step i a m) as [[ev m1]|] eqn:E; [|done]. destruct (run l m1) as [[evs1 m2]|] eqn:Er; [|done]. intros [= <- <-].
  rewrite (assoc _ evs ev evs1), (assoc _ tr [(i, a)] l). apply (IH _ _ m1); [by econstructor|done].
Qed.

Definition history : list (nat * act) :=
  [(0%nat, TryLoad); (1%nat, FetchAdd); (0%nat, TryCheck); (2%nat, FetchAdd); (0%nat, TryExchange); (1%nat, Spin); (2%nat, Spin); (0%nat, TryCheck); (1%nat, Release); (2%nat, Spin)].
Lemma ticket_fifo_witness : run history (new 3) = Some ([Took 1; Took 2; Got 1; Got 2], mkTicketMutex 2 1 [Free; Free; Holding 1]) ∧
  gots [Took 1; Took 2; Got 1; Got 2] `prefix_of` tooks [Took 1; Took 2; Got 1; Got 2].
Proof.
  split; [reflexivity|]. apply (ticket_fifo 3 history _ (mkTicketMutex 2 1 [Free; Free; Holding 1])); [|reflexivity].
  apply (ticket_run_steps history (new 3) [] [] (new 3) _ _ (steps_nil _)). reflexivity.
Defined.
End Ticket.
