(* ===== verification/RegionAllocator.v ===== *)
(** * Allocation of address ranges

    [vendor/region-allocator]: the allocator behind the windows of the PCI bus.  It keeps a set
    of disjoint regions, ordered by base.  The theorems relate it to the set of the free
    addresses. *)

From S2P Require Import Prelude.
From stdpp Require Import sorting options.
#[local] Open Scope Z_scope.

Record Region := mkRegion { base : Z; size : Z }.
#[export] Instance Region_eq_dec : EqDecision Region.
Proof. solve_decision. Defined.
(** The order of the [BTreeSet], derived from the fields. *)
Definition region_lt (r s : Region) : bool := (base r <? base s) || (base r =? base s) && (size r <? size s).

(** A set, as the list of its elements in order. *)
Definition RegionAllocator : Type := list Region.
Fixpoint insert (r : Region) (l : RegionAllocator) : RegionAllocator :=
  match l with
  | [] => [r]
  | x :: l' => if region_lt r x then r :: l else if region_lt x r then x :: insert r l' else l
  end.
Definition extend (o : option Region) (l : RegionAllocator) : RegionAllocator := match o with Some r => insert r l | None => l end.

Definition end_of (r : Region) : Z := base r +u size r.
(** The regions that [intersection_all] extracts: those that meet [region] or touch it. *)
Definition touches (region candidate : Region) : bool := negb ((end_of region <? base candidate) || (end_of candidate <? base region)).

(** [merge_internal], its [target] and the region that is not merged *)
Definition merge_internal (target other : Region) : Region * option Region :=
  let target_end := end_of target in
  let other_end := end_of other in
  if (target_end <? base other) || (other_end <? base target) then (target, Some other)
  else
    let new_base := Z.min (base target) (base other) in
    let new_end := Z.max target_end other_end in
    (mkRegion new_base (new_end -u new_base), None).
Fixpoint merge_all (rs : list Region) (target : Region) (l : RegionAllocator) : Region * RegionAllocator :=
  match rs with
  | [] => (target, l)
  | r :: rs => let '(target, rest) := merge_internal target r in merge_all rs target (extend rest l)
  end.

Definition add (b s : Z) (l : RegionAllocator) : RegionAllocator :=
  let new_region := mkRegion b s in
  let '(new_region, l) := merge_all (List.filter (touches new_region) l) new_region (List.filter (λ r, negb (touches new_region r)) l) in
  insert new_region l.

Definition subtract_internal (target source : Region) : option Region * option Region :=
  let target_end := end_of target in
  let source_end := end_of source in
  let left := if base target <? base source then Some (mkRegion (base target) (Z.min (size target) (base source -u base target))) else None in
  let right := if source_end <? target_end then
                 let size := Z.min (size target) (target_end -u source_end) in Some (mkRegion (target_end -u size) size)
               else None in
  (left, right).
Fixpoint subtract_all (rs : list Region) (source : Region) (l : RegionAllocator) : RegionAllocator :=
  match rs with
  | [] => l
  | r :: rs => let '(l_part, r_part) := subtract_internal r source in subtract_all rs source (extend r_part (extend l_part l))
  end.
Definition subtract (b s : Z) (l : RegionAllocator) : RegionAllocator :=
  let new_region := mkRegion b s in
  subtract_all (List.filter (touches new_region) l) new_region (List.filter (λ r, negb (touches new_region r)) l).

Definition add_or_subtract (b s : Z) (is_add : bool) : RegionAllocator → RegionAllocator := if is_add then add b s else subtract b s.

Definition allocate_by_addr (b s : Z) (l : RegionAllocator) : bool * RegionAllocator :=
  if existsb (λ r, (base r <=? b) && (b +u s <=? end_of r)) l then (true, subtract b s l) else (false, l).

Definition is_power_of_two (x : Z) : bool := (0 <? x) && (Z.land x (x - 1) =? 0).
Definition fit (s align : Z) (r : Region) : option Z :=
  if size r <? s then None
  else
    let b := Z.ldiff (base r +u align) align in
    if (base r <=? b) && (b +u s <=? end_of r) then Some b else None.
Fixpoint find_map {A B} (f : A → option B) (l : list A) : option B :=
  match l with [] => None | x :: l => match f x with Some y => Some y | None => find_map f l end end.
Definition allocate_by_size (s alignment : Z) (l : RegionAllocator) : option (Z * Z) * RegionAllocator :=
  if negb (is_power_of_two alignment) then (None, l)
  else match find_map (fit s (alignment - 1)) l with
  | None => (None, l)
  | Some b => (Some (b, s), subtract b s l)
  end.

Definition check_region (b s : Z) (l : RegionAllocator) : bool := bool_decide (mkRegion b s ∈ l).
Definition check_point (addr : Z) (l : RegionAllocator) : bool := existsb (λ r, (base r <=? addr) && (addr <=? end_of r)) l.

(** ** The free addresses *)
(** Addresses and alignments of devices are below [2 ^ 63]. *)
Definition LIMIT : Z := 2 ^ 63.
Definition within (a : Z) (r : Region) : Prop := base r ≤ a < base r + size r.
Definition free (l : RegionAllocator) (a : Z) : Prop := ∃ r, r ∈ l ∧ within a r.
Definition valid (r : Region) : Prop := 0 ≤ base r ∧ 0 < size r ∧ base r + size r < LIMIT.
(** Different regions do not even touch. *)
Definition apart (r s : Region) : Prop := base r + size r < base s ∨ base s + size s < base r.
Record wf (l : RegionAllocator) : Prop := {
  wf_valid r : r ∈ l → valid r;
  wf_apart r s : r ∈ l → s ∈ l → r = s ∨ apart r s;
  wf_sorted : StronglySorted (λ r s, base r < base s) l
}.

Lemma end_of_valid r : valid r → end_of r = base r + size r.
Proof. unfold valid, end_of, LIMIT. intros. apply wadd_small. unfold fits. lia. Qed.

Lemma touches_spec r s : valid r → valid s → touches r s = true ↔ ¬ apart r s.
Proof. intros Hr Hs. unfold touches, apart. rewrite (end_of_valid r Hr), (end_of_valid s Hs), negb_true_iff, orb_false_iff, !Z.ltb_ge. lia. Qed.

(** A region that is apart from all others is put in its place. *)
Lemma insert_spec r l : valid r → (∀ s, s ∈ l → valid s ∧ apart r s) → StronglySorted (λ r s, base r < base s) l →
  (∀ s, s ∈ insert r l ↔ s = r ∨ s ∈ l) ∧ StronglySorted (λ r s, base r < base s) (insert r l).
Proof.
  intros Hr. induction l as [|x l IH]; intros Hl Hs; simpl.
  { split; [intros s; rewrite list_elem_of_singleton; split; [by left|by intros [?|?%not_elem_of_nil]]|]. repeat constructor. }
  apply StronglySorted_inv in Hs as [Hs Hx]. rewrite Forall_forall in Hx. destruct (Hl x) as [Hvx Hax]; [by left|]. destruct IH as [IH1 IH2]; [intros s Hin; apply Hl; by right|done|].
  unfold region_lt. unfold valid, apart in *. destruct (Z.ltb_spec (base r) (base x)); cbn [orb].
  - split; [intros s; by rewrite !elem_of_cons|]. constructor; [by constructor; [|rewrite Forall_forall]|]. constructor; [done|]. rewrite Forall_forall. intros y Hy. specialize (Hx y Hy). simpl in Hx. lia.
  - destruct (Z.eqb_spec (base r) (base x)); [lia|]. destruct (Z.ltb_spec (base x) (base r)); [|lia]. cbn [andb orb]. split; [intros s; rewrite !elem_of_cons, IH1; tauto|].
    constructor; [done|]. rewrite Forall_forall. intros y Hy. apply IH1 in Hy as [->|Hy]; [done|by apply Hx].
Qed.

Lemma wf_insert r l : valid r → wf l → (∀ s, s ∈ l → apart r s) → wf (insert r l) ∧ ∀ s, s ∈ insert r l ↔ s = r ∨ s ∈ l.
Proof.
  intros Hr Hl Ha. destruct (insert_spec r l Hr) as [H1 H2]; [intros s Hs; split; [by apply (wf_valid l Hl)|by apply Ha]|apply Hl|]. split; [|done]. split.
  - intros s [->|Hs]%H1; [done|by apply (wf_valid l Hl)].
  - intros s t [->|Hs]%H1 [->|Ht]%H1; [by left|right; by apply Ha|right|by apply (wf_apart l Hl)]. destruct (Ha s Hs); [by right|by left].
  - done.
Qed.

Lemma wf_filter l (f : Region → bool) : wf l → wf (List.filter f l).
Proof.
  intros [H1 H2 H3]. assert (∀ r, r ∈ List.filter f l → r ∈ l) as Hin by (intros r; rewrite !list_elem_of_In, filter_In; tauto).
  split; [auto|auto|]. clear -H3. induction H3 as [|x l Hs IH Hx]; simpl; [constructor|]. destruct (f x); [|done]. constructor; [done|].
  rewrite Forall_forall in *. intros y. rewrite list_elem_of_In, filter_In, <-list_elem_of_In. intros [Hy _]. by apply Hx.
Qed.

(** ** Adding *)
Lemma merge_internal_spec t r : valid t → valid r → ¬ apart t r →
  ∃ t', merge_internal t r = (t', None) ∧ valid t' ∧ (∀ a, within a t' ↔ within a t ∨ within a r) ∧ (∀ s, valid s → apart t s → apart r s → apart t' s) ∧
    ∀ s, ¬ apart t s → ¬ apart t' s.
Proof.
  intros Ht Hr Hn. unfold merge_internal. rewrite (end_of_valid t Ht), (end_of_valid r Hr). unfold valid, apart, within, LIMIT in *.
  destruct (Z.ltb_spec (base t + size t) (base r)); [lia|]. destruct (Z.ltb_spec (base r + size r) (base t)); [lia|]. simpl orb. cbv iota.
  eexists. split; [done|]. cbn [base size]. rewrite wsub_small by (unfold fits; lia). split_and!; lia.
Qed.

Lemma merge_all_spec rs t l : valid t → (∀ r, r ∈ rs → valid r ∧ ¬ apart t r) → (∀ s, s ∈ l → valid s ∧ apart t s ∧ ∀ r, r ∈ rs → apart r s) →
  ∃ t', merge_all rs t l = (t', l) ∧ valid t' ∧ (∀ a, within a t' ↔ within a t ∨ ∃ r, r ∈ rs ∧ within a r) ∧ ∀ s, s ∈ l → apart t' s.
Proof.
  revert t. induction rs as [|r rs IH]; intros t Ht Hrs Hl; simpl.
  { exists t. split; [done|]. split; [done|]. split; [|intros s Hs; by destruct (Hl s Hs) as (_ & ? & _)]. intros a. split; [by left|]. intros [?|(r & ?%not_elem_of_nil & _)]; done. }
  destruct (Hrs r) as [Hr Htr]; [by left|]. destruct (merge_internal_spec t r Ht Hr Htr) as (t1 & -> & Ht1 & Hw1 & Ha1 & Hn1). simpl extend.
  destruct (IH t1 Ht1) as (t' & E & Ht' & Hw' & Ha').
  - intros r1 Hr1. destruct (Hrs r1) as [? ?]; [by right|]. split; [done|]. by apply Hn1.
  - intros s Hs. destruct (Hl s Hs) as (Hvs & Hts & Hrss). split; [done|]. split; [apply Ha1; [done|done|]; apply Hrss; by left|]. intros r1 Hr1. apply Hrss. by right.
  - exists t'. split; [done|]. split; [done|]. split; [|done]. intros a. rewrite Hw', Hw1. setoid_rewrite elem_of_cons. naive_solver.
Qed.

Lemma filter_in (f : Region → bool) l r : r ∈ List.filter f l ↔ r ∈ l ∧ f r = true.
Proof. by rewrite !list_elem_of_In, filter_In. Qed.

(** The two parts of the set: what touches a region, and what is apart from it. *)
Lemma touching n l : valid n → wf l → (∀ r, r ∈ List.filter (touches n) l ↔ r ∈ l ∧ ¬ apart n r) ∧ (∀ r, r ∈ List.filter (λ r, negb (touches n r)) l ↔ r ∈ l ∧ apart n r).
Proof.
  intros Hn Hl. split; intros r; rewrite filter_in; split; intros [Hr H]; (split; [done|]); pose proof (touches_spec n r Hn (wf_valid l Hl r Hr)) as Ht.
  - by apply Ht.
  - by apply Ht.
  - apply negb_true_iff in H. destruct (decide (base n + size n < base r ∨ base r + size r < base n)) as [?|Hno]; [done|]. apply Ht in Hno. by rewrite Hno in H.
  - apply negb_true_iff. destruct (touches n r); [|done]. by destruct (proj1 Ht eq_refl).
Qed.

Lemma add_spec b s l : valid (mkRegion b s) → wf l → wf (add b s l) ∧ ∀ a, free (add b s l) a ↔ free l a ∨ b ≤ a < b + s.
Proof.
  intros Hn Hl. unfold add. set (n := mkRegion b s) in *. destruct (touching n l Hn Hl) as [Hin Hout].
  destruct (merge_all_spec (List.filter (touches n) l) n (List.filter (λ r, negb (touches n r)) l) Hn) as (t' & -> & Ht' & Hw & Ha).
  - intros r [Hr Ht]%Hin. split; [by apply (wf_valid l Hl)|done].
  - intros r [Hr Hap]%Hout. split; [by apply (wf_valid l Hl)|]. split; [done|]. intros q [Hq Hqn]%Hin. destruct (wf_apart l Hl q r Hq Hr) as [->|?]; done.
  - destruct (wf_insert t' (List.filter (λ r, negb (touches n r)) l) Ht' (wf_filter l _ Hl) Ha) as [Hwf Hmem]. split; [done|]. intros a. unfold free. split.
    + intros (r & [->|[Hr _]%Hout]%Hmem & Hra); [|left; by exists r]. apply Hw in Hra as [Hra|(q & [Hq _]%Hin & Hqa)]; [by right|left; by exists q].
    + intros [(r & Hr & Hra)|Hra].
      * destruct (decide (base n + size n < base r ∨ base r + size r < base n)) as [Hap|Hno].
        -- exists r. split; [|done]. apply Hmem. right. by apply Hout.
        -- exists t'. split; [apply Hmem; by left|]. apply Hw. right. exists r. split; [by apply Hin|done].
      * exists t'. split; [apply Hmem; by left|]. apply Hw. by left.
Qed.

(** ** Subtracting *)
(** The pieces of [t] that are left. *)
Lemma subtract_internal_spec t n : valid t → valid n → ¬ apart n t →
  let pieces := option_list (subtract_internal t n).1 ++ option_list (subtract_internal t n).2 in
  (∀ p, p ∈ pieces → valid p ∧ base t ≤ base p ∧ base p + size p ≤ base t + size t) ∧
  (∀ a, (∃ p, p ∈ pieces ∧ within a p) ↔ within a t ∧ ¬ within a n) ∧
  (∀ p q, (subtract_internal t n).1 = Some p → (subtract_internal t n).2 = Some q → apart p q).
Proof.
  intros Ht Hn Hna. unfold subtract_internal. rewrite (end_of_valid t Ht), (end_of_valid n Hn). unfold valid, apart, within, LIMIT in *. cbn [fst snd].
  destruct (Z.ltb_spec (base t) (base n)), (Z.ltb_spec (base n + size n) (base t + size t)); simpl option_list; simpl app;
    rewrite ?(wsub_small 64 (base t + size t) (base n + size n)), ?(wsub_small 64 (base n) (base t)) by (unfold fits; lia); rewrite ?(wsub_small 64 (base t + size t)) by (unfold fits; lia).
  - split; [|split].
    + intros p. rewrite !elem_of_cons, elem_of_nil. intros [->|[->|[]]]; simpl; lia.
    + intros a. setoid_rewrite elem_of_cons. setoid_rewrite list_elem_of_singleton. split.
      * intros (p & [->| ->] & Hp); simpl in *; lia.
      * intros [H1 H2]. destruct (decide (a < base n)); [eexists; split; [by left|simpl; lia]|eexists; split; [by right|simpl; lia]].
    + intros p q [= <-] [= <-]. simpl. lia.
  - split; [|split; [|done]].
    + intros p ->%list_elem_of_singleton. simpl. lia.
    + intros a. setoid_rewrite list_elem_of_singleton. split; [intros (p & -> & Hp); simpl in *; lia|]. intros [H1 H2]. eexists. split; [done|simpl; lia].
  - split; [|split; [|done]].
    + intros p ->%list_elem_of_singleton. simpl. lia.
    + intros a. setoid_rewrite list_elem_of_singleton. split; [intros (p & -> & Hp); simpl in *; lia|]. intros [H1 H2]. eexists. split; [done|simpl; lia].
  - split; [by intros p ?%not_elem_of_nil|split; [|done]]. intros a. split; [by intros (p & ?%not_elem_of_nil & _)|]. lia.
Qed.

Lemma subtract_all_spec rs n l : valid n → NoDup rs → (∀ r, r ∈ rs → valid r ∧ ¬ apart n r) → (∀ r q, r ∈ rs → q ∈ rs → r = q ∨ apart r q) → wf l →
  (∀ r s, r ∈ rs → s ∈ l → apart r s) →
  wf (subtract_all rs n l) ∧ ∀ a, free (subtract_all rs n l) a ↔ free l a ∨ ∃ r, r ∈ rs ∧ within a r ∧ ¬ within a n.
Proof.
  intros Hn. revert l. induction rs as [|r rs IH]; intros l Hnd Hrs Hap Hl Hrl; cbn [subtract_all].
  { split; [done|]. intros a. split; [by left|]. intros [?|(q & ?%not_elem_of_nil & _)]; done. }
  apply NoDup_cons in Hnd as [Hnr Hnd]. destruct (Hrs r) as [Hr Hrn]; [by left|]. pose proof (subtract_internal_spec r n Hr Hn Hrn) as Hp. destruct (subtract_internal r n) as [lp rp]. cbn [fst snd] in Hp.
  destruct Hp as (Hpv & Hpw & Hpa).
  assert (∀ o l1, (∀ p, o = Some p → valid p ∧ ∀ s, s ∈ l1 → apart p s) → wf l1 → wf (extend o l1) ∧ ∀ s, s ∈ extend o l1 ↔ s ∈ option_list o ∨ s ∈ l1) as Hext.
  { intros [p|] l1 Hpo Hl1; simpl.
    - destruct (Hpo p eq_refl). destruct (wf_insert p l1) as [? Hm]; [done|done|done|]. split; [done|]. intros s. rewrite Hm, list_elem_of_singleton. done.
    - split; [done|]. intros s. split; [by right|]. intros [?%not_elem_of_nil|?]; done. }
  assert (∀ p s, p ∈ option_list lp ++ option_list rp → s ∈ l → apart p s) as Hpl.
  { intros p s Hp Hs. destruct (Hpv p Hp) as (? & ? & ?). specialize (Hrl r s ltac:(by left) Hs). unfold apart in *. lia. }
  destruct (Hext lp l) as [Hl1 Hm1]; [|done|]. { intros p ->. split; [apply Hpv; by left|]. intros s Hs. apply Hpl; [by left|done]. }
  destruct (Hext rp (extend lp l)) as [Hl2 Hm2]; [|done|].
  { intros q ->. split; [apply Hpv; rewrite elem_of_app; right; by left|]. intros s [Hs|Hs]%Hm1; [|apply Hpl; [rewrite elem_of_app; right; by left|done]].
    destruct lp as [p|]; [|by apply not_elem_of_nil in Hs]. apply list_elem_of_singleton in Hs as ->. destruct (Hpa p q eq_refl eq_refl); [by right|by left]. }
  destruct (IH (extend rp (extend lp l)) Hnd) as [Hwf Hfree].
  - intros q Hq. apply Hrs. by right.
  - intros q1 q2 H1 H2. apply Hap; by right.
  - done.
  - intros q s Hq Hs. apply Hm2 in Hs. assert (s ∈ option_list lp ++ option_list rp ∨ s ∈ l) as [Hs'|Hs'] by (rewrite elem_of_app; rewrite Hm1 in Hs; tauto); [|apply Hrl; [by right|done]].
    destruct (Hpv s Hs') as (? & ? & ?). destruct (Hap r q) as [->|Hrq]; [by left|by right|done|]. unfold apart in *. lia.
  - split; [done|]. intros a. rewrite Hfree. assert (free (extend rp (extend lp l)) a ↔ free l a ∨ within a r ∧ ¬ within a n) as ->.
    { rewrite <-Hpw. unfold free. setoid_rewrite Hm2. setoid_rewrite Hm1. setoid_rewrite elem_of_app. naive_solver. }
    setoid_rewrite elem_of_cons. naive_solver.
Qed.

Lemma wf_nodup l : wf l → NoDup l.
Proof.
  intros [_ _ Hs]. induction Hs as [|x l _ IH Hx]; [constructor|]. constructor; [|done]. intros Hin. rewrite Forall_forall in Hx. specialize (Hx x Hin). simpl in Hx. lia.
Qed.

Lemma subtract_spec b s l : valid (mkRegion b s) → wf l → wf (subtract b s l) ∧ ∀ a, free (subtract b s l) a ↔ free l a ∧ ¬ b ≤ a < b + s.
Proof.
  intros Hn Hl. unfold subtract. set (n := mkRegion b s) in *. destruct (touching n l Hn Hl) as [Hin Hout].
  destruct (subtract_all_spec (List.filter (touches n) l) n (List.filter (λ r, negb (touches n r)) l) Hn) as [Hwf Hfree].
  - apply wf_nodup. by apply wf_filter.
  - intros r [Hr Ht]%Hin. split; [by apply (wf_valid l Hl)|done].
  - intros r q [Hr _]%Hin [Hq _]%Hin. by apply (wf_apart l Hl).
  - by apply wf_filter.
  - intros r q [Hr Hrn]%Hin [Hq Hqa]%Hout. destruct (wf_apart l Hl r q Hr Hq) as [->|?]; done.
  - split; [done|]. intros a. rewrite Hfree. unfold free. change (b ≤ a < b + s) with (within a n). split.
    + intros [(r & [Hr Hap]%Hout & Hra)|(r & [Hr _]%Hin & Hra & Hna)]; [|by split; [exists r|]]. split; [by exists r|]. unfold within, apart in *. lia.
    + intros [(r & Hr & Hra) Hna]. destruct (decide (base n + size n < base r ∨ base r + size r < base n)) as [Hap|Hno]; [left|right]; exists r.
      * split; [by apply Hout|done].
      * split; [by apply Hin|done].
Qed.

(** ** Allocating *)
(** A range of free addresses lies in one region. *)
Lemma free_range l b s : wf l → 0 < s → (∀ a, b ≤ a < b + s → free l a) ↔ ∃ r, r ∈ l ∧ base r ≤ b ∧ b + s ≤ base r + size r.
Proof.
  intros Hl Hs. split.
  - intros Hf. destruct (Hf b) as (r & Hr & Hb); [lia|]. exists r. unfold within in Hb. split; [done|]. split; [lia|].
    destruct (decide (b + s ≤ base r + size r)) as [|Hgt]; [done|]. exfalso. destruct (Hf (base r + size r)) as (q & Hq & Hqb); [lia|]. unfold within in Hqb.
    destruct (wf_apart l Hl r q Hr Hq) as [->|Ha]; [lia|]. unfold apart in Ha. lia.
  - intros (r & Hr & H1 & H2) a Ha. exists r. split; [done|]. unfold within. lia.
Qed.

Lemma allocate_by_addr_spec b s l : valid (mkRegion b s) → wf l →
  let '(r, l') := allocate_by_addr b s l in
  wf l' ∧ (r = true ↔ ∀ a, b ≤ a < b + s → free l a) ∧ ∀ a, free l' a ↔ free l a ∧ ¬ (r = true ∧ b ≤ a < b + s).
Proof.
  intros Hn Hl. unfold allocate_by_addr. assert (0 < s ∧ fits 64 (b + s)) as [Hs Hf] by (unfold valid, LIMIT, fits in *; simpl in *; lia).
  assert (existsb (λ r, (base r <=? b) && (b +u s <=? end_of r)) l = true ↔ ∀ a, b ≤ a < b + s → free l a) as Hiff.
  { rewrite (free_range l b s Hl Hs), existsb_exists. setoid_rewrite <-list_elem_of_In. split; intros (r & Hr & H); exists r; (split; [done|]);
      rewrite wadd_small, end_of_valid, ?andb_true_iff, ?Z.leb_le in * by (done || by apply (wf_valid l Hl)); lia. }
  destruct (existsb _ l).
  - destruct (subtract_spec b s l Hn Hl) as [Hw Hfree]. split; [done|]. split; [done|]. intros a. rewrite Hfree. naive_solver.
  - split; [done|]. split; [done|]. intros a. naive_solver.
Qed.

Lemma power_of_two x : 0 < x → is_power_of_two x = true ↔ x = 2 ^ Z.log2 x.
Proof.
  intros Hx. unfold is_power_of_two. destruct (Z.ltb_spec 0 x); [|lia]. simpl. rewrite Z.eqb_eq. pose proof (Z.log2_spec x Hx) as [H1 H2]. pose proof (Z.log2_nonneg x) as H3. split.
  - intros H0. destruct (decide (x = 2 ^ Z.log2 x)) as [|Hne]; [done|]. exfalso. assert (Z.testbit (Z.land x (x - 1)) (Z.log2 x) = true) as Hb.
    { rewrite Z.land_spec, (Z.bit_log2 x Hx). simpl. assert (Z.log2 (x - 1) = Z.log2 x) as <- by (apply Z.log2_unique; lia). apply Z.bit_log2. lia. }
    by rewrite H0, Z.bits_0 in Hb.
  - intros E. rewrite E at 1 2. replace (2 ^ Z.log2 x - 1) with (Z.ones (Z.log2 x)) by (rewrite Z.ones_equiv; lia). rewrite Z.land_ones by done. apply Z.mod_same. lia.
Qed.

Lemma ldiff_low_bits x k : 0 ≤ k → Z.ldiff x (Z.ones k) = x - x mod 2 ^ k.
Proof. intros Hk. rewrite Z.ldiff_ones_r, Z.shiftr_div_pow2, Z.shiftl_mul_pow2 by done. pose proof (Z.div_mod x (2 ^ k) ltac:(lia)). lia. Qed.

(** The first aligned address of a region, if the rest of the region is large enough. *)
Lemma fit_spec s k r : 0 < s → 0 ≤ k → 2 ^ k ≤ LIMIT → valid r →
  match fit s (2 ^ k - 1) r with
  | Some b => b mod 2 ^ k = 0 ∧ base r ≤ b ∧ b + s ≤ base r + size r ∧ ∀ c, c mod 2 ^ k = 0 → base r ≤ c → b ≤ c
  | None => ∀ c, c mod 2 ^ k = 0 → base r ≤ c → base r + size r < c + s
  end.
Proof.
  intros Hs Hk Hlim Hr. unfold fit. rewrite (end_of_valid r Hr). unfold valid, LIMIT in *. assert (0 < 2 ^ k) as Hp by lia.
  destruct (Z.ltb_spec (size r) s); [intros c Hc Hle; lia|]. rewrite (wadd_small 64 (base r)) by (unfold fits; lia).
  assert (2 ^ k - 1 = Z.ones k) as Ho by (rewrite Z.ones_equiv; lia). rewrite Ho, ldiff_low_bits, <-Ho by done. set (b := base r + (2 ^ k - 1) - (base r + (2 ^ k - 1)) mod 2 ^ k).
  pose proof (Z.mod_pos_bound (base r + (2 ^ k - 1)) (2 ^ k) Hp) as Hm. pose proof (Z.div_mod (base r + (2 ^ k - 1)) (2 ^ k) ltac:(lia)) as Hdm.
  assert (b = 2 ^ k * ((base r + (2 ^ k - 1)) / 2 ^ k)) as Eb by (unfold b; lia).
  assert (b mod 2 ^ k = 0) as Hb0 by (rewrite Eb, Z.mul_comm; apply Z.mod_mul; lia).
  assert (∀ c, c mod 2 ^ k = 0 → base r ≤ c → b ≤ c) as Hleast.
  { intros c Hc Hle. pose proof (Z.div_mod c (2 ^ k) ltac:(lia)) as Hcd. rewrite Eb, Hcd, Hc, Z.add_0_r. apply Z.mul_le_mono_nonneg_l; [lia|].
    apply Z.lt_succ_r, Z.div_lt_upper_bound; [lia|]. lia. }
  rewrite wadd_small by (unfold fits, b; lia). destruct (Z.leb_spec (base r) b); [|unfold b in *; lia]. cbn [andb]. destruct (Z.leb_spec (b + s) (base r + size r)).
  - done.
  - intros c Hc Hle. specialize (Hleast c Hc Hle). lia.
Qed.

Lemma find_map_spec s k l : 0 < s → 0 ≤ k → 2 ^ k ≤ LIMIT → wf l →
  match find_map (fit s (2 ^ k - 1)) l with
  | Some b => b mod 2 ^ k = 0 ∧ (∃ r, r ∈ l ∧ base r ≤ b ∧ b + s ≤ base r + size r) ∧ ∀ r c, r ∈ l → c mod 2 ^ k = 0 → base r ≤ c → c + s ≤ base r + size r → b ≤ c
  | None => ∀ r c, r ∈ l → c mod 2 ^ k = 0 → base r ≤ c → c + s ≤ base r + size r → False
  end.
Proof.
  intros Hs Hk Hlim [Hv Ha Hst]. induction Hst as [|x l Hst IH Hx]; simpl; [by intros r c ?%not_elem_of_nil|]. pose proof (fit_spec s k x Hs Hk Hlim (Hv x ltac:(by left))) as Hf.
  destruct (fit s (2 ^ k - 1) x) as [b|].
  - destruct Hf as (Hb & H1 & H2 & Hleast). split; [done|]. split; [exists x; split; [by left|done]|]. intros r c [->|Hr]%elem_of_cons Hc Hle Hend; [by apply Hleast|].
    rewrite Forall_forall in Hx. specialize (Hx r Hr). simpl in Hx. destruct (Ha x r) as [->|Hap]; [by left|by right|by apply Hleast|]. pose proof (Hv r ltac:(by right)). pose proof (Hv x ltac:(by left)). unfold apart, valid in *. lia.
  - assert (match find_map (fit s (2 ^ k - 1)) l with
            | Some b => b mod 2 ^ k = 0 ∧ (∃ r, r ∈ l ∧ base r ≤ b ∧ b + s ≤ base r + size r) ∧ ∀ r c, r ∈ l → c mod 2 ^ k = 0 → base r ≤ c → c + s ≤ base r + size r → b ≤ c
            | None => ∀ r c, r ∈ l → c mod 2 ^ k = 0 → base r ≤ c → c + s ≤ base r + size r → False end) as IH'.
    { apply IH; [intros r Hr; apply Hv; by right|intros r q Hr Hq; apply Ha; by right]. }
    destruct (find_map (fit s (2 ^ k - 1)) l) as [b|].
    + destruct IH' as (Hb & (r & Hr & H1 & H2) & Hleast). split; [done|]. split; [exists r; split; [by right|done]|]. intros q c [->|Hq]%elem_of_cons Hc Hle Hend; [|by apply (Hleast q)].
      specialize (Hf c Hc Hle). lia.
    + intros q c [->|Hq]%elem_of_cons Hc Hle Hend; [|by apply (IH' q c)]. specialize (Hf c Hc Hle). lia.
Qed.

Lemma allocate_by_size_spec s al l : 0 < s → 0 < al ≤ LIMIT → wf l →
  let '(r, l') := allocate_by_size s al l in
  wf l' ∧
  match r with
  | Some (b, s') => s' = s ∧ is_power_of_two al = true ∧ b mod al = 0 ∧ (∀ a, b ≤ a < b + s → free l a) ∧ (∀ c, c mod al = 0 → (∀ a, c ≤ a < c + s → free l a) → b ≤ c) ∧
      ∀ a, free l' a ↔ free l a ∧ ¬ b ≤ a < b + s
  | None => l' = l ∧ (is_power_of_two al = false ∨ ∀ c, c mod al = 0 → ¬ ∀ a, c ≤ a < c + s → free l a)
  end.
Proof.
  intros Hs Hal Hl. unfold allocate_by_size. destruct (is_power_of_two al) eqn:Ep; cbn [negb]; [|split; [done|]; split; [done|by left]].
  apply (power_of_two al ltac:(lia)) in Ep as Ek. pose proof (Z.log2_nonneg al) as Hk. pose proof (find_map_spec s (Z.log2 al) l Hs Hk ltac:(lia) Hl) as Hf. rewrite <-Ek in Hf.
  destruct (find_map (fit s (al - 1)) l) as [b|].
  - destruct Hf as (Hb & (r & Hr & H1 & H2) & Hleast). assert (valid (mkRegion b s)) as Hn. { pose proof (wf_valid l Hl r Hr). unfold valid in *. simpl. lia. }
    destruct (subtract_spec b s l Hn Hl) as [Hw Hfree]. split; [done|]. split; [done|]. split; [done|]. split; [done|]. split; [apply (free_range l b s Hl Hs); by exists r|]. split; [|done].
    intros c Hc Hca. apply (free_range l c s Hl Hs) in Hca as (q & Hq & H3 & H4). by apply (Hleast q c).
  - split; [done|]. split; [done|]. right. intros c Hc Hca. apply (free_range l c s Hl Hs) in Hca as (q & Hq & H3 & H4). by apply (Hf q c).
Qed.

(** ** Histories *)
Inductive op := Add (b s : Z) | Subtract (b s : Z) | AllocateByAddr (b s : Z) | AllocateBySize (s alignment : Z).
Inductive ret := RUnit | RBool (r : bool) | RRange (r : option (Z * Z)).
Definition exec (o : op) (l : RegionAllocator) : ret * RegionAllocator :=
  match o with
  | Add b s => (RUnit, add b s l)
  | Subtract b s => (RUnit, subtract b s l)
  | AllocateByAddr b s => let '(r, l) := allocate_by_addr b s l in (RBool r, l)
  | AllocateBySize s al => let '(r, l) := allocate_by_size s al l in (RRange r, l)
  end.
Definition run (os : list op) (l : RegionAllocator) : RegionAllocator := foldl (λ l o, (exec o l).2) l os.
(** Ranges are not empty, and below the limit. *)
Definition op_ok (o : op) : Prop :=
  match o with
  | Add b s | Subtract b s | AllocateByAddr b s => 0 ≤ b ∧ 0 < s ∧ b + s < LIMIT
  | AllocateBySize s al => 0 < s ∧ 0 < al ≤ LIMIT
  end.

(** What the operation may do to the set [F] of the free addresses. *)
Inductive spec_step (F : Z → Prop) : op → ret → (Z → Prop) → Prop :=
| spec_add b s F' : (∀ a, F' a ↔ F a ∨ b ≤ a < b + s) → spec_step F (Add b s) RUnit F'
| spec_subtract b s F' : (∀ a, F' a ↔ F a ∧ ¬ b ≤ a < b + s) → spec_step F (Subtract b s) RUnit F'
| spec_addr b s F' : (∀ a, b ≤ a < b + s → F a) → (∀ a, F' a ↔ F a ∧ ¬ b ≤ a < b + s) → spec_step F (AllocateByAddr b s) (RBool true) F'
| spec_addr_taken b s a F' : b ≤ a < b + s → ¬ F a → (∀ a, F' a ↔ F a) → spec_step F (AllocateByAddr b s) (RBool false) F'
| spec_size s k b F' : 0 ≤ k → b mod 2 ^ k = 0 → (∀ a, b ≤ a < b + s → F a) → (∀ c, c mod 2 ^ k = 0 → (∀ a, c ≤ a < c + s → F a) → b ≤ c) →
    (∀ a, F' a ↔ F a ∧ ¬ b ≤ a < b + s) → spec_step F (AllocateBySize s (2 ^ k)) (RRange (Some (b, s))) F'
| spec_size_none s al F' : (∀ c, c mod al = 0 → ¬ ∀ a, c ≤ a < c + s → F a) → (∀ a, F' a ↔ F a) → spec_step F (AllocateBySize s al) (RRange None) F'
| spec_size_odd s al F' : (∀ k, 0 ≤ k → al ≠ 2 ^ k) → (∀ a, F' a ↔ F a) → spec_step F (AllocateBySize s al) (RRange None) F'.

Lemma exec_wf o l : op_ok o → wf l → wf (exec o l).2.
Proof.
  destruct o as [b s|b s|b s|s al]; simpl; intros Ho Hl.
  - by apply add_spec.
  - by apply subtract_spec.
  - pose proof (allocate_by_addr_spec b s l Ho Hl) as H. destruct (allocate_by_addr b s l). by destruct H.
  - pose proof (allocate_by_size_spec s al l ltac:(lia) ltac:(lia) Hl) as H. destruct (allocate_by_size s al l). by destruct H.
Qed.

Lemma run_wf os : Forall op_ok os → wf (run os []).
Proof.
  intros Hos. assert (wf []) as H0 by (split; [by intros r ?%not_elem_of_nil|by intros r s ?%not_elem_of_nil|constructor]). unfold run. revert H0. generalize (@nil Region) as l.
  induction Hos as [|o os Ho _ IH]; intros l Hl; simpl; [done|]. apply IH. by apply exec_wf.
Qed.

(** C30. The allocator implements a set of addresses, for ranges that are not empty and lie below 2^63 and alignments up to 2^63
    ([op_ok]; [empty_subtract_splits] shows what an empty range does): after any history of such operations, adding and subtracting
    are union and difference; an allocation by address succeeds exactly if the whole range is
    free, and takes exactly this range; an allocation by size returns the lowest range of that
    size with the alignment all of whose addresses are free, and fails only if there is none or
    the alignment is not a power of two. *)
Theorem region_allocator_refines os o : Forall op_ok os → op_ok o →
  let l := run os [] in spec_step (free l) o (exec o l).1 (free (exec o l).2).
Proof.
  intros Hos Ho l. pose proof (run_wf os Hos) as Hl. fold l in Hl. clearbody l. destruct o as [b s|b s|b s|s al]; simpl in *.
  - constructor. by apply add_spec.
  - constructor. by apply subtract_spec.
  - pose proof (allocate_by_addr_spec b s l Ho Hl) as H. destruct (allocate_by_addr b s l) as [r l']. destruct H as (_ & Hr & Hf). simpl. destruct r.
    + constructor; [by apply Hr|]. intros a. rewrite Hf. naive_solver.
    + assert (∃ a, b ≤ a < b + s ∧ ¬ free l a) as (a & Ha & Hna).
      { destruct (decide (Exists (λ a, Forall (λ r, a < base r ∨ base r + size r ≤ a) l) (seqZ b s))) as [He|Hne].
        - apply Exists_exists in He as (a & Ha%elem_of_seqZ & Hall). exists a. split; [done|]. intros (r & Hr1 & Hr2). rewrite Forall_forall in Hall. specialize (Hall r Hr1). unfold within in Hr2. lia.
        - exfalso. assert (false = true) as Hx; [|done]. apply Hr. intros a Ha. destruct (decide (Exists (λ r, base r ≤ a < base r + size r) l)) as [Hex|Hnex].
          + apply Exists_exists in Hex as (r & Hr1 & Hr2). by exists r.
          + destruct Hne. apply Exists_exists. exists a. split; [by apply elem_of_seqZ|]. apply Forall_forall. intros r Hr1.
            destruct (decide (a < base r ∨ base r + size r ≤ a)); [done|]. destruct Hnex. apply Exists_exists. exists r. split; [done|lia]. }
      apply (spec_addr_taken _ b s a); [done|done|]. intros a'. rewrite Hf. naive_solver.
  - pose proof (allocate_by_size_spec s al l ltac:(lia) ltac:(lia) Hl) as H. destruct (allocate_by_size s al l) as [r l']. destruct H as [_ H]. simpl. destruct r as [[b s']|].
    + destruct H as (-> & Hp & Hb & Hf & Hleast & Hf'). pose proof (Z.log2_nonneg al). apply (power_of_two al ltac:(lia)) in Hp.
      assert (∃ k, 0 ≤ k ∧ al = 2 ^ k) as (k & Hk & ->) by (by exists (Z.log2 al)). by apply spec_size.
    + destruct H as [-> [Hp|Hno]]; [|by apply spec_size_none]. apply spec_size_odd; [|done]. intros k Hk ->. assert (is_power_of_two (2 ^ k) = true) as Ht; [|by rewrite Hp in Ht].
      apply power_of_two; [lia|]. by rewrite Z.log2_pow2.
Qed.

Definition history : list op := [Add 0x1000 0x1000; Add 0x3000 0x1000; Add 0x2000 0x800; Subtract 0x1400 0x100; AllocateByAddr 0x3800 0x100; AllocateBySize 0x800 0x400].
Lemma history_regions : run history [] = [mkRegion 0x1000 0x400; mkRegion 0x1500 0x300; mkRegion 0x2000 0x800; mkRegion 0x3000 0x800; mkRegion 0x3900 0x700].
Proof. vm_compute. reflexivity. Qed.

Lemma region_allocator_refines_witness : spec_step (free (run history [])) (AllocateBySize 0x400 0x1000) (RRange (Some (0x1000, 0x400))) (free (exec (AllocateBySize 0x400 0x1000) (run history [])).2).
Proof.
  apply (region_allocator_refines history (AllocateBySize 0x400 0x1000)); [|unfold op_ok, LIMIT; lia].
  unfold history. repeat apply Forall_cons_2; try apply Forall_nil_2; unfold op_ok, LIMIT; lia.
Defined.

(** An empty range cuts a region in two, and an allocation across the cut fails although all its
    addresses are free. *)
Lemma empty_subtract_splits : (allocate_by_addr 0 0x20 (subtract 0x10 0 (add 0 0x20 []))).1 = false.
Proof. vm_compute. reflexivity. Qed.
(** [check_point] accepts the first address behind a region. *)
Lemma check_point_end : check_point 0x2000 (add 0x1000 0x1000 []) = true ∧ ¬ free (add 0x1000 0x1000 []) 0x2000.
Proof. split; [vm_compute; reflexivity|]. intros (r & Hr & Hw). vm_compute in Hr. apply list_elem_of_singleton in Hr as ->. unfold within in Hw. simpl in Hw. lia. Qed.
