(* ===== verification/Device.v ===== *)
(** * Device objects: resources and interrupts ([zircon-object/src/dev], [zircon-syscall/src/ddk.rs])

    A resource is the right to use a range of a hardware namespace; resources are created from
    others by [sys_resource_create].  An interrupt object hands hardware or virtual interrupts to
    user space, either through a port or to a thread that waits for it.  Resources are shown to
    stay within those that they come from, interrupts to deliver each event once, merging those
    that come in before the last one has been dealt with. *)

From S2P Require Import Prelude Errors KObject Rights Handles PortPacket Port.
From stdpp Require Import options.
#[local] Open Scope Z_scope.

(** ** Resources *)
Module Resource.
Inductive ResourceKind := MMIO | IRQ | IOPORT | ROOT | SMC | SYSTEM | COUNT.
#[global] Instance ResourceKind_eq_dec : EqDecision ResourceKind.
Proof. solve_decision. Defined.
(** [ResourceKind::try_from] *)
Definition kind_of (x : Z) : option ResourceKind :=
  match x with 0 => Some MMIO | 1 => Some IRQ | 2 => Some IOPORT | 3 => Some ROOT | 4 => Some SMC | 5 => Some SYSTEM | 6 => Some COUNT | _ => None end.

Inductive SystemResource := Hypervisor | Vmex | Debuglog.
Definition subrange (s : SystemResource) : Z := match s with Hypervisor => 0 | Vmex => 1 | Debuglog => 12 end.

Definition EXCLUSIVE : Z := bit 16.
Record Resource := mkResource { kind : ResourceKind; addr : Z; len : Z; flags : Z }.

Definition validate (k : ResourceKind) (r : Resource) : ZxResult unit :=
  if bool_decide (kind r = k) || bool_decide (kind r = ROOT) then Ok tt else Err ZxError.WRONG_TYPE.
Definition validate_ranged_resource (k : ResourceKind) (a l : Z) (r : Resource) : ZxResult unit :=
  let? _ := validate k r in
  if (addr r <=? a) && (l <=? len r) && (a -u addr r <=? len r -u l) then Ok tt else Err ZxError.OUT_OF_RANGE.
Definition validate_system (s : SystemResource) (r : Resource) : ZxResult unit := validate_ranged_resource SYSTEM (subrange s) 1 r.
Definition check_exclusive (fl : Z) (r : Resource) : ZxResult unit :=
  if negb (bool_decide (kind r = ROOT)) && (contains (flags r) EXCLUSIVE || contains fl EXCLUSIVE) then Err ZxError.INVALID_ARGS else Ok tt.

(** The resources by their object ids, each with the one that it was created from. *)
Abbreviation store := (list (Resource * option nat)).
Definition resource_of (o : KernelObject) (s : store) : ZxResult (nat * Resource) :=
  match s !! Z.to_nat (obj_id o) with Some (r, _) => Ok (Z.to_nat (obj_id o), r) | None => Panic end.

(** The decoding of [options]: the kind in the lower half, the flags in the upper one. *)
Definition decode (options : Z) : ZxResult (ResourceKind * Z) :=
  let? k := ok_or (kind_of (Z.land options 0xFFFF)) ZxError.INVALID_ARGS in
  let? f := ok_or (from_bits EXCLUSIVE (Z.land options 0xFFFF0000)) ZxError.INVALID_ARGS in
  Ok (k, f).
(** What the call creates, if it is allowed. *)
Definition check_create (parent_rsrc options b size : Z) (name : ZxResult string) (t : HandleTable) (s : store) : ZxResult (nat * Resource) :=
  let? _ := name in
  let? o := get_object_with_rights "Resource" parent_rsrc Rights.WRITE t in
  let? (n, parent) := resource_of o s in
  let? (k, f) := decode options in
  let? _ := validate_ranged_resource k b size parent in
  let? _ := check_exclusive f parent in
  Ok (n, mkResource k b size f).
(** [name] is what reading it from user memory gives, [out] what writing the handle gives. *)
Definition sys_resource_create (parent_rsrc options b size : Z) (name : ZxResult string) (out : option UserError.t) (t : HandleTable) (s : store) :
    ZxResult unit * HandleTable * store :=
  match check_create parent_rsrc options b size name t s with
  | Ok (n, r) =>
      let '(_, t) := add_handle (mkHandle (mkKernelObject (zlen s) "Resource" 0) Rights.DEFAULT_RESOURCE) t in
      (write_out out, t, s ++ [(r, Some n)])
  | Err e => (Err e, t, s)
  | Panic => (Panic, t, s)
  end.

(** *** Ranges *)
Definition within (r outer : Resource) : Prop := addr outer ≤ addr r ∧ addr r + len r ≤ addr outer + len outer.
Definition fits_word (r : Resource) : Prop := fits 64 (addr r) ∧ fits 64 (len r).

Lemma validate_exact k r : validate k r = Ok tt ↔ kind r = k ∨ kind r = ROOT.
Proof. unfold validate. repeat case_bool_decide; simpl; naive_solver. Qed.

Lemma validate_ranged_exact k a l r : fits_word r → fits 64 a → fits 64 l →
  validate_ranged_resource k a l r = Ok tt ↔ (kind r = k ∨ kind r = ROOT) ∧ addr r ≤ a ∧ a + l ≤ addr r + len r.
Proof.
  unfold fits_word, fits. intros [Ha Hl] Ha' Hl'. unfold validate_ranged_resource. rewrite <-validate_exact. destruct (validate k r) as [[]|e|]; simpl; [|naive_solver..].
  destruct (Z.leb_spec (addr r) a); simpl; [|naive_solver lia]. destruct (Z.leb_spec l (len r)); simpl; [|naive_solver lia].
  rewrite !wsub_small by (unfold fits; lia). destruct (Z.leb_spec (a - addr r) (len r - l)); naive_solver lia.
Qed.

(** What an allowed creation is. *)
Lemma check_create_spec h options b size name t s n r : Forall (λ x, fits_word x.1) s → fits 64 b → fits 64 size →
  check_create h options b size name t s = Ok (n, r) →
  ∃ parent gp, s !! n = Some (parent, gp) ∧ fits_word r ∧ within r parent ∧ (kind parent = kind r ∨ kind parent = ROOT) ∧
    (kind parent = ROOT ∨ contains (flags parent) EXCLUSIVE = false ∧ contains (flags r) EXCLUSIVE = false) ∧
    ∃ o, get_object_with_rights "Resource" h Rights.WRITE t = Ok o ∧ Z.to_nat (obj_id o) = n.
Proof.
  intros Hs Hb Hsz. unfold check_create. destruct name; simpl; [|done..]. destruct (get_object_with_rights _ _ _ _) as [o|e|] eqn:Ho; simpl; [|done..].
  unfold resource_of. destruct (s !! Z.to_nat (obj_id o)) as [[parent gp]|] eqn:Hp; simpl; [|done].
  destruct (decode options) as [[k f]|e|]; simpl; [|done..]. destruct (validate_ranged_resource k b size parent) as [[]|e|] eqn:Hv; simpl; [|done..].
  destruct (check_exclusive f parent) as [[]|e|] eqn:Hx; simpl; [|done..]. intros [= <- <-].
  rewrite Forall_lookup in Hs. pose proof (Hs _ _ Hp) as Hfp. apply (validate_ranged_exact k b size parent Hfp Hb Hsz) in Hv as (Hk & H1 & H2).
  exists parent, gp. split; [done|]. split; [done|]. split; [done|]. split; [done|]. split; [|by exists o].
  unfold check_exclusive in Hx. case_bool_decide; simpl in Hx; [by left|]. destruct (contains (flags parent) EXCLUSIVE) eqn:E1; [done|]. destruct (contains f EXCLUSIVE) eqn:E2; [done|]. by right.
Qed.

(** A history of the call, by processes with any handle tables. *)
Inductive created (s0 : store) : store → Prop :=
| created_refl : created s0 s0
| created_step s h options b size name out t r t' s' : created s0 s → fits 64 b → fits 64 size →
    sys_resource_create h options b size name out t s = (r, t', s') → created s0 s'.

Record confined (s0 s : store) : Prop := {
  cf_word : Forall (λ x, fits_word x.1) s;
  cf_prefix : s0 `prefix_of` s;
  cf_origin i r p : s !! i = Some (r, p) → ∃ j r0 p0, s0 !! j = Some (r0, p0) ∧ within r r0 ∧ (kind r0 = kind r ∨ kind r0 = ROOT);
  cf_excl i r n : s !! i = Some (r, Some n) → (length s0 ≤ i)%nat → ∃ q pq, s !! n = Some (q, pq) ∧
    (contains (flags r) EXCLUSIVE = true ∨ contains (flags q) EXCLUSIVE = true → kind q = ROOT)
}.

Lemma created_confined s0 s : Forall (λ x, fits_word x.1) s0 → created s0 s → confined s0 s.
Proof.
  intros H0. induction 1 as [|s h options b size name out t r t' s' _ IH Hb Hsz E].
  - split; [done|done| |]; [intros i r p Hi; exists i, r, p; unfold within; naive_solver lia|]. intros i r n Hi%lookup_lt_Some. lia.
  - destruct IH as [Hw Hpre Ho Hx]. unfold sys_resource_create in E. destruct (check_create h options b size name t s) as [[n r1]|e|] eqn:Hc; [|by injection E as <- <- <-..].
    destruct (add_handle _ t) as [v t1]. injection E as <- <- <-. destruct (check_create_spec _ _ _ _ _ _ _ _ _ Hw Hb Hsz Hc) as (q & pq & Hq & Hf & Hin & Hk & Hex & _).
    split.
    + apply Forall_app. split; [done|]. by apply Forall_singleton.
    + by apply prefix_app_r.
    + intros i r p [Hi|[_ [_ [= <- <-]]%list_lookup_singleton_Some]]%lookup_app_Some; [by apply (Ho i r p)|].
      destruct (Ho n q pq Hq) as (j & r0 & p0 & Hj & Hin0 & Hk0). exists j, r0, p0. unfold within in *. split; [done|]. split; [lia|].
      destruct Hk as [Hk|Hk]; [by rewrite <-Hk|]. right. destruct Hk0 as [->|]; done.
    + intros i r m Hi Hlen. apply lookup_app_Some in Hi as [Hi|[_ Hi]].
      * destruct (Hx i r m Hi Hlen) as (q' & pq' & Hq' & H). exists q', pq'. by split; [apply lookup_app_l_Some|].
      * apply list_lookup_singleton_Some in Hi as [_ [= <- <-]]. exists q, pq. split; [by apply lookup_app_l_Some|]. destruct Hex as [|[E1 E2]]; [done|]. rewrite E1, E2. naive_solver.
Qed.
(** C31. Resources confine: whatever [sys_resource_create] calls are made, a range that one of the
    resources allows for a kind of use lies within that resource, and one of the resources there
    were at the start allows it for the same kind; and an exclusive resource has been created from
    a root resource, and has others created from it only if it is one itself. *)
Theorem resource_confinement s0 s i r p k a l : Forall (λ x, fits_word x.1) s0 → created s0 s → s !! i = Some (r, p) → fits 64 a → fits 64 l →
  (validate_ranged_resource k a l r = Ok tt → addr r ≤ a ∧ a + l ≤ addr r + len r ∧
     ∃ j r0 p0, s0 !! j = Some (r0, p0) ∧ validate_ranged_resource k a l r0 = Ok tt) ∧
  (∀ n, p = Some n → (length s0 ≤ i)%nat → ∃ q pq, s !! n = Some (q, pq) ∧
     (contains (flags r) EXCLUSIVE = true ∨ contains (flags q) EXCLUSIVE = true → kind q = ROOT)).
Proof.
  intros H0 Hc Hi Ha Hl. destruct (created_confined s0 s H0 Hc) as [Hw _ Ho Hx]. split; [|by intros n ->; apply Hx].
  pose proof (proj1 (Forall_lookup _ _) Hw _ _ Hi) as Hr. intros (Hk & H1 & H2)%(validate_ranged_exact k a l r Hr Ha Hl). split; [done|]. split; [done|].
  destruct (Ho i r p Hi) as (j & r0 & p0 & Hj & Hin & Hk0). exists j, r0, p0. split; [done|].
  apply (validate_ranged_exact k a l r0 (proj1 (Forall_lookup _ _) H0 _ _ Hj) Ha Hl). unfold within in Hin. split; [|lia]. destruct Hk0 as [Hk0|]; [|by right]. rewrite Hk0. done.
Qed.

Definition demo_table : HandleTable := (add_handle (mkHandle (mkKernelObject 0 "Resource" 0) Rights.DEFAULT_RESOURCE) empty_table).2.
Definition demo_root : store := [(mkResource ROOT 0 0x1000 0, None)].
Definition demo_child : Resource := mkResource MMIO 0x100 0x80 EXCLUSIVE.
Lemma resource_confinement_witness : validate_ranged_resource MMIO 0x140 0x40 demo_child = Ok tt ∧
  (0x100 ≤ 0x140 ∧ 0x140 + 0x40 ≤ 0x100 + 0x80 ∧ ∃ j r0 p0, demo_root !! j = Some (r0, p0) ∧ validate_ranged_resource MMIO 0x140 0x40 r0 = Ok tt).
Proof.
  split; [reflexivity|]. refine (proj1 (resource_confinement demo_root [(mkResource ROOT 0 0x1000 0, None); (demo_child, Some 0%nat)] 1 demo_child (Some 0%nat) MMIO 0x140 0x40 _ _ _ _ _) _);
    [repeat constructor; simpl; lia| |reflexivity|split; simpl; lia|split; simpl; lia|reflexivity].
  eapply (created_step _ demo_root (handle_key 0) (Z.lor EXCLUSIVE 0) 0x100 0x80 (Ok "uart") None demo_table); [apply created_refl|split; simpl; lia|split; simpl; lia|vm_compute; reflexivity].
Defined.
End Resource.

(** ** Interrupts *)
Module InterruptFlags.
Definition VIRTUAL := bit 0.
Definition UNMASK_PREWAIT := bit 1.
Definition UNMASK_PREWAIT_UNLOCKED := bit 2.
Definition MASK_POSTWAIT := bit 4.
End InterruptFlags.

Module InterruptOptions.
Definition REMAP_IRQ : Z := 0x1.
Definition MODE_DEFAULT : Z := Z.shiftl 0 1.
Definition MODE_EDGE_HIGH : Z := Z.shiftl 2 1.
Definition VIRTUAL : Z := 0x10.
(** All declared bits. *)
Definition all : Z := 0x1f.
Definition to_mode (o : Z) : Z := Z.land (from_bits_truncate all 0xe) o.
End InterruptOptions.

Module Interrupt.
Inductive InterruptState := Waiting | Destroy | Triggered | NeedAck | Idle.
#[global] Instance InterruptState_eq_dec : EqDecision InterruptState.
Proof. solve_decision. Defined.

(** The implementations of [InterruptTrait], with their [register] flag. *)
Inductive line := VirtualInterrupt | EventInterrupt (register : bool) | PciInterrupt (maskable register : bool).
(** Whether calls of [mask] and [unmask] reach the interrupt controller. *)
Definition reaches (t : line) : bool := match t with VirtualInterrupt => false | EventInterrupt r => r | PciInterrupt m r => m && r end.
Definition registered (t : line) : bool := match t with VirtualInterrupt => false | EventInterrupt r | PciInterrupt _ r => r end.
(** [hal_ok]: whether the platform accepts the call. *)
Definition register_handler (hal_ok : bool) (t : line) : ZxResult unit * line :=
  match t with
  | VirtualInterrupt => (Ok tt, t)
  | EventInterrupt r => if r then (Err ZxError.ALREADY_BOUND, t) else if hal_ok then (Ok tt, EventInterrupt true) else (Err ZxError.ALREADY_BOUND, t)
  | PciInterrupt m r => if r then (Err ZxError.ALREADY_BOUND, t) else (Ok tt, PciInterrupt m true)
  end.
Definition unregister_handler (hal_ok : bool) (t : line) : ZxResult unit * line :=
  match t with
  | VirtualInterrupt => (Ok tt, t)
  | EventInterrupt r => if negb r then (Ok tt, t) else if hal_ok then (Ok tt, EventInterrupt false) else (Err ZxError.NOT_FOUND, t)
  | PciInterrupt m r => if negb r then (Ok tt, t) else (Ok tt, PciInterrupt m false)
  end.

(** An interrupt object; [masked] is what the controller has last been told about its line.
    [has_vcpu] is false for every object that can be created. *)
Record Interrupt := mkInterrupt {
  ibase : KObjectBase unit;
  iflags : Z;
  trait_ : line;
  masked : bool;
  state : InterruptState;
  iport : option nat;
  bound_key : Z;
  timestamp : Z;
  defer_unmask : bool;
  packet_id : Z
}.
Definition set_state (s : InterruptState) (i : Interrupt) : Interrupt :=
  mkInterrupt (ibase i) (iflags i) (trait_ i) (masked i) s (iport i) (bound_key i) (timestamp i) (defer_unmask i) (packet_id i).
Definition set_timestamp (ts : Z) (i : Interrupt) : Interrupt :=
  mkInterrupt (ibase i) (iflags i) (trait_ i) (masked i) (state i) (iport i) (bound_key i) ts (defer_unmask i) (packet_id i).
Definition set_packet_id (id : Z) (i : Interrupt) : Interrupt :=
  mkInterrupt (ibase i) (iflags i) (trait_ i) (masked i) (state i) (iport i) (bound_key i) (timestamp i) (defer_unmask i) id.
Definition set_port (p : option nat) (k : Z) (i : Interrupt) : Interrupt :=
  mkInterrupt (ibase i) (iflags i) (trait_ i) (masked i) (state i) p k (timestamp i) (defer_unmask i) (packet_id i).
Definition set_masked (m : bool) (i : Interrupt) : Interrupt :=
  mkInterrupt (ibase i) (iflags i) (trait_ i) (if reaches (trait_ i) then m else masked i) (state i) (iport i) (bound_key i) (timestamp i) (defer_unmask i) (packet_id i).
Definition set_trait (t : line) (i : Interrupt) : Interrupt :=
  mkInterrupt (ibase i) (iflags i) t (masked i) (state i) (iport i) (bound_key i) (timestamp i) (defer_unmask i) (packet_id i).
Definition set_defer (d : bool) (i : Interrupt) : Interrupt :=
  mkInterrupt (ibase i) (iflags i) (trait_ i) (masked i) (state i) (iport i) (bound_key i) (timestamp i) d (packet_id i).
Definition set_base (b : KObjectBase unit) (i : Interrupt) : Interrupt :=
  mkInterrupt b (iflags i) (trait_ i) (masked i) (state i) (iport i) (bound_key i) (timestamp i) (defer_unmask i) (packet_id i).
Definition raise_signal (i : Interrupt) : Interrupt := set_base (signal_set Signal.INTERRUPT_SIGNAL (ibase i) tt).1 i.
Definition lower_signal (i : Interrupt) : Interrupt := set_base (signal_clear Signal.INTERRUPT_SIGNAL (ibase i) tt).1 i.
Definition signaled (i : Interrupt) : bool := contains (signal (ibase i)) Signal.INTERRUPT_SIGNAL.
Definition mask : Interrupt → Interrupt := set_masked true.
Definition unmask : Interrupt → Interrupt := set_masked false.
Definition has (f : Z) (i : Interrupt) : bool := contains (iflags i) f.

Definition fresh (id fl : Z) (t : line) : Interrupt := mkInterrupt (KObjectBase_new id) fl t false Idle None 0 0 false 0.
Definition new_virtual (id : Z) : Interrupt := fresh id InterruptFlags.VIRTUAL VirtualInterrupt.
(** The end that [new_physical] and [new_pci] share. *)
Definition attach (hal_ok : bool) (i : Interrupt) : ZxResult Interrupt :=
  let '(r, t) := register_handler hal_ok (trait_ i) in let? _ := r in Ok (unmask (set_trait t i)).
Definition new_physical (id options : Z) (hal_ok : bool) : ZxResult Interrupt :=
  let mode := InterruptOptions.to_mode options in
  if negb (mode =? InterruptOptions.MODE_DEFAULT) && negb (mode =? InterruptOptions.MODE_EDGE_HIGH) then Panic
  else attach hal_ok (fresh id 0 (EventInterrupt false)).
Definition new_pci (id : Z) (maskable hal_ok : bool) : ZxResult Interrupt :=
  attach hal_ok (fresh id InterruptFlags.UNMASK_PREWAIT_UNLOCKED (PciInterrupt maskable false)).

(** The ports of the system, by their ids. *)
Abbreviation ports := (list (Port unit)).
Definition push_to (n : nat) (ts k : Z) (ps : ports) : Z * ports :=
  match ps !! n with Some p => let '(id, p) := push_interrupt ts k p in (id, <[n := p]> ps) | None => (0, ps) end.
Definition remove_from (n : nat) (id : Z) (ps : ports) : bool * ports :=
  match ps !! n with Some p => let '(b, p) := remove_interrupt id p in (b, <[n := p]> ps) | None => (false, ps) end.

Definition bind (n : nat) (k : Z) (i : Interrupt) (ps : ports) : ZxResult unit * Interrupt * ports :=
  match state i with
  | Destroy => (Err ZxError.CANCELED, i, ps)
  | Waiting => (Err ZxError.BAD_STATE, i, ps)
  | _ =>
      if bool_decide (is_Some (iport i)) then (Err ZxError.ALREADY_BOUND, i, ps)
      else if has (Z.lor InterruptFlags.UNMASK_PREWAIT_UNLOCKED InterruptFlags.MASK_POSTWAIT) i then (Err ZxError.INVALID_ARGS, i, ps)
      else
        let i := set_port (Some n) k i in
        if bool_decide (state i = Triggered) then
          let '(id, ps) := push_to n (timestamp i) (bound_key i) ps in (Ok tt, set_state NeedAck (set_packet_id id i), ps)
        else (Ok tt, i, ps)
  end.

Definition unbind (n : nat) (i : Interrupt) (ps : ports) : ZxResult unit * Interrupt * ports :=
  if negb (bool_decide (iport i = Some n)) then (Err ZxError.NOT_FOUND, i, ps)
  else if bool_decide (state i = Destroy) then (Err ZxError.CANCELED, i, ps)
  else let '(_, ps) := remove_from n (packet_id i) ps in (Ok tt, set_port None 0 i, ps).

Definition trigger (ts : Z) (i : Interrupt) (ps : ports) : ZxResult unit * Interrupt * ports :=
  if negb (has InterruptFlags.VIRTUAL i) then (Err ZxError.BAD_STATE, i, ps)
  else
    let i := if timestamp i =? 0 then set_timestamp ts i else i in
    if bool_decide (state i = Destroy) then (Err ZxError.CANCELED, i, ps)
    else if bool_decide (state i = NeedAck) && bool_decide (is_Some (iport i)) then (Ok tt, i, ps)
    else match iport i with
    | Some n =>
        let '(id, ps) := push_to n ts (bound_key i) ps in
        let i := set_packet_id id i in
        let i := if has InterruptFlags.MASK_POSTWAIT i then mask i else i in
        (Ok tt, set_state NeedAck (set_timestamp 0 i), ps)
    | None => (Ok tt, raise_signal (set_state Triggered i), ps)
    end.

Definition ack (i : Interrupt) (ps : ports) : ZxResult unit * Interrupt * ports :=
  match iport i with
  | None => (Err ZxError.BAD_STATE, i, ps)
  | Some n =>
      if bool_decide (state i = Destroy) then (Err ZxError.CANCELED, i, ps)
      else
        let '(i, ps) :=
          if bool_decide (state i = NeedAck) then
            let i := if has InterruptFlags.UNMASK_PREWAIT i then unmask i
                     else if has InterruptFlags.UNMASK_PREWAIT_UNLOCKED i then set_defer true i else i in
            if 0 <? timestamp i then
              let '(id, ps) := push_to n (timestamp i) (bound_key i) ps in
              let i := set_packet_id id i in
              let i := if has InterruptFlags.MASK_POSTWAIT i then mask i else i in
              (set_timestamp 0 i, ps)
            else (set_state Idle i, ps)
          else (i, ps) in
        (Ok tt, if defer_unmask i then unmask i else i, ps)
  end.

Definition destroy (hal_ok : bool) (i : Interrupt) (ps : ports) : ZxResult unit * Interrupt * ports :=
  let i := mask i in
  match unregister_handler hal_ok (trait_ i) with
  | (Ok _, t) =>
      let i := set_trait t i in
      match iport i with
      | Some n =>
          let '(in_queue, ps) := remove_from n (packet_id i) ps in
          match state i with
          | NeedAck => (if negb in_queue then Err ZxError.NOT_FOUND else Ok tt, set_state Destroy i, ps)
          | Idle => (Ok tt, set_state Destroy i, ps)
          | _ => (Ok tt, i, ps)
          end
      | None => (Ok tt, raise_signal (set_state Destroy i), ps)
      end
  | (Err e, t) => (Err e, set_trait t i, ps)
  | (Panic, t) => (Panic, set_trait t i, ps)
  end.
(** [Drop for Interrupt], when the last reference goes: [destroy().unwrap()]. *)
Definition drop_interrupt (hal_ok : bool) (i : Interrupt) (ps : ports) : ZxResult unit * Interrupt * ports :=
  let '(r, i, ps) := destroy hal_ok i ps in (match r with Ok _ => Ok tt | _ => Panic end, i, ps).

(** One round of the loop of [wait]: its result, or [None] if the caller now waits for
    [INTERRUPT_SIGNAL].  [defer] is the local variable of the call. *)
Definition wait_round (defer : bool) (i : Interrupt) : option (ZxResult Z) * bool * Interrupt :=
  if bool_decide (is_Some (iport i)) then (Some (Err ZxError.BAD_STATE), defer, i)
  else
    let sleep (defer : bool) (i : Interrupt) :=
      let i := set_state Waiting i in (None, defer, if defer then unmask i else i) in
    match state i with
    | Destroy => (Some (Err ZxError.CANCELED), defer, i)
    | Triggered => (Some (Ok (timestamp i)), defer, lower_signal (set_timestamp 0 (set_state NeedAck i)))
    | NeedAck => if has InterruptFlags.UNMASK_PREWAIT i then sleep defer (unmask i)
                 else sleep (defer || has InterruptFlags.UNMASK_PREWAIT_UNLOCKED i) i
    | Idle => sleep defer i
    | Waiting => (Some (Err ZxError.BAD_STATE), defer, i)
    end.

(** The handler of the hardware interrupt; [now] is [timer_now]. *)
Definition handle_interrupt (now : Z) (i : Interrupt) (ps : ports) : Interrupt * ports :=
  let i := if has InterruptFlags.MASK_POSTWAIT i then mask i else i in
  let i := if timestamp i =? 0 then set_timestamp now i else i in
  match iport i with
  | Some n =>
      if negb (bool_decide (state i = NeedAck)) then
        let '(id, ps) := push_to n (timestamp i) (bound_key i) ps in
        let i := set_packet_id id i in
        let i := if has InterruptFlags.MASK_POSTWAIT i then mask i else i in
        (set_state NeedAck (set_timestamp 0 i), ps)
      else (i, ps)
  | None => (set_state Triggered (raise_signal i), ps)
  end.

(** *** System calls
    on the interrupts and ports of the system, which the object ids number. *)
Definition update (n : nat) (f : Interrupt → ports → ZxResult unit * Interrupt * ports) (ints : list Interrupt) (ps : ports) : ZxResult unit * list Interrupt * ports :=
  match ints !! n with
  | Some i => let '(r, i, ps) := f i ps in (r, <[n := i]> ints, ps)
  | None => (Panic, ints, ps)
  end.
Definition call (h : HandleValue) (rights : Z) (t : HandleTable) (f : nat → ZxResult (Interrupt → ports → ZxResult unit * Interrupt * ports)) (ints : list Interrupt) (ps : ports) :
    ZxResult unit * list Interrupt * ports :=
  match (let? o := get_object_with_rights "Interrupt" h rights t in let? g := f (Z.to_nat (obj_id o)) in Ok (Z.to_nat (obj_id o), g)) with
  | Ok (n, g) => update n g ints ps
  | Err e => (Err e, ints, ps)
  | Panic => (Panic, ints, ps)
  end.

(** [resource_of]: the resource behind a handle, [hal_ok] and [out] as above. *)
Definition sys_interrupt_create (resource src_num options : Z) (hal_ok : bool) (out : option UserError.t) (t : HandleTable) (s : Resource.store) (ints : list Interrupt) :
    ZxResult unit * HandleTable * list Interrupt :=
  let options := from_bits_truncate InterruptOptions.all options in
  match (if contains options InterruptOptions.VIRTUAL then
           if negb (options =? InterruptOptions.VIRTUAL) then Err ZxError.INVALID_ARGS else Ok (new_virtual (zlen ints))
         else
           let? o := get_object "Resource" resource t in
           let? (_, r) := Resource.resource_of o s in
           let? _ := Resource.validate_ranged_resource Resource.IRQ src_num 1 r in
           new_physical (zlen ints) options hal_ok) with
  | Ok i =>
      let '(_, t) := add_handle (mkHandle (mkKernelObject (zlen ints) "Interrupt" 0) Rights.DEFAULT_INTERRUPT) t in
      (write_out out, t, ints ++ [i])
  | Err e => (Err e, t, ints)
  | Panic => (Panic, t, ints)
  end.
Definition sys_interrupt_bind (interrupt port k options : Z) (t : HandleTable) (ints : list Interrupt) (ps : ports) : ZxResult unit * list Interrupt * ports :=
  call interrupt Rights.READ t (λ _,
    let? o := get_object_with_rights "Port" port Rights.WRITE t in
    let n := Z.to_nat (obj_id o) in
    match ps !! n with
    | None => Panic
    | Some p =>
        if negb (can_bind_to_interrupt p) then Err ZxError.WRONG_TYPE
        else if options =? 0 then Ok (bind n k)
        else if options =? 1 then Ok (unbind n)
        else Err ZxError.INVALID_ARGS
    end) ints ps.
Definition sys_interrupt_trigger (interrupt ts : Z) (t : HandleTable) : list Interrupt → ports → ZxResult unit * list Interrupt * ports :=
  call interrupt Rights.SIGNAL t (λ _, Ok (trigger ts)).
Definition sys_interrupt_ack (interrupt : Z) (t : HandleTable) : list Interrupt → ports → ZxResult unit * list Interrupt * ports :=
  call interrupt Rights.WRITE t (λ _, Ok ack).
Definition sys_interrupt_destroy (interrupt : Z) (hal_ok : bool) (t : HandleTable) : list Interrupt → ports → ZxResult unit * list Interrupt * ports :=
  call interrupt 0 t (λ _, Ok (destroy hal_ok)).

(** *** Histories of one interrupt
    [Fire] is a hardware interrupt, which comes in only while the handler is registered; [Wait]
    is a round of [wait] by a thread that begins it or has been woken; [Env] is whatever others do
    with the port. *)
Inductive op := Trigger (ts : Z) | Fire (now : Z) | Ack | Wait (defer : bool) | DestroyOp | Env (n : nat) (p : Port unit).
(** What a step gives: the result of a call, of a round of [wait], or nothing. *)
Inductive ret := RUnit (r : ZxResult unit) | RWait (r : option (ZxResult Z)) | RNone.
Definition exec (o : op) (i : Interrupt) (ps : ports) : ret * Interrupt * ports :=
  match o with
  | Trigger ts => let '(r, i, ps) := trigger ts i ps in (RUnit r, i, ps)
  | Fire now => if registered (trait_ i) then let '(i, ps) := handle_interrupt now i ps in (RNone, i, ps) else (RNone, i, ps)
  | Ack => let '(r, i, ps) := ack i ps in (RUnit r, i, ps)
  | Wait d => let '(r, _, i) := wait_round d i in (RWait r, i, ps)
  | DestroyOp => let '(r, i, ps) := destroy true i ps in (RUnit r, i, ps)
  | Env n p => (RNone, i, <[n := p]> ps)
  end.
#[global] Instance PortInterruptPacket_eq_dec : EqDecision PortInterruptPacket.
Proof. solve_decision. Defined.
(** The packets that a step adds to those of a port, if it leaves them in place. *)
Definition added (n : nat) (ps ps' : ports) : option (list (Z * Z)) :=
  match ps !! n, ps' !! n with
  | Some p, Some p' =>
      let q := interrupt_queue (inner p) in let q' := interrupt_queue (inner p') in
      if bool_decide (take (length q) q' = q) then Some ((λ x, (itimestamp x, ikey x)) <$> drop (length q) q') else None
  | _, _ => None
  end.
Definition entry : Type := ret * bool * option (list (Z * Z)).
(** What can be seen of a history at the port [n]: results, the signal, packets. *)
Fixpoint run (n : nat) (os : list op) (i : Interrupt) (ps : ports) : list entry * (Interrupt * ports) :=
  match os with
  | [] => ([], (i, ps))
  | o :: os =>
      let '(r, i', ps') := exec o i ps in
      let a := match o with Env _ _ => Some [] | _ => added n ps ps' end in
      let '(l, w) := run n os i' ps' in ((r, signaled i', a) :: l, w)
  end.
Definition op_ok (o : op) : Prop := match o with Trigger ts | Fire ts => 0 < ts | _ => True end.

(** *** What an interrupt that is bound to a port delivers
    An event is delivered at once if the last one has been acknowledged; otherwise the first one
    that comes in is kept until then, and the others are merged into it. *)
Inductive pstate := PQuiet | PBusy (pending : option Z) | PGone.
Definition is_ok (r : ret) : Prop := r = RUnit (Ok tt).
Definition fails (e : ZxError.t) (r : ret) : Prop := r = RUnit (Err e).
Definition no_ret (r : ret) : Prop := r = RNone.
Definition accept (ts : Z) (s : pstate) : list Z * pstate :=
  match s with
  | PQuiet => ([ts], PBusy None)
  | PBusy None => ([], PBusy (Some ts))
  | PBusy (Some t) => ([], PBusy (Some t))
  | PGone => ([], PGone)
  end.
Definition port_spec (virtual hardware : bool) (o : op) (s : pstate) : (ret → Prop) * list Z * pstate :=
  match o, s with
  | Trigger ts, _ => if negb virtual then (fails ZxError.BAD_STATE, [], s)
                     else let '(out, s') := accept ts s in (match s with PGone => fails ZxError.CANCELED | _ => is_ok end, out, s')
  | Fire now, _ => if hardware then let '(out, s') := accept now s in (no_ret, out, s') else (no_ret, [], s)
  | Ack, PBusy (Some t) => (is_ok, [t], PBusy None)
  | Ack, PGone => (fails ZxError.CANCELED, [], PGone)
  | Ack, _ => (is_ok, [], PQuiet)
  | Wait _, _ => (λ r, r = RWait (Some (Err ZxError.BAD_STATE)), [], s)
  | DestroyOp, PBusy _ => (λ r, is_ok r ∨ fails ZxError.NOT_FOUND r, [], PGone)
  | DestroyOp, _ => (is_ok, [], PGone)
  | Env _ _, _ => (no_ret, [], s)
  end.
Fixpoint port_meets (virtual hardware : bool) (k : Z) (s : pstate) (os : list op) (log : list entry) : Prop :=
  match os, log with
  | [], [] => True
  | o :: os, (r, _, a) :: log =>
      let '(P, out, s) := port_spec virtual hardware o s in
      P r ∧ a = Some ((λ t, (t, k)) <$> out) ∧ port_meets virtual hardware k s os log
  | _, _ => False
  end.

(** *** What an interrupt without a port gives to those who wait for it *)
Inductive wstate := WQuiet | WAsleep | WRaised (ts : Z) | WGone.
#[global] Instance wstate_eq_dec : EqDecision wstate.
Proof. solve_decision. Defined.
Definition raised (ts : Z) (s : wstate) : wstate := match s with WQuiet | WAsleep => WRaised ts | _ => s end.
Definition wait_spec (virtual hardware : bool) (o : op) (s : wstate) : ret * wstate :=
  match o with
  | Trigger ts => if negb virtual then (RUnit (Err ZxError.BAD_STATE), s)
                  else (RUnit (match s with WGone => Err ZxError.CANCELED | _ => Ok tt end), raised ts s)
  | Fire now => (RNone, if hardware then raised now s else s)
  | Ack => (RUnit (Err ZxError.BAD_STATE), s)
  | Wait _ => match s with
              | WQuiet => (RWait None, WAsleep)
              | WAsleep => (RWait (Some (Err ZxError.BAD_STATE)), WAsleep)
              | WRaised t => (RWait (Some (Ok t)), WQuiet)
              | WGone => (RWait (Some (Err ZxError.CANCELED)), WGone)
              end
  | DestroyOp => (RUnit (Ok tt), WGone)
  | Env _ _ => (RNone, s)
  end.
Definition wakes (s : wstate) : bool := match s with WRaised _ | WGone => true | _ => false end.
Fixpoint wait_log (virtual hardware : bool) (os : list op) (s : wstate) : list (ret * bool) :=
  match os with
  | [] => []
  | o :: os => let '(r, s) := wait_spec virtual hardware o s in (r, wakes s) :: wait_log virtual hardware os s
  end.

(** *** Proofs *)
Lemma signaled_raise i : signaled (raise_signal i) = true.
Proof. unfold signaled, raise_signal, Signal.INTERRUPT_SIGNAL. simpl. rewrite signal_set_signal. by sigbits. Qed.
Lemma signaled_lower i : signaled (lower_signal i) = false.
Proof. unfold signaled, lower_signal, Signal.INTERRUPT_SIGNAL. simpl. rewrite signal_clear_signal. by sigbits. Qed.

Lemma added_same n ps : (n < length ps)%nat → added n ps ps = Some [].
Proof.
  intros [p Hp]%lookup_lt_is_Some. unfold added. rewrite Hp. rewrite bool_decide_true by apply firstn_all. by rewrite drop_all.
Qed.

Lemma push_to_spec n ts k ps : (n < length ps)%nat →
  ∃ id ps', push_to n ts k ps = (id, ps') ∧ added n ps ps' = Some [(ts, k)] ∧ length ps' = length ps.
Proof.
  intros [p Hp]%lookup_lt_is_Some. unfold push_to. rewrite Hp. destruct (push_interrupt ts k p) as [id p'] eqn:E. exists id, (<[n := p']> ps).
  split; [done|]. split; [|apply length_insert]. unfold added. rewrite Hp, list_lookup_insert_eq by (by eapply lookup_lt_Some).
  unfold push_interrupt in E. injection E as E1 E2. rewrite <-E2. destruct (set_readable_spec (with_inner (mkPortInner (queue (inner p)) (observers (inner p)) (next_observer (inner p))
    (interrupt_queue (inner p) ++ [mkPortInterruptPacket ts k (wadd 64 (interrupt_pid (inner p)) 1)]) ({[wadd 64 (interrupt_pid (inner p)) 1]} ∪ interrupt_grave (inner p)) (wadd 64 (interrupt_pid (inner p)) 1)) p)) as [Hi _].
  rewrite Hi. simpl. rewrite bool_decide_true by (by rewrite take_app_length). by rewrite drop_app_length.
Qed.

Lemma remove_from_spec n id ps : (n < length ps)%nat →
  ∃ b ps', remove_from n id ps = (b, ps') ∧ added n ps ps' = Some [] ∧ length ps' = length ps.
Proof.
  intros [p Hp]%lookup_lt_is_Some. unfold remove_from. rewrite Hp. simpl. eexists _, _. split; [done|]. split; [|apply length_insert].
  unfold added. rewrite Hp, list_lookup_insert_eq by (by eapply lookup_lt_Some). simpl. rewrite bool_decide_true by apply firstn_all. by rewrite drop_all.
Qed.

(** An interrupt that is bound to the port [n] with the key [k]. *)
Record port_rel (virtual hardware : bool) (n : nat) (k : Z) (s : pstate) (i : Interrupt) : Prop := {
  pr_port : iport i = Some n;
  pr_key : bound_key i = k;
  pr_virtual : contains (iflags i) InterruptFlags.VIRTUAL = virtual;
  pr_line : registered (trait_ i) = match s with PGone => false | _ => hardware end;
  pr_state : match s with
             | PQuiet => state i = Idle ∧ timestamp i = 0
             | PBusy None => state i = NeedAck ∧ timestamp i = 0
             | PBusy (Some t) => state i = NeedAck ∧ timestamp i = t ∧ 0 < t
             | PGone => state i = Destroy
             end
}.

Ltac no_flag := repeat match goal with |- context [if contains ?a ?b then _ else _] => destruct (contains a b) end.

Section port_steps.
Context (virtual hardware : bool) (n : nat) (k : Z).
Notation rel := (port_rel virtual hardware n k).
Notation packets := (fmap (λ t : Z, (t, k))).

(** One step, of those that reach the port. *)
Definition step_ok (o : op) (s : pstate) (ps : ports) (x : ret * Interrupt * ports) : Prop :=
  let '(r, i', ps') := x in
  let '(P, out, s') := port_spec virtual hardware o s in
  P r ∧ added n ps ps' = Some (packets out) ∧ rel s' i' ∧ length ps' = length ps.

Ltac push_spec := match goal with |- context [push_to ?n ?ts ?k ?ps] =>
  let id := fresh "id" in let ps' := fresh "ps'" in let H := fresh "H" in destruct (push_to_spec n ts k ps ltac:(done)) as (id & ps' & H & ? & ?); rewrite H end.
Ltac relation := split_and!; [done|done|by split|done].

Lemma trigger_step s i ps ts : rel s i → (n < length ps)%nat → 0 < ts → step_ok (Trigger ts) s ps (exec (Trigger ts) i ps).
Proof.
  intros [Hp Hk Hv Hl Hs] Hn Hts. pose proof (added_same n ps Hn) as Ha. destruct i as [b f t m st p key ts0 d pid]. simpl in *. subst p key. unfold step_ok. simpl. unfold trigger, has. simpl. rewrite Hv. destruct virtual; simpl; [|relation].
  destruct s as [|[t0|]|]; [destruct Hs as [-> ->]|destruct Hs as (-> & -> & Ht)|destruct Hs as [-> ->]|subst st]; simpl.
  - push_spec. simpl. no_flag; relation.
  - rewrite (proj2 (Z.eqb_neq _ _)) by lia. simpl. relation.
  - relation.
  - destruct (ts0 =? 0); simpl; relation.
Qed.

Lemma fire_step s i ps now : rel s i → (n < length ps)%nat → 0 < now → step_ok (Fire now) s ps (exec (Fire now) i ps).
Proof.
  intros [Hp Hk Hv Hl Hs] Hn Hts. pose proof (added_same n ps Hn) as Ha. destruct i as [b f t m st p key ts0 d pid]. simpl in *. subst p key. unfold step_ok. simpl.
  destruct s as [|[t0|]|]; [destruct Hs as [-> ->]|destruct Hs as (-> & -> & Ht)|destruct Hs as [-> ->]|subst st]; simpl; rewrite Hl; destruct hardware; simpl; try relation;
    unfold handle_interrupt, has; simpl; no_flag; simpl; try push_spec; rewrite ?(proj2 (Z.eqb_neq t0 0)) by lia; simpl; relation.
Qed.

Lemma ack_step s i ps : rel s i → (n < length ps)%nat → step_ok Ack s ps (exec Ack i ps).
Proof.
  intros [Hp Hk Hv Hl Hs] Hn. pose proof (added_same n ps Hn) as Ha. destruct i as [b f t m st p key ts0 d pid]. simpl in *. subst p key. unfold step_ok. simpl. unfold ack, has. simpl.
  destruct s as [|[t0|]|]; [destruct Hs as [-> ->]|destruct Hs as (-> & -> & Ht)|destruct Hs as [-> ->]|subst st]; simpl; no_flag; simpl; rewrite ?(proj2 (Z.ltb_lt 0 _) Ht); try push_spec; simpl; no_flag; simpl; try (destruct d; simpl); relation.
Qed.

Lemma destroy_step s i ps : rel s i → (n < length ps)%nat → step_ok DestroyOp s ps (exec DestroyOp i ps).
Proof.
  intros [Hp Hk Hv Hl Hs] Hn. destruct i as [b f t m st p key ts0 d pid]. simpl in *. subst p key. unfold step_ok. simpl. unfold destroy. simpl.
  destruct (remove_from_spec n pid ps Hn) as (q & ps' & H & Ha & Hlen).
  assert (∃ t', unregister_handler true t = (Ok tt, t') ∧ registered t' = false) as (t' & -> & Ht') by (destruct t as [|[]|? []]; simpl; eauto). simpl. rewrite H.
  destruct s as [|[t0|]|]; [destruct Hs as [-> ->]|destruct Hs as (-> & -> & Ht)|destruct Hs as [-> ->]|subst st]; simpl; split_and!; try done; try by split.
  all: destruct q; [by left|by right].
Qed.

Lemma port_step s i ps o r i' ps' : rel s i → (n < length ps)%nat → op_ok o → exec o i ps = (r, i', ps') →
  let '(P, out, s') := port_spec virtual hardware o s in
  P r ∧ (match o with Env _ _ => Some [] | _ => added n ps ps' end) = Some (packets out) ∧ rel s' i' ∧ length ps' = length ps.
Proof.
  intros Hr Hn Ho E. destruct o as [ts|now| |d| |m p].
  - pose proof (trigger_step s i ps ts Hr Hn Ho) as H. by rewrite E in H.
  - pose proof (fire_step s i ps now Hr Hn Ho) as H. by rewrite E in H.
  - pose proof (ack_step s i ps Hr Hn) as H. by rewrite E in H.
  - simpl in *. unfold wait_round in E. rewrite (pr_port _ _ _ _ _ _ Hr) in E. simpl in E. injection E as <- <- <-. split_and!; try done. by apply added_same.
  - pose proof (destroy_step s i ps Hr Hn) as H. by rewrite E in H.
  - simpl in *. injection E as <- <- <-. split_and!; try done. apply length_insert.
Qed.
End port_steps.

(** C32. Interrupts through a port: an interrupt that is bound to a port while it is quiet
    delivers exactly the packets that the specification asks for, with the key of the binding.
    The times of the events are positive, since the code keeps 0 for no event, and the operations come one after the other: a hardware interrupt
    that is being handled while [destroy] runs is not covered.  Over every history of triggers, hardware interrupts, acknowledgements, rounds of [wait] and
    [destroy], whatever others do with the port in between, an event is sent at once if the last
    one has been acknowledged, and otherwise the first one since is sent by the next
    acknowledgement; after [destroy] nothing is sent. *)
Theorem interrupt_port_exact n k os i ps log w : state i = Idle → timestamp i = 0 → iport i = Some n → bound_key i = k → (n < length ps)%nat → Forall op_ok os →
  run n os i ps = (log, w) → port_meets (has InterruptFlags.VIRTUAL i) (registered (trait_ i)) k PQuiet os log.
Proof.
  intros Hst Hts Hp Hk Hn Hos. assert (port_rel (has InterruptFlags.VIRTUAL i) (registered (trait_ i)) n k PQuiet i) as Hr by (by split).
  generalize dependent PQuiet. generalize (has InterruptFlags.VIRTUAL i), (registered (trait_ i)). clear Hst Hts Hp Hk. intros v h s Hr. revert s i ps log Hr Hn.
  induction Hos as [|o os Ho _ IH]; intros s i ps log Hr Hn E; simpl in E; [by injection E as <- <-|].
  destruct (exec o i ps) as [[r i'] ps'] eqn:Ee. destruct (run n os i' ps') as [l w'] eqn:El. injection E as <- <-. simpl.
  pose proof (port_step v h n k s i ps o r i' ps' Hr Hn Ho Ee) as Hs. destruct (port_spec v h o s) as [[P out] s']. destruct Hs as (H1 & H2 & H3 & H4).
  split; [done|]. split; [done|]. apply (IH s' i' ps' l); [done|lia|done].
Qed.

(** An interrupt without a port. *)
Record wait_rel (virtual hardware : bool) (s : wstate) (i : Interrupt) : Prop := {
  wr_port : iport i = None;
  wr_virtual : contains (iflags i) InterruptFlags.VIRTUAL = virtual;
  wr_line : registered (trait_ i) = match s with WGone => false | _ => hardware end;
  wr_signal : signaled i = wakes s;
  wr_state : match s with
             | WQuiet => (state i = Idle ∨ state i = NeedAck) ∧ timestamp i = 0
             | WAsleep => state i = Waiting ∧ timestamp i = 0
             | WRaised t => state i = Triggered ∧ timestamp i = t ∧ 0 < t
             | WGone => state i = Destroy
             end
}.

(** An event of either kind. *)
Lemma raised_rel v h s i i' ts : wait_rel v h s i → 0 < ts → s ≠ WGone → iport i' = None → iflags i' = iflags i → trait_ i' = trait_ i →
  state i' = Triggered → timestamp i' = (if timestamp i =? 0 then ts else timestamp i) → signaled i' = true → wait_rel v h (raised ts s) i'.
Proof.
  intros [Hp Hv Hl Hsg Hs] Hts Hg H1 H2 H3 H4 H5 H6. destruct s; simpl in *; [destruct Hs as [_ E]|destruct Hs as [_ E]|destruct Hs as (_ & E & ?)|done]; rewrite E in H5;
    (split; simpl; [done|by rewrite H2|by rewrite H3|done|]); split_and!; try done.
  by rewrite (proj2 (Z.eqb_neq _ _)) in H5 by lia.
Qed.

Section wait_steps.
Context (virtual hardware : bool).
Notation rel := (wait_rel virtual hardware).

Lemma trigger_wait s i ps ts : rel s i → 0 < ts →
  let '(r, i', _) := exec (Trigger ts) i ps in let '(r', s') := wait_spec virtual hardware (Trigger ts) s in r = r' ∧ rel s' i'.
Proof.
  intros Hr Hts. simpl. pose proof (wr_virtual _ _ _ _ Hr) as Hv. pose proof (wr_port _ _ _ _ Hr) as Hp. unfold trigger, has. rewrite Hv. destruct virtual; simpl; [|done].
  assert (state (if timestamp i =? 0 then set_timestamp ts i else i) = state i ∧ iport (if timestamp i =? 0 then set_timestamp ts i else i) = None) as [-> ->] by (by destruct (timestamp i =? 0)).
  destruct (decide (s = WGone)) as [->|Hg].
  { destruct Hr as [? ? ? Hsg Hs]. simpl in Hs. rewrite bool_decide_true by done. simpl. split; [done|]. destruct (timestamp i =? 0); by split. }
  rewrite bool_decide_false by (destruct Hr as [_ _ _ _ Hs]; destruct s; simpl in Hs; [..|done]; naive_solver congruence).
  rewrite (bool_decide_false (is_Some None)) by (by intros [? ?]). rewrite andb_false_r. split; [by destruct s|].
  apply (raised_rel _ _ s i); try done; [by destruct (timestamp i =? 0)..|apply signaled_raise].
Qed.

Lemma fire_wait s i ps now : rel s i → 0 < now →
  let '(r, i', _) := exec (Fire now) i ps in let '(r', s') := wait_spec virtual hardware (Fire now) s in r = r' ∧ rel s' i'.
Proof.
  intros Hr Hts. simpl. pose proof (wr_line _ _ _ _ Hr) as Hl. pose proof (wr_port _ _ _ _ Hr) as Hp. destruct (decide (s = WGone)) as [->|Hg].
  { rewrite Hl. by destruct hardware. }
  replace (match s with WGone => false | _ => hardware end) with hardware in Hl by (by destruct s). rewrite Hl. destruct hardware; [|done].
  unfold handle_interrupt. destruct (has InterruptFlags.MASK_POSTWAIT i); simpl; rewrite ?Hp.
  - assert (iport (if timestamp i =? 0 then set_timestamp now (mask i) else mask i) = None) as -> by (by destruct (timestamp i =? 0)). split; [done|].
    apply (raised_rel _ _ s i); try done; [by destruct (timestamp i =? 0)..|apply signaled_raise].
  - assert (iport (if timestamp i =? 0 then set_timestamp now i else i) = None) as -> by (by destruct (timestamp i =? 0)). split; [done|].
    apply (raised_rel _ _ s i); try done; [by destruct (timestamp i =? 0)..|apply signaled_raise].
Qed.

Lemma wait_wait s i ps d : rel s i →
  let '(r, i', _) := exec (Wait d) i ps in let '(r', s') := wait_spec virtual hardware (Wait d) s in r = r' ∧ rel s' i'.
Proof.
  intros [Hp Hv Hl Hsg Hs]. simpl. unfold wait_round. rewrite Hp. simpl. destruct s; simpl in Hs.
  - destruct Hs as [[->| ->] Ht]; [destruct d; by split; [|split]|].
    destruct (has _ i); [destruct d; by split; [|split]|]. destruct (d || has _ i); by split; [|split].
  - destruct Hs as [Hst ?]. rewrite Hst. by split; [|split].
  - destruct Hs as (-> & <- & ?). split; [done|]. split; try done; [apply signaled_lower|]. simpl. auto.
  - rewrite Hs. by split; [|split].
Qed.

Lemma wait_step s i ps o r i' ps' : rel s i → op_ok o → exec o i ps = (r, i', ps') → (r, signaled i') = ((wait_spec virtual hardware o s).1, wakes (wait_spec virtual hardware o s).2) ∧ rel (wait_spec virtual hardware o s).2 i'.
Proof.
  intros Hr Ho E. assert (r = (wait_spec virtual hardware o s).1 ∧ rel (wait_spec virtual hardware o s).2 i') as [-> H]; [|split; [f_equal; apply (wr_signal _ _ _ _ H)|done]].
  destruct o as [ts|now| |d| |m p].
  - pose proof (trigger_wait s i ps ts Hr Ho) as H. rewrite E in H. by destruct (wait_spec _ _ _ s).
  - pose proof (fire_wait s i ps now Hr Ho) as H. rewrite E in H. by destruct (wait_spec _ _ _ s).
  - simpl in E. unfold ack in E. rewrite (wr_port _ _ _ _ Hr) in E. by injection E as <- <- <-.
  - pose proof (wait_wait s i ps d Hr) as H. rewrite E in H. by destruct (wait_spec _ _ _ s).
  - simpl in E. unfold destroy in E. assert (∃ t', unregister_handler true (trait_ i) = (Ok tt, t') ∧ registered t' = false) as (t' & Ht & Hreg) by (destruct (trait_ i) as [|[]|? []]; simpl; eauto).
    simpl in E. rewrite Ht in E. simpl in E. destruct Hr as [Hp Hv _ _ _]. rewrite Hp in E. injection E as <- <- <-. split; [done|]. split; try done. apply signaled_raise.
  - simpl in E. by injection E as <- <- <-.
Qed.
End wait_steps.

(** Waiting for an interrupt: an interrupt without a port gives each event to one caller of
    [wait], with the time of the first one where several are merged, and its signal is set exactly
    while an event, or the destruction, can be collected, so that no caller is left asleep. *)
Theorem interrupt_wait_exact n os i ps log w : state i = Idle → timestamp i = 0 → iport i = None → signaled i = false → Forall op_ok os →
  run n os i ps = (log, w) → fst <$> log = wait_log (has InterruptFlags.VIRTUAL i) (registered (trait_ i)) os WQuiet.
Proof.
  intros Hst Hts Hp Hsg Hos. assert (wait_rel (has InterruptFlags.VIRTUAL i) (registered (trait_ i)) WQuiet i) as Hr by (split; [done..|]; split; [by left|done]).
  generalize dependent WQuiet. generalize (has InterruptFlags.VIRTUAL i), (registered (trait_ i)). clear Hst Hts Hp Hsg. intros v h s Hr. revert s i ps log Hr.
  induction Hos as [|o os Ho _ IH]; intros s i ps log Hr E; simpl in E; [by injection E as <- <-|].
  destruct (exec o i ps) as [[r i'] ps'] eqn:Ee. destruct (run n os i' ps') as [l w'] eqn:El. injection E as <- <-.
  destruct (wait_step v h s i ps o r i' ps' Hr Ho Ee) as [H1 H2]. rewrite fmap_cons. cbn [wait_log fst]. destruct (wait_spec v h o s) as [r' s']. simpl in H1, H2.
  rewrite H1. f_equal. by apply (IH s' i' ps' l).
Qed.

Definition demo_port : Port unit := mkPort (KObjectBase_new 0) tt PortOptions.BIND_TO_INTERUPT inner_default.
Definition demo_bound : Interrupt := set_port (Some 0%nat) 7 (new_virtual 0).
Definition demo_ops : list op := [Trigger 10; Trigger 20; Trigger 30; Env 0 demo_port; Ack; Ack; Trigger 40; DestroyOp; Trigger 50].
Lemma interrupt_port_exact_witness : ∃ log w, run 0 demo_ops demo_bound [demo_port] = (log, w) ∧
  (snd <$> log) = [Some [(10, 7)]; Some []; Some []; Some []; Some [(20, 7)]; Some []; Some [(40, 7)]; Some []; Some []] ∧ port_meets true false 7 PQuiet demo_ops log.
Proof.
  eexists _, _. split; [vm_compute; reflexivity|]. split; [reflexivity|].
  refine (interrupt_port_exact 0 7 demo_ops demo_bound [demo_port] _ _ _ _ _ _ _ _ _); [reflexivity|reflexivity|reflexivity|reflexivity|simpl; lia|unfold demo_ops; repeat constructor; simpl; lia|vm_compute; reflexivity].
Defined.

Definition demo_waits : list op := [Wait false; Trigger 10; Trigger 20; Wait false; Wait false; Wait false; DestroyOp; Wait false].
Lemma interrupt_wait_exact_witness : ∃ log w, run 0 demo_waits (new_virtual 0) [demo_port] = (log, w) ∧ fst <$> log = wait_log true false demo_waits WQuiet ∧
  wait_log true false demo_waits WQuiet = [(RWait None, false); (RUnit (Ok tt), true); (RUnit (Ok tt), true); (RWait (Some (Ok 10)), false); (RWait None, false);
    (RWait (Some (Err ZxError.BAD_STATE)), false); (RUnit (Ok tt), true); (RWait (Some (Err ZxError.CANCELED)), true)].
Proof.
  eexists _, _. split; [vm_compute; reflexivity|]. split; [|reflexivity].
  refine (interrupt_wait_exact 0 demo_waits (new_virtual 0) [demo_port] _ _ _ _ _ _ _ _); [reflexivity|reflexivity|reflexivity|reflexivity|unfold demo_waits; repeat constructor; simpl; lia|vm_compute; reflexivity].
Defined.

(** *** Where the object departs from this
    A bound interrupt whose packet has been taken out of the port and not yet acknowledged cannot
    be destroyed without an error, so that dropping its last reference panics. *)
Definition taken_port (p : Port unit) : Port unit := (Port.wait_round ∅ p).2.
Lemma drop_unacknowledged_panics :
  let '(_, i, ps) := trigger 10 demo_bound [demo_port] in (drop_interrupt true i (taken_port <$> ps)).1.1 = Panic.
Proof. vm_compute. reflexivity. Qed.

(** The times of the packets of a port. *)
Definition times (ps : ports) : list (list Z) := (λ p, itimestamp <$> interrupt_queue (inner p)) <$> ps.
(** An event that came in before the binding is delivered twice. *)
Lemma bind_triggered_twice :
  let '(_, i, ps) := trigger 10 (new_virtual 0) [demo_port] in
  let '(_, i, ps) := bind 0 7 i ps in
  let '(_, i, ps) := ack i ps in times ps = [[10; 10]].
Proof. vm_compute. reflexivity. Qed.
(** An event that waits for the acknowledgement is lost when the port is unbound: the caller of
    [wait] sleeps. *)
Lemma unbind_loses_event :
  let '(_, i, ps) := trigger 10 demo_bound [demo_port] in
  let '(_, i, ps) := trigger 20 i ps in
  let '(_, i, ps) := unbind 0 i ps in
  let '(r, _, i) := wait_round false i in r = None ∧ signaled i = false.
Proof. vm_compute. done. Qed.
(** After an event that was signalled and then sent to a port, the signal stays set, and a
    caller of [wait] fails as soon as it goes to sleep. *)
Lemma stale_signal_fails :
  let '(_, i, ps) := trigger 10 (new_virtual 0) [demo_port] in
  let '(_, i, ps) := bind 0 7 i ps in
  let '(_, i, ps) := unbind 0 i ps in
  let '(r, d, i) := wait_round false i in r = None ∧ signaled i = true ∧ (wait_round d i).1.1 = Some (Err ZxError.BAD_STATE).
Proof. vm_compute. done. Qed.
(** Unbinding takes back only the last packet. *)
Lemma unbind_leaves_packets :
  let '(_, i, ps) := trigger 10 demo_bound [demo_port] in
  let '(_, i, ps) := ack i ps in
  let '(_, i, ps) := trigger 20 i ps in
  let '(_, i, ps) := unbind 0 i ps in
  (λ p, match (Port.wait_round ∅ p).1 with Some (TInterrupt x) => Some (itimestamp x) | _ => None end) <$> ps = [Some 10].
Proof. vm_compute. reflexivity. Qed.
(** An event with a time that is not positive is lost while another one waits for its
    acknowledgement. *)
Lemma zero_time_lost :
  let '(_, i, ps) := trigger 10 demo_bound [demo_port] in
  let '(_, i, ps) := trigger (-5) i ps in
  let '(_, i, ps) := ack i ps in times ps = [[10]] ∧ state i = Idle.
Proof. vm_compute. done. Qed.
End Interrupt.
