(* ===== verification/LinuxSync.v ===== *)
(** * Linux: error codes, event bus, semaphores and pipes

    [linux-object/src/error.rs], [sync/event_bus.rs], [sync/semaphore.rs] and [fs/pipe.rs].  The
    handlers that are subscribed to an event bus wake a task; a task that waits polls again
    when it has been woken.  Semaphores and pipes are shown to wake those who wait whenever
    there is something for them, and pipes to deliver the bytes in order. *)

From S2P Require Import Prelude Errors.
From stdpp Require Import options.
#[local] Open Scope Z_scope.

Module LxError.
Inductive t := EUNDEF | EPERM | ENOENT | ESRCH | EINTR | EIO | ENXIO | E2BIG | ENOEXEC | EBADF | ECHILD | EAGAIN | ENOMEM
| EACCES | EFAULT | ENOTBLK | EBUSY | EEXIST | EXDEV | ENODEV | ENOTDIR | EISDIR | EINVAL | ENFILE | EMFILE | ENOTTY | ETXTBSY
| EFBIG | ENOSPC | ESPIPE | EROFS | EMLINK | EPIPE | EDOM | ERANGE | EDEADLK | ENAMETOOLONG | ENOLCK | ENOSYS | ENOTEMPTY
| ELOOP | EIDRM | ENOTSOCK | ENOPROTOOPT | EPFNOSUPPORT | EAFNOSUPPORT | ENOBUFS | EISCONN | ENOTCONN | ETIMEDOUT | ECONNREFUSED.
#[global] Instance t_eq_dec : EqDecision t.
Proof. solve_decision. Defined.
(** [impl From<kernel_hal::user::Error> for LxError] *)
Definition of_user (e : UserError.t) : t :=
  match e with
  | UserError.InvalidUtf8 => EINVAL | UserError.InvalidPointer => EFAULT | UserError.BufferTooSmall => ENOBUFS
  | UserError.InvalidLength => EINVAL | UserError.InvalidVectorAddress => EINVAL
  end.
(** [impl From<ZxError> for LxError]; for the other codes the conversion panics. *)
Definition of_zx (e : ZxError.t) : option t :=
  match e with
  | ZxError.INVALID_ARGS => Some EINVAL | ZxError.NOT_SUPPORTED => Some ENOSYS | ZxError.ALREADY_EXISTS => Some EEXIST
  | ZxError.SHOULD_WAIT => Some EAGAIN | ZxError.PEER_CLOSED => Some EPIPE | ZxError.BAD_HANDLE => Some EBADF
  | ZxError.TIMED_OUT => Some ETIMEDOUT | ZxError.STOP => Some ESRCH | ZxError.BAD_STATE => Some EAGAIN
  | _ => None
  end.
End LxError.
Abbreviation LxResult A := (result LxError.t A).

(** ** The event bus *)
Module Event.
Definition READABLE := bit 0.
Definition WRITABLE := bit 1.
Definition ERROR := bit 2.
Definition CLOSED := bit 3.
Definition SEMAPHORE_REMOVED := bit 20.
Definition SEMAPHORE_CAN_ACQUIRE := bit 21.
End Event.

Ltac evbits := unfold Event.READABLE, Event.CLOSED, Event.SEMAPHORE_REMOVED, Event.SEMAPHORE_CAN_ACQUIRE; rewrite ?contains_bit by lia; testbits.

(** A handler wakes a task, if the events meet its mask; it is then done and dropped.  Those of
    semaphores and pipes have no mask. *)
Record EventHandler := mkHandler { task : nat; mask : option Z }.
Definition handle (f : EventHandler) (event : Z) : bool :=
  match mask f with Some m => negb (Z.land event m =? 0) | None => true end.
Record EventBus := mkBus { event : Z; callbacks : list EventHandler }.
Definition bus_default : EventBus := mkBus 0 [].

(** [change] returns the tasks that are woken. *)
Definition change (reset set : Z) (b : EventBus) : list nat * EventBus :=
  let orig := event b in
  let new := flag_insert (flag_remove orig reset) set in
  if negb (new =? orig) then (task <$> filter (λ f, handle f new = true) (callbacks b), mkBus new (filter (λ f, handle f new = false) (callbacks b)))
  else ([], mkBus new (callbacks b)).
Definition bus_set (set : Z) : EventBus → list nat * EventBus := change 0 set.
Definition bus_clear (set : Z) : EventBus → list nat * EventBus := change set 0.
Definition subscribe (f : EventHandler) (b : EventBus) : EventBus := mkBus (event b) (callbacks b ++ [f]).
Definition get_callback_len (b : EventBus) : Z := zlen (callbacks b).

(** One poll of the future of [wait_for_event] by the task [t]. *)
Definition wait_for_event (t : nat) (m : Z) (b : EventBus) : option Z * EventBus :=
  if negb (Z.land (event b) m =? 0) then (Some (event b), b) else (None, subscribe (mkHandler t (Some m)) b).

(** A handler without a mask fires at any change. *)
Definition plain (b : EventBus) : Prop := Forall (λ f, mask f = None) (callbacks b).

Lemma change_event reset set b : event (change reset set b).2 = flag_insert (flag_remove (event b) reset) set.
Proof. unfold change. by destruct (negb _). Qed.
Lemma change_plain reset set b : plain b → plain (change reset set b).2.
Proof. intros H. unfold change. destruct (negb _); [|done]. unfold plain in *. rewrite Forall_forall in *. intros f [_ Hf]%list_elem_of_filter. by apply H. Qed.

(** A change of the events wakes everybody, otherwise nothing happens. *)
Lemma change_fires reset set b : plain b → let '(woken, b') := change reset set b in
  (event b' = event b ∧ woken = [] ∧ callbacks b' = callbacks b) ∨ (event b' ≠ event b ∧ woken = task <$> callbacks b ∧ callbacks b' = []).
Proof.
  intros H. unfold change. destruct (Z.eqb_spec (flag_insert (flag_remove (event b) reset) set) (event b)) as [E|E]; simpl; [by left|]. right. split; [done|].
  assert (∀ l e, Forall (λ f, mask f = None) l → filter (λ f, handle f e = true) l = l ∧ filter (λ f, handle f e = false) l = []) as Hf.
  { clear. intros l e. induction 1 as [|f l Hf _ [IH1 IH2]]; [done|]. rewrite filter_cons_True, filter_cons_False by (unfold handle; by rewrite Hf). by rewrite IH1, IH2. }
  destruct (Hf (callbacks b) (flag_insert (flag_remove (event b) reset) set) H) as [-> ->]. done.
Qed.

(** ** Tasks that wait
    The tasks whose last poll was pending, and whether they have been woken since. *)
Abbreviation sleepers := (gmap nat bool).
Definition wake (ws : list nat) (ts : sleepers) : sleepers := map_imap (λ t w, Some (w || bool_decide (t ∈ ws))) ts.
Definition asleep (ts : sleepers) (t : nat) : Prop := ts !! t = Some false.

Lemma wake_asleep ws ts t : asleep (wake ws ts) t ↔ asleep ts t ∧ t ∉ ws.
Proof.
  unfold asleep, wake. rewrite map_lookup_imap. destruct (ts !! t) as [w|]; simpl; [|naive_solver].
  destruct w; simpl; [naive_solver|]. case_bool_decide; naive_solver.
Qed.
Lemma wake_nil ts t : asleep (wake [] ts) t ↔ asleep ts t.
Proof. rewrite wake_asleep. set_solver. Qed.

(** Nobody sleeps who is not subscribed. *)
Definition subscribed (b : EventBus) (ts : sleepers) : Prop := ∀ t, asleep ts t → t ∈ task <$> callbacks b.

(** Changing the events keeps this; if they do change, nobody sleeps. *)
Lemma change_sleepers reset set b ts : plain b → subscribed b ts → let '(ws, b') := change reset set b in
  plain b' ∧ subscribed b' (wake ws ts) ∧ (∀ t, asleep (wake ws ts) t → asleep ts t) ∧ (event b' = event b ∨ ∀ t, ¬ asleep (wake ws ts) t).
Proof.
  intros Hp Hs. pose proof (change_fires reset set b Hp) as H. pose proof (change_plain reset set b Hp) as Hp'. destruct (change reset set b) as [ws b']. simpl in Hp'.
  split; [done|]. destruct H as [(E & -> & Hc)|(E & -> & Hc)].
  - split; [|split; [|by left]]; intros t; rewrite wake_nil; [rewrite Hc; apply Hs|done].
  - assert (∀ t, ¬ asleep (wake (task <$> callbacks b) ts) t) as Hn by (intros t [H1 H2]%wake_asleep; by apply H2, Hs).
    split; [|split; [|by right]]; intros t Ht; by apply Hn in Ht.
Qed.

(** ** Semaphores *)
Module Semaphore.
Record SemaphoreInner := mkSemaphore { count : Z; pid : Z; removed : bool; eventbus : EventBus }.
(** [isize] *)
Definition isize (x : Z) : Z := (x + 2 ^ 63) mod 2 ^ 64 - 2 ^ 63.
Definition new (c : Z) : SemaphoreInner := mkSemaphore c 0 false bus_default.
Definition remove (s : SemaphoreInner) : list nat * SemaphoreInner :=
  let '(ws, b) := bus_set Event.SEMAPHORE_REMOVED (eventbus s) in (ws, mkSemaphore (count s) (pid s) true b).
(** One poll of the future of [acquire] by the task [t]: the result, if it is ready, and the
    tasks that are woken. *)
Definition acquire (t : nat) (s : SemaphoreInner) : option (LxResult unit) * list nat * SemaphoreInner :=
  if removed s then (Some (Err LxError.EIDRM), [], s)
  else if 1 <=? count s then
    let c := isize (count s - 1) in
    let '(ws, b) := if c <? 1 then bus_clear Event.SEMAPHORE_CAN_ACQUIRE (eventbus s) else ([], eventbus s) in
    (Some (Ok tt), ws, mkSemaphore c (pid s) (removed s) b)
  else (None, [], mkSemaphore (count s) (pid s) (removed s) (subscribe (mkHandler t None) (eventbus s))).
Definition signal_count (s : SemaphoreInner) : list nat * SemaphoreInner :=
  if 1 <=? count s then let '(ws, b) := bus_set Event.SEMAPHORE_CAN_ACQUIRE (eventbus s) in (ws, mkSemaphore (count s) (pid s) (removed s) b)
  else ([], s).
Definition release (s : SemaphoreInner) : list nat * SemaphoreInner := signal_count (mkSemaphore (isize (count s + 1)) (pid s) (removed s) (eventbus s)).
Definition set (v : Z) (s : SemaphoreInner) : list nat * SemaphoreInner := signal_count (mkSemaphore v (pid s) (removed s) (eventbus s)).
Definition get (s : SemaphoreInner) : Z := count s.
Definition get_ncnt (s : SemaphoreInner) : Z := get_callback_len (eventbus s).
Definition set_pid (p : Z) (s : SemaphoreInner) : SemaphoreInner := mkSemaphore (count s) p (removed s) (eventbus s).

(** *** Interleavings of any number of tasks *)
Record world := mkWorld { sem : SemaphoreInner; waiting : sleepers; acquired : Z; released : Z }.
Inductive op := Acquire (t : nat) | Release | Set_ (v : Z) | Remove.
Definition exec (o : op) (w : world) : world :=
  match o with
  | Acquire t =>
      match acquire t (sem w) with
      | (Some (Ok _), ws, s) => mkWorld s (wake ws (delete t (waiting w))) (acquired w + 1) (released w)
      | (Some _, ws, s) => mkWorld s (wake ws (delete t (waiting w))) (acquired w) (released w)
      | (None, ws, s) => mkWorld s (wake ws (<[t := false]> (waiting w))) (acquired w) (released w)
      end
  | Release => let '(ws, s) := release (sem w) in mkWorld s (wake ws (waiting w)) (acquired w) (released w + 1)
  | Set_ v => let '(ws, s) := set v (sem w) in mkWorld s (wake ws (waiting w)) (acquired w) (released w + (v - count (sem w)))
  | Remove => let '(ws, s) := remove (sem w) in mkWorld s (wake ws (waiting w)) (acquired w) (released w)
  end.
Definition run (os : list op) (w : world) : world := foldl (λ w o, exec o w) w os.
Definition start (c : Z) : world := mkWorld (new c) ∅ 0 0.
(** [set] to a value below one is left out: see [set_zero_loses_wakeup]. *)
Definition op_ok (o : op) : Prop := match o with Set_ v => 1 ≤ v < 2 ^ 62 | _ => True end.

(** [n]: the number of steps so far. *)
Record inv (c : Z) (n : Z) (w : world) : Prop := {
  i_plain : plain (eventbus (sem w));
  i_sub : subscribed (eventbus (sem w)) (waiting w);
  i_can : contains (event (eventbus (sem w))) Event.SEMAPHORE_CAN_ACQUIRE = true → 1 ≤ count (sem w);
  i_removed : contains (event (eventbus (sem w))) Event.SEMAPHORE_REMOVED = removed (sem w);
  i_nobody t : asleep (waiting w) t → count (sem w) < 1 ∧ removed (sem w) = false;
  i_count : count (sem w) = c + released w - acquired w;
  i_bound : - 2 ^ 62 ≤ count (sem w) < 2 ^ 62 + n
}.

Lemma isize_small x : - 2 ^ 63 ≤ x < 2 ^ 63 → isize x = x.
Proof. intros H. unfold isize. rewrite Z.mod_small by lia. lia. Qed.

(** What a change of one bit does to the bits. *)
Lemma set_can e : let e' := flag_insert (flag_remove e 0) Event.SEMAPHORE_CAN_ACQUIRE in
  contains e' Event.SEMAPHORE_CAN_ACQUIRE = true ∧ contains e' Event.SEMAPHORE_REMOVED = contains e Event.SEMAPHORE_REMOVED.
Proof. simpl. split; evbits; done. Qed.
Lemma clear_can e : let e' := flag_insert (flag_remove e Event.SEMAPHORE_CAN_ACQUIRE) 0 in
  contains e' Event.SEMAPHORE_CAN_ACQUIRE = false ∧ contains e' Event.SEMAPHORE_REMOVED = contains e Event.SEMAPHORE_REMOVED.
Proof. simpl. split; evbits; done. Qed.
Lemma set_removed e : let e' := flag_insert (flag_remove e 0) Event.SEMAPHORE_REMOVED in
  contains e' Event.SEMAPHORE_REMOVED = true ∧ contains e' Event.SEMAPHORE_CAN_ACQUIRE = contains e Event.SEMAPHORE_CAN_ACQUIRE.
Proof. simpl. split; evbits; done. Qed.

(** [release] and [set]: the count becomes [k]. *)
Lemma count_inv c n w k : inv c n w → (1 ≤ k ∨ count (sem w) ≤ k) → - 2 ^ 62 ≤ k < 2 ^ 62 + (n + 1) →
  let '(ws, s) := signal_count (mkSemaphore k (pid (sem w)) (removed (sem w)) (eventbus (sem w))) in
  inv c (n + 1) (mkWorld s (wake ws (waiting w)) (acquired w) (released w + (k - count (sem w)))).
Proof.
  intros [Hp Hs Hc Hr Hn Hk Hb] H1 H2. unfold signal_count. simpl. destruct (Z.leb_spec 1 k) as [Hk1|Hk1].
  - unfold bus_set. pose proof (change_sleepers 0 Event.SEMAPHORE_CAN_ACQUIRE _ _ Hp Hs) as H. pose proof (change_event 0 Event.SEMAPHORE_CAN_ACQUIRE (eventbus (sem w))) as He.
    destruct (change _ _ _) as [ws b]. simpl in He. destruct H as (H3 & H4 & H5 & H6). destruct (set_can (event (eventbus (sem w)))) as [E1 E2]. rewrite <-He in E1, E2.
    split; simpl; try done; [by rewrite E2| |lia]. intros t Ht. destruct H6 as [H6|H6]; [|by apply H6 in Ht]. rewrite H6 in E1. apply Hc in E1. apply H5, Hn in Ht. lia.
  - split; simpl; try done.
    + intros t. rewrite wake_nil. intros Ht. by apply Hs.
    + intros Hcan. apply Hc in Hcan. lia.
    + intros t. rewrite wake_nil. intros Ht. apply Hn in Ht. split; [lia|apply Ht].
    + lia.
Qed.

Lemma acquire_inv c n w t : 0 ≤ n < 2 ^ 61 → inv c n w → inv c (n + 1) (exec (Acquire t) w).
Proof.
  intros Hn0 Hw. pose proof Hw as [Hp Hs Hc Hr Hn Hk Hb]. simpl. unfold acquire. destruct (removed (sem w)) eqn:Hrm; [|destruct (Z.leb_spec 1 (count (sem w))) as [Hk1|Hk1]].
  - assert (∀ t', asleep (wake [] (delete t (waiting w))) t' → asleep (waiting w) t') as Hd.
    { intros t'. rewrite wake_nil. unfold asleep. by intros [_ H]%lookup_delete_Some. }
    split; simpl; try done; [| | |lia]; [by intros t' ?%Hd; apply Hs|by rewrite Hrm|]. intros t' Ht'%Hd%Hn. by destruct Ht'.
  - assert (∀ t', ¬ asleep (waiting w) t') as Hno by (intros t' Ht'; apply Hn in Ht'; lia). rewrite isize_small by lia.
    assert (subscribed (eventbus (sem w)) (delete t (waiting w))) as Hs'.
    { intros t' Ht'. unfold asleep in Ht'. apply lookup_delete_Some in Ht' as [_ Ht']. by apply Hno in Ht'. }
    destruct (Z.ltb_spec (count (sem w) - 1) 1).
    + unfold bus_clear. pose proof (change_sleepers Event.SEMAPHORE_CAN_ACQUIRE 0 _ _ Hp Hs') as H3. pose proof (change_event Event.SEMAPHORE_CAN_ACQUIRE 0 (eventbus (sem w))) as He.
      destruct (change _ _ _) as [ws b]. simpl in He. destruct H3 as (H3 & H4 & H5 & _). destruct (clear_can (event (eventbus (sem w)))) as [E1 E2]. rewrite <-He in E1, E2.
      split; simpl; try done; [by rewrite E1|by rewrite E2|lia|lia].
    + split; simpl; try done; [| |lia|lia]; intros t'; rewrite wake_nil; [apply Hs'|]. intros Ht'. unfold asleep in Ht'. apply lookup_delete_Some in Ht' as [_ Ht']. by apply Hno in Ht'.
  - split; simpl; try done; [| |lia].
    + by apply Forall_app; split; [|apply Forall_singleton].
    + intros t'. rewrite wake_nil. intros Ht'. unfold subscribe; cbn [callbacks]; rewrite fmap_app. apply elem_of_app. unfold asleep in Ht'. destruct (decide (t' = t)) as [->|Hne]; [right; by left|]. left. rewrite lookup_insert_ne in Ht' by done. by apply Hs.
Qed.

Lemma sem_remove_inv c n w : inv c n w → inv c (n + 1) (exec Remove w).
Proof.
  intros [Hp Hs Hc Hr Hn Hk Hb]. simpl. unfold remove, bus_set. pose proof (change_sleepers 0 Event.SEMAPHORE_REMOVED _ _ Hp Hs) as H. pose proof (change_event 0 Event.SEMAPHORE_REMOVED (eventbus (sem w))) as He.
  destruct (change _ _ _) as [ws b]. simpl in He. destruct H as (H3 & H4 & H5 & H6). destruct (set_removed (event (eventbus (sem w)))) as [E1 E2]. rewrite <-He in E1, E2.
  split; simpl; try done; [by rewrite E2| |lia]. intros t Ht. destruct H6 as [H6|H6]; [|by apply H6 in Ht]. rewrite H6, Hr in E1. apply H5, Hn in Ht. destruct Ht as [_ Ht]. by rewrite Ht in E1.
Qed.

Lemma exec_inv_sem c n w o : 0 ≤ n < 2 ^ 61 → op_ok o → inv c n w → inv c (n + 1) (exec o w).
Proof.
  intros Hn Ho Hw. pose proof (i_bound _ _ _ Hw) as Hb. destruct o as [t| |v|]; [by apply acquire_inv; [lia|]| | |by apply sem_remove_inv].
  - pose proof (count_inv c n w (count (sem w) + 1) Hw ltac:(lia) ltac:(lia)) as H. simpl. unfold release. rewrite isize_small by lia.
    destruct (signal_count _) as [ws s]. by replace (count (sem w) + 1 - count (sem w)) with 1 in H by lia.
  - simpl in Ho. pose proof (count_inv c n w v Hw ltac:(lia) ltac:(lia)) as H. simpl. unfold set. by destruct (signal_count _) as [ws s].
Qed.

Lemma run_inv_sem c n os w : 0 ≤ n → n + zlen os < 2 ^ 61 → Forall op_ok os → inv c n w → inv c (n + zlen os) (run os w).
Proof.
  intros Hn Hb Hos. revert n w Hn Hb. induction Hos as [|o os Ho _ IH]; intros n w Hn Hb Hw; [by rewrite Z.add_0_r|]. rewrite zlen_cons in *.
  replace (n + (1 + zlen os)) with (n + 1 + zlen os) by lia. simpl. pose proof (zlen_nonneg os). apply IH; [lia|lia|]. apply exec_inv_sem; [lia|done|done].
Qed.

(** C28. Semaphores lose neither permits nor wake-ups: over every interleaving of tasks that
    acquire and release, of [set] to positive values and of removals, the count is the initial
    one plus what was released minus what was acquired, and a task that waits and has not been
    woken waits because there is no permit and the semaphore has not been removed. *)
Theorem semaphore_no_lost_wakeup c os t : - 2 ^ 62 ≤ c < 2 ^ 62 → zlen os < 2 ^ 61 → Forall op_ok os →
  let w := run os (start c) in
  count (sem w) = c + released w - acquired w ∧ (waiting w !! t = Some false → count (sem w) < 1 ∧ removed (sem w) = false).
Proof.
  intros Hc Hl Hos. pose proof (run_inv_sem c 0 os (start c) ltac:(lia) ltac:(lia) Hos) as H. destruct H as [_ _ _ _ Hn Hk _]; [|split; [done|apply Hn]].
  split; simpl; try done; try lia. by apply Forall_nil.
Qed.

Lemma semaphore_no_lost_wakeup_witness : let w := run [Acquire 0; Acquire 1; Acquire 2; Release; Acquire 2] (start 1) in
  waiting w = {[1%nat := true]} ∧ count (sem w) = 1 + released w - acquired w ∧ (waiting w !! 1%nat = Some false → count (sem w) < 1 ∧ removed (sem w) = false).
Proof. split; [reflexivity|]. apply (semaphore_no_lost_wakeup 1 [Acquire 0; Acquire 1; Acquire 2; Release; Acquire 2] 1); [lia|vm_compute; reflexivity|repeat constructor]. Defined.

(** [set] to zero leaves the event that a permit can be acquired: the next [release] does not
    change it and wakes nobody. *)
Lemma set_zero_loses_wakeup : let w := run [Set_ 1; Set_ 0; Acquire 7; Release] (start 0) in
  count (sem w) = 1 ∧ waiting w !! 7%nat = Some false.
Proof. vm_compute. done. Qed.
End Semaphore.

(** ** Pipes *)
Module Pipe.
Inductive PipeEnd := ReadEnd | WriteEnd.
#[global] Instance PipeEnd_eq_dec : EqDecision PipeEnd.
Proof. solve_decision. Defined.
(** [FsError::Again] is the only error of a pipe. *)
Inductive FsError := Again.
Record PipeData := mkPipe { buf : list Z; eventbus : EventBus; end_cnt : Z }.
Definition create_pair : PipeData := mkPipe [] bus_default 2.
(** [Drop for Pipe] *)
Definition drop_end (p : PipeData) : list nat * PipeData :=
  let '(ws, b) := bus_set Event.CLOSED (eventbus p) in (ws, mkPipe (buf p) b (end_cnt p - 1)).
Definition can_read (d : PipeEnd) (p : PipeData) : bool :=
  match d with ReadEnd => negb (bool_decide (buf p = [])) || (end_cnt p <? 2) | WriteEnd => false end.
Definition can_write (d : PipeEnd) (p : PipeData) : bool := match d with WriteEnd => end_cnt p =? 2 | ReadEnd => false end.
(** [read_at] into a buffer of [n] bytes: the bytes that are read. *)
Definition read_at (d : PipeEnd) (n : nat) (p : PipeData) : result FsError (list Z) * list nat * PipeData :=
  if Nat.eqb n 0 then (Ok [], [], p)
  else match d with
  | ReadEnd =>
      if bool_decide (buf p = []) && (end_cnt p =? 2) then (Err Again, [], p)
      else
        let len := Nat.min n (length (buf p)) in
        let rest := drop len (buf p) in
        let '(ws, b) := if bool_decide (rest = []) then bus_clear Event.READABLE (eventbus p) else ([], eventbus p) in
        (Ok (take len (buf p)), ws, mkPipe rest b (end_cnt p))
  | WriteEnd => (Ok [], [], p)
  end.
Definition write_at (d : PipeEnd) (bytes : list Z) (p : PipeData) : result FsError Z * list nat * PipeData :=
  match d with
  | WriteEnd => let '(ws, b) := bus_set Event.READABLE (eventbus p) in (Ok (zlen bytes), ws, mkPipe (buf p ++ bytes) b (end_cnt p))
  | ReadEnd => (Ok 0, [], p)
  end.
(** [INode::poll]: whether the end is readable, writable, in error. *)
Definition poll (d : PipeEnd) (p : PipeData) : bool * bool * bool := (can_read d p, can_write d p, false).
(** The two halves of a poll of [PipeFuture], each under a lock of its own. *)
Definition ready (d : PipeEnd) (p : PipeData) : bool := can_read d p || can_write d p.
Definition poll_subscribe (t : nat) (p : PipeData) : PipeData := mkPipe (buf p) (subscribe (mkHandler t None) (eventbus p)) (end_cnt p).
(** The two together. *)
Definition async_poll (d : PipeEnd) (t : nat) (p : PipeData) : bool * PipeData := if ready d p then (true, p) else (false, poll_subscribe t p).

(** *** Histories
    of a pipe, its open ends, the tasks that wait for the read end; [written] and [got] are the
    bytes that went in and came out, [eof] tells that a read has found the end of the data. *)
Record world := mkWorld { pipe : PipeData; r_open : bool; w_open : bool; waiting : sleepers; written : list Z; got : list Z; eof : bool }.
Inductive op := Read (n : nat) | Write (bytes : list Z) | Close (d : PipeEnd) | Poll (d : PipeEnd) (t : nat).
Definition is_open (d : PipeEnd) (w : world) : bool := match d with ReadEnd => r_open w | WriteEnd => w_open w end.
Definition target (o : op) : PipeEnd := match o with Read _ => ReadEnd | Write _ => WriteEnd | Close d | Poll d _ => d end.
Definition step (o : op) (w : world) : world :=
  match o with
  | Read n =>
      match read_at ReadEnd n (pipe w) with
      | (Ok l, ws, p) => mkWorld p (r_open w) (w_open w) (wake ws (waiting w)) (written w) (got w ++ l) (eof w || (negb (Nat.eqb n 0) && bool_decide (l = [])))
      | (_, ws, p) => mkWorld p (r_open w) (w_open w) (wake ws (waiting w)) (written w) (got w) (eof w)
      end
  | Write bytes =>
      let '(_, ws, p) := write_at WriteEnd bytes (pipe w) in
      mkWorld p (r_open w) (w_open w) (wake ws (waiting w)) (written w ++ bytes) (got w) (eof w)
  | Close d =>
      let '(ws, p) := drop_end (pipe w) in
      mkWorld p (match d with ReadEnd => false | _ => r_open w end) (match d with WriteEnd => false | _ => w_open w end) (wake ws (waiting w)) (written w) (got w) (eof w)
  | Poll d t =>
      let '(r, p) := async_poll d t (pipe w) in
      mkWorld p (r_open w) (w_open w) (match d with ReadEnd => if r then delete t (waiting w) else <[t := false]> (waiting w) | WriteEnd => waiting w end) (written w) (got w) (eof w)
  end.
(** Only open ends can be used. *)
Definition exec (o : op) (w : world) : world := if is_open (target o) w then step o w else w.
Definition run (os : list op) (w : world) : world := foldl (λ w o, exec o w) w os.
Definition start : world := mkWorld create_pair true true ∅ [] [] false.

(** *** Order *)
Record fifo (w : world) : Prop := {
  f_bytes : written w = got w ++ buf (pipe w);
  f_ends : end_cnt (pipe w) = Z.b2z (r_open w) + Z.b2z (w_open w);
  f_eof : eof w = true → buf (pipe w) = [] ∧ w_open w = false
}.

Lemma read_fifo n w : fifo w → r_open w = true → fifo (step (Read n) w).
Proof.
  intros [Hb He Hf] Ho. simpl. unfold read_at. destruct (Nat.eqb_spec n 0) as [->|Hn].
  { split; simpl; [by rewrite app_nil_r|done|]. by rewrite orb_false_r. }
  case_bool_decide as Hbuf; simpl.
  - destruct (Z.eqb_spec (end_cnt (pipe w)) 2); simpl; [by split|]. rewrite Hbuf, Nat.min_0_r. simpl. destruct (bus_clear _ _) as [ws b]. split; simpl.
    + by rewrite app_nil_r, Hb, Hbuf.
    + done.
    + intros _. split; [done|]. rewrite Ho in He. destruct (w_open w); [simpl in He; lia|done].
  - set (len := Nat.min n (length (buf (pipe w)))). destruct (if bool_decide _ then _ else _) as [ws b]. split; simpl.
    + by rewrite <-app_assoc, take_drop.
    + done.
    + intros [Hx|Hx]%orb_true_iff; [by apply Hf in Hx as [? _]|]. simpl in Hx. apply bool_decide_eq_true in Hx.
      apply (f_equal length) in Hx. rewrite length_take in Hx. simpl in Hx. destruct (buf (pipe w)); [done|]. simpl in *. lia.
Qed.

Lemma exec_fifo o w : fifo w → fifo (exec o w).
Proof.
  intros Hw. unfold exec. destruct (is_open (target o) w) eqn:Ho; [|done]. destruct o as [n|bytes|d|d t]; [by apply read_fifo|..]; destruct Hw as [Hb He Hf]; simpl in *.
  - destruct (bus_set _ _) as [ws b]. split; simpl; [by rewrite Hb, app_assoc|done|]. intros Hx. destruct (Hf Hx) as [_ H]. by rewrite H in Ho.
  - unfold drop_end. destruct (bus_set _ _) as [ws b]. destruct d; simpl in *; (split; simpl; [done|rewrite Ho in He; simpl in He; lia|naive_solver]).
  - unfold async_poll. destruct (ready d (pipe w)); by split.
Qed.

(** C27. Pipes deliver in order: whatever the ends do, what has been read is what was written
    first, the rest is in the buffer, and a read only reports the end of the data when the write
    end has been closed and everything has been read. *)
Theorem pipe_fifo os : let w := run os start in
  written w = got w ++ buf (pipe w) ∧ (eof w = true → got w = written w ∧ w_open w = false).
Proof.
  intros w. assert (fifo w) as [Hb _ Hf].
  { unfold w, run. assert (fifo start) as H by (by split). revert H. generalize start. induction os as [|o os IH]; intros w0 H; simpl; [done|]. by apply IH, exec_fifo. }
  split; [done|]. intros [Hn Hx]%Hf. by rewrite Hb, Hn, app_nil_r.
Qed.

(** *** Waking the readers *)
Record wakes (w : world) : Prop := {
  p_fifo : fifo w;
  p_plain : plain (eventbus (pipe w));
  p_sub : subscribed (eventbus (pipe w)) (waiting w);
  p_readable : contains (event (eventbus (pipe w))) Event.READABLE = negb (bool_decide (buf (pipe w) = []));
  p_closed : contains (event (eventbus (pipe w))) Event.CLOSED = (end_cnt (pipe w) <? 2);
  p_nobody t : asleep (waiting w) t → can_read ReadEnd (pipe w) = false
}.
(** An empty write is left out: see [empty_write_loses_wakeup]. *)
Definition op_ok (o : op) : Prop := match o with Write bytes => bytes ≠ [] | _ => True end.

Lemma set_readable_bits e : let e' := flag_insert (flag_remove e 0) Event.READABLE in contains e' Event.READABLE = true ∧ contains e' Event.CLOSED = contains e Event.CLOSED.
Proof. simpl. split; evbits; done. Qed.
Lemma clear_readable_bits e : let e' := flag_insert (flag_remove e Event.READABLE) 0 in contains e' Event.READABLE = false ∧ contains e' Event.CLOSED = contains e Event.CLOSED.
Proof. simpl. split; evbits; done. Qed.
Lemma set_closed_bits e : let e' := flag_insert (flag_remove e 0) Event.CLOSED in contains e' Event.CLOSED = true ∧ contains e' Event.READABLE = contains e Event.READABLE.
Proof. simpl. split; evbits; done. Qed.

(** A change of the events of the pipe, seen by the sleepers. *)
Lemma change_pipe reset set w ws b : wakes w → change reset set (eventbus (pipe w)) = (ws, b) →
  plain b ∧ subscribed b (wake ws (waiting w)) ∧ event b = flag_insert (flag_remove (event (eventbus (pipe w))) reset) set ∧
  ∀ t, asleep (wake ws (waiting w)) t → can_read ReadEnd (pipe w) = false ∧ event b = event (eventbus (pipe w)).
Proof.
  intros Hw E. pose proof (change_sleepers reset set _ _ (p_plain _ Hw) (p_sub _ Hw)) as H. pose proof (change_event reset set (eventbus (pipe w))) as He. rewrite E in H, He. simpl in He.
  destruct H as (H1 & H2 & H3 & H4). split; [done|]. split; [done|]. split; [done|]. intros t Ht. split; [by apply (p_nobody _ Hw t), H3|]. destruct H4 as [|H4]; [done|by apply H4 in Ht].
Qed.

(** What a read does to the pipe: nothing, or it takes bytes out and leaves some, or none. *)
Lemma read_at_cases n p r ws p' : read_at ReadEnd n p = (r, ws, p') →
  (p' = p ∧ ws = []) ∨
  (∃ rest, rest ≠ [] ∧ buf p ≠ [] ∧ p' = mkPipe rest (eventbus p) (end_cnt p) ∧ ws = []) ∨
  (∃ b, change Event.READABLE 0 (eventbus p) = (ws, b) ∧ p' = mkPipe [] b (end_cnt p)).
Proof.
  unfold read_at. destruct (Nat.eqb n 0); [intros [= <- <- <-]; by left|]. destruct (bool_decide (buf p = []) && _); [intros [= <- <- <-]; by left|].
  set (len := Nat.min n (length (buf p))). case_bool_decide as Hr; [|].
  - destruct (bus_clear _ _) as [ws1 b] eqn:E. intros [= <- <- <-]. rewrite Hr. right. right. by exists b.
  - intros [= <- <- <-]. right. left. exists (drop len (buf p)). split; [done|]. split; [|done]. intros E. by rewrite E, drop_nil in Hr.
Qed.

Lemma read_wakes n w : wakes w → r_open w = true → wakes (step (Read n) w).
Proof.
  intros Hw Ho. pose proof (read_fifo n w (p_fifo _ Hw) Ho) as Hf. pose proof Hw as [_ Hp Hs Hr Hc Hn]. simpl in *. destruct (read_at ReadEnd n (pipe w)) as [[r ws] p] eqn:E.
  assert (plain (eventbus p) ∧ subscribed (eventbus p) (wake ws (waiting w)) ∧ contains (event (eventbus p)) Event.READABLE = negb (bool_decide (buf p = [])) ∧
    contains (event (eventbus p)) Event.CLOSED = (end_cnt p <? 2) ∧ ∀ t, asleep (wake ws (waiting w)) t → can_read ReadEnd p = false) as (H1 & H2 & H3 & H4 & H5).
  { destruct (read_at_cases _ _ _ _ _ E) as [[-> ->]|[(rest & Hre & Hbu & -> & ->)|(b & Hch & ->)]]; simpl.
    - split_and!; try done; intros t; rewrite wake_nil; [apply Hs|apply Hn].
    - split_and!; try done; [intros t; rewrite wake_nil; apply Hs|by rewrite Hr, !bool_decide_false|].
      intros t. rewrite wake_nil. intros Ht. apply Hn in Ht. simpl in Ht. by rewrite bool_decide_false in Ht.
    - destruct (change_pipe _ _ _ _ _ Hw Hch) as (G3 & G4 & G5 & G6). destruct (clear_readable_bits (event (eventbus (pipe w)))) as [E1 E2]. rewrite <-G5 in E1, E2.
      split_and!; try done; [by rewrite E2|]. intros t [Ht _]%G6. simpl in Ht. by apply orb_false_iff in Ht as [_ Ht]. }
  destruct r; split; done.
Qed.

Lemma exec_wakes o w : op_ok o → wakes w → wakes (exec o w).
Proof.
  intros Hok Hw. unfold exec. destruct (is_open (target o) w) eqn:Ho; [|done]. pose proof (exec_fifo o w (p_fifo _ Hw)) as Hf. unfold exec in Hf. rewrite Ho in Hf.
  destruct o as [n|bytes|d|d t]; [by apply read_wakes|..]; simpl in *; pose proof Hw as [Hff Hp Hs Hr Hc Hn].
  - destruct (bus_set _ _) as [ws b] eqn:E. destruct (change_pipe _ _ _ _ _ Hw E) as (H3 & H4 & H5 & H6). destruct (set_readable_bits (event (eventbus (pipe w)))) as [E1 E2]. rewrite <-H5 in E1, E2.
    split; simpl; try done; [rewrite E1, bool_decide_false; [done|by destruct (buf (pipe w)), bytes]|by rewrite E2|].
    intros t [Ht Hev]%H6. simpl in Ht. rewrite Hev, Hr in E1. by rewrite E1 in Ht.
  - unfold drop_end in *. destruct (bus_set _ _) as [ws b] eqn:E. destruct (change_pipe _ _ _ _ _ Hw E) as (H3 & H4 & H5 & H6). destruct (set_closed_bits (event (eventbus (pipe w)))) as [E1 E2]. rewrite <-H5 in E1, E2.
    assert (end_cnt (pipe w) - 1 < 2) as Hlt by (rewrite (f_ends _ Hff); destruct (r_open w), (w_open w); simpl; lia).
    split; simpl; try done; [by rewrite E2|rewrite E1; symmetry; by apply Z.ltb_lt|].
    intros t [Ht Hev]%H6. simpl in Ht. rewrite Hev, Hc in E1. apply orb_false_iff in Ht as [_ Ht]. by rewrite E1 in Ht.
  - unfold async_poll in *. destruct (ready d (pipe w)) eqn:Er; simpl.
    + split; simpl; try done; destruct d; simpl; try done; intros t'; unfold asleep; intros [_ H]%lookup_delete_Some; [by apply Hs|by apply (Hn t')].
    + split; simpl; try done; [by apply Forall_app; split; [|apply Forall_singleton]|..].
      * intros t'. unfold subscribe; cbn [callbacks]; rewrite fmap_app, elem_of_app. destruct d; [|left; by apply Hs]. unfold asleep. destruct (decide (t' = t)) as [->|Hne]; [right; by left|].
        rewrite lookup_insert_ne by done. left. by apply Hs.
      * intros t'. destruct d; [|apply Hn]. unfold asleep. destruct (decide (t' = t)) as [->|Hne]; [intros _|rewrite lookup_insert_ne by done; apply Hn].
        by apply orb_false_iff in Er as [Er _].
Qed.

(** Pipes wake their readers: as long as nobody writes an empty buffer, a task that waits
    for the read end and has not been woken waits because there is nothing to read and the write
    end is open. *)
Theorem pipe_no_lost_wakeup os t : Forall op_ok os → let w := run os start in
  waiting w !! t = Some false → buf (pipe w) = [] ∧ w_open w = true.
Proof.
  intros Hos w. assert (wakes w) as Hw.
  { unfold w, run. assert (wakes start) as H by (split; try done; apply Forall_nil; done). revert H. generalize start. induction Hos as [|o os Ho _ IH]; intros w0 H; simpl; [done|]. by apply IH, exec_wakes. }
  intros Ht. pose proof (p_nobody _ Hw t Ht) as H. simpl in H. apply orb_false_iff in H as [H1 H2]. apply negb_false_iff, bool_decide_eq_true in H1. split; [done|].
  apply Z.ltb_ge in H2. rewrite (f_ends _ (p_fifo _ Hw)) in H2. destruct (w_open w); [done|]. destruct (r_open w); simpl in H2; lia.
Qed.

Lemma pipe_no_lost_wakeup_witness : let w := run [Write [1; 2]; Read 5; Poll ReadEnd 3; Read 1] start in
  waiting w !! 3%nat = Some false ∧ buf (pipe w) = [] ∧ w_open w = true.
Proof. intros w. split; [reflexivity|]. apply (pipe_no_lost_wakeup [Write [1; 2]; Read 5; Poll ReadEnd 3; Read 1] 3); [repeat constructor; discriminate|reflexivity]. Defined.

(** *** Lost wake-ups
    An empty write sets the event without data; the next write does not change it, and the
    reader that waits is not woken. *)
Lemma empty_write_loses_wakeup : let w := run [Write []; Poll ReadEnd 0; Write [1]] start in
  waiting w !! 0%nat = Some false ∧ buf (pipe w) = [1].
Proof. vm_compute. done. Qed.
(** A write between the two halves of a poll is missed. *)
Lemma poll_race_loses_wakeup : let p := create_pair in
  ready ReadEnd p = false ∧
  let '(_, ws, p) := write_at WriteEnd [1] p in
  let p := poll_subscribe 0 p in
  ws = [] ∧ ready ReadEnd p = true ∧ callbacks (eventbus p) = [mkHandler 0 None] ∧ (write_at WriteEnd [2] p).1.2 = [].
Proof. vm_compute. done. Qed.
(** Once the read end is closed, polling the write end never becomes ready. *)
Lemma closed_pipe_never_ready b : let p := (drop_end create_pair).2 in ready WriteEnd p = false ∧ ready WriteEnd (write_at WriteEnd b p).2 = false.
Proof. split; reflexivity. Qed.
End Pipe.
