(* ===== verification/LinuxSignal.v ===== *)
(** * Linux: signals

    [linux-object/src/signal], the signal state of [linux-object/src/thread.rs],
    [linux-syscall/src/signal.rs] and the delivery of a signal in [loader/src/linux.rs].  A set of
    signals is a 64-bit word; it is shown to behave as a set, and the threads of a system, with
    the system calls on them, as threads with sets of pending and blocked signals. *)

From S2P Require Import Prelude Errors LinuxSync.
From stdpp Require Import options.
#[local] Open Scope Z_scope.

(** ** Signals and sets of signals *)
Module Signal.
(** A signal is its number. *)
Definition SIGKILL : Z := 9.
Definition SIGSTOP : Z := 19.
Definition RTMIN : Z := 32.
Definition RTMAX : Z := 64.
(** [Signal::try_from(signum as u8)] *)
Definition try_from (signum : Z) : option Z := let n := wrap 8 signum in if (1 <=? n) && (n <=? RTMAX) then Some n else None.
Definition is_standard (s : Z) : bool := s <? RTMIN.
Definition as_bit (s : Z) : Z := Z.shiftl 1 (s - 1).
Definition valid (s : Z) : Prop := 1 ≤ s ≤ RTMAX.
End Signal.

Module Sigset.
Definition empty : Z := 0.
Definition contains (x s : Z) : bool := negb (Z.land x (Signal.as_bit s) =? 0).
Definition insert (s x : Z) : Z := Z.lor x (Signal.as_bit s).
Definition insert_set (y x : Z) : Z := Z.lor x y.
Definition remove (s x : Z) : Z := Z.lxor x (Z.land x (Signal.as_bit s)).
Definition remove_set (y x : Z) : Z := Z.lxor x (Z.land x y).
Definition mask_with (m x : Z) : Z := Z.land x (usize_max - m).
(** [u64::trailing_zeros] *)
Definition trailing_zeros (x : Z) : Z := Z.of_nat (default 64%nat (head (filter (λ i, Z.testbit x (Z.of_nat i) = true) (seq 0 64)))).
Definition find_first_signal (x : Z) : option Z := let tz := trailing_zeros x in if 64 <=? tz then None else Some (tz + 1).

(** *** As sets *)
Definition members (x : Z) : gset Z := list_to_set (filter (λ s, contains x s = true) (seqZ 1 64)).

Lemma contains_testbit x s : Signal.valid s → contains x s = Z.testbit x (s - 1).
Proof.
  intros [Hs _]. unfold contains, Signal.as_bit. change (Z.shiftl 1 (s - 1)) with (bit (s - 1)). apply (intersects_bit x (s - 1)). lia.
Qed.
Lemma elem_members s x : s ∈ members x ↔ Signal.valid s ∧ Z.testbit x (s - 1) = true.
Proof.
  unfold members. rewrite elem_of_list_to_set, list_elem_of_filter, elem_of_seqZ. unfold Signal.valid, Signal.RTMAX. split.
  - intros [H1 H2]. rewrite contains_testbit in H1 by (unfold Signal.valid, Signal.RTMAX; lia). split; [lia|done].
  - intros [H1 H2]. rewrite contains_testbit by done. split; [done|lia].
Qed.
Lemma contains_members x s : Signal.valid s → contains x s = bool_decide (s ∈ members x).
Proof. intros Hs. rewrite contains_testbit by done. destruct (Z.testbit x (s - 1)) eqn:E; case_bool_decide as H; rewrite elem_members in H; naive_solver. Qed.

Lemma as_bit_testbit s k : Signal.valid s → Z.testbit (Signal.as_bit s) k = bool_decide (k = s - 1).
Proof. intros [Hs _]. change (Signal.as_bit s) with (bit (s - 1)). apply bit_testbit. lia. Qed.
Lemma xor_and x y k : Z.testbit (Z.lxor x (Z.land x y)) k = Z.testbit x k && negb (Z.testbit y k).
Proof. rewrite Z.lxor_spec, Z.land_spec. by destruct (Z.testbit x k), (Z.testbit y k). Qed.

(** Words of 64 bits, by their bits. *)
Lemma fits_bits x : fits 64 x ↔ 0 ≤ x ∧ ∀ k, 64 ≤ k → Z.testbit x k = false.
Proof.
  unfold fits. split.
  - intros Hx. split; [lia|]. intros k Hk. rewrite <-(Z.mod_small x (2 ^ 64)) by done. apply Z.mod_pow2_bits_high. lia.
  - intros [H0 Hk]. replace x with (x mod 2 ^ 64); [apply Z.mod_pos_bound; lia|]. apply Z.bits_inj'. intros k Hk0.
    destruct (decide (64 ≤ k)); [rewrite Z.mod_pow2_bits_high by lia; symmetry; by apply Hk|by rewrite Z.mod_pow2_bits_low by lia].
Qed.
Lemma fits_lor x y : fits 64 x → fits 64 y → fits 64 (Z.lor x y).
Proof. rewrite !fits_bits. intros [H1 H2] [H3 H4]. split; [by apply Z.lor_nonneg|]. intros k Hk. by rewrite Z.lor_spec, H2, H4. Qed.
Lemma fits_remove x y : fits 64 x → 0 ≤ y → fits 64 (Z.lxor x (Z.land x y)).
Proof.
  rewrite !fits_bits. intros [H1 H2] Hy. split; [apply Z.lxor_nonneg; split; [intros _; apply Z.land_nonneg; by left|done]|]. intros k Hk. by rewrite xor_and, H2.
Qed.

Lemma members_empty : members empty = ∅.
Proof. apply set_eq. intros s. rewrite elem_members, Z.bits_0. set_solver. Qed.
Lemma members_insert s x : Signal.valid s → members (insert s x) = {[s]} ∪ members x.
Proof.
  intros Hs. apply set_eq. intros k. rewrite elem_of_union, elem_of_singleton, !elem_members. unfold insert. rewrite Z.lor_spec, as_bit_testbit by done.
  case_bool_decide; [|rewrite orb_false_r; naive_solver lia]. assert (k = s) as -> by lia. rewrite orb_true_r. naive_solver.
Qed.
Lemma members_remove s x : Signal.valid s → members (remove s x) = members x ∖ {[s]}.
Proof.
  intros Hs. apply set_eq. intros k. rewrite elem_of_difference, elem_of_singleton, !elem_members. unfold remove. rewrite xor_and, as_bit_testbit by done.
  case_bool_decide; simpl; [assert (k = s) as -> by lia; rewrite andb_false_r; naive_solver|]. rewrite andb_true_r. naive_solver lia.
Qed.
Lemma members_insert_set y x : members (insert_set y x) = members x ∪ members y.
Proof. apply set_eq. intros k. rewrite elem_of_union, !elem_members. unfold insert_set. rewrite Z.lor_spec, orb_true_iff. naive_solver. Qed.
Lemma members_remove_set y x : members (remove_set y x) = members x ∖ members y.
Proof.
  apply set_eq. intros k. rewrite elem_of_difference, !elem_members. unfold remove_set. rewrite xor_and, andb_true_iff, negb_true_iff.
  destruct (Z.testbit y (k - 1)); naive_solver.
Qed.
Lemma members_mask_with m x : fits 64 m → members (mask_with m x) = members x ∖ members m.
Proof.
  intros Hm. apply set_eq. intros k. rewrite elem_of_difference, !elem_members. unfold mask_with. rewrite Z.land_spec.
  assert (Signal.valid k → Z.testbit (usize_max - m) (k - 1) = negb (Z.testbit m (k - 1))) as Hn.
  { intros [Hk1 Hk2]. unfold Signal.RTMAX in Hk2. assert (Z.ldiff m (Z.ones 64) = 0) as Hd by (rewrite Z.ldiff_ones_r by lia; rewrite Z.shiftr_div_pow2, Z.div_small, Z.shiftl_0_l; [done|exact Hm|lia]).
    change usize_max with (Z.ones 64). rewrite Z.sub_nocarry_ldiff by done. rewrite Z.ldiff_spec, Z.ones_spec_low by lia. done. }
  split.
  - intros [Hv [H1 H2]%andb_true_iff]. rewrite Hn in H2 by done. apply negb_true_iff in H2. split; [done|]. by rewrite H2; intros [_ ?].
  - intros [[Hv H1] H2]. split; [done|]. rewrite H1, Hn by done. simpl. apply negb_true_iff. destruct (Z.testbit m (k - 1)); naive_solver.
Qed.

(** [s] is the least member of a set. *)
Definition least (s : Z) (X : gset Z) : Prop := s ∈ X ∧ ∀ k, k ∈ X → s ≤ k.

Lemma head_filter_seq (P : nat → Prop) `{∀ i, Decision (P i)} a n :
  match head (filter P (seq a n)) with
  | Some i => P i ∧ (a ≤ i < a + n)%nat ∧ ∀ j, (a ≤ j < i)%nat → ¬ P j
  | None => ∀ j, (a ≤ j < a + n)%nat → ¬ P j
  end.
Proof.
  revert a. induction n as [|n IH]; intros a; simpl; [intros; lia|]. rewrite filter_cons. destruct (decide (P a)) as [Ha|Ha]; simpl; [split; [done|]; split; [lia|]; intros; lia|].
  specialize (IH (S a)). destruct (head _) as [i|].
  - destruct IH as (H1 & H2 & H3). split; [done|]. split; [lia|]. intros j Hj. destruct (decide (j = a)) as [->|]; [done|]. apply H3. lia.
  - intros j Hj. destruct (decide (j = a)) as [->|]; [done|]. apply IH. lia.
Qed.

Lemma find_first_spec x : match find_first_signal x with Some s => least s (members x) | None => members x = ∅ end.
Proof.
  unfold find_first_signal, trailing_zeros. pose proof (head_filter_seq (λ i, Z.testbit x (Z.of_nat i) = true) 0 64) as H. destruct (head _) as [i|]; simpl.
  - destruct H as (H1 & H2 & H3). rewrite (proj2 (Z.leb_gt _ _)) by lia. split.
    + apply elem_members. unfold Signal.valid, Signal.RTMAX. split; [lia|]. by replace (Z.of_nat i + 1 - 1) with (Z.of_nat i) by lia.
    + intros k [Hv Hk]%elem_members. unfold Signal.valid in Hv. destruct (decide (Z.of_nat i + 1 ≤ k)); [done|]. exfalso. apply (H3 (Z.to_nat (k - 1))); [lia|]. by rewrite Z2Nat.id by lia.
  - apply set_eq. intros k. rewrite elem_members. split; [|set_solver]. intros [Hv Hk]. unfold Signal.valid, Signal.RTMAX in Hv. exfalso. apply (H (Z.to_nat (k - 1))); [lia|]. by rewrite Z2Nat.id by lia.
Qed.
End Sigset.

(** ** Actions and stacks *)
Record SignalAction := mkAction { handler : Z; aflags : Z; restorer : Z; amask : Z }.
Definition action_default : SignalAction := mkAction 0 0 0 0.
Definition SIGINFO : Z := bit 2.

Module SignalStackFlags.
Definition ONSTACK : Z := 1.
Definition DISABLE : Z := 2.
Definition AUTODISARM : Z := 0x80000000.
End SignalStackFlags.
Record SignalStack := mkStack { stack_sp : Z; stack_flags : Z; stack_size : Z }.
Definition stack_default : SignalStack := mkStack 0 SignalStackFlags.DISABLE 0.

(** What lies in user memory at the [SignalUserContext] of a handler: the saved mask and program
    counter, and whether the other fields, and those of the [SigInfo], are as they were written. *)
Record Frame := mkFrame { sig_mask : Z; frame_pc : Z; unmodified : bool }.

Section threads.
(** The registers of a thread, and what [handle_signal] makes of them. *)
Context {C : Type} (get_pc : C → Z) (set_pc : Z → C → C) (setup : SignalAction → Z → C → C).

(** [context_before] also tells whether a frame was pushed. *)
Record LinuxThread := mkThread {
  signals : Z;
  signal_mask : Z;
  signal_alternate_stack : SignalStack;
  handling_signal : option Z;
  context : C;
  context_before : option (C * bool)
}.
Definition create_linux (c : C) : LinuxThread := mkThread 0 0 stack_default None c None.
Definition set_signals (x : Z) (t : LinuxThread) : LinuxThread :=
  mkThread x (signal_mask t) (signal_alternate_stack t) (handling_signal t) (context t) (context_before t).
Definition set_mask (x : Z) (t : LinuxThread) : LinuxThread :=
  mkThread (signals t) x (signal_alternate_stack t) (handling_signal t) (context t) (context_before t).
Definition set_stack (x : SignalStack) (t : LinuxThread) : LinuxThread :=
  mkThread (signals t) (signal_mask t) x (handling_signal t) (context t) (context_before t).

(** [LinuxThread::handle_signal]: the signal to handle and the mask to restore. *)
Definition take_signal (t : LinuxThread) : option (Z * Z) * LinuxThread :=
  match handling_signal t with
  | Some _ => (None, t)
  | None =>
      match Sigset.find_first_signal (Sigset.mask_with (signal_mask t) (signals t)) with
      | Some s => (Some (s, signal_mask t),
                   mkThread (Sigset.remove s (signals t)) (signal_mask t) (signal_alternate_stack t) (Some s) (context t) (context_before t))
      | None => (None, t)
      end
  end.
(** [handle_signal] of the loader, before the thread goes to user mode. *)
Definition handle_signal (action : Z → SignalAction) (t : LinuxThread) : option (Z * Frame) * LinuxThread :=
  match take_signal t with
  | (Some (s, m), t) =>
      let a := action s in
      (Some (s, mkFrame m (get_pc (context t)) true),
       mkThread (signals t) (signal_mask t) (signal_alternate_stack t) (handling_signal t) (setup a s (context t)) (Some (context t, contains (aflags a) SIGINFO)))
  | (None, t) => (None, t)
  end.
(** [restore_after_handle_signal]; without a frame the pointers are null and reading through them
    faults in the kernel. *)
Definition restore_after_handle_signal (old : C) (pushed : bool) (f : Frame) (t : LinuxThread) : LxResult unit * LinuxThread :=
  if negb pushed || negb (unmodified f) then (Panic, t)
  else (Ok tt, mkThread (signals t) (sig_mask f) (signal_alternate_stack t) None (set_pc (frame_pc f) old) (context_before t)).
Definition sys_rt_sigreturn (f : Frame) (t : LinuxThread) : LxResult Z * LinuxThread :=
  match context_before t with
  | None => (Panic, t)
  | Some (old, pushed) =>
      let t := mkThread (signals t) (signal_mask t) (signal_alternate_stack t) (handling_signal t) (context t) None in
      let '(r, t) := restore_after_handle_signal old pushed f t in (let? _ := r in Ok 0, t)
  end.

(** [out]: what writing the old value gives; [set]: what reading the new one gives, if the
    pointer is not null. *)
Definition write_old (out : option UserError.t) : LxResult unit := match out with Some e => Err (LxError.of_user e) | None => Ok tt end.
Definition read_new {A} (x : result UserError.t A) : LxResult A := match x with Ok a => Ok a | Err e => Err (LxError.of_user e) | Panic => Panic end.
Definition apply_how (how set m : Z) : Z := if how =? 0 then Sigset.insert_set set m else if how =? 1 then Sigset.remove_set set m else set.
Definition sys_rt_sigprocmask (how : Z) (set : option (result UserError.t Z)) (out : option UserError.t) (sigsetsize : Z) (t : LinuxThread) : LxResult Z * LinuxThread :=
  if negb ((0 <=? how) && (how <=? 2)) then (Err LxError.EINVAL, t)
  else if negb (sigsetsize =? 8) then (Err LxError.EINVAL, t)
  else match write_old out, set with
  | Ok _, None => (Ok 0, t)
  | Ok _, Some set =>
      match read_new set with
      | Ok set => (Ok 0, set_mask (apply_how how set (signal_mask t)) t)
      | Err e => (Err e, t)
      | Panic => (Panic, t)
      end
  | Err e, _ => (Err e, t)
  | Panic, _ => (Panic, t)
  end.
Definition MIN_SIGSTACK_SIZE : Z := 2048.
Definition sys_sigaltstack (ss : option (result UserError.t SignalStack)) (out : option UserError.t) (t : LinuxThread) : LxResult Z * LinuxThread :=
  match write_old out, ss with
  | Ok _, None => (Ok 0, t)
  | Ok _, Some ss =>
      match read_new ss with
      | Ok ss =>
          if contains (stack_flags ss) SignalStackFlags.DISABLE && (stack_size ss <? MIN_SIGSTACK_SIZE) then (Err LxError.ENOMEM, t)
          else if negb (contains (Z.lor SignalStackFlags.AUTODISARM SignalStackFlags.DISABLE) (stack_flags ss)) then (Err LxError.EINVAL, t)
          else if contains (stack_flags (signal_alternate_stack t)) SignalStackFlags.ONSTACK then (Err LxError.EPERM, t)
          else (Ok 0, set_stack ss t)
      | Err e => (Err e, t)
      | Panic => (Panic, t)
      end
  | Err e, _ => (Err e, t)
  | Panic, _ => (Panic, t)
  end.

(** ** Processes
    A process is in a job; its threads are listed in the order of their creation.  [exit_code] is
    what [Process::exit] has been called with first. *)
Record LinuxProc := mkProc { job : Z; threads : list (Z * LinuxThread); actions : gmap Z SignalAction; exit_code : option Z }.
Abbreviation system := (gmap Z LinuxProc).
Definition set_threads (l : list (Z * LinuxThread)) (p : LinuxProc) : LinuxProc := mkProc (job p) l (actions p) (exit_code p).
Definition proc_exit (code : Z) (p : LinuxProc) : LinuxProc := mkProc (job p) (threads p) (actions p) (Some (default code (exit_code p))).
Definition signal_action (p : LinuxProc) (s : Z) : SignalAction := default action_default (actions p !! s).

(** Changing the thread with a number, if there is one. *)
Fixpoint on_thread (tid : Z) (f : LinuxThread → LinuxThread) (l : list (Z * LinuxThread)) : option (list (Z * LinuxThread)) :=
  match l with
  | [] => None
  | (i, t) :: l => if i =? tid then Some ((i, f t) :: l) else cons (i, t) <$> on_thread tid f l
  end.
(** The loop of [sys_kill]: the first thread that does not block the signal gets it. *)
Fixpoint send_any (s : Z) (l : list (Z * LinuxThread)) : option Z * list (Z * LinuxThread) :=
  match l with
  | [] => (None, [])
  | (i, t) :: l =>
      if Sigset.contains (signal_mask t) s then let '(r, l) := send_any s l in (r, (i, t) :: l)
      else (Some i, (i, set_signals (Sigset.insert s (signals t)) t) :: l)
  end.

Definition sys_rt_sigaction (signum : Z) (act : option (result UserError.t SignalAction)) (out : option UserError.t) (sigsetsize : Z) (p : LinuxProc) : LxResult Z * LinuxProc :=
  match Signal.try_from signum with
  | None => (Err LxError.EINVAL, p)
  | Some s =>
      if negb (sigsetsize =? 8) || (s =? Signal.SIGKILL) || (s =? Signal.SIGSTOP) then (Err LxError.EINVAL, p)
      else match write_old out, act with
      | Ok _, None => (Ok 0, p)
      | Ok _, Some act =>
          match read_new act with
          | Ok a => (Ok 0, mkProc (job p) (threads p) (<[s := a]> (actions p)) (exit_code p))
          | Err e => (Err e, p)
          | Panic => (Panic, p)
          end
      | Err e, _ => (Err e, p)
      | Panic, _ => (Panic, p)
      end
  end.

(** The system calls that send signals; [me] is the calling process.  They also return the thread
    that has got the signal. *)
Definition sys_kill (me pid signum : Z) (sys : system) : LxResult Z * option (Z * Z * Z) * system :=
  match Signal.try_from signum with
  | None => (Err LxError.EINVAL, None, sys)
  | Some s =>
      if pid <=? 0 then (Panic, None, sys)
      else match sys !! me, sys !! pid with
      | Some caller, Some p =>
          if negb (job caller =? job p) then (Err LxError.EINVAL, None, sys)
          else if s =? Signal.SIGKILL then (Ok 0, None, <[pid := proc_exit (128 + Signal.SIGKILL) p]> sys)
          else let '(r, l) := send_any s (threads p) in (Ok 0, (λ tid, (pid, tid, s)) <$> r, <[pid := set_threads l p]> sys)
      | _, _ => (Err LxError.EINVAL, None, sys)
      end
  end.
Definition send_to (pid tid s : Z) (sys : system) : LxResult Z * option (Z * Z * Z) * system :=
  match sys !! pid with
  | Some p =>
      match on_thread tid (λ t, set_signals (Sigset.insert s (signals t)) t) (threads p) with
      | Some l => (Ok 0, Some (pid, tid, s), <[pid := set_threads l p]> sys)
      | None => (Err LxError.EINVAL, None, sys)
      end
  | None => (Err LxError.EINVAL, None, sys)
  end.
Definition sys_tkill (me tid signum : Z) (sys : system) : LxResult Z * option (Z * Z * Z) * system :=
  match Signal.try_from signum with Some s => send_to me tid s sys | None => (Err LxError.EINVAL, None, sys) end.
Definition sys_tgkill (me tgid tid signum : Z) (sys : system) : LxResult Z * option (Z * Z * Z) * system :=
  match Signal.try_from signum with
  | Some s =>
      match sys !! me, sys !! tgid with
      | Some caller, Some p => if job caller =? job p then send_to tgid tid s sys else (Err LxError.EINVAL, None, sys)
      | _, _ => (Err LxError.EINVAL, None, sys)
      end
  | None => (Err LxError.EINVAL, None, sys)
  end.

(** ** Histories
    The system calls, the deliveries and returns of the threads, and what they do to signals. *)
Inductive event := Sent (pid tid s : Z) | Delivered (pid tid s : Z).
Inductive op := Kill (me pid signum : Z) | Tkill (me tid signum : Z) | Tgkill (me tgid tid signum : Z) | Deliver (pid tid : Z)
| Return (pid tid : Z) (f : Frame) | Procmask (pid tid how set : Z) | Action (pid signum : Z) (a : SignalAction).
Definition sent (x : option (Z * Z * Z)) : list event := match x with Some (pid, tid, s) => [Sent pid tid s] | None => [] end.
Fixpoint find_thread (tid : Z) (l : list (Z * LinuxThread)) : option LinuxThread :=
  match l with [] => None | (i, t) :: l => if i =? tid then Some t else find_thread tid l end.
Definition thread_of (sys : system) (pid tid : Z) : option LinuxThread := match sys !! pid with Some p => find_thread tid (threads p) | None => None end.
Definition set_thread (pid tid : Z) (t : LinuxThread) (sys : system) : system :=
  match sys !! pid with
  | Some p => match on_thread tid (λ _, t) (threads p) with Some l => <[pid := set_threads l p]> sys | None => sys end
  | None => sys
  end.
Definition exec (o : op) (sys : system) : list event * system :=
  match o with
  | Kill me pid signum => let '(_, x, sys) := sys_kill me pid signum sys in (sent x, sys)
  | Tkill me tid signum => let '(_, x, sys) := sys_tkill me tid signum sys in (sent x, sys)
  | Tgkill me tgid tid signum => let '(_, x, sys) := sys_tgkill me tgid tid signum sys in (sent x, sys)
  | Deliver pid tid =>
      match sys !! pid, thread_of sys pid tid with
      | Some p, Some t =>
          match handle_signal (signal_action p) t with
          | (Some (s, _), t) => ([Delivered pid tid s], set_thread pid tid t sys)
          | (None, t) => ([], sys)
          end
      | _, _ => ([], sys)
      end
  | Return pid tid f =>
      match thread_of sys pid tid with Some t => ([], set_thread pid tid (sys_rt_sigreturn f t).2 sys) | None => ([], sys) end
  | Procmask pid tid how set =>
      match thread_of sys pid tid with Some t => ([], set_thread pid tid (sys_rt_sigprocmask how (Some (Ok set)) None 8 t).2 sys) | None => ([], sys) end
  | Action pid signum a =>
      match sys !! pid with Some p => ([], <[pid := (sys_rt_sigaction signum (Some (Ok a)) None 8 p).2]> sys) | None => ([], sys) end
  end.
Fixpoint run (os : list op) (sys : system) : list event * system :=
  match os with [] => ([], sys) | o :: os => let '(l, sys) := exec o sys in let '(l', sys) := run os sys in (l ++ l', sys) end.
Definition op_ok (o : op) : Prop := match o with Return _ _ f => fits 64 (sig_mask f) | Procmask _ _ _ set => fits 64 set | _ => True end.

(** The signals whose last event at a thread is that they were sent to it. *)
Definition step_pending (pid tid : Z) (X : gset Z) (e : event) : gset Z :=
  match e with
  | Sent p t s => if bool_decide (p = pid ∧ t = tid) then {[s]} ∪ X else X
  | Delivered p t s => if bool_decide (p = pid ∧ t = tid) then X ∖ {[s]} else X
  end.
Definition pending (pid tid : Z) (X : gset Z) (log : list event) : gset Z := foldl (step_pending pid tid) X log.

Record thread_wf (t : LinuxThread) : Prop := {
  w_signals : fits 64 (signals t);
  w_mask : fits 64 (signal_mask t)
}.
Definition system_wf (sys : system) : Prop := ∀ pid p, sys !! pid = Some p → NoDup (threads p).*1 ∧ Forall (λ x, thread_wf x.2) (threads p).

Lemma on_thread_spec tid f l l' : on_thread tid f l = Some l' → NoDup l.*1 →
  l'.*1 = l.*1 ∧ ∃ t, find_thread tid l = Some t ∧ (∀ k, find_thread k l' = if decide (k = tid) then Some (f t) else find_thread k l) ∧
  (Forall (λ x, thread_wf x.2) l → thread_wf (f t) → Forall (λ x, thread_wf x.2) l').
Proof.
  revert l'. induction l as [|[i t] l IH]; intros l'; simpl; [done|]. destruct (Z.eqb_spec i tid) as [->|Hi].
  - intros [= <-] _. split; [done|]. exists t. split; [done|]. split.
    + intros k. simpl. destruct (Z.eqb_spec tid k) as [->|]; [by rewrite decide_True|]. by rewrite decide_False.
    + intros [_ H]%Forall_cons Ht. by constructor.
  - destruct (on_thread tid f l) as [l1|] eqn:E; simpl; [|done]. intros [= <-] [_ Hnd]%NoDup_cons. destruct (IH l1 eq_refl Hnd) as (H1 & t1 & H2 & H3 & H4). split; [by rewrite !fmap_cons, H1|].
    exists t1. split; [done|]. split.
    + intros k. simpl. destruct (Z.eqb_spec i k) as [->|]; [by rewrite decide_False|]. apply H3.
    + intros [? H]%Forall_cons Ht. constructor; [done|]. by apply H4.
Qed.

Lemma on_thread_None tid f l : on_thread tid f l = None ↔ find_thread tid l = None.
Proof. induction l as [|[i t] l IH]; simpl; [done|]. destruct (i =? tid); [done|]. rewrite <-IH. by destruct (on_thread tid f l). Qed.

Definition give (s : Z) (t : LinuxThread) : LinuxThread := set_signals (Sigset.insert s (signals t)) t.

Lemma give_wf s t : Signal.valid s → thread_wf t → thread_wf (give s t) ∧ Sigset.members (signals (give s t)) = {[s]} ∪ Sigset.members (signals t).
Proof.
  intros Hs [H1 H2]. split; [|by apply Sigset.members_insert]. split; simpl; [|done]. unfold Sigset.insert, Signal.as_bit. unfold Signal.valid, Signal.RTMAX in Hs.
  apply Sigset.fits_lor; [done|]. rewrite Z.shiftl_1_l. unfold fits. split; [apply Z.pow_nonneg; lia|]. apply Z.pow_lt_mono_r; lia.
Qed.

Lemma send_any_spec s l r l' : send_any s l = (r, l') → NoDup l.*1 →
  l'.*1 = l.*1 ∧ (∀ k, find_thread k l' = if decide (r = Some k) then give s <$> find_thread k l else find_thread k l) ∧
  (Signal.valid s → Forall (λ x, thread_wf x.2) l → Forall (λ x, thread_wf x.2) l') ∧ (∀ k, r = Some k → k ∈ l.*1).
Proof.
  revert r l'. induction l as [|[i t] l IH]; intros r l'; simpl; [intros [= <- <-] _; split_and!; try done|]. destruct (Sigset.contains (signal_mask t) s).
  - destruct (send_any s l) as [r1 l1]. intros [= <- <-] [Hi Hnd]%NoDup_cons. destruct (IH r1 l1 eq_refl Hnd) as (H1 & H2 & H3 & H4). split; [by rewrite !fmap_cons, H1|]. split; [|split].
    + intros k. simpl. destruct (Z.eqb_spec i k) as [->|]; [|apply H2]. rewrite decide_False; [done|]. intros E. by apply H4 in E.
    + intros Hs [? H]%Forall_cons. constructor; [done|]. by apply H3.
    + intros k Hk. right. by apply H4.
  - intros [= <- <-] [Hi Hnd]%NoDup_cons. split; [done|]. split; [|split].
    + intros k. simpl. destruct (Z.eqb_spec i k) as [->|]; [by rewrite decide_True|]. by rewrite decide_False by congruence.
    + intros Hs [? H]%Forall_cons. constructor; [|done]. simpl in *. by apply give_wf.
    + intros k [= ->]. by left.
Qed.

(** A change of the threads of a process, seen from all threads. *)
Lemma insert_threads sys pid p l : sys !! pid = Some p →
  ∀ q k, thread_of (<[pid := set_threads l p]> sys) q k = if decide (q = pid) then find_thread k l else thread_of sys q k.
Proof. intros Hp q k. unfold thread_of. destruct (decide (q = pid)) as [->|Hq]; [by rewrite lookup_insert_eq|]. by rewrite lookup_insert_ne. Qed.

Lemma insert_wf sys pid p l : system_wf sys → sys !! pid = Some p → l.*1 = (threads p).*1 → Forall (λ x, thread_wf x.2) l → system_wf (<[pid := set_threads l p]> sys).
Proof.
  intros Hw Hp H1 H2 q p' Hq. destruct (decide (q = pid)) as [->|Hne]; [rewrite lookup_insert_eq in Hq; injection Hq as <-|rewrite lookup_insert_ne in Hq by done; by apply (Hw q)].
  simpl. rewrite H1. split; [apply (Hw pid p Hp)|done].
Qed.

(** What a step may do to the threads: the events say which signals come and go. *)
Definition explains (l : list event) (sys sys' : system) : Prop :=
  ∀ pid tid, match thread_of sys pid tid, thread_of sys' pid tid with
             | Some t, Some t' => Sigset.members (signals t') = pending pid tid (Sigset.members (signals t)) l
             | None, None => True
             | _, _ => False
             end.

Lemma send_explains s pid p r l sys : Signal.valid s → system_wf sys → sys !! pid = Some p → l.*1 = (threads p).*1 →
  (∀ k, find_thread k l = if decide (r = Some k) then give s <$> find_thread k (threads p) else find_thread k (threads p)) →
  explains (sent ((λ tid, (pid, tid, s)) <$> r)) sys (<[pid := set_threads l p]> sys).
Proof.
  intros Hs Hw Hp H1 H2 q k. rewrite (insert_threads _ _ _ _ Hp). unfold thread_of. destruct (decide (q = pid)) as [->|Hq].
  - rewrite Hp, H2. destruct (Hw pid p Hp) as [_ Hwf]. destruct (decide (r = Some k)) as [->|Hr].
    + destruct (find_thread k (threads p)) as [t|] eqn:E; simpl; [|done]. unfold pending. simpl. rewrite bool_decide_true by done.
      apply give_wf; [done|]. clear -Hwf E. induction (threads p) as [|[i t1] l IH]; simpl in *; [done|]. apply Forall_cons in Hwf as [? ?]. destruct (i =? k); [by injection E as <-|auto].
    + destruct (find_thread k (threads p)) as [t|]; [|done]. destruct r as [r|]; simpl; [|done]. unfold pending. simpl. by rewrite bool_decide_false by (intros [? ?]; congruence).
  - destruct (sys !! q) as [p'|]; [|done]. destruct (find_thread k (threads p')) as [t|]; [|done]. destruct r as [r|]; simpl; [|done]. unfold pending. simpl. by rewrite bool_decide_false by (intros [? ?]; congruence).
Qed.

Lemma try_from_valid signum s : Signal.try_from signum = Some s → Signal.valid s.
Proof. unfold Signal.try_from, Signal.valid. destruct (Z.leb_spec 1 (wrap 8 signum)), (Z.leb_spec (wrap 8 signum) Signal.RTMAX); simpl; intros [= <-]; lia. Qed.

Lemma explains_nil sys : explains [] sys sys.
Proof. intros pid tid. by destruct (thread_of sys pid tid). Qed.

(** The state of one thread is replaced, with the event [l]. *)
Lemma set_thread_ok pid tid t t' l sys : system_wf sys → thread_of sys pid tid = Some t → thread_wf t' →
  (∀ q k, pending q k (Sigset.members (signals t)) l = if decide (q = pid ∧ k = tid) then Sigset.members (signals t') else Sigset.members (signals t)) →
  (∀ q k X, ¬ (q = pid ∧ k = tid) → pending q k X l = X) →
  system_wf (set_thread pid tid t' sys) ∧ explains l sys (set_thread pid tid t' sys).
Proof.
  intros Hw Ht Ht' Hl Ho. unfold set_thread. pose proof Ht as Ht2. unfold thread_of in Ht2. destruct (sys !! pid) as [p|] eqn:Hp; [|done]. destruct (Hw pid p Hp) as [Hnd Hwf].
  destruct (on_thread tid (λ _, t') (threads p)) as [l'|] eqn:E; [|apply on_thread_None in E; congruence].
  destruct (on_thread_spec _ _ _ _ E Hnd) as (H1 & t1 & H2 & H3 & H4). split; [by apply insert_wf; [..|apply H4]|].
  intros q k. rewrite (insert_threads _ _ _ _ Hp). destruct (decide (q = pid)) as [->|Hq].
  - rewrite H3. destruct (decide (k = tid)) as [->|Hk].
    + rewrite Ht, Hl. by rewrite decide_True.
    + unfold thread_of. rewrite Hp. destruct (find_thread k (threads p)) as [t2|]; [|done]. rewrite Ho; [done|]. by intros [_ ?].
  - destruct (thread_of sys q k) as [t2|]; [|done]. rewrite Ho; [done|]. by intros [? _].
Qed.

Lemma send_ok s pid tid sys r x sys' : Signal.valid s → system_wf sys → send_to pid tid s sys = (r, x, sys') → system_wf sys' ∧ explains (sent x) sys sys'.
Proof.
  intros Hs Hw. unfold send_to. destruct (sys !! pid) as [p|] eqn:Hp; [|intros [= <- <- <-]; split; [done|apply explains_nil]]. destruct (Hw pid p Hp) as [Hnd Hwf].
  destruct (on_thread tid _ (threads p)) as [l|] eqn:E; intros [= <- <- <-]; [|split; [done|apply explains_nil]].
  destruct (on_thread_spec _ _ _ _ E Hnd) as (H1 & t & H2 & H3 & H4).
  assert (thread_wf t) as Htw. { clear -Hwf H2. induction (threads p) as [|[i t1] l IH]; simpl in *; [done|]. apply Forall_cons in Hwf as [? ?]. destruct (i =? tid); [by injection H2 as <-|auto]. }
  split; [apply insert_wf; [done|done|done|apply H4; [done|by apply give_wf]]|].
  apply (send_explains s pid p (Some tid) l sys Hs Hw Hp H1). intros k. rewrite H3. destruct (decide (k = tid)) as [->|Hk]; [by rewrite decide_True, H2|]. by rewrite decide_False by congruence.
Qed.

Lemma kill_ok me pid signum sys r x sys' : system_wf sys → sys_kill me pid signum sys = (r, x, sys') → system_wf sys' ∧ explains (sent x) sys sys'.
Proof.
  intros Hw. unfold sys_kill. assert (system_wf sys ∧ explains (sent None) sys sys) as Hsame by (split; [done|apply explains_nil]).
  destruct (Signal.try_from signum) as [s|] eqn:Hs; [|by intros [= <- <- <-]]. apply try_from_valid in Hs. destruct (pid <=? 0); [by intros [= <- <- <-]|].
  destruct (sys !! me) as [caller|]; [|by intros [= <- <- <-]]. destruct (sys !! pid) as [p|] eqn:Hp; [|by intros [= <- <- <-]]. destruct (negb _); [by intros [= <- <- <-]|].
  destruct (Hw pid p Hp) as [Hnd Hwf]. destruct (s =? Signal.SIGKILL).
  - intros [= <- <- <-]. split.
    + intros q p' Hq. destruct (decide (q = pid)) as [->|Hne]; [rewrite lookup_insert_eq in Hq; by injection Hq as <-|rewrite lookup_insert_ne in Hq by done; by apply (Hw q)].
    + intros q k. assert (thread_of (<[pid := proc_exit (128 + Signal.SIGKILL) p]> sys) q k = thread_of sys q k) as ->; [|by destruct (thread_of sys q k)].
      unfold thread_of. destruct (decide (q = pid)) as [->|Hne]; [by rewrite lookup_insert_eq, Hp|by rewrite lookup_insert_ne].
  - destruct (send_any s (threads p)) as [r1 l] eqn:E. intros [= <- <- <-]. destruct (send_any_spec _ _ _ _ E Hnd) as (H1 & H2 & H3 & _).
    split; [apply insert_wf; [done|done|done|by apply H3]|]. by apply send_explains.
Qed.

Lemma thread_of_wf sys pid tid t : system_wf sys → thread_of sys pid tid = Some t → thread_wf t.
Proof.
  intros Hw Ht. unfold thread_of in Ht. destruct (sys !! pid) as [p|] eqn:Hp; [|done]. destruct (Hw pid p Hp) as [_ Hwf]. clear -Hwf Ht.
  induction (threads p) as [|[i t1] l IH]; simpl in *; [done|]. apply Forall_cons in Hwf as [? ?]. destruct (i =? tid); [by injection Ht as <-|auto].
Qed.

(** *** What a thread takes *)
Lemma take_signal_spec t : thread_wf t →
  match take_signal t with
  | (Some (s, m), t') => handling_signal t = None ∧ m = signal_mask t ∧ Sigset.least s (Sigset.members (signals t) ∖ Sigset.members (signal_mask t)) ∧ Signal.valid s ∧
      thread_wf t' ∧ Sigset.members (signals t') = Sigset.members (signals t) ∖ {[s]} ∧ handling_signal t' = Some s ∧ signal_mask t' = signal_mask t ∧ context t' = context t
  | (None, t') => t' = t ∧ (is_Some (handling_signal t) ∨ Sigset.members (signals t) ⊆ Sigset.members (signal_mask t))
  end.
Proof.
  clear get_pc set_pc setup. intros [H1 H2]. unfold take_signal. destruct (handling_signal t) as [h|]; [split; [done|by left; exists h]|].
  pose proof (Sigset.find_first_spec (Sigset.mask_with (signal_mask t) (signals t))) as Hf. rewrite Sigset.members_mask_with in Hf by done. destruct (Sigset.find_first_signal _) as [s|].
  - assert (Signal.valid s) as Hv by (destruct Hf as [Hf _]; apply elem_of_difference in Hf as [Hf _]; by apply Sigset.elem_members in Hf as [? _]).
    split; [done|]. split; [done|]. split; [done|]. split; [done|]. split; [|split; [by apply Sigset.members_remove|done]].
    split; simpl; [|done]. apply Sigset.fits_remove; [done|]. unfold Signal.as_bit. unfold Signal.valid in Hv. by apply Z.shiftl_nonneg.
  - split; [done|]. right. set_solver.
Qed.

(** Steps that do not touch the pending signals of a thread. *)
Lemma quiet_ok pid tid t t' sys : system_wf sys → thread_of sys pid tid = Some t → thread_wf t' → signals t' = signals t →
  system_wf (set_thread pid tid t' sys) ∧ explains [] sys (set_thread pid tid t' sys).
Proof.
  intros Hw Ht Ht' Hs. apply (set_thread_ok pid tid t); [done|done|done| |done]. intros q k. rewrite Hs. by destruct (decide _).
Qed.

Lemma deliver_ok action pid tid t s f t' sys : system_wf sys → thread_of sys pid tid = Some t → handle_signal action t = (Some (s, f), t') →
  system_wf (set_thread pid tid t' sys) ∧ explains [Delivered pid tid s] sys (set_thread pid tid t' sys).
Proof using Type*.
  intros Hw Ht. unfold handle_signal. pose proof (take_signal_spec t (thread_of_wf _ _ _ _ Hw Ht)) as H. destruct (take_signal t) as [[[s1 m]|] t1]; [|done].
  destruct H as (_ & _ & _ & _ & H1 & H2 & _). intros [= <- <- <-]. apply (set_thread_ok pid tid t); [done|done| | |].
  - destruct H1. by split.
  - intros q k. unfold pending. simpl. destruct (decide (q = pid ∧ k = tid)) as [[-> ->]|Hn]; [by rewrite bool_decide_true|]. rewrite bool_decide_false; [done|]. intros [? ?]. by apply Hn.
  - intros q k X Hn. unfold pending. simpl. rewrite bool_decide_false; [done|]. intros [? ?]. by apply Hn.
Qed.

Lemma sigreturn_wf f t : fits 64 (sig_mask f) → thread_wf t → thread_wf (sys_rt_sigreturn f t).2 ∧ signals (sys_rt_sigreturn f t).2 = signals t.
Proof using Type*.
  intros Hf [H1 H2]. unfold sys_rt_sigreturn, restore_after_handle_signal. destruct (context_before t) as [[old pushed]|]; [|by split]. destruct (negb pushed || _); simpl; (split; [by split|done]).
Qed.

Lemma procmask_wf how set t : fits 64 set → thread_wf t →
  let t' := (sys_rt_sigprocmask how (Some (Ok set)) None 8 t).2 in thread_wf t' ∧ signals t' = signals t.
Proof using Type*.
  intros Hs [H1 H2]. unfold sys_rt_sigprocmask. destruct (negb _); simpl; [by split|]. split; [|done]. split; simpl; [done|]. unfold apply_how.
  destruct (how =? 0); [by apply Sigset.fits_lor|]. destruct (how =? 1); [|done]. apply Sigset.fits_remove; [done|apply Hs].
Qed.

Lemma exec_ok o sys : op_ok o → system_wf sys → let '(l, sys') := exec o sys in system_wf sys' ∧ explains l sys sys'.
Proof using Type*.
  intros Ho Hw. assert (system_wf sys ∧ explains [] sys sys) as Hsame by (split; [done|apply explains_nil]). destruct o as [me pid signum|me tid signum|me tgid tid signum|pid tid|pid tid f|pid tid how set|pid signum a]; simpl in *.
  - destruct (sys_kill me pid signum sys) as [[r x] sys'] eqn:E. by apply (kill_ok _ _ _ _ _ _ _ Hw E).
  - unfold sys_tkill. destruct (Signal.try_from signum) as [s|] eqn:Hs; [|done]. destruct (send_to me tid s sys) as [[r x] sys'] eqn:E. apply (send_ok s me tid sys r x sys'); [by eapply try_from_valid|done|done].
  - unfold sys_tgkill. destruct (Signal.try_from signum) as [s|] eqn:Hs; [|done]. destruct (sys !! me); [|done]. destruct (sys !! tgid); [|done]. destruct (_ =? _); [|done].
    destruct (send_to tgid tid s sys) as [[r x] sys'] eqn:E. apply (send_ok s tgid tid sys r x sys'); [by eapply try_from_valid|done|done].
  - destruct (sys !! pid) as [p|]; [|done]. destruct (thread_of sys pid tid) as [t|] eqn:Ht; [|done]. destruct (handle_signal _ t) as [[[s f]|] t'] eqn:E; [|done]. by apply (deliver_ok _ _ _ _ _ _ _ _ Hw Ht E).
  - destruct (thread_of sys pid tid) as [t|] eqn:Ht; [|done]. destruct (sigreturn_wf f t Ho (thread_of_wf _ _ _ _ Hw Ht)) as [H1 H2]. by apply (quiet_ok pid tid t).
  - destruct (thread_of sys pid tid) as [t|] eqn:Ht; [|done]. destruct (procmask_wf how set t Ho (thread_of_wf _ _ _ _ Hw Ht)) as [H1 H2]. by apply (quiet_ok pid tid t).
  - destruct (sys !! pid) as [p|] eqn:Hp; [|done].
    assert (threads (sys_rt_sigaction signum (Some (Ok a)) None 8 p).2 = threads p) as Hth by (unfold sys_rt_sigaction; destruct (Signal.try_from signum); [|done]; by destruct (_ || _)).
    split.
    + intros q p' Hq. destruct (decide (q = pid)) as [->|Hne]; [rewrite lookup_insert_eq in Hq; injection Hq as <-; rewrite Hth; by apply (Hw pid)|rewrite lookup_insert_ne in Hq by done; by apply (Hw q)].
    + intros q k. assert (thread_of (<[pid := (sys_rt_sigaction signum (Some (Ok a)) None 8 p).2]> sys) q k = thread_of sys q k) as ->; [|by destruct (thread_of sys q k)].
      unfold thread_of. destruct (decide (q = pid)) as [->|Hne]; [by rewrite lookup_insert_eq, Hp, Hth|by rewrite lookup_insert_ne].
Qed.

Lemma explains_app l l' s1 s2 s3 : explains l s1 s2 → explains l' s2 s3 → explains (l ++ l') s1 s3.
Proof.
  intros H1 H2 pid tid. specialize (H1 pid tid). specialize (H2 pid tid). destruct (thread_of s1 pid tid), (thread_of s2 pid tid), (thread_of s3 pid tid); try done.
  unfold pending in *. by rewrite foldl_app, <-H1.
Qed.

Lemma run_ok os sys : Forall op_ok os → system_wf sys → let '(l, sys') := run os sys in system_wf sys' ∧ explains l sys sys'.
Proof using Type*.
  intros Hos. revert sys. induction Hos as [|o os Ho _ IH]; intros sys Hw; simpl; [split; [done|apply explains_nil]|].
  pose proof (exec_ok o sys Ho Hw) as H1. destruct (exec o sys) as [l sys1]. destruct H1 as [H1 H2]. specialize (IH sys1 H1). destruct (run os sys1) as [l' sys2]. destruct IH as [H3 H4].
  split; [done|]. by apply (explains_app _ _ _ sys1).
Qed.

(** C8. Signals are delivered once: over every history of [kill], [tkill], [tgkill], changes of
    masks and actions, deliveries and returns, the pending signals of a thread are those that have
    been sent to it since their last delivery; and it takes a signal exactly if it runs no
    handler and one is pending that it does not block, namely the least of them, which it then
    no longer has pending. *)
Theorem signals_exact os sys log sys' pid tid t t' : Forall op_ok os → system_wf sys → run os sys = (log, sys') →
  thread_of sys pid tid = Some t → thread_of sys' pid tid = Some t' →
  Sigset.members (signals t') = pending pid tid (Sigset.members (signals t)) log ∧
  match take_signal t' with
  | (Some (s, m), t1) => handling_signal t' = None ∧ Sigset.least s (Sigset.members (signals t') ∖ Sigset.members (signal_mask t')) ∧
      m = signal_mask t' ∧ Sigset.members (signals t1) = Sigset.members (signals t') ∖ {[s]} ∧ handling_signal t1 = Some s
  | (None, t1) => t1 = t' ∧ (is_Some (handling_signal t') ∨ Sigset.members (signals t') ⊆ Sigset.members (signal_mask t'))
  end.
Proof using Type*.
  intros Hos Hw E Ht Ht'. pose proof (run_ok os sys Hos Hw) as H. rewrite E in H. destruct H as [H1 H2]. specialize (H2 pid tid). rewrite Ht, Ht' in H2. split; [done|].
  pose proof (take_signal_spec t' (thread_of_wf _ _ _ _ H1 Ht')) as H3. destruct (take_signal t') as [[[s m]|] t1]; [|done]. naive_solver.
Qed.

End threads.

(** ** Returning from a handler *)
Section sigreturn.
(** As above; [set_ret] is [set_field] of the register that holds the result of a system call. *)
Context {C : Type} (get_pc : C → Z) (set_pc : Z → C → C) (setup : SignalAction → Z → C → C) (set_ret : Z → C → C).

(** [handle_user_trap] for this system call: what the call leaves as the registers of the thread
    gets the result of the call; [sys_rt_sigreturn] returns no error. *)
Definition trap_rt_sigreturn (f : Frame) (t : LinuxThread (C := C)) : result LxError.t unit * LinuxThread :=
  match sys_rt_sigreturn set_pc f t with
  | (Ok v, t) => (Ok tt, mkThread (signals t) (signal_mask t) (signal_alternate_stack t) (handling_signal t) (set_ret v (context t)) (context_before t))
  | (r, t) => (let? _ := r in Ok tt, t)
  end.

(** C38. A handler returns to where the signal came in: if the frame is returned as it was pushed, the system call
    [rt_sigreturn] restores the mask that the thread had when the signal was
    delivered, and its registers with one exception: the register for the results of system calls gets the result of
    [rt_sigreturn], which is 0.  The next signal is let in. *)
Theorem sigreturn_restores (action : Z → SignalAction) t s f t1 t2 : (∀ c, set_pc (get_pc c) c = c) →
  handle_signal get_pc setup action t = (Some (s, f), t1) → contains (aflags (action s)) SIGINFO = true →
  context_before t2 = context_before t1 → signals t2 = signals t1 → signal_alternate_stack t2 = signal_alternate_stack t1 →
  trap_rt_sigreturn f t2 = (Ok tt, mkThread (Sigset.remove s (signals t)) (signal_mask t) (signal_alternate_stack t) None (set_ret 0 (context t)) None).
Proof using Type*.
  intros Hpc. unfold handle_signal, take_signal. destruct (handling_signal t); [done|]. destruct (Sigset.find_first_signal _) as [s1|]; [|done]. simpl. intros [= <- <- <-] Hi Hc Hs Ha. simpl in *.
  unfold trap_rt_sigreturn, sys_rt_sigreturn, restore_after_handle_signal. rewrite Hc, Hi, Hs, Ha. simpl. by rewrite Hpc.
Qed.
End sigreturn.

(** ** Examples
    with registers that are only a program counter. *)
Module SignalDemo.
Definition get_pc (c : Z) : Z := c.
Definition set_pc (pc c : Z) : Z := pc.
Definition setup (a : SignalAction) (s c : Z) : Z := handler a.
Abbreviation run := (run get_pc set_pc setup).
Definition one_thread : LinuxProc := mkProc 7 [(11, create_linux 0x400)] (<[2 := mkAction 0x800 SIGINFO 0 0]> ∅) None.
Definition demo : gmap Z LinuxProc := {[ 1 := one_thread ]}.
Definition history : list op := [Procmask 1 11 0 2; Kill 1 1 15; Tkill 1 11 2; Tgkill 1 1 11 15; Deliver 1 11].
(** SIGTERM has been delivered, SIGINT is blocked. *)
Definition after : LinuxThread := mkThread 2 2 stack_default (Some 15) 0 (Some (0x400, false)).

Lemma demo_wf : system_wf demo.
Proof.
  intros pid p Hp. unfold demo in Hp. apply lookup_singleton_Some in Hp as [<- <-]. split; [apply NoDup_singleton|]. apply Forall_singleton. split; simpl; split; lia.
Qed.
Lemma signals_exact_witness : let log := [Sent 1 11 15; Sent 1 11 2; Sent 1 11 15; Delivered 1 11 15] in let sys := (run history demo).2 in
  (run history demo).1 = log ∧ thread_of sys 1 11 = Some after ∧ Sigset.members (signals after) = pending 1 11 (Sigset.members 0) log.
Proof.
  intros log sys. split; [vm_compute; reflexivity|]. split; [vm_compute; reflexivity|].
  refine (proj1 (signals_exact get_pc set_pc setup history demo log sys 1 11 (create_linux 0x400) after _ demo_wf _ _ _));
    [unfold history; repeat constructor; simpl; lia|vm_compute; reflexivity|vm_compute; reflexivity|vm_compute; reflexivity].
Defined.

(** A thread with SIGINT pending, its handler asking for the frame; its registers are the program counter and the result of
    its last system call. *)
Definition pending_int : LinuxThread := give 2 (create_linux (0x400, 5)).
Definition regs_setup (a : SignalAction) (s : Z) (c : Z * Z) : Z * Z := (handler a, c.2).
Definition regs_ret (v : Z) (c : Z * Z) : Z * Z := (c.1, v).
(** The result of the system call before the signal is lost. *)
Lemma sigreturn_restores_witness : let '(r, t1) := handle_signal fst regs_setup (signal_action one_thread) pending_int in
  r = Some (2, mkFrame 0 0x400 true) ∧ context t1 = (0x800, 5) ∧
  trap_rt_sigreturn (λ pc c, (pc, c.2)) regs_ret (mkFrame 0 0x400 true) t1 = (Ok tt, mkThread 0 0 stack_default None (0x400, 0) None).
Proof.
  split; [reflexivity|]. split; [reflexivity|].
  refine (sigreturn_restores fst (λ pc c, (pc, c.2)) regs_setup regs_ret (signal_action one_thread) pending_int 2 (mkFrame 0 0x400 true)
    (handle_signal fst regs_setup (signal_action one_thread) pending_int).2 (handle_signal fst regs_setup (signal_action one_thread) pending_int).2 _ eq_refl eq_refl eq_refl eq_refl eq_refl).
  by intros [].
Defined.
(** So a handled signal changes what an interrupted program reads from its last system call. *)
Lemma sigreturn_loses_result : ∃ t1, handle_signal fst regs_setup (signal_action one_thread) pending_int = (Some (2, mkFrame 0 0x400 true), t1) ∧
  (context pending_int).2 = 5 ∧ (context (trap_rt_sigreturn (λ pc c, (pc, c.2)) regs_ret (mkFrame 0 0x400 true) t1).2).2 = 0.
Proof. eexists. split; [reflexivity|]. split; reflexivity. Qed.

(** *** Flaws
    A signal that all threads block is not kept for the process. *)
Lemma blocked_signal_lost : let sys := (run [Procmask 1 11 0 2; Kill 1 1 2; Procmask 1 11 1 2] demo).2 in
  thread_of sys 1 11 = Some (create_linux 0x400).
Proof. vm_compute. reflexivity. Qed.
(** [sys_sigaltstack] checks the size of a stack that is being disabled, and not of one that is
    to be used. *)
Lemma sigaltstack_size_inverted t : stack_flags (signal_alternate_stack t) = SignalStackFlags.DISABLE →
  (sys_sigaltstack (C := Z) (Some (Ok (mkStack 0x1000 0 16))) None t).1 = Ok 0 ∧
  (sys_sigaltstack (C := Z) (Some (Ok (mkStack 0 SignalStackFlags.DISABLE 0))) None t).1 = Err LxError.ENOMEM.
Proof. intros H. unfold sys_sigaltstack. simpl. rewrite H. split; reflexivity. Qed.
(** SIGKILL can be blocked like any other signal. *)
Lemma sigkill_blocked : let sys := (run [Procmask 1 11 0 (Signal.as_bit 9); Tkill 1 11 9; Deliver 1 11] demo).2 in
  ∃ t, thread_of sys 1 11 = Some t ∧ handling_signal t = None.
Proof. eexists. vm_compute. split; reflexivity. Qed.
(** A call of [sys_rt_sigreturn] outside a handler panics. *)
Lemma sigreturn_panics f c : (sys_rt_sigreturn set_pc f (create_linux c)).1 = Panic.
Proof. reflexivity. Qed.
End SignalDemo.
