(* ===== verification/LinuxProcess.v ===== *)
(** * Linux: processes

    Forking, exiting and waiting for children in [linux-object/src/process.rs] and the system call
    [wait4] of [linux-syscall/src/task.rs].  A child is reaped exactly once, and one that waits and
    finds nothing is woken by the next exit, except in the window that the code leaves open. *)

From S2P Require Import Prelude Errors LinuxSync.
From stdpp Require Import options strings.
#[local] Open Scope Z_scope.

(** ** Waiting for children *)
Module Wait.
(** What waiting looks at in a process: the children that have not been waited for, whether it
    has exited ([Status::Exited]), and its signals [PROCESS_TERMINATED] and [SIGCHLD]. *)
Record Proc := mkProc { parent : option Z; children : gset Z; status : option Z; terminated : bool; sigchld : bool }.
Definition set_children (c : gset Z) (p : Proc) : Proc := mkProc (parent p) c (status p) (terminated p) (sigchld p).
Definition set_status (c : Z) (p : Proc) : Proc := mkProc (parent p) (children p) (Some (default c (status p))) (terminated p) (sigchld p).
Definition set_terminated (b : bool) (p : Proc) : Proc := mkProc (parent p) (children p) (status p) b (sigchld p).
Definition set_sigchld (b : bool) (p : Proc) : Proc := mkProc (parent p) (children p) (status p) (terminated p) b.

(** Where a call of [wait_child] or [wait_child_any] of the process [caller] is: about to look at
    the children, about to clear the signal, waiting for it, or done with the result of [wait_child].  [wstatus]: the address that
    [sys_wait4] was given for the exit code. *)
Inductive target := One (pid : Z) | Any.
Inductive pc := Check | Clear | Sleep | Done (r : LxResult (Z * Z)).
Record waiter := mkWaiter { caller : Z; what : target; nonblock : bool; wstatus : Z; at_ : pc }.
Definition go (c : pc) (w : waiter) : waiter := mkWaiter (caller w) (what w) (nonblock w) (wstatus w) c.

(** The processes and the calls.  [ended] are the processes that have signalled their end. *)
Record world := mkWorld { procs : gmap Z Proc; waiters : list waiter; ended : gset Z }.
Definition set_proc (pid : Z) (p : Proc) (w : world) : world := mkWorld (<[pid := p]> (procs w)) (waiters w) (ended w).
Definition set_waiter (t : nat) (x : waiter) (w : world) : world := mkWorld (procs w) (<[t := x]> (waiters w)) (ended w).
Definition status_of (pid : Z) (w : world) : option Z := match procs w !! pid with Some p => status p | None => None end.

(** [fork_from], as far as it is about children: the child gets a number that is not in use. *)
Definition fork_from (pid child : Z) (w : world) : option world :=
  match procs w !! pid, procs w !! child with
  | Some p, None => Some (set_proc child (mkProc (Some pid) ∅ None false false) (set_proc pid (set_children ({[child]} ∪ children p) p) w))
  | _, _ => None
  end.
(** The process has exited; later it signals this, and the callback of [fork_from] signals the
    parent. *)
Definition exit (pid code : Z) (w : world) : option world :=
  match procs w !! pid with Some p => Some (set_proc pid (set_status code p) w) | None => None end.
Definition terminate (pid : Z) (w : world) : option world :=
  match procs w !! pid with
  | Some p =>
      match status p with
      | Some _ =>
          let w := set_proc pid (set_terminated true p) (mkWorld (procs w) (waiters w) ({[pid]} ∪ ended w)) in
          Some (match parent p with
                | Some q => match procs w !! q with Some pq => set_proc q (set_sigchld true pq) w | None => w end
                | None => w
                end)
      | None => None
      end
  | None => None
  end.

(** [code as ExitCode]: the code of a process is an [i64], [ExitCode] is [i32]. *)
Definition as_ExitCode (code : Z) : Z := wrap 32 (code + 2 ^ 31) - 2 ^ 31.
Definition reap (t : nat) (x : waiter) (p : Proc) (pid code : Z) (w : world) : world :=
  set_waiter t (go (Done (Ok (pid, as_ExitCode code))) x) (set_proc (caller x) (set_children (children p ∖ {[pid]}) p) w).
(** The body of the loop up to [drop(inner)], under the lock of the caller.  [pick]: the child that
    the iteration over the hash map finds first. *)
Definition check (t : nat) (x : waiter) (pick : Z) (p : Proc) (w : world) : option world :=
  match what x with
  | One pid =>
      if negb (bool_decide (pid ∈ children p)) then Some (set_waiter t (go (Done (Err LxError.ECHILD)) x) w)
      else match status_of pid w with
      | Some code => Some (reap t x p pid code w)
      | None => if nonblock x then Some (set_waiter t (go (Done (Err LxError.EAGAIN)) x) w) else Some (set_waiter t (go Clear x) w)
      end
  | Any =>
      if bool_decide (children p = ∅) then Some (set_waiter t (go (Done (Err LxError.ECHILD)) x) w)
      else if bool_decide (set_Forall (λ c, status_of c w = None) (children p)) then Some (set_waiter t (go Clear x) w)
      else if bool_decide (pick ∈ children p) then
        match status_of pick w with Some code => Some (reap t x p pick code w) | None => None end
      else None
  end.
(** The rest of the loop: [signal_clear], then [wait_signal]. *)
Definition clear (t : nat) (x : waiter) (p : Proc) (w : world) : option world :=
  match what x with
  | One pid =>
      match procs w !! pid with Some c => Some (set_waiter t (go Sleep x) (set_proc pid (set_terminated false c) w)) | None => None end
  | Any => Some (set_waiter t (go Sleep x) (set_proc (caller x) (set_sigchld false p) w))
  end.
Definition signalled (x : waiter) (w : world) : bool :=
  match what x with
  | One pid => match procs w !! pid with Some c => terminated c | None => false end
  | Any => match procs w !! caller x with Some p => sigchld p | None => false end
  end.
Definition step (t : nat) (pick : Z) (w : world) : option world :=
  match waiters w !! t with
  | Some x =>
      match procs w !! caller x with
      | Some p =>
          match at_ x with
          | Check => check t x pick p w
          | Clear => clear t x p w
          | Sleep => if signalled x w then Some (set_waiter t (go Check x) w) else None
          | Done _ => None
          end
      | None => None
      end
  | None => None
  end.
(** A call of [sys_wait4]; a number below -1 is [unimplemented]. *)
Definition wait4 (pid target_pid wstatus : Z) (nohang : bool) (w : world) : option world :=
  let start what := Some (mkWorld (procs w) (waiters w ++ [mkWaiter pid what nohang wstatus Check]) (ended w)) in
  if (target_pid =? -1) || (target_pid =? 0) then start Any
  else if 0 <? target_pid then start (One target_pid)
  else None.
(** [write_if_not_null] of an [i32]: what is written, if the pointer is good. *)
Definition write_if_not_null (addr value : Z) : LxResult (option (Z * Z)) :=
  if addr =? 0 then Ok None else if addr mod 4 =? 0 then Ok (Some (addr, value)) else Err LxError.EFAULT.
(** The end of [sys_wait4]: what the call returns, and what it writes into the memory of the caller. *)
Definition wait4_return (x : waiter) : option (LxResult Z * option (Z * Z)) :=
  match at_ x with
  | Done (Ok (pid, code)) =>
      Some (match write_if_not_null (wstatus x) code with Ok u => (Ok pid, u) | Err e => (Err e, None) | Panic => (Panic, None) end)
  | Done (Err e) => Some (Err e, None)
  | Done Panic => Some (Panic, None)
  | _ => None
  end.

(** ** Interleavings *)
Inductive op := Fork (pid child : Z) | Exit (pid code : Z) | Terminate (pid : Z) | Wait4 (pid target_pid wstatus : Z) (nohang : bool) | Step (t : nat) (pick : Z).
Definition exec (o : op) (w : world) : option world :=
  match o with
  | Fork pid child => fork_from pid child w
  | Exit pid code => exit pid code w
  | Terminate pid => terminate pid w
  | Wait4 pid q u b => wait4 pid q u b w
  | Step t pick => step t pick w
  end.
Fixpoint run (os : list op) (w : world) : option world :=
  match os with [] => Some w | o :: os => match exec o w with Some w => run os w | None => None end end.
Definition init : world := mkWorld {[1 := mkProc None ∅ None false false]} [] ∅.

(** The child that a call has returned. *)
Definition result_of (x : waiter) : option Z := match at_ x with Done (Ok (pid, _)) => Some pid | _ => None end.
Definition family (w : world) (pid p : Z) : Prop := ∃ c, procs w !! pid = Some c ∧ parent c = Some p.

Record inv (w : world) : Prop := {
  i_child pid p P : procs w !! p = Some P → pid ∈ children P → family w pid p ∧ pid ∉ omap result_of (waiters w);
  i_kept pid p : family w pid p → (∃ P, procs w !! p = Some P ∧ pid ∈ children P) ∨ pid ∈ omap result_of (waiters w);
  i_done t x pid code : waiters w !! t = Some x → at_ x = Done (Ok (pid, code)) → family w pid (caller x) ∧ ∃ c, status_of pid w = Some c ∧ code = as_ExitCode c;
  i_once : NoDup (omap result_of (waiters w))
}.

(** What a step does to the processes, the children aside: no parent changes, and an exit code
    stays. *)
Definition grows (w w' : world) : Prop := ∀ pid c, procs w !! pid = Some c → ∃ c', procs w' !! pid = Some c' ∧ parent c' = parent c ∧
  (∀ code, status c = Some code → status c' = Some code).
Definition same_families (w w' : world) : Prop := ∀ pid p, family w' pid p ↔ family w pid p.
Definition same_children (w w' : world) : Prop := ∀ p, children <$> procs w' !! p = children <$> procs w !! p.

Lemma grows_status w w' pid code : grows w w' → status_of pid w = Some code → status_of pid w' = Some code.
Proof. intros H. unfold status_of. destruct (procs w !! pid) as [c|] eqn:E; [|done]. destruct (H pid c E) as (c' & -> & _ & Hs). apply Hs. Qed.
Lemma grows_family w w' pid p : grows w w' → family w pid p → family w' pid p.
Proof. intros H (c & Hc & Hp). destruct (H pid c Hc) as (c' & Hc' & Hp' & _). exists c'. split; [done|congruence]. Qed.

(** Steps that change neither children nor results. *)
Lemma quiet_inv w w' : inv w → grows w w' → same_families w w' → same_children w w' →
  omap result_of (waiters w') = omap result_of (waiters w) →
  (∀ t x pid code, waiters w' !! t = Some x → at_ x = Done (Ok (pid, code)) → ∃ t' x', waiters w !! t' = Some x' ∧ at_ x' = Done (Ok (pid, code)) ∧ caller x' = caller x) → inv w'.
Proof.
  intros [H1 H2 H3 H4] Hg Hf Hc Ho Hd. unfold same_families in Hf. split.
  - intros pid p P HP Hin. rewrite Ho, (Hf pid p). pose proof (Hc p) as E. rewrite HP in E. destruct (procs w !! p) as [P0|] eqn:E0; [|done]. injection E as E. rewrite E in Hin. by apply (H1 pid p P0).
  - intros pid p [(P & HP & Hin)|Hr]%Hf%H2; [|right; by rewrite Ho]. left. pose proof (Hc p) as E. rewrite HP in E. destruct (procs w' !! p) as [P0|] eqn:E0; [|done]. injection E as E. exists P0. split; [done|by rewrite E].
  - intros t x pid code Ht Hx. destruct (Hd t x pid code Ht Hx) as (t' & x' & Ht' & Hx' & <-). destruct (H3 t' x' pid code Ht' Hx') as [Hfam (c & Hst & ->)]. split; [by apply Hf|]. exists c. split; [by apply (grows_status w)|done].
  - by rewrite Ho.
Qed.

Lemma omap_cons_app {A B} (f : A → option B) (x : A) l : omap f (x :: l) = option_list (f x) ++ omap f l.
Proof. simpl. by destruct (f x). Qed.
Lemma omap_insert {A B} (f : A → option B) (l : list A) t x x' : l !! t = Some x →
  ∃ l1 l2, omap f l = l1 ++ option_list (f x) ++ l2 ∧ omap f (<[t := x']> l) = l1 ++ option_list (f x') ++ l2.
Proof.
  intros Hl. exists (omap f (take t l)), (omap f (drop (S t) l)). split.
  - rewrite <-(take_drop_middle l t x Hl) at 1. by rewrite omap_app, omap_cons_app.
  - rewrite insert_take_drop by (by eapply lookup_lt_Some). by rewrite omap_app, omap_cons_app.
Qed.
Lemma omap_insert_same {A B} (f : A → option B) (l : list A) t x x' : l !! t = Some x → f x' = f x → omap f (<[t := x']> l) = omap f l.
Proof. intros Hl Hf. destruct (omap_insert f l t x x' Hl) as (l1 & l2 & -> & ->). by rewrite Hf. Qed.
Lemma omap_insert_new {A B} (f : A → option B) (l : list A) t x x' v : l !! t = Some x → f x = None → f x' = Some v → omap f (<[t := x']> l) ≡ₚ v :: omap f l.
Proof. intros Hl Hx Hx'. destruct (omap_insert f l t x x' Hl) as (l1 & l2 & -> & ->). rewrite Hx, Hx'. simpl. by rewrite Permutation_middle. Qed.

(** A process is replaced by one with the same parent and children, that has not lost its code. *)
Lemma set_proc_quiet pid c c' w : procs w !! pid = Some c → parent c' = parent c → children c' = children c → (∀ code, status c = Some code → status c' = Some code) →
  grows w (set_proc pid c' w) ∧ same_families w (set_proc pid c' w) ∧ same_children w (set_proc pid c' w).
Proof.
  intros Hc Hp Hch Hs. split; [|split].
  - intros q d Hq. simpl. destruct (decide (q = pid)) as [->|Hne]; [rewrite lookup_insert_eq; exists c'; rewrite Hc in Hq; by injection Hq as <-|]. rewrite lookup_insert_ne by done. by exists d.
  - intros q p. unfold family. simpl. destruct (decide (q = pid)) as [->|Hne]; [|by rewrite lookup_insert_ne]. rewrite lookup_insert_eq. split; [intros (d & [= <-] & Hd); exists c; split; [done|congruence]|].
    intros (d & Hd & Hd'). exists c'. split; [done|congruence].
  - intros p. simpl. destruct (decide (p = pid)) as [->|Hne]; [rewrite lookup_insert_eq, Hc; simpl; by rewrite Hch|by rewrite lookup_insert_ne].
Qed.

Lemma quiet_trans w1 w2 w3 : grows w1 w2 ∧ same_families w1 w2 ∧ same_children w1 w2 → grows w2 w3 ∧ same_families w2 w3 ∧ same_children w2 w3 →
  grows w1 w3 ∧ same_families w1 w3 ∧ same_children w1 w3.
Proof.
  intros (A1 & A2 & A3) (B1 & B2 & B3). split; [|split].
  - intros pid c Hc. destruct (A1 pid c Hc) as (c' & Hc' & Hp & Hs). destruct (B1 pid c' Hc') as (c2 & Hc2 & Hp2 & Hs2). exists c2. split; [done|]. split; [congruence|]. intros code Hcode. by apply Hs2, Hs.
  - intros pid p. by rewrite (B2 pid p), (A2 pid p).
  - intros p. by rewrite (B3 p), (A3 p).
Qed.
Lemma quiet_refl ws e w : let w' := mkWorld (procs w) ws e in grows w w' ∧ same_families w w' ∧ same_children w w'.
Proof. split; [|split]; [intros pid c Hc; by exists c|done|done]. Qed.

(** A call that has not returned a child moves on without one. *)
Lemma move_inv w t x c : inv w → waiters w !! t = Some x → result_of x = None → result_of (go c x) = None → inv (set_waiter t (go c x) w).
Proof.
  intros Hw Ht Hx Hc. assert (∀ pid code, c ≠ Done (Ok (pid, code))) as Hn by (intros pid code ->; done).
  apply (quiet_inv w); try done; [intros pid d Hd; by exists d| |].
  - simpl. apply (omap_insert_same result_of _ t x); [done|congruence].
  - intros t' x' pid code. simpl. intros [(<- & <- & _)|[Hne Ht']]%list_lookup_insert_Some Hd; [by apply Hn in Hd|by exists t', x'].
Qed.

Lemma exit_inv pid code w w' : inv w → exit pid code w = Some w' → inv w'.
Proof.
  intros Hw. unfold exit. destruct (procs w !! pid) as [p|] eqn:Hp; [|done]. intros [= <-].
  destruct (set_proc_quiet pid p (set_status code p) w Hp eq_refl eq_refl) as (H1 & H2 & H3); [by intros c; simpl; intros ->|]. apply (quiet_inv w); try done. intros t x q cd Ht Hx. by exists t, x.
Qed.

Lemma terminate_inv pid w w' : inv w → terminate pid w = Some w' → inv w'.
Proof.
  intros Hw. unfold terminate. destruct (procs w !! pid) as [p|] eqn:Hp; [|done]. destruct (status p) as [code|]; [|done]. intros [= <-].
  set (w0 := mkWorld (procs w) (waiters w) ({[pid]} ∪ ended w)). set (w1 := set_proc pid (set_terminated true p) w0).
  assert (grows w w1 ∧ same_families w w1 ∧ same_children w w1) as H1. { apply (quiet_trans _ w0); [apply quiet_refl|]. by apply (set_proc_quiet pid p). }
  assert (∀ w2, procs w2 = procs w1 ∨ (∃ q pq, procs w1 !! q = Some pq ∧ w2 = set_proc q (set_sigchld true pq) w1) → waiters w2 = waiters w → inv w2) as Hgo.
  { intros w2 Hw2 Hws. assert (grows w w2 ∧ same_families w w2 ∧ same_children w w2) as (G1 & G2 & G3).
    { destruct Hw2 as [E|(q & pq & Hq & ->)]; [|apply (quiet_trans _ w1); [done|by apply (set_proc_quiet q pq)]].
      destruct w2 as [ps2 ws2 e2]. simpl in E. subst ps2. apply (quiet_trans _ w1); [done|]. apply quiet_refl. }
    apply (quiet_inv w); try done; [by rewrite Hws|]. intros t x c cd. rewrite Hws. intros. by exists t, x. }
  destruct (parent p) as [q|]; [|by apply Hgo; [left|]]. change (<[pid := set_terminated true p]> (procs w)) with (procs w1). destruct (procs w1 !! q) as [pq|] eqn:Hq; [|by apply Hgo; [left|]]. apply Hgo; [|done]. right. by exists q, pq.
Qed.

Lemma elem_results w pid : pid ∈ omap result_of (waiters w) ↔ ∃ t x code, waiters w !! t = Some x ∧ at_ x = Done (Ok (pid, code)).
Proof.
  rewrite list_elem_of_omap. split.
  - intros (x & Hx & Hr). apply list_elem_of_lookup in Hx as [t Ht]. exists t, x. unfold result_of in Hr. destruct (at_ x) as [| | |[[q code]| |]]; try done. injection Hr as ->. by exists code.
  - intros (t & x & code & Ht & Hx). exists x. split; [by eapply list_elem_of_lookup_2|]. unfold result_of. by rewrite Hx.
Qed.

Lemma fork_inv pid child w w' : inv w → fork_from pid child w = Some w' → inv w'.
Proof.
  intros Hw. pose proof Hw as [H1 H2 H3 H4]. unfold fork_from. destruct (procs w !! pid) as [p|] eqn:Hp; [|done]. destruct (procs w !! child) eqn:Hc; [done|]. intros [= <-].
  assert (child ≠ pid) as Hne by congruence. set (new := mkProc (Some pid) ∅ None false false). set (p' := set_children ({[child]} ∪ children p) p).
  assert (∀ q, <[child := new]> (<[pid := p']> (procs w)) !! q = if decide (q = child) then Some new else if decide (q = pid) then Some p' else procs w !! q) as Hl.
  { intros q. destruct (decide (q = child)) as [->|]; [by rewrite lookup_insert_eq|]. rewrite lookup_insert_ne by done. destruct (decide (q = pid)) as [->|]; [by rewrite lookup_insert_eq|by rewrite lookup_insert_ne]. }
  assert (∀ q r, family (set_proc child new (set_proc pid p' w)) q r ↔ family w q r ∨ q = child ∧ r = pid) as Hf.
  { intros q r. unfold family. simpl. rewrite Hl. destruct (decide (q = child)) as [->|Hq]; [rewrite Hc|destruct (decide (q = pid)) as [->|Hq']; [rewrite Hp|]].
    - split; [intros (c & [= <-] & [= <-]); by right|]. intros [(c & ? & _)|[_ ->]]; [done|]. by exists new.
    - split; [intros (c & [= <-] & Hr); left; by exists p|]. intros [(c & [= <-] & Hr)|[? _]]; [by exists p'|done].
    - split; [by left|]. intros [?|[? _]]; done. }
  assert (child ∉ omap result_of (waiters w)) as Hnr. { intros (t & x & code & Ht & Hx)%elem_results. destruct (H3 t x child code Ht Hx) as [(c & Hc' & _) _]. congruence. }
  split; simpl; try done.
  - intros q r P. rewrite Hl, Hf. destruct (decide (r = child)) as [->|Hr]; [by intros [= <-] ?%elem_of_empty|]. destruct (decide (r = pid)) as [->|Hr']; [|intros HP Hq; destruct (H1 q r P HP Hq); auto].
    intros [= <-]. simpl. intros [->%elem_of_singleton|Hq]%elem_of_union; [auto|]. destruct (H1 q pid p Hp Hq). auto.
  - intros q r [Hfam|[-> ->]]%Hf; [|left; exists p'; rewrite Hl, decide_False, decide_True by done; split; [done|simpl; set_solver]].
    destruct (H2 q r Hfam) as [(P & HP & Hin)|]; [|by right]. left. rewrite Hl. destruct (decide (r = child)) as [->|]; [congruence|]. destruct (decide (r = pid)) as [->|]; [|by exists P].
    exists p'. split; [done|]. simpl. rewrite Hp in HP. injection HP as <-. set_solver.
  - intros t x q code Ht Hx. destruct (H3 t x q code Ht Hx) as [Hfam (c0 & Hst & ->)]. rewrite Hf. split; [by left|]. exists c0. split; [|done]. unfold status_of in *. simpl. rewrite Hl. destruct (decide (q = child)) as [->|]; [by rewrite Hc in Hst|].
    destruct (decide (q = pid)) as [->|]; [by rewrite Hp in Hst|done].
Qed.

Lemma wait4_inv pid q u b w w' : inv w → wait4 pid q u b w = Some w' → inv w'.
Proof.
  intros Hw. unfold wait4. assert (∀ tg, inv (mkWorld (procs w) (waiters w ++ [mkWaiter pid tg b u Check]) (ended w))) as Hgo.
  { intros tg. apply (quiet_inv w); try done; [intros r c Hc; by exists c|simpl; by rewrite omap_app, app_nil_r|].
    intros t x r code. simpl. intros [Ht|[_ [_ <-]%list_lookup_singleton_Some]]%lookup_app_Some Hx; [by exists t, x|done]. }
  destruct (_ || _); [intros [= <-]; apply Hgo|]. destruct (0 <? q); [intros [= <-]; apply Hgo|done].
Qed.

Lemma reap_inv t x p pid code w : inv w → waiters w !! t = Some x → procs w !! caller x = Some p → at_ x = Check → pid ∈ children p → status_of pid w = Some code →
  inv (reap t x p pid code w).
Proof.
  intros Hw Ht Hp Hx Hin Hst. pose proof Hw as [H1 H2 H3 H4]. destruct (H1 pid (caller x) p Hp Hin) as [Hfam Hnr]. unfold reap. set (p' := set_children (children p ∖ {[pid]}) p). set (x' := go (Done (Ok (pid, as_ExitCode code))) x).
  assert (result_of x = None) as Hrx by (unfold result_of; by rewrite Hx). pose proof (omap_insert_new result_of (waiters w) t x x' pid Ht Hrx eq_refl) as Hperm.
  assert (∀ q r, family (set_waiter t x' (set_proc (caller x) p' w)) q r ↔ family w q r) as Hf.
  { intros q r. unfold family. simpl. destruct (decide (q = caller x)) as [->|Hne]; [|by rewrite lookup_insert_ne]. rewrite lookup_insert_eq, Hp. split; intros (c & [= <-] & ?); eauto. }
  assert (∀ q, status_of q (set_waiter t x' (set_proc (caller x) p' w)) = status_of q w) as Hso.
  { intros q. unfold status_of. simpl. destruct (decide (q = caller x)) as [->|Hne]; [by rewrite lookup_insert_eq, Hp|by rewrite lookup_insert_ne]. }
  split.
  - intros q r P. rewrite Hf. simpl. rewrite Hperm. intros HP Hq. assert (q ≠ pid ∧ family w q r ∧ q ∉ omap result_of (waiters w)) as (Hqp & ? & ?); [|split; [done|by apply not_elem_of_cons]].
    destruct (decide (r = caller x)) as [->|Hr]; [rewrite lookup_insert_eq in HP; injection HP as <-; simpl in Hq; apply elem_of_difference in Hq as [Hq Hq']; apply not_elem_of_singleton in Hq'; split; [done|by apply (H1 q _ p)]|].
    rewrite lookup_insert_ne in HP by done. destruct (H1 q r P HP Hq) as [Hfq Hrq]. split; [|done]. intros ->. destruct Hfq as (c & Hc & Hpc), Hfam as (c' & Hc' & Hpc'). congruence.
  - intros q r Hq%Hf. simpl. rewrite Hperm. destruct (H2 q r Hq) as [(P & HP & Hqin)|Hres]; [|right; by right]. destruct (decide (q = pid)) as [->|Hqp]; [right; by left|]. left.
    destruct (decide (r = caller x)) as [->|Hr]; [|exists P; by rewrite lookup_insert_ne]. exists p'. rewrite lookup_insert_eq. split; [done|]. rewrite Hp in HP. injection HP as <-. simpl. set_solver.
  - intros t' y q cd. rewrite Hf, Hso. simpl. intros [(<- & <- & _)|[Hne Ht']]%list_lookup_insert_Some Hy; [injection Hy as <- <-; split; [done|by exists code]|by apply (H3 t' y)].
  - simpl. rewrite Hperm. by constructor.
Qed.

Lemma wait_step_inv t pick w w' : inv w → step t pick w = Some w' → inv w'.
Proof.
  intros Hw. unfold step. destruct (waiters w !! t) as [x|] eqn:Ht; [|done]. destruct (procs w !! caller x) as [p|] eqn:Hp; [|done]. destruct (at_ x) eqn:Hx; [| | |done].
  - assert (∀ c, result_of (go c x) = None → inv (set_waiter t (go c x) w)) as Hmove by (intros c Hc; apply move_inv; [done|done|unfold result_of; by rewrite Hx|done]).
    unfold check. destruct (what x) as [pid|].
    + case_bool_decide as Hin; simpl; [|intros [= <-]; by apply Hmove]. destruct (status_of pid w) as [code|] eqn:Hst; [intros [= <-]; by apply reap_inv|]. destruct (nonblock x); intros [= <-]; by apply Hmove.
    + case_bool_decide; [intros [= <-]; by apply Hmove|]. case_bool_decide; [intros [= <-]; by apply Hmove|]. case_bool_decide as Hin; [|done].
      destruct (status_of pick w) as [code|] eqn:Hst; [|done]. intros [= <-]. by apply reap_inv.
  - assert (∀ q d d', procs w !! q = Some d → parent d' = parent d → children d' = children d → status d' = status d → inv (set_waiter t (go Sleep x) (set_proc q d' w))) as Hgo.
    { intros q d d' Hd H1 H2 H3. destruct (set_proc_quiet q d d' w Hd H1 H2) as (G1 & G2 & G3); [by intros code; rewrite H3|].
      apply (move_inv (set_proc q d' w) t x Sleep); [|done|unfold result_of; by rewrite Hx|done]. apply (quiet_inv w); try done. intros t' y r cd Ht' Hy. by exists t', y. }
    unfold clear. destruct (what x) as [pid|]; [destruct (procs w !! pid) as [c|] eqn:Hc; [|done]|]; intros [= <-]; [by apply (Hgo pid c)|by apply (Hgo (caller x) p)].
  - destruct (signalled x w); [|done]. intros [= <-]. apply move_inv; [done|done|unfold result_of; by rewrite Hx|done].
Qed.

Lemma exec_inv_wait o w w' : inv w → exec o w = Some w' → inv w'.
Proof. destruct o; simpl; [apply fork_inv|apply exit_inv|apply terminate_inv|apply wait4_inv|apply wait_step_inv]. Qed.

Lemma init_inv_wait : inv init.
Proof.
  split; simpl; [..|by apply NoDup_nil].
  - intros pid p P HP Hin. apply lookup_singleton_Some in HP as [<- <-]. set_solver.
  - intros pid p (c & Hc & Hp). unfold init in Hc; cbn [procs] in Hc. apply lookup_singleton_Some in Hc as [<- <-]. done.
  - done.
Qed.

Lemma run_inv_wait os w w' : inv w → run os w = Some w' → inv w'.
Proof.
  revert w. induction os as [|o os IH]; intros w Hw; simpl; [by intros [= <-]|]. destruct (exec o w) as [w1|] eqn:E; [|done]. apply IH. by apply (exec_inv_wait o w).
Qed.

(** The children that a call took from the list, by the calls that returned them and those that did not. *)
Lemma taken_once w t t' x x' pid c c' : NoDup (omap result_of (waiters w)) → waiters w !! t = Some x → at_ x = Done (Ok (pid, c)) → waiters w !! t' = Some x' → at_ x' = Done (Ok (pid, c')) → t = t'.
Proof.
  intros H4 Ht Hx Ht' Hx'. revert t t' Ht Ht'. induction (waiters w) as [|y l IH]; intros t t' Ht Ht'; [done|]. rewrite omap_cons_app in H4. apply NoDup_app in H4 as (_ & H5 & H6).
  assert (∀ z k cc, l !! k = Some z → at_ z = Done (Ok (pid, cc)) → pid ∈ omap result_of l) as Hin.
  { intros z k cc Hk Hz. apply list_elem_of_omap. exists z. split; [by eapply list_elem_of_lookup_2|]. unfold result_of. by rewrite Hz. }
  destruct t as [|t], t' as [|t']; simpl in *; [done| | |f_equal; by apply IH].
  - injection Ht as ->. exfalso. apply (H5 pid); [unfold result_of; rewrite Hx; by left|by apply (Hin x' t' c')].
  - injection Ht' as ->. exfalso. apply (H5 pid); [unfold result_of; rewrite Hx'; by left|by apply (Hin x t c)].
Qed.
Lemma wait4_return_ok x pid u : wait4_return x = Some (Ok pid, u) ↔ ∃ code, at_ x = Done (Ok (pid, code)) ∧ write_if_not_null (wstatus x) code = Ok u.
Proof.
  unfold wait4_return. destruct (at_ x) as [| | |[[q code]| |]]; [naive_solver..| |naive_solver|naive_solver].
  destruct (write_if_not_null (wstatus x) code) as [v| |] eqn:E; split.
  - intros [= -> ->]. by exists code.
  - intros (c & [= <- <-] & Hc). rewrite E in Hc. by injection Hc as <-.
  - done.
  - intros (c & [= <- <-] & Hc). congruence.
  - done.
  - intros (c & [= <- <-] & Hc). congruence.
Qed.

(** C9. Children are waited for once: in every interleaving of forks, exits and calls of [wait4],
    a call that returns a child returns one that its own process has forked and that has exited, and writes to the
    given address the code of its exit, as an [i32]; no two calls return the same child; and a child that has been
    forked is listed by its parent as long as no call has taken it, and once taken it is returned by
    one call of its parent, or is lost to one call of its parent that was given an address that is not aligned and fails with [EFAULT]. *)
Theorem wait_exactly_once os w : run os init = Some w →
  (∀ t x pid u, waiters w !! t = Some x → wait4_return x = Some (Ok pid, u) →
    family w pid (caller x) ∧ ∃ code, status_of pid w = Some code ∧ u = if wstatus x =? 0 then None else Some (wstatus x, as_ExitCode code)) ∧
  (∀ t t' x x' pid u u', waiters w !! t = Some x → wait4_return x = Some (Ok pid, u) → waiters w !! t' = Some x' → wait4_return x' = Some (Ok pid, u') → t = t') ∧
  (∀ pid p P, family w pid p → procs w !! p = Some P →
    if decide (pid ∈ children P) then ∀ t x u, waiters w !! t = Some x → wait4_return x ≠ Some (Ok pid, u)
    else ∃ t x, waiters w !! t = Some x ∧ caller x = p ∧
      ((∃ u, wait4_return x = Some (Ok pid, u)) ∨ wstatus x mod 4 ≠ 0 ∧ wait4_return x = Some (Err LxError.EFAULT, None))).
Proof.
  intros Hr. destruct (run_inv_wait os init w init_inv_wait Hr) as [H1 H2 H3 H4]. split_and!.
  - intros t x pid u Ht (code & Hx & Hu)%wait4_return_ok. destruct (H3 t x pid code Ht Hx) as (Hf & c & Hc & ->). split; [done|]. exists c. split; [done|]. unfold write_if_not_null in Hu.
    destruct (wstatus x =? 0); [by injection Hu as <-|]. destruct (_ =? 0); [by injection Hu as <-|done].
  - intros t t' x x' pid u u' Ht (c & Hx & _)%wait4_return_ok Ht' (c' & Hx' & _)%wait4_return_ok. by apply (taken_once w t t' x x' pid c c').
  - intros pid p P Hf HP. destruct (decide (pid ∈ children P)) as [Hin|Hin].
    + intros t x u Ht (c & Hx & _)%wait4_return_ok. destruct (H1 pid p P HP Hin) as [_ Hn]. apply Hn, elem_results. by exists t, x, c.
    + destruct (H2 pid p Hf) as [(P' & HP' & Hin')|(t & x & code & Ht & Hx)%elem_results]; [rewrite HP in HP'; by injection HP' as <-|]. exists t, x. split; [done|].
      destruct (H3 t x pid code Ht Hx) as [(c0 & Hc0 & Hp0) _]. destruct Hf as (c1 & Hc1 & Hp1). split; [congruence|]. unfold wait4_return, write_if_not_null. rewrite Hx.
      destruct (Z.eqb_spec (wstatus x) 0); [left; by eexists|]. destruct (Z.eqb_spec (wstatus x mod 4) 0); [left; by eexists|by right].
Qed.

Definition family_ops : list op :=
  [Fork 1 2; Fork 1 3; Wait4 1 (-1) 0 false; Wait4 1 3 4096 false; Step 0 0; Step 0 0; Step 1 0; Step 1 0; Exit 3 (2 ^ 32 + 42); Terminate 3; Step 0 0; Step 1 0; Step 1 0; Step 0 0].
Definition family_end : world := match run family_ops init with Some w => w | None => init end.
Lemma wait_exactly_once_witness : (wait4_return <$> waiters family_end) = [None; Some (Ok 3, Some (4096, 42))] ∧ family family_end 3 1.
Proof.
  split; [vm_compute; reflexivity|].
  apply (proj1 (wait_exactly_once family_ops family_end ltac:(vm_compute; reflexivity)) 1%nat (mkWaiter 1 (One 3) false 4096 (Done (Ok (3, 42)))) 3 (Some (4096, 42))); vm_compute; reflexivity.
Defined.
(** The child is lost to a call with a bad address: it is neither listed nor returned, and the next call fails. *)
Lemma wait4_bad_pointer_loses_child : ∃ w, run [Fork 1 2; Exit 2 7; Wait4 1 2 4097 false; Step 0 0; Wait4 1 2 4096 false; Step 1 0] init = Some w ∧
  (wait4_return <$> waiters w) = [Some (Err LxError.EFAULT, None); Some (Err LxError.ECHILD, None)] ∧ status_of 2 w = Some 7.
Proof. eexists. split; [vm_compute; reflexivity|]. split; vm_compute; reflexivity. Qed.

(** *** Wake-ups
    The calls clear the signal after they have looked at the children.  As long as no process
    exits while a call is between the two, nothing is missed. *)
Definition calm (w : world) : Prop := Forall (λ x, at_ x ≠ Clear) (waiters w).
Fixpoint safe (os : list op) (w : world) : Prop :=
  match os with
  | [] => True
  | o :: os => match o with Exit _ _ => calm w | _ => True end ∧ match exec o w with Some w => safe os w | None => True end
  end.
Record awake (w : world) : Prop := {
  a_one t x c : waiters w !! t = Some x → at_ x = Clear → what x = One c → status_of c w = None;
  a_any t x P c : waiters w !! t = Some x → at_ x = Clear → what x = Any → procs w !! caller x = Some P → c ∈ children P → status_of c w = None;
  a_ended c : c ∈ ended w → ∃ C, procs w !! c = Some C ∧ is_Some (status C) ∧ terminated C = true;
  a_chld c p P : c ∈ ended w → procs w !! p = Some P → c ∈ children P → sigchld P = true
}.
Lemma ended_status w c : awake w → c ∈ ended w → status_of c w ≠ None.
Proof. intros Hw (C & HC & [code Hs] & _)%(a_ended w Hw). unfold status_of. by rewrite HC, Hs. Qed.

(** One call moves to a place other than [Clear]. *)
Lemma move_awake w t x c : awake w → c ≠ Clear → waiters w !! t = Some x → awake (set_waiter t (go c x) w).
Proof.
  intros [H2 H3 H4 H5] Hc Ht. split; simpl; try done.
  - intros t' y d [(<- & <- & _)|[_ Hy]]%list_lookup_insert_Some Hat; [by simpl in Hat|by apply (H2 t' y)].
  - intros t' y P d [(<- & <- & _)|[_ Hy]]%list_lookup_insert_Some Hat; [by simpl in Hat|by apply (H3 t' y)].
Qed.

(** A process is replaced by one that has the same code, and signals at least where the others
    rely on it. *)
Lemma replace_awake w q d d' : awake w → procs w !! q = Some d → status d' = status d → children d' ⊆ children d →
  (q ∈ ended w → terminated d' = true) → ((∃ c, c ∈ ended w ∧ c ∈ children d') → sigchld d' = true) → awake (set_proc q d' w).
Proof.
  intros [H2 H3 H4 H5] Hq Hst Hch Ht Hs.
  assert (∀ c, status_of c (set_proc q d' w) = status_of c w) as Hso. { intros c. unfold status_of. simpl. destruct (decide (c = q)) as [->|]; [by rewrite lookup_insert_eq, Hq|by rewrite lookup_insert_ne]. }
  split.
  - intros t x c. rewrite Hso. apply H2.
  - intros t x P c Hx Hat Hwh. rewrite Hso. simpl. destruct (decide (caller x = q)) as [E|Hne]; [|rewrite lookup_insert_ne by done; by apply (H3 t x)].
    rewrite E, lookup_insert_eq. intros [= <-] Hc. apply (H3 t x d c); [done|done|done|by rewrite E|]. set_solver.
  - simpl. intros c Hc. destruct (H4 c Hc) as (C & HC & HsC & HtC). destruct (decide (c = q)) as [->|Hne]; [|exists C; by rewrite lookup_insert_ne]. exists d'. rewrite lookup_insert_eq. rewrite Hq in HC. injection HC as <-.
    split; [done|]. split; [by rewrite Hst|by apply Ht].
  - simpl. intros c p P Hc. destruct (decide (p = q)) as [->|Hne]; [rewrite lookup_insert_eq; intros [= <-] Hin; apply Hs; eauto|]. rewrite lookup_insert_ne by done. by apply H5.
Qed.

Lemma fork_awake pid child w w' : awake w → fork_from pid child w = Some w' → awake w'.
Proof.
  intros [H2 H3 H4 H5] E. unfold fork_from in E. destruct (procs w !! pid) as [p|] eqn:Hp; [|done]. destruct (procs w !! child) eqn:Hc; [done|]. injection E as <-.
  assert (child ≠ pid) as Hne by congruence. assert (child ∉ ended w) as Hce by (intros (C & HC & _)%H4; congruence).
  set (p' := set_children ({[child]} ∪ children p) p) in *. set (new := mkProc (Some pid) ∅ None false false) in *.
  assert (∀ c, status_of c (set_proc child new (set_proc pid p' w)) = status_of c w) as Hso.
  { intros c. unfold status_of. simpl. destruct (decide (c = child)) as [->|]; [by rewrite lookup_insert_eq, Hc|]. rewrite lookup_insert_ne by done. destruct (decide (c = pid)) as [->|]; [by rewrite lookup_insert_eq, Hp|by rewrite lookup_insert_ne]. }
  assert (status_of child w = None) as Hcs by (unfold status_of; by rewrite Hc).
  split; [intros t x c; rewrite Hso; apply H2|..]; simpl.
  - intros t x P c Hx Hat Hwh. rewrite Hso. destruct (decide (caller x = child)) as [E|]; [rewrite E, lookup_insert_eq; by intros [= <-] ?%elem_of_empty|]. rewrite lookup_insert_ne by done.
    destruct (decide (caller x = pid)) as [E|]; [|rewrite lookup_insert_ne by done; by apply (H3 t x)]. rewrite E, lookup_insert_eq. intros [= <-]. simpl. intros [->%elem_of_singleton|Hin]%elem_of_union; [done|]. apply (H3 t x p c); try done. by rewrite E.
  - intros c Hin. destruct (H4 c Hin) as (C & HC & HsC & HtC). assert (c ≠ child) by congruence. rewrite lookup_insert_ne by done. destruct (decide (c = pid)) as [->|]; [rewrite lookup_insert_eq; exists p'; rewrite Hp in HC; by injection HC as <-|]. rewrite lookup_insert_ne by done. by exists C.
  - intros c q P Hin. destruct (decide (q = child)) as [->|]; [rewrite lookup_insert_eq; by intros [= <-] ?%elem_of_empty|]. rewrite lookup_insert_ne by done.
    destruct (decide (q = pid)) as [->|]; [|rewrite lookup_insert_ne by done; by apply H5]. rewrite lookup_insert_eq. intros [= <-]. simpl. intros [->%elem_of_singleton|Hin']%elem_of_union; [done|]. by apply (H5 c pid p).
Qed.

Lemma exit_awake pid code w w' : calm w → awake w → exit pid code w = Some w' → awake w'.
Proof.
  intros Hcalm [H2 H3 H4 H5] E. unfold exit in E. destruct (procs w !! pid) as [p|] eqn:Hp; [|done]. injection E as <-.
  split; simpl.
  - intros t x c Hx Hat. by apply (proj1 (Forall_lookup _ _) Hcalm) in Hx.
  - intros t x P c Hx Hat. by apply (proj1 (Forall_lookup _ _) Hcalm) in Hx.
  - intros c Hin. destruct (H4 c Hin) as (C & HC & [cd HsC] & HtC). destruct (decide (c = pid)) as [->|]; [rewrite lookup_insert_eq; rewrite Hp in HC; injection HC as <-; eexists; split; [done|]; split; [by eexists|done]|].
    rewrite lookup_insert_ne by done. exists C. split; [done|]. split; [by exists cd|done].
  - intros c q P Hin. destruct (decide (q = pid)) as [->|]; [rewrite lookup_insert_eq; intros [= <-]; simpl; by apply (H5 c pid)|]. rewrite lookup_insert_ne by done. by apply H5.
Qed.

(** What [terminate] does to each process. *)
Lemma terminate_lookup pid w w' : terminate pid w = Some w' → ∃ p, procs w !! pid = Some p ∧ is_Some (status p) ∧ waiters w' = waiters w ∧ ended w' = {[pid]} ∪ ended w ∧
  ∀ q, match procs w !! q with
       | Some Q => ∃ Q', procs w' !! q = Some Q' ∧ status Q' = status Q ∧ children Q' = children Q ∧ terminated Q' = (if decide (q = pid) then true else terminated Q) ∧
                     sigchld Q' = (if decide (parent p = Some q) then true else sigchld Q)
       | None => procs w' !! q = None
       end.
Proof.
  unfold terminate. destruct (procs w !! pid) as [p|] eqn:Hp; [|done]. destruct (status p) as [code|] eqn:Hs; [|done]. intros [= <-]. exists p. split; [done|]. split; [by rewrite Hs|].
  set (m := <[pid := set_terminated true p]> (procs w)). simpl. fold m.
  assert (∀ q, match procs w !! q with Some Q => m !! q = Some (if decide (q = pid) then set_terminated true Q else Q) | None => m !! q = None end) as Hm.
  { intros q. unfold m. destruct (decide (q = pid)) as [->|]; [rewrite lookup_insert_eq, Hp; done|rewrite lookup_insert_ne by done; by destruct (procs w !! q)]. }
  assert (∀ q Q, procs w !! q = Some Q → parent p ≠ Some q → ∃ Q', m !! q = Some Q' ∧ status Q' = status Q ∧ children Q' = children Q ∧ terminated Q' = (if decide (q = pid) then true else terminated Q) ∧
                     sigchld Q' = (if decide (parent p = Some q) then true else sigchld Q)) as Hq1.
  { intros q Q HQ Hne. specialize (Hm q). rewrite HQ in Hm. rewrite (decide_False (P := parent p = Some q)) by done. eexists. split; [done|]. by destruct (decide (q = pid)). }
  destruct (parent p) as [r|] eqn:Hr; [|split; [done|]; split; [done|]; intros q; specialize (Hm q); destruct (procs w !! q) as [Q|] eqn:HQ; [by apply Hq1|done]].
  destruct (m !! r) as [pr|] eqn:Hpr.
  - split; [done|]. split; [done|]. intros q. destruct (decide (q = r)) as [->|Hne].
    + specialize (Hm r). destruct (procs w !! r) as [Q|]; [|congruence]. simpl. rewrite lookup_insert_eq. eexists. split; [done|]. rewrite (decide_True (P := Some r = Some r)) by done. rewrite Hpr in Hm. injection Hm as ->. by destruct (decide (r = pid)).
    + specialize (Hm q). simpl. rewrite lookup_insert_ne by done. destruct (procs w !! q) as [Q|] eqn:HQ; [apply Hq1; [done|congruence]|done].
  - split; [done|]. split; [done|]. intros q. specialize (Hm q) as Hmq. destruct (procs w !! q) as [Q|] eqn:HQ; [|done]. apply Hq1; [done|]. intros [= ->]. congruence.
Qed.

Lemma terminate_awake pid w w' : inv w → awake w → terminate pid w = Some w' → awake w'.
Proof.
  intros H1 [H2 H3 H4 H5] E. destruct (terminate_lookup pid w w' E) as (p & Hp & Hs & Hws & He & Hq).
  assert (∀ c, status_of c w' = status_of c w) as Hso. { intros c. unfold status_of. specialize (Hq c). destruct (procs w !! c) as [Q|]; [|by rewrite Hq]. destruct Hq as (Q' & -> & -> & _). done. }
  assert (∀ q Q', procs w' !! q = Some Q' → ∃ Q, procs w !! q = Some Q ∧ children Q' = children Q ∧ sigchld Q' = (if decide (parent p = Some q) then true else sigchld Q)) as Hback.
  { intros q Q' HQ'. specialize (Hq q). destruct (procs w !! q) as [Q|]; [|congruence]. destruct Hq as (Q2 & HQ2 & _ & Hc & _ & Hsg). exists Q. split; [done|]. rewrite HQ' in HQ2. by injection HQ2 as <-. }
  split; [rewrite Hws; intros t x c; rewrite Hso; apply H2|..].
  - rewrite Hws. intros t x P c Hx Hat Hwh HP Hin. rewrite Hso. destruct (Hback _ _ HP) as (Q & HQ & Hc & _). apply (H3 t x Q c); try done. by rewrite <-Hc.
  - rewrite He. intros c [->%elem_of_singleton|Hin]%elem_of_union.
    + specialize (Hq pid). rewrite Hp in Hq. destruct Hq as (Q' & HQ' & Hst & _ & Ht & _). exists Q'. split; [done|]. rewrite Hst, Ht, decide_True by done. done.
    + destruct (H4 c Hin) as (C & HC & HsC & HtC). specialize (Hq c). rewrite HC in Hq. destruct Hq as (Q' & HQ' & Hst & _ & Ht & _). exists Q'. split; [done|]. rewrite Hst, Ht. split; [done|]. by destruct (decide (c = pid)).
  - rewrite He. intros c q P Hin HP Hcin. destruct (Hback _ _ HP) as (Q & HQ & Hc & ->). rewrite Hc in Hcin. destruct (decide (parent p = Some q)) as [|Hne]; [done|].
    apply elem_of_union in Hin as [->%elem_of_singleton|Hin]; [|by apply (H5 c q)]. exfalso. apply Hne. destruct (i_child _ H1 pid q Q HQ Hcin) as [(c & Hc' & Hpc) _]. congruence.
Qed.

Lemma step_awake t pick w w' : awake w → step t pick w = Some w' → awake w'.
Proof.
  intros Hw. pose proof Hw as [H2 H3 H4 H5]. unfold step. destruct (waiters w !! t) as [x|] eqn:Ht; [|done]. destruct (procs w !! caller x) as [p|] eqn:Hp; [|done]. destruct (at_ x) eqn:Hx; [| | |done].
  - assert (∀ c, c ≠ Clear → awake (set_waiter t (go c x) w)) as Hmove by (intros c Hc; by apply move_awake).
    assert (∀ pid code, awake (reap t x p pid code w)) as Hreap.
    { intros pid code. unfold reap. apply move_awake; [|done|done]. apply (replace_awake w (caller x) p); try done; [simpl; set_solver|intros He; destruct (H4 _ He) as (C & HC & _ & Ht'); rewrite Hp in HC; by injection HC as <-|].
      intros (c & Hc & Hc'). simpl in *. apply (H5 c (caller x)); try done. set_solver. }
    assert ((∀ c, what x = One c → status_of c w = None) → (what x = Any → ∀ c, c ∈ children p → status_of c w = None) → awake (set_waiter t (go Clear x) w)) as Hclear.
    { intros G1 G2. split; simpl; try done.
      - intros t' y d [(<- & <- & _)|[_ Hy]]%list_lookup_insert_Some Hat Hwh; [by apply G1|by apply (H2 t' y)].
      - intros t' y P d [(<- & <- & _)|[_ Hy]]%list_lookup_insert_Some Hat Hwh HP Hin; [|by apply (H3 t' y P)]. simpl in HP, Hwh. rewrite Hp in HP. injection HP as <-. by apply G2. }
    unfold check. destruct (what x) as [pid|] eqn:Hwh.
    + case_bool_decide; simpl; [|intros [= <-]; by apply Hmove]. destruct (status_of pid w) as [code|] eqn:Hst; [intros [= <-]; by apply Hreap|]. destruct (nonblock x); intros [= <-]; [by apply Hmove|]. apply Hclear; [by intros c [= <-]|done].
    + case_bool_decide; [intros [= <-]; by apply Hmove|]. case_bool_decide as Hall; [intros [= <-]; apply Hclear; [done|intros _ c Hc; apply (Hall c Hc)]|]. case_bool_decide; [|done].
      destruct (status_of pick w) as [code|]; [|done]. intros [= <-]. apply Hreap.
  - unfold clear. destruct (what x) as [pid|] eqn:Hwh.
    + destruct (procs w !! pid) as [c|] eqn:Hc; [|done]. intros [= <-]. apply move_awake; [|done|done]. apply (replace_awake w pid c); try done; [intros He; destruct (ended_status w pid Hw He); by apply (H2 t x)|].
      intros (d & Hd & Hin). by apply (H5 d pid c).
    + intros [= <-]. apply move_awake; [|done|done]. apply (replace_awake w (caller x) p); try done; [intros He; destruct (H4 _ He) as (C & HC & _ & Ht'); rewrite Hp in HC; by injection HC as <-|].
      intros (d & Hd & Hin). destruct (ended_status w d Hw Hd). by apply (H3 t x p).
  - destruct (signalled x w); [|done]. intros [= <-]. by apply move_awake.
Qed.

Lemma run_awake os w w' : inv w → awake w → safe os w → run os w = Some w' → inv w' ∧ awake w'.
Proof.
  revert w. induction os as [|o os IH]; intros w Hi Hw; simpl; [by intros _ [= <-]|]. intros [Hc Hs]. destruct (exec o w) as [w1|] eqn:E; [|done]. apply IH; [by apply (exec_inv_wait o w)| |done].
  destruct o; simpl in E; [by apply (fork_awake pid child w)|by apply (exit_awake pid code w)|by apply (terminate_awake pid w)| |by apply (step_awake t pick w)].
  unfold wait4 in E. destruct Hw as [H2 H3 H4 H5]. assert (∀ tg, awake (mkWorld (procs w) (waiters w ++ [mkWaiter pid tg nohang wstatus0 Check]) (ended w))) as Hgo.
  { intros tg. split; simpl; try done.
    - intros t x c [Ht|[_ [_ <-]%list_lookup_singleton_Some]]%lookup_app_Some; [by apply (H2 t)|done].
    - intros t x P c [Ht|[_ [_ <-]%list_lookup_singleton_Some]]%lookup_app_Some; [by apply (H3 t)|done]. }
  destruct (_ || _); [by injection E as <-|]. destruct (0 <? target_pid); [by injection E as <-|done].
Qed.

(** C29. A call that waits for a child is woken when the child has ended, provided that no process
    exits while some call is between looking at the children and clearing the signal: it then
    looks again, and its next step returns. *)
Theorem wait_no_lost_wakeup os w t x P c : run os init = Some w → safe os init →
  waiters w !! t = Some x → at_ x = Sleep → procs w !! caller x = Some P → c ∈ children P → c ∈ ended w → (what x = One c ∨ what x = Any) →
  ∃ w1 w2 pick x2 r, step t pick w = Some w1 ∧ step t pick w1 = Some w2 ∧ waiters w2 !! t = Some x2 ∧ at_ x2 = Done (Ok r).
Proof.
  intros Hr Hs Ht Hx HP Hin He Hwh. destruct (run_awake os init w init_inv_wait) as [Hi Hw]; [split; simpl; done|done|done|]. destruct Hw as [H2 H3 H4 H5].
  destruct (H4 c He) as (C & HC & [code Hcode] & Hter). assert (status_of c w = Some code) as Hso by (unfold status_of; by rewrite HC).
  pose proof (H5 c (caller x) P He HP Hin) as Hsig. pose proof (lookup_lt_Some _ _ _ Ht) as Hlt.
  exists (set_waiter t (go Check x) w), (reap t (go Check x) P c code (set_waiter t (go Check x) w)), c, (go (Done (Ok (c, as_ExitCode code))) (go Check x)), (c, as_ExitCode code).
  split; [|split; [|split; [simpl; apply list_lookup_insert_eq; by rewrite length_insert|done]]].
  - unfold step. rewrite Ht, HP, Hx. unfold signalled. destruct Hwh as [-> | ->]; [by rewrite HC, Hter|by rewrite HP, Hsig].
  - unfold step. simpl. rewrite list_lookup_insert_eq by done. simpl. rewrite HP. unfold check. simpl. destruct Hwh as [-> | ->].
    + rewrite bool_decide_true by done. simpl. change (status_of c (set_waiter t (go Check x) w)) with (status_of c w). by rewrite Hso.
    + rewrite bool_decide_false by set_solver. rewrite bool_decide_false; [|intros Hall; specialize (Hall c Hin); simpl in Hall; change (status_of c (set_waiter t (go Check x) w)) with (status_of c w) in Hall; congruence].
      rewrite bool_decide_true by done. change (status_of c (set_waiter t (go Check x) w)) with (status_of c w). by rewrite Hso.
Qed.

Definition wake_ops : list op := [Fork 1 2; Wait4 1 2 0 false; Step 0 0; Step 0 0; Exit 2 7; Terminate 2].
Definition wake_end : world := match run wake_ops init with Some w => w | None => init end.
Lemma wait_no_lost_wakeup_witness : ∃ w1 w2 pick x2 r, step 0 pick wake_end = Some w1 ∧ step 0 pick w1 = Some w2 ∧ waiters w2 !! 0%nat = Some x2 ∧ at_ x2 = Done (Ok r).
Proof.
  refine (wait_no_lost_wakeup wake_ops wake_end 0 (mkWaiter 1 (One 2) false 0 Sleep) (mkProc None {[2]} None false true) 2 _ _ _ _ _ _ _ _);
    [vm_compute; reflexivity|vm_compute; repeat (split; [exact I || (repeat constructor; discriminate)|]); exact I|vm_compute; reflexivity|reflexivity|vm_compute; reflexivity|set_solver| |left; reflexivity].
  apply (bool_decide_eq_true_1 (2 ∈ ended wake_end)). vm_compute. reflexivity.
Defined.

(** A child that exits between the two is missed: the caller sleeps although it could return. *)
Lemma exit_in_window_missed : ∃ w, run [Fork 1 2; Wait4 1 2 0 false; Step 0 0; Exit 2 7; Terminate 2; Step 0 0] init = Some w ∧
  (at_ <$> waiters w) = [Sleep] ∧ status_of 2 w = Some 7 ∧ ∀ pick, step 0 pick w = None.
Proof. eexists. split; [vm_compute; reflexivity|]. split; [reflexivity|]. split; [vm_compute; reflexivity|]. intros pick. vm_compute. reflexivity. Qed.
(** [wait_child_any] ignores [nonblock]. *)
Lemma wait_any_ignores_nohang : ∃ w, run [Fork 1 2; Wait4 1 (-1) 0 true; Step 0 0; Step 0 0] init = Some w ∧ (at_ <$> waiters w) = [Sleep].
Proof. eexists. split; [vm_compute; reflexivity|reflexivity]. Qed.
End Wait.
