(* ===== verification/LinuxPath.v ===== *)
(** * Linux: paths, the working directory and directory entries

    [split_path] of [linux-object/src/fs/mod.rs], the working directory of
    [linux-object/src/process.rs] and the records that [getdents64] writes
    ([linux-syscall/src/file/dir.rs]).  The working directory is kept as a string and split at
    every change; it is shown to behave as a stack of names.  The records of [getdents64] are shown
    to stay within the buffer and to be readable again. *)

From S2P Require Import Prelude Errors LinuxSync.
From stdpp Require Import options.
#[local] Open Scope Z_scope.

(** Strings are the lists of their bytes. *)
Abbreviation bytes := (list Z).
Definition SLASH : Z := 47.
Definition DOT : Z := 46.

(** ** Splitting and joining *)
(** [str::split('/')] *)
Fixpoint split (s : bytes) : list bytes :=
  match s with
  | [] => [[]]
  | c :: s => if c =? SLASH then [] :: split s else match split s with seg :: r => (c :: seg) :: r | [] => [[c]] end
  end.
(** [\[_\]::join("/")] *)
Fixpoint join (l : list bytes) : bytes :=
  match l with
  | [] => []
  | [seg] => seg
  | seg :: l => seg ++ SLASH :: join l
  end.
Fixpoint trim_start (s : bytes) : bytes := match s with c :: s' => if c =? SLASH then trim_start s' else s | [] => [] end.
(** [str::trim_end_matches('/')] *)
Definition trim_end (s : bytes) : bytes := reverse (trim_start (reverse s)).
(** The bytes before the first slash and those after it, if there is one. *)
Fixpoint cut (s : bytes) : bytes * option bytes :=
  match s with
  | [] => ([], None)
  | c :: s => if c =? SLASH then ([], Some s) else let '(a, b) := cut s in (c :: a, b)
  end.
(** [str::rsplit_once('/')] *)
Definition rsplit_once (s : bytes) : option (bytes * bytes) :=
  match cut (reverse s) with (b, Some a) => Some (reverse a, reverse b) | (_, None) => None end.

Definition split_path (path : bytes) : bytes * bytes :=
  let path := trim_end path in
  match rsplit_once path with
  | Some ([], file_name) => ([SLASH], file_name)
  | Some (dir_path, file_name) => (dir_path, file_name)
  | None => ([DOT], path)
  end.

(** ** The working directory *)
(** One turn of the loop of [change_directory]. *)
Definition walk (dir : list bytes) (seg : bytes) : list bytes :=
  if bool_decide (seg = [DOT; DOT]) then take (length dir - 1) dir
  else if bool_decide (seg = [DOT]) || bool_decide (seg = []) then dir
  else dir ++ [seg].
Definition segments (s : bytes) : list bytes := filter (λ x, x ≠ []) (split s).
(** [change_directory]: the new [current_working_directory]. *)
Definition change_directory (path cwd : bytes) : bytes :=
  match path with
  | [] => cwd
  | c :: _ =>
      let cwd := if c =? SLASH then [] else cwd in
      join (foldl walk (segments cwd) (split path))
  end.
Definition current_working_directory (cwd : bytes) : bytes := SLASH :: cwd.
(** [sys_getcwd]: [out] is what writing the string to user memory gives. *)
Definition sys_getcwd (addr len : Z) (out : option UserError.t) (cwd : bytes) : LxResult Z :=
  if len <? zlen (current_working_directory cwd) + 1 then Err LxError.ERANGE
  else match out with Some e => Err (LxError.of_user e) | None => Ok addr end.

(** A name that can be a component of the working directory. *)
Definition name (seg : bytes) : Prop := seg ≠ [] ∧ seg ≠ [DOT] ∧ seg ≠ [DOT; DOT] ∧ SLASH ∉ seg.
Lemma split_no_slash s : Forall (λ seg, SLASH ∉ seg) (split s).
Proof.
  induction s as [|c s IH]; simpl; [repeat constructor; set_solver|]. destruct (Z.eqb_spec c SLASH); [constructor; [set_solver|done]|].
  destruct (split s) as [|seg r]; [constructor; [set_solver|done]|]. apply Forall_cons in IH as [H1 H2]. constructor; [set_solver|done].
Qed.
Lemma split_single seg : SLASH ∉ seg → split seg = [seg].
Proof.
  induction seg as [|c seg IH]; [done|]. intros H. simpl. rewrite IH by set_solver. destruct (Z.eqb_spec c SLASH); [set_solver|done].
Qed.
Lemma split_cons seg s : SLASH ∉ seg → split (seg ++ SLASH :: s) = seg :: split s.
Proof.
  induction seg as [|c seg IH]; intros H; simpl; [done|]. rewrite IH by set_solver. destruct (Z.eqb_spec c SLASH); [set_solver|done].
Qed.

(** Names survive being joined and split again. *)
Lemma segments_join dir : Forall name dir → segments (join dir) = dir.
Proof.
  unfold segments. induction 1 as [|seg dir [H1 [_ [_ H2]]] _ IH]; [done|]. destruct dir as [|seg' dir].
  - simpl. rewrite split_single by done. by rewrite filter_cons_True by done.
  - change (join (seg :: seg' :: dir)) with (seg ++ SLASH :: join (seg' :: dir)). rewrite split_cons by done. by rewrite filter_cons_True, IH by done.
Qed.
Lemma walk_names dir seg : Forall name dir → SLASH ∉ seg → Forall name (walk dir seg).
Proof.
  intros Hd Hs. unfold walk. case_bool_decide; [by apply Forall_take|]. case_bool_decide; simpl; [done|]. case_bool_decide; [done|].
  apply Forall_app. split; [done|]. by apply Forall_singleton.
Qed.
Lemma walk_all_names dir segs : Forall name dir → Forall (λ s, SLASH ∉ s) segs → Forall name (foldl walk dir segs).
Proof. intros Hd Hs. revert dir Hd. induction Hs as [|seg segs H _ IH]; intros dir Hd; [done|]. simpl. apply IH. by apply walk_names. Qed.

(** Walking along names from the root leads to them. *)
Lemma walk_name dir seg : name seg → walk dir seg = dir ++ [seg].
Proof. intros (H1 & H2 & H3 & _). unfold walk. by rewrite !bool_decide_false by done. Qed.
Lemma walk_path dir segs : Forall name segs → foldl walk dir segs = dir ++ segs.
Proof. intros H. revert dir. induction H as [|seg segs Hs _ IH]; intros dir; simpl; [by rewrite app_nil_r|]. by rewrite walk_name, IH, <-app_assoc by done. Qed.
Lemma walk_segments dir segs : foldl walk dir segs = foldl walk dir (filter (λ x, x ≠ []) segs).
Proof.
  revert dir. induction segs as [|seg segs IH]; intros dir; simpl; [done|]. rewrite filter_cons. destruct (decide (seg ≠ [])) as [|Hn]; simpl; [apply IH|].
  apply dec_stable in Hn as ->. rewrite <-IH. done.
Qed.

(** *** Specification: where a path leads
    A directory is the list of the names on the way to it from the root. *)
Definition ends (p : bytes) : Prop := p = [] ∨ ∃ p', p = SLASH :: p'.
Inductive resolves : list bytes → bytes → list bytes → Prop :=
| resolves_end dir : resolves dir [] dir
| resolves_slash dir p r : resolves dir p r → resolves dir (SLASH :: p) r
| resolves_here dir p r : ends p → resolves dir p r → resolves dir (DOT :: p) r
| resolves_up dir n p r : ends p → resolves dir p r → resolves (dir ++ [n]) (DOT :: DOT :: p) r
| resolves_root p r : ends p → resolves [] p r → resolves [] (DOT :: DOT :: p) r
| resolves_name dir n p r : name n → ends p → resolves (dir ++ [n]) p r → resolves dir (n ++ p) r.
(** Changes of directory, one after the other. *)
Inductive leads : list bytes → list bytes → list bytes → Prop :=
| leads_nowhere dir : leads dir [] dir
| leads_absolute dir p ps dir1 dir2 : resolves [] p dir1 → leads dir1 ps dir2 → leads dir ((SLASH :: p) :: ps) dir2
| leads_relative dir p ps dir1 dir2 : head p ≠ Some SLASH → resolves dir p dir1 → leads dir1 ps dir2 → leads dir (p :: ps) dir2.
(** The absolute path of a directory. *)
Definition absolute (dir : list bytes) : bytes := match dir with [] => [SLASH] | _ => mjoin (cons SLASH <$> dir) end.

Lemma walk_up dir n : walk (dir ++ [n]) [DOT; DOT] = dir.
Proof. unfold walk. rewrite bool_decide_true by done. rewrite length_app. simpl. by rewrite Nat.add_sub, take_app_length. Qed.
Lemma walk_split dir n p : SLASH ∉ n → ends p → foldl walk dir (split (n ++ p)) = foldl walk (walk dir n) (split p).
Proof.
  intros Hn [->|[p' ->]]; [by rewrite app_nil_r, split_single|]. by rewrite split_cons.
Qed.
Lemma resolves_walk dir p r : resolves dir p r → r = foldl walk dir (split p).
Proof.
  assert (SLASH ∉ [DOT] ∧ SLASH ∉ [DOT; DOT]) as [H1 H2] by (split; unfold SLASH, DOT; set_solver).
  induction 1 as [dir|dir p r _ IH|dir p r He _ IH|dir n p r He _ IH|p r He _ IH|dir n p r Hn He _ IH]; [done|done|..].
  - change (DOT :: p) with ([DOT] ++ p). by rewrite walk_split.
  - change (DOT :: DOT :: p) with ([DOT; DOT] ++ p). rewrite walk_split by done. by rewrite walk_up.
  - change (DOT :: DOT :: p) with ([DOT; DOT] ++ p). by rewrite walk_split.
  - rewrite walk_split by (done || apply Hn). by rewrite walk_name.
Qed.
(** Every path is a component and what follows. *)
Lemma first_component p : ∃ n p', p = n ++ p' ∧ SLASH ∉ n ∧ ends p'.
Proof.
  induction p as [|c p (n & p' & -> & Hn & He)]; [exists [], []; split; [done|]; split; [set_solver|by left]|]. destruct (decide (c = SLASH)) as [->|Hc].
  - exists [], (SLASH :: n ++ p'). split; [done|]. split; [set_solver|right; by eexists].
  - exists (c :: n), p'. split; [done|]. split; [set_solver|done].
Qed.
Lemma walk_resolves dir p : resolves dir p (foldl walk dir (split p)).
Proof.
  remember (length p) as k eqn:Ek. revert dir p Ek. induction k as [k IH] using lt_wf_ind. intros dir p ->. destruct p as [|c p]; [constructor|].
  destruct (decide (c = SLASH)) as [->|Hc]; [change (split (SLASH :: p)) with ([] :: split p); apply (resolves_slash dir p), (IH (length p) ltac:(simpl; lia) dir p eq_refl)|]. 
  destruct (first_component (c :: p)) as (n & p' & E & Hn & He). destruct n as [|c0 n]; [destruct He as [He|[? He]]; simpl in E; congruence|]. rewrite E. rewrite walk_split by done.
  assert (∀ dir, resolves dir p' (foldl walk dir (split p'))) as Hp. { intros d. apply (IH (length p')); [rewrite E, length_app; simpl; lia|done]. }
  destruct (decide (c0 :: n = [DOT])) as [->|H1]; [by apply resolves_here|]. destruct (decide (c0 :: n = [DOT; DOT])) as [->|H2]; [|apply resolves_name; [done..|]; by rewrite walk_name].
  destruct dir as [|x dir _] using rev_ind; [by apply resolves_root|]. rewrite walk_up. by apply resolves_up.
Qed.

Lemma chdir_resolves path dir : Forall name dir → ∃ dir', Forall name dir' ∧ change_directory path (join dir) = join dir' ∧ (∀ ps r, leads dir (path :: ps) r ↔ leads dir' ps r).
Proof.
  intros Hd. set (dir' := foldl walk (if bool_decide (head path = Some SLASH) then [] else dir) (split path)). exists dir'. split_and!.
  - apply walk_all_names; [by case_bool_decide|apply split_no_slash].
  - unfold dir'. destruct path as [|c path]; [done|]. simpl. destruct (Z.eqb_spec c SLASH) as [->|Hc]; [by rewrite bool_decide_true|].
    rewrite bool_decide_false by congruence. by rewrite segments_join.
  - intros ps r. unfold dir'. split.
    + inversion 1 as [|? p ? dir1 ? H1 H2|? p ? dir1 ? Hh H1 H2]; subst.
      * rewrite bool_decide_true by done. by apply resolves_walk in H1 as ->.
      * rewrite bool_decide_false by done. by apply resolves_walk in H1 as ->.
    + intros H. case_bool_decide as Hh; [|eapply leads_relative; [done|apply walk_resolves|done]]. destruct path as [|c path]; [done|]. injection Hh as ->. eapply leads_absolute; [apply walk_resolves|exact H].
Qed.
Lemma chdir_all paths dir : Forall name dir → ∃ dir', Forall name dir' ∧ foldl (λ c p, change_directory p c) (join dir) paths = join dir' ∧ ∀ r, leads dir paths r ↔ r = dir'.
Proof.
  revert dir. induction paths as [|p ps IH]; intros dir Hd.
  - exists dir. split_and!; [done..|]. intros r. split; [by inversion 1|intros ->; constructor].
  - destruct (chdir_resolves p dir Hd) as (d1 & H1 & E1 & Hl1). destruct (IH d1 H1) as (d2 & H2 & E2 & Hl2). exists d2. split_and!; [done|simpl; by rewrite E1|]. intros r. by rewrite Hl1.
Qed.
Lemma absolute_join dir : current_working_directory (join dir) = absolute dir.
Proof.
  unfold current_working_directory. destruct dir as [|n dir]; [done|]. revert n. induction dir as [|n' dir IH]; intros n; [simpl; by rewrite app_nil_r|].
  change (join (n :: n' :: dir)) with (n ++ SLASH :: join (n' :: dir)). rewrite (IH n'). done.
Qed.

(** C33. The working directory, which is kept as a string, is a stack of names: after any changes
    of directory exactly one list of names is where the paths lead, each from the directory before it or, if it begins with a slash, from the
    root, where empty components and dots stay, two dots go up and stay at the root, and a name goes down; what
    [getcwd] returns is the absolute path of this directory, none of whose names is empty, a dot or two dots; and changing to this path
    changes nothing. *)
Theorem cwd_refines paths : let cwd := foldl (λ c p, change_directory p c) [] paths in
  ∃ dir, (∀ r, leads [] paths r ↔ r = dir) ∧ Forall name dir ∧ current_working_directory cwd = absolute dir ∧
    change_directory (current_working_directory cwd) cwd = cwd.
Proof.
  intros cwd. destruct (chdir_all paths [] ltac:(done)) as (dir & Hn & Hc & Hl). change (foldl _ (join []) paths) with cwd in Hc. exists dir. split; [done|]. split; [done|]. rewrite Hc.
  split; [apply absolute_join|]. unfold current_working_directory, change_directory. rewrite Z.eqb_refl. simpl. f_equal.
  rewrite walk_segments. change (filter _ (split (join dir))) with (segments (join dir)). rewrite segments_join by done. by rewrite walk_path.
Qed.

(** ** Directory entries *)
(** The [LinuxDirent64] of an entry with its name, and what fills it up to a multiple of 8. *)
Definition le (n : nat) (x : Z) : bytes := (λ i, Z.land (Z.shiftr x (8 * Z.of_nat i)) 255) <$> seq 0 n.
Definition DIRENT_SIZE : Z := 19.
Record DirentBufWriter := mkWriter { buf : bytes; rest_size : Z; written_size : Z }.
Definition writer_new (b : bytes) : DirentBufWriter := mkWriter b (zlen b) 0.
Definition reclen (name : bytes) : Z := (DIRENT_SIZE + zlen name + 1 + 7) `div` 8 * 8.
(** Writing bytes to memory from an index on. *)
Definition poke (i : Z) (data b : bytes) : bytes := take (Z.to_nat i) b ++ data ++ drop (Z.to_nat i + length data) b.
Definition try_write (inode type_ : Z) (name : bytes) (w : DirentBufWriter) : bool * DirentBufWriter :=
  let len := reclen name in
  if rest_size w <? len then (false, w)
  else
    let dent := le 8 inode ++ le 8 0 ++ le 2 (wrap 16 len) ++ [type_] in
    (true, mkWriter (poke (written_size w) (dent ++ name ++ [0]) (buf w)) (rest_size w - len) (written_size w + len)).
Definition as_slice (w : DirentBufWriter) : bytes := take (Z.to_nat (written_size w)) (buf w).

(** What a writer has written: records one after the other, with zeros behind them. *)
Definition record (type_ : Z) (name : bytes) : bytes :=
  le 8 0 ++ le 8 0 ++ le 2 (wrap 16 (reclen name)) ++ [type_] ++ name ++ replicate (Z.to_nat (reclen name) - 19 - length name) 0.
Record filled (type_ : Z) (names : list bytes) (w : DirentBufWriter) : Prop := {
  w_bounds : 0 ≤ rest_size w ∧ 0 ≤ written_size w ∧ written_size w + rest_size w = zlen (buf w);
  w_bytes : buf w = mjoin (record type_ <$> names) ++ replicate (Z.to_nat (rest_size w)) 0
}.

Lemma reclen_bounds name : DIRENT_SIZE + zlen name + 1 ≤ reclen name < DIRENT_SIZE + zlen name + 9 ∧ reclen name mod 8 = 0.
Proof. unfold reclen. set (x := DIRENT_SIZE + zlen name + 1 + 7). pose proof (Z.div_mod x 8 ltac:(lia)). pose proof (Z.mod_pos_bound x 8 ltac:(lia)). split; [unfold x in *; lia|]. apply Z.mod_mul. lia. Qed.
Lemma le_length n x : length (le n x) = n.
Proof. unfold le. by rewrite length_fmap, length_seq. Qed.
Lemma record_length type_ name : zlen (record type_ name) = reclen name.
Proof.
  pose proof (reclen_bounds name) as [H _]. unfold DIRENT_SIZE, zlen in H. unfold record, zlen. rewrite !length_app, !le_length, length_replicate. simpl. lia.
Qed.

Lemma try_write_spec type_ name names w : filled type_ names w →
  let '(ok, w') := try_write 0 type_ name w in
  if ok then filled type_ (names ++ [name]) w' ∧ rest_size w' = rest_size w - reclen name ∧ zlen (buf w') = zlen (buf w) else w' = w ∧ rest_size w < reclen name.
Proof.
  intros [[H1 [H2 H3]] Hb]. unfold try_write. destruct (Z.ltb_spec (rest_size w) (reclen name)) as [Hlt|Hge]; [done|].
  pose proof (reclen_bounds name) as [Hr _]. unfold DIRENT_SIZE, zlen in Hr. set (pre := mjoin (record type_ <$> names)) in *.
  assert (Z.to_nat (written_size w) = length pre) as Hw.
  { rewrite Hb in H3. unfold zlen in H3. rewrite length_app, length_replicate in H3. lia. }
  assert (poke (written_size w) ((le 8 0 ++ le 8 0 ++ le 2 (wrap 16 (reclen name)) ++ [type_]) ++ name ++ [0]) (buf w) =
          pre ++ record type_ name ++ replicate (Z.to_nat (rest_size w - reclen name)) 0) as Hp.
  { unfold poke. rewrite Hw, Hb. rewrite take_app_length. f_equal. rewrite drop_app_add. unfold record. rewrite <-!app_assoc. do 5 f_equal.
    rewrite drop_replicate, !length_app, !le_length. simpl. change 0%Z with 0. rewrite <-replicate_add. change (0 :: replicate ?n 0) with (replicate (S n) 0). f_equal. lia. }
  assert (zlen (poke (written_size w) ((le 8 0 ++ le 8 0 ++ le 2 (wrap 16 (reclen name)) ++ [type_]) ++ name ++ [0]) (buf w)) = zlen (buf w)) as Hz.
  { rewrite Hp, Hb. unfold zlen. rewrite !length_app, !length_replicate. pose proof (record_length type_ name) as Hl. unfold zlen in Hl. lia. }
  split; [|split; [done|exact Hz]]. split; cbn [buf rest_size written_size].
  - rewrite Hp. split; [lia|]. split; [lia|]. unfold zlen. rewrite !length_app, length_replicate. pose proof (record_length type_ name) as Hl. unfold zlen in Hl. lia.
  - rewrite Hp. rewrite fmap_app, join_app. cbn [fmap list_fmap mjoin list_join]. fold pre. by rewrite app_nil_r, <-app_assoc.
Qed.

(** Reading the records, as the caller does: the name ends at the first zero byte, the next
    record begins [d_reclen] bytes on. *)
Fixpoint until_nul (s : bytes) : bytes := match s with [] => [] | c :: s => if c =? 0 then [] else c :: until_nul s end.
Definition byte_at (b : bytes) (i : nat) : Z := default 0 (b !! i).
Fixpoint read_dirents (fuel : nat) (b : bytes) : list bytes :=
  match fuel, b with
  | S fuel, _ :: _ => until_nul (drop 19 b) :: read_dirents fuel (drop (Z.to_nat (byte_at b 16 + 256 * byte_at b 17)) b)
  | _, _ => []
  end.
(** A name that fits into a record. *)
Definition entry_name (s : bytes) : Prop := 0 ∉ s ∧ zlen s < 65000.

Lemma until_nul_app s r : 0 ∉ s → until_nul (s ++ 0 :: r) = s.
Proof. induction s as [|c s IH]; intros H; [done|]. simpl. destruct (Z.eqb_spec c 0); [set_solver|]. rewrite IH; [done|set_solver]. Qed.
Lemma record_read type_ name r : entry_name name →
  until_nul (drop 19 (record type_ name ++ r)) = name ∧ byte_at (record type_ name ++ r) 16 + 256 * byte_at (record type_ name ++ r) 17 = reclen name.
Proof.
  intros [Hn Hl]. pose proof (reclen_bounds name) as [Hr _]. unfold DIRENT_SIZE, zlen in *. split.
  - change (drop 19 (record type_ name ++ r)) with ((name ++ replicate (Z.to_nat (reclen name) - 19 - length name) 0) ++ r).
    destruct (Z.to_nat (reclen name) - 19 - length name)%nat eqn:E; [lia|]. simpl. rewrite <-app_assoc. by apply until_nul_app.
  - change (byte_at (record type_ name ++ r) 16) with (Z.land (Z.shiftr (wrap 16 (reclen name)) 0) 255).
    change (byte_at (record type_ name ++ r) 17) with (Z.land (Z.shiftr (wrap 16 (reclen name)) 8) 255).
    unfold wrap. rewrite (Z.mod_small (reclen name)) by lia. rewrite Z.shiftr_0_r, Z.shiftr_div_pow2 by lia. change 255 with (Z.ones 8). rewrite !Z.land_ones by lia. change (2 ^ 8) with 256.
    rewrite (Z.mod_small (reclen name `div` 256)) by (split; [apply Z.div_pos; lia|apply Z.div_lt_upper_bound; lia]). pose proof (Z.div_mod (reclen name) 256 ltac:(lia)). lia.
Qed.

Lemma read_records type_ names fuel : Forall entry_name names → (length names ≤ fuel)%nat → read_dirents fuel (mjoin (record type_ <$> names)) = names.
Proof.
  intros H. revert fuel. induction H as [|name names Hn _ IH]; intros fuel Hf; [by destruct fuel|]. destruct fuel as [|fuel]; [simpl in Hf; lia|].
  cbn [fmap list_fmap mjoin list_join]. destruct (record_read type_ name (mjoin (record type_ <$> names)) Hn) as [E1 E2].
  change (until_nul (drop 19 (record type_ name ++ mjoin (record type_ <$> names))) ::
     read_dirents fuel (drop (Z.to_nat (byte_at (record type_ name ++ mjoin (record type_ <$> names)) 16 + 256 * byte_at (record type_ name ++ mjoin (record type_ <$> names)) 17))
       (record type_ name ++ mjoin (record type_ <$> names))) = name :: names).
  rewrite E1, E2, <-(record_length type_ name). unfold zlen. rewrite Nat2Z.id, drop_app_length. f_equal. apply IH. simpl in Hf. lia.
Qed.
