(* ===== verification/LinuxFiles.v ===== *)
(** * Linux: open files

    The files of [linux-object/src/fs/file.rs], the table of open files of
    [linux-object/src/process.rs] and the system calls on them in
    [linux-syscall/src/file/{fd,file,dir}.rs], with the pipes of [LinuxSync].  A file is an object
    that descriptors of several processes may refer to; the file system behind it, a crate of its
    own, is the interface [Vfs].

    Sockets, the other kind of object that a descriptor may refer to, are left out. *)

From Stdlib Require Import String Ascii.
From S2P Require Import Prelude Errors LinuxSync LinuxPath VmObject Stream.
From stdpp Require Import list options.
#[local] Open Scope Z_scope.

Definition of_string (s : string) : bytes := (λ c, Z.of_N (N_of_ascii c)) <$> list_ascii_of_string s.

(** ** The file system *)
Module FsError.
Inductive t := NotSupported | NotFile | IsDir | NotDir | EntryNotFound | EntryExist | NotSameFs | InvalidParam | NoDeviceSpace | DirRemoved
| DirNotEmpty | WrongFs | DeviceError | IOCTLError | NoDevice | Again | SymLoop | Busy | Interrupted.
(** [impl From<FsError> for LxError] *)
Definition to_lx (e : t) : LxError.t :=
  match e with
  | NotSupported => LxError.ENOSYS | NotFile => LxError.EISDIR | IsDir => LxError.EISDIR | NotDir => LxError.ENOTDIR
  | EntryNotFound => LxError.ENOENT | EntryExist => LxError.EEXIST | NotSameFs => LxError.EXDEV | InvalidParam => LxError.EINVAL
  | NoDeviceSpace => LxError.ENOMEM | DirRemoved => LxError.ENOENT | DirNotEmpty => LxError.ENOTEMPTY | WrongFs => LxError.EINVAL
  | DeviceError => LxError.EIO | IOCTLError => LxError.EINVAL | NoDevice => LxError.EINVAL | Again => LxError.EAGAIN
  | SymLoop => LxError.ELOOP | Busy => LxError.EBUSY | Interrupted => LxError.EINTR
  end.
End FsError.
Abbreviation FsResult A := (result FsError.t A).
Definition lx {A} (r : FsResult A) : LxResult A := match r with Ok a => Ok a | Err e => Err (FsError.to_lx e) | Panic => Panic end.

Inductive FileType := TFile | TDir | TSymLink | TCharDevice | TBlockDevice | TNamedPipe | TSocket.
#[global] Instance FileType_eq_dec : EqDecision FileType.
Proof. solve_decision. Defined.
(** [impl From<FileType> for DirentType] *)
Definition dirent_type (t : FileType) : Z :=
  match t with TFile => 8 | TDir => 4 | TSymLink => 10 | TCharDevice => 2 | TBlockDevice => 6 | TSocket => 12 | TNamedPipe => 1 end.

(** What a file can stand for: a node of the file system, the fixed content of a [Pseudo], or an
    end of a pipe. *)
Inductive inode (node : Type) := VNode (n : node) | Pseudo (content : bytes) | PipeNode (k : nat) (d : Pipe.PipeEnd).
Arguments VNode {node} n. Arguments Pseudo {node} content. Arguments PipeNode {node} k d.
#[global] Instance inode_eq_dec {node} `{EqDecision node} : EqDecision (inode node).
Proof. solve_decision. Defined.

(** The crate [rcore-fs]: reading into a buffer of a length, writing, size and type of a node,
    resizing, the lookups, creation of a file, the name of an entry of a directory; and the error
    of the methods that a kind of node does not implement. *)
Class Vfs (FS node : Type) := {
  vread : FS → node → Z → Z → FsResult bytes * FS;
  vwrite : FS → node → Z → bytes → FsResult Z * FS;
  vmetadata : FS → node → FsResult (Z * FileType);
  vresize : FS → node → Z → FsResult unit * FS;
  vlookup : FS → bytes → FsResult node;
  vlookup_follow : FS → inode node → bytes → Z → FsResult node;
  vfind : FS → inode node → bytes → FsResult node;
  vcreate : FS → inode node → bytes → Z → FsResult node * FS;
  ventry : FS → node → Z → FsResult bytes;
  vdefault : FsError.t
}.

Module OpenFlags.
Definition RDONLY : Z := 0.
Definition WRONLY : Z := 1.
Definition RDWR : Z := 2.
Definition CREATE := bit 6.
Definition EXCLUSIVE := bit 7.
Definition TRUNCATE := bit 9.
Definition APPEND := bit 10.
Definition NON_BLOCK := bit 11.
Definition CLOEXEC := bit 19.
(** All declared bits. *)
Definition all : Z := 0x80ec3.
Definition readable (f : Z) : bool := let b := Z.land f 3 in (b =? RDONLY) || (b =? RDWR).
Definition writable (f : Z) : bool := let b := Z.land f 3 in (b =? WRONLY) || (b =? RDWR).
Definition is_append (f : Z) : bool := contains f APPEND.
Definition non_block (f : Z) : bool := contains f NON_BLOCK.
Definition close_on_exec (f : Z) : bool := contains f CLOEXEC.
Definition set (x : Z) (b : bool) (f : Z) : Z := if b then flag_insert f x else flag_remove f x.
End OpenFlags.

(** A call that may have to wait: reading again is left to a later step. *)
Inductive outcome (A : Type) := Done (r : LxResult A) | Waits.
Arguments Done {A} r. Arguments Waits {A}.

Section files.
Context {FS node : Type} `{EqDecision node} `{Vfs FS node}.

(** ** Files *)
(** [File] and its [FileInner]. *)
Record File := mkFile { path : bytes; offset : Z; flags : Z; inode_of : inode node }.
Definition set_offset (o : Z) (f : File) : File := mkFile (path f) o (flags f) (inode_of f).
(** [FileLike::set_flags] *)
Definition set_flags (x : Z) (f : File) : File :=
  let fl := OpenFlags.set OpenFlags.APPEND (contains x OpenFlags.APPEND) (flags f) in
  let fl := OpenFlags.set OpenFlags.NON_BLOCK (contains x OpenFlags.NON_BLOCK) fl in
  let fl := OpenFlags.set OpenFlags.CLOEXEC (contains x OpenFlags.CLOEXEC) fl in
  mkFile (path f) (offset f) fl (inode_of f).
Definition file_new (i : inode node) (fl : Z) (p : bytes) : File := mkFile p 0 fl i.

Record RLimit := mkLimit { cur : Z; max : Z }.
Definition limit_default : RLimit := mkLimit 1024 1024.
(** The part of [LinuxProcessInner] that is about files: [table] refers to files by number. *)
Record LinuxProcess := mkProcess { execute_path : bytes; cwd : bytes; file_limit : RLimit; table : gmap Z nat }.
Definition set_table (t : gmap Z nat) (p : LinuxProcess) : LinuxProcess := mkProcess (execute_path p) (cwd p) (file_limit p) t.

(** The file system, the pipes, the files and the processes by their numbers. *)
Record world := mkWorld { fs : FS; pipes : list Pipe.PipeData; files : list File; procs : gmap Z LinuxProcess }.
Definition set_fs (x : FS) (w : world) : world := mkWorld x (pipes w) (files w) (procs w).
Definition set_pipes (x : list Pipe.PipeData) (w : world) : world := mkWorld (fs w) x (files w) (procs w).
Definition set_files (x : list File) (w : world) : world := mkWorld (fs w) (pipes w) x (procs w).
Definition set_procs (x : gmap Z LinuxProcess) (w : world) : world := mkWorld (fs w) (pipes w) (files w) x.
Definition set_file (id : nat) (f : File) (w : world) : world := set_files (<[id := f]> (files w)) w.
Definition set_process (pid : Z) (p : LinuxProcess) (w : world) : world := set_procs (<[pid := p]> (procs w)) w.

(** *** Nodes *)
Definition of_pipe {A} (r : result Pipe.FsError A) : FsResult A := match r with Ok a => Ok a | Err Pipe.Again => Err FsError.Again | Panic => Panic end.
Definition inode_read_at (i : inode node) (off n : Z) (w : world) : FsResult bytes * world :=
  match i with
  | VNode v => let '(r, x) := vread (fs w) v off n in (r, set_fs x w)
  | Pseudo c => (Ok (if zlen c <=? off then [] else ztake (Z.min (zlen c - off) n) (zdrop off c)), w)
  | PipeNode k d =>
      match pipes w !! k with
      | Some p => let '(r, _, p) := Pipe.read_at d (Z.to_nat n) p in (of_pipe r, set_pipes (<[k := p]> (pipes w)) w)
      | None => (Panic, w)
      end
  end.
Definition inode_write_at (i : inode node) (off : Z) (data : bytes) (w : world) : FsResult Z * world :=
  match i with
  | VNode v => let '(r, x) := vwrite (fs w) v off data in (r, set_fs x w)
  | Pseudo _ => (Err FsError.NotSupported, w)
  | PipeNode k d =>
      match pipes w !! k with
      | Some p => let '(r, _, p) := Pipe.write_at d data p in (of_pipe r, set_pipes (<[k := p]> (pipes w)) w)
      | None => (Panic, w)
      end
  end.
(** Size and type. *)
Definition inode_metadata (i : inode node) (w : world) : FsResult (Z * FileType) :=
  match i with VNode v => vmetadata (fs w) v | Pseudo c => Ok (zlen c, TSymLink) | PipeNode _ _ => Err vdefault end.
Definition inode_resize (i : inode node) (len : Z) (w : world) : FsResult unit * world :=
  match i with VNode v => let '(r, x) := vresize (fs w) v len in (r, set_fs x w) | _ => (Err vdefault, w) end.
Definition inode_entry (i : inode node) (k : Z) (w : world) : FsResult bytes :=
  match i with VNode v => ventry (fs w) v k | _ => Err vdefault end.

(** *** Reading and writing, by the number of the file *)
Definition file_read_at (id : nat) (off n : Z) (w : world) : outcome bytes * world :=
  match files w !! id with
  | Some f =>
      if negb (OpenFlags.readable (flags f)) then (Done (Err LxError.EBADF), w)
      else
        let '(r, w) := inode_read_at (inode_of f) off n w in
        if negb (OpenFlags.non_block (flags f)) then
          match r with
          | Err FsError.Again => (Waits, w)
          | r => (Done (lx r), w)
          end
        else (Done (lx r), w)
  | None => (Done Panic, w)
  end.
Definition file_read (id : nat) (n : Z) (w : world) : outcome bytes * world :=
  match files w !! id with
  | Some f =>
      match file_read_at id (offset f) n w with
      | (Done (Ok l), w) => (Done (Ok l), set_file id (set_offset (offset f +u zlen l) f) w)
      | r => r
      end
  | None => (Done Panic, w)
  end.
Definition file_write_at (id : nat) (off : Z) (data : bytes) (w : world) : LxResult Z * world :=
  match files w !! id with
  | Some f =>
      if negb (OpenFlags.writable (flags f)) then (Err LxError.EBADF, w)
      else let '(r, w) := inode_write_at (inode_of f) off data w in (lx r, w)
  | None => (Panic, w)
  end.
Definition file_write (id : nat) (data : bytes) (w : world) : LxResult Z * world :=
  match files w !! id with
  | Some f =>
      match (if OpenFlags.is_append (flags f) then let? (size, _) := lx (inode_metadata (inode_of f) w) in Ok size else Ok (offset f)) with
      | Ok off =>
          match file_write_at id off data w with
          | (Ok len, w) => (Ok len, set_file id (set_offset (off +u len) f) w)
          | r => r
          end
      | Err e => (Err e, w)
      | Panic => (Panic, w)
      end
  | None => (Panic, w)
  end.
Inductive SeekFrom := Start (o : Z) | End_ (o : Z) | Current (o : Z).
Definition file_seek (id : nat) (pos : SeekFrom) (w : world) : LxResult Z * world :=
  match files w !! id with
  | Some f =>
      match (match pos with
             | Start o => Ok o
             | End_ o => let? (size, _) := lx (inode_metadata (inode_of f) w) in Ok (wrap 64 (size + o))
             | Current o => Ok (wrap 64 (offset f + o))
             end) with
      | Ok o => (Ok o, set_file id (set_offset o f) w)
      | Err e => (Err e, w)
      | Panic => (Panic, w)
      end
  | None => (Panic, w)
  end.
Definition file_set_len (id : nat) (len : Z) (w : world) : LxResult unit * world :=
  match files w !! id with
  | Some f =>
      if negb (OpenFlags.writable (flags f)) then (Err LxError.EBADF, w)
      else let '(r, w) := inode_resize (inode_of f) len w in (lx r, w)
  | None => (Panic, w)
  end.
Definition file_read_entry (id : nat) (w : world) : LxResult bytes * world :=
  match files w !! id with
  | Some f =>
      if negb (OpenFlags.readable (flags f)) then (Err LxError.EBADF, w)
      else match lx (inode_entry (inode_of f) (offset f) w) with
      | Ok s => (Ok s, set_file id (set_offset (offset f +u 1) f) w)
      | Err e => (Err e, w)
      | Panic => (Panic, w)
      end
  | None => (Panic, w)
  end.

(** ** The table of open files *)
(** [FileDesc::from(usize)] *)
Definition fd_of (x : Z) : Z := let y := wrap 32 x in if y <? 2 ^ 31 then y else y - 2 ^ 32.
Definition CWD : Z := -100.
(** [(start..).map(into).find(not in the table)]; among as many numbers as there are entries and
    one more, one is free. *)
Fixpoint find_fd (fuel : nat) (i : Z) (t : gmap Z nat) : Z :=
  match fuel with
  | O => fd_of i
  | S fuel => if bool_decide (is_Some (t !! fd_of i)) then find_fd fuel (i + 1) t else fd_of i
  end.
Definition get_free_fd_from (start : Z) (t : gmap Z nat) : Z := find_fd (size t) start t.

(** The files that some process has open, and whether an end of a pipe belongs to one. *)
Definition open_files (w : world) : list nat := mjoin ((λ x, (map_to_list (table x.2)).*2) <$> map_to_list (procs w)).
Definition holds (w : world) (k : nat) (d : Pipe.PipeEnd) : bool :=
  existsb (λ id, match files w !! id with Some f => bool_decide (inode_of f = PipeNode k d) | None => false end) (open_files w).
(** References to files have gone: the ends of pipes that have lost the last one are dropped. *)
Definition drop_end_if (b : bool) (p : Pipe.PipeData) : Pipe.PipeData := if b then (Pipe.drop_end p).2 else p.
Definition settle (w w' : world) : world :=
  set_pipes (imap (λ k p, drop_end_if (holds w k Pipe.WriteEnd && negb (holds w' k Pipe.WriteEnd)) (drop_end_if (holds w k Pipe.ReadEnd && negb (holds w' k Pipe.ReadEnd)) p)) (pipes w')) w'.
Definition drop_pipe_end (k : nat) (w : world) : world :=
  match pipes w !! k with Some p => set_pipes (<[k := (Pipe.drop_end p).2]> (pipes w)) w | None => w end.

(** [insert_file], at a number that is not in use. *)
Definition insert_file (pid fd : Z) (f : File) (w : world) : LxResult Z * world :=
  match procs w !! pid with
  | Some p =>
      if Z.of_nat (size (table p)) <? cur (file_limit p)
      then (Ok fd, set_process pid (set_table (<[fd := length (files w)]> (table p)) p) (set_files (files w ++ [f]) w))
      else (Err LxError.EMFILE, w)
  | None => (Panic, w)
  end.
Definition add_file (pid : Z) (f : File) (w : world) : LxResult Z * world :=
  match procs w !! pid with Some p => insert_file pid (get_free_fd_from 0 (table p)) f w | None => (Panic, w) end.
Definition add_file_at (pid fd : Z) (f : File) (w : world) : LxResult Z * world := insert_file pid fd f w.
Definition get_file_like (pid fd : Z) (w : world) : LxResult nat :=
  match procs w !! pid with Some p => ok_or (table p !! fd) LxError.EBADF | None => Panic end.
Definition close_file (pid fd : Z) (w : world) : LxResult unit * world :=
  match procs w !! pid with
  | Some p =>
      match table p !! fd with
      | Some _ => (Ok tt, settle w (set_process pid (set_table (delete fd (table p)) p) w))
      | None => (Err LxError.EBADF, w)
      end
  | None => (Panic, w)
  end.
Definition close_on_exec (w : world) (id : nat) : bool := match files w !! id with Some f => OpenFlags.close_on_exec (flags f) | None => false end.
Definition remove_cloexec_files (pid : Z) (w : world) : world :=
  match procs w !! pid with
  | Some p => settle w (set_process pid (set_table (filter (λ x, close_on_exec w x.2 = false) (table p)) p) w)
  | None => w
  end.
(** [LinuxProcess::new], with the files for standard input and output. *)
Definition process_new (pid : Z) (stdin stdout : inode node) (w : world) : world :=
  let n := length (files w) in
  set_process pid (mkProcess [] [] limit_default {[0 := n; 1 := S n; 2 := S (S n)]})
    (set_files (files w ++ [file_new stdin OpenFlags.RDONLY (of_string "/dev/stdin"); file_new stdout OpenFlags.WRONLY (of_string "/dev/stdout");
                            file_new stdout OpenFlags.WRONLY (of_string "/dev/stderr")]) w).
(** [fork_from]: the child refers to the same files; and the end of a process, when the last
    reference to it goes. *)
Definition fork_files (pid child : Z) (w : world) : world :=
  match procs w !! pid, procs w !! child with
  | Some p, None => set_process child (mkProcess (execute_path p) (cwd p) limit_default (table p)) w
  | _, _ => w
  end.
Definition drop_process (pid : Z) (w : world) : world := settle w (set_procs (delete pid (procs w)) w).

(** ** Finding nodes *)
(** [str::parse::<i32>] *)
Fixpoint digits (acc : Z) (s : bytes) : option Z :=
  match s with [] => Some acc | c :: s => if (48 <=? c) && (c <=? 57) then digits (10 * acc + (c - 48)) s else None end.
Definition parse_i32 (s : bytes) : option Z :=
  let in_range (x : option Z) := match x with Some x => if (- 2 ^ 31 <=? x) && (x <? 2 ^ 31) then Some x else None | None => None end in
  match s with
  | [] => None
  | c :: s' =>
      if c =? 45 then match s' with [] => None | _ => in_range (Z.opp <$> digits 0 s') end
      else if c =? 43 then match s' with [] => None | _ => in_range (digits 0 s') end
      else in_range (digits 0 s)
  end.
Definition to_inode (r : FsResult node) : LxResult (inode node) := let? n := lx r in Ok (VNode n).
Definition FOLLOW_MAX_DEPTH : Z := 1.
Definition lookup_inode_at (pid dirfd : Z) (path_ : bytes) (follow : bool) (w : world) : LxResult (inode node) :=
  match procs w !! pid with
  | None => Panic
  | Some p =>
      if bool_decide (path_ = of_string "/proc/self/exe") then Ok (Pseudo (execute_path p))
      else
        let '(fd_dir_path, fd_name) := split_path path_ in
        if bool_decide (fd_dir_path = of_string "/proc/self/fd") then
          let? fd := ok_or (parse_i32 fd_name) LxError.EINVAL in
          let? id := get_file_like pid fd w in
          match files w !! id with Some f => Ok (Pseudo (path f)) | None => Panic end
        else
          let depth := if follow then FOLLOW_MAX_DEPTH else 0 in
          if dirfd =? CWD then
            let? n := lx (vlookup (fs w) (current_working_directory (cwd p))) in to_inode (vlookup_follow (fs w) (VNode n) path_ depth)
          else
            let? id := get_file_like pid dirfd w in
            match files w !! id with Some f => to_inode (vlookup_follow (fs w) (inode_of f) path_ depth) | None => Panic end
  end.
(** The node that [sys_openat] opens. *)
Definition open_inode (pid dir_fd : Z) (path_ : bytes) (fl mode : Z) (w : world) : LxResult (inode node) * world :=
  if contains fl OpenFlags.CREATE then
    let '(dir_path, file_name) := split_path path_ in
    match lookup_inode_at pid dir_fd dir_path true w with
    | Ok dir =>
        match vfind (fs w) dir file_name with
        | Ok i => if contains fl OpenFlags.EXCLUSIVE then (Err LxError.EEXIST, w) else (Ok (VNode i), w)
        | Err FsError.EntryNotFound => let '(r, x) := vcreate (fs w) dir file_name (wrap 32 mode) in (to_inode r, set_fs x w)
        | Err e => (Err (FsError.to_lx e), w)
        | Panic => (Panic, w)
        end
    | Err e => (Err e, w)
    | Panic => (Panic, w)
    end
  else (lookup_inode_at pid dir_fd path_ true w, w).
Definition sys_openat (pid dir_fd : Z) (path_ : result UserError.t bytes) (fl mode : Z) (w : world) : LxResult Z * world :=
  match path_ with
  | Ok path_ =>
      let path_ := if bool_decide (path_ = of_string "/dev/shm/testshm") then of_string "/testshm" else path_ in
      let fl := from_bits_truncate OpenFlags.all fl in
      match open_inode pid dir_fd path_ fl mode w with
      | (Ok i, w) => add_file pid (file_new i fl path_) w
      | (Err e, w) => (Err e, w)
      | (Panic, w) => (Panic, w)
      end
  | Err e => (Err (LxError.of_user e), w)
  | Panic => (Panic, w)
  end.
Definition sys_chdir (pid : Z) (path_ : result UserError.t bytes) (w : world) : LxResult Z * world :=
  match path_ with
  | Ok path_ =>
      match (let? i := lookup_inode_at pid CWD path_ true w in lx (inode_metadata i w)), procs w !! pid with
      | Ok (_, ty), Some p =>
          if bool_decide (ty = TDir) then (Ok 0, set_process pid (mkProcess (execute_path p) (change_directory path_ (cwd p)) (file_limit p) (table p)) w)
          else (Err LxError.ENOTDIR, w)
      | Err e, _ => (Err e, w)
      | _, _ => (Panic, w)
      end
  | Err e => (Err (LxError.of_user e), w)
  | Panic => (Panic, w)
  end.

(** ** System calls on descriptors *)
Definition sys_close (pid fd : Z) (w : world) : LxResult Z * world := let '(r, w) := close_file pid fd w in (let? _ := r in Ok 0, w).
(** A copy of the file: path, offset, flags and node. *)
Definition dup_file (id : nat) (w : world) : LxResult File := match files w !! id with Some f => Ok f | None => Panic end.
Definition sys_dup2 (pid fd1 fd2 : Z) (w : world) : LxResult Z * world :=
  let '(_, w) := close_file pid fd2 w in
  match (let? id := get_file_like pid fd1 w in dup_file id w) with
  | Ok f => add_file_at pid fd2 f w
  | Err e => (Err e, w)
  | Panic => (Panic, w)
  end.
Definition sys_dup (pid fd1 : Z) (w : world) : LxResult Z * world :=
  match (let? id := get_file_like pid fd1 w in dup_file id w) with
  | Ok f => add_file pid f w
  | Err e => (Err e, w)
  | Panic => (Panic, w)
  end.
(** [out]: what writing the numbers to user memory gives. *)
Definition sys_pipe2 (pid fl : Z) (out : option UserError.t) (w : world) : LxResult (Z * Z) * world :=
  let k := length (pipes w) in
  let base := Z.land (from_bits_truncate OpenFlags.all fl) (Z.lor OpenFlags.NON_BLOCK OpenFlags.CLOEXEC) in
  let w := set_pipes (pipes w ++ [Pipe.create_pair]) w in
  match add_file pid (file_new (PipeNode k Pipe.ReadEnd) (Z.lor base OpenFlags.RDONLY) (of_string "pipe_r:[]")) w with
  | (Ok read_fd, w) =>
      match add_file pid (file_new (PipeNode k Pipe.WriteEnd) (Z.lor base OpenFlags.WRONLY) (of_string "pipe_w:[]")) w with
      | (Ok write_fd, w) => (match out with Some e => Err (LxError.of_user e) | None => Ok (read_fd, write_fd) end, w)
      | (Err e, w) => (Err e, drop_pipe_end k w)
      | (Panic, w) => (Panic, drop_pipe_end k w)
      end
  | (Err e, w) => (Err e, drop_pipe_end k (drop_pipe_end k w))
  | (Panic, w) => (Panic, drop_pipe_end k (drop_pipe_end k w))
  end.
Inductive FcntlCmd := DUPFD | GETFD | SETFD | GETFL | SETFL | GETLK | SETLK | SETLKW | DUPFD_CLOEXEC.
Definition fcntl_cmd (x : Z) : option FcntlCmd :=
  match x with
  | 0 => Some DUPFD | 1 => Some GETFD | 2 => Some SETFD | 3 => Some GETFL | 4 => Some SETFL | 5 => Some GETLK | 6 => Some SETLK | 7 => Some SETLKW
  | 1030 => Some DUPFD_CLOEXEC | _ => None
  end.
Definition with_cloexec (b : bool) (fl : Z) : Z := if b then flag_insert fl OpenFlags.CLOEXEC else flag_remove fl OpenFlags.CLOEXEC.
Definition sys_fcntl (pid fd cmd arg : Z) (w : world) : LxResult Z * world :=
  match get_file_like pid fd w with
  | Ok id =>
      match files w !! id, fcntl_cmd cmd with
      | Some f, Some GETFD => (Ok (Z.b2z (OpenFlags.close_on_exec (flags f))), w)
      | Some f, Some SETFD => (Ok 0, set_file id (set_flags (with_cloexec (negb (Z.land arg 1 =? 0)) (flags f)) f) w)
      | Some f, Some GETFL => (Ok (flags f), w)
      | Some f, Some SETFL => (Ok 0, set_file id (set_flags (from_bits_truncate OpenFlags.all arg) f) w)
      | Some f, Some (DUPFD | DUPFD_CLOEXEC) =>
          let new_fd := match procs w !! pid with Some p => get_free_fd_from arg (table p) | None => 0 end in
          match sys_dup2 pid fd new_fd w with
          | (Ok _, w) =>
              match (let? id := get_file_like pid new_fd w in let? f := dup_file id w in Ok (id, f)) with
              | Ok (id, f) => (Ok new_fd, set_file id (set_flags (with_cloexec (cmd =? 1030) (flags f)) f) w)
              | Err e => (Err e, w)
              | Panic => (Panic, w)
              end
          | (Err e, w) => (Err e, w)
          | (Panic, w) => (Panic, w)
          end
      | Some _, _ => (Err LxError.EINVAL, w)
      | None, _ => (Panic, w)
      end
  | Err e => (Err e, w)
  | Panic => (Panic, w)
  end.
(** The part of [sys_prlimit64] for [RLIMIT_NOFILE]. *)
Definition set_file_limit (pid : Z) (l : RLimit) (w : world) : world :=
  match procs w !! pid with Some p => set_process pid (mkProcess (execute_path p) (cwd p) l (table p)) w | None => w end.

(** ** System calls on the content
    [out], [data] and the like: what writing to or reading from user memory gives. *)
Definition deliver {A} (out : option UserError.t) (r : outcome A * world) : outcome A * world :=
  match r, out with (Done (Ok _), w), Some e => (Done (Err (LxError.of_user e)), w) | _, _ => r end.
Definition user {A} (r : result UserError.t A) : LxResult A := match r with Ok a => Ok a | Err e => Err (LxError.of_user e) | Panic => Panic end.
(** A call on a descriptor. *)
Definition on_file {A} (pid fd : Z) (w : world) (f : nat → outcome A * world) : outcome A * world :=
  match get_file_like pid fd w with Ok id => f id | Err e => (Done (Err e), w) | Panic => (Done Panic, w) end.
Definition now {A} (r : LxResult A * world) : outcome A * world := (Done r.1, r.2).
Definition sys_read (pid fd n : Z) (out : option UserError.t) (w : world) : outcome bytes * world := on_file pid fd w (λ id, deliver out (file_read id n w)).
Definition sys_pread (pid fd n off : Z) (out : option UserError.t) (w : world) : outcome bytes * world := on_file pid fd w (λ id, deliver out (file_read_at id off n w)).
Definition sys_write (pid fd : Z) (data : result UserError.t bytes) (w : world) : outcome Z * world :=
  on_file pid fd w (λ id, match user data with Ok data => now (file_write id data w) | Err e => (Done (Err e), w) | Panic => (Done Panic, w) end).
Definition sys_pwrite (pid fd : Z) (data : result UserError.t bytes) (off : Z) (w : world) : outcome Z * world :=
  on_file pid fd w (λ id, match user data with Ok data => now (file_write_at id off data w) | Err e => (Done (Err e), w) | Panic => (Done Panic, w) end).
(** [write_from_buf]: what the buffers get. *)
Fixpoint scatter (lens : list Z) (b : bytes) : list bytes :=
  match lens with [] => [] | n :: lens => ztake n b :: scatter lens (zdrop n b) end.
Definition total_len (lens : list Z) : Z := foldr Z.add 0 lens.
(** The whole of the kernel's buffer goes to the user, also behind what was read. *)
Definition sys_readv (pid fd : Z) (lens : result UserError.t (list Z)) (out : option UserError.t) (w : world) : outcome (Z * list bytes) * world :=
  match user lens with
  | Ok lens =>
      on_file pid fd w (λ id,
        match file_read id (total_len lens) w with
        | (Done (Ok l), w) => deliver out (Done (Ok (zlen l, scatter lens (l ++ zeros (total_len lens - zlen l)))), w)
        | (Done (Err e), w) => (Done (Err e), w)
        | (Done Panic, w) => (Done Panic, w)
        | (Waits, w) => (Waits, w)
        end)
  | Err e => (Done (Err e), w)
  | Panic => (Done Panic, w)
  end.
Definition sys_writev (pid fd : Z) (bufs : result UserError.t (list bytes)) (w : world) : outcome Z * world :=
  match user bufs with
  | Ok bufs => on_file pid fd w (λ id, now (file_write id (mjoin bufs) w))
  | Err e => (Done (Err e), w)
  | Panic => (Done Panic, w)
  end.
Definition sys_lseek (pid fd off whence : Z) (w : world) : outcome Z * world :=
  match (if whence =? 0 then Some (Start (wrap 64 off)) else if whence =? 2 then Some (End_ off) else if whence =? 1 then Some (Current off) else None) with
  | Some pos => on_file pid fd w (λ id, now (file_seek id pos w))
  | None => (Done (Err LxError.EINVAL), w)
  end.
Definition sys_ftruncate (pid fd len : Z) (w : world) : outcome Z * world :=
  on_file pid fd w (λ id, let '(r, w) := file_set_len id len w in (Done (let? _ := r in Ok 0), w)).

(** *** Copying between files *)
(** The inner loop: [data] is what is left of the buffer; every turn but the last writes a byte. *)
Fixpoint write_loop (fuel : nat) (o : nat) (data : bytes) (w : world) : LxResult Z * world :=
  match data, fuel with
  | [], _ => (Ok 0, w)
  | _, O => (Panic, w)
  | _, S fuel =>
      match file_write o data w with
      | (Ok len, w) =>
          if len =? 0 then (Err LxError.EBADF, w)
          else match write_loop fuel o (zdrop len data) w with (Ok n, w) => (Ok (len + n), w) | r => r end
      | (Err e, w) => (Err e, w)
      | (Panic, w) => (Panic, w)
      end
  end.
(** The outer loop, with its variables: it gives [read_offset], [bytes_read], [total_written]. *)
Fixpoint copy_loop (fuel : nat) (i o : nat) (count read_offset bytes_read total_written : Z) (w : world) : outcome (Z * Z * Z) * world :=
  if bytes_read <? count then
    match fuel with
    | O => (Done Panic, w)
    | S fuel =>
        match file_read_at i read_offset (Z.min 1024 (count - bytes_read)) w with
        | (Done (Ok l), w) =>
            if bool_decide (l = []) then (Done (Ok (read_offset, bytes_read, total_written)), w)
            else
              match write_loop (length l) o l w with
              | (Ok n, w) => copy_loop fuel i o count (read_offset +u zlen l) (bytes_read + zlen l) (total_written + n) w
              | (Err e, w) => (Done (Err e), w)
              | (Panic, w) => (Done Panic, w)
              end
        | (Done (Err e), w) => (Done (Err e), w)
        | (Done Panic, w) => (Done Panic, w)
        | (Waits, w) => (Waits, w)
        end
    end
  else (Done (Ok (read_offset, bytes_read, total_written)), w).
(** What comes after the loop.  The result has the offsets that go to user memory. *)
Definition copy_end (i o : nat) (in_null out_null : bool) (in_wr out_wr : option UserError.t) (orig write_offset read_offset bytes_read total : Z) (w : world) :
    outcome (Z * option Z * option Z) * world :=
  match (if in_null then let '(r, w) := file_seek i (Current bytes_read) w in (let? _ := r in Ok tt, w)
         else (match in_wr with Some e => Err (LxError.of_user e) | None => Ok tt end, w)) with
  | (Ok _, w) =>
      if out_null then (Done (Ok (total, if in_null then None else Some read_offset, None)), w)
      else match out_wr with
      | Some e => (Done (Err (LxError.of_user e)), w)
      | None =>
          let '(r, w) := file_seek o (Start orig) w in
          (Done (let? _ := r in Ok (total, if in_null then None else Some read_offset, Some (write_offset +u total))), w)
      end
  | (Err e, w) => (Done (Err e), w)
  | (Panic, w) => (Done Panic, w)
  end.
(** A null pointer is [None]. *)
Definition read_ptr (x : option (result UserError.t Z)) : LxResult (option Z) := match x with Some r => let? v := user r in Ok (Some v) | None => Ok None end.
Definition is_none {A} (x : option A) : bool := match x with None => true | Some _ => false end.
Definition sys_copy_file_range (pid in_fd : Z) (in_off : option (result UserError.t Z)) (out_fd : Z) (out_off : option (result UserError.t Z)) (count : Z)
    (in_wr out_wr : option UserError.t) (w : world) : outcome (Z * option Z * option Z) * world :=
  on_file pid in_fd w (λ i, on_file pid out_fd w (λ o,
    match read_ptr in_off with
    | Ok in_val =>
        match (match in_val with Some v => (Ok v, w) | None => file_seek i (Current 0) w end) with
        | (Ok read_offset, w) =>
            match file_seek o (Current 0) w with
            | (Ok orig, w) =>
                match read_ptr out_off with
                | Ok out_val =>
                    match (match out_val with Some v => file_seek o (Start v) w | None => (Ok 0, w) end) with
                    | (Ok write_offset, w) =>
                        match copy_loop (Z.to_nat count) i o count read_offset 0 0 w with
                        | (Done (Ok (read_offset, bytes_read, total)), w) =>
                            copy_end i o (is_none in_val) (is_none out_val) in_wr out_wr orig write_offset read_offset bytes_read total w
                        | (Done (Err e), w) => (Done (Err e), w)
                        | (Done Panic, w) => (Done Panic, w)
                        | (Waits, w) => (Waits, w)
                        end
                    | (Err e, w) => (Done (Err e), w)
                    | (Panic, w) => (Done Panic, w)
                    end
                | Err e => (Done (Err e), w)
                | Panic => (Done Panic, w)
                end
            | (Err e, w) => (Done (Err e), w)
            | (Panic, w) => (Done Panic, w)
            end
        | (Err e, w) => (Done (Err e), w)
        | (Panic, w) => (Done Panic, w)
        end
    | Err e => (Done (Err e), w)
    | Panic => (Done Panic, w)
    end)).
Definition sys_sendfile (pid out_fd in_fd : Z) (off : option (result UserError.t Z)) (count : Z) (wr : option UserError.t) : world → outcome (Z * option Z * option Z) * world :=
  sys_copy_file_range pid in_fd off out_fd None count wr None.

(** *** Listing a directory *)
Fixpoint dents_loop (fuel : nat) (id : nat) (type_ : Z) (wr : DirentBufWriter) (w : world) : LxResult DirentBufWriter * world :=
  match fuel with
  | O => (Panic, w)
  | S fuel =>
      match file_read_entry id w with
      | (Ok name, w) => let '(ok, wr) := try_write 0 type_ name wr in if ok then dents_loop fuel id type_ wr w else (Ok wr, w)
      | (Err LxError.ENOENT, w) => (Ok wr, w)
      | (Err e, w) => (Err e, w)
      | (Panic, w) => (Panic, w)
      end
  end.
Definition sys_getdents64 (pid fd buf_size : Z) (out : option UserError.t) (w : world) : outcome bytes * world :=
  on_file pid fd w (λ id,
    match files w !! id with
    | Some f =>
        match lx (inode_metadata (inode_of f) w) with
        | Ok (_, ty) =>
            if negb (bool_decide (ty = TDir)) then (Done (Err LxError.ENOTDIR), w)
            else
              let '(r, w) := dents_loop (S (Z.to_nat buf_size)) id (dirent_type ty) (writer_new (zeros buf_size)) w in
              deliver out (Done (let? wr := r in Ok (as_slice wr)), w)
        | Err e => (Done (Err e), w)
        | Panic => (Done Panic, w)
        end
    | None => (Done Panic, w)
    end).

(** ** Histories *)
Inductive op :=
| Openat (pid dir_fd : Z) (path_ : result UserError.t bytes) (fl mode : Z) | Close (pid fd : Z) | Dup (pid fd : Z) | Dup2 (pid fd1 fd2 : Z)
| Pipe2 (pid fl : Z) (out : option UserError.t) | Fcntl (pid fd cmd arg : Z) | Read (pid fd n : Z) (out : option UserError.t) | Pread (pid fd n off : Z) (out : option UserError.t)
| Write (pid fd : Z) (data : result UserError.t bytes) | Pwrite (pid fd : Z) (data : result UserError.t bytes) (off : Z)
| Readv (pid fd : Z) (lens : result UserError.t (list Z)) (out : option UserError.t) | Writev (pid fd : Z) (bufs : result UserError.t (list bytes))
| Lseek (pid fd off whence : Z) | Ftruncate (pid fd len : Z)
| Copy (pid in_fd : Z) (in_off : option (result UserError.t Z)) (out_fd : Z) (out_off : option (result UserError.t Z)) (count : Z) (in_wr out_wr : option UserError.t)
| Getdents (pid fd buf_size : Z) (out : option UserError.t) | Chdir (pid : Z) (path_ : result UserError.t bytes) | Setlimit (pid : Z) (l : RLimit)
| Spawn (pid : Z) (stdin stdout : node) | Fork (pid child : Z) | Execve (pid : Z) | Exit (pid : Z) | Env (x : FS).
Definition exec (o : op) (w : world) : world :=
  match o with
  | Openat pid d p fl mode => (sys_openat pid d p fl mode w).2
  | Close pid fd => (sys_close pid fd w).2
  | Dup pid fd => (sys_dup pid fd w).2
  | Dup2 pid a b => (sys_dup2 pid a b w).2
  | Pipe2 pid fl out => (sys_pipe2 pid fl out w).2
  | Fcntl pid fd cmd arg => (sys_fcntl pid fd cmd arg w).2
  | Read pid fd n out => (sys_read pid fd n out w).2
  | Pread pid fd n off out => (sys_pread pid fd n off out w).2
  | Write pid fd data => (sys_write pid fd data w).2
  | Pwrite pid fd data off => (sys_pwrite pid fd data off w).2
  | Readv pid fd lens out => (sys_readv pid fd lens out w).2
  | Writev pid fd bufs => (sys_writev pid fd bufs w).2
  | Lseek pid fd off whence => (sys_lseek pid fd off whence w).2
  | Ftruncate pid fd len => (sys_ftruncate pid fd len w).2
  | Copy pid a x b y n u v => (sys_copy_file_range pid a x b y n u v w).2
  | Getdents pid fd n out => (sys_getdents64 pid fd n out w).2
  | Chdir pid p => (sys_chdir pid p w).2
  | Setlimit pid l => set_file_limit pid l w
  | Spawn pid a b => if bool_decide (is_Some (procs w !! pid)) then w else process_new pid (VNode a) (VNode b) w
  | Fork pid child => fork_files pid child w
  | Execve pid => remove_cloexec_files pid w
  | Exit pid => drop_process pid w
  | Env x => set_fs x w
  end.
Definition run (os : list op) (w : world) : world := foldl (λ w o, exec o w) w os.
Definition init (x : FS) : world := mkWorld x [] [] ∅.

(** *** Descriptors *)
(** The number and the state of the file behind a descriptor, and its node. *)
Definition desc (w : world) (pid fd : Z) : option (nat * File) :=
  match procs w !! pid with
  | Some p => match table p !! fd with Some id => match files w !! id with Some f => Some (id, f) | None => None end | None => None end
  | None => None
  end.
Definition live (w : world) (k : nat) (d : Pipe.PipeEnd) : Prop := ∃ pid fd id f, desc w pid fd = Some (id, f) ∧ inode_of f = PipeNode k d.

Lemma desc_spec w pid fd id f : desc w pid fd = Some (id, f) ↔ ∃ p, procs w !! pid = Some p ∧ table p !! fd = Some id ∧ files w !! id = Some f.
Proof.
  unfold desc. destruct (procs w !! pid) as [p|]; [|naive_solver]. destruct (table p !! fd) as [i|] eqn:E1; [|naive_solver].
  destruct (files w !! i) as [g|] eqn:E2; naive_solver.
Qed.
Lemma holds_live w k d : holds w k d = true ↔ live w k d.
Proof.
  unfold holds. rewrite existsb_exists. unfold live. split.
  - intros (id & Hin & Hf). destruct (files w !! id) as [f|] eqn:E; [|done]. apply bool_decide_eq_true in Hf.
    apply list_elem_of_In in Hin. unfold open_files in Hin. apply list_elem_of_join in Hin as (l & Hl & (x & -> & Hx)%list_elem_of_fmap).
    apply list_elem_of_fmap in Hl as ([fd i] & -> & Hi). destruct x as [pid p]. apply elem_of_map_to_list in Hx, Hi. exists pid, fd, i, f. split; [|done]. apply desc_spec. naive_solver.
  - intros (pid & fd & id & f & (p & Hp & Ht & Hf)%desc_spec & Hi). exists id. rewrite Hf. split; [|by apply bool_decide_eq_true].
    apply list_elem_of_In. unfold open_files. apply list_elem_of_join. exists ((map_to_list (table p)).*2). split.
    + apply list_elem_of_fmap. exists (fd, id). split; [done|]. by apply elem_of_map_to_list.
    + apply list_elem_of_fmap. exists (pid, p). split; [done|]. by apply elem_of_map_to_list.
Qed.
Lemma holds_ext w w' k d : (live w k d ↔ live w' k d) → holds w k d = holds w' k d.
Proof. rewrite <-!holds_live. intros Hx. destruct (holds w k d), (holds w' k d); naive_solver. Qed.

(** *** The invariant
    Descriptors refer to files, two of one process never to the same one; a pipe counts the ends
    that some descriptor refers to. *)
Record tables (w : world) : Prop := {
  i_ref pid p fd id : procs w !! pid = Some p → table p !! fd = Some id → (id < length (files w))%nat;
  i_inj pid p fd fd' id : procs w !! pid = Some p → table p !! fd = Some id → table p !! fd' = Some id → fd = fd';
  i_pipe id f k d : files w !! id = Some f → inode_of f = PipeNode k d → (k < length (pipes w))%nat
}.
Definition ends (w : world) : Prop := ∀ k p, pipes w !! k = Some p → Pipe.end_cnt p = Z.b2z (holds w k Pipe.ReadEnd) + Z.b2z (holds w k Pipe.WriteEnd).
Definition inv (w : world) : Prop := tables w ∧ ends w.

(** A call on contents: the tables stay, and of the files only offset and flags of those in [S]
    change. *)
Record quiet (S : gset nat) (w w' : world) : Prop := {
  q_table pid : table <$> procs w' !! pid = table <$> procs w !! pid;
  q_inode : inode_of <$> files w' = inode_of <$> files w;
  q_ends : Pipe.end_cnt <$> pipes w' = Pipe.end_cnt <$> pipes w;
  q_frame id : id ∉ S → files w' !! id = files w !! id
}.

Lemma files_quiet_refl S w : quiet S w w.
Proof. done. Qed.
Lemma files_quiet_trans S w1 w2 w3 : quiet S w1 w2 → quiet S w2 w3 → quiet S w1 w3.
Proof. intros [H1 H2 H3 H4] [H5 H6 H7 H8]. split; [intros; by rewrite H5, H1|congruence|congruence|intros id Hid; by rewrite H8, H4]. Qed.
Lemma quiet_weaken S S' w w' : S ⊆ S' → quiet S w w' → quiet S' w w'.
Proof. intros Hs [H1 H2 H3 H4]. split; try done. intros id Hid. apply H4. set_solver. Qed.

Lemma quiet_desc S w w' pid fd id f : quiet S w w' → desc w pid fd = Some (id, f) →
  ∃ f', desc w' pid fd = Some (id, f') ∧ inode_of f' = inode_of f ∧ (id ∉ S → f' = f).
Proof.
  intros [H1 H2 _ H4] (p & Hp & Ht & Hf)%desc_spec. specialize (H1 pid). rewrite Hp in H1. destruct (procs w' !! pid) as [p'|] eqn:Hp'; [|done]. injection H1 as H1.
  pose proof (f_equal (λ l, l !! id) H2) as Hi. rewrite !list_lookup_fmap, Hf in Hi. destruct (files w' !! id) as [f'|] eqn:Hf'; [|done]. injection Hi as Hi.
  exists f'. split; [apply desc_spec; exists p'; by rewrite H1|]. split; [done|]. intros Hs. specialize (H4 id Hs). rewrite Hf, Hf' in H4. by injection H4.
Qed.
Lemma quiet_sym S w w' : quiet S w w' → quiet S w' w.
Proof. intros [H1 H2 H3 H4]. split; try done. intros id Hid. symmetry. by apply H4. Qed.
Lemma quiet_live S w w' k d : quiet S w w' → live w k d ↔ live w' k d.
Proof.
  assert (∀ w w', quiet S w w' → live w k d → live w' k d) as Hx.
  { clear. intros w w' Hq (pid & fd & id & f & Hd & Hi). destruct (quiet_desc S w w' pid fd id f Hq Hd) as (f' & Hd' & Hi' & _). exists pid, fd, id, f'. by rewrite Hi'. }
  intros Hq. split; [by apply Hx|]. apply Hx. by apply quiet_sym.
Qed.

Lemma files_quiet_inv S w w' : inv w → quiet S w w' → inv w'.
Proof.
  intros [[I1 I2 I3] I4] Hq. pose proof Hq as [H1 H2 H3 H4]. pose proof (f_equal length H2) as Hl. rewrite !length_fmap in Hl.
  assert (∀ pid p', procs w' !! pid = Some p' → ∃ p, procs w !! pid = Some p ∧ table p' = table p) as Ht.
  { intros pid p' Hp. specialize (H1 pid). rewrite Hp in H1. destruct (procs w !! pid) as [p|]; [|done]. injection H1 as H1. eauto. }
  split; [split|].
  - intros pid p' fd id (p & Hp & ->)%Ht Hfd. rewrite Hl. by apply (I1 pid p fd).
  - intros pid p' fd fd' id (p & Hp & ->)%Ht. by apply (I2 pid p).
  - intros id f k d Hf Hi. pose proof (f_equal (λ l, l !! id) H2) as He. rewrite !list_lookup_fmap, Hf in He. destruct (files w !! id) as [g|] eqn:Hg; [|done]. injection He as He.
    pose proof (f_equal length H3) as Hlp. rewrite !length_fmap in Hlp. rewrite Hlp. apply (I3 id g k d Hg). congruence.
  - intros k p Hp. pose proof (f_equal (λ l, l !! k) H3) as He. rewrite !list_lookup_fmap, Hp in He. destruct (pipes w !! k) as [p0|] eqn:Hp0; [|done]. injection He as He. rewrite He.
    rewrite (I4 k p0 Hp0). by rewrite !(holds_ext w w' k) by (by apply (quiet_live S)).
Qed.

(** *** Calls on contents are quiet *)
Lemma set_fs_quiet S x w : quiet S w (set_fs x w).
Proof. done. Qed.
Lemma set_pipe_quiet S k p p' w : pipes w !! k = Some p → Pipe.end_cnt p' = Pipe.end_cnt p → quiet S w (set_pipes (<[k := p']> (pipes w)) w).
Proof.
  intros Hk He. split; simpl; try done. rewrite list_fmap_insert, He. apply list_insert_id. by rewrite list_lookup_fmap, Hk.
Qed.
Lemma set_file_quiet S id f f' w : files w !! id = Some f → inode_of f' = inode_of f → id ∈ S → quiet S w (set_file id f' w).
Proof.
  intros Hf Hi Hs. split; simpl; try done.
  - rewrite list_fmap_insert, Hi. apply list_insert_id. by rewrite list_lookup_fmap, Hf.
  - intros k Hk. apply list_lookup_insert_ne. set_solver.
Qed.
Lemma pipe_read_ends d n p : Pipe.end_cnt (Pipe.read_at d n p).2 = Pipe.end_cnt p.
Proof. unfold Pipe.read_at. destruct (Nat.eqb n 0); [done|]. destruct d; [|done]. destruct (_ && _); [done|]. by destruct (if bool_decide _ then _ else _). Qed.
Lemma pipe_write_ends d l p : Pipe.end_cnt (Pipe.write_at d l p).2 = Pipe.end_cnt p.
Proof. unfold Pipe.write_at. destruct d; [done|]. by destruct (bus_set _ _). Qed.

Lemma inode_read_quiet S i off n w : quiet S w (inode_read_at i off n w).2.
Proof.
  destruct i as [v|c|k d]; simpl; [by destruct (vread _ _ _ _)|done|]. destruct (pipes w !! k) as [p|] eqn:E; [|done].
  pose proof (pipe_read_ends d (Z.to_nat n) p) as He. destruct (Pipe.read_at d (Z.to_nat n) p) as [[r ws] p']. by apply (set_pipe_quiet S k p).
Qed.
Lemma inode_write_quiet S i off l w : quiet S w (inode_write_at i off l w).2.
Proof.
  destruct i as [v|c|k d]; simpl; [by destruct (vwrite _ _ _ _)|done|]. destruct (pipes w !! k) as [p|] eqn:E; [|done].
  pose proof (pipe_write_ends d l p) as He. destruct (Pipe.write_at d l p) as [[r ws] p']. by apply (set_pipe_quiet S k p).
Qed.
Lemma inode_files i off n l w : files (inode_read_at i off n w).2 = files w ∧ files (inode_write_at i off l w).2 = files w.
Proof.
  destruct i as [v|c|k d]; simpl; [by destruct (vread _ _ _ _), (vwrite _ _ _ _)|done|]. destruct (pipes w !! k) as [p|]; [|done].
  by destruct (Pipe.read_at d (Z.to_nat n) p) as [[] ], (Pipe.write_at d l p) as [[] ].
Qed.

Lemma file_read_at_quiet S id off n w : quiet S w (file_read_at id off n w).2 ∧ files (file_read_at id off n w).2 = files w.
Proof.
  unfold file_read_at. destruct (files w !! id) as [f|]; [|done]. destruct (OpenFlags.readable _); [|done]. simpl.
  pose proof (inode_read_quiet S (inode_of f) off n w) as Hq. pose proof (inode_files (inode_of f) off n [] w) as [Hf _]. destruct (inode_read_at _ _ _ _) as [r w1]. simpl in *.
  destruct (negb _); [|done]. by destruct r as [|[]|].
Qed.
Lemma file_read_quiet id n w : quiet {[id]} w (file_read id n w).2.
Proof.
  unfold file_read. destruct (files w !! id) as [f|] eqn:Hf; [|done]. pose proof (file_read_at_quiet {[id]} id (offset f) n w) as [Hq Hfs].
  destruct (file_read_at _ _ _ _) as [[[l|e|]|] w1]; simpl in *; try done. apply (files_quiet_trans _ _ _ _ Hq). apply (set_file_quiet _ id f); [by rewrite Hfs|done|set_solver].
Qed.
Lemma file_write_at_quiet S id off l w : quiet S w (file_write_at id off l w).2 ∧ files (file_write_at id off l w).2 = files w.
Proof.
  unfold file_write_at. destruct (files w !! id) as [f|]; [|done]. destruct (OpenFlags.writable _); [|done]. simpl.
  pose proof (inode_write_quiet S (inode_of f) off l w) as Hq. pose proof (inode_files (inode_of f) off 0 l w) as [_ Hf]. by destruct (inode_write_at _ _ _ _) as [r w1].
Qed.
Lemma file_write_quiet id l w : quiet {[id]} w (file_write id l w).2.
Proof.
  unfold file_write. destruct (files w !! id) as [f|] eqn:Hf; [|done]. destruct (if OpenFlags.is_append _ then _ else _) as [off|e|]; [|done..].
  pose proof (file_write_at_quiet {[id]} id off l w) as [Hq Hfs]. destruct (file_write_at _ _ _ _) as [[n|e|] w1]; simpl in *; try done.
  apply (files_quiet_trans _ _ _ _ Hq). apply (set_file_quiet _ id f); [by rewrite Hfs|done|set_solver].
Qed.
Lemma file_seek_quiet id pos w : quiet {[id]} w (file_seek id pos w).2.
Proof.
  unfold file_seek. destruct (files w !! id) as [f|] eqn:Hf; [|done]. destruct (match pos with Start o => _ | End_ o => _ | Current o => _ end); simpl; try done.
  apply (set_file_quiet _ id f); [done|done|set_solver].
Qed.
Lemma file_set_len_quiet S id len w : quiet S w (file_set_len id len w).2.
Proof.
  unfold file_set_len. destruct (files w !! id) as [f|]; [|done]. destruct (OpenFlags.writable _); [|done]. simpl. unfold inode_resize. destruct (inode_of f); simpl; try done. by destruct (vresize _ _ _).
Qed.
Lemma file_read_entry_quiet id w : quiet {[id]} w (file_read_entry id w).2.
Proof.
  unfold file_read_entry. destruct (files w !! id) as [f|] eqn:Hf; [|done]. destruct (OpenFlags.readable _); [|done]. simpl. destruct (lx _); simpl; try done. apply (set_file_quiet _ id f); [done|done|set_solver].
Qed.

Lemma write_loop_quiet fuel o data w : quiet {[o]} w (write_loop fuel o data w).2.
Proof.
  revert data w. induction fuel as [|fuel IH]; intros data w; destruct data as [|c data]; simpl; try done. pose proof (file_write_quiet o (c :: data) w) as Hq.
  destruct (file_write _ _ _) as [[len|e|] w1]; simpl in *; try done. destruct (len =? 0); [done|]. specialize (IH (zdrop len (c :: data)) w1).
  destruct (write_loop _ _ _ _) as [[n|e|] w2]; simpl in *; by apply (files_quiet_trans _ _ w1).
Qed.
Lemma copy_loop_quiet fuel i o count a b c w : quiet {[o]} w (copy_loop fuel i o count a b c w).2.
Proof.
  revert a b c w. induction fuel as [|fuel IH]; intros a b c w; simpl; destruct (b <? count); try done.
  pose proof (file_read_at_quiet {[o]} i a (Z.min 1024 (count - b)) w) as [Hq _]. destruct (file_read_at _ _ _ _) as [[[l|e|]|] w1]; simpl in *; try done.
  case_bool_decide; [done|]. pose proof (write_loop_quiet (length l) o l w1) as Hq2. destruct (write_loop _ _ _ _) as [[n|e|] w2]; simpl in *; try (by apply (files_quiet_trans _ _ w1)).
  apply (files_quiet_trans _ _ w1); [done|]. apply (files_quiet_trans _ _ w2); [done|]. apply IH.
Qed.
Lemma dents_loop_quiet fuel id ty wr w : quiet {[id]} w (dents_loop fuel id ty wr w).2.
Proof.
  revert wr w. induction fuel as [|fuel IH]; intros wr w; simpl; [done|]. pose proof (file_read_entry_quiet id w) as Hq.
  destruct (file_read_entry id w) as [[name|e|] w1]; simpl in *; [|by destruct e|done]. destruct (try_write _ _ _ _) as [[] wr1]; [|done]. by apply (files_quiet_trans _ _ w1).
Qed.
Lemma copy_end_quiet i o x y u v a b c d e w : quiet {[i; o]} w (copy_end i o x y u v a b c d e w).2.
Proof.
  unfold copy_end. assert (∀ w, quiet {[i; o]} w (file_seek i (Current d) w).2 ∧ quiet {[i; o]} w (file_seek o (Start a) w).2) as Hq.
  { intros w1. split; (eapply quiet_weaken; [|apply file_seek_quiet]); set_solver. }
  destruct x; simpl.
  - destruct (Hq w) as [H1 _]. destruct (file_seek i _ w) as [[z|z|] w1]; simpl in *; try done. destruct y; simpl; [done|]. destruct v; [done|].
    destruct (Hq w1) as [_ H2]. destruct (file_seek o _ w1) as [r w2]. simpl in *. by apply (files_quiet_trans _ _ w1).
  - destruct u; simpl; [done|]. destruct y; simpl; [done|]. destruct v; [done|]. destruct (Hq w) as [_ H2]. by destruct (file_seek o _ w) as [r w2].
Qed.

(** *** Calls on tables *)
Definition add_entry (pid : Z) (p : LinuxProcess) (fd : Z) (f : File) (w : world) : world :=
  set_process pid (set_table (<[fd := length (files w)]> (table p)) p) (set_files (files w ++ [f]) w).

Lemma add_entry_desc pid p fd f w q g : tables w → procs w !! pid = Some p → table p !! fd = None →
  desc (add_entry pid p fd f w) q g = if decide (q = pid ∧ g = fd) then Some (length (files w), f) else desc w q g.
Proof.
  intros [I1 _ _] Hp Hfd. unfold desc, add_entry. simpl. destruct (decide (q = pid)) as [->|Hq].
  - rewrite lookup_insert_eq, Hp. simpl. destruct (decide (g = fd)) as [->|Hg].
    + rewrite lookup_insert_eq, lookup_app_r, Nat.sub_diag by lia. simpl. by rewrite decide_True.
    + rewrite lookup_insert_ne by done. rewrite decide_False by naive_solver. destruct (table p !! g) as [id|] eqn:E; [|done]. rewrite lookup_app_l; [done|]. by apply (I1 pid p g).
  - rewrite lookup_insert_ne by done. rewrite decide_False by naive_solver. destruct (procs w !! q) as [p0|] eqn:E0; [|done]. destruct (table p0 !! g) as [id|] eqn:E; [|done].
    rewrite lookup_app_l; [done|]. by apply (I1 q p0 g).
Qed.
Lemma add_entry_live pid p fd f w k d : tables w → procs w !! pid = Some p → table p !! fd = None →
  live (add_entry pid p fd f w) k d ↔ inode_of f = PipeNode k d ∨ live w k d.
Proof.
  intros Hi Hp Hfd. unfold live. split.
  - intros (q & g & id & f' & Hd & Hn). rewrite add_entry_desc in Hd by done. destruct (decide _) as [[-> ->]|]; [injection Hd as <- <-; by left|right; eauto 10].
  - intros [Hn|(q & g & id & f' & Hd & Hn)].
    + exists pid, fd, (length (files w)), f. rewrite add_entry_desc by done. by rewrite decide_True.
    + exists q, g, id, f'. rewrite add_entry_desc by done. rewrite decide_False; [done|]. intros [-> ->]. apply desc_spec in Hd as (p' & Hp' & Ht & _). congruence.
Qed.
Lemma add_entry_tables pid p fd f w : tables w → procs w !! pid = Some p → table p !! fd = None →
  (∀ k d, inode_of f = PipeNode k d → (k < length (pipes w))%nat) → tables (add_entry pid p fd f w).
Proof.
  intros [I1 I2 I3] Hp Hfd Hk. split; simpl.
  - intros q p' g id Hq Hg. rewrite length_app. simpl. apply lookup_insert_Some in Hq as [[<- <-]|[_ Hq]]; [|pose proof (I1 q p' g id Hq Hg); lia].
    simpl in Hg. apply lookup_insert_Some in Hg as [[<- <-]|[_ Hg]]; [lia|]. pose proof (I1 pid p g id Hp Hg). lia.
  - intros q p' g g' id Hq Hg Hg'. apply lookup_insert_Some in Hq as [[<- <-]|[_ Hq]]; [|by apply (I2 q p' g g' id)]. simpl in Hg, Hg'.
    apply lookup_insert_Some in Hg as [[<- <-]|[? Hg]]; apply lookup_insert_Some in Hg' as [[<- E]|[? Hg']]; [done| | |by apply (I2 pid p g g' id)].
    + pose proof (I1 pid p g' _ Hp Hg'). lia.
    + pose proof (I1 pid p g _ Hp Hg). lia.
  - intros id f' k d [Hf|[_ [_ ->]%list_lookup_singleton_Some]]%lookup_app_Some Hn; [by apply (I3 id f' k d)|by apply (Hk k d)].
Qed.
(** A file whose node is not a new end of a pipe. *)
Definition known (w : world) (f : File) : Prop := ∀ k d, inode_of f = PipeNode k d → live w k d.
Lemma live_bound w k d : tables w → live w k d → (k < length (pipes w))%nat.
Proof. intros Hi (pid & fd & id & f & (p & _ & _ & Hf)%desc_spec & Hn). by apply (i_pipe w Hi id f k d). Qed.
Lemma add_entry_inv pid p fd f w : inv w → procs w !! pid = Some p → table p !! fd = None → known w f → inv (add_entry pid p fd f w).
Proof.
  intros [Ht He] Hp Hfd Hk. split; [apply add_entry_tables; try done; intros k d Hn; by apply (live_bound w k d Ht), Hk|].
  intros k pp Hpp. rewrite (He k pp Hpp). rewrite !(holds_ext w (add_entry pid p fd f w) k); [done|..]; rewrite add_entry_live by done; naive_solver.
Qed.

(** Removing references. *)
Record fewer (w w' : world) : Prop := {
  fw_files : files w' = files w;
  fw_pipes : pipes w' = pipes w;
  fw_table pid p' fd id : procs w' !! pid = Some p' → table p' !! fd = Some id → ∃ p, procs w !! pid = Some p ∧ table p !! fd = Some id
}.
Lemma fewer_live w w' k d : fewer w w' → live w' k d → live w k d.
Proof.
  intros [F1 _ F3] (pid & fd & id & f & (p' & Hp & Ht & Hf)%desc_spec & Hn). destruct (F3 pid p' fd id Hp Ht) as (p & Hp0 & Ht0).
  exists pid, fd, id, f. split; [|done]. apply desc_spec. exists p. by rewrite <-F1.
Qed.
Lemma settle_desc w w' pid fd : desc (settle w w') pid fd = desc w' pid fd.
Proof. done. Qed.
Lemma settle_inv w w' : inv w → fewer w w' → inv (settle w w').
Proof.
  intros [[I1 I2 I3] He] Hf. pose proof Hf as [F1 F2 F3]. split; [split|]; simpl.
  - intros pid p' fd id Hp Ht. rewrite F1. destruct (F3 pid p' fd id Hp Ht) as (p & Hp0 & Ht0). by apply (I1 pid p fd).
  - intros pid p' fd fd' id Hp Ht Ht'. destruct (F3 pid p' fd id Hp Ht) as (p & Hp0 & Ht0). destruct (F3 pid p' fd' id Hp Ht') as (p2 & Hp2 & Ht2). apply (I2 pid p fd fd' id); congruence.
  - intros id f k d Hfile Hn. rewrite length_imap, F2. apply (I3 id f k d); [congruence|done].
  - intros k p Hp. unfold settle in Hp. simpl in Hp. rewrite F2, list_lookup_imap in Hp. destruct (pipes w !! k) as [p0|] eqn:Hp0; [|done]. injection Hp as <-.
    assert (∀ d, holds (settle w w') k d = holds w' k d) as Hs by done. rewrite !Hs. pose proof (He k p0 Hp0) as H0.
    assert (∀ d, holds w' k d = true → holds w k d = true) as Hm by (intros d; rewrite !holds_live; by apply fewer_live).
    assert (∀ b q, Pipe.end_cnt (drop_end_if b q) = Pipe.end_cnt q - Z.b2z b) as Hd.
    { intros b q. unfold drop_end_if, Pipe.drop_end. destruct b; simpl; [by destruct (bus_set _ _)|lia]. }
    rewrite !Hd, H0. pose proof (Hm Pipe.ReadEnd). pose proof (Hm Pipe.WriteEnd).
    destruct (holds w k Pipe.ReadEnd), (holds w' k Pipe.ReadEnd), (holds w k Pipe.WriteEnd), (holds w' k Pipe.WriteEnd); simpl; naive_solver lia.
Qed.

(** *** The number of a new descriptor *)
Lemma fd_of_inj i j : 0 < j < 2 ^ 32 → fd_of (i + j) ≠ fd_of i.
Proof.
  intros Hj. unfold fd_of, wrap. pose proof (Z.mod_pos_bound i (2 ^ 32) ltac:(lia)). pose proof (Z.mod_pos_bound (i + j) (2 ^ 32) ltac:(lia)).
  assert ((i + j) mod 2 ^ 32 ≠ i mod 2 ^ 32) as Hne; [|repeat case_match; lia].
  intros E. assert (j mod 2 ^ 32 = 0) as E0; [|rewrite Z.mod_small in E0 by lia; lia].
  replace j with (i + j - i) by lia. rewrite Zminus_mod, E, Z.sub_diag. done.
Qed.
Lemma find_fd_steps fuel i t : ∃ j, (j ≤ fuel)%nat ∧ find_fd fuel i t = fd_of (i + Z.of_nat j) ∧
  (∀ k, (k < j)%nat → is_Some (t !! fd_of (i + Z.of_nat k))) ∧ (j = fuel ∨ t !! fd_of (i + Z.of_nat j) = None).
Proof.
  revert i. induction fuel as [|fuel IH]; intros i; simpl.
  { exists 0%nat. rewrite Z.add_0_r. split; [done|]. split; [done|]. split; [lia|by left]. }
  case_bool_decide as Hb.
  - destruct (IH (i + 1)) as (j & H1 & H2 & H3 & H4). exists (S j). replace (i + Z.of_nat (S j)) with (i + 1 + Z.of_nat j) by lia. split; [lia|]. split; [done|]. split; [|naive_solver lia].
    intros [|k] Hk; [by rewrite Z.add_0_r|]. replace (i + Z.of_nat (S k)) with (i + 1 + Z.of_nat k) by lia. apply H3. lia.
  - exists 0%nat. rewrite Z.add_0_r. split; [lia|]. split; [done|]. split; [lia|]. right. by apply eq_None_not_Some.
Qed.
(** The search ends at the first number that is not in use. *)
Lemma get_free_fd_spec start t : Z.of_nat (size t) < 2 ^ 32 →
  ∃ j, get_free_fd_from start t = fd_of (start + Z.of_nat j) ∧ t !! fd_of (start + Z.of_nat j) = None ∧ ∀ k, (k < j)%nat → is_Some (t !! fd_of (start + Z.of_nat k)).
Proof.
  intros Hs. unfold get_free_fd_from. destruct (find_fd_steps (size t) start t) as (j & H1 & H2 & H3 & H4). exists j. split; [done|]. split; [|done].
  destruct H4 as [->|]; [|done]. destruct (t !! fd_of (start + Z.of_nat (size t))) as [x|] eqn:E; [|done]. exfalso.
  set (l := (λ k, fd_of (start + Z.of_nat k)) <$> seq 0 (S (size t))).
  assert (NoDup l) as Hnd.
  { apply NoDup_fmap_2_strong; [|apply NoDup_seq]. intros a b Ha Hb Hab. apply elem_of_seq in Ha, Hb.
    destruct (decide (a = b)) as [|Hne]; [done|]. exfalso. destruct (decide (a < b)%nat).
    - apply (fd_of_inj (start + Z.of_nat a) (Z.of_nat b - Z.of_nat a)); [lia|]. rewrite Hab. f_equal. lia.
    - apply (fd_of_inj (start + Z.of_nat b) (Z.of_nat a - Z.of_nat b)); [lia|]. rewrite <-Hab. f_equal. lia. }
  assert (list_to_set l ⊆ dom t) as Hsub.
  { intros y Hy. apply elem_of_list_to_set, list_elem_of_fmap in Hy as (k & -> & [_ Hk]%elem_of_seq). apply elem_of_dom. destruct (decide (k = size t)) as [->|]; [by rewrite E|]. apply H3. lia. }
  apply subseteq_size in Hsub. rewrite size_list_to_set, size_dom in Hsub by done. unfold l in Hsub. rewrite length_fmap, length_seq in Hsub. lia.
Qed.

(** The descriptors that are not in [gone] stay as they are. *)
Definition keeps (gone : Z → Z → Prop) (w w' : world) : Prop := ∀ pid fd id f, desc w pid fd = Some (id, f) → ¬ gone pid fd → desc w' pid fd = Some (id, f).
Lemma files_keeps_refl gone w : keeps gone w w.
Proof. by intros pid fd id f Hd _. Qed.
#[local] Hint Resolve files_keeps_refl : core.
Lemma files_keeps_trans gone w1 w2 w3 : keeps gone w1 w2 → keeps gone w2 w3 → keeps gone w1 w3.
Proof. intros H1 H2 pid fd id f Hd Hg. apply H2; [|done]. by apply H1. Qed.
Lemma keeps_weaken (g1 g2 : Z → Z → Prop) w w' : (∀ pid fd, g1 pid fd → g2 pid fd) → keeps g1 w w' → keeps g2 w w'.
Proof. intros Hg Hk pid fd id f Hd Hn. apply Hk; naive_solver. Qed.
Definition none (pid fd : Z) : Prop := False.

(** The tables are no larger than [n]. *)
Definition sized (n : nat) (w : world) : Prop := ∀ pid p, procs w !! pid = Some p → (size (table p) ≤ n)%nat.
Lemma sized_le n m w : (n ≤ m)%nat → sized n w → sized m w.
Proof. intros Hn Hs pid p Hp. specialize (Hs pid p Hp). lia. Qed.
Lemma set_process_sized n pid p w : sized n w → (size (table p) ≤ n)%nat → sized n (set_process pid p w).
Proof. intros Hs Hp q p' Hq. simpl in Hq. apply lookup_insert_Some in Hq as [[<- <-]|[_ Hq]]; [done|]. by apply (Hs q). Qed.
Lemma quiet_sized S n w w' : sized n w → quiet S w w' → sized n w'.
Proof. intros Hs [H1 _ _ _] pid p Hp. specialize (H1 pid). rewrite Hp in H1. destruct (procs w !! pid) as [p0|] eqn:E; [|done]. injection H1 as ->. by apply (Hs pid). Qed.
Lemma fewer_sized n w w' : sized n w → fewer w w' → sized n w'.
Proof.
  intros Hs [_ _ F3] pid p' Hp. destruct (decide (table p' = ∅)) as [->|Hne]; [rewrite map_size_empty; lia|]. destruct (map_choose _ Hne) as (fd & id & Hfd).
  destruct (F3 pid p' fd id Hp Hfd) as (p & Hp0 & _). etrans; [|apply (Hs pid p Hp0)]. apply map_subseteq_size, map_subseteq_spec. intros g i Hg. destruct (F3 pid p' g i Hp Hg) as (p2 & Hp2 & ?). congruence.
Qed.

Lemma insert_file_ok pid fd f w : inv w → known w f → (∀ p, procs w !! pid = Some p → table p !! fd = None) →
  inv (insert_file pid fd f w).2 ∧ keeps none w (insert_file pid fd f w).2 ∧
  (∀ n, sized n w → sized (S n) (insert_file pid fd f w).2) ∧
  ((insert_file pid fd f w).1 ≠ Ok fd ∧ (insert_file pid fd f w).2 = w ∨ (insert_file pid fd f w).1 = Ok fd ∧ desc (insert_file pid fd f w).2 pid fd = Some (length (files w), f)).
Proof.
  intros Hi Hk Hfd. unfold insert_file. destruct (procs w !! pid) as [p|] eqn:Hp; [|simpl; split; [done|]; split; [done|]; split; [intros; by eapply sized_le; [|done]; lia|]; by left]. destruct (_ <? _); [|simpl; split; [done|]; split; [done|]; split; [intros; by eapply sized_le; [|done]; lia|]; by left]. simpl. fold (add_entry pid p fd f w).
  specialize (Hfd p eq_refl). split; [by apply add_entry_inv|]. pose proof (proj1 Hi) as Ht. split.
  - intros q g id f' Hd _. rewrite add_entry_desc by done. rewrite decide_False; [done|]. intros [-> ->]. apply desc_spec in Hd as (p' & Hp' & Ht' & _). congruence.
  - split; [|right; split; [done|]; rewrite add_entry_desc by done; by rewrite decide_True]. intros n Hs. apply set_process_sized; [by apply (sized_le n); [lia|]|]. simpl.
    rewrite map_size_insert_None by done. specialize (Hs pid p Hp). lia.
Qed.
Lemma free_fd n pid p w start : sized n w → Z.of_nat n < 2 ^ 32 → procs w !! pid = Some p → table p !! get_free_fd_from start (table p) = None.
Proof. intros Hs Hn Hp. specialize (Hs pid p Hp). destruct (get_free_fd_spec start (table p)) as (j & -> & Hj & _); [lia|done]. Qed.
Lemma add_file_ok n pid f w : inv w → sized n w → Z.of_nat n < 2 ^ 32 → known w f → inv (add_file pid f w).2 ∧ keeps none w (add_file pid f w).2 ∧ sized (S n) (add_file pid f w).2.
Proof.
  intros Hi Hs Hn Hk. unfold add_file. destruct (procs w !! pid) as [p|] eqn:Hp; [|simpl; split; [done|]; split; [done|]; apply (sized_le n); [lia|done]].
  destruct (insert_file_ok pid (get_free_fd_from 0 (table p)) f w Hi Hk) as (H1 & H2 & H3 & _); [|by auto]. intros p' Hp'. rewrite Hp in Hp'. injection Hp' as <-. by apply (free_fd n pid p w).
Qed.
Lemma close_file_ok pid fd w : inv w → inv (close_file pid fd w).2 ∧ keeps (λ q g, q = pid ∧ g = fd) w (close_file pid fd w).2 ∧
  (∀ p, procs (close_file pid fd w).2 !! pid = Some p → table p !! fd = None) ∧ ∀ n, sized n w → sized n (close_file pid fd w).2.
Proof.
  intros Hi. unfold close_file. destruct (procs w !! pid) as [p|] eqn:Hp; [|simpl; split; [done|]; split; [done|]; split; [intros; congruence|done]].
  destruct (table p !! fd) as [id|] eqn:Hfd; simpl; [|split; [done|]; split; [done|]; split; [intros; congruence|done]].
  assert (fewer w (set_process pid (set_table (delete fd (table p)) p) w)) as Hf.
  { split; [done|done|]. simpl. intros q p' g i [[<- <-]|[_ Hq]]%lookup_insert_Some Ht; [|by exists p']. exists p. split; [done|]. simpl in Ht. by apply lookup_delete_Some in Ht as [_ ?]. }
  split; [by apply settle_inv|split; [|split]].
  - intros q g i f (p' & Hp' & Ht & Hf')%desc_spec Hn. rewrite settle_desc. apply desc_spec. simpl. destruct (decide (q = pid)) as [->|].
    + rewrite lookup_insert_eq. eexists. split; [done|]. simpl. rewrite Hp in Hp'. injection Hp' as <-. by rewrite lookup_delete_ne by naive_solver.
    + rewrite lookup_insert_ne by done. by exists p'.
  - intros p' Hp'. rewrite lookup_insert_eq in Hp'. injection Hp' as <-. simpl. apply lookup_delete_eq.
  - intros n Hs. by apply (fewer_sized n w) in Hf.
Qed.

(** *** Every call keeps the invariant *)
(** What a call does: all is well afterwards, the descriptors that are neither in [g] nor refer to a
    file in [S] are as before. *)
Definition step_ok (g : Z → Z → Prop) (S : gset nat) (n : nat) (w w' : world) : Prop :=
  inv w' ∧ (∀ pid fd id f, desc w pid fd = Some (id, f) → ¬ g pid fd → id ∉ S → desc w' pid fd = Some (id, f)) ∧ sized (n + 3) w'.
Lemma quiet_step g S n w w' : inv w → sized n w → quiet S w w' → step_ok g S n w w'.
Proof.
  intros Hi Hs Hq. split; [by apply (files_quiet_inv S w)|]. split.
  - intros pid fd id f Hd _ Hid. destruct (quiet_desc S w w' pid fd id f Hq Hd) as (f' & Hd' & _ & Hf). by rewrite <-(Hf Hid).
  - apply (sized_le n); [lia|]. by apply (quiet_sized S n w).
Qed.
Lemma keeps_step g S n m w w' : inv w' → keeps g w w' → sized m w' → (m ≤ n + 3)%nat → step_ok g S n w w'.
Proof. intros Hi Hk Hs Hm. split; [done|]. split; [intros pid fd id f Hd Hg _; by apply Hk|]. by apply (sized_le m). Qed.

Lemma lookup_no_pipe pid dirfd p b w i : lookup_inode_at pid dirfd p b w = Ok i → ∀ k d, i ≠ PipeNode k d.
Proof.
  unfold lookup_inode_at, to_inode. destruct (procs w !! pid) as [q|]; [|done]. case_bool_decide; [by intros [= <-]|]. destruct (split_path p) as [x y].
  case_bool_decide.
  - destruct (ok_or _ _); simpl; [|done..]. destruct (get_file_like _ _ _); simpl; [|done..]. destruct (files w !! _); [|done]. by intros [= <-].
  - destruct (dirfd =? CWD).
    + destruct (vlookup _ _); simpl; [|done..]. destruct (vlookup_follow _ _ _ _); simpl; [|done..]. by intros [= <-].
    + destruct (get_file_like _ _ _); simpl; [|done..]. destruct (files w !! _); [|done]. destruct (vlookup_follow _ _ _ _); simpl; [|done..]. by intros [= <-].
Qed.
Lemma open_inode_ok pid d p fl mode w : quiet ∅ w (open_inode pid d p fl mode w).2 ∧ ∀ i, (open_inode pid d p fl mode w).1 = Ok i → ∀ k e, i ≠ PipeNode k e.
Proof.
  unfold open_inode. destruct (contains fl OpenFlags.CREATE); [|split; [done|]; intros i; apply lookup_no_pipe]. destruct (split_path p) as [x y].
  destruct (lookup_inode_at _ _ _ _ _) as [dir|e|]; [|by split..]. destruct (vfind _ _ _) as [i|e|]; [destruct (contains fl OpenFlags.EXCLUSIVE); split; try done; by intros j [= <-]| |by split].
  destruct e; try by split. destruct (vcreate _ _ _ _) as [r x']. split; [done|]. unfold to_inode. destruct r; simpl; [|done..]. by intros j [= <-].
Qed.
Lemma openat_step n pid d p fl mode w : inv w → sized n w → Z.of_nat n < 2 ^ 32 → step_ok none ∅ n w (sys_openat pid d p fl mode w).2.
Proof.
  intros Hi Hs Hn. unfold sys_openat. destruct p as [p|e|]; [|by apply quiet_step..]. set (p' := if bool_decide _ then _ else _). set (fl' := from_bits_truncate _ _).
  pose proof (open_inode_ok pid d p' fl' mode w) as [Hq Hp]. destruct (open_inode _ _ _ _ _ _) as [[i|e|] w1]; simpl in *; [|by apply quiet_step..].
  destruct (add_file_ok n pid (file_new i fl' p') w1) as (H1 & H2 & H3); [by apply (files_quiet_inv ∅ w)|by apply (quiet_sized ∅ n w)|done|intros k e He; simpl in He; by destruct (Hp i eq_refl k e)|].
  apply (keeps_step _ _ _ (S n)); [done| |done|lia]. intros q g id f Hd Hg. apply H2; [|done]. destruct (quiet_desc ∅ w w1 q g id f Hq Hd) as (f' & Hd' & _ & Hf). rewrite <-Hf by set_solver. done.
Qed.

Lemma file_known pid fd id f w : get_file_like pid fd w = Ok id → dup_file id w = Ok f → known w f.
Proof.
  unfold get_file_like, dup_file. destruct (procs w !! pid) as [p|] eqn:Hp; [|done]. destruct (table p !! fd) as [i|] eqn:Ht; [|done]. simpl. intros [= ->].
  destruct (files w !! id) as [f'|] eqn:Hf; [|done]. intros [= ->] k d Hn. exists pid, fd, id, f. split; [|done]. apply desc_spec. eauto.
Qed.
Lemma dup_step n pid fd w : inv w → sized n w → Z.of_nat n < 2 ^ 32 → step_ok none ∅ n w (sys_dup pid fd w).2.
Proof.
  intros Hi Hs Hn. unfold sys_dup. destruct (get_file_like pid fd w) as [id|e|] eqn:Eg; simpl; [|by apply quiet_step..]. destruct (dup_file id w) as [f|e|] eqn:Ed; [|by apply quiet_step..].
  destruct (add_file_ok n pid f w Hi Hs Hn (file_known pid fd id f w Eg Ed)) as (H1 & H2 & H3). apply (keeps_step _ _ _ (S n)); [done|done|done|lia].
Qed.
Lemma dup2_ok pid a b w : inv w → inv (sys_dup2 pid a b w).2 ∧ keeps (λ q g, q = pid ∧ g = b) w (sys_dup2 pid a b w).2 ∧ (∀ n, sized n w → sized (S n) (sys_dup2 pid a b w).2).
Proof.
  intros Hi. unfold sys_dup2. destruct (close_file_ok pid b w Hi) as (C1 & C2 & C3 & C4). destruct (close_file pid b w) as [r w1]. simpl in C1, C2, C3, C4.
  assert (∀ n, sized n w → sized (S n) w1) as C5 by (intros n Hs; apply (sized_le n); [lia|]; by apply C4).
  destruct (get_file_like pid a w1) as [id|e|] eqn:Eg; simpl; [|by auto..]. destruct (dup_file id w1) as [f|e|] eqn:Ed; [|by auto..].
  destruct (insert_file_ok pid b f w1 C1 (file_known pid a id f w1 Eg Ed) C3) as (H1 & H2 & H3 & _). unfold add_file_at. split; [done|]. split; [|by auto].
  apply (files_keeps_trans _ _ w1); [done|]. by apply (keeps_weaken none).
Qed.

(** A new pipe. *)
Lemma new_pipe_inv w w' k pd : inv w → tables w' → pipes w' = pipes w ++ [pd] → k = length (pipes w) → (∀ j d, j ≠ k → live w' j d ↔ live w j d) →
  Pipe.end_cnt pd = Z.b2z (holds w' k Pipe.ReadEnd) + Z.b2z (holds w' k Pipe.WriteEnd) → inv w'.
Proof.
  intros [_ He] Ht Hp -> Hl Hc. split; [done|]. intros j p. rewrite Hp. intros [Hj|[Hj Hs]]%lookup_app_Some.
  - rewrite (He j p Hj). apply lookup_lt_Some in Hj. rewrite !(holds_ext w w' j) by (symmetry; apply Hl; lia). done.
  - apply list_lookup_singleton_Some in Hs as [Hj' <-]. by replace j with (length (pipes w)) by lia.
Qed.
Lemma set_pipes_live x w k d : live (set_pipes x w) k d ↔ live w k d.
Proof. done. Qed.
Lemma no_live w k d : tables w → (length (pipes w) ≤ k)%nat → ¬ live w k d.
Proof. intros Ht Hk Hl. pose proof (live_bound w k d Ht Hl). lia. Qed.
Lemma tables_pipes x w : tables w → (length (pipes w) ≤ length x)%nat → tables (set_pipes x w).
Proof. intros [I1 I2 I3] Hl. split; simpl; [done|done|]. intros id f k d Hf Hn. pose proof (I3 id f k d Hf Hn). lia. Qed.
Lemma drop_last w l p k : pipes w = l ++ [p] → k = length l → drop_pipe_end k w = set_pipes (l ++ [(Pipe.drop_end p).2]) w.
Proof. intros Hp ->. unfold drop_pipe_end. rewrite Hp. rewrite lookup_app_r, Nat.sub_diag by lia. simpl. rewrite insert_app_r_alt, Nat.sub_diag by lia. done. Qed.
Lemma holds_b2z w k d (b : bool) : (live w k d ↔ b = true) → holds w k d = b.
Proof. rewrite <-holds_live. intros Hx. destruct (holds w k d), b; naive_solver. Qed.

(** Adding a file, whatever its node. *)
Lemma add_file_cases n pid f w : tables w → sized n w → Z.of_nat n < 2 ^ 32 → (∀ k d, inode_of f = PipeNode k d → (k < length (pipes w))%nat) →
  (∃ fd w', add_file pid f w = (Ok fd, w') ∧ tables w' ∧ pipes w' = pipes w ∧ keeps none w w' ∧ sized (S n) w' ∧ ∀ k d, live w' k d ↔ inode_of f = PipeNode k d ∨ live w k d) ∨
  (∃ e, add_file pid f w = (Err e, w)) ∨ add_file pid f w = (Panic, w).
Proof.
  intros Ht Hs Hn Hk. unfold add_file, insert_file. destruct (procs w !! pid) as [p|] eqn:Hp; [|by auto]. destruct (_ <? _); [|eauto]. left.
  pose proof (free_fd n pid p w 0 Hs Hn Hp) as Hfd. fold (add_entry pid p (get_free_fd_from 0 (table p)) f w). eexists _, _. split; [done|]. split; [by apply add_entry_tables|]. split; [done|]. split; [|split].
  - intros q g id f' Hd _. rewrite add_entry_desc by done. rewrite decide_False; [done|]. intros [-> ->]. apply desc_spec in Hd as (p' & Hp' & Ht' & _). congruence.
  - apply set_process_sized; [by apply (sized_le n); [lia|]|]. simpl. rewrite map_size_insert_None by done. specialize (Hs pid p Hp). lia.
  - intros k d. by apply add_entry_live.
Qed.
(** The end of [sys_pipe2], with the ends that have got a descriptor. *)
Lemma pipe_done n (a b : bool) w wx pd : inv w → tables wx → (length (pipes wx) ≤ S (length (pipes w)))%nat → keeps none w wx → sized (n + 3) wx →
  (∀ j d, live wx j d ↔ (j = length (pipes w) ∧ match d with Pipe.ReadEnd => a | Pipe.WriteEnd => b end = true) ∨ live w j d) →
  Pipe.end_cnt pd = Z.b2z a + Z.b2z b → step_ok none ∅ n w (set_pipes (pipes w ++ [pd]) wx).
Proof.
  intros Hi Ht Hlen Hk Hs Hl Hc. apply (keeps_step _ _ _ (n + 3)); [|done|done|lia]. set (k := length (pipes w)) in *.
  assert (∀ d, holds (set_pipes (pipes w ++ [pd]) wx) k d = match d with Pipe.ReadEnd => a | Pipe.WriteEnd => b end) as Hh.
  { intros d. apply holds_b2z. rewrite set_pipes_live, Hl. pose proof (no_live w k d (proj1 Hi) ltac:(done)). naive_solver. }
  apply (new_pipe_inv w _ k pd); [done| |done|done| |by rewrite !Hh].
  - apply tables_pipes; [done|]. rewrite length_app. simpl. lia.
  - intros j d Hj. rewrite set_pipes_live, Hl. naive_solver.
Qed.

Lemma pipe2_step n pid fl out w : inv w → sized n w → Z.of_nat n + 1 < 2 ^ 32 → step_ok none ∅ n w (sys_pipe2 pid fl out w).2.
Proof.
  intros Hi Hs Hn. pose proof (proj1 Hi) as Ht. set (k := length (pipes w)). set (w0 := set_pipes (pipes w ++ [Pipe.create_pair]) w).
  assert (length (pipes w0) = S k) as Hl0 by (simpl; rewrite length_app; simpl; lia).
  assert (tables w0) as T0 by (apply tables_pipes; [done|fold w0; simpl in Hl0; lia]).
  assert (∀ x y, set_pipes x (set_pipes y w) = set_pipes x w) as Hset by done.
  assert (∀ j d, live w j d ↔ (j = length (pipes w) ∧ match d with Pipe.ReadEnd => false | Pipe.WriteEnd => false end = true) ∨ live w j d) as Hnone by (intros j []; naive_solver).
  unfold sys_pipe2. fold k w0. set (base := Z.land _ _). set (fr := file_new _ _ (of_string "pipe_r:[]")). set (fw := file_new _ _ (of_string "pipe_w:[]")).
  assert (∀ k' d, inode_of fr = PipeNode k' d ∨ inode_of fw = PipeNode k' d → (k' < length (pipes w0))%nat) as Hb by (intros k' d [[= <- _]|[= <- _]]; lia).
  destruct (add_file_cases n pid fr w0 T0 Hs ltac:(lia) (λ k' d E, Hb k' d (or_introl E))) as [(fd & w1 & -> & T1 & P1 & K1 & S1 & L1)|[[e ->]| ->]].
  - rewrite <-P1 in Hb. destruct (add_file_cases (S n) pid fw w1 T1 S1 ltac:(lia) (λ k' d E, Hb k' d (or_intror E))) as [(fd2 & w2 & -> & T2 & P2 & K2 & S2 & L2)|[[e ->]| ->]]; simpl.
    + replace w2 with (set_pipes (pipes w ++ [Pipe.create_pair]) w2) by (destruct w2; simpl in *; unfold set_pipes; simpl; by rewrite P2, P1).
      apply (pipe_done n true true); try done; [rewrite P2, P1; lia|by apply (files_keeps_trans _ _ w1)|by apply (sized_le (S (S n))); [lia|]|].
      intros j d. rewrite L2, L1. unfold w0. rewrite set_pipes_live. fold k. destruct d; simpl; naive_solver.
    + rewrite (drop_last w1 (pipes w) Pipe.create_pair k) by (rewrite ?P1; done). apply (pipe_done n true false); try done; [rewrite P1; lia|by apply (sized_le (S n)); [lia|]|].
      intros j d. rewrite L1. unfold w0. rewrite set_pipes_live. fold k. destruct d; simpl; naive_solver.
    + rewrite (drop_last w1 (pipes w) Pipe.create_pair k) by (rewrite ?P1; done). apply (pipe_done n true false); try done; [rewrite P1; lia|by apply (sized_le (S n)); [lia|]|].
      intros j d. rewrite L1. unfold w0. rewrite set_pipes_live. fold k. destruct d; simpl; naive_solver.
  - simpl. rewrite (drop_last w0 (pipes w) Pipe.create_pair k) by done. erewrite (drop_last _ (pipes w)) by done. unfold w0. rewrite !Hset. apply (pipe_done n false false); try done; [lia|by apply (sized_le n); [lia|]].
  - simpl. rewrite (drop_last w0 (pipes w) Pipe.create_pair k) by done. erewrite (drop_last _ (pipes w)) by done. unfold w0. rewrite !Hset. apply (pipe_done n false false); try done; [lia|by apply (sized_le n); [lia|]].
Qed.

Lemma close_file_files pid fd w : files (close_file pid fd w).2 = files w.
Proof. unfold close_file. destruct (procs w !! pid) as [p|]; [|done]. by destruct (table p !! fd). Qed.
Lemma dup2_new pid a b w r w1 : inv w → sys_dup2 pid a b w = (Ok r, w1) → ∃ f, desc w1 pid b = Some (length (files w), f).
Proof.
  intros Hi. unfold sys_dup2. destruct (close_file_ok pid b w Hi) as (C1 & _ & C3 & _). pose proof (close_file_files pid b w) as Hf. destruct (close_file pid b w) as [r0 w0]. simpl in *.
  destruct (get_file_like pid a w0) as [id|e|] eqn:Eg; simpl; [|done..]. destruct (dup_file id w0) as [f|e|] eqn:Ed; [|done..]. unfold add_file_at. intros E.
  destruct (insert_file_ok pid b f w0 C1 (file_known pid a id f w0 Eg Ed) C3) as (_ & _ & _ & [[Hne _]|[_ Hd]]); rewrite E in *; simpl in *.
  - unfold insert_file in E. destruct (procs w0 !! pid); [|done]. destruct (_ <? _); [|done]. congruence.
  - exists f. by rewrite <-Hf.
Qed.

(** The files of some descriptors of a process. *)
Definition ids (pid : Z) (fds : list Z) (w : world) : gset nat := list_to_set (omap (λ fd, match get_file_like pid fd w with Ok id => Some id | _ => None end) fds).
Lemma ids_in pid fd fds w id : fd ∈ fds → get_file_like pid fd w = Ok id → id ∈ ids pid fds w.
Proof. intros Hin Hg. unfold ids. apply elem_of_list_to_set, list_elem_of_omap. exists fd. by rewrite Hg. Qed.

Lemma fcntl_step n pid fd cmd arg w : inv w → sized n w → Z.of_nat n < 2 ^ 32 → step_ok none (ids pid [fd] w) n w (sys_fcntl pid fd cmd arg w).2.
Proof.
  intros Hi Hs Hn. unfold sys_fcntl. destruct (get_file_like pid fd w) as [id|e|] eqn:Eg; [|by apply quiet_step..]. destruct (files w !! id) as [f|] eqn:Hf; [|by apply quiet_step].
  assert (∀ x, step_ok none (ids pid [fd] w) n w (set_file id (set_flags x f) w)) as Hset.
  { intros x. apply quiet_step; [done|done|]. apply (set_file_quiet _ id f); [done|done|]. apply (ids_in pid fd); [set_solver|done]. }
  assert (∀ b : bool, step_ok none (ids pid [fd] w) n w
    (let new_fd := match procs w !! pid with Some p => get_free_fd_from arg (table p) | None => 0 end in
     match sys_dup2 pid fd new_fd w with
     | (Ok _, w) =>
         match (let? id := get_file_like pid new_fd w in let? f := dup_file id w in Ok (id, f)) with
         | Ok (id, f) => (Ok new_fd, set_file id (set_flags (with_cloexec b (flags f)) f) w)
         | Err e => (Err e, w)
         | Panic => (Panic, w)
         end
     | (Err e, w) => (Err e, w)
     | (Panic, w) => (Panic, w)
     end).2) as Hdup; [|by destruct (fcntl_cmd cmd) as [[]|]; try apply Hset; try apply Hdup; try (by apply quiet_step)].
  intros b. cbn zeta. destruct (procs w !! pid) as [p|] eqn:Hp; [|unfold get_file_like in Eg; by rewrite Hp in Eg]. set (new_fd := get_free_fd_from arg (table p)).
  pose proof (free_fd n pid p w arg Hs Hn Hp) as Hfree. fold new_fd in Hfree.
  assert (keeps none w (sys_dup2 pid fd new_fd w).2 ∧ inv (sys_dup2 pid fd new_fd w).2 ∧ sized (S n) (sys_dup2 pid fd new_fd w).2) as (K & I & Z_).
  { destruct (dup2_ok pid fd new_fd w Hi) as (D1 & D2 & D3). split; [|by auto]. intros q g i f' Hd _. apply D2; [done|]. intros [-> ->]. apply desc_spec in Hd as (p' & Hp' & Ht' & _). congruence. }
  pose proof (λ r w1, dup2_new pid fd new_fd w r w1 Hi) as Hnew. destruct (sys_dup2 pid fd new_fd w) as [[r|e|] w1]; simpl in *; [|by apply (keeps_step _ _ _ (S n)); [| | |lia]..].
  destruct (get_file_like pid new_fd w1) as [id'|e|] eqn:Eg'; simpl; [|by apply (keeps_step _ _ _ (S n)); [| | |lia]..]. destruct (dup_file id' w1) as [f'|e|] eqn:Ed; simpl; [|by apply (keeps_step _ _ _ (S n)); [| | |lia]..].
  destruct (Hnew r w1 eq_refl) as [f1 (p1 & Hp1 & Ht1 & Hf1)%desc_spec]. unfold get_file_like in Eg'. rewrite Hp1, Ht1 in Eg'. injection Eg' as <-.
  unfold dup_file in Ed. rewrite Hf1 in Ed. injection Ed as <-. set (w2 := set_file _ _ w1).
  assert (quiet ({[length (files w)]} : gset nat) w1 w2) as Hq by (apply (set_file_quiet _ _ f1); [done|done|set_solver]).
  apply (keeps_step _ _ _ (S n)); [exact (files_quiet_inv _ w1 w2 I Hq)| |exact (quiet_sized _ _ w1 w2 Z_ Hq)|lia].
  intros q g i f2 Hd Hg. destruct (quiet_desc _ w1 w2 q g i f2 Hq (K q g i f2 Hd Hg)) as (f3 & Hd3 & _ & Hf3). rewrite <-Hf3; [done|].
  apply desc_spec in Hd as (p2 & Hp2 & Ht2 & _). pose proof (i_ref w (proj1 Hi) q p2 g i Hp2 Ht2). rewrite elem_of_singleton. lia.
Qed.

(** Processes. *)
Lemma same_table_quiet pid p p' w : procs w !! pid = Some p → table p' = table p → quiet ∅ w (set_process pid p' w).
Proof.
  intros Hp Ht. split; simpl; try done. intros q. destruct (decide (q = pid)) as [->|]; [by rewrite lookup_insert_eq, Hp; simpl; rewrite Ht|by rewrite lookup_insert_ne].
Qed.
Lemma chdir_quiet pid p w : quiet ∅ w (sys_chdir pid p w).2.
Proof.
  unfold sys_chdir. destruct p as [p|e|]; [|done..]. destruct (let? i := _ in lx (inode_metadata i w)) as [[sz ty]|e|]; [|by destruct (procs w !! pid)..].
  destruct (procs w !! pid) as [q|] eqn:Hp; [|done]. case_bool_decide; [|done]. by apply (same_table_quiet pid q).
Qed.
Lemma limit_quiet pid l w : quiet ∅ w (set_file_limit pid l w).
Proof. unfold set_file_limit. destruct (procs w !! pid) as [q|] eqn:Hp; [|done]. by apply (same_table_quiet pid q). Qed.

Lemma fork_step n pid child w : inv w → sized n w → step_ok none ∅ n w (fork_files pid child w).
Proof.
  intros Hi Hs. unfold fork_files. destruct (procs w !! pid) as [p|] eqn:Hp; [|by apply quiet_step]. destruct (procs w !! child) as [c|] eqn:Hc; [by apply quiet_step|].
  set (w' := set_process child _ w). pose proof Hi as [[I1 I2 I3] He].
  assert (∀ q g id f, desc w q g = Some (id, f) → desc w' q g = Some (id, f)) as Hk.
  { intros q g id f (p' & Hp' & Ht & Hf)%desc_spec. apply desc_spec. exists p'. split; [|done]. simpl. rewrite lookup_insert_ne; [done|congruence]. }
  assert (∀ q p', procs w' !! q = Some p' → ∃ q' p0, procs w !! q' = Some p0 ∧ table p' = table p0) as Hold.
  { simpl. intros q p' [[<- <-]|[_ Hq]]%lookup_insert_Some; [by exists pid, p|by exists q, p']. }
  assert (∀ k d, live w k d ↔ live w' k d) as Hl.
  { intros k d. split; intros (q & g & id & f & Hd & Hn); [exists q, g, id, f; split; [by apply Hk|done]|].
    apply desc_spec in Hd as (p' & Hp' & Ht & Hf). destruct (Hold q p' Hp') as (q' & p0 & Hp0 & E). exists q', g, id, f. split; [|done]. apply desc_spec. exists p0. by rewrite <-E. }
  split; [split; [split|]|split].
  - intros q p' g id Hq Ht. destruct (Hold q p' Hq) as (q' & p0 & Hp0 & E). apply (I1 q' p0 g id Hp0). by rewrite <-E.
  - intros q p' g g' id Hq Ht Ht'. destruct (Hold q p' Hq) as (q' & p0 & Hp0 & E). apply (I2 q' p0 g g' id Hp0); by rewrite <-E.
  - done.
  - intros k pp Hpp. rewrite (He k pp Hpp). by rewrite !(holds_ext w w' k) by apply Hl.
  - intros q g id f Hd _ _. by apply Hk.
  - apply (sized_le n); [lia|]. apply set_process_sized; [done|]. simpl. by apply (Hs pid).
Qed.

Lemma settle_step (g : Z → Z → Prop) n w w' : inv w → sized n w → fewer w w' → (∀ pid fd id f, desc w pid fd = Some (id, f) → ¬ g pid fd → desc w' pid fd = Some (id, f)) → step_ok g ∅ n w (settle w w').
Proof. intros Hi Hs Hf Hk. apply (keeps_step _ _ _ n); [by apply settle_inv|by intros pid fd id f Hd Hg; apply Hk|exact (fewer_sized n w w' Hs Hf)|lia]. Qed.
Lemma exit_step n pid w : inv w → sized n w → step_ok (λ q _, q = pid) ∅ n w (drop_process pid w).
Proof.
  intros Hi Hs. apply settle_step; [done|done| |].
  - split; [done|done|]. simpl. intros q p' g id [_ Hq]%lookup_delete_Some Ht. by exists p'.
  - intros q g id f (p & Hp & Ht & Hf)%desc_spec Hg. apply desc_spec. exists p. simpl. by rewrite lookup_delete_ne.
Qed.
Lemma execve_step n pid w : inv w → sized n w →
  step_ok (λ q g, q = pid ∧ ∃ id f, desc w q g = Some (id, f) ∧ OpenFlags.close_on_exec (flags f) = true) ∅ n w (remove_cloexec_files pid w).
Proof.
  intros Hi Hs. unfold remove_cloexec_files. destruct (procs w !! pid) as [p|] eqn:Hp; [|by apply quiet_step]. apply settle_step; [done|done| |].
  - split; [done|done|]. simpl. intros q p' g id [[<- <-]|[_ Hq]]%lookup_insert_Some Ht; [|by exists p']. exists p. split; [done|]. simpl in Ht. by apply map_lookup_filter_Some in Ht as [? _].
  - intros q g id f Hd Hg. pose proof Hd as (p' & Hp' & Ht & Hf)%desc_spec. apply desc_spec. simpl. destruct (decide (q = pid)) as [->|]; [|rewrite lookup_insert_ne by done; by exists p'].
    rewrite lookup_insert_eq. eexists. split; [done|]. rewrite Hp in Hp'. injection Hp' as <-. split; [|done]. simpl. apply map_lookup_filter_Some. split; [done|]. simpl. unfold close_on_exec. rewrite Hf.
    destruct (OpenFlags.close_on_exec (flags f)) eqn:E; [|done]. destruct Hg. split; [done|]. by exists id, f.
Qed.
Lemma spawn_step n pid a b w : inv w → sized n w → procs w !! pid = None → step_ok none ∅ n w (process_new pid (VNode a) (VNode b) w).
Proof.
  intros Hi Hs Hp. pose proof Hi as [[I1 I2 I3] He]. set (w' := process_new pid (VNode a) (VNode b) w). set (n0 := length (files w)).
  assert (∀ g id, ({[0 := n0; 1 := S n0; 2 := S (S n0)]} : gmap Z nat) !! g = Some id → (n0 ≤ id < n0 + 3)%nat ∧ Z.of_nat id = Z.of_nat n0 + g) as Ht.
  { intros g id. rewrite !lookup_insert_Some, lookup_singleton_Some. intros [[<- <-]|[_ [[<- <-]|[_ [<- <-]]]]]; lia. }
  assert (∀ k f, files w' !! k = Some f → files w !! k = Some f ∨ (n0 ≤ k)%nat ∧ ∃ v, inode_of f = VNode v) as Hf.
  { simpl. intros k f [Hk|[Hk Hin]]%lookup_app_Some; [by left|]. right. split; [done|].
    destruct (k - length (files w))%nat as [|[|[|j]]]; [by injection Hin as <-; eexists..|done]. }
  assert (∀ q g id f, desc w q g = Some (id, f) → desc w' q g = Some (id, f)) as Hk.
  { intros q g id f (p & Hq & Htq & Hfq)%desc_spec. apply desc_spec. exists p. simpl. rewrite lookup_insert_ne by congruence. split; [done|]. split; [done|]. by apply lookup_app_l_Some. }
  assert (∀ k d, live w k d ↔ live w' k d) as Hl.
  { intros k d. split; intros (q & g & id & f & Hd & Hn); exists q, g, id, f; (split; [|done]); [by apply Hk|]. apply desc_spec in Hd as (p & Hq & Htq & Hfq). apply desc_spec.
    apply Hf in Hfq as [Hfq|[_ [v Hv]]]; [|congruence]. simpl in Hq. apply lookup_insert_Some in Hq as [[<- <-]|[_ Hq]]; [|by exists p].
    simpl in Htq. apply Ht in Htq as [Hg _]. apply lookup_lt_Some in Hfq. fold n0 in Hfq. lia. }
  split; [split; [split|]|split].
  - simpl. intros q p g id [[<- <-]|[_ Hq]]%lookup_insert_Some Hg; rewrite length_app; simpl; fold n0; [apply Ht in Hg; lia|]. pose proof (I1 q p g id Hq Hg). unfold n0. lia.
  - simpl. intros q p g g' id [[<- <-]|[_ Hq]]%lookup_insert_Some Hg Hg'; [|by apply (I2 q p g g' id)]. apply Ht in Hg, Hg'. lia.
  - intros id f k d Hfi Hn. apply Hf in Hfi as [Hfi|[_ [v Hv]]]; [by apply (I3 id f k d)|congruence].
  - intros k pp Hpp. rewrite (He k pp Hpp). by rewrite !(holds_ext w w' k) by apply Hl.
  - intros q g id f Hd _ _. by apply Hk.
  - apply set_process_sized; [by apply (sized_le n); [lia|]|]. simpl. rewrite !map_size_insert, map_size_singleton. repeat case_match; unfold id; lia.
Qed.

(** *** All calls *)
(** The descriptors that a call closes, and those whose offset or flags it may change. *)
Definition gone (o : op) (w : world) (pid fd : Z) : Prop :=
  match o with
  | Close q g | Dup2 q _ g => pid = q ∧ fd = g
  | Execve q => pid = q ∧ ∃ id f, desc w pid fd = Some (id, f) ∧ OpenFlags.close_on_exec (flags f) = true
  | Exit q => pid = q
  | _ => False
  end.
Definition moves (o : op) : Z * list Z :=
  match o with
  | Read pid fd _ _ | Write pid fd _ | Readv pid fd _ _ | Writev pid fd _ | Lseek pid fd _ _ | Getdents pid fd _ _ | Fcntl pid fd _ _ => (pid, [fd])
  | Copy pid a _ b _ _ _ _ => (pid, [a; b])
  | _ => (0, [])
  end.
Definition moved (o : op) (w : world) : gset nat := ids (moves o).1 (moves o).2 w.

Lemma on_file_quiet {A} S pid fd w (f : nat → outcome A * world) : (∀ id, get_file_like pid fd w = Ok id → quiet S w (f id).2) → quiet S w (on_file pid fd w f).2.
Proof. intros Hf. unfold on_file. destruct (get_file_like pid fd w) as [id|e|]; [by apply Hf|done..]. Qed.
Lemma deliver_world {A} out (r : outcome A * world) : (deliver out r).2 = r.2.
Proof. destruct r as [[[]|] w], out; done. Qed.
Lemma one_quiet pid fd w id w' : get_file_like pid fd w = Ok id → quiet {[id]} w w' → quiet (ids pid [fd] w) w w'.
Proof. intros Hg. apply quiet_weaken. intros x ->%elem_of_singleton. apply (ids_in pid fd); [set_solver|done]. Qed.

Lemma copy_quiet pid a x b y n u v w : quiet (ids pid [a; b] w) w (sys_copy_file_range pid a x b y n u v w).2.
Proof.
  unfold sys_copy_file_range. apply on_file_quiet. intros i Hi. apply on_file_quiet. intros o Ho. apply (quiet_weaken {[i; o]}).
  { intros z. rewrite elem_of_union, !elem_of_singleton. intros [-> | ->]; [by apply (ids_in pid a); [set_solver|]|by apply (ids_in pid b); [set_solver|]]. }
  assert (∀ w pos, quiet {[i; o]} w (file_seek i pos w).2) as Si by (intros w' pos; eapply quiet_weaken; [|apply file_seek_quiet]; set_solver).
  assert (∀ w pos, quiet {[i; o]} w (file_seek o pos w).2) as So by (intros w' pos; eapply quiet_weaken; [|apply file_seek_quiet]; set_solver).
  destruct (read_ptr x) as [xv|e|]; [|done..].
  assert (quiet {[i; o]} w (match xv with Some v => (Ok v, w) | None => file_seek i (Current 0) w end).2) as Q1 by (destruct xv; [done|apply Si]).
  destruct (match xv with Some v => (Ok v, w) | None => file_seek i (Current 0) w end) as [[ro|e|] w1]; simpl in Q1 |- *; [|done..].
  pose proof (files_quiet_trans _ _ _ _ Q1 (So w1 (Current 0))) as Q2. destruct (file_seek o (Current 0) w1) as [[orig|e|] w2]; simpl in Q2 |- *; [|done..].
  destruct (read_ptr y) as [yv|e|]; [|done..].
  assert (quiet {[i; o]} w2 (match yv with Some v => file_seek o (Start v) w2 | None => (Ok 0, w2) end).2) as Q3 by (destruct yv; [apply So|done]).
  destruct (match yv with Some v => file_seek o (Start v) w2 | None => (Ok 0, w2) end) as [[wo|e|] w3]; simpl in Q3 |- *; [|by apply (files_quiet_trans _ _ w2)..].
  pose proof (copy_loop_quiet (Z.to_nat n) i o n ro 0 0 w3) as Q4. apply (quiet_weaken {[o]} {[i; o]}) in Q4; [|set_solver].
  destruct (copy_loop _ _ _ _ _ _ _ _) as [[[[[ro' br] tot]|e|]|] w4]; simpl in Q4 |- *; try (by apply (files_quiet_trans _ _ w2); [|apply (files_quiet_trans _ _ w3)]).
  apply (files_quiet_trans _ _ w2); [done|]. apply (files_quiet_trans _ _ w3); [done|]. apply (files_quiet_trans _ _ w4); [done|]. apply copy_end_quiet.
Qed.

(** Reading, writing, moving the offset: the calls that leave the tables alone. *)
Lemma content_quiet o w : match o with Read _ _ _ _ | Pread _ _ _ _ _ | Write _ _ _ | Pwrite _ _ _ _ | Readv _ _ _ _ | Writev _ _ _ | Lseek _ _ _ _ | Ftruncate _ _ _ | Getdents _ _ _ _ | Copy _ _ _ _ _ _ _ _ => True | _ => False end →
  quiet (moved o w) w (exec o w).
Proof.
  intros Ho. destruct o; try done; unfold moved; simpl.
  - apply on_file_quiet. intros id Hid. rewrite deliver_world. apply (one_quiet pid fd w id); [done|]. apply file_read_quiet.
  - apply on_file_quiet. intros id Hid. rewrite deliver_world. by apply file_read_at_quiet.
  - apply on_file_quiet. intros id Hid. destruct (user data) as [l|e|]; [|done..]. apply (one_quiet pid fd w id); [done|]. apply file_write_quiet.
  - apply on_file_quiet. intros id Hid. destruct (user data) as [l|e|]; [|done..]. by apply file_write_at_quiet.
  - unfold sys_readv. destruct (user lens) as [l|e|]; [|done..]. apply on_file_quiet. intros id Hid. apply (one_quiet pid fd w id); [done|].
    pose proof (file_read_quiet id (total_len l) w) as Hq. destruct (file_read _ _ _) as [[[d|e|]|] w1]; simpl in *; [by destruct out|done..].
  - unfold sys_writev. destruct (user bufs) as [l|e|]; [|done..]. apply on_file_quiet. intros id Hid. apply (one_quiet pid fd w id); [done|]. apply file_write_quiet.
  - unfold sys_lseek. destruct (if whence =? 0 then _ else _) as [pos|]; [|done]. apply on_file_quiet. intros id Hid. apply (one_quiet pid fd w id); [done|]. apply file_seek_quiet.
  - apply on_file_quiet. intros id Hid. pose proof (file_set_len_quiet (ids 0 [] w) id len w) as Hq. by destruct (file_set_len _ _ _).
  - apply copy_quiet.
  - apply on_file_quiet. intros id Hid. destruct (files w !! id) as [f|]; [|done]. destruct (lx _) as [[sz ty]|e|]; [|done..]. case_bool_decide; cbn [negb]; [|done].
    pose proof (dents_loop_quiet (S (Z.to_nat buf_size)) id (dirent_type ty) (writer_new (zeros buf_size)) w) as Hq. destruct (dents_loop _ _ _ _ _) as [r w1]. rewrite deliver_world. by apply (one_quiet pid fd w id).
Qed.

Lemma exec_step n o w : inv w → sized n w → Z.of_nat n + 1 < 2 ^ 32 → step_ok (gone o w) (moved o w) n w (exec o w).
Proof.
  intros Hi Hs Hn. pose proof (content_quiet o w) as Hc.
  assert (∀ w', step_ok none ∅ n w w' → step_ok (gone o w) (moved o w) n w w') as Hw.
  { intros w' (H1 & H2 & H3). split; [done|]. split; [|done]. intros pid fd id f Hd _ _. apply H2; [done|by intros []|set_solver]. }
  destruct o; try (by apply quiet_step; [..|apply Hc]); clear Hc; simpl in *.
  - by apply Hw, openat_step; [..|lia].
  - unfold sys_close. destruct (close_file_ok pid fd w Hi) as (H1 & H2 & _ & H4). destruct (close_file pid fd w) as [r w1]. simpl in *. apply (keeps_step _ _ _ n); [done|done|by apply H4|lia].
  - by apply Hw, dup_step; [..|lia].
  - destruct (dup2_ok pid fd1 fd2 w Hi) as (H1 & H2 & H3). apply (keeps_step _ _ _ (S n)); [done|done|by apply H3|lia].
  - by apply Hw, pipe2_step.
  - destruct (fcntl_step n pid fd cmd arg w Hi Hs) as (H1 & H2 & H3); [lia|]. by split.
  - apply Hw, quiet_step; [done|done|]. apply chdir_quiet.
  - apply Hw, quiet_step; [done|done|]. apply limit_quiet.
  - case_bool_decide as Hp; [by apply quiet_step|]. apply Hw, spawn_step; [done|done|]. by apply eq_None_not_Some.
  - by apply Hw, fork_step.
  - destruct (execve_step n pid w Hi Hs) as (H1 & H2 & H3). split; [done|]. split; [|done]. intros q g id f Hd Hg _. apply H2; [done|done|set_solver].
  - destruct (exit_step n pid w Hi Hs) as (H1 & H2 & H3). split; [done|]. split; [|done]. intros q g id f Hd Hg _. apply H2; [done|done|set_solver].
  - by apply quiet_step.
Qed.

Lemma take_min (n : nat) (l : bytes) : take (Nat.min n (length l)) l = take n l.
Proof. destruct (decide (n ≤ length l)%nat); [by rewrite Nat.min_l|rewrite Nat.min_r by lia; by rewrite !take_ge by lia]. Qed.
Lemma files_init_inv x : inv (init x).
Proof. split; [split; simpl; [by intros pid p fd id ?%lookup_empty_Some|by intros pid p fd fd' id ?%lookup_empty_Some|done]|by intros k p]. Qed.
Lemma files_run_inv os x : 3 * Z.of_nat (length os) + 1 < 2 ^ 32 → inv (run os (init x)) ∧ sized (3 * length os) (run os (init x)).
Proof.
  induction os as [|o os IH] using rev_ind; [intros _; split; [apply files_init_inv|by intros pid p Hp]|]. rewrite length_app. simpl. intros Hl. destruct IH as [Hi Hs]; [lia|].
  unfold run. rewrite foldl_app. simpl. fold (run os (init x)). destruct (exec_step (3 * length os) o _ Hi Hs) as (H1 & _ & H3); [lia|]. split; [done|]. apply (sized_le (3 * length os + 3)); [lia|done].
Qed.

(** C7. Descriptors are independent: after any history, a call changes neither what a descriptor
    refers to nor the offset and flags of its file, unless it closes the descriptor, works on this
    descriptor, or works on a descriptor of another process for the very same file (which only
    [fork] shares).  In particular two descriptors of one process never share an offset. *)
Theorem descriptors_independent os x o pid fd id f : 3 * Z.of_nat (length os) + 1 < 2 ^ 31 → let w := run os (init x) in
  desc w pid fd = Some (id, f) → ¬ gone o w pid fd →
  (∀ g, g ∈ (moves o).2 → (pid = (moves o).1 → fd ≠ g) ∧ (pid ≠ (moves o).1 → get_file_like (moves o).1 g w ≠ Ok id)) →
  desc (exec o w) pid fd = Some (id, f).
Proof.
  intros Hl w Hd Hg Hm. destruct (files_run_inv os x) as [Hi Hs]; [lia|]. fold w in Hi, Hs. destruct (exec_step (3 * length os) o w Hi Hs) as (_ & H2 & _); [lia|]. apply H2; [done|done|].
  unfold moved, ids. rewrite elem_of_list_to_set, list_elem_of_omap. intros (g & Hin & Hid). destruct (get_file_like (moves o).1 g w) as [i|e|] eqn:Eg; [|done..]. injection Hid as ->.
  destruct (Hm g Hin) as [Hm1 Hm2]. destruct (decide (pid = (moves o).1)) as [Hp|Hp]; [|by destruct (Hm2 Hp)]. apply (Hm1 Hp).
  apply desc_spec in Hd as (p & Hpp & Ht & _). unfold get_file_like in Eg. rewrite <-Hp, Hpp in Eg. destruct (table p !! g) as [i|] eqn:Et; [|done]. injection Eg as ->. by apply (i_inj w (proj1 Hi) pid p fd g id).
Qed.

(** C25. The end of a pipe: after any history, a read from a pipe through any descriptor for its read
    end gives the bytes that are there; without bytes it gives the end of the data exactly if no
    descriptor of any process refers to the write end any more, and otherwise waits or, if it must
    not, fails with [EAGAIN]. *)
Theorem pipe_eof_exact os x pid fd id f k n : 3 * Z.of_nat (length os) + 1 < 2 ^ 31 → let w := run os (init x) in
  desc w pid fd = Some (id, f) → inode_of f = PipeNode k Pipe.ReadEnd → OpenFlags.readable (flags f) = true → 0 < n →
  ∃ p, pipes w !! k = Some p ∧ (sys_read pid fd n None w).1 =
    match Pipe.buf p with
    | [] => if bool_decide (map_Exists (λ _ q, map_Exists (λ _ i, (inode_of <$> files w !! i) = Some (PipeNode k Pipe.WriteEnd)) (table q)) (procs w))
            then (if OpenFlags.non_block (flags f) then Done (Err LxError.EAGAIN) else Waits)
            else Done (Ok [])
    | b => Done (Ok (ztake n b))
    end.
Proof.
  intros Hl w Hd Hn Hr Hpos. destruct (files_run_inv os x) as [[Ht He] _]; [lia|]. fold w in Ht, He. pose proof Hd as (q & Hq & Htq & Hf)%desc_spec.
  destruct (lookup_lt_is_Some_2 (pipes w) k (i_pipe w Ht id f k _ Hf Hn)) as [p Hp]. exists p. split; [done|].
  assert (holds w k Pipe.ReadEnd = true) as Hread by (apply holds_live; by exists pid, fd, id, f). pose proof (He k p Hp) as Hc. rewrite Hread in Hc.
  set (P := map_Exists _ _). assert (holds w k Pipe.WriteEnd = bool_decide P) as Hw.
  { apply holds_b2z. rewrite bool_decide_eq_true. unfold P. split.
    - intros (q' & g & i & h & (p' & Hp' & Ht' & Hf')%desc_spec & Hin). exists q', p'. split; [done|]. exists g, i. split; [done|]. by rewrite Hf', <-Hin.
    - intros (q' & p' & Hp' & g & i & Hg & Hi). destruct (files w !! i) as [h|] eqn:Eh; [|done]. injection Hi as Hi. exists q', g, i, h. split; [apply desc_spec; eauto|done]. }
  unfold sys_read, on_file, get_file_like. rewrite Hq, Htq. simpl. unfold file_read, file_read_at. rewrite Hf, Hr, Hn. simpl. rewrite Hp. unfold Pipe.read_at.
  destruct (Nat.eqb_spec (Z.to_nat n) 0); [lia|]. rewrite Hw in Hc. destruct (Pipe.buf p) as [|c b] eqn:Eb.
  - rewrite bool_decide_true by done. destruct (bool_decide P) eqn:EP; simpl in Hc.
    + rewrite Hc. simpl. by destruct (OpenFlags.non_block (flags f)).
    + rewrite Hc. simpl. rewrite Nat.min_0_r. simpl. destruct (bus_clear _ _). simpl. by destruct (OpenFlags.non_block (flags f)).
  - rewrite bool_decide_false by done. cbn [andb]. rewrite take_min. destruct (if bool_decide _ then _ else _) as [ws bus]. simpl. by destruct (OpenFlags.non_block (flags f)).
Qed.
End files.

(** ** Regular files and directories
    What the calls rely on: reading a regular file gives the bytes of its content; a write replaces some of them,
    beginning with the first one and perhaps not all that it was given, or fails and changes no content; and the entries of a directory are numbered. *)
Class RegularVfs (FS node : Type) `{Vfs FS node} := {
  regular : node → Prop;
  content : FS → node → bytes;
  directory : node → Prop;
  entries : FS → node → list bytes;
  read_law x n off len : regular n → 0 ≤ off → 0 ≤ len → vread x n off len = (Ok (ztake len (zdrop off (content x n))), x);
  write_law x n off data : regular n → 0 ≤ off → off + zlen data < 2 ^ 63 →
    match vwrite x n off data with
    | (Ok k, x') => 0 ≤ k ≤ zlen data ∧ content x' n = (if decide (k = 0) then content x n else splice off (ztake k data) (content x n)) ∧ ∀ m, m ≠ n → content x' m = content x m
    | (Err _, x') => ∀ m, content x' m = content x m
    | (Panic, _) => False
    end;
  type_law x n : directory n → ∃ size, vmetadata x n = Ok (size, TDir);
  entry_law x n k : directory n → 0 ≤ k → ventry x n k = match entries x n !! Z.to_nat k with Some s => Ok s | None => Err FsError.EntryNotFound end
}.

Section regular.
Context {FS node : Type} `{EqDecision node} `{Vfs FS node} `{!RegularVfs FS node}.
Implicit Types (w : world (FS := FS) (node := node)) (f : File (node := node)).

(** *** Copying *)
(** [data] has been written through the file [o], which was [fo] before, from its offset on. *)
Record copied (o : nat) fo (n : node) (data : bytes) w w' : Prop := {
  c_procs : procs w' = procs w;
  c_pipes : pipes w' = pipes w;
  c_files : files w' = <[o := set_offset (offset fo + zlen data) fo]> (files w);
  c_content : content (fs w') n = if decide (data = []) then content (fs w) n else splice (offset fo) data (content (fs w) n);
  c_others m : m ≠ n → content (fs w') m = content (fs w) m
}.

(** A write that made the copying stop with the error [e]: it wrote nothing or failed. *)
Definition stopped {X} (r : FsResult Z * X) (e : LxError.t) (x' : X) : Prop :=
  r = (Ok 0, x') ∧ e = LxError.EBADF ∨ ∃ fe, r = (Err fe, x') ∧ e = FsError.to_lx fe.
Lemma write_regular o fo n data w : files w !! o = Some fo → inode_of fo = VNode n → regular n → OpenFlags.writable (flags fo) = true → OpenFlags.is_append (flags fo) = false →
  0 ≤ offset fo → offset fo + zlen data < 2 ^ 63 →
  (∃ k w', file_write o data w = (Ok k, w') ∧ 0 < k ≤ zlen data ∧ copied o fo n (ztake k data) w w') ∨
  ∃ e w', (file_write o data w = (Err e, w') ∨ file_write o data w = (Ok 0, w') ∧ e = LxError.EBADF) ∧ copied o fo n [] w w' ∧ stopped (vwrite (fs w) n (offset fo) data) e (fs w').
Proof.
  intros Hf Hn Hr Hw Ha H0 Hb. unfold file_write. rewrite Hf, Ha. unfold file_write_at. rewrite Hf, Hw, Hn. simpl. pose proof (zlen_nonneg data).
  assert (set_offset (offset fo + 0) fo = fo) as Hid by (rewrite Z.add_0_r; by destruct fo).
  pose proof (write_law (fs w) n (offset fo) data Hr H0 Hb) as Hlaw. destruct (vwrite (fs w) n (offset fo) data) as [[k|fe|] x'] eqn:E; simpl; [|right|done].
  - destruct Hlaw as (Hk & Hc & Ho). rewrite wadd_small by (unfold fits; lia). destruct (decide (k = 0)) as [->|Hk0]; [right|left].
    + do 2 eexists. split; [right; by split|]. split; [|by left]. by split; simpl.
    + do 2 eexists. split; [done|]. split; [lia|]. assert (zlen (ztake k data) = k) as Hz by (rewrite zlen_ztake by lia; lia). split; simpl; try done; [by rewrite Hz|].
      rewrite decide_False; [done|]. intros E0. rewrite E0, zlen_nil in Hz. lia.
  - do 2 eexists. split; [by left|]. split; [|right; by exists fe]. split; simpl; try done. rewrite zlen_nil, Hid, list_insert_id by done. done.
Qed.

Lemma copied_nil o fo n w : files w !! o = Some fo → copied o fo n [] w w.
Proof. intros Hf. split; try done. rewrite zlen_nil, Z.add_0_r. rewrite list_insert_id; [done|]. rewrite Hf. by destruct fo. Qed.
Lemma copied_app o fo n l d w w1 w2 : 0 ≤ offset fo → l ≠ [] → copied o fo n l w w1 → copied o (set_offset (offset fo + zlen l) fo) n d w1 w2 → copied o fo n (l ++ d) w w2.
Proof.
  intros H0 Hl [A1 A2 A3 A4 A5] [B1 B2 B3 B4 B5]. split; [congruence|congruence| | |intros m Hm; by rewrite B5, A5].
  - rewrite B3, A3, list_insert_insert_eq. simpl. rewrite zlen_app. unfold set_offset. simpl. do 2 f_equal. lia.
  - rewrite (decide_False (P := l ++ d = [])) by (by destruct l). rewrite decide_False in A4 by done. simpl in B4. destruct (decide (d = [])) as [->|]; [by rewrite app_nil_r, B4|].
    by rewrite B4, A4, splice_splice.
Qed.
Lemma copied_unique_file o fo n data w w' : files w !! o = Some fo → copied o fo n data w w' → files w' !! o = Some (set_offset (offset fo + zlen data) fo).
Proof. intros Hf [_ _ -> _ _]. apply list_lookup_insert_eq. by eapply lookup_lt_Some. Qed.
Lemma write_loop_regular fuel o fo n data w : files w !! o = Some fo → inode_of fo = VNode n → regular n → OpenFlags.writable (flags fo) = true → OpenFlags.is_append (flags fo) = false →
  0 ≤ offset fo → offset fo + zlen data < 2 ^ 63 → (length data ≤ fuel)%nat →
  ∃ k r w', write_loop fuel o data w = (r, w') ∧ 0 ≤ k ≤ zlen data ∧ copied o fo n (ztake k data) w w' ∧
    match r with
    | Ok m => m = zlen data ∧ k = zlen data
    | Err e => k < zlen data ∧ ∃ x, stopped (vwrite x n (offset fo + k) (zdrop k data)) e (fs w')
    | Panic => False
    end.
Proof.
  revert fo data w. induction fuel as [|fuel IH]; intros fo data w Hf Hn Hr Hw Ha H0 Hb Hl; (destruct data as [|c data]; [exists 0, (Ok 0), w; split; [done|]; split; [done|]; split; [by apply copied_nil|done]|]); [simpl in Hl; lia|].
  cbn [write_loop]. assert (0 < zlen (c :: data)) as Hpos by (rewrite zlen_cons; pose proof (zlen_nonneg data); lia). set (d := c :: data) in *.
  destruct (write_regular o fo n d w) as [(k & w1 & -> & Hk & Hc)|(e & w1 & Hw1 & Hc & Hstop)]; try done; cycle 1.
  { exists 0, (Err e), w1. split; [destruct Hw1 as [-> |[-> ->]]; done|]. split; [lia|]. split; [done|]. split; [done|]. exists (fs w). rewrite Z.add_0_r. done. }
  rewrite (proj2 (Z.eqb_neq k 0)) by lia. assert (zlen (ztake k d) = k) as Hz by (rewrite zlen_ztake by lia; lia). pose proof (copied_unique_file _ _ _ _ _ _ Hf Hc) as Hf1. rewrite Hz in Hf1.
  assert (zlen (zdrop k d) = zlen d - k) as Hzd by (rewrite zlen_zdrop by lia; lia).
  assert (length (zdrop k d) ≤ fuel)%nat as Hl1. { unfold zlen in Hzd, Hk. lia. }
  destruct (IH (set_offset (offset fo + k) fo) (zdrop k d) w1) as (k2 & r & w2 & -> & Hk2 & Hc2 & Hr2); try done; [simpl; lia|simpl; lia|]. simpl in Hr2.
  assert (copied o fo n (ztake (k + k2) d) w w2) as Hall.
  { rewrite <-ztake_ztake_app by lia. rewrite Hz. apply (copied_app o fo n _ _ w w1); [done| |done|by rewrite Hz]. intros E0. rewrite E0, zlen_nil in Hz. lia. }
  exists (k + k2). destruct r as [m|e|]; [| |done].
  - destruct Hr2 as [-> ->]. exists (Ok (k + zlen (zdrop k d))), w2. split; [done|]. split; [lia|]. split; [done|]. split; lia.
  - destruct Hr2 as [Hlt (x & Hx)]. exists (Err e), w2. split; [done|]. split; [lia|]. split; [done|]. split; [lia|]. exists x.
    replace (zdrop (k + k2) d) with (zdrop k2 (zdrop k d)) by (unfold zdrop; rewrite drop_drop; f_equal; lia). by rewrite Z.add_assoc.
Qed.

Lemma read_regular i fi n off len w : files w !! i = Some fi → inode_of fi = VNode n → regular n → OpenFlags.readable (flags fi) = true → 0 ≤ off → 0 ≤ len →
  file_read_at i off len w = (Done (Ok (ztake len (zdrop off (content (fs w) n)))), w).
Proof.
  intros Hf Hn Hr Hw H0 Hl. unfold file_read_at. rewrite Hf, Hw, Hn. simpl. rewrite read_law by done. destruct w. simpl. by destruct (negb _).
Qed.

(** How the copying of [data] may end: all of it is written, or it stops behind a part of it. *)
Definition copy_result {A X} `{Vfs X node} (n : node) (off : Z) (data : bytes) (k : Z) (r : LxResult A) (v : A) (x' : X) : Prop :=
  match r with
  | Ok a => a = v ∧ k = zlen data
  | Err e => 0 ≤ k < zlen data ∧ ∃ x rest, rest ≠ [] ∧ rest `prefix_of` zdrop k data ∧ stopped (vwrite x n (off + k) rest) e x'
  | Panic => False
  end.
Lemma copy_loop_regular fuel i o fi fo ni no count ro br tot w :
  files w !! i = Some fi → files w !! o = Some fo → inode_of fi = VNode ni → inode_of fo = VNode no → ni ≠ no → regular ni → regular no →
  OpenFlags.readable (flags fi) = true → OpenFlags.writable (flags fo) = true → OpenFlags.is_append (flags fo) = false →
  0 ≤ ro → 0 ≤ offset fo → br ≤ count → count - br ≤ Z.of_nat fuel → ro + (count - br) < 2 ^ 63 → offset fo + (count - br) < 2 ^ 63 →
  let data := ztake (count - br) (zdrop ro (content (fs w) ni)) in
  ∃ k r w', copy_loop fuel i o count ro br tot w = (Done r, w') ∧ copied o fo no (ztake k data) w w' ∧
    copy_result no (offset fo) data k r (ro + zlen data, br + zlen data, tot + zlen data) (fs w').
Proof.
  revert fo ro br tot w. induction fuel as [|fuel IH]; intros fo ro br tot w Hi Ho Hni Hno Hne Ri Ro Fi Fo Fa H0 H1 H2 H3 H4 H5 data.
  { assert (data = []) as -> by (unfold data; by replace (count - br) with 0 by lia). exists 0, (Ok (ro, br, tot)), w. cbn [copy_loop]. rewrite (proj2 (Z.ltb_ge _ _)) by lia.
    split; [done|]. split; [by apply copied_nil|]. cbn [copy_result]. change (zlen (@nil Z)) with 0. rewrite !Z.add_0_r. done. }
  assert (data = [] → br = count ∨ zdrop ro (content (fs w) ni) = []) as Hempty.
  { intros E. destruct (decide (br = count)); [by left|right]. apply zlen_0. apply (f_equal zlen) in E. unfold data in E. rewrite zlen_ztake, zlen_nil in E by lia. pose proof (zlen_nonneg (zdrop ro (content (fs w) ni))). lia. }
  cbn [copy_loop]. destruct (Z.ltb_spec br count) as [Hlt|Hge].
  2:{ assert (data = []) as -> by (unfold data; by replace (count - br) with 0 by lia). exists 0, (Ok (ro, br, tot)), w. split; [done|]. split; [by apply copied_nil|]. cbn [copy_result]. change (zlen (@nil Z)) with 0. rewrite !Z.add_0_r. done. }
  rewrite (read_regular i fi ni) by (try done; lia). set (c := content (fs w) ni) in *. set (l := ztake (Z.min 1024 (count - br)) (zdrop ro c)).
  assert (zlen l = Z.min (Z.min 1024 (count - br)) (zlen (zdrop ro c))) as Hl by (apply zlen_ztake; lia). pose proof (zlen_nonneg (zdrop ro c)).
  case_bool_decide as Hnil.
  { assert (zdrop ro c = []) as E. { apply zlen_0. rewrite Hnil, zlen_nil in Hl. lia. }
    assert (data = []) as -> by (unfold data; rewrite E; unfold ztake; by rewrite take_nil). exists 0, (Ok (ro, br, tot)), w. split; [done|]. split; [by apply copied_nil|]. cbn [copy_result]. change (zlen (@nil Z)) with 0. rewrite !Z.add_0_r. done. }
  assert (0 < zlen l) as Hpos by (destruct l; [done|]; rewrite zlen_cons; pose proof (zlen_nonneg l); lia).
  assert (data = l ++ ztake (count - (br + zlen l)) (zdrop (ro + zlen l) c)) as Hdata.
  { unfold data. replace (zdrop (ro + zlen l) c) with (zdrop (zlen l) (zdrop ro c)) by (unfold zdrop; rewrite drop_drop; f_equal; lia).
    assert (ztake (count - br) (zdrop ro c) = l ++ ztake (count - br - Z.min 1024 (count - br)) (zdrop (zlen l) (zdrop ro c))) as -> by (unfold l; rewrite ztake_ztake_app by lia; f_equal; lia). f_equal.
    destruct (decide (zlen l = Z.min 1024 (count - br))) as [E|E]; [f_equal; lia|]. assert (zdrop (zlen l) (zdrop ro c) = []) as ->; [apply zlen_0; rewrite zlen_zdrop; lia|]. unfold ztake. by rewrite !take_nil. }
  set (d := ztake (count - (br + zlen l)) (zdrop (ro + zlen l) c)) in *.
  destruct (write_loop_regular (length l) o fo no l w) as (k1 & r1 & w1 & -> & Hk1 & Hc1 & Hr1); try done; [lia|]. destruct r1 as [m|e|]; [|cbn iota|done].
  2:{ destruct Hr1 as [Hlt1 (x & Hx)]. exists k1, (Err e), w1. split; [done|]. rewrite Hdata. assert (ztake k1 (l ++ d) = ztake k1 l) as -> by (apply ztake_app; lia). split; [done|]. cbn [copy_result]. rewrite zlen_app. pose proof (zlen_nonneg d). split; [lia|].
      exists x, (zdrop k1 l). split; [intros E0; pose proof (zlen_zdrop k1 l ltac:(lia)) as Hz; rewrite E0 in Hz; change (zlen (@nil Z)) with 0 in Hz; lia|]. split; [|done]. exists d. unfold zdrop. rewrite drop_app_le; [done|]. unfold zlen in *. lia. }
  destruct Hr1 as [-> ->]. rewrite ztake_all in Hc1 by lia. pose proof Hc1 as [A1 A2 A3 A4 A5]. rewrite wadd_small by (unfold fits; lia). assert (o ≠ i) as Hoi by congruence.
  destruct (IH (set_offset (offset fo + zlen l) fo) (ro + zlen l) (br + zlen l) (tot + zlen l) w1) as (k2 & r & w2 & -> & Hc2 & Hr2); try done; simpl; try lia.
  { rewrite A3. by rewrite list_lookup_insert_ne. } { by eapply copied_unique_file. }
  rewrite A5 in Hc2, Hr2 by done. fold c in Hc2, Hr2. fold d in Hc2, Hr2. simpl in Hr2. exists (zlen l + k2), r, w2. split; [done|]. rewrite Hdata.
  assert (0 ≤ k2) as Hk2. { destruct r as [v|e|]; cbn [copy_result] in Hr2; [|lia|done]. destruct Hr2 as [_ ->]. apply zlen_nonneg. }
  assert (ztake (zlen l + k2) (l ++ d) = l ++ ztake k2 d) as ->. { unfold ztake, zlen. rewrite take_app, take_ge by lia. f_equal. f_equal. lia. }
  split; [by apply (copied_app o fo no l _ w w1); [|destruct l|..]|]. destruct r as [v|e|]; cbn [copy_result] in *; [| |done].
  - destruct Hr2 as [-> ->]. rewrite zlen_app. split; [f_equal; [f_equal|]; lia|done].
  - destruct Hr2 as (Hlt2 & x & rest & Hne2 & Hpre & Hx). rewrite zlen_app. split; [lia|]. exists x, rest. split; [done|]. split; [|by rewrite Z.add_assoc].
    assert (zdrop (zlen l + k2) (l ++ d) = zdrop k2 d) as ->; [|done]. unfold zdrop, zlen. rewrite drop_app, drop_ge by lia. simpl. f_equal. lia.
Qed.

Lemma set_file_id id f w : files w !! id = Some f → set_file id f w = w.
Proof. intros Hf. destruct w. unfold set_file, set_files. simpl in *. by rewrite list_insert_id. Qed.
Lemma seek_same id f w : files w !! id = Some f → fits 64 (offset f) → file_seek id (Current 0) w = (Ok (offset f), w).
Proof.
  intros Hf Hb. unfold file_seek. rewrite Hf, Z.add_0_r. unfold wrap. rewrite Z.mod_small by done. rewrite set_file_id; [done|]. by destruct f.
Qed.

(** The files after the call: on success the offsets that the call names move, on an error that of the output is left behind what was written. *)
Definition files_after (i o : nat) fi fo (in_off out_off : option Z) (k : Z) (ok : bool) (l : list (File (node := node))) : list File :=
  if ok then
    <[i := if in_off is Some _ then fi else set_offset (offset fi + k) fi]> (<[o := if out_off is Some _ then fo else set_offset (offset fo + k) fo]> l)
  else <[o := set_offset (default (offset fo) out_off + k) fo]> l.

(** What comes after a loop that has copied everything. *)
Lemma copy_end_regular i o fi fo in_off out_off k w w2 :
  let ro := default (offset fi) in_off in let wo := default (offset fo) out_off in
  i ≠ o → files w !! i = Some fi → files w !! o = Some fo → files w2 = <[o := set_offset (wo + k) fo]> (files w) → 0 ≤ k → 0 ≤ wo → wo + k < 2 ^ 63 → 0 ≤ offset fi → offset fi + k < 2 ^ 63 →
  ∃ w', copy_end i o (is_none in_off) (is_none out_off) None None (offset fo) (default 0 out_off) (ro + k) k k w2 =
      (Done (Ok (k, (λ v, v + k) <$> in_off, (λ v, v + k) <$> out_off)), w') ∧
    procs w' = procs w2 ∧ pipes w' = pipes w2 ∧ fs w' = fs w2 ∧ files w' = files_after i o fi fo in_off out_off k true (files w).
Proof.
  intros ro wo Hio Hi Ho F2 Hk Hwo Hwo' Hfi Hfi'. assert (files w2 !! i = Some fi) as Hi2 by (by rewrite F2, list_lookup_insert_ne).
  assert (files w2 !! o = Some (set_offset (wo + k) fo)) as Ho2 by (rewrite F2; apply list_lookup_insert_eq; by apply lookup_lt_Some in Ho).
  unfold copy_end, files_after. unfold file_seek at 1. rewrite Hi2. unfold wrap. rewrite Z.mod_small by lia.
  assert (∀ f w3, files w3 = <[i := f]> (files w2) → file_seek o (Start (offset fo)) w3 = (Ok (offset fo), set_file o fo w3)) as Hback.
  { intros f w3 Hf3. unfold file_seek. rewrite Hf3, list_lookup_insert_ne, Ho2 by done. by destruct fo. }
  assert (files w2 = <[i := fi]> (files w2)) as Hself by (by rewrite list_insert_id).
  assert (v_fits : ∀ v, out_off = Some v → fits 64 v ∧ fits 64 k ∧ fits 64 (v + k)) by (intros v Hv; unfold wo in Hwo, Hwo'; rewrite Hv in Hwo, Hwo'; simpl in *; unfold fits; lia).
  destruct in_off as [u|], out_off as [v|]; simpl.
  - rewrite (Hback fi w2 Hself). simpl. rewrite wadd_small by (by apply v_fits). eexists. split; [done|]. simpl. rewrite F2. split_and!; try done.
    rewrite list_insert_insert_eq. symmetry. apply list_insert_id. rewrite list_lookup_insert_ne by done. done.
  - eexists. split; [done|]. rewrite F2. split_and!; try done. symmetry. apply list_insert_id. by rewrite list_lookup_insert_ne.
  - rewrite (Hback (set_offset (offset fi + k) fi)) by done. simpl. rewrite wadd_small by (by apply v_fits). eexists. split; [done|]. simpl. rewrite F2. split_and!; try done.
    rewrite (list_insert_insert_ne _ o i), list_insert_insert_eq by done. done.
  - eexists. split; [done|]. simpl. rewrite F2. by split_and!.
Qed.

(** C35. [copy_file_range] (and so [sendfile]) between two regular files of a file system that may write less than it is given, or fail: [data] being
    what there is to copy, a prefix of [data] is written to the output from its offset on, and nothing else
    of it or of any other file changes.  Either it is all of [data], and the call returns its length and the offsets that the call names, those of the files or
    those in user memory, move by it while the others stay; or the call fails, because the file system failed with this error, or wrote nothing ([EBADF]), when it was
    given a part of what is left. *)
Theorem copy_file_range_exact pid a b i o fi fo ni no in_off out_off count w :
  desc w pid a = Some (i, fi) → desc w pid b = Some (o, fo) → inode_of fi = VNode ni → inode_of fo = VNode no → ni ≠ no → regular ni → regular no →
  OpenFlags.readable (flags fi) = true → OpenFlags.writable (flags fo) = true → OpenFlags.is_append (flags fo) = false →
  let ro := default (offset fi) in_off in let wo := default (offset fo) out_off in
  0 ≤ count → 0 ≤ offset fi → 0 ≤ offset fo < 2 ^ 63 → offset fi + count < 2 ^ 63 → 0 ≤ ro → 0 ≤ wo → ro + count < 2 ^ 63 → wo + count < 2 ^ 63 →
  let data := ztake count (zdrop ro (content (fs w) ni)) in
  ∃ k r w', sys_copy_file_range pid a (Ok <$> in_off) b (Ok <$> out_off) count None None w = (Done r, w') ∧
    copy_result no wo data k r (zlen data, (λ v, v + zlen data) <$> in_off, (λ v, v + zlen data) <$> out_off) (fs w') ∧
    procs w' = procs w ∧ pipes w' = pipes w ∧
    files w' = files_after i o fi fo in_off out_off k (if r is Ok _ then true else false) (files w) ∧
    content (fs w') no = (if decide (ztake k data = []) then content (fs w) no else splice wo (ztake k data) (content (fs w) no)) ∧
    ∀ m, m ≠ no → content (fs w') m = content (fs w) m.
Proof.
  intros Ha Hb Hni Hno Hne Ri Ro Fi Fo Fa ro wo Hc Hfi [Hfo Hfo'] Hfi' Hro Hwo Hro' Hwo' data.
  apply desc_spec in Ha as (p & Hp & Hta & Hi). apply desc_spec in Hb as (p' & Hp' & Htb & Ho). rewrite Hp in Hp'. injection Hp' as <-.
  assert (i ≠ o) as Hio by congruence. pose proof (zlen_nonneg data). assert (zlen data ≤ count) as Hlen by (unfold data; rewrite zlen_ztake by lia; lia).
  unfold sys_copy_file_range, on_file, get_file_like. rewrite Hp, Hta, Htb. simpl.
  set (fo1 := set_offset wo fo). set (w1 := set_file o fo1 w).
  assert (file_seek i (Current 0) w = (Ok (offset fi), w)) as Hs1 by (apply seek_same; [done|unfold fits; lia]).
  assert (file_seek o (Current 0) w = (Ok (offset fo), w)) as Hs2 by (apply seek_same; [done|unfold fits; lia]).
  destruct (copy_loop_regular (Z.to_nat count) i o fi fo1 ni no count ro 0 0 w1) as (k & r & w2 & E2 & [C1 C2 C3 C4 C5] & Hr2); try done; try lia.
  { simpl. by rewrite list_lookup_insert_ne. } { simpl. apply list_lookup_insert_eq. by apply lookup_lt_Some in Ho. } { simpl. lia. }
  simpl in C1, C2, C3, C4, C5, Hr2. rewrite Z.sub_0_r in C3, C4, Hr2. fold data in C3, C4, Hr2.
  assert (files w2 = <[o := set_offset (wo + zlen (ztake k data)) fo]> (files w)) as F2 by (rewrite C3, list_insert_insert_eq; done).
  assert (∀ y, y = (match out_off with Some v => file_seek o (Start v) w | None => (Ok 0, w) end) → y = (Ok (default 0 out_off), w1)) as Hseek.
  { intros y ->. unfold w1, fo1, wo. destruct out_off as [v|]; simpl; [unfold file_seek; by rewrite Ho|]. rewrite set_file_id; [done|]. rewrite Ho. by destruct fo. }
  assert (∀ x, x = (match in_off with Some v => (Ok v, w) | None => file_seek i (Current 0) w end) → x = (Ok ro, w)) as Hseek0 by (intros x ->; unfold ro; destruct in_off; simpl; by rewrite ?Hs1).
  assert (∀ x : option Z, read_ptr (Ok <$> x) = Ok x) as Hptr by (by intros []). rewrite !Hptr. rewrite (Hseek0 _ eq_refl), Hs2, (Hseek _ eq_refl), E2. clear Hseek Hseek0 Hptr E2 Hs1 Hs2.
  exists k. destruct r as [v|e|]; cbn [copy_result] in Hr2; [| |done].
  - destruct Hr2 as [-> ->]. rewrite ztake_all in F2, C4 by lia. rewrite !Z.add_0_l. destruct (copy_end_regular i o fi fo in_off out_off (zlen data) w w2) as (w' & E & D1 & D2 & D3 & D4); try done; try lia. fold ro in E. rewrite E.
    do 2 eexists. split; [done|]. rewrite D3, D1, D2, C1, C2, ztake_all by lia. split; [done|]. split; [done|]. split; [done|]. split; [done|]. split; [done|]. done.
  - exists (Err e), w2. split; [done|]. split; [done|]. split; [done|]. split; [done|]. split; [|done]. unfold files_after. rewrite F2. rewrite zlen_ztake by lia. do 2 f_equal. f_equal. lia.
Qed.

(** *** Directories *)
(** What is left to list, [m] entries of it, has been written up to an entry for which there is no
    room, and the offset is behind that entry; or all of it has. *)
Definition listed (rest : list bytes) (m : nat) (room : Z) (moved_by : Z) : Prop :=
  (m = length rest ∧ moved_by = Z.of_nat m) ∨ (∃ s, rest !! m = Some s ∧ room < reclen s ∧ moved_by = Z.of_nat m + 1).

Lemma dents_loop_listed fuel id f n ty names wr w : files w !! id = Some f → inode_of f = VNode n → directory n → OpenFlags.readable (flags f) = true →
  0 ≤ offset f → offset f + 1 < 2 ^ 64 → Z.of_nat (length (entries (fs w) n)) + 1 < 2 ^ 64 → filled ty names wr → rest_size wr < Z.of_nat fuel →
  let rest := drop (Z.to_nat (offset f)) (entries (fs w) n) in
  ∃ m wr' w' moved_by, dents_loop fuel id ty wr w = (Ok wr', w') ∧ filled ty (names ++ take m rest) wr' ∧ zlen (buf wr') = zlen (buf wr) ∧
    listed rest m (rest_size wr') moved_by ∧ files w' !! id = Some (set_offset (offset f + moved_by) f).
Proof.
  intros Hf Hn Hd Hr H0 Hb Hes. set (es := entries (fs w) n) in *. remember (fs w) as x eqn:Hx. assert (entries (fs w) n = es) as He by (by rewrite <-Hx). clear Hx.
  revert f names wr w Hf Hn Hr H0 Hb He. induction fuel as [|fuel IH]; intros f names wr w Hf Hn Hr H0 Hb He Hw Hfuel rest; [destruct (w_bounds _ _ _ Hw); lia|].
  simpl. unfold file_read_entry. rewrite Hf, Hr, Hn. simpl. rewrite entry_law, He by done. destruct (es !! Z.to_nat (offset f)) as [s|] eqn:Es.
  2:{ simpl. exists 0%nat, wr, w, 0. rewrite take_0, app_nil_r, Z.add_0_r. split; [done|]. split; [done|]. split; [done|]. split.
      - left. unfold rest. rewrite length_drop. apply lookup_ge_None in Es. lia.
      - rewrite Hf. by destruct f. }
  simpl. pose proof (lookup_lt_Some _ _ _ Es) as Hlt. rewrite wadd_small by (unfold fits; lia).
  assert (rest = s :: drop (S (Z.to_nat (offset f))) es) as Hrest by (by apply drop_S). set (w1 := set_file id (set_offset (offset f + 1) f) w).
  assert (files w1 !! id = Some (set_offset (offset f + 1) f)) as Hf1 by (apply list_lookup_insert_eq; by apply lookup_lt_Some in Hf).
  pose proof (try_write_spec ty s names wr Hw) as Ht. destruct (try_write 0 ty s wr) as [[] wr1].
  - destruct Ht as (Ht & Hsz & Hbuf). pose proof (reclen_bounds s) as [Hrb _]. unfold DIRENT_SIZE in Hrb. pose proof (zlen_nonneg s).
    destruct (IH (set_offset (offset f + 1) f) (names ++ [s]) wr1 w1 Hf1) as (m & wr' & w' & mv & E & Hw' & Hlen & Hl & Hf'); try done; simpl in *; try lia.
    replace (Z.to_nat (offset f + 1)) with (S (Z.to_nat (offset f))) in Hw', Hl by lia. set (rest' := drop (S (Z.to_nat (offset f))) es) in *.
    exists (S m), wr', w', (mv + 1). rewrite Hrest. split; [done|]. split; [by rewrite firstn_cons, cons_middle, app_assoc|]. split; [congruence|]. split.
    + destruct Hl as [[-> ->]|(s' & Hs' & Hroom & ->)]; [left; simpl; lia|]. right. exists s'. split; [done|]. split; [done|]. lia.
    + rewrite Hf'. unfold set_offset. simpl. do 2 f_equal. lia.
  - destruct Ht as [-> Hroom]. exists 0%nat, wr, w1, 1. rewrite take_0, app_nil_r. split; [done|]. split; [done|]. split; [done|]. split; [|done]. right. exists s. by rewrite Hrest.
Qed.

(** C34. [getdents64] on a directory lists its entries from the offset on, in order: the caller can read
    the names back from the records, which fit into the buffer, and the next call goes on behind
    them; except that, when the buffer is full, it goes on behind the first entry that did not fit,
    which is never listed. *)
Theorem getdents_exact pid fd id f n buf_size w : desc w pid fd = Some (id, f) → inode_of f = VNode n → directory n → OpenFlags.readable (flags f) = true →
  0 ≤ offset f → offset f + 1 < 2 ^ 64 → Z.of_nat (length (entries (fs w) n)) + 1 < 2 ^ 64 → 0 ≤ buf_size → Forall entry_name (entries (fs w) n) →
  let rest := drop (Z.to_nat (offset f)) (entries (fs w) n) in
  ∃ m b w' moved_by, sys_getdents64 pid fd buf_size None w = (Done (Ok b), w') ∧ read_dirents (length b) b = take m rest ∧ zlen b ≤ buf_size ∧
    listed rest m (buf_size - zlen b) moved_by ∧ files w' !! id = Some (set_offset (offset f + moved_by) f).
Proof.
  intros (p & Hp & Ht & Hf)%desc_spec Hn Hd Hr H0 Hb Hes Hs He rest. unfold sys_getdents64, on_file, get_file_like. rewrite Hp, Ht. cbn [ok_or]. rewrite Hf, Hn.
  destruct (type_law (fs w) n Hd) as [sz Hty]. cbn [inode_metadata]. rewrite Hty. cbn [lx]. rewrite bool_decide_true by done. cbn [negb].
  assert (filled (dirent_type TDir) [] (writer_new (zeros buf_size))) as Hw0.
  { split; cbn [writer_new rest_size written_size buf]; [rewrite zlen_zeros; lia|]. simpl. rewrite zlen_zeros. unfold zeros. f_equal. lia. }
  destruct (dents_loop_listed (S (Z.to_nat buf_size)) id f n (dirent_type TDir) [] (writer_new (zeros buf_size)) w) as (m & wr & w' & mv & E & Hw & Hlen & Hl & Hf'); try done.
  { cbn [writer_new rest_size]. rewrite zlen_zeros. lia. }
  fold rest in Hw, Hl. rewrite E. cbn [rbind deliver]. cbn [writer_new buf] in Hlen. rewrite zlen_zeros in Hlen. destruct Hw as [(B1 & B2 & B3) Hbuf]. rewrite app_nil_l in Hbuf.
  set (recs := mjoin (record (dirent_type TDir) <$> take m rest)) in *.
  assert (as_slice wr = recs) as Hslice.
  { unfold as_slice. rewrite Hbuf. rewrite Hbuf in B3. unfold zlen in B3. rewrite length_app, length_replicate in B3. replace (Z.to_nat (written_size wr)) with (length recs) by lia. apply take_app_length. }
  assert (zlen recs = buf_size - rest_size wr) as Hz by (rewrite Hbuf in Hlen; unfold zlen in *; rewrite length_app, length_replicate in Hlen; lia).
  exists m, recs, w', mv. rewrite Hslice. split; [done|]. split; [|split; [lia|split; [|done]]].
  - apply read_records; [by apply Forall_take, Forall_drop|]. unfold recs. clear. induction (take m rest) as [|s l IH]; [done|]. 
    rewrite fmap_cons. change (mjoin (?a :: ?b)) with (a ++ mjoin b). rewrite length_app, length_cons. pose proof (record_length (dirent_type TDir) s) as Hr. pose proof (reclen_bounds s) as [Hb _]. unfold DIRENT_SIZE, zlen in *. lia.
  - by replace (buf_size - zlen recs) with (rest_size wr) by lia.
Qed.
End regular.

(** ** A file system in memory
    Node 7 is a directory with three entries, the others are regular files.  A write takes two bytes at most, and there is no space
    for node 5. *)
Module FilesDemo.
Definition names : list bytes := [of_string "a"; of_string "bb"; of_string "ccc"].
Definition node_of (p : bytes) : FsResult nat :=
  if bool_decide (p = of_string "a") then Ok 0%nat else if bool_decide (p = of_string "bb") then Ok 1%nat else if bool_decide (p = of_string ".") then Ok 7%nat else Err FsError.EntryNotFound.
#[global] Instance demo_vfs : Vfs (gmap nat bytes) nat := {
  vread x n off len := (Ok (ztake len (zdrop off (default [] (x !! n)))), x);
  vwrite x n off data := if Nat.eqb n 5 then (Err FsError.NoDeviceSpace, x) else let d := ztake 2 data in (Ok (zlen d), <[n := if decide (d = []) then default [] (x !! n) else splice off d (default [] (x !! n))]> x);
  vmetadata x n := Ok (zlen (default [] (x !! n)), if Nat.eqb n 7 then TDir else TFile);
  vresize x n len := (Ok tt, <[n := resize_list len (default [] (x !! n))]> x);
  vlookup _ _ := Ok 7%nat;
  vlookup_follow _ _ p _ := node_of p;
  vfind _ _ p := node_of p;
  vcreate x _ _ _ := (Ok 5%nat, x);
  ventry _ _ k := match names !! Z.to_nat k with Some s => Ok s | None => Err FsError.EntryNotFound end;
  vdefault := FsError.NotSupported
}.
#[global] Instance demo_regular : RegularVfs (gmap nat bytes) nat.
Proof.
  refine {| regular n := n ≠ 7%nat; content x n := default [] (x !! n); directory n := n = 7%nat; entries _ _ := names |}.
  - done.
  - intros x n off data _ _ _. unfold vwrite, demo_vfs. destruct (Nat.eqb n 5); [done|]. rewrite zlen_ztake by lia. pose proof (zlen_nonneg data). split; [lia|]. split; [|intros m Hm; by rewrite lookup_insert_ne].
    rewrite lookup_insert_eq. simpl. pose proof (zlen_ztake 2 data ltac:(lia)) as Hz. destruct (decide (ztake 2 data = [])) as [E|E].
    + rewrite E in Hz. change (zlen (@nil Z)) with 0 in Hz. rewrite decide_True by lia. done.
    + rewrite decide_False by (intros E0; apply E, zlen_0; lia). f_equal. destruct (decide (2 ≤ zlen data)); [by rewrite Z.min_l by lia|]. rewrite Z.min_r, !ztake_all by lia. done.
  - intros x n ->. by eexists.
  - done.
Defined.

Definition disk : gmap nat bytes := {[0%nat := of_string "hello"; 1%nat := of_string "......."]}.
Abbreviation demo_op := (op (FS := gmap nat bytes) (node := nat)).
Definition open (name : string) : demo_op := Openat 1 CWD (Ok (of_string name)) OpenFlags.RDWR 0.
(** Descriptors 3 and 4 for the files, 5 for the directory, 6 and 7 for a pipe; a child with copies of them. *)
Definition history : list demo_op := [Spawn 1 8%nat 9%nat; open "a"; open "bb"; open "."; Pipe2 1 0 None; Fork 1 2].
Abbreviation demo_world := (world (FS := gmap nat bytes) (node := nat)).
Definition state : demo_world := run history (init disk).
Definition file_at (w : demo_world) (pid fd : Z) : nat * File (node := nat) := default (0%nat, mkFile [] 0 0 (Pseudo [])) (desc w pid fd).

Lemma descriptors_independent_witness : desc (exec (Read 1 3 4 None) state) 1 4 = Some (file_at state 1 4).
Proof.
  refine (descriptors_independent history disk (Read 1 3 4 None) 1 4 (file_at state 1 4).1 (file_at state 1 4).2 _ _ _ _); [simpl; lia|vm_compute; reflexivity|by intros []|].
  intros g ->%list_elem_of_singleton. split; [done|by intros []].
Defined.

(** The write end is still open in the parent and in the child; then in neither. *)
Lemma pipe_eof_exact_witness : (sys_read 2 6 10 None state).1 = Waits ∧ (sys_read 2 6 10 None (run [Close 1 7; Close 2 7] state)).1 = Done (Ok []).
Proof.
  split.
  - unfold state at 1. edestruct (pipe_eof_exact history disk 2 6 (file_at state 2 6).1 (file_at state 2 6).2 0 10) as (p & Hp & E); [simpl; lia|vm_compute; reflexivity|reflexivity|reflexivity|lia|].
    vm_compute in Hp. injection Hp as <-. rewrite E. vm_compute. reflexivity.
  - assert (run [Close 1 7; Close 2 7] state = run (history ++ [Close 1 7; Close 2 7]) (init disk)) as -> by (unfold state, run; by rewrite foldl_app).
    edestruct (pipe_eof_exact (history ++ [Close 1 7; Close 2 7]) disk 2 6 (file_at state 2 6).1 (file_at state 2 6).2 0 10) as (p & Hp & E); [simpl; lia|vm_compute; reflexivity|reflexivity|reflexivity|lia|].
    vm_compute in Hp. injection Hp as <-. rewrite E. vm_compute. reflexivity.
Defined.

Lemma copy_file_range_exact_witness : ∃ w', sys_copy_file_range 1 3 (Some (Ok 1)) 4 None 3 None None state = (Done (Ok (3, Some 4, None)), w') ∧ content (fs w') 1%nat = of_string "ell....".
Proof.
  destruct (copy_file_range_exact 1 3 4 (file_at state 1 3).1 (file_at state 1 4).1 (file_at state 1 3).2 (file_at state 1 4).2 0%nat 1%nat (Some 1) None 3 state) as (k & r & w' & E & R & _ & _ & _ & C & _);
    [vm_compute; (reflexivity || discriminate || (split; discriminate || reflexivity)).. |].
  assert (r = Ok (3, Some 4, None)) as Er by (apply (f_equal fst) in E; vm_compute in E; by injection E as <-). rewrite Er in E, R. destruct R as [_ Ek]. vm_compute in Ek.
  exists w'. split; [exact E|]. rewrite C, Ek. vm_compute. reflexivity.
Defined.
(** Without space nothing is copied. *)
Lemma copy_fails : let w := set_file 4%nat (mkFile [] 0 OpenFlags.RDWR (VNode 5%nat)) state in
  (sys_copy_file_range 1 3 (Some (Ok 1)) 4 None 3 None None w).1 = Done (Err LxError.ENOMEM).
Proof. by vm_compute. Qed.

(** A buffer for one record: the second entry is skipped. *)
Lemma getdents_exact_witness : ∃ b w', sys_getdents64 1 5 40 None state = (Done (Ok b), w') ∧ read_dirents (length b) b = [of_string "a"] ∧ offset (file_at w' 1 5).2 = 2.
Proof.
  destruct (getdents_exact 1 5 (file_at state 1 5).1 (file_at state 1 5).2 7%nat 40 state) as (m & b & w' & mv & E & R & _);
    [vm_compute; (reflexivity || discriminate).. |repeat constructor; vm_compute; set_solver|].
  exists b, w'. split; [exact E|]. vm_compute in E. injection E as <- <-. split; vm_compute; reflexivity.
Defined.

(** Where the calls differ from what they are documented to do. *)
(** [dup] copies the offset: the two descriptors do not share it. *)
Lemma dup_does_not_share : let w := run [Dup 1 3; Read 1 3 2 None] state in offset (file_at w 1 3).2 = 2 ∧ offset (file_at w 1 8).2 = 0.
Proof. by vm_compute. Qed.
(** [dup2] closes its second argument before it looks at the first one. *)
Lemma dup2_itself_closes : (sys_dup2 1 3 3 state).1 = Err LxError.EBADF ∧ desc (sys_dup2 1 3 3 state).2 1 3 = None.
Proof. by vm_compute. Qed.
Lemma dup2_invalid_closes : (sys_dup2 1 99 3 state).1 = Err LxError.EBADF ∧ desc (sys_dup2 1 99 3 state).2 1 3 = None.
Proof. by vm_compute. Qed.
(** [F_SETFL] also clears the flag that closes the file at [execve]. *)
Lemma setfl_clears_cloexec : let w := run [Fcntl 1 3 2 1; Fcntl 1 3 4 0] state in OpenFlags.close_on_exec (flags (file_at (exec (Fcntl 1 3 2 1) state) 1 3).2) = true ∧ OpenFlags.close_on_exec (flags (file_at w 1 3).2) = false.
Proof. by vm_compute. Qed.
(** An offset before the start of the file is accepted and becomes a very large one. *)
Lemma seek_negative : (sys_lseek 1 3 (-1) 1 state).1 = Done (Ok (2 ^ 64 - 1)).
Proof. by vm_compute. Qed.
(** A short [readv] overwrites the buffers behind the bytes that were read. *)
Lemma readv_overwrites : (sys_readv 1 3 (Ok [4; 4]) None state).1 = Done (Ok (5, [of_string "hell"; [111; 0; 0; 0]])).
Proof. by vm_compute. Qed.
(** [fcntl(F_DUPFD)] with a large argument gives a negative descriptor. *)
Lemma dupfd_negative : (sys_fcntl 1 3 0 (2 ^ 31) state).1 = Ok (- 2 ^ 31).
Proof. by vm_compute. Qed.
(** When there is no room for the second descriptor of a pipe, the first one stays open. *)
Lemma pipe2_leaks : let w := exec (Setlimit 1 (mkLimit 9 9)) state in (sys_pipe2 1 0 None w).1 = Err LxError.EMFILE ∧ desc (sys_pipe2 1 0 None w).2 1 8 ≠ None.
Proof. by vm_compute. Qed.
End FilesDemo.
